(* ===== verification/_CoqProject ===== *)
-Q . S2P
Prelude.v
CString.v
Capture.v
HookPolicy.v
Config.v
InodeSet.v
LineReader.v
ProcParse.v
Observed.v
Sampler.v
PointerTable.v
LiveProps.v
Locks.v
LockProps.v
StackRefs.v
ModuleMaps.v
LiveList.v
PeakSnapshot.v
SnapshotProps.v
SnapshotLag.v
Report.v
DmaBuf.v
HookCalls.v
HookProps.v
AsyncStack.v
AsyncPipeline.v
AsyncCache.v
AsyncProps.v
AsyncResolve.v
UnwindMemory.v
UnwindMemProps.v
Outcome.v
UnwindMaps.v
UnwindMapsProps.v
UnwindMapsText.v
DwarfMemory.v
DwarfMemProps.v
DwarfOp.v
DwarfOpProps.v
DwarfExpr.v
DwarfCfa.v
DwarfCfaProps.v
UnwindRegs.v
UnwindRegsProps.v
Unwinder.v
UnwinderProps.v
UnwinderStack.v
ArmExidx.v
ArmExidxProps.v
DwarfSection.v
DwarfFrame.v
DwarfIndex.v
DwarfEval.v
Symbols.v
SymbolsProps.v
ElfInterface.v
Elf.v
ElfProps.v
ElfNotes.v
ElfMaps.v
ElfMapsProps.v
Bootstrap.v
BootstrapProps.v
ObserveOnly.v
Lifecycle.v
LifecycleProps.v
ProcessTree.v
ProcessTreeProps.v
Interpose.v
InterposeProps.v
Probe.v
ProbeJson.v
ProbeProps.v
ProbeRun.v
