(* ===== verification/Prelude.v ===== *)
(** * A verification of malloc_hook

    malloc_hook is a library preloaded into a process.  It interposes the
    allocation calls, keeps a record of every live allocation with the stack it
    was made from, follows the memory of the whole process through /proc, and
    writes a report of what was live at the peak.  This development models the
    library in Rocq, function by function, and proves what its reports rely on.

    ** The parts and how they interact

    The exported functions (src/alloc_hook.cpp, [Interpose]) decide who serves a
    call of the program: the tracker, libc, or, while libc is being looked up,
    an early allocator ([Bootstrap]).  Tracked calls enter one of the debug_
    functions (backtrace/src/malloc_debug.cpp, [HookCalls]).  It makes the
    system call, and tells the tracker [PointerData]
    (backtrace/src/PointerData.cpp) what was allocated or released.  The tracker
    captures a stack (backtrace/src/UnwindBacktrace.cpp, [Capture]), counts a
    reference to it, stores the record in one of 64 shards and adjusts the byte
    counters ([PointerTable]); when the total reaches a new peak it may retain a
    snapshot of the live records ([PeakSnapshot]).  Which locks this takes is
    [Locks].  A sampling thread (backtrace/src/ObservedMemory.cpp, [Sampler])
    reads the memory of the process ([Observed]) and asks for snapshots at the
    peaks of that figure.  At exit, or on a signal ([Lifecycle]), the snapshot is
    written out with its context ([LiveList], [ModuleMaps], [Report]).  The
    environment decides which of this happens ([Config]), and in a tree of
    processes which of them measures (backtrace/src/ObserveOnlyProbe.cpp,
    [ObserveOnly], [ProcessTree]).  Stacks can be symbolized by a background
    thread (backtrace/src/AsyncStackPipeline.cpp, [AsyncPipeline]).  A separate
    program tries the allocators of device memory
    (probe/alloc_hook_probe.cpp, [Probe]).

    One of the capture backends is the vendored native unwinder
    (unwindstack/).  Its loop ([Unwinder]) goes from a frame to its caller: it
    finds the map of the program counter ([UnwindMaps]) and the ELF object of the
    map ([ElfMaps], [Elf], [ElfInterface]), the name of the function
    ([Symbols]), and the entry of the function in a frame section
    ([DwarfSection]) or an exception table ([ArmExidx]); it executes the frame
    instructions of the entry to get the rules for the registers ([DwarfCfa]),
    and evaluates the rules, expressions included ([DwarfOp]), on the registers
    ([UnwindRegs]) and the memory of the process ([UnwindMemory]); frames of
    signal handlers are unwound from their context.

    ** The files

    - [Prelude]: machine integers, record update, sums over maps and lists,
      [std::sort], shared lemmas and tactics.
    - [CString], [LineReader]: the C string functions used, and the loop that
      reads a /proc file through a fixed buffer.
    - [Capture] (UnwindBacktrace.h/.cpp): raw stack records and the capture
      backends.  Theorems: the frame-pointer walk terminates, records exactly
      the chain of frame records, and reads nothing outside the thread's stack;
      the compiler backend's record; the contract of [CaptureStackInto].
    - [HookPolicy] (HookSourcePolicy.h, debug_disable.h/.cpp): success filters,
      the kinds of mapping, the pending GPU allocation, the re-entrancy switch.
    - [Config] (Config.h/.cpp): parsing and [Init].  Theorems: what [Init]
      decides, when the process only observes, the peak floor, round trips.
    - [InodeSet], [ProcParse] (ObservedMemory.cpp): the inode set and the
      parsers of /proc and /sys.  Theorems: the set counts each inode once over
      its generations, no reader depends on how a file is split into reads,
      device buffers are counted once, bounds on the GPU figures.
    - [Observed], [Sampler] (ObservedMemory.h/.cpp): one sample of process
      memory; the sampling thread.  Theorems: which accounting a sample uses,
      the gate of the expensive pass, the sampling grid, the recorded peak is
      the maximum, when snapshots are requested.
    - [PointerTable], [LiveProps], [StackRefs] (PointerData.h/.cpp): the live
      table behind the interface [LiveTable], with the 64 shards and one map as
      instances; its critical sections.  Theorems: the counters are the sums of
      the live records, the peaks are their maxima, the shards behave as one
      map, the membership filter has no false negatives, and, in every
      interleaving of the sections, reference counts of stacks are exact.
    - [Locks], [LockProps] (malloc_debug.cpp, PointerData.cpp): the lock
      operations of every way through every call.  Theorems: threads that make
      any calls never block each other for ever; a fork child finds the locks
      free.
    - [ModuleMaps], [LiveList] (PointerData.cpp): attribution of program
      counters and of residency; the list of live allocations.  Theorems:
      resolution is exact, ELF headers are read in bounds, residency adds up,
      the list is canonical and accounts for every record.
    - [PeakSnapshot], [SnapshotProps], [SnapshotLag] (PointerData.cpp): the
      snapshot state, the full operations [Add], [Remap], [Remove] and
      [RecordObservedPeak], and the transition system of all critical sections.
      Theorems: every retained snapshot accounts for what it says in every
      interleaving, final snapshots stay, the operations are sequences of the
      sections, the snapshot lags the peak by at most one step.
    - [Report] (PointerData.cpp): the lines of the reports.  Theorems: where a
      printed stack starts; step reports leave the peak in place.
    - [DmaBuf], [HookCalls], [HookProps] (malloc_debug.cpp, the driver headers):
      DMA descriptors and the interposed calls.  Theorems: the records mirror
      what the program owns by its calls' results, descriptors are counted
      once, the calls are transparent to the program.
    - [AsyncStack], [AsyncPipeline], [AsyncCache], [AsyncProps], [AsyncResolve]
      (AsyncStackPipeline.h/.cpp): module snapshots behind the interface
      [ModuleResolver], and the threads of the pipeline as a transition system.
      Theorems: accepted stacks are called back once and in order, the caches
      stay bounded and consistent, every call returns, the registry refines the
      history of what was loaded, and frames name the modules of their capture.
    - [Bootstrap], [BootstrapProps] (src/alloc_hook.cpp): the early allocator.
      Theorem: it refines a map from pointers to blocks of memory.
    - [Interpose], [InterposeProps] (src/alloc_hook.cpp, memory_hook.cpp): the
      exported functions, nested through the loader and the construction of the
      tracker.  Theorems: they end within three levels, and blocks go back to
      the allocator they came from.
    - [ObserveOnly], [ProcessTree], [ProcessTreeProps] (ObserveOnlyProbe.cpp/.h):
      one copy of the library, and a tree of processes that fork, exec and load
      copies.  Theorems: no descendant of the target measures, and the tree
      reports at most once.
    - [Lifecycle], [LifecycleProps] (malloc_debug.cpp, DebugData.cpp): start,
      dump signals, fork and end.  Theorem: who reports, and which requests
      are served.
    - [Probe], [ProbeJson], [ProbeProps], [ProbeRun]
      (probe/alloc_hook_probe.cpp): the stand-alone program over any kernel.
      Theorems: it ends and gives back what it got on every path, makes only the
      calls its options allow, and reports each case once in lines that read
      back.

    - [UnwindMemory], [UnwindMemProps] (unwindstack/Memory.cpp and its
      headers): the memory objects behind the class [Memory].  Theorems: reads
      through the page cache are the bytes of the process; [ReadString] is exact.
    - [Outcome]: the monad of programs that fail or have undefined behaviour,
      its weakest preconditions, and the predicates for termination and frames.
    - [DwarfMemory], [DwarfMemProps] (DwarfMemory.cpp): the reader.  Theorems:
      LEB128 numbers and encoded pointers are read back as they were written.
    - [DwarfOp], [DwarfOpProps], [DwarfExpr] (DwarfOp.cpp, RegsInfo.h):
      expressions.  Theorems: evaluation ends, stays in its bounds and reports
      its errors for every sequence of bytes; compiled terms have their value.
    - [DwarfCfa], [DwarfCfaProps] (DwarfCfa.cpp/.h): frame instructions.
      Theorems: the rules hold over the range reported with them, and the
      interpreter ends, each with the condition it needs; without it, a program
      for which the range is too wide and one that is executed for ever.
    - [UnwindRegs], [UnwindRegsProps] (Regs.cpp and the Regs files of the six
      architectures): register sets.  Theorem: stepping out of a handler
      restores the registers of its context.
    - [UnwindMaps], [UnwindMapsProps], [UnwindMapsText] (process_map.h, Maps.cpp,
      MapInfo.h): the parser of the maps of a process and the list of shared
      map objects.  Theorems: an update makes the list that of the process and
      keeps the objects of maps that stayed; a printed file is read back.
    - [Unwinder], [UnwinderProps], [UnwinderStack] (Unwinder.cpp): the loop.
      Theorems: how many frames it makes and when it ends; and that, where the
      unwind data leads from each frame to its caller, it shows the stack.
    - [ArmExidx], [ArmExidxProps] (ArmExidx.cpp, ElfInterfaceArm.cpp): exception
      tables.  Theorem: a step restores the registers of the caller.
    - [DwarfSection] (DwarfSection.cpp, DwarfEhFrameWithHdr.cpp and headers):
      the entries, the index, the header's table, evaluation and [Step].
      [DwarfFrame] shows what reading and evaluating leave alone.  Theorems in
      [DwarfIndex]: the index finds the first entry of the section that contains
      a program counter, and the binary search the last entry at or below it.
      Theorem in [DwarfEval]: the rules of a frame are one simultaneous
      assignment, whatever the order the unordered map yields them in.
    - [Symbols], [SymbolsProps] (Symbols.cpp): symbol tables.  Theorem: every
      address gets its function, whatever was asked before.
    - [ElfInterface], [Elf], [ElfProps], [ElfNotes] (ElfInterface.cpp, Elf.cpp):
      ELF files and objects.  Theorems: the two ways to read a file agree; the
      build ID of a section of notes is read back.
    - [ElfMaps], [ElfMapsProps] (MapInfo.cpp, the cache of Elf.cpp): the ELF
      objects of maps.  Theorem: what holds of all maps after any calls.

    ** How the code is represented

    A w-bit integer is a [Z] with its reductions written out.  Hash maps are
    [gmap]s; where the iteration order of one can show, theorems hold for every
    order.  A method is a function from its object's state to the result and
    the new state; a function that can fail returns an option.  What a function
    learns from outside the repository (results of system calls, the clock,
    file contents, addresses found by an unwinder) is an argument.  The parsers
    of the unwinder are programs of the monad of [Outcome]: they return, fail as
    the code returns false, or reach a fault (an access out of range, a shift or
    signed operation C++ does not define, a call of abort).  Objects that are
    shared, maps and ELF objects, live in a heap and are referred to by number;
    process memory is the class [Memory], and what the loop of the unwinder asks
    of an ELF object the interface [ElfOps].  Code under a lock is one step;
    [StackRefs], [SnapshotProps], [AsyncPipeline], [Locks] and [ProcessTree]
    interleave such steps, the other theorems on sequences hold for every order
    of them.

    ** Bounds

    Loops over buffers and descriptors recurse on the data.  The frame-pointer
    walk has as fuel the number of words of the thread's stack ([fp_fuel]): it
    only moves up, and [frame_pointer_capture] proves that it never runs out.
    The read loops are bounded by the length of the file, which every pass
    shortens.  A LEB128 number has fuel for 11 bytes: the eleventh is a fault.
    An expression has fuel 1000, the limit of the code, and [Eval_terminates]
    proves it enough.  Frame instructions have one turn for every byte of the
    program ([cfa_fuel]); [location_info_terminates] proves it enough where no
    block wraps the cursor.  The binary search has 64 turns, which
    [header_search_finds_last] proves enough below 2^63 entries.  The scan of a
    section and the augmentation strings take their fuel as an argument: the
    code has no bound of its own for them.  So does the loop of the unwinder, for
    which the limit of frames is enough unless libraries are skipped
    ([unwind_ends]).  The search of the exception index has 65 turns, and their
    numbers 6 bytes; the search in a symbol table as many turns as symbols, in
    the list of maps as maps; scans of notes are bounded by the size of the
    section; interposed calls nest three deep, which [interposition_ends] proves
    enough; a file the probe reads has one turn for each byte it may keep and
    each interruption of one.  Theorems on sums assume that the live
    bytes fit 64 bits and fewer than 2^56 records exist, theorems on stack
    indices fewer than 2^64 stacks; both hold in any address space.

    ** What is not modelled

    Of the library: the floating-point formatting of the printed figures, the
    text of debug logs and trace markers, the failure of writes of a report, and
    the scheduling of the tracker's operations relative to the system calls of
    other threads.  Of the unwinder: JIT and dex files (DexFile.cpp, JitDebug.cpp,
    Global.cpp), which are read through the debug interface of a running
    virtual machine; the handshake with the signal handler of another thread
    (ThreadUnwinder.cpp, ThreadEntry.cpp), as the library unwinds only the thread
    that calls it; the wrappers that set an unwinder up (AndroidUnwinder.cpp);
    the printing and demangling of frames; [.gnu_debugdata], which this build
    never makes; the log functions of the frame instructions, which print nothing
    in this build; and the utilities vendored with it (android-base).  [Capture]
    takes the frames of the unwinder as an argument and [Unwinder] the answers of
    ELF objects: the components are proved one by one, not as one composition.
    The mutexes of the unwinder's caches and objects are left out.  Memory
    ordering of atomics is sequential consistency.  Build files, scripts and tests
    are not part of the behaviour. *)
From Stdlib Require Export ZArith Lia Bool Ascii.
From stdpp Require Export base numbers list fin_maps gmap strings sorting.

#[global] Open Scope Z_scope.

(** ** Machine integers *)

(** A [w]-bit unsigned integer is a [Z]; every operation of the C++ code that
    can wrap is written with the reduction it performs. *)
Definition wrap (w z : Z) : Z := z mod 2 ^ w.
Definition u8 (z : Z) : Z := wrap 8 z.
Definition u16 (z : Z) : Z := wrap 16 z.
Definition u32 (z : Z) : Z := wrap 32 z.
Definition u64 (z : Z) : Z := wrap 64 z.

(** [static_cast<int32_t>] of a value. *)
Definition i32 (z : Z) : Z := let r := u32 z in if r <? 2 ^ 31 then r else r - 2 ^ 32.

Definition SIZE_MAX : Z := 2 ^ 64 - 1.
Definition UINT16_MAX : Z := 2 ^ 16 - 1.
Definition UINTPTR_MAX : Z := 2 ^ 64 - 1.

Declare Scope word_scope.
Delimit Scope word_scope with word.
Notation "a ⊞ b" := (u64 (a + b)) (at level 50, left associativity) : word_scope.
Notation "a ⊟ b" := (u64 (a - b)) (at level 50, left associativity) : word_scope.
Notation "a ⊠ b" := (u64 (a * b)) (at level 40, left associativity) : word_scope.
#[global] Open Scope word_scope.

(** [if (n)] on an integer used as a flag word. *)
Definition flag_set (flags bit : Z) : bool := negb (Z.land flags bit =? 0).

(** ** Functional record update *)

(** [Updatable R] is the eta expansion of a record; [FieldSet proj] is the
    update of one field, found by abstracting [proj] in that eta expansion. *)
Class Updatable (R : Type) := eta_expand : R → R.
Class FieldSet {R T : Type} (proj : R → T) := field_set : (T → T) → R → R.
#[global] Arguments field_set {R T} proj {_} f r /.
#[global] Hint Mode FieldSet ! ! ! : typeclass_instances.

Ltac derive_field_set :=
  match goal with
  | |- @FieldSet ?R ?T ?proj =>
      let e := eval hnf in (@eta_expand R _) in
      let p := eval pattern proj in e in
      match p with ?F _ => exact (λ (g : T → T), F (λ r, g (proj r))) end
  end.
#[global] Hint Extern 1 (FieldSet _) => derive_field_set : typeclass_instances.

Notation "r <| p := v |>" := (field_set p (λ _, v) r)
  (at level 1, left associativity, p at level 9, v at level 200).


(** ** Arithmetic lemmas *)

Lemma wrap_range w z : 0 ≤ w → 0 ≤ wrap w z < 2 ^ w.
Proof. intros. apply Z.mod_pos_bound. by apply Z.pow_pos_nonneg. Qed.

Lemma u64_range z : 0 ≤ u64 z < 2 ^ 64.
Proof. by apply wrap_range. Qed.

Lemma u64_small z : 0 ≤ z < 2 ^ 64 → u64 z = z.
Proof. apply Z.mod_small. Qed.

Lemma u64_idemp z : u64 (u64 z) = u64 z.
Proof. apply u64_small, u64_range. Qed.

Lemma u64_add_l a b : u64 (u64 a + b) = u64 (a + b).
Proof. apply Zplus_mod_idemp_l. Qed.
Lemma u64_add_r a b : u64 (a + u64 b) = u64 (a + b).
Proof. apply Zplus_mod_idemp_r. Qed.
Lemma u64_sub_l a b : u64 (u64 a - b) = u64 (a - b).
Proof. apply Zminus_mod_idemp_l. Qed.
Lemma u64_sub_r a b : u64 (a - u64 b) = u64 (a - b).
Proof. apply Zminus_mod_idemp_r. Qed.
Lemma u64_mul_l a b : u64 (u64 a * b) = u64 (a * b).
Proof. apply Zmult_mod_idemp_l. Qed.

Create Rewrite HintDb words.
#[export] Hint Rewrite u64_idemp u64_add_l u64_add_r u64_sub_l u64_sub_r u64_mul_l : words.

(** Equality modulo [2^64], a congruence for the ring operations: reductions
    inside a word disappear by setoid rewriting. *)
Definition eq64 (a b : Z) : Prop := u64 a = u64 b.
#[global] Instance eq64_equivalence : Equivalence eq64.
Proof. split; unfold eq64; congruence. Qed.
#[global] Instance add_eq64 : Proper (eq64 ==> eq64 ==> eq64) Z.add.
Proof. intros a a' Ha b b' Hb. unfold eq64 in *. by rewrite <-u64_add_l, Ha, u64_add_l, <-u64_add_r, Hb, u64_add_r. Qed.
#[global] Instance sub_eq64 : Proper (eq64 ==> eq64 ==> eq64) Z.sub.
Proof. intros a a' Ha b b' Hb. unfold eq64 in *. by rewrite <-u64_sub_l, Ha, u64_sub_l, <-u64_sub_r, Hb, u64_sub_r. Qed.
#[global] Instance mul_eq64 : Proper (eq64 ==> eq64 ==> eq64) Z.mul.
Proof.
  intros a a' Ha b b' Hb. unfold eq64 in *.
  by rewrite <-u64_mul_l, Ha, u64_mul_l, Z.mul_comm, <-u64_mul_l, Hb, u64_mul_l, Z.mul_comm.
Qed.
Lemma eq64_u64 a : eq64 (u64 a) a.
Proof. apply u64_idemp. Qed.

(** Two words built from sums, differences and products are equal when the
    integers under the reductions are. *)
Ltac word_eq :=
  lazymatch goal with |- u64 ?a = u64 ?b => change (eq64 a b) end;
  repeat rewrite eq64_u64; apply (f_equal u64); lia.

(** [hash & (2^k - 1)] and [x & ~(2^k - 1)] as division facts. *)
Lemma land_ones_mod a k : 0 ≤ k → Z.land a (2 ^ k - 1) = a mod 2 ^ k.
Proof.
  intros. rewrite <-Z.land_ones by done. by rewrite Z.ones_equiv.
Qed.

Lemma land_ones_range a k : 0 ≤ k → 0 ≤ Z.land a (2 ^ k - 1) < 2 ^ k.
Proof. intros. rewrite land_ones_mod by done. by apply wrap_range. Qed.

(** ** Sums over finite maps and lists *)

Definition map_sum `{Countable K} {A} (f : A → Z) (m : gmap K A) : Z :=
  map_fold (λ _ x acc, f x + acc) 0 m.

Fixpoint list_sum {A} (f : A → Z) (l : list A) : Z :=
  match l with [] => 0 | x :: l => f x + list_sum f l end.

Section sums.
Context `{Countable K} {A : Type}.
Implicit Types (m : gmap K A) (f : A → Z).

Lemma map_sum_empty f : map_sum f (∅ : gmap K A) = 0.
Proof. apply map_fold_empty. Qed.

Lemma map_sum_insert_None f m k x :
  m !! k = None → map_sum f (<[k:=x]> m) = f x + map_sum f m.
Proof.
  intros Hk. unfold map_sum.
  apply (map_fold_insert_L (λ _ x acc, f x + acc)); [intros; lia | done].
Qed.

Lemma map_sum_delete f m k x :
  m !! k = Some x → map_sum f m = f x + map_sum f (delete k m).
Proof.
  intros Hk. rewrite <-(map_sum_insert_None f (delete k m) k x).
  - by rewrite insert_delete_eq, insert_id.
  - apply lookup_delete_eq.
Qed.

Lemma map_sum_delete_default f m k :
  map_sum f (delete k m) = map_sum f m - from_option f 0 (m !! k).
Proof.
  destruct (m !! k) as [x|] eqn:E; cbn.
  - rewrite (map_sum_delete f m k x E). lia.
  - rewrite delete_id by done. lia.
Qed.

Lemma map_sum_insert f m k x :
  map_sum f (<[k:=x]> m) = f x + map_sum f m - from_option f 0 (m !! k).
Proof.
  rewrite <-insert_delete_eq, map_sum_insert_None by apply lookup_delete_eq.
  rewrite map_sum_delete_default. lia.
Qed.

Lemma map_sum_nonneg f m :
  (∀ k x, m !! k = Some x → 0 ≤ f x) → 0 ≤ map_sum f m.
Proof.
  induction m as [|k x m Hk IH] using map_ind; intros Hf.
  - by rewrite map_sum_empty.
  - rewrite map_sum_insert_None by done.
    assert (0 ≤ f x) by (eapply Hf, lookup_insert_eq).
    assert (0 ≤ map_sum f m); [|lia].
    apply IH. intros k' x' Hk'. apply (Hf k'). rewrite lookup_insert_ne; congruence.
Qed.

Lemma map_sum_elem f m k x :
  (∀ k x, m !! k = Some x → 0 ≤ f x) → m !! k = Some x → f x ≤ map_sum f m.
Proof.
  intros Hf Hk. rewrite (map_sum_delete f m k x Hk).
  assert (0 ≤ map_sum f (delete k m)); [|lia].
  apply map_sum_nonneg. intros k' x' [_ Hk']%lookup_delete_Some. eauto.
Qed.

Lemma map_sum_le f g m :
  (∀ k x, m !! k = Some x → f x ≤ g x) → map_sum f m ≤ map_sum g m.
Proof.
  induction m as [|k x m Hk IH] using map_ind; intros Hle; [done|].
  rewrite !map_sum_insert_None by done.
  pose proof (Hle k x ltac:(by rewrite lookup_insert_eq)).
  assert (map_sum f m ≤ map_sum g m); [|lia].
  apply IH. intros k' x' Hk'. apply (Hle k'). rewrite lookup_insert_ne; congruence.
Qed.

Lemma map_sum_ext f g m :
  (∀ k x, m !! k = Some x → f x = g x) → map_sum f m = map_sum g m.
Proof.
  induction m as [|k x m Hk IH] using map_ind; intros Hfg; [done|].
  rewrite !map_sum_insert_None by done.
  rewrite (Hfg k x) by apply lookup_insert_eq. f_equal. apply IH.
  intros k' x' Hk'. apply (Hfg k'). rewrite lookup_insert_ne; congruence.
Qed.

Lemma map_sum_zero f m : (∀ k x, m !! k = Some x → f x = 0) → map_sum f m = 0.
Proof.
  intros Hf. apply Z.le_antisymm; [|apply map_sum_nonneg; intros k x Hk; by rewrite (Hf k x)].
  induction m as [|k x m Hk IH] using map_ind; [done|]. rewrite map_sum_insert_None, (Hf k x) by (done || apply lookup_insert_eq).
  apply IH. intros k' x' Hk'. apply (Hf k'). rewrite lookup_insert_ne; congruence.
Qed.

Lemma map_sum_add f g m : map_sum (λ x, f x + g x) m = map_sum f m + map_sum g m.
Proof.
  induction m as [|k x m Hk IH] using map_ind; [done|].
  rewrite !map_sum_insert_None by done. lia.
Qed.

Lemma map_sum_fmap f (g : A → A) m : map_sum f (g <$> m) = map_sum (λ x, f (g x)) m.
Proof.
  induction m as [|k x m Hk IH] using map_ind; [by rewrite fmap_empty, !map_sum_empty|].
  rewrite fmap_insert, !map_sum_insert_None by (rewrite ?lookup_fmap, Hk; done). by rewrite IH.
Qed.

Lemma map_sum_to_list f m : map_sum f m = list_sum (λ kx, f kx.2) (map_to_list m).
Proof.
  unfold map_sum. rewrite map_fold_foldr.
  induction (map_to_list m) as [|[k x] l IH]; cbn; [done|]. by rewrite IH.
Qed.
End sums.

Section list_sums.
Context {A : Type}.
Implicit Types (l : list A) (f : A → Z).

Lemma list_sum_app f l1 l2 : list_sum f (l1 ++ l2) = list_sum f l1 + list_sum f l2.
Proof. induction l1; cbn; lia. Qed.

Lemma list_sum_Permutation f l1 l2 : l1 ≡ₚ l2 → list_sum f l1 = list_sum f l2.
Proof. induction 1; cbn; lia. Qed.

Lemma list_sum_nonneg f l : (∀ x, x ∈ l → 0 ≤ f x) → 0 ≤ list_sum f l.
Proof.
  induction l as [|x l IH]; cbn; [done|]. intros Hf.
  assert (0 ≤ f x) by (apply Hf; left).
  assert (0 ≤ list_sum f l) by (apply IH; intros; apply Hf; by right). lia.
Qed.

Lemma list_sum_insert f l (i : nat) x y :
  l !! i = Some y → list_sum f (<[i:=x]> l) = list_sum f l + f x - f y.
Proof.
  revert i. induction l as [|z l IH]; intros [|i] Hi; simplify_eq/=; [lia|].
  rewrite (IH i) by done. lia.
Qed.

Lemma list_sum_const_0 f l : (∀ x, x ∈ l → f x = 0) → list_sum f l = 0.
Proof.
  induction l as [|x l IH]; cbn; [done|]. intros Hf.
  rewrite (Hf x) by left. rewrite IH; [done|]. intros; apply Hf; by right.
Qed.
End list_sums.

Section list_filters.
Context {A : Type} (P : A → Prop) `{!∀ x, Decision (P x)}.
Implicit Types l : list A.

Lemma filter_id l : (∀ x, x ∈ l → P x) → filter P l = l.
Proof.
  induction l as [|x l IH]; intros HP; [done|].
  rewrite filter_cons_True by (apply HP; left). f_equal. apply IH. intros; apply HP; by right.
Qed.

Lemma filter_none l : (∀ x, x ∈ l → ¬ P x) → filter P l = [].
Proof.
  induction l as [|x l IH]; intros HP; [done|].
  rewrite filter_cons_False by (apply HP; left). apply IH. intros; apply HP; by right.
Qed.

(** Turning one entry into one that satisfies [P] adds one to the count. *)
Lemma length_filter_insert l (i : nat) x y :
  l !! i = Some y → ¬ P y → P x →
  length (filter P (<[i:=x]> l)) = S (length (filter P l)).
Proof.
  revert i. induction l as [|z l IH]; intros [|i] Hi Hy Hx; simplify_eq/=.
  - rewrite filter_cons_True, filter_cons_False by done. done.
  - rewrite !filter_cons. case_decide; cbn; rewrite (IH i); done.
Qed.
End list_filters.

(** ** Development-wide automation *)

Create HintDb hook discriminated.
#[export] Hint Resolve u64_range : hook.

(** Turns the boolean tests of the code into propositions. *)
Ltac bool_hyps :=
  repeat match goal with
  | H : (_ && _) = true |- _ => apply andb_true_iff in H; destruct H
  | H : (_ || _) = false |- _ => apply orb_false_iff in H; destruct H
  | H : negb _ = true |- _ => apply negb_true_iff in H
  | H : negb _ = false |- _ => apply negb_false_iff in H
  | H : (_ <? _) = true |- _ => apply Z.ltb_lt in H
  | H : (_ <? _) = false |- _ => apply Z.ltb_ge in H
  | H : (_ <=? _) = true |- _ => apply Z.leb_le in H
  | H : (_ <=? _) = false |- _ => apply Z.leb_gt in H
  | H : (_ =? _) = true |- _ => apply Z.eqb_eq in H
  | H : (_ =? _) = false |- _ => apply Z.eqb_neq in H
  | H : bool_decide _ = true |- _ => apply bool_decide_eq_true in H
  | H : bool_decide _ = false |- _ => apply bool_decide_eq_false in H
  end.

(** Case analysis on every [if] and [match] scrutinee of the goal. *)
Ltac case_ifs :=
  repeat match goal with
  | |- context [if ?b then _ else _] => destruct b eqn:?; cbn
  end; bool_hyps.

(** ** [std::sort] *)

(** The order of elements that compare equal is not specified by the language;
    here they keep their order.  [sort_by_canonical] says when that does not
    matter. *)
Section sort_by.
Context {A : Type} (less : A → A → bool).

Definition not_after (a b : A) : Prop := less b a = false.
#[global] Instance not_after_dec a b : Decision (not_after a b) := decide (less b a = false).
Definition sort_by (l : list A) : list A := merge_sort not_after l.

Lemma sort_by_perm l : sort_by l ≡ₚ l.
Proof. apply merge_sort_Permutation. Qed.

(** [less] is a strict weak order. *)
Context (asym : ∀ a b, less a b = true → less b a = false).
Context (trans : ∀ a b c, less b a = false → less c b = false → less c a = false).

Lemma sort_by_sorted l : StronglySorted not_after (sort_by l).
Proof using asym trans.
  apply StronglySorted_merge_sort.
  - intros a b c. unfold not_after. apply trans.
  - intros a b. unfold not_after. destruct (less b a) eqn:E; [right; by apply asym|by left].
Qed.

Lemma sort_by_canonical l l' :
  l' ≡ₚ l → StronglySorted not_after l' →
  (∀ x y, x ∈ l → y ∈ l → less x y = false → less y x = false → x = y) →
  sort_by l = l'.
Proof using asym trans.
  intros Hp Hs Htot. apply (StronglySorted_unique_strong not_after); [|apply sort_by_sorted|done|].
  - intros x y Hx Hy Hxy Hyx. apply Htot; [by rewrite <-(sort_by_perm l)|by rewrite <-Hp|done..].
  - by rewrite sort_by_perm.
Qed.

Lemma sort_by_unique l l' :
  l ≡ₚ l' → (∀ x y, x ∈ l → y ∈ l → less x y = false → less y x = false → x = y) →
  sort_by l = sort_by l'.
Proof using asym trans.
  intros Hp Htot. apply sort_by_canonical; [by rewrite sort_by_perm|apply sort_by_sorted|done].
Qed.
End sort_by.
