(* ===== verification/CString.v ===== *)
(** * C strings and the parts of <string.h>, <stdlib.h> and <stdio.h> the hook uses

    A NUL-terminated [char*] is a [string] without the terminator.  The
    functions below are the documented behaviour of the C library on such
    strings, restricted to the calls the sources make: [strlen], [strchr],
    [strrchr], [strstr], [strncmp] against a literal, [strcasecmp], [strtol]
    and [strtoull] in base 10, and [sscanf] with the conversions the /proc
    parsers use. *)
From S2P Require Import Prelude.


Definition char_code (c : ascii) : Z := Z.of_N (Ascii.N_of_ascii c).

(** [isspace] in the C locale. *)
Definition is_space (c : ascii) : bool :=
  let n := char_code c in (n =? 32) || ((9 <=? n) && (n <=? 13)).

Definition is_digit (c : ascii) : bool :=
  let n := char_code c in (48 <=? n) && (n <=? 57).

Definition digit_val (c : ascii) : option Z :=
  let n := char_code c in
  if (48 <=? n) && (n <=? 57) then Some (n - 48)
  else if (97 <=? n) && (n <=? 102) then Some (n - 87)
  else if (65 <=? n) && (n <=? 70) then Some (n - 55)
  else None.

(** [tolower]. *)
Definition lower (c : ascii) : ascii :=
  let n := char_code c in
  if (65 <=? n) && (n <=? 90) then Ascii.ascii_of_N (Z.to_N (n + 32)) else c.

Fixpoint lower_string (s : string) : string :=
  match s with EmptyString => EmptyString | String c r => String (lower c) (lower_string r) end.

(** [strcasecmp (a, b) == 0]. *)
Definition strcasecmp_eq (a b : string) : bool := String.eqb (lower_string a) (lower_string b).

(** [strncmp (s, lit, strlen (lit)) == 0]. *)
Definition starts_with (lit s : string) : bool := String.prefix lit s.

(** [s + n], for [n] at most [strlen (s)]. *)
Fixpoint sdrop (n : nat) (s : string) : string :=
  match n, s with
  | O, _ => s
  | S n, String _ r => sdrop n r
  | S _, EmptyString => EmptyString
  end.

Fixpoint stake (n : nat) (s : string) : string :=
  match n, s with
  | S n, String c r => String c (stake n r)
  | _, _ => EmptyString
  end.

(** [strchr]: the index of the first occurrence. *)
Fixpoint strchr (s : string) (c : ascii) : option nat :=
  match s with
  | EmptyString => None
  | String d r => if Ascii.eqb d c then Some O else S <$> strchr r c
  end.

(** [strrchr]: the index of the last occurrence. *)
Fixpoint strrchr (s : string) (c : ascii) : option nat :=
  match s with
  | EmptyString => None
  | String d r =>
      match strrchr r c with
      | Some i => Some (S i)
      | None => if Ascii.eqb d c then Some O else None
      end
  end.

(** [strstr]: what follows from the first occurrence on. *)
Fixpoint strstr (s key : string) : option string :=
  if starts_with key s then Some s
  else match s with EmptyString => None | String _ r => strstr r key end.

(** [while (p (c)) ++s]. *)
Fixpoint skip_while (p : ascii → bool) (s : string) : string :=
  match s with
  | String c r => if p c then skip_while p r else s
  | EmptyString => EmptyString
  end.

(** The digit loop shared by the conversions: accumulated value, number of
    digits consumed and the rest of the input. *)
Fixpoint scan_digits (base : Z) (s : string) (acc : Z) (n : nat) : Z * nat * string :=
  match s with
  | String c r =>
      match digit_val c with
      | Some d => if d <? base then scan_digits base r (acc * base + d) (S n)
                  else (acc, n, s)
      | None => (acc, n, s)
      end
  | EmptyString => (acc, n, s)
  end.

(** An optional sign; [true] for a minus. *)
Definition scan_sign (s : string) : bool * string :=
  match s with
  | String "-" r => (true, r)
  | String "+" r => (false, r)
  | _ => (false, s)
  end.

(** An optional [0x] prefix, taken only when a hexadecimal digit follows. *)
Definition scan_0x (s : string) : string :=
  match s with
  | String "0" (String x (String c r)) =>
      if (Ascii.eqb x "x"%char || Ascii.eqb x "X"%char) && bool_decide (is_Some (digit_val c))
      then String c r else s
  | _ => s
  end.

Definition LONG_MAX : Z := 2 ^ 63 - 1.
Definition LONG_MIN : Z := - 2 ^ 63.

(** [strtol (s, &end, 10)]: the value, what [end] points at ([None] when no
    conversion took place, i.e. [end == s]) and whether [errno] was set. *)
Definition strtol (s : string) : Z * option string * bool :=
  let '(neg, r) := scan_sign (skip_while is_space s) in
  let '(v, n, rest) := scan_digits 10 r 0 0 in
  match n with
  | O => (0, None, false)
  | S _ =>
      let z := if neg then - v else v in
      if z >? LONG_MAX then (LONG_MAX, Some rest, true)
      else if z <? LONG_MIN then (LONG_MIN, Some rest, true)
      else (z, Some rest, false)
  end.

(** [strtoull (s, nullptr, 10)]. *)
Definition strtoull (s : string) : Z :=
  let '(neg, r) := scan_sign (skip_while is_space s) in
  let '(v, n, _) := scan_digits 10 r 0 0 in
  if v >? SIZE_MAX then SIZE_MAX else if neg then u64 (- v) else v.

(** ** [sscanf] *)

Inductive directive :=
  | DSpace                    (** white space in the format *)
  | DLit (c : ascii)          (** any other character *)
  | DHex                      (** [%lx], [SCNxPTR] *)
  | DLong                     (** [%ld] *)
  | DInt                      (** [%d] *)
  | DULongLong                (** [%llu] *)
  | DString (width : nat)     (** [%<width>s] *)
  | DSkipString               (** [%*s] *)
  | DPos.                     (** [%n] *)

Inductive scanned := SNum (z : Z) | SStr (s : string) | SPos (n : Z).

(** At most [n] characters that are not white space. *)
Fixpoint scan_word (n : nat) (s : string) : string * string :=
  match n, s with
  | S n, String c r =>
      if is_space c then (EmptyString, s)
      else let '(w, rest) := scan_word n r in (String c w, rest)
  | _, _ => (EmptyString, s)
  end.

Definition clamp_unsigned (neg : bool) (v : Z) : Z :=
  if v >? SIZE_MAX then SIZE_MAX else if neg then u64 (- v) else v.

Definition clamp_signed (neg : bool) (v : Z) : Z :=
  let z := if neg then - v else v in
  if z >? LONG_MAX then LONG_MAX else if z <? LONG_MIN then LONG_MIN else z.

(** One conversion: [None] on a matching or input failure, otherwise what it
    stored (if anything), whether it counts, and the rest of the input. *)
Definition convert (len : Z) (d : directive) (s : string) : option (option scanned * bool * string) :=
  let number base prefix conv :=
    let '(neg, r) := scan_sign (skip_while is_space s) in
    let '(v, n, rest) := scan_digits base (if prefix : bool then scan_0x r else r) 0 0 in
    match n with O => None | S _ => Some (Some (SNum (conv neg v)), true, rest) end in
  match d with
  | DSpace => Some (None, false, skip_while is_space s)
  | DLit c =>
      match s with
      | String d r => if Ascii.eqb c d then Some (None, false, r) else None
      | EmptyString => None
      end
  | DHex => number 16 true clamp_unsigned
  | DLong => number 10 false clamp_signed
  | DInt => number 10 false (λ neg v, i32 (clamp_signed neg v))
  | DULongLong => number 10 false clamp_unsigned
  | DString w =>
      let '(word, rest) := scan_word w (skip_while is_space s) in
      match word with EmptyString => None | _ => Some (Some (SStr word), true, rest) end
  | DSkipString =>
      let t := skip_while is_space s in
      let '(word, rest) := scan_word (String.length t) t in
      match word with EmptyString => None | _ => Some (None, false, rest) end
  | DPos => Some (Some (SPos (len - Z.of_nat (String.length s))), false, s)
  end.

(** The number of conversions stored and the values, in order. *)
Fixpoint scan_from (len : Z) (ds : list directive) (s : string) : Z * list scanned :=
  match ds with
  | [] => (0, [])
  | d :: ds =>
      match convert len d s with
      | None => (0, [])
      | Some (v, counts, rest) =>
          let '(n, vs) := scan_from len ds rest in
          ((if counts : bool then 1 else 0) + n, from_option (λ v, [v]) [] v ++ vs)
      end
  end.

Definition sscanf (s : string) (ds : list directive) : Z * list scanned :=
  scan_from (Z.of_nat (String.length s)) ds s.

(** ** Lines of a text buffer *)

Definition newline : ascii := Ascii.ascii_of_N 10.

(** The lines of a text that end in a newline, and what follows the last one:
    what a loop over [memchr (.., '\n', ..)] visits and what it leaves. *)
Fixpoint split_lines (s : string) (cur : string) : list string * string :=
  match s with
  | EmptyString => ([], cur)
  | String c r =>
      if Ascii.eqb c newline
      then let '(ls, tl) := split_lines r EmptyString in (cur :: ls, tl)
      else split_lines r (cur +:+ String c EmptyString)
  end.

(** ** Printing decimals, the inverse of the digit loop *)

Definition digit_char (d : Z) : ascii := Ascii.ascii_of_N (Z.to_N (48 + d)).

Fixpoint dec_digits (fuel : nat) (z : Z) (acc : string) : string :=
  match fuel with
  | O => acc
  | S fuel =>
      let acc := String (digit_char (z mod 10)) acc in
      if z / 10 =? 0 then acc else dec_digits fuel (z / 10) acc
  end.

(** [%zu] of a value below [2^64]: twenty digits are enough. *)
Definition print_dec (z : Z) : string := dec_digits 20 z EmptyString.

(** ** Lemmas *)

Lemma digit_val_digit_char d : 0 ≤ d < 10 → digit_val (digit_char d) = Some d.
Proof.
  intros Hd.
  assert (d = 0 ∨ d = 1 ∨ d = 2 ∨ d = 3 ∨ d = 4 ∨ d = 5 ∨ d = 6 ∨ d = 7 ∨ d = 8 ∨ d = 9)
    as Hc by lia.
  by repeat destruct Hc as [->|Hc]; [..|subst d].
Qed.

Lemma is_space_digit_char d : 0 ≤ d < 10 → is_space (digit_char d) = false.
Proof.
  intros Hd.
  assert (d = 0 ∨ d = 1 ∨ d = 2 ∨ d = 3 ∨ d = 4 ∨ d = 5 ∨ d = 6 ∨ d = 7 ∨ d = 8 ∨ d = 9)
    as Hc by lia.
  by repeat destruct Hc as [->|Hc]; [..|subst d].
Qed.

Lemma scan_sign_digit_char d s : 0 ≤ d < 10 →
  scan_sign (String (digit_char d) s) = (false, String (digit_char d) s).
Proof.
  intros Hd.
  assert (d = 0 ∨ d = 1 ∨ d = 2 ∨ d = 3 ∨ d = 4 ∨ d = 5 ∨ d = 6 ∨ d = 7 ∨ d = 8 ∨ d = 9)
    as Hc by lia.
  by repeat destruct Hc as [->|Hc]; [..|subst d].
Qed.

(** Reading back printed digits continues the accumulator where it stood. *)
Lemma scan_dec_digits fuel z acc a n :
  0 ≤ z < 10 ^ Z.of_nat fuel → (0 < fuel)%nat →
  ∃ k, (0 < k)%nat ∧ scan_digits 10 (dec_digits fuel z acc) a n =
    scan_digits 10 acc (a * 10 ^ Z.of_nat k + z) (n + k).
Proof.
  revert z acc a n. induction fuel as [|fuel IH]; intros z acc a n Hz Hf; [lia|].
  assert (0 ≤ z mod 10 < 10) as Hm by (apply Z.mod_pos_bound; lia).
  pose proof (Z.div_mod z 10 ltac:(lia)) as Hdm.
  cbn [dec_digits]. destruct (Z.eqb_spec (z / 10) 0) as [Hq|Hq].
  - exists 1%nat. split; [lia|]. cbn [scan_digits].
    rewrite digit_val_digit_char by done.
    replace (z mod 10 <? 10) with true by (symmetry; apply Z.ltb_lt; lia).
    f_equal; [|lia]. replace (Z.of_nat 1) with 1 by done. lia.
  - rewrite Nat2Z.inj_succ, Z.pow_succ_r in Hz by lia.
    destruct fuel as [|fuel].
    { cbn in Hz. exfalso. apply Hq. apply Z.div_small. lia. }
    assert (0 ≤ z / 10 < 10 ^ Z.of_nat (S fuel)) as Hz'.
    { split; [apply Z.div_pos; lia|]. apply Z.div_lt_upper_bound; lia. }
    destruct (IH (z / 10) (String (digit_char (z mod 10)) acc) a n Hz' ltac:(lia))
      as (k & Hk & ->).
    exists (S k). split; [lia|]. cbn [scan_digits].
    rewrite digit_val_digit_char by done.
    replace (z mod 10 <? 10) with true by (symmetry; apply Z.ltb_lt; lia).
    f_equal; [|lia]. rewrite Nat2Z.inj_succ, Z.pow_succ_r by lia. lia.
Qed.

(** The first character printed is a digit. *)
Lemma dec_digits_head fuel z acc : 0 ≤ z → (0 < fuel)%nat →
  ∃ d r, 0 ≤ d < 10 ∧ dec_digits fuel z acc = String (digit_char d) r.
Proof.
  revert z acc. induction fuel as [|fuel IH]; intros z acc Hz Hf; [lia|].
  assert (0 ≤ z mod 10 < 10) as Hm by (apply Z.mod_pos_bound; lia).
  cbn [dec_digits]. destruct (Z.eqb_spec (z / 10) 0) as [Hq|Hq]; [by eauto|].
  destruct fuel as [|fuel]; [by cbn; eauto|].
  apply IH; [apply Z.div_pos; lia|lia].
Qed.

Lemma strtol_print_dec z : 0 ≤ z ≤ LONG_MAX → strtol (print_dec z) = (z, Some EmptyString, false).
Proof.
  intros Hz. unfold strtol, print_dec.
  destruct (dec_digits_head 20 z EmptyString ltac:(lia) ltac:(lia)) as (d & r & Hd & E).
  destruct (scan_dec_digits 20 z EmptyString 0 0) as (k & Hk & Hs); [|lia|].
  { split; [lia|]. unfold LONG_MAX in Hz. eapply Z.le_lt_trans; [apply Hz|]. done. }
  rewrite E in *. cbn [skip_while]. rewrite is_space_digit_char by done.
  rewrite scan_sign_digit_char by done. rewrite Hs. cbn [scan_digits].
  destruct k as [|k]; [lia|]. cbn [Nat.add].
  replace (0 * 10 ^ Z.of_nat (S k) + z) with z by lia.
  destruct (Z.gtb_spec z LONG_MAX); [lia|].
  destruct (Z.ltb_spec z LONG_MIN); [unfold LONG_MIN in *; lia|]. done.
Qed.

Lemma strtol_range s : LONG_MIN ≤ (strtol s).1.1 ≤ LONG_MAX.
Proof.
  unfold strtol. destruct (scan_sign _) as [neg r].
  destruct (scan_digits _ _ _ _) as [[v n] rest]. destruct n; cbn.
  { unfold LONG_MIN, LONG_MAX. lia. }
  destruct (Z.gtb_spec (if neg then - v else v) LONG_MAX); cbn.
  { unfold LONG_MIN, LONG_MAX. lia. }
  destruct (Z.ltb_spec (if neg then - v else v) LONG_MIN); cbn;
    unfold LONG_MIN, LONG_MAX in *; lia.
Qed.

Lemma starts_with_spec lit s : starts_with lit s = true ↔ ∃ r, s = lit +:+ r.
Proof.
  unfold starts_with. revert s. induction lit as [|c lit IH]; intros s; cbn.
  - destruct s; split; eauto.
  - destruct s as [|d s]; cbn; [split; [congruence|by intros [r ?]]|].
    destruct (Ascii.ascii_dec c d) as [->|Hne].
    + rewrite IH. split; intros [r Hr]; exists r; [by rewrite Hr|by injection Hr].
    + split; [congruence|]. intros [r Hr]. by injection Hr.
Qed.
