(* ===== verification/Capture.v ===== *)
(** * Raw stack capture

    Models backtrace/include/UnwindBacktrace.h and
    backtrace/src/UnwindBacktrace.cpp: the neutral [RawStackRecord], the four
    backends that fill it (frame-pointer walk, compiler unwinder, glibc
    [backtrace], unwindstack adapter) and the routing and re-entrancy guard of
    [CaptureStackInto].  What runs outside the repository is an argument: the
    instruction pointers the compiler unwinder finds, the result of
    [backtrace()] and of the unwindstack adapter, the thread's stack memory,
    its bounds, and the pointer-authentication strip instruction. *)
From S2P Require Import Prelude.

(** ** Data *)

Module StackCaptureState.
Inductive t := Empty | Complete | Partial | Error.
#[global] Instance eq_dec : EqDecision t.
Proof. solve_decision. Defined.
End StackCaptureState.

Module StackCaptureMode.
Inductive t := Fast | Accurate.
#[global] Instance eq_dec : EqDecision t.
Proof. solve_decision. Defined.
End StackCaptureMode.

Module StackCaptureBackend.
Inductive t :=
  Unknown | CompilerUnwind | AndroidUnwindstack | LinuxNative | OhosNative | Fallback | FramePointer.
#[global] Instance eq_dec : EqDecision t.
Proof. solve_decision. Defined.
End StackCaptureBackend.

Definition kMaxAsyncRawFrames : Z := 256.

(** [pcs] holds the defined entries of the array, the first [frame_count]. *)
Record RawStackRecord := mkRaw {
  capture_state : StackCaptureState.t;
  raw_mode : StackCaptureMode.t;
  backend : StackCaptureBackend.t;
  terminal_error : Z;
  skipped_frames : Z;
  module_generation : Z;
  frame_count : Z;
  pcs : list Z;
}.
#[global] Instance RawStackRecord_upd : Updatable RawStackRecord := λ r,
  mkRaw (capture_state r) (raw_mode r) (backend r) (terminal_error r)
    (skipped_frames r) (module_generation r) (frame_count r) (pcs r).

Definition HasFrames (r : RawStackRecord) : bool := negb (frame_count r =? 0).

Definition IsUsable (r : RawStackRecord) : bool :=
  bool_decide (capture_state r = StackCaptureState.Complete) ||
  bool_decide (capture_state r = StackCaptureState.Partial).

(** A default-constructed record. *)
Definition raw_init : RawStackRecord :=
  mkRaw StackCaptureState.Empty StackCaptureMode.Fast StackCaptureBackend.Unknown 0 0 0 0 [].

(** [operator==]: frame count, generation and the defined program counters. *)
Definition raw_eqb (a b : RawStackRecord) : bool :=
  (frame_count a =? frame_count b) && (module_generation a =? module_generation b) &&
  bool_decide (take (Z.to_nat (frame_count a)) (pcs a) = take (Z.to_nat (frame_count a)) (pcs b)).

Record SymbolizedFrame := mkFrame {
  sf_pc : Z;
  sf_rel_pc : Z;
  sf_sp : Z;
  sf_module_start : Z;
  sf_module_generation : Z;
  sf_function_offset : Z;
  sf_module_name : string;
  sf_build_id : string;
  sf_function_name : string;
}.
#[global] Instance SymbolizedFrame_upd : Updatable SymbolizedFrame := λ f,
  mkFrame (sf_pc f) (sf_rel_pc f) (sf_sp f) (sf_module_start f) (sf_module_generation f)
    (sf_function_offset f) (sf_module_name f) (sf_build_id f) (sf_function_name f).

Definition frame_init : SymbolizedFrame := mkFrame 0 0 0 0 0 0 EmptyString EmptyString EmptyString.

(** ** Build configuration *)

Inductive TargetOS := OsAndroid | OsLinux | OsOhos | OsOther.
#[global] Instance TargetOS_eq_dec : EqDecision TargetOS.
Proof. solve_decision. Defined.

(** The preprocessor symbols the capture code tests. *)
Record Platform := mkPlatform {
  aarch64 : bool;
  target_os : TargetOS;
  have_compiler_unwind : bool;
  legacy_unwindstack_adapter : bool;
}.

Definition kReturnAddressPcAdjust (p : Platform) : Z := if aarch64 p then 4 else 1.

Definition CallSitePcFromReturnAddress (p : Platform) (return_address : Z) : Z :=
  if return_address >? kReturnAddressPcAdjust p
  then return_address - kReturnAddressPcAdjust p
  else return_address.

(** ** Frame records on the stack *)

Definition FrameRecordFitsStack (fp stack_low stack_high : Z) : bool :=
  (Z.land fp 7 =? 0) && (stack_low <=? fp) && (fp <=? stack_high) &&
  (16 <=? stack_high - fp).

(** [static_cast<uint16_t>(std::min(skipped_frames, UINT16_MAX))]. *)
Definition clamp_skip (skipped : Z) : Z := u16 (Z.min skipped UINT16_MAX).

Definition BuildCapturedRecord (mode : StackCaptureMode.t) (bk : StackCaptureBackend.t)
    (err : Z) (frames : list Z) (max_frames skipped : Z) : RawStackRecord :=
  let output_limit := Z.min max_frames kMaxAsyncRawFrames in
  let first := Z.min skipped (Z.of_nat (length frames)) in
  let count := Z.min output_limit (Z.of_nat (length frames) - first) in
  mkRaw
    (if count =? 0
     then (if err =? 0 then StackCaptureState.Empty else StackCaptureState.Error)
     else (if err =? 0 then StackCaptureState.Complete else StackCaptureState.Partial))
    mode bk err (clamp_skip skipped) 0 (u16 count)
    (take (Z.to_nat count) (drop (Z.to_nat first) frames)).

(** ** The compiler unwinder *)

Definition URC_NO_REASON : Z := 0.
Definition URC_END_OF_STACK : Z := 5.

(** What [_Unwind_Backtrace] does on the current stack: it offers these
    instruction pointers to the callback, returning [ur_end] after the last
    one and [ur_stop] as soon as the callback does not answer
    [_URC_NO_REASON]. *)
Record UnwindRun := mkUnwind { ur_ips : list Z; ur_end : Z; ur_stop : Z }.

Record FastCaptureContext := mkFast {
  fc_record : RawStackRecord;
  fc_max_frames : Z;
  fc_skip : Z;
}.

(** The callback: the new context and the reason code it returns. *)
Definition CaptureFrame (pc : Z) (c : FastCaptureContext) : FastCaptureContext * Z :=
  let r := fc_record c in
  if pc =? 0 then (c, URC_NO_REASON)
  else if negb (fc_skip c =? 0)
  then (mkFast r (fc_max_frames c) (fc_skip c - 1), URC_NO_REASON)
  else if frame_count r >=? fc_max_frames c
  then (mkFast (r <| capture_state := StackCaptureState.Partial |> <| terminal_error := 1 |>)
          (fc_max_frames c) (fc_skip c), URC_END_OF_STACK)
  else (mkFast (r <| pcs := pcs r ++ [pc] |> <| frame_count := u16 (frame_count r + 1) |>)
          (fc_max_frames c) (fc_skip c), URC_NO_REASON).

Fixpoint unwind_backtrace (ips : list Z) (ur : UnwindRun) (c : FastCaptureContext)
    : FastCaptureContext * Z :=
  match ips with
  | [] => (c, ur_end ur)
  | pc :: ips =>
      let '(c, code) := CaptureFrame pc c in
      if code =? URC_NO_REASON then unwind_backtrace ips ur c else (c, ur_stop ur)
  end.

Definition CaptureWithCompiler (ur : UnwindRun) (r : RawStackRecord) (mode : StackCaptureMode.t)
    (bk : StackCaptureBackend.t) (max_frames skipped : Z) : RawStackRecord :=
  let r := r <| raw_mode := mode |> <| backend := bk |> <| skipped_frames := clamp_skip skipped |> in
  if max_frames =? 0 then r
  else
    let max_frames := Z.min max_frames kMaxAsyncRawFrames in
    let '(c, reason) := unwind_backtrace (ur_ips ur) ur (mkFast r max_frames skipped) in
    let r := fc_record c in
    if negb (frame_count r =? 0) then
      if bool_decide (capture_state r = StackCaptureState.Partial) then r
      else r <| capture_state := if reason =? URC_END_OF_STACK
                                 then StackCaptureState.Complete
                                 else StackCaptureState.Partial |>
    else if negb (reason =? URC_END_OF_STACK)
    then r <| capture_state := StackCaptureState.Error |> <| terminal_error := u8 reason |>
    else r.

(** ** glibc [backtrace()] *)

(** [backtrace n] is what the call [backtrace (buffer, n)] wrote. *)
Definition CaptureLinuxNative (backtrace : Z → list Z) (r : RawStackRecord)
    (mode : StackCaptureMode.t) (max_frames skipped : Z) : RawStackRecord :=
  let r := r <| raw_mode := mode |> <| backend := StackCaptureBackend.LinuxNative |>
             <| skipped_frames := clamp_skip skipped |> in
  let output_limit := Z.min max_frames kMaxAsyncRawFrames in
  if output_limit =? 0 then r
  else
    let skip_limit := Z.min skipped kMaxAsyncRawFrames in
    let capture_limit := Z.min kMaxAsyncRawFrames (output_limit + skip_limit) in
    let captured_pcs := backtrace capture_limit in
    let captured_count := Z.of_nat (length captured_pcs) in
    if captured_count <=? 0
    then r <| capture_state := StackCaptureState.Error |> <| terminal_error := 5 |>
    else
      let first := Z.min skip_limit captured_count in
      let count := Z.min output_limit (captured_count - first) in
      let r := r <| pcs := take (Z.to_nat count) (drop (Z.to_nat first) captured_pcs) |>
                 <| frame_count := u16 count |> in
      if count =? 0 then r
      else if captured_count =? capture_limit
      then r <| capture_state := StackCaptureState.Partial |> <| terminal_error := 1 |>
      else r <| capture_state := StackCaptureState.Complete |>.

(** ** The frame-pointer walk *)

(** The per-thread state: the re-entrancy flag and the cached stack bounds. *)
Record ThreadCapture := mkThread {
  g_capture_active : bool;
  g_stack_bounds : Z * Z;
  g_stack_bounds_valid : bool;
}.
#[global] Instance ThreadCapture_upd : Updatable ThreadCapture := λ t,
  mkThread (g_capture_active t) (g_stack_bounds t) (g_stack_bounds_valid t).

(** [getattr] is the stack address and size the thread attributes report. *)
Definition CurrentStackBounds (getattr : option (Z * Z)) (t : ThreadCapture)
    : ThreadCapture * (Z * Z) * bool :=
  let t :=
    if g_stack_bounds_valid t then t
    else
      let t := t <| g_stack_bounds_valid := true |> in
      match getattr with
      | Some (addr, size) =>
          if negb (addr =? 0) && negb (size =? 0)
          then t <| g_stack_bounds := (addr, addr ⊞ size) |> else t
      | None => t
      end in
  (t, g_stack_bounds t, negb ((g_stack_bounds t).1 =? 0)).

(** The walk: frames recorded so far (newest last), frames still to skip.
    [None] only when the fuel runs out. *)
Fixpoint fp_walk (fuel : nat) (mem : Z → Z) (strip : Z → Z) (low high limit : Z)
    (fp skip : Z) (acc : list Z) : option (list Z * bool) :=
  match fuel with
  | O => None
  | S fuel =>
      if negb (FrameRecordFitsStack fp low high) then Some (acc, false)
      else
        let next_fp := mem fp in
        let lr := mem (fp + 8) in
        let continue skip acc :=
          if next_fp <=? fp then Some (acc, false)
          else fp_walk fuel mem strip low high limit next_fp skip acc in
        if negb (lr =? 0) then
          if negb (skip =? 0) then continue (skip - 1) acc
          else if Z.of_nat (length acc) >=? limit then Some (acc, true)
          else continue skip (acc ++ [strip lr])
        else continue skip acc
  end.

(** One visit per aligned word of the stack, and one to find the end. *)
Definition fp_fuel (low high : Z) : nat := S (S (Z.to_nat ((high - low) / 8))).

Definition CaptureWithFramePointer (mem strip : Z → Z) (frame_address : Z)
    (getattr : option (Z * Z)) (t : ThreadCapture) (r : RawStackRecord)
    (mode : StackCaptureMode.t) (max_frames skipped : Z) : ThreadCapture * RawStackRecord :=
  let r := r <| raw_mode := mode |> <| backend := StackCaptureBackend.FramePointer |>
             <| skipped_frames := clamp_skip skipped |> in
  let output_limit := Z.min max_frames kMaxAsyncRawFrames in
  if output_limit =? 0 then (t, r)
  else
    let '(t, (low, high), ok) := CurrentStackBounds getattr t in
    if negb ok
    then (t, r <| capture_state := StackCaptureState.Error |> <| terminal_error := 6 |>)
    else
      match fp_walk (fp_fuel low high) mem strip low high output_limit frame_address skipped [] with
      | None => (t, r)
      | Some (frames, truncated) =>
          let r := r <| pcs := frames |> <| frame_count := Z.of_nat (length frames) |> in
          (t, if frame_count r =? 0 then r <| capture_state := StackCaptureState.Empty |>
              else if truncated : bool
              then r <| capture_state := StackCaptureState.Partial |> <| terminal_error := 1 |>
              else r <| capture_state := StackCaptureState.Complete |>)
      end.

(** ** Routing *)

(** Everything a capture reads that is not program state. *)
Record CaptureEnv := mkCaptureEnv {
  ce_unwind : UnwindRun;
  ce_backtrace : Z → list Z;
  ce_mem : Z → Z;
  ce_strip : Z → Z;
  ce_frame_address : Z;
  ce_getattr : option (Z * Z);
  ce_force_compiler : bool;               (** [ALLOC_HOOK_FAST_UNWINDER=compiler] *)
  ce_android_unwind : Z → list Z * Z;     (** [Unwind]: frames and error code *)
}.

(** The header reset at the top of [CaptureStackInto]. *)
Definition reset_header (mode : StackCaptureMode.t) (skipped : Z) : RawStackRecord :=
  raw_init <| raw_mode := mode |> <| skipped_frames := clamp_skip skipped |>.

Definition capture_fallback (r : RawStackRecord) (err : Z) : RawStackRecord :=
  r <| backend := StackCaptureBackend.Fallback |> <| capture_state := StackCaptureState.Error |>
    <| terminal_error := err |>.

(** What runs between the guard's construction and its destructor. *)
Definition capture_dispatch (p : Platform) (e : CaptureEnv) (t : ThreadCapture)
    (mode : StackCaptureMode.t) (max_frames skipped : Z) : ThreadCapture * RawStackRecord :=
  let r := reset_header mode skipped in
  let compiler :=
    if have_compiler_unwind p
    then CaptureWithCompiler (ce_unwind e) r mode StackCaptureBackend.CompilerUnwind max_frames skipped
    else capture_fallback r 3 in
  match mode with
  | StackCaptureMode.Fast =>
      if aarch64 p && negb (ce_force_compiler e)
      then CaptureWithFramePointer (ce_mem e) (ce_strip e) (ce_frame_address e) (ce_getattr e)
             t r mode max_frames skipped
      else (t, compiler)
  | StackCaptureMode.Accurate =>
      match target_os p with
      | OsAndroid =>
          if legacy_unwindstack_adapter p then
            let skip_limit := Z.min skipped kMaxAsyncRawFrames in
            let output_limit := Z.min max_frames kMaxAsyncRawFrames in
            let capture_limit := Z.min kMaxAsyncRawFrames (output_limit + skip_limit) in
            let '(frames, err) := ce_android_unwind e capture_limit in
            (t, BuildCapturedRecord mode StackCaptureBackend.AndroidUnwindstack (u8 err)
                  frames max_frames skipped)
          else (t, capture_fallback r 4)
      | OsLinux => (t, CaptureLinuxNative (ce_backtrace e) r mode max_frames skipped)
      | OsOhos => (t, compiler)
      | OsOther => (t, capture_fallback r 4)
      end
  end.

Definition CaptureStackInto (p : Platform) (e : CaptureEnv) (t : ThreadCapture)
    (mode : StackCaptureMode.t) (max_frames skipped : Z) : ThreadCapture * RawStackRecord :=
  if g_capture_active t
  then (t, capture_fallback (reset_header mode skipped) 2)
  else
    let t := t <| g_capture_active := true |> in
    let '(t, r) := capture_dispatch p e t mode max_frames skipped in
    (t <| g_capture_active := false |>, r).

(** ** Reference definitions *)

(** The saved return addresses along the chain of frame records that starts at
    [fp], each record inside the stack and above the one before. *)
Fixpoint frame_chain (fuel : nat) (mem : Z → Z) (low high fp : Z) : list Z :=
  match fuel with
  | O => []
  | S fuel =>
      if FrameRecordFitsStack fp low high
      then mem (fp + 8) :: (if mem fp <=? fp then [] else frame_chain fuel mem low high (mem fp))
      else []
  end.

Definition nonzero (l : list Z) : list Z := filter (λ z, z ≠ 0) l.

(** The callers a bounded capture keeps: skip the plumbing, then at most
    [limit] of the non-null addresses. *)
Definition visible (skip limit : Z) (l : list Z) : list Z :=
  take (Z.to_nat limit) (drop (Z.to_nat skip) (nonzero l)).

(** ** The frame-pointer walk *)

Lemma fits_spec fp low high :
  FrameRecordFitsStack fp low high = true ↔
  fp mod 8 = 0 ∧ low ≤ fp ∧ fp + 16 ≤ high.
Proof.
  unfold FrameRecordFitsStack. rewrite !andb_true_iff, Z.eqb_eq, !Z.leb_le.
  change 7 with (2 ^ 3 - 1). rewrite land_ones_mod by lia. change (2 ^ 3) with 8. lia.
Qed.

(** The fuel a walk from [fp] needs. *)
Definition fp_enough (fuel : nat) (low high fp : Z) : Prop :=
  (1 ≤ fuel)%nat ∧
  (FrameRecordFitsStack fp low high = true → (high - fp) / 8 < Z.of_nat fuel).

Lemma fp_enough_next fuel low high fp next :
  FrameRecordFitsStack fp low high = true → fp < next →
  fp_enough (S fuel) low high fp → fp_enough fuel low high next.
Proof.
  intros Hfit Hlt [_ Hfuel]. specialize (Hfuel Hfit).
  apply fits_spec in Hfit as (Ha & Hl & Hh).
  assert (2 ≤ (high - fp) / 8) by (apply Z.div_le_lower_bound; lia).
  split; [lia|]. intros (Ha' & Hl' & Hh')%fits_spec.
  apply Z.mod_divide in Ha, Ha'; [|lia..].
  destruct Ha as [a ->], Ha' as [b ->].
  assert ((high - b * 8) / 8 ≤ (high - a * 8) / 8 - 1); [|lia].
  replace (high - a * 8) with ((high - b * 8) + (b - a) * 8) by lia.
  rewrite Z.div_add by lia. lia.
Qed.

Lemma fp_enough_initial low high fp : fp_enough (fp_fuel low high) low high fp.
Proof.
  unfold fp_fuel. split; [lia|]. intros (Ha & Hl & Hh)%fits_spec.
  assert ((high - fp) / 8 ≤ (high - low) / 8) by (apply Z.div_le_mono; lia).
  assert (0 ≤ (high - low) / 8) by (apply Z.div_pos; lia). lia.
Qed.

Lemma nonzero_cons_ne x l : x ≠ 0 → nonzero (x :: l) = x :: nonzero l.
Proof. intros. unfold nonzero. by rewrite filter_cons_True. Qed.

Lemma nonzero_cons_0 l : nonzero (0 :: l) = nonzero l.
Proof. unfold nonzero. by rewrite filter_cons_False by lia. Qed.

Lemma fp_walk_spec fuel mem strip low high limit fp skip acc :
  fp_enough fuel low high fp → 0 ≤ skip → Z.of_nat (length acc) ≤ limit →
  let rest := drop (Z.to_nat skip) (nonzero (frame_chain fuel mem low high fp)) in
  let room := (Z.to_nat limit - length acc)%nat in
  fp_walk fuel mem strip low high limit fp skip acc =
    Some (acc ++ (strip <$> take room rest), bool_decide (room < length rest)%nat).
Proof.
  revert fp skip acc. induction fuel as [|fuel IH]; intros fp skip acc Hf Hs Hacc.
  { destruct Hf; lia. }
  cbn [fp_walk frame_chain].
  destruct (FrameRecordFitsStack fp low high) eqn:Hfit; cbn [negb];
    [|unfold nonzero; cbn; rewrite drop_nil, take_nil, app_nil_r; by do 2 f_equal].
  set (tl := if mem fp <=? fp then [] else frame_chain fuel mem low high (mem fp)).
  assert (∀ skip' acc', 0 ≤ skip' → Z.of_nat (length acc') ≤ limit →
    (if mem fp <=? fp then Some (acc', false)
     else fp_walk fuel mem strip low high limit (mem fp) skip' acc') =
    let rest := drop (Z.to_nat skip') (nonzero tl) in
    let room := (Z.to_nat limit - length acc')%nat in
    Some (acc' ++ (strip <$> take room rest), bool_decide (room < length rest)%nat)) as Hcont.
  { intros skip' acc' Hs' Hacc'. subst tl. destruct (Z.leb_spec (mem fp) fp).
    - unfold nonzero; cbn; rewrite drop_nil, take_nil, app_nil_r. by do 2 f_equal.
    - apply IH; [|done..]. by eapply fp_enough_next. }
  destruct (Z.eqb_spec (mem (fp + 8)) 0) as [Hz|Hz]; cbn [negb].
  { rewrite Hz, nonzero_cons_0. by apply Hcont. }
  rewrite nonzero_cons_ne by done.
  destruct (Z.eqb_spec skip 0) as [->|Hs0]; cbn [negb].
  - change (Z.to_nat 0) with 0%nat. rewrite drop_0.
    destruct (Z.geb_spec (Z.of_nat (length acc)) limit).
    + replace (Z.to_nat limit - length acc)%nat with 0%nat by lia.
      cbn. by rewrite app_nil_r.
    + rewrite Hcont by (rewrite ?length_app; cbn; lia).
      change (Z.to_nat 0) with 0%nat. rewrite drop_0. cbn zeta.
      rewrite length_app. cbn [length].
      destruct (Z.to_nat limit - length acc)%nat as [|room] eqn:Hr; [lia|].
      replace (Z.to_nat limit - (length acc + 1))%nat with room by lia.
      cbn. rewrite <-app_assoc. cbn. do 2 f_equal. apply bool_decide_ext. lia.
  - rewrite Hcont by lia. replace (Z.to_nat skip) with (S (Z.to_nat (skip - 1))) by lia. done.
Qed.

(** Only words of the stack are read. *)
Lemma fp_walk_stack_only fuel mem mem' strip low high limit fp skip acc :
  (∀ a, low ≤ a → a + 8 ≤ high → mem a = mem' a) →
  fp_walk fuel mem strip low high limit fp skip acc =
  fp_walk fuel mem' strip low high limit fp skip acc.
Proof.
  intros Hmem. revert fp skip acc. induction fuel as [|fuel IH]; intros fp skip acc; [done|].
  cbn [fp_walk]. destruct (FrameRecordFitsStack fp low high) eqn:Hfit; [|done].
  apply fits_spec in Hfit as (_ & Hl & Hh). cbn [negb].
  rewrite <-!(Hmem fp), <-!(Hmem (fp + 8)) by lia.
  by repeat case_match; rewrite ?IH.
Qed.

(** ** The compiler unwinder *)

Lemma u16_small z : 0 ≤ z < 2 ^ 16 → u16 z = z.
Proof. apply Z.mod_small. Qed.

(** A record whose count agrees with its program counters. *)
Definition raw_wf (r : RawStackRecord) : Prop := frame_count r = Z.of_nat (length (pcs r)).

Lemma unwind_backtrace_spec ips ur r m s :
  raw_wf r → Z.of_nat (length (pcs r)) ≤ m ≤ kMaxAsyncRawFrames → 0 ≤ s →
  let rest := drop (Z.to_nat s) (nonzero ips) in
  let room := (Z.to_nat m - length (pcs r))%nat in
  let '(c, reason) := unwind_backtrace ips ur (mkFast r m s) in
  let more := bool_decide (room < length rest)%nat in
  raw_wf (fc_record c) ∧
  pcs (fc_record c) = pcs r ++ take room rest ∧
  capture_state (fc_record c) =
    (if more then StackCaptureState.Partial else capture_state r) ∧
  terminal_error (fc_record c) = (if more then 1 else terminal_error r) ∧
  reason = (if more then ur_stop ur else ur_end ur).
Proof.
  unfold raw_wf. revert r s. induction ips as [|pc ips IH]; intros r s Hwf Hm Hs; cbn [unwind_backtrace].
  { unfold nonzero; cbn. rewrite drop_nil, take_nil, app_nil_r. by rewrite bool_decide_eq_false_2 by (cbn; lia). }
  unfold CaptureFrame. destruct (Z.eqb_spec pc 0) as [->|Hpc].
  { rewrite nonzero_cons_0. cbn -[unwind_backtrace]. by apply IH. }
  rewrite nonzero_cons_ne by done. cbn -[unwind_backtrace].
  destruct (Z.eqb_spec s 0) as [->|Hs0]; cbn -[unwind_backtrace].
  2:{ replace (Z.to_nat s) with (S (Z.to_nat (s - 1))) by lia. cbn -[unwind_backtrace].
      apply IH; [done..|lia]. }
  change (Z.to_nat 0) with 0%nat. rewrite drop_0. unfold kMaxAsyncRawFrames in Hm.
  destruct (Z.geb_spec (frame_count r) m); cbn -[unwind_backtrace].
  - replace (Z.to_nat m - length (pcs r))%nat with 0%nat by lia. cbn. by rewrite app_nil_r.
  - specialize (IH (r <| pcs := pcs r ++ [pc] |> <| frame_count := u16 (frame_count r + 1) |>) 0).
    change (Z.to_nat 0) with 0%nat in IH. rewrite drop_0 in IH.
    cbn -[unwind_backtrace] in IH. rewrite length_app in IH. cbn [length] in IH.
    rewrite u16_small in IH |- * by lia.
    destruct (Z.to_nat m - length (pcs r))%nat as [|room] eqn:Hr; [lia|].
    replace (Z.to_nat m - (length (pcs r) + 1))%nat with room in IH by lia.
    destruct (unwind_backtrace ips ur _) as [c reason].
    destruct IH as (H1 & H2 & H3 & H4 & H5); [lia|unfold kMaxAsyncRawFrames; lia|lia|].
    cbn [length take].
    rewrite (bool_decide_ext (S room < S (length (nonzero ips)))%nat
               (room < length (nonzero ips))%nat) by lia.
    split_and!; [done| |done..]. by rewrite H2, <-app_assoc.
Qed.

Lemma clamp_take_count m l :
  0 ≤ m → Z.min m (Z.of_nat (length l)) = Z.of_nat (length (take (Z.to_nat m) (l : list Z))).
Proof. intros. rewrite length_take. lia. Qed.

(** ** What every backend promises *)

(** The count is the number of program counters, bounded by the request and
    by the array, and a record is usable exactly when it has a frame. *)
Definition capture_ok (max_frames : Z) (r : RawStackRecord) : Prop :=
  raw_wf r ∧ frame_count r ≤ Z.min max_frames kMaxAsyncRawFrames ∧
  (IsUsable r = true ↔ frame_count r ≠ 0).

#[local] Ltac finish_capture :=
  split_and!; cbn; rewrite ?u16_small by lia; rewrite ?length_take, ?length_drop;
  try lia; try done; split; intros; cbn in *; try done; try lia.

Lemma reset_header_ok mode skipped max_frames :
  0 ≤ max_frames → capture_ok max_frames (reset_header mode skipped).
Proof. intros. unfold capture_ok, raw_wf, IsUsable, kMaxAsyncRawFrames. finish_capture. Qed.

Lemma capture_fallback_ok mode skipped err max_frames :
  0 ≤ max_frames → capture_ok max_frames (capture_fallback (reset_header mode skipped) err).
Proof. intros. unfold capture_ok, raw_wf, IsUsable, kMaxAsyncRawFrames. finish_capture. Qed.

Lemma BuildCapturedRecord_ok mode bk err frames max_frames skipped :
  0 ≤ max_frames → 0 ≤ skipped →
  capture_ok max_frames (BuildCapturedRecord mode bk err frames max_frames skipped).
Proof.
  intros Hm Hs. unfold capture_ok, raw_wf, IsUsable, BuildCapturedRecord, kMaxAsyncRawFrames.
  cbn. set (count := Z.min (Z.min max_frames 256) _).
  rewrite u16_small by lia. split_and!; [rewrite length_take, length_drop; lia|lia|].
  destruct (Z.eqb_spec count 0), (Z.eqb_spec err 0); by cbn; split.
Qed.

Lemma CaptureLinuxNative_ok backtrace mode max_frames skipped :
  0 ≤ max_frames → 0 ≤ skipped →
  capture_ok max_frames
    (CaptureLinuxNative backtrace (reset_header mode skipped) mode max_frames skipped).
Proof.
  intros Hm Hs. unfold capture_ok, raw_wf, IsUsable, CaptureLinuxNative, kMaxAsyncRawFrames.
  destruct (Z.eqb_spec (Z.min max_frames 256) 0); [finish_capture|].
  set (captured := backtrace _). destruct (Z.leb_spec (Z.of_nat (length captured)) 0);
    [finish_capture|].
  set (count := Z.min (Z.min max_frames 256) (_ - _)).
  assert (0 ≤ count ≤ 256) by lia.
  destruct (Z.eqb_spec count 0); [finish_capture|destruct (_ =? _); finish_capture].
Qed.

Lemma CaptureWithCompiler_ok ur mode bk max_frames skipped :
  0 ≤ max_frames → 0 ≤ skipped →
  capture_ok max_frames
    (CaptureWithCompiler ur (reset_header mode skipped) mode bk max_frames skipped).
Proof.
  intros Hm Hs. unfold CaptureWithCompiler.
  destruct (Z.eqb_spec max_frames 0) as [->|]; [by apply reset_header_ok|].
  set (r0 := (((_ <| raw_mode := _ |>) <| backend := _ |>) <| skipped_frames := _ |>)).
  pose proof (unwind_backtrace_spec (ur_ips ur) ur r0
    (Z.min max_frames kMaxAsyncRawFrames) skipped) as H.
  cbn zeta in H. destruct (unwind_backtrace _ _ _) as [c reason].
  assert (raw_wf r0) as Hw by done.
  destruct H as (H1 & H2 & H3 & _ & _); [done|cbn; unfold kMaxAsyncRawFrames; lia|done|].
  unfold capture_ok, raw_wf in *. cbn in H2, H3.
  assert (frame_count (fc_record c) ≤ Z.min max_frames kMaxAsyncRawFrames).
  { rewrite H1, H2, length_take. unfold kMaxAsyncRawFrames in *. lia. }
  destruct (Z.eqb_spec (frame_count (fc_record c)) 0) as [Hz|Hz]; cbn [negb].
  - assert (capture_state (fc_record c) = StackCaptureState.Empty) as Hst.
    { rewrite H3, bool_decide_eq_false_2; [done|]. rewrite Hz, H2 in H1.
      rewrite length_take in H1. unfold kMaxAsyncRawFrames in *. cbn in *. lia. }
    destruct (reason =? URC_END_OF_STACK); cbn; unfold IsUsable; rewrite ?Hst; finish_capture.
  - destruct (bool_decide (capture_state (fc_record c) = StackCaptureState.Partial)) eqn:Hp;
      [|destruct (reason =? URC_END_OF_STACK)];
      cbn; unfold IsUsable; rewrite ?Hp, ?orb_true_r; finish_capture.
Qed.

Lemma CaptureWithFramePointer_ok mem strip fa getattr t mode max_frames skipped :
  0 ≤ max_frames → 0 ≤ skipped →
  let '(t', r) := CaptureWithFramePointer mem strip fa getattr t (reset_header mode skipped)
                    mode max_frames skipped in
  capture_ok max_frames r ∧ g_capture_active t' = g_capture_active t.
Proof.
  intros Hm Hs. unfold CaptureWithFramePointer.
  destruct (Z.eqb_spec (Z.min max_frames kMaxAsyncRawFrames) 0);
    [split; [by apply reset_header_ok|done]|].
  assert (g_capture_active (CurrentStackBounds getattr t).1.1 = g_capture_active t) as Hact.
  { unfold CurrentStackBounds. by repeat case_match. }
  destruct (CurrentStackBounds getattr t) as [[t' [low high]] ok]. cbn in Hact.
  destruct ok; cbn [negb];
    [|split; [|done]; unfold capture_ok, raw_wf, IsUsable, kMaxAsyncRawFrames; finish_capture].
  rewrite (fp_walk_spec _ _ _ _ _ _ _ _ []) 
    by (done || apply fp_enough_initial || (unfold kMaxAsyncRawFrames; cbn; lia)).
  cbn zeta. rewrite Nat.sub_0_r, app_nil_l.
  split; [|by repeat case_match].
  unfold capture_ok, raw_wf, IsUsable, kMaxAsyncRawFrames in *.
  cbn. set (frames := strip <$> _).
  assert (Z.of_nat (length frames) ≤ 256 `min` max_frames)
    by (subst frames; rewrite length_fmap, length_take; lia).
  destruct (Z.eqb_spec (Z.of_nat (length frames)) 0); [|destruct (bool_decide _)]; finish_capture.
Qed.

Lemma capture_dispatch_ok p e t mode max_frames skipped :
  0 ≤ max_frames → 0 ≤ skipped →
  let '(t', r) := capture_dispatch p e t mode max_frames skipped in
  capture_ok max_frames r ∧ g_capture_active t' = g_capture_active t.
Proof.
  intros Hm Hs. unfold capture_dispatch.
  pose proof (CaptureWithFramePointer_ok (ce_mem e) (ce_strip e) (ce_frame_address e)
    (ce_getattr e) t mode max_frames skipped Hm Hs) as Hfp.
  pose proof (CaptureWithCompiler_ok (ce_unwind e) mode StackCaptureBackend.CompilerUnwind
    max_frames skipped Hm Hs) as Hc.
  repeat case_match; simplify_eq; try done;
    auto using capture_fallback_ok, BuildCapturedRecord_ok, CaptureLinuxNative_ok.
Qed.

(** The chain of frame records as a relation: where it ends and how it goes on. *)
Inductive FrameChain (mem : Z → Z) (low high : Z) : Z → list Z → Prop :=
  | chain_outside fp :
      FrameRecordFitsStack fp low high = false → FrameChain mem low high fp []
  | chain_last fp :
      FrameRecordFitsStack fp low high = true → mem fp ≤ fp →
      FrameChain mem low high fp [mem (fp + 8)]
  | chain_next fp lrs :
      FrameRecordFitsStack fp low high = true → fp < mem fp →
      FrameChain mem low high (mem fp) lrs →
      FrameChain mem low high fp (mem (fp + 8) :: lrs).
#[export] Hint Constructors FrameChain : hook.

Lemma frame_chain_sound fuel mem low high fp :
  fp_enough fuel low high fp → FrameChain mem low high fp (frame_chain fuel mem low high fp).
Proof.
  revert fp. induction fuel as [|fuel IH]; intros fp Hf; [destruct Hf; lia|].
  cbn. destruct (FrameRecordFitsStack fp low high) eqn:Hfit; [|by constructor].
  destruct (Z.leb_spec (mem fp) fp); [by constructor|].
  constructor; [done..|]. apply IH. by eapply fp_enough_next.
Qed.

Lemma FrameChain_functional mem low high fp l1 l2 :
  FrameChain mem low high fp l1 → FrameChain mem low high fp l2 → l1 = l2.
Proof.
  intros H1. revert l2. induction H1; inversion 1; subst; try congruence; try lia.
  f_equal. auto.
Qed.

(** C32. The frame-pointer walk terminates on every stack and records exactly
    the return addresses of the frame-record chain: null ones dropped, the
    first [skipped] left out, at most [min max_frames 256] kept, each stripped
    of its authentication code.  The state says whether any were cut off. *)
Theorem frame_pointer_capture mem strip fa getattr t mode max_frames skipped t' low high :
  0 < max_frames → 0 ≤ skipped → CurrentStackBounds getattr t = (t', (low, high), true) →
  ∃ chain, FrameChain mem low high fa chain ∧
  let r := (CaptureWithFramePointer mem strip fa getattr t (reset_header mode skipped)
              mode max_frames skipped).2 in
  let limit := Z.min max_frames kMaxAsyncRawFrames in
  let callers := drop (Z.to_nat skipped) (nonzero chain) in
  pcs r = strip <$> take (Z.to_nat limit) callers ∧
  frame_count r = Z.of_nat (length (pcs r)) ∧
  capture_state r =
    (if decide (callers = []) then StackCaptureState.Empty
     else if limit <? Z.of_nat (length callers) then StackCaptureState.Partial
     else StackCaptureState.Complete).
Proof.
  intros Hm Hs Hb. exists (frame_chain (fp_fuel low high) mem low high fa).
  split; [apply frame_chain_sound, fp_enough_initial|].
  assert (0 < Z.min max_frames kMaxAsyncRawFrames) by (unfold kMaxAsyncRawFrames; lia).
  unfold CaptureWithFramePointer. rewrite Hb.
  destruct (Z.eqb_spec (Z.min max_frames kMaxAsyncRawFrames) 0); [lia|]. cbn [negb].
  rewrite (fp_walk_spec _ _ _ _ _ _ _ _ []) by (done || apply fp_enough_initial || (cbn; lia)).
  cbn zeta. rewrite Nat.sub_0_r, app_nil_l. set (callers := drop _ _).
  cbn. rewrite length_fmap, length_take.
  set (limit := Z.min max_frames kMaxAsyncRawFrames) in *.
  destruct (decide (callers = [])) as [E|Hne].
  - rewrite E, take_nil. cbn. rewrite Nat.min_0_r. done.
  - assert (0 < length callers)%nat by (destruct callers; [done|cbn; lia]).
    destruct (Z.eqb_spec (Z.of_nat (Z.to_nat limit `min` length callers)) 0); [lia|].
    destruct (Z.ltb_spec limit (Z.of_nat (length callers)));
      [rewrite bool_decide_eq_true_2 by lia|rewrite bool_decide_eq_false_2 by lia];
      cbn; rewrite length_fmap, length_take; done.
Qed.

(** Three frame records, one null return address and a record whose link goes
    backwards; one frame is skipped. *)
Definition demo_mem (a : Z) : Z :=
  if a =? 64 then 96 else if a =? 72 then 1001
  else if a =? 96 then 128 else if a =? 104 then 0
  else if a =? 128 then 160 else if a =? 136 then 1003
  else if a =? 160 then 8 else if a =? 168 then 1004 else 0.
Definition demo_thread : ThreadCapture := mkThread false (0, 0) false.

Lemma frame_pointer_capture_witness :
  pcs (CaptureWithFramePointer demo_mem id 64 (Some (64, 192)) demo_thread
         (reset_header StackCaptureMode.Fast 1) StackCaptureMode.Fast 8 1).2 = [1003; 1004] ∧
  ∃ chain, FrameChain demo_mem 64 256 64 chain.
Proof.
  split; [reflexivity|].
  destruct (frame_pointer_capture demo_mem id 64 (Some (64, 192)) demo_thread
    StackCaptureMode.Fast 8 1 (mkThread false (64, 256) true) 64 256
    ltac:(lia) ltac:(lia) ltac:(reflexivity)) as (chain & Hc & _).
  exists chain. exact Hc.
Defined.

(** C33. Memory safety of the frame-pointer walk: two memories that agree on
    the words inside the thread's stack give the same capture, so nothing
    outside the stack is ever read into it. *)
Theorem frame_pointer_reads_only_stack mem mem' strip fa getattr t r mode max_frames skipped :
  let '(_, (low, high), _) := CurrentStackBounds getattr t in
  (∀ a, low ≤ a → a + 8 ≤ high → mem a = mem' a) →
  CaptureWithFramePointer mem strip fa getattr t r mode max_frames skipped =
  CaptureWithFramePointer mem' strip fa getattr t r mode max_frames skipped.
Proof.
  destruct (CurrentStackBounds getattr t) as [[t' [low high]] ok] eqn:E. intros Hmem.
  unfold CaptureWithFramePointer. rewrite E.
  by rewrite (fp_walk_stack_only _ mem mem') by done.
Qed.

Lemma frame_pointer_reads_only_stack_witness :
  (CaptureWithFramePointer demo_mem id 64 (Some (64, 192)) demo_thread
     (reset_header StackCaptureMode.Fast 1) StackCaptureMode.Fast 8 1) =
  (CaptureWithFramePointer (λ a, if a <? 64 then 7 else demo_mem a) id 64 (Some (64, 192))
     demo_thread (reset_header StackCaptureMode.Fast 1) StackCaptureMode.Fast 8 1).
Proof.
  apply (frame_pointer_reads_only_stack demo_mem (λ a, if a <? 64 then 7 else demo_mem a)
    id 64 (Some (64, 192)) demo_thread).
  intros a Ha _. cbn in Ha. destruct (Z.ltb_spec a 64); [lia|reflexivity].
Defined.

(** The compiler-unwinder backend records the non-null instruction
    pointers it is offered, past the skipped ones and up to the limit, and is
    [Complete] exactly when it kept all of them and the unwinder reached the
    end of the stack. *)
Theorem compiler_capture ur mode bk max_frames skipped :
  0 < max_frames → 0 ≤ skipped →
  let r := CaptureWithCompiler ur (reset_header mode skipped) mode bk max_frames skipped in
  let limit := Z.min max_frames kMaxAsyncRawFrames in
  let callers := drop (Z.to_nat skipped) (nonzero (ur_ips ur)) in
  pcs r = take (Z.to_nat limit) callers ∧
  (capture_state r = StackCaptureState.Complete ↔
   callers ≠ [] ∧ Z.of_nat (length callers) ≤ limit ∧ ur_end ur = URC_END_OF_STACK).
Proof.
  intros Hm Hs. unfold CaptureWithCompiler.
  destruct (Z.eqb_spec max_frames 0); [lia|].
  set (r0 := (((_ <| raw_mode := _ |>) <| backend := _ |>) <| skipped_frames := _ |>)).
  pose proof (unwind_backtrace_spec (ur_ips ur) ur r0
    (Z.min max_frames kMaxAsyncRawFrames) skipped) as H.
  cbn zeta in H. destruct (unwind_backtrace _ _ _) as [c reason].
  assert (raw_wf r0) as Hw by done.
  destruct H as (H1 & H2 & H3 & _ & H5); [done|cbn; unfold kMaxAsyncRawFrames; lia|done|].
  cbn in H2, H3, H5. rewrite Nat.sub_0_r in *.
  assert (0 < Z.min max_frames kMaxAsyncRawFrames) by (unfold kMaxAsyncRawFrames; lia).
  set (limit := Z.min max_frames kMaxAsyncRawFrames) in *. cbn zeta.
  set (callers := drop (Z.to_nat skipped) (nonzero (ur_ips ur))) in *.
  assert (frame_count (fc_record c) = 0 ↔ callers = []) as Hfc.
  { rewrite H1, H2, length_take. destruct callers; cbn; split; [done|lia|lia|done]. }
  destruct (bool_decide _) eqn:Hmore; bool_hyps.
  - destruct (Z.eqb_spec (frame_count (fc_record c)) 0) as [Hz|Hz]; cbn [negb].
    { apply Hfc in Hz. rewrite Hz in Hmore. cbn in Hmore. lia. }
    rewrite H3, bool_decide_eq_true_2 by done. split; [done|]. rewrite H3. split; [done|lia].
  - destruct (Z.eqb_spec (frame_count (fc_record c)) 0) as [Hz|Hz]; cbn [negb].
    { apply Hfc in Hz. split; [by case_match|].
      split; [by repeat case_match; cbn; rewrite ?H3|tauto]. }
    rewrite H3. cbn. split; [done|]. rewrite H5.
    destruct (Z.eqb_spec (ur_end ur) URC_END_OF_STACK); split; intros; destruct_and?; try done.
    split_and!; [tauto|lia|done].
Qed.

Lemma compiler_capture_witness :
  pcs (CaptureWithCompiler (mkUnwind [11; 0; 12; 13] 5 3) (reset_header StackCaptureMode.Fast 1)
         StackCaptureMode.Fast StackCaptureBackend.CompilerUnwind 8 1) = [12; 13].
Proof.
  exact (proj1 (compiler_capture (mkUnwind [11; 0; 12; 13] 5 3) StackCaptureMode.Fast
    StackCaptureBackend.CompilerUnwind 8 1 ltac:(lia) ltac:(lia))).
Defined.

(** The capture contract on every platform, backend and mode: the count is
    the number of recorded program counters and never exceeds the request or
    the 256-entry array; a record is usable exactly when it has a frame; the
    re-entrancy flag is left as it was found, and a nested capture records
    nothing but error 2. *)
Theorem capture_contract p e t mode max_frames skipped :
  0 ≤ max_frames → 0 ≤ skipped →
  let '(t', r) := CaptureStackInto p e t mode max_frames skipped in
  frame_count r = Z.of_nat (length (pcs r)) ∧
  frame_count r ≤ Z.min max_frames kMaxAsyncRawFrames ∧
  (IsUsable r = true ↔ frame_count r ≠ 0) ∧
  g_capture_active t' = g_capture_active t ∧
  (g_capture_active t = true →
   t' = t ∧ capture_state r = StackCaptureState.Error ∧ terminal_error r = 2).
Proof.
  intros Hm Hs. unfold CaptureStackInto. destruct (g_capture_active t) eqn:Hact.
  - destruct (capture_fallback_ok mode skipped 2 max_frames Hm) as (H1 & H2 & H3).
    by split_and!.
  - pose proof (capture_dispatch_ok p e (t <| g_capture_active := true |>) mode
      max_frames skipped Hm Hs) as H.
    destruct (capture_dispatch _ _ _ _ _ _) as [t' r]. destruct H as [(H1 & H2 & H3) _].
    by split_and!.
Qed.

Definition demo_capture_env : CaptureEnv :=
  mkCaptureEnv (mkUnwind [11; 0; 12; 13] 5 3) (λ n, take (Z.to_nat n) [21; 22; 23])
    demo_mem id 64 (Some (64, 192)) false (λ _, ([31; 32], 0)).
Definition demo_platform : Platform := mkPlatform true OsLinux true false.

Lemma capture_contract_witness :
  frame_count (CaptureStackInto demo_platform demo_capture_env demo_thread
                 StackCaptureMode.Fast 2 0).2 ≤ 2.
Proof.
  exact (proj1 (proj2 (capture_contract demo_platform demo_capture_env demo_thread
    StackCaptureMode.Fast 2 0 ltac:(lia) ltac:(lia)))).
Defined.
