(* ===== verification/HookPolicy.v ===== *)
(** * Hook source policy and the re-entrancy switch

    Models backtrace/include/HookSourcePolicy.h (which results count as a
    success, which mappings are captured, the pending GPU allocation) and
    backtrace/src/debug_disable.cpp with its scoped guard.  The thread-local
    [g_disable_key] value of one thread is a [bool]. *)
From S2P Require Import Prelude.

(** ** Success filters *)

Definition nullptr : Z := 0.
(** [(void* )-1]. *)
Definition MAP_FAILED : Z := UINTPTR_MAX.
Definition MAP_SHARED : Z := 1.
Definition MAP_ANONYMOUS : Z := 32.

Definition AllocationSucceeded (result : Z) : bool := negb (result =? nullptr).

Definition MappingSucceeded (result : Z) : bool :=
  negb (result =? nullptr) && negb (result =? MAP_FAILED).

Definition SyscallSucceeded (result : Z) : bool := result =? 0.

Inductive MmapCaptureKind := KindNone | KindAnonymous | KindPendingIoctl.

Definition ClassifyMmap (result flags fd : Z) (pending_ioctl : bool) : MmapCaptureKind :=
  if result =? MAP_FAILED then KindNone
  else if pending_ioctl then KindPendingIoctl
  else if (fd <? 0) && flag_set flags MAP_ANONYMOUS then KindAnonymous
  else KindNone.

(** ** The pending resource allocation of one thread *)

Definition PendingIoctlAllocation := Z.

Definition Mark (request : Z) (p : PendingIoctlAllocation) : PendingIoctlAllocation := request.

Definition Take (p : PendingIoctlAllocation) : Z * PendingIoctlAllocation := (p, 0).

(** ** Disabling the debug calls of one thread *)

Definition DebugDisableSet (disable flag : bool) : bool := disable.

Definition DebugCallsDisabled (flag : bool) : bool := flag.

(** The constructor and the destructor of [ScopedDisableDebugCalls]: the
    remembered value and the new flag, then the flag the scope leaves. *)
Definition ScopedDisable_enter (flag : bool) : bool * bool :=
  let disabled_ := DebugCallsDisabled flag in
  (disabled_, if disabled_ then flag else DebugDisableSet true flag).

Definition ScopedDisable_leave (disabled_ flag : bool) : bool :=
  if disabled_ then flag else DebugDisableSet false flag.

(** A block guarded by the scope; [body] may itself set the flag. *)
Definition with_scope {A} (body : bool → A * bool) (flag : bool) : A * bool :=
  let '(disabled_, flag) := ScopedDisable_enter flag in
  let '(x, flag) := body flag in
  (x, ScopedDisable_leave disabled_ flag).

(** ** Lemmas *)

Lemma ScopedDisable_enter_on flag : (ScopedDisable_enter flag).2 = true.
Proof. by destruct flag. Qed.

(** Balanced scopes nest: the flag is restored, and on inside the block. *)
Lemma with_scope_restores {A} (body : bool → A * bool) flag :
  (∀ f, f = true → (body f).2 = f) → (with_scope body flag).2 = flag.
Proof.
  intros Hb. unfold with_scope, ScopedDisable_enter. destruct flag; cbn.
  - specialize (Hb true eq_refl). destruct (body true); cbn in *; congruence.
  - by destruct (body _).
Qed.

Lemma ClassifyMmap_failed flags fd pending : ClassifyMmap MAP_FAILED flags fd pending = KindNone.
Proof. done. Qed.
