(* ===== verification/Config.v ===== *)
(** * Configuration from the environment

    Models backtrace/include/Config.h and backtrace/src/Config.cpp: the
    environment parsers, [Config::ObserveOnlyRequested] and [Config::Init].
    The process environment is [option (list string)] ([None] for a null
    [environ]); [getenv] is the C library's.  Diagnostics printed by
    [ParseValue] are returned next to its result and not otherwise modelled. *)
From S2P Require Import Prelude CString Capture.

(** ** Constants *)

Definition BACKTRACE : Z := 1.
Definition TRACK_ALLOCS : Z := 2.
Definition BACKTRACE_SPECIFIC_SIZES : Z := 4.
Definition RECORD_MEMORY_PEAK : Z := 8.
Definition DUMP_ON_SINGAL : Z := 128.

Definition DEFAULT_BACKTRACE_FRAMES : Z := 128.
Definition DEFAULT_BACKTRACE_DUMP_PREFIX : string := "/data/local/tmp/trace/backtrace_heap".
Definition DEFAULT_OHOS_BACKTRACE_MIN_SIZE_BYTES : Z := 40960.
Definition kPeakRecordingMinSizeBytes : Z := 1024.
Definition kDumpPrefixEnv : string := "ALLOC_HOOK_DUMP_PREFIX".
Definition kPeakSampleIntervalEnv : string := "ALLOC_HOOK_PEAK_SAMPLE_MS".
Definition kDumpPeakValueEnv : string := "DUMP_PEAK_VALUE_MB".
Definition kPeakStepEnv : string := "DUMP_PEAK_STEP_MB".
Definition kDefaultPeakSampleMs : Z := 50.
Definition kExternalSampleIntervalSuffix : string := "AUTO_SHOW_MEM_USE_DURATION_MS".

Inductive PeakRetention := ChaseMax | FirstCrossing.
#[global] Instance PeakRetention_eq_dec : EqDecision PeakRetention.
Proof. solve_decision. Defined.

Record Config := mkConfig {
  options : Z;
  backtrace_dump_signal : Z;
  backtrace_frames : Z;
  backtrace_dump_on_exit : bool;
  backtrace_dump_prefix : string;
  backtrace_min_size_bytes : Z;
  backtrace_max_size_bytes : Z;
  backtrace_dump_peak_val : Z;
  peak_record_step_bytes : Z;
  peak_retention : PeakRetention;
  observed_peak_sample_ms : Z;
  capture_mode : StackCaptureMode.t;
}.

(** ** The environment *)

Definition Environ := option (list string).

Fixpoint getenv_in (es : list string) (name : string) : option string :=
  match es with
  | [] => None
  | e :: es =>
      if starts_with (name +:+ "=") e
      then Some (sdrop (S (String.length name)) e)
      else getenv_in es name
  end.

Definition getenv (env : Environ) (name : string) : option string :=
  match env with Some es => getenv_in es name | None => None end.

(** ** Parsers *)

Definition DefaultBacktraceSignal (os : TargetOS) (sigrtmin : Z) : Z :=
  match os with
  | OsAndroid => 33
  | OsOhos => 46
  | OsLinux | OsOther => sigrtmin + 6
  end.

Definition DumpSignal (os : TargetOS) (sigrtmin : Z) : Z := DefaultBacktraceSignal os sigrtmin.

Definition ParseCaptureMode (value : option string) : StackCaptureMode.t :=
  match value with
  | Some v => if strcasecmp_eq v "accurate" then StackCaptureMode.Accurate else StackCaptureMode.Fast
  | None => StackCaptureMode.Fast
  end.

Inductive ParseError := ErrnoError | ExpectedDecimal.

(** Success, the out parameter, and the reason of a failure. *)
Definition ParseValueQuiet (value : option string) : bool * Z * option ParseError :=
  match value with
  | None => (false, 0, None)
  | Some v =>
      let '(long_value, rest, erange) := strtol v in
      if erange : bool then (false, 0, Some ErrnoError)
      else
        let whole := match rest with Some EmptyString => true | _ => false end in
        if negb whole || (long_value <? 0) then (false, 0, Some ExpectedDecimal)
        else (true, long_value, None)
  end.

(** The message is what the code prints. *)
Definition ParseValue (value : option string) : bool * Z * option (option string * ParseError) :=
  let '(ok, parsed, error) := ParseValueQuiet value in
  (ok, parsed, if ok : bool then None else (λ e, (value, e)) <$> error).

Fixpoint find_external (es : list string) : bool * Z :=
  match es with
  | [] => (false, 0)
  | entry :: es =>
      match strchr entry "="%char with
      | None => find_external es
      | Some name_length =>
          let suffix_length := String.length kExternalSampleIntervalSuffix in
          if (name_length <? suffix_length)%nat then find_external es
          else if negb (starts_with kExternalSampleIntervalSuffix
                          (sdrop (name_length - suffix_length) entry))
          then find_external es
          else
            let '(ok, v, _) := ParseValueQuiet (Some (sdrop (S name_length) entry)) in
            if (ok : bool) && (v >? 0) then (true, v) else find_external es
      end
  end.

Definition FindExternalSampleIntervalMs (env : Environ) : bool * Z :=
  match env with None => (false, 0) | Some es => find_external es end.

(** ** [Config::ObserveOnlyRequested] *)

Definition ObserveOnlyRequested (env : Environ) : bool * Z :=
  let '(floor_ok, floor, _) := ParseValueQuiet (getenv env kDumpPeakValueEnv) in
  if (floor_ok : bool) && (floor >? 0) then (false, 0)
  else
    let '(explicit_interval, ms, _) := ParseValueQuiet (getenv env kPeakSampleIntervalEnv) in
    let '(step_ok, step, _) := ParseValueQuiet (getenv env kPeakStepEnv) in
    if (explicit_interval : bool) && (ms >? 0) && (step_ok : bool) && (step >? 0) then (false, 0)
    else
      let '(found, external) := FindExternalSampleIntervalMs env in
      if negb explicit_interval && negb found then (false, 0)
      else
        let peak_sample_ms := if explicit_interval : bool then ms else external in
        if peak_sample_ms =? 0 then (false, 0) else (true, u32 peak_sample_ms).

(** ** [Config::Init] *)

(** [*p = n * 1024 * 1024] on a [size_t]. *)
Definition mb_to_bytes (n : Z) : Z := (n ⊠ 1024) ⊠ 1024.

Definition Init (os : TargetOS) (sigrtmin : Z) (env : Environ) : Config :=
  let prefix :=
    match getenv env kDumpPrefixEnv with
    | Some (String c r) => String c r
    | _ => DEFAULT_BACKTRACE_DUMP_PREFIX
    end in
  let mode := ParseCaptureMode (getenv env "ALLOC_HOOK_CAPTURE_MODE") in
  let opts := Z.lor 0 BACKTRACE_SPECIFIC_SIZES in
  let min0 := match os with OsOhos => DEFAULT_OHOS_BACKTRACE_MIN_SIZE_BYTES | _ => 0 end in
  let '(explicit_min_size, min_size_bytes, _) := ParseValue (getenv env "BACKTRACE_MIN_SIZE") in
  let min1 := if explicit_min_size : bool then min_size_bytes else min0 in
  let opts := Z.lor opts TRACK_ALLOCS in
  let '(explicit_sample_interval, ms, _) := ParseValue (getenv env kPeakSampleIntervalEnv) in
  let '(found, external) := FindExternalSampleIntervalMs env in
  let adopted_sample_interval := negb explicit_sample_interval && found in
  let peak_sample_ms := if explicit_sample_interval : bool then ms else external in
  let '(_, peak_floor_mb, _) := ParseValue (getenv env kDumpPeakValueEnv) in
  let has_peak_floor := peak_floor_mb >? 0 in
  let '(_, peak_step_mb, _) := ParseValue (getenv env kPeakStepEnv) in
  let has_peak_step := peak_step_mb >? 0 in
  let record_peak :=
    has_peak_floor || (explicit_sample_interval && (peak_sample_ms >? 0) && has_peak_step) in
  let opts := if record_peak then Z.lor (Z.lor opts RECORD_MEMORY_PEAK) BACKTRACE else opts in
  let min2 :=
    if record_peak && negb explicit_min_size && (min1 =? 0)
    then kPeakRecordingMinSizeBytes else min1 in
  let sample_ms :=
    if record_peak then
      (if explicit_sample_interval || adopted_sample_interval
       then u32 peak_sample_ms else u32 kDefaultPeakSampleMs)
    else 0 in
  mkConfig (Z.lor opts DUMP_ON_SINGAL) (DumpSignal os sigrtmin) DEFAULT_BACKTRACE_FRAMES
    record_peak prefix min2 SIZE_MAX (mb_to_bytes peak_floor_mb) (mb_to_bytes peak_step_mb)
    (if has_peak_floor then FirstCrossing else ChaseMax) sample_ms mode.

(** ** Lemmas *)

(** Whether an option word has a bit, as the code tests it. *)
Definition has_option (c : Config) (bit : Z) : bool := flag_set (options c) bit.

Lemma ParseValueQuiet_range value :
  let '(ok, v, _) := ParseValueQuiet value in
  0 ≤ v ≤ LONG_MAX ∧ (ok = false → v = 0).
Proof.
  unfold ParseValueQuiet. destruct value as [s|]; [|by unfold LONG_MAX].
  pose proof (strtol_range s) as Hr. destruct (strtol s) as [[z rest] er]. cbn in Hr.
  destruct er; [by unfold LONG_MAX|].
  destruct (negb _); cbn; [by unfold LONG_MAX|].
  destruct (Z.ltb_spec z 0); [by unfold LONG_MAX|]. lia.
Qed.

Lemma ParseValue_quiet value : (ParseValue value).1 = (ParseValueQuiet value).1.
Proof. unfold ParseValue. by destruct (ParseValueQuiet value) as [[[] ?] ?]. Qed.

Lemma find_external_pos es : let '(found, v) := find_external es in
  (found = true → 0 < v) ∧ (found = false → v = 0).
Proof.
  induction es as [|e es IH]; cbn [find_external]; [done|].
  destruct (strchr e _); [|done]. destruct (_ <? _)%nat; [done|].
  destruct (negb _); [done|].
  destruct (ParseValueQuiet _) as [[ok v] ?]. destruct (ok && (v >? 0)) eqn:E; [|done].
  bool_hyps. apply Z.gtb_lt in H0. by split.
Qed.

Lemma mb_to_bytes_exact n : 0 ≤ n → mb_to_bytes n = u64 (n * 2 ^ 20).
Proof. intros. unfold mb_to_bytes. word_eq. Qed.

(** The sampling interval the environment offers: an explicit one, else the
    one a host framework publishes, else none. *)
Definition sampling_cadence (env : Environ) : Z :=
  let '(explicit, ms, _) := ParseValueQuiet (getenv env kPeakSampleIntervalEnv) in
  if explicit : bool then ms else (FindExternalSampleIntervalMs env).2.

(** Whether the environment asks for a peak report. *)
Definition report_requested (env : Environ) : bool :=
  let floor := (ParseValueQuiet (getenv env kDumpPeakValueEnv)).1.2 in
  let step := (ParseValueQuiet (getenv env kPeakStepEnv)).1.2 in
  let '(explicit, ms, _) := ParseValueQuiet (getenv env kPeakSampleIntervalEnv) in
  (floor >? 0) || ((explicit : bool) && (ms >? 0) && (step >? 0)).

(** Names the parsed variables and their ranges. *)
Ltac parse_env env :=
  let H := fresh "Hrange" in
  pose proof (ParseValueQuiet_range (getenv env kDumpPeakValueEnv)) as H;
  destruct (ParseValueQuiet (getenv env kDumpPeakValueEnv)) as [[floor_ok floor] ?];
  let H := fresh "Hrange" in
  pose proof (ParseValueQuiet_range (getenv env kPeakSampleIntervalEnv)) as H;
  destruct (ParseValueQuiet (getenv env kPeakSampleIntervalEnv)) as [[explicit ms] ?];
  let H := fresh "Hrange" in
  pose proof (ParseValueQuiet_range (getenv env kPeakStepEnv)) as H;
  destruct (ParseValueQuiet (getenv env kPeakStepEnv)) as [[step_ok step] ?].

Lemma FindExternal_pos env : let '(found, v) := FindExternalSampleIntervalMs env in
  (found = true → 0 < v) ∧ (found = false → v = 0).
Proof. destruct env as [es|]; [apply find_external_pos|done]. Qed.

(** [Init] as a record of its decisions, in terms of the two gates above. *)
Lemma Init_spec os sigrtmin env :
  let c := Init os sigrtmin env in
  let '(explicit, ms, _) := ParseValueQuiet (getenv env kPeakSampleIntervalEnv) in
  let record := report_requested env in
  options c = (if record then 143 else 134) ∧
  backtrace_dump_on_exit c = record ∧
  peak_retention c =
    (if (ParseValueQuiet (getenv env kDumpPeakValueEnv)).1.2 >? 0 then FirstCrossing else ChaseMax) ∧
  observed_peak_sample_ms c =
    (if record then
       (if explicit || (FindExternalSampleIntervalMs env).1 then u32 (sampling_cadence env) else 50)
     else 0) ∧
  backtrace_dump_peak_val c = mb_to_bytes (ParseValueQuiet (getenv env kDumpPeakValueEnv)).1.2 ∧
  peak_record_step_bytes c = mb_to_bytes (ParseValueQuiet (getenv env kPeakStepEnv)).1.2.
Proof.
  unfold Init, report_requested, sampling_cadence.
  pose proof (ParseValue_quiet (getenv env kDumpPeakValueEnv)) as E1.
  pose proof (ParseValue_quiet (getenv env kPeakSampleIntervalEnv)) as E2.
  pose proof (ParseValue_quiet (getenv env kPeakStepEnv)) as E3.
  destruct (ParseValue (getenv env kDumpPeakValueEnv)) as [[? ?] ?].
  destruct (ParseValue (getenv env kPeakSampleIntervalEnv)) as [[? ?] ?].
  destruct (ParseValue (getenv env kPeakStepEnv)) as [[? ?] ?].
  destruct (ParseValue (getenv env "BACKTRACE_MIN_SIZE")) as [[? ?] ?].
  parse_env env. cbn in E1, E2, E3. simplify_eq.
  destruct (FindExternalSampleIntervalMs env) as [found external]. cbn.
  destruct explicit; cbn; [|rewrite orb_false_r]; set (b := (floor >? 0) || _) || set (b := floor >? 0);
    destruct b; done.
Qed.

(** ** Properties *)

(** The observe-only probe and the recording tracker are exact
    complements: the probe is selected precisely when a sampling cadence is
    available and [Init] would not record a peak, with that cadence truncated
    to [unsigned]; so the two modes never both apply to a process. *)
Theorem observe_only_inverse_of_init os sigrtmin env :
  let c := Init os sigrtmin env in
  let probe := negb (has_option c RECORD_MEMORY_PEAK) && (0 <? sampling_cadence env) in
  ObserveOnlyRequested env = (probe, if probe then u32 (sampling_cadence env) else 0).
Proof.
  pose proof (Init_spec os sigrtmin env) as H. cbn zeta in *.
  assert (has_option (Init os sigrtmin env) RECORD_MEMORY_PEAK = report_requested env) as ->.
  { unfold has_option. destruct (ParseValueQuiet (getenv env kPeakSampleIntervalEnv)) as [[? ?] ?].
    destruct H as [-> _]. by destruct (report_requested env). }
  clear H. unfold ObserveOnlyRequested, report_requested, sampling_cadence.
  pose proof (FindExternal_pos env) as Hext.
  parse_env env. destruct (FindExternalSampleIntervalMs env) as [found external]. cbn.
  assert (floor_ok && (floor >? 0) = (floor >? 0)) as ->.
  { destruct floor_ok; [done|]. destruct Hrange as [_ ->]; done. }
  destruct (floor >? 0); [done|]. cbn.
  assert (explicit && (ms >? 0) && step_ok && (step >? 0) =
          explicit && (ms >? 0) && (step >? 0)) as ->.
  { destruct step_ok; [by rewrite andb_true_r|]. destruct Hrange1 as [_ ->]; [|done].
    by destruct explicit, (ms >? 0). }
  destruct explicit; cbn.
  - destruct (ms >? 0) eqn:E; cbn; [destruct (step >? 0); [done|]|].
    + apply Z.gtb_lt in E. rewrite (proj2 (Z.ltb_lt _ _) E).
      destruct (Z.eqb_spec ms 0); [lia|done].
    + assert (ms = 0) as -> by (destruct (Z.gtb_spec ms 0); [done|lia]). done.
  - destruct Hext as [He1 He2]. destruct found; cbn.
    + specialize (He1 eq_refl). rewrite (proj2 (Z.ltb_lt _ _) He1).
      destruct (Z.eqb_spec external 0); [lia|done].
    + rewrite He2 by done. done.
Qed.

(** What [Init] decides: allocations are always tracked and the dump
    signal always armed; stacks are captured, the peak recorded and a report
    written on exit together or not at all; first-crossing retention means a
    positive floor; and a recording run samples at the explicit, adopted or
    default interval. *)
Theorem init_decisions os sigrtmin env :
  let c := Init os sigrtmin env in
  let record := has_option c RECORD_MEMORY_PEAK in
  has_option c TRACK_ALLOCS = true ∧
  has_option c DUMP_ON_SINGAL = true ∧
  has_option c BACKTRACE_SPECIFIC_SIZES = true ∧
  has_option c BACKTRACE = record ∧
  backtrace_dump_on_exit c = record ∧
  (peak_retention c = FirstCrossing → record = true) ∧
  (record = true → peak_retention c = ChaseMax → 0 < sampling_cadence env) ∧
  (record = false → observed_peak_sample_ms c = 0) ∧
  0 ≤ observed_peak_sample_ms c < 2 ^ 32.
Proof.
  pose proof (Init_spec os sigrtmin env) as H. cbn zeta in *.
  unfold report_requested, sampling_cadence, has_option in *.
  parse_env env. destruct (FindExternalSampleIntervalMs env) as [found external]. cbn in H.
  destruct H as (-> & -> & -> & -> & _ & _).
  destruct (floor >? 0) eqn:Hf; cbn; [|destruct explicit; cbn; [|done]].
  - split_and!; try done; destruct (explicit || found); try done; apply wrap_range; lia.
  - destruct (ms >? 0) eqn:Hms; cbn; [|by split_and!].
    apply Z.gtb_lt in Hms. destruct (step >? 0); cbn; [|by split_and!].
    split_and!; try done; apply wrap_range; lia.
Qed.

(** The peak floor in bytes is the requested number of megabytes exactly
    when that number is below 2^44; above it the [size_t] product wraps, so a
    floor of 2^44 MB becomes a floor of zero bytes. *)
Theorem peak_floor_bytes os sigrtmin env n :
  0 < n ≤ LONG_MAX → getenv env kDumpPeakValueEnv = Some (print_dec n) →
  let c := Init os sigrtmin env in
  peak_retention c = FirstCrossing ∧
  backtrace_dump_peak_val c = u64 (n * 2 ^ 20) ∧
  (backtrace_dump_peak_val c = n * 2 ^ 20 ↔ n < 2 ^ 44) ∧
  (n = 2 ^ 44 → backtrace_dump_peak_val c = 0).
Proof.
  intros Hn Henv. pose proof (Init_spec os sigrtmin env) as H. cbn zeta in *.
  rewrite Henv in H. unfold ParseValueQuiet at 2 3 in H.
  rewrite strtol_print_dec in H by lia. cbn in H.
  destruct (Z.ltb_spec n 0); [lia|]. cbn in H.
  destruct (ParseValueQuiet (getenv env kPeakSampleIntervalEnv)) as [[? ?] ?].
  destruct H as (_ & _ & -> & _ & -> & _).
  rewrite mb_to_bytes_exact by lia. destruct (Z.gtb_spec n 0); [|lia].
  split_and!; [done..| |by intros ->].
  unfold u64, wrap. split; intros H1.
  - pose proof (Z.mod_pos_bound (n * 2 ^ 20) (2 ^ 64) ltac:(lia)). lia.
  - apply Z.mod_small. lia.
Qed.

Definition demo_env : Environ :=
  Some ["PATH=/bin"; "DUMP_PEAK_VALUE_MB=17592186044416"; "ALLOC_HOOK_PEAK_SAMPLE_MS=0"].

Lemma peak_floor_bytes_witness :
  backtrace_dump_peak_val (Init OsLinux 34 demo_env) = 0 ∧
  peak_retention (Init OsLinux 34 demo_env) = FirstCrossing.
Proof.
  destruct (peak_floor_bytes OsLinux 34 demo_env (2 ^ 44)) as (H1 & _ & _ & H2).
  - unfold LONG_MAX. lia.
  - vm_compute. reflexivity.
  - split; [apply H2; reflexivity|exact H1].
Defined.

(** Every non-negative decimal that fits a [long] is read back exactly as
    it is printed, with no diagnostic. *)
Theorem ParseValueQuiet_roundtrip n :
  0 ≤ n ≤ LONG_MAX → ParseValueQuiet (Some (print_dec n)) = (true, n, None).
Proof.
  intros Hn. unfold ParseValueQuiet. rewrite strtol_print_dec by done. cbn.
  destruct (Z.ltb_spec n 0); [lia|done].
Qed.

Lemma ParseValueQuiet_roundtrip_witness :
  ParseValueQuiet (Some "40960") = (true, 40960, None).
Proof. exact (ParseValueQuiet_roundtrip 40960 ltac:(unfold LONG_MAX; lia)). Defined.
