(* ===== verification/InodeSet.v ===== *)
(** * The dmabuf inode set

    Models the open-addressing set the dmabuf passes deduplicate with:
    [DmaInodeSet] (backtrace/include/ObservedMemory.h), [InsertInode] and
    [ResetDmaInodeSet] (backtrace/src/ObservedMemory.cpp).  The two arrays are
    lists of 4096 entries; a slot is occupied when its stamp is the current
    generation. *)
From S2P Require Import Prelude.

Definition kSlots : Z := 4096.
Definition kMaxDedupedBuffers : Z := kSlots / 2.

Record DmaInodeSet := mkInodeSet {
  set_inode : list Z;
  set_stamp : list Z;
  set_generation : Z;
  set_count : Z;
  set_overflowed : bool;
}.
#[global] Instance DmaInodeSet_upd : Updatable DmaInodeSet := λ s,
  mkInodeSet (set_inode s) (set_stamp s) (set_generation s) (set_count s) (set_overflowed s).

(** A zero-initialised set. *)
Definition inode_set_zero : DmaInodeSet :=
  mkInodeSet (replicate (Z.to_nat kSlots) 0) (replicate (Z.to_nat kSlots) 0) 0 0 false.

(** [inode * 0x9e3779b97f4a7c15ULL >> 40 & (kSlots - 1)]. *)
Definition inode_slot (inode : Z) : Z :=
  Z.land (Z.shiftr (inode ⊠ 0x9e3779b97f4a7c15) 40) (kSlots - 1).

(** The probe loop; [n] counts the probes left. *)
Fixpoint insert_probe (n : nat) (inode slot probe : Z) (s : DmaInodeSet) : bool * DmaInodeSet :=
  match n with
  | O => (true, s <| set_overflowed := true |>)
  | S n =>
      let index := Z.to_nat (Z.land (slot + probe) (kSlots - 1)) in
      if negb (set_stamp s !!! index =? set_generation s)
      then (true, s <| set_stamp := <[index := set_generation s]> (set_stamp s) |>
                    <| set_inode := <[index := inode]> (set_inode s) |>
                    <| set_count := set_count s ⊞ 1 |>)
      else if set_inode s !!! index =? inode then (false, s)
      else insert_probe n inode slot (probe + 1) s
  end.

Definition InsertInode (s : DmaInodeSet) (inode : Z) : bool * DmaInodeSet :=
  if set_count s >=? kMaxDedupedBuffers
  then (true, s <| set_overflowed := true |>)
  else insert_probe (Z.to_nat kSlots) inode (inode_slot inode) 0 s.

Definition ResetDmaInodeSet (s : DmaInodeSet) : DmaInodeSet :=
  let s := s <| set_count := 0 |> <| set_overflowed := false |>
             <| set_generation := u32 (set_generation s + 1) |> in
  if set_generation s =? 0
  then s <| set_stamp := replicate (length (set_stamp s)) 0 |> <| set_generation := 1 |>
  else s.

(** ** Abstraction: the inodes of the current pass *)

Definition occupied (s : DmaInodeSet) (i : nat) : Prop :=
  set_stamp s !! i = Some (set_generation s).

Definition members (s : DmaInodeSet) : gset Z :=
  list_to_set (fst <$> filter (λ p, p.2 = set_generation s) (zip (set_inode s) (set_stamp s))).

(** The probe sequence of an inode. *)
Definition probe_path (inode : Z) (k : nat) : nat :=
  Z.to_nat ((inode_slot inode + Z.of_nat k) mod kSlots).

Record inode_set_inv (s : DmaInodeSet) : Prop := {
  inv_inode_len : length (set_inode s) = Z.to_nat kSlots;
  inv_stamp_len : length (set_stamp s) = Z.to_nat kSlots;
  inv_generation : 0 < set_generation s < 2 ^ 32;
  inv_stamps : Forall (λ t, 0 ≤ t ≤ set_generation s) (set_stamp s);
  inv_count : set_count s =
    Z.of_nat (length (filter (λ t, t = set_generation s) (set_stamp s)));
  inv_count_max : set_count s ≤ kMaxDedupedBuffers;
  (** Every occupied slot is reached from its inode's first slot without
      crossing an unoccupied one. *)
  inv_reach : ∀ x k, (k < Z.to_nat kSlots)%nat → occupied s (probe_path x k) →
    set_inode s !! probe_path x k = Some x → ∀ j, (j < k)%nat → occupied s (probe_path x j);
}.

(** ** Lemmas *)

#[local] Opaque kSlots.
#[local] Lemma kSlots_val : kSlots = 4096. Proof. done. Qed.
#[local] Lemma kMaxDedupedBuffers_val : kMaxDedupedBuffers = 2048. Proof. done. Qed.

Lemma elem_of_members s x :
  x ∈ members s ↔ ∃ i, set_inode s !! i = Some x ∧ occupied s i.
Proof.
  unfold members, occupied. rewrite elem_of_list_to_set, list_elem_of_fmap. split.
  - intros ([y t] & -> & [Ht (i & Hi)%list_elem_of_lookup]%list_elem_of_filter). cbn in *. subst t.
    apply lookup_zip_with_Some in Hi as (y' & t' & ? & ? & ?). simplify_eq. eauto.
  - intros (i & Hi & Ht). exists (x, set_generation s). split; [done|].
    apply list_elem_of_filter. split; [done|]. apply list_elem_of_lookup. exists i.
    apply lookup_zip_with_Some. eauto.
Qed.

Lemma inode_slot_range x : 0 ≤ inode_slot x < kSlots.
Proof. unfold inode_slot. rewrite kSlots_val. apply (land_ones_range _ 12). lia. Qed.

Lemma probe_path_lt x k : (probe_path x k < Z.to_nat kSlots)%nat.
Proof.
  unfold probe_path. pose proof (Z.mod_pos_bound (inode_slot x + Z.of_nat k) kSlots).
  rewrite kSlots_val in *. lia.
Qed.

Lemma probe_index x k :
  Z.to_nat (Z.land (inode_slot x + Z.of_nat k) (kSlots - 1)) = probe_path x k.
Proof. unfold probe_path. rewrite kSlots_val. by rewrite (land_ones_mod _ 12) by lia. Qed.

Lemma probe_path_inj x j k :
  (j < Z.to_nat kSlots)%nat → (k < Z.to_nat kSlots)%nat → probe_path x j = probe_path x k → j = k.
Proof.
  unfold probe_path. pose proof (inode_slot_range x) as Hs. rewrite kSlots_val in *. intros Hj Hk E.
  apply Z2Nat.inj in E; [|apply Z.mod_pos_bound; lia..].
  pose proof (Z.div_mod (inode_slot x + Z.of_nat j) 4096 ltac:(lia)).
  pose proof (Z.div_mod (inode_slot x + Z.of_nat k) 4096 ltac:(lia)). lia.
Qed.

(** The path visits every slot. *)
Lemma probe_path_surj x i :
  (i < Z.to_nat kSlots)%nat → ∃ k, (k < Z.to_nat kSlots)%nat ∧ probe_path x k = i.
Proof.
  intros Hi. pose proof (inode_slot_range x) as Hs.
  exists (Z.to_nat ((Z.of_nat i - inode_slot x) mod kSlots)). unfold probe_path.
  rewrite kSlots_val in *.
  pose proof (Z.mod_pos_bound (Z.of_nat i - inode_slot x) 4096 ltac:(lia)). split; [lia|].
  rewrite Z2Nat.id by lia. rewrite Zplus_mod_idemp_r.
  replace (inode_slot x + (Z.of_nat i - inode_slot x)) with (Z.of_nat i) by lia.
  rewrite Z.mod_small by lia. lia.
Qed.

(** A slot is free as long as the set is not full. *)
Lemma occupied_all_count s :
  inode_set_inv s → (∀ i, (i < Z.to_nat kSlots)%nat → occupied s i) → set_count s = kSlots.
Proof.
  intros Hinv Hall. rewrite (inv_count s Hinv).
  rewrite filter_id; [rewrite (inv_stamp_len s Hinv), kSlots_val; lia|].
  intros t (i & Hi)%list_elem_of_lookup. specialize (Hall i). unfold occupied in Hall.
  rewrite Hi in Hall. assert (i < length (set_stamp s))%nat by by eapply lookup_lt_Some.
  rewrite (inv_stamp_len s Hinv) in *. by injection (Hall ltac:(done)).
Qed.

(** The first unoccupied slot of a path, or the first one holding [x]. *)
Lemma insert_probe_spec s x n k :
  length (set_inode s) = Z.to_nat kSlots → length (set_stamp s) = Z.to_nat kSlots →
  (n + k = Z.to_nat kSlots)%nat →
  (∀ j, (j < k)%nat → occupied s (probe_path x j) ∧ set_inode s !! probe_path x j ≠ Some x) →
  ∃ m, (k ≤ m)%nat ∧
  (∀ j, (j < m)%nat → occupied s (probe_path x j) ∧ set_inode s !! probe_path x j ≠ Some x) ∧
  let i := probe_path x m in
  ((m < Z.to_nat kSlots)%nat ∧ ¬ occupied s i ∧
   insert_probe n x (inode_slot x) (Z.of_nat k) s =
     (true, s <| set_stamp := <[i := set_generation s]> (set_stamp s) |>
              <| set_inode := <[i := x]> (set_inode s) |>
              <| set_count := set_count s ⊞ 1 |>)) ∨
  ((m < Z.to_nat kSlots)%nat ∧ occupied s i ∧ set_inode s !! i = Some x ∧
   insert_probe n x (inode_slot x) (Z.of_nat k) s = (false, s)) ∨
  (m = Z.to_nat kSlots ∧
   insert_probe n x (inode_slot x) (Z.of_nat k) s = (true, s <| set_overflowed := true |>)).
Proof.
  intros Hli Hls. revert k. induction n as [|n IH]; intros k Hk Hbefore.
  { exists k. split; [lia|]. split; [done|]. right; right. split; [lia|done]. }
  pose proof (probe_path_lt x k) as Hlt.
  destruct (lookup_lt_is_Some_2 (set_stamp s) (probe_path x k)) as [t Ht]; [lia|].
  destruct (lookup_lt_is_Some_2 (set_inode s) (probe_path x k)) as [y Hy]; [lia|].
  cbn [insert_probe]. rewrite probe_index.
  rewrite (list_lookup_total_correct _ _ _ Ht), (list_lookup_total_correct _ _ _ Hy).
  destruct (Z.eqb_spec t (set_generation s)) as [->|Hne]; cbn [negb].
  2:{ exists k. split; [lia|]. split; [done|]. left. split; [lia|].
      unfold occupied. rewrite Ht. split; [congruence|done]. }
  destruct (Z.eqb_spec y x) as [->|Hne].
  { exists k. split; [lia|]. split; [done|]. right; left. split; [lia|]. by rewrite Hy. }
  destruct (IH (S k)) as (m & Hm & Hb & Hcases); [lia| |].
  { intros j Hj. destruct (decide (j = k)) as [->|]; [|by apply Hbefore; lia].
    rewrite Hy. split; [done|congruence]. }
  exists m. split; [lia|]. split; [done|].
  replace (Z.of_nat k + 1) with (Z.of_nat (S k)) by lia. done.
Qed.

(** Filling the free slot [probe_path x m] with [x]. *)
Definition fill (s : DmaInodeSet) (i : nat) (x : Z) : DmaInodeSet :=
  s <| set_stamp := <[i := set_generation s]> (set_stamp s) |>
    <| set_inode := <[i := x]> (set_inode s) |> <| set_count := set_count s ⊞ 1 |>.

Lemma fill_occupied s i x j :
  (i < length (set_stamp s))%nat → occupied (fill s i x) j ↔ i = j ∨ occupied s j.
Proof.
  intros Hi. unfold occupied, fill. cbn. destruct (decide (i = j)) as [->|].
  - rewrite list_lookup_insert_eq by done. tauto.
  - rewrite list_lookup_insert_ne by done. tauto.
Qed.

Lemma fill_members s i x :
  length (set_inode s) = length (set_stamp s) → (i < length (set_stamp s))%nat → ¬ occupied s i →
  members (fill s i x) = {[x]} ∪ members s.
Proof.
  intros Hl Hi Hocc. apply set_eq. intros y.
  rewrite elem_of_union, elem_of_singleton, !elem_of_members. split.
  - intros (j & Hj & [<-|Ho]%fill_occupied); [| |done].
    + cbn in Hj. rewrite list_lookup_insert_eq in Hj by lia. simplify_eq. by left.
    + right. exists j. split; [|done]. cbn in Hj.
      rewrite list_lookup_insert_ne in Hj; [done|]. by intros ->.
  - intros [->|(j & Hj & Ho)].
    + exists i. split; [apply list_lookup_insert_eq; lia|]. apply fill_occupied; auto.
    + exists j. rewrite fill_occupied by done. split; [|by right]. cbn.
      rewrite list_lookup_insert_ne; [done|]. by intros ->.
Qed.

Lemma fill_inv s x m :
  inode_set_inv s → set_count s < kMaxDedupedBuffers → (m < Z.to_nat kSlots)%nat →
  ¬ occupied s (probe_path x m) → (∀ j, (j < m)%nat → occupied s (probe_path x j)) →
  inode_set_inv (fill s (probe_path x m) x).
Proof.
  intros [Hli Hls Hg Hst Hc Hcm Hr] Hcount Hm Hocc Hpath.
  pose proof (probe_path_lt x m) as Hlt.
  assert (0 ≤ set_count s) by lia.
  assert (u64 (set_count s + 1) = set_count s + 1) as Hu.
  { apply u64_small. rewrite kMaxDedupedBuffers_val in *. lia. }
  destruct (lookup_lt_is_Some_2 (set_stamp s) (probe_path x m)) as [t Ht]; [lia|].
  split; cbn; rewrite ?length_insert, ?Hu; try done; try lia.
  - apply Forall_insert; [done|lia].
  - rewrite (length_filter_insert _ _ _ _ t) by
      (done || (unfold occupied in Hocc; rewrite Ht in Hocc; congruence)). lia.
  - intros y k Hk Ho Hy j Hj. change (occupied (fill s (probe_path x m) x) (probe_path y j)).
    apply fill_occupied in Ho; [|lia]. apply fill_occupied; [lia|].
    destruct (decide (probe_path x m = probe_path y k)) as [E|Hne].
    + cbn in Hy. rewrite E, list_lookup_insert_eq in Hy by (rewrite <-E; lia). simplify_eq.
      apply probe_path_inj in E; [|done..]. subst k. right. by apply Hpath.
    + destruct Ho as [?|Ho]; [done|]. right. eapply Hr; [done..| |done].
      cbn in Hy. by rewrite list_lookup_insert_ne in Hy.
Qed.

(** One insertion below the dedup limit behaves as insertion into a set. *)
Lemma InsertInode_spec s x :
  inode_set_inv s → set_count s < kMaxDedupedBuffers →
  let '(fresh, s') := InsertInode s x in
  inode_set_inv s' ∧ members s' = {[x]} ∪ members s ∧
  fresh = bool_decide (x ∉ members s) ∧
  set_overflowed s' = set_overflowed s ∧
  set_count s' = set_count s + (if fresh then 1 else 0).
Proof.
  intros Hinv Hcount. unfold InsertInode.
  destruct (Z.geb_spec (set_count s) kMaxDedupedBuffers); [lia|].
  pose proof Hinv as [Hli Hls Hg Hst Hc Hcm Hr].
  destruct (insert_probe_spec s x (Z.to_nat kSlots) 0 Hli Hls) as (m & _ & Hb & Hcases);
    [lia|intros; lia|]. change (Z.of_nat 0) with 0 in Hcases.
  assert ((x ∈ members s) → ∃ k, (k < Z.to_nat kSlots)%nat ∧ occupied s (probe_path x k) ∧
    set_inode s !! probe_path x k = Some x) as Hmem.
  { intros (i & Hi & Ho)%elem_of_members.
    destruct (probe_path_surj x i) as (k & Hk & <-); [|by eauto].
    rewrite <-Hli. by eapply lookup_lt_Some. }
  destruct Hcases as [(Hm & Hocc & ->)|[(Hm & Hocc & Hx & ->)|(-> & ->)]].
  - change (inode_set_inv (fill s (probe_path x m) x) ∧
      members (fill s (probe_path x m) x) = {[x]} ∪ members s ∧
      true = bool_decide (x ∉ members s) ∧ set_overflowed s = set_overflowed s ∧
      u64 (set_count s + 1) = set_count s + 1).
    pose proof (probe_path_lt x m). split_and!.
    + apply fill_inv; [done..|]. intros j Hj. by apply Hb.
    + apply fill_members; [congruence|lia|done].
    + symmetry. apply bool_decide_eq_true. intros (k & Hk & Ho & Hxk)%Hmem.
      destruct (decide (k < m)%nat) as [Hkm|]; [by apply Hb in Hkm as [_ ?]|].
      destruct (decide (k = m)) as [->|]; [done|].
      apply Hocc, (Hr x k); [done..|lia].
    + done.
    + apply u64_small. rewrite kMaxDedupedBuffers_val in *. lia.
  - assert (x ∈ members s) by (apply elem_of_members; eauto).
    split_and!; [done|by symmetry; apply subseteq_union_1_L, singleton_subseteq_l| |done|lia].
    symmetry. apply bool_decide_eq_false. tauto.
  - exfalso. assert (set_count s = kSlots) as E.
    { apply occupied_all_count; [done|]. intros i Hi.
      destruct (probe_path_surj x i Hi) as (k & Hk & <-). by apply Hb. }
    rewrite kMaxDedupedBuffers_val, kSlots_val in *. lia.
Qed.

(** A full set only raises the overflow flag. *)
Lemma InsertInode_full s x :
  kMaxDedupedBuffers ≤ set_count s →
  InsertInode s x = (true, s <| set_overflowed := true |>).
Proof. intros. unfold InsertInode. by destruct (Z.geb_spec (set_count s) kMaxDedupedBuffers); [|lia]. Qed.

(** Whether or not there is room, the invariant survives. *)
Lemma InsertInode_inv s x : inode_set_inv s → inode_set_inv (InsertInode s x).2.
Proof.
  intros Hinv. destruct (decide (set_count s < kMaxDedupedBuffers)) as [Hlt|Hge].
  - pose proof (InsertInode_spec s x Hinv Hlt) as H. destruct (InsertInode s x). apply H.
  - rewrite InsertInode_full by lia. destruct Hinv as [? ? ? ? ? ? ?]. by split.
Qed.

(** ** Passes *)

(** What a set must satisfy between passes; a zero-initialised one does. *)
Definition inode_set_ready (s : DmaInodeSet) : Prop :=
  length (set_inode s) = Z.to_nat kSlots ∧ length (set_stamp s) = Z.to_nat kSlots ∧
  0 ≤ set_generation s < 2 ^ 32 ∧ Forall (λ t, 0 ≤ t ≤ set_generation s) (set_stamp s).

Lemma inode_set_inv_ready s : inode_set_inv s → inode_set_ready s.
Proof. intros [? ? ? ? ? ? ?]. split_and!; try done; lia. Qed.

Lemma ResetDmaInodeSet_inv s :
  inode_set_ready s →
  inode_set_inv (ResetDmaInodeSet s) ∧ members (ResetDmaInodeSet s) = ∅ ∧
  set_overflowed (ResetDmaInodeSet s) = false ∧ set_count (ResetDmaInodeSet s) = 0.
Proof.
  intros (Hli & Hls & Hg & Hst).
  assert (Forall (λ t, t ≠ set_generation (ResetDmaInodeSet s) ∧
                       0 ≤ t ≤ set_generation (ResetDmaInodeSet s))
            (set_stamp (ResetDmaInodeSet s)) ∧
          0 < set_generation (ResetDmaInodeSet s) < 2 ^ 32) as [Hall Hgen].
  { unfold ResetDmaInodeSet. cbn. unfold u32, wrap.
    pose proof (Z.mod_pos_bound (set_generation s + 1) (2 ^ 32) ltac:(lia)).
    destruct (Z.eqb_spec ((set_generation s + 1) mod 2 ^ 32) 0) as [E|E]; cbn.
    - split; [|lia]. apply Forall_replicate. lia.
    - assert (set_generation s + 1 < 2 ^ 32).
      { destruct (decide (set_generation s + 1 = 2 ^ 32)) as [E'|]; [|lia]. by rewrite E' in E. }
      rewrite Z.mod_small by lia. split; [|lia].
      eapply Forall_impl; [exact Hst|]. cbn. lia. }
  assert (∀ i, ¬ occupied (ResetDmaInodeSet s) i) as Hno.
  { intros i Ho. rewrite Forall_forall in Hall.
    destruct (Hall (set_generation (ResetDmaInodeSet s))); [|done].
    apply list_elem_of_lookup. by exists i. }
  assert (length (set_stamp (ResetDmaInodeSet s)) = Z.to_nat kSlots) as Hls'.
  { unfold ResetDmaInodeSet. cbn. destruct (_ =? 0); cbn; rewrite ?length_replicate; done. }
  assert (set_inode (ResetDmaInodeSet s) = set_inode s) as Hin.
  { unfold ResetDmaInodeSet. cbn. by destruct (_ =? 0). }
  assert (set_count (ResetDmaInodeSet s) = 0 ∧ set_overflowed (ResetDmaInodeSet s) = false) as [Hc Ho].
  { unfold ResetDmaInodeSet. cbn. by destruct (_ =? 0). }
  split_and!; [|apply set_eq; intros y; rewrite elem_of_members; set_solver|done..].
  split; rewrite ?Hin, ?Hc; try done.
  - eapply Forall_impl; [exact Hall|]. cbn. lia.
  - rewrite filter_none; [done|]. rewrite Forall_forall in Hall. intros t Ht ->.
    by destruct (Hall _ Ht).
  - intros x k Hk Hocc. by destruct (Hno (probe_path x k)).
Qed.

Fixpoint insert_all (s : DmaInodeSet) (l : list Z) : list bool * DmaInodeSet :=
  match l with
  | [] => ([], s)
  | x :: l =>
      let '(b, s) := InsertInode s x in
      let '(bs, s) := insert_all s l in (b :: bs, s)
  end.

(** The reference: which elements have not occurred before. *)
Fixpoint first_flags (seen : gset Z) (l : list Z) : list bool :=
  match l with
  | [] => []
  | x :: l => bool_decide (x ∉ seen) :: first_flags ({[x]} ∪ seen) l
  end.

Lemma insert_all_spec s l :
  inode_set_inv s → set_count s = Z.of_nat (size (members s)) →
  Z.of_nat (size (members s ∪ list_to_set l)) < kMaxDedupedBuffers →
  let '(flags, s') := insert_all s l in
  flags = first_flags (members s) l ∧ members s' = members s ∪ list_to_set l ∧
  set_overflowed s' = set_overflowed s ∧ inode_set_inv s'.
Proof.
  revert s. induction l as [|x l IH]; intros s Hinv Hcount Hsize; cbn [insert_all first_flags].
  { split_and!; try done. set_solver. }
  assert (size (members s) ≤ size (members s ∪ list_to_set (x :: l)))%nat as Hle
    by (apply subseteq_size; set_solver).
  pose proof (InsertInode_spec s x Hinv ltac:(lia)) as Hi.
  destruct (InsertInode s x) as [b s1]. destruct Hi as (Hinv1 & Hmem & -> & Ho & Hc1).
  assert (members s1 ∪ list_to_set l = members s ∪ list_to_set (x :: l)) as Hunion
    by (rewrite Hmem; set_solver).
  specialize (IH s1 Hinv1). destruct (insert_all s1 l) as [bs s'].
  destruct IH as (-> & Hm & Ho' & Hinv'); [|by rewrite Hunion|].
  - rewrite Hc1, Hcount, Hmem. case_bool_decide as Hx.
    + rewrite size_union by set_solver. rewrite size_singleton. lia.
    + rewrite subseteq_union_1_L by set_solver. lia.
  - rewrite Hmem in *. split_and!; [done|set_solver|congruence|done].
Qed.

(** C26. A dedup pass counts every buffer once: starting from any set left by
    earlier passes (a zeroed one included, and across the generation wrap),
    after [ResetDmaInodeSet] the insertions of a pass with fewer than 2048
    distinct inodes answer [true] exactly at the first occurrence of each
    inode, and never report overflow. *)
Theorem dedup_pass_counts_each_inode_once s l :
  inode_set_ready s → Z.of_nat (size (list_to_set l : gset Z)) < kMaxDedupedBuffers →
  let '(flags, s') := insert_all (ResetDmaInodeSet s) l in
  flags = first_flags ∅ l ∧ members s' = list_to_set l ∧
  set_overflowed s' = false ∧ inode_set_ready s'.
Proof.
  intros Hs Hl. destruct (ResetDmaInodeSet_inv s Hs) as (Hinv & Hmem & Ho & Hc).
  pose proof (insert_all_spec (ResetDmaInodeSet s) l Hinv) as H.
  destruct (insert_all _ l) as [flags s']. rewrite Hmem, Hc, Ho in H.
  destruct H as (-> & -> & -> & Hinv'); [done|by rewrite union_empty_l_L|].
  rewrite union_empty_l_L. split_and!; try done. by apply inode_set_inv_ready.
Qed.

Lemma inode_set_zero_ready : inode_set_ready inode_set_zero.
Proof.
  unfold inode_set_ready, inode_set_zero. cbn. rewrite !length_replicate. split_and!; try done; try lia.
  apply Forall_replicate. lia.
Qed.

Lemma dedup_pass_witness :
  (insert_all (ResetDmaInodeSet inode_set_zero) [7; 4103; 7; 0; 4103]).1 =
  [true; true; false; true; false].
Proof.
  pose proof (dedup_pass_counts_each_inode_once inode_set_zero [7; 4103; 7; 0; 4103]
    inode_set_zero_ready ltac:(vm_compute; reflexivity)) as H.
  destruct (insert_all _ _) as [flags s']. destruct H as (-> & _). vm_compute. reflexivity.
Defined.
