(* ===== verification/LineReader.v ===== *)
(** * Reading /proc files

    The readers of backtrace/src/ObservedMemory.cpp all have the same loop: a
    fixed buffer, [read] into what is free of it, a handler on every complete
    line, [memmove] of the unfinished one, and a reset when a line does not fit.
    An open file is the list of the chunks the kernel will deliver; [read]
    returns at most what is asked for, so every sequence of short reads is such
    a list, and a file that cannot be opened is [None]. *)
From S2P Require Import Prelude CString.

(** One [read (fd, .., n)]: the bytes and the file after it; an empty result is
    the end of the file (or an error, which the loops treat alike). *)
Definition read (n : nat) (f : list string) : string * list string :=
  match f with
  | [] => (EmptyString, [])
  | c :: r =>
      (stake n c, match sdrop n c with EmptyString => r | rest => rest :: r end)
  end.

(** The C string that starts at a buffer position: up to the first NUL. *)
Fixpoint cstr (s : string) : string :=
  match s with
  | EmptyString => EmptyString
  | String c r => if Ascii.eqb c Ascii.zero then EmptyString else String c (cstr r)
  end.

Section reader.
Context {St : Type} (cap : nat) (on_line : St → string → St) (on_overflow : St → St).

(** The loop, with [held] the unfinished line at the start of the buffer. *)
Fixpoint read_loop (fuel : nat) (held : string) (f : list string) (st : St) : St :=
  match fuel with
  | O => st
  | S fuel =>
      let '(got, f) := read (cap - String.length held - 1) f in
      match got with
      | EmptyString => st
      | _ =>
          let '(lines, rest) := split_lines (held +:+ got) EmptyString in
          let st := fold_left (λ st l, on_line st (cstr l)) lines st in
          if (cap - 1 <=? String.length rest)%nat
          then read_loop fuel EmptyString f (on_overflow st)
          else read_loop fuel rest f st
      end
  end.

Definition file_size (f : list string) : nat := foldr (λ c n, (String.length c + n)%nat) O f.

Definition read_file (f : list string) (st : St) : St :=
  read_loop (S (file_size f)) EmptyString f st.
End reader.
#[global] Arguments read_file : simpl never.

(** [while (used + 1 < n && (bytes = read (..)) > 0)], [n - 1] bytes being left. *)
Fixpoint read_upto (n : nat) (f : list string) : string :=
  match f with
  | [] | EmptyString :: _ => EmptyString
  | c :: r =>
      match n with
      | O => EmptyString
      | _ => stake n c +:+ read_upto (n - String.length c) r
      end
  end.

(** ** Correctness of the loop *)

Definition contents (f : list string) : string := foldr String.append EmptyString f.

(** Every line is shorter than [n], given [k] characters of the first one. *)
Fixpoint lines_fit (n : nat) (s : string) (k : nat) : bool :=
  (k <? n)%nat &&
  match s with
  | EmptyString => true
  | String c r => if Ascii.eqb c newline then lines_fit n r 0 else lines_fit n r (S k)
  end.

Lemma string_app_nil s : s +:+ EmptyString = s.
Proof. induction s as [|c s IH]; [done|]. exact (f_equal (String c) IH). Qed.

Lemma string_app_assoc (a b c : string) : (a +:+ b) +:+ c = a +:+ (b +:+ c).
Proof. induction a as [|x a IH]; [done|]. exact (f_equal (String x) IH). Qed.

Lemma string_length_app (a b : string) :
  String.length (a +:+ b) = (String.length a + String.length b)%nat.
Proof. induction a as [|x a IH]; [done|]. exact (f_equal S IH). Qed.

Lemma stake_sdrop n s : stake n s +:+ sdrop n s = s.
Proof. revert s. induction n as [|n IH]; intros [|c s]; [done..|]. exact (f_equal (String c) (IH s)). Qed.

Lemma split_lines_app a b cur :
  split_lines (a +:+ b) cur =
  let '(la, ta) := split_lines a cur in
  let '(lb, tb) := split_lines b ta in (la ++ lb, tb).
Proof.
  revert cur. induction a as [|c a IH]; intros cur.
  - change (EmptyString +:+ b) with b. cbn [split_lines]. by destruct (split_lines b cur).
  - change (String c a +:+ b) with (String c (a +:+ b)). cbn [split_lines]. destruct (Ascii.eqb c newline); rewrite IH; [|done].
    destruct (split_lines a EmptyString) as [la ta]. by destruct (split_lines b ta).
Qed.

Lemma split_lines_held a : ∀ cur, (split_lines cur EmptyString) = ([], cur) →
  split_lines (cur +:+ a) EmptyString = split_lines a cur.
Proof. intros cur Hc. rewrite split_lines_app, Hc. by destruct (split_lines a cur). Qed.

(** What is left after the last newline holds none. *)
Lemma split_lines_rest s cur :
  split_lines cur EmptyString = ([], cur) →
  let t := (split_lines s cur).2 in split_lines t EmptyString = ([], t).
Proof.
  revert cur. induction s as [|c s IH]; intros cur Hc; [done|].
  cbn [split_lines]. destruct (Ascii.eqb c newline) eqn:E.
  - specialize (IH EmptyString eq_refl).
    destruct (split_lines s EmptyString) as [ls tl]. exact IH.
  - apply IH. rewrite split_lines_app, Hc. cbn [split_lines]. by rewrite E.
Qed.

Lemma lines_fit_app n a b cur :
  lines_fit n (a +:+ b) (String.length cur) = true →
  lines_fit n b (String.length (split_lines a cur).2) = true.
Proof.
  revert cur. induction a as [|c a IH]; intros cur; [done|].
  change (String c a +:+ b) with (String c (a +:+ b)). cbn [split_lines lines_fit].
  intros [_ H]%andb_true_iff. destruct (Ascii.eqb c newline).
  - specialize (IH EmptyString H). by destruct (split_lines a EmptyString).
  - apply IH. rewrite string_length_app. cbn. by replace (String.length cur + 1)%nat with (S (String.length cur)) by lia.
Qed.

Lemma lines_fit_lt n s k : lines_fit n s k = true → (k < n)%nat.
Proof. destruct s; cbn; intros [H%Nat.ltb_lt _]%andb_true_iff; lia. Qed.

Lemma read_contents n f got f' :
  read n f = (got, f') → contents f = got +:+ contents f'.
Proof.
  destruct f as [|c r]; cbn; intros; simplify_eq; [done|].
  rewrite <-(stake_sdrop n c) at 1. rewrite string_app_assoc. f_equal.
  by destruct (sdrop n c).
Qed.

Definition no_empty (f : list string) : Prop := Forall (λ c, c ≠ EmptyString) f.

Lemma read_progress n f got f' :
  (0 < n)%nat → no_empty f → read n f = (got, f') →
  (got = EmptyString ∧ f = []) ∨
  (got ≠ EmptyString ∧ no_empty f' ∧ (file_size f' < file_size f)%nat).
Proof.
  intros Hn Hf Hr. destruct f as [|c r]; cbn in Hr; simplify_eq; [by left|]. right.
  apply Forall_cons_1 in Hf as [Hc Hrest]. destruct c as [|x c]; [done|].
  destruct n as [|n]; [lia|]. cbn [stake sdrop]. split; [done|].
  pose proof (f_equal String.length (stake_sdrop n c)) as Hl. rewrite string_length_app in Hl.
  cbn [file_size foldr String.length].
  destruct (sdrop n c) eqn:E; cbn [file_size foldr String.length] in *.
  - split; [done|]. fold (file_size r). lia.
  - split; [by apply Forall_cons_2|]. fold (file_size r). lia.
Qed.

Section correct.
Context {St : Type} (cap : nat) (on_line : St → string → St) (on_overflow : St → St).

Definition lines_state (content held : string) (st : St) : St :=
  fold_left (λ st l, on_line st (cstr l)) (split_lines content held).1 st.

Lemma read_loop_correct fuel held f st :
  no_empty f → (file_size f < fuel)%nat → split_lines held EmptyString = ([], held) →
  lines_fit (cap - 1) (contents f) (String.length held) = true →
  read_loop cap on_line on_overflow fuel held f st = lines_state (contents f) held st.
Proof.
  revert held f st. induction fuel as [|fuel IH]; intros held f st Hf Hfuel Hheld Hfit; [lia|].
  cbn [read_loop]. pose proof (lines_fit_lt _ _ _ Hfit) as Hlt.
  destruct (read (cap - String.length held - 1) f) as [got f'] eqn:Hr.
  pose proof (read_contents _ _ _ _ Hr) as Hc. rewrite Hc in *.
  assert (0 < cap - String.length held - 1)%nat as Hroom by lia.
  destruct (read_progress _ _ _ _ Hroom Hf Hr) as [[-> ->]|(Hgot & Hf' & Hsize)].
  { cbn in Hr. simplify_eq. done. }
  apply lines_fit_app in Hfit. pose proof (split_lines_rest got held Hheld) as Hrest.
  unfold lines_state. rewrite (split_lines_held got held Hheld), split_lines_app.
  destruct (split_lines got held) as [lines rest]. cbn in *.
  pose proof (lines_fit_lt _ _ _ Hfit) as Hlt'.
  destruct got as [|x got]; [done|].
  destruct (Nat.leb_spec (cap - 1) (String.length rest)); [lia|].
  rewrite IH by (done || lia). unfold lines_state.
  destruct (split_lines (contents f') rest) as [lines' rest']. cbn. by rewrite fold_left_app.
Qed.

(** However the kernel splits a file into reads, the loop runs the handler on
    its complete lines in order, provided they fit the buffer. *)
Lemma read_file_correct f st :
  no_empty f → lines_fit (cap - 1) (contents f) 0 = true →
  read_file cap on_line on_overflow f st = lines_state (contents f) EmptyString st.
Proof. intros. apply read_loop_correct; [done|unfold read_file; lia|done..]. Qed.
End correct.

(** What the two handlers preserve, the loop preserves, whatever the file. *)
Lemma read_file_preserves {St} (P : St → Prop) cap on_line on_overflow f st :
  (∀ st l, P st → P (on_line st l)) → (∀ st, P st → P (on_overflow st)) →
  P st → P (read_file cap on_line on_overflow f st).
Proof.
  intros Hl Ho. unfold read_file. generalize (S (file_size f)) as fuel.
  assert (∀ ls st, P st → P (fold_left (λ st l, on_line st (cstr l)) ls st)) as Hfold.
  { induction ls; cbn; auto. }
  intros fuel. generalize EmptyString as held. revert f st.
  induction fuel as [|fuel IH]; intros f st held Hst; cbn [read_loop]; [done|].
  destruct (read _ f) as [got f']. destruct got as [|c got]; [done|].
  destruct (split_lines _ _) as [ls rest]. destruct (_ <=? _)%nat; auto.
Qed.
