(* ===== verification/ProcParse.v ===== *)
(** * Parsing the /proc and /sys text interfaces

    The line parsers and file readers of backtrace/src/ObservedMemory.cpp:
    resident-set fields, GPU device mappings (maps and smaps), dmabuf
    descriptors and mappings, the legacy ION table and the KGSL counter.  The
    null checks on pointer arguments are not modelled: no caller passes null. *)
From S2P Require Import Prelude CString LineReader InodeSet.

(** ** Shared scanners *)

Definition is_blank (c : ascii) : bool := Ascii.eqb c " " || Ascii.eqb c (Ascii.ascii_of_N 9).

(** The loop [value = value * 10 + (c - '0')] on a [size_t]. *)
Fixpoint size_digits (s : string) (value : Z) : Z :=
  match s with
  | String c r =>
      if is_digit c then size_digits r ((value ⊠ 10) ⊞ (char_code c - 48)) else value
  | EmptyString => value
  end.

Definition ReadStatusField (text key : string) : Z :=
  match strstr text key with
  | None => 0
  | Some found => size_digits (skip_while is_blank (sdrop (String.length key) found)) 0
  end.

Record RssBreakdown := mkRss {
  vm_rss_kb : Z; anon_kb : Z; file_kb : Z; shmem_kb : Z; rss_valid : bool;
}.

(** [status] is /proc/self/status; the buffer holds 8191 bytes of it. *)
Definition ReadSelfRss (status : option (list string)) : RssBreakdown :=
  match status with
  | None => mkRss 0 0 0 0 false
  | Some f =>
      let buffer := cstr (read_upto (Z.to_nat 8191) f) in
      let vm := ReadStatusField buffer "VmRSS:" in
      mkRss vm (ReadStatusField buffer "RssAnon:") (ReadStatusField buffer "RssFile:")
        (ReadStatusField buffer "RssShmem:") (negb (vm =? 0))
  end.

(** ** GPU device mappings *)

Definition kGpuNodePaths : list string := ["/dev/kgsl-3d0"; "/dev/kgsl"; "/kgsl-3d0"; "/kgsl"].

Definition IsGpuNodePath (path : string) : bool :=
  existsb (λ node,
    starts_with node path &&
    let rest := sdrop (String.length node) path in
    String.eqb rest EmptyString || String.eqb rest " (deleted)") kGpuNodePaths.

(** Past five blank-separated fields, or [None] when the line ends first. *)
Fixpoint maps_fields (n : nat) (line : string) : option string :=
  match n with
  | O => Some line
  | S n =>
      match skip_while is_blank (skip_while (λ c, negb (is_blank c)) line) with
      | EmptyString => None
      | line => maps_fields n line
      end
  end.

Definition MapsLinePath (line : string) : option string := maps_fields 5 line.

Definition names_gpu (line : string) : bool :=
  match MapsLinePath line with Some path => IsGpuNodePath path | None => false end.

(** [sscanf (line, "%lx-%lx", ..) == 2]. *)
Definition maps_range (line : string) : option (Z * Z) :=
  match sscanf line [DHex; DLit "-"%char; DHex] with
  | (2, [SNum start; SNum end_]) => Some (start, end_)
  | _ => None
  end.

(** [sscanf (line + 4, "%ld", &rss_kb) == 1] on a line that starts with "Rss:". *)
Definition rss_field (line : string) : option Z :=
  match sscanf (sdrop 4 line) [DLong] with
  | (1, [SNum rss_kb]) => Some rss_kb
  | _ => None
  end.

Record GpuRegionScan := mkScan { in_gpu_region : bool; region_size : Z }.
Definition scan_init : GpuRegionScan := mkScan false 0.

Definition GpuMmapBytesFromSmapsLine (line : string) (scan : GpuRegionScan) : Z * GpuRegionScan :=
  match maps_range line with
  | Some (start, end_) =>
      (0, mkScan (names_gpu line) (if end_ >? start then end_ ⊟ start else 0))
  | None =>
      if negb (in_gpu_region scan) || negb (starts_with "Rss:" line) then (0, scan)
      else
        let scan := mkScan false (region_size scan) in
        match rss_field line with
        | None => (0, scan)
        | Some rss_kb =>
            let resident := (if rss_kb <? 0 then 0 else rss_kb) ⊠ 1024 in
            (if region_size scan >? resident then region_size scan ⊟ resident else 0, scan)
        end
  end.

(** The accumulator of the smaps loops: [total] and [scan]. *)
Definition smaps_step (st : Z * GpuRegionScan) (line : string) : Z * GpuRegionScan :=
  let '(total, scan) := st in
  let '(bytes, scan) := GpuMmapBytesFromSmapsLine line scan in (total ⊞ bytes, scan).

(** Every line of the text, the unterminated last one included. *)
Definition text_lines (text : string) : list string :=
  let '(lines, rest) := split_lines text EmptyString in
  match rest with EmptyString => lines | _ => lines ++ [rest] end.

Definition GpuMmapBytesFromSmapsText (text : string) : Z :=
  (fold_left smaps_step (text_lines (cstr text)) (0, scan_init)).1.

Definition kLineBuffer : nat := Z.to_nat 16384.

Definition ReadGpuMmapBytesFrom (f : option (list string)) : option Z :=
  (λ f, (read_file kLineBuffer smaps_step (λ st, (st.1, scan_init)) f (0, scan_init)).1) <$> f.

Definition GpuMappedBytesFromMapsLine (line : string) : Z :=
  match maps_range line with
  | None => 0
  | Some (start, end_) =>
      if end_ <=? start then 0
      else if negb (names_gpu line) then 0
      else end_ ⊟ start
  end.

Definition ReadGpuMappedBytesFrom (f : option (list string)) : option Z :=
  (λ f, read_file kLineBuffer (λ total l, total ⊞ GpuMappedBytesFromMapsLine l) id f 0) <$> f.

Record GpuSmapsReading := mkReading {
  all_rss_bytes : Z; device_rss_bytes : Z; device_mapped_bytes : Z; reading_valid : bool;
}.
#[global] Instance GpuSmapsReading_upd : Updatable GpuSmapsReading := λ r,
  mkReading (all_rss_bytes r) (device_rss_bytes r) (device_mapped_bytes r) (reading_valid r).
Definition reading_init : GpuSmapsReading := mkReading 0 0 0 false.

(** One line of [ReadGpuSmapsReading]; the state carries [in_device]. *)
Definition reading_step (st : GpuSmapsReading * bool) (line : string) : GpuSmapsReading * bool :=
  let '(into, in_device) := st in
  match maps_range line with
  | Some (lo, hi) =>
      let in_device := names_gpu line in
      (if in_device && (hi >? lo)
       then into <| device_mapped_bytes := device_mapped_bytes into ⊞ (hi ⊟ lo) |>
       else into, in_device)
  | None =>
      if negb (starts_with "Rss:" line) then (into, in_device)
      else match rss_field line with
      | None => (into, in_device)
      | Some rss_kb =>
          if rss_kb <? 0 then (into, in_device)
          else
            let rss := rss_kb ⊠ 1024 in
            let into := into <| all_rss_bytes := all_rss_bytes into ⊞ rss |> in
            (if in_device
             then into <| device_rss_bytes := device_rss_bytes into ⊞ rss |> else into, in_device)
      end
  end.

Definition ReadGpuSmapsReading (f : option (list string)) : bool * GpuSmapsReading :=
  match f with
  | None => (false, reading_init)
  | Some f =>
      let '(into, _) :=
        read_file kLineBuffer reading_step (λ st, (st.1, false)) f (reading_init, false) in
      (true, into <| reading_valid := true |>)
  end.

Definition GpuBytesFromReading (reading : GpuSmapsReading) (vmrss_bytes : Z) : Z :=
  if negb (reading_valid reading) then 0
  else
    let divergence :=
      if all_rss_bytes reading >? vmrss_bytes then all_rss_bytes reading ⊟ vmrss_bytes else 0 in
    if divergence <? device_rss_bytes reading then divergence else device_rss_bytes reading.

(** ** The KGSL counter *)

Definition is_kgsl_space (c : ascii) : bool := is_blank c || Ascii.eqb c newline.

Definition parse_kgsl (buffer : string) : option Z :=
  match skip_while is_kgsl_space buffer with
  | String c _ as p => if is_digit c then Some (size_digits p 0) else None
  | EmptyString => None
  end.

Definition ReadKgslKernelBytesFrom (f : option (list string)) : option Z :=
  match f with
  | None => None
  | Some f =>
      match (read 31 f).1 with
      | EmptyString => None
      | buffer => parse_kgsl (cstr buffer)
      end
  end.

Inductive KgslState := kKgslUnknown | kKgslActive | kKgslUnavailable.
Definition EPERM : Z := 1.
Definition ENOENT : Z := 2.
Definition EACCES : Z := 13.

(** [node] is the opened node or [errno]; [driver] whether /sys/class/kgsl/kgsl
    exists; the state is the function's static [state]. *)
Definition ReadSelfKgslKernel (node : list string + Z) (driver : bool) (known : KgslState) :
    option Z * KgslState :=
  match known, node with
  | kKgslUnavailable, _ => (None, known)
  | _, inr errno =>
      (None, match known with
             | kKgslUnknown =>
                 if (errno =? EACCES) || (errno =? EPERM) then kKgslUnavailable
                 else if negb (errno =? ENOENT) || negb driver then kKgslUnavailable
                 else known
             | _ => known
             end)
  | _, inl f =>
      let parsed :=
        match (read 31 f).1 with
        | EmptyString => None
        | buffer => parse_kgsl (cstr buffer)
        end in
      (parsed, match parsed, known with
               | Some _, kKgslUnknown => kKgslActive
               | _, _ => known
               end)
  end.

(** ** Device buffers *)

Definition LinkNamesDmaBuf (target : string) : bool :=
  starts_with "/dmabuf" target || starts_with "anon_inode:dmabuf" target.

(** The accumulator of the two dmabuf passes. *)
Record DmaPass := mkPass { pass_total : Z; pass_set : DmaInodeSet; saw_any : bool }.

(** [sscanf (line, "%lx-%lx %*s %*s %*s %llu", ..) >= 3]. *)
Definition dma_fields (line : string) : option (Z * Z * Z) :=
  match sscanf line [DHex; DLit "-"%char; DHex; DSpace; DSkipString; DSpace; DSkipString;
                     DSpace; DSkipString; DSpace; DULongLong] with
  | (3, [SNum start; SNum end_; SNum inode]) => Some (start, end_, inode)
  | _ => None
  end.

Definition DmaBytesFromMapsLine (line : string) (set : DmaInodeSet) (saw : bool) :
    Z * DmaInodeSet * bool :=
  match strstr line "/dmabuf" with
  | None => (0, set, saw)
  | Some _ =>
      match dma_fields line with
      | Some (start, end_, inode) =>
          if end_ <=? start then (0, set, saw)
          else
            let '(fresh, set) := InsertInode set inode in
            (if negb fresh then 0 else end_ ⊟ start, set, true)
      | None => (0, set, saw)
      end
  end.

Definition dma_maps_step (p : DmaPass) (line : string) : DmaPass :=
  let '(bytes, set, saw) := DmaBytesFromMapsLine line (pass_set p) (saw_any p) in
  mkPass (pass_total p ⊞ bytes) set saw.

Definition ReadDmaBytesFromMaps (f : option (list string)) (set : DmaInodeSet) (saw : bool) :
    DmaPass :=
  match f with
  | None => mkPass 0 set saw
  | Some f => read_file kLineBuffer dma_maps_step id f (mkPass 0 set saw)
  end.

(** What /proc/self/fd shows: the names of each [getdents64] batch, the target
    of a link (63 bytes of it; [None] when [readlinkat] fails) and [fstat]:
    inode, size and 512-byte blocks. *)
Record FdDir := mkFdDir {
  dir_fd : Z;
  batches : list (list string);
  readlinkat : string → option string;
  fstat : Z → option (Z * Z * Z);
}.

Definition dma_fd_step (d : FdDir) (p : DmaPass) (d_name : string) : DmaPass :=
  match strtol d_name with
  | (fd, Some EmptyString, _) =>
      if (fd <? 0) || (fd =? dir_fd d) then p
      else match readlinkat d d_name with
      | None | Some EmptyString => p
      | Some target =>
          if negb (LinkNamesDmaBuf (stake 63 target)) then p
          else match fstat d (i32 fd) with
          | None => p
          | Some (st_ino, st_size, st_blocks) =>
              let '(fresh, set) := InsertInode (pass_set p) st_ino in
              mkPass (if negb fresh then pass_total p
                      else pass_total p ⊞
                           (if st_size >? 0 then st_size else st_blocks ⊠ 512)) set true
          end
      end
  | _ => p
  end.

(** The loop over the batches ends at the first empty one. *)
Fixpoint dma_fd_batches (d : FdDir) (bs : list (list string)) (p : DmaPass) : DmaPass :=
  match bs with
  | [] | [] :: _ => p
  | names :: bs => dma_fd_batches d bs (fold_left (dma_fd_step d) names p)
  end.

Definition ReadDmaBytesFromFds (d : option FdDir) (set : DmaInodeSet) (saw : bool) : DmaPass :=
  match d with
  | None => mkPass 0 set saw
  | Some d => dma_fd_batches d (batches d) (mkPass 0 set saw)
  end.

(** One row of /proc/ion_process_info: name, pid, descriptor, size. *)
Definition ion_row (pid : Z) (line : string) : Z :=
  match sscanf line [DString 255; DSpace; DInt; DSpace; DInt; DSpace; DULongLong] with
  | (4, [SStr _; SNum entry_pid; SNum _; SNum size]) => if entry_pid =? pid then size else 0
  | _ => 0
  end.

Definition kIonBuffer : nat := Z.to_nat 8192.

Definition ReadIonProcInfoBytesFrom (f : option (list string)) (pid : Z) : option Z :=
  (λ f, read_file kIonBuffer (λ total l, total ⊞ ion_row pid l) id f 0) <$> f.

(** ** Text lemmas *)

#[local] Opaque kLineBuffer kIonBuffer.

Fixpoint no_nul (s : string) : bool :=
  match s with EmptyString => true | String c r => negb (Ascii.eqb c Ascii.zero) && no_nul r end.

Lemma cstr_no_nul s : no_nul s = true → cstr s = s.
Proof.
  induction s as [|c s IH]; cbn; [done|]. intros [Hc%negb_true_iff Hs]%andb_true_iff.
  rewrite Hc. by rewrite IH.
Qed.

Lemma no_nul_app a b : no_nul (a +:+ b) = no_nul a && no_nul b.
Proof. induction a as [|c a IH]; [done|]. cbn. by rewrite <-andb_assoc, <-IH. Qed.

Lemma split_lines_no_nul s cur :
  no_nul cur = true → no_nul s = true →
  Forall (λ l, no_nul l = true) (split_lines s cur).1.
Proof.
  revert cur. induction s as [|c s IH]; intros cur Hcur Hs; [constructor|].
  cbn [split_lines no_nul] in *. apply andb_true_iff in Hs as [Hc Hs].
  destruct (Ascii.eqb c newline).
  - specialize (IH EmptyString eq_refl Hs). destruct (split_lines s EmptyString). by constructor.
  - apply IH; [|done]. rewrite no_nul_app, Hcur. cbn [no_nul]. by rewrite Hc.
Qed.

Lemma fold_left_cstr {St} (h : St → string → St) ls st :
  Forall (λ l, no_nul l = true) ls →
  fold_left (λ st l, h st (cstr l)) ls st = fold_left h ls st.
Proof.
  intros Hls. revert st. induction Hls as [|l ls Hl _ IH]; intros st; cbn; [done|].
  by rewrite cstr_no_nul.
Qed.

(** A NUL-free text whose lines fit a buffer of [cap] bytes. *)
Definition readable (cap : nat) (f : list string) : Prop :=
  no_empty f ∧ lines_fit (cap - 1) (contents f) 0 = true ∧ no_nul (contents f) = true.

Lemma read_file_lines {St} cap (h : St → string → St) z f st :
  readable cap f → read_file cap h z f st = fold_left h (split_lines (contents f) EmptyString).1 st.
Proof.
  intros (Hne & Hfit & Hnul). rewrite read_file_correct by done.
  apply fold_left_cstr. by apply split_lines_no_nul.
Qed.

(** The streaming smaps reader computes the same GPU figure as the
    whole-text parser, for every way the kernel may split a newline-terminated
    smaps file into reads, as long as each line fits the 16 KiB buffer. *)
Theorem smaps_streaming_equals_text f :
  readable kLineBuffer f → (split_lines (contents f) EmptyString).2 = EmptyString →
  ReadGpuMmapBytesFrom (Some f) = Some (GpuMmapBytesFromSmapsText (contents f)).
Proof.
  intros Hf Hrest. cbn. rewrite read_file_lines by done.
  unfold GpuMmapBytesFromSmapsText, text_lines. rewrite cstr_no_nul by apply Hf.
  destruct (split_lines (contents f) EmptyString) as [ls rest]. cbn in *. by subst.
Qed.

(** The result of every line-oriented reader depends on the contents of its
    file only, not on how the kernel splits it into reads. *)
Theorem readers_ignore_chunking f g set saw pid :
  contents f = contents g → readable kIonBuffer f → readable kIonBuffer g →
  readable kLineBuffer f → readable kLineBuffer g →
  ReadGpuMmapBytesFrom (Some f) = ReadGpuMmapBytesFrom (Some g) ∧
  ReadGpuMappedBytesFrom (Some f) = ReadGpuMappedBytesFrom (Some g) ∧
  ReadGpuSmapsReading (Some f) = ReadGpuSmapsReading (Some g) ∧
  ReadDmaBytesFromMaps (Some f) set saw = ReadDmaBytesFromMaps (Some g) set saw ∧
  ReadIonProcInfoBytesFrom (Some f) pid = ReadIonProcInfoBytesFrom (Some g) pid.
Proof.
  intros E Hf Hg Hf' Hg'. cbn. rewrite !read_file_lines by done. rewrite E. done.
Qed.

Definition demo_smaps : string :=
  "7a561d0000-7a561d8000 r--s 00000000 00:13 2348 /dev/kgsl-3d0" +:+ String newline
  ("Rss:                  16 kB" +:+ String newline
  ("77ba680000-77bb286000 rw-s 00000000 00:01 40690 /kgsl-3d0 (deleted)" +:+ String newline
  ("Size:              12312 kB" +:+ String newline
  ("Rss:                   0 kB" +:+ String newline
  ("55d0000000-55d0010000 rw-p 00000000 00:00 0 [heap]" +:+ String newline
  ("Rss:                  64 kB" +:+ String newline EmptyString)))))).

(** The same text in two deliveries: whole, and cut inside lines. *)
Definition demo_chunks : list string :=
  [stake 10 demo_smaps; stake 100 (sdrop 10 demo_smaps); sdrop 110 demo_smaps].

Lemma smaps_streaming_equals_text_witness :
  ReadGpuMmapBytesFrom (Some demo_chunks) = Some (16 * 1024 + 12312 * 1024).
Proof.
  rewrite (smaps_streaming_equals_text demo_chunks); [vm_compute; reflexivity| |vm_compute; reflexivity].
  split_and!; [repeat constructor; discriminate|vm_compute; reflexivity..].
Defined.

Lemma readers_ignore_chunking_witness :
  ReadGpuMappedBytesFrom (Some demo_chunks) = Some (32 * 1024 + 12312 * 1024).
Proof.
  destruct (readers_ignore_chunking demo_chunks [demo_smaps] inode_set_zero false 1) as (_ & -> & _);
    [vm_compute; reflexivity| | | | |vm_compute; reflexivity];
  split_and!; (repeat constructor; discriminate) || (vm_compute; reflexivity).
Defined.

(** ** Resident-set fields *)

Lemma dec_digits_app fuel z acc : dec_digits fuel z acc = dec_digits fuel z EmptyString +:+ acc.
Proof.
  revert z acc. induction fuel as [|fuel IH]; intros z acc; [done|].
  cbn [dec_digits]. destruct (z / 10 =? 0); [done|].
  rewrite IH, (IH _ (String _ EmptyString)), string_app_assoc. done.
Qed.

Lemma is_digit_val c : is_digit c = true ↔ ∃ d, digit_val c = Some d ∧ d < 10.
Proof.
  unfold is_digit, digit_val. destruct ((48 <=? char_code c) && (char_code c <=? 57)) eqn:E.
  - apply andb_true_iff in E as [?%Z.leb_le ?%Z.leb_le]. split; [|done].
    intros _. eexists. split; [done|]. lia.
  - split; [done|]. intros (d & Hd & Hlt).
    destruct ((97 <=? char_code c) && _) eqn:E2.
    { bool_hyps. simplify_eq. lia. }
    destruct ((65 <=? char_code c) && _) eqn:E3; [|done]. bool_hyps. simplify_eq. lia.
Qed.

(** The [size_t] loop is the digit loop modulo [2^64]. *)
Lemma size_digits_scan s acc n :
  size_digits s (u64 acc) = u64 (scan_digits 10 s acc n).1.1.
Proof.
  revert acc n. induction s as [|c s IH]; intros acc n; cbn; [done|].
  destruct (is_digit c) eqn:E.
  - pose proof E as (d & Hd & Hlt)%is_digit_val. rewrite Hd.
    destruct (Z.ltb_spec d 10); [|lia]. rewrite <-IH. f_equal.
    assert (d = char_code c - 48) as ->.
    { unfold digit_val, is_digit in *. rewrite E in Hd. by simplify_eq. }
    word_eq.
  - destruct (digit_val c) as [d|] eqn:Hd; [|done].
    destruct (Z.ltb_spec d 10); [|done].
    assert (is_digit c = true) by (apply is_digit_val; eauto). congruence.
Qed.

Definition head_not_digit (s : string) : bool :=
  match s with EmptyString => true | String c _ => negb (is_digit c) end.

Lemma size_digits_print n rest :
  0 ≤ n ≤ SIZE_MAX → head_not_digit rest = true → size_digits (print_dec n +:+ rest) 0 = n.
Proof.
  intros Hn Hrest. change 0 with (u64 0) at 1. unfold print_dec. rewrite <-dec_digits_app.
  unfold SIZE_MAX in Hn. rewrite (size_digits_scan _ 0 0).
  destruct (scan_dec_digits 20 n rest 0 0) as (k & _ & ->); [|lia|].
  { split; [lia|]. eapply Z.le_lt_trans; [apply Hn|]. done. }
  replace (scan_digits 10 rest (0 * 10 ^ Z.of_nat k + n) (0 + k)) with (n, k, rest);
    [apply u64_small; cbn; lia|].
  destruct rest as [|c r]; cbn in *; [done|]. apply negb_true_iff in Hrest.
  destruct (digit_val c) as [d|] eqn:Hd; [|done]. destruct (Z.ltb_spec d 10); [|done].
  assert (is_digit c = true) by (apply is_digit_val; eauto). congruence.
Qed.

Fixpoint all_blank (s : string) : bool :=
  match s with EmptyString => true | String c r => is_blank c && all_blank r end.

Lemma skip_blank_print ws n rest : 0 ≤ n → all_blank ws = true →
  skip_while is_blank (ws +:+ (print_dec n +:+ rest)) = print_dec n +:+ rest.
Proof.
  intros Hn. unfold print_dec. rewrite <-dec_digits_app. induction ws as [|c ws IH]; intros Hws.
  - change (EmptyString +:+ ?x) with x.
    destruct (dec_digits_head 20 n rest Hn ltac:(lia)) as (d & r & Hd & ->). cbn.
    assert (is_digit (digit_char d) = true) as Hdig.
    { apply is_digit_val. exists d. split; [by apply digit_val_digit_char|lia]. }
    unfold is_blank. destruct (Ascii.eqb_spec (digit_char d) " ") as [E|_];
      [rewrite E in Hdig; discriminate|].
    by destruct (Ascii.eqb_spec (digit_char d) (Ascii.ascii_of_N 9)) as [E|_];
      [rewrite E in Hdig; discriminate|].
  - cbn in Hws. apply andb_true_iff in Hws as [Hc Hws].
    change (String c ws +:+ ?x) with (String c (ws +:+ x)). cbn [skip_while]. by rewrite Hc, IH.
Qed.

Lemma sdrop_app a b : sdrop (String.length a) (a +:+ b) = b.
Proof. induction a; [done|assumption]. Qed.

(** [ReadStatusField] reads back what the kernel prints: when the first
    occurrence of the key is followed by blanks and a decimal number below
    [2^64], that number is the result. *)
Theorem ReadStatusField_roundtrip text key ws n rest :
  strstr text key = Some (key +:+ (ws +:+ (print_dec n +:+ rest))) →
  all_blank ws = true → 0 ≤ n ≤ SIZE_MAX → head_not_digit rest = true →
  ReadStatusField text key = n.
Proof.
  intros Hfound Hws Hn Hrest. unfold ReadStatusField. rewrite Hfound, sdrop_app.
  rewrite skip_blank_print by (done || lia). by apply size_digits_print.
Qed.

Definition demo_status : string :=
  "Name:   demo" +:+ String newline ("VmRSS:      1234 kB" +:+ String newline
  ("RssAnon:     567 kB" +:+ String newline EmptyString)).

Lemma ReadStatusField_roundtrip_witness : ReadStatusField demo_status "RssAnon:" = 567.
Proof.
  apply (ReadStatusField_roundtrip demo_status "RssAnon:" "     " 567 (" kB" +:+ String newline EmptyString));
    [vm_compute; reflexivity|reflexivity|unfold SIZE_MAX; lia|reflexivity].
Defined.

(** ** Bounds of the GPU figures *)

(** The resident bytes an smaps line reports. *)
Definition rss_of_line (line : string) : Z :=
  match maps_range line with
  | Some _ => 0
  | None =>
      if starts_with "Rss:" line
      then match rss_field line with
           | Some kb => if kb <? 0 then 0 else kb ⊠ 1024
           | None => 0
           end
      else 0
  end.

Lemma rss_of_line_nonneg l : 0 ≤ rss_of_line l.
Proof.
  unfold rss_of_line. destruct (maps_range l); [done|]. destruct (starts_with _ l); [|done].
  destruct (rss_field l) as [kb|]; [|done]. destruct (kb <? 0); [done|]. apply u64_range.
Qed.

Lemma reading_fold ls into dev :
  0 ≤ device_rss_bytes into ≤ all_rss_bytes into →
  all_rss_bytes into + list_sum rss_of_line ls < 2 ^ 64 →
  let r := (fold_left reading_step ls (into, dev)).1 in
  all_rss_bytes r = all_rss_bytes into + list_sum rss_of_line ls ∧
  0 ≤ device_rss_bytes r ≤ all_rss_bytes r.
Proof.
  revert into dev. induction ls as [|l ls IH]; intros into dev Hinto Hsum;
    cbn [list_sum fold_left] in Hsum |- *; [cbn; lia|].
  pose proof (rss_of_line_nonneg l) as Hl.
  assert (0 ≤ list_sum rss_of_line ls) as Hls.
  { apply list_sum_nonneg. intros. apply rss_of_line_nonneg. }
  destruct (reading_step (into, dev) l) as [into' dev'] eqn:Hstep.
  assert (all_rss_bytes into' = all_rss_bytes into + rss_of_line l ∧
          0 ≤ device_rss_bytes into' ≤ all_rss_bytes into') as [Hall Hdev].
  { unfold reading_step, rss_of_line in *. destruct (maps_range l) as [[lo hi]|].
    { simplify_eq. destruct (names_gpu l && (hi >? lo)); cbn; lia. }
    destruct (starts_with "Rss:" l); cbn in Hstep; [|simplify_eq; lia].
    destruct (rss_field l) as [kb|]; [|simplify_eq; lia].
    destruct (kb <? 0); [simplify_eq; lia|]. pose proof (u64_range (kb * 1024)) as Hr.
    set (x := kb ⊠ 1024) in *. destruct dev; simplify_eq; cbn; rewrite ?(u64_small (_ + x)) by lia; lia. }
  specialize (IH into' dev' Hdev ltac:(lia)). cbn in IH. lia.
Qed.

(** The divergence model never counts a page twice: as long as the
    resident sizes of the file do not overflow, the GPU figure is at most the
    resident size of the device mappings, which is at most that of all
    mappings, and adding it to VmRSS never exceeds what smaps accounts for in
    total (or VmRSS itself when that is larger). *)
Theorem gpu_divergence_bounds f vmrss :
  readable kLineBuffer f → 0 ≤ vmrss →
  list_sum rss_of_line (split_lines (contents f) EmptyString).1 < 2 ^ 64 →
  let '(ok, r) := ReadGpuSmapsReading (Some f) in
  let gpu := GpuBytesFromReading r vmrss in
  ok = true ∧ all_rss_bytes r = list_sum rss_of_line (split_lines (contents f) EmptyString).1 ∧
  0 ≤ gpu ≤ device_rss_bytes r ∧ device_rss_bytes r ≤ all_rss_bytes r ∧
  vmrss + gpu ≤ Z.max vmrss (all_rss_bytes r).
Proof.
  intros Hf Hv Hsum. unfold ReadGpuSmapsReading. rewrite read_file_lines by done.
  pose proof (reading_fold _ reading_init false ltac:(done) Hsum) as Hr.
  set (total := list_sum rss_of_line _) in *.
  destruct (fold_left _ _ _) as [into dev]. cbn in Hr |- *. destruct Hr as [Hall Hdev].
  unfold GpuBytesFromReading. cbn. rewrite Z.add_0_l in Hall. rewrite Hall in *.
  assert ((if total >? vmrss then total ⊟ vmrss else 0) = Z.max 0 (total - vmrss)) as ->.
  { destruct (Z.gtb_spec total vmrss); rewrite ?u64_small by lia; lia. }
  case_ifs; lia.
Qed.

Lemma gpu_divergence_bounds_witness :
  let r := (ReadGpuSmapsReading (Some demo_chunks)).2 in
  GpuBytesFromReading r 70000 = 11920 ∧ 70000 + 11920 ≤ all_rss_bytes r.
Proof.
  pose proof (gpu_divergence_bounds demo_chunks 70000) as H.
  destruct (ReadGpuSmapsReading (Some demo_chunks)) as [ok r] eqn:E.
  assert (r = (ReadGpuSmapsReading (Some demo_chunks)).2) as -> by (rewrite E; reflexivity).
  destruct H as (_ & Hall & _);
    [split_and!; [repeat constructor; discriminate|vm_compute; reflexivity..]|lia
    |vm_compute; reflexivity|].
  split; [vm_compute; reflexivity|]. cbn [snd]. rewrite Hall. vm_compute. discriminate.
Defined.

Lemma smaps_fold_bound ls total scan mapped :
  0 ≤ total → 0 ≤ region_size scan →
  total + (if in_gpu_region scan then region_size scan else 0) ≤ mapped →
  mapped + list_sum GpuMappedBytesFromMapsLine ls < 2 ^ 64 →
  (∀ l, 0 ≤ GpuMappedBytesFromMapsLine l) →
  0 ≤ (fold_left smaps_step ls (total, scan)).1 ≤ mapped + list_sum GpuMappedBytesFromMapsLine ls.
Proof.
  intros Ht Hs Hinv Hsum Hpos. revert total scan mapped Ht Hs Hinv Hsum.
  induction ls as [|l ls IH]; intros total scan mapped Ht Hs Hinv Hsum;
    cbn [list_sum fold_left] in Hsum |- *.
  { cbn. destruct (in_gpu_region scan); lia. }
  pose proof (Hpos l) as Hl.
  assert (0 ≤ list_sum GpuMappedBytesFromMapsLine ls) as Hls by (apply list_sum_nonneg; auto).
  destruct (GpuMmapBytesFromSmapsLine l scan) as [b scan'] eqn:Hb.
  replace (smaps_step (total, scan) l) with (total ⊞ b, scan') by (cbn; by rewrite Hb).
  assert (0 ≤ b ∧ 0 ≤ region_size scan' ∧
    total + b + (if in_gpu_region scan' then region_size scan' else 0) ≤
    mapped + GpuMappedBytesFromMapsLine l) as (Hb0 & Hs' & Hnext).
  { unfold GpuMmapBytesFromSmapsLine, GpuMappedBytesFromMapsLine in *.
    destruct (maps_range l) as [[start end_]|]; simplify_eq; cbn.
    - pose proof (u64_range (end_ - start)) as Hr.
      destruct (Z.gtb_spec end_ start), (Z.leb_spec end_ start); try lia;
        destruct (names_gpu l), (in_gpu_region scan); cbn in *; lia.
    - destruct (in_gpu_region scan) eqn:Eg; cbn in Hb; [|simplify_eq; rewrite ?Eg; lia].
      destruct (starts_with "Rss:" l); cbn in Hb; [|simplify_eq; rewrite ?Eg; lia].
      destruct (rss_field l) as [kb|]; simplify_eq; cbn; [|lia].
      pose proof (u64_range ((if kb <? 0 then 0 else kb) * 1024)).
      destruct (Z.gtb_spec (region_size scan) ((if kb <? 0 then 0 else kb) ⊠ 1024)); [|lia].
      rewrite (u64_small (region_size scan - _)) by lia. lia. }
  assert (0 ≤ (if in_gpu_region scan' then region_size scan' else 0)) by (case_match; lia).
  rewrite u64_small by lia.
  specialize (IH (total + b) scan' (mapped + GpuMappedBytesFromMapsLine l)
    ltac:(lia) Hs' ltac:(lia) ltac:(lia)). lia.
Qed.

(** The GPU bytes that smaps leaves out of RSS never exceed the bytes of
    the GPU device mappings of the same text, whatever its Rss lines say. *)
Theorem unaccounted_gpu_within_mapped text :
  list_sum GpuMappedBytesFromMapsLine (text_lines (cstr text)) < 2 ^ 64 →
  0 ≤ GpuMmapBytesFromSmapsText text ≤ list_sum GpuMappedBytesFromMapsLine (text_lines (cstr text)).
Proof.
  intros Hsum. apply (smaps_fold_bound _ 0 scan_init 0); try done.
  intros l. unfold GpuMappedBytesFromMapsLine. destruct (maps_range l) as [[a b]|]; [|done].
  case_ifs; try done. apply u64_range.
Qed.

Lemma unaccounted_gpu_within_mapped_witness :
  GpuMmapBytesFromSmapsText demo_smaps = 12328 * 1024 ∧
  GpuMmapBytesFromSmapsText demo_smaps ≤ 12344 * 1024.
Proof.
  split; [vm_compute; reflexivity|].
  destruct (unaccounted_gpu_within_mapped demo_smaps) as [_ H]; [vm_compute; reflexivity|].
  eapply Z.le_trans; [exact H|]. vm_compute. discriminate.
Defined.

(** ** Every device buffer is counted once *)

(** The buffer a directory entry names, and the one a maps line names: inode
    and bytes. *)
Definition fd_event (d : FdDir) (d_name : string) : option (Z * Z) :=
  match strtol d_name with
  | (fd, Some EmptyString, _) =>
      if (fd <? 0) || (fd =? dir_fd d) then None
      else match readlinkat d d_name with
      | None | Some EmptyString => None
      | Some target =>
          if LinkNamesDmaBuf (stake 63 target)
          then match fstat d (i32 fd) with
               | Some (ino, size, blocks) => Some (ino, if size >? 0 then size else blocks ⊠ 512)
               | None => None
               end
          else None
      end
  | _ => None
  end.

Definition map_event (line : string) : option (Z * Z) :=
  match strstr line "/dmabuf" with
  | None => None
  | Some _ =>
      match dma_fields line with
      | Some (start, end_, inode) =>
          if end_ <=? start then None else Some (inode, end_ ⊟ start)
      | None => None
      end
  end.

Definition add_event (p : DmaPass) (e : Z * Z) : DmaPass :=
  let '(fresh, set) := InsertInode (pass_set p) e.1 in
  mkPass (if fresh : bool then pass_total p ⊞ e.2 else pass_total p) set true.

Definition add_opt (p : DmaPass) (e : option (Z * Z)) : DmaPass := from_option (add_event p) p e.

(** Bytes of the first event of every inode not in [seen]. *)
Fixpoint dedup_sum (seen : gset Z) (evs : list (Z * Z)) : Z :=
  match evs with
  | [] => 0
  | (i, b) :: evs => (if decide (i ∈ seen) then 0 else b) + dedup_sum ({[i]} ∪ seen) evs
  end.

Definition inodes (evs : list (Z * Z)) : gset Z := list_to_set (evs.*1).

Lemma dedup_sum_app seen a b :
  dedup_sum seen (a ++ b) = dedup_sum seen a + dedup_sum (inodes a ∪ seen) b.
Proof.
  revert seen. induction a as [|[i x] a IH]; intros seen; cbn.
  - unfold inodes. cbn. by rewrite union_empty_l_L.
  - rewrite IH. unfold inodes. cbn.
    replace (list_to_set (a.*1) ∪ ({[i]} ∪ seen)) with ({[i]} ∪ list_to_set a.*1 ∪ seen) by set_solver.
    lia.
Qed.

Lemma dma_fd_step_event d p name : dma_fd_step d p name = add_opt p (fd_event d name).
Proof.
  unfold dma_fd_step, fd_event. destruct (strtol name) as [[fd [[|]|]] e]; try done.
  destruct ((fd <? 0) || _); [done|]. destruct (readlinkat d name) as [[|c t]|]; try done.
  destruct (LinkNamesDmaBuf _); [|done]. destruct (fstat d (i32 fd)) as [[[ino size] blocks]|]; [|done].
  cbn. unfold add_event. cbn. by destruct (InsertInode (pass_set p) ino) as [[] set].
Qed.

Definition total_ok (p : DmaPass) : Prop := u64 (pass_total p) = pass_total p.

Lemma add_opt_total_ok p e : total_ok p → total_ok (add_opt p e).
Proof.
  intros Hp. destruct e as [e|]; [|done]. cbn. unfold add_event, total_ok.
  destruct (InsertInode _ _) as [[] set]; cbn; [apply u64_idemp|done].
Qed.

Lemma dma_maps_step_event p line :
  total_ok p → dma_maps_step p line = add_opt p (map_event line).
Proof.
  intros Hp. unfold dma_maps_step, DmaBytesFromMapsLine, map_event.
  assert (mkPass (pass_total p ⊞ 0) (pass_set p) (saw_any p) = p) as Hz.
  { destruct p; cbn in *. f_equal. unfold total_ok in Hp. cbn in Hp. by rewrite Z.add_0_r. }
  destruct (strstr line "/dmabuf"); [|done].
  destruct (dma_fields line) as [[[start end_] inode]|]; [|done].
  destruct (end_ <=? start); [done|]. cbn. unfold add_event. cbn.
  destruct (InsertInode (pass_set p) inode) as [[] set]; cbn; [done|].
  f_equal. rewrite Z.add_0_r. exact Hp.
Qed.

Fixpoint dir_names (bs : list (list string)) : list string :=
  match bs with [] | [] :: _ => [] | names :: bs => names ++ dir_names bs end.

Lemma fd_pass_events d bs p :
  dma_fd_batches d bs p = fold_left add_event (omap (fd_event d) (dir_names bs)) p.
Proof.
  assert (∀ names p, fold_left (dma_fd_step d) names p =
    fold_left add_event (omap (fd_event d) names) p) as Hfold.
  { induction names as [|x names IH]; intros q; [done|]. cbn [fold_left omap list_omap].
    rewrite IH, dma_fd_step_event. by destruct (fd_event d x). }
  revert p. induction bs as [|[|n ns] bs IH]; intros p; [done..|].
  cbn [dma_fd_batches dir_names]. rewrite IH, omap_app, fold_left_app. f_equal. apply Hfold.
Qed.

Lemma map_pass_events ls p :
  total_ok p → fold_left dma_maps_step ls p = fold_left add_event (omap map_event ls) p.
Proof.
  revert p. induction ls as [|l ls IH]; intros p Hp; [done|].
  cbn [fold_left omap list_omap]. rewrite dma_maps_step_event by done.
  rewrite IH by by apply add_opt_total_ok. by destruct (map_event l).
Qed.

(** A pass over events: what it adds and what the set then holds. *)
Definition pass_inv (p : DmaPass) : Prop :=
  inode_set_inv (pass_set p) ∧ total_ok p ∧
  set_count (pass_set p) = Z.of_nat (size (members (pass_set p))).

Lemma add_events_spec evs p :
  pass_inv p → Z.of_nat (size (inodes evs ∪ members (pass_set p))) < kMaxDedupedBuffers →
  let p' := fold_left add_event evs p in
  pass_inv p' ∧ members (pass_set p') = inodes evs ∪ members (pass_set p) ∧
  pass_total p' = pass_total p ⊞ dedup_sum (members (pass_set p)) evs ∧
  set_overflowed (pass_set p') = set_overflowed (pass_set p).
Proof.
  revert p. induction evs as [|[i b] evs IH]; intros p (Hinv & Ht & Hc) Hsize; cbn [fold_left].
  { cbn. rewrite Z.add_0_r, Ht. unfold inodes. cbn. by rewrite union_empty_l_L. }
  assert (size (members (pass_set p)) ≤ size (inodes ((i, b) :: evs) ∪ members (pass_set p)))%nat
    by (apply subseteq_size, union_subseteq_r).
  pose proof (InsertInode_spec (pass_set p) i Hinv ltac:(lia)) as Hi.
  unfold add_event at 2 4 6 8. cbn [fst snd].
  destruct (InsertInode (pass_set p) i) as [fresh set] eqn:E.
  destruct Hi as (Hinv' & Hmem & -> & Ho & Hc').
  set (p1 := mkPass _ set true).
  assert (pass_inv p1) as Hp1.
  { split; [done|]. split.
    - unfold total_ok, p1. cbn. case_match; [apply u64_idemp|done].
    - unfold p1. cbn. rewrite Hc', Hc, Hmem. case_bool_decide as Hx.
      + rewrite size_union, size_singleton by (apply disjoint_singleton_l; done). lia.
      + rewrite subseteq_union_1_L; [lia|]. by apply singleton_subseteq_l. }
  assert (inodes evs ∪ members set = inodes ((i, b) :: evs) ∪ members (pass_set p)) as Hun.
  { rewrite Hmem. unfold inodes. cbn. clear. set_solver. }
  specialize (IH p1 Hp1). cbn [pass_set p1] in IH. rewrite Hun in IH.
  destruct (IH Hsize) as (Hp & Hm & Htot & Ho'). split_and!; [done..| |exact (eq_trans Ho' Ho)].
  rewrite Htot. unfold p1. cbn [pass_total dedup_sum]. rewrite Hmem.
  case_bool_decide as Hx; destruct (decide (i ∈ members (pass_set p))); try done; word_eq.
Qed.

(** Within one sample every device buffer is counted once: with the
    descriptor pass followed by the mapping pass on a freshly reset set, and
    fewer than 2048 distinct inodes, the two totals add up to the sizes of the
    first appearance of each inode, and the set does not overflow. *)
Theorem dma_passes_count_buffers_once s d f :
  inode_set_ready s → readable kLineBuffer f →
  let evs := omap (fd_event d) (dir_names (batches d)) ++
             omap map_event (split_lines (contents f) EmptyString).1 in
  Z.of_nat (size (inodes evs)) < kMaxDedupedBuffers →
  let p1 := ReadDmaBytesFromFds (Some d) (ResetDmaInodeSet s) false in
  let p2 := ReadDmaBytesFromMaps (Some f) (pass_set p1) (saw_any p1) in
  pass_total p1 ⊞ pass_total p2 = u64 (dedup_sum ∅ evs) ∧
  set_overflowed (pass_set p2) = false.
Proof.
  intros Hs Hf evs Hsize p1 p2. destruct (ResetDmaInodeSet_inv s Hs) as (Hinv & Hmem & Ho & Hc).
  unfold p2, p1, ReadDmaBytesFromMaps, ReadDmaBytesFromFds.
  rewrite fd_pass_events, read_file_lines, map_pass_events by done.
  set (e1 := omap (fd_event d) _) in *. set (e2 := omap map_event _) in *.
  set (p0 := mkPass 0 (ResetDmaInodeSet s) false).
  assert (inodes evs = inodes e2 ∪ inodes e1) as Hev.
  { unfold evs, inodes. rewrite fmap_app, list_to_set_app_L. apply (comm_L (∪)). }
  assert (size (inodes e1) ≤ size (inodes evs))%nat as Hle.
  { rewrite Hev. apply subseteq_size, union_subseteq_r. }
  destruct (add_events_spec e1 p0) as ((Hi1 & Ht1 & Hc1) & Hm1 & Htot1 & Ho1).
  { split_and!; [done..|]. cbn. by rewrite Hc, Hmem. }
  { cbn. rewrite Hmem, union_empty_r_L. lia. }
  cbn in Hm1, Htot1, Ho1. rewrite Hmem, union_empty_r_L in Hm1.
  set (q := fold_left add_event e1 p0) in *.
  destruct (add_events_spec e2 (mkPass 0 (pass_set q) (saw_any q))) as (_ & _ & Htot2 & Ho2).
  { split_and!; [done..|]. exact Hc1. }
  { cbn. by rewrite Hm1, <-Hev. }
  cbn in Htot2, Ho2. split; [|congruence].
  rewrite Htot1, Htot2, Hmem, Hm1. unfold evs. rewrite dedup_sum_app, union_empty_r_L. word_eq.
Qed.

Definition demo_dir : FdDir := mkFdDir 9 [["0"; "3"; "4"]; ["5"; "9"]]
  (λ n, if String.eqb n "0" then Some "/dev/null" else Some "/dmabuf:camera")
  (λ fd, if fd =? 4 then Some (77, 0, 8) else Some (42, 8192, 16)).

Definition demo_dma_maps : list string :=
  ["7f0000000000-7f0000002000 rw-s 00000000 00:0b 42 /dmabuf:" +:+ String newline
   ("7f0000002000-7f0000005000 rw-s 00000000 00:0b 99 /dmabuf:" +:+ String newline EmptyString)].

(** Descriptors 3 and 5 and the first mapping are one buffer of 8 KiB. *)
Lemma dma_passes_count_buffers_once_witness :
  let p1 := ReadDmaBytesFromFds (Some demo_dir) (ResetDmaInodeSet inode_set_zero) false in
  let p2 := ReadDmaBytesFromMaps (Some demo_dma_maps) (pass_set p1) (saw_any p1) in
  pass_total p1 ⊞ pass_total p2 = 8192 + 4096 + 12288.
Proof.
  refine (eq_trans (proj1 (dma_passes_count_buffers_once inode_set_zero demo_dir demo_dma_maps
    inode_set_zero_ready _ _)) _); [|vm_compute; reflexivity..].
  split_and!; [repeat constructor; discriminate|vm_compute; reflexivity..].
Defined.

Lemma add_opt_inv p e : inode_set_inv (pass_set p) → inode_set_inv (pass_set (add_opt p e)).
Proof.
  intros Hp. destruct e as [e|]; [|done]. cbn. unfold add_event.
  pose proof (InsertInode_inv _ e.1 Hp). by destruct (InsertInode _ _).
Qed.

Lemma fd_pass_inv d set saw :
  inode_set_inv set → inode_set_inv (pass_set (ReadDmaBytesFromFds d set saw)).
Proof.
  intros Hs. destruct d as [d|]; [|done]. cbn [ReadDmaBytesFromFds]. rewrite fd_pass_events.
  generalize (omap (fd_event d) (dir_names (batches d))) as evs.
  assert (inode_set_inv (pass_set (mkPass 0 set saw))) as Hp by done.
  revert Hp. generalize (mkPass 0 set saw) as p. intros p Hp evs. revert p Hp.
  induction evs as [|e evs IH]; intros p Hp; cbn; [done|]. apply IH.
  by apply (add_opt_inv p (Some e)).
Qed.

Lemma map_pass_inv f set saw :
  inode_set_inv set → inode_set_inv (pass_set (ReadDmaBytesFromMaps f set saw)).
Proof.
  intros Hs. destruct f as [f|]; [|done]. unfold ReadDmaBytesFromMaps.
  apply (read_file_preserves (λ p, inode_set_inv (pass_set p))); [|done..].
  intros p l Hp. unfold dma_maps_step, DmaBytesFromMapsLine.
  destruct (strstr l "/dmabuf"); [|done]. destruct (dma_fields l) as [[[a b] i]|]; [|done].
  destruct (b <=? a); [done|]. pose proof (InsertInode_inv _ i Hp).
  by destruct (InsertInode (pass_set p) i).
Qed.

(** ** The KGSL probe *)

(** The probe over a sequence of openings of the node: each the node's state
    (or [errno]) and whether the driver directory is there. *)
Fixpoint kgsl_reads (ns : list ((list string + Z) * bool)) (st : KgslState) :
    list (option Z) * KgslState :=
  match ns with
  | [] => ([], st)
  | (node, driver) :: ns =>
      let '(r, st) := ReadSelfKgslKernel node driver st in
      let '(rs, st) := kgsl_reads ns st in (r :: rs, st)
  end.

Lemma kgsl_unavailable ns : kgsl_reads ns kKgslUnavailable = (replicate (length ns) None, kKgslUnavailable).
Proof. induction ns as [|[n d] ns IH]; cbn; [done|]. by rewrite IH. Qed.

Lemma kgsl_active ns : (kgsl_reads ns kKgslActive).2 = kKgslActive.
Proof.
  induction ns as [|[[f|e] d] ns IH]; cbn; [done| |].
  - destruct (match _ with EmptyString => None | _ => _ end); cbn;
      destruct (kgsl_reads ns kKgslActive); done.
  - by destruct (kgsl_reads ns kKgslActive).
Qed.

(** The KGSL probe is a one-way latch.  Over any sequence of attempts from
    the unknown state: it is active at the end exactly when an attempt
    succeeded; once active a failing read (an exited GPU context, say) does not
    disable it; and when it gives up, no attempt succeeded before and none is
    made afterwards, so the accounting model never flips from KGSL to the
    fallback for good. *)
Theorem kgsl_probe_latch ns ns' :
  let '(rs, st) := kgsl_reads ns kKgslUnknown in
  (st = kKgslActive ↔ Exists is_Some rs) ∧
  (st = kKgslActive → (kgsl_reads ns' st).2 = kKgslActive) ∧
  (st = kKgslUnavailable → Forall (λ r, r = None) rs ∧
     kgsl_reads ns' st = (replicate (length ns') None, kKgslUnavailable)).
Proof.
  assert (let '(rs, st) := kgsl_reads ns kKgslUnknown in
    match st with kKgslActive => Exists is_Some rs | _ => Forall (λ r, r = None) rs end) as H.
  { induction ns as [|[node d] ns IH]; cbn [kgsl_reads]; [constructor|].
    destruct (ReadSelfKgslKernel node d kKgslUnknown) as [r st] eqn:E.
    assert ((r = None ∧ st = kKgslUnknown) ∨ (r = None ∧ st = kKgslUnavailable) ∨
            (is_Some r ∧ st = kKgslActive)) as Hcases.
    { unfold ReadSelfKgslKernel in E. destruct node as [f|e].
      - destruct (match _ with EmptyString => None | _ => _ end); simplify_eq; eauto 6.
      - simplify_eq. destruct ((e =? EACCES) || _); [eauto|]. destruct (_ || _); eauto. }
    destruct Hcases as [[-> ->]|[[-> ->]|[Hr ->]]].
    - destruct (kgsl_reads ns kKgslUnknown) as [rs st]. destruct st; [by constructor|by right|by constructor].
    - rewrite kgsl_unavailable. constructor; [done|]. by apply Forall_replicate.
    - pose proof (kgsl_active ns) as Ha. destruct (kgsl_reads ns kKgslActive) as [rs st].
      cbn in Ha. subst. by left. }
  destruct (kgsl_reads ns kKgslUnknown) as [rs st].
  assert (Forall (λ r, r = None) rs → ¬ Exists is_Some rs) as Hno.
  { intros Hf He. apply Exists_exists in He as (r & Hr & [x ->]).
    rewrite Forall_forall in Hf. by apply Hf in Hr. }
  split_and!.
  - destruct st; split; try done; intros He; by destruct (Hno H He).
  - intros ->. apply kgsl_active.
  - intros ->. split; [done|]. apply kgsl_unavailable.
Qed.
