(* ===== verification/Observed.v ===== *)
(** * Reading one memory sample

    [ReadObservedMemoryGated] and what it calls (backtrace/src/ObservedMemory.cpp):
    the two accounting models, the gated dmabuf mapping pass and the cached GPU
    reading.  What the process can see of /proc, /sys and /dev during one sample
    is a [ProcFs] record, with the clock readings the code takes; the static
    probe results that survive between samples are [Latches]. *)
From S2P Require Import Prelude CString LineReader InodeSet ProcParse.

(** ** Data *)

Module DmaSource.
Inductive t := Unprobed | None | FdAndMaps | IonProcInfo.
#[global] Instance eq_dec : EqDecision t.
Proof. solve_decision. Defined.
End DmaSource.

Module GpuMmapSource.
Inductive t := Unprobed | NotApplicable | Maps | Kgsl.
#[global] Instance eq_dec : EqDecision t.
Proof. solve_decision. Defined.
End GpuMmapSource.

Definition DmaSourceName (source : DmaSource.t) : string :=
  match source with
  | DmaSource.None => "none"
  | DmaSource.FdAndMaps => "fd+maps"
  | DmaSource.IonProcInfo => "ion_process_info"
  | DmaSource.Unprobed => "unprobed"
  end.

Definition GpuMmapSourceName (source : GpuMmapSource.t) : string :=
  match source with
  | GpuMmapSource.NotApplicable => "not_applicable"
  | GpuMmapSource.Maps => "maps"
  | GpuMmapSource.Kgsl => "kgsl"
  | GpuMmapSource.Unprobed => "unprobed"
  end.

Record ObservedMemSample := mkSample {
  rss_bytes : Z;
  dma_bytes : Z;
  dma_fd_bytes : Z;
  dma_map_bytes : Z;
  gpu_bytes : Z;
  dma_source : DmaSource.t;
  gpu_source : GpuMmapSource.t;
  sample_valid : bool;
  status_us : Z;
  fd_us : Z;
  map_us : Z;
  gpu_us : Z;
}.
#[global] Instance ObservedMemSample_upd : Updatable ObservedMemSample := λ s,
  mkSample (rss_bytes s) (dma_bytes s) (dma_fd_bytes s) (dma_map_bytes s) (gpu_bytes s)
    (dma_source s) (gpu_source s) (sample_valid s) (status_us s) (fd_us s) (map_us s) (gpu_us s).

Definition sample_init : ObservedMemSample :=
  mkSample 0 0 0 0 0 DmaSource.Unprobed GpuMmapSource.Unprobed false 0 0 0 0.

Definition total (s : ObservedMemSample) : Z := (rss_bytes s ⊞ dma_bytes s) ⊞ gpu_bytes s.

Record DmaMapCache := mkMapCache {
  mc_bytes : Z;
  mc_max_bytes : Z;
  mc_refreshes : Z;
  mc_samples_since_refresh : Z;
  mc_ever_ran : bool;
}.
#[global] Instance DmaMapCache_upd : Updatable DmaMapCache := λ c,
  mkMapCache (mc_bytes c) (mc_max_bytes c) (mc_refreshes c) (mc_samples_since_refresh c)
    (mc_ever_ran c).
Definition map_cache_init : DmaMapCache := mkMapCache 0 0 0 0 false.

Record GpuMmapCache := mkGpuCache {
  gc_bytes : Z;
  gc_max_bytes : Z;
  gc_mapped_at_read : Z;
  gc_have_read : bool;
  gc_reads : Z;
  gc_read_failures : Z;
  gc_probed_absent : bool;
}.
#[global] Instance GpuMmapCache_upd : Updatable GpuMmapCache := λ c,
  mkGpuCache (gc_bytes c) (gc_max_bytes c) (gc_mapped_at_read c) (gc_have_read c) (gc_reads c)
    (gc_read_failures c) (gc_probed_absent c).
Definition gpu_cache_init : GpuMmapCache := mkGpuCache 0 0 0 false 0 0 false.

(** What one sample can read; the clock fields are the readings of
    [MonotonicMicros] in the order they are taken. *)
Record ProcFs := mkProcFs {
  pf_pid : Z;
  pf_status : option (list string);
  pf_kgsl_node : list string + Z;
  pf_kgsl_driver : bool;
  pf_ion_access : bool;
  pf_ion : option (list string);
  pf_fds : option FdDir;
  pf_maps : option (list string);
  pf_gpu_node : bool;
  pf_gpu_maps : option (list string);
  pf_smaps : option (list string);
  ck_status : Z * Z;
  ck_dma : Z * Z * Z;
  ck_gpu : Z * Z * Z;
}.

(** The function-local statics: 0 unknown, 1 present, 2 absent. *)
Record Latches := mkLatches { gpu_node_state : Z; ion_state : Z; kgsl_state : KgslState }.
#[global] Instance Latches_upd : Updatable Latches := λ l,
  mkLatches (gpu_node_state l) (ion_state l) (kgsl_state l).
Definition latches_init : Latches := mkLatches 0 0 kKgslUnknown.

Definition probe_latch (accessible : bool) (state : Z) : bool * Z :=
  let known := if state =? 0 then (if accessible then 1 else 2) else state in
  (known =? 1, known).

Definition GpuDeviceNodePresent (w : ProcFs) (l : Latches) : bool * Latches :=
  let '(present, st) := probe_latch (pf_gpu_node w) (gpu_node_state l) in
  (present, l <| gpu_node_state := st |>).

Definition IonProcInfoAvailable (w : ProcFs) (l : Latches) : bool * Latches :=
  let '(present, st) := probe_latch (pf_ion_access w) (ion_state l) in
  (present, l <| ion_state := st |>).

Definition ReadIonProcInfoBytes (w : ProcFs) (l : Latches) : option Z * Latches :=
  let '(available, l) := IonProcInfoAvailable w l in
  (if negb available then None else ReadIonProcInfoBytesFrom (pf_ion w) (pf_pid w), l).

(** [static_cast<uint32_t> (end - begin)] of two clock readings. *)
Definition elapsed (begin_us end_us : Z) : Z := u32 (end_us ⊟ begin_us).

Definition kMapRefreshSamples : Z := 8.

(** ** The dmabuf passes *)

Definition bump_max (m x : Z) : Z := if x >? m then x else m.

(** What the mapping pass leaves in the cache when it runs. *)
Definition map_cache_refresh (c : DmaMapCache) (bytes : Z) : DmaMapCache :=
  c <| mc_bytes := bytes |> <| mc_ever_ran := true |> <| mc_samples_since_refresh := 0 |>
    <| mc_refreshes := mc_refreshes c ⊞ 1 |> <| mc_max_bytes := bump_max (mc_max_bytes c) bytes |>.

Definition run_map_pass (into : ObservedMemSample) (map_cache : option DmaMapCache)
    (peak_total_bytes : Z) : bool :=
  match map_cache with
  | None => true
  | Some c =>
      let provisional := (rss_bytes into ⊞ dma_fd_bytes into) ⊞ mc_bytes c in
      negb (mc_ever_ran c) || (provisional >=? peak_total_bytes) ||
      (mc_samples_since_refresh c >=? kMapRefreshSamples)
  end.

Definition ReadSelfDmaBytesGated (w : ProcFs) (l : Latches) (set : DmaInodeSet)
    (into : ObservedMemSample) (map_cache : option DmaMapCache) (peak_total_bytes : Z) :
    Z * Latches * DmaInodeSet * ObservedMemSample * option DmaMapCache :=
  let '(begin_us, fds_done_us, maps_done_us) := ck_dma w in
  let '(ion, l) := ReadIonProcInfoBytes w l in
  match ion with
  | Some ion_bytes =>
      (ion_bytes, l, set,
       into <| dma_source := DmaSource.IonProcInfo |> <| dma_fd_bytes := ion_bytes |>
            <| dma_map_bytes := 0 |> <| fd_us := elapsed begin_us fds_done_us |>, map_cache)
  | None =>
      let p := ReadDmaBytesFromFds (pf_fds w) set false in
      let into := into <| dma_fd_bytes := pass_total p |>
                       <| fd_us := elapsed begin_us fds_done_us |> in
      let '(into, set, saw, map_cache) :=
        if run_map_pass into map_cache peak_total_bytes then
          let q := ReadDmaBytesFromMaps (pf_maps w) (pass_set p) (saw_any p) in
          (into <| dma_map_bytes := pass_total q |>
                <| map_us := elapsed fds_done_us maps_done_us |>,
           pass_set q, saw_any q, (λ c, map_cache_refresh c (pass_total q)) <$> map_cache)
        else
          let c := default map_cache_init map_cache in
          (into <| dma_map_bytes := mc_bytes c |>, pass_set p,
           saw_any p || negb (mc_max_bytes c =? 0),
           (λ c, c <| mc_samples_since_refresh := u32 (mc_samples_since_refresh c + 1) |>)
             <$> map_cache) in
      let into := into <| dma_source := if saw : bool then DmaSource.FdAndMaps else DmaSource.None |> in
      (dma_fd_bytes into ⊞ dma_map_bytes into, l, set, into, map_cache)
  end.

(** ** The GPU figure *)

Definition ReadSelfKgslGpuBytes (w : ProcFs) (l : Latches) (into : ObservedMemSample) :
    Z * Latches * ObservedMemSample :=
  let '(r, st) := ReadSelfKgslKernel (pf_kgsl_node w) (pf_kgsl_driver w) (kgsl_state l) in
  let l := l <| kgsl_state := st |> in
  match r with
  | None => (0, l, into)
  | Some bytes =>
      (bytes, l, into <| gpu_bytes := bytes |> <| gpu_source := GpuMmapSource.Kgsl |>)
  end.

Definition GpuSampleNeedsRead (cache : GpuMmapCache) (mapped_bytes : Z) : bool :=
  if (mapped_bytes =? 0) && negb (gc_have_read cache) then false
  else if negb (gc_have_read cache) then true
  else negb (mapped_bytes =? gc_mapped_at_read cache).

(** A successful smaps reading taken at [mapped] bytes. *)
Definition gpu_cache_read (c : GpuMmapCache) (bytes mapped : Z) : GpuMmapCache :=
  c <| gc_bytes := bytes |> <| gc_mapped_at_read := mapped |> <| gc_have_read := true |>
    <| gc_reads := gc_reads c ⊞ 1 |> <| gc_max_bytes := bump_max (gc_max_bytes c) bytes |>.

Definition gpu_cache_failure (c : GpuMmapCache) : GpuMmapCache :=
  c <| gc_read_failures := gc_read_failures c ⊞ 1 |>.

Definition with_gpu (into : ObservedMemSample) (bytes : Z) (source : GpuMmapSource.t) :
    ObservedMemSample := into <| gpu_bytes := bytes |> <| gpu_source := source |>.

(** With the device node there: maps gives the mapped bytes, smaps the figure
    when the mapped bytes moved since it was last read. *)
Definition gpu_with_node (w : ProcFs) (into : ObservedMemSample) (cache : option GpuMmapCache) :
    ObservedMemSample * option GpuMmapCache :=
  let '(begin_us, mapped_us, done_us) := ck_gpu w in
  let into := into <| gpu_us := elapsed begin_us mapped_us |> in
  match ReadGpuMappedBytesFrom (pf_gpu_maps w) with
  | None =>
      match cache with
      | Some c =>
          let c := gpu_cache_failure c in
          if gc_have_read c then (with_gpu into (gc_bytes c) GpuMmapSource.Maps, Some c)
          else (with_gpu into 0 GpuMmapSource.Unprobed, Some c)
      | None => (with_gpu into 0 GpuMmapSource.Unprobed, None)
      end
  | Some mapped =>
      match cache with
      | None =>
          let '(ok, r) := ReadGpuSmapsReading (pf_smaps w) in
          if negb ok then (with_gpu into 0 GpuMmapSource.Unprobed, None)
          else (with_gpu into (GpuBytesFromReading r (rss_bytes into)) GpuMmapSource.Maps, None)
      | Some c =>
          let c :=
            if GpuSampleNeedsRead c mapped then
              let '(ok, r) := ReadGpuSmapsReading (pf_smaps w) in
              if ok : bool then gpu_cache_read c (GpuBytesFromReading r (rss_bytes into)) mapped
              else gpu_cache_failure c
            else c in
          ((with_gpu into (gc_bytes c) GpuMmapSource.Maps) <| gpu_us := elapsed begin_us done_us |>,
           Some c)
      end
  end.

(** The bytes returned are the [gpu_bytes] of the sample. *)
Definition ReadSelfGpuMmapBytesGated (w : ProcFs) (l : Latches) (into : ObservedMemSample)
    (cache : option GpuMmapCache) : Latches * ObservedMemSample * option GpuMmapCache :=
  if from_option gc_probed_absent false cache
  then (l, with_gpu into 0 GpuMmapSource.NotApplicable, cache)
  else
    let '(present, l) := GpuDeviceNodePresent w l in
    if negb present
    then (l, with_gpu into 0 GpuMmapSource.NotApplicable,
          (λ c, c <| gc_probed_absent := true |>) <$> cache)
    else let '(into, cache) := gpu_with_node w into cache in (l, into, cache).

(** ** One sample *)

Record Caches := mkCaches {
  c_latches : Latches;
  c_inodes : DmaInodeSet;
  c_map : option DmaMapCache;
  c_gpu : option GpuMmapCache;
}.

Definition is_kgsl (s : GpuMmapSource.t) : bool :=
  match s with GpuMmapSource.Kgsl => true | _ => false end.

Definition ReadObservedMemoryGated (w : ProcFs) (c : Caches) (peak_total_bytes : Z) :
    ObservedMemSample * Caches :=
  let '(begin_us, status_done_us) := ck_status w in
  let rss := ReadSelfRss (pf_status w) in
  let sample := sample_init <| status_us := elapsed begin_us status_done_us |> in
  if negb (rss_valid rss) then (sample, c)
  else
    let '(b, l, sample) := ReadSelfKgslGpuBytes w (c_latches c) sample in
    let kgsl := negb (b =? 0) || is_kgsl (gpu_source sample) in
    let sample := sample <| rss_bytes := (if kgsl then anon_kb rss else vm_rss_kb rss) ⊠ 1024 |> in
    let set := ResetDmaInodeSet (c_inodes c) in
    let '(bytes, l, set, sample, mc) :=
      ReadSelfDmaBytesGated w l set sample (c_map c) peak_total_bytes in
    let sample := sample <| dma_bytes := bytes |> in
    let '(l, sample, gc) :=
      if kgsl then (l, sample, c_gpu c) else ReadSelfGpuMmapBytesGated w l sample (c_gpu c) in
    (sample <| sample_valid := true |>, mkCaches l set mc gc).

(** [ReadObservedMemory]: no caches, both passes forced. *)
Definition ReadObservedMemory (w : ProcFs) (l : Latches) (set : DmaInodeSet) :
    ObservedMemSample * Caches :=
  ReadObservedMemoryGated w (mkCaches l set None None) 0.

(** ** What the caches keep *)

Definition map_cache_inv (c : DmaMapCache) : Prop :=
  mc_bytes c ≤ mc_max_bytes c ∧ 0 ≤ mc_samples_since_refresh c ≤ kMapRefreshSamples.

Definition gpu_cache_inv (c : GpuMmapCache) : Prop :=
  gc_bytes c ≤ gc_max_bytes c ∧ (gc_have_read c = false → gc_bytes c = 0).

Definition caches_inv (c : Caches) : Prop :=
  inode_set_ready (c_inodes c) ∧ from_option map_cache_inv True (c_map c) ∧
  from_option gpu_cache_inv True (c_gpu c).

Lemma bump_max_spec m x : bump_max m x = Z.max m x.
Proof. unfold bump_max. destruct (Z.gtb_spec x m); lia. Qed.

Lemma run_map_pass_false into mc peak :
  run_map_pass into mc peak = false →
  ∃ c, mc = Some c ∧ mc_ever_ran c = true ∧
    (rss_bytes into ⊞ dma_fd_bytes into) ⊞ mc_bytes c < peak ∧
    mc_samples_since_refresh c < kMapRefreshSamples.
Proof.
  destruct mc as [c|]; cbn; [|done]. intros H. bool_hyps. exists c.
  rewrite Z.geb_leb in *. bool_hyps. by split_and!.
Qed.

(** The dmabuf part of a sample. *)
Lemma dma_gated_spec w l set into mc peak :
  inode_set_inv set → from_option map_cache_inv True mc →
  let '(bytes, l', set', into', mc') := ReadSelfDmaBytesGated w l set into mc peak in
  inode_set_inv set' ∧ from_option map_cache_inv True mc' ∧
  bytes = (if decide (dma_source into' = DmaSource.IonProcInfo) then dma_fd_bytes into'
           else dma_fd_bytes into' ⊞ dma_map_bytes into') ∧
  rss_bytes into' = rss_bytes into ∧ gpu_bytes into' = gpu_bytes into ∧
  gpu_source into' = gpu_source into ∧
  (dma_source into' ≠ DmaSource.IonProcInfo →
   match mc with
   | None => mc' = None
   | Some c =>
       (mc' = Some (map_cache_refresh c (dma_map_bytes into'))) ∨
       (mc' = Some (c <| mc_samples_since_refresh := mc_samples_since_refresh c + 1 |>) ∧
        dma_map_bytes into' = mc_bytes c ∧ mc_samples_since_refresh c < kMapRefreshSamples ∧
        (rss_bytes into ⊞ dma_fd_bytes into') ⊞ mc_bytes c < peak)
   end).
Proof.
  intros Hset Hmc. unfold ReadSelfDmaBytesGated. destruct (ck_dma w) as [[t0 t1] t2].
  destruct (ReadIonProcInfoBytes w l) as [[ion|] l']; [by split_and!|].
  set (into1 := into <| dma_fd_bytes := _ |> <| fd_us := _ |>).
  pose proof (fd_pass_inv (pf_fds w) set false Hset) as Hfd.
  destruct (run_map_pass into1 mc peak) eqn:Erun.
  - pose proof (map_pass_inv (pf_maps w) _ (saw_any (ReadDmaBytesFromFds (pf_fds w) set false)) Hfd).
    cbn. split_and!; try done.
    + destruct mc as [c|]; [|done]. cbn in *. unfold map_cache_inv. cbn.
      rewrite bump_max_spec. unfold kMapRefreshSamples. lia.
    + by rewrite decide_False by (case_match; done).
    + intros _. destruct mc as [c|]; [|done]. by left.
  - destruct (run_map_pass_false _ _ _ Erun) as (c & -> & Hever & Hpeak & Hs). cbn in *.
    destruct Hmc as [Hmax Hsince].
    assert (u32 (mc_samples_since_refresh c + 1) = mc_samples_since_refresh c + 1) as ->.
    { apply Z.mod_small. unfold kMapRefreshSamples in *. lia. }
    split_and!; try done; try lia.
    + unfold map_cache_inv. cbn. lia.
    + by rewrite decide_False by (case_match; done).
    + intros _. by right.
Qed.

Lemma gpu_with_node_spec w into cache :
  from_option gpu_cache_inv True cache →
  let '(into', cache') := gpu_with_node w into cache in
  from_option gpu_cache_inv True cache' ∧ rss_bytes into' = rss_bytes into ∧
  dma_bytes into' = dma_bytes into ∧ dma_fd_bytes into' = dma_fd_bytes into ∧
  dma_map_bytes into' = dma_map_bytes into ∧ dma_source into' = dma_source into ∧
  gpu_source into' ≠ GpuMmapSource.Kgsl.
Proof.
  intros Hc. unfold gpu_with_node. destruct (ck_gpu w) as [[t0 t1] t2].
  destruct (ReadGpuMappedBytesFrom (pf_gpu_maps w)) as [mapped|].
  - destruct cache as [c|]; cbn.
    + split_and!; try done. cbn in Hc. destruct Hc as [H1 H2].
      destruct (GpuSampleNeedsRead c mapped); [|done].
      destruct (ReadGpuSmapsReading (pf_smaps w)) as [[] r]; [|done].
      unfold gpu_cache_inv. cbn. rewrite bump_max_spec. split; [lia|done].
    + destruct (ReadGpuSmapsReading (pf_smaps w)) as [[] r]; by split_and!.
  - destruct cache as [c|]; cbn; [|by split_and!].
    destruct (gc_have_read c) eqn:E; split_and!; try done.
Qed.

Lemma gpu_gated_spec w l into cache :
  from_option gpu_cache_inv True cache →
  let '(l', into', cache') := ReadSelfGpuMmapBytesGated w l into cache in
  from_option gpu_cache_inv True cache' ∧ rss_bytes into' = rss_bytes into ∧
  dma_bytes into' = dma_bytes into ∧ dma_fd_bytes into' = dma_fd_bytes into ∧
  dma_map_bytes into' = dma_map_bytes into ∧ dma_source into' = dma_source into ∧
  gpu_source into' ≠ GpuMmapSource.Kgsl.
Proof.
  intros Hc. unfold ReadSelfGpuMmapBytesGated.
  destruct (from_option gc_probed_absent false cache); [by split_and!|].
  destruct (GpuDeviceNodePresent w l) as [[] l'].
  - pose proof (gpu_with_node_spec w into cache Hc) as H. cbn [negb].
    destruct (gpu_with_node w into cache). exact H.
  - cbn. split_and!; try done. by destruct cache.
Qed.

(** Everything a sample says about itself and leaves in the caches. *)
Lemma sample_spec w c peak :
  caches_inv c → rss_valid (ReadSelfRss (pf_status w)) = true →
  let '(s, c') := ReadObservedMemoryGated w c peak in
  let rss := ReadSelfRss (pf_status w) in
  let node := (ReadSelfKgslKernel (pf_kgsl_node w) (pf_kgsl_driver w)
                 (kgsl_state (c_latches c))).1 in
  caches_inv c' ∧ sample_valid s = true ∧
  match node with
  | Some b => rss_bytes s = anon_kb rss ⊠ 1024 ∧ gpu_bytes s = b ∧
              gpu_source s = GpuMmapSource.Kgsl ∧ c_gpu c' = c_gpu c
  | None => rss_bytes s = vm_rss_kb rss ⊠ 1024 ∧ gpu_source s ≠ GpuMmapSource.Kgsl
  end ∧
  dma_bytes s = (if decide (dma_source s = DmaSource.IonProcInfo) then dma_fd_bytes s
                 else dma_fd_bytes s ⊞ dma_map_bytes s) ∧
  (dma_source s ≠ DmaSource.IonProcInfo →
   match c_map c with
   | None => c_map c' = None
   | Some mc =>
       (c_map c' = Some (map_cache_refresh mc (dma_map_bytes s))) ∨
       (c_map c' = Some (mc <| mc_samples_since_refresh := mc_samples_since_refresh mc + 1 |>) ∧
        dma_map_bytes s = mc_bytes mc ∧ mc_samples_since_refresh mc < kMapRefreshSamples ∧
        (rss_bytes s ⊞ dma_fd_bytes s) ⊞ mc_bytes mc < peak)
   end).
Proof.
  intros (Hino & Hmap & Hgpu) Hvalid. unfold ReadObservedMemoryGated, ReadSelfKgslGpuBytes.
  destruct (ck_status w) as [t0 t1]. rewrite Hvalid. cbn [negb].
  destruct (ReadSelfKgslKernel _ _ _) as [node st]. cbn [fst].
  set (sample := sample_init <| status_us := _ |>).
  pose proof (ResetDmaInodeSet_inv _ Hino) as (Hset & _).
  destruct node as [b|].
  - set (s1 := sample <| gpu_bytes := b |> <| gpu_source := GpuMmapSource.Kgsl |>).
    replace (negb (b =? 0) || is_kgsl (gpu_source s1)) with true by (by destruct (b =? 0)).
    set (s2 := s1 <| rss_bytes := _ |>).
    pose proof (dma_gated_spec w ((c_latches c) <| kgsl_state := st |>) _ s2 (c_map c) peak Hset Hmap)
      as Hdma.
    destruct (ReadSelfDmaBytesGated _ _ _ _ _ _) as [[[[bytes l'] set'] s3] mc'].
    destruct Hdma as (Hset' & Hmc' & Hb & Hrss & Hg & Hgs & Hcase).
    rewrite <-Hrss in Hcase.
    split; [split; [by apply inode_set_inv_ready|by split]|]. by split_and!.
  - cbn [negb orb Z.eqb is_kgsl gpu_source sample sample_init].
    set (s2 := sample <| rss_bytes := _ |>).
    pose proof (dma_gated_spec w ((c_latches c) <| kgsl_state := st |>) _ s2 (c_map c) peak Hset Hmap)
      as Hdma.
    destruct (ReadSelfDmaBytesGated _ _ _ _ _ _) as [[[[bytes l'] set'] s3] mc'].
    destruct Hdma as (Hset' & Hmc' & Hb & Hrss & Hg & Hgs & Hcase).
    pose proof (gpu_gated_spec w l' (s3 <| dma_bytes := bytes |>) (c_gpu c) Hgpu) as H.
    cbn [negb orb Z.eqb is_kgsl gpu_source sample sample_init] in H |- *.
    destruct (ReadSelfGpuMmapBytesGated _ _ _ _) as [[l'' s4] gc'].
    destruct H as (Hgc & Hr4 & Hd4 & Hf4 & Hm4 & Hs4 & Hk4). cbn in Hr4, Hd4, Hf4, Hm4, Hs4.
    cbn. rewrite Hr4, Hd4, Hf4, Hm4, Hs4. rewrite <-Hrss in Hcase.
    split; [split; [by apply inode_set_inv_ready|by split]|]. by split_and!.
Qed.

(** One sample keeps its two accounting models apart and its caches
    consistent.  When /proc/self/status gives a resident size the sample is
    valid; if the KGSL node could be read, the host part is RssAnon and the GPU
    part the node's figure, otherwise the host part is VmRSS and the GPU part
    comes from the mappings; the device-buffer part is what the two passes (or
    the ION table alone) found.  The invariant of the inode set and of both
    caches is preserved. *)
Theorem sample_accounting w c peak :
  caches_inv c → rss_valid (ReadSelfRss (pf_status w)) = true →
  let '(s, c') := ReadObservedMemoryGated w c peak in
  let rss := ReadSelfRss (pf_status w) in
  caches_inv c' ∧ sample_valid s = true ∧
  match (ReadSelfKgslKernel (pf_kgsl_node w) (pf_kgsl_driver w) (kgsl_state (c_latches c))).1 with
  | Some b => total s = u64 (anon_kb rss * 1024 + dma_bytes s + b) ∧
              gpu_source s = GpuMmapSource.Kgsl ∧ c_gpu c' = c_gpu c
  | None => total s = u64 (vm_rss_kb rss * 1024 + dma_bytes s + gpu_bytes s) ∧
            gpu_source s ≠ GpuMmapSource.Kgsl
  end ∧
  (dma_source s ≠ DmaSource.IonProcInfo → dma_bytes s = dma_fd_bytes s ⊞ dma_map_bytes s).
Proof.
  intros Hc Hv. pose proof (sample_spec w c peak Hc Hv) as H.
  destruct (ReadObservedMemoryGated w c peak) as [s c']. cbn in H.
  destruct H as (Hc' & Hvalid & Hmodel & Hdma & _). split; [done|]. split; [done|]. split.
  - destruct (ReadSelfKgslKernel _ _ _) as [[b|] st]; cbn in *; unfold total.
    + destruct Hmodel as (-> & -> & ? & ?). split_and!; [word_eq|done..].
    + destruct Hmodel as (-> & ?). split; [word_eq|done].
  - intros Hion. by rewrite decide_False in Hdma.
Qed.

(** The mapping pass is skipped only when it cannot matter for a process
    without GPU bytes, and never for long: with a map cache, a sample either
    runs the pass (and the cache then carries its figure), or carries the last
    figure on a sample whose host, descriptor and carried mapping bytes are
    below the peak (so a sample without GPU bytes is not a new peak), at most
    eight times in a row. *)
Theorem map_pass_gate w c peak mc :
  caches_inv c → rss_valid (ReadSelfRss (pf_status w)) = true → c_map c = Some mc →
  let '(s, c') := ReadObservedMemoryGated w c peak in
  dma_source s ≠ DmaSource.IonProcInfo →
  (c_map c' = Some (map_cache_refresh mc (dma_map_bytes s))) ∨
  (c_map c' = Some (mc <| mc_samples_since_refresh := mc_samples_since_refresh mc + 1 |>) ∧
   dma_map_bytes s = mc_bytes mc ∧ mc_samples_since_refresh mc + 1 ≤ kMapRefreshSamples ∧
   (gpu_bytes s = 0 → total s < peak)).
Proof.
  intros Hc Hv Hmc. pose proof (sample_spec w c peak Hc Hv) as H.
  destruct (ReadObservedMemoryGated w c peak) as [s c']. cbn in H.
  destruct H as (_ & _ & _ & Hdma & Hcase). intros Hion. specialize (Hcase Hion).
  rewrite decide_False in Hdma by done. rewrite Hmc in Hcase.
  destruct Hcase as [?|(Hmc' & Hmap & Hs & Hpeak)]; [by left|right].
  split_and!; [done..|lia|]. intros Hg. eapply Z.le_lt_trans; [|exact Hpeak].
  apply Z.eq_le_incl. unfold total. rewrite Hg, Hdma, Hmap. word_eq.
Qed.

(** A process with 100 KiB of anonymous memory, 5 MB of KGSL memory and one
    mapped device buffer of 12 KiB. *)
Definition demo_proc : ProcFs :=
  mkProcFs 77 (Some ["VmRSS:  1000 kB" +:+ String newline ("RssAnon:  100 kB" +:+ String newline EmptyString)])
    (inl ["5000000"]) true false None None
    (Some ["7f0000002000-7f0000005000 rw-s 00000000 00:0b 99 /dmabuf:" +:+ String newline EmptyString])
    true None None (0, 1) (1, 2, 3) (3, 4, 5).

(** The caches after an earlier sample that found no mapping. *)
Definition demo_caches : Caches :=
  mkCaches latches_init inode_set_zero (Some (mkMapCache 0 0 1 0 true)) (Some gpu_cache_init).

Lemma demo_caches_inv : caches_inv demo_caches.
Proof.
  split; [apply inode_set_zero_ready|]. split; cbn; unfold map_cache_inv, gpu_cache_inv; cbn.
  - unfold kMapRefreshSamples. lia.
  - split; [lia|done].
Qed.

Lemma sample_accounting_witness :
  total (ReadObservedMemoryGated demo_proc demo_caches 0).1 = 102400 + 12288 + 5000000.
Proof.
  pose proof (sample_accounting demo_proc demo_caches 0 demo_caches_inv
    ltac:(vm_compute; reflexivity)) as H.
  destruct (ReadObservedMemoryGated demo_proc demo_caches 0) as [s c'] eqn:E.
  assert (dma_bytes s = 12288) as Hd
    by (replace s with (ReadObservedMemoryGated demo_proc demo_caches 0).1 by (by rewrite E);
        vm_compute; reflexivity).
  destruct H as (_ & _ & H & _). change (ReadSelfKgslKernel _ _ _).1 with (Some 5000000) in H.
  cbn [fst]. destruct H as [-> _]. rewrite Hd. vm_compute. reflexivity.
Defined.

(** The same process on a device without a GPU node. *)
Definition demo_proc_no_gpu : ProcFs :=
  mkProcFs 77 (pf_status demo_proc) (inr ENOENT) false false None None (pf_maps demo_proc)
    false None None (0, 1) (1, 2, 3) (3, 4, 5).

Lemma map_pass_gate_witness :
  let s := (ReadObservedMemoryGated demo_proc_no_gpu demo_caches 6000000).1 in
  dma_map_bytes s = 0 ∧ total s < 6000000.
Proof.
  pose proof (map_pass_gate demo_proc_no_gpu demo_caches 6000000 (mkMapCache 0 0 1 0 true)
    demo_caches_inv ltac:(vm_compute; reflexivity) eq_refl) as H.
  destruct (ReadObservedMemoryGated demo_proc_no_gpu demo_caches 6000000) as [s c'] eqn:E.
  assert (s = (ReadObservedMemoryGated demo_proc_no_gpu demo_caches 6000000).1) as Hs by (by rewrite E).
  assert (c' = (ReadObservedMemoryGated demo_proc_no_gpu demo_caches 6000000).2) as Hc by (by rewrite E).
  destruct H as [H|(_ & H1 & _ & H2)].
  - rewrite Hs. vm_compute. discriminate.
  - rewrite Hc in H. vm_compute in H. discriminate H.
  - split; [exact H1|]. apply H2. rewrite Hs. vm_compute. reflexivity.
Defined.

(** With GPU bytes the gate does skip samples that are new peaks: it
    compares host, descriptor and carried mapping bytes with a peak that
    includes GPU bytes.  A concrete sample exceeds the peak while the mapping
    pass is skipped and the figure it carries is stale, so the peak recorded is
    lower than the one an ungated reading gives. *)
Theorem map_gate_ignores_gpu_bytes :
  let r := ReadObservedMemoryGated demo_proc demo_caches 5050000 in
  caches_inv demo_caches ∧
  sample_valid r.1 = true ∧ 5050000 < total r.1 ∧
  (mc_refreshes <$> c_map r.2) = (mc_refreshes <$> c_map demo_caches) ∧
  total r.1 < total (ReadObservedMemory demo_proc latches_init inode_set_zero).1.
Proof.
  intros r. split; [apply demo_caches_inv|].
  split; [vm_compute; reflexivity|]. split; [vm_compute; reflexivity|].
  split; vm_compute; reflexivity.
Qed.
