(* ===== verification/Sampler.v ===== *)
(** * The peak sampler

    [NextSampleSchedule], [NextPeakThreshold] and the [ObservedPeakSampler]
    class (backtrace/src/ObservedMemory.cpp, backtrace/include/ObservedMemory.h).
    [Run] is the iteration [run_step] folded over what each pass around the loop
    observes: the readings of the clock, the process as [ProcFs] and the answer
    of the peak callback.  Atomics of one writer are plain fields. *)
From S2P Require Import Prelude CString LineReader InodeSet ProcParse Observed.

(** ** Clock *)

(** [clock_gettime] gives seconds and nanoseconds, or fails. *)
Definition MonotonicMicros (ts : option (Z * Z)) : Z :=
  match ts with
  | None => 0
  | Some (tv_sec, tv_nsec) => (tv_sec ⊠ 1000000) ⊞ (tv_nsec / 1000)
  end.

(** The request [SleepMicros] hands to [nanosleep]. *)
Definition SleepMicros (micros : Z) : Z * Z := (micros / 1000000, micros mod 1000000 * 1000).

(** ** Scheduling *)

Record SampleSchedule := mkSchedule {
  next_deadline_us : Z; skipped_slots : Z; throttled : bool;
}.

Definition NextSampleSchedule (previous_deadline_us now_us work_us interval_us : Z) :
    SampleSchedule :=
  let interval_us := if interval_us =? 0 then 1 else interval_us in
  let next := previous_deadline_us ⊞ interval_us in
  let '(next, skipped) :=
    if next <? now_us then
      let advance := (now_us - next) / interval_us ⊞ 1 in
      (next ⊞ (advance ⊠ interval_us), 0 ⊞ advance)
    else (next, 0) in
  let earliest_us := now_us ⊞ work_us in
  if next <? earliest_us then
    let advance := ((earliest_us ⊟ next ⊞ interval_us) ⊟ 1) / interval_us in
    mkSchedule (next ⊞ (advance ⊠ interval_us)) (skipped ⊞ advance) true
  else mkSchedule next skipped false.

(** ** The snapshot threshold *)

Definition kDefaultPeakStepBytes : Z := 12 * 1024 * 1024.
Definition kMinPeakStepBytes : Z := 64 * 1024.

Definition DefaultPeakStepBytes : Z := kDefaultPeakStepBytes.
Definition MinPeakStepBytes : Z := kMinPeakStepBytes.

Definition NextPeakThreshold (peak_bytes step_bytes : Z) : Z :=
  if step_bytes =? 0 then peak_bytes
  else
    let increment := peak_bytes / 4 in
    let increment := if increment >? step_bytes then step_bytes else increment in
    let increment := if increment <? kMinPeakStepBytes then kMinPeakStepBytes else increment in
    peak_bytes ⊞ increment.

(** ** The sampler object *)

Record Stats := mkStats {
  samples_ : Z; valid_samples_ : Z; snapshots_ : Z;
  total_sample_us_ : Z; max_sample_us_ : Z; total_snapshot_us_ : Z; max_snapshot_us_ : Z;
  total_status_us_ : Z; total_fd_us_ : Z; total_map_us_ : Z; total_gpu_us_ : Z;
  skipped_slots_ : Z; throttled_samples_ : Z; first_sample_us_ : Z; last_sample_us_ : Z;
  peak_total_bytes_ : Z; peak_total_rss_bytes_ : Z; peak_total_dma_bytes_ : Z;
  peak_total_dma_fd_bytes_ : Z; peak_total_dma_map_bytes_ : Z; peak_total_gpu_bytes_ : Z;
  max_rss_bytes_ : Z; max_dma_bytes_ : Z; max_gpu_bytes_ : Z;
  dma_source_ : DmaSource.t; gpu_source_ : GpuMmapSource.t; dedup_overflowed_ : bool;
}.
#[global] Instance Stats_upd : Updatable Stats := λ s,
  mkStats (samples_ s) (valid_samples_ s) (snapshots_ s) (total_sample_us_ s) (max_sample_us_ s)
    (total_snapshot_us_ s) (max_snapshot_us_ s) (total_status_us_ s) (total_fd_us_ s)
    (total_map_us_ s) (total_gpu_us_ s) (skipped_slots_ s) (throttled_samples_ s)
    (first_sample_us_ s) (last_sample_us_ s) (peak_total_bytes_ s) (peak_total_rss_bytes_ s)
    (peak_total_dma_bytes_ s) (peak_total_dma_fd_bytes_ s) (peak_total_dma_map_bytes_ s)
    (peak_total_gpu_bytes_ s) (max_rss_bytes_ s) (max_dma_bytes_ s) (max_gpu_bytes_ s)
    (dma_source_ s) (gpu_source_ s) (dedup_overflowed_ s).
Definition stats_init : Stats :=
  mkStats 0 0 0 0 0 0 0 0 0 0 0 0 0 0 0 0 0 0 0 0 0 0 0 0
    DmaSource.Unprobed GpuMmapSource.Unprobed false.

Record ObservedPeakSampler := mkSampler {
  started_ : bool;
  running_ : bool;
  thread_ : bool;           (** whether [thread_] names a thread *)
  interval_ms_ : Z;
  floor_bytes_ : Z;
  step_bytes_ : Z;
  one_shot_ : bool;
  has_callback_ : bool;     (** [on_new_peak_ != nullptr] *)
  stats_ : Stats;
  caches_ : Caches;
}.
#[global] Instance ObservedPeakSampler_upd : Updatable ObservedPeakSampler := λ s,
  mkSampler (started_ s) (running_ s) (thread_ s) (interval_ms_ s) (floor_bytes_ s) (step_bytes_ s)
    (one_shot_ s) (has_callback_ s) (stats_ s) (caches_ s).
Definition sampler_init : ObservedPeakSampler :=
  mkSampler false false false 0 0 0 false false stats_init
    (mkCaches latches_init inode_set_zero (Some map_cache_init) (Some gpu_cache_init)).

(** [created] is whether [pthread_create] succeeds. *)
Definition Start (interval_ms floor_bytes step_bytes : Z) (one_shot has_callback created : bool)
    (s : ObservedPeakSampler) : bool * ObservedPeakSampler :=
  if (interval_ms =? 0) || started_ s then (false, s)
  else
    let s := s <| interval_ms_ := interval_ms |> <| floor_bytes_ := floor_bytes |>
               <| step_bytes_ := step_bytes |> <| one_shot_ := one_shot |>
               <| has_callback_ := has_callback |> <| running_ := true |> in
    if negb created then (false, s <| running_ := false |>)
    else (true, s <| thread_ := true |> <| started_ := true |>).

(** Stopping joins the thread, which leaves its loop as [running_] is down. *)
Definition Stop (s : ObservedPeakSampler) : ObservedPeakSampler :=
  if negb (started_ s) then s else s <| running_ := false |> <| started_ := false |>.

Definition ResetAfterForkInChild (s : ObservedPeakSampler) : ObservedPeakSampler :=
  s <| running_ := false |> <| started_ := false |> <| thread_ := false |>.

Definition kMinStaleUs : Z := 2 * 1000 * 1000.

Definition Stalled (now_us : Z) (s : ObservedPeakSampler) : bool :=
  if negb (started_ s) || negb (running_ s) then false
  else
    let last := last_sample_us_ (stats_ s) in
    if last =? 0 then false
    else
      let stale_us := (interval_ms_ s ⊠ 1000) ⊠ 20 in
      let stale_us := if stale_us <? kMinStaleUs then kMinStaleUs else stale_us in
      now_us >? last ⊞ stale_us.

(** ** The sampling loop *)

(** What one pass around the loop sees: the process, the clock before the read,
    after it, after a snapshot and at the end, and the callback's answer. *)
Record Tick := mkTick {
  tk_proc : ProcFs;
  tk_begin : Z;
  tk_read_done : Z;
  tk_snapshot_done : Z;
  tk_work_done : Z;
  tk_retained : bool;
}.

(** The locals of [Run] that survive an iteration. *)
Record RunState := mkRun { rs_sampler : ObservedPeakSampler; next_threshold : Z; next_deadline : Z }.

Definition run_begin (now_us : Z) (s : ObservedPeakSampler) : RunState :=
  mkRun s (floor_bytes_ s) now_us.

(** The figures every sample updates. *)
Definition count_sample (sample : ObservedMemSample) (begin_us read_done_us : Z) (st : Stats) : Stats :=
  let read_us := read_done_us ⊟ begin_us in
  st <| samples_ := samples_ st ⊞ 1 |>
     <| first_sample_us_ := if first_sample_us_ st =? 0 then begin_us else first_sample_us_ st |>
     <| last_sample_us_ := read_done_us |>
     <| total_sample_us_ := total_sample_us_ st ⊞ read_us |>
     <| max_sample_us_ := bump_max (max_sample_us_ st) read_us |>
     <| total_status_us_ := total_status_us_ st ⊞ status_us sample |>
     <| total_fd_us_ := total_fd_us_ st ⊞ fd_us sample |>
     <| total_map_us_ := total_map_us_ st ⊞ map_us sample |>
     <| total_gpu_us_ := total_gpu_us_ st ⊞ gpu_us sample |>.

(** The figures a valid sample updates. *)
Definition count_valid (sample : ObservedMemSample) (overflowed : bool) (st : Stats) : Stats :=
  st <| valid_samples_ := valid_samples_ st ⊞ 1 |>
     <| dma_source_ := dma_source sample |> <| gpu_source_ := gpu_source sample |>
     <| dedup_overflowed_ := if overflowed : bool then true else dedup_overflowed_ st |>
     <| max_rss_bytes_ := bump_max (max_rss_bytes_ st) (rss_bytes sample) |>
     <| max_dma_bytes_ := bump_max (max_dma_bytes_ st) (dma_bytes sample) |>
     <| max_gpu_bytes_ := bump_max (max_gpu_bytes_ st) (gpu_bytes sample) |>.

(** A new highest total and its parts. *)
Definition raise_peak (sample : ObservedMemSample) (st : Stats) : Stats :=
  st <| peak_total_bytes_ := total sample |>
     <| peak_total_rss_bytes_ := rss_bytes sample |> <| peak_total_dma_bytes_ := dma_bytes sample |>
     <| peak_total_dma_fd_bytes_ := dma_fd_bytes sample |>
     <| peak_total_dma_map_bytes_ := dma_map_bytes sample |>
     <| peak_total_gpu_bytes_ := gpu_bytes sample |>.

Definition count_snapshot (snapshot_us : Z) (st : Stats) : Stats :=
  st <| total_snapshot_us_ := total_snapshot_us_ st ⊞ snapshot_us |>
     <| max_snapshot_us_ := bump_max (max_snapshot_us_ st) snapshot_us |>.

(** The threshold after the callback was asked at [t]. *)
Definition threshold_after (one_shot retained : bool) (step t threshold : Z) : Z :=
  if one_shot then (if retained then SIZE_MAX else threshold) else NextPeakThreshold t step.

(** One iteration; the request made to the callback, if any. *)
Definition run_step (rs : RunState) (tk : Tick) : RunState * ObservedMemSample * bool :=
  let s := rs_sampler rs in
  let '(sample, caches) :=
    ReadObservedMemoryGated (tk_proc tk) (caches_ s) (peak_total_bytes_ (stats_ s)) in
  let st := count_sample sample (tk_begin tk) (tk_read_done tk) (stats_ s) in
  let '(st, threshold, asked) :=
    if sample_valid sample then
      let st := count_valid sample (set_overflowed (c_inodes caches)) st in
      if total sample >? peak_total_bytes_ st then
        let st := raise_peak sample st in
        if has_callback_ s && (total sample >? next_threshold rs) then
          let st := st <| snapshots_ := snapshots_ st ⊞ 1 |> in
          (count_snapshot (tk_snapshot_done tk ⊟ tk_read_done tk) st,
           threshold_after (one_shot_ s) (tk_retained tk) (step_bytes_ s) (total sample)
             (next_threshold rs), true)
        else (st, next_threshold rs, false)
      else (st, next_threshold rs, false)
    else (st, next_threshold rs, false) in
  let schedule := NextSampleSchedule (next_deadline rs) (tk_work_done tk)
                    (tk_work_done tk ⊟ tk_begin tk) (interval_ms_ s ⊠ 1000) in
  let st := st <| skipped_slots_ := if negb (skipped_slots schedule =? 0)
                                    then skipped_slots_ st ⊞ skipped_slots schedule
                                    else skipped_slots_ st |>
               <| throttled_samples_ := if throttled schedule then throttled_samples_ st ⊞ 1
                                        else throttled_samples_ st |> in
  (mkRun (s <| stats_ := st |> <| caches_ := caches |>) threshold (next_deadline_us schedule),
   sample, asked).

(** The loop while [running_] holds: the samples read and, of those the
    callback was asked about, whether it retained a snapshot. *)
Fixpoint run (rs : RunState) (tks : list Tick) :
    RunState * list (ObservedMemSample * option bool) :=
  match tks with
  | [] => (rs, [])
  | tk :: tks =>
      let '(rs, sample, asked) := run_step rs tk in
      let '(rs, log) := run rs tks in
      (rs, (sample, if asked : bool then Some (tk_retained tk) else None) :: log)
  end.

(** One slice of the wait for the deadline; [None] when it has come. *)
Definition kMaxSliceUs : Z := 10000.
Definition sleep_slice (now_us deadline_us : Z) : option Z :=
  if now_us >=? deadline_us then None
  else
    let remaining_us := deadline_us ⊟ now_us in
    Some (if remaining_us >? kMaxSliceUs then kMaxSliceUs else remaining_us).

(** ** Scheduling keeps the grid *)

(** Division rounded down and up, as multiples. *)
Lemma floor_multiple a i : 0 ≤ a → 0 < i → 0 ≤ a / i ∧ a / i * i ≤ a < (a / i + 1) * i.
Proof.
  intros Ha Hi. pose proof (Z.div_mod a i ltac:(lia)). pose proof (Z.mod_pos_bound a i Hi).
  split; [apply Z.div_pos; lia|]. lia.
Qed.

Lemma ceil_multiple a i :
  0 < a → 0 < i → let q := (a + i - 1) / i in 1 ≤ q ∧ a ≤ q * i < a + i.
Proof.
  intros Ha Hi q. destruct (floor_multiple (a + i - 1) i ltac:(lia) Hi) as [H1 H2].
  fold q in H1, H2. split; [|lia]. destruct (decide (q = 0)) as [E|]; [|lia]. rewrite E in H2. lia.
Qed.

Lemma mul_u64_small q i b : 0 ≤ q → 0 < i → q * i ≤ b → b < 2 ^ 64 → u64 (q * i) = q * i ∧ q ≤ b.
Proof.
  intros. assert (q * 1 ≤ q * i) by (apply Z.mul_le_mono_nonneg_l; lia).
  split; [apply u64_small|]; lia.
Qed.

(** The schedule stays on its grid: the next deadline is a whole number
    [k >= 1] of intervals after the previous one, [k - 1] slots are reported as
    skipped, the next sample starts no sooner after this one ended than this
    one took, no slot is skipped that could still have been served, and the
    sample is reported as throttled only when the duty cap moved it. *)
Theorem schedule_on_grid prev now work interval :
  0 ≤ prev → 0 ≤ now → 0 ≤ work → 0 < interval →
  prev + interval < 2 ^ 64 → now + work + interval < 2 ^ 64 →
  let s := NextSampleSchedule prev now work interval in
  ∃ k, 1 ≤ k ∧ next_deadline_us s = prev + k * interval ∧ skipped_slots s = k - 1 ∧
  now + work ≤ next_deadline_us s ∧
  (1 < k → next_deadline_us s - interval < now + work ∨ next_deadline_us s - interval ≤ now) ∧
  (throttled s = true → next_deadline_us s - interval < now + work).
Proof.
  intros Hp Hn Hw Hi Hpi Hnw s. subst s. unfold NextSampleSchedule. cbv zeta.
  destruct (Z.eqb_spec interval 0) as [|_]; [lia|].
  rewrite (u64_small (prev + interval)), (u64_small (now + work)) by lia.
  (** the slots that elapsed during the sample *)
  assert (∃ k1 next, (if prev + interval <? now
      then (prev + interval ⊞ (((now - (prev + interval)) / interval ⊞ 1) ⊠ interval),
            0 ⊞ ((now - (prev + interval)) / interval ⊞ 1))
      else (prev + interval, 0)) = (next, k1) ∧ 0 ≤ k1 ∧ next = prev + (k1 + 1) * interval ∧
      next ≤ Z.max (prev + interval) (now + interval) ∧
      (0 < k1 → next - interval ≤ now) ∧ now ≤ next) as (k1 & next & -> & Hk1 & Hnext & Hmax & Hle & Hge).
  { destruct (Z.ltb_spec (prev + interval) now); [|exists 0, (prev + interval); split_and!; lia || done].
    set (a := now - (prev + interval)). destruct (floor_multiple a interval) as [H1 H2]; [lia..|].
    destruct (mul_u64_small (a / interval + 1) interval (now + interval)) as [E Hq]; [lia..|].
    exists (a / interval + 1), (prev + interval + (a / interval + 1) * interval).
    fold a. rewrite (u64_small (a / interval + 1)) by lia. rewrite E.
    rewrite !u64_small by lia. split_and!; try done; lia. }
  destruct (Z.ltb_spec next (now + work)) as [Hlt|Hge2]; cbn [next_deadline_us skipped_slots throttled].
  - rewrite (u64_small (now + work - next)) by lia.
    rewrite (u64_small (now + work - next + interval)) by lia.
    rewrite (u64_small (now + work - next + interval - 1)) by lia.
    destruct (ceil_multiple (now + work - next) interval) as [Hq1 Hq2]; [lia..|].
    set (q := (now + work - next + interval - 1) / interval) in *.
    destruct (mul_u64_small q interval (now + work + interval)) as [E Hq]; [lia..|].
    assert (0 ≤ k1 * interval) by (apply Z.mul_nonneg_nonneg; lia).
    destruct (mul_u64_small (k1 + q) interval (now + work + interval)) as [_ Hk]; [lia..|].
    rewrite E, (u64_small (next + q * interval)), (u64_small (k1 + q)) by lia.
    exists (k1 + 1 + q). split_and!; lia.
  - exists (k1 + 1). split_and!; lia || (intros; right; lia).
Qed.

Lemma schedule_on_grid_witness :
  next_deadline_us (NextSampleSchedule 1000 1350 120 100) = 1500 ∧
  ∃ k, 1500 = 1000 + k * 100 ∧ skipped_slots (NextSampleSchedule 1000 1350 120 100) = k - 1.
Proof.
  split; [reflexivity|].
  destruct (schedule_on_grid 1000 1350 120 100) as (k & _ & H1 & H2 & _); [lia..|].
  exists k. split; [exact H1|exact H2].
Defined.

(** ** Runs of the loop *)

Lemma total_range s : 0 ≤ total s ≤ SIZE_MAX.
Proof. unfold total, SIZE_MAX. pose proof (u64_range (rss_bytes s ⊞ dma_bytes s + gpu_bytes s)). lia. Qed.

(** One iteration, as far as the peak and the callback are concerned. *)
Lemma run_step_spec rs tk :
  let '(rs', sample, asked) := run_step rs tk in
  let s := rs_sampler rs in let s' := rs_sampler rs' in
  let raises := sample_valid sample && (total sample >? peak_total_bytes_ (stats_ s)) in
  sample = (ReadObservedMemoryGated (tk_proc tk) (caches_ s) (peak_total_bytes_ (stats_ s))).1 ∧
  asked = raises && (has_callback_ s && (total sample >? next_threshold rs)) ∧
  next_threshold rs' =
    (if asked then threshold_after (one_shot_ s) (tk_retained tk) (step_bytes_ s) (total sample)
                     (next_threshold rs) else next_threshold rs) ∧
  (one_shot_ s', has_callback_ s', step_bytes_ s', floor_bytes_ s') =
    (one_shot_ s, has_callback_ s, step_bytes_ s, floor_bytes_ s) ∧
  samples_ (stats_ s') = samples_ (stats_ s) ⊞ 1 ∧
  valid_samples_ (stats_ s') =
    (if sample_valid sample then valid_samples_ (stats_ s) ⊞ 1 else valid_samples_ (stats_ s)) ∧
  snapshots_ (stats_ s') =
    (if asked then snapshots_ (stats_ s) ⊞ 1 else snapshots_ (stats_ s)) ∧
  (peak_total_bytes_ (stats_ s'), peak_total_rss_bytes_ (stats_ s'),
   peak_total_dma_bytes_ (stats_ s'), peak_total_gpu_bytes_ (stats_ s')) =
    (if raises then (total sample, rss_bytes sample, dma_bytes sample, gpu_bytes sample)
     else (peak_total_bytes_ (stats_ s), peak_total_rss_bytes_ (stats_ s),
           peak_total_dma_bytes_ (stats_ s), peak_total_gpu_bytes_ (stats_ s))) ∧
  max_rss_bytes_ (stats_ s') =
    (if sample_valid sample then Z.max (max_rss_bytes_ (stats_ s)) (rss_bytes sample)
     else max_rss_bytes_ (stats_ s)).
Proof.
  unfold run_step.
  destruct (ReadObservedMemoryGated _ _ _) as [sample caches] eqn:E. cbn [fst].
  destruct (sample_valid sample) eqn:Ev;
    cbn -[NextSampleSchedule total bump_max threshold_after]; rewrite ?Ev; [|by split_and!].
  destruct (total sample >? peak_total_bytes_ (stats_ (rs_sampler rs))) eqn:Et;
    cbn -[NextSampleSchedule total bump_max threshold_after]; rewrite ?Et, ?Ev, <-?bump_max_spec;
    [|by split_and!].
  by destruct (has_callback_ (rs_sampler rs) && (total sample >? next_threshold rs)) eqn:Ea;
    cbn -[NextSampleSchedule total bump_max threshold_after]; rewrite ?Ev, ?Et, ?Ea, <-?bump_max_spec;
    split_and!.
Qed.

(** The peak fields hold the parts of sample [b], or are all zero. *)
Definition peak_is (st : Stats) (b : option ObservedMemSample) : Prop :=
  peak_total_bytes_ st = from_option total 0 b ∧
  peak_total_rss_bytes_ st = from_option rss_bytes 0 b ∧
  peak_total_dma_bytes_ st = from_option dma_bytes 0 b ∧
  peak_total_gpu_bytes_ st = from_option gpu_bytes 0 b.

(** The first sample with the highest total of a sequence. *)
Fixpoint best_sample (b : option ObservedMemSample) (l : list ObservedMemSample) :
    option ObservedMemSample :=
  match l with
  | [] => b
  | s :: l =>
      best_sample (if sample_valid s && (total s >? from_option total 0 b) then Some s else b) l
  end.

Lemma best_sample_spec b l :
  from_option total 0 b ≤ from_option total 0 (best_sample b l) ∧
  (∀ s, s ∈ l → sample_valid s = true → total s ≤ from_option total 0 (best_sample b l)) ∧
  (best_sample b l = b ∨ ∃ s, best_sample b l = Some s ∧ s ∈ l ∧ sample_valid s = true).
Proof.
  revert b. induction l as [|s l IH]; intros b; cbn [best_sample].
  { split_and!; [done|set_solver|by left]. }
  set (b' := if sample_valid s && _ then Some s else b). destruct (IH b') as (H1 & H2 & H3).
  assert (from_option total 0 b ≤ from_option total 0 b' ∧
          (sample_valid s = true → total s ≤ from_option total 0 b') ∧
          (b' = b ∨ (b' = Some s ∧ sample_valid s = true))) as (Hb & Hs & Hc).
  { unfold b'. destruct (sample_valid s); cbn [andb]; [|split_and!; [lia|done|by left]].
    destruct (Z.gtb_spec (total s) (from_option total 0 b)); cbn [from_option];
      split_and!; auto; lia. }
  split_and!; [lia| |].
  - intros s' [->|Hin]%elem_of_cons Hv; [specialize (Hs Hv); lia|by apply H2].
  - destruct H3 as [->|(x & -> & Hx & Hv)]; [|right; exists x; split_and!; [done|by right|done]].
    destruct Hc as [->|[-> Hv]]; [by left|]. right. exists s. split_and!; [done|by left|done].
Qed.

Lemma run_peak rs tks b :
  peak_is (stats_ (rs_sampler rs)) b →
  let '(rs', log) := run rs tks in peak_is (stats_ (rs_sampler rs')) (best_sample b (log.*1)).
Proof.
  revert rs b. induction tks as [|tk tks IH]; intros rs b Hb; [done|].
  cbn [run]. pose proof (run_step_spec rs tk) as Hstep.
  destruct (run_step rs tk) as [[rs1 sample] asked].
  destruct Hstep as (_ & _ & _ & _ & _ & _ & _ & Hpeak & _).
  destruct Hb as (B1 & B2 & B3 & B4). rewrite B1, B2, B3, B4 in Hpeak.
  set (b' := if sample_valid sample && (total sample >? from_option total 0 b)
             then Some sample else b).
  specialize (IH rs1 b'). destruct (run rs1 tks) as [rs2 log]. cbn [fmap list_fmap fst best_sample].
  apply IH. unfold peak_is, b'. destruct (sample_valid sample && _); by simplify_eq.
Qed.

(** The sampler reports the true maximum of what it read: after any run from
    fresh statistics, the recorded peak parts are those of one valid sample
    whose total no valid sample exceeds, and the recorded total is the sum of
    the recorded parts; with no such sample the peak is zero and so was every
    valid total. *)
Theorem recorded_peak_is_maximum s now tks :
  stats_ s = stats_init →
  let '(rs', log) := run (run_begin now s) tks in
  let st := stats_ (rs_sampler rs') in
  peak_total_bytes_ st =
    (peak_total_rss_bytes_ st ⊞ peak_total_dma_bytes_ st) ⊞ peak_total_gpu_bytes_ st ∧
  (∀ x, x ∈ log.*1 → sample_valid x = true → total x ≤ peak_total_bytes_ st) ∧
  (peak_total_bytes_ st ≠ 0 →
   ∃ x, x ∈ log.*1 ∧ sample_valid x = true ∧ peak_total_bytes_ st = total x ∧
     peak_total_rss_bytes_ st = rss_bytes x ∧ peak_total_dma_bytes_ st = dma_bytes x ∧
     peak_total_gpu_bytes_ st = gpu_bytes x).
Proof.
  intros Hs. pose proof (run_peak (run_begin now s) tks None) as H.
  destruct (run (run_begin now s) tks) as [rs' log].
  destruct H as (H1 & H2 & H3 & H4); [cbn; by rewrite Hs|]. cbn zeta.
  destruct (best_sample_spec None (log.*1)) as (_ & Hmax & Hb).
  rewrite H1, H2, H3, H4. split_and!.
  - by destruct (best_sample None log.*1).
  - exact Hmax.
  - intros Hne. destruct Hb as [Hb|(x & Hb & Hx & Hv)]; rewrite Hb in *; [done|]. by exists x.
Qed.

(** ** Snapshot requests *)

Definition asked_totals (log : list (ObservedMemSample * option bool)) : list Z :=
  omap (λ e, (λ _, total e.1) <$> e.2) log.

Definition min_growth (step t : Z) : Z := Z.max kMinPeakStepBytes (Z.min (t / 4) step).

Lemma NextPeakThreshold_exact t step :
  0 ≤ t → 0 < step → t + min_growth step t < 2 ^ 64 →
  NextPeakThreshold t step = t + min_growth step t.
Proof.
  intros Ht Hs Hlt. unfold NextPeakThreshold. destruct (Z.eqb_spec step 0); [lia|].
  assert ((let i := if t / 4 >? step then step else t / 4 in
           if i <? kMinPeakStepBytes then kMinPeakStepBytes else i) = min_growth step t) as E.
  { unfold min_growth. destruct (Z.gtb_spec (t / 4) step); cbn zeta; case_ifs; lia. }
  cbn zeta in *. rewrite E. apply u64_small. unfold min_growth, kMinPeakStepBytes in *. lia.
Qed.

(** Each request lies above the threshold in force and above the peak so far. *)
Fixpoint spaced (step thr peak : Z) (ts : list Z) : Prop :=
  match ts with
  | [] => True
  | t :: ts => thr < t ∧ peak < t ∧ spaced step (NextPeakThreshold t step) t ts
  end.

Lemma spaced_peak step thr p p' ts : p' ≤ p → spaced step thr p ts → spaced step thr p' ts.
Proof. destruct ts; cbn; [done|]. intros ? (? & ? & ?). split_and!; (done || lia). Qed.

Lemma run_requests rs tks :
  one_shot_ (rs_sampler rs) = false →
  spaced (step_bytes_ (rs_sampler rs)) (next_threshold rs)
    (peak_total_bytes_ (stats_ (rs_sampler rs))) (asked_totals (run rs tks).2).
Proof.
  revert rs. induction tks as [|tk tks IH]; intros rs Hone; [done|]. cbn [run].
  pose proof (run_step_spec rs tk) as Hstep. destruct (run_step rs tk) as [[rs1 sample] asked].
  destruct Hstep as (_ & Hasked & Hthr & Hcfg & _ & _ & _ & Hpeak & _).
  injection Hcfg as Ho Hc Hst Hfl. specialize (IH rs1).
  destruct (run rs1 tks) as [rs2 log]. cbn [snd] in *. rewrite Ho, Hone, Hst in IH.
  specialize (IH eq_refl). unfold asked_totals in *. cbn [omap list_omap fst snd].
  destruct (sample_valid sample && _) eqn:Er; rewrite ?Er in Hasked; cbn [andb] in Hasked.
  - injection Hpeak as Hp _ _ _. rewrite Hp in IH. apply andb_true_iff in Er as [_ Hgt].
    rewrite Z.gtb_ltb in Hgt. apply Z.ltb_lt in Hgt.
    destruct asked; cbn [fmap option_fmap option_map spaced].
    + symmetry in Hasked. apply andb_true_iff in Hasked as [_ Ht].
      rewrite Z.gtb_ltb in Ht. apply Z.ltb_lt in Ht.
      rewrite Hone in Hthr. unfold threshold_after in Hthr. rewrite Hthr in IH. by split_and!.
    + rewrite Hthr in IH. eapply spaced_peak; [|exact IH]. lia.
  - injection Hpeak as Hp _ _ _. rewrite Hp in IH. subst asked. by rewrite Hthr in IH.
Qed.

Lemma spaced_app step thr p l1 a b l2 :
  spaced step thr p (l1 ++ a :: b :: l2) → NextPeakThreshold a step < b ∧ a < b.
Proof.
  revert thr p. induction l1 as [|x l1 IH]; intros thr p; cbn; [tauto|]. intros (_ & _ & H). eauto.
Qed.

Lemma spaced_above step thr p ts : spaced step thr p ts → Forall (λ t, p < t) ts.
Proof.
  revert thr p. induction ts as [|t ts IH]; intros thr p H; [constructor|].
  destruct H as (_ & Hp & Hrest). constructor; [done|].
  eapply Forall_impl; [eapply IH, Hrest|]. cbn. lia.
Qed.

(** When the run chases the maximum, the first snapshot is asked for above
    the floor, every later one at a strictly higher total than the one before,
    and, with a growth step configured, higher by at least 64 KiB and by the
    smaller of a quarter of the previous total and the step. *)
Theorem chase_snapshots_spaced s now tks :
  stats_ s = stats_init → one_shot_ s = false →
  let ts := asked_totals (run (run_begin now s) tks).2 in
  (∀ t l, ts = t :: l → floor_bytes_ s < t) ∧
  (∀ l1 a b l2, ts = l1 ++ a :: b :: l2 →
     a < b ∧ (0 < step_bytes_ s → a + min_growth (step_bytes_ s) a < 2 ^ 64 →
              a + min_growth (step_bytes_ s) a < b)).
Proof.
  intros Hs Hone ts. pose proof (run_requests (run_begin now s) tks Hone) as H.
  cbn [rs_sampler next_threshold run_begin] in H. fold ts in H. split.
  - intros t l E. rewrite E in H. apply H.
  - intros l1 a b l2 E. pose proof (spaced_above _ _ _ _ H) as Hpos. rewrite E in H, Hpos.
    rewrite Hs in Hpos. apply spaced_app in H as [Hthr Hab]. split; [done|]. intros Hstep Hlt.
    rewrite <-NextPeakThreshold_exact; [done| |done..].
    apply Forall_app in Hpos as [_ Hpos]. apply Forall_cons_1 in Hpos as [Ha _]. cbn in Ha. lia.
Qed.

Lemma run_done rs tks :
  SIZE_MAX ≤ next_threshold rs → Forall (λ e, e.2 = None) (run rs tks).2.
Proof.
  revert rs. induction tks as [|tk tks IH]; intros rs Ht; [constructor|]. cbn [run].
  pose proof (run_step_spec rs tk) as Hstep. destruct (run_step rs tk) as [[rs1 sample] asked].
  destruct Hstep as (_ & Hasked & Hthr & _). pose proof (total_range sample).
  assert (asked = false) as ->.
  { rewrite Hasked. destruct (Z.gtb_spec (total sample) (next_threshold rs)); [lia|].
    by rewrite !andb_false_r. }
  specialize (IH rs1). destruct (run rs1 tks) as [rs2 log]. cbn in *. constructor; [done|].
  apply IH. lia.
Qed.

Lemma run_one_shot rs tks l1 x l2 :
  one_shot_ (rs_sampler rs) = true → (run rs tks).2 = l1 ++ (x, Some true) :: l2 →
  next_threshold rs < total x ∧ Forall (λ e, e.2 = None) l2.
Proof.
  revert rs l1. induction tks as [|tk tks IH]; intros rs l1 Hone; [by destruct l1|]. cbn [run].
  pose proof (run_step_spec rs tk) as Hstep. destruct (run_step rs tk) as [[rs1 sample] asked].
  destruct Hstep as (_ & Hasked & Hthr & Hcfg & _). injection Hcfg as Ho _ _ _.
  pose proof (run_done rs1 tks) as Hdone. specialize (IH rs1).
  destruct (run rs1 tks) as [rs2 log]. cbn [snd] in *. rewrite Hone in Hthr. intros E.
  destruct l1 as [|e l1]; cbn in E; injection E as E1 E2.
  - subst sample log. destruct asked; [|done]. injection E2 as Hr. rewrite Hr in Hthr.
    symmetry in Hasked. bool_hyps. rewrite Z.gtb_ltb in *. bool_hyps. split; [lia|].
    apply Hdone. unfold threshold_after in Hthr. lia.
  - destruct (IH l1) as [H1 H2]; [by rewrite Ho|done|]. split; [|done].
    destruct asked; [|by rewrite Hthr in H1].
    symmetry in Hasked. bool_hyps. rewrite Z.gtb_ltb in *. bool_hyps.
    rewrite Hthr in H1. unfold threshold_after in H1. pose proof (total_range x).
    destruct (tk_retained tk); unfold SIZE_MAX in *; lia.
Qed.

(** A first-crossing run is over once a snapshot was retained: the retained
    one is above the floor, the callback is never asked again, and nothing
    asked for earlier had been retained. *)
Theorem one_shot_retains_once s now tks l1 x l2 :
  one_shot_ s = true → (run (run_begin now s) tks).2 = l1 ++ (x, Some true) :: l2 →
  floor_bytes_ s < total x ∧ Forall (λ e, e.2 = None) l2 ∧ Forall (λ e, e.2 ≠ Some true) l1.
Proof.
  intros Hone E. destruct (run_one_shot (run_begin now s) tks l1 x l2 Hone E) as [H1 H2].
  split_and!; [done..|]. apply Forall_forall. intros [y r] Hy Hr. cbn in Hr. subst r.
  apply list_elem_of_split in Hy as (k1 & k2 & ->).
  rewrite <-app_assoc in E. cbn in E.
  destruct (run_one_shot (run_begin now s) tks k1 y _ Hone E) as [_ H3].
  apply Forall_app in H3 as [_ H3]. by apply Forall_cons_1 in H3 as [? _].
Qed.

(** ** A concrete run *)

Definition demo_tick (kgsl : string) (retained : bool) (now : Z) : Tick :=
  mkTick (mkProcFs 77 (pf_status demo_proc) (inl [kgsl]) true false None None (pf_maps demo_proc)
            true None None (now, now) (now, now, now) (now, now, now))
    now (now + 100) (now + 150) (now + 200) retained.

Definition demo_ticks : list Tick :=
  [demo_tick "5000000" false 1000; demo_tick "4000000" false 51000;
   demo_tick "9000000" true 101000; demo_tick "9100000" true 151000].

Definition demo_sampler (one_shot : bool) : ObservedPeakSampler :=
  (Start 50 1000000 (12 * 1024 * 1024) one_shot true true sampler_init).2.

Lemma recorded_peak_is_maximum_witness :
  peak_total_bytes_ (stats_ (rs_sampler (run (run_begin 1000 (demo_sampler false)) demo_ticks).1)) =
    9214688 ∧
  Forall (λ x, total x ≤ 9214688) (run (run_begin 1000 (demo_sampler false)) demo_ticks).2.*1.
Proof.
  pose proof (recorded_peak_is_maximum (demo_sampler false) 1000 demo_ticks eq_refl) as H.
  destruct (run (run_begin 1000 (demo_sampler false)) demo_ticks) as [rs log] eqn:E.
  assert (peak_total_bytes_ (stats_ (rs_sampler rs)) = 9214688) as Hp.
  { replace rs with (run (run_begin 1000 (demo_sampler false)) demo_ticks).1 by (by rewrite E).
    vm_compute. reflexivity. }
  assert (forallb sample_valid log.*1 = true) as Hv.
  { replace log with (run (run_begin 1000 (demo_sampler false)) demo_ticks).2 by (by rewrite E).
    vm_compute. reflexivity. }
  destruct H as (_ & H & _). rewrite Hp in H. split; [exact Hp|].
  apply Forall_forall. intros x Hx. apply H; [exact Hx|].
  rewrite forallb_forall in Hv. apply Hv. by apply list_elem_of_In.
Defined.

Lemma chase_snapshots_spaced_witness :
  asked_totals (run (run_begin 1000 (demo_sampler false)) demo_ticks).2 = [5114688; 9114688] ∧
  5114688 + 1278672 < 9114688.
Proof.
  assert (asked_totals (run (run_begin 1000 (demo_sampler false)) demo_ticks).2 = [5114688; 9114688])
    as E by (vm_compute; reflexivity).
  destruct (chase_snapshots_spaced (demo_sampler false) 1000 demo_ticks eq_refl eq_refl) as [_ H].
  destruct (H [] 5114688 9114688 [] E) as [_ Hgrow]. split; [exact E|].
  apply Hgrow; vm_compute; reflexivity.
Defined.

Lemma one_shot_retains_once_witness :
  let log := (run (run_begin 1000 (demo_sampler true)) demo_ticks).2 in
  log.*2 = [Some false; None; Some true; None] ∧ Forall (λ e, e.2 = None) (drop 3 log).
Proof.
  intros log. split; [vm_compute; reflexivity|].
  destruct (log !! 2%nat) as [[x r]|] eqn:Hx; [|vm_compute in Hx; discriminate Hx].
  assert (r = Some true) as ->.
  { change r with (x, r).2. assert (snd <$> (log !! 2%nat) = Some (Some true)) as Hr
      by (vm_compute; reflexivity). rewrite Hx in Hr. by injection Hr. }
  apply (one_shot_retains_once (demo_sampler true) 1000 demo_ticks (take 2 log) x (drop 3 log) eq_refl).
  symmetry. apply (take_drop_middle log 2 _ Hx).
Defined.
