(* ===== verification/PointerTable.v ===== *)
(** * The live-pointer table

    The data of [PointerData] (backtrace/include/PointerData.h): live records
    sharded by pointer hash, the membership filter, the byte counters and the
    table of allocation stacks, with the critical sections of
    backtrace/src/PointerData.cpp that touch them.  The table of live records
    is an interface, [LiveTable]: the 64 shards implement it, and so does one
    map, the version the sharding replaced.  A critical section is one step;
    the counters are atomics updated inside it. *)
From S2P Require Import Prelude CString Capture Config.

(** ** Records *)

Inductive MemType := HOST | MMAP | DMA.
#[global] Instance MemType_eq_dec : EqDecision MemType.
Proof. solve_decision. Defined.

Definition is_dma (t : MemType) : bool := match t with DMA => true | _ => false end.

Record PointerInfoType := mkInfo {
  info_size : Z;
  info_hash : Z;
  info_type : MemType;
  info_time : Z * Z;        (** [timeval]: seconds and microseconds *)
}.
#[global] Instance PointerInfoType_upd : Updatable PointerInfoType := λ i,
  mkInfo (info_size i) (info_hash i) (info_type i) (info_time i).

(** [size & ~(1U << 31)]: the mask is a 32-bit value. *)
Definition RealSize (i : PointerInfoType) : Z := Z.land (info_size i) (2 ^ 31 - 1).
Definition MaxSize : Z := 2 ^ 31 - 1.

Definition kBacktraceExitIndex : Z := 0.
Definition kBacktraceEmptyIndex : Z := 1.

Definition ManglePointer (pointer : Z) : Z := Z.lxor pointer UINTPTR_MAX.
Definition DemanglePointer (pointer : Z) : Z := Z.lxor pointer UINTPTR_MAX.

Definition HashPointer (pointer : Z) : Z :=
  let hash := Z.lxor pointer (Z.shiftr pointer 33) in
  let hash := hash ⊠ 0xff51afd7ed558ccd in
  let hash := Z.lxor hash (Z.shiftr hash 33) in
  let hash := hash ⊠ 0xc4ceb9fe1a85ec53 in
  Z.lxor hash (Z.shiftr hash 33).

(** ** The table interface *)

Class LiveTable (T : Type) := {
  lt_empty : T;
  lt_find : T → Z → option PointerInfoType;
  lt_put : Z → PointerInfoType → T → T;      (** [pointers[key] = info] *)
  lt_erase : Z → T → T;
  lt_walk : T → list (Z * PointerInfoType);  (** iteration *)
  lt_view : T → gmap Z PointerInfoType;
  lt_ok : T → Prop;
}.

(** What the table promises to the tracker. *)
Class LiveTableLaws (T : Type) `{LiveTable T} : Prop := {
  lt_empty_ok : lt_ok lt_empty;
  lt_empty_view : lt_view lt_empty = ∅;
  lt_find_view t k : lt_ok t → lt_find t k = lt_view t !! k;
  lt_put_ok t k i : lt_ok t → lt_ok (lt_put k i t);
  lt_put_view t k i : lt_ok t → lt_view (lt_put k i t) = <[k := i]> (lt_view t);
  lt_erase_ok t k : lt_ok t → lt_ok (lt_erase k t);
  lt_erase_view t k : lt_ok t → lt_view (lt_erase k t) = delete k (lt_view t);
  lt_walk_view t : lt_ok t → lt_walk t ≡ₚ map_to_list (lt_view t);
}.

(** One map. *)
#[global] Instance single_table : LiveTable (gmap Z PointerInfoType) := {
  lt_empty := ∅;
  lt_find t k := t !! k;
  lt_put k i t := <[k := i]> t;
  lt_erase k t := delete k t;
  lt_walk t := map_to_list t;
  lt_view t := t;
  lt_ok _ := True;
}.

#[global] Instance single_table_laws : LiveTableLaws (gmap Z PointerInfoType).
Proof. by split. Qed.

(** ** The shards *)

Definition kPointerShards : Z := 64.

(** [ShardFor]: the index of the shard of a mangled pointer. *)
Definition ShardFor (mangled_pointer : Z) : nat :=
  Z.to_nat (Z.land (HashPointer mangled_pointer) (kPointerShards - 1)).

#[global] Arguments HashPointer : simpl never.
#[global] Arguments ShardFor : simpl never.

Record Shards := mkShards { shards_ : list (gmap Z PointerInfoType) }.

Definition shard (t : Shards) (k : Z) : gmap Z PointerInfoType := shards_ t !!! ShardFor k.

Definition on_shard (k : Z) (f : gmap Z PointerInfoType → gmap Z PointerInfoType) (t : Shards) : Shards :=
  mkShards (<[ShardFor k := f (shard t k)]> (shards_ t)).

#[global] Instance shards_table : LiveTable Shards := {
  lt_empty := mkShards (replicate (Z.to_nat kPointerShards) ∅);
  lt_find t k := shard t k !! k;
  lt_put k i t := on_shard k (insert k i) t;
  lt_erase k t := on_shard k (delete k) t;
  lt_walk t := shards_ t ≫= map_to_list;
  lt_view t := ⋃ (shards_ t);
  lt_ok t := length (shards_ t) = Z.to_nat kPointerShards ∧
    ∀ i m k x, shards_ t !! i = Some m → m !! k = Some x → ShardFor k = i;
}.

Lemma ShardFor_lt k : (ShardFor k < Z.to_nat kPointerShards)%nat.
Proof.
  unfold ShardFor, kPointerShards. pose proof (land_ones_range (HashPointer k) 6 ltac:(lia)) as H.
  change (2 ^ 6) with 64 in H. lia.
Qed.

Section shards_laws.
Implicit Types t : Shards.

Lemma shard_lookup t k : lt_ok t → shards_ t !! ShardFor k = Some (shard t k).
Proof.
  intros [Hlen _]. unfold shard. apply list_lookup_lookup_total_lt.
  rewrite Hlen. apply ShardFor_lt.
Qed.

Lemma union_lookup (l : list (gmap Z PointerInfoType)) k x :
  (⋃ l) !! k = Some x → ∃ i m, l !! i = Some m ∧ m !! k = Some x.
Proof.
  induction l as [|m l IH]; [done|]. cbn. rewrite lookup_union_Some_raw.
  intros [H|[_ H]]; [by exists 0%nat, m|].
  destruct (IH H) as (i & m' & Hi & Hm). by exists (S i), m'.
Qed.

Lemma union_lookup_unique (l : list (gmap Z PointerInfoType)) i m k x :
  l !! i = Some m → m !! k = Some x →
  (∀ j m', l !! j = Some m' → is_Some (m' !! k) → j = i) → (⋃ l) !! k = Some x.
Proof.
  revert i. induction l as [|m0 l IH]; intros i Hi Hx Huniq; [done|]. cbn.
  rewrite lookup_union_Some_raw. destruct i as [|i]; cbn in Hi; [simplify_eq; by left|].
  right. split.
  - destruct (m0 !! k) eqn:E; [|done]. exfalso.
    assert (0%nat = S i) by (apply (Huniq 0%nat m0); [done|by rewrite E]). done.
  - apply (IH i); [done..|]. intros j m' Hj Hm.
    assert (S j = S i) by (by apply (Huniq (S j) m')). lia.
Qed.

Lemma shards_find t k : lt_ok t → shard t k !! k = (⋃ (shards_ t)) !! k.
Proof.
  intros Hok. pose proof (shard_lookup t k Hok) as Hs. destruct Hok as [Hlen Hroute].
  destruct (shard t k !! k) as [x|] eqn:E; symmetry.
  - eapply union_lookup_unique; [exact Hs|exact E|]. intros j m' Hj [y Hy].
    symmetry. by eapply Hroute.
  - destruct ((⋃ shards_ t) !! k) as [x|] eqn:E'; [|done].
    apply union_lookup in E' as (i & m & Hi & Hm). pose proof (Hroute i m k x Hi Hm) as <-. congruence.
Qed.

(** An update of its own shard is an update of the union. *)
Lemma on_shard_spec t k (f : gmap Z PointerInfoType → gmap Z PointerInfoType) :
  lt_ok t → (∀ m k', k' ≠ k → f m !! k' = m !! k') →
  lt_ok (on_shard k f t) ∧
  ∀ k', (⋃ (shards_ (on_shard k f t))) !! k' =
        if decide (k' = k) then f (shard t k) !! k else (⋃ (shards_ t)) !! k'.
Proof.
  intros Hok Hf. pose proof (shard_lookup t k Hok) as Hs. pose proof Hok as [Hlen Hroute].
  assert (lt_ok (on_shard k f t)) as Hok'.
  { split; cbn; [by rewrite length_insert|]. intros i m k' x Hi Hx.
    destruct (decide (k' = k)) as [->|Hne].
    - destruct (decide (i = ShardFor k)) as [->|Hi']; [done|].
      rewrite list_lookup_insert_ne in Hi by done. by eapply Hroute.
    - apply list_lookup_insert_Some in Hi as [(<- & <- & _)|[_ Hi]]; [|by eapply Hroute].
      rewrite Hf in Hx by done. by eapply Hroute. }
  split; [done|]. intros k'. rewrite <-!shards_find by done. unfold shard at 1. cbn.
  destruct (decide (k' = k)) as [->|Hne].
  - rewrite list_lookup_total_insert_eq; [done|]. rewrite Hlen. apply ShardFor_lt.
  - destruct (decide (ShardFor k = ShardFor k')) as [E|E].
    + rewrite <-E, list_lookup_total_insert_eq by (rewrite Hlen; apply ShardFor_lt).
      rewrite Hf by done. unfold shard. by rewrite E.
    + by rewrite list_lookup_total_insert_ne.
Qed.

(** Walking the shards one by one visits every live record once. *)
Lemma shards_walk_view t : lt_ok t → lt_walk t ≡ₚ map_to_list (lt_view t).
Proof.
  intros Hok. pose proof Hok as [Hlen Hroute]. cbn.
  assert (∀ k x, (k, x) ∈ (shards_ t ≫= map_to_list) ↔ (⋃ (shards_ t)) !! k = Some x) as Hin.
  { intros k x. rewrite list_elem_of_bind. split.
    - intros (m & Hx%elem_of_map_to_list & (i & Hi)%list_elem_of_lookup).
      eapply union_lookup_unique; [done..|]. intros j m' Hj [y Hy].
      by rewrite <-(Hroute i m k x Hi Hx), <-(Hroute j m' k y Hj Hy).
    - intros (i & m & Hi & Hm)%union_lookup. exists m. split.
      + by apply elem_of_map_to_list.
      + apply list_elem_of_lookup. eauto. }
  apply NoDup_Permutation; [|apply NoDup_map_to_list|].
  - clear Hin Hok Hlen. revert Hroute. generalize (shards_ t) as l. intros l.
    assert (∀ n, (∀ i m k x, l !! i = Some m → m !! k = Some x → ShardFor k = (n + i)%nat) →
      NoDup (l ≫= map_to_list)) as H.
    { induction l as [|m l IH]; intros n Hr; [constructor|]. cbn. apply NoDup_app. split_and!.
      - apply NoDup_map_to_list.
      - intros [k x] Hx%elem_of_map_to_list (m' & Hx'%elem_of_map_to_list & Hm')%list_elem_of_bind.
        apply list_elem_of_lookup in Hm' as [i Hi].
        pose proof (Hr 0%nat m k x eq_refl Hx). pose proof (Hr (S i) m' k x Hi Hx'). lia.
      - apply (IH (S n)). intros i m' k x Hi Hx. rewrite (Hr (S i) m' k x Hi Hx). lia. }
    intros Hr. apply (H 0%nat). exact Hr.
  - intros [k x]. rewrite Hin. symmetry. apply elem_of_map_to_list.
Qed.
End shards_laws.

#[global] Instance shards_table_laws : LiveTableLaws Shards.
Proof.
  assert (∀ i : nat, ∀ m, replicate (Z.to_nat kPointerShards) (∅ : gmap Z PointerInfoType) !! i = Some m →
    m = ∅) as Hrep by (by intros i m [-> _]%lookup_replicate).
  assert (∀ t k i, lt_ok t → lt_ok (on_shard k (insert k i) t) ∧
    ⋃ (shards_ (on_shard k (insert k i) t)) = <[k:=i]> (⋃ (shards_ t))) as Hput.
  { intros t k i Hok. destruct (on_shard_spec t k (insert k i) Hok) as [H1 H2].
    { intros m k' Hne. by rewrite lookup_insert_ne. }
    split; [done|]. apply map_eq. intros k'. rewrite H2. case_decide as E; [subst|].
    - by rewrite !lookup_insert_eq.
    - by rewrite lookup_insert_ne. }
  assert (∀ t k, lt_ok t → lt_ok (on_shard k (delete k) t) ∧
    ⋃ (shards_ (on_shard k (delete k) t)) = delete k (⋃ (shards_ t))) as Herase.
  { intros t k Hok. destruct (on_shard_spec t k (delete k) Hok) as [H1 H2].
    { intros m k' Hne. by rewrite lookup_delete_ne. }
    split; [done|]. apply map_eq. intros k'. rewrite H2. case_decide as E; [subst|].
    - by rewrite !lookup_delete_eq.
    - by rewrite lookup_delete_ne. }
  split; [|done|exact shards_find|intros; by apply Hput|intros; by apply Hput
    |intros; by apply Herase|intros; by apply Herase|].
  - split; [done|]. intros i m k x Hi%Hrep Hx. by subst.
  - apply shards_walk_view.
Qed.

(** ** The membership filter *)

Definition kPointerFilterWords : Z := 2 ^ 13.

Definition filter_index0 (hash : Z) : nat := Z.to_nat (Z.land hash (kPointerFilterWords - 1)).
Definition filter_index1 (hash : Z) : nat :=
  Z.to_nat (Z.land (Z.shiftr hash 6) (kPointerFilterWords - 1)).
Definition filter_bit0 (hash : Z) : Z := Z.shiftl 1 (Z.land (Z.shiftr hash 16) 63).
Definition filter_bit1 (hash : Z) : Z := Z.shiftl 1 (Z.land (Z.shiftr hash 22) 63).

Definition MightContain (words : list Z) (ptr : Z) : bool :=
  let hash := HashPointer ptr in
  if Z.land (words !!! filter_index0 hash) (filter_bit0 hash) =? 0 then false
  else negb (Z.land (words !!! filter_index1 hash) (filter_bit1 hash) =? 0).

(** [fetch_or] on one word. *)
Definition set_bits (i : nat) (bit : Z) (words : list Z) : list Z :=
  <[i := Z.lor (words !!! i) bit]> words.

Definition MarkPointerFilter (ptr : Z) (words : list Z) : list Z :=
  let hash := HashPointer ptr in
  set_bits (filter_index1 hash) (filter_bit1 hash)
    (set_bits (filter_index0 hash) (filter_bit0 hash) words).

(** ** Byte counters *)

Record Counters := mkCounters {
  current_used : Z; current_host : Z; current_dma : Z;
  peak_tot : Z; peak_host : Z; peak_dma : Z;
}.
#[global] Instance Counters_upd : Updatable Counters := λ c,
  mkCounters (current_used c) (current_host c) (current_dma c) (peak_tot c) (peak_host c) (peak_dma c).
Definition counters_init : Counters := mkCounters 0 0 0 0 0 0.

(** Raises a maximum; [true] when it did. *)
Definition RaisePeak (peak candidate : Z) : bool * Z :=
  if candidate >? peak then (true, candidate) else (false, peak).

(** [fetch_sub] of a record's bytes from the total and from its kind. *)
Definition sub_entry (i : PointerInfoType) (c : Counters) : Counters :=
  let c := c <| current_used := current_used c ⊟ info_size i |> in
  if is_dma (info_type i) then c <| current_dma := current_dma c ⊟ info_size i |>
  else c <| current_host := current_host c ⊟ info_size i |>.

(** [fetch_add], without looking at the peaks. *)
Definition add_bytes (t : MemType) (n : Z) (c : Counters) : Counters :=
  let c := c <| current_used := current_used c ⊞ n |> in
  if is_dma t then c <| current_dma := current_dma c ⊞ n |>
  else c <| current_host := current_host c ⊞ n |>.

(** [fetch_add] followed by [RaisePeak] of the kind and of the total; whether
    the latter rose. *)
Definition add_raising (t : MemType) (n : Z) (c : Counters) : bool * Counters :=
  let c := add_bytes t n c in
  let c := if is_dma t then c <| peak_dma := (RaisePeak (peak_dma c) (current_dma c)).2 |>
           else c <| peak_host := (RaisePeak (peak_host c) (current_host c)).2 |> in
  let '(raised, p) := RaisePeak (peak_tot c) (current_used c) in
  (raised, c <| peak_tot := p |>).

(** ** Allocation stacks *)

Record FrameInfoType := mkFrameInfo {
  references : Z;
  fi_frames : list Z;
  fi_generation : Z;
  fi_state : StackCaptureState.t;
  fi_error : Z;
}.
#[global] Instance FrameInfoType_upd : Updatable FrameInfoType := λ f,
  mkFrameInfo (references f) (fi_frames f) (fi_generation f) (fi_state f) (fi_error f).
Definition frame_info_init : FrameInfoType := mkFrameInfo 0 [] 0 StackCaptureState.Empty 0.

(** [FrameKeyType] compares module generation, number of frames and frames. *)
Definition FrameKeyType : Type := Z * list Z.

(** [std::hash<FrameKeyType>]. *)
Definition frame_key_hash (key : FrameKeyType) : Z :=
  match key.2 with
  | [] => key.1
  | pc :: pcs => fold_left Z.lxor (take 4 pcs) (Z.lxor pc key.1)
  end.

Record FrameTable := mkFrameTable {
  key_to_index_ : gmap FrameKeyType Z;
  frames_ : gmap Z FrameInfoType;
  backtraces_info_ : gmap Z (list SymbolizedFrame);
  cur_hash_index_ : Z;
}.
#[global] Instance FrameTable_upd : Updatable FrameTable := λ f,
  mkFrameTable (key_to_index_ f) (frames_ f) (backtraces_info_ f) (cur_hash_index_ f).
Definition frame_table_init : FrameTable := mkFrameTable ∅ ∅ ∅ (kBacktraceEmptyIndex + 1).

Definition ShouldBacktraceAllocSize (cfg : Config) (size_bytes : Z) : bool :=
  if negb (flag_set (options cfg) BACKTRACE_SPECIFIC_SIZES) then true
  else (size_bytes >=? backtrace_min_size_bytes cfg) && (size_bytes <=? backtrace_max_size_bytes cfg).

Definition raw_frames (raw : RawStackRecord) : list Z := take (Z.to_nat (frame_count raw)) (pcs raw).

(** Under [frame_mutex_]: one more reference to the stack [raw]. *)
Definition intern_stack (raw : RawStackRecord) (f : FrameTable) : Z * FrameTable :=
  let probe := (module_generation raw, raw_frames raw) in
  match key_to_index_ f !! probe with
  | None =>
      let hash_index := cur_hash_index_ f in
      (hash_index,
       f <| cur_hash_index_ := hash_index ⊞ 1 |>
         <| frames_ := <[hash_index := mkFrameInfo 1 (raw_frames raw) (module_generation raw)
                                         (capture_state raw) (terminal_error raw)]> (frames_ f) |>
         <| key_to_index_ := <[probe := hash_index]> (key_to_index_ f) |>)
  | Some hash_index =>
      let info := default frame_info_init (frames_ f !! hash_index) in
      (hash_index,
       f <| frames_ := <[hash_index := info <| references := references info ⊞ 1 |>]> (frames_ f) |>)
  end.

(** [raw] is what [CaptureStackInto] leaves for this call. *)
Definition AddBacktrace (cfg : Config) (raw : RawStackRecord) (size_bytes : Z) (f : FrameTable) :
    Z * FrameTable :=
  if negb (ShouldBacktraceAllocSize cfg size_bytes) then (kBacktraceEmptyIndex, f)
  else if negb (flag_set (options cfg) BACKTRACE) then (kBacktraceEmptyIndex, f)
  else if (frame_count raw =? 0) || negb (IsUsable raw) then (kBacktraceEmptyIndex, f)
  else intern_stack raw f.

Definition RemoveBacktrace (cfg : Config) (hash_index : Z) (f : FrameTable) : FrameTable :=
  if hash_index <=? kBacktraceEmptyIndex then f
  else match frames_ f !! hash_index with
  | None => f
  | Some info =>
      let info := info <| references := references info ⊟ 1 |> in
      if references info =? 0 then
        let key := (fi_generation info, take (Z.to_nat kMaxAsyncRawFrames) (fi_frames info)) in
        f <| key_to_index_ := delete key (key_to_index_ f) |>
          <| frames_ := delete hash_index (frames_ f) |>
          <| backtraces_info_ := if flag_set (options cfg) BACKTRACE
                                 then delete hash_index (backtraces_info_ f)
                                 else backtraces_info_ f |>
      else f <| frames_ := <[hash_index := info]> (frames_ f) |>
  end.

(** ** The critical sections on one pointer *)

Section operations.
Context {T : Type} `{LiveTable T}.

(** The state the shard locks guard, with the atomics updated inside. *)
Record Live := mkLive { lv_table : T; lv_filter : list Z; lv_counters : Counters }.

Definition live_init : Live :=
  mkLive lt_empty (replicate (Z.to_nat kPointerFilterWords) 0) counters_init.

(** Reverses a record found at [key], if any, and erases it. *)
Definition displace (key : Z) (l : Live) : option PointerInfoType * Live :=
  match lt_find (lv_table l) key with
  | None => (None, l)
  | Some d => (Some d, mkLive (lt_erase key (lv_table l)) (lv_filter l) (sub_entry d (lv_counters l)))
  end.

(** The locked part of [Add]: the record displaced, the tracked total and
    whether it raised the peak. *)
Definition add_entry (ptr : Z) (info : PointerInfoType) (l : Live) :
    option PointerInfoType * Z * bool * Live :=
  let key := ManglePointer ptr in
  let '(displaced, l) := displace key l in
  let '(raised, c) := add_raising (info_type info) (info_size info) (lv_counters l) in
  (displaced, current_used c, raised,
   mkLive (lt_put key info (lv_table l)) (MarkPointerFilter ptr (lv_filter l)) c).

(** The counters after a record of kind [t] changed from [old] to [new] bytes. *)
Definition resize_counters (t : MemType) (old new : Z) (c : Counters) : Counters :=
  if new >=? old then
    let c := add_bytes t (new ⊟ old) c in
    if is_dma t then c <| peak_dma := (RaisePeak (peak_dma c) (current_dma c)).2 |>
    else c <| peak_host := (RaisePeak (peak_host c) (current_host c)).2 |>
  else
    let shrink := old ⊟ new in
    let c := c <| current_used := current_used c ⊟ shrink |> in
    if is_dma t then c <| current_dma := current_dma c ⊟ shrink |>
    else c <| current_host := current_host c ⊟ shrink |>.

(** The locked part of [Remap]; [None] when the old pointer is not tracked. *)
Definition remap_entry (old_ptr new_ptr new_size : Z) (l : Live) :
    option (PointerInfoType * option PointerInfoType * Z * bool * Live) :=
  let old_key := ManglePointer old_ptr in
  let new_key := ManglePointer new_ptr in
  match lt_find (lv_table l) old_key with
  | None => None
  | Some info =>
      let moved := info <| info_size := new_size |> in
      let l := mkLive (lt_erase old_key (lv_table l)) (lv_filter l) (lv_counters l) in
      let '(displaced, l) := displace new_key l in
      let c := resize_counters (info_type info) (info_size info) new_size (lv_counters l) in
      let '(raised, p) := RaisePeak (peak_tot c) (current_used c) in
      Some (info, displaced, current_used c, raised,
            mkLive (lt_put new_key moved (lv_table l)) (MarkPointerFilter new_ptr (lv_filter l))
              (c <| peak_tot := p |>))
  end.

Definition TakeEntry (ptr : Z) (l : Live) : option PointerInfoType * Live :=
  displace (ManglePointer ptr) l.

Definition RestoreEntry (ptr : Z) (info : PointerInfoType) (l : Live) : Live :=
  mkLive (lt_put (ManglePointer ptr) info (lv_table l)) (MarkPointerFilter ptr (lv_filter l))
    (add_bytes (info_type info) (info_size info) (lv_counters l)).
End operations.
#[global] Arguments Live : clear implicits.

(** ** Counters and the live records *)

Definition dma_size (i : PointerInfoType) : Z := if is_dma (info_type i) then info_size i else 0.
Definition host_size (i : PointerInfoType) : Z := if is_dma (info_type i) then 0 else info_size i.

(** The counters are the sums over a table, modulo [2^64]. *)
Definition counted (m : gmap Z PointerInfoType) (c : Counters) : Prop :=
  current_used c = u64 (map_sum info_size m) ∧
  current_dma c = u64 (map_sum dma_size m) ∧
  current_host c = u64 (map_sum host_size m).

Lemma counted_sub m k d c :
  m !! k = Some d → counted m c → counted (delete k m) (sub_entry d c).
Proof.
  intros Hk (H1 & H2 & H3). unfold counted, sub_entry.
  rewrite !map_sum_delete_default, Hk. cbn. unfold dma_size, host_size in *.
  destruct (is_dma (info_type d)); cbn; rewrite ?H1, ?H2, ?H3; split_and!; word_eq.
Qed.

Lemma counted_add m k i c :
  m !! k = None → counted m c →
  counted (<[k := i]> m) (add_bytes (info_type i) (info_size i) c).
Proof.
  intros Hk (H1 & H2 & H3). unfold counted, add_bytes.
  rewrite !map_sum_insert_None by done. unfold dma_size, host_size in *.
  destruct (is_dma (info_type i)); cbn; rewrite ?H1, ?H2, ?H3; split_and!; word_eq.
Qed.

(** Only the current figures matter. *)
Definition same_current (c c' : Counters) : Prop :=
  current_used c' = current_used c ∧ current_dma c' = current_dma c ∧
  current_host c' = current_host c.

Lemma counted_same m c c' : same_current c c' → counted m c → counted m c'.
Proof. intros (E1 & E2 & E3). unfold counted. by rewrite E1, E2, E3. Qed.

Lemma add_raising_current t n c : same_current (add_bytes t n c) (add_raising t n c).2.
Proof. unfold add_raising. destruct (is_dma t); destruct (RaisePeak _ _); by split_and!. Qed.

Section live_lemmas.
Context {T : Type} `{LiveTableLaws T}.
Implicit Types l : Live T.

Definition live_ok l : Prop :=
  lt_ok (lv_table l) ∧ counted (lt_view (lv_table l)) (lv_counters l).

Lemma displace_spec key l :
  live_ok l →
  let '(d, l') := displace key l in
  d = lt_view (lv_table l) !! key ∧ live_ok l' ∧
  lt_view (lv_table l') = delete key (lt_view (lv_table l)) ∧
  lv_filter l' = lv_filter l ∧
  lv_counters l' = from_option (λ d, sub_entry d (lv_counters l)) (lv_counters l) d.
Proof.
  intros [Hok Hc]. unfold displace. rewrite lt_find_view by done.
  destruct (lt_view (lv_table l) !! key) as [d|] eqn:E.
  - split_and!; try done; [|by apply lt_erase_view]. split; [by apply lt_erase_ok|].
    cbn. rewrite lt_erase_view by done. by apply counted_sub.
  - split_and!; try done. by rewrite delete_id.
Qed.

Lemma put_spec key i l c f :
  live_ok l → lt_view (lv_table l) !! key = None →
  same_current (add_bytes (info_type i) (info_size i) (lv_counters l)) c →
  live_ok (mkLive (lt_put key i (lv_table l)) f c) ∧
  lt_view (lt_put key i (lv_table l)) = <[key := i]> (lt_view (lv_table l)).
Proof.
  intros [Hok Hc] Hk Hs. rewrite lt_put_view by done. split; [|done].
  split; cbn; [by apply lt_put_ok|]. rewrite lt_put_view by done.
  eapply counted_same; [exact Hs|]. by apply counted_add.
Qed.

Lemma add_entry_spec ptr i l :
  live_ok l →
  let '(d, total, raised, l') := add_entry ptr i l in
  d = lt_view (lv_table l) !! ManglePointer ptr ∧ live_ok l' ∧
  lt_view (lv_table l') = <[ManglePointer ptr := i]> (lt_view (lv_table l)) ∧
  lv_filter l' = MarkPointerFilter ptr (lv_filter l) ∧ total = current_used (lv_counters l').
Proof.
  intros Hl. unfold add_entry. pose proof (displace_spec (ManglePointer ptr) l Hl) as Hd.
  destruct (displace _ l) as [d l1]. destruct Hd as (-> & Hl1 & Hv1 & Hf1 & _).
  pose proof (add_raising_current (info_type i) (info_size i) (lv_counters l1)) as Hc.
  destruct (add_raising _ _ _) as [raised c]. cbn in *.
  destruct (put_spec (ManglePointer ptr) i l1 c (MarkPointerFilter ptr (lv_filter l1)) Hl1) as [H1 H2];
    [by rewrite Hv1, lookup_delete_eq|done|].
  split_and!; [done..| |by rewrite Hf1|done].
  rewrite H2, Hv1. apply insert_delete_eq.
Qed.

Lemma RestoreEntry_spec ptr i l :
  live_ok l → lt_view (lv_table l) !! ManglePointer ptr = None →
  live_ok (RestoreEntry ptr i l) ∧
  lt_view (lv_table (RestoreEntry ptr i l)) = <[ManglePointer ptr := i]> (lt_view (lv_table l)).
Proof. intros Hl Hk. apply put_spec; [done..|]. by split_and!. Qed.

(** Moving a record and changing its size, in one map. *)
Definition moved_map (m : gmap Z PointerInfoType) (old_key new_key : Z) (moved : PointerInfoType) :=
  <[new_key := moved]> (delete old_key m).

Lemma moved_map_sum f m old_key new_key info moved :
  m !! old_key = Some info →
  map_sum f (moved_map m old_key new_key moved) =
  f moved + map_sum f m - f info - from_option f 0 (delete old_key m !! new_key).
Proof.
  intros Hold. unfold moved_map. rewrite map_sum_insert, map_sum_delete_default, Hold. cbn. lia.
Qed.

Lemma resize_counters_current t old new c :
  let c' := resize_counters t old new c in
  current_used c' = u64 (current_used c + new - old) ∧
  (is_dma t = true → current_dma c' = u64 (current_dma c + new - old) ∧
                     current_host c' = current_host c) ∧
  (is_dma t = false → current_host c' = u64 (current_host c + new - old) ∧
                      current_dma c' = current_dma c).
Proof.
  unfold resize_counters, add_bytes.
  destruct (new >=? old), (is_dma t); cbn; split_and!; try done; try (split; [|done]); word_eq.
Qed.

(** A record found at a key, whatever the counters say. *)
Lemma displace_table key t f c :
  lt_ok t →
  let '(d, l') := displace key (mkLive t f c) in
  d = lt_view t !! key ∧ lt_ok (lv_table l') ∧ lt_view (lv_table l') = delete key (lt_view t) ∧
  lv_filter l' = f ∧ lv_counters l' = from_option (λ d, sub_entry d c) c d.
Proof.
  intros Hok. unfold displace. cbn. rewrite lt_find_view by done.
  destruct (lt_view t !! key) as [d|] eqn:E; cbn.
  - rewrite lt_erase_view by done. split_and!; try done. by apply lt_erase_ok.
  - split_and!; try done. by rewrite delete_id.
Qed.

Lemma sub_opt_current (d : option PointerInfoType) c :
  let c' := from_option (λ d, sub_entry d c) c d in
  current_used c = u64 (current_used c) → current_dma c = u64 (current_dma c) →
  current_host c = u64 (current_host c) →
  current_used c' = u64 (current_used c - from_option info_size 0 d) ∧
  current_dma c' = u64 (current_dma c - from_option dma_size 0 d) ∧
  current_host c' = u64 (current_host c - from_option host_size 0 d).
Proof.
  intros c' E1 E2 E3. subst c'. destruct d as [d|]; cbn; [|rewrite !Z.sub_0_r; done].
  unfold sub_entry, dma_size, host_size. destruct (is_dma (info_type d)); cbn;
    rewrite ?Z.sub_0_r; done.
Qed.

Lemma remap_counted m old_key new_key info new_size c :
  m !! old_key = Some info → counted m c →
  let moved := info <| info_size := new_size |> in
  let d := delete old_key m !! new_key in
  counted (moved_map m old_key new_key moved)
    (resize_counters (info_type info) (info_size info) new_size (from_option (λ d, sub_entry d c) c d)).
Proof.
  intros Hold (C1 & C2 & C3) moved d.
  destruct (sub_opt_current d c) as (S1 & S2 & S3); [rewrite ?C1, ?C2, ?C3; by rewrite u64_idemp..|].
  set (c1 := from_option _ c d) in *.
  destruct (resize_counters_current (info_type info) (info_size info) new_size c1) as (R1 & R2 & R3).
  unfold counted. rewrite !(moved_map_sum _ _ _ _ info) by done. fold d.
  assert (dma_size moved = if is_dma (info_type info) then new_size else 0) as Ed by done.
  assert (host_size moved = if is_dma (info_type info) then 0 else new_size) as Eh by done.
  assert (dma_size info = if is_dma (info_type info) then info_size info else 0) as Ed' by done.
  assert (host_size info = if is_dma (info_type info) then 0 else info_size info) as Eh' by done.
  change (info_size moved) with new_size. rewrite Ed, Eh, Ed', Eh'.
  split; [rewrite R1, S1, C1; word_eq|].
  destruct (is_dma (info_type info)).
  - destruct (R2 eq_refl) as [-> ->]. rewrite S2, S3, C2, C3. split; word_eq.
  - destruct (R3 eq_refl) as [-> ->]. rewrite S2, S3, C2, C3. split; word_eq.
Qed.

Lemma remap_entry_spec old_ptr new_ptr new_size l :
  live_ok l →
  let m := lt_view (lv_table l) in
  let old_key := ManglePointer old_ptr in let new_key := ManglePointer new_ptr in
  match remap_entry old_ptr new_ptr new_size l with
  | None => m !! old_key = None
  | Some (info, d, total, raised, l') =>
      m !! old_key = Some info ∧ d = delete old_key m !! new_key ∧ live_ok l' ∧
      lt_view (lv_table l') = moved_map m old_key new_key (info <| info_size := new_size |>) ∧
      lv_filter l' = MarkPointerFilter new_ptr (lv_filter l) ∧
      total = current_used (lv_counters l')
  end.
Proof.
  intros [Hok Hc] m old_key new_key. unfold remap_entry. rewrite lt_find_view by done.
  fold m old_key new_key. destruct (m !! old_key) as [info|] eqn:Eold; [|done].
  pose proof (displace_table new_key (lt_erase old_key (lv_table l)) (lv_filter l) (lv_counters l)
    (lt_erase_ok _ _ Hok)) as Hd.
  destruct (displace new_key _) as [d l1]. rewrite lt_erase_view in Hd by done. fold m in Hd.
  destruct Hd as (Ed & Hok1 & Hv1 & Hf1 & Hc1).
  pose proof (remap_counted m old_key new_key info new_size _ Eold Hc) as Hcount.
  cbn zeta in Hcount. rewrite <-Ed, <-Hc1 in Hcount. set (c := resize_counters _ _ _ (lv_counters l1)) in *.
  destruct (RaisePeak _ _) as [raised p].
  assert (lt_view (lt_put new_key (info <| info_size := new_size |>) (lv_table l1)) =
    moved_map m old_key new_key (info <| info_size := new_size |>)) as E.
  { rewrite lt_put_view, Hv1 by done. apply insert_delete_eq. }
  split_and!; try done; [|by cbn; rewrite Hf1].
  split; [by apply lt_put_ok|]. cbn [lv_table lv_counters]. rewrite E.
  eapply counted_same; [|exact Hcount]. by split_and!.
Qed.
End live_lemmas.
