(* ===== verification/LiveProps.v ===== *)
(** * What the live-pointer table guarantees

    Sequences of the critical sections of PointerTable.v, in whatever order the
    threads of the process enter them: the byte counters, the peaks, the
    membership filter, and the equivalence of the 64 shards with one map. *)
From S2P Require Import Prelude CString Capture Config PointerTable.

(** ** Sequences of critical sections *)

Inductive live_op :=
  | OpAdd (ptr : Z) (info : PointerInfoType)
  | OpRemap (old_ptr new_ptr new_size : Z)
  | OpTake (ptr : Z)
  | OpRestore (ptr : Z) (info : PointerInfoType).

Inductive live_out :=
  | OutAdd (displaced : option PointerInfoType) (total : Z) (raised : bool)
  | OutRemap (moved : option (PointerInfoType * option PointerInfoType * Z * bool))
  | OutTake (info : option PointerInfoType)
  | OutRestore.

Section runs.
Context {T : Type} `{LiveTable T}.

Definition run_op (op : live_op) (l : Live T) : live_out * Live T :=
  match op with
  | OpAdd ptr info =>
      let '(d, total, raised, l) := add_entry ptr info l in (OutAdd d total raised, l)
  | OpRemap old_ptr new_ptr new_size =>
      match remap_entry old_ptr new_ptr new_size l with
      | None => (OutRemap None, l)
      | Some (info, d, total, raised, l) => (OutRemap (Some (info, d, total, raised)), l)
      end
  | OpTake ptr => let '(info, l) := TakeEntry ptr l in (OutTake info, l)
  | OpRestore ptr info => (OutRestore, RestoreEntry ptr info l)
  end.

(** The states reached, the first one included, and the outputs. *)
Fixpoint run_ops (ops : list live_op) (l : Live T) : list live_out * list (Live T) * Live T :=
  match ops with
  | [] => ([], [l], l)
  | op :: ops =>
      let '(o, l1) := run_op op l in
      let '(os, ls, l2) := run_ops ops l1 in (o :: os, l :: ls, l2)
  end.

(** A record is handed back only while its address is not in the table: the
    failed operation it belongs to left the block allocated. *)
Definition op_legal (op : live_op) (l : Live T) : Prop :=
  match op with
  | OpRestore ptr _ => lt_view (lv_table l) !! ManglePointer ptr = None
  | _ => True
  end.

Fixpoint legal (ops : list live_op) (l : Live T) : Prop :=
  match ops with
  | [] => True
  | op :: ops => op_legal op l ∧ legal ops (run_op op l).2
  end.
End runs.

(** The table after an operation, as a map. *)
Definition op_view (op : live_op) (m : gmap Z PointerInfoType) : gmap Z PointerInfoType :=
  match op with
  | OpAdd ptr info | OpRestore ptr info => <[ManglePointer ptr := info]> m
  | OpTake ptr => delete (ManglePointer ptr) m
  | OpRemap old_ptr new_ptr new_size =>
      match m !! ManglePointer old_ptr with
      | None => m
      | Some info => moved_map m (ManglePointer old_ptr) (ManglePointer new_ptr)
                       (info <| info_size := new_size |>)
      end
  end.

Section run_lemmas.
Context {T : Type} `{LiveTableLaws T}.
Implicit Types l : Live T.

Lemma run_op_ok op l :
  live_ok l → op_legal op l →
  live_ok (run_op op l).2 ∧ lt_view (lv_table (run_op op l).2) = op_view op (lt_view (lv_table l)).
Proof.
  intros Hl Hlegal. destruct op as [ptr i|old new sz|ptr|ptr i]; cbn.
  - pose proof (add_entry_spec ptr i l Hl) as Ha.
    destruct (add_entry ptr i l) as [[[d tot] r] l']. destruct Ha as (_ & ? & ? & _). done.
  - pose proof (remap_entry_spec old new sz l Hl) as Hr. cbn in Hr.
    destruct (remap_entry old new sz l) as [[[[[i d] tot] r] l']|].
    + destruct Hr as (-> & _ & ? & ? & _). done.
    + by rewrite Hr.
  - unfold TakeEntry. pose proof (displace_spec (ManglePointer ptr) l Hl) as Hd.
    destruct (displace _ l) as [d l']. destruct Hd as (_ & ? & ? & _). done.
  - by apply RestoreEntry_spec.
Qed.

Lemma run_ops_ok ops l : live_ok l → legal ops l → live_ok (run_ops ops l).2.
Proof.
  revert l. induction ops as [|op ops IH]; intros l Hl; cbn; [done|]. intros [Hop Hrest].
  destruct (run_op_ok op l Hl Hop) as [Hl' _].
  destruct (run_op op l) as [o l1]. specialize (IH l1 Hl' Hrest).
  by destruct (run_ops ops l1) as [[os ls] l2].
Qed.

Lemma live_init_ok : live_ok (live_init : Live T).
Proof. split; cbn; [apply lt_empty_ok|]. by rewrite lt_empty_view. Qed.
End run_lemmas.

(** C5. The byte counters are exact: after any sequence of insertions,
    remappings, detachments and re-attachments, in the order the threads'
    critical sections ran, the tracked total and its host and device parts are
    the sums over the live records modulo [2^64], so the parts add up. *)
Theorem counters_account_live (ops : list live_op) :
  legal ops (live_init : Live Shards) →
  let l := (run_ops ops (live_init : Live Shards)).2 in
  let live := lt_view (lv_table l) in
  let c := lv_counters l in
  current_used c = u64 (map_sum info_size live) ∧
  current_dma c = u64 (map_sum dma_size live) ∧
  current_host c = u64 (map_sum host_size live) ∧
  current_used c = current_host c ⊞ current_dma c.
Proof.
  intros Hlegal. destruct (run_ops_ok ops live_init live_init_ok Hlegal) as [_ (H1 & H2 & H3)].
  cbn zeta. split_and!; [done..|]. rewrite H1, H2, H3.
  rewrite (map_sum_ext info_size (λ i, host_size i + dma_size i)).
  - rewrite map_sum_add. word_eq.
  - intros k i _. unfold host_size, dma_size. destruct (is_dma (info_type i)); lia.
Qed.

Definition demo_info (n : Z) (t : MemType) : PointerInfoType := mkInfo n 1 t (0, 0).

Definition demo_ops : list live_op :=
  [OpAdd 0x1000 (demo_info 100 HOST); OpAdd 0x2000 (demo_info 300 DMA);
   OpAdd 0x1000 (demo_info 50 MMAP); OpTake 0x2000; OpRemap 0x1000 0x3000 4096;
   OpRestore 0x2000 (demo_info 300 DMA)].

Lemma counters_account_live_witness :
  let c := lv_counters (run_ops demo_ops (live_init : Live Shards)).2 in
  current_used c = 4396 ∧ current_dma c = 300 ∧ current_used c = current_host c ⊞ current_dma c.
Proof.
  destruct (counters_account_live demo_ops) as (H1 & H2 & _ & H4);
    [repeat split; vm_compute; reflexivity|].
  cbn zeta. split; [|split; [|exact H4]].
  - refine (eq_trans H1 _). vm_compute. reflexivity.
  - refine (eq_trans H2 _). vm_compute. reflexivity.
Defined.

(** ** The shards and one map *)

Section simulation.
Context {T1 T2 : Type} `{LiveTableLaws T1} `{LiveTableLaws T2}.

(** Two trackers that hold the same records and the same figures. *)
Record sim (l1 : Live T1) (l2 : Live T2) : Prop := {
  sim_ok1 : lt_ok (lv_table l1);
  sim_ok2 : lt_ok (lv_table l2);
  sim_view : lt_view (lv_table l1) = lt_view (lv_table l2);
  sim_filter : lv_filter l1 = lv_filter l2;
  sim_counters : lv_counters l1 = lv_counters l2;
}.

Lemma sim_find l1 l2 k : sim l1 l2 → lt_find (lv_table l1) k = lt_find (lv_table l2) k.
Proof. intros [? ? Hv ? ?]. by rewrite !lt_find_view, Hv by done. Qed.

Lemma sim_put l1 l2 k i f c :
  sim l1 l2 → sim (mkLive (lt_put k i (lv_table l1)) f c) (mkLive (lt_put k i (lv_table l2)) f c).
Proof.
  intros [? ? Hv ? ?]. split; cbn; [by apply lt_put_ok|by apply lt_put_ok| |done|done].
  by rewrite !lt_put_view, Hv by done.
Qed.

Lemma sim_erase l1 l2 k f c :
  sim l1 l2 → sim (mkLive (lt_erase k (lv_table l1)) f c) (mkLive (lt_erase k (lv_table l2)) f c).
Proof.
  intros [? ? Hv ? ?]. split; cbn; [by apply lt_erase_ok|by apply lt_erase_ok| |done|done].
  by rewrite !lt_erase_view, Hv by done.
Qed.

Lemma sim_displace l1 l2 k :
  sim l1 l2 → (displace k l1).1 = (displace k l2).1 ∧ sim (displace k l1).2 (displace k l2).2.
Proof.
  intros Hs. unfold displace. rewrite (sim_find _ _ k Hs).
  destruct (lt_find (lv_table l2) k) as [d|]; [|done]. split; [done|]. cbn.
  rewrite (sim_filter _ _ Hs), (sim_counters _ _ Hs). by apply sim_erase.
Qed.

Lemma sim_run_op op l1 l2 :
  sim l1 l2 → (run_op op l1).1 = (run_op op l2).1 ∧ sim (run_op op l1).2 (run_op op l2).2.
Proof.
  intros Hs. destruct op as [ptr i|old new sz|ptr|ptr i]; cbn.
  - unfold add_entry. destruct (sim_displace l1 l2 (ManglePointer ptr) Hs) as [E Hs'].
    destruct (displace _ l1) as [d1 l1'], (displace _ l2) as [d2 l2']. cbn in E, Hs'. subst d2.
    rewrite (sim_counters _ _ Hs'). destruct (add_raising _ _ _) as [r c]. cbn. split; [done|].
    rewrite (sim_filter _ _ Hs'). by apply sim_put.
  - unfold remap_entry. rewrite (sim_find _ _ _ Hs).
    destruct (lt_find (lv_table l2) (ManglePointer old)) as [i|]; [|done].
    rewrite (sim_filter _ _ Hs), (sim_counters _ _ Hs).
    destruct (sim_displace _ _ (ManglePointer new)
      (sim_erase l1 l2 (ManglePointer old) (lv_filter l2) (lv_counters l2) Hs)) as [E Hs'].
    destruct (displace _ (mkLive (lt_erase _ (lv_table l1)) _ _)) as [d1 l1'],
      (displace _ (mkLive (lt_erase _ (lv_table l2)) _ _)) as [d2 l2']. cbn in E, Hs'. subst d2.
    rewrite (sim_counters _ _ Hs'), (sim_filter _ _ Hs').
    destruct (RaisePeak _ _) as [r p]. cbn. split; [done|]. by apply sim_put.
  - unfold TakeEntry. destruct (sim_displace l1 l2 (ManglePointer ptr) Hs) as [E Hs'].
    destruct (displace _ l1), (displace _ l2). cbn in *. by subst.
  - split; [done|]. unfold RestoreEntry. rewrite (sim_filter _ _ Hs), (sim_counters _ _ Hs).
    by apply sim_put.
Qed.

Lemma sim_run_ops ops l1 l2 :
  sim l1 l2 → (run_ops ops l1).1.1 = (run_ops ops l2).1.1 ∧
  sim (run_ops ops l1).2 (run_ops ops l2).2.
Proof.
  revert l1 l2. induction ops as [|op ops IH]; intros l1 l2 Hs; [done|]. cbn.
  destruct (sim_run_op op l1 l2 Hs) as [E Hs'].
  destruct (run_op op l1) as [o1 l1'], (run_op op l2) as [o2 l2']. cbn in E, Hs'. subst o2.
  destruct (IH l1' l2' Hs') as [E2 Hs2].
  destruct (run_ops ops l1') as [[os1 ls1] l1''], (run_ops ops l2') as [[os2 ls2] l2''].
  cbn in *. by subst.
Qed.
End simulation.

(** C22. Sharding is invisible: any sequence of critical sections on the 64
    shards gives the same answers as on one map, and ends with the same live
    records, the same counters and peaks, and the same filter. *)
Theorem sharding_refines_single_map (ops : list live_op) :
  let '(outs1, _, l1) := run_ops ops (live_init : Live Shards) in
  let '(outs2, _, l2) := run_ops ops (live_init : Live (gmap Z PointerInfoType)) in
  outs1 = outs2 ∧ lt_view (lv_table l1) = lv_table l2 ∧ lv_counters l1 = lv_counters l2 ∧
  lv_filter l1 = lv_filter l2 ∧ lt_walk (lv_table l1) ≡ₚ map_to_list (lv_table l2).
Proof.
  assert (sim (live_init : Live Shards) (live_init : Live (gmap Z PointerInfoType))) as Hinit.
  { split; try done. apply (lt_empty_ok (T := Shards)). }
  destruct (sim_run_ops ops _ _ Hinit) as [E [Hok1 _ Hv Hf Hc]].
  destruct (run_ops ops (live_init : Live Shards)) as [[o1 ls1] l1].
  destruct (run_ops ops (live_init : Live (gmap Z PointerInfoType))) as [[o2 ls2] l2]. cbn [fst snd] in *.
  split_and!; [done..|]. rewrite lt_walk_view by done. by rewrite Hv.
Qed.

(** ** The membership filter *)

Lemma land_pow2_eqb w n : 0 ≤ n → (Z.land w (2 ^ n) =? 0) = negb (Z.testbit w n).
Proof.
  intros Hn. destruct (Z.testbit w n) eqn:E; cbn.
  - apply Z.eqb_neq. intros H0. assert (Z.testbit (Z.land w (2 ^ n)) n = true) as Ht.
    { rewrite Z.land_spec, E, Z.pow2_bits_true by done. done. }
    by rewrite H0, Z.bits_0 in Ht.
  - apply Z.eqb_eq. apply Z.bits_inj'. intros k Hk. rewrite Z.bits_0, Z.land_spec.
    destruct (decide (k = n)) as [->|]; [by rewrite E|].
    rewrite Z.pow2_bits_false by lia. apply andb_false_r.
Qed.

Definition bit_index (hash shift : Z) : Z := Z.land (Z.shiftr hash shift) 63.

Lemma bit_index_nonneg h s : 0 ≤ bit_index h s.
Proof. apply (land_ones_range _ 6). lia. Qed.

(** [MightContain] in terms of single bits. *)
Definition bit_set (words : list Z) (i : nat) (n : Z) : Prop := Z.testbit (words !!! i) n = true.

Lemma MightContain_bits words ptr :
  MightContain words ptr = true ↔
  bit_set words (filter_index0 (HashPointer ptr)) (bit_index (HashPointer ptr) 16) ∧
  bit_set words (filter_index1 (HashPointer ptr)) (bit_index (HashPointer ptr) 22).
Proof.
  unfold MightContain, filter_bit0, filter_bit1, bit_set.
  fold (bit_index (HashPointer ptr) 16) (bit_index (HashPointer ptr) 22).
  rewrite !Z.shiftl_1_l. rewrite !land_pow2_eqb by apply bit_index_nonneg.
  destruct (Z.testbit _ _); cbn; [|by split; [|intros []]].
  destruct (Z.testbit _ _); cbn; by split; [|intros []].
Qed.

Lemma set_bits_mono words i b j n : bit_set words j n → bit_set (set_bits i b words) j n.
Proof.
  unfold bit_set, set_bits. intros H.
  destruct (decide (i = j)) as [->|]; [|by rewrite list_lookup_total_insert_ne].
  destruct (decide (j < length words)%nat) as [Hj|Hj].
  - rewrite list_lookup_total_insert_eq by done. by rewrite Z.lor_spec, H.
  - rewrite list_insert_ge by lia. done.
Qed.

Lemma set_bits_sets words i n :
  (i < length words)%nat → 0 ≤ n → bit_set (set_bits i (2 ^ n) words) i n.
Proof.
  intros Hi Hn. unfold bit_set, set_bits. rewrite list_lookup_total_insert_eq by done.
  rewrite Z.lor_spec, Z.pow2_bits_true by done. apply orb_true_r.
Qed.

Lemma filter_index_lt h : (filter_index0 h < Z.to_nat kPointerFilterWords)%nat ∧
  (filter_index1 h < Z.to_nat kPointerFilterWords)%nat.
Proof.
  unfold filter_index0, filter_index1, kPointerFilterWords.
  pose proof (land_ones_range h 13 ltac:(lia)). pose proof (land_ones_range (Z.shiftr h 6) 13 ltac:(lia)).
  lia.
Qed.

Lemma MarkPointerFilter_mono p q words :
  MightContain words q = true → MightContain (MarkPointerFilter p words) q = true.
Proof.
  rewrite !MightContain_bits. intros [H1 H2]. unfold MarkPointerFilter.
  split; by apply set_bits_mono, set_bits_mono.
Qed.

Lemma MarkPointerFilter_contains p words :
  length words = Z.to_nat kPointerFilterWords → MightContain (MarkPointerFilter p words) p = true.
Proof.
  intros Hlen. rewrite MightContain_bits. unfold MarkPointerFilter, filter_bit0, filter_bit1.
  rewrite !Z.shiftl_1_l. destruct (filter_index_lt (HashPointer p)) as [H1 H2]. split.
  - apply set_bits_mono, set_bits_sets; [by rewrite Hlen|apply bit_index_nonneg].
  - apply set_bits_sets; [|apply bit_index_nonneg]. unfold set_bits. by rewrite length_insert, Hlen.
Qed.

Lemma MarkPointerFilter_length p words : length (MarkPointerFilter p words) = length words.
Proof. unfold MarkPointerFilter, set_bits. by rewrite !length_insert. Qed.

Lemma demangle_mangle p : DemanglePointer (ManglePointer p) = p.
Proof. unfold DemanglePointer, ManglePointer. rewrite Z.lxor_assoc, Z.lxor_nilpotent. apply Z.lxor_0_r. Qed.

Definition filter_ok (l : Live Shards) : Prop :=
  length (lv_filter l) = Z.to_nat kPointerFilterWords ∧
  ∀ k i, lt_view (lv_table l) !! k = Some i → MightContain (lv_filter l) (DemanglePointer k) = true.

Lemma filter_ok_mark l l' p k' i m :
  filter_ok l → k' = ManglePointer p → lv_filter l' = MarkPointerFilter p (lv_filter l) →
  lt_view (lv_table l') = <[k' := i]> m → m ⊆ lt_view (lv_table l) → filter_ok l'.
Proof.
  intros [Hlen Hm] -> Hf Hv Hsub. split; rewrite Hf; [by rewrite MarkPointerFilter_length|].
  intros k j. rewrite Hv. intros [[<- <-]|[_ Hk]]%lookup_insert_Some.
  - rewrite demangle_mangle. by apply MarkPointerFilter_contains.
  - apply MarkPointerFilter_mono. eapply Hm, lookup_weaken; done.
Qed.

Lemma filter_ok_run_op op (l : Live Shards) :
  live_ok l → op_legal op l → filter_ok l → filter_ok (run_op op l).2.
Proof.
  intros Hl Hop Hf. destruct op as [ptr i|old new sz|ptr|ptr i]; cbn.
  - pose proof (add_entry_spec ptr i l Hl) as Ha.
    destruct (add_entry ptr i l) as [[[d tot] r] l']. destruct Ha as (_ & _ & Hv & Hw & _).
    by eapply (filter_ok_mark l).
  - pose proof (remap_entry_spec old new sz l Hl) as Hr. cbn in Hr.
    destruct (remap_entry old new sz l) as [[[[[i d] tot] r] l']|]; [|done].
    destruct Hr as (_ & _ & _ & Hv & Hw & _).
    eapply (filter_ok_mark l); [done|done|exact Hw|exact Hv|apply delete_subseteq].
  - unfold TakeEntry. pose proof (displace_spec (ManglePointer ptr) l Hl) as Hd.
    destruct (displace _ l) as [d l']. destruct Hd as (_ & _ & Hv & Hw & _). destruct Hf as [Hlen Hm].
    split; cbn [snd]; rewrite Hw; [done|]. intros k i. rewrite Hv. intros [_ Hk]%lookup_delete_Some. eauto.
  - destruct (RestoreEntry_spec ptr i l Hl Hop) as [_ Hv]. by eapply (filter_ok_mark l).
Qed.

(** The membership filter has no false negatives: every pointer with a live
    record answers [true], after any sequence of critical sections. *)
Theorem filter_has_no_false_negatives (ops : list live_op) ptr i :
  legal ops (live_init : Live Shards) →
  let l := (run_ops ops (live_init : Live Shards)).2 in
  lt_find (lv_table l) (ManglePointer ptr) = Some i → MightContain (lv_filter l) ptr = true.
Proof.
  intros Hlegal l. assert (live_ok l ∧ filter_ok l) as [[Hok _] [_ Hf]].
  { subst l. revert Hlegal.
    assert (filter_ok (live_init : Live Shards)) as H0.
    { split; [apply length_replicate|]. intros k j.
      change (lv_table live_init) with (lt_empty : Shards). by rewrite lt_empty_view, lookup_empty. }
    generalize (live_init_ok (T := Shards)) as Hok0. revert H0.
    generalize (live_init : Live Shards) as l. induction ops as [|op ops IH]; intros l Hf Hok.
    { done. }
    intros [Hop Hrest]. cbn [run_ops]. specialize (IH (run_op op l).2).
    pose proof (filter_ok_run_op op l Hok Hop Hf) as Hf'.
    destruct (run_op_ok op l Hok Hop) as [Hok' _]. specialize (IH Hf' Hok' Hrest).
    destruct (run_op op l) as [o l1]. cbn [snd] in IH.
    by destruct (run_ops ops l1) as [[os ls] l2]. }
  rewrite lt_find_view by done. intros Hi. rewrite <-(demangle_mangle ptr). by eapply Hf.
Qed.

Lemma filter_has_no_false_negatives_witness :
  MightContain (lv_filter (run_ops demo_ops (live_init : Live Shards)).2) 0x3000 = true.
Proof.
  apply (filter_has_no_false_negatives demo_ops 0x3000 (demo_info 4096 MMAP));
    [repeat split; vm_compute; reflexivity|vm_compute; reflexivity].
Defined.

(** ** Peaks *)

(** Live bytes that fit a [size_t]. *)
Definition fits (m : gmap Z PointerInfoType) : Prop :=
  (∀ k i, m !! k = Some i → 0 ≤ info_size i) ∧ map_sum info_size m < 2 ^ 64.

(** The kinds of bytes counted, with their sums, current figures and peaks. *)
Inductive kind := KTotal | KHost | KDma.
Definition kind_size (k : kind) : PointerInfoType → Z :=
  match k with KTotal => info_size | KHost => host_size | KDma => dma_size end.
Definition kind_current (k : kind) : Counters → Z :=
  match k with KTotal => current_used | KHost => current_host | KDma => current_dma end.
Definition kind_peak (k : kind) : Counters → Z :=
  match k with KTotal => peak_tot | KHost => peak_host | KDma => peak_dma end.

Lemma kind_size_le k i : 0 ≤ info_size i → 0 ≤ kind_size k i ≤ info_size i.
Proof. destruct k; cbn; unfold host_size, dma_size; destruct (is_dma (info_type i)); lia. Qed.

Lemma kind_current_exact k m c :
  counted m c → fits m → kind_current k c = map_sum (kind_size k) m.
Proof.
  intros (H1 & H2 & H3) [Hpos Hsum].
  assert (kind_current k c = u64 (map_sum (kind_size k) m)) as -> by (by destruct k).
  apply u64_small. split.
  - apply map_sum_nonneg. intros j i Hi. by apply (kind_size_le k i), (Hpos j).
  - eapply Z.le_lt_trans; [|exact Hsum].
    assert (0 ≤ map_sum (λ i, info_size i - kind_size k i) m) as Hd.
    { apply map_sum_nonneg. intros j i Hi. pose proof (kind_size_le k i (Hpos j i Hi)). lia. }
    pose proof (map_sum_add (λ i, info_size i - kind_size k i) (kind_size k) m) as Ha.
    rewrite (map_sum_ext _ info_size) in Ha by (intros; lia). lia.
Qed.

(** Removing records lowers every figure. *)
Lemma kind_sum_mono k (m : gmap Z PointerInfoType) key :
  (∀ j i, m !! j = Some i → 0 ≤ info_size i) →
  map_sum (kind_size k) (delete key m) ≤ map_sum (kind_size k) m.
Proof.
  intros Hpos. rewrite map_sum_delete_default. destruct (m !! key) as [i|] eqn:E; cbn; [|lia].
  pose proof (kind_size_le k i (Hpos key i E)). lia.
Qed.

Lemma RaisePeak_max p c : (RaisePeak p c).2 = Z.max p c.
Proof. unfold RaisePeak. destruct (Z.gtb_spec c p); cbn; lia. Qed.

(** A counter update either raises a kind's peak to its new current value or
    leaves the peak alone. *)
Definition raises (k : kind) (c c' : Counters) : Prop :=
  kind_peak k c' = Z.max (kind_peak k c) (kind_current k c').

Lemma sub_entry_peak k d c : kind_peak k (sub_entry d c) = kind_peak k c.
Proof. unfold sub_entry. destruct (is_dma (info_type d)), k; done. Qed.

Lemma add_raising_peaks t n c k :
  let c' := (add_raising t n c).2 in
  raises k c c' ∨ (kind_peak k c' = kind_peak k c ∧ kind_current k c' = kind_current k c).
Proof.
  unfold add_raising, add_bytes, raises.
  destruct (is_dma t); cbn; match goal with |- context [RaisePeak ?p ?q] =>
    destruct (RaisePeak p q) as [r x] eqn:E end; destruct k; cbn;
    rewrite ?RaisePeak_max; try (left; done); try (right; done); left;
    apply (f_equal snd) in E; rewrite RaisePeak_max in E; cbn in E; by subst x.
Qed.

Lemma resize_peaks info new_size c k :
  let c1 := resize_counters (info_type info) (info_size info) new_size c in
  let c' := c1 <| peak_tot := (RaisePeak (peak_tot c1) (current_used c1)).2 |> in
  raises k c c' ∨
  (kind_peak k c' = kind_peak k c ∧
   (0 ≤ new_size → kind_size k (info <| info_size := new_size |>) ≤ kind_size k info)).
Proof.
  unfold resize_counters, add_bytes, raises. destruct k; cbn; rewrite RaisePeak_max.
  1: left; destruct (new_size >=? info_size info), (is_dma (info_type info)); done.
  all: unfold host_size, dma_size; cbn.
  all: destruct (Z.geb_spec new_size (info_size info)), (is_dma (info_type info)); cbn;
    rewrite ?RaisePeak_max; try (left; done); right; (split; [done|lia]).
Qed.

Definition no_restore (op : live_op) : Prop := match op with OpRestore _ _ => False | _ => True end.

Section peaks.
Context {T : Type} `{LiveTableLaws T}.

(** Every peak is the larger of the old peak and the new current figure. *)
Lemma run_op_peak k op (l : Live T) :
  live_ok l → no_restore op → fits (lt_view (lv_table l)) →
  fits (lt_view (lv_table (run_op op l).2)) →
  kind_current k (lv_counters l) ≤ kind_peak k (lv_counters l) →
  raises k (lv_counters l) (lv_counters (run_op op l).2).
Proof.
  intros Hl Hop Hfit Hfit' Hpk. pose proof Hl as [_ Hcnt].
  pose proof (kind_current_exact k _ _ Hcnt Hfit) as Hcur.
  assert (live_ok (run_op op l).2) as Hl' by (apply run_op_ok; [done|by destruct op]).
  destruct Hl' as [_ Hcnt']. pose proof (kind_current_exact k _ _ Hcnt' Hfit') as Hcur'.
  assert (kind_peak k (lv_counters (run_op op l).2) = kind_peak k (lv_counters l) →
    kind_current k (lv_counters (run_op op l).2) ≤ kind_current k (lv_counters l) →
    raises k (lv_counters l) (lv_counters (run_op op l).2)) as Hsame by (unfold raises; lia).
  destruct op as [ptr i|old new sz|ptr|ptr i]; [| | |done].
  - clear Hcur' Hcnt'. cbn in *. unfold add_entry in *.
    pose proof (displace_spec (ManglePointer ptr) l Hl) as Hd.
    destruct (displace _ l) as [d l1]. destruct Hd as (-> & [_ Hc1] & Hv1 & _ & Ec1).
    pose proof (add_raising_peaks (info_type i) (info_size i) (lv_counters l1) k) as Hr.
    destruct (add_raising _ _ _) as [r c']. cbn in *.
    assert (kind_peak k (lv_counters l1) = kind_peak k (lv_counters l)) as Ep.
    { rewrite Ec1. destruct (lt_view _ !! _); cbn; [apply sub_entry_peak|done]. }
    destruct Hr as [Hr|[Hp Hc]]; [unfold raises in *; by rewrite Ep in Hr|].
    apply Hsame; [congruence|]. rewrite Hc, Hcur. rewrite Hv1 in Hc1.
    rewrite (kind_current_exact k _ _ Hc1).
    + apply kind_sum_mono, Hfit.
    + split; [intros j x [_ Hx]%lookup_delete_Some; by apply (proj1 Hfit j)|].
      eapply Z.le_lt_trans; [|apply Hfit]. apply (kind_sum_mono KTotal), Hfit.
  - pose proof (remap_entry_spec old new sz l Hl) as Hspec. cbn in Hspec, Hcur', Hsame, Hfit' |- *.
    unfold remap_entry in *. destruct (lt_find _ _) as [info|]; [|apply Hsame; [done|apply Z.le_refl]].
    pose proof (displace_table (ManglePointer new) (lt_erase (ManglePointer old) (lv_table l))
      (lv_filter l) (lv_counters l) (lt_erase_ok _ _ (proj1 Hl))) as Hd.
    destruct (displace _ (mkLive _ _ _)) as [d l1]. destruct Hd as (_ & _ & _ & _ & Ec1).
    pose proof (resize_peaks info sz (lv_counters l1) k) as Hr. cbn zeta in Hr.
    destruct (RaisePeak _ _) as [r p]. cbn [snd] in Hr. cbn in Hcur', Hsame, Hfit' |- *.
    destruct Hspec as (Hold & Hd & _ & Hv & _ & _). cbn in Hv. rewrite Hv in Hcur', Hfit'.
    assert (kind_peak k (lv_counters l1) = kind_peak k (lv_counters l)) as Ep.
    { rewrite Ec1. destruct d; cbn; [apply sub_entry_peak|done]. }
    destruct Hr as [Hr|[Hp Hle]]; [unfold raises in *; by rewrite Ep in Hr|].
    apply Hsame; [exact (eq_trans Hp Ep)|]. rewrite Hcur, Hcur', (moved_map_sum _ _ _ _ info) by done.
    assert (0 ≤ sz) as Hsz.
    { destruct Hfit' as [Hpos' _].
      exact (Hpos' (ManglePointer new) _ (lookup_insert_eq _ _ _)). }
    specialize (Hle Hsz). rewrite <-Hd. cbn in Hle |- *. destruct d as [d|]; cbn; [|lia].
    symmetry in Hd. apply lookup_delete_Some in Hd as [_ Hd].
    pose proof (kind_size_le k d (proj1 Hfit _ _ Hd)). lia.
  - cbn in *. unfold TakeEntry in *. pose proof (displace_spec (ManglePointer ptr) l Hl) as Hd.
    destruct (displace _ l) as [d l1]. destruct Hd as (-> & _ & Hv & _ & Ec1). cbn in *. apply Hsame.
    + rewrite Ec1. destruct (lt_view _ !! _); cbn; [apply sub_entry_peak|done].
    + rewrite Hcur, Hcur', Hv. apply kind_sum_mono, Hfit.
Qed.
End peaks.

Definition currents {T} (k : kind) (ls : list (Live T)) : list Z := (λ l, kind_current k (lv_counters l)) <$> ls.

Section peak_runs.
Context {T : Type} `{LiveTableLaws T}.

Lemma run_ops_head ops (l : Live T) : ∃ ls, (run_ops ops l).1.2 = l :: ls.
Proof.
  destruct ops as [|op ops]; cbn; [by eexists|]. destruct (run_op op l) as [o l1].
  destruct (run_ops ops l1) as [[os ls] l2]. by eexists.
Qed.

Lemma run_ops_last ops (l : Live T) : (run_ops ops l).2 ∈ (run_ops ops l).1.2.
Proof.
  revert l. induction ops as [|op ops IH]; intros l; cbn; [left|].
  destruct (run_op op l) as [o l1]. specialize (IH l1).
  destruct (run_ops ops l1) as [[os ls] l2]. by right.
Qed.

Lemma run_ops_peak k ops (l : Live T) :
  live_ok l → Forall no_restore ops →
  Forall (λ l, fits (lt_view (lv_table l))) (run_ops ops l).1.2 →
  kind_current k (lv_counters l) ≤ kind_peak k (lv_counters l) →
  kind_peak k (lv_counters (run_ops ops l).2) =
  foldl Z.max (kind_peak k (lv_counters l)) (currents k (run_ops ops l).1.2).
Proof.
  revert l. induction ops as [|op ops IH]; intros l Hl Hnr Hfit Hle; cbn in *; [lia|].
  apply Forall_cons_1 in Hnr as [Hop Hnr].
  assert (op_legal op l) as Hlegal by (by destruct op).
  destruct (run_op_ok op l Hl Hlegal) as [Hl1 _].
  pose proof (run_op_peak k op l Hl Hop) as Hraise. specialize (IH (run_op op l).2 Hl1 Hnr).
  destruct (run_op op l) as [o l1]. cbn [snd] in *.
  destruct (run_ops_head ops l1) as [ls' Hhead].
  destruct (run_ops ops l1) as [[os ls] l2]. cbn in *.
  subst ls. apply Forall_cons_1 in Hfit as [Hf0 Hf].
  assert (raises k (lv_counters l) (lv_counters l1)) as Hr.
  { apply Hraise; [done| |done]. by apply Forall_cons_1 in Hf as [? _]. }
  rewrite IH by (done || (unfold raises in Hr; lia)). unfold raises in Hr. cbn. f_equal.
  rewrite Hr. lia.
Qed.
End peak_runs.

(** The peaks are the true high-water marks: as long as the live bytes fit a
    [size_t] and no failed operation hands a record back, the total, host and
    device peaks are the maxima of the corresponding live bytes over all states
    the table went through. *)
Theorem peaks_are_maxima (ops : list live_op) k :
  Forall no_restore ops →
  let '(_, states, l) := run_ops ops (live_init : Live Shards) in
  Forall (λ l, fits (lt_view (lv_table l))) states →
  kind_peak k (lv_counters l) = foldl Z.max 0 (currents k states) ∧
  kind_current k (lv_counters l) = map_sum (kind_size k) (lt_view (lv_table l)).
Proof.
  intros Hnr. pose proof (run_ops_peak k ops (live_init : Live Shards) live_init_ok Hnr) as Hp.
  assert (legal ops (live_init : Live Shards)) as Hlegal.
  { clear Hp. generalize (live_init : Live Shards). induction Hnr as [|op ops Hop _ IH]; intros l; [done|].
    split; [by destruct op|apply IH]. }
  pose proof (run_ops_ok ops _ (live_init_ok (T := Shards)) Hlegal) as [_ Hc].
  pose proof (run_ops_last ops (live_init : Live Shards)) as Hlast.
  destruct (run_ops ops (live_init : Live Shards)) as [[os states] l]. cbn [fst snd] in *.
  intros Hfit. split.
  { assert (kind_peak k (lv_counters (live_init : Live Shards)) = 0) as E by (by destruct k).
    rewrite <-E. apply Hp; [done|by destruct k]. }
  apply kind_current_exact; [done|]. rewrite Forall_forall in Hfit. by apply Hfit.
Qed.

Lemma map_fits (m : gmap Z PointerInfoType) :
  forallb (λ e, 0 <=? info_size e.2) (map_to_list m) = true → (map_sum info_size m <? 2 ^ 64) = true →
  fits m.
Proof.
  intros Hp Hs. split; [|by apply Z.ltb_lt]. intros k i Hi%elem_of_map_to_list.
  rewrite forallb_forall in Hp. apply Z.leb_le, (Hp (k, i)). by apply list_elem_of_In.
Qed.

Lemma peaks_are_maxima_witness :
  peak_tot (lv_counters (run_ops (take 5 demo_ops) (live_init : Live Shards)).2) = 4096.
Proof.
  pose proof (peaks_are_maxima (take 5 demo_ops) KTotal ltac:(repeat constructor)) as H.
  assert (forallb (λ l, forallb (λ e, 0 <=? info_size e.2) (map_to_list (lt_view (lv_table l))) &&
    (map_sum info_size (lt_view (lv_table l)) <? 2 ^ 64))
    (run_ops (take 5 demo_ops) (live_init : Live Shards)).1.2 = true) as Hfit
    by (vm_compute; reflexivity).
  assert (foldl Z.max 0 (currents KTotal (run_ops (take 5 demo_ops) (live_init : Live Shards)).1.2) =
    4096) as Hmax by (vm_compute; reflexivity).
  destruct (run_ops (take 5 demo_ops) (live_init : Live Shards)) as [[os states] l].
  destruct H as [H _]; [|exact (eq_trans H Hmax)].
  apply Forall_forall. intros x Hx. rewrite forallb_forall in Hfit.
  specialize (Hfit x (proj1 (list_elem_of_In _ _) Hx)). apply andb_true_iff in Hfit as [Hp Hs].
  by apply map_fits.
Defined.

(** Handing a record back can carry the live bytes past the recorded peak:
    while a failing operation on one block is in flight, another thread's block
    is added below the peak, and re-attaching the first one ends above it
    without the peak being raised. *)
Theorem restore_can_exceed_peak :
  let ops := [OpAdd 0x1000 (demo_info 100 HOST); OpTake 0x1000; OpAdd 0x2000 (demo_info 80 HOST);
              OpRestore 0x1000 (demo_info 100 HOST)] in
  let l := (run_ops ops (live_init : Live Shards)).2 in
  legal ops (live_init : Live Shards) ∧
  peak_tot (lv_counters l) = 100 ∧ current_used (lv_counters l) = 180.
Proof. cbn zeta. split; [repeat split; vm_compute; reflexivity|split; vm_compute; reflexivity]. Qed.
