(* ===== verification/Locks.v ===== *)
(** * The locks of the tracker

    backtrace/src/malloc_debug.cpp and PointerData.cpp: which locks every
    interposed call, the sampler, fork and finalization take and release, and in
    which order; and threads that do so.  What the calls do under the locks is in
    PeakSnapshot.v, DmaBuf.v and HookCalls.v: here a call is the sequence of its
    lock operations, for every way through it. *)
From S2P Require Import Prelude PointerTable.

(** ** Locks *)

(** [DMA_BUF::fd_transaction_mutex], [DMA_BUF::state_mutex], the mutex of a shard,
    [PointerData::frame_mutex_].  The reader-writer lock at the entry,
    [ScopedConcurrentLock::lock_], is apart. *)
Inductive Mutex := FdTransaction | State | Shard (i : nat) | Frame.
#[global] Instance Mutex_eq_dec : EqDecision Mutex.
Proof. solve_decision. Defined.
#[global] Instance Mutex_countable : Countable Mutex.
Proof.
  refine (inj_countable' (λ m, match m with FdTransaction => inl 0%nat | State => inl 1%nat | Frame => inl 2%nat | Shard i => inr i end)
    (λ x, match x with inl 0%nat => FdTransaction | inl 1%nat => State | inl _ => Frame | inr i => Shard i end) _).
  by intros [].
Defined.

Inductive Action :=
  | ReadEntry | LeaveEntry | BlockAllOperations
  | Acquire (m : Mutex) | Release (m : Mutex)
  | JoinSampler
  | RealFork
  | ReinitAfterForkInChild.

#[global] Instance Action_eq_dec : EqDecision Action.
Proof. solve_decision. Defined.

(** [std::lock_guard] around a body. *)
Definition guarded (m : Mutex) (body : list Action) : list Action := Acquire m :: body ++ [Release m].
Definition ScopedConcurrentLock (body : list Action) : list Action := ReadEntry :: body ++ [LeaveEntry].

(** ** The tracker *)

Definition shards : list nat := seq 0 (Z.to_nat kPointerShards).
Definition LockAllShards : list Action := (λ i, Acquire (Shard i)) <$> shards.
Definition UnlockAllShards : list Action := (λ i, Release (Shard i)) <$> reverse shards.
Definition AllShardsGuard (body : list Action) : list Action := LockAllShards ++ body ++ UnlockAllShards.
Definition LockForFork : list Action := LockAllShards ++ [Acquire Frame].
Definition UnlockAfterFork : list Action := [Release Frame] ++ UnlockAllShards.

Definition TakePeakSnapshotLocked_locks : list Action := guarded Frame [].
Definition ApplyPeakProcContextLocked_locks (current : bool) : list Action := if current then guarded Frame [] else [].
(** [None] when it returns before the shards are locked; then whether a
    snapshot is taken. *)
Definition MaybeRecordPeakSnapshot_locks (taken : option bool) : list Action :=
  match taken with
  | None => []
  | Some taken => AllShardsGuard (if taken : bool then TakePeakSnapshotLocked_locks else [])
  end.
Definition RecordObservedPeak_locks (retained current : bool) : list Action :=
  AllShardsGuard TakePeakSnapshotLocked_locks ++
  (if retained then AllShardsGuard (ApplyPeakProcContextLocked_locks current) else []).

Definition AddBacktrace_locks (captured : bool) : list Action := if captured then guarded Frame [] else [].
Definition RemoveBacktrace_locks (has_stack : bool) : list Action := if has_stack then guarded Frame [] else [].

(** The ways through [Add]: the address, whether a stack was captured, whether
    the peak was raised and a snapshot taken, whether a record was displaced that
    had a stack. *)
Record Adding := mkAdding { ad_ptr : Z; ad_captured : bool; ad_peak : option bool; ad_displaced : bool }.
Definition shard_of (ptr : Z) : Mutex := Shard (ShardFor (ManglePointer ptr)).
Definition Add_locks (a : Adding) : list Action :=
  AddBacktrace_locks (ad_captured a) ++ guarded (shard_of (ad_ptr a)) [] ++
  MaybeRecordPeakSnapshot_locks (ad_peak a) ++ RemoveBacktrace_locks (ad_displaced a).

(** Both shards, in the order of their indices. *)
Definition Remap_locks (old_ptr new_ptr : Z) (moved : bool) (peak : option bool) (displaced : bool) : list Action :=
  let old_shard := ShardFor (ManglePointer old_ptr) in
  let new_shard := ShardFor (ManglePointer new_ptr) in
  (if bool_decide (old_shard = new_shard) then guarded (Shard old_shard) []
   else if (old_shard <? new_shard)%nat then guarded (Shard old_shard) (guarded (Shard new_shard) [])
   else guarded (Shard new_shard) (guarded (Shard old_shard) [])) ++
  (if moved then MaybeRecordPeakSnapshot_locks peak ++ RemoveBacktrace_locks displaced else []).

Definition TakeEntry_locks (ptr : Z) : list Action := guarded (shard_of ptr) [].
Definition RestoreEntry_locks (ptr : Z) : list Action := guarded (shard_of ptr) [].
(** [None] when there is no record; then whether it has a stack. *)
Definition Remove_locks (ptr : Z) (record : option bool) : list Action :=
  TakeEntry_locks ptr ++ from_option RemoveBacktrace_locks [] record.
Definition DumpLiveToFile_locks : list Action := AllShardsGuard (guarded Frame []).

(** ** Descriptors *)

(** A critical section of [state_mutex]: [ForgetDmaFd], [RegisterDmaFd],
    [LookupDmaFd], [MarkDmaFdTracked], [TakeDmaFd] and those of ION handles. *)
Definition state_section : list Action := guarded State [].
(** Whether the descriptor is known, and whether it is a buffer. *)
Definition ShouldTrackDmaMapping_locks (known dma_buf : bool) : list Action :=
  state_section ++ (if known then [] else state_section ++ (if dma_buf then state_section else [])).
(** A mapping: not tracked, tracked by its address, or perhaps by its
    descriptor. *)
Inductive Mapped := MapNothing | MapAddress (a : Adding) | MapDescriptor (known dma_buf : bool) (a : option Adding).
Definition TrackMmapResult_locks (m : Mapped) : list Action :=
  match m with
  | MapNothing => []
  | MapAddress a => Add_locks a
  | MapDescriptor known dma_buf a =>
      ShouldTrackDmaMapping_locks known dma_buf ++ from_option (λ a, Add_locks a ++ state_section) [] a
  end.
(** A node registered by an ioctl: its stale descriptor, taken and perhaps with
    a record, and its record. *)
Record Node := mkNode { nd_fd : Z; nd_creates : bool; nd_stale : option (option bool); nd_add : option Adding }.
Definition register_node_locks (n : Node) : list Action :=
  (if nd_creates n then state_section ++ from_option (Remove_locks (nd_fd n)) [] (nd_stale n) else []) ++
  state_section ++ from_option (λ a, Add_locks a ++ state_section) [] (nd_add n).

(** ** The interposed calls *)

Inductive LockCall :=
  (* calls that return early, or on a thread that is not traced *)
  | LUntracked
  (* malloc, calloc, memalign, aligned_alloc, posix_memalign, realloc of null *)
  | LAllocate (a : option Adding)
  (* free, realloc to nothing *)
  | LFree (ptr : Z) (record : option bool)
  | LRealloc (ptr : Z) (had_entry succeeded : bool) (a : option Adding) (has_stack : bool)
  | LMmap (locks_fd : bool) (m : Mapped)
  | LMunmap (ptr : Z) (had_entry succeeded has_stack : bool)
  | LMremapAdd (a : Adding)
  | LMremap (moves : option (Z * Z)) (moved : bool) (peak : option bool) (displaced : bool)
  | LIoctl (registers_fd : bool) (sections : nat) (n : option Node)
  | LClose (fd : Z) (closed : option (option bool))
  | LDumpHeap
  | LRecordObservedPeak (retained current : bool)
  | LFork.

Definition repeat_sections (n : nat) : list Action := concat (replicate n state_section).
Definition call_locks (c : LockCall) : list Action :=
  match c with
  | LUntracked => []
  | LAllocate a => ScopedConcurrentLock (from_option Add_locks [] a)
  | LFree ptr record => ScopedConcurrentLock (Remove_locks ptr record)
  | LRealloc ptr had_entry succeeded a has_stack =>
      ScopedConcurrentLock (TakeEntry_locks ptr ++
        (if succeeded then from_option Add_locks [] a ++ (if had_entry then RemoveBacktrace_locks has_stack else [])
         else if had_entry then RestoreEntry_locks ptr else []))
  | LMmap locks_fd m =>
      ScopedConcurrentLock (if locks_fd then guarded FdTransaction (TrackMmapResult_locks m) else TrackMmapResult_locks m)
  | LMunmap ptr had_entry succeeded has_stack =>
      ScopedConcurrentLock (TakeEntry_locks ptr ++
        (if had_entry then if succeeded then RemoveBacktrace_locks has_stack else RestoreEntry_locks ptr else []))
  | LMremapAdd a => ScopedConcurrentLock (Add_locks a)
  | LMremap moves moved peak displaced =>
      ScopedConcurrentLock (from_option (λ '(old, new), Remap_locks old new moved peak displaced) [] moves)
  | LIoctl registers_fd sections n =>
      if registers_fd
      then ScopedConcurrentLock (guarded FdTransaction (repeat_sections sections ++ from_option register_node_locks [] n))
      else repeat_sections sections
  | LClose fd closed =>
      ScopedConcurrentLock (guarded FdTransaction
        (from_option (λ stale, state_section ++ from_option (λ has_stack, Remove_locks fd (Some has_stack)) [] stale ++ state_section) [] closed))
  | LDumpHeap => ScopedConcurrentLock DumpLiveToFile_locks
  | LRecordObservedPeak retained current => RecordObservedPeak_locks retained current
  | LFork => LockForFork ++ [RealFork] ++ UnlockAfterFork
  end.

(** [debug_finalize] with [dumps] reports; the entry stays locked. *)
Definition debug_finalize_locks (dumps : nat) : list Action :=
  [JoinSampler; BlockAllOperations] ++ concat (replicate dumps DumpLiveToFile_locks).
(** [HookAtForkChild]. *)
Definition HookAtForkChild_locks : list Action := UnlockAfterFork ++ [ReinitAfterForkInChild].

(** ** Threads *)

(** A mutex has an owner; the entry has a number of readers, or a writer.  A
    thread is what it has still to do. *)
Record Locks := mkLocks { lk_owner : gmap Mutex Z; lk_readers : Z; lk_writer : option Z }.
#[global] Instance Locks_upd : Updatable Locks := λ l, mkLocks (lk_owner l) (lk_readers l) (lk_writer l).
Record Threads := mkThreads { th_locks : Locks; th_todo : gmap Z (list Action) }.
Definition Locks_new : Locks := mkLocks ∅ 0 None.

(** An action goes on, waits, or is not defined: releasing what is not held. *)
Inductive Result := Goes (l : Locks) | Waits | Undefined.

Section threads.
(** The thread of the sampler; and whether a reader waits for a waiting writer,
    as it does on Android and not with glibc. *)
Context (sampler : Z) (prefer_writer : bool).

Definition writer_waiting (s : Threads) : bool :=
  bool_decide (map_Exists (λ _ todo, head todo = Some BlockAllOperations) (th_todo s)).
Definition act (t : Z) (a : Action) (s : Threads) : Result :=
  let l := th_locks s in
  match a with
  | ReadEntry =>
      if bool_decide (is_Some (lk_writer l)) || (prefer_writer && writer_waiting s) then Waits
      else Goes (l <| lk_readers := lk_readers l + 1 |>)
  | LeaveEntry => if lk_readers l =? 0 then Undefined else Goes (l <| lk_readers := lk_readers l - 1 |>)
  | BlockAllOperations =>
      if bool_decide (is_Some (lk_writer l)) || negb (lk_readers l =? 0) then Waits else Goes (l <| lk_writer := Some t |>)
  | Acquire m => match lk_owner l !! m with Some _ => Waits | None => Goes (l <| lk_owner := <[m := t]> (lk_owner l) |>) end
  | Release m => if bool_decide (lk_owner l !! m = Some t) then Goes (l <| lk_owner := delete m (lk_owner l) |>) else Undefined
  | JoinSampler => match th_todo s !! sampler with Some (_ :: _) => Waits | _ => Goes l end
  | RealFork => Goes l
  | ReinitAfterForkInChild => Goes (l <| lk_readers := 0 |> <| lk_writer := None |>)
  end.

Inductive thread_step : Threads → Threads → Prop :=
  | Thread_step s t a todo l :
      th_todo s !! t = Some (a :: todo) → act t a s = Goes l →
      thread_step s (mkThreads l (<[t := todo]> (th_todo s))).

(** One thread to its end, when it does not wait. *)
Fixpoint run_thread (t : Z) (todo : list Action) (s : Threads) : Result :=
  match todo with
  | [] => Goes (th_locks s)
  | a :: todo =>
      match act t a s with
      | Goes l => run_thread t todo (mkThreads l (<[t := todo]> (th_todo s)))
      | r => r
      end
  end.
End threads.

(** The process [fork] makes: the locks as they are, and only the thread that
    called it, with the handlers of the child. *)
Definition fork_child (t : Z) (s : Threads) : Threads :=
  mkThreads (th_locks s) {[ t := HookAtForkChild_locks ]}.
