(* ===== verification/LockProps.v ===== *)
(** * No deadlock among the tracker's threads

    The calls take the locks in one order; therefore threads that make any calls
    in any interleaving never block each other for ever, and a process made by
    fork finds the tracker's locks free. *)
From S2P Require Import Prelude PointerTable Locks.

(** ** The order *)

Definition rank (m : Mutex) : Z :=
  match m with FdTransaction => 0 | State => 1 | Shard i => 2 + Z.of_nat i | Frame => 2 + kPointerShards end.
Definition mutex_action (a : Action) : Prop := match a with Acquire _ | Release _ => True | _ => False end.
Definition all_tracker : list Mutex := Frame :: reverse (Shard <$> shards).

(** What a thread that reads the entry or not, and holds mutexes, the last one
    first, may go on with. *)
Fixpoint ordered (reads : bool) (held : list Mutex) (todo : list Action) : Prop :=
  match todo with
  | [] => held = [] ∧ reads = false
  | Acquire m :: todo => Forall (λ m', rank m' < rank m) held ∧ ordered reads (m :: held) todo
  | Release m :: todo => head held = Some m ∧ ordered reads (tail held) todo
  | ReadEntry :: todo => held = [] ∧ reads = false ∧ ordered true [] todo
  | LeaveEntry :: todo => held = [] ∧ reads = true ∧ ordered false [] todo
  | BlockAllOperations :: todo => held = [] ∧ reads = false ∧ Forall mutex_action todo ∧ ordered false [] todo
  | JoinSampler :: todo => held = [] ∧ reads = false ∧ ordered false [] todo
  | RealFork :: todo => held = all_tracker ∧ reads = false ∧ ordered false held todo
  | ReinitAfterForkInChild :: _ => False
  end.

(** Actions that take only mutexes from a rank on, and give them back. *)
Definition within (lo : Z) (acts : list Action) : Prop :=
  Forall mutex_action acts ∧
  ∀ reads held todo, Forall (λ m, rank m < lo) held → ordered reads held todo → ordered reads held (acts ++ todo).

Create HintDb locks.

Lemma within_nil lo : within lo [].
Proof. by split. Qed.
Lemma within_app lo a b : within lo a → within lo b → within lo (a ++ b).
Proof.
  intros [A1 A2] [B1 B2]. split; [by apply Forall_app|]. intros reads held todo Hh Ho. rewrite <-app_assoc. by apply A2, B2.
Qed.
Lemma within_guarded lo m body : lo ≤ rank m → within (rank m + 1) body → within lo (guarded m body).
Proof.
  intros Hm [B1 B2]. split.
  - unfold guarded. constructor; [done|]. apply Forall_app. by repeat constructor.
  - intros reads held todo Hh Ho. unfold guarded. cbn [app ordered]. split.
    + eapply Forall_impl; [done|]. cbn. intros. lia.
    + rewrite <-app_assoc. apply B2; [|done]. constructor; [lia|]. eapply Forall_impl; [done|]. cbn. intros. lia.
Qed.
Lemma within_le lo lo' acts : lo ≤ lo' → within lo' acts → within lo acts.
Proof. intros Hle [A1 A2]. split; [done|]. intros reads held todo Hh. apply A2. eapply Forall_impl; [done|]. cbn. intros. lia. Qed.
#[export] Hint Resolve within_nil within_app : locks.

(** All shards, as nested guards. *)
Lemma shards_nested l body :
  ((λ i, Acquire (Shard i)) <$> l) ++ body ++ ((λ i, Release (Shard i)) <$> reverse l) = foldr (λ i, guarded (Shard i)) body l.
Proof.
  induction l as [|i l IH]; [cbn; by rewrite app_nil_r|]. cbn [foldr fmap list_fmap app]. rewrite <-IH. unfold guarded.
  rewrite reverse_cons, fmap_app, !app_assoc. done.
Qed.
Lemma within_nested n k body :
  within (2 + Z.of_nat (k + n)) body → within (2 + Z.of_nat k) (foldr (λ i, guarded (Shard i)) body (seq k n)).
Proof.
  revert k. induction n as [|n IH]; intros k Hb; cbn [seq foldr]; [by replace (k + 0)%nat with k in Hb by lia|].
  apply within_guarded; [cbn; lia|]. cbn [rank]. replace (2 + Z.of_nat k + 1) with (2 + Z.of_nat (S k)) by lia.
  apply IH. by replace (S k + n)%nat with (k + S n)%nat by lia.
Qed.
Lemma within_all_shards body : within (rank Frame) body → within 2 (AllShardsGuard body).
Proof. intros Hb. unfold AllShardsGuard, LockAllShards, UnlockAllShards. rewrite shards_nested. apply (within_nested _ 0). exact Hb. Qed.

Lemma rank_shard p : 2 ≤ rank (shard_of p) < rank Frame.
Proof. unfold shard_of. pose proof (ShardFor_lt (ManglePointer p)). cbn [rank]. lia. Qed.

Lemma within_frame : within (rank Frame) (guarded Frame []).
Proof. apply within_guarded; [done|auto with locks]. Qed.
Lemma within_frame2 : within 2 (guarded Frame []).
Proof. eapply within_le; [|apply within_frame]. done. Qed.
Lemma within_peak taken : within 2 (MaybeRecordPeakSnapshot_locks taken).
Proof. destruct taken as [[]|]; cbn [MaybeRecordPeakSnapshot_locks]; auto using within_frame, within_all_shards with locks. Qed.
Lemma within_stack b : within 2 (RemoveBacktrace_locks b).
Proof. destruct b; cbn; auto using within_frame2 with locks. Qed.
Lemma within_shard p : within 2 (guarded (shard_of p) []).
Proof. apply within_guarded; [apply rank_shard|auto with locks]. Qed.
#[export] Hint Resolve within_frame within_frame2 within_peak within_stack within_shard within_all_shards : locks.
Lemma within_add a : within 2 (Add_locks a).
Proof. unfold Add_locks. apply within_app; [apply (within_stack (ad_captured a))|auto with locks]. Qed.
Lemma within_remove p r : within 2 (Remove_locks p r).
Proof. unfold Remove_locks, TakeEntry_locks. destruct r; cbn [from_option]; auto with locks. Qed.
Lemma within_remap p q moved peak displaced : within 2 (Remap_locks p q moved peak displaced).
Proof.
  unfold Remap_locks. apply within_app; [|destruct moved; auto with locks]. set (i := ShardFor _). set (j := ShardFor _).
  case_bool_decide; [apply (within_shard p)|]. destruct (Nat.ltb_spec i j).
  - apply within_guarded; [apply (rank_shard p)|]. apply within_guarded; [cbn; lia|auto with locks].
  - apply within_guarded; [apply (rank_shard q)|]. apply within_guarded; [cbn; lia|auto with locks].
Qed.
Lemma within_dump : within 2 DumpLiveToFile_locks.
Proof. unfold DumpLiveToFile_locks. auto with locks. Qed.
Lemma within_observed retained current : within 2 (RecordObservedPeak_locks retained current).
Proof.
  unfold RecordObservedPeak_locks, TakePeakSnapshotLocked_locks. apply within_app; [auto with locks|]. destruct retained; [|auto with locks].
  apply within_all_shards. destruct current; cbn; auto with locks.
Qed.
Lemma within_state : within 1 state_section.
Proof. apply within_guarded; [done|auto with locks]. Qed.
Lemma within_up acts : within 2 acts → within 1 acts.
Proof. by apply within_le. Qed.
#[export] Hint Resolve within_add within_remove within_remap within_dump within_observed within_state within_up : locks.
Lemma within_mmap m : within 1 (TrackMmapResult_locks m).
Proof.
  destruct m as [|a|known dma_buf a]; cbn [TrackMmapResult_locks]; auto with locks. apply within_app.
  - unfold ShouldTrackDmaMapping_locks. destruct known, dma_buf; auto with locks.
  - destruct a; cbn [from_option]; auto with locks.
Qed.
Lemma within_node n : within 1 (register_node_locks n).
Proof. unfold register_node_locks. destruct n as [fd [] [r|] [a|]]; cbn [from_option nd_creates nd_stale nd_add]; auto 6 with locks. Qed.
Lemma within_sections n : within 1 (repeat_sections n).
Proof. unfold repeat_sections. induction n; cbn [replicate concat]; auto with locks. Qed.
#[export] Hint Resolve within_mmap within_node within_sections : locks.
Lemma within_close fd closed :
  within 1 (from_option (λ stale, state_section ++ from_option (λ has_stack, Remove_locks fd (Some has_stack)) [] stale ++ state_section) [] closed).
Proof. destruct closed as [[[]|]|]; cbn [from_option]; auto 6 with locks. Qed.
Lemma within_fd body : within 1 body → within 0 (guarded FdTransaction body).
Proof. intros Hb. by apply within_guarded. Qed.
Lemma within_entry lo acts : 0 ≤ lo → within lo acts → within 0 acts.
Proof. apply within_le. Qed.

(** ** Whole calls *)

Lemma ordered_entry body todo : within 0 body → ordered false [] todo → ordered false [] (ScopedConcurrentLock body ++ todo).
Proof.
  intros [_ Hb] Ht. unfold ScopedConcurrentLock. cbn [app ordered]. split_and!; [done..|]. rewrite <-app_assoc. by apply Hb.
Qed.
Lemma ordered_lock n : ∀ k reads held todo,
  Forall (λ m, rank m < 2 + Z.of_nat k) held → ordered reads (reverse (Shard <$> seq k n) ++ held) todo →
  ordered reads held (((λ i, Acquire (Shard i)) <$> seq k n) ++ todo).
Proof.
  induction n as [|n IH]; intros k reads held todo Hh Ho; [done|]. cbn [seq fmap list_fmap app ordered]. split; [done|]. apply IH.
  - constructor; [cbn; lia|]. eapply Forall_impl; [done|]. cbn. intros. lia.
  - cbn [seq fmap list_fmap] in Ho. by rewrite reverse_cons, <-app_assoc in Ho.
Qed.
Lemma ordered_unlock reads held todo l :
  ordered reads held todo → ordered reads (reverse (Shard <$> l) ++ held) (((λ i, Release (Shard i)) <$> reverse l) ++ todo).
Proof.
  intros Ho. rewrite <-fmap_reverse. induction (reverse l) as [|i l' IH]; [done|]. by cbn [fmap list_fmap app ordered head tail].
Qed.
Lemma ordered_fork todo : ordered false [] todo → ordered false [] (LockForFork ++ [RealFork] ++ UnlockAfterFork ++ todo).
Proof.
  intros Ho. unfold LockForFork, UnlockAfterFork, LockAllShards, UnlockAllShards. rewrite <-!app_assoc. apply ordered_lock; [done|].
  rewrite app_nil_r. cbn [app ordered]. split.
  - rewrite Forall_reverse. apply Forall_fmap, Forall_forall. intros i Hi%elem_of_seq. unfold kPointerShards in Hi. cbn [rank compose]. unfold kPointerShards. lia.
  - split_and!; [done..|]. cbn [head tail]. rewrite <-(app_nil_r (reverse (Shard <$> shards))). by apply ordered_unlock.
Qed.

(** Every call but [fork] is mutexes, perhaps within the entry. *)
Lemma call_shape c : c ≠ LFork → ∃ body, within 0 body ∧ (call_locks c = body ∨ call_locks c = ScopedConcurrentLock body).
Proof.
  intros Hc. assert (∀ body, within 0 body → call_locks c = ScopedConcurrentLock body →
    ∃ body, within 0 body ∧ (call_locks c = body ∨ call_locks c = ScopedConcurrentLock body)) as Hin by (intros body ? ?; exists body; auto).
  destruct c; cbn [call_locks] in Hin |- *; try (eapply Hin; [|reflexivity]).
  - exists []. split; [apply within_nil|by left].
  - apply (within_entry 2); [done|]. destruct a; cbn [from_option]; auto with locks.
  - apply (within_entry 2); [done|auto with locks].
  - apply (within_entry 2); [done|]. unfold TakeEntry_locks, RestoreEntry_locks. apply within_app; [auto with locks|].
    destruct succeeded, had_entry, a; cbn [from_option]; auto with locks.
  - destruct locks_fd; [apply within_fd|apply (within_entry 1); [done|]]; auto with locks.
  - apply (within_entry 2); [done|]. unfold TakeEntry_locks, RestoreEntry_locks. apply within_app; [auto with locks|].
    destruct succeeded, had_entry; auto with locks.
  - apply (within_entry 2); [done|auto with locks].
  - apply (within_entry 2); [done|]. destruct moves as [[p q]|]; cbn [from_option]; auto with locks.
  - destruct registers_fd.
    + eapply Hin; [|reflexivity]. apply within_fd, within_app; [auto with locks|]. destruct n; cbn [from_option]; auto with locks.
    + exists (repeat_sections sections). split; [|by left]. apply (within_entry 1); [done|auto with locks].
  - apply within_fd, within_close.
  - apply (within_entry 2); [done|auto with locks].
  - exists (RecordObservedPeak_locks retained current). split; [|by left]. apply (within_entry 2); [done|auto with locks].
  - done.
Qed.
Lemma is_fork c : {c = LFork} + {c ≠ LFork}.
Proof. destruct c; first [right; discriminate|left; reflexivity]. Qed.
Lemma ordered_call c todo : ordered false [] todo → ordered false [] (call_locks c ++ todo).
Proof.
  intros Ho. destruct (is_fork c) as [->|Hc].
  - cbn [call_locks]. rewrite <-!app_assoc. by apply ordered_fork.
  - destruct (call_shape c Hc) as (body & Hb & [->| ->]); [by apply Hb|by apply ordered_entry].
Qed.
Lemma call_no_block c : BlockAllOperations ∉ call_locks c.
Proof.
  assert (∀ acts, Forall mutex_action acts → BlockAllOperations ∉ acts) as Hm.
  { intros acts Hf Hin. rewrite Forall_forall in Hf. by apply (Hf _ Hin). }
  destruct (is_fork c) as [->|Hc]; [by apply (bool_decide_unpack _); vm_compute|].
  destruct (call_shape c Hc) as (body & [Hb _] & [->| ->]); [by apply Hm|]. unfold ScopedConcurrentLock.
  intros [?|[Hin|Hin%list_elem_of_singleton]%elem_of_app]%elem_of_cons; [done|by apply (Hm body)|done].
Qed.

(** A thread makes calls, and perhaps finalizes with some reports. *)
Definition Program : Type := list LockCall * option nat.
Definition program_locks (p : Program) : list Action := concat (call_locks <$> p.1) ++ from_option debug_finalize_locks [] p.2.
Lemma within_dumps n : within 2 (concat (replicate n DumpLiveToFile_locks)).
Proof. induction n; cbn [replicate concat]; auto with locks. Qed.
Lemma ordered_program p : ordered false [] (program_locks p).
Proof.
  unfold program_locks. induction p.1 as [|c calls IH]; cbn [fmap list_fmap concat]; [|rewrite <-app_assoc; by apply ordered_call].
  destruct p.2 as [dumps|]; cbn [from_option app]; [|done]. unfold debug_finalize_locks. cbn [app ordered].
  destruct (within_dumps dumps) as [Hm Hw]. split_and!; try done. specialize (Hw false [] []). rewrite app_nil_r in Hw. by apply Hw.
Qed.

(** The sampler stays away from the entry. *)
Definition no_entry (a : Action) : Prop :=
  match a with ReadEntry | LeaveEntry | BlockAllOperations | JoinSampler => False | _ => True end.
Definition sampler_call (c : LockCall) : Prop := match c with LUntracked | LRecordObservedPeak _ _ => True | _ => False end.
Lemma mutex_no_entry acts : Forall mutex_action acts → Forall no_entry acts.
Proof. intros H. eapply Forall_impl; [done|]. by intros []. Qed.
Lemma sampler_no_entry p : Forall sampler_call p.1 → p.2 = None → Forall no_entry (program_locks p).
Proof.
  destruct p as [calls f]. cbn [fst snd]. intros Hc ->. unfold program_locks. cbn [fst snd from_option]. rewrite app_nil_r. induction Hc as [|c l Hc _ IH]; [constructor|].
  cbn [fmap list_fmap concat]. apply Forall_app. split; [|done]. destruct c; try done. apply mutex_no_entry. exact (proj1 (within_observed retained current)).
Qed.

(** ** The invariant *)

Section threads.
Context (sampler : Z) (prefer_writer : bool).

Definition reading (g : bool * list Mutex) : Z := if g.1 then 1 else 0.
(** What every thread holds, beside the state. *)
Record threads_ok (s : Threads) (g : gmap Z (bool * list Mutex)) : Prop := {
  to_thread t todo : th_todo s !! t = Some todo → ∃ reads held, g !! t = Some (reads, held) ∧ NoDup held ∧ ordered reads held todo;
  to_known t : is_Some (g !! t) → is_Some (th_todo s !! t);
  to_owner m t : lk_owner (th_locks s) !! m = Some t ↔ ∃ reads held, g !! t = Some (reads, held) ∧ m ∈ held;
  to_readers : lk_readers (th_locks s) = map_sum reading g;
  to_writer w : lk_writer (th_locks s) = Some w → lk_readers (th_locks s) = 0 ∧ ∃ todo, th_todo s !! w = Some todo ∧ Forall mutex_action todo;
  to_sampler todo : th_todo s !! sampler = Some todo → Forall no_entry todo;
}.

Lemma head_ok s g t a todo :
  threads_ok s g → th_todo s !! t = Some (a :: todo) →
  ∃ reads held, g !! t = Some (reads, held) ∧ NoDup held ∧ ordered reads held (a :: todo).
Proof using Type. intros Hok. apply (to_thread _ _ Hok). Qed.

(** A step that changes what one thread holds. *)
Lemma threads_update_ok s g t a todo l reads held reads' held' :
  threads_ok s g → th_todo s !! t = Some (a :: todo) → g !! t = Some (reads, held) →
  NoDup held' → ordered reads' held' todo →
  (∀ m u, lk_owner l !! m = Some u ↔ if decide (u = t) then m ∈ held' else lk_owner (th_locks s) !! m = Some u) →
  lk_readers l = lk_readers (th_locks s) + reading (reads', held') - reading (reads, held) →
  (∀ w, lk_writer l = Some w → lk_readers l = 0 ∧
    if decide (w = t) then Forall mutex_action todo else lk_writer (th_locks s) = Some w) →
  threads_ok (mkThreads l (<[t := todo]> (th_todo s))) (<[t := (reads', held')]> g).
Proof using Type.
  intros [H1 H2 H3 H4 H5 H6] Ht Hg Hnd Ho Hown Hread Hwr. split; cbn [th_locks th_todo].
  - intros u todo' [[<- <-]|[Hne Hu]]%lookup_insert_Some; [exists reads', held'; by rewrite lookup_insert_eq|].
    rewrite lookup_insert_ne by done. by apply H1.
  - intros u. rewrite !lookup_insert_is_Some. intros [->|[Hne Hu]]; [by left|]. right. split; [done|]. by apply H2.
  - intros m u. rewrite Hown. destruct (decide (u = t)) as [->|Hne].
    + rewrite lookup_insert_eq. split; [intros Hm; by eexists _, _|]. by intros (? & ? & [= <- <-] & ?).
    + rewrite lookup_insert_ne by done. apply H3.
  - rewrite Hread, H4, map_sum_insert, Hg. cbn [from_option]. lia.
  - intros w Hw. destruct (Hwr w Hw) as [Hr Hd]. split; [done|]. destruct (decide (w = t)) as [->|Hne].
    + exists todo. by rewrite lookup_insert_eq.
    + rewrite lookup_insert_ne by done. by apply H5.
  - intros todo' [[<- <-]|[Hne Hu]]%lookup_insert_Some; [|by apply H6]. specialize (H6 _ Ht). by inversion H6.
Qed.

Lemma owner_same s g t reads held :
  threads_ok s g → g !! t = Some (reads, held) →
  ∀ m u, lk_owner (th_locks s) !! m = Some u ↔ if decide (u = t) then m ∈ held else lk_owner (th_locks s) !! m = Some u.
Proof using Type.
  intros Hok Hg m u. destruct (decide (u = t)) as [->|]; [|done]. rewrite (to_owner _ _ Hok). split; [|by eexists _, _].
  intros (? & ? & E & Hm). rewrite Hg in E. by injection E as <- <-.
Qed.
Lemma writer_same s g t a todo :
  threads_ok s g → th_todo s !! t = Some (a :: todo) →
  ∀ w, lk_writer (th_locks s) = Some w → lk_readers (th_locks s) = 0 ∧
    if decide (w = t) then Forall mutex_action todo else lk_writer (th_locks s) = Some w.
Proof using Type.
  intros Hok Ht w Hw. destruct (to_writer _ _ Hok w Hw) as (Hr & todo' & Hw' & Hf). split; [done|]. destruct (decide (w = t)) as [->|]; [|done].
  rewrite Ht in Hw'. injection Hw' as <-. by inversion Hf.
Qed.

Lemma thread_step_ok s s' g : thread_step sampler prefer_writer s s' → threads_ok s g → ∃ g', threads_ok s' g'.
Proof using Type.
  intros [s0 t a todo l Ht Ha] Hok. destruct (head_ok _ _ _ _ _ Hok Ht) as (reads & held & Hg & Hnd & Ho).
  pose proof (owner_same _ _ _ _ _ Hok Hg) as Hsame. pose proof (writer_same _ _ _ _ _ Hok Ht) as Hwr. destruct a; cbn [act ordered] in Ha, Ho.
  - destruct Ho as (-> & -> & Ho). destruct (_ || _) eqn:Ew; [done|]. injection Ha as <-. apply orb_false_iff in Ew as [Ew _]. apply bool_decide_eq_false in Ew.
    eexists. eapply (threads_update_ok _ _ _ _ _ _ _ _ true []); try done; [cbn; lia|]. cbn. intros w Hw. destruct Ew. by eexists.
  - destruct Ho as (-> & -> & Ho). destruct (Z.eqb_spec (lk_readers (th_locks s0)) 0); [done|]. injection Ha as <-.
    eexists. eapply (threads_update_ok _ _ _ _ _ _ _ _ false []); try done; [cbn; lia|]. cbn. intros w Hw. by destruct (Hwr w Hw).
  - destruct Ho as (-> & -> & Hf & Ho). destruct (_ || _) eqn:Ew; [done|]. injection Ha as <-. apply orb_false_iff in Ew as [_ Ew].
    apply negb_false_iff, Z.eqb_eq in Ew. eexists. eapply (threads_update_ok _ _ _ _ _ _ _ _ false []); try done; [cbn; lia|]. cbn.
    intros w [= <-]. by rewrite decide_True.
  - destruct Ho as (Hr & Ho). destruct (lk_owner (th_locks s0) !! m) eqn:Em; [done|]. injection Ha as <-. eexists.
    eapply (threads_update_ok _ _ _ _ _ _ _ _ reads (m :: held)); try done; [| |destruct reads; cbn; lia].
    + constructor; [|done]. intros Hm. rewrite Forall_forall in Hr. specialize (Hr m Hm). cbn in Hr. lia.
    + intros m' u. cbn [lk_owner field_set]. specialize (Hsame m' u). destruct (decide (m' = m)) as [->|Hne].
      * rewrite lookup_insert_eq. destruct (decide (u = t)) as [->|Hu]; [split; [by left|done]|]. rewrite Em. split; [by intros [= ->]|done].
      * rewrite lookup_insert_ne, Hsame by done. destruct (decide (u = t)); [|done]. cbn. rewrite elem_of_cons. split; [by right|]. by intros [?|?].
  - destruct Ho as (Hh & Ho). case_bool_decide as Em; [|done]. injection Ha as <-. destruct held as [|m0 held]; [done|]. injection Hh as ->. cbn [tail] in Ho.
    apply NoDup_cons in Hnd as [Hni Hnd]. eexists. eapply (threads_update_ok _ _ _ _ _ _ _ _ reads held); try done; [|destruct reads; cbn; lia].
    intros m' u. cbn [lk_owner field_set]. specialize (Hsame m' u). destruct (decide (m' = m)) as [->|Hne].
    + rewrite lookup_delete_eq. destruct (decide (u = t)) as [->|Hu]; [by split|]. rewrite Em. split; [done|]. by intros [= ->].
    + rewrite lookup_delete_ne, Hsame by done. destruct (decide (u = t)); [|done]. cbn. rewrite elem_of_cons. split; [by intros [?|?]|by right].
  - destruct Ho as (-> & -> & Ho). assert (l = th_locks s0) as -> by (destruct (th_todo s0 !! sampler) as [[]|]; congruence).
    eexists. eapply (threads_update_ok _ _ _ _ _ _ _ _ false []); try done. cbn. lia.
  - destruct Ho as (-> & -> & Ho). injection Ha as <-. eexists. eapply (threads_update_ok _ _ _ _ _ _ _ _ false all_tracker); try done. cbn. lia.
  - done.
Qed.

(** ** Progress *)

Lemma highest (o : gmap Mutex Z) : o ≠ ∅ → ∃ m t, o !! m = Some t ∧ ∀ m' t', o !! m' = Some t' → rank m' ≤ rank m.
Proof using Type.
  induction o as [|m t o Hm IH] using map_ind; [done|]. intros _. destruct (decide (o = ∅)) as [->|Hne].
  - exists m, t. rewrite lookup_insert_eq. split; [done|]. intros m' t' [[-> _]|[_ H]]%lookup_insert_Some; [done|by rewrite lookup_empty in H].
  - destruct (IH Hne) as (m1 & t1 & H1 & Hmax). destruct (Z.le_gt_cases (rank m1) (rank m)).
    + exists m, t. rewrite lookup_insert_eq. split; [done|]. intros m' t' [[-> _]|[_ H']]%lookup_insert_Some; [done|]. specialize (Hmax _ _ H'). lia.
    + exists m1, t1. split; [by rewrite lookup_insert_ne by congruence|]. intros m' t' [[-> _]|[_ H']]%lookup_insert_Some; [lia|eauto].
Qed.
Definition can_step (s : Threads) : Prop := ∃ s', thread_step sampler prefer_writer s s'.
Lemma goes_steps s t a todo l : th_todo s !! t = Some (a :: todo) → act sampler prefer_writer t a s = Goes l → can_step s.
Proof using Type. intros Ht Ha. eexists. by econstructor. Qed.

(** Releasing is always of what is held. *)
Lemma held_owned s g t m held : threads_ok s g → (∃ reads, g !! t = Some (reads, held)) → m ∈ held → lk_owner (th_locks s) !! m = Some t.
Proof using Type. intros Hok [reads Hg] Hm. apply (to_owner _ _ Hok). by exists reads, held. Qed.
Lemma release_goes s g t m todo :
  threads_ok s g → th_todo s !! t = Some (Release m :: todo) → lk_owner (th_locks s) !! m = Some t.
Proof using Type.
  intros Hok Ht. destruct (head_ok _ _ _ _ _ Hok Ht) as (reads & held & Hg & _ & Hh & _). apply (held_owned s g t m held Hok); [by eexists|].
  destruct held; [done|]. injection Hh as ->. by left.
Qed.
Lemma leave_goes s g t todo : threads_ok s g → th_todo s !! t = Some (LeaveEntry :: todo) → lk_readers (th_locks s) ≠ 0.
Proof using Type.
  intros Hok Ht. destruct (head_ok _ _ _ _ _ Hok Ht) as (reads & held & Hg & _ & _ & -> & _). rewrite (to_readers _ _ Hok).
  pose proof (map_sum_elem reading g t _ ltac:(intros ? [[] ?] _; cbn; lia) Hg) as H. cbn in H. lia.
Qed.

Lemma mutex_progress s g : threads_ok s g → lk_owner (th_locks s) ≠ ∅ → can_step s.
Proof using Type.
  intros Hok Hne. destruct (highest _ Hne) as (m & t & Hm & Hmax). pose proof (proj1 (to_owner _ _ Hok m t) Hm) as (reads & held & Hg & Hin).
  destruct (to_known _ _ Hok t ltac:(by eexists)) as [todo Ht]. destruct (to_thread _ _ Hok t todo Ht) as (r & h & Hg' & _ & Ho).
  rewrite Hg in Hg'. injection Hg' as <- <-. assert (held ≠ []) as Hhe by (by intros ->; apply elem_of_nil in Hin).
  destruct todo as [|a todo]; [by destruct Ho|]. destruct a; cbn [ordered] in Ho; try by destruct Ho.
  - destruct Ho as [Hr _]. rewrite Forall_forall in Hr. specialize (Hr m Hin). cbn in Hr.
    destruct (lk_owner (th_locks s) !! m0) as [u|] eqn:Em; [specialize (Hmax _ _ Em); lia|]. eapply goes_steps; [done|]. cbn. by rewrite Em.
  - eapply goes_steps; [done|]. cbn. by rewrite bool_decide_true by (by eapply release_goes).
  - by eapply goes_steps.
Qed.

Definition at_entry (todo : list Action) : Prop :=
  match todo with [] | ReadEntry :: _ | BlockAllOperations :: _ => True | _ => False end.
#[local] Instance at_entry_dec todo : Decision (at_entry todo).
Proof using Type. destruct todo as [|[] ?]; apply _. Defined.

(** With no mutex held, whoever is not at the entry goes on. *)
Lemma free_progress s g t a todo :
  threads_ok s g → lk_owner (th_locks s) = ∅ → th_todo s !! t = Some (a :: todo) → mutex_action a → can_step s.
Proof using Type.
  intros Hok He Ht Hm. destruct a; try done.
  - eapply goes_steps; [done|]. cbn. by rewrite He, lookup_empty.
  - pose proof (release_goes _ _ _ _ _ Hok Ht) as E. by rewrite He, lookup_empty in E.
Qed.
Lemma away_progress s g t todo :
  threads_ok s g → lk_owner (th_locks s) = ∅ → th_todo s !! t = Some todo → ¬ at_entry todo → can_step s.
Proof using Type.
  intros Hok He Ht Ha. destruct todo as [|a todo]; [done|]. destruct a; try done.
  - eapply goes_steps; [done|]. cbn. pose proof (leave_goes _ _ _ _ Hok Ht). by rewrite (proj2 (Z.eqb_neq _ _)) by done.
  - by eapply free_progress.
  - by eapply free_progress.
  - destruct (th_todo s !! sampler) as [[|b rest]|] eqn:Es.
    + eapply goes_steps; [done|]. cbn. by rewrite Es.
    + pose proof (to_sampler _ _ Hok _ Es) as Hn. apply Forall_cons in Hn as [Hb _]. destruct b; try done.
      * by eapply free_progress.
      * by eapply free_progress.
      * by eapply goes_steps.
      * by destruct (head_ok _ _ _ _ _ Hok Es) as (? & ? & _ & _ & ?).
    + eapply goes_steps; [done|]. cbn. by rewrite Es.
  - by eapply goes_steps.
  - by destruct (head_ok _ _ _ _ _ Hok Ht) as (? & ? & _ & _ & ?).
Qed.

(** All at the entry: it is open, or closed for good. *)
Lemma no_readers s g :
  threads_ok s g → map_Forall (λ _ todo, at_entry todo) (th_todo s) → lk_readers (th_locks s) = 0.
Proof using Type.
  intros Hok Hall. rewrite (to_readers _ _ Hok). apply map_sum_zero. intros t [[] held] Hg; [|done]. exfalso.
  destruct (to_known _ _ Hok t ltac:(by eexists)) as [todo Ht].
  destruct (to_thread _ _ Hok t todo Ht) as (r & h & Hg' & _ & Ho). rewrite Hg in Hg'. injection Hg' as <- <-. specialize (Hall t todo Ht).
  destruct todo as [|[] ?]; try done; naive_solver.
Qed.
Lemma entry_progress s g :
  threads_ok s g → map_Forall (λ _ todo, at_entry todo) (th_todo s) →
  can_step s ∨ map_Forall (λ _ todo, todo = []) (th_todo s) ∨ ∃ w, lk_writer (th_locks s) = Some w ∧ th_todo s !! w = Some [].
Proof using Type.
  intros Hok Hall. pose proof (no_readers s g Hok Hall) as Hr. destruct (lk_writer (th_locks s)) as [w|] eqn:Ew.
  - right; right. exists w. split; [done|]. destruct (to_writer _ _ Hok w Ew) as (_ & todo & Hw & Hf). specialize (Hall w todo Hw).
    destruct todo as [|a todo]; [done|]. apply Forall_cons in Hf as [Hm _]. by destruct a.
  - destruct (writer_waiting s) eqn:Eww.
    + left. apply bool_decide_eq_true in Eww as (t & todo & Ht & Hh). destruct todo as [|a todo]; [done|]. injection Hh as ->.
      eapply goes_steps; [done|]. cbn. by rewrite Ew, Hr.
    + destruct (decide (map_Forall (λ _ todo, todo = []) (th_todo s))) as [Hd|Hd]; [by right; left|]. left.
      apply map_not_Forall in Hd as (t & todo & Ht & Hne); [|apply _]. specialize (Hall t todo Ht). destruct todo as [|[] todo]; try done.
      * eapply goes_steps; [done|]. cbn. by rewrite Ew, Eww, andb_false_r.
      * eapply goes_steps; [done|]. cbn. by rewrite Ew, Hr.
Qed.
Lemma threads_progress s g :
  threads_ok s g →
  can_step s ∨ map_Forall (λ _ todo, todo = []) (th_todo s) ∨
  (lk_owner (th_locks s) = ∅ ∧ map_Forall (λ _ todo, at_entry todo) (th_todo s) ∧ ∃ w, lk_writer (th_locks s) = Some w ∧ th_todo s !! w = Some []).
Proof using Type.
  intros Hok. destruct (decide (lk_owner (th_locks s) = ∅)) as [He|He]; [|left; by eapply mutex_progress].
  destruct (decide (map_Forall (λ _ todo, at_entry todo) (th_todo s))) as [Hall|Hall].
  - destruct (entry_progress s g Hok Hall) as [?|[?|?]]; [by left|by right; left|by right; right].
  - left. apply map_not_Forall in Hall as (t & todo & Ht & Hne); [|apply _]. by eapply away_progress.
Qed.

(** ** Runs *)

Definition threads_init (programs : gmap Z Program) : Threads := mkThreads Locks_new (program_locks <$> programs).
Definition actions_left (s : Threads) : Z := map_sum (λ todo, Z.of_nat (length todo)) (th_todo s).
Definition sampler_ok (programs : gmap Z Program) : Prop :=
  ∀ p, programs !! sampler = Some p → Forall sampler_call p.1 ∧ p.2 = None.
Definition finalizes (programs : gmap Z Program) (t : Z) : Prop := ∃ p, programs !! t = Some p ∧ is_Some p.2.

Lemma threads_init_ok programs : sampler_ok programs → threads_ok (threads_init programs) ((λ _, (false, [])) <$> programs).
Proof using Type.
  intros Hs. split; cbn [threads_init th_locks th_todo Locks_new lk_owner lk_readers lk_writer].
  - intros t todo. rewrite !lookup_fmap. destruct (programs !! t) as [p|]; [|done]. intros [= <-]. exists false, []. split; [done|].
    split; [constructor|apply ordered_program].
  - intros t. by rewrite !lookup_fmap, !fmap_is_Some.
  - intros m t. rewrite lookup_empty, lookup_fmap. split; [done|]. intros (reads & held & E & Hm). destruct (programs !! t); [|done].
    injection E as <- <-. by apply elem_of_nil in Hm.
  - symmetry. apply map_sum_zero. intros t x. rewrite lookup_fmap. destruct (programs !! t); [|done]. by intros [= <-].
  - done.
  - intros todo. rewrite lookup_fmap. destruct (programs !! sampler) as [p|] eqn:E; [|done]. intros [= <-]. by apply sampler_no_entry; apply Hs.
Qed.

Lemma step_left s s' : thread_step sampler prefer_writer s s' → actions_left s = actions_left s' + 1.
Proof using Type.
  intros [s0 t a todo l Ht Ha]. unfold actions_left. cbn [th_todo]. rewrite map_sum_insert, Ht. cbn [from_option length]. lia.
Qed.
Lemma blockers_finalize programs s s' :
  thread_step sampler prefer_writer s s' →
  (∀ t todo, th_todo s !! t = Some todo → BlockAllOperations ∈ todo → finalizes programs t) →
  (∀ w, lk_writer (th_locks s) = Some w → finalizes programs w) →
  (∀ t todo, th_todo s' !! t = Some todo → BlockAllOperations ∈ todo → finalizes programs t) ∧
  (∀ w, lk_writer (th_locks s') = Some w → finalizes programs w).
Proof using Type.
  intros [s0 t a todo l Ht Ha] H1 H2. cbn [th_todo th_locks]. split.
  - intros u todo' [[<- <-]|[_ Hu]]%lookup_insert_Some Hin; [|by eapply H1]. apply (H1 t _ Ht). by right.
  - intros w Hw. assert (lk_writer (th_locks s0) = Some w ∨ (a = BlockAllOperations ∧ w = t)) as [?|[-> ->]]; [|by apply H2|apply (H1 t _ Ht); by left].
    destruct a; cbn [act] in Ha; repeat case_match; try done; injection Ha as <-; cbn in Hw; first [done|by left|right; split; [done|by injection Hw]].
Qed.

Record run_ok (programs : gmap Z Program) (n : nat) (s : Threads) : Prop := {
  ru_ok : ∃ g, threads_ok s g;
  ru_left : Z.of_nat n + actions_left s = actions_left (threads_init programs);
  ru_block t todo : th_todo s !! t = Some todo → BlockAllOperations ∈ todo → finalizes programs t;
  ru_writer w : lk_writer (th_locks s) = Some w → finalizes programs w;
}.
Lemma run_reachable programs n s :
  sampler_ok programs → nsteps (thread_step sampler prefer_writer) n (threads_init programs) s → run_ok programs n s.
Proof using Type.
  intros Hs. revert s. induction n as [|n IH]; intros s Hn.
  - inversion Hn; subst. split; [eexists; by apply threads_init_ok|done| |done]. intros t todo. cbn [threads_init th_todo]. rewrite lookup_fmap.
    destruct (programs !! t) as [p|] eqn:Ep; [|done]. intros [= <-]. unfold program_locks. intros [Hin|Hin]%elem_of_app.
    + apply list_elem_of_In, in_concat in Hin as (acts & Ha & Hin). apply list_elem_of_In, list_elem_of_fmap in Ha as (c & -> & _).
      by apply list_elem_of_In, call_no_block in Hin.
    + exists p. split; [done|]. destruct p.2; [done|by apply elem_of_nil in Hin].
  - apply nsteps_inv_r in Hn as (s1 & Hn & Hstep). destruct (IH s1 Hn) as [[g Hg] Hl H1 H2].
    destruct (blockers_finalize programs _ _ Hstep H1 H2) as [H3 H4]. destruct (thread_step_ok _ _ _ Hstep Hg) as [g' Hg'].
    split; [by eexists|pose proof (step_left _ _ Hstep); lia|done|done].
Qed.
End threads.

(** C3. The threads of a process never block each other for ever. Let every
    thread make any interposed calls, dump the heap or fork, and perhaps finalize
    at the end; let the sampler record peaks; and let the steps between lock
    operations interleave in any way, whether the entry prefers writers or not.
    Then no lock is released that is not held; every step leaves one action
    less, so no run goes on for ever; and when no thread can go on, all are done,
    or one has finalized, no mutex is held, and the others wait at the entry that
    finalization closes for good. *)
Theorem locks_never_deadlock sampler prefer_writer programs n s :
  sampler_ok sampler programs →
  nsteps (thread_step sampler prefer_writer) n (threads_init programs) s →
  Z.of_nat n + actions_left s = actions_left (threads_init programs) ∧
  (∀ t a todo, th_todo s !! t = Some (a :: todo) → act sampler prefer_writer t a s ≠ Undefined) ∧
  ((∃ s', thread_step sampler prefer_writer s s') ∨
   (∀ t todo, th_todo s !! t = Some todo → todo = []) ∨
   (∃ w, finalizes programs w ∧ th_todo s !! w = Some [] ∧ lk_owner (th_locks s) = ∅ ∧
      ∀ t a todo, th_todo s !! t = Some (a :: todo) → a = ReadEntry ∨ a = BlockAllOperations)).
Proof.
  intros Hs Hn. destruct (run_reachable _ _ _ _ _ Hs Hn) as [[g Hg] Hl _ Hw]. split; [done|]. split.
  - intros t a todo Ht. destruct a; cbn [act]; repeat case_match; try done; intros _.
    + pose proof (leave_goes _ _ _ _ _ Hg Ht). by apply Z.eqb_eq in H.
    + pose proof (release_goes _ _ _ _ _ _ Hg Ht). by apply bool_decide_eq_false in H.
  - destruct (threads_progress sampler prefer_writer s g Hg) as [?|[?|(He & Hall & w & Ew & Hw0)]]; [by left|by right; left|right; right].
    exists w. split; [by apply Hw|]. split; [done|]. split; [done|]. intros t a todo Ht. specialize (Hall t _ Ht). destruct a; naive_solver.
Qed.

(** ** Fork *)

Lemma child_locks_eq : HookAtForkChild_locks = (Release <$> all_tracker) ++ [ReinitAfterForkInChild].
Proof. by vm_compute. Qed.
Lemma run_release sampler prefer_writer t rest (l : list Mutex) : ∀ s,
  NoDup l → (∀ m, m ∈ l → lk_owner (th_locks s) !! m = Some t) →
  ∃ todo owner, run_thread sampler prefer_writer t ((Release <$> l) ++ rest) s =
    run_thread sampler prefer_writer t rest (mkThreads ((th_locks s) <| lk_owner := owner |>) todo) ∧
    ∀ m, owner !! m = if decide (m ∈ l) then None else lk_owner (th_locks s) !! m.
Proof.
  induction l as [|m l IH]; intros [lk td] Hnd Hown.
  - exists td, (lk_owner lk). split; [by destruct lk|]. intros m. by rewrite decide_False by apply not_elem_of_nil.
  - apply NoDup_cons in Hnd as [Hni Hnd]. cbn [fmap list_fmap app run_thread act th_locks]. rewrite bool_decide_true by (apply Hown; by left).
    destruct (IH (mkThreads (lk <| lk_owner := delete m (lk_owner lk) |>) (<[t := (Release <$> l) ++ rest]> td)) Hnd) as (todo & owner & E & Ho).
    { intros m' Hm'. cbn. rewrite lookup_delete_ne by (by intros ->). apply Hown. by right. }
    exists todo, owner. split; [exact E|]. intros m'. rewrite Ho. cbn [th_locks lk_owner field_set]. destruct (decide (m' = m)) as [->|Hne].
    + rewrite (decide_True (P := m ∈ m :: l)) by (by left). rewrite lookup_delete_eq. by destruct (decide _).
    + rewrite lookup_delete_ne by done. destruct (decide (m' ∈ l)) as [Hin|Hni']; [by rewrite decide_True by (by right)|].
      by rewrite decide_False by (intros [?|?]%elem_of_cons; done).
Qed.

(** A process made by fork does not inherit the tracker locked. Whatever the
    other threads were doing, when the real fork runs the thread that called it
    holds every shard and the frames, so that the handler of the child, whose only
    thread this is, runs to its end without waiting and without releasing what it
    does not hold; after it these locks are free, and the entry has neither the
    readers that were cloned without their threads nor a writer. Only the two
    mutexes of descriptors, which the suppressed child does not take, may stay
    locked. *)
Theorem fork_child_unlocked sampler prefer_writer programs n s t todo :
  sampler_ok sampler programs →
  nsteps (thread_step sampler prefer_writer) n (threads_init programs) s →
  th_todo s !! t = Some (RealFork :: todo) →
  ∃ l, run_thread sampler prefer_writer t HookAtForkChild_locks (fork_child t s) = Goes l ∧
    lk_readers l = 0 ∧ lk_writer l = None ∧ lk_owner l !! Frame = None ∧
    (∀ p, lk_owner l !! shard_of p = None) ∧
    (∀ m, is_Some (lk_owner l !! m) → lk_owner l !! m = lk_owner (th_locks s) !! m).
Proof.
  intros Hs Hn Ht. destruct (run_reachable _ _ _ _ _ Hs Hn) as [[g Hg] _ _ _].
  destruct (head_ok _ _ _ _ _ _ Hg Ht) as (reads & held & Hgt & Hnd & -> & _).
  assert (∀ m, m ∈ all_tracker → lk_owner (th_locks s) !! m = Some t) as Hown.
  { intros m Hm. apply (to_owner _ _ _ Hg). by eexists _, _. }
  destruct (run_release sampler prefer_writer t [ReinitAfterForkInChild] all_tracker (fork_child t s) Hnd Hown) as (td & owner & E & Ho).
  rewrite child_locks_eq, E. cbn [run_thread act]. eexists. split; [reflexivity|]. cbn [th_locks fork_child lk_readers lk_writer lk_owner field_set].
  split; [done|]. split; [done|]. split; [|split].
  - rewrite Ho, decide_True; [done|]. by left.
  - intros p. rewrite Ho, decide_True; [done|]. right. apply elem_of_reverse, list_elem_of_fmap. eexists. split; [done|].
    apply elem_of_seq. split; [lia|]. apply (ShardFor_lt (ManglePointer p)).
  - intros m [u Hu]. rewrite Ho in Hu |- *. by destruct (decide (m ∈ all_tracker)).
Qed.

(** ** Examples *)

(** The next [k] actions of one thread. *)
Fixpoint turns (sampler : Z) (prefer_writer : bool) (k : nat) (t : Z) (s : Threads) : option Threads :=
  match k with
  | O => Some s
  | S k =>
      match th_todo s !! t with
      | Some (a :: todo) =>
          match act sampler prefer_writer t a s with
          | Goes l => turns sampler prefer_writer k t (mkThreads l (<[t := todo]> (th_todo s)))
          | _ => None
          end
      | _ => None
      end
  end.
Lemma turns_nsteps sampler prefer_writer t k : ∀ s s',
  turns sampler prefer_writer k t s = Some s' → nsteps (thread_step sampler prefer_writer) k s s'.
Proof.
  induction k as [|k IH]; intros s s'; cbn [turns]; [intros [= <-]; constructor|]. destruct (th_todo s !! t) as [[|a todo]|] eqn:Et; [done| |done].
  destruct (act _ _ _ _ _) as [l| |] eqn:Ea; [|done..]. intros H. eapply nsteps_l; [by econstructor|]. by apply IH.
Qed.

(** The thread 1 forks and allocates at a new peak, the thread 2 closes a
    descriptor and finalizes, and the thread 3 is the sampler. *)
Definition example_programs : gmap Z Program :=
  {[ 1 := ([LFork; LAllocate (Some (mkAdding 4096 true (Some true) false))], None);
     2 := ([LClose 5 (Some (Some true))], Some 1%nat);
     3 := ([LRecordObservedPeak true true], None) ]}.
Lemma example_sampler : sampler_ok 3 example_programs.
Proof. intros p E. vm_compute in E. injection E as <-. split; [by repeat constructor|done]. Qed.

(** After three actions of the first thread it holds three shards. *)
Lemma locks_never_deadlock_witness :
  ∃ s, turns 3 true 3 1 (threads_init example_programs) = Some s ∧ size (lk_owner (th_locks s)) = 3%nat ∧
    3 + actions_left s = actions_left (threads_init example_programs) ∧
    ((∃ s', thread_step 3 true s s') ∨ (∀ t todo, th_todo s !! t = Some todo → todo = []) ∨
     (∃ w, finalizes example_programs w ∧ th_todo s !! w = Some [] ∧ lk_owner (th_locks s) = ∅ ∧
        ∀ t a todo, th_todo s !! t = Some (a :: todo) → a = ReadEntry ∨ a = BlockAllOperations)).
Proof.
  assert (∃ s, turns 3 true 3 1 (threads_init example_programs) = Some s ∧ size (lk_owner (th_locks s)) = 3%nat) as (s & E & Hs)
    by (eexists; split; [vm_compute; reflexivity|vm_compute; reflexivity]).
  destruct (locks_never_deadlock 3 true example_programs 3 s example_sampler (turns_nsteps _ _ _ _ _ _ E)) as (H1 & _ & H2).
  exists s. split; [exact E|]. split; [exact Hs|]. split; [exact H1|exact H2].
Defined.

(** The thread 2 is inside a call when the first one forks. *)
Definition forks_inside (s1 : Threads) : bool :=
  match turns 3 true 65 1 s1 with
  | Some s2 => match th_todo s2 !! 1 with Some (RealFork :: _) => lk_readers (th_locks s2) =? 1 | _ => false end
  | None => false
  end.
Lemma fork_child_unlocked_witness :
  ∃ s1 s2 l, turns 3 true 1 2 (threads_init example_programs) = Some s1 ∧ turns 3 true 65 1 s1 = Some s2 ∧ lk_readers (th_locks s2) = 1 ∧
    run_thread 3 true 1 HookAtForkChild_locks (fork_child 1 s2) = Goes l ∧ lk_readers l = 0 ∧ lk_owner l !! Frame = None.
Proof.
  assert (from_option forks_inside false (turns 3 true 1 2 (threads_init example_programs)) = true) as E by (vm_compute; reflexivity).
  destruct (turns 3 true 1 2 (threads_init example_programs)) as [s1|] eqn:E1; [|discriminate]. cbn [from_option] in E. unfold forks_inside in E.
  destruct (turns 3 true 65 1 s1) as [s2|] eqn:E2; [|discriminate]. destruct (th_todo s2 !! 1) as [[|[] todo]|] eqn:Ht; try discriminate.
  apply Z.eqb_eq in E. pose proof (nsteps_trans _ _ _ _ _ (turns_nsteps _ _ _ _ _ _ E1) (turns_nsteps _ _ _ _ _ _ E2)) as Hn.
  destruct (fork_child_unlocked 3 true example_programs _ s2 1 todo example_sampler Hn Ht) as (l & Hl & Hrd & _ & Hf & _).
  exists s1, s2, l. split; [reflexivity|]. repeat (split; [assumption|]). exact Hf.
Defined.
