(* ===== verification/StackRefs.v ===== *)
(** * Stack references across interleaved operations

    An allocation takes a reference to its stack in one critical section
    ([AddBacktrace]) and stores it in another; a release detaches a record in
    one and drops its reference in a third.  Here the critical sections of all
    threads are steps of one transition system: [st_refs] are the references
    threads hold between two sections, [st_taken] the records detached by
    operations in flight. *)
From S2P Require Import Prelude CString Capture Config PointerTable.

Section system.
Context {T : Type} `{LiveTable T} (cfg : Config).

Record System := mkSystem {
  st_live : Live T;
  st_frames : FrameTable;
  st_refs : list Z;
  st_taken : list (Z * PointerInfoType);
}.

Definition system_init : System := mkSystem live_init frame_table_init [] [].

(** How often stack [h] is referred to: by live records, between sections, and
    by detached records. *)
Definition is_hash (h x : Z) : Z := if x =? h then 1 else 0.
Definition count (s : System) (h : Z) : Z :=
  map_sum (λ i, is_hash h (info_hash i)) (lt_view (lv_table (st_live s))) +
  list_sum (is_hash h) (st_refs s) + list_sum (λ e, is_hash h (info_hash e.2)) (st_taken s).

(** Neither the index counter nor a reference count is about to wrap. *)
Definition room (s : System) : Prop :=
  cur_hash_index_ (st_frames s) < 2 ^ 64 - 1 ∧ ∀ h, count s h < 2 ^ 64 - 1.

Definition hash_list (d : option PointerInfoType) : list Z := from_option (λ i, [info_hash i]) [] d.

Inductive step : System → System → Prop :=
  | step_capture s raw size_bytes h f :
      frame_count raw ≤ kMaxAsyncRawFrames → room s →
      AddBacktrace cfg raw size_bytes (st_frames s) = (h, f) →
      step s (mkSystem (st_live s) f (h :: st_refs s) (st_taken s))
  | step_add s ptr info d total raised l refs :
      st_refs s ≡ₚ info_hash info :: refs →
      add_entry ptr info (st_live s) = (d, total, raised, l) →
      step s (mkSystem l (st_frames s) (hash_list d ++ refs) (st_taken s))
  | step_remap s old_ptr new_ptr new_size info d total raised l :
      remap_entry old_ptr new_ptr new_size (st_live s) = Some (info, d, total, raised, l) →
      step s (mkSystem l (st_frames s) (hash_list d ++ st_refs s) (st_taken s))
  | step_take s ptr info l :
      TakeEntry ptr (st_live s) = (Some info, l) →
      step s (mkSystem l (st_frames s) (st_refs s) ((ptr, info) :: st_taken s))
  | step_restore s ptr info taken :
      st_taken s ≡ₚ (ptr, info) :: taken →
      lt_view (lv_table (st_live s)) !! ManglePointer ptr = None →
      step s (mkSystem (RestoreEntry ptr info (st_live s)) (st_frames s) (st_refs s) taken)
  | step_drop s ptr info taken :
      st_taken s ≡ₚ (ptr, info) :: taken →
      step s (mkSystem (st_live s) (st_frames s) (info_hash info :: st_refs s) taken)
  | step_release s h refs :
      st_refs s ≡ₚ h :: refs →
      step s (mkSystem (st_live s) (RemoveBacktrace cfg h (st_frames s)) refs (st_taken s)).

Inductive reachable : System → Prop :=
  | reachable_init : reachable system_init
  | reachable_step s s' : reachable s → step s s' → reachable s'.

(** The stack table and the references agree. *)
Definition references_of (f : FrameTable) (h : Z) : Z := from_option references 0 (frames_ f !! h).
Definition stack_key (fi : FrameInfoType) : FrameKeyType := (fi_generation fi, fi_frames fi).

Record frames_wf (f : FrameTable) : Prop := {
  fw_cur : kBacktraceEmptyIndex < cur_hash_index_ f < 2 ^ 64;
  fw_range h fi : frames_ f !! h = Some fi →
    kBacktraceEmptyIndex < h < cur_hash_index_ f ∧ 0 < references fi < 2 ^ 64 ∧
    (length (fi_frames fi) ≤ Z.to_nat kMaxAsyncRawFrames)%nat;
  fw_key key h : key_to_index_ f !! key = Some h ↔ ∃ fi, frames_ f !! h = Some fi ∧ stack_key fi = key;
}.

Record system_inv (s : System) : Prop := {
  si_live : live_ok (st_live s);
  si_frames : frames_wf (st_frames s);
  si_count h : kBacktraceEmptyIndex < h → references_of (st_frames s) h = count s h;
}.
End system.
#[global] Arguments System : clear implicits.

(** ** The stack table *)

Lemma is_hash_nonneg h x : 0 ≤ is_hash h x.
Proof. unfold is_hash. case_match; lia. Qed.

Lemma is_hash_self h : is_hash h h = 1.
Proof. unfold is_hash. by rewrite Z.eqb_refl. Qed.

Lemma frame_table_init_wf : frames_wf frame_table_init.
Proof. split; [done|done|]. intros key h. cbn. rewrite lookup_empty. split; [done|by intros (? & ? & _)]. Qed.

(** Changing a reference count keeps the table well-formed. *)
Lemma set_references_wf f h fi n :
  frames_wf f → frames_ f !! h = Some fi → 0 < n < 2 ^ 64 →
  frames_wf (f <| frames_ := <[h := fi <| references := n |>]> (frames_ f) |>) ∧
  ∀ x, references_of (f <| frames_ := <[h := fi <| references := n |>]> (frames_ f) |>) x =
       references_of f x + is_hash x h * (n - references fi).
Proof.
  intros [Hcur Hr Hk] Hfi Hn. destruct (Hr h fi Hfi) as (Hh & Href & Hl). split.
  - split; cbn; [done| |].
    + intros h' fi' [[<- <-]|[_ Hl']]%lookup_insert_Some; [|by apply Hr]. cbn. split_and!; done || lia.
    + intros key h'. rewrite Hk. split; intros (fi' & Hfi' & <-).
      * destruct (decide (h = h')) as [<-|Hne].
        -- simplify_eq. eexists. rewrite lookup_insert_eq. done.
        -- exists fi'. by rewrite lookup_insert_ne.
      * apply lookup_insert_Some in Hfi' as [[<- <-]|[_ Hfi']]; eauto.
  - intros x. unfold references_of, is_hash. cbn. destruct (Z.eqb_spec h x) as [<-|Hne].
    + rewrite lookup_insert_eq, Hfi. cbn. lia.
    + rewrite lookup_insert_ne by done. lia.
Qed.

(** One more reference to a stack. *)
Lemma intern_stack_wf raw f :
  frames_wf f → cur_hash_index_ f < 2 ^ 64 - 1 → frame_count raw ≤ kMaxAsyncRawFrames →
  (∀ h, kBacktraceEmptyIndex < h → references_of f h < 2 ^ 64 - 1) →
  let '(h, f') := intern_stack raw f in
  frames_wf f' ∧ kBacktraceEmptyIndex < h ∧
  ∀ x, references_of f' x = references_of f x + is_hash x h.
Proof.
  intros Hwf Hroom Hfc Hrefs. pose proof Hwf as [Hcur Hr Hk]. unfold intern_stack.
  set (probe := (module_generation raw, raw_frames raw)).
  assert (length (raw_frames raw) ≤ Z.to_nat kMaxAsyncRawFrames)%nat as Hlen.
  { unfold raw_frames. rewrite length_take. lia. }
  destruct (key_to_index_ f !! probe) as [h|] eqn:E.
  - apply Hk in E as (fi & Hfi & Hkey). destruct (Hr h fi Hfi) as (Hh & Href & Hl). rewrite Hfi.
    assert (references fi < 2 ^ 64 - 1) as Hlt.
    { specialize (Hrefs h ltac:(lia)). unfold references_of in Hrefs. by rewrite Hfi in Hrefs. }
    cbn [default from_option id]. rewrite (u64_small (references fi + 1)) by lia.
    destruct (set_references_wf f h fi (references fi + 1)) as [H1 H2]; [done|done|lia|].
    split_and!; [done|lia|]. intros x. rewrite H2. lia.
  - set (h := cur_hash_index_ f). assert (frames_ f !! h = None) as Hfresh.
    { destruct (frames_ f !! h) as [fi|] eqn:Eh; [|done]. apply Hr in Eh. lia. }
    rewrite (u64_small (h + 1)) by (unfold kBacktraceEmptyIndex in *; lia).
    split; [|split; [lia|]].
    + split; cbn; [unfold kBacktraceEmptyIndex in *; lia| |].
      * intros h' fi' [[<- <-]|[_ Hl']]%lookup_insert_Some; [cbn; split_and!; done || lia|].
        destruct (Hr _ _ Hl') as (? & ? & ?). split_and!; done || lia.
      * intros key h'. destruct (decide (probe = key)) as [<-|Hne].
        -- rewrite lookup_insert_eq. split.
           ++ intros [= <-]. eexists. rewrite lookup_insert_eq. done.
           ++ intros (fi' & Hfi' & Hkey).
              apply lookup_insert_Some in Hfi' as [[<- _]|[Hne Hfi']]; [done|].
              assert (key_to_index_ f !! probe = Some h') by (apply Hk; eauto). congruence.
        -- rewrite lookup_insert_ne by done. rewrite Hk. split; intros (fi' & Hfi' & Hkey).
           ++ exists fi'. rewrite lookup_insert_ne; [done|]. intros <-. congruence.
           ++ apply lookup_insert_Some in Hfi' as [[<- <-]|[_ Hfi']]; [by destruct Hne|eauto].
    + intros x. unfold references_of. cbn. destruct (decide (h = x)) as [<-|Hne].
      * rewrite lookup_insert_eq, Hfresh. unfold is_hash. rewrite Z.eqb_refl. done.
      * rewrite lookup_insert_ne by done. unfold is_hash. destruct (Z.eqb_spec h x); [done|]. lia.
Qed.

(** One reference less; the last one frees the stack and its key. *)
Lemma RemoveBacktrace_wf cfg h f :
  frames_wf f → (kBacktraceEmptyIndex < h → is_Some (frames_ f !! h)) →
  frames_wf (RemoveBacktrace cfg h f) ∧
  ∀ x, kBacktraceEmptyIndex < x →
    references_of (RemoveBacktrace cfg h f) x = references_of f x - is_hash x h.
Proof.
  intros Hwf Hin. unfold RemoveBacktrace.
  destruct (Z.leb_spec h kBacktraceEmptyIndex) as [Hle|Hgt].
  { split; [done|]. intros x Hx. unfold is_hash. destruct (Z.eqb_spec h x); lia. }
  destruct (Hin Hgt) as [fi Hfi]. rewrite Hfi. pose proof Hwf as [Hcur Hr Hk].
  destruct (Hr h fi Hfi) as (Hh & Href & Hl). cbn [references fi_generation fi_frames field_set]. rewrite (u64_small (references fi - 1)) by lia.
  destruct (Z.eqb_spec (references fi - 1) 0) as [Hz|Hnz].
  - rewrite take_ge by done. fold (stack_key fi). split.
    + split; cbn; [done| |].
      * intros h' fi' [_ Hl']%lookup_delete_Some. by apply Hr.
      * intros key h'. rewrite lookup_delete_Some, Hk. split.
        -- intros (Hne & fi' & Hfi' & <-). exists fi'. rewrite lookup_delete_ne; [done|].
           intros <-. congruence.
        -- intros (fi' & [Hne Hfi']%lookup_delete_Some & <-). split; [|by eauto]. intros Hkey.
           assert (key_to_index_ f !! stack_key fi = Some h) by (apply Hk; eauto).
           assert (key_to_index_ f !! stack_key fi' = Some h') by (apply Hk; eauto). congruence.
    + intros x Hx. unfold references_of. cbn. unfold is_hash. destruct (Z.eqb_spec h x) as [<-|Hne].
      * rewrite lookup_delete_eq, Hfi. cbn. lia.
      * rewrite lookup_delete_ne by done. lia.
  - destruct (set_references_wf f h fi (references fi - 1)) as [H1 H2]; [done|done|lia|].
    split; [done|]. intros x _. rewrite H2. lia.
Qed.

(** ** Every step preserves the invariant *)

Section preservation.
Context {T : Type} `{LiveTableLaws T} (cfg : Config).
Implicit Types s : System T.

Definition live_count (m : gmap Z PointerInfoType) (h : Z) : Z := map_sum (λ i, is_hash h (info_hash i)) m.

Lemma hash_list_sum d h :
  list_sum (is_hash h) (hash_list d) = from_option (λ i, is_hash h (info_hash i)) 0 d.
Proof. destruct d; cbn; lia. Qed.

Lemma count_eq s h :
  count s h = live_count (lt_view (lv_table (st_live s))) h + list_sum (is_hash h) (st_refs s) +
              list_sum (λ e, is_hash h (info_hash e.2)) (st_taken s).
Proof. done. Qed.

Lemma held_nonneg s h :
  0 ≤ list_sum (is_hash h) (st_refs s) ∧ 0 ≤ list_sum (λ e, is_hash h (info_hash e.2)) (st_taken s).
Proof. split; apply list_sum_nonneg; intros; apply is_hash_nonneg. Qed.

(** A reference someone holds names a stack of the table. *)
Lemma held_interned s h refs :
  system_inv s → st_refs s ≡ₚ h :: refs → kBacktraceEmptyIndex < h → is_Some (frames_ (st_frames s) !! h).
Proof.
  intros [_ Hwf Hc] Hrefs Hh. specialize (Hc h Hh). unfold references_of in Hc.
  destruct (frames_ (st_frames s) !! h) as [fi|]; [by eauto|]. cbn in Hc. exfalso.
  rewrite count_eq in Hc. rewrite (list_sum_Permutation _ _ _ Hrefs) in Hc. cbn in Hc.
  rewrite is_hash_self in Hc.
  assert (0 ≤ live_count (lt_view (lv_table (st_live s))) h).
  { apply map_sum_nonneg. intros. apply is_hash_nonneg. }
  assert (0 ≤ list_sum (is_hash h) refs) by (apply list_sum_nonneg; intros; apply is_hash_nonneg).
  pose proof (held_nonneg s h). lia.
Qed.

Lemma live_interned s k i :
  system_inv s → lt_view (lv_table (st_live s)) !! k = Some i → kBacktraceEmptyIndex < info_hash i →
  is_Some (frames_ (st_frames s) !! info_hash i).
Proof.
  intros [_ _ Hc] Hi Hh. specialize (Hc _ Hh). unfold references_of in Hc.
  destruct (frames_ (st_frames s) !! info_hash i) as [fi|]; [by eauto|]. exfalso. cbn in Hc.
  rewrite count_eq in Hc. pose proof (held_nonneg s (info_hash i)) as [H1 H2].
  assert (1 ≤ live_count (lt_view (lv_table (st_live s))) (info_hash i)); [|lia].
  eapply Z.le_trans; [|apply (map_sum_elem _ _ k i); [intros; apply is_hash_nonneg|exact Hi]].
  cbn beta. by rewrite is_hash_self.
Qed.

(** Steps that move references around without touching the stack table. *)
Lemma inv_moved s s' :
  system_inv s → live_ok (st_live s') → st_frames s' = st_frames s →
  (∀ h, count s' h = count s h) → system_inv s'.
Proof.
  intros [_ Hwf Hc] Hl Hf Hcount. split; [done|by rewrite Hf|].
  intros h Hh. rewrite Hf, Hcount. by apply Hc.
Qed.

Lemma AddBacktrace_inv s raw size_bytes h f :
  system_inv s → frame_count raw ≤ kMaxAsyncRawFrames → room s →
  AddBacktrace cfg raw size_bytes (st_frames s) = (h, f) →
  system_inv (mkSystem (st_live s) f (h :: st_refs s) (st_taken s)).
Proof.
  intros [Hl Hwf Hc] Hfc [Hcur Hroom] Hadd.
  assert (∀ x, count (mkSystem (st_live s) f (h :: st_refs s) (st_taken s)) x = count s x + is_hash x h)
    as Hcount by (intros x; unfold count; cbn; lia).
  assert ((h = kBacktraceEmptyIndex ∧ f = st_frames s) ∨ intern_stack raw (st_frames s) = (h, f)) as Hcases.
  { unfold AddBacktrace in Hadd. repeat case_match; simplify_eq; auto. }
  destruct Hcases as [[-> ->]|Hint].
  - split; [done..|]. intros x Hx. rewrite Hcount. cbn. rewrite (Hc x Hx). unfold is_hash.
    destruct (Z.eqb_spec kBacktraceEmptyIndex x); lia.
  - pose proof (intern_stack_wf raw (st_frames s) Hwf Hcur Hfc) as Hi. rewrite Hint in Hi.
    destruct Hi as (Hwf' & Hh & Hrefs); [intros x Hx; rewrite (Hc x Hx); apply Hroom|].
    split; [done..|]. intros x Hx. rewrite Hcount. cbn. by rewrite Hrefs, (Hc x Hx).
Qed.

Lemma step_inv s s' : system_inv s → step cfg s s' → system_inv s'.
Proof.
  intros Hinv Hstep. pose proof Hinv as [Hl Hwf Hc]. inversion Hstep; subst; clear Hstep.
  - by eapply AddBacktrace_inv.
  - pose proof (add_entry_spec ptr info (st_live s) Hl) as Ha. rewrite H2 in Ha.
    destruct Ha as (-> & Hl' & Hv & _). eapply inv_moved; [done..|]. intros h. rewrite !count_eq. cbn.
    unfold live_count. rewrite Hv, map_sum_insert, list_sum_app, hash_list_sum.
    rewrite (list_sum_Permutation _ _ _ H1). cbn. lia.
  - pose proof (remap_entry_spec old_ptr new_ptr new_size (st_live s) Hl) as Ha. cbn in Ha. rewrite H1 in Ha.
    destruct Ha as (Hold & -> & Hl' & Hv & _). eapply inv_moved; [done..|]. intros h. rewrite !count_eq. cbn.
    unfold live_count. rewrite Hv, (moved_map_sum _ _ _ _ info) by done.
    rewrite list_sum_app, hash_list_sum. cbn. lia.
  - unfold TakeEntry in *. pose proof (displace_spec (ManglePointer ptr) (st_live s) Hl) as Ha.
    rewrite H1 in Ha. destruct Ha as (Hi & Hl' & Hv & _). eapply inv_moved; [done..|].
    intros h. rewrite !count_eq. cbn. unfold live_count. rewrite Hv, map_sum_delete_default, <-Hi. cbn. lia.
  - destruct (RestoreEntry_spec ptr info (st_live s) Hl H2) as [Hl' Hv]. eapply inv_moved; [done..|].
    intros h. rewrite !count_eq. cbn [st_live st_refs st_taken]. unfold live_count.
    rewrite Hv, map_sum_insert, H2, (list_sum_Permutation _ _ _ H1). cbn. lia.
  - eapply inv_moved; [done..|]. intros h. rewrite !count_eq. cbn [st_live st_refs st_taken].
    rewrite (list_sum_Permutation _ _ _ H1). cbn. lia.
  - destruct (RemoveBacktrace_wf cfg h (st_frames s) Hwf) as [Hwf' Hrefs]; [by eapply held_interned|].
    split; [done..|]. intros x Hx. cbn. rewrite Hrefs, (Hc x Hx), !count_eq by done.
    cbn [st_live st_refs st_taken]. rewrite (list_sum_Permutation _ _ _ H1). cbn. lia.
Qed.

Lemma reachable_inv s : reachable cfg s → system_inv s.
Proof.
  induction 1 as [|s s' _ IH Hs]; [|by eapply step_inv]. split.
  - split; cbn; [apply lt_empty_ok|]. by rewrite lt_empty_view.
  - apply frame_table_init_wf.
  - intros h _. cbn. unfold count. cbn. rewrite lt_empty_view. done.
Qed.
End preservation.

(** C12. However the critical sections of allocating and releasing threads
    interleave, stack references are exact.  In every reachable state the
    reference count of a stack is the number of live records, detached records
    and references in flight that name it; so the stack of every live record is
    in the table (never freed early), no stack is kept that nothing names
    (nothing leaks), and equal stacks share one entry. *)
Theorem stack_references_exact (cfg : Config) (s : System Shards) :
  reachable cfg s →
  (∀ h, kBacktraceEmptyIndex < h → references_of (st_frames s) h = count s h) ∧
  (∀ k i, lt_find (lv_table (st_live s)) k = Some i → kBacktraceEmptyIndex < info_hash i →
     is_Some (frames_ (st_frames s) !! info_hash i)) ∧
  (∀ h fi, frames_ (st_frames s) !! h = Some fi → 0 < count s h) ∧
  (∀ h h' fi fi', frames_ (st_frames s) !! h = Some fi → frames_ (st_frames s) !! h' = Some fi' →
     stack_key fi = stack_key fi' → h = h').
Proof.
  intros Hr. pose proof (reachable_inv cfg s Hr) as Hinv.
  pose proof Hinv as [[Hok _] [Hcur Hrange Hk] Hc]. split_and!; [done|..].
  - intros k i Hi Hh. rewrite lt_find_view in Hi by done. by eapply live_interned.
  - intros h fi Hfi. destruct (Hrange h fi Hfi) as (Hh & Href & _). rewrite <-Hc by lia.
    unfold references_of. rewrite Hfi. cbn. lia.
  - intros h h' fi fi' Hfi Hfi' Hkey.
    assert (key_to_index_ (st_frames s) !! stack_key fi = Some h) by (apply Hk; eauto).
    assert (key_to_index_ (st_frames s) !! stack_key fi = Some h') by (apply Hk; rewrite Hkey; eauto).
    congruence.
Qed.

(** An allocation whose stack was captured in one section and stored in the
    next. *)
Definition example_raw : RawStackRecord :=
  raw_init <| capture_state := StackCaptureState.Complete |> <| frame_count := 2 |> <| pcs := [4096; 8192] |>.

Lemma stack_references_exact_witness :
  ∃ s : System Shards, reachable (Init OsLinux 34 demo_env) s ∧ references_of (st_frames s) 2 = 1 ∧ count s 2 = 1.
Proof.
  set (cfg := Init OsLinux 34 demo_env).
  destruct (AddBacktrace cfg example_raw 1048576 frame_table_init) as [h f] eqn:Ef.
  destruct (add_entry (T := Shards) 4096 (mkInfo 1048576 2 HOST (0, 0)) live_init) as [[[d t] r] l] eqn:El.
  assert (h = 2 ∧ references_of f 2 = 1) as [-> Hf].
  { split; [apply (f_equal fst) in Ef|apply (f_equal snd) in Ef; cbn in Ef; subst f]; vm_compute in *; done. }
  assert (reachable cfg (mkSystem l f (hash_list d ++ []) [])) as Hr.
  { eapply reachable_step; [eapply reachable_step; [apply reachable_init|]|].
    - apply (step_capture cfg system_init example_raw 1048576 2 f); [done| |exact Ef].
      split; [done|]. intros h. unfold count. cbn [st_live st_refs st_taken system_init lv_table live_init].
      rewrite lt_empty_view. done.
    - by apply (step_add cfg (mkSystem live_init f [2] []) 4096 (mkInfo 1048576 2 HOST (0, 0)) d t r l []). }
  eexists. split; [exact Hr|]. destruct (stack_references_exact cfg _ Hr) as (Hc & _).
  split; [exact Hf|]. rewrite <-(Hc 2) by done. exact Hf.
Defined.
