(* ===== verification/ModuleMaps.v ===== *)
(** * Report-time attribution from /proc

    The helpers of backtrace/src/PointerData.cpp that give a report its context:
    [ModuleTable] (program counters to modules, from /proc/self/maps and the
    mapped ELF headers), [CollectMappingRss] (resident bytes by mapping, from
    /proc/self/smaps) and the timing relation printed with it.  The address
    space the ELF headers are read from is a function from addresses to
    bytes. *)
From S2P Require Import Prelude CString LineReader InodeSet ProcParse.

(** ** [ModuleTable] *)

Record ModuleRange := mkRange { mr_start : Z; mr_end : Z; mr_load_bias : Z; mr_name : string }.

Record RawMapping := mkMapping {
  rm_start : Z; rm_end : Z; rm_offset : Z;
  rm_executable : bool; rm_readable : bool;
  rm_name : string;
}.

(** [entry] is one line of the file; the result is what is pushed, if anything. *)
Definition ParseLine (entry : string) : option RawMapping :=
  let entry := cstr entry in
  match sscanf entry [DHex; DLit "-"; DHex; DSpace; DString 7; DSpace; DHex; DSpace;
                      DSkipString; DSpace; DSkipString; DSpace; DPos] with
  | (_, SNum start :: SNum end_ :: SStr perms :: SNum offset :: rest) =>
      let path_pos := match rest with SPos p :: _ => p | _ => 0 end in
      let path := skip_while (Ascii.eqb " ") (sdrop (Z.to_nat path_pos) entry) in
      match path with
      | EmptyString | String "[" _ => None
      | _ => Some (mkMapping start end_ offset (bool_decide (is_Some (strchr perms "x")))
                     (bool_decide (is_Some (strchr perms "r"))) path)
      end
  | _ => None
  end.

(** Little-endian loads from the mapped image. *)
Fixpoint load_le (mem : Z → Z) (addr : Z) (n : nat) : Z :=
  match n with
  | O => 0
  | S n => mem addr + 256 * load_le mem (addr + 1) n
  end.

Definition sizeof_Ehdr : Z := 64.
Definition sizeof_Phdr : Z := 56.
Definition PT_LOAD : Z := 1.
Definition elf_magic (mem : Z → Z) (base : Z) : bool :=
  (mem base =? 127) && (mem (base + 1) =? 69) && (mem (base + 2) =? 76) && (mem (base + 3) =? 70).
Definition e_phoff (mem : Z → Z) (base : Z) : Z := load_le mem (base + 32) 8.
Definition e_phentsize (mem : Z → Z) (base : Z) : Z := load_le mem (base + 54) 2.
Definition e_phnum (mem : Z → Z) (base : Z) : Z := load_le mem (base + 56) 2.

(** The loop over the program headers, [n] of which are left. *)
Fixpoint first_load (mem : Z → Z) (header : Z) (n : nat) : option Z :=
  match n with
  | O => None
  | S n =>
      if load_le mem header 4 =? PT_LOAD then Some (load_le mem (header + 16) 8)
      else first_load mem (header + sizeof_Phdr) n
  end.

Definition FirstLoadVaddr (mem : Z → Z) (m : RawMapping) : option Z :=
  let length := rm_end m ⊟ rm_start m in
  let base := rm_start m in
  if negb (rm_readable m) || (length <? sizeof_Ehdr) then None
  else if negb (elf_magic mem base) then None
  else if negb (e_phentsize mem base =? sizeof_Phdr) || (e_phnum mem base =? 0) then None
  else
    let table_bytes := e_phnum mem base ⊠ sizeof_Phdr in
    if (e_phoff mem base >? length) || (table_bytes >? length ⊟ e_phoff mem base) then None
    else first_load mem (base + e_phoff mem base) (Z.to_nat (e_phnum mem base)).

(** The bias one mapping suggests for its module. *)
Definition mapping_bias (mem : Z → Z) (m : RawMapping) : Z :=
  match FirstLoadVaddr mem m with
  | Some first_vaddr => if first_vaddr <=? rm_start m then rm_start m ⊟ first_vaddr else rm_start m
  | None => rm_start m
  end.

(** One iteration of the loop that fills [module_base]. *)
Definition base_step (mem : Z → Z) (module_base : gmap string Z) (m : RawMapping) : gmap string Z :=
  if negb (rm_offset m =? 0) || negb (rm_readable m) then module_base
  else
    let bias := mapping_bias mem m in
    match module_base !! rm_name m with
    | Some known => if bias <? known then <[rm_name m := bias]> module_base else module_base
    | None => <[rm_name m := bias]> module_base
    end.

Definition range_of (module_base : gmap string Z) (m : RawMapping) : ModuleRange :=
  mkRange (rm_start m) (rm_end m)
    (default (rm_start m ⊟ rm_offset m) (module_base !! rm_name m)) (rm_name m).

Definition range_before (a b : ModuleRange) : bool := mr_start a <? mr_start b.

(** The whole file, read until the end. *)
Fixpoint read_all (f : list string) : string :=
  match f with
  | [] | EmptyString :: _ => EmptyString
  | c :: r => c +:+ read_all r
  end.

Definition build_ranges (mem : Z → Z) (mappings : list RawMapping) : list ModuleRange :=
  let module_base := fold_left (base_step mem) mappings ∅ in
  sort_by range_before (range_of module_base <$> filter (λ m, rm_executable m = true) mappings).

Definition Build (mem : Z → Z) (maps : option (list string)) : list ModuleRange :=
  match maps with
  | None => []
  | Some f => build_ranges mem (omap ParseLine (text_lines (read_all f)))
  end.

(** [std::upper_bound] on the sorted ranges, then the range before it. *)
Fixpoint last_not_after (pc : Z) (ranges : list ModuleRange) (best : option ModuleRange) :
    option ModuleRange :=
  match ranges with
  | [] => best
  | r :: ranges => if pc <? mr_start r then best else last_not_after pc ranges (Some r)
  end.

Definition Resolve (ranges : list ModuleRange) (pc : Z) : option (Z * string) :=
  match last_not_after pc ranges None with
  | None => None
  | Some entry =>
      if mr_end entry <=? pc then None else Some (pc ⊟ mr_load_bias entry, mr_name entry)
  end.

(** ** [CollectMappingRss] *)

Record MappingRss := mkMapRss { map_name : string; map_rss_kb : Z; map_size_kb : Z }.
#[global] Instance MappingRss_upd : Updatable MappingRss := λ m,
  mkMapRss (map_name m) (map_rss_kb m) (map_size_kb m).

Record MappingTotals := mkTotals {
  file_rss_kb : Z; anon_rss_kb : Z; file_size_kb : Z; anon_size_kb : Z;
}.
#[global] Instance MappingTotals_upd : Updatable MappingTotals := λ t,
  mkTotals (file_rss_kb t) (anon_rss_kb t) (file_size_kb t) (anon_size_kb t).
Definition totals_init : MappingTotals := mkTotals 0 0 0 0.

(** The state of the line loop. *)
Record SmapsScan := mkSmaps {
  by_mapping : gmap string MappingRss;
  totals : MappingTotals;
  current : string;
}.
#[global] Instance SmapsScan_upd : Updatable SmapsScan := λ s,
  mkSmaps (by_mapping s) (totals s) (current s).
Definition smaps_init : SmapsScan := mkSmaps ∅ totals_init "[anonymous]".

Definition is_file (name : string) : bool := starts_with "/" name.

Definition is_sp (c : ascii) : bool := Ascii.eqb " " c.

(** [field] more fields to pass: to the next space, then past the spaces. *)
Fixpoint skip_fields (field : nat) (line : string) : option string :=
  match field with
  | O => Some line
  | S field =>
      match skip_while (λ c, negb (is_sp c)) line with
      | EmptyString => None
      | rest => skip_fields field (skip_while is_sp rest)
      end
  end.

(** [while (path.back () == ' ' || path.back () == '\r') path.pop_back ()]. *)
Fixpoint trim_back (path : string) : string :=
  match path with
  | EmptyString => EmptyString
  | String c r =>
      match trim_back r with
      | EmptyString => if is_sp c || Ascii.eqb c (Ascii.ascii_of_N 13) then EmptyString
                       else String c EmptyString
      | r => String c r
      end
  end.

Definition header_name (line : string) : string :=
  match trim_back (default EmptyString (skip_fields 5 line)) with
  | EmptyString => "[anonymous]"
  | path => path
  end.

Definition is_header (line : string) : bool :=
  match line with
  | String c _ => is_digit c && bool_decide (is_Some (strchr line "-"))
  | EmptyString => false
  end.

Definition entry_of (s : SmapsScan) : MappingRss :=
  (default (mkMapRss EmptyString 0 0) (by_mapping s !! current s)) <| map_name := current s |>.

#[global] Arguments entry_of : simpl never.

Definition rss_line (kb : Z) (s : SmapsScan) : SmapsScan :=
  let entry := entry_of s in
  let t := totals s in
  s <| by_mapping := <[current s := entry <| map_rss_kb := map_rss_kb entry ⊞ kb |>]> (by_mapping s) |>
    <| totals := if is_file (current s) then t <| file_rss_kb := file_rss_kb t ⊞ kb |>
                 else t <| anon_rss_kb := anon_rss_kb t ⊞ kb |> |>.

Definition size_line (kb : Z) (s : SmapsScan) : SmapsScan :=
  let entry := entry_of s in
  let t := totals s in
  s <| by_mapping := <[current s := entry <| map_size_kb := map_size_kb entry ⊞ kb |>]> (by_mapping s) |>
    <| totals := if is_file (current s) then t <| file_size_kb := file_size_kb t ⊞ kb |>
                 else t <| anon_size_kb := anon_size_kb t ⊞ kb |> |>.

Definition mapping_line (s : SmapsScan) (line : string) : SmapsScan :=
  if starts_with "Rss:" line then rss_line (ReadStatusField (cstr line) "Rss:") s
  else if starts_with "Size:" line then size_line (ReadStatusField (cstr line) "Size:") s
  else if is_header line then s <| current := header_name line |>
  else s.

(** The read loop; [pending] grows as long as no newline arrives. *)
Fixpoint mapping_loop (fuel : nat) (pending : string) (f : list string) (s : SmapsScan) : SmapsScan :=
  match fuel with
  | O => s
  | S fuel =>
      let '(chunk, f) := read (Z.to_nat 16384) f in
      match chunk with
      | EmptyString => s
      | _ =>
          let '(lines, rest) := split_lines (pending +:+ chunk) EmptyString in
          mapping_loop fuel rest f (fold_left mapping_line lines s)
      end
  end.

Definition scan_smaps (f : list string) : SmapsScan := mapping_loop (S (file_size f)) EmptyString f smaps_init.

Definition rss_above (a b : MappingRss) : bool := map_rss_kb a >? map_rss_kb b.

(** The ranked list (at most [top_n] of it) and the totals. *)
Definition CollectMappingRss (smaps : option (list string)) (top_n : nat) :
    list MappingRss * MappingTotals :=
  match smaps with
  | None => ([], totals_init)
  | Some f =>
      let s := scan_smaps f in
      (take top_n (sort_by rss_above (map_to_list (by_mapping s)).*2), totals s)
  end.

(** ** The /proc context of a snapshot *)

Record PeakProcContext := mkProcContext {
  pc_rss : RssBreakdown;
  pc_mappings : list MappingRss;
  pc_totals : MappingTotals;
  read_start_us : Z;
  read_end_us : Z;
  filled : bool;
}.

(** [start_us] and [end_us] are what [PeakMonotonicMicros] reads before and
    after. *)
Definition CollectPeakProcContext (start_us end_us : Z) (status smaps : option (list string)) :
    PeakProcContext :=
  let rss := ReadSelfRss status in
  let '(ranked, t) := if rss_valid rss then CollectMappingRss smaps 12 else ([], totals_init) in
  mkProcContext rss ranked t start_us end_us true.

Definition PeakMonotonicMicros (now : option (Z * Z)) : Z :=
  match now with
  | Some (tv_sec, tv_nsec) => (u64 tv_sec ⊠ 1000000) ⊞ (u64 tv_nsec / 1000)
  | None => 0
  end.

Definition PeakProcContextRelation (read_start_us read_end_us snapshot_us : Z) : string :=
  if (read_start_us =? 0) || (read_end_us =? 0) || (snapshot_us =? 0) then "unknown"
  else if read_end_us <? snapshot_us then "before_snapshot"
  else if read_start_us >? snapshot_us then "after_snapshot"
  else "overlaps_snapshot".

(** ** Resolving program counters *)

Definition contains (r : ModuleRange) (pc : Z) : Prop := mr_start r ≤ pc < mr_end r.

(** Ranges are not empty and two that overlap are the same. *)
Definition disjoint_ranges (l : list ModuleRange) : Prop :=
  (∀ r, r ∈ l → mr_start r < mr_end r) ∧
  ∀ r r', r ∈ l → r' ∈ l → mr_start r < mr_end r' → mr_start r' < mr_end r → r = r'.

Lemma sorted_ranges l : StronglySorted (not_after range_before) (sort_by range_before l).
Proof.
  apply sort_by_sorted; unfold range_before; intros *; rewrite ?Z.ltb_lt, ?Z.ltb_ge; lia.
Qed.

Lemma last_not_after_elem pc l best e :
  last_not_after pc l best = Some e → best = Some e ∨ (e ∈ l ∧ mr_start e ≤ pc).
Proof.
  revert best. induction l as [|r l IH]; intros best; cbn; [by left|].
  destruct (Z.ltb_spec pc (mr_start r)); [by left|]. intros [[= ->]|[Hin ?]]%IH; right.
  - split; [by left|done].
  - split; [by right|done].
Qed.

Lemma last_not_after_some pc l e : ∃ e', last_not_after pc l (Some e) = Some e'.
Proof. revert e. induction l as [|r l IH]; intros e; cbn; [by eauto|]. case_match; eauto. Qed.

Lemma last_not_after_found pc l r best :
  StronglySorted (not_after range_before) l → disjoint_ranges l → r ∈ l → contains r pc →
  last_not_after pc l best = Some r.
Proof.
  intros Hs [Hne Hov]. revert best. induction Hs as [|a l Hs IH Hall]; intros best Hin Hc.
  { by apply not_elem_of_nil in Hin. }
  unfold contains in Hc. cbn. destruct (Z.ltb_spec pc (mr_start a)) as [Hlt|Hle].
  - exfalso. apply elem_of_cons in Hin as [->|Hin]; [lia|].
    rewrite Forall_forall in Hall. specialize (Hall r Hin). unfold not_after, range_before in Hall. lia.
  - apply elem_of_cons in Hin as [->|Hin].
    + destruct (last_not_after_some pc l a) as [e He]. rewrite He.
      apply last_not_after_elem in He as [[= ->]|[He Hpc]]; [done|]. f_equal.
      rewrite Forall_forall in Hall. pose proof (Hall e He) as Ha. unfold not_after, range_before in Ha.
      pose proof (Hne e ltac:(by right)). apply Hov; [by right|by left|lia..].
    + apply IH; [intros; apply Hne; by right|intros; apply Hov; done || by right|done..].
Qed.

Lemma disjoint_ranges_perm l l' : l ≡ₚ l' → disjoint_ranges l → disjoint_ranges l'.
Proof.
  intros Hp [H1 H2]. split; intros r; setoid_rewrite <-Hp; [apply H1|apply H2].
Qed.

(** [module_base] holds, for each module, the smallest bias its readable
    mappings of offset 0 suggest. *)
Definition base_mappings (mappings : list RawMapping) (name : string) : list RawMapping :=
  filter (λ m, rm_offset m = 0 ∧ rm_readable m = true ∧ rm_name m = name) mappings.

Definition is_minimum {A} (f : A → Z) (l : list A) (b : option Z) : Prop :=
  match b with
  | None => l = []
  | Some z => (∃ x, x ∈ l ∧ f x = z) ∧ ∀ x, x ∈ l → z ≤ f x
  end.

Lemma module_base_minimum mem mappings name :
  is_minimum (mapping_bias mem) (base_mappings mappings name)
    (fold_left (base_step mem) mappings ∅ !! name).
Proof.
  induction mappings as [|m ms IH] using rev_ind; [done|].
  rewrite fold_left_app. cbn. unfold base_mappings. rewrite filter_app. fold (base_mappings ms name).
  set (mb := fold_left (base_step mem) ms ∅) in *. unfold base_step.
  destruct (Z.eqb_spec (rm_offset m) 0) as [H0|H0], (rm_readable m) eqn:Hr; cbn [negb orb];
    try (rewrite filter_cons_False, filter_nil, app_nil_r by (intros (? & ? & ?); congruence); exact IH).
  destruct (decide (rm_name m = name)) as [<-|Hne].
  - rewrite filter_cons_True, filter_nil by done. unfold is_minimum in IH.
    destruct (mb !! rm_name m) as [known|] eqn:E.
    + destruct IH as [(x & Hx & Hfx) Hmin]. destruct (Z.ltb_spec (mapping_bias mem m) known).
      * rewrite lookup_insert_eq. split.
        -- exists m. split; [|done]. apply elem_of_app. right. by left.
        -- intros y [Hy|Hy%list_elem_of_singleton]%elem_of_app; [|by subst]. specialize (Hmin y Hy). lia.
      * rewrite E. split; [exists x; split; [by apply elem_of_app; left|done]|].
        intros y [Hy|Hy%list_elem_of_singleton]%elem_of_app; [by apply Hmin|by subst].
    + rewrite lookup_insert_eq, IH. split; [exists m; split; [by left|done]|].
      by intros y ->%list_elem_of_singleton.
  - rewrite filter_cons_False, filter_nil, app_nil_r by naive_solver.
    destruct (mb !! rm_name m); [case_match|]; rewrite ?lookup_insert_ne by done; exact IH.
Qed.

(** Module attribution in a report is exact.  When the executable file
    mappings of the address space do not overlap, [Resolve] gives every program
    counter inside one of them that mapping's module and the address relative to
    the module's load bias, rejects every other program counter, and the bias is
    the smallest one the module's readable offset-0 mappings suggest. *)
Theorem modules_resolve_exactly (mem : Z → Z) (f : list string) (pc : Z) :
  let mappings := omap ParseLine (text_lines (read_all f)) in
  let module_base := fold_left (base_step mem) mappings ∅ in
  let executable := filter (λ m, rm_executable m = true) mappings in
  disjoint_ranges (range_of module_base <$> executable) →
  (∀ m, m ∈ executable → rm_start m ≤ pc < rm_end m →
     Resolve (Build mem (Some f)) pc =
       Some (pc ⊟ mr_load_bias (range_of module_base m), rm_name m)) ∧
  ((∀ m, m ∈ executable → ¬ (rm_start m ≤ pc < rm_end m)) → Resolve (Build mem (Some f)) pc = None) ∧
  (∀ name, is_minimum (mapping_bias mem) (base_mappings mappings name) (module_base !! name)).
Proof.
  intros mappings module_base executable Hdis.
  set (ranges := range_of module_base <$> executable) in *.
  assert (Build mem (Some f) = sort_by range_before ranges) as -> by done.
  assert (sort_by range_before ranges ≡ₚ ranges) as Hp by apply sort_by_perm.
  split_and!; [| |intros name; apply module_base_minimum].
  - intros m Hm Hpc. unfold Resolve.
    rewrite (last_not_after_found pc _ (range_of module_base m)).
    + cbn [mr_end range_of]. destruct (Z.leb_spec (rm_end m) pc); [lia|done].
    + apply sorted_ranges.
    + eapply disjoint_ranges_perm; [symmetry; exact Hp|done].
    + rewrite Hp. by apply list_elem_of_fmap_2.
    + exact Hpc.
  - intros Hno. unfold Resolve. destruct (last_not_after _ _ None) as [e|] eqn:E; [|done].
    apply last_not_after_elem in E as [?|[He Hle]]; [done|].
    rewrite Hp in He. apply list_elem_of_fmap in He as (m & -> & Hm).
    destruct (Z.leb_spec (mr_end (range_of module_base m)) pc) as [|Hlt]; [done|].
    exfalso. apply (Hno m Hm). cbn in Hle, Hlt. lia.
Qed.

(** A statically linked program at 0x400000 (an ELF header with one program
    header) and a library whose image does not look like one. *)
Definition demo_maps : list string :=
  ["00400000-00401000 r--p 00000000 08:01 11 /bin/app" +:+ String newline
     "00401000-00403000 r-xp 00001000 08:01 11 /bin/app"; String newline EmptyString;
   "7f000000-7f001000 r--p 00000000 08:01 12 /lib/libx.so" +:+ String newline
     "7f001000-7f004000 r-xp 00002000 08:01 12 /lib/libx.so" +:+ String newline EmptyString;
   "7ffe0000-7fff0000 rw-p 00000000 00:00 0 [stack]" +:+ String newline EmptyString].

Definition demo_image (a : Z) : Z :=
  u8 (default 0 (list_to_map (M := gmap Z Z)
    [(0x400000, 127); (0x400001, 69); (0x400002, 76); (0x400003, 70); (0x400020, 64);
     (0x400036, 56); (0x400038, 1); (0x400040, 1); (0x400052, 0x40)] !! a)).

Definition demo_ranges : list ModuleRange :=
  [mkRange 0x401000 0x403000 0 "/bin/app"; mkRange 0x7f001000 0x7f004000 0x7f000000 "/lib/libx.so"].

Definition demo_code : list RawMapping :=
  [mkMapping 0x401000 0x403000 0x1000 true true "/bin/app";
   mkMapping 0x7f001000 0x7f004000 0x2000 true true "/lib/libx.so"].

Lemma modules_resolve_exactly_witness :
  Resolve (Build demo_image (Some demo_maps)) 0x401010 = Some (0x401010, "/bin/app") ∧
  Resolve (Build demo_image (Some demo_maps)) 0x7f001010 = Some (0x1010, "/lib/libx.so") ∧
  Resolve (Build demo_image (Some demo_maps)) 0x400010 = None.
Proof.
  assert (mkMapping 0x401000 0x403000 0x1000 true true "/bin/app" ∈ demo_code) as Happ by by left.
  assert (mkMapping 0x7f001000 0x7f004000 0x2000 true true "/lib/libx.so" ∈ demo_code) as Hlibx by by right; left.
  assert (disjoint_ranges demo_ranges) as Hd.
  { split; [intros r|intros r r']; unfold demo_ranges; rewrite !elem_of_cons, ?elem_of_nil; intros; destruct_or?; subst;
      cbn in *; done || lia. }
  assert (filter (λ m, rm_executable m = true) (omap ParseLine (text_lines (read_all demo_maps))) = demo_code)
    as Ex by (vm_compute; reflexivity).
  assert (range_of (fold_left (base_step demo_image) (omap ParseLine (text_lines (read_all demo_maps))) ∅) <$>
    demo_code = demo_ranges) as E by (vm_compute; reflexivity).
  rewrite <-E, <-Ex in Hd.
  split_and!.
  - destruct (modules_resolve_exactly demo_image demo_maps 0x401010 Hd) as (Hin & _). rewrite Ex in Hin.
    etransitivity; [apply (Hin _ Happ); cbn; lia|vm_compute; reflexivity].
  - destruct (modules_resolve_exactly demo_image demo_maps 0x7f001010 Hd) as (Hin & _). rewrite Ex in Hin.
    etransitivity; [apply (Hin _ Hlibx); cbn; lia|vm_compute; reflexivity].
  - destruct (modules_resolve_exactly demo_image demo_maps 0x400010 Hd) as (_ & Hout & _). rewrite Ex in Hout.
    apply Hout. unfold demo_code. intros m. rewrite !elem_of_cons, elem_of_nil. intros; destruct_or?; subst; cbn; lia.
Defined.

(** ** Reading the mapped ELF header *)

Lemma load_le_agree mem mem' addr n :
  (∀ a, addr ≤ a < addr + Z.of_nat n → mem a = mem' a) → load_le mem addr n = load_le mem' addr n.
Proof.
  revert addr. induction n as [|n IH]; intros addr H; cbn; [done|].
  rewrite (H addr) by lia. rewrite (IH (addr + 1)); [done|]. intros a Ha. apply H. lia.
Qed.

Lemma load_le_range mem addr n :
  (∀ a, 0 ≤ mem a < 256) → 0 ≤ load_le mem addr n < 2 ^ (8 * Z.of_nat n).
Proof.
  intros Hb. revert addr. induction n as [|n IH]; intros addr; [done|]. cbn [load_le].
  specialize (IH (addr + 1)). specialize (Hb addr).
  replace (8 * Z.of_nat (S n)) with (8 + 8 * Z.of_nat n) by lia. rewrite Z.pow_add_r by lia.
  change (2 ^ 8) with 256. lia.
Qed.

Lemma first_load_agree mem mem' header n :
  (∀ a, header ≤ a < header + sizeof_Phdr * Z.of_nat n → mem a = mem' a) →
  first_load mem header n = first_load mem' header n.
Proof.
  revert header. induction n as [|n IH]; intros header H; [done|]. cbn [first_load]. unfold sizeof_Phdr in *.
  rewrite (load_le_agree mem mem' header 4), (load_le_agree mem mem' (header + 16) 8)
    by (intros; apply H; lia).
  rewrite (IH (header + 56)); [done|]. intros a Ha. apply H. lia.
Qed.

(** Looking for a module's first loadable segment reads nothing outside the
    mapping it was given: whatever the bytes of the mapping are (a truncated or
    corrupt header included), two address spaces that agree on the mapping give
    the same answer. *)
Theorem elf_header_read_in_bounds (mem mem' : Z → Z) (m : RawMapping) :
  0 ≤ rm_start m ≤ rm_end m → rm_end m < 2 ^ 64 → (∀ a, 0 ≤ mem a < 256) →
  (∀ a, rm_start m ≤ a < rm_end m → mem a = mem' a) →
  FirstLoadVaddr mem m = FirstLoadVaddr mem' m.
Proof.
  intros Hse He Hb Hag. unfold FirstLoadVaddr. rewrite (u64_small (rm_end m - rm_start m)) by lia.
  destruct (rm_readable m); cbn [negb orb]; [|done].
  destruct (Z.ltb_spec (rm_end m - rm_start m) sizeof_Ehdr) as [|Hlen]; [done|].
  unfold sizeof_Ehdr in Hlen.
  assert (∀ k n, 0 ≤ k → k + Z.of_nat n ≤ 64 → load_le mem (rm_start m + k) n = load_le mem' (rm_start m + k) n)
    as Hload by (intros k n Hk Hn; apply load_le_agree; intros; apply Hag; lia).
  unfold elf_magic. rewrite !(Hag (rm_start m + _)), (Hag (rm_start m)) by lia.
  unfold e_phentsize, e_phnum, e_phoff.
  rewrite <-(Hload 54 2%nat), <-(Hload 56 2%nat), <-(Hload 32 8%nat) by lia.
  destruct (_ && _ && _ && _); cbn [negb]; [|done]. destruct (_ || _); [done|].
  pose proof (load_le_range mem (rm_start m + 56) 2 Hb) as Hnum.
  pose proof (load_le_range mem (rm_start m + 32) 8 Hb) as Hoff.
  set (phnum := load_le mem (rm_start m + 56) 2) in *. set (phoff := load_le mem (rm_start m + 32) 8) in *.
  unfold sizeof_Phdr. rewrite (u64_small (phnum * 56)) by lia.
  destruct (Z.gtb_spec phoff (rm_end m - rm_start m)) as [|Hle]; [done|]. cbn [orb].
  rewrite (u64_small (rm_end m - rm_start m - phoff)) by lia.
  destruct (Z.gtb_spec (phnum * 56) (rm_end m - rm_start m - phoff)) as [|Htab]; [done|].
  apply first_load_agree. unfold sizeof_Phdr. intros a Ha. apply Hag. lia.
Qed.

Lemma elf_header_read_in_bounds_witness :
  FirstLoadVaddr (λ a, if a <? 0x401000 then demo_image a else 0)
    (mkMapping 0x400000 0x401000 0 false true "/bin/app") = Some 0x400000.
Proof.
  rewrite <-(elf_header_read_in_bounds demo_image).
  - vm_compute. reflexivity.
  - done.
  - done.
  - intros a. by apply wrap_range.
  - cbn. intros a Ha. destruct (Z.ltb_spec a 0x401000); [done|lia].
Defined.

(** ** Resident bytes by mapping *)

Definition line_rss (line : string) : Z :=
  if starts_with "Rss:" line then ReadStatusField (cstr line) "Rss:" else 0.
Definition line_size (line : string) : Z :=
  if starts_with "Rss:" line then 0
  else if starts_with "Size:" line then ReadStatusField (cstr line) "Size:" else 0.

(** What is attributed to mappings and what is counted in the totals, after
    lines adding up to [rss] and [size]. *)
Definition conserved (rss size : Z) (s : SmapsScan) : Prop :=
  eq64 (map_sum map_rss_kb (by_mapping s)) rss ∧
  eq64 (file_rss_kb (totals s) + anon_rss_kb (totals s)) rss ∧
  eq64 (map_sum map_size_kb (by_mapping s)) size ∧
  eq64 (file_size_kb (totals s) + anon_size_kb (totals s)) size.

Lemma entry_of_field (g : MappingRss → Z) s :
  (∀ m n, g (m <| map_name := n |>) = g m) → g (mkMapRss EmptyString 0 0) = 0 →
  g (entry_of s) = from_option g 0 (by_mapping s !! current s).
Proof. intros Hn H0. unfold entry_of. rewrite Hn. by destruct (by_mapping s !! current s). Qed.

Lemma map_sum_bump (g : MappingRss → Z) s e kb rss :
  eq64 (map_sum g (by_mapping s)) rss → g e = from_option g 0 (by_mapping s !! current s) ⊞ kb →
  eq64 (map_sum g (<[current s := e]> (by_mapping s))) (rss + kb).
Proof.
  intros H He. rewrite map_sum_insert, He. rewrite eq64_u64.
  rewrite <-H. unfold eq64. f_equal. lia.
Qed.

Lemma map_sum_same (g : MappingRss → Z) s e rss :
  eq64 (map_sum g (by_mapping s)) rss → g e = from_option g 0 (by_mapping s !! current s) →
  eq64 (map_sum g (<[current s := e]> (by_mapping s))) (rss + 0).
Proof. intros H He. rewrite map_sum_insert, He, <-H. unfold eq64. f_equal. lia. Qed.

Lemma mapping_line_conserved rss size s line :
  conserved rss size s → conserved (rss + line_rss line) (size + line_size line) (mapping_line s line).
Proof.
  intros (H1 & H2 & H3 & H4). unfold mapping_line, line_rss, line_size.
  destruct (starts_with "Rss:" line).
  { set (kb := ReadStatusField _ _). unfold conserved, rss_line. split_and!.
    - apply map_sum_bump; [done|]. cbn. by rewrite (entry_of_field map_rss_kb).
    - rewrite <-H2. unfold eq64. cbn. case_match; cbn; word_eq.
    - apply map_sum_same; [done|]. cbn. by rewrite (entry_of_field map_size_kb).
    - rewrite Z.add_0_r, <-H4. cbn. by case_match. }
  destruct (starts_with "Size:" line).
  { set (kb := ReadStatusField _ _). unfold conserved, size_line. split_and!.
    - apply map_sum_same; [done|]. cbn. by rewrite (entry_of_field map_rss_kb).
    - rewrite Z.add_0_r, <-H2. cbn. by case_match.
    - apply map_sum_bump; [done|]. cbn. by rewrite (entry_of_field map_size_kb).
    - rewrite <-H4. unfold eq64. cbn. case_match; cbn; word_eq. }
  rewrite !Z.add_0_r. by case_match.
Qed.

Lemma mapping_lines_conserved lines rss size s :
  conserved rss size s →
  conserved (rss + list_sum line_rss lines) (size + list_sum line_size lines) (fold_left mapping_line lines s).
Proof.
  revert rss size s. induction lines as [|l lines IH]; intros rss size s Hs; cbn; [by rewrite !Z.add_0_r|].
  rewrite !Z.add_assoc. by apply IH, mapping_line_conserved.
Qed.

(** The unbounded line buffer makes the result independent of the reads. *)
Lemma mapping_loop_lines fuel held f s :
  no_empty f → (file_size f < fuel)%nat → split_lines held EmptyString = ([], held) →
  mapping_loop fuel held f s = fold_left mapping_line (split_lines (contents f) held).1 s.
Proof.
  revert held f s. induction fuel as [|fuel IH]; intros held f s Hf Hfuel Hheld; [lia|].
  cbn [mapping_loop]. destruct (read (Z.to_nat 16384) f) as [got f'] eqn:Hr.
  rewrite (read_contents _ _ _ _ Hr).
  assert (0 < Z.to_nat 16384)%nat as Hroom by lia.
  destruct (read_progress _ _ _ _ Hroom Hf Hr) as [[-> ->]|(Hgot & Hf' & Hsize)].
  { cbn in Hr. by simplify_eq. }
  rewrite (split_lines_held got held Hheld), split_lines_app.
  pose proof (split_lines_rest got held Hheld) as Hrest.
  destruct (split_lines got held) as [lines rest]. cbn [fst snd] in *.
  destruct got as [|x got]; [done|]. rewrite IH by (done || lia).
  destruct (split_lines (contents f') rest) as [lines' rest']. cbn. by rewrite fold_left_app.
Qed.

(** The per-mapping residency a report prints accounts for every smaps line
    exactly, however the kernel splits the file into reads: the resident (and
    virtual) kilobytes attributed to mappings, the file/anonymous totals and the
    sum of the Rss (Size) lines are the same number modulo 2^64.  The ranked
    list is sorted, holds [min (n, mappings)] entries, and no mapping left out
    has more resident memory than one listed. *)
Theorem mapping_rss_conserved (f : list string) (top_n : nat) :
  no_empty f →
  let lines := (split_lines (contents f) EmptyString).1 in
  let '(ranked, t) := CollectMappingRss (Some f) top_n in
  ∃ left_out,
    eq64 (list_sum map_rss_kb (ranked ++ left_out)) (list_sum line_rss lines) ∧
    eq64 (file_rss_kb t + anon_rss_kb t) (list_sum line_rss lines) ∧
    eq64 (list_sum map_size_kb (ranked ++ left_out)) (list_sum line_size lines) ∧
    eq64 (file_size_kb t + anon_size_kb t) (list_sum line_size lines) ∧
    length ranked = (top_n `min` length (ranked ++ left_out))%nat ∧
    StronglySorted (λ a b, map_rss_kb b ≤ map_rss_kb a) (ranked ++ left_out).
Proof.
  intros Hf lines. cbn [CollectMappingRss]. set (s := scan_smaps f).
  assert (conserved (list_sum line_rss lines) (list_sum line_size lines) s) as (H1 & H2 & H3 & H4).
  { unfold s, scan_smaps. rewrite mapping_loop_lines by (done || lia).
    apply (mapping_lines_conserved lines 0 0). done. }
  set (all := sort_by rss_above (map_to_list (by_mapping s)).*2).
  assert (∀ g, list_sum g all = map_sum g (by_mapping s)) as Hall.
  { intros g. unfold all. rewrite (list_sum_Permutation _ _ _ (sort_by_perm _ _)), map_sum_to_list.
    generalize (map_to_list (by_mapping s)) as kvs. induction kvs as [|kv kvs IH]; cbn; [done|]. by rewrite IH. }
  exists (drop top_n all). rewrite take_drop, !Hall. split_and!; try done.
  - apply length_take.
  - eapply StronglySorted_ind with (P := StronglySorted _); [constructor|..|apply sort_by_sorted].
    + intros a l _ Hl Ha. constructor; [done|]. eapply Forall_impl; [exact Ha|].
      unfold not_after, rss_above. intros b Hb. lia.
    + unfold rss_above. intros *. lia.
    + unfold rss_above. intros *. lia.
Qed.

Lemma mapping_rss_conserved_witness :
  no_empty [demo_smaps] ∧
  let '(ranked, t) := CollectMappingRss (Some [demo_smaps]) 1 in
  length ranked = 1%nat ∧
  eq64 (file_rss_kb t + anon_rss_kb t) (list_sum line_rss (split_lines demo_smaps EmptyString).1).
Proof.
  assert (no_empty [demo_smaps]) as Hf by by apply Forall_singleton.
  split; [exact Hf|]. pose proof (mapping_rss_conserved [demo_smaps] 1 Hf) as H. cbv zeta in H.
  change (contents [demo_smaps]) with (demo_smaps +:+ EmptyString) in H. rewrite string_app_nil in H.
  assert (length (CollectMappingRss (Some [demo_smaps]) 1).1 = 1%nat) as Hl by (vm_compute; reflexivity).
  destruct (CollectMappingRss (Some [demo_smaps]) 1) as [ranked t]. destruct H as (l & _ & H & _).
  split; [exact Hl|exact H].
Defined.
