(* ===== verification/LiveList.v ===== *)
(** * The list of live allocations in a report

    [PointerData::GetList] and [PointerData::GetUniqueList] of
    backtrace/src/PointerData.cpp: the walk over the live table, the comparators
    handed to [std::sort], and the merging of equal neighbours.  A pointer to a
    stack's [FrameInfoType] is the index of the stack: the address is that of
    the entry in [frames_]. *)
From S2P Require Import Prelude CString Capture Config PointerTable.

Record ListInfoType := mkListInfo {
  li_pointer : Z;
  num_allocations : Z;
  li_size : Z;
  li_type : MemType;
  frame_info : option Z;
  li_raw_frames : option (list Z);
  li_backtrace : option (list SymbolizedFrame);
  li_state : StackCaptureState.t;
  li_error : Z;
  alloc_time : Z * Z;
  li_hash : Z;
}.
#[global] Instance ListInfoType_upd : Updatable ListInfoType := λ e,
  mkListInfo (li_pointer e) (num_allocations e) (li_size e) (li_type e) (frame_info e)
    (li_raw_frames e) (li_backtrace e) (li_state e) (li_error e) (alloc_time e) (li_hash e).

Record OmittedStats := mkOmitted { omitted_count : Z; omitted_bytes : Z }.

(** ** [GetList] *)

Definition list_entry (f : FrameTable) (key : Z) (i : PointerInfoType) : ListInfoType :=
  let fi := frames_ f !! info_hash i in
  mkListInfo (DemanglePointer key) 1 (RealSize i) (info_type i)
    (match fi with Some _ => Some (info_hash i) | None => None end)
    (fi_frames <$> fi) (backtraces_info_ f !! info_hash i)
    (from_option fi_state StackCaptureState.Empty fi) (u8 (from_option fi_error 0 fi))
    (info_time i) (info_hash i).

Definition has_stack (i : PointerInfoType) : bool := negb (info_hash i <=? kBacktraceEmptyIndex).

(** The walk: the entries and what was left out of them. *)
Definition walk_entries (f : FrameTable) (only_with_backtrace : bool) (walk : list (Z * PointerInfoType)) :
    list ListInfoType :=
  (λ e, list_entry f e.1 e.2) <$> filter (λ e, has_stack e.2 || negb only_with_backtrace = true) walk.

Definition walk_omitted (only_with_backtrace : bool) (walk : list (Z * PointerInfoType)) : OmittedStats :=
  fold_left (λ o e,
    if negb (has_stack e.2) && only_with_backtrace
    then mkOmitted (omitted_count o ⊞ 1) (omitted_bytes o ⊞ RealSize e.2) else o)
    walk (mkOmitted 0 0).

Definition GetList (f : FrameTable) (walk : list (Z * PointerInfoType)) (only_with_backtrace : bool)
    (pred : ListInfoType → ListInfoType → bool) : list ListInfoType * OmittedStats :=
  (sort_by pred (walk_entries f only_with_backtrace walk), walk_omitted only_with_backtrace walk).

(** [operator<] on [timeval]. *)
Definition timeval_lt (a b : Z * Z) : bool := a.1 * 1000000 + a.2 <? b.1 * 1000000 + b.2.
Definition older (a b : ListInfoType) : bool := timeval_lt (alloc_time a) (alloc_time b).

(** ** [GetUniqueList] *)

Definition frame_count_of (e : ListInfoType) : nat := from_option length O (li_raw_frames e).

Definition unique_less (a b : ListInfoType) : bool :=
  if negb (li_size a =? li_size b) then li_size a >? li_size b
  else match frame_info a, frame_info b with
  | None, Some _ => false
  | Some _, None => true
  | None, None => li_pointer a <? li_pointer b
  | Some _, Some _ =>
      if negb (frame_count_of a =? frame_count_of b)%nat
      then (frame_count_of b <? frame_count_of a)%nat
      else li_pointer a <? li_pointer b
  end.

Definition duplicate (a b : ListInfoType) : bool :=
  (li_size a =? li_size b) && bool_decide (frame_info a = frame_info b).

(** The erasing loop: [iter] swallows the run of duplicates that follows it. *)
Fixpoint merge_from (iter : ListInfoType) (l : list ListInfoType) : list ListInfoType :=
  match l with
  | [] => [iter]
  | dup :: l =>
      if duplicate iter dup
      then merge_from (iter <| num_allocations := num_allocations iter ⊞ 1 |>) l
      else iter :: merge_from dup l
  end.

Definition merge_duplicates (l : list ListInfoType) : list ListInfoType :=
  match l with [] => [] | iter :: l => merge_from iter l end.

Definition GetUniqueList (f : FrameTable) (walk : list (Z * PointerInfoType))
    (only_with_backtrace : bool) : list ListInfoType :=
  merge_duplicates (GetList f walk only_with_backtrace unique_less).1.

(** ** The comparator *)

(** What it means for [a] not to come after [b]. *)
Lemma not_after_unique a b :
  unique_less b a = false ↔
  li_size b < li_size a ∨ (li_size a = li_size b ∧
    match frame_info a, frame_info b with
    | None, Some _ => False
    | Some _, None => True
    | None, None => li_pointer a ≤ li_pointer b
    | Some _, Some _ =>
        (frame_count_of b < frame_count_of a)%nat ∨
        (frame_count_of a = frame_count_of b ∧ li_pointer a ≤ li_pointer b)
    end).
Proof.
  unfold unique_less. destruct (Z.eqb_spec (li_size b) (li_size a)) as [Hs|Hs]; cbn [negb].
  2: { rewrite Z.gtb_ltb, Z.ltb_ge. lia. }
  destruct (frame_info a), (frame_info b); rewrite ?Z.ltb_ge; try (intuition (done || lia)).
  destruct (Nat.eqb_spec (frame_count_of b) (frame_count_of a)); cbn [negb];
    rewrite ?Z.ltb_ge, ?Nat.ltb_ge; lia.
Qed.

Lemma unique_less_asym a b : unique_less a b = true → unique_less b a = false.
Proof.
  rewrite not_after_unique. intros Ht. destruct (frame_info a) eqn:Ea, (frame_info b) eqn:Eb;
    (assert (unique_less a b ≠ false) as Hn by congruence; rewrite not_after_unique, Ea, Eb in Hn; lia).
Qed.

Lemma unique_less_trans a b c :
  unique_less b a = false → unique_less c b = false → unique_less c a = false.
Proof.
  rewrite !not_after_unique. destruct (frame_info a), (frame_info b), (frame_info c); lia || intuition lia.
Qed.

Lemma unique_less_total a b :
  unique_less a b = false → unique_less b a = false → li_pointer a = li_pointer b.
Proof. rewrite !not_after_unique. destruct (frame_info a), (frame_info b); lia || intuition lia. Qed.

(** ** Walk order does not matter *)

Lemma DemanglePointer_inj a b : DemanglePointer a = DemanglePointer b → a = b.
Proof.
  unfold DemanglePointer. intros E. apply (f_equal (λ x, Z.lxor x UINTPTR_MAX)) in E.
  by rewrite !Z.lxor_assoc, !Z.lxor_nilpotent, !Z.lxor_0_r in E.
Qed.

Lemma walk_entries_perm f b w w' : w ≡ₚ w' → walk_entries f b w ≡ₚ walk_entries f b w'.
Proof. intros Hw. unfold walk_entries. by rewrite Hw. Qed.

Lemma walk_entries_pointer f b w x y :
  NoDup w.*1 → x ∈ walk_entries f b w → y ∈ walk_entries f b w → li_pointer x = li_pointer y → x = y.
Proof.
  intros Hnd (e & -> & [_ He]%list_elem_of_filter)%list_elem_of_fmap
    (e' & -> & [_ He']%list_elem_of_filter)%list_elem_of_fmap Hp%DemanglePointer_inj.
  destruct e as [k i], e' as [k' i']. cbn in *. subst k'.
  apply (elem_of_list_to_map_1 (M := gmap Z)) in He, He'; [|done..]. by simplify_eq.
Qed.

(** Every arrangement [std::sort] may leave is the one modelled. *)
Lemma unique_sort_canonical f b w l :
  NoDup w.*1 → l ≡ₚ walk_entries f b w → StronglySorted (not_after unique_less) l →
  sort_by unique_less (walk_entries f b w) = l.
Proof.
  intros Hnd Hp Hs. apply sort_by_canonical; [apply unique_less_asym|apply unique_less_trans|done..|].
  intros x y Hx Hy Hxy Hyx. eapply walk_entries_pointer; [done..|by apply unique_less_total].
Qed.

Lemma table_walk_keys {T} `{LiveTableLaws T} t : lt_ok t → NoDup (lt_walk t).*1.
Proof. intros Hok. rewrite (lt_walk_view t Hok). apply NoDup_fst_map_to_list. Qed.

(** A snapshot does not depend on how the live set is stored or walked, nor
    on how [std::sort] orders ties: the sharded tracker and one plain map with
    the same records give the same list, and so does merging any sorted
    arrangement of the walked entries. *)
Theorem snapshot_list_canonical (f : FrameTable) (t : Shards) (b : bool) (l : list ListInfoType) :
  lt_ok t → l ≡ₚ walk_entries f b (lt_walk t) → StronglySorted (not_after unique_less) l →
  merge_duplicates l = GetUniqueList f (lt_walk t) b ∧
  GetUniqueList f (lt_walk t) b = GetUniqueList f (lt_walk (lt_view t)) b.
Proof.
  intros Hok Hp Hs. pose proof (table_walk_keys t Hok) as Hnd. unfold GetUniqueList, GetList. cbn [fst].
  rewrite (unique_sort_canonical f b (lt_walk t) l) by done. split; [done|].
  f_equal. symmetry. apply unique_sort_canonical; [apply NoDup_fst_map_to_list| |done].
  rewrite Hp. apply walk_entries_perm, (lt_walk_view t Hok).
Qed.

(** Two records with different stacks of the same depth. *)
Definition demo_frames : FrameTable :=
  frame_table_init <| frames_ := {[ 2 := mkFrameInfo 2 [16; 32] 0 StackCaptureState.Complete 0;
                                    3 := mkFrameInfo 1 [48; 64] 0 StackCaptureState.Complete 0 ]} |>.
Definition demo_table : Shards :=
  lt_put (ManglePointer 4096) (mkInfo 512 2 HOST (7, 0))
    (lt_put (ManglePointer 8192) (mkInfo 512 3 HOST (8, 0))
      (lt_put (ManglePointer 12288) (mkInfo 512 2 HOST (9, 0))
        (lt_put (ManglePointer 16384) (mkInfo 64 1 HOST (9, 5)) lt_empty))).

Lemma demo_table_ok : lt_ok demo_table.
Proof. repeat apply lt_put_ok. apply lt_empty_ok. Qed.

Lemma snapshot_list_canonical_witness :
  GetUniqueList demo_frames (lt_walk demo_table) true =
  GetUniqueList demo_frames (lt_walk (lt_view demo_table)) true.
Proof.
  apply (snapshot_list_canonical demo_frames demo_table true
    (sort_by unique_less (walk_entries demo_frames true (lt_walk demo_table)))).
  - exact demo_table_ok.
  - apply sort_by_perm.
  - apply sort_by_sorted; [apply unique_less_asym|apply unique_less_trans].
Defined.

(** ** Totals *)

Section totals.
Context (W : Z → option Z → Z).
Definition weight (e : ListInfoType) : Z := num_allocations e * W (li_size e) (frame_info e).

Lemma merge_from_weight iter l :
  (∀ e, e ∈ l → num_allocations e = 1) → 0 ≤ num_allocations iter →
  num_allocations iter + Z.of_nat (length l) < 2 ^ 64 →
  list_sum weight (merge_from iter l) = weight iter + list_sum weight l.
Proof.
  revert iter. induction l as [|d l IH]; intros iter Hone Hnn Hroom; [done|].
  cbn [merge_from list_sum]. cbn [length] in Hroom. pose proof (Hone d ltac:(by left)) as Hd.
  assert (∀ e, e ∈ l → num_allocations e = 1) as Hone' by (intros; apply Hone; by right).
  destruct (duplicate iter d) eqn:E.
  - unfold duplicate in E. bool_hyps. rewrite (u64_small (num_allocations iter + 1)) by lia.
    rewrite IH by (done || cbn; lia).
    assert (weight d = W (li_size iter) (frame_info iter)) as ->
      by (unfold weight; rewrite Hd, <-H, <-H0; lia).
    assert (∀ n, weight (iter <| num_allocations := n |>) = n * W (li_size iter) (frame_info iter)) as ->
      by done.
    unfold weight at 2. lia.
  - cbn [list_sum]. rewrite IH by (done || rewrite Hd; lia). lia.
Qed.

Lemma merge_duplicates_weight l :
  (∀ e, e ∈ l → num_allocations e = 1) → Z.of_nat (length l) < 2 ^ 64 →
  list_sum weight (merge_duplicates l) = list_sum (λ e, W (li_size e) (frame_info e)) l.
Proof.
  intros Hone Hlen. assert (list_sum weight l = list_sum (λ e, W (li_size e) (frame_info e)) l) as <-.
  { clear Hlen. induction l as [|e l IH]; [done|]. cbn [list_sum].
    rewrite IH by (intros; apply Hone; by right). unfold weight. rewrite (Hone e) by by left. lia. }
  destruct l as [|iter l]; [done|]. cbn [length] in Hlen. pose proof (Hone iter ltac:(by left)) as Hi.
  apply merge_from_weight; [intros; apply Hone; by right|lia..].
Qed.
End totals.

Lemma merge_from_neighbours iter l :
  Sorted (λ a b, duplicate a b = false) (merge_from iter l) ∧
  ∃ iter' r, merge_from iter l = iter' :: r ∧ li_size iter' = li_size iter ∧ frame_info iter' = frame_info iter.
Proof.
  revert iter. induction l as [|d l IH]; intros iter; cbn [merge_from].
  { split; [repeat constructor|]. by exists iter, []. }
  destruct (duplicate iter d) eqn:E.
  { destruct (IH (iter <| num_allocations := num_allocations iter ⊞ 1 |>)) as [Hs (i' & r & Heq & Hsz & Hfr)].
    split; [done|]. by exists i', r. }
  destruct (IH d) as [Hs (d' & r & Heq & Hsz & Hfr)].
  split; [|by exists iter, (merge_from d l)]. constructor; [done|]. rewrite Heq. constructor.
  unfold duplicate in *. by rewrite Hsz, Hfr.
Qed.

Lemma walk_entries_one f b w e : e ∈ walk_entries f b w → num_allocations e = 1.
Proof. by intros (x & -> & _)%list_elem_of_fmap. Qed.

Lemma walk_entries_length f b w : (length (walk_entries f b w) ≤ length w)%nat.
Proof. unfold walk_entries. rewrite length_fmap. apply length_filter. Qed.

Definition frame_of (f : FrameTable) (i : PointerInfoType) : option Z :=
  match frames_ f !! info_hash i with Some _ => Some (info_hash i) | None => None end.

Lemma walk_entries_sum f W w :
  list_sum (λ e, W (li_size e) (frame_info e)) (walk_entries f true w) =
  list_sum (λ e, if has_stack e.2 then W (RealSize e.2) (frame_of f e.2) else 0) w.
Proof.
  unfold walk_entries. induction w as [|[k i] w IH]; [done|]. cbn [list_sum].
  rewrite filter_cons. cbn. destruct (has_stack i) eqn:E; cbn; [|exact IH].
  rewrite decide_True by done. cbn. f_equal. exact IH.
Qed.

Lemma walk_omitted_sum w :
  walk_omitted true w =
  mkOmitted (u64 (list_sum (λ e, if has_stack e.2 then 0 else 1) w))
            (u64 (list_sum (λ e, if has_stack e.2 then 0 else RealSize e.2) w)).
Proof.
  unfold walk_omitted. induction w as [|[k i] w IH] using rev_ind; [done|].
  rewrite fold_left_app, IH, !list_sum_app. cbn. destruct (has_stack i); cbn.
  - by rewrite !Z.add_0_r.
  - f_equal; rewrite !Z.add_0_r; word_eq.
Qed.

Section table_lists.
Context {T : Type} `{LiveTableLaws T}.

Lemma table_walk_sum (t : T) (g : PointerInfoType → Z) :
  lt_ok t → list_sum (λ e, g e.2) (lt_walk t) = map_sum g (lt_view t).
Proof. intros Hok. rewrite map_sum_to_list. by apply list_sum_Permutation, lt_walk_view. Qed.

Lemma table_walk_length (t : T) : lt_ok t → length (lt_walk t) = size (lt_view t).
Proof. intros Hok. rewrite (lt_walk_view t Hok). apply length_map_to_list. Qed.

Lemma unique_list_weight f (t : T) W :
  lt_ok t → Z.of_nat (size (lt_view t)) < 2 ^ 64 →
  list_sum (weight W) (GetUniqueList f (lt_walk t) true) =
  map_sum (λ i, if has_stack i then W (RealSize i) (frame_of f i) else 0) (lt_view t).
Proof.
  intros Hok Hsize. unfold GetUniqueList, GetList. cbn [fst].
  pose proof (sort_by_perm unique_less (walk_entries f true (lt_walk t))) as Hp.
  rewrite merge_duplicates_weight.
  - rewrite (list_sum_Permutation _ _ _ Hp), walk_entries_sum.
    by apply (table_walk_sum t (λ i, if has_stack i then W (RealSize i) (frame_of f i) else 0)).
  - intros e. rewrite Hp. apply walk_entries_one.
  - rewrite Hp. pose proof (walk_entries_length f true (lt_walk t)).
    rewrite <-table_walk_length in Hsize by done. lia.
Qed.

Lemma unique_list_neighbours f (w : list (Z * PointerInfoType)) b :
  Sorted (λ a b, duplicate a b = false) (GetUniqueList f w b).
Proof.
  unfold GetUniqueList, merge_duplicates. destruct (GetList _ _ _ _).1; [constructor|].
  apply merge_from_neighbours.
Qed.
End table_lists.

(** A snapshot accounts for the live set.  For any weight on sizes and
    stacks (one each, the bytes, the records of one stack) the merged list and
    the live records that carry a stack have the same total; no two neighbours
    of the list are the same size and stack; and the records without a stack are
    counted and summed in the omission line of a live report. *)
Theorem snapshot_list_accounts (f : FrameTable) (t : Shards) :
  lt_ok t → Z.of_nat (size (lt_view t)) < 2 ^ 64 →
  (∀ W, list_sum (weight W) (GetUniqueList f (lt_walk t) true) =
        map_sum (λ i, if has_stack i then W (RealSize i) (frame_of f i) else 0) (lt_view t)) ∧
  Sorted (λ a b, duplicate a b = false) (GetUniqueList f (lt_walk t) true) ∧
  (GetList f (lt_walk t) true older).2 =
    mkOmitted (map_sum (λ i, if has_stack i then 0 else 1) (lt_view t))
              (u64 (map_sum (λ i, if has_stack i then 0 else RealSize i) (lt_view t))).
Proof.
  intros Hok Hsize. split_and!; [intros W; by apply unique_list_weight|apply unique_list_neighbours|].
  cbn [GetList snd]. rewrite walk_omitted_sum, (table_walk_sum t (λ i, if has_stack i then 0 else RealSize i)),
    (table_walk_sum t (λ i, if has_stack i then 0 else 1)) by done.
  f_equal. apply u64_small. split.
  - apply map_sum_nonneg. intros. case_match; lia.
  - rewrite <-(table_walk_sum t (λ i, if has_stack i then 0 else 1)) by done.
    eapply Z.le_lt_trans; [|exact Hsize]. rewrite <-table_walk_length by done.
    induction (lt_walk t) as [|e w IH]; cbn [list_sum length]; [done|]. case_match; lia.
Qed.

Lemma snapshot_list_accounts_witness :
  list_sum (weight (λ size _, size)) (GetUniqueList demo_frames (lt_walk demo_table) true) = 1536 ∧
  (GetList demo_frames (lt_walk demo_table) true older).2 = mkOmitted 1 64.
Proof.
  destruct (snapshot_list_accounts demo_frames demo_table demo_table_ok) as (H & _ & Ho);
    [vm_compute; reflexivity|].
  split; [rewrite H|rewrite Ho]; vm_compute; reflexivity.
Defined.

(** Merging only looks at neighbours: when stacks of the same depth alternate
    by address, a snapshot keeps several entries for one size and stack. *)
Theorem snapshot_list_may_repeat :
  (λ e, (li_size e, frame_info e, num_allocations e)) <$> GetUniqueList demo_frames (lt_walk demo_table) true =
  [(512, Some 2, 1); (512, Some 3, 1); (512, Some 2, 1)].
Proof. vm_compute. reflexivity. Qed.

(** The mask of [RealSize] keeps the sizes [Remap] lets in; larger ones lose
    their high bits. *)
Lemma RealSize_small i : 0 ≤ info_size i ≤ MaxSize → RealSize i = info_size i.
Proof. intros Hs. unfold RealSize, MaxSize in *. rewrite land_ones_mod by done. apply Z.mod_small. lia. Qed.

Lemma RealSize_range i : 0 ≤ RealSize i ≤ MaxSize.
Proof. unfold RealSize, MaxSize. pose proof (land_ones_range (info_size i) 31). lia. Qed.

Lemma RealSize_le i : 0 ≤ info_size i → RealSize i ≤ info_size i.
Proof. intros Hs. unfold RealSize. rewrite land_ones_mod by done. apply Z.mod_le; lia. Qed.
