(* ===== verification/PeakSnapshot.v ===== *)
(** * Peak snapshots

    The retained snapshot of backtrace/src/PointerData.cpp: when the allocation
    path takes one ([MaybeRecordPeakSnapshot]), when the sampler does
    ([RecordObservedPeak]), what it stores ([TakePeakSnapshotLocked],
    [ApplyPeakProcContextLocked]), and the full tracker operations [Add],
    [Remap] and [Remove] composed from their critical sections.  [Stalled],
    the clock, the /proc context and the hash-table bucket counts a call sees
    are its arguments. *)
From S2P Require Import Prelude CString LineReader Capture Config InodeSet ProcParse Observed Sampler.
From S2P Require Import PointerTable StackRefs ModuleMaps LiveList.

Module PeakSnapshotSource.
Inductive t := None | Tracked | Observed.
End PeakSnapshotSource.

Record StepSnapshot := mkStep { ss_list : list ListInfoType; ss_host : Z; ss_dma : Z; ss_tot : Z }.

(** The peak fields of [PointerData]. *)
Record PeakState := mkPeak {
  next_peak_record_threshold_ : Z;
  peak_record_step_bytes_ : Z;
  peak_snapshot_final_ : bool;
  tracked_peak_once_ : bool;
  peak_list : list ListInfoType;
  peak_list_host : Z; peak_list_dma : Z; peak_list_tot : Z;
  step_snaps_ : list StepSnapshot;
  step_snaps_bytes_ : Z;
  peak_snapshot_source_ : PeakSnapshotSource.t;
  peak_observed_rss_ : Z; peak_observed_dma_ : Z; peak_observed_gpu_ : Z;
  peak_snapshot_generation_ : Z;
  peak_proc_read_inflight_ : bool;
  peak_snapshot_time_us_ : Z;
  peak_proc_read_start_us_ : Z; peak_proc_read_end_us_ : Z;
  observed_peak_active_ : bool;
  peak_rss_kb : Z; peak_rss_anon_kb : Z; peak_rss_file_kb : Z; peak_rss_shmem_kb : Z;
  peak_mappings : list MappingRss;
  peak_map_totals : MappingTotals;
  peak_live_pointers : Z; peak_pointer_buckets : Z; peak_unique_stacks : Z; peak_stack_pc_bytes : Z;
}.
#[global] Instance PeakState_upd : Updatable PeakState := λ p,
  mkPeak (next_peak_record_threshold_ p) (peak_record_step_bytes_ p) (peak_snapshot_final_ p)
    (tracked_peak_once_ p) (peak_list p) (peak_list_host p) (peak_list_dma p) (peak_list_tot p)
    (step_snaps_ p) (step_snaps_bytes_ p) (peak_snapshot_source_ p) (peak_observed_rss_ p)
    (peak_observed_dma_ p) (peak_observed_gpu_ p) (peak_snapshot_generation_ p)
    (peak_proc_read_inflight_ p) (peak_snapshot_time_us_ p) (peak_proc_read_start_us_ p)
    (peak_proc_read_end_us_ p) (observed_peak_active_ p) (peak_rss_kb p) (peak_rss_anon_kb p)
    (peak_rss_file_kb p) (peak_rss_shmem_kb p) (peak_mappings p) (peak_map_totals p)
    (peak_live_pointers p) (peak_pointer_buckets p) (peak_unique_stacks p) (peak_stack_pc_bytes p).

(** The member initialisers, then [Initialize]. *)
Definition peak_members : PeakState :=
  mkPeak 0 0 false false [] 0 0 0 [] 0 PeakSnapshotSource.None 0 0 0 0 false 0 0 0 false
    0 0 0 0 [] totals_init 0 0 0 0.

Definition is_first_crossing (r : PeakRetention) : bool :=
  match r with FirstCrossing => true | ChaseMax => false end.

Definition Initialize_peak (cfg : Config) (p : PeakState) : PeakState :=
  p <| peak_list := [] |>
    <| next_peak_record_threshold_ := backtrace_dump_peak_val cfg |>
    <| tracked_peak_once_ := is_first_crossing (peak_retention cfg) |>
    <| peak_snapshot_final_ := false |>
    <| peak_record_step_bytes_ := peak_record_step_bytes cfg |>
    <| peak_snapshot_source_ := PeakSnapshotSource.None |>
    <| peak_observed_rss_ := 0 |> <| peak_observed_dma_ := 0 |> <| peak_observed_gpu_ := 0 |>
    <| peak_snapshot_generation_ := 0 |>
    <| peak_proc_read_inflight_ := false |>
    <| peak_snapshot_time_us_ := 0 |>
    <| peak_proc_read_start_us_ := 0 |> <| peak_proc_read_end_us_ := 0 |>
    <| observed_peak_active_ := false |>.

(** ** Storing a snapshot *)

Definition sizeof_ListInfoType : Z := 104.
Definition kMaxStepSnapshotBytes : Z := 8 * 1024 * 1024.

(** The step report kept for chase-max retention, within its byte budget. *)
Definition snapshot_bytes (p : PeakState) : Z := Z.of_nat (length (peak_list p)) ⊠ sizeof_ListInfoType.

Definition step_fits (cfg : Config) (p : PeakState) : bool :=
  negb (is_first_crossing (peak_retention cfg)) &&
  (step_snaps_bytes_ p <=? kMaxStepSnapshotBytes) &&
  (snapshot_bytes p <=? kMaxStepSnapshotBytes ⊟ step_snaps_bytes_ p).

Definition retain_step (cfg : Config) (p : PeakState) : PeakState :=
  if step_fits cfg p
  then p <| step_snaps_ := step_snaps_ p ++
              [mkStep (peak_list p) (peak_list_host p) (peak_list_dma p) (peak_list_tot p)] |>
         <| step_snaps_bytes_ := step_snaps_bytes_ p ⊞ snapshot_bytes p |>
  else p.

Definition store_observed (observed : option ObservedMemSample) (p : PeakState) : PeakState :=
  p <| peak_observed_rss_ := from_option rss_bytes 0 observed |>
    <| peak_observed_dma_ := from_option dma_bytes 0 observed |>
    <| peak_observed_gpu_ := from_option gpu_bytes 0 observed |>.

(** The fields copied from a valid /proc context. *)
Definition store_rss (proc : PeakProcContext) (p : PeakState) : PeakState :=
  p <| peak_rss_kb := vm_rss_kb (pc_rss proc) |>
    <| peak_rss_anon_kb := anon_kb (pc_rss proc) |>
    <| peak_rss_file_kb := file_kb (pc_rss proc) |>
    <| peak_rss_shmem_kb := shmem_kb (pc_rss proc) |>
    <| peak_mappings := pc_mappings proc |>
    <| peak_map_totals := pc_totals proc |>.

Definition store_read_times (proc : PeakProcContext) (p : PeakState) : PeakState :=
  p <| peak_proc_read_start_us_ := read_start_us proc |> <| peak_proc_read_end_us_ := read_end_us proc |>.

Definition store_proc (proc : option PeakProcContext) (p : PeakState) : PeakState :=
  match proc with
  | None => p
  | Some proc => store_read_times proc (if rss_valid (pc_rss proc) then store_rss proc p else p)
  end.

(** The hook's own bookkeeping; [buckets] is the sum of [bucket_count ()]. *)
Definition store_overhead (f : FrameTable) (walk : list (Z * PointerInfoType)) (buckets : Z) (p : PeakState) :
    PeakState :=
  p <| peak_live_pointers := Z.of_nat (length walk) |>
    <| peak_pointer_buckets := buckets |>
    <| peak_unique_stacks := Z.of_nat (size (frames_ f)) |>
    <| peak_stack_pc_bytes := u64 (map_sum (λ fi, Z.of_nat (length (fi_frames fi)) * 8) (frames_ f)) |>.

(** What the code writes to the kernel's trace marker. *)
Inductive Marker :=
  | AllocMarker (phase : ascii) (ptr hash_index : Z) (type : MemType) (size_bytes : Z)
  | PeakMarker (host_bytes dma_bytes total_bytes : Z).

Section tracker.
Context {T : Type} `{LiveTable T} (cfg : Config).

(** What a snapshot attempt sees of the outside: three readings of
    [ObservedPeakSampler::Stalled], the /proc context, the clock and the hash
    tables' bucket counts. *)
Record SnapshotEnv := mkSnapEnv {
  stalled_first : bool; stalled_claimed : bool; stalled_locked : bool;
  env_proc : PeakProcContext;
  env_now_us : Z;
  env_buckets : Z;
}.

(** Under every shard and the frame lock: whether a snapshot was retained. *)
Definition TakePeakSnapshotLocked (l : Live T) (f : FrameTable) (now_us buckets : Z)
    (source : PeakSnapshotSource.t) (observed : option ObservedMemSample)
    (proc : option PeakProcContext) (p : PeakState) : bool * list Marker * PeakState :=
  match GetUniqueList f (lt_walk (lv_table l)) true with
  | [] => (false, [], p)
  | next_peak_list =>
      let c := lv_counters l in
      let p := p <| peak_snapshot_generation_ := peak_snapshot_generation_ p ⊞ 1 |>
                 <| peak_snapshot_time_us_ := now_us |>
                 <| peak_list := next_peak_list |>
                 <| peak_list_host := current_host c |>
                 <| peak_list_dma := current_dma c |>
                 <| peak_list_tot := current_used c |> in
      let p := retain_step cfg p in
      let p := p <| peak_snapshot_source_ := source |> in
      let p := store_overhead f (lt_walk (lv_table l)) buckets (store_proc proc (store_observed observed p)) in
      (true, [PeakMarker (current_host c) (current_dma c) (current_used c)], p)
  end.

Definition ApplyPeakProcContextLocked (proc : PeakProcContext) (snapshot_generation : Z) (p : PeakState) :
    PeakState :=
  if negb (snapshot_generation =? peak_snapshot_generation_ p) then p
  else if negb (rss_valid (pc_rss proc)) then p
  else store_read_times proc (store_rss proc p).

(** A final snapshot: nothing on the allocation path passes the threshold. *)
Definition finalize (p : PeakState) : PeakState :=
  p <| peak_snapshot_final_ := true |> <| next_peak_record_threshold_ := SIZE_MAX |>.

(** The part of [MaybeRecordPeakSnapshot] that runs under the shard locks. *)
Definition commit_tracked (l : Live T) (f : FrameTable) (e : SnapshotEnv) (p : PeakState) :
    list Marker * PeakState :=
  if (observed_peak_active_ p && negb (stalled_locked e)) || peak_snapshot_final_ p then ([], p)
  else
    let peak_now := peak_tot (lv_counters l) in
    if peak_now <=? next_peak_record_threshold_ p then ([], p)
    else
      let '(retained, markers, p) :=
        TakePeakSnapshotLocked l f (env_now_us e) (env_buckets e) PeakSnapshotSource.Tracked None
          (Some (env_proc e)) p in
      if tracked_peak_once_ p then (markers, if retained : bool then finalize p else p)
      else (markers, p <| next_peak_record_threshold_ :=
                           if peak_record_step_bytes_ p =? 0 then peak_now
                           else NextPeakThreshold peak_now (peak_record_step_bytes_ p) |>).

Definition MaybeRecordPeakSnapshot (l : Live T) (f : FrameTable) (e : SnapshotEnv) (tracked_total : Z)
    (p : PeakState) : list Marker * PeakState :=
  if negb (flag_set (options cfg) RECORD_MEMORY_PEAK) ||
     (tracked_total <=? next_peak_record_threshold_ p) then ([], p)
  else if observed_peak_active_ p && negb (stalled_first e) then ([], p)
  else if peak_proc_read_inflight_ p then ([], p)
  else
    let p := p <| peak_proc_read_inflight_ := true |> in
    if observed_peak_active_ p && negb (stalled_claimed e)
    then ([], p <| peak_proc_read_inflight_ := false |>)
    else
      let '(markers, p) := commit_tracked l f e p in
      (markers, p <| peak_proc_read_inflight_ := false |>).

(** The first locked part of [RecordObservedPeak]. *)
Definition observe_locked (l : Live T) (f : FrameTable) (now_us buckets : Z) (sample : ObservedMemSample)
    (p : PeakState) : bool * Z * list Marker * PeakState :=
  let p := p <| observed_peak_active_ := true |> in
  let '(retained, markers, p) :=
    TakePeakSnapshotLocked l f now_us buckets PeakSnapshotSource.Observed (Some sample) None p in
  let snapshot_generation := if retained : bool then peak_snapshot_generation_ p else 0 in
  let p := if retained && is_first_crossing (peak_retention cfg) then finalize p else p in
  (retained, snapshot_generation, markers, p).

(** [proc] is what the reader thread (or the fallback) collected. *)
Definition RecordObservedPeak (l : Live T) (f : FrameTable) (now_us buckets : Z) (proc : PeakProcContext)
    (sample : ObservedMemSample) (p : PeakState) : bool * list Marker * PeakState :=
  if negb (flag_set (options cfg) RECORD_MEMORY_PEAK) then (false, [], p)
  else
    let '(retained, snapshot_generation, markers, p) := observe_locked l f now_us buckets sample p in
    (retained, markers, if retained : bool then ApplyPeakProcContextLocked proc snapshot_generation p else p).

(** ** The tracker operations *)

Record Tracker := mkTracker { tr_live : Live T; tr_frames : FrameTable; tr_peak : PeakState }.

Definition Initialize (p : PeakState) : Tracker := mkTracker live_init frame_table_init (Initialize_peak cfg p).

Definition alloc_marker (phase : ascii) (ptr : Z) (i : PointerInfoType) : list Marker :=
  if info_hash i >? kBacktraceEmptyIndex
  then [AllocMarker phase ptr (info_hash i) (info_type i) (info_size i)] else [].

Definition maybe_record (raised : bool) (l : Live T) (f : FrameTable) (e : SnapshotEnv) (total : Z)
    (p : PeakState) : list Marker * PeakState :=
  if raised then MaybeRecordPeakSnapshot l f e total p else ([], p).

(** The stack a displaced record held. *)
Definition release_displaced (d : option PointerInfoType) (f : FrameTable) : FrameTable :=
  match d with
  | Some i => if info_hash i >? kBacktraceEmptyIndex then RemoveBacktrace cfg (info_hash i) f else f
  | None => f
  end.

Definition Add (ptr : Z) (raw : RawStackRecord) (pointer_size tracked_size : Z) (type : MemType)
    (tv : Z * Z) (e : SnapshotEnv) (t : Tracker) : list Marker * Tracker :=
  let '(hash_index, f) := AddBacktrace cfg raw pointer_size (tr_frames t) in
  if hash_index =? kBacktraceExitIndex then ([], mkTracker (tr_live t) f (tr_peak t))
  else
    let info := mkInfo tracked_size hash_index type tv in
    let '(displaced, tracked_total, raised_peak, l) := add_entry ptr info (tr_live t) in
    let '(markers, p) := maybe_record raised_peak l f e tracked_total (tr_peak t) in
    (markers ++ from_option (alloc_marker "F" ptr) [] displaced ++ alloc_marker "S" ptr info,
     mkTracker l (release_displaced displaced f) p).

Definition Remap (old_ptr new_ptr new_size : Z) (e : SnapshotEnv) (t : Tracker) : list Marker * Tracker :=
  if (old_ptr =? 0) || (new_ptr =? 0) || (new_size >? MaxSize) then ([], t)
  else match remap_entry old_ptr new_ptr new_size (tr_live t) with
  | None => ([], t)
  | Some (moved_info, displaced, tracked_total, raised_peak, l) =>
      let '(markers, p) := maybe_record raised_peak l (tr_frames t) e tracked_total (tr_peak t) in
      let moved_markers :=
        if negb (old_ptr =? new_ptr)
        then alloc_marker "F" old_ptr moved_info ++
             alloc_marker "S" new_ptr (moved_info <| info_size := new_size |>)
        else [] in
      (markers ++ from_option (alloc_marker "F" new_ptr) [] displaced ++ moved_markers,
       mkTracker l (release_displaced displaced (tr_frames t)) p)
  end.

Definition Remove (ptr : Z) (t : Tracker) : list Marker * Tracker :=
  match TakeEntry ptr (tr_live t) with
  | (None, _) => ([], t)
  | (Some info, l) =>
      (alloc_marker "F" ptr info,
       mkTracker l (RemoveBacktrace cfg (info_hash info) (tr_frames t)) (tr_peak t))
  end.
End tracker.
#[global] Arguments Tracker : clear implicits.
