(* ===== verification/SnapshotProps.v ===== *)
(** * What the retained snapshots promise

    The tracker as one transition system: the critical sections of
    [StackRefs], and the four sections that touch the peak state (the claim of
    the /proc read, the tracked commit, the observed commit and the late
    application of a /proc context), in any interleaving.  The operations of
    [PeakSnapshot] run these sections one after the other
    ([operations_are_steps]), so what holds in every reachable state holds for
    them, alone or interleaved. *)
From stdpp Require Import relations.
From S2P Require Import Prelude CString LineReader Capture Config InodeSet ProcParse Observed Sampler.
From S2P Require Import PointerTable StackRefs ModuleMaps LiveList PeakSnapshot.

Section transitions.
Context {T : Type} `{LiveTable T} (cfg : Config).

Record TrackerSystem := mkTS { ts_sys : System T; ts_peak : PeakState }.

(** The live set is what a 64-bit address space can hold. *)
Definition sizes_fit (m : gmap Z PointerInfoType) : Prop :=
  (∀ k i, m !! k = Some i → 0 ≤ info_size i) ∧ map_sum info_size m < 2 ^ 64 ∧ Z.of_nat (size m) < 2 ^ 56.

Inductive alloc_step : TrackerSystem → TrackerSystem → Prop :=
  | ts_live s s' p :
      step cfg s s' → sizes_fit (lt_view (lv_table (st_live s'))) → alloc_step (mkTS s p) (mkTS s' p)
  | ts_claim s p b :
      alloc_step (mkTS s p) (mkTS s (p <| peak_proc_read_inflight_ := b |>))
  | ts_commit s p e :
      alloc_step (mkTS s p) (mkTS s (commit_tracked cfg (st_live s) (st_frames s) e p).2)
  | ts_apply s p proc generation :
      alloc_step (mkTS s p) (mkTS s (ApplyPeakProcContextLocked proc generation p)).

Inductive tracker_step : TrackerSystem → TrackerSystem → Prop :=
  | ts_alloc a b : alloc_step a b → tracker_step a b
  | ts_observe s p now_us buckets sample :
      tracker_step (mkTS s p) (mkTS s (observe_locked cfg (st_live s) (st_frames s) now_us buckets sample p).2).

Definition ts_init : TrackerSystem := mkTS system_init (Initialize_peak cfg peak_members).
Definition tracker_reachable (a : TrackerSystem) : Prop := rtc tracker_step ts_init a.
End transitions.
#[global] Arguments TrackerSystem : clear implicits.

(** ** The invariant *)

(** A retained list with the totals stored beside it: it is not empty, every
    entry has its stack, neighbours differ, and the bytes listed are within the
    total, which is the host and dma totals together. *)
Record snap_ok (l : list ListInfoType) (host dma tot : Z) : Prop := {
  so_nonempty : l ≠ [];
  so_bytes : list_sum (weight (λ size _, size)) l ≤ tot;
  so_total : tot = u64 (host + dma);
  so_stacks : Forall (λ e, is_Some (li_raw_frames e)) l;
  so_neighbours : Sorted (λ a b, duplicate a b = false) l;
}.

Record peak_inv (cfg : Config) (p : PeakState) : Prop := {
  pi_retained : match peak_snapshot_source_ p with
                | PeakSnapshotSource.None => peak_list p = []
                | _ => snap_ok (peak_list p) (peak_list_host p) (peak_list_dma p) (peak_list_tot p)
                end;
  pi_steps : Forall (λ s, snap_ok (ss_list s) (ss_host s) (ss_dma s) (ss_tot s)) (step_snaps_ p);
  pi_bytes : step_snaps_bytes_ p =
               list_sum (λ s, Z.of_nat (length (ss_list s)) * sizeof_ListInfoType) (step_snaps_ p) ∧
             step_snaps_bytes_ p ≤ kMaxStepSnapshotBytes;
  pi_once : tracked_peak_once_ p = is_first_crossing (peak_retention cfg);
  pi_first : peak_retention cfg = FirstCrossing → step_snaps_ p = [];
  pi_final : peak_snapshot_final_ p = true →
             peak_retention cfg = FirstCrossing ∧ next_peak_record_threshold_ p = SIZE_MAX;
}.

Section snapshots.
Context {T : Type} `{LiveTableLaws T} (cfg : Config).
Implicit Types s : System T.

Lemma merge_from_Forall (P : ListInfoType → Prop) iter l :
  (∀ e n, P e → P (e <| num_allocations := n |>)) → P iter → Forall P l → Forall P (merge_from iter l).
Proof.
  intros HP. revert iter. induction l as [|d l IH]; intros iter Hi Hl; cbn [merge_from]; [by constructor|].
  apply Forall_cons in Hl as [Hd Hl]. case_match; [by apply IH; [apply HP|]|]. constructor; [done|by apply IH].
Qed.

Lemma unique_list_length f w b : (length (GetUniqueList f w b) ≤ length w)%nat.
Proof.
  unfold GetUniqueList, GetList. cbn [fst].
  assert (∀ l iter, (length (merge_from iter l) ≤ S (length l))%nat) as Hm.
  { induction l as [|d l IH]; intros iter; cbn [merge_from length]; [done|].
    case_match; cbn [length]; [|by apply le_n_S].
    etransitivity; [apply IH|lia]. }
  pose proof (Permutation_length (sort_by_perm unique_less (walk_entries f b w))) as Hl.
  pose proof (walk_entries_length f b w). destruct (sort_by _ _) as [|iter l]; cbn [merge_duplicates length] in *; [lia|].
  specialize (Hm l iter). lia.
Qed.

(** What the lists of a well-formed tracker look like. *)
Lemma unique_list_ok s :
  system_inv s → sizes_fit (lt_view (lv_table (st_live s))) →
  let l := GetUniqueList (st_frames s) (lt_walk (lv_table (st_live s))) true in
  let c := lv_counters (st_live s) in
  l ≠ [] → snap_ok l (current_host c) (current_dma c) (current_used c).
Proof.
  intros Hinv (Hpos & Hsum & Hsize) l c Hne. pose proof Hinv as [[Hok (H1 & H2 & H3)] _ _].
  set (m := lt_view (lv_table (st_live s))) in *. split; [done|..].
  - assert (Z.of_nat (size m) < 2 ^ 64) by lia. unfold l. rewrite unique_list_weight by done. fold m c. unfold c. rewrite H1, u64_small.
    + apply map_sum_le. intros k i Hi. specialize (Hpos k i Hi). pose proof (RealSize_le i Hpos).
      case_match; lia.
    + split; [|done]. by apply map_sum_nonneg.
  - unfold c. rewrite H1, H2, H3.
    assert (map_sum info_size m = map_sum host_size m + map_sum dma_size m) as ->.
    { rewrite <-map_sum_add. apply map_sum_ext. intros k i _. unfold host_size, dma_size. case_match; lia. }
    word_eq.
  - unfold l, GetUniqueList, GetList. cbn [fst].
    assert (Forall (λ e, is_Some (li_raw_frames e))
      (sort_by unique_less (walk_entries (st_frames s) true (lt_walk (lv_table (st_live s)))))) as Hall.
    { rewrite sort_by_perm, Forall_forall. intros e ([k i] & -> & [Hst Hi]%list_elem_of_filter)%list_elem_of_fmap.
      cbn in *. rewrite orb_false_r in Hst. rewrite (lt_walk_view _ Hok), elem_of_map_to_list in Hi.
      unfold has_stack in Hst. bool_hyps. destruct (live_interned s k i Hinv Hi ltac:(lia)) as [fi ->]. by eexists. }
    destruct (sort_by _ _) as [|iter r]; [constructor|]. apply Forall_cons in Hall as [Hi Hr].
    by apply merge_from_Forall.
  - apply unique_list_neighbours.
Qed.

(** The fields the invariant is about. *)
Definition snap_view (p : PeakState) :=
  (peak_snapshot_source_ p, peak_list p, (peak_list_host p, peak_list_dma p, peak_list_tot p),
   (step_snaps_ p, step_snaps_bytes_ p), tracked_peak_once_ p, peak_snapshot_final_ p,
   next_peak_record_threshold_ p).

Lemma peak_inv_view p p' : snap_view p = snap_view p' → peak_inv cfg p → peak_inv cfg p'.
Proof.
  intros [= E1 E2 E3 E4 E5 E6 E7 E8 E9 E10] [? ? ? ? ? ?].
  split; rewrite <-?E1, <-?E2, <-?E3, <-?E4, <-?E5, <-?E6, <-?E7, <-?E8, <-?E9, <-?E10; assumption.
Qed.

Lemma snap_view_final p p' :
  snap_view p = snap_view p' →
  peak_snapshot_final_ p = peak_snapshot_final_ p' ∧
  next_peak_record_threshold_ p = next_peak_record_threshold_ p'.
Proof. by intros [= _ _ _ _ _ _ _ _ -> ->]. Qed.

(** Storing the context of a snapshot leaves them alone. *)
Lemma store_view f w buckets proc observed p :
  snap_view (store_overhead f w buckets (store_proc proc (store_observed observed p))) = snap_view p.
Proof. destruct proc as [proc|]; [|done]. cbn. by destruct (rss_valid (pc_rss proc)). Qed.

(** Keeping a step report stays within the budget. *)
Lemma retain_step_inv p :
  peak_inv cfg p → snap_ok (peak_list p) (peak_list_host p) (peak_list_dma p) (peak_list_tot p) →
  Z.of_nat (length (peak_list p)) < 2 ^ 56 → peak_inv cfg (retain_step cfg p).
Proof.
  intros Hp Hs Hlen. pose proof Hp as [Hret Hst [Hb Hmax] Honce Hfirst Hfin]. unfold retain_step, step_fits, snapshot_bytes.
  assert (0 ≤ step_snaps_bytes_ p) as Hnn.
  { rewrite Hb. apply list_sum_nonneg. intros. unfold sizeof_ListInfoType. lia. }
  unfold kMaxStepSnapshotBytes, sizeof_ListInfoType in *.
  rewrite (u64_small (Z.of_nat (length (peak_list p)) * 104)) by lia.
  rewrite (u64_small (8 * 1024 * 1024 - step_snaps_bytes_ p)) by lia.
  destruct (peak_retention cfg) eqn:Er; cbn [is_first_crossing negb andb]; [|done].
  destruct (Z.leb_spec (step_snaps_bytes_ p) (8 * 1024 * 1024)); [|done].
  destruct (Z.leb_spec (Z.of_nat (length (peak_list p)) * 104) (8 * 1024 * 1024 - step_snaps_bytes_ p));
    cbn [andb]; [|done].
  split; cbn [peak_snapshot_source_ peak_list step_snaps_ step_snaps_bytes_ tracked_peak_once_
    peak_snapshot_final_ next_peak_record_threshold_ field_set].
  - done.
  - apply Forall_app. split; [done|]. by apply Forall_singleton.
  - rewrite u64_small by lia. rewrite list_sum_app. cbn [list_sum]. unfold sizeof_ListInfoType.
    cbn [ss_list]. unfold kMaxStepSnapshotBytes. lia.
  - by rewrite Er.
  - congruence.
  - intros Hf. destruct (Hfin Hf). congruence.
Qed.

Lemma retain_step_source p source :
  retain_step cfg (p <| peak_snapshot_source_ := source |>) = (retain_step cfg p) <| peak_snapshot_source_ := source |>.
Proof.
  unfold retain_step. change (step_fits cfg (p <| peak_snapshot_source_ := source |>)) with (step_fits cfg p).
  by destruct (step_fits cfg p).
Qed.

Lemma take_inv s now_us buckets source observed proc p :
  system_inv s → sizes_fit (lt_view (lv_table (st_live s))) → peak_inv cfg p →
  source ≠ PeakSnapshotSource.None →
  let '(retained, _, p') :=
    TakePeakSnapshotLocked cfg (st_live s) (st_frames s) now_us buckets source observed proc p in
  peak_inv cfg p' ∧ peak_snapshot_final_ p' = peak_snapshot_final_ p ∧
  next_peak_record_threshold_ p' = next_peak_record_threshold_ p.
Proof.
  intros Hinv Hfit Hp Hsrc. unfold TakePeakSnapshotLocked.
  pose proof (unique_list_ok s Hinv Hfit) as Hok. cbn zeta in Hok.
  pose proof (unique_list_length (st_frames s) (lt_walk (lv_table (st_live s))) true) as Hlen.
  rewrite table_walk_length in Hlen by apply Hinv. destruct Hfit as (_ & _ & Hsize).
  destruct (GetUniqueList _ _ _) as [|e l]; [done|]. specialize (Hok ltac:(done)).
  set (q := p <| peak_snapshot_generation_ := _ |> <| peak_snapshot_time_us_ := _ |> <| peak_list := _ |>
    <| peak_list_host := _ |> <| peak_list_dma := _ |> <| peak_list_tot := _ |>).
  assert (peak_inv cfg (q <| peak_snapshot_source_ := source |>)) as Hq.
  { destruct Hp as [Hret Hst Hb Honce Hfirst Hfin]. split; try done. cbn. by destruct source. }
  assert (peak_inv cfg ((retain_step cfg q) <| peak_snapshot_source_ := source |>)) as Hr.
  { rewrite <-retain_step_source. apply retain_step_inv; [done..|]. cbn in *. lia. }
  split.
  - eapply peak_inv_view; [|exact Hr]. symmetry. apply store_view.
  - destruct (snap_view_final _ _ (store_view (st_frames s) (lt_walk (lv_table (st_live s))) buckets proc observed
      ((retain_step cfg q) <| peak_snapshot_source_ := source |>))) as [-> ->].
    unfold retain_step. by destruct (step_fits cfg q).
Qed.

Lemma finalize_inv p : peak_retention cfg = FirstCrossing → peak_inv cfg p → peak_inv cfg (finalize p).
Proof. intros Hr [? ? ? ? ? ?]. by split. Qed.

Lemma commit_inv s e p :
  system_inv s → sizes_fit (lt_view (lv_table (st_live s))) → peak_inv cfg p →
  peak_inv cfg (commit_tracked cfg (st_live s) (st_frames s) e p).2.
Proof.
  intros Hinv Hfit Hp. unfold commit_tracked. destruct (_ || _) eqn:Ec; [done|]. destruct (_ <=? _); [done|].
  pose proof (take_inv s (env_now_us e) (env_buckets e) PeakSnapshotSource.Tracked None (Some (env_proc e)) p
    Hinv Hfit Hp ltac:(done)) as Ht.
  destruct (TakePeakSnapshotLocked _ _ _ _ _ _ _ _ p) as [[retained markers] p'].
  destruct Ht as (Hp' & Hfin & _). pose proof Hp' as [? ? ? Honce ? ?]. rewrite Honce.
  destruct (peak_retention cfg) eqn:Er; cbn [is_first_crossing snd].
  - apply orb_false_iff in Ec as [_ Ec].
    split; cbn; rewrite ?Er, ?Hfin, ?Ec; try done; try assumption.
  - destruct retained; [by apply finalize_inv|done].
Qed.

Lemma observe_inv s now_us buckets sample p :
  system_inv s → sizes_fit (lt_view (lv_table (st_live s))) → peak_inv cfg p →
  peak_inv cfg (observe_locked cfg (st_live s) (st_frames s) now_us buckets sample p).2.
Proof.
  intros Hinv Hfit Hp. unfold observe_locked.
  assert (peak_inv cfg (p <| observed_peak_active_ := true |>)) as Ha by by eapply peak_inv_view; [|exact Hp].
  pose proof (take_inv s now_us buckets PeakSnapshotSource.Observed (Some sample) None _ Hinv Hfit Ha ltac:(done)) as Ht.
  destruct (TakePeakSnapshotLocked _ _ _ _ _ _ _ _ _) as [[retained markers] p'].
  destruct Ht as (Hp' & _). cbn [snd]. destruct retained; [|done].
  destruct (peak_retention cfg) eqn:Er; [done|]. by apply finalize_inv.
Qed.

Lemma apply_view proc generation p : snap_view (ApplyPeakProcContextLocked proc generation p) = snap_view p.
Proof. unfold ApplyPeakProcContextLocked. by repeat case_match. Qed.

Definition ts_inv (a : TrackerSystem T) : Prop :=
  system_inv (ts_sys a) ∧ sizes_fit (lt_view (lv_table (st_live (ts_sys a)))) ∧ peak_inv cfg (ts_peak a).

Lemma alloc_step_inv a b : alloc_step cfg a b → ts_inv a → ts_inv b.
Proof.
  intros Hs (Hi & Hf & Hp). destruct Hs; cbn in *; split_and!; try done.
  - by eapply step_inv.
  - by eapply peak_inv_view; [|exact Hp].
  - by apply commit_inv.
  - eapply peak_inv_view; [symmetry; apply apply_view|exact Hp].
Qed.

Lemma alloc_steps_inv a b : rtc (alloc_step cfg) a b → ts_inv a → ts_inv b.
Proof. induction 1; [done|]. intros Ha. by eapply IHrtc, alloc_step_inv. Qed.

Lemma tracker_step_inv a b : tracker_step cfg a b → ts_inv a → ts_inv b.
Proof.
  intros [? ? Hs|] Hinv; [by eapply alloc_step_inv|]. destruct Hinv as (Hi & Hf & Hp).
  split_and!; [done..|]. by apply observe_inv.
Qed.

Lemma ts_init_inv : ts_inv (ts_init cfg).
Proof.
  split_and!.
  - apply (reachable_inv cfg). constructor.
  - cbn. rewrite lt_empty_view. by split_and!.
  - split; cbn; try done.
Qed.

Lemma tracker_reachable_inv a : tracker_reachable cfg a → ts_inv a.
Proof.
  unfold tracker_reachable. intros Hr. revert Hr. generalize ts_init_inv. generalize (ts_init cfg).
  intros a0 Hinit Hr. induction Hr as [|a0 a1 a Hs _ IH]; [done|]. apply IH. by eapply tracker_step_inv.
Qed.

(** Once final, the snapshot is out of the allocation path's reach. *)
Definition snapshot_fields (p : PeakState) :=
  (peak_snapshot_source_ p, peak_list p, (peak_list_host p, peak_list_dma p, peak_list_tot p),
   (peak_observed_rss_ p, peak_observed_dma_ p, peak_observed_gpu_ p),
   peak_snapshot_time_us_ p, peak_snapshot_generation_ p, peak_snapshot_final_ p).

Lemma final_step a b :
  alloc_step cfg a b → peak_snapshot_final_ (ts_peak a) = true →
  snapshot_fields (ts_peak b) = snapshot_fields (ts_peak a).
Proof.
  intros Hs Hfin. destruct Hs; cbn in *; [done..| |].
  - unfold commit_tracked. by rewrite Hfin, orb_true_r.
  - unfold ApplyPeakProcContextLocked. by repeat case_match.
Qed.

Lemma final_steps a b :
  rtc (alloc_step cfg) a b → peak_snapshot_final_ (ts_peak a) = true →
  snapshot_fields (ts_peak b) = snapshot_fields (ts_peak a).
Proof.
  induction 1 as [|a a' b Hs _ IH]; intros Hfin; [done|].
  pose proof (final_step _ _ Hs Hfin) as E. rewrite <-E. apply IH. by injection E as _ _ _ _ _ _ _ _ _ _ ->.
Qed.
End snapshots.

(** ** The operations are sequences of steps *)

(** The system between two operations: nobody holds a reference. *)
Definition quiescent {T} (t : Tracker T) : TrackerSystem T :=
  mkTS (mkSystem (tr_live t) (tr_frames t) [] []) (tr_peak t).

Section operations.
Context {T : Type} `{LiveTableLaws T} (cfg : Config).

Lemma maybe_steps (s : System T) p e raised total :
  rtc (alloc_step cfg) (mkTS s p)
    (mkTS s (maybe_record cfg raised (st_live s) (st_frames s) e total p).2).
Proof.
  unfold maybe_record, MaybeRecordPeakSnapshot. destruct raised; [|done].
  destruct (_ || _); [done|]. destruct (_ && _); [done|]. destruct (peak_proc_read_inflight_ p); [done|].
  set (q := p <| peak_proc_read_inflight_ := true |>).
  eapply rtc_l; [apply (ts_claim cfg s p true)|]. fold q.
  destruct (_ && _); [apply rtc_once, ts_claim|].
  eapply rtc_l; [apply (ts_commit cfg s q e)|].
  destruct (commit_tracked _ _ _ _ q) as [markers p']. apply rtc_once, ts_claim.
Qed.

(** Dropping the reference of a displaced record. *)
Lemma release_steps (l : Live T) f p d refs taken :
  sizes_fit (lt_view (lv_table l)) →
  rtc (alloc_step cfg) (mkTS (mkSystem l f (hash_list d ++ refs) taken) p)
    (mkTS (mkSystem l (release_displaced cfg d f) refs taken) p).
Proof.
  intros Hfit. destruct d as [i|]; [|done]. apply rtc_once.
  assert (release_displaced cfg (Some i) f = RemoveBacktrace cfg (info_hash i) f) as ->.
  { cbn. unfold RemoveBacktrace. rewrite Z.gtb_ltb, Z.ltb_antisym. by destruct (_ <=? _). }
  apply ts_live; [|done]. by apply (step_release cfg (mkSystem l f _ taken) (info_hash i) refs).
Qed.

Lemma capture_index (s : System T) raw n h f :
  system_inv s → frame_count raw ≤ kMaxAsyncRawFrames → room s →
  AddBacktrace cfg raw n (st_frames s) = (h, f) → h ≠ kBacktraceExitIndex.
Proof.
  intros [_ Hwf Hc] Hfc [Hcur Hroom] Hadd. unfold AddBacktrace in Hadd.
  repeat case_match; simplify_eq; try done.
  pose proof (intern_stack_wf raw (st_frames s) Hwf Hcur Hfc) as Hi. rewrite Hadd in Hi.
  destruct Hi as (_ & Hh & _); [intros x Hx; rewrite (Hc x Hx); apply Hroom|].
  unfold kBacktraceEmptyIndex, kBacktraceExitIndex in *. lia.
Qed.

(** [Add], also while other operations are in flight. *)
Lemma Add_steps_at ptr raw pointer_size tracked_size type tv e (t : Tracker T) refs taken :
  let s := mkSystem (tr_live t) (tr_frames t) refs taken in
  let t' := (Add cfg ptr raw pointer_size tracked_size type tv e t).2 in
  system_inv s → room s → frame_count raw ≤ kMaxAsyncRawFrames →
  sizes_fit (lt_view (lv_table (tr_live t))) → sizes_fit (lt_view (lv_table (tr_live t'))) →
  rtc (alloc_step cfg) (mkTS s (tr_peak t)) (mkTS (mkSystem (tr_live t') (tr_frames t') refs taken) (tr_peak t')).
Proof.
  intros s t' Hinv Hroom Hfc Hfit Hfit'. unfold t', Add in *.
  destruct (AddBacktrace cfg raw pointer_size (tr_frames t)) as [h f] eqn:Eb.
  pose proof (capture_index s raw pointer_size h f Hinv Hfc Hroom Eb) as Hh.
  destruct (Z.eqb_spec h kBacktraceExitIndex) as [|_]; [done|].
  set (info := mkInfo tracked_size h type tv) in *.
  destruct (add_entry ptr info (tr_live t)) as [[[d total] raised] l] eqn:Ea.
  pose proof (maybe_steps (mkSystem l f (hash_list d ++ refs) taken) (tr_peak t) e raised total) as Hm.
  cbn [st_live st_frames] in Hm. destruct (maybe_record _ _ _ _ _ _ _) as [markers p']. cbn [snd tr_live] in *.
  eapply rtc_l; [apply ts_live; [by apply (step_capture cfg s raw pointer_size h f)|done]|].
  eapply rtc_l; [apply ts_live; [by apply (step_add cfg _ ptr info d total raised l refs)|done]|].
  cbn [st_frames st_taken]. etransitivity; [exact Hm|]. by apply release_steps.
Qed.

Lemma Add_steps ptr raw pointer_size tracked_size type tv e (t : Tracker T) :
  let s := ts_sys (quiescent t) in
  let t' := (Add cfg ptr raw pointer_size tracked_size type tv e t).2 in
  system_inv s → room s → frame_count raw ≤ kMaxAsyncRawFrames →
  sizes_fit (lt_view (lv_table (tr_live t))) → sizes_fit (lt_view (lv_table (tr_live t'))) →
  rtc (alloc_step cfg) (quiescent t) (quiescent t').
Proof. apply (Add_steps_at ptr raw pointer_size tracked_size type tv e t [] []). Qed.

Lemma Remap_steps old_ptr new_ptr new_size e (t : Tracker T) :
  let t' := (Remap cfg old_ptr new_ptr new_size e t).2 in
  sizes_fit (lt_view (lv_table (tr_live t'))) → rtc (alloc_step cfg) (quiescent t) (quiescent t').
Proof.
  intros t' Hfit. unfold t', Remap in *. destruct (_ || _ || _); [done|].
  destruct (remap_entry old_ptr new_ptr new_size (tr_live t)) as [[[[[info d] total] raised] l]|] eqn:Er; [|done].
  pose proof (maybe_steps (mkSystem l (tr_frames t) (hash_list d ++ []) []) (tr_peak t) e raised total) as Hm.
  cbn [st_live st_frames] in Hm. destruct (maybe_record _ _ _ _ _ _ _) as [markers p']. cbn [snd tr_live] in *.
  eapply rtc_l; [apply ts_live;
    [by apply (step_remap cfg (ts_sys (quiescent t)) old_ptr new_ptr new_size info d total raised l)|done]|].
  etransitivity; [exact Hm|]. by apply release_steps.
Qed.

Lemma Remove_steps ptr (t : Tracker T) :
  let t' := (Remove cfg ptr t).2 in
  sizes_fit (lt_view (lv_table (tr_live t'))) → rtc (alloc_step cfg) (quiescent t) (quiescent t').
Proof.
  intros t' Hfit. unfold t', Remove in *. destruct (TakeEntry ptr (tr_live t)) as [[info|] l] eqn:Et; [|done].
  cbn [snd tr_live] in *.
  eapply rtc_l; [apply ts_live; [by apply (step_take cfg (ts_sys (quiescent t)) ptr info l)|done]|].
  eapply rtc_l; [apply ts_live; [by apply (step_drop cfg _ ptr info [])|done]|].
  apply rtc_once, ts_live; [|done]. by apply (step_release cfg (mkSystem l (tr_frames t) [info_hash info] []) _ []).
Qed.

Lemma RecordObservedPeak_steps (s : System T) now_us buckets proc sample p :
  rtc (tracker_step cfg) (mkTS s p)
    (mkTS s (RecordObservedPeak cfg (st_live s) (st_frames s) now_us buckets proc sample p).2).
Proof.
  unfold RecordObservedPeak. destruct (negb _); [done|].
  eapply rtc_l; [apply (ts_observe cfg s p now_us buckets sample)|].
  destruct (observe_locked _ _ _ _ _ _ p) as [[[retained generation] markers] p'].
  destruct retained; [|done]. apply rtc_once, ts_alloc, ts_apply.
Qed.
End operations.

(** ** A concrete run *)

Lemma sizes_fit_intro m :
  bool_decide (map_Forall (λ _ i, 0 ≤ info_size i) m ∧ map_sum info_size m < 2 ^ 64 ∧ Z.of_nat (size m) < 2 ^ 56) =
    true → sizes_fit m.
Proof. by intros (H1 & H2 & H3)%bool_decide_eq_true. Qed.

Lemma initial_room {T} `{LiveTableLaws T} cfg p : room (ts_sys (quiescent (T := T) (Initialize cfg p))).
Proof. split; [done|]. intros h. unfold count. cbn [quiescent ts_sys st_live st_refs st_taken Initialize tr_live lv_table live_init]. by rewrite lt_empty_view. Qed.

Definition demo_cfg : Config := Init OsLinux 34 demo_env.
Definition demo_snap_env : SnapshotEnv :=
  mkSnapEnv false false false (CollectPeakProcContext 100 200 (Some [demo_status]) (Some [demo_smaps])) 150 64.
Definition demo_start : Tracker Shards := Initialize demo_cfg peak_members.
Definition demo_after : Tracker Shards :=
  (Add demo_cfg 4096 example_raw 1048576 1048576 HOST (0, 0) demo_snap_env demo_start).2.

Lemma demo_start_fits : sizes_fit (lt_view (lv_table (tr_live demo_start))).
Proof. apply sizes_fit_intro. vm_compute. reflexivity. Qed.
Lemma demo_after_fits : sizes_fit (lt_view (lv_table (tr_live demo_after))).
Proof. apply sizes_fit_intro. vm_compute. reflexivity. Qed.

Lemma demo_reachable : tracker_reachable demo_cfg (quiescent demo_after).
Proof.
  unfold tracker_reachable. change (ts_init demo_cfg) with (quiescent demo_start).
  apply (rtc_subrel (alloc_step demo_cfg)); [by constructor|].
  apply Add_steps; [apply (ts_init_inv demo_cfg)|apply initial_room|done|apply demo_start_fits|apply demo_after_fits].
Qed.

(** ** The properties *)

(** C16. Every snapshot the tracker keeps accounts for what it says, however
    allocations, releases, tracked and sampled snapshots interleave.  The retained
    list (once there is one) and the list of every step report are not empty,
    every entry has its stack, the bytes listed do not exceed the total stored
    beside the list, and that total is the host and dma totals together.  Step
    reports stay within 8 MiB, exactly accounted, and first-crossing retention
    keeps none. *)
Theorem retained_snapshots_account (cfg : Config) (a : TrackerSystem Shards) :
  tracker_reachable cfg a →
  let p := ts_peak a in
  (peak_snapshot_source_ p ≠ PeakSnapshotSource.None →
     snap_ok (peak_list p) (peak_list_host p) (peak_list_dma p) (peak_list_tot p)) ∧
  Forall (λ s, snap_ok (ss_list s) (ss_host s) (ss_dma s) (ss_tot s)) (step_snaps_ p) ∧
  step_snaps_bytes_ p = list_sum (λ s, Z.of_nat (length (ss_list s)) * sizeof_ListInfoType) (step_snaps_ p) ∧
  step_snaps_bytes_ p ≤ 8 * 1024 * 1024 ∧
  (peak_retention cfg = FirstCrossing → step_snaps_ p = []).
Proof.
  intros Hr p. destruct (tracker_reachable_inv cfg a Hr) as (_ & _ & [Hret Hst [Hb Hmax] _ Hfirst _]).
  fold p in Hret, Hst, Hb, Hmax, Hfirst. split_and!; try assumption.
  intros Hsrc. by destruct (peak_snapshot_source_ p).
Qed.

Lemma retained_snapshots_account_witness :
  let p := ts_peak (quiescent demo_after) in
  snap_ok (peak_list p) (peak_list_host p) (peak_list_dma p) (peak_list_tot p) ∧ peak_list_tot p = 1048576.
Proof.
  destruct (retained_snapshots_account demo_cfg (quiescent demo_after) demo_reachable) as (Hs & _).
  assert (peak_snapshot_source_ (ts_peak (quiescent demo_after)) ≠ PeakSnapshotSource.None) as Hsrc
    by (vm_compute; discriminate).
  split; [exact (Hs Hsrc)|vm_compute; reflexivity].
Defined.

(** First-crossing retention keeps its snapshot: once a snapshot is final,
    no sequence of allocations, releases, remaps, late /proc contexts and
    allocation-path snapshot attempts by any threads replaces it; only the
    sampler can.  The unlocked threshold test alone already turns the
    allocation path away. *)
Theorem final_snapshot_stays (cfg : Config) (a b : TrackerSystem Shards) :
  tracker_reachable cfg a → peak_snapshot_final_ (ts_peak a) = true → rtc (alloc_step cfg) a b →
  snapshot_fields (ts_peak b) = snapshot_fields (ts_peak a) ∧
  ∀ (l : Live Shards) f e total, total < 2 ^ 64 →
    MaybeRecordPeakSnapshot cfg l f e total (ts_peak b) = ([], ts_peak b).
Proof.
  intros Hr Hfin Hs. pose proof (final_steps cfg _ _ Hs Hfin) as E. split; [done|].
  assert (ts_inv cfg b) as (_ & _ & [_ _ _ _ _ Hpin]).
  { eapply alloc_steps_inv; [exact Hs|]. by apply tracker_reachable_inv. }
  destruct Hpin as [_ Hthr]; [by injection E as _ _ _ _ _ _ _ _ _ _ ->|].
  intros l f e total Ht. unfold MaybeRecordPeakSnapshot. rewrite Hthr. unfold SIZE_MAX.
  destruct (Z.leb_spec total (2 ^ 64 - 1)); [|lia]. by rewrite orb_true_r.
Qed.

Lemma final_snapshot_stays_witness :
  peak_snapshot_final_ (ts_peak (quiescent demo_after)) = true ∧
  snapshot_fields (ts_peak (quiescent (Remove demo_cfg 4096 demo_after).2)) =
  snapshot_fields (ts_peak (quiescent demo_after)).
Proof.
  assert (peak_snapshot_final_ (ts_peak (quiescent demo_after)) = true) as Hf by (vm_compute; reflexivity).
  assert (rtc (alloc_step demo_cfg) (quiescent demo_after) (quiescent (Remove demo_cfg 4096 demo_after).2)) as Hs.
  { apply Remove_steps, sizes_fit_intro. vm_compute. reflexivity. }
  destruct (final_snapshot_stays demo_cfg _ _ demo_reachable Hf Hs) as [E _]. split; [exact Hf|exact E].
Defined.

(** The tracker's operations are sequences of its critical sections: [Add],
    [Remap] and [Remove] lead from a quiescent tracker to a quiescent tracker by
    steps of the transition system, and so does a sampler's
    [RecordObservedPeak]; every reference they take is stored or released. *)
Theorem operations_are_steps (cfg : Config) (t : Tracker Shards) (e : SnapshotEnv) :
  (∀ ptr raw pointer_size tracked_size type tv,
     let t' := (Add cfg ptr raw pointer_size tracked_size type tv e t).2 in
     system_inv (ts_sys (quiescent t)) → room (ts_sys (quiescent t)) →
     frame_count raw ≤ kMaxAsyncRawFrames →
     sizes_fit (lt_view (lv_table (tr_live t))) → sizes_fit (lt_view (lv_table (tr_live t'))) →
     rtc (alloc_step cfg) (quiescent t) (quiescent t')) ∧
  (∀ old_ptr new_ptr new_size,
     let t' := (Remap cfg old_ptr new_ptr new_size e t).2 in
     sizes_fit (lt_view (lv_table (tr_live t'))) → rtc (alloc_step cfg) (quiescent t) (quiescent t')) ∧
  (∀ ptr, let t' := (Remove cfg ptr t).2 in
     sizes_fit (lt_view (lv_table (tr_live t'))) → rtc (alloc_step cfg) (quiescent t) (quiescent t')) ∧
  (∀ now_us buckets proc sample, rtc (tracker_step cfg) (quiescent t)
     (mkTS (ts_sys (quiescent t))
        (RecordObservedPeak cfg (tr_live t) (tr_frames t) now_us buckets proc sample (tr_peak t)).2)).
Proof.
  split_and!.
  - intros. by apply Add_steps.
  - intros. by apply Remap_steps.
  - intros. by apply Remove_steps.
  - intros. apply (RecordObservedPeak_steps cfg (ts_sys (quiescent t))).
Qed.

Lemma operations_are_steps_witness : rtc (alloc_step demo_cfg) (quiescent demo_start) (quiescent demo_after).
Proof.
  destruct (operations_are_steps demo_cfg demo_start demo_snap_env) as (Hadd & _).
  apply Hadd; [apply (ts_init_inv demo_cfg)|apply initial_room|vm_compute; discriminate
    |apply demo_start_fits|apply demo_after_fits].
Defined.
