(* ===== verification/SnapshotLag.v ===== *)
(** * How far the retained snapshot lags behind the peak

    With chase-max retention and no sampler, the allocation path itself keeps
    the snapshot fresh.  Here the tracker operations of [PeakSnapshot] run one
    after the other, every allocation capturing its stack. *)
From stdpp Require Import relations.
From S2P Require Import Prelude CString LineReader Capture Config InodeSet ProcParse Observed Sampler.
From S2P Require Import PointerTable StackRefs ModuleMaps LiveList PeakSnapshot SnapshotProps.

Inductive tracker_op :=
  | OpAdd (ptr : Z) (raw : RawStackRecord) (pointer_size tracked_size : Z) (type : MemType)
      (tv : Z * Z) (e : SnapshotEnv)
  | OpRemap (old_ptr new_ptr new_size : Z) (e : SnapshotEnv)
  | OpRemove (ptr : Z).

Section lag.
Context {T : Type} `{LiveTableLaws T} (cfg : Config).
Implicit Types t : Tracker T.

Definition run_tracker_op (op : tracker_op) (t : Tracker T) : Tracker T :=
  match op with
  | OpAdd ptr raw pointer_size tracked_size type tv e =>
      (Add cfg ptr raw pointer_size tracked_size type tv e t).2
  | OpRemap old_ptr new_ptr new_size e => (Remap cfg old_ptr new_ptr new_size e t).2
  | OpRemove ptr => (Remove cfg ptr t).2
  end.

(** The allocation's stack is captured. *)
Definition captures (op : tracker_op) : Prop :=
  match op with
  | OpAdd _ raw pointer_size _ _ _ _ =>
      ShouldBacktraceAllocSize cfg pointer_size = true ∧ frame_count raw ≠ 0 ∧ IsUsable raw = true ∧
      frame_count raw ≤ kMaxAsyncRawFrames
  | _ => True
  end.

(** No machine integer is about to wrap at this operation. *)
Definition op_room (op : tracker_op) (t : Tracker T) : Prop :=
  room (ts_sys (quiescent t)) ∧
  sizes_fit (lt_view (lv_table (tr_live (run_tracker_op op t)))) ∧
  peak_tot (lv_counters (tr_live (run_tracker_op op t))) +
    Z.max (peak_record_step_bytes cfg) kMinPeakStepBytes < 2 ^ 64.

Fixpoint run_tracker (ops : list tracker_op) (t : Tracker T) : Tracker T :=
  match ops with [] => t | op :: ops => run_tracker ops (run_tracker_op op t) end.

Fixpoint run_room (ops : list tracker_op) (t : Tracker T) : Prop :=
  match ops with [] => True | op :: ops => op_room op t ∧ run_room ops (run_tracker_op op t) end.

(** The threshold a snapshot of [tot] bytes sets. *)
Definition next_threshold (tot : Z) : Z :=
  if peak_record_step_bytes cfg =? 0 then tot else NextPeakThreshold tot (peak_record_step_bytes cfg).

(** The snapshot [p] holds when the process peak is [peak]. *)
Definition fresh (peak : Z) (p : PeakState) : Prop :=
  if peak =? 0 then next_peak_record_threshold_ p = 0
  else peak_snapshot_source_ p = PeakSnapshotSource.Tracked ∧ 0 ≤ peak_list_tot p ≤ peak ∧
       peak ≤ next_peak_record_threshold_ p ∧ next_peak_record_threshold_ p = next_threshold (peak_list_tot p).

(** The settings that do not change while no sampler runs. *)
Definition chasing (p : PeakState) : Prop :=
  observed_peak_active_ p = false ∧ peak_snapshot_final_ p = false ∧
  tracked_peak_once_ p = false ∧ peak_record_step_bytes_ p = peak_record_step_bytes cfg.

Definition all_stacks (l : Live T) : Prop :=
  ∀ k i, lt_view (lv_table l) !! k = Some i → has_stack i = true.

Record lag_inv (t : Tracker T) : Prop := {
  li_inv : ts_inv cfg (quiescent t);
  li_stacks : all_stacks (tr_live t);
  li_chasing : chasing (tr_peak t);
  li_idle : peak_proc_read_inflight_ (tr_peak t) = false;
  li_peak : 0 ≤ peak_tot (lv_counters (tr_live t)) <
            2 ^ 64 - Z.max (peak_record_step_bytes cfg) kMinPeakStepBytes;
  li_fresh : fresh (peak_tot (lv_counters (tr_live t))) (tr_peak t);
}.

(** ** Taking the snapshot *)

Lemma unique_list_nonempty (f : FrameTable) (l : Live T) k i :
  lt_ok (lv_table l) → all_stacks l → lt_view (lv_table l) !! k = Some i →
  GetUniqueList f (lt_walk (lv_table l)) true ≠ [].
Proof.
  intros Hok Hst Hi. unfold GetUniqueList, GetList. cbn [fst].
  assert (list_entry f k i ∈ sort_by unique_less (walk_entries f true (lt_walk (lv_table l)))) as Hin.
  { rewrite sort_by_perm. apply list_elem_of_fmap. exists (k, i). split; [done|].
    apply list_elem_of_filter. cbn. rewrite (Hst k i Hi). split; [done|].
    by rewrite (lt_walk_view _ Hok), elem_of_map_to_list. }
  destruct (sort_by _ _) as [|iter r]; [by apply not_elem_of_nil in Hin|]. cbn [merge_duplicates].
  clear. revert iter. induction r as [|d r IH]; intros iter; cbn [merge_from]; [done|]. by case_match.
Qed.

(** A snapshot taken while chasing stores the current total. *)
Lemma take_chasing l f now_us buckets proc p :
  GetUniqueList f (lt_walk (lv_table l)) true ≠ [] → chasing p →
  ∃ markers p',
    TakePeakSnapshotLocked cfg l f now_us buckets PeakSnapshotSource.Tracked None proc p = (true, markers, p') ∧
    chasing p' ∧ peak_snapshot_source_ p' = PeakSnapshotSource.Tracked ∧
    peak_list_tot p' = current_used (lv_counters l).
Proof.
  intros Hne Hch. unfold TakePeakSnapshotLocked. destruct (GetUniqueList _ _ _) as [|x xs]; [done|].
  eexists _, _. split; [reflexivity|]. clear Hne. unfold chasing in *.
  unfold store_overhead, store_proc, store_observed, retain_step.
  destruct (step_fits cfg _), proc as [proc|]; cbn; try (by destruct Hch as (? & ? & ? & ?));
    destruct (rss_valid (pc_rss proc)); cbn; by destruct Hch as (? & ? & ? & ?).
Qed.

Lemma next_threshold_ge tot :
  0 ≤ tot → 0 ≤ peak_record_step_bytes cfg →
  tot + Z.max (peak_record_step_bytes cfg) kMinPeakStepBytes < 2 ^ 64 →
  tot ≤ next_threshold tot ≤ tot + Z.max (peak_record_step_bytes cfg) kMinPeakStepBytes.
Proof.
  intros Ht Hs Hlt. unfold next_threshold, NextPeakThreshold, kMinPeakStepBytes in *.
  destruct (Z.eqb_spec (peak_record_step_bytes cfg) 0); [lia|].
  assert (0 ≤ tot / 4) by (apply Z.div_pos; lia).
  destruct (Z.gtb_spec (tot / 4) (peak_record_step_bytes cfg)).
  - case_match; bool_hyps; rewrite u64_small; lia.
  - case_match; bool_hyps; rewrite u64_small; lia.
Qed.

Context (Hrecord : flag_set (options cfg) RECORD_MEMORY_PEAK = true).
Context (Hstep : 0 ≤ peak_record_step_bytes cfg).

(** The allocation path after the counters moved from [peak] to those of [l]. *)
Lemma maybe_fresh l f e raised peak p :
  let c := lv_counters l in
  GetUniqueList f (lt_walk (lv_table l)) true ≠ [] → chasing p → peak_proc_read_inflight_ p = false →
  fresh peak p → 0 ≤ peak →
  (if raised : bool then peak_tot c = current_used c ∧ peak < current_used c else peak_tot c = peak) →
  peak_tot c + Z.max (peak_record_step_bytes cfg) kMinPeakStepBytes < 2 ^ 64 →
  let p' := (maybe_record cfg raised l f e (current_used c) p).2 in
  chasing p' ∧ peak_proc_read_inflight_ p' = false ∧ fresh (peak_tot c) p'.
Proof.
  intros c Hne Hch Hidle Hfr Hpk Hr Hroom. unfold maybe_record. destruct raised; [|by rewrite Hr].
  destruct Hr as [Hpt Hlt]. unfold MaybeRecordPeakSnapshot, fresh in *. rewrite Hrecord, Hpt. cbn [negb orb].
  destruct (Z.eqb_spec (current_used c) 0) as [|Hnz]; [lia|].
  destruct (Z.leb_spec (current_used c) (next_peak_record_threshold_ p)) as [Hle|Hgt].
  { split; [done|]. split; [done|]. destruct (Z.eqb_spec peak 0); [lia|]. cbn. destruct Hfr as (? & ? & ? & ?).
    split_and!; done || lia. }
  set (q := p <| peak_proc_read_inflight_ := true |>).
  assert (chasing q) as Hq by exact Hch. pose proof Hq as (Ha & Hfin & _).
  destruct Hch as (-> & _). rewrite Hidle, Ha. cbn [andb].
  destruct (take_chasing l f (env_now_us e) (env_buckets e) (Some (env_proc e)) q Hne Hq)
    as (m & p' & Etake & Hp' & Hsrc & Htot).
  unfold commit_tracked. rewrite Ha, Hfin, Etake. cbn [andb orb]. fold c.
  change (next_peak_record_threshold_ q) with (next_peak_record_threshold_ p).
  destruct (Z.leb_spec (peak_tot c) (next_peak_record_threshold_ p)) as [|_]; [lia|].
  destruct Hp' as (H1 & H2 & H3 & H4). rewrite H3, H4. cbn. fold c in Htot.
  split; [by split_and!|]. split; [done|]. split; [done|]. split; [lia|]. split.
  - rewrite Hpt. apply next_threshold_ge; [lia|done|by rewrite <-Hpt].
  - unfold next_threshold. by rewrite Htot, Hpt.
Qed.

(** ** What an operation does to the peak *)

Definition peak_moves (raised : bool) (c c' : Counters) : Prop :=
  if raised then peak_tot c' = current_used c' ∧ peak_tot c < current_used c' else peak_tot c' = peak_tot c.

Lemma displace_peak key (l : Live T) :
  peak_tot (lv_counters (displace key l).2) = peak_tot (lv_counters l).
Proof. unfold displace, sub_entry. by repeat case_match. Qed.

Lemma add_entry_peak ptr i (l : Live T) :
  let '(_, total, raised, l') := add_entry ptr i l in peak_moves raised (lv_counters l) (lv_counters l').
Proof.
  unfold add_entry, peak_moves. pose proof (displace_peak (ManglePointer ptr) l) as Hd.
  destruct (displace _ l) as [d l1]. cbn in Hd. unfold add_raising, add_bytes, RaisePeak.
  destruct (is_dma (info_type i)); cbn; rewrite Hd; destruct (Z.gtb_spec (current_used (lv_counters l1) ⊞ info_size i) (peak_tot (lv_counters l))); cbn; done || lia.
Qed.

Lemma remap_entry_peak old_ptr new_ptr new_size (l : Live T) :
  match remap_entry old_ptr new_ptr new_size l with
  | Some (_, _, total, raised, l') => peak_moves raised (lv_counters l) (lv_counters l')
  | None => True
  end.
Proof.
  unfold remap_entry, peak_moves. destruct (lt_find _ _) as [info|]; [|done].
  set (l0 := mkLive _ _ _). pose proof (displace_peak (ManglePointer new_ptr) l0) as Hd.
  destruct (displace _ l0) as [d l1]. cbn in Hd.
  set (c := resize_counters _ _ _ _).
  assert (peak_tot c = peak_tot (lv_counters l)) as Hc.
  { unfold c, resize_counters, add_bytes. rewrite <-Hd. by repeat case_match. }
  unfold RaisePeak. rewrite Hc. destruct (Z.gtb_spec (current_used c) (peak_tot (lv_counters l))); cbn; done || lia.
Qed.

(** ** One operation *)

Context (Hbacktrace : flag_set (options cfg) BACKTRACE = true).

(** Once the counters moved, the peak state follows. *)
Lemma lag_after l f e raised p (t' : Tracker T) c k i :
  ts_inv cfg (quiescent t') → tr_live t' = l → all_stacks l → lt_view (lv_table l) !! k = Some i →
  chasing p → peak_proc_read_inflight_ p = false → fresh (peak_tot c) p → 0 ≤ peak_tot c →
  peak_moves raised c (lv_counters l) →
  peak_tot (lv_counters l) + Z.max (peak_record_step_bytes cfg) kMinPeakStepBytes < 2 ^ 64 →
  tr_peak t' = (maybe_record cfg raised l f e (current_used (lv_counters l)) p).2 →
  lag_inv t'.
Proof.
  intros Hinv <- Hst Hi Hch Hidle Hfr Hpos Hmv Hroom Hp.
  destruct (maybe_fresh (tr_live t') f e raised (peak_tot c) p) as (H1 & H2 & H3); try done.
  { eapply unique_list_nonempty; [|done..]. by destruct Hinv as ([[? _] _ _] & _). }
  split; [done|done|by rewrite Hp|by rewrite Hp| |by rewrite Hp].
  unfold peak_moves in Hmv. destruct raised; lia.
Qed.

Lemma lag_add ptr raw psize tsize type tv e t :
  lag_inv t → captures (OpAdd ptr raw psize tsize type tv e) → op_room (OpAdd ptr raw psize tsize type tv e) t →
  ts_inv cfg (quiescent (run_tracker_op (OpAdd ptr raw psize tsize type tv e) t)) → lag_inv (run_tracker_op (OpAdd ptr raw psize tsize type tv e) t).
Proof.
  intros [Hinv Hst Hch Hidle [Hpos Hbnd] Hfr] Hcap (Hroom & Hfit & Hpk) Hinv'.
  pose proof Hinv as ([Hlive Hwf Hcount] & _). cbn in Hlive. cbn [run_tracker_op captures] in *.
  destruct Hcap as (Hsz & Hfc & Hus & Hmax). unfold Add in *.
  destruct (AddBacktrace cfg raw psize (tr_frames t)) as [h f] eqn:Eb.
  assert (kBacktraceEmptyIndex < h) as Hh.
  { unfold AddBacktrace in Eb. rewrite Hsz, Hbacktrace, Hus in Eb. apply Z.eqb_neq in Hfc. rewrite Hfc in Eb.
    cbn in Eb. destruct Hroom as [Hcur Hroom].
    pose proof (intern_stack_wf raw (tr_frames t) Hwf Hcur Hmax) as Hi. rewrite Eb in Hi.
    destruct Hi as (_ & Hh & _); [intros x Hx; cbn in Hcount; rewrite (Hcount x Hx); apply Hroom|done]. }
  destruct (Z.eqb_spec h kBacktraceExitIndex); [by unfold kBacktraceExitIndex, kBacktraceEmptyIndex in *; lia|].
  set (info := mkInfo tsize h type tv) in *.
  pose proof (add_entry_spec ptr info (tr_live t) Hlive) as Ha.
  pose proof (add_entry_peak ptr info (tr_live t)) as Hm.
  destruct (add_entry ptr info (tr_live t)) as [[[d total] raised] l].
  destruct Ha as (_ & _ & Hv & _ & ->).
  destruct (maybe_record _ raised l f e _ _) as [markers p'] eqn:Ep.
  eapply (lag_after l f e raised (tr_peak t) _ _ (ManglePointer ptr) info);
    [exact Hinv'|done| |by rewrite Hv, lookup_insert_eq|done..|by rewrite Ep].
  intros k i. rewrite Hv. intros [[_ <-]|[_ Hi]]%lookup_insert_Some; [|by eapply Hst].
  unfold has_stack. cbn. destruct (Z.leb_spec h kBacktraceEmptyIndex); [lia|done].
Qed.

Lemma lag_remap old_ptr new_ptr new_size e t :
  lag_inv t → captures (OpRemap old_ptr new_ptr new_size e) → op_room (OpRemap old_ptr new_ptr new_size e) t →
  ts_inv cfg (quiescent (run_tracker_op (OpRemap old_ptr new_ptr new_size e) t)) → lag_inv (run_tracker_op (OpRemap old_ptr new_ptr new_size e) t).
Proof.
  intros [Hinv Hst Hch Hidle [Hpos Hbnd] Hfr] Hcap (Hroom & Hfit & Hpk) Hinv'.
  pose proof Hinv as ([Hlive Hwf Hcount] & _). cbn in Hlive. cbn [run_tracker_op captures] in *.
  unfold Remap in *. destruct (_ || _ || _); [done|].
  pose proof (remap_entry_spec old_ptr new_ptr new_size (tr_live t) Hlive) as Ha.
  pose proof (remap_entry_peak old_ptr new_ptr new_size (tr_live t)) as Hm.
  destruct (remap_entry _ _ _ _) as [[[[[info d] total] raised] l]|]; [|done].
  destruct Ha as (Hold & _ & _ & Hv & _ & ->).
  destruct (maybe_record _ raised l _ e _ _) as [markers p'] eqn:Ep.
  eapply (lag_after l (tr_frames t) e raised (tr_peak t) _ _ (ManglePointer new_ptr));
    [exact Hinv'|done| |by rewrite Hv; unfold moved_map; rewrite lookup_insert_eq|done..|by rewrite Ep].
  intros k i. rewrite Hv. unfold moved_map. intros [[_ <-]|[_ [_ Hi]%lookup_delete_Some]]%lookup_insert_Some;
    [by apply (Hst _ _ Hold)|by eapply Hst].
Qed.

Lemma lag_remove ptr t :
  lag_inv t → captures (OpRemove ptr) → op_room (OpRemove ptr) t →
  ts_inv cfg (quiescent (run_tracker_op (OpRemove ptr) t)) → lag_inv (run_tracker_op (OpRemove ptr) t).
Proof.
  intros [Hinv Hst Hch Hidle [Hpos Hbnd] Hfr] Hcap (Hroom & Hfit & Hpk) Hinv'.
  pose proof Hinv as ([Hlive Hwf Hcount] & _). cbn in Hlive. cbn [run_tracker_op captures] in *.
  unfold Remove in *. pose proof (displace_spec (ManglePointer ptr) (tr_live t) Hlive) as Ha.
  pose proof (displace_peak (ManglePointer ptr) (tr_live t)) as Hp. unfold TakeEntry in *.
  destruct (displace _ _) as [[info|] l]; [|done]. destruct Ha as (_ & _ & Hv & _). cbn in Hp.
  split; cbn; [exact Hinv'| |done|done|by rewrite Hp|by rewrite Hp].
  intros k i Hi. rewrite Hv in Hi. apply lookup_delete_Some in Hi as [_ Hi]. by eapply Hst.
Qed.

Lemma lag_step op t : lag_inv t → captures op → op_room op t → lag_inv (run_tracker_op op t).
Proof.
  intros Ht Hcap Hroom. pose proof Ht as [Hinv _ _ _ _ _]. pose proof Hroom as (Hr & Hfit & _).
  assert (ts_inv cfg (quiescent (run_tracker_op op t))) as Hinv'.
  { eapply alloc_steps_inv; [|exact Hinv]. destruct Hinv as (Hs & Hf & _). destruct op; cbn [run_tracker_op] in *.
    - apply Add_steps; [done..| |done|done]. by destruct Hcap as (_ & _ & _ & ?).
    - by apply Remap_steps.
    - by apply Remove_steps. }
  destruct op; [by apply lag_add|by apply lag_remap|by apply lag_remove].
Qed.

Lemma lag_run ops t : lag_inv t → Forall captures ops → run_room ops t → lag_inv (run_tracker ops t).
Proof.
  revert t. induction ops as [|op ops IH]; intros t Ht Hc Hr; [done|].
  apply Forall_cons in Hc as [Hc Hcs]. destruct Hr as [Hr Hrs]. apply IH; [by apply lag_step|done..].
Qed.

Context (Hchase : peak_retention cfg = ChaseMax) (Hfloor : backtrace_dump_peak_val cfg = 0).
Context (Hbound : peak_record_step_bytes cfg < 2 ^ 63).

Lemma lag_init : lag_inv (Initialize cfg peak_members).
Proof.
  split; cbn; [exact (ts_init_inv cfg)| |by unfold chasing; cbn; rewrite Hchase|done| |by unfold fresh; cbn].
  - intros k i. cbn. by rewrite lt_empty_view.
  - unfold kMinPeakStepBytes. lia.
Qed.
End lag.


(** Two allocations with the default step of a chase-max run of 1 MiB steps. *)
Definition chase_env : Environ := Some ["ALLOC_HOOK_PEAK_SAMPLE_MS=1"; "DUMP_PEAK_STEP_MB=1"].
Definition chase_cfg : Config := Init OsLinux 34 chase_env.
Definition chase_ops : list tracker_op :=
  [OpAdd 4096 example_raw 1048576 1048576 HOST (0, 0) demo_snap_env].

