(* ===== verification/Report.v ===== *)
(** * Reports

    [PointerData::DumpLiveToFile], [DumpStepReports] and [DumpPeakInfo] of
    backtrace/src/PointerData.cpp, and the statistics [ObservedPeakSampler::stats]
    hands to them.  A report is the list of its lines; a line carries the
    integers the code prints (bytes and kilobytes before the division that makes
    them floating-point megabytes) and the names it prints. *)
From S2P Require Import Prelude CString LineReader Capture Config InodeSet ProcParse Observed Sampler.
From S2P Require Import PointerTable StackRefs ModuleMaps LiveList PeakSnapshot.

(** ** [ObservedPeakSampler::stats] *)

Record ObservedSamplerStats := mkSamplerStats {
  st_interval_ms : Z;
  st_counters : Stats;      (** the atomics copied one by one *)
  map_passes : Z;
  max_map_only_bytes : Z;
  max_gpu_bytes_seen : Z;
  gpu_reads : Z;
  gpu_read_failures : Z;
  span_us : Z;
}.

Definition stats (s : ObservedPeakSampler) : ObservedSamplerStats :=
  let c := stats_ s in
  let map_cache := default map_cache_init (c_map (caches_ s)) in
  let gpu_cache := default gpu_cache_init (c_gpu (caches_ s)) in
  mkSamplerStats (interval_ms_ s) c (mc_refreshes map_cache) (mc_max_bytes map_cache)
    (gc_max_bytes gpu_cache) (gc_reads gpu_cache) (gc_read_failures gpu_cache)
    (if last_sample_us_ c >? first_sample_us_ c then last_sample_us_ c - first_sample_us_ c else 0).

(** ** Report lines *)

Inductive ReportLine :=
  | LUsed (host dma total : Z)
  | LFramePc (adjust : Z)
  | LOmitted (o : OmittedStats)
  | LProcessPeak (host dma total snapshot_total step : Z)
  | LFirstCrossing (floor : Z)
  | LChaseMax
  | LNoSnapshot
  | LCriterion (criterion : string)
  | LTiming (snapshot_us start_us end_us : Z) (relation : string)
  | LObservedAtSnapshot (rss dma gpu total : Z)
  | LLagObserved (lag peak : Z)
  | LLagTracked (lag peak : Z)
  | LMaxOfSum (rss dma gpu total dma_fd dma_map : Z)
  | LIndependentMax (rss dma gpu : Z)
  | LSampler (s : ObservedSamplerStats) (read_mean status_mean fd_mean map_mean gpu_mean snapshot_mean : Z)
  | LRss (when : string) (rss : RssBreakdown) (tracked_host : Z)
  | LMapTotals (when : string) (t : MappingTotals) (top : Z)
  | LMapping (when : string) (m : MappingRss)
  | LOverhead (when : string) (live stacks entries pointer_bytes stack_bytes list_bytes step_bytes filter_bytes : Z)
  | LRule
  | LAlloc (e : ListInfoType)
  | LFrame (index rel_pc : Z) (module : string)
  | LNoStack (state error : Z)
  | LSymbol (index rel_pc : Z) (module function : string) (offset : Z)
  | LBlank.

(** What a report reads from outside the tracker. *)
Record ReportEnv := mkReportEnv {
  re_platform : Platform;
  re_self_probe : Z;                    (** the address of [SelfModuleProbe] *)
  re_image : Z → Z;                     (** the mapped address space *)
  re_maps : option (list string);
  re_status : option (list string);
  re_smaps : option (list string);
  re_sampler : ObservedPeakSampler;
  re_buckets : Z;
  re_list_capacity : Z;                 (** [peak_list.capacity ()] *)
  re_demangle : string → option string; (** [abi::__cxa_demangle] *)
}.

(** ** The stack of one entry *)

(** How many leading frames lie in the hook's own module. *)
Fixpoint leading_self (p : Platform) (modules : list ModuleRange) (self : string) (raw : list Z) : nat :=
  match raw with
  | [] => O
  | pc :: raw =>
      match Resolve modules (CallSitePcFromReturnAddress p pc) with
      | Some (_, name) => if String.eqb name self then S (leading_self p modules self raw) else O
      | None => O
      end
  end.

Definition first_frame (p : Platform) (modules : list ModuleRange) (self : option string) (raw : list Z) : nat :=
  match self with
  | None => O
  | Some self =>
      let first := leading_self p modules self raw in
      if (first =? length raw)%nat then O else first
  end.

Definition frame_line (p : Platform) (modules : list ModuleRange) (index : nat) (ra : Z) : ReportLine :=
  let pc := CallSitePcFromReturnAddress p ra in
  let '(rel_pc, name) := default (pc, "<unknown>") (Resolve modules pc) in
  LFrame (Z.of_nat index) rel_pc name.

(** [demangle] is [abi::__cxa_demangle]; an empty function prints nothing. *)
Definition symbol_line (demangle : string → option string) (index : nat) (f : SymbolizedFrame) : ReportLine :=
  LSymbol (Z.of_nat index) (sf_rel_pc f)
    (match sf_module_name f with EmptyString => "<unknown>" | name => name end)
    (match sf_function_name f with EmptyString => EmptyString | name => default name (demangle name) end)
    (sf_function_offset f).

Definition capture_state_code (s : StackCaptureState.t) : Z :=
  match s with
  | StackCaptureState.Empty => 0 | StackCaptureState.Complete => 1
  | StackCaptureState.Partial => 2 | StackCaptureState.Error => 3
  end.

Definition entry_lines (p : Platform) (demangle : string → option string) (modules : list ModuleRange)
    (self : option string) (e : ListInfoType) : list ReportLine :=
  LAlloc e ::
  match li_raw_frames e, li_backtrace e with
  | Some (pc :: raw), _ =>
      imap (frame_line p modules) (drop (first_frame p modules self (pc :: raw)) (pc :: raw)) ++ [LBlank]
  | _, None => [LNoStack (capture_state_code (li_state e)) (li_error e); LBlank]
  | _, Some frames => imap (symbol_line demangle) frames ++ [LBlank]
  end.

(** ** The sections of a report *)

Section dump.
Context {T : Type} `{LiveTable T} (cfg : Config).
Implicit Types t : Tracker T.

(** [rss + dma + gpu] at the snapshot. *)
Definition at_snapshot (p : PeakState) : Z :=
  (peak_observed_rss_ p ⊞ peak_observed_dma_ p) ⊞ peak_observed_gpu_ p.

Definition criterion (p : PeakState) : string :=
  match peak_snapshot_source_ p with
  | PeakSnapshotSource.Observed =>
      "observed_host_rss_plus_dma_plus_gpu (from /proc, aligned with an external sampler)"
  | PeakSnapshotSource.None => "none (nothing was snapshotted)"
  | PeakSnapshotSource.Tracked => "tracked_allocation_bytes"
  end.

(** How far the criterion kept growing after the snapshot. *)
Definition lag_lines (dumping_peak : bool) (c : Counters) (sampler : Stats) (p : PeakState) : list ReportLine :=
  match peak_snapshot_source_ p with
  | PeakSnapshotSource.Observed =>
      LObservedAtSnapshot (peak_observed_rss_ p) (peak_observed_dma_ p) (peak_observed_gpu_ p) (at_snapshot p) ::
      (if peak_total_bytes_ sampler >? at_snapshot p
       then [LLagObserved (peak_total_bytes_ sampler ⊟ at_snapshot p) (peak_total_bytes_ sampler)] else [])
  | _ =>
      if dumping_peak && (peak_tot c >? peak_list_tot p)
      then [LLagTracked (peak_tot c ⊟ peak_list_tot p) (peak_tot c)] else []
  end.

Definition sampler_lines (st : ObservedSamplerStats) : list ReportLine :=
  let s := st_counters st in
  if samples_ s =? 0 then []
  else
    [LMaxOfSum (peak_total_rss_bytes_ s) (peak_total_dma_bytes_ s) (peak_total_gpu_bytes_ s)
       (peak_total_bytes_ s) (peak_total_dma_fd_bytes_ s) (peak_total_dma_map_bytes_ s);
     LIndependentMax (max_rss_bytes_ s) (max_dma_bytes_ s) (max_gpu_bytes_ s);
     LSampler st (total_sample_us_ s / samples_ s) (total_status_us_ s / samples_ s)
       (total_fd_us_ s / samples_ s) (total_map_us_ s / samples_ s) (total_gpu_us_ s / samples_ s)
       (if snapshots_ s =? 0 then 0 else total_snapshot_us_ s / snapshots_ s)].

(** The block of a report that asked for the peak. *)
Definition peak_lines (dumping_peak : bool) (env : ReportEnv) (c : Counters) (p : PeakState) : list ReportLine :=
  let st := stats (re_sampler env) in
  [LProcessPeak (peak_host c) (peak_dma c) (peak_tot c) (peak_list_tot p) (peak_record_step_bytes_ p)] ++
  (if is_first_crossing (peak_retention cfg) then [LFirstCrossing (backtrace_dump_peak_val cfg)] else [LChaseMax]) ++
  (if dumping_peak then [] else [LNoSnapshot]) ++
  [LCriterion (criterion p)] ++
  (if dumping_peak
   then [LTiming (peak_snapshot_time_us_ p) (peak_proc_read_start_us_ p) (peak_proc_read_end_us_ p)
           (PeakProcContextRelation (peak_proc_read_start_us_ p) (peak_proc_read_end_us_ p)
              (peak_snapshot_time_us_ p))] else []) ++
  lag_lines dumping_peak c (st_counters st) p ++
  sampler_lines st.

Definition when_name (at_peak : bool) : string := if at_peak then "at_peak" else "at_exit".

(** The residency lines: what was stored with the snapshot, or read now. *)
Definition rss_lines (have_peak_rss : bool) (env : ReportEnv) (host_use : Z) (p : PeakState) : list ReportLine :=
  let rss := if have_peak_rss
             then mkRss (peak_rss_kb p) (peak_rss_anon_kb p) (peak_rss_file_kb p) (peak_rss_shmem_kb p) true
             else ReadSelfRss (re_status env) in
  if rss_valid rss then [LRss (when_name have_peak_rss) rss host_use] else [].

Definition maps_at_peak (have_peak_rss : bool) (p : PeakState) : bool :=
  have_peak_rss && negb (bool_decide (length (peak_mappings p) = O)).

Definition mapping_lines (at_peak : bool) (env : ReportEnv) (p : PeakState) : list ReportLine :=
  let '(mappings, t) :=
    if at_peak then (peak_mappings p, peak_map_totals p) else CollectMappingRss (re_smaps env) 12 in
  match mappings with
  | [] => []
  | _ => LMapTotals (when_name at_peak) t (Z.of_nat (length mappings)) :: (LMapping (when_name at_peak) <$> mappings)
  end.

(** [sizeof] a pair of key and record plus a link; a stack entry plus three
    words; the filter's words. *)
Definition node_bytes : Z := 48 + 8.
Definition stack_entry_bytes : Z := 40 + 3 * 8.

Definition overhead_line (have_peak_rss at_peak : bool) (env : ReportEnv) (walk : list (Z * PointerInfoType))
    (f : FrameTable) (p : PeakState) : ReportLine :=
  let live := if have_peak_rss then peak_live_pointers p else Z.of_nat (length walk) in
  let buckets := if have_peak_rss then peak_pointer_buckets p else re_buckets env in
  let stacks := if have_peak_rss then peak_unique_stacks p else Z.of_nat (size (frames_ f)) in
  LOverhead (when_name at_peak) live stacks (Z.of_nat (length (peak_list p)))
    ((live ⊠ node_bytes) ⊞ (buckets ⊠ 8))
    ((stacks ⊠ stack_entry_bytes) ⊞ peak_stack_pc_bytes p)
    (re_list_capacity env ⊠ sizeof_ListInfoType) (step_snaps_bytes_ p) (kPointerFilterWords * 8).

Definition DumpLiveToFile (env : ReportEnv) (dump_peak : bool) (t : Tracker T) : list ReportLine :=
  let p := tr_peak t in
  let c := lv_counters (tr_live t) in
  let walk := lt_walk (lv_table (tr_live t)) in
  let peak_requested := flag_set (options cfg) RECORD_MEMORY_PEAK && dump_peak in
  let dumping_peak := peak_requested && negb (bool_decide (length (peak_list p) = O)) in
  let '(list, omitted, host_use, dma_use) :=
    if dumping_peak then (peak_list p, mkOmitted 0 0, peak_list_host p, peak_list_dma p)
    else let '(list, omitted) := GetList (tr_frames t) walk true older in
         (list, omitted, current_host c, current_dma c) in
  let modules := Build (re_image env) (re_maps env) in
  let self_module := snd <$> Resolve modules (re_self_probe env) in
  let have_peak_rss := dumping_peak && negb (peak_rss_kb p =? 0) in
  let at_peak := maps_at_peak have_peak_rss p in
  [LUsed host_use dma_use (host_use ⊞ dma_use); LFramePc (kReturnAddressPcAdjust (re_platform env))] ++
  (if omitted_count omitted =? 0 then [] else [LOmitted omitted]) ++
  (if peak_requested then peak_lines dumping_peak env c p else []) ++
  rss_lines have_peak_rss env host_use p ++
  mapping_lines at_peak env p ++
  [overhead_line have_peak_rss at_peak env walk (tr_frames t) p; LRule] ++
  (list ≫= entry_lines (re_platform env) (re_demangle env) modules self_module).
End dump.

(** ** Step reports and the exit summary *)

Section steps.
Context {T : Type} `{LiveTable T} (cfg : Config).

Definition step_path (prefix : string) (tot : Z) : string :=
  prefix +:+ ".step." +:+ print_dec (Z.shiftr tot 20) +:+ "MB.txt".

(** [peak_list.swap (snap.list)] on the [i]-th rung. *)
Definition swap_list (i : nat) (p : PeakState) : PeakState :=
  match step_snaps_ p !! i with
  | None => p
  | Some snap =>
      p <| peak_list := ss_list snap |>
        <| step_snaps_ := <[i := mkStep (peak_list p) (ss_host snap) (ss_dma snap) (ss_tot snap)]> (step_snaps_ p) |>
  end.

Definition set_totals (host dma tot : Z) (p : PeakState) : PeakState :=
  p <| peak_list_host := host |> <| peak_list_dma := dma |> <| peak_list_tot := tot |>.

Definition with_peak (t : Tracker T) (p : PeakState) : Tracker T := mkTracker (tr_live t) (tr_frames t) p.

(** The loop over the rungs, [n] of which are left; [opened] says which files
    can be created and [env] what each report sees. *)
Fixpoint dump_rungs (opened : string → bool) (env : string → ReportEnv) (prefix : string) (n i : nat)
    (t : Tracker T) : list (string * list ReportLine) * Tracker T :=
  match n with
  | O => ([], t)
  | S n =>
      match step_snaps_ (tr_peak t) !! i with
      | None => ([], t)
      | Some snap =>
          let path := step_path prefix (ss_tot snap) in
          if (512 <=? String.length path)%nat || negb (opened path)
          then dump_rungs opened env prefix n (S i) t
          else
            let p := tr_peak t in
            let p1 := set_totals (ss_host snap) (ss_dma snap) (ss_tot snap) (swap_list i p) in
            let report := DumpLiveToFile cfg (env path) true (with_peak t p1) in
            let p2 := set_totals (peak_list_host p) (peak_list_dma p) (peak_list_tot p) (swap_list i p1) in
            let '(reports, t) := dump_rungs opened env prefix n (S i) (with_peak t p2) in
            ((path, report) :: reports, t)
      end
  end.

Definition DumpStepReports (opened : string → bool) (env : string → ReportEnv) (prefix : option string)
    (t : Tracker T) : list (string * list ReportLine) * Tracker T :=
  match prefix with
  | None => ([], t)
  | Some prefix =>
      let '(reports, t) := dump_rungs opened env prefix (length (step_snaps_ (tr_peak t))) 0 t in
      (reports, with_peak t ((tr_peak t) <| step_snaps_ := [] |> <| step_snaps_bytes_ := 0 |>))
  end.

(** What the exit summary writes to standard error, in order. *)
Inductive SummaryItem :=
  | SObservedSummary (when : string)
  | STrackedSummary (host_peak dma_peak total_peak : Z)
  | SNoStacksHint.

(** [owns] is [observe_only::OwnsAutomaticReports ()]. *)
Definition DumpPeakInfo (owns : bool) (sampler : ObservedPeakSampler) (t : Tracker T) : list SummaryItem :=
  let c := lv_counters (tr_live t) in
  let samples := samples_ (st_counters (stats sampler)) in
  if negb owns then []
  else
    (if samples =? 0 then [] else [SObservedSummary "at_exit"]) ++
    [STrackedSummary (peak_host c) (peak_dma c) (peak_tot c)] ++
    (if (samples =? 0) && negb (flag_set (options cfg) BACKTRACE) then [SNoStacksHint] else []).

(** ** Properties *)

Definition rung (snap : StepSnapshot) (t : Tracker T) : Tracker T :=
  with_peak t (set_totals (ss_host snap) (ss_dma snap) (ss_tot snap) ((tr_peak t) <| peak_list := ss_list snap |>)).

(** The report of one rung, when its file can be written. *)
Definition rung_report (opened : string → bool) (env : string → ReportEnv) (prefix : string)
    (t : Tracker T) (snap : StepSnapshot) : option (string * list ReportLine) :=
  let path := step_path prefix (ss_tot snap) in
  if (512 <=? String.length path)%nat || negb (opened path) then None
  else Some (path, DumpLiveToFile cfg (env path) true (rung snap t)).

Lemma swap_list_twice i p : swap_list i (swap_list i p) = p.
Proof.
  unfold swap_list. destruct (step_snaps_ p !! i) as [snap|] eqn:E; [|by rewrite E]. cbn.
  rewrite list_lookup_insert_eq by by eapply lookup_lt_Some. cbn.
  rewrite list_insert_insert_eq. cbn. destruct snap, p. cbn in *. by rewrite list_insert_id.
Qed.

Lemma dump_rungs_reports opened env prefix n i t :
  n = (length (step_snaps_ (tr_peak t)) - i)%nat →
  dump_rungs opened env prefix n i t =
  (omap (rung_report opened env prefix t) (drop i (step_snaps_ (tr_peak t))), t).
Proof.
  revert i. induction n as [|n IH]; intros i Hn; cbn [dump_rungs].
  { by rewrite drop_ge by lia. }
  destruct (lookup_lt_is_Some_2 (step_snaps_ (tr_peak t)) i ltac:(lia)) as [snap Hs]. rewrite Hs.
  rewrite (drop_S _ snap i Hs). cbn [omap list_omap]. unfold rung_report at 1.
  destruct (_ || _); [apply IH; lia|].
  set (p1 := set_totals (ss_host snap) (ss_dma snap) (ss_tot snap) (swap_list i (tr_peak t))).
  assert (set_totals (peak_list_host (tr_peak t)) (peak_list_dma (tr_peak t)) (peak_list_tot (tr_peak t))
    (swap_list i p1) = tr_peak t) as ->.
  { transitivity (swap_list i (swap_list i (tr_peak t))); [|apply swap_list_twice].
    unfold p1, swap_list. rewrite Hs. cbn. rewrite list_lookup_insert_eq by by eapply lookup_lt_Some. done. }
  replace (with_peak t (tr_peak t)) with t by by destruct t.
  rewrite IH by lia. f_equal. f_equal. f_equal. unfold p1, swap_list. rewrite Hs. done.
Qed.
End steps.

(** Writing the step reports leaves the retained snapshot as it was: every
    rung whose file can be created gets the report of the tracker with that
    rung's list and totals in place of the peak's, named after its size in MiB,
    in order; afterwards the final list and totals are back, nothing else of the
    tracker has changed, and the rungs and their byte count are cleared. *)
Theorem step_reports_leave_peak (cfg : Config) (opened : string → bool) (env : string → ReportEnv)
    (prefix : string) (t : Tracker Shards) :
  DumpStepReports cfg opened env (Some prefix) t =
  (omap (rung_report cfg opened env prefix t) (step_snaps_ (tr_peak t)),
   mkTracker (tr_live t) (tr_frames t) ((tr_peak t) <| step_snaps_ := [] |> <| step_snaps_bytes_ := 0 |>)).
Proof. unfold DumpStepReports. rewrite dump_rungs_reports by lia. done. Qed.

(** ** Stacks in a report *)

Definition in_self (p : Platform) (modules : list ModuleRange) (self : option string) (pc : Z) : bool :=
  match self, Resolve modules (CallSitePcFromReturnAddress p pc) with
  | Some self, Some (_, name) => String.eqb name self
  | _, _ => false
  end.

Lemma leading_self_spec p modules self raw :
  let n := leading_self p modules self raw in
  Forall (λ pc, in_self p modules (Some self) pc = true) (take n raw) ∧
  ∀ pc rest, drop n raw = pc :: rest → in_self p modules (Some self) pc = false.
Proof.
  induction raw as [|pc raw IH]; cbn; [done|]. unfold in_self in *.
  destruct (Resolve modules (CallSitePcFromReturnAddress p pc)) as [[rel name]|] eqn:E.
  - destruct (String.eqb name self) eqn:En; cbn.
    + destruct IH as [IH1 IH2]. split; [|done]. constructor; [by rewrite E|done].
    + split; [done|]. intros pc' rest [= <- <-]. by rewrite E.
  - cbn. split; [done|]. intros pc' rest [= <- <-]. by rewrite E.
Qed.

(** An allocation's stack in a report starts at its caller: the frames of the
    hook's own module at the top are left out and nothing else, the rest is
    printed in order and numbered from 0, every line giving the call site's
    module-relative address and module; a stack that lies entirely in the hook
    is printed whole, so no captured stack prints as nothing. *)
Theorem report_starts_at_caller (p : Platform) (demangle : string → option string) (modules : list ModuleRange)
    (self : option string) (e : ListInfoType) (raw : list Z) :
  li_raw_frames e = Some raw → raw ≠ [] →
  ∃ hidden shown,
    raw = hidden ++ shown ∧ shown ≠ [] ∧
    entry_lines p demangle modules self e = LAlloc e :: imap (frame_line p modules) shown ++ [LBlank] ∧
    Forall (λ pc, in_self p modules self pc = true) hidden ∧
    (in_self p modules self (hd 0 shown) = true → Forall (λ pc, in_self p modules self pc = true) raw).
Proof.
  intros He Hne. unfold entry_lines. rewrite He. destruct raw as [|pc raw]; [done|].
  set (r := pc :: raw) in *. set (n := first_frame p modules self r).
  exists (take n r), (drop n r). rewrite take_drop.
  assert (drop n r ≠ [] ∧ Forall (λ pc, in_self p modules self pc = true) (take n r) ∧
    (in_self p modules self (hd 0 (drop n r)) = true → Forall (λ pc, in_self p modules self pc = true) r))
    as (H1 & H2 & H3); [|by split_and!].
  unfold n, first_frame. destruct self as [self|]; [|done].
  destruct (leading_self_spec p modules self r) as [Hall Hhd].
  destruct (Nat.eqb_spec (leading_self p modules self r) (length r)) as [Eq|Hlt].
  - rewrite Eq, firstn_all in Hall. done.
  - destruct (drop (leading_self p modules self r) r) as [|x rest] eqn:Ed.
    + exfalso. apply Hlt. assert (length (drop (leading_self p modules self r) r) = 0%nat) as Hl by by rewrite Ed.
      rewrite length_drop in Hl. clear -Hl. revert Hl. induction r as [|y r IH]; cbn; [done|].
      repeat case_match; try done. cbn. intros Hl. f_equal. by apply IH.
    + split_and!; [done|done|]. cbn [hd]. rewrite (Hhd x rest eq_refl). done.
Qed.

Definition demo_entry : ListInfoType :=
  mkListInfo 4096 1 64 HOST (Some 2) (Some [0x401014; 0x7f001014]) None StackCaptureState.Complete 0 (0, 0) 2.
Definition demo_platform : Platform := mkPlatform true OsLinux true false.

Lemma report_starts_at_caller_witness :
  ∃ shown, shown ≠ [] ∧ entry_lines demo_platform (λ _, None) demo_ranges (Some "/bin/app") demo_entry =
    LAlloc demo_entry :: imap (frame_line demo_platform demo_ranges) shown ++ [LBlank].
Proof.
  destruct (report_starts_at_caller demo_platform (λ _, None) demo_ranges (Some "/bin/app") demo_entry
    [0x401014; 0x7f001014] eq_refl ltac:(discriminate)) as (hidden & shown & _ & Hs & He & _).
  exists shown. split; [exact Hs|exact He].
Defined.
