(* ===== verification/DmaBuf.v ===== *)
(** * DMA buffer descriptors

    The [DMA_BUF] namespace of backtrace/src/malloc_debug.cpp: which ioctl
    requests hand out a buffer descriptor (ION, dma-heap, the camera driver) or
    announce a GPU mapping, the table of known descriptors, and the fallback that
    recognises a dmabuf by its fdinfo file.  The request numbers follow the
    vendored driver headers under backtrace/driver, 64-bit layout.  Each function
    takes [state_mutex] for its whole body; debug_ioctl and debug_close hold
    [fd_transaction_mutex] around their sequences. *)
From S2P Require Import Prelude CString LineReader InodeSet ProcParse HookPolicy.

(** ** Request numbers *)

(** [_IOWR (type, nr, size)] and the fields of a request. *)
Definition IOWR (type nr size : Z) : Z := 3 * 2 ^ 30 + size * 2 ^ 16 + type * 2 ^ 8 + nr.
Definition IOC_NR (request : Z) : Z := Z.land request 255.
Definition IOC_TYPE (request : Z) : Z := Z.land (Z.shiftr request 8) 255.
Definition IOC_SIZE (request : Z) : Z := Z.land (Z.shiftr request 16) 16383.

Definition ALLOC_HOOK_ION_IOC_MAGIC : Z := 73.
Definition sizeof_ion_allocation_data : Z := 32.
Definition sizeof_ion_new_allocation_data : Z := 24.
Definition sizeof_ion_fd_data : Z := 8.
Definition sizeof_ion_handle_data : Z := 4.
Definition DMA_HEAP_IOCTL_ALLOC : Z := IOWR 72 0 24.
Definition CAM_MEM_ION_MAP_PA : Z := IOWR 73 0 88.
Definition KBASE_IOCTL_MEM_ALLOC : Z := IOWR 128 5 32.
Definition KBASE_IOCTL_MEM_ALLOC_EX : Z := IOWR 128 59 64.
Definition IOCTL_KGSL_GPUOBJ_ALLOC : Z := IOWR 9 69 48.

Definition IsIonRequest (request nr size : Z) : bool :=
  (IOC_TYPE request =? ALLOC_HOOK_ION_IOC_MAGIC) && (IOC_NR request =? nr) && (IOC_SIZE request =? size).
Definition IsIonLegacyAlloc (request : Z) : bool := IsIonRequest request 0 sizeof_ion_allocation_data.
Definition IsIonNewAlloc (request : Z) : bool := IsIonRequest request 0 sizeof_ion_new_allocation_data.
Definition IsIonFdRequest (request nr : Z) : bool := IsIonRequest request nr sizeof_ion_fd_data.
Definition IsIonFree (request : Z) : bool := IsIonRequest request 1 sizeof_ion_handle_data.

Definition CreatesDmaFd (request : Z) : bool :=
  (request =? DMA_HEAP_IOCTL_ALLOC) || IsIonNewAlloc request ||
  IsIonFdRequest request 2 || IsIonFdRequest request 4.
Definition CanRegisterDmaFd (request : Z) : bool := CreatesDmaFd request || (request =? CAM_MEM_ION_MAP_PA).

(** What [arg] points at after the call, as each driver structure reads it. *)
Record IoctlArg := mkIoctlArg {
  ion_alloc_len : Z; ion_alloc_handle : Z;
  ion_new_len : Z; ion_new_fd : Z;
  ion_fd_handle : Z; ion_fd_fd : Z;
  ion_free_handle : Z;
  dma_heap_len : Z; dma_heap_fd : Z;
  cam_memID : Z;
}.

(** ** The descriptor table *)

Record DmaFdInfo := mkDmaFd { df_size : Z; df_tracked : bool }.
#[global] Instance DmaFdInfo_upd : Updatable DmaFdInfo := λ d, mkDmaFd (df_size d) (df_tracked d).

Record DmaState := mkDma {
  dma_fds : gmap Z DmaFdInfo;
  pending_ion_allocations : gmap Z Z;
  pending_gpu_allocation : PendingIoctlAllocation;   (** of the calling thread *)
}.
#[global] Instance DmaState_upd : Updatable DmaState := λ d,
  mkDma (dma_fds d) (pending_ion_allocations d) (pending_gpu_allocation d).
Definition dma_init : DmaState := mkDma ∅ ∅ 0.

Definition IonHandleKey (ion_fd handle : Z) : Z := Z.lor (Z.shiftl (u32 ion_fd) 32) (u32 handle).

(** [None] when refused, otherwise whether the descriptor is to be tracked. *)
Definition RegisterDmaFd (fd size : Z) (d : DmaState) : option bool * DmaState :=
  if (fd <? 0) || (size =? 0) then (None, d)
  else match dma_fds d !! fd with
  | None => (Some true, d <| dma_fds := <[fd := mkDmaFd size false]> (dma_fds d) |>)
  | Some e => (Some (negb (df_tracked e)), d <| dma_fds := <[fd := e <| df_size := size |>]> (dma_fds d) |>)
  end.

Definition LookupDmaFd (fd : Z) (d : DmaState) : option (Z * bool) :=
  (λ e, (df_size e, df_tracked e)) <$> dma_fds d !! fd.

Definition MarkDmaFdTracked (fd : Z) (d : DmaState) : DmaState :=
  match dma_fds d !! fd with
  | Some e => d <| dma_fds := <[fd := e <| df_tracked := true |>]> (dma_fds d) |>
  | None => d
  end.

Definition TakeDmaFd (fd : Z) (d : DmaState) : option (Z * bool) * DmaState :=
  match dma_fds d !! fd with
  | Some e => (Some (df_size e, df_tracked e), d <| dma_fds := delete fd (dma_fds d) |>)
  | None => (None, d)
  end.

Definition RecordIonAllocation (ion_fd handle size : Z) (d : DmaState) : DmaState :=
  if size =? 0 then d
  else d <| pending_ion_allocations := <[IonHandleKey ion_fd handle := size]> (pending_ion_allocations d) |>.

Definition LookupIonAllocation (ion_fd handle : Z) (d : DmaState) : Z :=
  default 0 (pending_ion_allocations d !! IonHandleKey ion_fd handle).

Definition DropIonAllocation (ion_fd handle : Z) (d : DmaState) : DmaState :=
  d <| pending_ion_allocations := delete (IonHandleKey ion_fd handle) (pending_ion_allocations d) |>.

Definition DropIonAllocationsForFd (ion_fd : Z) (d : DmaState) : DmaState :=
  d <| pending_ion_allocations :=
    filter (λ e, u32 (Z.shiftr e.1 32) ≠ u32 ion_fd) (pending_ion_allocations d) |>.

(** ** Recognising a dmabuf *)

(** The lines of an fdinfo file, or [None]; whether [stat] on the descriptor
    succeeds. *)
Record FdInfo := mkFdInfo { fdinfo_lines : option (list string); fd_stat_ok : bool }.

Record FdInfoScan := mkFdScan { fs_inode : Z; fs_size : Z; fs_dmabuf : bool }.

Definition fdinfo_step (s : FdInfoScan) (line : string) : FdInfoScan :=
  if starts_with "ino:" line then mkFdScan (strtoull (sdrop 4 line)) (fs_size s) (fs_dmabuf s)
  else if starts_with "size:" line then mkFdScan (fs_inode s) (strtoull (sdrop 5 line)) (fs_dmabuf s)
  else if starts_with "exp_name:" line then mkFdScan (fs_inode s) (fs_size s) true
  else s.

(** The size when [fd] is a dmabuf; [size] is what the caller's variable holds. *)
Definition is_dma_buf (fd size : Z) (info : FdInfo) (d : DmaState) : option Z :=
  match LookupDmaFd fd d with
  | Some (size, _) => Some size
  | None =>
      match fdinfo_lines info with
      | None => None
      | Some lines =>
          let s := fold_left fdinfo_step lines (mkFdScan SIZE_MAX size false) in
          if negb (fs_dmabuf s) then None
          else if (fs_inode s =? SIZE_MAX) && negb (fd_stat_ok info) then None
          else if fs_size s >? 0 then Some (fs_size s) else None
      end
  end.

(** ** The ioctl handlers: the descriptor and its size when one was handed out *)

Definition handle_dma_node (request : Z) (arg : option IoctlArg) (info : FdInfo) (d : DmaState) :
    option (Z * Z) * DmaState :=
  if (request =? KBASE_IOCTL_MEM_ALLOC) || (request =? KBASE_IOCTL_MEM_ALLOC_EX) ||
     (request =? IOCTL_KGSL_GPUOBJ_ALLOC)
  then (None, d <| pending_gpu_allocation := Mark (u32 request) (pending_gpu_allocation d) |>)
  else match arg with
  | None => (None, d)
  | Some a =>
      if request =? DMA_HEAP_IOCTL_ALLOC then
        let fd := i32 (dma_heap_fd a) in
        (if (fd >=? 0) && (dma_heap_len a >? 0) then Some (fd, dma_heap_len a) else None, d)
      else if request =? CAM_MEM_ION_MAP_PA then
        (pair (cam_memID a) <$> is_dma_buf (cam_memID a) 0 info d, d)
      else (None, d)
  end.

Definition HandleIonIoctl (ion_fd request : Z) (arg : option IoctlArg) (d : DmaState) :
    option (Z * Z) * DmaState :=
  match arg with
  | None => (None, d)
  | Some a =>
      if negb (IOC_TYPE request =? ALLOC_HOOK_ION_IOC_MAGIC) then (None, d)
      else if IsIonLegacyAlloc request then (None, RecordIonAllocation ion_fd (ion_alloc_handle a) (ion_alloc_len a) d)
      else if IsIonNewAlloc request then
        let fd := i32 (ion_new_fd a) in
        (if (fd >=? 0) && (ion_new_len a >? 0) then Some (fd, ion_new_len a) else None, d)
      else if IsIonFdRequest request 2 || IsIonFdRequest request 4 then
        let size := LookupIonAllocation ion_fd (ion_fd_handle a) d in
        (if (ion_fd_fd a >=? 0) && (size >? 0) then Some (ion_fd_fd a, size) else None, d)
      else if IsIonFdRequest request 5 then (None, d)
      else if IsIonFree request then (None, DropIonAllocation ion_fd (ion_free_handle a) d)
      else (None, d)
  end.

(** [Some size] when the mapping's descriptor is to be counted now. *)
Definition ShouldTrackDmaMapping (fd flags : Z) (info : FdInfo) (d : DmaState) : option Z * DmaState :=
  if (fd <? 0) || negb (flag_set flags MAP_SHARED) then (None, d)
  else match LookupDmaFd fd d with
  | Some (size, tracked) => (if negb tracked then Some size else None, d)
  | None =>
      match is_dma_buf fd 0 info d with
      | None => (None, d)
      | Some size =>
          let '(should_track, d) := RegisterDmaFd fd size d in
          (match should_track with Some true => Some size | _ => None end, d)
      end
  end.
