(* ===== verification/HookCalls.v ===== *)
(** * The interposed calls

    The debug_ entry points of backtrace/src/malloc_debug.cpp: heap, mapping and
    descriptor calls wrapped around the system's.  What the system call returns
    is an argument of the model, and the calls made are part of the outcome.
    [disabled] is [DebugCallsDisabledOrAsyncWorker ()]; the scoped guard that
    sets the switch for the duration of a call restores it
    ([HookPolicy.with_scope_restores]), so it is not threaded through.  The
    concurrent read lock only excludes the exit dump and is not modelled, nor
    are the trace markers the calls write. *)
From S2P Require Import Prelude CString LineReader Capture HookPolicy Config InodeSet ProcParse Observed Sampler.
From S2P Require Import PointerTable StackRefs ModuleMaps LiveList PeakSnapshot DmaBuf.

Definition ENOMEM : Z := 12.
Definition EINVAL : Z := 22.
Definition EBADF : Z := 9.
Definition MREMAP_DONTUNMAP : Z := 4.

Inductive SysCall :=
  | SysMalloc (size : Z) | SysFree (pointer : Z) | SysRealloc (pointer size : Z)
  | SysCalloc (nmemb size : Z) | SysMemalign (alignment size : Z) | SysAlignedAlloc (alignment size : Z)
  | SysPosixMemalign (alignment size : Z)
  | SysMmap (addr size prot flags fd offset : Z) | SysMmap64 (addr size prot flags fd offset : Z)
  | SysMunmap (addr size : Z) | SysMremap (old_addr old_size new_size flags new_addr : Z)
  | SysIoctl (fd request : Z) | SysClose (fd : Z).

(** What the caller gets, the [errno] the hook itself sets, and the system calls
    made on the way. *)
Record Outcome := mkOut { out_ret : Z; out_errno : option Z; out_calls : list SysCall }.

(** What recording an allocation sees: the captured stack, the time of day and
    the outside of a snapshot attempt. *)
Record CallEnv := mkCallEnv { ce_raw : RawStackRecord; ce_time : Z * Z; ce_snap : SnapshotEnv }.

Section calls.
Context {T : Type} `{LiveTable T} (cfg : Config) (dma_capture : bool).

Record Hook := mkHook { hk_tracker : Tracker T; hk_dma : DmaState }.
#[global] Instance Hook_upd : Updatable Hook := λ h, mkHook (hk_tracker h) (hk_dma h).

Definition TrackPointers : bool := flag_set (options cfg) TRACK_ALLOCS.

(** The tracked size, when the allocation is to be tracked. *)
Definition PointerData_ShouldTrackAllocation (pointer_size : Z) : option Z := Some pointer_size.
Definition ShouldTrackAllocation (requested_size : Z) : option Z :=
  if negb TrackPointers then None else PointerData_ShouldTrackAllocation requested_size.

(** The tracker calls, on the hook's state. *)
Definition add_pointer (ptr requested_size tracked_size : Z) (type : MemType) (ce : CallEnv) (h : Hook) : Hook :=
  h <| hk_tracker :=
    (Add cfg ptr (ce_raw ce) requested_size tracked_size type (ce_time ce) (ce_snap ce) (hk_tracker h)).2 |>.
Definition remove_pointer (ptr : Z) (h : Hook) : Hook := h <| hk_tracker := (Remove cfg ptr (hk_tracker h)).2 |>.
Definition remap_pointer (old_ptr new_ptr new_size : Z) (ce : CallEnv) (h : Hook) : Hook :=
  h <| hk_tracker := (Remap cfg old_ptr new_ptr new_size (ce_snap ce) (hk_tracker h)).2 |>.

Definition take_pointer (ptr : Z) (h : Hook) : option PointerInfoType * Hook :=
  let t := hk_tracker h in
  let '(previous, l) := TakeEntry ptr (tr_live t) in
  (previous, h <| hk_tracker := mkTracker l (tr_frames t) (tr_peak t) |>).
Definition restore_pointer (ptr : Z) (previous : PointerInfoType) (h : Hook) : Hook :=
  let t := hk_tracker h in
  h <| hk_tracker := mkTracker (RestoreEntry ptr previous (tr_live t)) (tr_frames t) (tr_peak t) |>.
Definition release_stack (hash_index : Z) (h : Hook) : Hook :=
  let t := hk_tracker h in
  h <| hk_tracker := mkTracker (tr_live t) (RemoveBacktrace cfg hash_index (tr_frames t)) (tr_peak t) |>.

(** ** Heap *)

Definition InternalMalloc (requested_size tracked_size result : Z) (ce : CallEnv) (h : Hook) : Outcome * Hook :=
  (mkOut result None [SysMalloc requested_size],
   if AllocationSucceeded result && TrackPointers
   then add_pointer result requested_size tracked_size HOST ce h else h).

Definition InternalFree (pointer : Z) (h : Hook) : Outcome * Hook :=
  (mkOut 0 None [SysFree pointer], if TrackPointers then remove_pointer pointer h else h).

Definition debug_malloc (disabled : bool) (size result : Z) (ce : CallEnv) (h : Hook) : Outcome * Hook :=
  if disabled then (mkOut result None [SysMalloc size], h)
  else if size >? MaxSize then (mkOut nullptr (Some ENOMEM) [], h)
  else match ShouldTrackAllocation size with
  | None => (mkOut result None [SysMalloc size], h)
  | Some tracked_size => InternalMalloc size tracked_size result ce h
  end.

Definition debug_free (disabled : bool) (pointer : Z) (h : Hook) : Outcome * Hook :=
  if disabled || (pointer =? nullptr) then (mkOut 0 None [SysFree pointer], h)
  else InternalFree pointer h.

(** [realloc] of a tracked block: detached before the system call, restored when
    it fails. *)
Definition realloc_tracked (pointer bytes result : Z) (ce : CallEnv) (h : Hook) : Outcome * Hook :=
  let out := mkOut result None [SysRealloc pointer bytes] in
  let track_new := ShouldTrackAllocation bytes in
  let '(previous, h) := if TrackPointers then take_pointer pointer h else (None, h) in
  if negb (AllocationSucceeded result) then
    (out, match previous with Some p => restore_pointer pointer p h | None => h end)
  else
    let h := match track_new with
             | Some tracked_size => if TrackPointers then add_pointer result bytes tracked_size HOST ce h else h
             | None => h
             end in
    (out, match previous with Some p => release_stack (info_hash p) h | None => h end).

Definition debug_realloc (disabled : bool) (pointer bytes result : Z) (ce : CallEnv) (h : Hook) : Outcome * Hook :=
  if disabled then (mkOut result None [SysRealloc pointer bytes], h)
  else if pointer =? nullptr then
    if bytes >? MaxSize then (mkOut nullptr (Some ENOMEM) [], h)
    else match ShouldTrackAllocation bytes with
    | None => (mkOut result None [SysRealloc nullptr bytes], h)
    | Some tracked_size => InternalMalloc bytes tracked_size result ce h
    end
  else if bytes =? 0 then InternalFree pointer h
  else if bytes >? MaxSize then (mkOut nullptr (Some ENOMEM) [], h)
  else realloc_tracked pointer bytes result ce h.

(** An allocation through [call], recorded when it succeeded. *)
Definition track_allocation (call : SysCall) (size result : Z) (ce : CallEnv) (h : Hook) : Outcome * Hook :=
  (mkOut result None [call],
   match ShouldTrackAllocation size with
   | None => h
   | Some tracked_size =>
       if negb (result =? nullptr) && TrackPointers
       then add_pointer result size tracked_size HOST ce h else h
   end).

Definition debug_calloc (disabled : bool) (nmemb bytes result : Z) (ce : CallEnv) (h : Hook) : Outcome * Hook :=
  if disabled then (mkOut result None [SysCalloc nmemb bytes], h)
  else if nmemb * bytes >? SIZE_MAX then (mkOut nullptr (Some ENOMEM) [], h)
  else track_allocation (SysCalloc nmemb bytes) (nmemb * bytes) result ce h.

Definition debug_memalign (disabled : bool) (alignment bytes result : Z) (ce : CallEnv) (h : Hook) : Outcome * Hook :=
  if disabled then (mkOut result None [SysMemalign alignment bytes], h)
  else if bytes >? MaxSize then (mkOut nullptr (Some ENOMEM) [], h)
  else track_allocation (SysMemalign alignment bytes) bytes result ce h.

Definition debug_aligned_alloc (disabled : bool) (alignment bytes result : Z) (ce : CallEnv) (h : Hook) :
    Outcome * Hook :=
  if disabled then (mkOut result None [SysAlignedAlloc alignment bytes], h)
  else if bytes >? MaxSize then (mkOut nullptr (Some ENOMEM) [], h)
  else track_allocation (SysAlignedAlloc alignment bytes) bytes result ce h.

Definition powerof2 (x : Z) : bool := Z.land (x ⊟ 1) x =? 0.

(** [memptr] is what the system call stores when its [result] is 0. *)
Definition debug_posix_memalign (disabled : bool) (alignment size result memptr : Z) (ce : CallEnv) (h : Hook) :
    Outcome * Hook :=
  let out := mkOut result None [SysPosixMemalign alignment size] in
  if disabled then (out, h)
  else if (alignment <? 8) || negb (powerof2 alignment) then (mkOut EINVAL None [], h)
  else if size >? MaxSize then (mkOut ENOMEM None [], h)
  else match ShouldTrackAllocation size with
  | None => (out, h)
  | Some tracked_size =>
      (out, if (result =? 0) && negb (memptr =? nullptr) && TrackPointers
            then add_pointer memptr size tracked_size HOST ce h else h)
  end.

(** ** Mappings *)

(** Recording a descriptor's buffer, under the descriptor number. *)
Definition track_fd (fd size : Z) (ce : CallEnv) (h : Hook) : Hook :=
  let h := add_pointer fd size size DMA ce h in
  h <| hk_dma := MarkDmaFdTracked fd (hk_dma h) |>.

Definition TrackMmapResult (result size flags fd : Z) (pending_ioctl : bool) (info : FdInfo) (ce : CallEnv)
    (h : Hook) : Hook :=
  if negb TrackPointers then h
  else match ClassifyMmap result flags fd pending_ioctl with
  | KindAnonymous => add_pointer result size size MMAP ce h
  | KindPendingIoctl => add_pointer result size size DMA ce h
  | KindNone =>
      if dma_capture && negb (result =? MAP_FAILED) then
        let '(dma_size, d) := ShouldTrackDmaMapping fd flags info (hk_dma h) in
        let h := h <| hk_dma := d |> in
        match dma_size with Some dma_size => track_fd fd dma_size ce h | None => h end
      else h
  end.

(** The thread's pending GPU allocation, consumed by its next mapping. *)
Definition take_pending (h : Hook) : bool * Hook :=
  if dma_capture then
    let '(request, pending) := Take (pending_gpu_allocation (hk_dma h)) in
    (negb (request =? 0), h <| hk_dma := (hk_dma h) <| pending_gpu_allocation := pending |> |>)
  else (false, h).

(** Both [debug_mmap] and [debug_mmap64]; [call] is the system call made. *)
Definition mmap_with (call : SysCall) (disabled : bool) (size flags fd result : Z) (info : FdInfo) (ce : CallEnv)
    (h : Hook) : Outcome * Hook :=
  if disabled then (mkOut result None [call], h)
  else
    let '(pending_ioctl, h) := take_pending h in
    if size >? MaxSize then (mkOut MAP_FAILED (Some ENOMEM) [], h)
    else (mkOut result None [call], TrackMmapResult result size flags fd pending_ioctl info ce h).

Definition debug_mmap (disabled : bool) (addr size prot flags fd offset result : Z) (info : FdInfo) (ce : CallEnv)
    (h : Hook) : Outcome * Hook :=
  mmap_with (SysMmap addr size prot flags fd offset) disabled size flags fd result info ce h.
Definition debug_mmap64 (disabled : bool) (addr size prot flags fd offset result : Z) (info : FdInfo) (ce : CallEnv)
    (h : Hook) : Outcome * Hook :=
  mmap_with (SysMmap64 addr size prot flags fd offset) disabled size flags fd result info ce h.

Definition debug_munmap (disabled : bool) (addr size ret : Z) (h : Hook) : Outcome * Hook :=
  let out := mkOut ret None [SysMunmap addr size] in
  if disabled then (out, h)
  else
    let '(previous, h) := if TrackPointers then take_pointer addr h else (None, h) in
    (out, match previous with
          | None => h
          | Some p => if SyscallSucceeded ret then release_stack (info_hash p) h else restore_pointer addr p h
          end).

Definition debug_mremap (disabled : bool) (old_addr old_size new_size flags new_addr result : Z) (ce : CallEnv)
    (h : Hook) : Outcome * Hook :=
  let out := mkOut result None [SysMremap old_addr old_size new_size flags new_addr] in
  if disabled then (out, h)
  else if new_size >? MaxSize then (mkOut MAP_FAILED (Some ENOMEM) [], h)
  else (out,
    if MappingSucceeded result && TrackPointers then
      if flag_set flags MREMAP_DONTUNMAP then add_pointer result new_size new_size MMAP ce h
      else remap_pointer old_addr result new_size ce h
    else h).

(** ** Descriptors *)

(** What a successful ioctl that handed out [node_fd] does to the hook. *)
Definition register_node (cmd node_fd node_size : Z) (ce : CallEnv) (h : Hook) : Hook :=
  let h :=
    if CreatesDmaFd cmd then
      let '(old, d) := TakeDmaFd node_fd (hk_dma h) in
      let h := h <| hk_dma := d |> in
      match old with Some (_, true) => remove_pointer node_fd h | _ => h end
    else h in
  let '(should_track, d) := RegisterDmaFd node_fd node_size (hk_dma h) in
  let h := h <| hk_dma := d |> in
  match should_track with Some true => track_fd node_fd node_size ce h | _ => h end.

Definition debug_ioctl (disabled : bool) (fd request : Z) (arg : option IoctlArg) (result : Z) (info : FdInfo)
    (ce : CallEnv) (h : Hook) : Outcome * Hook :=
  let out := mkOut result None [SysIoctl fd request] in
  if negb dma_capture || disabled then (out, h)
  else
    let cmd := u32 request in
    let registers_fd := TrackPointers && CanRegisterDmaFd cmd in
    if SyscallSucceeded result && TrackPointers then
      let '(node, d) := HandleIonIoctl fd cmd arg (hk_dma h) in
      let '(node, d) := match node with
                        | Some n => (Some n, d)
                        | None => handle_dma_node cmd arg info d
                        end in
      let h := h <| hk_dma := d |> in
      (out, match node with
            | Some (node_fd, node_size) => if registers_fd then register_node cmd node_fd node_size ce h else h
            | None => h
            end)
    else (out, h).

(** [saved_errno] is [errno] after the operation. *)
Definition debug_close_with (disabled : bool) (fd result saved_errno : Z) (h : Hook) : Outcome * Hook :=
  let out := mkOut result None [SysClose fd] in
  if negb dma_capture || disabled || negb TrackPointers then (out, h)
  else if (result =? 0) || negb (saved_errno =? EBADF) then
    let '(old, d) := TakeDmaFd fd (hk_dma h) in
    let h := h <| hk_dma := d |> in
    let h := match old with Some (_, true) => remove_pointer fd h | _ => h end in
    (out, h <| hk_dma := DropIonAllocationsForFd fd (hk_dma h) |>)
  else (out, h).

Definition debug_close (disabled : bool) (fd result saved_errno : Z) (h : Hook) : Outcome * Hook :=
  debug_close_with disabled fd result saved_errno h.
End calls.
#[global] Arguments Hook : clear implicits.
