(* ===== verification/HookProps.v ===== *)
(** * What the interposed calls promise

    A program is a list of calls with the results the system gives them.  The
    hook's records are compared with what the program holds by the results of
    its own calls: a map from address to size and kind, updated call by call
    ([owned_after]).  Every call is also a sequence of the tracker's critical
    sections, so that what [SnapshotProps] proves of those holds of programs. *)
From stdpp Require Import relations.
From S2P Require Import Prelude CString LineReader Capture HookPolicy Config InodeSet ProcParse Observed Sampler.
From S2P Require Import PointerTable LiveProps StackRefs ModuleMaps LiveList PeakSnapshot SnapshotProps.
From S2P Require Import DmaBuf HookCalls.

(** ** Records by address *)

Definition size_and_kind (i : PointerInfoType) : Z * MemType := (info_size i, info_type i).

#[global] Instance DemanglePointer_inj : Inj (=) (=) DemanglePointer.
Proof. intros p q E%(f_equal ManglePointer). change (DemanglePointer (ManglePointer p) = DemanglePointer (ManglePointer q)) in E.
  by rewrite !demangle_mangle in E. Qed.

Definition by_address (m : gmap Z PointerInfoType) : gmap Z (Z * MemType) := size_and_kind <$> kmap DemanglePointer m.

Lemma by_address_empty : by_address ∅ = ∅.
Proof. unfold by_address. by rewrite kmap_empty, fmap_empty. Qed.

Lemma by_address_insert p i m :
  by_address (<[ManglePointer p := i]> m) = <[p := size_and_kind i]> (by_address m).
Proof. unfold by_address. by rewrite kmap_insert, fmap_insert, demangle_mangle by apply _. Qed.

Lemma by_address_delete p m : by_address (delete (ManglePointer p) m) = delete p (by_address m).
Proof. unfold by_address. by rewrite kmap_delete, fmap_delete, demangle_mangle by apply _. Qed.

Lemma by_address_lookup p m : by_address m !! p = size_and_kind <$> m !! ManglePointer p.
Proof.
  unfold by_address. rewrite lookup_fmap. f_equal.
  rewrite <-(demangle_mangle p) at 1. apply lookup_kmap. apply _.
Qed.

Lemma by_address_sum (f : Z * MemType → Z) m : map_sum f (by_address m) = map_sum (λ i, f (size_and_kind i)) m.
Proof.
  induction m as [|k i m Hk IH] using map_ind; [by rewrite by_address_empty, !map_sum_empty|].
  rewrite <-(demangle_mangle k) at 1.
  change (DemanglePointer (ManglePointer k)) with (ManglePointer (DemanglePointer k)).
  rewrite by_address_insert, !map_sum_insert, IH, by_address_lookup.
  change (ManglePointer (DemanglePointer k)) with (DemanglePointer (ManglePointer k)).
  rewrite demangle_mangle, Hk. done.
Qed.

Lemma by_address_size m : size (by_address m) = size m.
Proof.
  unfold by_address. rewrite map_size_fmap. rewrite <-!length_map_to_list.
  rewrite (Permutation_length (map_to_list_kmap DemanglePointer m)). apply length_fmap.
Qed.

(** What a 64-bit address space can hold. *)
Definition owned_fits (o : gmap Z (Z * MemType)) : Prop :=
  (∀ p x, o !! p = Some x → 0 ≤ x.1) ∧ map_sum fst o < 2 ^ 64 ∧ Z.of_nat (size o) < 2 ^ 56.

Lemma by_address_fits m : owned_fits (by_address m) ↔ sizes_fit m.
Proof.
  unfold owned_fits, sizes_fit. rewrite by_address_sum, by_address_size. cbn [size_and_kind fst].
  split; intros (H1 & H2 & H3); split_and!; try assumption.
  - intros k i Hk. apply (H1 (DemanglePointer k) (size_and_kind i)). rewrite by_address_lookup.
    change (ManglePointer (DemanglePointer k)) with (DemanglePointer (ManglePointer k)).
    by rewrite demangle_mangle, Hk.
  - intros p x Hx. rewrite by_address_lookup in Hx. apply fmap_Some in Hx as (i & Hi & ->). by apply (H1 _ i Hi).
Qed.

Lemma owned_fits_delete p o : owned_fits o → owned_fits (delete p o).
Proof.
  intros (H1 & H2 & H3). split_and!.
  - intros q x [_ Hq]%lookup_delete_Some. by eapply H1.
  - rewrite map_sum_delete_default. destruct (o !! p) as [x|] eqn:E; cbn; [specialize (H1 p x E); lia|lia].
  - rewrite map_size_delete. destruct (o !! p); cbn; lia.
Qed.

(** ** Effects of the tracker calls *)

Section effects.
Context {T : Type} `{LiveTableLaws T} (cfg : Config).
Implicit Types h : Hook T.

Definition records (h : Hook T) : gmap Z (Z * MemType) := by_address (lt_view (lv_table (tr_live (hk_tracker h)))).
Definition stack_indices (h : Hook T) : Z := cur_hash_index_ (tr_frames (hk_tracker h)).

Definition hook_inv (h : Hook T) : Prop := ts_inv cfg (quiescent (hk_tracker h)).

Lemma hook_inv_fits h : hook_inv h → owned_fits (records h).
Proof. intros (_ & Hf & _). by apply by_address_fits. Qed.

(** What a hook operation does: the records it leaves, the stack indices it
    uses up at most, and how it is made of critical sections. *)
Record effect (n : Z) h (o : gmap Z (Z * MemType)) h' : Prop := {
  ef_records : records h' = o;
  ef_indices : stack_indices h' ≤ stack_indices h + n;
  ef_steps : owned_fits o → rtc (alloc_step cfg) (quiescent (hk_tracker h)) (quiescent (hk_tracker h'));
}.

Lemma effect_refl n h : 0 ≤ n → effect n h (records h) h.
Proof. intros Hn. split; [done|lia|done]. Qed.

Lemma effect_inv n h o h' : effect n h o h' → hook_inv h → owned_fits o → hook_inv h'.
Proof. intros [_ _ Hs] Hi Ho. eapply alloc_steps_inv; [by apply Hs|done]. Qed.

Lemma effect_trans n1 n2 h1 o2 h2 o3 h3 :
  owned_fits o2 → effect n1 h1 o2 h2 → effect n2 h2 o3 h3 → effect (n1 + n2) h1 o3 h3.
Proof.
  intros Ho [_ Hn1 Hs1] [Hr Hn2 Hs2]. split; [done|lia|]. intros Ho3. etransitivity; [by apply Hs1|by apply Hs2].
Qed.

(** The descriptor tables are not the tracker's. *)
Lemma effect_dma n h o h' h1 h1' :
  effect n h o h' → hk_tracker h1 = hk_tracker h → hk_tracker h1' = hk_tracker h' → effect n h1 o h1'.
Proof.
  intros [Hr Hn Hs] E E'. unfold records, stack_indices in *.
  split; unfold records, stack_indices; rewrite ?E, ?E'; assumption.
Qed.

(** A tracker within the address space has room for one more stack. *)
Lemma live_room (t : Tracker T) refs taken :
  sizes_fit (lt_view (lv_table (tr_live t))) → cur_hash_index_ (tr_frames t) < 2 ^ 64 - 1 →
  (length refs + length taken ≤ 1)%nat → room (mkSystem (tr_live t) (tr_frames t) refs taken).
Proof.
  intros (_ & _ & Hsize) Hn Hl. split; [done|]. intros x. unfold count. cbn [st_live st_refs st_taken].
  set (m := lt_view _) in *.
  assert (map_sum (λ i, is_hash x (info_hash i)) m ≤ Z.of_nat (size m)) as H1.
  { clear. induction m as [|k i m Hk IH] using map_ind; [by rewrite map_sum_empty|].
    rewrite map_sum_insert_None, map_size_insert_None by done. unfold is_hash in *. case_match; lia. }
  assert (∀ {A} (f : A → Z) l, list_sum (λ a, is_hash x (f a)) l ≤ Z.of_nat (length l)) as H2.
  { intros A f l. induction l as [|a l IH]; cbn [list_sum length]; [done|].
    unfold is_hash in *. case_match; lia. }
  pose proof (H2 _ (λ e, info_hash e.2) taken) as Ht.
  assert (list_sum (is_hash x) refs ≤ Z.of_nat (length refs)) as Hr by exact (H2 _ id refs).
  cbn beta in *. lia.
Qed.

Lemma RemoveBacktrace_cur x f : cur_hash_index_ (RemoveBacktrace cfg x f) = cur_hash_index_ f.
Proof. unfold RemoveBacktrace. repeat case_match; done. Qed.

Lemma release_displaced_cur d f : cur_hash_index_ (release_displaced cfg d f) = cur_hash_index_ f.
Proof. destruct d as [i|]; [|done]. cbn. case_match; [apply RemoveBacktrace_cur|done]. Qed.

Lemma AddBacktrace_cur raw n f :
  frames_wf f → cur_hash_index_ (AddBacktrace cfg raw n f).2 ≤ cur_hash_index_ f + 1.
Proof.
  intros [Hcur _ _]. unfold AddBacktrace, intern_stack, kBacktraceEmptyIndex in *. repeat case_match; cbn; try lia.
  apply Z.mod_le; lia.
Qed.

(** Recording, possibly with a detached record in flight. *)
Lemma Add_records ptr raw n sz type tv e (t : Tracker T) refs taken :
  let s := mkSystem (tr_live t) (tr_frames t) refs taken in
  let t' := (Add cfg ptr raw n sz type tv e t).2 in
  system_inv s → room s → frame_count raw ≤ kMaxAsyncRawFrames →
  by_address (lt_view (lv_table (tr_live t'))) = <[ptr := (sz, type)]> (by_address (lt_view (lv_table (tr_live t)))) ∧
  cur_hash_index_ (tr_frames t') ≤ cur_hash_index_ (tr_frames t) + 1.
Proof.
  intros s t' Hinv Hroom Hfc. unfold t', Add in *.
  pose proof (AddBacktrace_cur raw n (tr_frames t) (si_frames _ Hinv)) as Hcur.
  destruct (AddBacktrace cfg raw n (tr_frames t)) as [x f] eqn:Eb.
  pose proof (capture_index cfg s raw n x f Hinv Hfc Hroom Eb) as Hx.
  destruct (Z.eqb_spec x kBacktraceExitIndex) as [|_]; [done|].
  pose proof (add_entry_spec ptr (mkInfo sz x type tv) (tr_live t) (si_live _ Hinv)) as Ha.
  destruct (add_entry ptr _ (tr_live t)) as [[[d total] raised] l]. destruct Ha as (_ & _ & Hv & _).
  destruct (maybe_record _ _ _ _ _ _ _) as [markers p']. cbn [snd tr_live tr_frames] in *. split.
  - by rewrite Hv, by_address_insert.
  - by rewrite release_displaced_cur.
Qed.

Lemma add_effect ptr n sz type ce h :
  hook_inv h → stack_indices h < 2 ^ 64 - 1 → frame_count (ce_raw ce) ≤ kMaxAsyncRawFrames →
  effect 1 h (<[ptr := (sz, type)]> (records h)) (add_pointer cfg ptr n sz type ce h).
Proof.
  intros Hi Hn Hfc. pose proof (live_room (hk_tracker h) [] [] (proj1 (proj2 Hi)) Hn ltac:(cbn; lia)) as Hroom.
  destruct (Add_records ptr (ce_raw ce) n sz type (ce_time ce) (ce_snap ce) (hk_tracker h) [] [])
    as [Hr Hc]; [apply Hi|done..|].
  split; [exact Hr|exact Hc|]. intros Ho. apply Add_steps; [apply Hi|done..|apply Hi|].
  apply by_address_fits. rewrite Hr. exact Ho.
Qed.

Lemma remove_effect ptr h : hook_inv h → effect 0 h (delete ptr (records h)) (remove_pointer cfg ptr h).
Proof.
  intros Hi. assert (records (remove_pointer cfg ptr h) = delete ptr (records h)) as Hr.
  { unfold records, remove_pointer, Remove. pose proof (displace_spec (ManglePointer ptr) (tr_live (hk_tracker h))
      (si_live _ (proj1 Hi))) as Hd.
    change (displace (ManglePointer ptr)) with (TakeEntry (T := T) ptr) in Hd.
    destruct (TakeEntry ptr _) as [[i|] l]; destruct Hd as (Hd & _ & Hv & _); cbn.
    - by rewrite Hv, by_address_delete.
    - rewrite <-by_address_delete, delete_id; done. }
  split; [done| |].
  - unfold stack_indices, remove_pointer, Remove. destruct (TakeEntry ptr _) as [[i|] l]; cbn; [|lia].
    rewrite RemoveBacktrace_cur. lia.
  - intros Ho. apply Remove_steps. apply by_address_fits. by rewrite <-Hr in Ho.
Qed.

(** The mapping at [p] has become one of [sz] bytes at [q]. *)
Definition owned_move (p q sz : Z) (o : gmap Z (Z * MemType)) : gmap Z (Z * MemType) :=
  match o !! p with Some (_, type) => <[q := (sz, type)]> (delete p o) | None => o end.

Lemma remap_effect p q sz ce h :
  hook_inv h → p ≠ nullptr → q ≠ nullptr → sz ≤ MaxSize →
  effect 0 h (owned_move p q sz (records h)) (remap_pointer cfg p q sz ce h).
Proof.
  intros Hi Hp Hq Hsz. unfold nullptr in *.
  assert ((p =? 0) || (q =? 0) || (sz >? MaxSize) = false) as Eg by lia.
  pose proof (remap_entry_spec p q sz (tr_live (hk_tracker h)) (si_live _ (proj1 Hi))) as Hs. cbn zeta in Hs.
  assert (records (remap_pointer cfg p q sz ce h) = owned_move p q sz (records h)) as Hr.
  { unfold records, owned_move, remap_pointer, Remap. rewrite Eg, by_address_lookup.
    destruct (remap_entry p q sz _) as [[[[[i d] total] raised] l]|].
    - destruct Hs as (-> & _ & _ & Hv & _). destruct (maybe_record _ _ _ _ _ _ _) as [markers p'].
      cbn. rewrite Hv. unfold moved_map. by rewrite by_address_insert, by_address_delete.
    - by rewrite Hs. }
  split; [done| |].
  - unfold stack_indices, remap_pointer, Remap. rewrite Eg.
    destruct (remap_entry p q sz _) as [[[[[i d] total] raised] l]|]; [|cbn; lia].
    destruct (maybe_record _ _ _ _ _ _ _) as [markers p']. cbn. rewrite release_displaced_cur. lia.
  - intros Ho. apply Remap_steps. apply by_address_fits. by rewrite <-Hr in Ho.
Qed.

(** *** Calls that detach a record first *)

(** The tracker while record [i] of [ptr] is detached. *)
Definition detached (ptr : Z) (i : PointerInfoType) (t : Tracker T) : TrackerSystem T :=
  mkTS (mkSystem (tr_live t) (tr_frames t) [] [(ptr, i)]) (tr_peak t).

Lemma take_spec ptr h :
  hook_inv h →
  let '(previous, h1) := take_pointer ptr h in
  records h1 = delete ptr (records h) ∧ stack_indices h1 = stack_indices h ∧ hk_dma h1 = hk_dma h ∧
  match previous with
  | None => h1 = h
  | Some i => records h !! ptr = Some (size_and_kind i) ∧
              rtc (alloc_step cfg) (quiescent (hk_tracker h)) (detached ptr i (hk_tracker h1))
  end.
Proof.
  intros Hi. unfold take_pointer.
  pose proof (displace_spec (ManglePointer ptr) (tr_live (hk_tracker h)) (si_live _ (proj1 Hi))) as Hd.
  change (displace (ManglePointer ptr)) with (TakeEntry (T := T) ptr) in Hd.
  destruct (TakeEntry ptr _) as [previous l] eqn:Et. destruct Hd as (Hd & _ & Hv & _).
  assert (by_address (lt_view (lv_table l)) = delete ptr (records h)) as Hr by by rewrite Hv, by_address_delete.
  split_and!; [done..|]. destruct previous as [i|].
  - split; [unfold records; by rewrite by_address_lookup, <-Hd|]. apply rtc_once. apply ts_live.
    + by apply (step_take cfg (ts_sys (quiescent (hk_tracker h))) ptr i l).
    + apply by_address_fits. cbn. rewrite Hr. by apply owned_fits_delete, hook_inv_fits.
  - unfold TakeEntry, displace in Et. case_match; [done|]. injection Et as <-.
    by destruct h as [[] ?].
Qed.

Lemma restore_spec ptr i h1 :
  live_ok (tr_live (hk_tracker h1)) → records h1 !! ptr = None →
  let h' := restore_pointer ptr i h1 in
  records h' = <[ptr := size_and_kind i]> (records h1) ∧ stack_indices h' = stack_indices h1 ∧
  (owned_fits (records h') → rtc (alloc_step cfg) (detached ptr i (hk_tracker h1)) (quiescent (hk_tracker h'))).
Proof.
  intros Hl Hk h'. unfold records in Hk. rewrite by_address_lookup, fmap_None in Hk.
  destruct (RestoreEntry_spec ptr i _ Hl Hk) as [_ Hv]. split_and!; [|done|].
  - unfold records. cbn [h' restore_pointer hk_tracker tr_live field_set]. by rewrite Hv, by_address_insert.
  - intros Ho. apply rtc_once, ts_live; [by apply (step_restore cfg (ts_sys (detached ptr i (hk_tracker h1))) ptr i [])|]. by apply by_address_fits.
Qed.

Lemma release_spec ptr i h1 :
  owned_fits (records h1) →
  let h' := release_stack cfg (info_hash i) h1 in
  records h' = records h1 ∧ stack_indices h' = stack_indices h1 ∧
  rtc (alloc_step cfg) (detached ptr i (hk_tracker h1)) (quiescent (hk_tracker h')).
Proof.
  intros Ho h'. apply by_address_fits in Ho. split_and!; [done|apply RemoveBacktrace_cur|].
  eapply rtc_l; [apply ts_live; [by apply (step_drop cfg (ts_sys (detached ptr i (hk_tracker h1))) ptr i [])|done]|].
  apply rtc_once, ts_live; [|done]. by apply (step_release cfg
    (mkSystem (tr_live (hk_tracker h1)) (tr_frames (hk_tracker h1)) [info_hash i] []) (info_hash i) []).
Qed.

(** A call that fails puts the record back. *)
Lemma take_restore_effect ptr h :
  hook_inv h →
  let '(previous, h1) := take_pointer ptr h in
  effect 0 h (records h) (match previous with Some i => restore_pointer ptr i h1 | None => h1 end).
Proof.
  intros Hi. pose proof (take_spec ptr h Hi) as Ht. destruct (take_pointer ptr h) as [[i|] h1].
  2:{ destruct Ht as (_ & _ & _ & ->). by apply effect_refl. }
  destruct Ht as (Hr & Hn & _ & Hk & Hs).
  destruct (restore_spec ptr i h1) as (Hr' & Hn' & Hs').
  { by apply (alloc_steps_inv cfg _ _ Hs Hi). }
  { by rewrite Hr, lookup_delete_eq. }
  assert (records (restore_pointer ptr i h1) = records h) as E.
  { by rewrite Hr', Hr, insert_delete_eq, insert_id. }
  split; [done|lia|]. intros Ho. etransitivity; [exact Hs|]. apply Hs'. by rewrite E.
Qed.

(** A call that succeeds drops its stack. *)
Lemma take_release_effect ptr h :
  hook_inv h →
  let '(previous, h1) := take_pointer ptr h in
  effect 0 h (delete ptr (records h)) (match previous with Some i => release_stack cfg (info_hash i) h1 | None => h1 end).
Proof.
  intros Hi. pose proof (take_spec ptr h Hi) as Ht. destruct (take_pointer ptr h) as [[i|] h1].
  2:{ destruct Ht as (Hr & _ & _ & ->). rewrite <-Hr. by apply effect_refl. }
  destruct Ht as (Hr & Hn & _ & Hk & Hs).
  assert (owned_fits (records h1)) as Hf by (rewrite Hr; by apply owned_fits_delete, hook_inv_fits).
  destruct (release_spec ptr i h1 Hf) as (Hr' & Hn' & Hs').
  split; [congruence|lia|]. intros _. by etransitivity.
Qed.

(** Detached, replaced by a new record, its stack dropped. *)
Lemma take_add_effect ptr new n sz ce h :
  hook_inv h → stack_indices h < 2 ^ 64 - 1 → frame_count (ce_raw ce) ≤ kMaxAsyncRawFrames →
  let '(previous, h1) := take_pointer ptr h in
  let h2 := add_pointer cfg new n sz HOST ce h1 in
  effect 1 h (<[new := (sz, HOST)]> (delete ptr (records h)))
    (match previous with Some i => release_stack cfg (info_hash i) h2 | None => h2 end).
Proof.
  intros Hi Hn Hfc. pose proof (take_spec ptr h Hi) as Ht. destruct (take_pointer ptr h) as [[i|] h1].
  2:{ destruct Ht as (Hr & _ & _ & ->). rewrite <-Hr. by apply add_effect. }
  destruct Ht as (Hr & Hn1 & _ & Hk & Hs). pose proof (alloc_steps_inv cfg _ _ Hs Hi) as Hi1.
  assert (owned_fits (records h1)) as Hf by (rewrite Hr; by apply owned_fits_delete, hook_inv_fits).
  assert (room (ts_sys (detached ptr i (hk_tracker h1)))) as Hroom.
  { apply live_room; [by apply by_address_fits|by rewrite <-Hn1 in Hn|done]. }
  set (h2 := add_pointer cfg new n sz HOST ce h1).
  destruct (Add_records new (ce_raw ce) n sz HOST (ce_time ce) (ce_snap ce) (hk_tracker h1) [] [(ptr, i)])
    as [Hr2 Hn2]; [apply Hi1|done..|].
  assert (records h2 = <[new := (sz, HOST)]> (delete ptr (records h))) as E by (rewrite <-Hr; exact Hr2).
  split.
  - rewrite <-E. done.
  - unfold stack_indices in *. cbn [release_stack hk_tracker tr_frames field_set]. rewrite RemoveBacktrace_cur.
    change (cur_hash_index_ (tr_frames (hk_tracker h2)) ≤ cur_hash_index_ (tr_frames (hk_tracker h1)) + 1) in Hn2. lia.
  - intros Ho. rewrite <-E in Ho. destruct (release_spec ptr i h2 Ho) as (_ & _ & Hs3).
    etransitivity; [exact Hs|]. etransitivity; [|exact Hs3].
    apply Add_steps_at; [apply Hi1|done|done|by apply by_address_fits|by apply by_address_fits].
Qed.
End effects.

(** ** Programs *)

(** A call with its arguments and what the system answers. *)
Inductive hook_call :=
  | CallMalloc (size result : Z)
  | CallFree (pointer : Z)
  | CallRealloc (pointer bytes result : Z)
  | CallCalloc (nmemb bytes result : Z)
  | CallMemalign (alignment bytes result : Z)
  | CallAlignedAlloc (alignment bytes result : Z)
  | CallPosixMemalign (alignment size result memptr : Z)
  | CallMmap (addr size prot flags fd offset result : Z) (info : FdInfo)
  | CallMmap64 (addr size prot flags fd offset result : Z) (info : FdInfo)
  | CallMunmap (addr size ret : Z)
  | CallMremap (old_addr old_size new_size flags new_addr result : Z)
  | CallIoctl (fd request : Z) (arg : option IoctlArg) (result : Z) (info : FdInfo)
  | CallClose (fd result saved_errno : Z).

Record ProgramCall := mkCall { call_disabled : bool; call_env : CallEnv; call_of : hook_call }.

Section programs.
Context {T : Type} `{LiveTable T} (cfg : Config) (dma_capture : bool).

Definition run_call (c : ProgramCall) (h : Hook T) : Outcome * Hook T :=
  let b := call_disabled c in let ce := call_env c in
  match call_of c with
  | CallMalloc size result => debug_malloc cfg b size result ce h
  | CallFree pointer => debug_free cfg b pointer h
  | CallRealloc pointer bytes result => debug_realloc cfg b pointer bytes result ce h
  | CallCalloc nmemb bytes result => debug_calloc cfg b nmemb bytes result ce h
  | CallMemalign alignment bytes result => debug_memalign cfg b alignment bytes result ce h
  | CallAlignedAlloc alignment bytes result => debug_aligned_alloc cfg b alignment bytes result ce h
  | CallPosixMemalign alignment size result memptr =>
      debug_posix_memalign cfg b alignment size result memptr ce h
  | CallMmap addr size prot flags fd offset result info =>
      debug_mmap cfg dma_capture b addr size prot flags fd offset result info ce h
  | CallMmap64 addr size prot flags fd offset result info =>
      debug_mmap64 cfg dma_capture b addr size prot flags fd offset result info ce h
  | CallMunmap addr size ret => debug_munmap cfg b addr size ret h
  | CallMremap old_addr old_size new_size flags new_addr result =>
      debug_mremap cfg b old_addr old_size new_size flags new_addr result ce h
  | CallIoctl fd request arg result info => debug_ioctl cfg dma_capture b fd request arg result info ce h
  | CallClose fd result saved_errno => debug_close cfg dma_capture b fd result saved_errno h
  end.

Definition run_calls (calls : list ProgramCall) (h : Hook T) : Hook T :=
  fold_left (λ h c, (run_call c h).2) calls h.

Definition hook_start : Hook T := mkHook (Initialize cfg peak_members) dma_init.
End programs.

(** What the program owns after a call, by its result alone: heap blocks and
    anonymous mappings.  A mapping is one unit, released or moved as a whole by
    its start address; unmapping part of one is not distinguished from
    unmapping all of it. *)
Definition own_block (p size : Z) (o : gmap Z (Z * MemType)) : gmap Z (Z * MemType) :=
  if p =? nullptr then o else <[p := (size, HOST)]> o.

Definition owned_after (c : hook_call) (o : gmap Z (Z * MemType)) : gmap Z (Z * MemType) :=
  match c with
  | CallMalloc size p | CallMemalign _ size p | CallAlignedAlloc _ size p =>
      if size >? MaxSize then o else own_block p size o
  | CallCalloc n size p => if n * size >? SIZE_MAX then o else own_block p (n * size) o
  | CallPosixMemalign alignment size result p =>
      if (alignment <? 8) || negb (powerof2 alignment) || (size >? MaxSize) || negb (result =? 0) then o
      else own_block p size o
  | CallFree p => if p =? nullptr then o else delete p o
  | CallRealloc p size new =>
      if p =? nullptr then if size >? MaxSize then o else own_block new size o
      else if size =? 0 then delete p o
      else if (size >? MaxSize) || (new =? nullptr) then o
      else <[new := (size, HOST)]> (delete p o)
  | CallMmap _ size _ flags fd _ p _ | CallMmap64 _ size _ flags fd _ p _ =>
      if (size >? MaxSize) || (p =? MAP_FAILED) then o
      else if (fd <? 0) && flag_set flags MAP_ANONYMOUS then <[p := (size, MMAP)]> o else o
  | CallMunmap p _ ret => if ret =? 0 then delete p o else o
  | CallMremap old _ size flags _ new =>
      if (size >? MaxSize) || negb (MappingSucceeded new) then o
      else if flag_set flags MREMAP_DONTUNMAP then <[new := (size, MMAP)]> o
      else owned_move old new size o
  | CallIoctl _ _ _ _ _ | CallClose _ _ _ => o
  end.

Definition owned_call (c : ProgramCall) (o : gmap Z (Z * MemType)) : gmap Z (Z * MemType) :=
  if call_disabled c then o else owned_after (call_of c) o.
Definition owned_run (calls : list ProgramCall) : gmap Z (Z * MemType) :=
  fold_left (λ o c, owned_call c o) calls ∅.

(** Throughout, what is owned fits the address space. *)
Fixpoint owned_run_fits (calls : list ProgramCall) (o : gmap Z (Z * MemType)) : Prop :=
  owned_fits o ∧ match calls with [] => True | c :: calls => owned_run_fits calls (owned_call c o) end.

(** A captured stack fits its record, and nothing is mapped at address 0. *)
Definition call_ok (c : ProgramCall) : Prop :=
  frame_count (ce_raw (call_env c)) ≤ kMaxAsyncRawFrames ∧
  match call_of c with CallMremap old _ _ _ _ _ => old ≠ nullptr | _ => True end.

(** The calls the descriptor tables play no part in. *)
Definition plain_call (c : hook_call) : bool :=
  match c with
  | CallMmap _ _ _ _ _ _ _ _ | CallMmap64 _ _ _ _ _ _ _ _ | CallIoctl _ _ _ _ _ | CallClose _ _ _ => false
  | _ => true
  end.

Section program_lemmas.
Context {T : Type} `{LiveTableLaws T} (cfg : Config).
Context (Htrack : TrackPointers cfg = true).
Implicit Types h : Hook T.

Lemma ShouldTrackAllocation_on n : ShouldTrackAllocation cfg n = Some n.
Proof. unfold ShouldTrackAllocation. by rewrite Htrack. Qed.

(** A block of [size] bytes was handed out at [p], if not null. *)
Lemma own_block_effect p n size ce h :
  hook_inv cfg h → stack_indices h < 2 ^ 64 - 1 → frame_count (ce_raw ce) ≤ kMaxAsyncRawFrames →
  effect cfg 1 h (own_block p size (records h))
    (if negb (p =? nullptr) then add_pointer cfg p n size HOST ce h else h).
Proof.
  intros. unfold own_block. destruct (p =? nullptr); cbn; [by apply effect_refl|by apply add_effect].
Qed.

Lemma effect_weaken n m h o h' : effect cfg n h o h' → n ≤ m → effect cfg m h o h'.
Proof. intros [? ? ?] Hn. split; [done|lia|done]. Qed.

Lemma realloc_tracked_effect p bytes new ce h :
  hook_inv cfg h → stack_indices h < 2 ^ 64 - 1 → frame_count (ce_raw ce) ≤ kMaxAsyncRawFrames →
  let h' := (realloc_tracked cfg p bytes new ce h).2 in
  effect cfg 1 h (if new =? nullptr then records h else <[new := (bytes, HOST)]> (delete p (records h))) h' ∧
  hk_dma h' = hk_dma h.
Proof.
  intros Hi Hn Hfc. unfold realloc_tracked. rewrite ShouldTrackAllocation_on, Htrack. unfold AllocationSucceeded.
  pose proof (take_restore_effect cfg p h Hi) as Hf. pose proof (take_add_effect cfg p new bytes bytes ce h Hi Hn Hfc) as Ha.
  pose proof (take_spec cfg p h Hi) as Ht. destruct (take_pointer p h) as [previous h1].
  destruct Ht as (_ & _ & Hd & _). destruct (new =? nullptr); cbn [negb snd]; destruct previous; cbn in *;
    (split; [eapply effect_weaken; [eassumption|lia]|done]).
Qed.

Lemma munmap_effect p size ret h :
  hook_inv cfg h →
  let h' := (debug_munmap cfg false p size ret h).2 in
  effect cfg 0 h (if ret =? 0 then delete p (records h) else records h) h' ∧ hk_dma h' = hk_dma h.
Proof.
  intros Hi. unfold debug_munmap. rewrite Htrack. unfold SyscallSucceeded.
  pose proof (take_restore_effect cfg p h Hi) as Hf. pose proof (take_release_effect cfg p h Hi) as Ha.
  pose proof (take_spec cfg p h Hi) as Ht. destruct (take_pointer p h) as [previous h1].
  destruct Ht as (_ & _ & Hd & _). destruct previous as [i|];
    (destruct (ret =? 0); (split; [assumption|exact Hd])).
Qed.

Lemma mremap_effect old old_size size flags new_addr new ce h :
  hook_inv cfg h → stack_indices h < 2 ^ 64 - 1 → frame_count (ce_raw ce) ≤ kMaxAsyncRawFrames → old ≠ nullptr →
  let h' := (debug_mremap cfg false old old_size size flags new_addr new ce h).2 in
  effect cfg 1 h (owned_after (CallMremap old old_size size flags new_addr new) (records h)) h' ∧
  hk_dma h' = hk_dma h.
Proof.
  intros Hi Hn Hfc Hold. unfold debug_mremap. cbn [owned_after]. rewrite Htrack, andb_true_r.
  destruct (size >? MaxSize) eqn:Es; cbn [orb snd]; [by split; [apply effect_refl|]|].
  destruct (MappingSucceeded new) eqn:Em; cbn [negb]; [|by split; [apply effect_refl|]].
  destruct (flag_set flags MREMAP_DONTUNMAP); (split; [|done]); [by apply add_effect|].
  eapply effect_weaken; [apply remap_effect; try done|lia].
  - intros ->. done.
  - apply Z.gtb_ltb, Z.ltb_ge in Es || (rewrite Z.gtb_ltb, Z.ltb_ge in Es). done.
Qed.

(** Heap calls, unmapping and remapping, in either build. *)
Lemma plain_effect b c h :
  hook_inv cfg h → stack_indices h < 2 ^ 64 - 1 → call_ok c → plain_call (call_of c) = true →
  let h' := (run_call cfg b c h).2 in
  effect cfg 1 h (owned_call c (records h)) h' ∧ hk_dma h' = hk_dma h.
Proof.
  intros Hi Hn [Hfc Hold] Hp. unfold run_call, owned_call. destruct c as [dis ce c]. cbn in Hfc, Hold, Hp.
  cbn [call_disabled call_env call_of].
  assert (effect cfg 1 h (records h) h) as Hrefl by by apply effect_refl.
  assert (∀ p n size, effect cfg 1 h (own_block p size (records h))
    (if negb (p =? nullptr) then add_pointer cfg p n size HOST ce h else h)) as Hown
    by (intros; by apply own_block_effect).
  assert (∀ p, effect cfg 1 h (delete p (records h)) (remove_pointer cfg p h)) as Hrm
    by (intros; eapply effect_weaken; [by apply remove_effect|lia]).
  assert (∀ (b : bool) p n size, hk_dma (if b then add_pointer cfg p n size HOST ce h else h) = hk_dma h) as Hd
    by by intros [].
  destruct c as [size p|p|p size new|n size p|al size p|al size p|al size res p|
    | |p size ret|old old_size size flags new_addr new| |]; try done; cbn [owned_after].
  - unfold debug_malloc, InternalMalloc, AllocationSucceeded. rewrite ShouldTrackAllocation_on, Htrack, andb_true_r.
    destruct dis, (size >? MaxSize); try done. by split; [apply Hown|apply Hd].
  - unfold debug_free, InternalFree. rewrite Htrack. by destruct dis, (p =? nullptr).
  - unfold debug_realloc, InternalMalloc, InternalFree, AllocationSucceeded.
    rewrite ShouldTrackAllocation_on, Htrack, andb_true_r.
    destruct dis; [done|]. destruct (p =? nullptr).
    { destruct (size >? MaxSize); [done|]. by split; [apply Hown|apply Hd]. }
    destruct (size =? 0); [by split; [apply Hrm|]|]. destruct (size >? MaxSize); [done|]. cbn [orb].
    by apply realloc_tracked_effect.
  - unfold debug_calloc, track_allocation. rewrite ShouldTrackAllocation_on, Htrack, andb_true_r.
    destruct dis, (n * size >? SIZE_MAX); try done. by split; [apply Hown|apply Hd].
  - unfold debug_memalign, track_allocation. rewrite ShouldTrackAllocation_on, Htrack, andb_true_r.
    destruct dis, (size >? MaxSize); try done. by split; [apply Hown|apply Hd].
  - unfold debug_aligned_alloc, track_allocation. rewrite ShouldTrackAllocation_on, Htrack, andb_true_r.
    destruct dis, (size >? MaxSize); try done. by split; [apply Hown|apply Hd].
  - unfold debug_posix_memalign. rewrite ShouldTrackAllocation_on, Htrack, andb_true_r.
    destruct dis; [done|]. destruct (_ || negb (powerof2 al)); [done|]. cbn [orb].
    destruct (size >? MaxSize); [done|]. destruct (res =? 0); [|done]. by split; [apply Hown|apply Hd].
  - destruct dis; [done|]. destruct (munmap_effect p size ret h Hi) as [He Hdma].
    split; [|done]. eapply effect_weaken; [exact He|lia].
  - destruct dis; [done|]. by apply mremap_effect.
Qed.

(** *** The build without DMA capture *)

Lemma mmap_effect call (dis : bool) size flags fd p info ce h :
  hook_inv cfg h → stack_indices h < 2 ^ 64 - 1 → frame_count (ce_raw ce) ≤ kMaxAsyncRawFrames →
  effect cfg 1 h
    (if dis then records h
     else if (size >? MaxSize) || (p =? MAP_FAILED) then records h
     else if (fd <? 0) && flag_set flags MAP_ANONYMOUS then <[p := (size, MMAP)]> (records h) else records h)
    (mmap_with cfg false call dis size flags fd p info ce h).2.
Proof.
  intros Hi Hn Hfc. assert (effect cfg 1 h (records h) h) as Hrefl by by apply effect_refl.
  unfold mmap_with, take_pending. destruct dis; [done|]. destruct (size >? MaxSize); [done|]. cbn [orb snd].
  unfold TrackMmapResult, ClassifyMmap. rewrite Htrack. cbn [negb].
  destruct (p =? MAP_FAILED); [done|]. destruct (_ && _); [by apply add_effect|done].
Qed.

Lemma call_effect c h :
  hook_inv cfg h → stack_indices h < 2 ^ 64 - 1 → call_ok c →
  effect cfg 1 h (owned_call c (records h)) (run_call cfg false c h).2.
Proof.
  intros Hi Hn Hok. destruct (plain_call (call_of c)) eqn:Ep; [by apply plain_effect|].
  destruct Hok as [Hfc _]. unfold run_call, owned_call. destruct c as [dis ce c]. cbn in Hfc, Ep.
  cbn [call_disabled call_env call_of].
  assert (effect cfg 1 h (records h) h) as Hrefl by by apply effect_refl.
  destruct c; try done; cbn [owned_after].
  - by apply mmap_effect.
  - by apply mmap_effect.
  - by destruct dis.
  - by destruct dis.
Qed.

Lemma run_calls_owned calls h o :
  hook_inv cfg h → records h = o → stack_indices h + Z.of_nat (length calls) < 2 ^ 64 - 1 → Forall call_ok calls →
  owned_run_fits calls o →
  let h' := run_calls cfg false calls h in
  records h' = fold_left (λ o c, owned_call c o) calls o ∧
  rtc (alloc_step cfg) (quiescent (hk_tracker h)) (quiescent (hk_tracker h')).
Proof.
  revert h o. induction calls as [|c calls IH]; intros h o Hi Hr Hn Hok Hfits; [done|].
  apply Forall_cons in Hok as [Hc Hok]. cbn [length] in Hn.
  pose proof (call_effect c h Hi ltac:(lia) Hc) as He. rewrite Hr in He.
  destruct Hfits as [_ Hfits]. assert (owned_fits (owned_call c o)) as Hf1 by by destruct calls, Hfits.
  pose proof (effect_inv cfg _ _ _ _ He Hi Hf1) as Hi'.
  destruct He as [Hr' Hn' Hs]. destruct (IH (run_call cfg false c h).2 (owned_call c o)) as [IH1 IH2]; [done|done|lia|done..|].
  split; [exact IH1|]. etransitivity; [by apply Hs|exact IH2].
Qed.

Lemma hook_start_inv : hook_inv cfg (hook_start cfg : Hook T).
Proof. apply (ts_init_inv cfg). Qed.

Lemma hook_start_records : records (hook_start cfg : Hook T) = ∅.
Proof. unfold records. cbn. by rewrite lt_empty_view, by_address_empty. Qed.

(** The counters read the records. *)
Lemma records_counters h :
  hook_inv cfg h → let c := lv_counters (tr_live (hk_tracker h)) in
  current_used c = map_sum fst (records h) ∧
  current_dma c = map_sum (λ x, if is_dma x.2 then x.1 else 0) (records h) ∧
  current_host c = map_sum (λ x, if is_dma x.2 then 0 else x.1) (records h).
Proof.
  intros Hi. pose proof Hi as ([[_ (H1 & H2 & H3)] _ _] & (Hpos & Hsum & _) & _).
  cbn [quiescent ts_sys st_live] in *. unfold records. rewrite !by_address_sum. set (m := lt_view _) in *.
  assert (∀ f : PointerInfoType → Z, (∀ k i, m !! k = Some i → 0 ≤ f i ≤ info_size i) →
    u64 (map_sum f m) = map_sum f m) as Hu.
  { intros f Hf. apply u64_small. split; [apply map_sum_nonneg; by apply Hf|].
    eapply Z.le_lt_trans; [|exact Hsum]. apply map_sum_le. by apply Hf. }
  cbn zeta. rewrite H1, H2, H3, !Hu; [done|..]; intros k i Hk; specialize (Hpos k i Hk);
    unfold dma_size, host_size; try case_match; lia.
Qed.
End program_lemmas.

(** ** The descriptor table and the records *)

(** Descriptors are below [fd_limit], addresses at or above it. *)
Definition separated (fd_limit : Z) (c : hook_call) : Prop :=
  let address p := p = nullptr ∨ fd_limit ≤ p in
  match c with
  | CallMalloc _ p | CallFree p | CallCalloc _ _ p | CallMemalign _ _ p | CallAlignedAlloc _ _ p
  | CallPosixMemalign _ _ _ p => address p
  | CallRealloc p _ new => address p ∧ address new
  | CallMmap _ _ _ _ fd _ p _ | CallMmap64 _ _ _ _ fd _ p _ => fd < fd_limit ≤ p
  | CallMunmap p _ _ => fd_limit ≤ p
  | CallMremap old _ _ _ _ new => fd_limit ≤ old ∧ fd_limit ≤ new
  | CallIoctl _ _ arg _ _ =>
      from_option (λ a, i32 (dma_heap_fd a) < fd_limit ∧ cam_memID a < fd_limit ∧
                        i32 (ion_new_fd a) < fd_limit ∧ ion_fd_fd a < fd_limit) True arg
  | CallClose _ _ _ => True
  end.

(** The records below the limit are the descriptors known, each counted once
    with its size. *)
Record fd_agree (fd_limit : Z) (d : DmaState) (o : gmap Z (Z * MemType)) : Prop := {
  fa_records k : k < fd_limit → o !! k = (λ e, (df_size e, DMA)) <$> dma_fds d !! k;
  fa_entries k e : dma_fds d !! k = Some e → 0 ≤ k < fd_limit ∧ df_tracked e = true;
}.

Section descriptors.
Context {T : Type} `{LiveTableLaws T} (cfg : Config) (fd_limit : Z).
Context (Htrack : TrackPointers cfg = true).
Implicit Types h : Hook T.

Lemma agree_ext d d' o o' :
  fd_agree fd_limit d o → dma_fds d' = dma_fds d → (∀ k, k < fd_limit → o' !! k = o !! k) → fd_agree fd_limit d' o'.
Proof.
  intros [Hr He] Hd Ho. split; rewrite Hd; [|done]. intros k Hk. rewrite Ho by done. by apply Hr.
Qed.

Lemma agree_delete d d' o k :
  fd_agree fd_limit d o → dma_fds d' = delete k (dma_fds d) → fd_agree fd_limit d' (delete k o).
Proof.
  intros [Hr He] Hd. split; rewrite Hd.
  - intros j Hj. destruct (decide (j = k)) as [->|Hne]; [by rewrite !lookup_delete_eq|].
    rewrite !lookup_delete_ne by done. by apply Hr.
  - intros j e [_ Hj]%lookup_delete_Some. by eapply He.
Qed.

Lemma agree_insert d d' o k size :
  fd_agree fd_limit d o → 0 ≤ k < fd_limit → dma_fds d' = <[k := mkDmaFd size true]> (dma_fds d) →
  fd_agree fd_limit d' (<[k := (size, DMA)]> o).
Proof.
  intros [Hr He] Hk Hd. split; rewrite Hd.
  - intros j Hj. destruct (decide (j = k)) as [->|Hne]; [by rewrite !lookup_insert_eq|].
    rewrite !lookup_insert_ne by done. by apply Hr.
  - intros j e [[<- <-]|[_ Hj]]%lookup_insert_Some; [done|by eapply He].
Qed.

(** Addresses are not descriptors. *)
Lemma plain_below c o k :
  separated fd_limit (call_of c) → plain_call (call_of c) = true → k < fd_limit → owned_call c o !! k = o !! k.
Proof.
  intros Hs Hp Hk. unfold owned_call. destruct c as [[] ce c]; [done|]. cbn in Hs, Hp. cbn [call_of call_disabled].
  assert (∀ p size, (p = nullptr ∨ fd_limit ≤ p) → own_block p size o !! k = o !! k) as Hb.
  { intros p size Hp'. unfold own_block. destruct (Z.eqb_spec p nullptr); [done|].
    rewrite lookup_insert_ne; [done|]. destruct Hp'; [done|lia]. }
  assert (∀ p, fd_limit ≤ p → delete p o !! k = o !! k) as Hdel by (intros; apply lookup_delete_ne; lia).
  assert (∀ p q x, fd_limit ≤ p → fd_limit ≤ q → <[q := x]> (delete p o) !! k = o !! k) as Hmove.
  { intros. rewrite lookup_insert_ne by lia. by apply Hdel. }
  destruct c; try done; cbn [owned_after].
  - destruct (size >? MaxSize); auto.
  - destruct (Z.eqb_spec pointer nullptr); [done|]. destruct Hs; [done|auto].
  - destruct Hs as [Hs1 Hs2]. destruct (Z.eqb_spec pointer nullptr); [destruct (bytes >? MaxSize); auto|].
    destruct Hs1; [done|]. destruct (bytes =? 0); [auto|]. destruct (bytes >? MaxSize); [done|]. cbn [orb].
    destruct (Z.eqb_spec result nullptr); [done|]. destruct Hs2; [done|auto].
  - destruct (_ >? _); auto.
  - destruct (_ >? _); auto.
  - destruct (_ >? _); auto.
  - destruct (_ || _); auto.
  - destruct (ret =? 0); auto.
  - destruct Hs. unfold owned_move. repeat case_match; auto. by rewrite lookup_insert_ne by lia.
Qed.

(** *** Descriptor operations *)

Lemma track_fd_effect fd size ce d h e :
  hook_inv cfg h → stack_indices h < 2 ^ 64 - 1 → frame_count (ce_raw ce) ≤ kMaxAsyncRawFrames →
  fd_agree fd_limit d (records h) → 0 ≤ fd < fd_limit →
  dma_fds (hk_dma h) = <[fd := mkDmaFd size e]> (dma_fds d) →
  let h' := track_fd cfg fd size ce h in
  effect cfg 1 h (<[fd := (size, DMA)]> (records h)) h' ∧
  fd_agree fd_limit (hk_dma h') (<[fd := (size, DMA)]> (records h)).
Proof.
  intros Hi Hn Hfc Ha Hfd Hd h'. split.
  - by apply (effect_dma cfg 1 h _ _ h h' (add_effect cfg fd size size DMA ce h Hi Hn Hfc)).
  - apply (agree_insert d); [done..|]. unfold h', track_fd, MarkDmaFdTracked.
    cbn [hk_dma add_pointer field_set hk_tracker]. rewrite Hd, lookup_insert_eq. cbn [dma_fds field_set].
    by rewrite insert_insert_eq.
Qed.

(** Forgetting a descriptor, with its record. *)
Lemma forget_fd_effect fd h :
  hook_inv cfg h → fd_agree fd_limit (hk_dma h) (records h) →
  let '(old, d) := TakeDmaFd fd (hk_dma h) in
  let h1 := h <| hk_dma := d |> in
  let h' := match old with Some (_, true) => remove_pointer cfg fd h1 | _ => h1 end in
  ∃ o, effect cfg 0 h o h' ∧ owned_fits o ∧ fd_agree fd_limit (hk_dma h') o ∧ dma_fds (hk_dma h') !! fd = None.
Proof.
  intros Hi Ha. unfold TakeDmaFd. destruct (dma_fds (hk_dma h) !! fd) as [e|] eqn:Ef.
  - destruct (fa_entries _ _ _ Ha fd e Ef) as [_ ->]. exists (delete fd (records h)). split_and!.
    + set (h1 := h <| hk_dma := _ |>). assert (hook_inv cfg h1) as Hi1 by done.
      by apply (effect_dma cfg 0 h1 _ _ h _ (remove_effect cfg fd h1 Hi1)).
    + by apply owned_fits_delete, hook_inv_fits with cfg.
    + by apply (agree_delete (hk_dma h)).
    + apply lookup_delete_eq.
  - exists (records h). split_and!; [|by apply hook_inv_fits with cfg|done|done].
    by apply (effect_dma cfg 0 h _ h); [apply effect_refl|..].
Qed.

(** Announcing a descriptor, unless it is already counted with this size. *)
Lemma register_fd_effect fd size ce h :
  hook_inv cfg h → stack_indices h < 2 ^ 64 - 1 → frame_count (ce_raw ce) ≤ kMaxAsyncRawFrames →
  fd_agree fd_limit (hk_dma h) (records h) → fd < fd_limit →
  (∀ e, dma_fds (hk_dma h) !! fd = Some e → df_size e = size) →
  let '(should_track, d) := RegisterDmaFd fd size (hk_dma h) in
  let h1 := h <| hk_dma := d |> in
  let h' := match should_track with Some true => track_fd cfg fd size ce h1 | _ => h1 end in
  ∃ o, effect cfg 1 h o h' ∧ fd_agree fd_limit (hk_dma h') o.
Proof.
  intros Hi Hn Hfc Ha Hfd Hsize. unfold RegisterDmaFd.
  assert (∀ d, effect cfg 1 h (records h) (h <| hk_dma := d |>)) as Hrefl
    by (intros d; by apply (effect_dma cfg 1 h _ h); [apply effect_refl|..]).
  destruct ((fd <? 0) || (size =? 0)) eqn:Eg; [by exists (records h)|]. bool_hyps.
  destruct (dma_fds (hk_dma h) !! fd) as [e|] eqn:Ef.
  - destruct (fa_entries _ _ _ Ha fd e Ef) as [_ Et]. rewrite Et. cbn [negb]. exists (records h). split; [done|].
    apply (agree_ext (hk_dma h) _ (records h)); [done| |done]. cbn. apply insert_id. rewrite Ef. f_equal.
    rewrite <-(Hsize e eq_refl). by destruct e.
  - exists (<[fd := (size, DMA)]> (records h)). set (h1 := h <| hk_dma := _ |>).
    assert (hook_inv cfg h1) as Hi1 by done. assert (stack_indices h1 < 2 ^ 64 - 1) as Hn1 by done.
    assert (fd_agree fd_limit (hk_dma h) (records h1)) as Ha1 by done.
    destruct (track_fd_effect fd size ce (hk_dma h) h1 false Hi1 Hn1 Hfc Ha1) as [He Hag]; [lia|done|].
    split; [|exact Hag]. by apply (effect_dma cfg 1 h1 _ _ h _ He).
Qed.

Lemma register_node_effect cmd fd size ce h :
  hook_inv cfg h → stack_indices h < 2 ^ 64 - 1 → frame_count (ce_raw ce) ≤ kMaxAsyncRawFrames →
  fd_agree fd_limit (hk_dma h) (records h) → fd < fd_limit →
  (CreatesDmaFd cmd = false → ∀ e, dma_fds (hk_dma h) !! fd = Some e → df_size e = size) →
  let h' := register_node cfg cmd fd size ce h in
  ∃ o, effect cfg 1 h o h' ∧ fd_agree fd_limit (hk_dma h') o.
Proof.
  intros Hi Hn Hfc Ha Hfd Hsize. unfold register_node. destruct (CreatesDmaFd cmd).
  - pose proof (forget_fd_effect fd h Hi Ha) as Hf. destruct (TakeDmaFd fd (hk_dma h)) as [old d].
    destruct Hf as (o & He & Ho & Hag & Hnone). revert He Hag Hnone.
    match goal with |- effect _ _ _ _ ?x → _ => generalize x end.
    intros h1 He Hag Hnone. pose proof (effect_inv cfg _ _ _ _ He Hi Ho) as Hi1. pose proof (ef_records _ _ _ _ _ He) as Hr1.
    pose proof (ef_indices _ _ _ _ _ He) as Hn1. rewrite <-Hr1 in Hag.
    pose proof (register_fd_effect fd size ce h1 Hi1 ltac:(lia) Hfc Hag Hfd) as Hr.
    destruct (RegisterDmaFd fd size (hk_dma h1)) as [st d1].
    destruct Hr as (o' & He' & Hag'); [by intros e; rewrite Hnone|]. exists o'. split; [|done].
    by apply (effect_trans cfg 0 1 h o h1).
  - pose proof (register_fd_effect fd size ce h Hi Hn Hfc Ha Hfd (Hsize eq_refl)) as Hr.
    by destruct (RegisterDmaFd fd size (hk_dma h)) as [st d1].
Qed.

(** *** Descriptor calls *)

(** What the ioctl handlers hand out: a descriptor of the limit, new unless its
    size comes from the table; the table itself is left alone. *)
Lemma node_spec fd cmd arg info d :
  from_option (λ a, i32 (dma_heap_fd a) < fd_limit ∧ cam_memID a < fd_limit ∧
                    i32 (ion_new_fd a) < fd_limit ∧ ion_fd_fd a < fd_limit) True arg →
  let '(node, d1) := HandleIonIoctl fd cmd arg d in
  let '(node, d2) := match node with Some n => (Some n, d1) | None => handle_dma_node cmd arg info d1 end in
  dma_fds d2 = dma_fds d ∧
  match node with
  | Some (node_fd, size) => node_fd < fd_limit ∧
      (CreatesDmaFd cmd = false → ∀ e, dma_fds d !! node_fd = Some e → df_size e = size)
  | None => True
  end.
Proof.
  intros Harg. assert (∀ d1, dma_fds d1 = dma_fds d →
    let '(node, d2) := handle_dma_node cmd arg info d1 in
    dma_fds d2 = dma_fds d ∧
    match node with
    | Some (node_fd, size) => node_fd < fd_limit ∧
        (CreatesDmaFd cmd = false → ∀ e, dma_fds d !! node_fd = Some e → df_size e = size)
    | None => True
    end) as Hnode.
  { intros d1 Hd1. unfold handle_dma_node. destruct (_ || _ || _); [done|]. destruct arg as [a|]; [|done].
    destruct Harg as (Ha1 & Ha2 & _). destruct (cmd =? DMA_HEAP_IOCTL_ALLOC) eqn:Eh.
    - split; [done|]. destruct (_ && _); [|done]. split; [done|]. unfold CreatesDmaFd. by rewrite Eh.
    - destruct (cmd =? CAM_MEM_ION_MAP_PA); [|done]. split; [done|]. unfold is_dma_buf, LookupDmaFd. rewrite Hd1.
      destruct (dma_fds d !! cam_memID a) as [e|] eqn:Ee; cbn.
      + split; [done|]. congruence.
      + repeat case_match; simplify_eq/=; try done; (split; [done|congruence]). }
  unfold HandleIonIoctl. destruct arg as [a|]; [|by apply Hnode]. destruct Harg as (_ & _ & Ha3 & Ha4).
  destruct (negb _); [by apply Hnode|]. destruct (IsIonLegacyAlloc cmd).
  { apply Hnode. unfold RecordIonAllocation. by case_match. }
  destruct (IsIonNewAlloc cmd) eqn:En.
  { destruct (_ && _); [|by apply Hnode]. split_and!; [done..|]. unfold CreatesDmaFd. by rewrite En, orb_true_r. }
  destruct (IsIonFdRequest cmd 2 || IsIonFdRequest cmd 4) eqn:Ef.
  { destruct (_ && _); [|by apply Hnode]. split_and!; [done..|]. unfold CreatesDmaFd.
    by rewrite <-!orb_assoc, Ef, !orb_true_r. }
  destruct (IsIonFdRequest cmd 5); [by apply Hnode|]. by destruct (IsIonFree cmd); apply Hnode.
Qed.

Lemma ioctl_effect dis fd request arg result info ce h :
  hook_inv cfg h → stack_indices h < 2 ^ 64 - 1 → frame_count (ce_raw ce) ≤ kMaxAsyncRawFrames →
  fd_agree fd_limit (hk_dma h) (records h) → separated fd_limit (CallIoctl fd request arg result info) →
  let h' := (debug_ioctl cfg true dis fd request arg result info ce h).2 in
  ∃ o, effect cfg 1 h o h' ∧ fd_agree fd_limit (hk_dma h') o.
Proof.
  intros Hi Hn Hfc Ha Hs. unfold debug_ioctl. rewrite Htrack, andb_true_r. cbn [negb orb andb].
  assert (∀ d, effect cfg 1 h (records h) (h <| hk_dma := d |>)) as Hrefl
    by (intros d; by apply (effect_dma cfg 1 h _ h); [apply effect_refl|..]).
  assert (effect cfg 1 h (records h) h) as Hsame by by apply effect_refl.
  destruct dis; [by exists (records h)|]. destruct (SyscallSucceeded result); [|by exists (records h)].
  pose proof (node_spec fd (u32 request) arg info (hk_dma h) Hs) as Hnode.
  destruct (HandleIonIoctl _ _ _ _) as [node d1]. destruct (match node with Some _ => _ | None => _ end) as [node' d2].
  destruct Hnode as [Hd Hnode].
  assert (fd_agree fd_limit d2 (records h)) as Ha2 by by apply (agree_ext (hk_dma h) _ (records h)).
  assert (∃ o, effect cfg 1 h o (h <| hk_dma := d2 |>) ∧ fd_agree fd_limit d2 o) as Hkeep
    by (exists (records h); split; [apply Hrefl|done]).
  destruct node' as [[nfd size]|]; [|exact Hkeep]. destruct (CanRegisterDmaFd _); [|exact Hkeep].
  destruct Hnode as [Hlim Hsize]. rewrite <-Hd in Hsize. cbn [snd]. set (h1 := h <| hk_dma := d2 |>).
  assert (hook_inv cfg h1) as Hi1 by done. assert (stack_indices h1 < 2 ^ 64 - 1) as Hn1 by done.
  destruct (register_node_effect (u32 request) nfd size ce h1 Hi1 Hn1 Hfc Ha2 Hlim Hsize) as (o & He & Hag).
  exists o. split; [|done]. by apply (effect_dma cfg 1 h1 _ _ h _ He).
Qed.

Lemma close_effect dis fd result saved_errno h :
  hook_inv cfg h → fd_agree fd_limit (hk_dma h) (records h) →
  let h' := (debug_close cfg true dis fd result saved_errno h).2 in
  ∃ o, effect cfg 0 h o h' ∧ fd_agree fd_limit (hk_dma h') o.
Proof.
  intros Hi Ha. unfold debug_close, debug_close_with. rewrite Htrack. cbn [negb orb].
  assert (effect cfg 0 h (records h) h) as Hsame by by apply effect_refl.
  destruct dis; [by exists (records h)|]. cbn [orb]. destruct (_ || _); [|by exists (records h)].
  pose proof (forget_fd_effect fd h Hi Ha) as Hf. destruct (TakeDmaFd fd (hk_dma h)) as [old d]. cbn [snd].
  destruct Hf as (o & He & _ & Hag & _). exists o. split.
  - by apply (effect_dma cfg 0 h _ _ h _ He).
  - by apply (agree_ext _ _ _ _ Hag).
Qed.

Lemma mmap_dma_effect call dis size flags fd p info ce h :
  hook_inv cfg h → stack_indices h < 2 ^ 64 - 1 → frame_count (ce_raw ce) ≤ kMaxAsyncRawFrames →
  fd_agree fd_limit (hk_dma h) (records h) → fd < fd_limit ≤ p →
  let h' := (mmap_with cfg true call dis size flags fd p info ce h).2 in
  ∃ o, effect cfg 1 h o h' ∧ fd_agree fd_limit (hk_dma h') o.
Proof.
  intros Hi Hn Hfc Ha [Hfd Hp]. unfold mmap_with, take_pending. cbn [Take].
  destruct dis; [exists (records h); by split; [apply effect_refl|]|]. set (h1 := h <| hk_dma := _ |>).
  assert (hook_inv cfg h1) as Hi1 by done. assert (stack_indices h1 < 2 ^ 64 - 1) as Hn1 by done.
  assert (fd_agree fd_limit (hk_dma h1) (records h1)) as Ha1 by by apply (agree_ext (hk_dma h) _ (records h)).
  assert (∀ h', (∃ o, effect cfg 1 h1 o h' ∧ fd_agree fd_limit (hk_dma h') o) →
    ∃ o, effect cfg 1 h o h' ∧ fd_agree fd_limit (hk_dma h') o) as Hfrom.
  { intros h' (o & He & Hag). exists o. split; [|done]. by apply (effect_dma cfg 1 h1 _ h' h _ He). }
  assert (effect cfg 1 h1 (records h1) h1) as Hrefl by by apply effect_refl.
  assert (∀ x, ∃ o, effect cfg 1 h1 o (add_pointer cfg p size size x ce h1) ∧
    fd_agree fd_limit (hk_dma (add_pointer cfg p size size x ce h1)) o) as Hadd.
  { intros x. exists (<[p := (size, x)]> (records h1)). split; [by apply add_effect|].
    apply (agree_ext (hk_dma h1) _ (records h1)); [done..|]. intros k Hk. rewrite lookup_insert_ne; [done|lia]. }
  destruct (size >? MaxSize); apply Hfrom; cbn [snd]; [by exists (records h1)|].
  unfold TrackMmapResult. rewrite Htrack. cbn [negb]. destruct (ClassifyMmap _ _ _ _); [|apply Hadd|apply Hadd].
  cbn [andb]. destruct (negb _); [|by exists (records h1)]. unfold ShouldTrackDmaMapping.
  assert (∀ d, dma_fds d = dma_fds (hk_dma h1) → ∃ o, effect cfg 1 h1 o (h1 <| hk_dma := d |>) ∧
    fd_agree fd_limit d o) as Hkeep.
  { intros d Hd. exists (records h1). split; [by apply (effect_dma cfg 1 h1 _ h1)|].
    by apply (agree_ext (hk_dma h1) _ (records h1)). }
  destruct (_ || _); [by apply Hkeep|]. unfold LookupDmaFd.
  destruct (dma_fds (hk_dma h1) !! fd) as [e|] eqn:Ef; cbn [fmap option_fmap option_map].
  - destruct (fa_entries _ _ _ Ha1 fd e Ef) as [_ ->]. by apply Hkeep.
  - destruct (is_dma_buf fd 0 info (hk_dma h1)) as [dsize|]; [|by apply Hkeep].
    pose proof (register_fd_effect fd dsize ce h1 Hi1 Hn1 Hfc Ha1 Hfd) as Hr.
    destruct (RegisterDmaFd fd dsize (hk_dma h1)) as [[[]|] d1]; apply Hr; intros e; rewrite Ef; done.
Qed.

Lemma dma_call_effect c h :
  hook_inv cfg h → stack_indices h < 2 ^ 64 - 1 → call_ok c → separated fd_limit (call_of c) →
  fd_agree fd_limit (hk_dma h) (records h) →
  let h' := (run_call cfg true c h).2 in ∃ o, effect cfg 1 h o h' ∧ fd_agree fd_limit (hk_dma h') o.
Proof.
  intros Hi Hn Hok Hs Ha. destruct (plain_call (call_of c)) eqn:Ep.
  - destruct (plain_effect cfg Htrack true c h Hi Hn Hok Ep) as [He Hd]. eexists. split; [exact He|].
    apply (agree_ext (hk_dma h) _ (records h)); [done|by rewrite Hd|]. intros k Hk. by apply plain_below.
  - destruct Hok as [Hfc _]. destruct c as [dis ce c]. cbn in Hfc, Ep, Hs. unfold run_call.
    cbn [call_disabled call_env call_of]. destruct c; try done.
    + by apply mmap_dma_effect.
    + by apply mmap_dma_effect.
    + by apply ioctl_effect.
    + destruct (close_effect dis fd result saved_errno h Hi Ha) as (o & He & Hag).
      exists o. split; [|done]. eapply effect_weaken; [exact He|lia].
Qed.

Fixpoint run_fits (calls : list ProgramCall) (h : Hook T) : Prop :=
  owned_fits (records h) ∧
  match calls with [] => True | c :: calls => run_fits calls (run_call cfg true c h).2 end.

Lemma run_calls_agree calls h :
  hook_inv cfg h → stack_indices h + Z.of_nat (length calls) < 2 ^ 64 - 1 →
  Forall (λ c, call_ok c ∧ separated fd_limit (call_of c)) calls → run_fits calls h →
  fd_agree fd_limit (hk_dma h) (records h) →
  let h' := run_calls cfg true calls h in
  fd_agree fd_limit (hk_dma h') (records h') ∧
  rtc (alloc_step cfg) (quiescent (hk_tracker h)) (quiescent (hk_tracker h')).
Proof.
  revert h. induction calls as [|c calls IH]; intros h Hi Hn Hok Hfits Ha; [done|].
  apply Forall_cons in Hok as [[Hc Hs] Hok]. cbn [length] in Hn. destruct Hfits as [_ Hfits].
  destruct (dma_call_effect c h Hi ltac:(lia) Hc Hs Ha) as (o & He & Hag).
  pose proof (ef_records _ _ _ _ _ He) as Hr. pose proof (ef_indices _ _ _ _ _ He) as Hn'. rewrite <-Hr in Hag.
  assert (owned_fits o) as Hf by (rewrite <-Hr; by destruct calls, Hfits).
  destruct (IH (run_call cfg true c h).2) as [IH1 IH2]; [by eapply effect_inv|lia|done..|].
  split; [exact IH1|]. etransitivity; [by apply (ef_steps _ _ _ _ _ He)|exact IH2].
Qed.
End descriptors.

(** ** What the caller sees *)

(** The call as the system would have answered it. *)
Definition system_outcome (c : hook_call) : Outcome :=
  match c with
  | CallMalloc size p => mkOut p None [SysMalloc size]
  | CallFree p => mkOut 0 None [SysFree p]
  | CallRealloc p size new => mkOut new None [SysRealloc p size]
  | CallCalloc n size p => mkOut p None [SysCalloc n size]
  | CallMemalign al size p => mkOut p None [SysMemalign al size]
  | CallAlignedAlloc al size p => mkOut p None [SysAlignedAlloc al size]
  | CallPosixMemalign al size result _ => mkOut result None [SysPosixMemalign al size]
  | CallMmap addr size prot flags fd offset p _ => mkOut p None [SysMmap addr size prot flags fd offset]
  | CallMmap64 addr size prot flags fd offset p _ => mkOut p None [SysMmap64 addr size prot flags fd offset]
  | CallMunmap p size ret => mkOut ret None [SysMunmap p size]
  | CallMremap old old_size size flags new_addr new => mkOut new None [SysMremap old old_size size flags new_addr]
  | CallIoctl fd request _ result _ => mkOut result None [SysIoctl fd request]
  | CallClose fd result _ => mkOut result None [SysClose fd]
  end.

(** [realloc] of no block is [malloc], to no bytes is [free]. *)
Definition normalise (c : hook_call) : hook_call :=
  match c with
  | CallRealloc p size new =>
      if p =? nullptr then CallMalloc size new else if size =? 0 then CallFree p else c
  | _ => c
  end.

(** The requests refused without asking the system. *)
Definition refusal (c : hook_call) : option Outcome :=
  let too_large size null := if size >? MaxSize then Some (mkOut null (Some ENOMEM) []) else None in
  match c with
  | CallMalloc size _ | CallRealloc _ size _ | CallMemalign _ size _ | CallAlignedAlloc _ size _ =>
      too_large size nullptr
  | CallCalloc n size _ => if n * size >? SIZE_MAX then Some (mkOut nullptr (Some ENOMEM) []) else None
  | CallPosixMemalign al size _ _ =>
      if (al <? 8) || negb (powerof2 al) then Some (mkOut EINVAL None [])
      else if size >? MaxSize then Some (mkOut ENOMEM None []) else None
  | CallMmap _ size _ _ _ _ _ _ | CallMmap64 _ size _ _ _ _ _ _ | CallMremap _ _ size _ _ _ =>
      too_large size MAP_FAILED
  | _ => None
  end.

Lemma realloc_outcome {T} `{LiveTable T} cfg p size new ce (h : Hook T) :
  (realloc_tracked cfg p size new ce h).1 = mkOut new None [SysRealloc p size].
Proof.
  unfold realloc_tracked. destruct (if TrackPointers cfg then _ else _) as [previous h1]. by destruct (negb _).
Qed.

(** ** A concrete program *)

Definition demo_call_env : CallEnv := mkCallEnv example_raw (0, 0) demo_snap_env.
Definition demo_call (c : hook_call) : ProgramCall := mkCall false demo_call_env c.
Definition no_fdinfo : FdInfo := mkFdInfo None false.

(** A block grown in place of the old, one freed, a mapping moved. *)
Definition demo_program : list ProgramCall := demo_call <$>
  [CallMalloc 100 4096; CallRealloc 4096 300 8192; CallCalloc 4 25 4096; CallFree 4096;
   CallMmap 0 65536 3 34 (-1) 0 1048576 no_fdinfo; CallMremap 1048576 65536 131072 1 0 2097152;
   CallMalloc (2 ^ 31) 12288].

Lemma owned_fits_intro o :
  bool_decide (map_Forall (λ _ x, 0 ≤ x.1) o ∧ map_sum fst o < 2 ^ 64 ∧ Z.of_nat (size o) < 2 ^ 56) = true →
  owned_fits o.
Proof. by intros (H1 & H2 & H3)%bool_decide_eq_true. Qed.

Lemma demo_program_fits : owned_run_fits demo_program ∅.
Proof. repeat (split; [apply owned_fits_intro; vm_compute; reflexivity|]). exact I. Qed.

Lemma demo_program_ok : Forall call_ok demo_program.
Proof. repeat constructor; vm_compute; discriminate. Qed.

(** A heap buffer, mapped twice, its descriptor reused after a close the hook
    did not see, then closed. *)
Definition demo_dma_arg (len fd : Z) : IoctlArg := mkIoctlArg 0 0 0 0 0 0 0 len fd 0.
Definition demo_dma_program : list ProgramCall := demo_call <$>
  [CallMalloc 100 1048576; CallIoctl 5 DMA_HEAP_IOCTL_ALLOC (Some (demo_dma_arg 8192 7)) 0 no_fdinfo;
   CallMmap 0 8192 3 1 7 0 2097152 no_fdinfo; CallMmap64 0 8192 3 1 7 0 3145728 no_fdinfo;
   CallIoctl 5 DMA_HEAP_IOCTL_ALLOC (Some (demo_dma_arg 16384 7)) 0 no_fdinfo;
   CallIoctl 5 DMA_HEAP_IOCTL_ALLOC (Some (demo_dma_arg 4096 8)) 0 no_fdinfo; CallClose 8 0 0].

Lemma demo_dma_fits : run_fits demo_cfg demo_dma_program (hook_start demo_cfg : Hook Shards).
Proof. repeat (split; [apply owned_fits_intro; vm_compute; reflexivity|]). exact I. Qed.

Lemma demo_dma_ok : Forall (λ c, call_ok c ∧ separated 65536 (call_of c)) demo_dma_program.
Proof. repeat constructor; vm_compute; try discriminate; try lia; by right. Qed.

(** ** The properties *)

(** C1. The hook's records are what the program owns.  Whatever heap and mapping
    calls a program makes, successful, failing or refused, the records are the
    map from address to size and kind that the calls' own results give; the
    counters are its sums; and the tracker's state is reachable in the
    transition system of its critical sections.  A block that [realloc] could
    not move keeps its record, a moved one has only the new, and a failed
    [munmap] leaves the mapping recorded.  The build is the one without DMA
    capture. *)
Theorem program_records_mirrored (cfg : Config) (calls : list ProgramCall) :
  TrackPointers cfg = true → Z.of_nat (length calls) < 2 ^ 63 → Forall call_ok calls → owned_run_fits calls ∅ →
  let h := run_calls cfg false calls (hook_start cfg : Hook Shards) in
  let c := lv_counters (tr_live (hk_tracker h)) in
  records h = owned_run calls ∧
  current_used c = map_sum fst (owned_run calls) ∧
  current_dma c = map_sum (λ x, if is_dma x.2 then x.1 else 0) (owned_run calls) ∧
  current_host c = map_sum (λ x, if is_dma x.2 then 0 else x.1) (owned_run calls) ∧
  tracker_reachable cfg (quiescent (hk_tracker h)).
Proof.
  intros Htrack Hlen Hok Hfits h c. pose proof (hook_start_inv (T := Shards) cfg) as Hi.
  assert (stack_indices (hook_start cfg : Hook Shards) = 2) as Hn by done.
  destruct (run_calls_owned cfg Htrack calls (hook_start cfg : Hook Shards) ∅ Hi (hook_start_records cfg)
    ltac:(lia) Hok Hfits) as [Hr Hs].
  pose proof (records_counters cfg h (alloc_steps_inv cfg _ _ Hs Hi)) as Hc. fold c in Hc.
  fold h in Hr, Hs. rewrite Hr in Hc. destruct Hc as (H1 & H2 & H3). split_and!; try assumption.
  eapply rtc_subrel; [|exact Hs]. by constructor.
Qed.

Lemma program_records_mirrored_witness :
  records (run_calls demo_cfg false demo_program (hook_start demo_cfg : Hook Shards)) = owned_run demo_program ∧
  map_to_list (owned_run demo_program) ≡ₚ [(8192, (300, HOST)); (2097152, (131072, MMAP))].
Proof.
  destruct (program_records_mirrored demo_cfg demo_program ltac:(vm_compute; reflexivity) ltac:(vm_compute; reflexivity)
    demo_program_ok demo_program_fits) as [E _].
  split; [exact E|]. vm_compute. repeat constructor || apply perm_swap.
Defined.

(** C19. Buffers behind descriptors are counted once.  In the build with DMA
    capture, after any program whose addresses and descriptors do not overlap,
    the records below the descriptor limit are exactly the descriptors the hook
    knows, each with the size of its buffer: mapping a buffer again does not
    count it again, a descriptor number handed out anew replaces its old
    buffer, and a closed one has no record.  The tracker's state is reachable
    throughout. *)
Theorem descriptors_counted_once (cfg : Config) (fd_limit : Z) (calls : list ProgramCall) :
  TrackPointers cfg = true → Z.of_nat (length calls) < 2 ^ 63 →
  Forall (λ c, call_ok c ∧ separated fd_limit (call_of c)) calls →
  run_fits cfg calls (hook_start cfg : Hook Shards) →
  let h := run_calls cfg true calls (hook_start cfg : Hook Shards) in
  fd_agree fd_limit (hk_dma h) (records h) ∧ tracker_reachable cfg (quiescent (hk_tracker h)).
Proof.
  intros Htrack Hlen Hok Hfits h. pose proof (hook_start_inv (T := Shards) cfg) as Hi.
  assert (stack_indices (hook_start cfg : Hook Shards) = 2) as Hn by done.
  destruct (run_calls_agree cfg fd_limit Htrack calls (hook_start cfg : Hook Shards) Hi ltac:(lia) Hok Hfits)
    as [Ha Hs].
  { rewrite hook_start_records. by split. }
  split; [exact Ha|]. eapply rtc_subrel; [|exact Hs]. by constructor.
Qed.

Lemma descriptors_counted_once_witness :
  let h := run_calls demo_cfg true demo_dma_program (hook_start demo_cfg : Hook Shards) in
  fd_agree 65536 (hk_dma h) (records h) ∧ records h !! 7 = Some (16384, DMA) ∧ records h !! 8 = None.
Proof.
  destruct (descriptors_counted_once demo_cfg 65536 demo_dma_program ltac:(vm_compute; reflexivity)
    ltac:(vm_compute; reflexivity) demo_dma_ok demo_dma_fits) as [Ha _].
  split; [exact Ha|]. split; vm_compute; reflexivity.
Defined.

(** C38. The hook is transparent to the program.  Whatever the tracker's state,
    a call makes at most one system call, the one the program asked for
    ([realloc] from null is [malloc], to zero is [free]), and returns its
    result; the only exceptions are the requests refused up front: above
    [MaxSize], overflowing [calloc], a bad alignment.  Inside the hook itself
    nothing is refused. *)
Theorem calls_are_transparent (cfg : Config) (dma_capture : bool) (c : ProgramCall) (h : Hook Shards) :
  TrackPointers cfg = true →
  (run_call cfg dma_capture c h).1 =
    if call_disabled c then system_outcome (call_of c)
    else default (system_outcome (normalise (call_of c))) (refusal (call_of c)).
Proof.
  intros Htrack. destruct c as [dis ce c]. unfold run_call. cbn [call_disabled call_env call_of].
  destruct c; cbn [system_outcome normalise refusal];
    unfold debug_malloc, debug_free, debug_realloc, debug_calloc, debug_memalign, debug_aligned_alloc,
      debug_posix_memalign, debug_mmap, debug_mmap64, mmap_with, debug_munmap, debug_mremap, debug_ioctl,
      debug_close, debug_close_with, track_allocation, InternalMalloc, InternalFree;
    rewrite ?(ShouldTrackAllocation_on cfg Htrack); destruct dis; try done; cbn [orb].
  all: repeat (case_match; try done).
  all: simplify_eq; rewrite ?realloc_outcome; try done. unfold MaxSize in *. lia.
Qed.

Lemma calls_are_transparent_witness :
  let c := demo_call (CallMalloc (2 ^ 31) 12288) in
  (run_call demo_cfg true c (hook_start demo_cfg : Hook Shards)).1 = mkOut nullptr (Some ENOMEM) [].
Proof.
  exact (calls_are_transparent demo_cfg true (demo_call (CallMalloc (2 ^ 31) 12288))
    (hook_start demo_cfg : Hook Shards) ltac:(vm_compute; reflexivity)).
Defined.
