(* ===== verification/AsyncStack.v ===== *)
(** * Modules and symbols of captured stacks

    The passive parts of backtrace/src/AsyncStackPipeline.cpp and its header:
    the program headers of a loaded object and its build id
    ([CollectLoadedModule]), the registry of module snapshots
    ([ModuleRegistry], [NativeModuleResolver]) behind the interface
    [ModuleResolver], the native symbolizer behind [Symbolizer], and the keys
    stacks are deduplicated by.  What the loader reports ([dl_iterate_phdr],
    [dladdr]) and the bytes of the process are arguments. *)
From S2P Require Import Prelude Capture.

Module StackResolutionState.
Inductive t := Pending | Resolved | Dropped | Failed.
#[global] Instance eq_dec : EqDecision t.
Proof. solve_decision. Defined.
End StackResolutionState.

Record ModuleInfo := mkModuleInfo {
  mi_generation : Z;
  mi_start : Z;
  mi_end : Z;
  mi_load_bias : Z;
  mi_name : string;
  mi_build_id : string;
}.
#[global] Instance ModuleInfo_upd : Updatable ModuleInfo := λ m,
  mkModuleInfo (mi_generation m) (mi_start m) (mi_end m) (mi_load_bias m) (mi_name m) (mi_build_id m).
Definition module_init : ModuleInfo := mkModuleInfo 0 0 0 0 EmptyString EmptyString.

(** ** Loaded objects *)

(** [ElfW(Phdr)] and [dl_phdr_info], the fields the code reads. *)
Record Phdr := mkPhdr { p_type : Z; p_vaddr : Z; p_memsz : Z }.
Record dl_phdr_info := mkPhdrInfo { dlpi_addr : Z; dlpi_name : option string; dlpi_phdr : list Phdr }.

Definition PT_LOAD : Z := 1.
Definition PT_NOTE : Z := 4.
Definition NT_GNU_BUILD_ID : Z := 3.
Definition sizeof_Nhdr : Z := 12.

(** [None]: the sum does not fit an address. *)
Definition CheckedAddOffset (base offset : Z) : option Z :=
  let remaining := UINTPTR_MAX - base in
  if offset >? remaining then None else Some (base + offset).

(** The addresses the loaded segments span, from [start] and [end_] on. *)
Fixpoint load_span (addr : Z) (phdrs : list Phdr) (start end_ : Z) : Z * Z :=
  match phdrs with
  | [] => (start, end_)
  | header :: phdrs =>
      if negb (p_type header =? PT_LOAD) then load_span addr phdrs start end_
      else
        match CheckedAddOffset addr (p_vaddr header) with
        | None => load_span addr phdrs start end_
        | Some segment_start =>
            match CheckedAddOffset segment_start (p_memsz header) with
            | None => load_span addr phdrs start end_
            | Some segment_end =>
                load_span addr phdrs (Z.min start segment_start) (Z.max end_ segment_end)
            end
        end
  end.

(** [kHex[byte >> 4]], [kHex[byte & 0xf]]. *)
Definition kHex (digit : Z) : ascii :=
  nth (Z.to_nat digit)
    ["0"%char; "1"%char; "2"%char; "3"%char; "4"%char; "5"%char; "6"%char; "7"%char;
     "8"%char; "9"%char; "a"%char; "b"%char; "c"%char; "d"%char; "e"%char; "f"%char] "0"%char.
Fixpoint hex_string (bytes : list Z) : string :=
  match bytes with
  | [] => EmptyString
  | b :: bytes => String (kHex (Z.shiftr b 4)) (String (kHex (Z.land b 15)) (hex_string bytes))
  end.

(** A 32-bit field in the byte order of the processor. *)
Definition le32 (bytes : list Z) : Z :=
  match bytes with
  | [a; b; c; d] => a + 256 * (b + 256 * (c + 256 * d))
  | _ => 0
  end.
(** [(n + 3U) & ~size_t(3U)] *)
Definition align4 (n : Z) : Z := Z.land (n + 3) (Z.lnot 3).

Section notes.
(** The bytes of the process; [None] where nothing is mapped. *)
Variable mem : Z → option Z.

Definition load_bytes (addr : Z) (n : nat) : option (list Z) :=
  mapM (λ i : nat, mem (addr + Z.of_nat i)) (seq 0 n).

(** The name is GNU and the note is a build id. *)
Definition is_build_id (name n_type n_namesz : Z) : option bool :=
  if (n_type =? NT_GNU_BUILD_ID) && (3 <=? n_namesz)
  then gnu ← load_bytes name 3; Some (bool_decide (gnu = [71; 78; 85]))
  else Some false.

(** The loop over the notes of one segment of [memsz] bytes at [begin];
    [cursor] is an offset into it.  [None]: a byte that is not mapped was read. *)
Fixpoint scan_notes (fuel : nat) (begin memsz cursor : Z) : option string :=
  match fuel with
  | O => Some EmptyString
  | S fuel =>
      if negb (cursor + sizeof_Nhdr <=? memsz) then Some EmptyString
      else
        n_namesz ← le32 <$> load_bytes (begin + cursor) 4;
        n_descsz ← le32 <$> load_bytes (begin + cursor + 4) 4;
        n_type ← le32 <$> load_bytes (begin + cursor + 8) 4;
        let cursor := cursor + sizeof_Nhdr in
        let name_size := align4 n_namesz in
        let desc_size := align4 n_descsz in
        if (name_size >? memsz - cursor) || (desc_size >? memsz - cursor - name_size)
        then Some EmptyString
        else
          found ← is_build_id (begin + cursor) n_type n_namesz;
          if found : bool
          then hex_string <$> load_bytes (begin + cursor + name_size) (Z.to_nat n_descsz)
          else scan_notes fuel begin memsz (cursor + name_size + desc_size)
  end.
(** Every turn moves at least past a header. *)
Definition note_fuel (memsz : Z) : nat := S (Z.to_nat (memsz / sizeof_Nhdr)).

(** The loop over the segments, until one has a build id. *)
Fixpoint find_build_id (load_bias : Z) (phdrs : list Phdr) : option string :=
  match phdrs with
  | [] => Some EmptyString
  | header :: phdrs =>
      if negb (p_type header =? PT_NOTE) || (p_memsz header <? sizeof_Nhdr)
      then find_build_id load_bias phdrs
      else
        build_id ← scan_notes (note_fuel (p_memsz header)) (load_bias ⊞ p_vaddr header) (p_memsz header) 0;
        if bool_decide (build_id = EmptyString) then find_build_id load_bias phdrs else Some build_id
  end.

Definition CollectLoadedModule (info : dl_phdr_info) (modules : list ModuleInfo) : option (list ModuleInfo) :=
  let load_bias := dlpi_addr info in
  let '(start, end_) := load_span (dlpi_addr info) (dlpi_phdr info) UINTPTR_MAX 0 in
  if start <? end_ then
    build_id ← find_build_id load_bias (dlpi_phdr info);
    Some (modules ++ [mkModuleInfo 0 start end_ load_bias (default EmptyString (dlpi_name info)) build_id])
  else Some modules.

(** [dl_iterate_phdr(CollectLoadedModule, &modules)] *)
Fixpoint collect_modules (loaded : list dl_phdr_info) (modules : list ModuleInfo) : option (list ModuleInfo) :=
  match loaded with
  | [] => Some modules
  | info :: loaded => modules ← CollectLoadedModule info modules; collect_modules loaded modules
  end.
End notes.

(** What the process looks like at a call: its bytes and its loaded objects. *)
Record Loader := mkLoader { ld_mem : Z → option Z; ld_objects : list dl_phdr_info }.

(** ** The interface of resolvers *)

Class ModuleResolver (R : Type) := {
  CurrentGeneration : R → Z;
  (** [Resolve(pc, generation, &module)] *)
  ResolveModule : R → Z → Z → option ModuleInfo;
  (** [None]: the refresh read memory that is not mapped. *)
  RefreshIfSupported : Loader → R → option R;
}.

(** What a resolver promises its clients: a module it returns contains the
    program counter, and refreshing never changes what an existing generation
    resolves to, other than forgetting it.  A refresh can succeed. *)
Definition resolver_le `{ModuleResolver R} (r r' : R) : Prop :=
  CurrentGeneration r ≤ CurrentGeneration r' ∧
  ∀ pc g m, g ≤ CurrentGeneration r → ResolveModule r' pc g = Some m → ResolveModule r pc g = Some m.
Class ResolverLaws (R : Type) `{ModuleResolver R} (ok : R → Prop) := {
  resolve_contains r pc g m : ok r → ResolveModule r pc g = Some m → mi_start m ≤ pc < mi_end m;
  refresh_ok l r r' : ok r → CurrentGeneration r < 2 ^ 64 - 1 → RefreshIfSupported l r = Some r' → ok r';
  refresh_le l r r' : ok r → CurrentGeneration r < 2 ^ 64 - 1 → RefreshIfSupported l r = Some r' → resolver_le r r';
  refresh_exists r : ok r → ∃ l r', RefreshIfSupported l r = Some r';
}.

(** ** The registry *)

Record ModuleRegistry := mkRegistry {
  max_retained_generations_ : Z;
  generation_ : Z;
  snapshots_ : gmap Z (list ModuleInfo);
}.
#[global] Instance ModuleRegistry_upd : Updatable ModuleRegistry := λ r,
  mkRegistry (max_retained_generations_ r) (generation_ r) (snapshots_ r).

Definition ModuleRegistry_new (max_retained_generations : Z) : ModuleRegistry :=
  mkRegistry (Z.max max_retained_generations 1) 1 {[1 := []]}.

Definition same_module (a b : ModuleInfo) : bool :=
  (mi_start a =? mi_start b) && (mi_end a =? mi_end b) && (mi_load_bias a =? mi_load_bias b) &&
  bool_decide (mi_name a = mi_name b) && bool_decide (mi_build_id a = mi_build_id b).
Fixpoint Equivalent (lhs rhs : list ModuleInfo) : bool :=
  match lhs, rhs with
  | [], [] => true
  | a :: lhs, b :: rhs => same_module a b && Equivalent lhs rhs
  | _, _ => false
  end.

(** The smallest generation that is still retained. *)
Definition oldest_generation (snapshots : gmap Z (list ModuleInfo)) : option Z :=
  map_fold (λ g _ oldest, match oldest with Some o => Some (Z.min g o) | None => Some g end) None snapshots.
(** Every turn of the loop erases one snapshot. *)
Fixpoint evict_oldest (fuel : nat) (max : Z) (snapshots : gmap Z (list ModuleInfo)) : gmap Z (list ModuleInfo) :=
  match fuel with
  | O => snapshots
  | S fuel =>
      if Z.of_nat (size snapshots) >? max then
        match oldest_generation snapshots with
        | Some oldest => evict_oldest fuel max (delete oldest snapshots)
        | None => snapshots
        end
      else snapshots
  end.

Definition Publish (modules : list ModuleInfo) (r : ModuleRegistry) : Z * ModuleRegistry :=
  let current := snapshots_ r !! generation_ r in
  if from_option (λ snapshot, Equivalent snapshot modules) false current then (generation_ r, r)
  else
    let generation := generation_ r ⊞ 1 in
    let modules := (λ m : ModuleInfo, m <| mi_generation := generation |>) <$> modules in
    let snapshots := <[generation := modules]> (snapshots_ r) in
    (generation, r <| generation_ := generation |>
                   <| snapshots_ := evict_oldest (size snapshots) (max_retained_generations_ r) snapshots |>).

Definition SnapshotCount (r : ModuleRegistry) : Z := Z.of_nat (size (snapshots_ r)).

(** The first module of a snapshot that contains [pc]. *)
Definition contains_pc (pc : Z) (m : ModuleInfo) : bool := (mi_start m <=? pc) && (pc <? mi_end m).
Fixpoint find_module (pc : Z) (snapshot : list ModuleInfo) : option ModuleInfo :=
  match snapshot with
  | [] => None
  | candidate :: snapshot => if contains_pc pc candidate then Some candidate else find_module pc snapshot
  end.
Definition ModuleRegistry_Resolve (r : ModuleRegistry) (pc generation : Z) : option ModuleInfo :=
  snapshot ← snapshots_ r !! generation; find_module pc snapshot.

#[global] Instance ModuleRegistry_resolver : ModuleResolver ModuleRegistry := {
  CurrentGeneration := generation_;
  ResolveModule := ModuleRegistry_Resolve;
  RefreshIfSupported := λ _ r, Some r;
}.

(** [NativeModuleResolver] is a registry that a refresh publishes to. *)
Record NativeModuleResolver := mkNative { registry_ : ModuleRegistry }.
Definition Refresh (l : Loader) (n : NativeModuleResolver) : option (Z * NativeModuleResolver) :=
  modules ← collect_modules (ld_mem l) (ld_objects l) [];
  let '(generation, registry) := Publish modules (registry_ n) in
  Some (generation, mkNative registry).
Definition NativeModuleResolver_new (l : Loader) : option NativeModuleResolver :=
  snd <$> Refresh l (mkNative (ModuleRegistry_new 64)).
#[global] Instance NativeModuleResolver_resolver : ModuleResolver NativeModuleResolver := {
  CurrentGeneration := λ n, generation_ (registry_ n);
  ResolveModule := λ n, ModuleRegistry_Resolve (registry_ n);
  RefreshIfSupported := λ l n, snd <$> Refresh l n;
}.

(** ** Symbolizers *)

(** [Dl_info]; [dladdr] gives [None] when it returns zero. *)
Record Dl_info := mkDlInfo {
  dli_fname : option string;
  dli_fbase : Z;
  dli_sname : option string;
  dli_saddr : Z;
}.
Definition Dladdr : Type := Z → option Dl_info.

(** The result of [Symbolize] and the frames it leaves. *)
Class Symbolizer := Symbolize : Dladdr → RawStackRecord → list ModuleInfo → bool * list SymbolizedFrame.

Section symbolize.
Variable platform : Platform.

Definition module_frame (pc call_site : Z) (module : option ModuleInfo) : SymbolizedFrame :=
  let frame := frame_init <| sf_pc := pc |> in
  match module with
  | Some m =>
      frame <| sf_module_generation := mi_generation m |> <| sf_module_start := mi_start m |>
            <| sf_module_name := mi_name m |> <| sf_build_id := mi_build_id m |>
            <| sf_rel_pc := if mi_load_bias m =? 0 then call_site
                            else if mi_load_bias m <=? call_site then call_site - mi_load_bias m
                            else call_site |>
  | None => frame <| sf_rel_pc := call_site |>
  end.

(** The symbol is used only when [dladdr] names the module of the snapshot. *)
Definition same_object (module : option ModuleInfo) (info : Dl_info) : bool :=
  match module with
  | None => false
  | Some m =>
      (dli_fbase info =? mi_load_bias m) &&
      (bool_decide (mi_name m = EmptyString) ||
       from_option (λ fname, bool_decide (mi_name m = fname)) true (dli_fname info))
  end.
Definition symbolize_frame (dladdr : Dladdr) (pc : Z) (module : option ModuleInfo) : SymbolizedFrame :=
  let call_site := CallSitePcFromReturnAddress platform pc in
  let frame := module_frame pc call_site module in
  match dladdr call_site with
  | Some info =>
      match dli_sname info with
      | Some sname =>
          if same_object module info
          then frame <| sf_function_name := sname |>
                     <| sf_function_offset := if dli_saddr info <=? call_site then call_site - dli_saddr info else 0 |>
          else frame
      | None => frame
      end
  | None => frame
  end.

(** [raw_frames] are the defined program counters of the record. *)
Definition raw_pcs (raw : RawStackRecord) : list Z := take (Z.to_nat (frame_count raw)) (pcs raw).
Definition native_symbolize (dladdr : Dladdr) (raw : RawStackRecord) (modules : list ModuleInfo) :
    bool * list SymbolizedFrame :=
  let frames := imap (λ i pc, symbolize_frame dladdr pc (modules !! i)) (raw_pcs raw) in
  (negb (bool_decide (frames = [])), frames).
Definition NativeSymbolizer : Symbolizer := native_symbolize.
End symbolize.

(** ** Keys *)

(** The frame count, the generation, and the program counters up to the count;
    the rest of the array is zero and never compared. *)
Record RawStackKey := mkKey { key_frame_count : Z; key_module_generation : Z; key_pcs : list Z }.
#[global] Instance RawStackKey_eq_dec : EqDecision RawStackKey.
Proof. solve_decision. Defined.
#[global] Instance RawStackKey_countable : Countable RawStackKey.
Proof.
  refine (inj_countable' (λ k, (key_frame_count k, key_module_generation k, key_pcs k))
            (λ t, mkKey t.1.1 t.1.2 t.2) _).
  by intros [].
Defined.

(** [operator==] *)
Definition key_eqb (a b : RawStackKey) : bool :=
  (key_frame_count a =? key_frame_count b) && (key_module_generation a =? key_module_generation b) &&
  forallb (λ i, bool_decide (nth i (key_pcs a) 0 = nth i (key_pcs b) 0)) (seq 0 (Z.to_nat (key_frame_count a))).

Definition HashPc (seed pc : Z) : Z :=
  Z.lxor seed (pc ⊞ 0x9e3779b97f4a7c15 ⊞ u64 (Z.shiftl seed 6) ⊞ Z.shiftr seed 2).
Definition RawStackKeyHash (key : RawStackKey) : Z :=
  let value := HashPc (key_frame_count key) (key_module_generation key) in
  let count := Z.min (key_frame_count key) 8 in
  foldl (λ value i, HashPc value (nth i (key_pcs key) 0)) value (seq 0 (Z.to_nat count)).

Definition clamp_frames (raw : RawStackRecord) : RawStackRecord :=
  raw <| frame_count := Z.min (frame_count raw) kMaxAsyncRawFrames |>.
Definition MakeKey (raw : RawStackRecord) : RawStackKey :=
  let frame_count := Z.min (frame_count raw) kMaxAsyncRawFrames in
  mkKey frame_count (module_generation raw) (take (Z.to_nat frame_count) (pcs raw)).

(** ** Facts about keys *)

Lemma MakeKey_clamp raw : MakeKey (clamp_frames raw) = MakeKey raw.
Proof. unfold MakeKey, clamp_frames. cbn. by rewrite <-Z.min_assoc, Z.min_id. Qed.

Lemma forallb_nth_eq (l l' : list Z) n :
  length l = n → length l' = n →
  forallb (λ i, bool_decide (nth i l 0 = nth i l' 0)) (seq 0 n) = true → l = l'.
Proof.
  intros Hl Hl' Hall. apply (nth_ext l l' 0 0); [congruence|]. intros i Hi.
  apply forallb_forall with (x := i) in Hall; [by bool_hyps|]. apply in_seq. lia.
Qed.

(** On the keys [MakeKey] builds, [operator==] is equality, which the maps of
    the model compare with, and equal keys have equal hashes. *)
Definition key_wf (k : RawStackKey) : Prop := Z.of_nat (length (key_pcs k)) = key_frame_count k.
Lemma MakeKey_wf raw : 0 ≤ frame_count raw ≤ Z.of_nat (length (pcs raw)) → key_wf (MakeKey raw).
Proof. intros ?. unfold key_wf, MakeKey, kMaxAsyncRawFrames. cbn. rewrite length_take. lia. Qed.
Lemma key_eqb_eq a b : key_wf a → key_wf b → key_eqb a b = true ↔ a = b.
Proof.
  unfold key_wf, key_eqb. intros Ha Hb. split.
  - intros E. bool_hyps. destruct a as [fa ga pa], b as [fb gb pb]; cbn in *. subst gb.
    assert (pa = pb) as -> by (eapply forallb_nth_eq; [..|done]; lia). congruence.
  - intros ->. rewrite !Z.eqb_refl. cbn. apply forallb_forall. intros i _. by apply bool_decide_eq_true.
Qed.

(** ** Facts about the registry *)

Lemma oldest_generation_spec m :
  match oldest_generation m with
  | Some o => is_Some (m !! o) ∧ ∀ g, is_Some (m !! g) → o ≤ g
  | None => m = ∅
  end.
Proof.
  unfold oldest_generation.
  apply (map_fold_weak_ind (λ r m, match r with
    | Some o => is_Some (m !! o) ∧ ∀ g, is_Some (m !! g) → o ≤ g
    | None => m = ∅ end)); [done|].
  intros g x n [o|] Hg IH.
  - destruct IH as [Ho Hmin]. split.
    + destruct (Z.min_spec g o) as [[_ ->]|[_ ->]]; [by rewrite lookup_insert_eq|].
      destruct (decide (g = o)) as [->|]; [by rewrite lookup_insert_eq|by rewrite lookup_insert_ne].
    + intros g' Hg'. destruct (decide (g = g')) as [->|]; [lia|].
      rewrite lookup_insert_ne in Hg' by done. specialize (Hmin g' Hg'). lia.
  - subst n. split; [by rewrite lookup_insert_eq|]. intros g' Hg'.
    destruct (decide (g = g')) as [->|]; [lia|].
    rewrite lookup_insert_ne, lookup_empty in Hg' by done. by destruct Hg'.
Qed.

(** A map with the keys of an interval. *)
Lemma interval_size {A} (m : gmap Z A) lo hi :
  lo ≤ hi + 1 → (∀ g, is_Some (m !! g) ↔ lo ≤ g ≤ hi) → Z.of_nat (size m) = hi - lo + 1.
Proof.
  intros Hle Hdom.
  assert (dom m = list_to_set (C := gset Z) (seqZ lo (hi - lo + 1))) as E.
  { apply set_eq. intros g. rewrite elem_of_dom, elem_of_list_to_set, elem_of_seqZ, Hdom. lia. }
  rewrite <-size_dom, E, size_list_to_set by apply NoDup_seqZ. rewrite length_seqZ. lia.
Qed.

Lemma evict_oldest_interval fuel m max lo hi :
  0 < max → lo ≤ hi → hi - lo + 1 ≤ max + 1 → (∀ g, is_Some (m !! g) ↔ lo ≤ g ≤ hi) → (0 < fuel)%nat →
  evict_oldest fuel max m = if hi - lo + 1 >? max then delete lo m else m.
Proof.
  intros Hmax Hlo Hn Hdom Hf. destruct fuel as [|fuel]; [lia|]. cbn [evict_oldest].
  rewrite (interval_size m lo hi) by (done || lia).
  destruct (hi - lo + 1 >? max) eqn:E; [|done].
  pose proof (oldest_generation_spec m) as Ho. destruct (oldest_generation m) as [o|].
  - destruct Ho as [Ho Hmin]. apply Hdom in Ho. assert (is_Some (m !! lo)) as Hl by (apply Hdom; lia).
    apply Hmin in Hl. assert (o = lo) as -> by lia. destruct fuel as [|fuel]; [done|]. cbn [evict_oldest].
    assert (Z.of_nat (size (delete lo m)) = hi - (lo + 1) + 1) as Hs.
    { apply interval_size; [lia|]. intros g. rewrite lookup_delete_is_Some, Hdom. lia. }
    rewrite Hs. destruct (hi - (lo + 1) + 1 >? max) eqn:E'; [|done]. rewrite Z.gtb_ltb in E'. bool_hyps. lia.
  - subst m. destruct (proj2 (Hdom lo)) as [x Hx]; [lia|]. by rewrite lookup_empty in Hx.
Qed.

(** The registry without a bound: the module lists it was given, one per
    generation, the first empty. *)
Definition stamp (g : Z) (modules : list ModuleInfo) : list ModuleInfo :=
  (λ m : ModuleInfo, m <| mi_generation := g |>) <$> modules.
Definition publish_history (history : list (list ModuleInfo)) (modules : list ModuleInfo) : list (list ModuleInfo) :=
  if from_option (λ snapshot, Equivalent snapshot modules) false (last history) then history
  else history ++ [stamp (Z.of_nat (length history) + 1) modules].

(** Generation [g] is the [g]-th list of the history, for the most recent
    [max_retained_generations_] of them. *)
Definition retained (max : Z) (history : list (list ModuleInfo)) (g : Z) : option (list ModuleInfo) :=
  if bool_decide (1 ≤ g ∧ Z.of_nat (length history) - max < g)
  then history !! Z.to_nat (g - 1) else None.
Definition registry_rep (r : ModuleRegistry) (history : list (list ModuleInfo)) : Prop :=
  0 < max_retained_generations_ r ∧ 0 < Z.of_nat (length history) < 2 ^ 64 ∧
  generation_ r = Z.of_nat (length history) ∧
  ∀ g, snapshots_ r !! g = retained (max_retained_generations_ r) history g.

Lemma registry_rep_new n : registry_rep (ModuleRegistry_new n) [[]].
Proof.
  unfold registry_rep, ModuleRegistry_new, retained. cbn. split; [lia|]. split; [lia|]. split; [done|]. intros g.
  case_bool_decide as Hg.
  - destruct (decide (g = 1)) as [->|]; [done|]. rewrite lookup_singleton_ne by done.
    symmetry. apply lookup_ge_None. cbn. lia.
  - rewrite lookup_singleton_ne; [done|]. intros <-. lia.
Qed.

Lemma retained_is_Some max history g :
  is_Some (retained max history g) ↔ 1 ≤ g ∧ Z.of_nat (length history) - max < g ≤ Z.of_nat (length history).
Proof.
  unfold retained. case_bool_decide as Hg.
  - rewrite lookup_lt_is_Some. lia.
  - split; [by intros []|lia].
Qed.

Lemma retained_last max history :
  0 < max → 0 < Z.of_nat (length history) → retained max history (Z.of_nat (length history)) = last history.
Proof.
  intros. unfold retained. rewrite bool_decide_true by lia. rewrite last_lookup. f_equal. lia.
Qed.

Lemma retained_snoc max history x g :
  0 < max →
  retained max (history ++ [x]) g =
    if g =? Z.of_nat (length history) + 1 then Some x
    else if g =? Z.of_nat (length history) + 1 - max then None
    else retained max history g.
Proof.
  intros Hmax. unfold retained. rewrite length_app. cbn [length].
  destruct (Z.eqb_spec g (Z.of_nat (length history) + 1)) as [->|Hg].
  - rewrite bool_decide_true by lia. rewrite lookup_app_r by lia.
    by replace (Z.to_nat _ - length history)%nat with 0%nat by lia.
  - destruct (Z.eqb_spec g (Z.of_nat (length history) + 1 - max)) as [->|Hg'].
    + rewrite bool_decide_false by lia. done.
    + case_bool_decide as H1; case_bool_decide as H2; try lia; [|done].
      destruct (decide (Z.to_nat (g - 1) < length history)%nat).
      * by rewrite lookup_app_l.
      * rewrite !(proj2 (lookup_ge_None _ _)); [done| |rewrite length_app; cbn]; lia.
Qed.

Lemma Publish_rep modules r history :
  registry_rep r history → generation_ r < 2 ^ 64 - 1 →
  registry_rep (snd (Publish modules r)) (publish_history history modules) ∧
  fst (Publish modules r) = Z.of_nat (length (publish_history history modules)).
Proof.
  intros Hr Hbound. pose proof Hr as (Hmax & Hlen & Hgen & Hsnap). unfold Publish, publish_history.
  rewrite Hsnap, Hgen, retained_last by lia.
  destruct (from_option _ false (last history)) eqn:E; [done|].
  rewrite u64_small by lia. cbn [fst snd]. unfold stamp.
  set (x := _ <$> modules). rewrite length_app. cbn [length]. split; [|lia].
  set (n := Z.of_nat (length history)) in *. unfold registry_rep. cbn. rewrite length_app. cbn [length].
  split; [done|]. split; [lia|]. split; [lia|]. intros g.
  set (max := max_retained_generations_ r) in *.
  assert (∀ g, is_Some (<[n + 1 := x]> (snapshots_ r) !! g) ↔ Z.max 1 (n - max + 1) ≤ g ≤ n + 1) as Hdom.
  { intros g'. rewrite lookup_insert_is_Some, Hsnap, retained_is_Some. fold n. lia. }
  assert (size (<[n + 1 := x]> (snapshots_ r)) ≠ 0%nat) as Hsz.
  { assert (Z.max 1 (n - max + 1) ≤ n + 1 + 1) as Hle by lia.
    pose proof (interval_size _ _ _ Hle Hdom). lia. }
  rewrite (evict_oldest_interval _ _ max (Z.max 1 (n - max + 1)) (n + 1)) by (done || lia).
  rewrite retained_snoc by done. fold n.
  destruct (n + 1 - Z.max 1 (n - max + 1) + 1 >? max) eqn:Ev; rewrite Z.gtb_ltb in Ev; bool_hyps.
  - destruct (Z.eqb_spec g (n + 1)) as [->|Hg]; [rewrite lookup_delete_ne, lookup_insert_eq by lia; done|].
    destruct (Z.eqb_spec g (n + 1 - max)) as [->|Hg'].
    + replace (n + 1 - max) with (Z.max 1 (n - max + 1)) by lia. by rewrite lookup_delete_eq.
    + rewrite lookup_delete_ne, lookup_insert_ne by lia. apply Hsnap.
  - destruct (Z.eqb_spec g (n + 1)) as [->|Hg]; [by rewrite lookup_insert_eq|].
    rewrite lookup_insert_ne, Hsnap by lia.
    destruct (Z.eqb_spec g (n + 1 - max)) as [->|Hg']; [|done].
    apply eq_None_not_Some. rewrite retained_is_Some. fold n. lia.
Qed.

Lemma publish_history_length history modules :
  (length history ≤ length (publish_history history modules) ≤ S (length history))%nat.
Proof. unfold publish_history. destruct (from_option _ _ _); [lia|]. rewrite length_app. cbn. lia. Qed.

Lemma publish_history_prefix history modules : history `prefix_of` publish_history history modules.
Proof. unfold publish_history. destruct (from_option _ _ _); [done|by eexists]. Qed.

Lemma registry_rep_history published : ∀ r history,
  registry_rep r history → Z.of_nat (length history + length published) < 2 ^ 64 →
  registry_rep (foldl (λ r modules, snd (Publish modules r)) r published) (foldl publish_history history published).
Proof.
  induction published as [|modules published IH]; intros r history Hr Hb; cbn in *; [done|].
  apply IH; [|pose proof (publish_history_length history modules); lia].
  apply Publish_rep; [done|]. destruct Hr as (_ & _ & -> & _). lia.
Qed.

Lemma find_module_spec pc snapshot m : find_module pc snapshot = Some m → m ∈ snapshot ∧ mi_start m ≤ pc < mi_end m.
Proof.
  induction snapshot as [|c snapshot IH]; cbn; [done|]. destruct (contains_pc pc c) eqn:E.
  - intros [= <-]. unfold contains_pc in E. bool_hyps. split; [left|done].
  - intros H. destruct (IH H). split; [by right|done].
Qed.

(** C23. The registry is the history of the module lists it was given, cut to
    the most recent generations.  Whatever lists are published, resolving a
    program counter in a generation searches exactly the list published as that
    generation, when it is one of the last [max_retained_generations_], and
    fails otherwise; a newer list that occupies the same addresses is never
    used. *)
Theorem registry_refines_history max published :
  Z.of_nat (length published) < 2 ^ 64 - 1 →
  let r := foldl (λ r modules, snd (Publish modules r)) (ModuleRegistry_new max) published in
  let history := foldl publish_history [[]] published in
  generation_ r = Z.of_nat (length history) ∧
  SnapshotCount r = Z.min (Z.of_nat (length history)) (Z.max max 1) ∧
  ∀ pc g, ModuleRegistry_Resolve r pc g =
    snapshot ← retained (Z.max max 1) history g; find_module pc snapshot.
Proof.
  intros Hb r history.
  assert (max_retained_generations_ r = Z.max max 1) as Hm.
  { unfold r. change (Z.max max 1) with (max_retained_generations_ (ModuleRegistry_new max)).
    generalize (ModuleRegistry_new max). clear. induction published as [|p l IH]; intros r; cbn; [done|].
    rewrite IH. unfold Publish. by destruct (from_option _ _ _). }
  destruct (registry_rep_history published (ModuleRegistry_new max) [[]]) as (H1 & H2 & H3 & H4);
    [apply registry_rep_new|cbn; lia|]. fold r history in H1, H2, H3, H4. rewrite Hm in *.
  split; [done|]. split.
  - unfold SnapshotCount. set (n := Z.of_nat (length history)) in *.
    rewrite (interval_size _ (Z.max 1 (n - Z.max max 1 + 1)) n); [lia|lia|].
    intros g. rewrite H4, retained_is_Some. fold n. lia.
  - intros pc g. unfold ModuleRegistry_Resolve. by rewrite H4.
Qed.

Definition example_module (start end_ : Z) (name : string) : ModuleInfo :=
  mkModuleInfo 0 start end_ start name EmptyString.
Lemma registry_refines_history_witness :
  let a := example_module 4096 8192 "a" in
  let b := example_module 4096 8192 "b" in
  let r := foldl (λ r modules, snd (Publish modules r)) (ModuleRegistry_new 2) [[a]; [a]; [b]] in
  ModuleRegistry_Resolve r 5000 2 = Some (a <| mi_generation := 2 |>) ∧
  ModuleRegistry_Resolve r 5000 3 = Some (b <| mi_generation := 3 |>) ∧ ModuleRegistry_Resolve r 5000 1 = None.
Proof.
  cbv zeta. pose proof (registry_refines_history 2
    [[example_module 4096 8192 "a"]; [example_module 4096 8192 "a"]; [example_module 4096 8192 "b"]] ltac:(cbn; lia))
    as (_ & _ & H). cbv zeta in H. by rewrite !H.
Defined.

(** ** The interface is implemented *)

Lemma retained_stable max history modules pc g m :
  0 < max → g ≤ Z.of_nat (length history) →
  (snapshot ← retained max (publish_history history modules) g; find_module pc snapshot) = Some m →
  (snapshot ← retained max history g; find_module pc snapshot) = Some m.
Proof.
  intros Hmax Hg. unfold publish_history. destruct (from_option _ _ _); [done|].
  rewrite retained_snoc by done. destruct (Z.eqb_spec g (Z.of_nat (length history) + 1)); [lia|].
  by destruct (_ =? _).
Qed.

Lemma Publish_le modules (r : ModuleRegistry) history :
  registry_rep r history → generation_ r < 2 ^ 64 - 1 → resolver_le r (snd (Publish modules r)).
Proof.
  intros Hr Hb. destruct (Publish_rep modules r history Hr Hb) as [Hr' _].
  pose proof Hr as (Hm & _ & Hg & Hs). pose proof Hr' as (Hm' & _ & Hg' & Hs').
  assert (max_retained_generations_ (snd (Publish modules r)) = max_retained_generations_ r) as E
    by (unfold Publish; by destruct (from_option _ _ _)).
  split; cbn.
  - rewrite Hg, Hg'. pose proof (publish_history_length history modules). lia.
  - intros pc g m Hle. unfold ModuleRegistry_Resolve. rewrite Hs, Hs', E. apply retained_stable; lia.
Qed.

#[global] Instance ModuleRegistry_laws : ResolverLaws ModuleRegistry (λ r, ∃ history, registry_rep r history).
Proof.
  split; cbn.
  - intros r pc g m _. unfold ModuleRegistry_Resolve. intros (s & _ & H)%bind_Some. by apply find_module_spec in H as [_ ?].
  - intros l r r' Hr _ [= <-]. done.
  - intros l r r' _ _ [= <-]. split; [lia|done].
  - intros r _. by exists (mkLoader (λ _, None) []), r.
Qed.

#[global] Instance NativeModuleResolver_laws :
  ResolverLaws NativeModuleResolver (λ n, ∃ history, registry_rep (registry_ n) history).
Proof.
  split; cbn.
  - intros r pc g m _. unfold ModuleRegistry_Resolve. intros (s & _ & H)%bind_Some. by apply find_module_spec in H as [_ ?].
  - intros l n n' [history Hr] Hb. unfold Refresh. destruct (collect_modules _ _ _) as [modules|]; cbn; [|done].
    destruct (Publish_rep modules _ _ Hr Hb) as [Hr' _]. destruct (Publish modules (registry_ n)). intros [= <-]. by eexists.
  - intros l n n' [history Hr] Hb. unfold Refresh. destruct (collect_modules _ _ _) as [modules|]; cbn; [|done].
    pose proof (Publish_le modules _ _ Hr Hb) as Hle. destruct (Publish modules (registry_ n)). intros [= <-]. exact Hle.
  - intros n _. exists (mkLoader (λ _, None) []). unfold Refresh. cbn. destruct (Publish [] (registry_ n)). by eexists.
Qed.

Lemma resolver_le_refl `{ModuleResolver R} (r : R) : resolver_le r r.
Proof. split; [lia|done]. Qed.
Lemma resolver_le_trans `{ModuleResolver R} (r1 r2 r3 : R) : resolver_le r1 r2 → resolver_le r2 r3 → resolver_le r1 r3.
Proof. intros [G1 L1] [G2 L2]. split; [lia|]. intros pc g m Hle Hm. apply L1, L2; [done|lia|done]. Qed.

(** ** Build ids *)

Lemma align4_spec n : 0 ≤ n → n ≤ align4 n < n + 4 ∧ align4 n mod 4 = 0.
Proof.
  intros Hn. unfold align4. change (Z.lnot 3) with (Z.lnot (Z.ones 2)). rewrite <-Z.ldiff_land, Z.ldiff_ones_r by lia.
  rewrite Z.shiftl_mul_pow2, Z.shiftr_div_pow2 by lia. change (2 ^ 2) with 4. rewrite Z.mod_mul by lia.
  split; [|done]. pose proof (Z.div_mod (n + 3) 4 ltac:(lia)). pose proof (Z.mod_pos_bound (n + 3) 4 ltac:(lia)). lia.
Qed.

Lemma le32_nonneg l : Forall (λ b, 0 ≤ b) l → 0 ≤ le32 l.
Proof.
  intros H. destruct l as [|a [|b [|c [|d [|]]]]]; cbn; try lia. decompose_Forall_hyps. lia.
Qed.

Section build_ids.
Variable mem : Z → option Z.

(** The bytes [l] are in memory from [a] on. *)
Definition in_memory (a : Z) (l : list Z) : Prop := ∀ i b, l !! i = Some b → mem (a + Z.of_nat i) = Some b.

Lemma in_memory_app a l l' : in_memory a (l ++ l') ↔ in_memory a l ∧ in_memory (a + Z.of_nat (length l)) l'.
Proof.
  split.
  - intros H. split; intros i b Hi.
    + apply H. by apply lookup_app_l_Some.
    + rewrite <-Z.add_assoc, <-Nat2Z.inj_add. apply H. rewrite lookup_app_r by lia. rewrite <-Hi. f_equal. lia.
  - intros [H1 H2] i b [Hi|[Hl Hi]]%lookup_app_Some; [by apply H1|].
    apply H2 in Hi. rewrite <-Hi. f_equal. lia.
Qed.

Lemma load_bytes_mapped a n :
  (∀ i, 0 ≤ i < Z.of_nat n → ∃ b, mem (a + i) = Some b ∧ 0 ≤ b) →
  ∃ l, load_bytes mem a n = Some l ∧ Forall (λ b, 0 ≤ b) l.
Proof.
  intros H. assert (∃ l, load_bytes mem a n = Some l) as [l Hl].
  { apply mapM_is_Some. apply Forall_forall. intros i Hi%elem_of_seq. destruct (H (Z.of_nat i)) as (b & Hb & _); [lia|by exists b]. }
  exists l. split; [done|]. apply mapM_Some_1 in Hl. apply Forall_lookup. intros i b Hi.
  destruct (Forall2_lookup_r _ _ _ _ _ Hl Hi) as (j & Hj & Hb). apply lookup_seq in Hj as [-> ?].
  destruct (H (Z.of_nat (0 + i))) as (b' & Hb' & ?); [lia|]. rewrite Hb in Hb'. by simplify_eq.
Qed.

Lemma load_bytes_stored a l : in_memory a l → load_bytes mem a (length l) = Some l.
Proof.
  intros H. apply mapM_Some_2. apply Forall2_same_length_lookup. rewrite length_seq. split; [done|].
  intros i j b Hi Hb. apply lookup_seq in Hi as [-> _]. by apply H.
Qed.
End build_ids.

(** The scan of a note segment reads nothing outside the segment, whatever
    its bytes are: it completes when only the bytes of the segment are mapped. *)
Theorem note_scan_in_bounds (mem : Z → option Z) begin memsz :
  0 ≤ memsz →
  (∀ i, 0 ≤ i < memsz → ∃ b, mem (begin + i) = Some b ∧ 0 ≤ b) →
  is_Some (scan_notes mem (note_fuel memsz) begin memsz 0).
Proof.
  intros Hm Hmap. assert (∀ n cursor, 0 ≤ cursor → is_Some (scan_notes mem n begin memsz cursor)) as H;
    [|apply H; lia].
  induction n as [|n IH]; intros cursor Hc; cbn [scan_notes]; [done|].
  destruct (cursor + sizeof_Nhdr <=? memsz) eqn:E; cbn [negb]; [|done]. unfold sizeof_Nhdr in *. bool_hyps.
  assert (∀ d k, 0 ≤ d → 0 ≤ k → d + k ≤ memsz → ∃ l, load_bytes mem (begin + d) (Z.to_nat k) = Some l ∧ Forall (λ b, 0 ≤ b) l)
    as Hload.
  { intros d k Hd Hk Hdk. apply load_bytes_mapped. intros i Hi. rewrite <-Z.add_assoc. apply Hmap. rewrite Z2Nat.id in Hi; lia. }
  rewrite <-!(Z.add_assoc begin). change 4%nat with (Z.to_nat 4).
  destruct (Hload cursor 4) as (l1 & -> & H1); [lia..|]. destruct (Hload (cursor + 4) 4) as (l2 & -> & H2); [lia..|].
  destruct (Hload (cursor + 8) 4) as (l3 & -> & _); [lia..|]. cbn [fmap option_fmap option_map mbind option_bind].
  apply le32_nonneg in H1, H2. pose proof (align4_spec _ H1) as Ha1. pose proof (align4_spec _ H2) as Ha2.
  set (name := align4 (le32 l1)) in *. set (desc := align4 (le32 l2)) in *.
  destruct ((name >? _) || _) eqn:Eb; [done|]. rewrite !Z.gtb_ltb in Eb. bool_hyps.
  assert (∃ b, is_build_id mem (begin + (cursor + 12)) (le32 l3) (le32 l1) = Some b) as [found ->].
  { unfold is_build_id. destruct (_ && _) eqn:Ei; [|by eexists]. bool_hyps. change 3%nat with (Z.to_nat 3).
    destruct (Hload (cursor + 12) 3) as (l & -> & _); [lia..|]. by eexists. }
  cbn. destruct found.
  - rewrite <-Z.add_assoc. destruct (Hload (cursor + 12 + name) (le32 l2)) as (l & -> & _); [lia..|done].
  - apply IH. lia.
Qed.

(** A note as the linker writes it: three 32-bit words, then the name and the
    descriptor, each padded to a multiple of four. *)
Record Note := mkNote { note_type : Z; note_name : list Z; note_desc : list Z }.
Definition enc32 (v : Z) : list Z := [v mod 256; v / 256 mod 256; v / 65536 mod 256; v / 16777216 mod 256].
Definition pad4 (l : list Z) : list Z :=
  l ++ replicate (Z.to_nat (align4 (Z.of_nat (length l)) - Z.of_nat (length l))) 0.
Definition encode_note (n : Note) : list Z :=
  enc32 (Z.of_nat (length (note_name n))) ++ enc32 (Z.of_nat (length (note_desc n))) ++ enc32 (note_type n) ++
  pad4 (note_name n) ++ pad4 (note_desc n).
Definition note_ok (n : Note) : Prop :=
  0 ≤ note_type n < 2 ^ 32 ∧ Z.of_nat (length (note_name n)) < 2 ^ 32 ∧ Z.of_nat (length (note_desc n)) < 2 ^ 32.

(** The descriptor of the first note of GNU that is a build id. *)
Definition is_gnu_build_id (n : Note) : bool :=
  (note_type n =? NT_GNU_BUILD_ID) && bool_decide (take 3 (note_name n) = [71; 78; 85]).
Fixpoint first_build_id (notes : list Note) : string :=
  match notes with
  | [] => EmptyString
  | n :: notes => if is_gnu_build_id n then hex_string (note_desc n) else first_build_id notes
  end.

Lemma le32_enc32 v : 0 ≤ v < 2 ^ 32 → le32 (enc32 v) = v.
Proof. intros Hv. unfold le32, enc32. Z.to_euclidean_division_equations. lia. Qed.

Lemma pad4_length l : Z.of_nat (length (pad4 l)) = align4 (Z.of_nat (length l)).
Proof.
  unfold pad4. rewrite length_app, length_replicate. pose proof (align4_spec (Z.of_nat (length l)) ltac:(lia)). lia.
Qed.

Section encoded.
Variable mem : Z → option Z.

Lemma load_enc32 a v : 0 ≤ v < 2 ^ 32 → in_memory mem a (enc32 v) → le32 <$> load_bytes mem a 4 = Some v.
Proof. intros Hv H. change 4%nat with (length (enc32 v)). rewrite load_bytes_stored by done.
  cbn [fmap option_fmap option_map]. by rewrite le32_enc32.
Qed.

Lemma is_build_id_spec a n :
  in_memory mem a (pad4 (note_name n)) →
  is_build_id mem a (note_type n) (Z.of_nat (length (note_name n))) = Some (is_gnu_build_id n).
Proof.
  intros H. unfold is_build_id, is_gnu_build_id. destruct (note_type n =? NT_GNU_BUILD_ID); cbn [andb]; [|done].
  unfold pad4 in H. apply in_memory_app in H as [H _]. destruct (3 <=? _) eqn:E; bool_hyps.
  - rewrite <-(take_drop 3 (note_name n)) in H. apply in_memory_app in H as [H _].
    pose proof (load_bytes_stored mem a _ H) as L. rewrite length_take in L.
    replace (3 `min` length (note_name n))%nat with 3%nat in L by lia. by rewrite L.
  - rewrite bool_decide_false; [done|]. intros F. apply (f_equal length) in F. rewrite length_take in F.
    change (length [71; 78; 85]) with 3%nat in F. lia.
Qed.

(** One turn of the loop on an encoded note. *)
Lemma scan_notes_step fuel begin memsz cursor n :
  note_ok n → in_memory mem (begin + cursor) (encode_note n) →
  cursor + Z.of_nat (length (encode_note n)) ≤ memsz →
  scan_notes mem (S fuel) begin memsz cursor =
    if is_gnu_build_id n then Some (hex_string (note_desc n))
    else scan_notes mem fuel begin memsz (cursor + Z.of_nat (length (encode_note n))).
Proof.
  intros (Ht & Hn & Hd) H Hle. unfold encode_note in H, Hle |- *.
  rewrite !length_app, !Nat2Z.inj_add, !pad4_length in Hle |- *. cbn [length enc32] in Hle |- *.
  apply in_memory_app in H as [H1 H]. apply in_memory_app in H as [H2 H]. apply in_memory_app in H as [H3 H].
  apply in_memory_app in H as [H4 H5]. rewrite pad4_length in H5. cbn [length enc32] in *.
  pose proof (align4_spec (Z.of_nat (length (note_name n))) ltac:(lia)) as A1.
  pose proof (align4_spec (Z.of_nat (length (note_desc n))) ltac:(lia)) as A2.
  cbn [scan_notes]. unfold sizeof_Nhdr. rewrite (proj2 (Z.leb_le _ _)) by lia. cbn [negb].
  change (Z.of_nat 4) with 4 in *. rewrite <-Z.add_assoc in H3. change (4 + 4) with 8 in H3.
  assert (∀ a v, 0 ≤ v → v < 2 ^ 32 → in_memory mem a (enc32 v) → le32 <$> load_bytes mem a 4 = Some v) as L
    by (intros; by apply load_enc32).
  rewrite (L _ _ (Nat2Z.is_nonneg _) Hn H1), (L _ _ (Nat2Z.is_nonneg _) Hd H2), (L _ _ (proj1 Ht) (proj2 Ht) H3).
  cbn [mbind option_bind].
  rewrite !Z.gtb_ltb.
  rewrite !(proj2 (Z.ltb_ge _ _)) by lia. cbn [orb].
  replace (begin + cursor + 4 + 4 + 4) with (begin + (cursor + 12)) in H4, H5 by lia.
  rewrite is_build_id_spec by done. cbn [mbind option_bind]. destruct (is_gnu_build_id n).
  - unfold pad4 in H5. apply in_memory_app in H5 as [H5 _]. by rewrite Nat2Z.id, load_bytes_stored.
  - f_equal. lia.
Qed.

Lemma encode_note_length n : 12 ≤ Z.of_nat (length (encode_note n)).
Proof. unfold encode_note. rewrite !length_app. cbn [length enc32]. lia. Qed.

Lemma scan_notes_all notes : ∀ fuel begin memsz cursor,
  Forall note_ok notes → in_memory mem (begin + cursor) (concat (encode_note <$> notes)) →
  memsz = cursor + Z.of_nat (length (concat (encode_note <$> notes))) → memsz - cursor < 12 * Z.of_nat fuel →
  scan_notes mem fuel begin memsz cursor = Some (first_build_id notes).
Proof.
  induction notes as [|n notes IH]; intros fuel begin memsz cursor Hok H Hm Hf.
  - cbn in Hm. destruct fuel; [done|]. cbn [scan_notes]. unfold sizeof_Nhdr.
    by rewrite (proj2 (Z.leb_gt _ _)) by lia.
  - apply Forall_cons in Hok as [Hn Hok]. cbn [fmap list_fmap concat first_build_id] in *.
    rewrite length_app in Hm. apply in_memory_app in H as [H1 H]. pose proof (encode_note_length n).
    destruct fuel as [|fuel]; [lia|]. rewrite (scan_notes_step _ _ _ _ n) by (done || lia).
    destruct (is_gnu_build_id n); [done|]. apply IH; [done| |lia|lia]. by rewrite Z.add_assoc.
Qed.
End encoded.

(** Build ids are read back as they were written: on a segment that holds
    encoded notes, the scan gives the digits of the descriptor of the first GNU
    build-id note among them, whatever notes surround it, and the empty string
    when there is none. *)
Theorem build_id_of_notes (mem : Z → option Z) begin notes :
  Forall note_ok notes → in_memory mem begin (concat (encode_note <$> notes)) →
  let memsz := Z.of_nat (length (concat (encode_note <$> notes))) in
  scan_notes mem (note_fuel memsz) begin memsz 0 = Some (first_build_id notes).
Proof.
  intros Hok H memsz. apply scan_notes_all; [done|by rewrite Z.add_0_r|done|].
  unfold note_fuel, sizeof_Nhdr. pose proof (Z.div_mod memsz 12 ltac:(lia)). pose proof (Z.mod_pos_bound memsz 12 ltac:(lia)).
  pose proof (Z.div_pos memsz 12). lia.
Qed.

Definition bytes_at (begin : Z) (l : list Z) (a : Z) : option Z :=
  if a <? begin then None else l !! Z.to_nat (a - begin).
Lemma in_memory_bytes_at begin l : in_memory (bytes_at begin l) begin l.
Proof.
  intros i b Hi. unfold bytes_at. rewrite (proj2 (Z.ltb_ge _ _)) by lia. rewrite <-Hi. f_equal. lia.
Qed.

Lemma build_id_of_notes_witness :
  let notes := [mkNote 1 [71; 78; 85; 0] [1; 2]; mkNote 3 [71; 78; 85; 0] [171; 5; 255]] in
  let bytes := concat (encode_note <$> notes) in
  scan_notes (bytes_at 4096 bytes) (note_fuel 40) 4096 40 0 = Some "ab05ff".
Proof.
  intros notes bytes. apply (build_id_of_notes (bytes_at 4096 bytes) 4096 notes).
  - repeat constructor; cbn; lia.
  - apply in_memory_bytes_at.
Defined.
