(* ===== verification/AsyncPipeline.v ===== *)
(** * The asynchronous stack pipeline

    [AsyncStackPipeline] of backtrace/src/AsyncStackPipeline.cpp: client threads
    submit raw stacks, one worker thread resolves and symbolizes them and calls
    back.  The object is the record [Pipeline]; what a thread does under the
    mutex is one function on it.  The threads are the transition system at the
    end: the positions of the worker and of the clients between their critical
    sections, with both condition variables.  A callback is set; it is one
    event, and it may call the pipeline like any other client. *)
From stdpp Require Import pretty.
From S2P Require Import Prelude Capture AsyncStack.

Record QueueItem := mkItem { qi_id : Z; qi_raw : RawStackRecord }.
Definition item_init : QueueItem := mkItem 0 raw_init.

Record StackResult := mkResult {
  sr_id : Z;
  sr_state : StackResolutionState.t;
  sr_raw : RawStackRecord;
  sr_frames : list SymbolizedFrame;
}.
#[global] Instance StackResult_upd : Updatable StackResult := λ r,
  mkResult (sr_id r) (sr_state r) (sr_raw r) (sr_frames r).

Record AsyncStackStats := mkStats {
  st_accepted : Z;
  st_duplicates : Z;
  st_dropped : Z;
  st_processed : Z;
  st_failed : Z;
  st_worker_start_failures : Z;
  st_recursive_submissions : Z;
  st_queue_high_water : Z;
}.
#[global] Instance AsyncStackStats_upd : Updatable AsyncStackStats := λ s,
  mkStats (st_accepted s) (st_duplicates s) (st_dropped s) (st_processed s) (st_failed s)
    (st_worker_start_failures s) (st_recursive_submissions s) (st_queue_high_water s).
Definition stats_init : AsyncStackStats := mkStats 0 0 0 0 0 0 0 0.

Definition FormatAsyncStackStats (s : AsyncStackStats) : string :=
  "accepted=" +:+ pretty (st_accepted s) +:+ " duplicates=" +:+ pretty (st_duplicates s) +:+
  " dropped=" +:+ pretty (st_dropped s) +:+ " processed=" +:+ pretty (st_processed s) +:+
  " failed=" +:+ pretty (st_failed s) +:+
  " worker_start_failures=" +:+ pretty (st_worker_start_failures s) +:+
  " recursive_submissions=" +:+ pretty (st_recursive_submissions s) +:+
  " queue_high_water=" +:+ pretty (st_queue_high_water s).

Record SubmitResult := mkSubmit {
  sub_id : Z;
  sub_accepted : bool;
  sub_duplicate : bool;
  sub_dropped : bool;
  sub_rejected_recursion : bool;
}.
#[global] Instance SubmitResult_upd : Updatable SubmitResult := λ r,
  mkSubmit (sub_id r) (sub_accepted r) (sub_duplicate r) (sub_dropped r) (sub_rejected_recursion r).
Definition submit_init : SubmitResult := mkSubmit 0 false false false false.

Record Pipeline := mkPipeline {
  capacity_ : Z;
  result_capacity_ : Z;
  shutdown_started_ : bool;
  queue_ : list QueueItem;
  queue_head_ : Z;
  queue_size_ : Z;
  active_ : Z;
  stopping_ : bool;
  joined_ : bool;
  worker_thread_id_ : option Z;
  next_id_ : Z;
  stats_ : AsyncStackStats;
  unique_stacks_ : gmap RawStackKey Z;
  id_to_key_ : gmap Z RawStackKey;
  results_ : gmap Z StackResult;
  result_order_ : list Z;
  dropped_order_ : list Z;
}.
#[global] Instance Pipeline_upd : Updatable Pipeline := λ p,
  mkPipeline (capacity_ p) (result_capacity_ p) (shutdown_started_ p) (queue_ p) (queue_head_ p) (queue_size_ p)
    (active_ p) (stopping_ p) (joined_ p) (worker_thread_id_ p) (next_id_ p) (stats_ p) (unique_stacks_ p)
    (id_to_key_ p) (results_ p) (result_order_ p) (dropped_order_ p).

Definition count (field : AsyncStackStats → Z) `{!FieldSet field} (p : Pipeline) : Pipeline :=
  p <| stats_ := field_set field (λ n, n ⊞ 1) (stats_ p) |>.

(** The constructor; [key_ready] is what [EnsureAsyncWorkerKey] returns.  With
    it false there is no worker thread. *)
Definition Pipeline_new (capacity : Z) (key_ready : bool) : Pipeline :=
  let capacity := Z.max capacity 1 in
  let p := mkPipeline capacity capacity false (replicate (Z.to_nat capacity) item_init) 0 0 0 false false None 1
             stats_init ∅ ∅ ∅ [] [] in
  if key_ready then p else count st_worker_start_failures (p <| stopping_ := true |>).

(** ** The caches *)

Definition EraseResultLocked (id : Z) (p : Pipeline) : Pipeline :=
  let p :=
    match id_to_key_ p !! id with
    | Some key =>
        let unique := if bool_decide (unique_stacks_ p !! key = Some id)
                      then delete key (unique_stacks_ p) else unique_stacks_ p in
        p <| unique_stacks_ := unique |> <| id_to_key_ := delete id (id_to_key_ p) |>
    | None => p
    end in
  p <| results_ := delete id (results_ p) |>.

Definition is_pending (r : StackResult) : bool := bool_decide (sr_state r = StackResolutionState.Pending).

(** The loops pop the front of the order while it is too long. *)
Fixpoint evict_results (order : list Z) (p : Pipeline) : Pipeline :=
  match order with
  | evicted :: rest =>
      if Z.of_nat (length order) >? result_capacity_ p then
        match results_ p !! evicted with
        | Some r => if is_pending r then evict_results rest p else evict_results rest (EraseResultLocked evicted p)
        | None => evict_results rest p
        end
      else p <| result_order_ := order |>
  | [] => p <| result_order_ := [] |>
  end.
Definition EvictResultCacheLocked (p : Pipeline) : Pipeline := evict_results (result_order_ p) p.

Fixpoint evict_dropped (order : list Z) (p : Pipeline) : Pipeline :=
  match order with
  | evicted :: rest =>
      if Z.of_nat (length order) >? result_capacity_ p then evict_dropped rest (EraseResultLocked evicted p)
      else p <| dropped_order_ := order |>
  | [] => p <| dropped_order_ := [] |>
  end.
Definition EvictDroppedCacheLocked (p : Pipeline) : Pipeline := evict_dropped (dropped_order_ p) p.

(** ** Operations of the clients *)

(** What [Submit] does before it takes the mutex. *)
Definition submit_prepare (generation : Z) (input : RawStackRecord) : RawStackRecord :=
  let raw := clamp_frames input in
  if module_generation raw =? 0 then raw <| module_generation := generation |> else raw.

Definition submit_drop (id : Z) (key : RawStackKey) (r : StackResult) (p : Pipeline) : Pipeline :=
  let p := p <| results_ := <[id := r <| sr_state := StackResolutionState.Dropped |>]> (results_ p) |>
             <| unique_stacks_ := delete key (unique_stacks_ p) |>
             <| dropped_order_ := dropped_order_ p ++ [id] |> in
  count st_dropped (EvictDroppedCacheLocked p).

Definition submit_enqueue (item : QueueItem) (p : Pipeline) : Pipeline :=
  let index := (queue_head_ p ⊞ queue_size_ p) mod capacity_ p in
  let p := p <| queue_ := <[Z.to_nat index := item]> (queue_ p) |> <| queue_size_ := queue_size_ p ⊞ 1 |> in
  let p := count st_accepted p in
  p <| stats_ := (stats_ p) <| st_queue_high_water := Z.max (st_queue_high_water (stats_ p)) (queue_size_ p) |> |>.

(** Under the mutex. *)
Definition submit_locked (raw : RawStackRecord) (p : Pipeline) : SubmitResult * Pipeline :=
  if stopping_ p then (submit_init, p)
  else
    let key := MakeKey raw in
    match unique_stacks_ p !! key with
    | Some existing =>
        (submit_init <| sub_id := existing |> <| sub_duplicate := true |>, count st_duplicates p)
    | None =>
        let id := next_id_ p in
        let pending := mkResult id StackResolutionState.Pending raw [] in
        let p := p <| next_id_ := id ⊞ 1 |> <| unique_stacks_ := <[key := id]> (unique_stacks_ p) |>
                   <| id_to_key_ := <[id := key]> (id_to_key_ p) |> <| results_ := <[id := pending]> (results_ p) |> in
        if queue_size_ p =? capacity_ p
        then (submit_init <| sub_id := id |> <| sub_dropped := true |>, submit_drop id key pending p)
        else (submit_init <| sub_id := id |> <| sub_accepted := true |>, submit_enqueue (mkItem id raw) p)
    end.

(** The whole of [Submit] for one thread, [on_worker] being the result of
    [AsyncStackWorkerThread]. *)
Definition Submit (on_worker : bool) (generation : Z) (input : RawStackRecord) (p : Pipeline) : SubmitResult * Pipeline :=
  if on_worker then (submit_init <| sub_rejected_recursion := true |>, count st_recursive_submissions p)
  else submit_locked (submit_prepare generation input) p.

Definition Release (id : Z) (p : Pipeline) : bool * Pipeline :=
  if id =? 0 then (false, p)
  else
    match results_ p !! id with
    | Some r =>
        if is_pending r then (false, p)
        else
          let p := EraseResultLocked id p in
          (true, p <| result_order_ := filter (λ i, i ≠ id) (result_order_ p) |>
                   <| dropped_order_ := filter (λ i, i ≠ id) (dropped_order_ p) |>)
    | None => (false, p)
    end.

Definition GetResult (id : Z) (p : Pipeline) : option StackResult := results_ p !! id.

(** The predicate of the idle condition variable. *)
Definition pipeline_idle (p : Pipeline) : bool := (queue_size_ p =? 0) && (active_ p =? 0).

(** [Shutdown] up to the notification; [false]: already joined. *)
Definition shutdown_stop (p : Pipeline) : bool * Pipeline :=
  if joined_ p then (false, p) else (true, p <| stopping_ := true |>).

(** ** The critical sections of the worker *)

Definition queue_front (p : Pipeline) : QueueItem := default item_init (queue_ p !! Z.to_nat (queue_head_ p)).
Definition queue_pop (p : Pipeline) : Pipeline :=
  p <| queue_head_ := (queue_head_ p ⊞ 1) mod capacity_ p |> <| queue_size_ := queue_size_ p ⊟ 1 |>.

Inductive Taken := Sleep | Break | Take (item : QueueItem).
(** The wait for work and the removal of an item. *)
Definition worker_take (p : Pipeline) : Taken * Pipeline :=
  if negb (stopping_ p || negb (queue_size_ p =? 0)) then (Sleep, p)
  else if (queue_size_ p =? 0) && stopping_ p then (Break, p)
  else (Take (queue_front p), (queue_pop p) <| active_ := active_ p ⊞ 1 |>).

(** The marker of the worker thread could not be set: everything accepted
    fails. *)
Definition fail_result (item : QueueItem) (acc : list StackResult * Pipeline) : list StackResult * Pipeline :=
  let '(failed_results, p) := acc in
  let failed := mkResult (qi_id item) StackResolutionState.Failed (qi_raw item) [] in
  let p := if bool_decide (is_Some (results_ p !! qi_id item))
           then p <| results_ := <[qi_id item := failed]> (results_ p) |> else p in
  (failed_results ++ [failed], count st_failed (count st_processed p)).
Fixpoint fail_queue (n : nat) (acc : list StackResult * Pipeline) : list StackResult * Pipeline :=
  match n with
  | O => acc
  | S n =>
      let '(failed_results, p) := fail_result (queue_front (snd acc)) acc in
      fail_queue n (failed_results, queue_pop p)
  end.
Definition worker_fail (item : QueueItem) (p : Pipeline) : list StackResult * Pipeline :=
  let acc := fail_result item ([], p) in
  let '(failed_results, p) := fail_queue (Z.to_nat (queue_size_ (snd acc))) acc in
  (failed_results, count st_worker_start_failures (p <| active_ := active_ p ⊟ 1 |> <| stopping_ := true |>)).

(** What the worker makes of an item. *)
Definition completed_result (item : QueueItem) (symbolized : bool * list SymbolizedFrame) (unresolved_module : bool) :
    StackResult :=
  mkResult (qi_id item)
    (if fst symbolized && negb unresolved_module then StackResolutionState.Resolved else StackResolutionState.Failed)
    (qi_raw item) (snd symbolized).
Definition worker_finish (completed : StackResult) (p : Pipeline) : Pipeline :=
  let p := if bool_decide (is_Some (results_ p !! sr_id completed))
           then p <| results_ := <[sr_id completed := completed]> (results_ p) |> else p in
  let p := EvictResultCacheLocked (p <| result_order_ := result_order_ p ++ [sr_id completed] |>) in
  let p := count st_processed p in
  if bool_decide (sr_state completed = StackResolutionState.Failed) then count st_failed p else p.
Definition worker_release (p : Pipeline) : Pipeline := p <| active_ := active_ p ⊟ 1 |>.

(** ** The threads *)

(** Where the worker is between two critical sections; [marker] is its local
    [worker_marker_set]. *)
Inductive WorkerPc :=
  | WNone                                   (* no thread was created *)
  | WStart                                  (* the thread has not run yet *)
  | WReady (marker : bool)                  (* at the top of its loop *)
  | WAsleep (marker : bool)                 (* in the wait for work *)
  | WMark (item : QueueItem)                (* about to set the marker *)
  | WResolve (item : QueueItem) (modules : list ModuleInfo) (unresolved_module : bool)
  | WCallback (completed : StackResult)     (* about to call back *)
  | WDone                                   (* the callback has returned *)
  | WFail (failed_results : list StackResult)  (* calling back after a failed start *)
  | WExit                                   (* has left the loop *)
  | WExited.

(** Where a client is inside a call; a thread without an entry is in none. *)
Inductive ClientPc :=
  | CSubmit (raw : RawStackRecord)          (* about to take the mutex *)
  | CNotifyOne                              (* has enqueued, not yet notified *)
  | CFlushRefresh
  | CFlushWait                              (* about to test for idleness *)
  | CFlushAsleep
  | CShutdownStop
  | CShutdownNotify
  | CShutdownJoin.

Definition wake_worker (w : WorkerPc) : WorkerPc := match w with WAsleep marker => WReady marker | _ => w end.
Definition wake_client (c : ClientPc) : ClientPc := match c with CFlushAsleep => CFlushWait | _ => c end.
Definition notify_idle (p : Pipeline) (clients : gmap Z ClientPc) : gmap Z ClientPc :=
  if pipeline_idle p then wake_client <$> clients else clients.

Section system.
Context {R : Type} `{!ModuleResolver R} (symbolizer : Symbolizer) (platform : Platform) (worker_tid : Z).

(** [sy_accepted] lists the accepted identifiers and [sy_called] the results the
    callback was called with, in order; [sy_origin] is the resolver when an
    identifier was given out.  No step depends on these three. *)
Record System := mkSystem {
  sy_pipe : Pipeline;
  sy_resolver : R;
  sy_worker : WorkerPc;
  sy_clients : gmap Z ClientPc;
  sy_accepted : list Z;
  sy_called : list StackResult;
  sy_origin : gmap Z R;
}.
#[global] Instance System_upd : Updatable System := λ s,
  mkSystem (sy_pipe s) (sy_resolver s) (sy_worker s) (sy_clients s) (sy_accepted s) (sy_called s) (sy_origin s).

Definition system_init (capacity : Z) (key_ready : bool) (r : R) : System :=
  mkSystem (Pipeline_new capacity key_ready) r (if key_ready then WStart else WNone) ∅ [] [] ∅.

(** The module of the next frame. *)
Definition resolve_next (r : R) (item : QueueItem) (modules : list ModuleInfo) (unresolved : bool) : WorkerPc :=
  let pc := nth (length modules) (pcs (qi_raw item)) 0 in
  match ResolveModule r (CallSitePcFromReturnAddress platform pc) (module_generation (qi_raw item)) with
  | Some m => WResolve item (modules ++ [m]) unresolved
  | None => WResolve item (modules ++ [module_init]) true
  end.

(** One step of the worker thread.  Setting the marker succeeds or not, and
    [dladdr] answers as the loader does at the time. *)
Inductive worker_step : System → System → Prop :=
  | W_start s : sy_worker s = WStart →
      worker_step s (s <| sy_pipe := (sy_pipe s) <| worker_thread_id_ := Some worker_tid |> |>
                       <| sy_worker := WReady false |>)
  | W_sleep s marker p : sy_worker s = WReady marker → worker_take (sy_pipe s) = (Sleep, p) →
      worker_step s (s <| sy_pipe := p |> <| sy_worker := WAsleep marker |>)
  | W_break s marker p : sy_worker s = WReady marker → worker_take (sy_pipe s) = (Break, p) →
      worker_step s (s <| sy_pipe := p |> <| sy_worker := WExit |>)
  | W_take s marker item p : sy_worker s = WReady marker → worker_take (sy_pipe s) = (Take item, p) →
      worker_step s (s <| sy_pipe := p |>
                       <| sy_worker := if marker then WResolve item [] false else WMark item |>)
  | W_marked s item : sy_worker s = WMark item →
      worker_step s (s <| sy_worker := WResolve item [] false |>)
  | W_unmarked s item failed p : sy_worker s = WMark item → worker_fail item (sy_pipe s) = (failed, p) →
      worker_step s (s <| sy_pipe := p |> <| sy_worker := WFail failed |>)
  | W_fail_callback s r failed : sy_worker s = WFail (r :: failed) →
      worker_step s (s <| sy_worker := WFail failed |> <| sy_called := sy_called s ++ [r] |>)
  | W_fail_exit s : sy_worker s = WFail [] →
      worker_step s (s <| sy_worker := WExited |> <| sy_clients := notify_idle (sy_pipe s) (sy_clients s) |>)
  | W_resolve s item modules unresolved : sy_worker s = WResolve item modules unresolved →
      Z.of_nat (length modules) < frame_count (qi_raw item) →
      worker_step s (s <| sy_worker := resolve_next (sy_resolver s) item modules unresolved |>)
  | W_finish s item modules unresolved dladdr : sy_worker s = WResolve item modules unresolved →
      frame_count (qi_raw item) ≤ Z.of_nat (length modules) →
      let completed := completed_result item (Symbolize dladdr (qi_raw item) modules) unresolved in
      worker_step s (s <| sy_pipe := worker_finish completed (sy_pipe s) |> <| sy_worker := WCallback completed |>)
  | W_callback s completed : sy_worker s = WCallback completed →
      worker_step s (s <| sy_worker := WDone |> <| sy_called := sy_called s ++ [completed] |>)
  | W_done s : sy_worker s = WDone →
      let p := worker_release (sy_pipe s) in
      worker_step s (s <| sy_pipe := p |> <| sy_worker := WReady true |>
                       <| sy_clients := notify_idle p (sy_clients s) |>)
  | W_exit s : sy_worker s = WExit →
      worker_step s (s <| sy_worker := WExited |> <| sy_clients := notify_idle (sy_pipe s) (sy_clients s) |>).

(** A client goes on with the call it is in.  Identifiers and generations are
    counted in 64 bits; runs that exhaust them are left out. *)
Inductive client_step : System → System → Prop :=
  | C_submit s t raw result p : sy_clients s !! t = Some (CSubmit raw) → next_id_ (sy_pipe s) < 2 ^ 64 - 1 →
      submit_locked raw (sy_pipe s) = (result, p) →
      client_step s
        (s <| sy_pipe := p |>
           <| sy_clients := if sub_accepted result then <[t := CNotifyOne]> (sy_clients s) else delete t (sy_clients s) |>
           <| sy_accepted := sy_accepted s ++ (if sub_accepted result then [sub_id result] else []) |>
           <| sy_origin := if sub_accepted result then <[sub_id result := sy_resolver s]> (sy_origin s) else sy_origin s |>)
  | C_notify_one s t : sy_clients s !! t = Some CNotifyOne →
      client_step s (s <| sy_worker := wake_worker (sy_worker s) |> <| sy_clients := delete t (sy_clients s) |>)
  | C_refresh s t l r : sy_clients s !! t = Some CFlushRefresh → shutdown_started_ (sy_pipe s) = false →
      CurrentGeneration (sy_resolver s) < 2 ^ 64 - 1 → RefreshIfSupported l (sy_resolver s) = Some r →
      client_step s (s <| sy_resolver := r |> <| sy_clients := <[t := CFlushWait]> (sy_clients s) |>)
  | C_no_refresh s t : sy_clients s !! t = Some CFlushRefresh → shutdown_started_ (sy_pipe s) = true →
      client_step s (s <| sy_clients := <[t := CFlushWait]> (sy_clients s) |>)
  | C_flushed s t : sy_clients s !! t = Some CFlushWait → pipeline_idle (sy_pipe s) = true →
      client_step s (s <| sy_clients := delete t (sy_clients s) |>)
  | C_flush_sleep s t : sy_clients s !! t = Some CFlushWait → pipeline_idle (sy_pipe s) = false →
      client_step s (s <| sy_clients := <[t := CFlushAsleep]> (sy_clients s) |>)
  | C_stop s t p : sy_clients s !! t = Some CShutdownStop → shutdown_stop (sy_pipe s) = (true, p) →
      client_step s (s <| sy_pipe := p |> <| sy_clients := <[t := CShutdownNotify]> (sy_clients s) |>)
  | C_stopped s t p : sy_clients s !! t = Some CShutdownStop → shutdown_stop (sy_pipe s) = (false, p) →
      client_step s (s <| sy_pipe := p |> <| sy_clients := delete t (sy_clients s) |>)
  | C_notify_all s t : sy_clients s !! t = Some CShutdownNotify →
      client_step s (s <| sy_worker := wake_worker (sy_worker s) |>
                       <| sy_clients := <[t := CShutdownJoin]> (sy_clients s) |>)
  | C_join s t : sy_clients s !! t = Some CShutdownJoin → (sy_worker s = WExited ∨ sy_worker s = WNone) →
      client_step s (s <| sy_pipe := (sy_pipe s) <| joined_ := true |> |> <| sy_clients := delete t (sy_clients s) |>).

(** A new call begins, or a waiting thread wakes without a notification. *)
Inductive call_step : System → System → Prop :=
  | A_submit s t input : sy_clients s !! t = None → 0 ≤ frame_count input ≤ Z.of_nat (length (pcs input)) →
      call_step s (s <| sy_clients := <[t := CSubmit (submit_prepare (CurrentGeneration (sy_resolver s)) input)]> (sy_clients s) |>)
  | A_submit_worker s : call_step s (s <| sy_pipe := count st_recursive_submissions (sy_pipe s) |>)
  | A_release s id : call_step s (s <| sy_pipe := snd (Release id (sy_pipe s)) |>)
  | A_flush s t : sy_clients s !! t = None → worker_thread_id_ (sy_pipe s) ≠ Some t →
      call_step s (s <| sy_clients := <[t := CFlushRefresh]> (sy_clients s) |>)
  | A_begin_finalization s : call_step s (s <| sy_pipe := (sy_pipe s) <| shutdown_started_ := true |> |>)
  | A_shutdown s t : sy_clients s !! t = None →
      call_step s (s <| sy_pipe := (sy_pipe s) <| shutdown_started_ := true |> |>
                     <| sy_clients := <[t := CShutdownStop]> (sy_clients s) |>)
  | A_wake_worker s : call_step s (s <| sy_worker := wake_worker (sy_worker s) |>)
  | A_wake_client s t : sy_clients s !! t = Some CFlushAsleep →
      call_step s (s <| sy_clients := <[t := CFlushWait]> (sy_clients s) |>).

(** What goes on inside the pipeline, and everything. *)
Definition inner_step (s s' : System) : Prop := worker_step s s' ∨ client_step s s'.
Definition async_step (s s' : System) : Prop := inner_step s s' ∨ call_step s s'.
End system.
#[global] Arguments mkSystem {R}.
#[global] Arguments System : clear implicits.
