(* ===== verification/AsyncCache.v ===== *)
(** * The queue and the caches of the pipeline

    What the critical sections of [AsyncPipeline] do to the ring buffer and to
    the three maps: the ring is a first-in first-out list, and the maps of
    results, of keys and of unique stacks stay consistent with each other. *)
From S2P Require Import Prelude Capture AsyncStack AsyncPipeline.
Import StackResolutionState.

#[local] Arguments EraseResultLocked : simpl never.

(** ** The ring buffer *)

Definition ring_slot (p : Pipeline) (i : nat) : QueueItem :=
  default item_init (queue_ p !! Z.to_nat ((queue_head_ p + Z.of_nat i) mod capacity_ p)).
(** The queued items, oldest first. *)
Definition ring (p : Pipeline) : list QueueItem := ring_slot p <$> seq 0 (Z.to_nat (queue_size_ p)).

(** Indices never leave the vector, whose size fits an address space. *)
Record ring_ok (p : Pipeline) : Prop := {
  ro_capacity : 0 < capacity_ p < 2 ^ 63;
  ro_length : Z.of_nat (length (queue_ p)) = capacity_ p;
  ro_head : 0 ≤ queue_head_ p < capacity_ p;
  ro_size : 0 ≤ queue_size_ p ≤ capacity_ p;
}.

(** Everything but the caches. *)
Definition core (p : Pipeline) : Pipeline :=
  p <| unique_stacks_ := ∅ |> <| id_to_key_ := ∅ |> <| results_ := ∅ |> <| result_order_ := [] |> <| dropped_order_ := [] |>.

Lemma ring_core p p' : core p' = core p → ring p' = ring p.
Proof. intros E. change (ring (core p') = ring (core p)). by rewrite E. Qed.
Lemma ring_ok_core p p' : core p' = core p → ring_ok p → ring_ok p'.
Proof.
  intros E [H1 H2 H3 H4].
  assert (ring_ok (core p)) as H by (split; done). rewrite <-E in H. by destruct H.
Qed.

Lemma length_ring p : ring_ok p → Z.of_nat (length (ring p)) = queue_size_ p.
Proof. intros [_ _ _ H]. unfold ring. rewrite length_fmap, length_seq. lia. Qed.

Lemma ring_enqueue p item :
  ring_ok p → queue_size_ p ≠ capacity_ p →
  ring_ok (submit_enqueue item p) ∧ ring (submit_enqueue item p) = ring p ++ [item].
Proof.
  intros [H1 H2 H3 H4] Hne. set (q := submit_enqueue item p).
  assert (u64 (queue_head_ p + queue_size_ p) = queue_head_ p + queue_size_ p) as Eu by (apply u64_small; lia).
  assert (queue_size_ q = queue_size_ p + 1) as Es by (cbn; rewrite u64_small; lia).
  assert (queue_head_ q = queue_head_ p) as Eh by done. assert (capacity_ q = capacity_ p) as Ec by done.
  set (ix := Z.to_nat ((queue_head_ p + queue_size_ p) mod capacity_ p)).
  assert (queue_ q = <[ix := item]> (queue_ p)) as Eq by (cbn; by rewrite Eu).
  assert (0 ≤ (queue_head_ p + queue_size_ p) mod capacity_ p < capacity_ p) as Hix by (apply Z.mod_pos_bound; lia).
  split; [split; rewrite ?Es, ?Eh, ?Ec, ?Eq, ?length_insert; lia|].
  unfold ring. rewrite Es. replace (Z.to_nat (queue_size_ p + 1)) with (S (Z.to_nat (queue_size_ p))) by lia.
  rewrite seq_S, fmap_app. cbn [fmap list_fmap Nat.add]. f_equal.
  - apply list_fmap_ext. intros _ i Hi%list_elem_of_lookup_2%elem_of_seq. unfold ring_slot. rewrite Eh, Ec, Eq. f_equal.
    apply list_lookup_insert_ne. unfold ix. intros E.
    apply (f_equal Z.of_nat) in E. rewrite !Z2Nat.id in E by (apply Z.mod_pos_bound; lia).
    pose proof (Z.div_mod (queue_head_ p + queue_size_ p) (capacity_ p) ltac:(lia)).
    pose proof (Z.div_mod (queue_head_ p + Z.of_nat i) (capacity_ p) ltac:(lia)).
    set (a := (queue_head_ p + queue_size_ p) / capacity_ p) in *. set (b := (queue_head_ p + Z.of_nat i) / capacity_ p) in *.
    assert (capacity_ p * (a - b) = queue_size_ p - Z.of_nat i) by lia.
    assert (a - b ≤ 0 ∨ 1 ≤ a - b) as [?|?] by lia; nia.
  - f_equal. unfold ring_slot. rewrite Eh, Ec, Eq. rewrite Z2Nat.id by lia. fold ix.
    rewrite list_lookup_insert_eq; [done|]. unfold ix. lia.
Qed.

Lemma ring_pop p :
  ring_ok p → queue_size_ p ≠ 0 → ring_ok (queue_pop p) ∧ ring p = queue_front p :: ring (queue_pop p).
Proof.
  intros [H1 H2 H3 H4] Hne. set (q := queue_pop p).
  assert (queue_size_ q = queue_size_ p - 1) as Es by (cbn; rewrite u64_small; lia).
  assert (queue_head_ q = (queue_head_ p + 1) mod capacity_ p) as Eh by (cbn; rewrite u64_small; lia).
  assert (0 ≤ (queue_head_ p + 1) mod capacity_ p < capacity_ p) by (apply Z.mod_pos_bound; lia).
  assert (capacity_ q = capacity_ p) as Ec by done. assert (queue_ q = queue_ p) as Eq by done.
  split; [split; rewrite ?Es, ?Eh, ?Ec, ?Eq; lia|].
  unfold ring. rewrite Es. replace (Z.to_nat (queue_size_ p)) with (S (Z.to_nat (queue_size_ p - 1))) by lia.
  cbn [seq fmap list_fmap]. f_equal.
  - unfold ring_slot, queue_front. by rewrite Z.add_0_r, Z.mod_small by lia.
  - rewrite <-fmap_S_seq, <-list_fmap_compose. apply list_fmap_ext. intros _ i _. unfold ring_slot, compose.
    rewrite Eh, Ec, Eq, Zplus_mod_idemp_l. do 4 f_equal. lia.
Qed.

(** ** The maps *)

Record Maps := mkMaps {
  m_unique : gmap RawStackKey Z;
  m_keys : gmap Z RawStackKey;
  m_results : gmap Z StackResult;
  m_next : Z;
}.
Definition maps (p : Pipeline) : Maps := mkMaps (unique_stacks_ p) (id_to_key_ p) (results_ p) (next_id_ p).

Definition pending_result (item : QueueItem) : StackResult := mkResult (qi_id item) Pending (qi_raw item) [].

(** [pending] are the items not processed yet; [finished] and [dropped] cover
    the other results.  The keys of the results that were not dropped are the
    unique stacks, each with its identifier. *)
Record cache (m : Maps) (pending : list QueueItem) (finished dropped : list Z) : Prop := {
  ca_result id r : m_results m !! id = Some r →
    sr_id r = id ∧ 0 < id < m_next m ∧ m_keys m !! id = Some (MakeKey (sr_raw r));
  ca_key id k : m_keys m !! id = Some k → is_Some (m_results m !! id);
  ca_unique k id : m_unique m !! k = Some id ↔
    ∃ r, m_results m !! id = Some r ∧ MakeKey (sr_raw r) = k ∧ sr_state r ≠ Dropped;
  ca_pending item : item ∈ pending → m_results m !! qi_id item = Some (pending_result item);
  ca_class id r : m_results m !! id = Some r →
    match sr_state r with
    | Pending => id ∈ qi_id <$> pending
    | Dropped => id ∈ dropped
    | _ => id ∈ finished
    end;
  ca_dropped id r : id ∈ dropped → m_results m !! id = Some r → sr_state r = Dropped;
  ca_old id : id ∈ dropped → id < m_next m;
}.

Lemma cache_lists m pending finished dropped finished' dropped' :
  cache m pending finished dropped →
  (∀ id, is_Some (m_results m !! id) → id ∈ finished → id ∈ finished') →
  (∀ id, is_Some (m_results m !! id) → id ∈ dropped → id ∈ dropped') → dropped' ⊆ dropped →
  cache m pending finished' dropped'.
Proof.
  intros [H1 H2 H3 H4 H5 H6 H7] Hf Hd Hs. split; [done..| | |].
  - intros id r Hr. specialize (H5 id r Hr). destruct (sr_state r); eauto.
  - intros id r Hid. apply H6. by apply Hs.
  - intros id Hid. by apply H7, Hs.
Qed.

Lemma erase_core id p : core (EraseResultLocked id p) = core p.
Proof. unfold EraseResultLocked. by destruct (id_to_key_ p !! id). Qed.
Lemma erase_capacity id p : result_capacity_ (EraseResultLocked id p) = result_capacity_ p.
Proof. unfold EraseResultLocked. by destruct (id_to_key_ p !! id). Qed.
Lemma erase_results id p : results_ (EraseResultLocked id p) = delete id (results_ p).
Proof. unfold EraseResultLocked. by destruct (id_to_key_ p !! id). Qed.
Lemma erase_orders id p :
  result_order_ (EraseResultLocked id p) = result_order_ p ∧ dropped_order_ (EraseResultLocked id p) = dropped_order_ p.
Proof. unfold EraseResultLocked. by destruct (id_to_key_ p !! id). Qed.

Lemma erase_cache id p pending finished dropped :
  cache (maps p) pending finished dropped → (∀ r, results_ p !! id = Some r → sr_state r ≠ Pending) →
  cache (maps (EraseResultLocked id p)) pending finished dropped.
Proof.
  intros [H1 H2 H3 H4 H5 H6 H7] Hid. cbn in *.
  assert (id_to_key_ (EraseResultLocked id p) = delete id (id_to_key_ p)) as Ek.
  { unfold EraseResultLocked. destruct (id_to_key_ p !! id) eqn:E; [done|]. cbn. by rewrite delete_id. }
  assert (next_id_ (EraseResultLocked id p) = next_id_ p) as En by (unfold EraseResultLocked; by destruct (id_to_key_ p !! id)).
  split; cbn; rewrite ?erase_results, ?Ek, ?En.
  - intros id' r [Hne Hr]%lookup_delete_Some. destruct (H1 _ _ Hr) as (? & ? & ?). by rewrite lookup_delete_ne.
  - intros id' k [Hne Hk]%lookup_delete_Some. rewrite lookup_delete_ne by done. by eapply H2.
  - intros k id'. setoid_rewrite lookup_delete_Some. transitivity (id ≠ id' ∧ unique_stacks_ p !! k = Some id').
    + unfold EraseResultLocked. destruct (id_to_key_ p !! id) as [key|] eqn:E; cbn.
      * case_bool_decide as Hu; cbn.
        -- destruct (H2 _ _ E) as [r Hr]. destruct (H1 _ _ Hr) as (_ & _ & Hk). rewrite E in Hk. injection Hk as Hk.
           rewrite lookup_delete_Some. split.
           ++ intros [Hne Hk']. split; [|done]. intros ->. apply H3 in Hk' as (r' & Hr' & <- & _). by simplify_eq.
           ++ intros [Hne Hk']. split; [|done]. intros <-. rewrite Hu in Hk'. by simplify_eq.
        -- split; [|by intros []]. intros Hk'. split; [|done]. intros <-. apply Hu.
           pose proof Hk' as (r' & Hr' & <- & _)%H3. destruct (H1 _ _ Hr') as (_ & _ & Hk2). rewrite E in Hk2. by simplify_eq.
      * split; [|by intros []]. intros Hk'. split; [|done]. intros <-. apply H3 in Hk' as (r' & Hr' & _).
        destruct (H1 _ _ Hr') as (_ & _ & Hk2). by rewrite E in Hk2.
    + rewrite H3. naive_solver.
  - intros item Hi. rewrite lookup_delete_ne; [by apply H4|]. intros ->. apply (Hid _ (H4 _ Hi)). done.
  - intros id' r [_ Hr]%lookup_delete_Some. by apply H5.
  - intros id' r Hd [_ Hr]%lookup_delete_Some. by eapply H6.
  - done.
Qed.

Lemma evict_results_ok order : ∀ p pending failed dropped,
  0 ≤ result_capacity_ p → cache (maps p) pending (order ++ failed) dropped →
  let p' := evict_results order p in
  core p' = core p ∧ dropped_order_ p' = dropped_order_ p ∧
  Z.of_nat (length (result_order_ p')) ≤ result_capacity_ p ∧
  cache (maps p') pending (result_order_ p' ++ failed) dropped.
Proof.
  induction order as [|id order IH]; intros p pending failed dropped Hcap Hc; cbn [evict_results app] in *; [done|].
  destruct (Z.gtb_spec (Z.of_nat (length (id :: order))) (result_capacity_ p)) as [_|Hle]; [|done].
  destruct (results_ p !! id) as [r|] eqn:Er.
  2: { apply IH; [done|]. eapply cache_lists; [done| |done|done]. intros id' [r Hr].
       cbn in Hr. rewrite elem_of_cons. intros [->|?]; [by rewrite Er in Hr|done]. }
  destruct (is_pending r) eqn:Ep; unfold is_pending in Ep; bool_hyps.
  - (* a pending entry is only forgotten by the order *)
    assert (cache (maps p) pending (order ++ failed) dropped) as Hc'; [|by apply IH].
    destruct Hc as [H1 H2 H3 H4 H5 H6 H7]. split; [done..| |done|done].
    intros id' r' Hr'. specialize (H5 _ _ Hr'). destruct (sr_state r') eqn:E; try done;
      (apply elem_of_cons in H5 as [->|?]; [cbn in Hr'; rewrite Er in Hr'; simplify_eq; congruence|done]).
  - destruct (IH (EraseResultLocked id p) pending failed dropped) as (Hcore & Hd & Hl & Hc').
    + by rewrite erase_capacity.
    + eapply cache_lists; [apply erase_cache; [done|]| |done|done].
      * intros r' Hr'. rewrite Er in Hr'. by simplify_eq.
      * intros id' Hr'. cbn in Hr'. rewrite erase_results in Hr'. rewrite elem_of_cons. intros [->|?]; [|done].
        rewrite lookup_delete_eq in Hr'. by destruct Hr'.
    + cbn zeta in *. rewrite Hcore, erase_core, Hd, (proj2 (erase_orders id p)). split; [done|]. split; [done|].
      split; [|done]. by rewrite erase_capacity in Hl.
Qed.

Lemma evict_dropped_ok order : ∀ p pending finished,
  0 ≤ result_capacity_ p → cache (maps p) pending finished order →
  let p' := evict_dropped order p in
  core p' = core p ∧ result_order_ p' = result_order_ p ∧
  Z.of_nat (length (dropped_order_ p')) ≤ result_capacity_ p ∧
  cache (maps p') pending finished (dropped_order_ p').
Proof.
  induction order as [|id order IH]; intros p pending finished Hcap Hc; cbn [evict_dropped]; [done|].
  destruct (Z.gtb_spec (Z.of_nat (length (id :: order))) (result_capacity_ p)) as [_|Hle]; [|done].
  destruct (IH (EraseResultLocked id p) pending finished) as (Hcore & Hd & Hl & Hc').
  - by rewrite erase_capacity.
  - eapply cache_lists; [apply erase_cache; [done|]|done| |set_solver].
    + intros r Hr. rewrite (ca_dropped _ _ _ _ Hc id r); [done|left|done].
    + intros id' Hr'. cbn in Hr'. rewrite erase_results in Hr'. rewrite elem_of_cons. intros [->|?]; [|done].
      rewrite lookup_delete_eq in Hr'. by destruct Hr'.
  - cbn zeta in *. rewrite Hcore, erase_core, Hd, (proj1 (erase_orders id p)). split; [done|]. split; [done|].
    split; [|done]. by rewrite erase_capacity in Hl.
Qed.

(** A new entry takes the next identifier; [state] is pending, or dropped
    right away. *)
Lemma cache_fresh m pending finished dropped : cache m pending finished dropped → m_results m !! m_next m = None.
Proof.
  intros H. apply eq_None_not_Some. intros [r Hr]. destruct (ca_result _ _ _ _ H _ _ Hr) as (_ & ? & _). lia.
Qed.

Lemma cache_pending_fresh m pending finished dropped :
  cache m pending finished dropped → m_next m ∉ qi_id <$> pending.
Proof.
  intros H (item & E & Hi)%list_elem_of_fmap. apply (ca_pending _ _ _ _ H) in Hi. rewrite <-E in Hi.
  by rewrite (cache_fresh _ _ _ _ H) in Hi.
Qed.

Lemma cache_add m pending finished dropped raw :
  cache m pending finished dropped → 0 < m_next m → m_unique m !! MakeKey raw = None →
  let id := m_next m in
  cache (mkMaps (<[MakeKey raw := id]> (m_unique m)) (<[id := MakeKey raw]> (m_keys m))
           (<[id := pending_result (mkItem id raw)]> (m_results m)) (id + 1))
    (pending ++ [mkItem id raw]) finished dropped.
Proof.
  intros Hc Hpos Hu id. pose proof (cache_fresh _ _ _ _ Hc) as Hf. fold id in Hf.
  destruct Hc as [H1 H2 H3 H4 H5 H6 H7]. split; cbn.
  - intros id' r [[<- <-]|[Hne Hr]]%lookup_insert_Some; [cbn; rewrite lookup_insert_eq; repeat split; lia|].
    destruct (H1 _ _ Hr) as (? & ? & ?). rewrite lookup_insert_ne by done. repeat split; (done || lia).
  - intros id' k [[<- _]|[Hne Hk]]%lookup_insert_Some; [by rewrite lookup_insert_eq|].
    rewrite lookup_insert_ne by done. by eapply H2.
  - intros k id'. rewrite lookup_insert_Some. split.
    + intros [[<- <-]|[Hne Hk]]; [eexists; by rewrite lookup_insert_eq|].
      apply H3 in Hk as (r & Hr & ? & ?). exists r. rewrite lookup_insert_ne; [done|]. intros <-. by rewrite Hf in Hr.
    + intros (r & [[<- <-]|[Hne Hr]]%lookup_insert_Some & <- & Hs); [by left|]. right. split.
      * intros E. assert (m_unique m !! MakeKey raw = Some id') as F by (rewrite E; apply H3; eauto). by rewrite Hu in F.
      * apply H3. eauto.
  - intros item [Hi| ->%list_elem_of_singleton]%elem_of_app; [|by rewrite lookup_insert_eq].
    pose proof (H4 _ Hi) as Hr. rewrite lookup_insert_ne; [done|]. intros E. rewrite <-E in Hr. by rewrite Hf in Hr.
  - intros id' r [[<- <-]|[Hne Hr]]%lookup_insert_Some; cbn.
    + rewrite fmap_app. apply elem_of_app. right. by left.
    + specialize (H5 _ _ Hr). destruct (sr_state r); try done. rewrite fmap_app. apply elem_of_app. by left.
  - intros id' r Hd [[<- <-]|[Hne Hr]]%lookup_insert_Some; [|by eapply H6]. apply H7 in Hd. unfold id in Hd. lia.
  - intros id' Hd. apply H7 in Hd. lia.
Qed.

(** The entry just added is dropped: it keeps its result and its key, and the
    stack may be submitted again. *)
Lemma cache_drop m pending finished dropped raw :
  cache m pending finished dropped → 0 < m_next m → m_unique m !! MakeKey raw = None →
  let id := m_next m in
  cache (mkMaps (m_unique m) (<[id := MakeKey raw]> (m_keys m)) (<[id := mkResult id Dropped raw []]> (m_results m)) (id + 1))
    pending finished (dropped ++ [id]).
Proof.
  intros Hc Hpos Hu id. pose proof (cache_fresh _ _ _ _ Hc) as Hf. fold id in Hf.
  destruct Hc as [H1 H2 H3 H4 H5 H6 H7]. split; cbn.
  - intros id' r [[<- <-]|[Hne Hr]]%lookup_insert_Some; [cbn; rewrite lookup_insert_eq; repeat split; lia|].
    destruct (H1 _ _ Hr) as (? & ? & ?). rewrite lookup_insert_ne by done. repeat split; (done || lia).
  - intros id' k [[<- _]|[Hne Hk]]%lookup_insert_Some; [by rewrite lookup_insert_eq|].
    rewrite lookup_insert_ne by done. by eapply H2.
  - intros k id'. rewrite H3. split; intros (r & Hr & Hk & Hs); exists r.
    + rewrite lookup_insert_ne; [done|]. intros <-. by rewrite Hf in Hr.
    + apply lookup_insert_Some in Hr as [[<- <-]|[Hne Hr]]; [done|]. done.
  - intros item Hi. pose proof (H4 _ Hi) as Hr. rewrite lookup_insert_ne; [done|]. intros E. rewrite <-E in Hr. by rewrite Hf in Hr.
  - intros id' r [[<- <-]|[Hne Hr]]%lookup_insert_Some; cbn; [apply elem_of_app; right; by left|].
    specialize (H5 _ _ Hr). destruct (sr_state r); try done. apply elem_of_app. by left.
  - intros id' r [Hd| ->%list_elem_of_singleton]%elem_of_app [[? <-]|[Hne Hr]]%lookup_insert_Some; try done. by eapply H6.
  - intros id' [Hd| ->%list_elem_of_singleton]%elem_of_app; [|lia]. apply H7 in Hd. lia.
Qed.

(** A pending entry is finished; [c] is its result. *)
Lemma cache_finish m item pending finished dropped c :
  cache m (item :: pending) finished dropped → qi_id item ∉ qi_id <$> pending →
  sr_id c = qi_id item → sr_raw c = qi_raw item → (sr_state c = Resolved ∨ sr_state c = Failed) →
  cache (mkMaps (m_unique m) (m_keys m) (<[sr_id c := c]> (m_results m)) (m_next m))
    pending (finished ++ [sr_id c]) dropped.
Proof.
  intros Hc Hnot Eid Eraw Hst. destruct Hc as [H1 H2 H3 H4 H5 H6 H7].
  assert (m_results m !! sr_id c = Some (pending_result item)) as Hold by (rewrite Eid; apply H4; left).
  assert (sr_state c ≠ Dropped) as Hnd by (by destruct Hst as [-> | ->]).
  split; cbn.
  - intros id r [[<- <-]|[Hne Hr]]%lookup_insert_Some; [|by apply H1].
    destruct (H1 _ _ Hold) as (? & ? & ?). by rewrite Eraw.
  - intros id k Hk. destruct (decide (sr_id c = id)) as [<-|Hne]; [by rewrite lookup_insert_eq|].
    rewrite lookup_insert_ne by done. by eapply H2.
  - intros k id. rewrite H3. destruct (decide (sr_id c = id)) as [<-|Hne].
    + setoid_rewrite lookup_insert_eq. rewrite Hold. split.
      * intros (r & [= <-] & <- & _). exists c. by rewrite Eraw.
      * intros (r & [= <-] & <- & _). exists (pending_result item). by rewrite Eraw.
    + by setoid_rewrite lookup_insert_ne.
  - intros i Hi. rewrite lookup_insert_ne; [apply H4; by right|]. rewrite Eid. intros E. apply Hnot. rewrite E.
    by apply list_elem_of_fmap_2.
  - intros id r [[<- <-]|[Hne Hr]]%lookup_insert_Some.
    + assert (sr_id c ∈ finished ++ [sr_id c]) by (apply elem_of_app; right; by left). by destruct Hst as [-> | ->].
    + specialize (H5 _ _ Hr). destruct (sr_state r); try done; [|apply elem_of_app; by left..].
      cbn in H5. apply elem_of_cons in H5 as [->|?]; [congruence|done].
  - intros id r Hd [[<- <-]|[Hne Hr]]%lookup_insert_Some; [|by eapply H6].
    by specialize (H6 _ _ Hd Hold).
  - done.
Qed.

(** ** The critical sections *)

(** The pipeline while the worker holds the items [held]; [failed] are the
    results of a worker that could not start, which no order lists. *)
Record pipe_ok (p : Pipeline) (held : list QueueItem) (failed : list Z) : Prop := {
  po_ring : ring_ok p;
  po_capacity : result_capacity_ p = capacity_ p;
  po_next : 0 < next_id_ p < 2 ^ 64;
  po_cache : cache (maps p) (held ++ ring p) (result_order_ p ++ failed) (dropped_order_ p);
  po_ids : NoDup (qi_id <$> held ++ ring p);
  po_results : Z.of_nat (length (result_order_ p)) ≤ capacity_ p;
  po_dropped : Z.of_nat (length (dropped_order_ p)) ≤ capacity_ p;
}.

(** The fields that the caches and the queue do not touch. *)
Definition control (p : Pipeline) : Z * Z * bool * bool * bool * option Z :=
  (capacity_ p, active_ p, stopping_ p, joined_ p, shutdown_started_ p, worker_thread_id_ p).
Lemma control_core p p' : core p' = core p → control p' = control p.
Proof. intros E. change (control (core p') = control (core p)). by rewrite E. Qed.

Lemma pipe_ok_new capacity key_ready : capacity < 2 ^ 63 → pipe_ok (Pipeline_new capacity key_ready) [] [].
Proof.
  intros Hcap. assert (ring (Pipeline_new capacity key_ready) = []) as Er by (by destruct key_ready).
  assert (maps (Pipeline_new capacity key_ready) = mkMaps ∅ ∅ ∅ 1) as Em by (by destruct key_ready).
  assert (ring_ok (Pipeline_new capacity key_ready)) as Ho.
  { destruct key_ready; split; cbn; rewrite ?length_replicate; lia. }
  assert (result_order_ (Pipeline_new capacity key_ready) = []) as Eo by (by destruct key_ready).
  assert (dropped_order_ (Pipeline_new capacity key_ready) = []) as Ed by (by destruct key_ready).
  split; rewrite ?Er, ?Em, ?Eo, ?Ed; try done.
  - by destruct key_ready.
  - by destruct key_ready.
  - split; cbn.
    + intros id r Hr. by rewrite lookup_empty in Hr.
    + intros id k Hk. by rewrite lookup_empty in Hk.
    + intros k id. rewrite lookup_empty. split; [done|]. intros (r & Hr & _). by rewrite lookup_empty in Hr.
    + intros item. set_solver.
    + intros id r Hr. by rewrite lookup_empty in Hr.
    + intros id r. set_solver.
    + intros id. set_solver.
  - constructor.
  - destruct key_ready; cbn; lia.
  - destruct key_ready; cbn; lia.
Qed.

Lemma submit_drop_ok raw p held failed :
  pipe_ok p held failed → next_id_ p < 2 ^ 64 - 1 → unique_stacks_ p !! MakeKey raw = None →
  let id := next_id_ p in
  let pending := pending_result (mkItem id raw) in
  let p1 := p <| next_id_ := id ⊞ 1 |> <| unique_stacks_ := <[MakeKey raw := id]> (unique_stacks_ p) |>
              <| id_to_key_ := <[id := MakeKey raw]> (id_to_key_ p) |> <| results_ := <[id := pending]> (results_ p) |> in
  let p' := submit_drop id (MakeKey raw) pending p1 in
  pipe_ok p' held failed ∧ control p' = control p ∧ ring p' = ring p ∧ next_id_ p' = id + 1.
Proof.
  intros [H1 H2 H3 H4 H5 H6 H7] Hn Hu id pending p1. unfold submit_drop. set (p2 := _ <| dropped_order_ := _ |>).
  assert (maps p2 = mkMaps (unique_stacks_ p) (<[id := MakeKey raw]> (id_to_key_ p))
            (<[id := mkResult id Dropped raw []]> (results_ p)) (id + 1)) as Em.
  { unfold p2, p1, maps. cbn. rewrite insert_insert_eq, delete_insert_id by done. rewrite u64_small by lia. done. }
  pose proof (cache_drop _ _ _ _ raw H4 (proj1 H3) Hu) as Hc. cbv zeta in Hc. cbn [maps m_unique m_keys m_results m_next] in Hc.
  fold id in Hc. rewrite <-Em in Hc.
  destruct (evict_dropped_ok (dropped_order_ p2) p2 (held ++ ring p) (result_order_ p ++ failed)) as (Hcore & Ho & Hl & Hc').
  { change (result_capacity_ p2) with (result_capacity_ p). destruct H1. lia. }
  { done. }
  change (evict_dropped (dropped_order_ p2) p2) with (EvictDroppedCacheLocked p2) in *.
  set (p3 := EvictDroppedCacheLocked p2) in *.
  assert (ring p3 = ring p) as Er by (rewrite (ring_core p2 p3) by done; done).
  assert (control p3 = control p) as Ec by (rewrite (control_core p2 p3) by done; done).
  assert (next_id_ p3 = id + 1) as En.
  { change (next_id_ p3) with (next_id_ (core p3)). rewrite Hcore. cbn. apply u64_small. lia. }
  assert (ring_ok p3) as Hr by (apply (ring_ok_core p2); [done|]; by destruct H1).
  assert (result_capacity_ p3 = result_capacity_ p) as Erc
    by (change (result_capacity_ p3) with (result_capacity_ (core p3)); by rewrite Hcore).
  assert (capacity_ p3 = capacity_ p) as Ecap by (change (capacity_ p3) with (capacity_ (core p3)); by rewrite Hcore).
  split; [|done]. split; cbn [count]; rewrite ?Er.
  - by destruct Hr.
  - change (result_capacity_ p3 = capacity_ p3). by rewrite Erc, Ecap.
  - change (0 < next_id_ p3 < 2 ^ 64). rewrite En. lia.
  - change (cache (maps p3) (held ++ ring p3) (result_order_ p3 ++ failed) (dropped_order_ p3)).
    rewrite Er, Ho. exact Hc'.
  - change (NoDup (qi_id <$> held ++ ring p3)). by rewrite Er.
  - change (Z.of_nat (length (result_order_ p3)) ≤ capacity_ p3). by rewrite Ho, Ecap.
  - change (Z.of_nat (length (dropped_order_ p3)) ≤ capacity_ p3). rewrite Ecap, <-H2. exact Hl.
Qed.

Lemma submit_enqueue_ok raw p held failed :
  pipe_ok p held failed → next_id_ p < 2 ^ 64 - 1 → unique_stacks_ p !! MakeKey raw = None → queue_size_ p ≠ capacity_ p →
  let id := next_id_ p in
  let pending := pending_result (mkItem id raw) in
  let p1 := p <| next_id_ := id ⊞ 1 |> <| unique_stacks_ := <[MakeKey raw := id]> (unique_stacks_ p) |>
              <| id_to_key_ := <[id := MakeKey raw]> (id_to_key_ p) |> <| results_ := <[id := pending]> (results_ p) |> in
  let p' := submit_enqueue (mkItem id raw) p1 in
  pipe_ok p' held failed ∧ control p' = control p ∧ ring p' = ring p ++ [mkItem id raw] ∧ next_id_ p' = id + 1.
Proof.
  intros [H1 H2 H3 H4 H5 H6 H7] Hn Hu Hq id pending p1.
  assert (ring_ok p1) as Hr1 by (by destruct H1).
  destruct (ring_enqueue p1 (mkItem id raw) Hr1 Hq) as [Hr Er]. change (ring p1) with (ring p) in Er.
  set (p' := submit_enqueue (mkItem id raw) p1) in *.
  assert (u64 (id + 1) = id + 1) as Eid by (apply u64_small; lia).
  pose proof (cache_add _ _ _ _ raw H4 (proj1 H3) Hu) as Hc. cbv zeta in Hc. cbn [maps m_unique m_keys m_results m_next] in Hc.
  fold id in Hc. cbv zeta. split; [|by rewrite Er].
  assert (next_id_ p' = id + 1) as En by done.
  split; [done|done|rewrite En; lia| | |done|done].
  - rewrite Er, app_assoc. unfold maps. rewrite En. exact Hc.
  - rewrite Er, app_assoc, fmap_app. apply NoDup_app. split; [done|]. split; [|apply NoDup_singleton].
    intros x Hx ->%list_elem_of_singleton. by apply (cache_pending_fresh _ _ _ _ H4).
Qed.

Lemma submit_locked_ok raw p held failed res p' :
  pipe_ok p held failed → next_id_ p < 2 ^ 64 - 1 → submit_locked raw p = (res, p') →
  pipe_ok p' held failed ∧ control p' = control p ∧ next_id_ p ≤ next_id_ p' ∧
  (if sub_accepted res
   then stopping_ p = false ∧ sub_id res = next_id_ p ∧ next_id_ p' = next_id_ p + 1 ∧
        ring p' = ring p ++ [mkItem (sub_id res) raw]
   else ring p' = ring p).
Proof.
  intros Hp Hn. unfold submit_locked. destruct (stopping_ p) eqn:Es; [intros [= <- <-]; done || (repeat split; try done; lia)|].
  destruct (unique_stacks_ p !! MakeKey raw) as [existing|] eqn:Eu.
  - intros [= <- <-]. split; [|split; [done|split; [|done]]]; [|cbn; lia].
    destruct Hp as [H1 H2 H3 H4 H5 H6 H7]. split; try done. by destruct H1.
  - cbv zeta. cbn [queue_size_ capacity_ field_set].
    match goal with |- context [if ?b then _ else _] => change b with (queue_size_ p =? capacity_ p) end.
    destruct (queue_size_ p =? capacity_ p) eqn:Eq; bool_hyps; intros [= <- <-].
    + destruct (submit_drop_ok raw p held failed Hp Hn Eu) as (A & B & C & D).
      split; [exact A|]. split; [exact B|]. split; [|exact C]. etrans; [|apply Z.eq_le_incl; symmetry; exact D]. lia.
    + destruct (submit_enqueue_ok raw p held failed Hp Hn Eu Eq) as (A & B & C & D).
      split; [exact A|]. split; [exact B|]. split; [|by repeat split]. etrans; [|apply Z.eq_le_incl; symmetry; exact D]. lia.
Qed.

Lemma take_ok p failed :
  pipe_ok p [] failed → queue_size_ p ≠ 0 →
  let p' := (queue_pop p) <| active_ := active_ p ⊞ 1 |> in
  pipe_ok p' [queue_front p] failed ∧ ring p = queue_front p :: ring p'.
Proof.
  intros [H1 H2 H3 H4 H5 H6 H7] Hq p'. destruct (ring_pop p H1 Hq) as [Hr Er].
  change (ring (queue_pop p)) with (ring p') in Er. split; [|done]. cbn [app] in *. rewrite Er in H4, H5.
  split; try done. by destruct Hr.
Qed.

Definition finished_state (c : StackResult) : Prop := sr_state c = Resolved ∨ sr_state c = Failed.

(** Storing the result of an item, as the worker does on both of its paths. *)
Lemma store_ok c item p rest failed order :
  cache (maps p) (item :: rest) (order ++ failed) (dropped_order_ p) → qi_id item ∉ qi_id <$> rest →
  sr_id c = qi_id item → sr_raw c = qi_raw item → finished_state c →
  let p' := if bool_decide (is_Some (results_ p !! sr_id c)) then p <| results_ := <[sr_id c := c]> (results_ p) |> else p in
  p' = p <| results_ := <[sr_id c := c]> (results_ p) |> ∧
  cache (maps p') rest (sr_id c :: order ++ failed) (dropped_order_ p).
Proof.
  intros Hc Hnot Eid Eraw Hst p'.
  assert (is_Some (results_ p !! sr_id c)) as Hs.
  { rewrite Eid. exists (pending_result item). apply (ca_pending _ _ _ _ Hc). left. }
  assert (p' = p <| results_ := <[sr_id c := c]> (results_ p) |>) as E by (unfold p'; by rewrite bool_decide_true).
  split; [done|]. rewrite E.
  eapply cache_lists; [exact (cache_finish _ _ _ _ _ c Hc Hnot Eid Eraw Hst)| |done|done].
  intros id _. set_solver.
Qed.

Lemma worker_finish_ok c item p failed :
  pipe_ok p [item] failed → sr_id c = qi_id item → sr_raw c = qi_raw item → finished_state c →
  let p' := worker_finish c p in
  pipe_ok p' [] failed ∧ control p' = control p ∧ ring p' = ring p ∧ next_id_ p' = next_id_ p.
Proof.
  intros [H1 H2 H3 H4 H5 H6 H7] Eid Eraw Hst. unfold worker_finish.
  cbn [app fmap list_fmap] in H4, H5. apply NoDup_cons in H5 as [Hnot Hnd].
  destruct (store_ok c item p (ring p) failed _ H4 Hnot Eid Eraw Hst) as [-> Hc].
  set (p1 := _ <| result_order_ := _ |>).
  assert (cache (maps p1) (ring p) (result_order_ p1 ++ failed) (dropped_order_ p)) as Hc1.
  { eapply cache_lists; [exact Hc| |done|done]. intros id _. unfold p1. cbn. set_solver. }
  destruct (evict_results_ok (result_order_ p1) p1 (ring p) failed (dropped_order_ p)) as (Hcore & Hd & Hl & Hc').
  { change (result_capacity_ p1) with (result_capacity_ p). destruct H1. lia. }
  { done. }
  change (evict_results (result_order_ p1) p1) with (EvictResultCacheLocked p1) in *.
  set (p2 := EvictResultCacheLocked p1) in *.
  assert (pipe_ok p2 [] failed ∧ control p2 = control p ∧ ring p2 = ring p ∧ next_id_ p2 = next_id_ p) as (A & B & C & D).
  { assert (ring p2 = ring p) as Er by (rewrite (ring_core p1 p2) by done; done).
    assert (next_id_ p2 = next_id_ p) as En by (change (next_id_ p2) with (next_id_ (core p2)); by rewrite Hcore).
    assert (capacity_ p2 = capacity_ p) as Ecap by (change (capacity_ p2) with (capacity_ (core p2)); by rewrite Hcore).
    assert (result_capacity_ p2 = capacity_ p) as Erc
      by (change (result_capacity_ p2) with (result_capacity_ (core p2)); by rewrite Hcore).
    split; [|split; [by rewrite (control_core p1 p2) by done|done]].
    split; cbn [app]; rewrite ?Er, ?En, ?Ecap, ?Erc; try done.
    - apply (ring_ok_core p1); [done|]. by destruct H1.
    - by rewrite Hd.
    - rewrite <-H2. exact Hl.
    - by rewrite Hd. }
  cbv zeta. destruct (bool_decide _); (split; [|done]); destruct A as [A1 A2 A3 A4 A5 A6 A7]; split; try done; by destruct A1.
Qed.

Lemma fail_result_ok item p rest failed fs acc :
  ring_ok p → cache (maps p) (item :: rest) (result_order_ p ++ failed) (dropped_order_ p) → qi_id item ∉ qi_id <$> rest →
  fail_result item (acc, p) = fs →
  fst fs = acc ++ [mkResult (qi_id item) Failed (qi_raw item) []] ∧
  ring_ok (snd fs) ∧ ring (snd fs) = ring p ∧ control (snd fs) = control p ∧ next_id_ (snd fs) = next_id_ p ∧
  result_capacity_ (snd fs) = result_capacity_ p ∧ queue_size_ (snd fs) = queue_size_ p ∧
  queue_front (snd fs) = queue_front p ∧
  result_order_ (snd fs) = result_order_ p ∧ dropped_order_ (snd fs) = dropped_order_ p ∧
  cache (maps (snd fs)) rest (result_order_ p ++ qi_id item :: failed) (dropped_order_ p).
Proof.
  intros Ho Hc Hnot <-. unfold fail_result.
  destruct (store_ok (mkResult (qi_id item) Failed (qi_raw item) []) item p rest failed _ Hc Hnot) as [E Hc'];
    [done|done|by right|]. cbn [sr_id] in E, Hc'. cbv zeta in E. rewrite E. cbn [fst snd].
  split; [done|]. split; [by destruct Ho|]. do 8 (split; [done|]).
  rewrite E in Hc'. eapply cache_lists; [exact Hc'| |done|done].
  intros id _. set_solver.
Qed.

Lemma fail_queue_ok n : ∀ acc p failed,
  n = Z.to_nat (queue_size_ p) → ring_ok p → NoDup (qi_id <$> ring p) →
  cache (maps p) (ring p) (result_order_ p ++ failed) (dropped_order_ p) →
  let fs := fail_queue n (acc, p) in
  fst fs = acc ++ ((λ i, mkResult (qi_id i) Failed (qi_raw i) []) <$> ring p) ∧
  ring_ok (snd fs) ∧ queue_size_ (snd fs) = 0 ∧ control (snd fs) = control p ∧ next_id_ (snd fs) = next_id_ p ∧
  result_capacity_ (snd fs) = result_capacity_ p ∧
  result_order_ (snd fs) = result_order_ p ∧ dropped_order_ (snd fs) = dropped_order_ p ∧
  cache (maps (snd fs)) [] (result_order_ p ++ reverse (qi_id <$> ring p) ++ failed) (dropped_order_ p).
Proof.
  induction n as [|n IH]; intros acc p failed Hn Ho Hnd Hc; cbn [fail_queue].
  - assert (queue_size_ p = 0) as Hq by (destruct Ho; lia).
    assert (ring p = []) as Er by (unfold ring; by rewrite Hq). rewrite Er in *. cbn. rewrite app_nil_r. do 8 (split; [done|]). done.
  - assert (queue_size_ p ≠ 0) as Hq by lia. destruct (ring_pop p Ho Hq) as [Ho' Er]. rewrite Er in Hnd, Hc |- *.
    cbn [fmap list_fmap] in Hnd. apply NoDup_cons in Hnd as [Hnot Hnd].
    destruct (fail_result (queue_front (snd (acc, p))) (acc, p)) as [fr q] eqn:Ef. cbn [snd] in Ef.
    destruct (fail_result_ok _ _ _ _ _ _ Ho Hc Hnot Ef) as (F1 & F2 & F3 & F4 & F5 & F6 & F7 & F8 & F9 & F10 & F11).
    cbn [fst snd] in *. subst fr. destruct (ring_pop q F2 ltac:(lia)) as [Ho2 Er2]. rewrite F3, F8, Er in Er2. injection Er2 as Er2.
    destruct (IH (acc ++ [mkResult (qi_id (queue_front p)) Failed (qi_raw (queue_front p)) []]) (queue_pop q) (qi_id (queue_front p) :: failed))
      as (G1 & G2 & G3 & G4 & G5 & G6 & G7 & G8 & G9).
    + cbn. rewrite u64_small by (destruct Ho; lia). lia.
    + done.
    + by rewrite <-Er2.
    + rewrite <-Er2. change (maps (queue_pop q)) with (maps q). change (result_order_ (queue_pop q)) with (result_order_ q).
      change (dropped_order_ (queue_pop q)) with (dropped_order_ q). by rewrite F9, F10.
    + cbv zeta. rewrite G1, G4, G5, G6, G7, G8, <-Er2. split; [by rewrite <-app_assoc|].
      split; [done|]. split; [done|]. split; [exact F4|]. split; [exact F5|]. split; [exact F6|]. split; [exact F9|]. split; [exact F10|].
      rewrite fmap_cons, reverse_cons, <-app_assoc. cbn [app].
      change (result_order_ (queue_pop q)) with (result_order_ q) in G9. change (dropped_order_ (queue_pop q)) with (dropped_order_ q) in G9.
      by rewrite F9, F10, <-Er2 in G9.
Qed.

Lemma worker_fail_ok item p l p' :
  pipe_ok p [item] [] → worker_fail item p = (l, p') → active_ p = 1 →
  ∃ failed, pipe_ok p' [] failed ∧ Z.of_nat (length failed) ≤ capacity_ p + 1 ∧
    l = (λ i, mkResult (qi_id i) Failed (qi_raw i) []) <$> item :: ring p ∧
    queue_size_ p' = 0 ∧ active_ p' = 0 ∧ stopping_ p' = true ∧ next_id_ p' = next_id_ p ∧ capacity_ p' = capacity_ p ∧
    joined_ p' = joined_ p ∧ shutdown_started_ p' = shutdown_started_ p ∧ worker_thread_id_ p' = worker_thread_id_ p.
Proof.
  intros [H1 H2 H3 H4 H5 H6 H7] Hf Ha. unfold worker_fail in Hf. cbn [app fmap list_fmap] in H4, H5.
  apply NoDup_cons in H5 as [Hnot Hnd]. destruct (fail_result item ([], p)) as [fr q] eqn:Ef.
  destruct (fail_result_ok _ _ _ _ _ _ H1 H4 Hnot Ef) as (F1 & F2 & F3 & F4 & F5 & F6 & F7 & _ & F9 & F10 & F11).
  cbn [fst snd] in *.
  destruct (fail_queue_ok (Z.to_nat (queue_size_ q)) fr q [qi_id item]) as (G1 & G2 & G3 & G4 & G5 & G6 & G7 & G8 & G9);
    [done|done|by rewrite F3|by rewrite F3, F9, F10|].
  destruct (fail_queue _ (fr, q)) as [fr' q'] eqn:Eq. cbn [fst snd] in *. injection Hf as <- <-.
  exists (reverse (qi_id <$> ring p) ++ [qi_id item]). rewrite F3, F9, F10 in *.
  rewrite F4 in G4. unfold control in G4. injection G4 as E1 E2 E3 E4 E5 E6.
  assert (ring q' = []) as Er by (unfold ring; by rewrite G3).
  split; [|split].
  - split; cbn [app count]; try done.
    + by destruct G2.
    + cbn. by rewrite E1, G6, F6.
    + cbn. by rewrite G5, F5.
    + change (ring (count st_worker_start_failures _)) with (ring q'). rewrite Er. cbn. rewrite G7, G8. exact G9.
    + change (ring (count st_worker_start_failures _)) with (ring q'). rewrite Er. constructor.
    + cbn. by rewrite G7, E1.
    + cbn. by rewrite G8, E1.
  - rewrite length_app, length_reverse, length_fmap. cbn [length]. rewrite Nat2Z.inj_add, length_ring by done. destruct H1. lia.
  - rewrite G1, F1. cbn. rewrite E1, E2, E4, E5, E6, G3, G5, F5, Ha. by repeat split.
Qed.

Lemma release_ok id p held failed :
  pipe_ok p held failed →
  pipe_ok (snd (Release id p)) held (filter (λ i, i ≠ id) failed) ∧ control (snd (Release id p)) = control p ∧
  ring (snd (Release id p)) = ring p ∧ next_id_ (snd (Release id p)) = next_id_ p.
Proof.
  intros Hp. pose proof Hp as [H1 H2 H3 H4 H5 H6 H7].
  assert (∀ q, q = p → (∀ r, results_ p !! id = Some r → sr_state r = Pending) →
            pipe_ok q held (filter (λ i, i ≠ id) failed)) as Hno.
  { intros q -> Hpend. split; try done. destruct H4 as [C1 C2 C3 C4 C5 C6 C7]. split; try done. intros id' r Hr.
    specialize (C5 id' r Hr). destruct (sr_state r) eqn:Es; try done;
      (apply elem_of_app in C5 as [?|Hf]; apply elem_of_app; [by left|right; apply list_elem_of_filter; split; [|done]];
       intros ->; cbn in Hr; apply Hpend in Hr; congruence). }
  unfold Release. destruct (Z.eqb_spec id 0) as [->|Hz].
  { cbn [snd]. split; [|done]. apply Hno; [done|]. intros r Hr. destruct (ca_result _ _ _ _ H4 0 r Hr) as (_ & ? & _). lia. }
  destruct (results_ p !! id) as [r|] eqn:Er; [|cbn [snd]; split; [by apply Hno|done]].
  destruct (is_pending r) eqn:Ep; unfold is_pending in Ep; bool_hyps; cbn [snd].
  { split; [|done]. apply Hno; [done|]. intros r' [= <-]. done. }
  pose proof (erase_orders id p) as [Eo1 Eo2].
  set (q := EraseResultLocked id p) in *. assert (core q = core p) as Ec by apply erase_core.
  assert (cache (maps q) (held ++ ring p) (result_order_ p ++ failed) (dropped_order_ p)) as Hc.
  { apply erase_cache; [done|]. intros r' Hr'. rewrite Er in Hr'. by simplify_eq. }
  rewrite Eo1, Eo2.
  assert (ring q = ring p) as Erq by (by apply ring_core). assert (control q = control p) as Ecq by (by apply control_core).
  assert (next_id_ q = next_id_ p) as En by (change (next_id_ q) with (next_id_ (core q)); by rewrite Ec).
  assert (capacity_ q = capacity_ p) as Ecap by (change (capacity_ q) with (capacity_ (core q)); by rewrite Ec).
  assert (∀ l : list Z, length (filter (λ i, i ≠ id) l) ≤ length l)%nat as Hlen by (intros; apply length_filter).
  split; [|done]. split.
  - apply (ring_ok_core p); [|done]. exact Ec.
  - change (result_capacity_ q = capacity_ q). by rewrite (erase_capacity id p : result_capacity_ q = _), Ecap.
  - change (0 < next_id_ q < 2 ^ 64). by rewrite En.
  - change (cache (maps q) (held ++ ring q) (filter (λ i, i ≠ id) (result_order_ p) ++ filter (λ i, i ≠ id) failed)
              (filter (λ i, i ≠ id) (dropped_order_ p))). rewrite Erq, <-filter_app.
    assert (∀ (l : list Z) (id' : Z), is_Some (m_results (maps q) !! id') → id' ∈ l → id' ∈ filter (λ i, i ≠ id) l) as Hin.
    { intros l id' Hs Hl. apply list_elem_of_filter. split; [|done]. intros ->. cbn in Hs. unfold q in Hs.
      rewrite erase_results, lookup_delete_eq in Hs. by destruct Hs. }
    eapply cache_lists; [exact Hc|by apply Hin|by apply Hin|]. intros id' Hid%list_elem_of_filter. by destruct Hid.
  - change (NoDup (qi_id <$> held ++ ring q)). by rewrite Erq.
  - change (Z.of_nat (length (filter (λ i, i ≠ id) (result_order_ p))) ≤ capacity_ q). rewrite Ecap. specialize (Hlen (result_order_ p)). lia.
  - change (Z.of_nat (length (filter (λ i, i ≠ id) (dropped_order_ p))) ≤ capacity_ q). rewrite Ecap. specialize (Hlen (dropped_order_ p)). lia.
Qed.
