(* ===== verification/AsyncProps.v ===== *)
(** * Properties of the asynchronous pipeline

    Invariants of the transition system of [AsyncPipeline], by induction over
    its steps: accepted stacks are called back once and in order, the caches
    stay bounded and consistent, no thread sleeps through its condition, and
    every call returns. *)
From S2P Require Import Prelude Capture AsyncStack AsyncPipeline AsyncCache.
Import StackResolutionState.

(** ** The worker's share of the state *)

Definition held_items (w : WorkerPc) : list QueueItem :=
  match w with WMark item | WResolve item _ _ => [item] | _ => [] end.
(** Accepted identifiers that have left the queue and await their callback. *)
Definition inflight_ids (w : WorkerPc) : list Z :=
  match w with
  | WMark item | WResolve item _ _ => [qi_id item]
  | WCallback completed => [sr_id completed]
  | WFail failed => sr_id <$> failed
  | _ => []
  end.
Definition worker_active (w : WorkerPc) : Z :=
  match w with WMark _ | WResolve _ _ _ | WCallback _ | WDone => 1 | _ => 0 end.
Definition worker_over (w : WorkerPc) : bool :=
  match w with WNone | WFail _ | WExit | WExited => true | _ => false end.

(** What one object and one worker keep, whatever the clients do. *)
Record data_ok (p : Pipeline) (w : WorkerPc) (accepted : list Z) (called : list StackResult) : Prop := {
  do_pipe : ∃ failed, pipe_ok p (held_items w) failed ∧ Z.of_nat (length failed) ≤ capacity_ p + 1 ∧
              (failed ≠ [] → worker_over w = true);
  do_fifo : accepted = (sr_id <$> called) ++ inflight_ids w ++ (qi_id <$> ring p);
  do_ids : NoDup accepted ∧ Forall (λ id, 0 < id < next_id_ p) accepted;
  do_active : active_ p = worker_active w;
  do_over : worker_over w = true → stopping_ p = true ∧ queue_size_ p = 0;
}.

(** Fields other than the queue and the caches. *)
Definition quiet (p : Pipeline) : Pipeline :=
  p <| shutdown_started_ := false |> <| active_ := 0 |> <| stopping_ := false |> <| joined_ := false |>
    <| worker_thread_id_ := None |> <| stats_ := stats_init |>.
Lemma pipe_ok_quiet p q held failed : quiet q = quiet p → pipe_ok p held failed → pipe_ok q held failed.
Proof.
  intros E H. assert (∀ x, pipe_ok x held failed ↔ pipe_ok (quiet x) held failed) as Hq.
  { intros x. split; intros [H1 H2 H3 H4 H5 H6 H7]; split; try done; by destruct H1. }
  apply (proj2 (Hq q)). rewrite E. by apply (proj1 (Hq p)).
Qed.
Lemma data_ok_quiet p q w accepted called :
  quiet q = quiet p → active_ q = active_ p → (stopping_ p = true → stopping_ q = true) →
  data_ok p w accepted called → data_ok q w accepted called.
Proof.
  intros E Ea Es [(failed & H1 & H2 & H3) H4 H5 H6 H7].
  assert (∀ {A} (f : Pipeline → A), f (quiet q) = f (quiet p)) as Hf by (intros; by rewrite E). split.
  - exists failed. split; [by eapply pipe_ok_quiet|]. split; [|done].
    pose proof (Hf _ capacity_) as Ec. cbn in Ec. by rewrite Ec.
  - pose proof (Hf _ ring) as Er. change (ring q = ring p) in Er. by rewrite Er.
  - pose proof (Hf _ next_id_) as En. cbn in En. by rewrite En.
  - by rewrite Ea.
  - intros Hw. destruct (H7 Hw) as [? ?]. pose proof (Hf _ queue_size_) as Eq. cbn in Eq. rewrite Eq. auto.
Qed.

Lemma data_ok_wake p w accepted called : data_ok p w accepted called → data_ok p (wake_worker w) accepted called.
Proof. intros [H1 H2 H3 H4 H5]. by destruct w. Qed.

Lemma ring_empty p : ring p = [] ↔ queue_size_ p ≤ 0.
Proof.
  unfold ring. split; intros H.
  - apply (f_equal length) in H. rewrite length_fmap, length_seq in H. cbn in H. lia.
  - by replace (Z.to_nat (queue_size_ p)) with 0%nat by lia.
Qed.

Section data.
Context {R : Type} `{!ModuleResolver R} (symbolizer : Symbolizer) (platform : Platform) (worker_tid : Z).
Abbreviation data_of s := (data_ok (sy_pipe s) (sy_worker s) (sy_accepted s) (sy_called s)).

Lemma data_init capacity key_ready (r : R) : capacity < 2 ^ 63 → data_of (system_init capacity key_ready r).
Proof.
  intros Hcap. unfold system_init. cbn.
  assert (ring (Pipeline_new capacity key_ready) = []) as Er by (by destruct key_ready).
  assert (held_items (if key_ready then WStart else WNone) = []) as Eh by (by destruct key_ready).
  split.
  - exists []. rewrite Eh. split; [by apply pipe_ok_new|]. split; [destruct key_ready; cbn; lia|done].
  - rewrite Er. by destruct key_ready.
  - split; constructor.
  - by destruct key_ready.
  - by destruct key_ready.
Qed.

(** The worker moves on without touching the object. *)
Lemma data_move p w w' accepted called called' :
  data_ok p w accepted called → held_items w' = held_items w → worker_active w' = worker_active w →
  worker_over w' = worker_over w → (sr_id <$> called') ++ inflight_ids w' = (sr_id <$> called) ++ inflight_ids w →
  data_ok p w' accepted called'.
Proof.
  intros [H1 H2 H3 H4 H5] Eh Ea Eo Ei. split; rewrite ?Eh, ?Ea, ?Eo; try done.
  rewrite app_assoc, Ei, <-app_assoc. done.
Qed.

Lemma data_worker_step s s' : worker_step symbolizer platform worker_tid s s' → data_of s → data_of s'.
Proof.
  intros Hs Hd. destruct Hs as [s E|s m p E Ht|s m p E Ht|s m item p E Ht|s item E|s item failed p E Hf|s r failed E|s E
    |s item modules u E Hl|s item modules u dl E Hl completed|s completed E|s E p|s E]; cbn; rewrite E in Hd.
  - eapply data_ok_quiet; [..|eapply data_move; [exact Hd|done..]]; done.
  - unfold worker_take in Ht. destruct (negb _); [injection Ht as <-|by destruct (_ && _)].
    by eapply data_move.
  - unfold worker_take in Ht. destruct (negb _); [done|]. destruct (_ && _) eqn:Eb; [injection Ht as <-; bool_hyps|done].
    destruct Hd as [(failed & H1 & H2 & H3) H4 H5 H6 H7]. split; try done. by exists failed.
  - unfold worker_take in Ht. destruct (negb _) eqn:Eb; [done|]. destruct (_ && _) eqn:Eb'; [done|]. injection Ht as <- <-.
    destruct Hd as [(failed & H1 & H2 & H3) H4 H5 H6 H7]. cbn in H1, H4.
    assert (queue_size_ (sy_pipe s) ≠ 0) as Hq.
    { intros Hz. rewrite Hz in Eb, Eb'. cbn in *. destruct (stopping_ _); done. }
    destruct (take_ok _ _ H1 Hq) as [Ht Er]. cbv zeta in Ht, Er.
    set (w' := if m then WResolve (queue_front (sy_pipe s)) [] false else WMark (queue_front (sy_pipe s))).
    assert (held_items w' = [queue_front (sy_pipe s)]) as Eh by (by destruct m).
    assert (inflight_ids w' = [qi_id (queue_front (sy_pipe s))]) as Ei by (by destruct m).
    split; rewrite ?Eh, ?Ei.
    + exists failed. split; [done|]. split; [done|]. intros Hf. by apply H3 in Hf.
    + rewrite H4, Er. done.
    + done.
    + assert (worker_active w' = 1) as -> by (by destruct m). cbn. rewrite H6. done.
    + by destruct m.
  - by eapply data_move.
  - destruct Hd as [(failed0 & H1 & H2 & H3) H4 H5 H6 H7]. assert (failed0 = []) as -> by (destruct failed0; [done|]; by discriminate H3).
    destruct (worker_fail_ok item (sy_pipe s) failed p H1 Hf H6)
      as (ids & G1 & G2 & -> & G4 & G5 & G6 & G7 & G8 & _).
    assert (ring p = []) as Er by (apply ring_empty; lia). split.
    + exists ids. split; [done|]. by rewrite G8.
    + rewrite H4, Er, app_nil_r. cbn. f_equal. f_equal. by rewrite <-list_fmap_compose.
    + by rewrite G7.
    + done.
    + done.
  - eapply data_move; [exact Hd|done..|]. cbn. by rewrite fmap_app, <-app_assoc.
  - by eapply data_move.
  - unfold resolve_next. destruct (ResolveModule _ _ _); by eapply data_move.
  - destruct Hd as [(failed & H1 & H2 & H3) H4 H5 H6 H7]. assert (failed = []) as -> by (destruct failed; [done|]; by discriminate H3).
    destruct (worker_finish_ok completed item (sy_pipe s) []) as (G1 & G2 & G3 & G4); [done..| |].
    { unfold finished_state, completed, completed_result. cbn. destruct (_ && _); auto. }
    unfold control in G2. injection G2 as E1 E2 E3 E4 E5 E6. split.
    + exists []. split; [done|]. split; [rewrite E1; cbn; destruct H1 as [[? _ _ _] _ _ _ _ _ _]; lia|done].
    + by rewrite G3.
    + by rewrite G4.
    + by rewrite E2.
    + done.
  - eapply data_move; [exact Hd|done..|]. cbn. by rewrite fmap_app, <-app_assoc.
  - destruct Hd as [(failed & H1 & H2 & H3) H4 H5 H6 H7]. split; try done.
    + exists failed. split; [by eapply pipe_ok_quiet; [|exact H1]|done].
    + unfold p, worker_release. cbn. by rewrite H6.
  - by eapply data_move.
Qed.

Lemma data_client_step s s' : client_step s s' → data_of s → data_of s'.
Proof.
  intros Hs Hd. destruct Hs as [s t raw result p E Hn Hsub|s t E|s t l r E _ _ _|s t E _|s t E _|s t E _|s t p E Hstop
    |s t p E Hstop|s t E|s t E _]; cbn; try done.
  - destruct Hd as [(failed & H1 & H2 & H3) H4 H5 H6 H7].
    destruct (submit_locked_ok _ _ _ _ _ _ H1 Hn Hsub) as (G1 & G2 & G3 & G4).
    unfold control in G2. injection G2 as E1 E2 E3 E4 E5 E6. destruct H5 as [H5 H5'].
    destruct (sub_accepted result); [destruct G4 as (F1 & F2 & F3 & F4)|]; split; rewrite ?E1, ?E2.
    + by exists failed.
    + rewrite H4, F4, fmap_app. cbn. by rewrite <-!app_assoc.
    + split.
      * apply NoDup_app. split; [done|]. split; [|apply NoDup_singleton]. intros id Hid ->%list_elem_of_singleton.
        eapply Forall_forall in H5'; [|exact Hid]. cbn in H5'. lia.
      * apply Forall_app. rewrite F3. split; [eapply Forall_impl; [done|]; cbn; lia|].
        repeat constructor; destruct H1 as [_ _ [? ?] _ _ _ _]; lia.
    + done.
    + intros Hw. destruct (H7 Hw) as [F _]. by rewrite F1 in F.
    + by exists failed.
    + by rewrite app_nil_r, G4.
    + rewrite app_nil_r. split; [done|]. eapply Forall_impl; [done|]. cbn. lia.
    + done.
    + intros Hw. destruct (H7 Hw) as [F Fq]. split; [congruence|].
      assert (ring p = []) as Er by (rewrite G4; apply ring_empty; lia). apply ring_empty in Er.
      destruct G1 as [[_ _ _ ?] _ _ _ _ _ _]. lia.
  - by apply data_ok_wake.
  - unfold shutdown_stop in Hstop. destruct (joined_ _); [done|]. injection Hstop as <-. by eapply data_ok_quiet; [..|exact Hd].
  - unfold shutdown_stop in Hstop. destruct (joined_ _); [|done]. by injection Hstop as <-.
  - by apply data_ok_wake.
  - by eapply data_ok_quiet; [..|exact Hd].
Qed.

Lemma data_call_step s s' : call_step s s' → data_of s → data_of s'.
Proof.
  intros Hs Hd. destruct Hs as [s t input E Hi|s|s id|s t E Ht|s|s t E|s|s t E]; cbn; try done.
  - by eapply data_ok_quiet; [..|exact Hd].
  - destruct Hd as [(failed & H1 & H2 & H3) H4 H5 H6 H7].
    destruct (release_ok id _ _ _ H1) as (G1 & G2 & G3 & G4). unfold control in G2. injection G2 as E1 E2 E3 E4 E5 E6.
    split; rewrite ?E1, ?E2, ?E3, ?G3, ?G4; try done.
    + eexists. split; [done|]. split.
      * pose proof (length_filter (λ i, i ≠ id) failed). lia.
      * intros Hne. apply H3. intros ->. done.
    + intros Hw. destruct (H7 Hw) as [F Fq]. split; [done|].
      assert (ring (snd (Release id (sy_pipe s))) = []) as Er by (rewrite G3; apply ring_empty; lia). apply ring_empty in Er.
      destruct G1 as [[_ _ _ ?] _ _ _ _ _ _]. lia.
  - by eapply data_ok_quiet; [..|exact Hd].
  - by eapply data_ok_quiet; [..|exact Hd].
  - by apply data_ok_wake.
Qed.
End data.

(** ** No thread sleeps through its condition *)

Record sync_ok (p : Pipeline) (w : WorkerPc) (clients : gmap Z ClientPc) : Prop := {
  sk_worker m : w = WAsleep m → stopping_ p = true ∨ queue_size_ p ≠ 0 →
    ∃ t, clients !! t = Some CNotifyOne ∨ clients !! t = Some CShutdownNotify;
  sk_flush t : clients !! t = Some CFlushAsleep → pipeline_idle p = false ∨ ∃ l, w = WFail l;
  sk_join t : clients !! t = Some CShutdownNotify ∨ clients !! t = Some CShutdownJoin → stopping_ p = true;
}.

(** A client that is neither asleep nor about to notify goes elsewhere. *)
Definition client_plain (c : option ClientPc) : Prop :=
  match c with Some (CNotifyOne | CShutdownNotify | CFlushAsleep | CShutdownJoin) => False | _ => True end.
Lemma sync_update p w clients t c :
  sync_ok p w clients → (clients !! t ≠ Some CNotifyOne) → (clients !! t ≠ Some CShutdownNotify) → client_plain (Some c) →
  sync_ok p w (<[t := c]> clients).
Proof.
  intros [H1 H2 H3] Hn1 Hn2 Hc. split.
  - intros m Hw Hp. destruct (H1 m Hw Hp) as [t' Ht']. exists t'. rewrite lookup_insert_ne; [done|]. intros ->. naive_solver.
  - intros t' [[<- ->]|[_ Ht']]%lookup_insert_Some; [done|eauto].
  - intros t' [[[<- ->]|[_ Ht']]%lookup_insert_Some|[[<- ->]|[_ Ht']]%lookup_insert_Some]; [done|eauto|done|eauto].
Qed.
Lemma sync_delete p w clients t :
  sync_ok p w clients → (clients !! t ≠ Some CNotifyOne) → (clients !! t ≠ Some CShutdownNotify) →
  sync_ok p w (delete t clients).
Proof.
  intros [H1 H2 H3] Hn1 Hn2. split.
  - intros m Hw Hp. destruct (H1 m Hw Hp) as [t' Ht']. exists t'. rewrite lookup_delete_ne; [done|]. intros ->. naive_solver.
  - intros t' [_ Ht']%lookup_delete_Some. eauto.
  - intros t' [[_ Ht']%lookup_delete_Some|[_ Ht']%lookup_delete_Some]; eauto.
Qed.

(** The object changes but not what the sleepers wait for. *)
Lemma sync_object p q w w' clients :
  sync_ok p w clients → (pipeline_idle p = false → pipeline_idle q = false) → (stopping_ p = true → stopping_ q = true) →
  (∀ l, w = WFail l → ∃ l, w' = WFail l) →
  (∀ m, w' = WAsleep m → w = WAsleep m ∧ (stopping_ q = true ∨ queue_size_ q ≠ 0 → stopping_ p = true ∨ queue_size_ p ≠ 0)) →
  sync_ok q w' clients.
Proof.
  intros [H1 H2 H3] Hi Hs Hf Ha. split.
  - intros m Hw Hp. destruct (Ha m Hw) as [Hw' Hp']. eauto.
  - intros t Ht. destruct (H2 t Ht) as [?|[l Hl]]; [auto|right; eauto].
  - intros t Ht. eauto.
Qed.

Lemma sync_notify p q w w' clients :
  sync_ok p w clients → (∀ m, w' ≠ WAsleep m) → (stopping_ p = true → stopping_ q = true) →
  sync_ok q w' (notify_idle q clients).
Proof.
  intros [H1 H2 H3] Hw Hs. unfold notify_idle. destruct (pipeline_idle q) eqn:E.
  - split.
    + intros m Hm. by apply Hw in Hm.
    + intros t. rewrite lookup_fmap. destruct (clients !! t) as [[]|]; cbn; congruence.
    + intros t. rewrite lookup_fmap. intros Ht. apply Hs, (H3 t). destruct (clients !! t) as [[]|]; cbn in *; naive_solver.
  - split.
    + intros m Hm. by apply Hw in Hm.
    + by left.
    + intros t Ht. eauto.
Qed.

Lemma wake_not_asleep w m : wake_worker w ≠ WAsleep m.
Proof. by destruct w. Qed.

Lemma queue_size_ring p q : ring_ok p → ring_ok q → ring q = ring p → queue_size_ q = queue_size_ p.
Proof. intros Hp Hq E. by rewrite <-!length_ring, E. Qed.

Section sync.
Context {R : Type} `{!ModuleResolver R} (symbolizer : Symbolizer) (platform : Platform) (worker_tid : Z).
Abbreviation data_of s := (data_ok (sy_pipe s) (sy_worker s) (sy_accepted s) (sy_called s)).
Abbreviation sync_of s := (sync_ok (sy_pipe s) (sy_worker s) (sy_clients s)).

Lemma sync_init capacity key_ready (r : R) : sync_of (system_init capacity key_ready r).
Proof. split; cbn; [by destruct key_ready|by intros t; rewrite lookup_empty|intros t; rewrite lookup_empty; naive_solver]. Qed.

Lemma worker_finish_size c item p :
  pipe_ok p [item] [] → sr_id c = qi_id item → sr_raw c = qi_raw item → finished_state c →
  queue_size_ (worker_finish c p) = queue_size_ p ∧ active_ (worker_finish c p) = active_ p ∧
  stopping_ (worker_finish c p) = stopping_ p.
Proof.
  intros Hp E1 E2 Hst. destruct (worker_finish_ok c item p [] Hp E1 E2 Hst) as (G1 & G2 & G3 & _).
  unfold control in G2. injection G2 as ? ? ? ? ? ?. split; [|done].
  apply queue_size_ring; [by destruct Hp|by destruct G1|done].
Qed.

Lemma sync_worker_step s s' :
  worker_step symbolizer platform worker_tid s s' → data_of s → sync_of s → sync_of s'.
Proof.
  intros Hs Hd Hk. destruct Hs as [s E|s m p E Ht|s m p E Ht|s m item p E Ht|s item E|s item failed p E Hf|s r failed E|s E
    |s item modules u E Hl|s item modules u dl E Hl completed|s completed E|s E p|s E]; cbn; rewrite E in Hd, Hk.
  - by eapply sync_object.
  - unfold worker_take in Ht. destruct (negb _) eqn:Eb; [injection Ht as <-|by destruct (_ && _)].
    destruct Hk as [H1 H2 H3]. split; [|intros t Ht; destruct (H2 t Ht) as [?|[l ?]]; [by left|done]|done].
    intros m' _ [F|F]; [rewrite F in Eb; done|]. apply Z.eqb_neq in F. rewrite F, orb_true_r in Eb. done.
  - unfold worker_take in Ht. destruct (negb _); [done|]. destruct (_ && _); [injection Ht as <-|done]. by eapply sync_object.
  - unfold worker_take in Ht. destruct (negb _); [done|]. destruct (_ && _); [done|]. injection Ht as <- <-.
    eapply sync_object; [exact Hk| |done|done|by destruct m].
    intros _. unfold pipeline_idle. cbn. rewrite (do_active _ _ _ _ Hd). cbn. by rewrite andb_false_r.
  - by eapply sync_object.
  - destruct Hd as [(failed0 & H1 & _ & H3) _ _ H6 _]. assert (failed0 = []) as -> by (destruct failed0; [done|]; by discriminate H3).
    destruct (worker_fail_ok item (sy_pipe s) failed p H1 Hf H6) as (_ & _ & _ & _ & _ & _ & G6 & _).
    split; [done|right; by eexists|done].
  - eapply sync_object; [exact Hk|done|done| |done]. intros l _. by eexists.
  - by eapply sync_notify.
  - eapply sync_object; [exact Hk|done|done|done|]. unfold resolve_next. by destruct (ResolveModule _ _ _).
  - destruct Hd as [(failed & H1 & _ & H3) _ _ _ _]. assert (failed = []) as -> by (destruct failed; [done|]; by discriminate H3).
    destruct (worker_finish_size completed item (sy_pipe s) H1) as (G1 & G2 & G3); [done..| |].
    { unfold finished_state, completed, completed_result. cbn. destruct (_ && _); auto. }
    eapply sync_object; [exact Hk| |by rewrite G3|done|done]. unfold pipeline_idle. by rewrite G1, G2.
  - by eapply sync_object.
  - by eapply sync_notify.
  - by eapply sync_notify.
Qed.

Lemma sync_client_step s s' : client_step s s' → data_of s → sync_of s → sync_of s'.
Proof.
  intros Hs Hd Hk. destruct Hs as [s t raw result p E Hn Hsub|s t E|s t l r E _ _ _|s t E _|s t E _|s t E Hi|s t p E Hstop
    |s t p E Hstop|s t E|s t E _]; cbn.
  - destruct Hd as [(failed & H1 & _ & _) _ _ _ _].
    destruct (submit_locked_ok _ _ _ _ _ _ H1 Hn Hsub) as (G1 & G2 & _ & G4).
    unfold control in G2. injection G2 as _ E2 E3 _ _ _. pose proof (po_ring _ _ _ H1) as Ho. pose proof (po_ring _ _ _ G1) as Ho'.
    pose proof (length_ring _ Ho) as L. pose proof (length_ring _ Ho') as L'. destruct (sub_accepted result).
    + destruct G4 as (_ & _ & _ & Er). rewrite Er, length_app in L'. cbn in L'. destruct Hk as [H2 H3 H4]. split.
      * intros m _ _. exists t. left. apply lookup_insert_eq.
      * intros t' [[_ ?]|[_ Ht']]%lookup_insert_Some; [done|]. left. unfold pipeline_idle.
        rewrite (proj2 (Z.eqb_neq (queue_size_ p) 0)) by lia. done.
      * intros t' Ht'. rewrite E3. apply (H4 t'). rewrite !lookup_insert_Some in Ht'. naive_solver.
    + rewrite G4 in L'. eapply sync_object; [apply (sync_delete _ _ _ t Hk); rewrite E; done| | |by eauto|].
      * unfold pipeline_idle. by rewrite E2, <-L', L.
      * by rewrite E3.
      * intros m Hm. by rewrite E3, <-L', L.
  - destruct Hk as [H1 H2 H3]. split.
    + intros m Hm. by apply wake_not_asleep in Hm.
    + intros t' [_ Ht']%lookup_delete_Some. destruct (H2 _ Ht') as [?|[l ->]]; [by left|right; by eexists].
    + intros t' [[_ Ht']%lookup_delete_Some|[_ Ht']%lookup_delete_Some]; eauto.
  - by apply sync_update; [|rewrite E..|].
  - by apply sync_update; [|rewrite E..|].
  - by apply sync_delete; [|rewrite E..].
  - destruct Hk as [H1 H2 H3]. split.
    + intros m Hw Hp. destruct (H1 m Hw Hp) as [t' Ht']. exists t'. rewrite lookup_insert_ne; [done|]. intros ->. naive_solver.
    + intros t' [[_ _]|[_ Ht']]%lookup_insert_Some; [by left|eauto].
    + intros t' Ht'. apply (H3 t'). rewrite !lookup_insert_Some in Ht'. naive_solver.
  - unfold shutdown_stop in Hstop. destruct (joined_ _); [done|]. injection Hstop as <-. destruct Hk as [H1 H2 H3]. split.
    + intros m _ _. exists t. right. apply lookup_insert_eq.
    + intros t' [[_ ?]|[_ Ht']]%lookup_insert_Some; [done|]. exact (H2 _ Ht').
    + done.
  - unfold shutdown_stop in Hstop. destruct (joined_ _); [|done]. injection Hstop as <-. by apply sync_delete; [|rewrite E..].
  - destruct Hk as [H1 H2 H3]. split.
    + intros m Hm. by apply wake_not_asleep in Hm.
    + intros t' [[_ ?]|[_ Ht']]%lookup_insert_Some; [done|]. destruct (H2 _ Ht') as [?|[l ->]]; [by left|right; by eexists].
    + intros t' Ht'. apply (H3 t). by left.
  - eapply sync_object; [apply (sync_delete _ _ _ t Hk); rewrite E; done|done|done|by eauto|done].
Qed.

Lemma sync_call_step s s' : call_step s s' → data_of s → sync_of s → sync_of s'.
Proof.
  intros Hs Hd Hk. destruct Hs as [s t input E Hi|s|s id|s t E Ht|s|s t E|s|s t E]; cbn.
  - by apply sync_update; [|rewrite E..|].
  - eapply sync_object; [exact Hk|done|done|by eauto|done].
  - destruct Hd as [(failed & H1 & _ & _) _ _ _ _]. destruct (release_ok id _ _ _ H1) as (G1 & G2 & G3 & _).
    unfold control in G2. injection G2 as _ E2 E3 _ _ _.
    assert (queue_size_ (snd (Release id (sy_pipe s))) = queue_size_ (sy_pipe s)) as Eq
      by (apply queue_size_ring; [by destruct H1|by destruct G1|done]).
    eapply sync_object; [exact Hk| | |by eauto|]; unfold pipeline_idle; rewrite ?Eq, ?E2, ?E3; naive_solver.
  - by apply sync_update; [|rewrite E..|].
  - eapply sync_object; [exact Hk|done|done|by eauto|done].
  - apply sync_update; [|rewrite E; done..|done]. eapply sync_object; [exact Hk|done|done|by eauto|done].
  - eapply sync_object; [exact Hk|done|done|intros l ->; by eexists|]. intros m Hm. by apply wake_not_asleep in Hm.
  - by apply sync_update; [|rewrite E..|].
Qed.
End sync.

(** ** Every call returns *)

Definition frames_of (raw : RawStackRecord) : Z := Z.max 0 (frame_count raw).
Definition item_cost (item : QueueItem) : Z := 8 + frames_of (qi_raw item).
Definition worker_cost (w : WorkerPc) : Z :=
  match w with
  | WNone | WExited => 0
  | WExit | WAsleep _ => 1
  | WReady _ => 2
  | WStart | WDone => 3
  | WCallback _ => 4
  | WResolve item modules _ => 5 + Z.max 0 (frame_count (qi_raw item) - Z.of_nat (length modules))
  | WMark item => 6 + frames_of (qi_raw item)
  | WFail failed => 1 + Z.of_nat (length failed)
  end.
Definition client_work (c : ClientPc) : Z :=
  match c with
  | CSubmit raw => 11 + frames_of raw
  | CShutdownStop => 3
  | CNotifyOne | CShutdownNotify => 2
  | CFlushRefresh | CFlushWait | CFlushAsleep | CShutdownJoin => 0
  end.
Definition client_rest (c : ClientPc) : Z :=
  match c with
  | CFlushRefresh => 3
  | CFlushWait => 2
  | CFlushAsleep | CShutdownJoin => 1
  | _ => 0
  end.

Lemma item_cost_pos item : 8 ≤ item_cost item.
Proof. unfold item_cost, frames_of. lia. Qed.
Lemma worker_cost_nonneg w : 0 ≤ worker_cost w.
Proof. destruct w; unfold worker_cost, frames_of; lia. Qed.
Lemma client_work_nonneg c : 0 ≤ client_work c.
Proof. destruct c; unfold client_work, frames_of; lia. Qed.
Lemma client_rest_nonneg c : 0 ≤ client_rest c.
Proof. destruct c; cbn; lia. Qed.
Lemma wake_worker_cost w : worker_cost (wake_worker w) ≤ worker_cost w + 1.
Proof. destruct w; cbn; lia. Qed.

Lemma notify_work p clients : map_sum client_work (notify_idle p clients) = map_sum client_work clients.
Proof.
  unfold notify_idle. destruct (pipeline_idle p); [|done]. rewrite map_sum_fmap. apply map_sum_ext. by intros _ [] _.
Qed.

Lemma list_sum_length {A} (f : A → Z) l : (∀ x, 1 ≤ f x) → Z.of_nat (length l) ≤ list_sum f l.
Proof. intros Hf. induction l as [|x l IH]; cbn; [lia|]. specialize (Hf x). lia. Qed.

Section termination.
Context {R : Type} `{!ModuleResolver R} (symbolizer : Symbolizer) (platform : Platform) (worker_tid : Z).
Abbreviation data_of s := (data_ok (sy_pipe s) (sy_worker s) (sy_accepted s) (sy_called s)).

Definition system_work (s : System R) : Z :=
  worker_cost (sy_worker s) + list_sum item_cost (ring (sy_pipe s)) + map_sum client_work (sy_clients s).
Definition system_rest (s : System R) : Z := map_sum client_rest (sy_clients s).

Lemma system_work_nonneg s : 0 ≤ system_work s.
Proof.
  unfold system_work. pose proof (worker_cost_nonneg (sy_worker s)).
  assert (0 ≤ list_sum item_cost (ring (sy_pipe s))) by (apply list_sum_nonneg; intros x _; pose proof (item_cost_pos x); lia).
  assert (0 ≤ map_sum client_work (sy_clients s)) by (apply map_sum_nonneg; intros; apply client_work_nonneg). lia.
Qed.
Lemma system_rest_nonneg s : 0 ≤ system_rest s.
Proof. apply map_sum_nonneg. intros. apply client_rest_nonneg. Qed.

Lemma worker_step_work s s' :
  worker_step symbolizer platform worker_tid s s' → data_of s → system_work s' < system_work s.
Proof.
  intros Hs Hd. unfold system_work. destruct Hs as [s E|s m p E Ht|s m p E Ht|s m item p E Ht|s item E|s item failed p E Hf
    |s r failed E|s E|s item modules u E Hl|s item modules u dl E Hl completed|s completed E|s E p|s E];
    cbn [sy_pipe sy_worker sy_clients field_set]; rewrite ?notify_work; rewrite E in *.
  - change (ring _) with (ring (sy_pipe s)) at 1. cbn. lia.
  - unfold worker_take in Ht. destruct (negb _); [injection Ht as <-|by destruct (_ && _)]. cbn. lia.
  - unfold worker_take in Ht. destruct (negb _); [done|]. destruct (_ && _); [injection Ht as <-|done]. cbn. lia.
  - unfold worker_take in Ht. destruct (negb _) eqn:Eb; [done|]. destruct (_ && _) eqn:Eb'; [done|]. injection Ht as <- <-.
    destruct Hd as [(failed & H1 & _ & _) _ _ _ _].
    assert (queue_size_ (sy_pipe s) ≠ 0) as Hq.
    { intros Hz. rewrite Hz in Eb, Eb'. cbn in *. destruct (stopping_ _); done. }
    destruct (take_ok _ _ H1 Hq) as [_ Er]. cbv zeta in Er. rewrite Er. cbn [list_sum]. unfold item_cost at 2.
    set (item := queue_front (sy_pipe s)). destruct m; cbn -[ring list_sum item]; unfold frames_of; lia.
  - cbn -[ring]. unfold frames_of. lia.
  - destruct Hd as [(failed0 & H1 & _ & H3) _ _ H6 _]. assert (failed0 = []) as -> by (destruct failed0; [done|]; by discriminate H3).
    destruct (worker_fail_ok item (sy_pipe s) failed p H1 Hf H6) as (_ & _ & _ & -> & G4 & _).
    rewrite (proj2 (ring_empty p)) by lia. cbn [list_sum worker_cost]. rewrite length_fmap. cbn [length].
    pose proof (list_sum_length item_cost (ring (sy_pipe s)) ltac:(intros x; pose proof (item_cost_pos x); lia)).
    unfold frames_of. lia.
  - cbn -[ring]. lia.
  - cbn -[ring]. lia.
  - unfold resolve_next. destruct (ResolveModule _ _ _); cbn -[ring]; rewrite length_app; cbn [length]; lia.
  - destruct Hd as [(failed & H1 & _ & H3) _ _ _ _]. assert (failed = []) as -> by (destruct failed; [done|]; by discriminate H3).
    destruct (worker_finish_ok completed item (sy_pipe s) []) as (_ & _ & G3 & _); [done..| |].
    { unfold finished_state, completed, completed_result. cbn. destruct (_ && _); auto. }
    rewrite G3. cbn -[ring]. lia.
  - cbn -[ring]. lia.
  - change (ring p) with (ring (sy_pipe s)). cbn -[ring]. lia.
  - cbn -[ring]. lia.
Qed.

Lemma client_step_work s s' :
  client_step s s' → data_of s →
  system_work s' < system_work s ∨ (system_work s' = system_work s ∧ system_rest s' < system_rest s).
Proof.
  intros Hs Hd. unfold system_work, system_rest.
  destruct Hs as [s t raw result p E Hn Hsub|s t E|s t l r E _ _ _|s t E _|s t E _|s t E Hi|s t p E Hstop
    |s t p E Hstop|s t E|s t E _]; cbn [sy_pipe sy_worker sy_clients field_set].
  - left. destruct Hd as [(failed & H1 & _ & _) _ _ _ _].
    destruct (submit_locked_ok _ _ _ _ _ _ H1 Hn Hsub) as (_ & _ & _ & G4). destruct (sub_accepted result).
    + destruct G4 as (_ & _ & _ & ->). rewrite list_sum_app, map_sum_insert, E. cbn. unfold item_cost at 2. cbn. lia.
    + rewrite G4, map_sum_delete_default, E. cbn. unfold frames_of. lia.
  - left. rewrite map_sum_delete_default, E. cbn. pose proof (wake_worker_cost (sy_worker s)). lia.
  - right. rewrite !map_sum_insert, E. cbn. lia.
  - right. rewrite !map_sum_insert, E. cbn. lia.
  - right. rewrite !map_sum_delete_default, E. cbn. lia.
  - right. rewrite !map_sum_insert, E. cbn. lia.
  - left. unfold shutdown_stop in Hstop. destruct (joined_ _); [done|]. injection Hstop as <-.
    rewrite map_sum_insert, E. change (ring _) with (ring (sy_pipe s)) at 1. cbn. lia.
  - left. unfold shutdown_stop in Hstop. destruct (joined_ _); [|done]. injection Hstop as <-.
    rewrite map_sum_delete_default, E. cbn. lia.
  - left. rewrite map_sum_insert, E. cbn. pose proof (wake_worker_cost (sy_worker s)). lia.
  - right. rewrite !map_sum_delete_default, E. change (ring _) with (ring (sy_pipe s)) at 1. cbn. lia.
Qed.
End termination.

(** ** Reachable states *)

Lemma dom_size_le {A} (m : gmap Z A) (l : list Z) : (∀ k, is_Some (m !! k) → k ∈ l) → (size m ≤ length l)%nat.
Proof.
  intros H. rewrite <-length_map_to_list, <-(length_fmap fst). apply submseteq_length, NoDup_submseteq.
  - apply NoDup_fst_map_to_list.
  - intros k (kx & -> & Hk)%list_elem_of_fmap. destruct kx as [k x]. apply elem_of_map_to_list in Hk. apply H. by eexists.
Qed.

Section reachable.
Context {R : Type} `{!ModuleResolver R} (ok : R → Prop) `{!ResolverLaws R ok}.
Context (symbolizer : Symbolizer) (platform : Platform) (worker_tid : Z).
Abbreviation inner := (inner_step symbolizer platform worker_tid).
Abbreviation astep := (async_step symbolizer platform worker_tid).

Definition system_ok (s : System R) : Prop :=
  data_ok (sy_pipe s) (sy_worker s) (sy_accepted s) (sy_called s) ∧
  sync_ok (sy_pipe s) (sy_worker s) (sy_clients s) ∧ ok (sy_resolver s).

Lemma system_ok_init capacity key_ready r : capacity < 2 ^ 63 → ok r → system_ok (system_init capacity key_ready r).
Proof using Type. intros. split; [by apply data_init|]. split; [by apply sync_init|done]. Qed.

Lemma resolver_step s s' : astep s s' → ok (sy_resolver s) → ok (sy_resolver s') ∧ resolver_le (sy_resolver s) (sy_resolver s').
Proof using ResolverLaws0.
  intros [[Hs|Hs]|Hs] Ho; destruct Hs; cbn; try (split; [done|apply resolver_le_refl]).
  split; [by eapply refresh_ok|by eapply refresh_le].
Qed.

Lemma system_ok_step s s' : astep s s' → system_ok s → system_ok s'.
Proof using ResolverLaws0.
  intros Hs (Hd & Hk & Ho). destruct (resolver_step _ _ Hs Ho) as [Ho' _].
  destruct Hs as [[Hs|Hs]|Hs]; (split; [|split; [|done]]);
    eauto using data_worker_step, data_client_step, data_call_step, sync_worker_step, sync_client_step, sync_call_step.
Qed.

Lemma system_ok_reachable s s' : rtc astep s s' → system_ok s → system_ok s'.
Proof using ResolverLaws0. induction 1; eauto using system_ok_step. Qed.

Lemma inner_terminates s : system_ok s → sn inner s.
Proof using ResolverLaws0.
  intros Hs. remember (Z.to_nat (system_work s)) as n eqn:En. revert s Hs En.
  induction (lt_wf n) as [n _ IHn]; intros s Hs En.
  remember (Z.to_nat (system_rest s)) as k eqn:Ek. revert s Hs En Ek.
  induction (lt_wf k) as [k _ IHk]; intros s Hs En Ek. constructor. intros s' Hi. unfold flip in Hi.
  assert (system_ok s') as Hs' by (eapply system_ok_step; [|done]; by left).
  pose proof (system_work_nonneg s'). pose proof (system_rest_nonneg s'). destruct Hs as (Hd & _ & _).
  destruct Hi as [Hw|Hc].
  - eapply worker_step_work in Hw; [|done]. eapply (IHn (Z.to_nat (system_work s'))); [lia|done|done].
  - eapply client_step_work in Hc as [?|[? ?]]; [| |done].
    + eapply (IHn (Z.to_nat (system_work s'))); [lia|done|done].
    + eapply (IHk (Z.to_nat (system_rest s'))); [lia|done|congruence|done].
Qed.

(** When nothing can move inside, the worker is at rest and nobody waits. *)
Definition at_rest (s : System R) : Prop :=
  sy_clients s = ∅ ∧ pipeline_idle (sy_pipe s) = true ∧
  (sy_worker s = WNone ∨ sy_worker s = WExited ∨ ∃ m, sy_worker s = WAsleep m ∧ stopping_ (sy_pipe s) = false).

Lemma worker_moves s :
  (∀ s', ¬ worker_step symbolizer platform worker_tid s s') →
  sy_worker s = WNone ∨ sy_worker s = WExited ∨ ∃ m, sy_worker s = WAsleep m.
Proof using Type.
  intros Hno. destruct (sy_worker s) as [| |m|m|item|item modules u|c| |l| |] eqn:E; eauto; exfalso.
  - by eapply Hno, W_start.
  - destruct (worker_take (sy_pipe s)) as [[| |item] p] eqn:Et; eapply Hno;
      [by eapply W_sleep|by eapply W_break|by eapply W_take].
  - by eapply Hno, W_marked.
  - destruct (Z.lt_ge_cases (Z.of_nat (length modules)) (frame_count (qi_raw item)));
      eapply Hno; [by eapply W_resolve|by apply (W_finish _ _ _ s item modules u (λ _, None))].
  - by eapply Hno, W_callback.
  - by eapply Hno, W_done.
  - destruct l as [|r l]; eapply Hno; [by eapply W_fail_exit|by eapply W_fail_callback].
  - by eapply Hno, W_exit.
Qed.

Lemma stuck_at_rest s :
  system_ok s → next_id_ (sy_pipe s) < 2 ^ 64 - 1 → CurrentGeneration (sy_resolver s) < 2 ^ 64 - 1 →
  nf inner s → at_rest s.
Proof using ResolverLaws0.
  intros (Hd & Hk & Ho) Hid Hgen Hnf.
  assert (∀ s', ¬ worker_step symbolizer platform worker_tid s s') as Hw by (intros s' ?; apply Hnf; exists s'; by left).
  assert (∀ s', ¬ client_step s s') as Hc by (intros s' ?; apply Hnf; exists s'; by right).
  assert (∀ t, sy_clients s !! t ≠ Some CNotifyOne ∧ sy_clients s !! t ≠ Some CShutdownNotify) as Hnn.
  { intros t. split; intros E; eapply Hc; [by eapply C_notify_one|by eapply C_notify_all]. }
  apply worker_moves in Hw.
  assert (queue_size_ (sy_pipe s) = 0 ∧ ∀ m, sy_worker s = WAsleep m → stopping_ (sy_pipe s) = false) as [Hq Hs].
  { destruct Hw as [E|[E|[m E]]]; [destruct (do_over _ _ _ _ Hd) as [_ ?]; [by rewrite E|split; [done|congruence]]..|].
    destruct (decide (stopping_ (sy_pipe s) = true ∨ queue_size_ (sy_pipe s) ≠ 0)) as [Hp|Hp].
    - destruct (sk_worker _ _ _ Hk m E Hp) as [t Ht]. specialize (Hnn t). naive_solver.
    - split; [|intros _ _; apply not_true_is_false]; naive_solver lia. }
  assert (pipeline_idle (sy_pipe s) = true) as Hi.
  { unfold pipeline_idle. rewrite Hq, (do_active _ _ _ _ Hd). by destruct Hw as [->|[->|[m ->]]]. }
  split; [|split; [done|destruct Hw as [?|[?|[m E]]]; eauto 6]].
  apply map_eq. intros t. rewrite lookup_empty. destruct (sy_clients s !! t) as [c|] eqn:E; [exfalso|done].
  destruct c as [raw| | | | | | |].
  - destruct (submit_locked raw (sy_pipe s)) as [res p] eqn:Esub. by eapply Hc, C_submit.
  - by destruct (Hnn t).
  - destruct (shutdown_started_ (sy_pipe s)) eqn:Esh; [by eapply Hc, C_no_refresh|].
    destruct (refresh_exists _ Ho) as (l & r & Hr). by eapply Hc, C_refresh.
  - by eapply Hc, C_flushed.
  - destruct (sk_flush _ _ _ Hk t E) as [F|[l F]]; [congruence|]. rewrite F in Hw. naive_solver.
  - destruct (shutdown_stop (sy_pipe s)) as [[] p] eqn:Est; eapply Hc; [by eapply C_stop|by eapply C_stopped].
  - by destruct (Hnn t).
  - destruct Hw as [F|[F|[m F]]]; [eapply Hc, C_join; [done|by right]|eapply Hc, C_join; [done|by left]|].
    rewrite (sk_join _ _ _ Hk t) in Hs by (by right). by discriminate (Hs m F).
Qed.

(** C2. Accepted stacks are called back exactly once and in the order they were
    accepted, in every interleaving of the threads: the accepted identifiers are
    those called back, then what the worker holds, then the queue, and no
    identifier is given out twice.  So whenever the queue is empty and nothing is
    active, which is when [Flush] returns, every accepted stack has been called
    back, unless the worker is on its way out because its marker could not be
    set. *)
Theorem accepted_called_in_order capacity key_ready r s :
  capacity < 2 ^ 63 → ok r → rtc astep (system_init capacity key_ready r) s →
  NoDup (sy_accepted s) ∧
  sy_accepted s = (sr_id <$> sy_called s) ++ inflight_ids (sy_worker s) ++ (qi_id <$> ring (sy_pipe s)) ∧
  (pipeline_idle (sy_pipe s) = true → (∀ failed, sy_worker s ≠ WFail failed) → sr_id <$> sy_called s = sy_accepted s).
Proof using ResolverLaws0.
  intros Hcap Hr Hs. apply system_ok_reachable in Hs as (Hd & _ & _); [|by apply system_ok_init].
  destruct Hd as [_ Hf [Hn _] Ha _]. split; [done|]. split; [done|]. intros Hi Hw. rewrite Hf.
  unfold pipeline_idle in Hi. bool_hyps. rewrite (proj2 (ring_empty _)) by lia. cbn [fmap list_fmap].
  destruct (sy_worker s); cbn in *; rewrite ?app_nil_r; try done; try lia. by exfalso; eapply Hw.
Qed.


(** C29. Every call returns.  From any reachable state, whatever the threads
    inside the pipeline do next, they can only take finitely many steps, spurious
    wake-ups and new calls apart; and when none of them can move, no call is
    left, the queue is empty, nothing is active, and the worker sleeps or has
    ended.  So neither condition variable loses a wake-up, every [Flush] and
    [Shutdown] ends, and every accepted stack is processed. *)
Theorem calls_return capacity key_ready r s :
  capacity < 2 ^ 63 → ok r → rtc astep (system_init capacity key_ready r) s →
  sn inner s ∧
  ∀ s', rtc inner s s' → nf inner s' →
    next_id_ (sy_pipe s') < 2 ^ 64 - 1 → CurrentGeneration (sy_resolver s') < 2 ^ 64 - 1 → at_rest s'.
Proof using ResolverLaws0.
  intros Hcap Hr Hs. apply system_ok_reachable in Hs; [|by apply system_ok_init]. split; [by apply inner_terminates|].
  intros s' Hi Hnf Hid Hgen. apply stuck_at_rest; try done.
  eapply system_ok_reachable; [|done]. eapply rtc_subrel; [|done]. intros x y Hxy. by left.
Qed.
End reachable.
