(* ===== verification/AsyncResolve.v ===== *)
(** * What the asynchronous pipeline delivers

    A stack is resolved after it was captured, when modules may have been
    unloaded and their addresses reused.  The theorem here says that the frames
    of a resolved result name the modules of the capture: the pipeline's client
    theorem, proved from the laws of [ModuleResolver] alone.  The last section
    has runs of the system, one of which shows that a flush may return before
    the callbacks of a worker that cannot start. *)
From S2P Require Import Prelude Capture AsyncStack AsyncPipeline AsyncCache AsyncProps.
Import StackResolutionState.

Definition raw_bounds (raw : RawStackRecord) : Prop := 0 ≤ frame_count raw ≤ Z.of_nat (length (pcs raw)).

Lemma submit_prepare_bounds g input : raw_bounds input → raw_bounds (submit_prepare g input).
Proof.
  unfold raw_bounds, submit_prepare, clamp_frames, kMaxAsyncRawFrames. cbn. destruct (_ =? 0); cbn; lia.
Qed.

Lemma notify_submit p clients t raw :
  notify_idle p clients !! t = Some (CSubmit raw) → clients !! t = Some (CSubmit raw).
Proof.
  unfold notify_idle. destruct (pipeline_idle p); [|done]. rewrite lookup_fmap. by destruct (clients !! t) as [[]|].
Qed.

Section resolve.
Context {R : Type} `{!ModuleResolver R} (ok : R → Prop) `{!ResolverLaws R ok}.
Context (symbolizer : Symbolizer) (platform : Platform) (worker_tid : Z).
Abbreviation astep := (async_step symbolizer platform worker_tid).

(** The modules of the program counters [l], as [r0] resolves them. *)
Definition attributed (r0 : R) (raw : RawStackRecord) (l : list Z) (modules : list ModuleInfo) : Prop :=
  module_generation raw ≤ CurrentGeneration r0 →
  Forall2 (λ pc m, ResolveModule r0 (CallSitePcFromReturnAddress platform pc) (module_generation raw) = Some m) l modules.
Definition delivered (origin : gmap Z R) (c : StackResult) : Prop :=
  sr_state c = Resolved →
  ∃ r0 dladdr modules, origin !! sr_id c = Some r0 ∧ attributed r0 (sr_raw c) (raw_pcs (sr_raw c)) modules ∧
    symbolizer dladdr (sr_raw c) modules = (true, sr_frames c).
Definition worker_delivers (origin : gmap Z R) (w : WorkerPc) : Prop :=
  match w with
  | WResolve item modules unresolved =>
      Z.of_nat (length modules) ≤ frame_count (qi_raw item) ∧
      (unresolved = false → ∀ r0, origin !! qi_id item = Some r0 →
         attributed r0 (qi_raw item) (take (length modules) (raw_pcs (qi_raw item))) modules)
  | WCallback c => delivered origin c
  | WFail failed => Forall (λ c, sr_state c = Failed) failed
  | _ => True
  end.

Record resolve_ok (s : System R) : Prop := {
  rs_origin id : id ∈ sy_accepted s → ∃ r0, sy_origin s !! id = Some r0 ∧ ok r0 ∧ resolver_le r0 (sy_resolver s);
  rs_items item : item ∈ held_items (sy_worker s) ++ ring (sy_pipe s) → raw_bounds (qi_raw item);
  rs_clients t raw : sy_clients s !! t = Some (CSubmit raw) → raw_bounds raw;
  rs_worker : worker_delivers (sy_origin s) (sy_worker s);
  rs_called : Forall (delivered (sy_origin s)) (sy_called s);
}.

Lemma raw_pcs_lookup raw (n : nat) :
  raw_bounds raw → Z.of_nat n < frame_count raw → raw_pcs raw !! n = Some (nth n (pcs raw) 0).
Proof using Type.
  intros [H1 H2] Hn. unfold raw_pcs. rewrite lookup_take_lt by lia.
  destruct (pcs raw !! n) as [pc|] eqn:E; [|apply lookup_ge_None in E; lia].
  f_equal. symmetry. by apply nth_lookup_Some with (d := 0) in E.
Qed.

Lemma resolve_next_delivers origin r item modules :
  raw_bounds (qi_raw item) → (∀ r0, origin !! qi_id item = Some r0 → resolver_le r0 r) →
  Z.of_nat (length modules) < frame_count (qi_raw item) →
  ∀ unresolved, worker_delivers origin (WResolve item modules unresolved) →
  worker_delivers origin (resolve_next platform r item modules unresolved).
Proof using ResolverLaws0.
  intros Hb Hle Hl u [_ Hm]. unfold resolve_next.
  set (pc := nth (length modules) (pcs (qi_raw item)) 0).
  destruct (ResolveModule r _ _) as [m|] eqn:E; cbn; rewrite length_app; cbn [length]; (split; [lia|]); [|done].
  intros -> r0 Hr0 Hg. specialize (Hm eq_refl r0 Hr0 Hg). rewrite Nat.add_1_r.
  rewrite (take_S_r _ _ pc) by (by apply raw_pcs_lookup). apply Forall2_app; [done|]. constructor; [|done].
  by apply (Hle r0 Hr0).
Qed.

Lemma resolve_worker_step s s' :
  worker_step symbolizer platform worker_tid s s' → system_ok ok s → resolve_ok s → resolve_ok s'.
Proof using ResolverLaws0.
  intros Hs (Hd & _ & _) [H1 H2 H3 H4 H5].
  destruct Hs as [s E|s m p E Ht|s m p E Ht|s m item p E Ht|s item E|s item failed p E Hf
    |s r failed E|s E|s item modules u E Hl|s item modules u dl E Hl completed|s completed E|s E p|s E];
    rewrite E in H2, H4, Hd; split; cbn; try done.
  - unfold worker_take in Ht. destruct (negb _); [injection Ht as <-|by destruct (_ && _)]. done.
  - unfold worker_take in Ht. destruct (negb _); [done|]. destruct (_ && _); [injection Ht as <-|done]. done.
  - unfold worker_take in Ht. destruct (negb _) eqn:Eb; [done|]. destruct (_ && _) eqn:Eb'; [done|]. injection Ht as <- <-.
    assert (queue_size_ (sy_pipe s) ≠ 0) as Hq.
    { intros Hz. rewrite Hz in Eb, Eb'. cbn in *. destruct (stopping_ _); done. }
    destruct (do_pipe _ _ _ _ Hd) as (failed & Hp & _). destruct (take_ok _ _ Hp Hq) as [_ Er].
    intros item Hi. apply H2. cbn. rewrite Er. by destruct m.
  - destruct m; [|done]. split; [cbn|]; [|by intros _ r0 _ _].
    unfold worker_take in Ht. destruct (negb _) eqn:Eb; [done|]. destruct (_ && _) eqn:Eb'; [done|]. injection Ht as <- <-.
    assert (queue_size_ (sy_pipe s) ≠ 0) as Hq.
    { intros Hz. rewrite Hz in Eb, Eb'. cbn in *. destruct (stopping_ _); done. }
    destruct (do_pipe _ _ _ _ Hd) as (failed & Hp & _). destruct (take_ok _ _ Hp Hq) as [_ Er].
    apply (H2 (queue_front (sy_pipe s))). cbn. rewrite Er. left.
  - split; [|by intros _ r0 _ _]. apply (H2 item). left.
  - destruct (do_pipe _ _ _ _ Hd) as (failed0 & Hp & _ & Hfe). assert (failed0 = []) as -> by (destruct failed0; [done|]; by discriminate Hfe).
    destruct (worker_fail_ok item (sy_pipe s) failed p Hp Hf (do_active _ _ _ _ Hd)) as (_ & _ & _ & _ & Hq & _).
    intros i. rewrite (proj2 (ring_empty p)) by lia. by intros ?%elem_of_nil.
  - destruct (do_pipe _ _ _ _ Hd) as (failed0 & Hp & _ & Hfe). assert (failed0 = []) as -> by (destruct failed0; [done|]; by discriminate Hfe).
    destruct (worker_fail_ok item (sy_pipe s) failed p Hp Hf (do_active _ _ _ _ Hd)) as (_ & _ & _ & -> & _).
    apply Forall_fmap, Forall_true. done.
  - by apply Forall_cons in H4 as [_ ?].
  - apply Forall_app. split; [done|]. apply Forall_cons in H4 as [Hr _]. constructor; [|done]. intros F. congruence.
  - intros t raw Ht%notify_submit. eauto.
  - intros i Hi. apply H2. unfold resolve_next in Hi. by destruct (ResolveModule _ _ _).
  - apply resolve_next_delivers; [apply (H2 item); left| |done|done]. intros r0 Hr0. destruct (H1 (qi_id item)) as (r1 & Hr1 & _ & ?).
    { rewrite (do_fifo _ _ _ _ Hd). cbn. set_solver. }
    by simplify_eq.
  - destruct (do_pipe _ _ _ _ Hd) as (failed & Hp & _ & Hfe). assert (failed = []) as -> by (destruct failed; [done|]; by discriminate Hfe).
    destruct (worker_finish_ok completed item (sy_pipe s) []) as (_ & _ & G3 & _); [done..| |].
    { unfold finished_state, completed, completed_result. cbn. destruct (_ && _); auto. }
    intros i Hi. rewrite G3 in Hi. apply H2. by right.
  - intros Hst. unfold completed, completed_result in *. cbn in Hst |- *.
    destruct (Symbolize dl (qi_raw item) modules) as [[] frames] eqn:Es; [|done].
    cbn in Hst. destruct u; [done|]. destruct H4 as [Hlen Hm]. specialize (H2 item ltac:(left)).
    destruct (H1 (qi_id item)) as (r0 & Hr0 & _). { rewrite (do_fifo _ _ _ _ Hd). cbn. set_solver. }
    exists r0, dl, modules. split; [done|]. split; [|done]. specialize (Hm eq_refl r0 Hr0).
    rewrite take_ge in Hm; [done|]. unfold raw_pcs. rewrite length_take. lia.
  - apply Forall_app. split; [done|]. by repeat constructor.
  - intros t raw Ht%notify_submit. eauto.
  - intros t raw Ht%notify_submit. eauto.
Qed.

Lemma delivered_insert origin id r c : sr_id c ≠ id → delivered origin c → delivered (<[id := r]> origin) c.
Proof using ResolverLaws0.
  intros Hne Hd Hst. destruct (Hd Hst) as (r0 & dl & modules & Hr0 & ?). exists r0, dl, modules. by rewrite lookup_insert_ne.
Qed.

Lemma resolve_submit s t raw result p :
  sy_clients s !! t = Some (CSubmit raw) → next_id_ (sy_pipe s) < 2 ^ 64 - 1 → submit_locked raw (sy_pipe s) = (result, p) →
  system_ok ok s → resolve_ok s →
  resolve_ok (s <| sy_pipe := p |>
     <| sy_clients := if sub_accepted result then <[t := CNotifyOne]> (sy_clients s) else delete t (sy_clients s) |>
     <| sy_accepted := sy_accepted s ++ (if sub_accepted result then [sub_id result] else []) |>
     <| sy_origin := if sub_accepted result then <[sub_id result := sy_resolver s]> (sy_origin s) else sy_origin s |>).
Proof using ResolverLaws0.
  intros E Hn Hsub (Hd & _ & Ho) [H1 H2 H3 H4 H5]. destruct (do_pipe _ _ _ _ Hd) as (failed & Hp & _).
  destruct (submit_locked_ok _ _ _ _ _ _ Hp Hn Hsub) as (_ & _ & _ & G4). destruct (sub_accepted result).
  2: { split; cbn; rewrite ?app_nil_r, ?G4; try done. intros t' raw' [_ Ht']%lookup_delete_Some. eauto. }
  destruct G4 as (_ & Eid & _ & Er).
  assert (sub_id result ∉ sy_accepted s) as Hfresh.
  { intros Hin. destruct (do_ids _ _ _ _ Hd) as [_ Hids]. eapply Forall_forall in Hids; [|done]. cbn in Hids. lia. }
  assert (∀ c : StackResult, sr_id c ∈ sy_accepted s → delivered (sy_origin s) c →
            delivered (<[sub_id result := sy_resolver s]> (sy_origin s)) c) as Hdel.
  { intros c Hc. apply delivered_insert. intros F. apply Hfresh. by rewrite <-F. }
  split; cbn.
  - intros id [Hid| ->%list_elem_of_singleton]%elem_of_app.
    + destruct (H1 id Hid) as (r0 & Hr0 & ?). exists r0. rewrite lookup_insert_ne; [done|]. intros F. apply Hfresh. by rewrite F.
    + exists (sy_resolver s). rewrite lookup_insert_eq. split; [done|]. split; [done|apply resolver_le_refl].
  - intros item. rewrite Er, app_assoc. intros [Hi| ->%list_elem_of_singleton]%elem_of_app; [by apply H2|]. by eapply H3.
  - intros t' raw' [[_ ?]|[_ Ht']]%lookup_insert_Some; [done|eauto].
  - pose proof (do_fifo _ _ _ _ Hd) as Hfifo. destruct (sy_worker s) as [| |m|m|item|item modules u|c| |l| |]; cbn in *; try done.
    + destruct H4 as [Hl Hm]. split; [done|]. intros Hu r0. rewrite lookup_insert_ne; [by apply Hm|]. intros F. apply Hfresh.
      rewrite F, Hfifo. set_solver.
    + apply Hdel; [|done]. rewrite Hfifo. set_solver.
  - apply Forall_forall. intros c Hc. apply Hdel; [|by eapply Forall_forall in H5].
    rewrite (do_fifo _ _ _ _ Hd). apply elem_of_app. left. by apply list_elem_of_fmap_2.
Qed.

Lemma resolve_client_step s s' : client_step s s' → system_ok ok s → resolve_ok s → resolve_ok s'.
Proof using ResolverLaws0.
  intros Hs Hok Hr. pose proof Hok as (Hd & _ & Ho). pose proof Hr as [H1 H2 H3 H4 H5].
  destruct Hs as [s t raw result p E Hn Hsub|s t E|s t l r E _ Hg Hr'|s t E _|s t E _|s t E Hi|s t p E Hstop
    |s t p E Hstop|s t E|s t E _].
  - by apply (resolve_submit s t raw).
  - split; cbn; try done; [by destruct (sy_worker s)| |by destruct (sy_worker s)].
    intros t' raw [_ ?]%lookup_delete_Some. eauto.
  - split; cbn; try done.
    + intros id Hid. destruct (H1 id Hid) as (r0 & Hr0 & Ho0 & Hle). exists r0. split; [done|]. split; [done|].
      eapply resolver_le_trans; [done|]. by eapply refresh_le.
    + intros t' raw [[_ ?]|[_ ?]]%lookup_insert_Some; [done|eauto].
  - split; cbn; try done. intros t' raw [[_ ?]|[_ ?]]%lookup_insert_Some; [done|eauto].
  - split; cbn; try done. intros t' raw [_ ?]%lookup_delete_Some. eauto.
  - split; cbn; try done. intros t' raw [[_ ?]|[_ ?]]%lookup_insert_Some; [done|eauto].
  - unfold shutdown_stop in Hstop. destruct (joined_ _); [done|]. injection Hstop as <-.
    split; cbn; try done. intros t' raw [[_ ?]|[_ ?]]%lookup_insert_Some; [done|eauto].
  - unfold shutdown_stop in Hstop. destruct (joined_ _); [|done]. injection Hstop as <-.
    split; cbn; try done. intros t' raw [_ ?]%lookup_delete_Some. eauto.
  - split; cbn; try done; [by destruct (sy_worker s)| |by destruct (sy_worker s)].
    intros t' raw [[_ ?]|[_ ?]]%lookup_insert_Some; [done|eauto].
  - split; cbn; try done. intros t' raw [_ ?]%lookup_delete_Some. eauto.
Qed.

Lemma resolve_call_step s s' : call_step s s' → system_ok ok s → resolve_ok s → resolve_ok s'.
Proof using ResolverLaws0.
  intros Hs (Hd & _ & _) [H1 H2 H3 H4 H5]. destruct Hs as [s t input E Hi|s|s id|s t E Ht|s|s t E|s|s t E]; split; cbn; try done.
  - intros t' raw [[_ [= <-]]|[_ ?]]%lookup_insert_Some; [by apply submit_prepare_bounds|eauto].
  - destruct (do_pipe _ _ _ _ Hd) as (failed & Hp & _). destruct (release_ok id _ _ _ Hp) as (_ & _ & G3 & _). by rewrite G3.
  - intros t' raw [[_ ?]|[_ ?]]%lookup_insert_Some; [done|eauto].
  - intros t' raw [[_ ?]|[_ ?]]%lookup_insert_Some; [done|eauto].
  - by destruct (sy_worker s).
  - by destruct (sy_worker s).
  - intros t' raw [[_ ?]|[_ ?]]%lookup_insert_Some; [done|eauto].
Qed.

Lemma resolve_reachable s s' : rtc astep s s' → system_ok ok s → resolve_ok s → resolve_ok s'.
Proof using ResolverLaws0.
  induction 1 as [|s s1 s2 Hs _ IH]; [done|]. intros Hok Hr. apply IH; [by eapply system_ok_step|].
  destruct Hs as [[Hs|Hs]|Hs]; eauto using resolve_worker_step, resolve_client_step, resolve_call_step.
Qed.

Lemma resolve_init capacity key_ready r : resolve_ok (system_init capacity key_ready r).
Proof using ResolverLaws0.
  split; cbn.
  - by intros id ?%elem_of_nil.
  - intros item. assert (ring (Pipeline_new capacity key_ready) = []) as -> by (by destruct key_ready).
    destruct key_ready; by intros ?%elem_of_nil.
  - intros t raw. by rewrite lookup_empty.
  - by destruct key_ready.
  - done.
Qed.
End resolve.

Lemma symbolize_frame_module platform dladdr pc m :
  let f := symbolize_frame platform dladdr pc (Some m) in
  sf_pc f = pc ∧ sf_module_start f = mi_start m ∧ sf_module_name f = mi_name m ∧ sf_build_id f = mi_build_id m.
Proof.
  unfold symbolize_frame. destruct (dladdr _) as [info|]; [|done]. destruct (dli_sname info); [|done].
  by destruct (same_object _ _).
Qed.

(** C34. A resolved stack names the modules of its capture.  Whatever is loaded
    and unloaded while it waits, every frame of a result that is called back as
    resolved carries the start, the name and the build id of the module that
    contained the call site in the module generation of the record, as the
    resolver knew it when the stack was accepted; a module that occupies the
    address later is never named. *)
Theorem resolved_frames_of_capture {R} `{ModuleResolver R} (ok : R → Prop) `{!ResolverLaws R ok}
    platform worker_tid capacity key_ready r s c :
  capacity < 2 ^ 63 → ok r →
  rtc (async_step (NativeSymbolizer platform) platform worker_tid) (system_init capacity key_ready r) s →
  c ∈ sy_called s → sr_state c = Resolved →
  ∃ r0, sy_origin s !! sr_id c = Some r0 ∧
    (module_generation (sr_raw c) ≤ CurrentGeneration r0 →
     ∀ i pc, raw_pcs (sr_raw c) !! i = Some pc →
       let call_site := CallSitePcFromReturnAddress platform pc in
       ∃ m f, ResolveModule r0 call_site (module_generation (sr_raw c)) = Some m ∧ mi_start m ≤ call_site < mi_end m ∧
         sr_frames c !! i = Some f ∧ sf_pc f = pc ∧
         sf_module_start f = mi_start m ∧ sf_module_name f = mi_name m ∧ sf_build_id f = mi_build_id m).
Proof.
  intros Hcap Hr Hs Hc Hst. pose proof (system_ok_init ok capacity key_ready r Hcap Hr) as Hi.
  pose proof (system_ok_reachable ok _ _ _ _ _ Hs Hi) as (Hd & _ & _).
  pose proof (resolve_reachable ok _ _ _ _ _ Hs Hi (resolve_init ok _ _ _ _ _)) as [H1 _ _ _ H5].
  eapply Forall_forall in H5; [|done]. destruct (H5 Hst) as (r0 & dladdr & modules & Hr0 & Hatt & Hsym).
  exists r0. split; [done|]. intros Hg i pc Hpc call_site. specialize (Hatt Hg).
  destruct (Forall2_lookup_l _ _ _ _ _ Hatt Hpc) as (m & Hm & Hres).
  destruct (H1 (sr_id c)) as (r0' & Hr0' & Hok & _).
  { rewrite (do_fifo _ _ _ _ Hd). apply elem_of_app. left. by apply list_elem_of_fmap_2. }
  simplify_eq. unfold NativeSymbolizer, native_symbolize in Hsym. injection Hsym as _ Hframes.
  exists m, (symbolize_frame platform dladdr pc (Some m)). split; [done|]. split; [by eapply resolve_contains|].
  split; [|apply symbolize_frame_module]. by rewrite <-Hframes, list_lookup_imap, Hpc, <-Hm.
Qed.

(** ** Runs *)

(** One turn of the scheduler: the worker, with what setting its marker returns
    and what [dladdr] answers, a client inside a call, or a new call. *)
Inductive Move :=
  | MWorker (marker_ok : bool)
  | MClient (t : Z)
  | MSubmit (t : Z) (input : RawStackRecord)
  | MFlush (t : Z)
  | MShutdown (t : Z).

Section runs.
Context (platform : Platform) (worker_tid : Z).
Abbreviation sym := (NativeSymbolizer platform).
Abbreviation sys := (System ModuleRegistry).
Abbreviation astep := (async_step sym platform worker_tid).

Definition worker_move (marker_ok : bool) (s : sys) : option sys :=
  match sy_worker s with
  | WStart => Some (s <| sy_pipe := (sy_pipe s) <| worker_thread_id_ := Some worker_tid |> |> <| sy_worker := WReady false |>)
  | WReady marker =>
      Some match worker_take (sy_pipe s) with
           | (Sleep, p) => s <| sy_pipe := p |> <| sy_worker := WAsleep marker |>
           | (Break, p) => s <| sy_pipe := p |> <| sy_worker := WExit |>
           | (Take item, p) => s <| sy_pipe := p |> <| sy_worker := if marker then WResolve item [] false else WMark item |>
           end
  | WMark item =>
      Some (if marker_ok then s <| sy_worker := WResolve item [] false |>
            else let '(failed, p) := worker_fail item (sy_pipe s) in s <| sy_pipe := p |> <| sy_worker := WFail failed |>)
  | WFail (r :: failed) => Some (s <| sy_worker := WFail failed |> <| sy_called := sy_called s ++ [r] |>)
  | WFail [] => Some (s <| sy_worker := WExited |> <| sy_clients := notify_idle (sy_pipe s) (sy_clients s) |>)
  | WResolve item modules u =>
      Some (if bool_decide (Z.of_nat (length modules) < frame_count (qi_raw item))
            then s <| sy_worker := resolve_next platform (sy_resolver s) item modules u |>
            else let completed := completed_result item (sym (λ _, None) (qi_raw item) modules) u in
                 s <| sy_pipe := worker_finish completed (sy_pipe s) |> <| sy_worker := WCallback completed |>)
  | WCallback completed => Some (s <| sy_worker := WDone |> <| sy_called := sy_called s ++ [completed] |>)
  | WDone =>
      let p := worker_release (sy_pipe s) in
      Some (s <| sy_pipe := p |> <| sy_worker := WReady true |> <| sy_clients := notify_idle p (sy_clients s) |>)
  | WExit => Some (s <| sy_worker := WExited |> <| sy_clients := notify_idle (sy_pipe s) (sy_clients s) |>)
  | _ => None
  end.

Definition client_move (t : Z) (s : sys) : option sys :=
  match sy_clients s !! t with
  | Some (CSubmit raw) =>
      if bool_decide (next_id_ (sy_pipe s) < 2 ^ 64 - 1) then
        let '(result, p) := submit_locked raw (sy_pipe s) in
        Some (s <| sy_pipe := p |>
           <| sy_clients := if sub_accepted result then <[t := CNotifyOne]> (sy_clients s) else delete t (sy_clients s) |>
           <| sy_accepted := sy_accepted s ++ (if sub_accepted result then [sub_id result] else []) |>
           <| sy_origin := if sub_accepted result then <[sub_id result := sy_resolver s]> (sy_origin s) else sy_origin s |>)
      else None
  | Some CNotifyOne => Some (s <| sy_worker := wake_worker (sy_worker s) |> <| sy_clients := delete t (sy_clients s) |>)
  | Some CFlushRefresh =>
      if shutdown_started_ (sy_pipe s) then Some (s <| sy_clients := <[t := CFlushWait]> (sy_clients s) |>)
      else if bool_decide (CurrentGeneration (sy_resolver s) < 2 ^ 64 - 1)
      then Some (s <| sy_resolver := sy_resolver s |> <| sy_clients := <[t := CFlushWait]> (sy_clients s) |>) else None
  | Some CFlushWait =>
      Some (if pipeline_idle (sy_pipe s) then s <| sy_clients := delete t (sy_clients s) |>
            else s <| sy_clients := <[t := CFlushAsleep]> (sy_clients s) |>)
  | Some CShutdownStop =>
      let '(going, p) := shutdown_stop (sy_pipe s) in
      Some (if going : bool then s <| sy_pipe := p |> <| sy_clients := <[t := CShutdownNotify]> (sy_clients s) |>
            else s <| sy_pipe := p |> <| sy_clients := delete t (sy_clients s) |>)
  | Some CShutdownNotify =>
      Some (s <| sy_worker := wake_worker (sy_worker s) |> <| sy_clients := <[t := CShutdownJoin]> (sy_clients s) |>)
  | Some CShutdownJoin =>
      match sy_worker s with
      | WExited | WNone => Some (s <| sy_pipe := (sy_pipe s) <| joined_ := true |> |> <| sy_clients := delete t (sy_clients s) |>)
      | _ => None
      end
  | _ => None
  end.

Definition move (m : Move) (s : sys) : option sys :=
  match m with
  | MWorker marker_ok => worker_move marker_ok s
  | MClient t => client_move t s
  | MSubmit t input =>
      if bool_decide (sy_clients s !! t = None ∧ 0 ≤ frame_count input ≤ Z.of_nat (length (pcs input)))
      then Some (s <| sy_clients := <[t := CSubmit (submit_prepare (CurrentGeneration (sy_resolver s)) input)]> (sy_clients s) |>)
      else None
  | MFlush t =>
      if bool_decide (sy_clients s !! t = None ∧ worker_thread_id_ (sy_pipe s) ≠ Some t)
      then Some (s <| sy_clients := <[t := CFlushRefresh]> (sy_clients s) |>) else None
  | MShutdown t =>
      if bool_decide (sy_clients s !! t = None)
      then Some (s <| sy_pipe := (sy_pipe s) <| shutdown_started_ := true |> |>
                   <| sy_clients := <[t := CShutdownStop]> (sy_clients s) |>) else None
  end.
Fixpoint run (moves : list Move) (s : sys) : option sys :=
  match moves with
  | [] => Some s
  | m :: moves => s ← move m s; run moves s
  end.

Lemma worker_move_sound marker_ok s s' : worker_move marker_ok s = Some s' → worker_step sym platform worker_tid s s'.
Proof.
  unfold worker_move. destruct (sy_worker s) as [| |m|m|item|item modules u|c| |l| |] eqn:E; try done.
  - intros [= <-]. by apply W_start.
  - intros [= <-]. destruct (worker_take (sy_pipe s)) as [[| |item] p] eqn:Et; [by eapply W_sleep|by eapply W_break|by eapply W_take].
  - intros [= <-]. destruct marker_ok; [by apply W_marked|]. destruct (worker_fail item (sy_pipe s)) as [failed p] eqn:Ef.
    by eapply W_unmarked.
  - intros [= <-]. case_bool_decide; [by apply W_resolve|]. apply (W_finish sym platform worker_tid s item modules u); [done|lia].
  - intros [= <-]. by apply W_callback.
  - intros [= <-]. by apply (W_done sym).
  - destruct l; intros [= <-]; [by apply W_fail_exit|by apply W_fail_callback].
  - intros [= <-]. by apply W_exit.
Qed.

Lemma client_move_sound t s s' : client_move t s = Some s' → client_step s s'.
Proof.
  unfold client_move. destruct (sy_clients s !! t) as [[raw| | | | | | |]|] eqn:E; try done.
  - case_bool_decide; [|done]. destruct (submit_locked raw (sy_pipe s)) as [result p] eqn:Es. intros [= <-]. by eapply C_submit.
  - intros [= <-]. by apply C_notify_one.
  - destruct (shutdown_started_ (sy_pipe s)) eqn:Es; [intros [= <-]; by apply C_no_refresh|].
    case_bool_decide; [|done]. intros [= <-]. by apply (C_refresh s t (mkLoader (λ _, None) [])).
  - destruct (pipeline_idle (sy_pipe s)) eqn:Ei; intros [= <-]; [by apply C_flushed|by apply C_flush_sleep].
  - destruct (shutdown_stop (sy_pipe s)) as [[] p] eqn:Es; intros [= <-]; [by apply C_stop|by apply C_stopped].
  - intros [= <-]. by apply C_notify_all.
  - destruct (sy_worker s) eqn:Ew; try done; intros [= <-]; apply C_join; auto.
Qed.

Lemma run_sound moves : ∀ s s', run moves s = Some s' → rtc astep s s'.
Proof.
  induction moves as [|m moves IH]; intros s s'; cbn [run]; [by intros [= <-]|]. intros (s1 & Hm & Hr)%bind_Some.
  eapply rtc_l; [|by apply IH]. destruct m as [mk|t|t input|t|t]; cbn [move] in Hm.
  - left. left. by eapply worker_move_sound.
  - left. right. by eapply client_move_sound.
  - case_bool_decide as Hc; [destruct Hc|done]. apply (inj Some) in Hm as <-. right. by apply A_submit.
  - case_bool_decide as Hc; [destruct Hc|done]. apply (inj Some) in Hm as <-. right. by apply A_flush.
  - case_bool_decide; [|done]. apply (inj Some) in Hm as <-. right. by apply A_shutdown.
Qed.
End runs.

Definition linux : Platform := mkPlatform false OsLinux true false.
Definition example_registry : ModuleRegistry := snd (Publish [example_module 4096 8192 "lib"] (ModuleRegistry_new 64)).
Definition example_stack (pc : Z) : RawStackRecord := raw_init <| frame_count := 1 |> <| pcs := [pc] |>.
Definition example_init : System ModuleRegistry := system_init 2 true example_registry.

(** Two stacks are submitted and processed, a flush waits for them. *)
Definition example_run : list Move :=
  [MWorker true; MSubmit 1 (example_stack 5000); MClient 1; MSubmit 2 (example_stack 6000); MClient 2; MClient 1; MClient 2;
   MWorker true; MWorker true; MWorker true; MFlush 3; MClient 3; MClient 3; MWorker true; MWorker true; MWorker true;
   MWorker true; MWorker true; MWorker true; MWorker true; MWorker true; MClient 3].

Lemma example_registry_ok : ∃ history, registry_rep example_registry history.
Proof. eexists. apply (Publish_rep _ _ _ (registry_rep_new 64)). done. Qed.

Definition example_final : System ModuleRegistry := default example_init (run linux 9 example_run example_init).
Lemma example_reachable : rtc (async_step (NativeSymbolizer linux) linux 9) example_init example_final.
Proof. apply (run_sound _ _ example_run). vm_compute. reflexivity. Qed.
(** The result of the second stack. *)
Definition example_result : StackResult := default (mkResult 0 Pending raw_init []) (sy_called example_final !! 1%nat).

Lemma resolved_frames_of_capture_witness :
  sr_id example_result = 2 ∧
  ∃ f, sr_frames example_result !! 0%nat = Some f ∧ sf_pc f = 6000 ∧ sf_module_name f = "lib".
Proof.
  split; [vm_compute; reflexivity|].
  assert (example_result ∈ sy_called example_final) as Hc by (apply (list_elem_of_lookup_2 _ 1); vm_compute; reflexivity).
  destruct (resolved_frames_of_capture _ linux 9 2 true example_registry example_final example_result eq_refl
    example_registry_ok example_reachable Hc ltac:(vm_compute; reflexivity)) as (r0 & Hr0 & Hall).
  assert (r0 = example_registry) as -> by (vm_compute in Hr0 |- *; congruence).
  destruct (Hall ltac:(vm_compute; discriminate) 0%nat 6000 ltac:(vm_compute; reflexivity))
    as (m & f & Hm & _ & Hf & Hpc & _ & Hname & _).
  assert (m = (example_module 4096 8192 "lib") <| mi_generation := 2 |>) as -> by (vm_compute in Hm |- *; congruence).
  exists f. split; [exact Hf|]. split; [exact Hpc|exact Hname].
Defined.

Lemma accepted_called_in_order_witness :
  sr_id <$> sy_called example_final = [1; 2] ∧ NoDup (sy_accepted example_final).
Proof.
  destruct (accepted_called_in_order _ (NativeSymbolizer linux) linux 9 2 true example_registry example_final eq_refl
    example_registry_ok example_reachable) as (Hn & _ & Hall).
  split; [|done]. rewrite Hall; [vm_compute; reflexivity|vm_compute; reflexivity|]. intros failed. vm_compute. discriminate.
Defined.


(** The worker goes back to sleep: nothing can move. *)
Definition example_rest : System ModuleRegistry := default example_init (run linux 9 [MWorker true] example_final).
Lemma example_rest_reachable : rtc (inner_step (NativeSymbolizer linux) linux 9) example_final example_rest.
Proof. apply rtc_once. left. apply (worker_move_sound _ _ true). vm_compute. reflexivity. Qed.
Lemma example_rest_stuck : nf (inner_step (NativeSymbolizer linux) linux 9) example_rest.
Proof.
  assert (sy_worker example_rest = WAsleep true) as Ew by (vm_compute; reflexivity).
  assert (sy_clients example_rest = ∅) as Ec by (vm_compute; reflexivity).
  generalize dependent example_rest. intros s Ew Ec [s' [H|H]].
  - destruct H; congruence.
  - destruct H; match goal with H : sy_clients _ !! _ = Some _ |- _ => rewrite Ec, lookup_empty in H; done end.
Qed.
Lemma calls_return_witness : at_rest example_rest.
Proof.
  destruct (calls_return _ (NativeSymbolizer linux) linux 9 2 true example_registry example_final eq_refl
    example_registry_ok example_reachable) as [_ H].
  apply (H example_rest example_rest_reachable example_rest_stuck); vm_compute; reflexivity.
Defined.

(** A flush can return before the callbacks of accepted work, against what
    the header says of [Flush].  A stack is accepted and taken by the worker, a
    flush begins, and the marker of the worker thread cannot be set: the failed
    results are stored and nothing counts as active any more before the first
    callback, so the flush returns while the callback is still to come. *)
Theorem flush_returns_before_callback :
  let before := [MWorker true; MSubmit 1 (example_stack 5000); MClient 1; MClient 1; MWorker true; MFlush 2; MClient 2] in
  ∃ s1 s2 s3, run linux 9 before example_init = Some s1 ∧
    sy_accepted s1 = [1] ∧ sy_clients s1 !! 2 = Some CFlushWait ∧
    worker_step (NativeSymbolizer linux) linux 9 s1 s2 ∧
    client_step s2 s3 ∧ sy_clients s3 !! 2 = None ∧
    sy_called s3 = [] ∧ sr_id <$> sy_called (default s3 (run linux 9 [MWorker true] s3)) = [1].
Proof.
  intros before. set (s1 := default example_init (run linux 9 before example_init)).
  set (s2 := default s1 (run linux 9 [MWorker false] s1)). set (s3 := default s2 (run linux 9 [MClient 2] s2)).
  exists s1, s2, s3. split; [vm_compute; reflexivity|]. split; [vm_compute; reflexivity|]. split; [vm_compute; reflexivity|].
  split; [apply (worker_move_sound _ _ false); vm_compute; reflexivity|].
  split; [apply (client_move_sound 2); vm_compute; reflexivity|].
  split; [vm_compute; reflexivity|]. split; vm_compute; reflexivity.
Qed.
