(* ===== verification/UnwindMemory.v ===== *)
(** * Memory objects of the unwinder

    unwindstack/Memory.cpp with its headers: the classes the unwinder reads
    process memory, files and crafted buffers through.  A byte is a [Z] in
    [0, 255]; [Read] returns the bytes it stored, whose number is the function's
    result.  What a memory object makes readable is a function from addresses to
    optional bytes, and most classes read the longest valid prefix of it.  The
    system calls (process_vm_readv, ptrace, opening and mapping a file) are
    arguments. *)
From S2P Require Import Prelude.

(** ** The interface *)

Class Memory (M : Type) := Read : M → Z → Z → list Z.

Section interface.
Context {M : Type} `{Memory M}.

Definition ReadFully (m : M) (addr size : Z) : option (list Z) :=
  let bytes := Read m addr size in
  if Z.of_nat (length bytes) =? size then Some bytes else None.

(** [strnlen]. *)
Fixpoint strnlen (bytes : list Z) : nat :=
  match bytes with
  | [] => 0
  | b :: bytes => if b =? 0 then 0 else S (strnlen bytes)
  end.

(** The loop of [ReadString]; every pass reads at least one byte. *)
Fixpoint read_string_loop (fuel : nat) (m : M) (addr offset max_read : Z) : option (list Z) :=
  match fuel with
  | O => None
  | S fuel =>
      if max_read <=? offset then None
      else
        let read := Z.min 256 (max_read - offset) in
        let buffer := Read m (addr ⊞ offset) read in
        let size := Z.of_nat (length buffer) in
        if size =? 0 then None
        else
          let length := Z.of_nat (strnlen buffer) in
          if length <? size then
            if offset =? 0 then Some (take (strnlen buffer) buffer)
            else ReadFully m addr (offset + length)
          else read_string_loop fuel m addr (offset + size) max_read
  end.
Definition ReadString (m : M) (addr max_read : Z) : option (list Z) :=
  read_string_loop (S (Z.to_nat max_read)) m addr 0 max_read.
End interface.

(** ** Buffers and files *)

Record MemoryBuffer := mkBuffer { raw_ : list Z }.
Definition buffer_read (raw : list Z) (addr size : Z) : list Z :=
  let size_ := Z.of_nat (length raw) in
  if addr >=? size_ then []
  else
    let bytes_left := size_ - addr in
    let actual_len := Z.min bytes_left size in
    take (Z.to_nat actual_len) (drop (Z.to_nat addr) raw).
#[global] Instance MemoryBuffer_Memory : Memory MemoryBuffer := λ m, buffer_read (raw_ m).

(** [GetPtr]: the address of a byte of the buffer, as its index. *)
Definition MemoryBuffer_GetPtr (m : MemoryBuffer) (offset : Z) : option Z :=
  if offset <? Z.of_nat (length (raw_ m)) then Some offset else None.

(** [data_] with [size_] bytes behind it; [None] before a successful [Init]. *)
Record MemoryFileAtOffset := mkFileMem { data_ : option (list Z) }.
Definition file_mem_empty : MemoryFileAtOffset := mkFileMem None.
Definition file_bytes (m : MemoryFileAtOffset) : list Z := default [] (data_ m).
#[global] Instance MemoryFileAtOffset_Memory : Memory MemoryFileAtOffset := λ m, buffer_read (file_bytes m).

Definition MemoryFileAtOffset_Clear (m : MemoryFileAtOffset) : MemoryFileAtOffset := mkFileMem None.

(** [file] is the file's contents when [open] and [fstat] succeed, [map_ok]
    whether [mmap] does. *)
Definition MemoryFileAtOffset_Init (pagesize : Z) (file : option (list Z)) (map_ok : bool) (offset size : Z)
    (m : MemoryFileAtOffset) : bool * MemoryFileAtOffset :=
  let m := MemoryFileAtOffset_Clear m in
  match file with
  | None => (false, m)
  | Some bytes =>
      let st_size := Z.of_nat (length bytes) in
      if offset >=? st_size then (false, m)
      else
        let offset_ := Z.land offset (pagesize - 1) in
        let aligned_offset := Z.land offset (Z.lnot (pagesize - 1)) in
        if (aligned_offset >? st_size) || (offset >? st_size) then (false, m)
        else
          let size_ := st_size - aligned_offset in
          let max_size := size + offset_ in
          let size_ := if (max_size <? 2 ^ 64) && (max_size <? size_) then max_size else size_ in
          if negb map_ok then (false, m)
          else
            let map := take (Z.to_nat size_) (drop (Z.to_nat aligned_offset) bytes) in
            (true, mkFileMem (Some (drop (Z.to_nat offset_) map)))
  end.

(** ** Ranges of other memory *)

Record MemoryRange (M : Type) := mkRange { mr_memory : M; mr_begin : Z; mr_length : Z; mr_offset : Z }.
#[global] Arguments mkRange {M}.
#[global] Arguments mr_memory {M}.
#[global] Arguments mr_begin {M}.
#[global] Arguments mr_length {M}.
#[global] Arguments mr_offset {M}.

#[global] Instance MemoryRange_Memory {M} `{Memory M} : Memory (MemoryRange M) := λ r addr size,
  if addr <? mr_offset r then []
  else
    let read_offset := addr - mr_offset r in
    if read_offset >=? mr_length r then []
    else
      let read_length := Z.min size (mr_length r - read_offset) in
      let read_addr := read_offset + mr_begin r in
      if read_addr >=? 2 ^ 64 then [] else Read (mr_memory r) read_addr read_length.

(** [std::map] from the end of a range to the range. *)
Record MemoryRanges (M : Type) := mkRanges { maps_ : gmap Z (MemoryRange M) }.
#[global] Arguments mkRanges {M}.
#[global] Arguments maps_ {M}.

Definition last_addr {M} (r : MemoryRange M) : Z :=
  let last := mr_offset r + mr_length r in if last >=? 2 ^ 64 then 2 ^ 64 - 1 else last.
Definition MemoryRanges_Insert {M} (r : MemoryRange M) (m : MemoryRanges M) : bool * MemoryRanges M :=
  match maps_ m !! last_addr r with
  | None => (true, mkRanges (<[last_addr r := r]> (maps_ m)))
  | Some _ => (false, m)
  end.

(** [upper_bound]: the entry with the smallest key above [addr]. *)
Definition least_above {A} (addr : Z) (m : gmap Z A) : option (Z * A) :=
  map_fold (λ k x best,
    if k <=? addr then best
    else match best with
         | Some (k', _) => if k <? k' then Some (k, x) else best
         | None => Some (k, x)
         end) None m.

#[global] Instance MemoryRanges_Memory {M} `{Memory M} : Memory (MemoryRanges M) := λ m addr size,
  match least_above addr (maps_ m) with
  | Some (_, r) => Read r addr size
  | None => []
  end.

(** ** Offline memory *)

Record MemoryOffline := mkOffline { mo_memory : option (MemoryRange MemoryFileAtOffset) }.
#[global] Instance MemoryOffline_Memory : Memory MemoryOffline := λ m addr size,
  match mo_memory m with None => [] | Some r => Read r addr size end.

(** A number in [length bytes] little-endian bytes. *)
Fixpoint le_value (bytes : list Z) : Z :=
  match bytes with [] => 0 | b :: bytes => b + 256 * le_value bytes end.

(** The start address is the first word of the file. *)
Definition MemoryOffline_Init (pagesize : Z) (file : option (list Z)) (map_ok : bool) (offset : Z)
    (m : MemoryOffline) : bool * MemoryOffline :=
  let '(ok, memory_file) := MemoryFileAtOffset_Init pagesize file map_ok offset (2 ^ 64 - 1) file_mem_empty in
  if negb ok then (false, m)
  else match ReadFully memory_file 0 8 with
  | None => (false, m)
  | Some start =>
      let size := Z.of_nat (length (file_bytes memory_file)) in
      if size <? 8 then (false, m)
      else (true, mkOffline (Some (mkRange memory_file 8 (size - 8) (le_value start))))
  end.

Definition MemoryOffline_Init_at (pagesize : Z) (file : option (list Z)) (map_ok : bool) (offset start size : Z)
    (m : MemoryOffline) : bool * MemoryOffline :=
  let '(ok, memory_file) := MemoryFileAtOffset_Init pagesize file map_ok offset (2 ^ 64 - 1) file_mem_empty in
  if negb ok then (false, m) else (true, mkOffline (Some (mkRange memory_file 0 size start))).

(** [data_] points at [end_ - start_] bytes. *)
Record MemoryOfflineBuffer := mkOfflineBuffer { ob_data : list Z; ob_start : Z; ob_end : Z }.
Definition MemoryOfflineBuffer_Reset (data : list Z) (start end_ : Z) (m : MemoryOfflineBuffer) : MemoryOfflineBuffer :=
  mkOfflineBuffer data start end_.
#[global] Instance MemoryOfflineBuffer_Memory : Memory MemoryOfflineBuffer := λ m addr size,
  if (addr <? ob_start m) || (addr >=? ob_end m) then []
  else
    let read_length := Z.min size (ob_end m - addr) in
    take (Z.to_nat read_length) (drop (Z.to_nat (addr - ob_start m)) (ob_data m)).

Definition MemoryOfflineParts := list MemoryOffline.
Fixpoint parts_read (memories : list MemoryOffline) (addr size : Z) : list Z :=
  match memories with
  | [] => []
  | memory :: memories =>
      let bytes := Read memory addr size in
      if negb (length bytes =? 0)%nat then bytes else parts_read memories addr size
  end.
#[global] Instance MemoryOfflineParts_Memory : Memory MemoryOfflineParts := parts_read.
Definition MemoryOfflineParts_Add (memory : MemoryOffline) (m : MemoryOfflineParts) : MemoryOfflineParts :=
  m ++ [memory].

(** ** Cached memory *)

Definition kCacheBits : Z := 12.
Definition kCacheMask : Z := Z.shiftl 1 kCacheBits - 1.
Definition kCacheSize : Z := Z.shiftl 1 kCacheBits.

Definition CacheDataType : Type := gmap Z (list Z).

Section cache.
Context {M : Type} `{Memory M}.

(** The entry of a page, read in when absent; [None] when it cannot be. *)
Definition cache_page (impl : M) (page : Z) (cache : CacheDataType) : option (list Z) * CacheDataType :=
  match cache !! page with
  | Some entry => (Some entry, cache)
  | None =>
      match ReadFully impl (u64 (Z.shiftl page kCacheBits)) kCacheSize with
      | Some entry => (Some entry, <[page := entry]> cache)
      | None => (None, delete page cache)
      end
  end.

Definition InternalCachedRead (impl : M) (addr size : Z) (cache : CacheDataType) : list Z * CacheDataType :=
  let addr_page := Z.shiftr addr kCacheBits in
  let '(entry, cache) := cache_page impl addr_page cache in
  match entry with
  | None => (Read impl addr size, cache)
  | Some cache_dst =>
      let rest := drop (Z.to_nat (Z.land addr kCacheMask)) cache_dst in
      let max_read := u64 (Z.shiftl (addr_page + 1) kCacheBits) ⊟ addr in
      if size <=? max_read then (take (Z.to_nat size) rest, cache)
      else
        let first := take (Z.to_nat max_read) rest in
        let addr_page := addr_page ⊞ 1 in
        let '(entry, cache) := cache_page impl addr_page cache in
        match entry with
        | None => (first ++ Read impl (u64 (Z.shiftl addr_page kCacheBits)) (size - max_read), cache)
        | Some cache_dst => (first ++ take (Z.to_nat (size - max_read)) cache_dst, cache)
        end
  end.

(** [MemoryCacheBase::Read] with [MemoryCache::CachedRead]. *)
Definition MemoryCache_Read (impl : M) (addr size : Z) (cache : CacheDataType) : list Z * CacheDataType :=
  if size >? 64 then (Read impl addr size, cache) else InternalCachedRead impl addr size cache.
Definition MemoryCache_Clear (cache : CacheDataType) : CacheDataType := ∅.

(** The cache of the calling thread, if it has one; [key_ok] when the
    constructor got a key. *)
Definition MemoryThreadCache_Read (impl : M) (key_ok : bool) (addr size : Z) (cache : option CacheDataType) :
    list Z * option CacheDataType :=
  if size >? 64 then (Read impl addr size, cache)
  else if negb key_ok then (Read impl addr size, cache)
  else let '(bytes, cache) := InternalCachedRead impl addr size (default ∅ cache) in (bytes, Some cache).
Definition MemoryThreadCache_Clear (key_ok : bool) (cache : option CacheDataType) : option CacheDataType :=
  if negb key_ok then cache else None.
End cache.

(** ** Memory of a process *)

Section process.
Variables (pagesize : Z).
(** [process_vm_readv] of the given address ranges, and one word by [ptrace];
    [None] for an error. *)
Variable process_vm_readv : list (Z * Z) → option (list Z).
Variable ptrace_peek : Z → option (list Z).

Definition kMaxIovecs : Z := 64.

(** One batch: the ranges, what is left, the next address, and whether an
    address overflowed. *)
Fixpoint fill_iovecs (n : nat) (cur len : Z) : list (Z * Z) * Z * Z * bool :=
  match n with
  | O => ([], cur, len, false)
  | S n =>
      if len <=? 0 then ([], cur, len, false)
      else if cur >=? UINTPTR_MAX then ([], cur, len, true)
      else
        let misalignment := Z.land cur (pagesize - 1) in
        let iov_len := Z.min (pagesize - misalignment) len in
        let len := len - iov_len in
        if cur + iov_len >=? 2 ^ 64 then ([], cur ⊞ iov_len, len, true)
        else
          let '(iovs, cur', len, overflow) := fill_iovecs n (cur + iov_len) len in
          ((cur, iov_len) :: iovs, cur', len, overflow)
  end.

(** The bytes at the front of [dst] when the function returns. *)
Fixpoint vm_read_loop (fuel : nat) (cur len : Z) (dst : list Z) : list Z :=
  match fuel with
  | O => dst
  | S fuel =>
      if len <=? 0 then dst
      else
        let '(iovs, cur, len, overflow) := fill_iovecs (Z.to_nat kMaxIovecs) cur len in
        if overflow : bool then dst
        else match process_vm_readv iovs with
        | None => dst
        | Some bytes => vm_read_loop fuel cur len (dst ++ bytes)
        end
  end.
Definition ProcessVmRead (remote_src len : Z) : list Z := vm_read_loop (S (Z.to_nat len)) remote_src len [].

Definition sizeof_long : Z := 8.

Fixpoint peek_words (n : nat) (addr : Z) : list Z * bool :=
  match n with
  | O => ([], true)
  | S n =>
      match ptrace_peek addr with
      | None => ([], false)
      | Some data => let '(bytes, ok) := peek_words n (addr + sizeof_long) in (data ++ bytes, ok)
      end
  end.

Definition PtraceRead (addr bytes : Z) : list Z :=
  if addr + bytes >=? 2 ^ 64 then []
  else
    let align_bytes := Z.land addr (sizeof_long - 1) in
    let head :=
      if align_bytes =? 0 then Some []
      else match ptrace_peek (Z.land addr (Z.lnot (sizeof_long - 1))) with
           | None => None
           | Some data => Some (take (Z.to_nat (Z.min (sizeof_long - align_bytes) bytes))
                                  (drop (Z.to_nat align_bytes) data))
           end in
    match head with
    | None => []
    | Some head =>
        let n := Z.of_nat (length head) in
        let addr := addr + n in
        let bytes := bytes - n in
        let '(body, ok) := peek_words (Z.to_nat (bytes / sizeof_long)) addr in
        if negb ok then head ++ body
        else
          let left_over := Z.land bytes (sizeof_long - 1) in
          if left_over =? 0 then head ++ body
          else match ptrace_peek (addr + Z.of_nat (length body)) with
               | None => head ++ body
               | Some data => head ++ body ++ take (Z.to_nat left_over) data
               end
    end.

(** [read_redirect_func_]: the function that worked, once one did. *)
Inductive read_redirect := RedirectNone | RedirectVm | RedirectPtrace.
Definition MemoryRemote_Read (addr size : Z) (r : read_redirect) : list Z * read_redirect :=
  match r with
  | RedirectVm => (ProcessVmRead addr size, r)
  | RedirectPtrace => (PtraceRead addr size, r)
  | RedirectNone =>
      let bytes := ProcessVmRead addr size in
      if negb (length bytes =? 0)%nat then (bytes, RedirectVm)
      else
        let bytes := PtraceRead addr size in
        (bytes, if negb (length bytes =? 0)%nat then RedirectPtrace else RedirectNone)
  end.
End process.

(** The process's own memory: the page size and the system call it uses. *)
Record MemoryLocal := mkLocal { pagesize_ : Z; readv_ : list (Z * Z) → option (list Z) }.
#[global] Instance MemoryLocal_Memory : Memory MemoryLocal := λ m, ProcessVmRead (pagesize_ m) (readv_ m).
