(* ===== verification/UnwindMemProps.v ===== *)
(** * What the memory objects promise

    Most memory objects read the longest valid prefix of their contents; that is
    the interface [Reads].  Against it: the page cache is transparent,
    and [ReadString] finds exactly the C string at an address. *)
From S2P Require Import Prelude UnwindMemory.

(** ** Valid prefixes *)

Fixpoint valid_prefix (c : Z → option Z) (a : Z) (n : nat) : list Z :=
  match n with
  | O => []
  | S n => match c a with Some b => b :: valid_prefix c (a + 1) n | None => [] end
  end.

Lemma valid_prefix_length c a n : (length (valid_prefix c a n) ≤ n)%nat.
Proof. revert a. induction n as [|n IH]; intros a; cbn; [lia|]. destruct (c a); cbn; [|lia]. specialize (IH (a + 1)). lia. Qed.

Lemma valid_prefix_app c a n m :
  valid_prefix c a (n + m) =
    valid_prefix c a n ++
    (if decide (length (valid_prefix c a n) = n) then valid_prefix c (a + Z.of_nat n) m else []).
Proof.
  revert a. induction n as [|n IH]; intros a; cbn [valid_prefix Nat.add].
  - cbn. by rewrite Z.add_0_r.
  - destruct (c a) as [b|]; cbn [app length].
    + rewrite IH. cbn. f_equal. f_equal. replace (a + 1 + Z.of_nat n) with (a + Z.of_nat (S n)) by lia.
      repeat case_decide; (done || lia).
    + case_decide; [lia|done].
Qed.

(** A full prefix and its parts. *)
Lemma valid_prefix_full_app c a n m :
  length (valid_prefix c a (n + m)) = (n + m)%nat ↔
  length (valid_prefix c a n) = n ∧ length (valid_prefix c (a + Z.of_nat n) m) = m.
Proof.
  rewrite valid_prefix_app, length_app. pose proof (valid_prefix_length c a n).
  pose proof (valid_prefix_length c (a + Z.of_nat n) m). case_decide; cbn [length]; lia.
Qed.

Lemma valid_prefix_slice c a n j k :
  length (valid_prefix c a n) = n → (j + k ≤ n)%nat →
  take k (drop j (valid_prefix c a n)) = valid_prefix c (a + Z.of_nat j) k ∧
  length (valid_prefix c (a + Z.of_nat j) k) = k.
Proof.
  intros Hn Hjk. replace n with (j + (k + (n - j - k)))%nat in * by lia. set (r := (n - j - k)%nat) in *.
  apply valid_prefix_full_app in Hn as [Hj Hr]. apply valid_prefix_full_app in Hr as [Hk Hr].
  split; [|done]. rewrite valid_prefix_app, decide_True by done. rewrite drop_app_length' by done.
  rewrite valid_prefix_app, decide_True by done. by rewrite take_app_length'.
Qed.

Lemma valid_prefix_lookup c a n i :
  (i < length (valid_prefix c a n))%nat → valid_prefix c a n !! i = c (a + Z.of_nat i).
Proof.
  revert a i. induction n as [|n IH]; intros a i; cbn; [lia|]. destruct (c a) as [b|] eqn:E; cbn; [|lia].
  destruct i as [|i]; intros Hi; cbn; [by rewrite Z.add_0_r|]. rewrite IH by lia. f_equal. lia.
Qed.

(** Contents that agree on the addresses read. *)
Lemma valid_prefix_ext c c' a n :
  (∀ i, a ≤ i < a + Z.of_nat n → c i = c' i) → valid_prefix c a n = valid_prefix c' a n.
Proof.
  revert a. induction n as [|n IH]; intros a Hc; cbn; [done|]. rewrite <-(Hc a) by lia.
  destruct (c a); [|done]. f_equal. apply IH. intros i Hi. apply Hc. lia.
Qed.

Lemma valid_prefix_shift c a d n :
  valid_prefix (λ i, c (i + d)) a n = valid_prefix c (a + d) n.
Proof.
  revert a. induction n as [|n IH]; intros a; cbn; [done|]. destruct (c (a + d)); [|done].
  f_equal. rewrite IH. f_equal. lia.
Qed.

Lemma valid_prefix_none c a n : c a = None → valid_prefix c a n = [].
Proof. intros E. destruct n; cbn; by rewrite ?E. Qed.

(** Nothing is valid from [a + k] on. *)
Lemma valid_prefix_stop c a n k :
  c (a + Z.of_nat k) = None → (k ≤ n)%nat → valid_prefix c a n = valid_prefix c a k.
Proof.
  intros E Hk. replace n with (k + (n - k))%nat by lia. rewrite valid_prefix_app.
  case_decide; [|apply app_nil_r]. rewrite (valid_prefix_none _ _ _ E). apply app_nil_r.
Qed.

Definition list_contents (l : list Z) (a : Z) : option Z := if a <? 0 then None else l !! Z.to_nat a.

Lemma list_prefix l a n :
  0 ≤ a → valid_prefix (list_contents l) a n = take n (drop (Z.to_nat a) l).
Proof.
  revert a. induction n as [|n IH]; intros a Ha; cbn; [by rewrite take_0|]. unfold list_contents at 1.
  destruct (Z.ltb_spec a 0); [lia|]. destruct (l !! Z.to_nat a) as [b|] eqn:E.
  - rewrite (drop_S _ _ _ E). cbn. f_equal. rewrite IH by lia. by replace (Z.to_nat (a + 1)) with (S (Z.to_nat a)) by lia.
  - apply lookup_ge_None in E. by rewrite drop_ge, take_nil by lia.
Qed.

(** ** The interface *)

(** Reads of up to [limit] bytes get the longest valid prefix of [c]. *)
Class Reads {M : Type} `{Memory M} (limit : Z) (m : M) (c : Z → option Z) : Prop :=
  read_contents a n : 0 ≤ a < 2 ^ 64 → 0 ≤ n ≤ limit → Read m a n = valid_prefix c a (Z.to_nat n).

Lemma buffer_read_prefix l a n :
  0 ≤ a → 0 ≤ n → buffer_read l a n = valid_prefix (list_contents l) a (Z.to_nat n).
Proof.
  intros Ha Hn. unfold buffer_read. rewrite list_prefix by done.
  destruct (Z.geb_spec a (Z.of_nat (length l))) as [Hge|Hlt]; [by rewrite drop_ge, take_nil by lia|].
  destruct (Z.le_ge_cases n (Z.of_nat (length l) - a)).
  - by rewrite Z.min_r by lia.
  - rewrite Z.min_l by lia. rewrite !take_ge; [done|rewrite length_drop; lia..].
Qed.

#[global] Instance MemoryBuffer_reads limit m : Reads limit m (list_contents (raw_ m)).
Proof. intros a n Ha Hn. apply buffer_read_prefix; lia. Qed.

#[global] Instance MemoryFileAtOffset_reads limit m : Reads limit m (list_contents (file_bytes m)).
Proof. intros a n Ha Hn. apply buffer_read_prefix; lia. Qed.

(** A window of other contents. *)
Definition window (c : Z → option Z) (begin length offset a : Z) : option Z :=
  if (offset <=? a) && (a <? offset + length) then c (a - offset + begin) else None.

Lemma window_prefix c begin length offset a n :
  offset ≤ a < offset + length →
  valid_prefix (window c begin length offset) a n =
  valid_prefix c (a - offset + begin) (Nat.min n (Z.to_nat (offset + length - a))).
Proof.
  intros Ha. set (k := Nat.min n (Z.to_nat (offset + length - a))).
  transitivity (valid_prefix (window c begin length offset) a k).
  - destruct (decide (k = n)) as [->|Hk]; [done|]. apply valid_prefix_stop; [|lia].
    unfold window. destruct (Z.ltb_spec (a + Z.of_nat k) (offset + length)); [lia|]. by rewrite andb_false_r.
  - replace (a - offset + begin) with (a + (begin - offset)) by lia. rewrite <-valid_prefix_shift.
    apply valid_prefix_ext. intros i Hi. unfold window.
    destruct (Z.leb_spec offset i); [|lia]. destruct (Z.ltb_spec i (offset + length)); [|lia]. cbn. f_equal. lia.
Qed.

#[global] Instance MemoryOfflineBuffer_reads limit m :
  Reads limit m (window (list_contents (ob_data m)) 0 (ob_end m - ob_start m) (ob_start m)).
Proof.
  intros a n Ha Hn. unfold Read, MemoryOfflineBuffer_Memory.
  destruct ((a <? ob_start m) || (a >=? ob_end m)) eqn:E.
  - rewrite valid_prefix_none; [done|]. unfold window.
    destruct ((ob_start m <=? a) && (a <? ob_start m + (ob_end m - ob_start m))) eqn:E'; [|done]. lia.
  - rewrite window_prefix by lia. rewrite list_prefix by lia. f_equal; [lia|]. f_equal. lia.
Qed.

Lemma MemoryRange_reads {M} `{Memory M} limit (m : M) c begin length offset :
  Reads limit m c → 0 ≤ begin → begin + length ≤ 2 ^ 64 →
  Reads limit (mkRange m begin length offset) (window c begin length offset).
Proof.
  intros Hm Hb Hl a n Ha Hn. unfold Read, MemoryRange_Memory. cbn [mr_memory mr_begin mr_length mr_offset].
  destruct (Z.ltb_spec a offset).
  { rewrite valid_prefix_none; [done|]. unfold window. destruct (Z.leb_spec offset a); [lia|done]. }
  destruct (Z.geb_spec (a - offset) length).
  { rewrite valid_prefix_none; [done|]. unfold window. destruct (Z.ltb_spec a (offset + length)); [lia|].
    by rewrite andb_false_r. }
  destruct (Z.geb_spec (a - offset + begin) (2 ^ 64)); [lia|].
  rewrite window_prefix by lia. rewrite read_contents by lia. f_equal. lia.
Qed.

Lemma ReadFully_spec {M} `{Memory M} limit (m : M) c a n bytes :
  Reads limit m c → 0 ≤ a < 2 ^ 64 → 0 ≤ n ≤ limit →
  ReadFully m a n = Some bytes ↔ bytes = valid_prefix c a (Z.to_nat n) ∧ length bytes = Z.to_nat n.
Proof.
  intros Hm Ha Hn. unfold ReadFully. rewrite read_contents by done.
  destruct (Z.eqb_spec (Z.of_nat (length (valid_prefix c a (Z.to_nat n)))) n); split.
  - intros [= <-]. split; [done|lia].
  - by intros [-> _].
  - done.
  - intros [-> ?]. lia.
Qed.

(** ** The page cache *)

Definition page_bytes : nat := Z.to_nat kCacheSize.
Lemma page_bytes_val : Z.of_nat page_bytes = 4096.
Proof. done. Qed.
#[global] Opaque page_bytes.

Definition page_of (c : Z → option Z) (page : Z) : list Z := valid_prefix c (page * 4096) page_bytes.

Definition cache_ok (c : Z → option Z) (cache : CacheDataType) : Prop :=
  ∀ page entry, cache !! page = Some entry → entry = page_of c page ∧ length entry = page_bytes.

Section cache.
Context {M : Type} `{Memory M} (m : M) (c : Z → option Z) `{!Reads 4096 m c}.

Lemma cache_page_spec page cache :
  0 ≤ page < 2 ^ 52 → cache_ok c cache →
  let '(entry, cache') := cache_page m page cache in
  cache_ok c cache' ∧
  match entry with
  | Some e => e = page_of c page ∧ length e = page_bytes
  | None => True
  end.
Proof.
  intros Hp Hok. unfold cache_page. destruct (cache !! page) as [e|] eqn:E; [by split; [|apply (Hok page)]|].
  assert (u64 (Z.shiftl page kCacheBits) = page * 4096) as ->.
  { unfold kCacheBits. rewrite Z.shiftl_mul_pow2 by lia. apply u64_small. lia. }
  destruct (ReadFully m (page * 4096) kCacheSize) as [e|] eqn:Er.
  - apply (ReadFully_spec 4096 m c) in Er as [-> Hl]; [|done|lia|done].
    change (Z.to_nat kCacheSize) with page_bytes in *. split; [|done].
    intros p e [[<- <-]|[_ Hp']]%lookup_insert_Some; [done|by apply Hok].
  - split; [|done]. intros p e [_ Hp']%lookup_delete_Some. by apply Hok.
Qed.

Lemma InternalCachedRead_spec addr size cache :
  0 ≤ addr → 0 ≤ size ≤ 4096 → addr + size ≤ 2 ^ 64 → addr < 2 ^ 64 → cache_ok c cache →
  let '(bytes, cache') := InternalCachedRead m addr size cache in
  bytes = Read m addr size ∧ cache_ok c cache'.
Proof.
  intros Ha Hs Has Htop Hok. unfold InternalCachedRead. pose proof page_bytes_val as Hpb.
  assert (Z.shiftr addr kCacheBits = addr / 4096) as -> by apply Z.shiftr_div_pow2, (Z.le_0_1).
  assert (Z.land addr kCacheMask = addr mod 4096) as -> by by apply (land_ones_mod addr 12).
  assert (0 ≤ addr / 4096 < 2 ^ 52) as Hpage by (split; [by apply Z.div_pos|apply Z.div_lt_upper_bound; lia]).
  set (page := addr / 4096) in *. set (off := addr mod 4096).
  assert (addr = page * 4096 + off ∧ 0 ≤ off < 4096) as [Haddr Hoff].
  { pose proof (Z.div_mod addr 4096 ltac:(done)). pose proof (Z.mod_pos_bound addr 4096 ltac:(done)). lia. }
  clearbody page off.
  assert (u64 (Z.shiftl (page + 1) kCacheBits) ⊟ addr = 4096 - off) as ->.
  { unfold kCacheBits. rewrite Z.shiftl_mul_pow2 by lia. change (2 ^ 12) with 4096.
    destruct (decide (page + 1 = 2 ^ 52)) as [E|]; [rewrite E|rewrite (u64_small ((page + 1) * 4096)), u64_small; lia].
    change (u64 (2 ^ 52 * 4096)) with 0. rewrite <-(u64_small (4096 - off)) by lia.
    replace (4096 - off) with (0 - addr + 1 * 2 ^ 64) by lia. unfold u64, wrap. by rewrite Z.mod_add. }
  pose proof (cache_page_spec page cache Hpage Hok) as Hc.
  assert (Read m addr size = valid_prefix c addr (Z.to_nat size)) as Hread by (apply read_contents; lia). rewrite Hread.
  destruct (cache_page m page cache) as [[e|] cache1]; destruct Hc as [Hok1 He].
  2:{ by split. }
  destruct He as [-> Hl]. unfold page_of in *.
  destruct (Z.leb_spec size (4096 - off)) as [Hfit|Hcross].
  { split; [|done]. destruct (valid_prefix_slice c _ _ (Z.to_nat off) (Z.to_nat size) Hl) as [-> _]; [lia|].
    f_equal. lia. }
  assert (page ⊞ 1 = page + 1) as -> by (apply u64_small; lia).
  destruct (valid_prefix_slice c _ _ (Z.to_nat off) (Z.to_nat (4096 - off)) Hl) as [-> Hfull]; [lia|].
  replace (Z.to_nat size) with (Z.to_nat (4096 - off) + Z.to_nat (size - (4096 - off)))%nat by lia.
  replace (page * 4096 + Z.of_nat (Z.to_nat off)) with addr in * by lia.
  rewrite valid_prefix_app, decide_True by done.
  replace (addr + Z.of_nat (Z.to_nat (4096 - off))) with ((page + 1) * 4096) by lia.
  pose proof (cache_page_spec (page + 1) cache1 ltac:(lia) Hok1) as Hc.
  destruct (cache_page m (page + 1) cache1) as [[e|] cache2]; destruct Hc as [Hok2 He]; (split; [|done]); f_equal.
  - destruct He as [-> Hl2]. unfold page_of in *.
    pose proof (valid_prefix_slice c ((page + 1) * 4096) page_bytes 0 (Z.to_nat (size - (4096 - off))) Hl2 ltac:(lia)) as [Es _].
    rewrite drop_0, Z.add_0_r in Es. exact Es.
  - unfold kCacheBits. rewrite Z.shiftl_mul_pow2 by lia. change (2 ^ 12) with 4096.
    rewrite u64_small by lia. apply read_contents; lia.
Qed.

(** A use of the cache. *)
Inductive cache_op := CacheRead (addr size : Z) | CacheClear.

Definition cache_op_ok (op : cache_op) : Prop :=
  match op with CacheRead addr size => 0 ≤ addr < 2 ^ 64 ∧ 0 ≤ size ∧ addr + size ≤ 2 ^ 64 | CacheClear => True end.

Fixpoint run_cache (ops : list cache_op) (cache : CacheDataType) : list (list Z) :=
  match ops with
  | [] => []
  | CacheRead addr size :: ops =>
      let '(bytes, cache) := MemoryCache_Read m addr size cache in bytes :: run_cache ops cache
  | CacheClear :: ops => run_cache ops (MemoryCache_Clear cache)
  end.

Fixpoint run_direct (ops : list cache_op) : list (list Z) :=
  match ops with
  | [] => []
  | CacheRead addr size :: ops => Read m addr size :: run_direct ops
  | CacheClear :: ops => run_direct ops
  end.

Lemma run_cache_direct ops cache : Forall cache_op_ok ops → cache_ok c cache → run_cache ops cache = run_direct ops.
Proof.
  revert cache. induction ops as [|op ops IH]; intros cache Hops Hok; [done|].
  apply Forall_cons in Hops as [Hop Hops]. destruct op as [addr size|]; cbn.
  - unfold MemoryCache_Read. destruct (Z.gtb_spec size 64); [f_equal; by apply IH|].
    destruct Hop as (? & ? & ?). pose proof (InternalCachedRead_spec addr size cache) as Hr.
    destruct (InternalCachedRead m addr size cache) as [bytes cache'].
    destruct Hr as [-> Hok']; [lia..|done|]. f_equal. by apply IH.
  - by apply IH.
Qed.
End cache.

(** ** C strings *)

(** The string [s] and its terminator are at [a]. *)
Definition cstring_at (c : Z → option Z) (a : Z) (s : list Z) : Prop :=
  (∀ i b, s !! i = Some b → c (a + Z.of_nat i) = Some b ∧ b ≠ 0) ∧ c (a + Z.of_nat (length s)) = Some 0.

(** No terminator among the first [k] bytes, which are valid. *)
Definition nonzero_to (c : Z → option Z) (a k : Z) : Prop :=
  ∀ i, 0 ≤ i < k → ∃ b, c (a + i) = Some b ∧ b ≠ 0.

Lemma nonzero_to_full c a k : 0 ≤ k → nonzero_to c a k → length (valid_prefix c a (Z.to_nat k)) = Z.to_nat k.
Proof.
  intros Hk Hn. remember (Z.to_nat k) as n eqn:En. assert (k = Z.of_nat n) as -> by lia. clear En Hk.
  revert a Hn. induction n as [|n IH]; intros a Hn; cbn; [done|].
  destruct (Hn 0 ltac:(lia)) as (b & Hb & _). rewrite Z.add_0_r in Hb. rewrite Hb. cbn. f_equal. apply IH.
  intros i Hi. destruct (Hn (i + 1) ltac:(lia)) as (b' & Hb' & Hne). exists b'. split; [|done].
  rewrite <-Hb'. f_equal. lia.
Qed.

Lemma cstring_before c a k s : nonzero_to c a k → cstring_at c a s → k ≤ Z.of_nat (length s).
Proof.
  intros Hn [_ Hz]. destruct (Z.le_gt_cases k (Z.of_nat (length s))) as [|Hlt]; [done|].
  destruct (Hn (Z.of_nat (length s)) ltac:(lia)) as (b & Hb & Hne). congruence.
Qed.

Lemma cstring_unique c a k s :
  0 ≤ k → nonzero_to c a k → c (a + k) = Some 0 → cstring_at c a s ↔ s = valid_prefix c a (Z.to_nat k).
Proof.
  intros Hk Hn Hz. pose proof (nonzero_to_full c a k Hk Hn) as Hl.
  assert (∀ i, (i < Z.to_nat k)%nat → valid_prefix c a (Z.to_nat k) !! i = c (a + Z.of_nat i)) as Hlook
    by (intros; apply valid_prefix_lookup; lia).
  split.
  - intros Hs. pose proof (cstring_before _ _ _ _ Hn Hs) as Hle. destruct Hs as [Hs Hz'].
    assert (length s = Z.to_nat k) as El.
    { destruct (decide (length s = Z.to_nat k)) as [|Hne]; [done|].
      destruct (lookup_lt_is_Some_2 s (Z.to_nat k)) as [b Hb]; [lia|].
      destruct (Hs _ _ Hb) as [Hc Hne']. replace (a + Z.of_nat (Z.to_nat k)) with (a + k) in Hc by lia. congruence. }
    apply list_eq. intros i. destruct (decide (i < Z.to_nat k)%nat) as [Hi|Hi].
    + rewrite Hlook by done. destruct (lookup_lt_is_Some_2 s i) as [b Hb]; [lia|]. rewrite Hb. symmetry. by apply Hs.
    + rewrite !lookup_ge_None_2 by lia. done.
  - intros ->. split; [|rewrite Hl; by replace (a + Z.of_nat (Z.to_nat k)) with (a + k) by lia].
    intros i b Hb. pose proof (lookup_lt_Some _ _ _ Hb) as Hi. rewrite Hl in Hi. rewrite Hlook in Hb by done.
    split; [done|]. destruct (Hn (Z.of_nat i) ltac:(lia)) as (b' & Hb' & Hne). congruence.
Qed.

Lemma strnlen_spec l :
  (strnlen l ≤ length l)%nat ∧ (∀ i b, (i < strnlen l)%nat → l !! i = Some b → b ≠ 0) ∧
  ((strnlen l < length l)%nat → l !! strnlen l = Some 0).
Proof.
  induction l as [|x l (IH1 & IH2 & IH3)]; cbn; [split_and!; lia|]. destruct (Z.eqb_spec x 0) as [->|Hx]; cbn.
  - split_and!; [lia|lia|done].
  - split_and!; [lia| |intros; apply IH3; lia]. intros [|i] b Hi Hb; cbn in Hb; [congruence|]. apply (IH2 i); [lia|done].
Qed.

Lemma read_string_loop_spec {M} `{Memory M} limit (m : M) c fuel addr offset max_read s :
  Reads limit m c → 256 ≤ limit → max_read ≤ limit → 0 ≤ addr → 0 ≤ offset ≤ max_read → addr + max_read ≤ 2 ^ 64 →
  max_read - offset < Z.of_nat fuel → nonzero_to c addr offset →
  read_string_loop fuel m addr offset max_read = Some s ↔ cstring_at c addr s ∧ Z.of_nat (length s) < max_read.
Proof.
  intros Hm Hlim Hmax Ha. revert offset. induction fuel as [|fuel IH]; intros offset Ho Htop Hf Hn; [lia|]. cbn [read_string_loop].
  destruct (Z.leb_spec max_read offset).
  { split; [done|]. intros [Hs Hl]. pose proof (cstring_before _ _ _ _ Hn Hs). lia. }
  set (read := Z.min 256 (max_read - offset)). assert (0 < read ≤ max_read - offset) as Hread by lia. rewrite (u64_small (addr + offset)) by lia.
  rewrite (read_contents (m := m) (c := c)) by lia. set (buffer := valid_prefix c (addr + offset) (Z.to_nat read)).
  assert (∀ i, (i < length buffer)%nat → buffer !! i = c (addr + (offset + Z.of_nat i))) as Hlook.
  { intros i Hi. unfold buffer. rewrite valid_prefix_lookup by done. f_equal. lia. }
  assert (length buffer ≤ Z.to_nat read)%nat as Hbl by apply valid_prefix_length.
  destruct (Z.eqb_spec (Z.of_nat (length buffer)) 0) as [Hz|Hz].
  { assert (c (addr + offset) = None) as E.
    { unfold buffer in Hz. destruct (Z.to_nat read) as [|n] eqn:En; [lia|]. cbn in Hz.
      destruct (c (addr + offset)); [cbn in Hz; lia|done]. }
    split; [done|]. intros [Hs Hl]. pose proof (cstring_before _ _ _ _ Hn Hs) as Hle. destruct Hs as [Hs Hz'].
    destruct (decide (Z.of_nat (length s) = offset)) as [<-|Hne]; [congruence|].
    destruct (lookup_lt_is_Some_2 s (Z.to_nat offset)) as [b Hb]; [lia|]. destruct (Hs _ _ Hb) as [Hc _].
    replace (addr + Z.of_nat (Z.to_nat offset)) with (addr + offset) in Hc by lia. congruence. }
  destruct (strnlen_spec buffer) as (Hk1 & Hk2 & Hk3). set (k := strnlen buffer) in *.
  assert (nonzero_to c addr (offset + Z.of_nat k)) as Hn'.
  { intros i Hi. destruct (Z.lt_ge_cases i offset); [apply Hn; lia|].
    destruct (lookup_lt_is_Some_2 buffer (Z.to_nat (i - offset))) as [b Hb]; [lia|]. exists b.
    split; [|apply (Hk2 (Z.to_nat (i - offset))); [lia|done]]. rewrite Hlook in Hb by lia. rewrite <-Hb. f_equal. lia. }
  destruct (Z.ltb_spec (Z.of_nat k) (Z.of_nat (length buffer))) as [Hlt|Hge].
  - assert (c (addr + (offset + Z.of_nat k)) = Some 0) as Hzero by (rewrite <-Hlook by lia; apply Hk3; lia).
    rewrite (cstring_unique c addr (offset + Z.of_nat k) s ltac:(lia) Hn' Hzero).
    pose proof (nonzero_to_full c addr (offset + Z.of_nat k) ltac:(lia) Hn') as Hfull.
    destruct (Z.eqb_spec offset 0) as [->|].
    + assert (take k buffer = valid_prefix c addr (Z.to_nat (0 + Z.of_nat k))) as <-.
      { unfold buffer. rewrite Z.add_0_r. replace (Z.to_nat (0 + Z.of_nat k)) with k in * by lia.
        replace (Z.to_nat read) with (k + (Z.to_nat read - k))%nat by lia.
        rewrite valid_prefix_app. by rewrite take_app_length'. }
      split; [intros [= <-]; rewrite length_take; split; [done|lia]|by intros [-> _]].
    + rewrite (ReadFully_spec limit m c) by (done || lia). split; [intros [-> ?]; split; [done|lia]|].
      intros [-> _]. split; [done|lia].
  - assert (k = length buffer) as Ek by lia. apply IH; [lia..|]. by rewrite <-Ek.
Qed.

(** ** Files *)

Lemma aligned_split offset k :
  0 ≤ k → Z.land offset (Z.lnot (2 ^ k - 1)) + Z.land offset (2 ^ k - 1) = offset.
Proof.
  intros Hk. replace (2 ^ k - 1) with (Z.ones k) by (rewrite Z.ones_equiv; lia). rewrite <-Z.ldiff_land, Z.ldiff_ones_r, Z.land_ones by done.
  rewrite Z.shiftl_mul_pow2, Z.shiftr_div_pow2 by done. pose proof (Z.div_mod offset (2 ^ k)).
  assert (2 ^ k ≠ 0) by (apply Z.pow_nonzero; lia). lia.
Qed.

Lemma MemoryFileAtOffset_Init_spec k file map_ok offset size m :
  0 ≤ k < 32 → 0 ≤ offset → 0 ≤ size < 2 ^ 64 → Z.of_nat (length file) < 2 ^ 63 →
  let '(ok, m') := MemoryFileAtOffset_Init (2 ^ k) (Some file) map_ok offset size m in
  ok = map_ok && (offset <? Z.of_nat (length file)) ∧
  (ok = true → file_bytes m' = take (Z.to_nat size) (drop (Z.to_nat offset) file)).
Proof.
  intros Hk Ho Hs Hl. unfold MemoryFileAtOffset_Init. destruct (Z.geb_spec offset (Z.of_nat (length file))).
  { destruct (Z.ltb_spec offset (Z.of_nat (length file))); [lia|]. by rewrite andb_false_r. }
  destruct (Z.ltb_spec offset (Z.of_nat (length file))); [|lia]. rewrite andb_true_r.
  pose proof (aligned_split offset k ltac:(lia)) as Hsplit. pose proof (land_ones_range offset k ltac:(lia)) as Hr.
  assert (2 ^ k < 2 ^ 32) as Hpow by (apply Z.pow_lt_mono_r; lia).
  assert (0 ≤ Z.land offset (Z.lnot (2 ^ k - 1))) as Ha by (apply Z.land_nonneg; by left).
  set (off := Z.land offset (2 ^ k - 1)) in *. set (al := Z.land offset (Z.lnot (2 ^ k - 1))) in *.
  destruct ((al >? _) || (offset >? _)) eqn:Eg; [lia|]. destruct map_ok; [|done]. cbn [negb].
  split; [done|]. intros _. cbn [file_bytes data_ default from_option id].
  rewrite skipn_firstn_comm, drop_drop. replace (Z.to_nat al + Z.to_nat off)%nat with (Z.to_nat offset) by lia.
  destruct ((size + off <? 2 ^ 64) && (size + off <? Z.of_nat (length file) - al)) eqn:Et.
  - f_equal. lia.
  - rewrite !take_ge; [done|rewrite length_drop; lia..].
Qed.

(** ** Process memory *)

Section process.
Variables (pagesize : Z) (c : Z → option Z) (process_vm_readv : list (Z * Z) → option (list Z)).

(** The elements before the first one with an invalid byte. *)
Fixpoint transferred (iovs : list (Z * Z)) : list Z :=
  match iovs with
  | [] => []
  | (a, l) :: iovs =>
      let bytes := valid_prefix c a (Z.to_nat l) in
      if decide (length bytes = Z.to_nat l) then bytes ++ transferred iovs else []
  end.

(** What the manual says of process_vm_readv: whole elements are transferred,
    up to the first invalid one, and it is an error when that is the first. *)
Definition readv_whole_elements : Prop :=
  ∀ iovs, process_vm_readv iovs =
    match transferred iovs with [] => if iovs is [] then Some [] else None | bytes => Some bytes end.

(** Memory is mapped in pages. *)
Definition page_granular : Prop := ∀ a b, a / pagesize = b / pagesize → is_Some (c a) → is_Some (c b).

Hypothesis Hreadv : readv_whole_elements.
Hypothesis Hgran : page_granular.
Hypothesis Hsize : ∃ k, 0 ≤ k < 32 ∧ pagesize = 2 ^ k.

(** Within a page all bytes are valid or none is. *)
Lemma page_prefix a n :
  (0 < n)%nat → a mod pagesize + Z.of_nat n ≤ pagesize →
  length (valid_prefix c a n) = n ∨ c a = None.
Proof.
  intros Hn Hp. destruct Hsize as (k & Hk & Ek). assert (0 < pagesize) as Hpos by (rewrite Ek; apply Z.pow_pos_nonneg; lia). clear k Hk Ek.
  destruct (c a) as [b0|] eqn:Ea; [left|by right].
  assert (∀ j, 0 ≤ j < Z.of_nat n → is_Some (c (a + j))) as Hall.
  { intros j Hj. apply (Hgran a); [|by rewrite Ea]. pose proof (Z.div_mod a pagesize ltac:(lia)).
    pose proof (Z.mod_pos_bound a pagesize Hpos). apply Z.div_unique with (a mod pagesize + j); lia. }
  clear Hp Ea Hn. revert a Hall. induction n as [|n IH]; intros a Hall; cbn; [done|].
  destruct (Hall 0 ltac:(lia)) as [b Hb]. rewrite Z.add_0_r in Hb. rewrite Hb. cbn. f_equal. apply IH.
  intros j Hj. replace (a + 1 + j) with (a + (j + 1)) by lia. apply Hall. lia.
Qed.

Lemma fill_iovecs_spec n cur len :
  0 ≤ cur → 0 ≤ len → cur + len < 2 ^ 64 →
  len = 0 ∨ cur mod pagesize + len ≤ Z.of_nat n * pagesize →
  let '(iovs, cur', len', overflow) := fill_iovecs pagesize n cur len in
  len' = 0 ∧ overflow = false ∧ transferred iovs = valid_prefix c cur (Z.to_nat len) ∧ (iovs = [] → len = 0).
Proof.
  pose proof Hsize as (k & Hk & Ek). assert (0 < pagesize) as Hpos by (rewrite Ek; apply Z.pow_pos_nonneg; lia).
  revert cur len. induction n as [|n IH]; intros cur len Hc Hl Htop Hfit; cbn [fill_iovecs].
  { pose proof (Z.mod_pos_bound cur pagesize Hpos). by assert (len = 0) as -> by lia. }
  destruct (Z.leb_spec len 0); [by assert (len = 0) as -> by lia|].
  unfold UINTPTR_MAX. destruct (Z.geb_spec cur (2 ^ 64 - 1)); [lia|].
  assert (Z.land cur (pagesize - 1) = cur mod pagesize) as -> by (rewrite Ek; apply land_ones_mod; lia).
  pose proof (Z.mod_pos_bound cur pagesize Hpos) as Hm. set (mis := cur mod pagesize) in *.
  set (l := Z.min (pagesize - mis) len). assert (0 < l ≤ len ∧ mis + l ≤ pagesize) as [Hl' Hml] by lia.
  destruct (Z.geb_spec (cur + l) (2 ^ 64)); [lia|].
  specialize (IH (cur + l) (len - l) ltac:(lia) ltac:(lia) ltac:(lia)).
  destruct (fill_iovecs pagesize n (cur + l) (len - l)) as [[[iovs cur'] len'] overflow].
  destruct IH as (-> & -> & Ht & _).
  { destruct (decide (l = len)) as [E|Hne]; [left; lia|right].
    assert (mis + l = pagesize) as El by lia. assert ((cur + l) mod pagesize = 0) as ->; [|lia].
    pose proof (Z.div_mod cur pagesize ltac:(lia)) as Hdm. fold mis in Hdm.
    replace (cur + l) with ((cur / pagesize + 1) * pagesize) by lia. apply Z.mod_mul. lia. }
  split_and!; [done..| |done]. cbn [transferred].
  replace (Z.to_nat len) with (Z.to_nat l + Z.to_nat (len - l))%nat by lia. rewrite valid_prefix_app, Ht.
  replace (cur + Z.of_nat (Z.to_nat l)) with (cur + l) by lia. case_decide as E; [done|].
  destruct (page_prefix cur (Z.to_nat l)) as [?|Hnone]; [lia..|done|]. by rewrite !valid_prefix_none.
Qed.

(** A read that starts at an invalid address gets nothing. *)
Lemma ProcessVmRead_invalid a len : c a = None → 0 ≤ len → ProcessVmRead pagesize process_vm_readv a len = [].
Proof.
  pose proof Hsize as (k & Hk & Ek). assert (0 < pagesize) as Hpos by (rewrite Ek; apply Z.pow_pos_nonneg; lia).
  intros Hc Hl. unfold ProcessVmRead. cbn [vm_read_loop]. destruct (Z.leb_spec len 0); [done|].
  destruct (Z.to_nat kMaxIovecs) as [|n] eqn:En; [done|]. cbn [fill_iovecs]. clear En.
  destruct (Z.leb_spec len 0); [lia|]. destruct (a >=? UINTPTR_MAX); [done|].
  assert (Z.land a (pagesize - 1) = a mod pagesize) as -> by (rewrite Ek; apply land_ones_mod; lia).
  pose proof (Z.mod_pos_bound a pagesize Hpos). set (l := Z.min _ len). assert (0 < l) by lia.
  destruct (a + l >=? 2 ^ 64); [done|]. destruct (fill_iovecs pagesize n (a + l) (len - l)) as [[[iovs cur] len'] [|]]; [done|].
  rewrite Hreadv. cbn [transferred]. rewrite valid_prefix_none by done. by rewrite decide_False by (cbn; lia).
Qed.

Lemma ProcessVmRead_prefix a len :
  0 ≤ a → 0 ≤ len → a + len < 2 ^ 64 → a mod pagesize + len ≤ 64 * pagesize →
  ProcessVmRead pagesize process_vm_readv a len = valid_prefix c a (Z.to_nat len).
Proof.
  intros Ha Hl Htop Hfit. unfold ProcessVmRead. cbn [vm_read_loop].
  destruct (Z.leb_spec len 0); [by assert (len = 0) as -> by lia|].
  pose proof (fill_iovecs_spec (Z.to_nat kMaxIovecs) a len) as Hf. 
  destruct (fill_iovecs pagesize (Z.to_nat kMaxIovecs) a len) as [[[iovs cur] len'] overflow].
  destruct Hf as (-> & -> & Ht & Hnil); [lia..|unfold kMaxIovecs; right; lia|].
  rewrite Hreadv, Ht. destruct (Z.to_nat len) as [|n] eqn:En; [lia|].
  destruct (valid_prefix c a (S n)) as [|b bytes] eqn:Ep; [destruct iovs; [|done]; specialize (Hnil eq_refl); lia|].
  by destruct n.
Qed.

(** User addresses are in the lower half. *)
Definition user_half : Prop := ∀ a, 2 ^ 63 ≤ a → c a = None.

Lemma ProcessVmRead_reads a n :
  user_half → 0 ≤ a < 2 ^ 64 → 0 ≤ n ≤ 63 * pagesize →
  ProcessVmRead pagesize process_vm_readv a n = valid_prefix c a (Z.to_nat n).
Proof.
  intros Huser Ha Hn. pose proof Hsize as (k & Hk & Ek).
  assert (0 < pagesize < 2 ^ 32) as Hpos by (rewrite Ek; split; [apply Z.pow_pos_nonneg|apply Z.pow_lt_mono_r]; lia).
  destruct (Z.lt_ge_cases (a + n) (2 ^ 64)).
  - apply ProcessVmRead_prefix; try lia. pose proof (Z.mod_pos_bound a pagesize ltac:(lia)). lia.
  - assert (c a = None) as Hc by (apply Huser; lia). rewrite valid_prefix_none by done.
    apply ProcessVmRead_invalid; [done|lia].
Qed.
End process.

(** ** The properties *)

(** What uncached reads of the contents give. *)
Definition contents_read (c : Z → option Z) (op : cache_op) : option (list Z) :=
  match op with CacheRead addr size => Some (valid_prefix c addr (Z.to_nat size)) | CacheClear => None end.

Lemma run_direct_contents {M} `{Memory M} limit (m : M) c ops :
  Reads limit m c → Forall cache_op_ok ops →
  Forall (λ op, if op is CacheRead _ size then size ≤ limit else True) ops →
  run_direct m ops = omap (contents_read c) ops.
Proof.
  intros Hm Hops Hlim. induction ops as [|[addr size|] ops IH]; [done|..];
    apply Forall_cons in Hops as [Hop Hops], Hlim as [Hl Hlim]; cbn; rewrite IH by done; [|done].
  destruct Hop as (? & ? & ?). f_equal. apply read_contents; lia.
Qed.

(** Reads of the process's own memory through the page cache
    ([MemoryCache] over [MemoryLocal]), in any sequence with clears of the
    cache, give exactly the longest valid prefix of the memory at each address,
    though the cache keeps whole pages, splits reads at page ends and falls back
    to an uncached read for a page that is not fully mapped.  The system call is
    only assumed to transfer whole elements up to the first invalid one. *)
Theorem cached_process_reads pagesize c readv ops :
  readv_whole_elements c readv → page_granular pagesize c →
  (∃ k, 12 ≤ k < 32 ∧ pagesize = 2 ^ k) → user_half c →
  Forall cache_op_ok ops →
  Forall (λ op, if op is CacheRead _ size then size ≤ 63 * pagesize else True) ops →
  run_cache (mkLocal pagesize readv) ops ∅ = omap (contents_read c) ops.
Proof.
  intros Hreadv Hgran (k & Hk & Ek) Huser Hops Hlim.
  assert (Reads (63 * pagesize) (mkLocal pagesize readv) c) as Hm.
  { intros a n Ha Hn. apply ProcessVmRead_reads; try done. exists k. split; [lia|done]. }
  rewrite <-(run_direct_contents (63 * pagesize) (mkLocal pagesize readv) c) by done.
  assert (Reads 4096 (mkLocal pagesize readv) c); [|by apply (run_cache_direct _ c)].
  intros a n Ha Hn. apply Hm; [done|]. assert (2 ^ 12 ≤ pagesize) by (rewrite Ek; apply Z.pow_le_mono_r; lia). lia.
Qed.

(** One mapped page, whose bytes count up, and the system call on it. *)
Definition sample_contents (a : Z) : option Z := if a / 4096 =? 2 then Some (a mod 256) else None.
Definition sample_readv (iovs : list (Z * Z)) : option (list Z) :=
  match transferred sample_contents iovs with [] => if iovs is [] then Some [] else None | bytes => Some bytes end.

Lemma cached_process_reads_witness :
  let ops := [CacheRead 12284 8; CacheRead 12284 2; CacheRead 8190 4; CacheClear; CacheRead 8192 3] in
  run_cache (mkLocal 4096 sample_readv) ops ∅ = [[252; 253; 254; 255]; [252; 253]; []; [0; 1; 2]].
Proof.
  intros ops. unfold ops. rewrite (cached_process_reads 4096 sample_contents); [by vm_compute|..].
  - done.
  - intros a b E. unfold sample_contents. rewrite E. case_ifs; [by eexists|by intros [? ?]].
  - by exists 12.
  - intros a Ha. unfold sample_contents. destruct (Z.eqb_spec (a / 4096) 2) as [E|]; [|done].
    assert (2 ^ 63 / 4096 ≤ a / 4096) as Hle by (apply Z.div_le_mono; lia). rewrite E in Hle. by vm_compute in Hle.
  - repeat (constructor; cbn; [lia || done|]); constructor.
  - repeat (constructor; [lia || done|]); constructor.
Defined.

(** [ReadString] returns exactly the bytes before the terminator of the C
    string at an address when the string and its terminator are mapped and
    within [max_read] bytes, and fails in every other case, though it reads in
    chunks of 256 bytes and may run into unmapped memory behind the string. *)
Theorem ReadString_exact {M} `{Memory M} limit (m : M) c addr max_read s :
  Reads limit m c → 256 ≤ limit → 0 ≤ max_read ≤ limit → 0 ≤ addr → addr + max_read ≤ 2 ^ 64 →
  ReadString m addr max_read = Some s ↔ cstring_at c addr s ∧ Z.of_nat (length s) < max_read.
Proof. intros. apply (read_string_loop_spec limit); (done || lia || (intros ??; lia)). Qed.

Lemma ReadString_exact_witness :
  let m := mkBuffer [1; 65; 66; 67; 0; 68] in
  cstring_at (list_contents (raw_ m)) 1 [65; 66; 67] ∧ ReadString m 1 4 = Some [65; 66; 67] ∧
  ReadString m 1 3 = None ∧ ReadString m 5 9 = None.
Proof.
  intros m. assert (ReadString m 1 4 = Some [65; 66; 67]) as E by by vm_compute.
  split_and!; [|done|by vm_compute..].
  by apply (ReadString_exact 4096 m (list_contents (raw_ m)) 1 4 [65; 66; 67]) in E as [? _]; [|apply _|..].
Defined.
