(* ===== verification/Outcome.v ===== *)
(** * Programs that can fail or be undefined

    The unwinder's parsers return [false] on an error and leave their object
    changed; some of their inputs take them to behaviour the language does not
    define.  A program here is a function from a state to an outcome with both
    cases, and [wp] is its weakest precondition. *)
From S2P Require Import Prelude.

(** What the language leaves undefined, the calls of [abort], and a loop that
    outruns the bound its model has. *)
Inductive fault := OutOfRange | BadShift | SignedOverflow | Aborted | NoFuel.
#[global] Instance fault_eq_dec : EqDecision fault.
Proof. solve_decision. Defined.

Inductive outcome (S A : Type) := Ret (a : A) (s : S) | Err (s : S) | Fault (f : fault).
#[global] Arguments Ret {S A}.
#[global] Arguments Err {S A}.
#[global] Arguments Fault {S A}.

Definition prog (S A : Type) : Type := S → outcome S A.

#[global] Instance prog_ret {S} : MRet (prog S) := λ A a s, Ret a s.
#[global] Instance prog_bind {S} : MBind (prog S) := λ A B k m s,
  match m s with Ret a s' => k a s' | Err s' => Err s' | Fault f => Fault f end.

Section basic.
Context {S : Type}.

Definition get : prog S S := λ s, Ret s s.
Definition modify (f : S → S) : prog S unit := λ s, Ret () (f s).
(** [return false] *)
Definition fail {A} : prog S A := Err.
Definition undef {A} (f : fault) : prog S A := λ _, Fault f.

(** The part of an object that another object owns. *)
Definition zoom {T A} (proj : S → T) (put : T → S → S) (m : prog T A) : prog S A := λ s,
  match m (proj s) with
  | Ret a t => Ret a (put t s)
  | Err t => Err (put t s)
  | Fault f => Fault f
  end.

(** [if (!m) { handler; return false; }] *)
Definition on_error {A} (m : prog S A) (handler : S → S) : prog S A := λ s,
  match m s with Err s' => Err (handler s') | r => r end.
End basic.

(** ** Weakest preconditions *)

(** [U] says which faults are allowed. *)
Definition wp {S A} (U : fault → Prop) (m : prog S A) (s : S) (Q : A → S → Prop) (E : S → Prop) : Prop :=
  match m s with Ret a s' => Q a s' | Err s' => E s' | Fault f => U f end.

Section wp.
Context {S : Type} (U : fault → Prop).

Lemma wp_ret {A} (a : A) (s : S) (Q : A → S → Prop) (E : S → Prop) : Q a s → wp U (mret a) s Q E.
Proof. done. Qed.

Lemma wp_bind {A B} (m : prog S A) (k : A → prog S B) s Q E :
  wp U m s (λ a s', wp U (k a) s' Q E) E → wp U (m ≫= k) s Q E.
Proof. unfold wp, mbind, prog_bind. by destruct (m s). Qed.

Lemma wp_mono {A} (m : prog S A) s (Q Q' : A → S → Prop) (E E' : S → Prop) :
  wp U m s Q E → (∀ a s', Q a s' → Q' a s') → (∀ s', E s' → E' s') → wp U m s Q' E'.
Proof. unfold wp. destruct (m s); auto. Qed.

Lemma wp_get (s : S) (Q : S → S → Prop) (E : S → Prop) : Q s s → wp U get s Q E.
Proof. done. Qed.

Lemma wp_modify f (s : S) (Q : unit → S → Prop) (E : S → Prop) : Q () (f s) → wp U (modify f) s Q E.
Proof. done. Qed.

Lemma wp_fail {A} (s : S) (Q : A → S → Prop) (E : S → Prop) : E s → wp U fail s Q E.
Proof. done. Qed.

Lemma wp_undef {A} f (s : S) (Q : A → S → Prop) (E : S → Prop) : U f → wp U (undef f) s Q E.
Proof. done. Qed.

Lemma wp_zoom {T A} proj put (m : prog T A) (s : S) Q E :
  wp U m (proj s) (λ a t, Q a (put t s)) (λ t, E (put t s)) → wp U (zoom proj put m) s Q E.
Proof. unfold wp, zoom. by destruct (m (proj s)). Qed.

Lemma wp_on_error {A} (m : prog S A) handler s Q E :
  wp U m s Q (λ s', E (handler s')) → wp U (on_error m handler) s Q E.
Proof. unfold wp, on_error. by destruct (m s). Qed.
End wp.

Create HintDb wp discriminated.
#[export] Hint Resolve wp_ret wp_get wp_modify wp_fail wp_undef : wp.

(** One step of a program; conditions become hypotheses. *)
Ltac wp_step :=
  lazymatch goal with
  | |- wp _ (_ ≫= _) _ _ _ => apply wp_bind
  | |- wp _ (mret _) _ _ _ => apply wp_ret
  | |- wp _ get _ _ _ => apply wp_get
  | |- wp _ (modify _) _ _ _ => apply wp_modify
  | |- wp _ fail _ _ _ => apply wp_fail
  | |- wp _ (undef _) _ _ _ => apply wp_undef
  | |- wp _ (zoom _ _ _) _ _ _ => apply wp_zoom
  | |- wp _ (on_error _ _) _ _ _ => apply wp_on_error
  | |- wp _ (if ?b then _ else _) _ _ _ => destruct b eqn:?
  | |- wp _ (match ?x with _ => _ end) _ _ _ => destruct x eqn:?
  end.
Ltac wp_steps := repeat (wp_step; cbn beta).

(** ** Termination *)

(** The bound of a model's loops is never reached. *)
Definition terminates {S A} (p : prog S A) : Prop := ∀ s, p s ≠ Fault NoFuel.

Section terminates.
Context {S : Type}.

Lemma terminates_bind {A B} (p : prog S A) (k : A → prog S B) :
  terminates p → (∀ a, terminates (k a)) → terminates (p ≫= k).
Proof.
  intros Hp Hk s. specialize (Hp s). unfold mbind, prog_bind. destruct (p s); [apply Hk|done|congruence].
Qed.
Lemma terminates_ret {A} (a : A) : terminates (S := S) (mret a).
Proof. done. Qed.
Lemma terminates_get : terminates (S := S) get.
Proof. done. Qed.
Lemma terminates_modify f : terminates (S := S) (modify f).
Proof. done. Qed.
Lemma terminates_fail {A} : terminates (S := S) (A := A) fail.
Proof. done. Qed.
Lemma terminates_undef {A} f : f ≠ NoFuel → terminates (S := S) (A := A) (undef f).
Proof. intros Hf s [= ?]. done. Qed.
Lemma terminates_zoom {T A} proj put (p : prog T A) : terminates p → terminates (S := S) (zoom proj put p).
Proof. intros Hp s. specialize (Hp (proj s)). unfold zoom. destruct (p (proj s)); congruence. Qed.
Lemma terminates_on_error {A} (p : prog S A) handler : terminates p → terminates (on_error p handler).
Proof. intros Hp s. specialize (Hp s). unfold on_error. by destruct (p s). Qed.
End terminates.

Create HintDb terminates discriminated.
#[export] Hint Resolve terminates_ret terminates_get terminates_modify terminates_fail : terminates.
Ltac terminate_step :=
  lazymatch goal with
  | |- ∀ _, terminates _ => intros ?
  | |- terminates (_ ≫= _) => apply terminates_bind; [|intros ?]
  | |- terminates (if ?b then _ else _) => destruct b
  | |- terminates (match ?x with _ => _ end) => destruct x
  | |- terminates (undef _) => apply terminates_undef; discriminate
  | |- terminates (zoom _ _ _) => apply terminates_zoom
  | |- terminates (on_error _ _) => apply terminates_on_error
  | |- terminates _ => solve [auto 1 with terminates]
  end.
Ltac terminate := repeat (terminate_step; cbn beta).

(** ** Frames *)

(** Whatever [p] does, what [f] observes of the state stays. *)
Definition unchanged {S A T} (f : S → T) (p : prog S A) : Prop := ∀ s,
  match p s with Ret _ s' | Err s' => f s' = f s | Fault _ => True end.

Section unchanged.
Context {S T : Type} (f : S → T).

Lemma unchanged_bind {A B} (p : prog S A) (k : A → prog S B) :
  unchanged f p → (∀ a, unchanged f (k a)) → unchanged f (p ≫= k).
Proof.
  intros Hp Hk s. specialize (Hp s). unfold mbind, prog_bind. destruct (p s) as [a s'| |]; [|done|done].
  specialize (Hk a s'). destruct (k a s'); congruence.
Qed.
Lemma unchanged_ret {A} (a : A) : unchanged f (mret a).
Proof. done. Qed.
Lemma unchanged_get : unchanged f get.
Proof. done. Qed.
Lemma unchanged_fail {A} : unchanged f (fail (A := A)).
Proof. done. Qed.
Lemma unchanged_undef {A} e : unchanged f (undef (A := A) e).
Proof. done. Qed.
Lemma unchanged_modify g : (∀ s, f (g s) = f s) → unchanged f (modify g).
Proof. intros Hg s. apply Hg. Qed.
Lemma unchanged_zoom {U V A} proj put (g : U → V) (p : prog U A) :
  unchanged g p → (∀ s t, g t = g (proj s) → f (put t s) = f s) → unchanged f (zoom proj put p).
Proof. intros Hp Hg s. specialize (Hp (proj s)). unfold zoom. destruct (p (proj s)); auto. Qed.
Lemma unchanged_on_error {A} (p : prog S A) handler :
  unchanged f p → (∀ s, f (handler s) = f s) → unchanged f (on_error p handler).
Proof. intros Hp Hh s. specialize (Hp s). unfold on_error. destruct (p s); [done|by rewrite Hh|done]. Qed.
End unchanged.

Create HintDb unchanged discriminated.
#[export] Hint Resolve unchanged_ret unchanged_get unchanged_fail unchanged_undef : unchanged.
Ltac unchanged_step :=
  lazymatch goal with
  | |- ∀ _, unchanged _ _ => intros ?
  | |- unchanged _ (_ ≫= _) => apply unchanged_bind; [|intros ?]
  | |- unchanged _ (if ?b then _ else _) => destruct b
  | |- unchanged _ (match ?x with _ => _ end) => destruct x
  | |- unchanged _ (modify _) => apply unchanged_modify; intros ?; try reflexivity
  | |- unchanged _ (on_error _ _) => apply unchanged_on_error; [|intros ?; try reflexivity]
  | |- unchanged _ _ => solve [auto 1 with unchanged]
  end.
Ltac keep := repeat (unchanged_step; cbn beta).

(** ** Programs with the same behaviour *)

Definition same_prog {S A} (p q : prog S A) : Prop := ∀ s, p s = q s.
Lemma same_bind {S A B} (p q : prog S A) (k l : A → prog S B) :
  same_prog p q → (∀ a, same_prog (k a) (l a)) → same_prog (p ≫= k) (q ≫= l).
Proof. intros Hp Hk s. unfold mbind, prog_bind. rewrite Hp. destruct (q s); [apply Hk|done|done]. Qed.
