(* ===== verification/UnwindMaps.v ===== *)
(** * The memory maps of the unwinder

    unwindstack/procinfo/process_map.h: the parser of /proc/<pid>/maps;
    unwindstack/Maps.cpp, include/unwindstack/Maps.h and MapInfo.h: the list of
    maps, the search in it, and how it is brought up to date.  A [MapInfo] is
    shared: the list, other maps and frames refer to the same object, so that
    objects live in a heap and a list of maps is a list of references. *)
From S2P Require Import Prelude CString LineReader Outcome.

(** ** /proc/<pid>/maps *)

Definition PROT_READ : Z := 1.
Definition PROT_WRITE : Z := 2.
Definition PROT_EXEC : Z := 4.

Record ProcMap := mkProcMap {
  pm_start : Z; pm_end : Z; pm_flags : Z; pm_pgoff : Z; pm_inode : Z; pm_name : string; pm_shared : bool;
}.

(** [strtoull (p, &end, base)]: the value and [end], or nothing when [end == p]. *)
Definition strtoull_end (base : Z) (p : string) : option (Z * string) :=
  let '(neg, r) := scan_sign (skip_while is_space p) in
  let '(v, n, rest) := scan_digits base (if base =? 16 then scan_0x r else r) 0 0 in
  match n with O => None | S _ => Some (clamp_unsigned neg v, rest) end.
Definition isxdigit (c : ascii) : bool := bool_decide (is_Some (digit_val c)).

Definition PassSpace (p : string) : option string :=
  match p with
  | String c _ => if Ascii.eqb c " " then Some (skip_while (Ascii.eqb " ") p) else None
  | EmptyString => None
  end.
Definition PassXdigit (p : string) : option string :=
  match p with
  | String c _ => if isxdigit c then Some (skip_while isxdigit p) else None
  | EmptyString => None
  end.
(** [*p++ == c] *)
Definition pass_char (c : ascii) (p : string) : option string :=
  match p with String d p => if Ascii.eqb d c then Some p else None | EmptyString => None end.
(** A letter of the permissions: its bit when set, a dash otherwise. *)
Definition pass_flag (c : ascii) (bit : Z) (p : string) : option (Z * string) :=
  match p with
  | String d p => if Ascii.eqb d c then Some (bit, p) else if Ascii.eqb d "-" then Some (0, p) else None
  | EmptyString => None
  end.
Definition pass_shared (p : string) : option (bool * string) :=
  match p with
  | String d p => if Ascii.eqb d "p" then Some (false, p) else if Ascii.eqb d "s" then Some (true, p) else None
  | EmptyString => None
  end.

(** One line, without its newline. *)
Definition parse_line (p : string) : option ProcMap :=
  '(start_addr, p) ← strtoull_end 16 p;
  p ← pass_char "-" p;
  '(end_addr, p) ← strtoull_end 16 p;
  p ← PassSpace p;
  '(r, p) ← pass_flag "r" PROT_READ p;
  '(w, p) ← pass_flag "w" PROT_WRITE p;
  '(x, p) ← pass_flag "x" PROT_EXEC p;
  '(shared, p) ← pass_shared p;
  p ← PassSpace p;
  '(pgoff, p) ← strtoull_end 16 p;
  p ← PassSpace p;
  p ← PassXdigit p; p ← pass_char ":" p; p ← PassXdigit p; p ← PassSpace p;
  '(inode, p) ← strtoull_end 10 p;
  name ← (match p with EmptyString => Some p | _ => PassSpace p end);
  Some (mkProcMap start_addr end_addr (Z.lor (Z.lor r w) x) pgoff inode name shared).
(** The map of the line and the next line. *)
Definition ParseMapsFileLine (p : string) : option ProcMap * option string :=
  match strchr p newline with
  | None => (parse_line p, None)
  | Some i => (parse_line (stake i p), Some (sdrop (S i) p))
  end.

(** The maps the callback was called with, and the result. *)
Fixpoint read_map_lines (fuel : nat) (line_start : option string) : list ProcMap * bool :=
  match fuel, line_start with
  | O, _ | _, None | _, Some EmptyString => ([], true)
  | S fuel, Some p =>
      match ParseMapsFileLine p with
      | (None, _) => ([], false)
      | (Some mapinfo, next_line) => let '(maps, result) := read_map_lines fuel next_line in (mapinfo :: maps, result)
      end
  end.
(** Every line has a character at least. *)
Definition ReadMapFileContent (content : string) : list ProcMap * bool :=
  let content := cstr content in read_map_lines (S (String.length content)) (Some content).
(** [None] when the file cannot be read. *)
Definition ReadMapFile (content : option string) : list ProcMap * bool :=
  match content with None => ([], false) | Some content => ReadMapFileContent content end.

(** ** Objects *)

Definition MAPS_FLAGS_DEVICE_MAP : Z := 0x8000.

Record MapInfo := mkMapInfo {
  mp_start : Z; mp_end : Z; mp_offset : Z; mp_flags : Z; mp_name : string;
  prev_map_ : option nat; next_map_ : option nat;
}.
#[global] Instance MapInfo_upd : Updatable MapInfo := λ m,
  mkMapInfo (mp_start m) (mp_end m) (mp_offset m) (mp_flags m) (mp_name m) (prev_map_ m) (next_map_ m).
Definition IsBlank (m : MapInfo) : bool := (mp_offset m =? 0) && (mp_flags m =? 0) && String.eqb (mp_name m) EmptyString.

(** The objects ever made, the list, which may hold null, the references others
    hold, and the next object. *)
Record Maps := mkMaps {
  mp_heap : gmap nat MapInfo;
  maps_ : list (option nat);
  mp_held : gset nat;
  mp_next : nat;
}.
#[global] Instance Maps_upd : Updatable Maps := λ s, mkMaps (mp_heap s) (maps_ s) (mp_held s) (mp_next s).
Definition Maps_new : Maps := mkMaps ∅ [] ∅ 0.

Definition deref (p : option nat) : prog Maps MapInfo :=
  s ← get; match p ≫= (λ p, mp_heap s !! p) with Some m => mret m | None => undef OutOfRange end.
Definition map_at (i : nat) : prog Maps (option nat) :=
  s ← get; match maps_ s !! i with Some p => mret p | None => undef OutOfRange end.
Definition put_at (i : nat) (p : option nat) : prog Maps unit := modify (λ s, s <| maps_ := <[i := p]> (maps_ s) |>).
Definition set_map (p : nat) (f : MapInfo → MapInfo) : prog Maps unit := modify (λ s, s <| mp_heap := alter f p (mp_heap s) |>).
Definition set_prev_map (p : nat) (value : option nat) : prog Maps unit := set_map p (λ m, m <| prev_map_ := value |>).
Definition set_next_map (p : nat) (value : option nat) : prog Maps unit := set_map p (λ m, m <| next_map_ := value |>).
(** [weak_ptr::lock]: null once nobody owns the object. *)
Definition lock (s : Maps) (w : option nat) : option nat :=
  p ← w; if bool_decide (Some p ∈ maps_ s ∨ p ∈ mp_held s) then Some p else None.
Definition prev_map (m : MapInfo) : prog Maps (option nat) := s ← get; mret (lock s (prev_map_ m)).
Definition next_map (m : MapInfo) : prog Maps (option nat) := s ← get; mret (lock s (next_map_ m)).

Definition Create (prev : option nat) (start end_ offset flags : Z) (name : string) : prog Maps nat :=
  s ← get;
  let map_info := mp_next s in
  modify (λ s, s <| mp_heap := <[map_info := mkMapInfo start end_ offset (u16 flags) name prev None]> (mp_heap s) |>
                 <| mp_next := S map_info |>);;
  (match prev with Some p => set_next_map p (Some map_info) | None => mret () end);;
  mret map_info.

(** The walks over neighbours; an object is met once at most. *)
Fixpoint real_map (fuel : nat) (step : MapInfo → prog Maps (option nat)) (name : string) (p : option nat) :
    prog Maps (option nat) :=
  match p with
  | None => mret None
  | Some q =>
      match fuel with
      | O => undef NoFuel
      | S fuel =>
          m ← deref p;
          if IsBlank m then next ← step m; real_map fuel step name next
          else mret (if String.eqb (mp_name m) name then Some q else None)
      end
  end.
Definition GetRealMap (step : MapInfo → prog Maps (option nat)) (p : nat) : prog Maps (option nat) :=
  s ← get;
  m ← deref (Some p);
  if String.eqb (mp_name m) EmptyString then mret None
  else next ← step m; real_map (mp_next s) step (mp_name m) next.
Definition GetPrevRealMap : nat → prog Maps (option nat) := GetRealMap prev_map.
Definition GetNextRealMap : nat → prog Maps (option nat) := GetRealMap next_map.

(** ** The list *)

Fixpoint find_map (fuel : nat) (pc : Z) (first last : nat) : prog Maps (option nat) :=
  if (first <? last)%nat then
    match fuel with
    | O => undef NoFuel
    | S fuel =>
        let index := Nat.div2 (first + last) in
        p ← map_at index;
        cur ← deref p;
        if (pc >=? mp_start cur) && (pc <? mp_end cur) then mret p
        else if pc <? mp_start cur then find_map fuel pc first index
        else find_map fuel pc (S index) last
    end
  else mret None.
Definition Find (pc : Z) : prog Maps (option nat) :=
  s ← get; find_map (length (maps_ s)) pc 0 (length (maps_ s)).

Definition device_flags (m : ProcMap) : Z :=
  if starts_with "/dev/" (pm_name m) && negb (starts_with "ashmem/" (sdrop 5 (pm_name m)))
  then Z.lor (pm_flags m) MAPS_FLAGS_DEVICE_MAP else pm_flags m.
Fixpoint add_parsed (prev : option nat) (ms : list ProcMap) : prog Maps unit :=
  match ms with
  | [] => mret ()
  | m :: ms =>
      p ← Create prev (pm_start m) (pm_end m) (pm_pgoff m) (device_flags m) (pm_name m);
      modify (λ s, s <| maps_ := maps_ s ++ [Some p] |>);;
      add_parsed (Some p) ms
  end.
(** [Maps::Parse] and [BufferMaps::Parse]; [content] is what the file holds. *)
Definition Parse (content : option string) : prog Maps bool :=
  let '(ms, result) := ReadMapFile content in add_parsed None ms;; mret result.

Definition Maps_Add (start end_ offset flags : Z) (name : string) : prog Maps unit :=
  s ← get;
  p ← Create (default None (last (maps_ s))) start end_ offset flags name;
  modify (λ s, s <| maps_ := maps_ s ++ [Some p] |>).

(** [a->start () < b->start ()], null last. *)
Definition map_before (heap : gmap nat MapInfo) (a b : option nat) : bool :=
  match a, b with
  | None, _ => false
  | Some _, None => true
  | Some a, Some b => from_option mp_start 0 (heap !! a) <? from_option mp_start 0 (heap !! b)
  end.
Fixpoint set_links (prev : option nat) (maps : list (option nat)) : prog Maps unit :=
  match maps with
  | [] => mret ()
  | None :: _ => undef OutOfRange
  | Some p :: maps =>
      set_prev_map p prev;;
      (match prev with Some q => set_next_map q (Some p) | None => mret () end);;
      set_links (Some p) maps
  end.
Definition Sort : prog Maps unit :=
  modify (λ s, s <| maps_ := sort_by (map_before (mp_heap s)) (maps_ s) |>);;
  s ← get;
  match last (maps_ s) with
  | None => mret ()
  | Some None => undef OutOfRange
  | Some (Some p) => set_next_map p None;; set_links None (maps_ s)
  end.

(** ** Bringing the list up to date *)

(** [search_map_idx] and the two counters of [Reparse]. *)
Record Search := mkSearch { search_map_idx : nat; num_deleted_old_entries : nat; num_deleted_new_entries : nat }.
#[global] Instance Search_upd : Updatable Search := λ s,
  mkSearch (search_map_idx s) (num_deleted_old_entries s) (num_deleted_new_entries s).

Definition same_map (a b : MapInfo) : bool :=
  (mp_start a =? mp_start b) && (mp_end a =? mp_end b) && (mp_flags a =? mp_flags b) && String.eqb (mp_name a) (mp_name b).
(** The old map takes the place of the new one. *)
Definition take_place (new_map_idx : nat) (new_map_info : MapInfo) (info : nat) : prog Maps unit :=
  prev ← prev_map new_map_info;
  next ← next_map new_map_info;
  set_prev_map info prev;;
  set_next_map info next;;
  (match prev with Some p => set_next_map p (Some info) | None => mret () end);;
  (match next with Some p => set_prev_map p (Some info) | None => mret () end);;
  put_at new_map_idx None.
(** The inner loop, over [n] old maps from [old_map_idx] on. *)
Fixpoint old_maps_loop (n old_map_idx new_map_idx : nat) (new_map_info : MapInfo) (st : Search) : prog Maps Search :=
  match n with
  | O => mret st
  | S n =>
      p ← map_at old_map_idx;
      info ← deref p;
      if same_map new_map_info info then
        take_place new_map_idx new_map_info (default O p);;
        mret (st <| search_map_idx := S old_map_idx |> <| num_deleted_new_entries := S (num_deleted_new_entries st) |>)
      else if mp_start info >? mp_start new_map_info then mret (st <| search_map_idx := old_map_idx |>)
      else
        put_at old_map_idx None;;
        old_maps_loop n (S old_map_idx) new_map_idx new_map_info
          (st <| search_map_idx := S old_map_idx |> <| num_deleted_old_entries := S (num_deleted_old_entries st) |>)
  end.
(** The outer loop, over [n] new maps from [new_map_idx] on. *)
Fixpoint new_maps_loop (n last_map_idx new_map_idx : nat) (st : Search) : prog Maps Search :=
  match n with
  | O => mret st
  | S n =>
      p ← map_at new_map_idx;
      new_map_info ← deref p;
      st ← old_maps_loop (last_map_idx - search_map_idx st) (search_map_idx st) new_map_idx new_map_info st;
      if (last_map_idx <=? search_map_idx st)%nat then mret st
      else new_maps_loop n last_map_idx (S new_map_idx) st
  end.
Fixpoint delete_rest (n i : nat) : prog Maps unit :=
  match n with O => mret () | S n => put_at i None;; delete_rest n (S i) end.

(** The result, and [any_changed]. *)
Definition Reparse (content : option string) : prog Maps (bool * bool) :=
  s ← get;
  let last_map_idx := length (maps_ s) in
  parsed ← Parse content;
  if negb parsed then modify (λ s, s <| maps_ := take last_map_idx (maps_ s) |>);; mret (false, false)
  else
    s ← get;
    st ← new_maps_loop (length (maps_ s) - last_map_idx) last_map_idx last_map_idx (mkSearch 0 0 0);
    delete_rest (last_map_idx - search_map_idx st) (search_map_idx st);;
    let deleted_old := (num_deleted_old_entries st + (last_map_idx - search_map_idx st))%nat in
    modify (λ s, s <| maps_ := sort_by (map_before (mp_heap s)) (maps_ s) |>);;
    modify (λ s, s <| maps_ := take (length (maps_ s) - deleted_old - num_deleted_new_entries st) (maps_ s) |>);;
    s ← get;
    mret (true, negb (deleted_old =? 0)%nat || negb (length (maps_ s) =? last_map_idx)%nat).

(** [LocalUpdatableMaps::Find], with the file as it is when it is read. *)
Definition LocalUpdatableMaps_Find (content : option string) (pc : Z) : prog Maps (option nat) :=
  map_info ← Find pc;
  match map_info with
  | Some _ => mret map_info
  | None => '(reparsed, _) ← Reparse content; if reparsed : bool then Find pc else mret None
  end.
