(* ===== verification/UnwindMapsProps.v ===== *)
(** * The maps of the unwinder follow the process

    About UnwindMaps.v: the search in the list is exact, a line of
    /proc/<pid>/maps is read back as it was printed, and [Reparse] brings the list
    up to date without replacing the objects of maps that stayed. *)
From S2P Require Import Prelude CString LineReader Outcome UnwindMaps.

(** ** Lists of objects *)

Definition no_map : MapInfo := mkMapInfo 0 0 0 0 EmptyString None None.
Definition obj (h : gmap nat MapInfo) (p : nat) : MapInfo := default no_map (h !! p).
Definition start_of (h : gmap nat MapInfo) (p : nat) : Z := mp_start (obj h p).
Definition end_of (h : gmap nat MapInfo) (p : nat) : Z := mp_end (obj h p).

(** What an object says of its map, without its neighbours. *)
Definition map_data (m : MapInfo) : Z * Z * Z * Z * string := (mp_start m, mp_end m, mp_offset m, mp_flags m, mp_name m).
(** What [Reparse] compares. *)
Definition map_key (m : MapInfo) : Z * Z * Z * string := (mp_start m, mp_end m, mp_flags m, mp_name m).
Definition same_data (h h' : gmap nat MapInfo) : Prop := ∀ p, map_data <$> h' !! p = map_data <$> h !! p.

Definition ordered (h : gmap nat MapInfo) (ids : list nat) : Prop :=
  StronglySorted (λ p q, end_of h p ≤ start_of h q) ids ∧ Forall (λ p, start_of h p < end_of h p) ids.
Definition linked (h : gmap nat MapInfo) (ids : list nat) : Prop := ∀ l1 p l2,
  ids = l1 ++ p :: l2 → prev_map_ (obj h p) = last l1 ∧ next_map_ (obj h p) = head l2.
(** Neighbours, also of objects that are no longer in the list, are on their
    side. *)
Definition links_ordered (h : gmap nat MapInfo) : Prop := ∀ p m q, h !! p = Some m →
  (prev_map_ m = Some q → is_Some (h !! q) ∧ start_of h q < mp_start m) ∧
  (next_map_ m = Some q → is_Some (h !! q) ∧ mp_start m < start_of h q).
Definition allocated (h : gmap nat MapInfo) (ids : list nat) : Prop := Forall (λ p, is_Some (h !! p)) ids.
Definition bounded (h : gmap nat MapInfo) (next : nat) : Prop := ∀ p, is_Some (h !! p) → (p < next)%nat.

Record maps_wf (s : Maps) (ids : list nat) : Prop := {
  wf_maps : maps_ s = Some <$> ids;
  wf_alloc : allocated (mp_heap s) ids;
  wf_ordered : ordered (mp_heap s) ids;
  wf_linked : linked (mp_heap s) ids;
  wf_links : links_ordered (mp_heap s);
  wf_bound : bounded (mp_heap s) (mp_next s);
}.

Lemma same_data_obj h h' p : same_data h h' → map_data (obj h' p) = map_data (obj h p).
Proof. intros Hd. specialize (Hd p). unfold obj. destruct (h !! p), (h' !! p); cbn in *; congruence. Qed.
Lemma same_data_start h h' p : same_data h h' → start_of h' p = start_of h p.
Proof. intros Hd. pose proof (same_data_obj _ _ p Hd) as [=]. done. Qed.
Lemma same_data_end h h' p : same_data h h' → end_of h' p = end_of h p.
Proof. intros Hd. pose proof (same_data_obj _ _ p Hd) as [=]. done. Qed.
Lemma same_data_alive h h' p : same_data h h' → is_Some (h' !! p) ↔ is_Some (h !! p).
Proof. intros Hd. specialize (Hd p). destruct (h !! p), (h' !! p); cbn in Hd; try congruence; split; intros [? [=]]; eauto. Qed.
Lemma same_data_trans h1 h2 h3 : same_data h1 h2 → same_data h2 h3 → same_data h1 h3.
Proof. intros H1 H2 p. by rewrite (H2 p). Qed.
Lemma same_map_data m m' n n' : map_data m = map_data m' → map_data n = map_data n' → same_map m n = same_map m' n'.
Proof. intros [= E1 E2 E3 E4 E5] [= F1 F2 F3 F4 F5]. unfold same_map. by rewrite E1, E2, E4, E5, F1, F2, F4, F5. Qed.
Lemma same_map_key m n : same_map m n = true ↔ map_key m = map_key n.
Proof.
  unfold same_map, map_key. rewrite !andb_true_iff, !Z.eqb_eq, String.eqb_eq. split; [intros [[[-> ->] ->] ->]|intros [=]]; tauto.
Qed.
Lemma obj_Some h p m : h !! p = Some m → obj h p = m.
Proof. unfold obj. by intros ->. Qed.
Lemma allocated_obj h ids p : allocated h ids → p ∈ ids → h !! p = Some (obj h p).
Proof. unfold allocated, obj. intros Ha Hp. rewrite Forall_forall in Ha. by destruct (Ha p Hp) as [m ->]. Qed.

Lemma ordered_app h l1 l2 : ordered h (l1 ++ l2) ↔
  ordered h l1 ∧ ordered h l2 ∧ ∀ p q, p ∈ l1 → q ∈ l2 → end_of h p ≤ start_of h q.
Proof. unfold ordered. rewrite StronglySorted_app, Forall_app. split; [intros [(?&?&?) [? ?]]|intros ([??] & [??] & ?)]; split_and!; auto. Qed.
Lemma ordered_cons h p l : ordered h (p :: l) ↔
  start_of h p < end_of h p ∧ ordered h l ∧ ∀ q, q ∈ l → end_of h p ≤ start_of h q.
Proof.
  unfold ordered. rewrite Forall_cons. split.
  - intros [Hs [? ?]]. apply StronglySorted_inv in Hs as [? Hf]. rewrite Forall_forall in Hf. split_and!; auto.
  - intros (? & [? ?] & Hq). split; [|done]. constructor; [done|]. by apply Forall_forall.
Qed.
Lemma ordered_start_lt h l1 p l2 q : ordered h (l1 ++ p :: l2) → q ∈ l2 → start_of h p < start_of h q.
Proof. rewrite ordered_app, ordered_cons. intros (_ & (Hp & _ & Hq) & _) Hin. specialize (Hq q Hin). lia. Qed.
Lemma ordered_NoDup h ids : ordered h ids → NoDup ids.
Proof.
  induction ids as [|p ids IH]; [constructor|]. rewrite ordered_cons. intros (Hp & Ho & Hq).
  constructor; [|by apply IH]. intros Hin. specialize (Hq p Hin). lia.
Qed.
Lemma ordered_same_start h ids p q : ordered h ids → p ∈ ids → q ∈ ids → start_of h p = start_of h q → p = q.
Proof.
  intros Ho Hp Hq E. apply list_elem_of_split in Hp as (l1 & l2 & ->).
  apply elem_of_app in Hq as [Hq|Hq%elem_of_cons].
  - rewrite ordered_app, ordered_cons in Ho. destruct Ho as ([_ Hf] & _ & Hx).
    rewrite Forall_forall in Hf. specialize (Hf q Hq). specialize (Hx q p Hq ltac:(left)). lia.
  - destruct Hq as [->|Hq]; [done|]. pose proof (ordered_start_lt _ _ _ _ _ Ho Hq). lia.
Qed.
Lemma ordered_data h h' ids : same_data h h' → ordered h ids → ordered h' ids.
Proof.
  intros Hd. induction ids as [|p ids IH]; [by split; constructor|]. rewrite !ordered_cons.
  intros (? & ? & Hq). split; [|split; [by apply IH|]].
  - by rewrite (same_data_start _ _ p Hd), (same_data_end _ _ p Hd).
  - intros q Hin. rewrite (same_data_start _ _ q Hd), (same_data_end _ _ p Hd). by apply Hq.
Qed.
Lemma allocated_data h h' ids : same_data h h' → allocated h ids → allocated h' ids.
Proof. intros Hd Ha. eapply Forall_impl; [exact Ha|]. intros p. by apply same_data_alive. Qed.

(** ** The search *)

Definition map_contains (h : gmap nat MapInfo) (pc : Z) (p : nat) : Prop := start_of h p ≤ pc < end_of h p.
Definition found_in (h : gmap nat MapInfo) (ids : list nat) (pc : Z) (r : option nat) : Prop :=
  match r with
  | Some p => p ∈ ids ∧ map_contains h pc p
  | None => ∀ p, p ∈ ids → ¬ map_contains h pc p
  end.

Lemma map_at_ok s ids i p : maps_ s = Some <$> ids → ids !! i = Some p → map_at i s = Ret (Some p) s.
Proof. intros E Hi. unfold map_at, mbind, prog_bind, get. by rewrite E, list_lookup_fmap, Hi. Qed.
Lemma deref_ok s p m : mp_heap s !! p = Some m → deref (Some p) s = Ret m s.
Proof. intros E. unfold deref, mbind, prog_bind, get. cbn. by rewrite E. Qed.

(** Outside [first, last) nothing contains the address. *)
Lemma find_map_ok s ids pc fuel first last :
  maps_wf s ids → (last ≤ length ids)%nat → (last - first ≤ fuel)%nat →
  (∀ i p, ids !! i = Some p → (i < first ∨ last ≤ i)%nat → ¬ map_contains (mp_heap s) pc p) →
  ∃ r, find_map fuel pc first last s = Ret r s ∧ found_in (mp_heap s) ids pc r.
Proof.
  intros Hw. revert first last. induction fuel as [|fuel IH]; intros first last Hl Hf Hout; cbn [find_map].
  all: destruct (Nat.ltb_spec first last); [|exists None; split; [done|]; intros p [i Hi]%list_elem_of_lookup; apply (Hout i); [done|lia]].
  { lia. }
  assert (first ≤ Nat.div2 (first + last) < last)%nat as Hi by (rewrite Nat.div2_div; split; [apply Nat.div_le_lower_bound|apply Nat.Div0.div_lt_upper_bound]; lia).
  set (index := Nat.div2 (first + last)) in *. destruct (lookup_lt_is_Some_2 ids index) as [p Hp]; [lia|].
  pose proof (allocated_obj _ _ p (wf_alloc _ _ Hw) (list_elem_of_lookup_2 _ _ _ Hp)) as Ho.
  unfold mbind, prog_bind. rewrite (map_at_ok s ids index p) by (apply Hw || done). rewrite (deref_ok _ _ _ Ho).
  pose proof (take_drop_middle _ _ _ Hp) as Emid. pose proof (wf_ordered _ _ Hw) as Hord. rewrite <-Emid in Hord.
  apply ordered_app in Hord as (_ & Hc & Hlow). apply ordered_cons in Hc as (Hpe & _ & Hhigh).
  fold (start_of (mp_heap s) p) (end_of (mp_heap s) p).
  destruct (Z.geb_spec pc (start_of (mp_heap s) p)), (Z.ltb_spec pc (end_of (mp_heap s) p)); cbn [andb].
  - exists (Some p). split; [done|]. split; [by eapply list_elem_of_lookup_2|]. split; lia.
  - destruct (Z.ltb_spec pc (start_of (mp_heap s) p)); [lia|]. apply IH; [lia|lia|].
    intros i q Hq Hor. destruct (decide (i < first ∨ last ≤ i)%nat) as [?|Hn]; [by eapply Hout|].
    destruct (decide (i = index)) as [->|]; [rewrite Hp in Hq; injection Hq as <-; intros [??]; lia|].
    assert (q ∈ take index ids) as Hin by (eapply list_elem_of_lookup_2; rewrite lookup_take_lt; [exact Hq|lia]).
    specialize (Hlow q p Hin ltac:(left)). intros [??]. lia.
  - destruct (Z.ltb_spec pc (start_of (mp_heap s) p)); [|lia]. apply IH; [lia|lia|].
    intros i q Hq Hor. destruct (decide (i < first ∨ last ≤ i)%nat) as [?|Hn]; [by eapply Hout|].
    destruct (decide (i = index)) as [->|]; [rewrite Hp in Hq; injection Hq as <-; intros [??]; lia|].
    assert (q ∈ drop (S index) ids) as Hin by (eapply (list_elem_of_lookup_2 _ (i - S index)); rewrite lookup_drop; by replace (S index + (i - S index))%nat with i by lia).
    specialize (Hhigh q Hin). intros [??]. lia.
  - destruct (Z.ltb_spec pc (start_of (mp_heap s) p)); [|lia]. lia.
Qed.
Lemma Find_ok s ids pc : maps_wf s ids → ∃ r, Find pc s = Ret r s ∧ found_in (mp_heap s) ids pc r.
Proof.
  intros Hw. unfold Find, mbind, prog_bind, get. rewrite (wf_maps _ _ Hw), length_fmap.
  apply (find_map_ok s ids); [done|lia|lia|]. intros i p Hi [?|?]; [lia|]. apply lookup_lt_Some in Hi. lia.
Qed.

(** ** What parsing adds *)

Definition parsed_map (m : ProcMap) (prev next : option nat) : MapInfo :=
  mkMapInfo (pm_start m) (pm_end m) (pm_pgoff m) (u16 (device_flags m)) (pm_name m) prev next.

Lemma add_parsed_ok ms prev s :
  bounded (mp_heap s) (mp_next s) → (∀ q, prev = Some q → (q < mp_next s)%nat) →
  ∃ h, add_parsed prev ms s =
      Ret () (mkMaps h (maps_ s ++ (Some <$> seq (mp_next s) (length ms))) (mp_held s) (mp_next s + length ms)) ∧
    (∀ p, (p < mp_next s)%nat → h !! p =
      (λ m, if bool_decide (prev = Some p ∧ ms ≠ []) then m <| next_map_ := Some (mp_next s) |> else m) <$> mp_heap s !! p) ∧
    (∀ i m, ms !! i = Some m → h !! (mp_next s + i)%nat =
      Some (parsed_map m (match i with O => prev | S i => Some (mp_next s + i)%nat end)
        (if bool_decide (S i < length ms)%nat then Some (mp_next s + S i)%nat else None))) ∧
    bounded h (mp_next s + length ms).
Proof.
  revert prev s. induction ms as [|m ms IH]; intros prev s Hb Hprev; cbn [add_parsed].
  { exists (mp_heap s). rewrite Nat.add_0_r, app_nil_r. split; [by destruct s|]. split; [|split; [done|exact Hb]].
    intros p _. rewrite bool_decide_false by (by intros [_ ?]). by destruct (mp_heap s !! p). }
  set (id := mp_next s). set (o := mkMapInfo (pm_start m) (pm_end m) (pm_pgoff m) (u16 (device_flags m)) (pm_name m) prev None).
  set (h1 := match prev with Some q => alter (λ m, m <| next_map_ := Some id |>) q (<[id := o]> (mp_heap s)) | None => <[id := o]> (mp_heap s) end).
  assert (∀ p, (p < id)%nat → h1 !! p = (λ m, if bool_decide (prev = Some p) then m <| next_map_ := Some id |> else m) <$> mp_heap s !! p) as Hlow.
  { intros p Hp. unfold h1. destruct prev as [q|].
    - destruct (decide (q = p)) as [->|Hne].
      + rewrite lookup_alter_eq, lookup_insert_ne by lia. f_equal. by rewrite bool_decide_true.
      + rewrite lookup_alter_ne, lookup_insert_ne by (done || lia). rewrite bool_decide_false by congruence. by destruct (mp_heap s !! p).
    - rewrite lookup_insert_ne by lia. rewrite bool_decide_false by done. by destruct (mp_heap s !! p). }
  assert (h1 !! id = Some o) as Hid.
  { unfold h1. destruct prev as [q|]; [|apply lookup_insert_eq]. specialize (Hprev q eq_refl).
    rewrite lookup_alter_ne, lookup_insert_eq by lia. done. }
  destruct (IH (Some id) (mkMaps h1 (maps_ s ++ [Some id]) (mp_held s) (S id))) as (h & E & Hl & Hn & Hbd).
  { intros p. cbn. intros [x Hx]. unfold h1 in Hx. destruct (decide (p = id)) as [->|Hne]; [lia|].
    enough (p < id)%nat by lia. apply Hb. destruct prev as [q|]; [apply lookup_alter_Some in Hx as [(-> & y & Hx & _)|[_ Hx]]|];
      rewrite lookup_insert_ne in Hx by done; by eexists. }
  { cbn. intros q [= ->]. lia. }
  cbn [mp_heap maps_ mp_held mp_next] in *. exists h. split; [|split; [|split]].
  - unfold Create, mbind, prog_bind, get, modify, mret, prog_ret.
    replace (id + length (m :: ms))%nat with (S id + length ms)%nat by (cbn; lia).
    cbn [length seq fmap list_fmap]. rewrite (cons_middle _ (maps_ s)), app_assoc. fold id. fold o.
    unfold h1 in E. destruct prev as [q|]; exact E.
  - intros p Hp. rewrite Hl by lia. rewrite Hlow by done. rewrite bool_decide_false by (intros [[= ->] _]; lia).
    destruct (mp_heap s !! p); [|done]. cbn. f_equal. case_bool_decide as H1; case_bool_decide as H2; try done; destruct H2; [by split|by destruct H1].
  - intros [|i] x Hx.
    + injection Hx as ->. rewrite Nat.add_0_r, Hl, Hid by lia. cbn. f_equal. destruct ms as [|y ms].
      * rewrite bool_decide_false by (by intros [_ ?]). by rewrite bool_decide_false by (cbn; lia).
      * rewrite bool_decide_true by done. rewrite bool_decide_true by (cbn; lia). unfold parsed_map. cbn. do 2 f_equal. lia.
    + cbn in Hx. replace (id + S i)%nat with (S id + i)%nat by lia. rewrite (Hn i x Hx). f_equal. f_equal.
      * destruct i; f_equal; lia.
      * cbn [length]. case_bool_decide; case_bool_decide; try lia; [|done]. f_equal. lia.
  - intros p Hp. specialize (Hbd p Hp). cbn. lia.
Qed.

(** The new list, of objects of its own. *)
Lemma parsed_linked h next ms :
  (∀ i m, ms !! i = Some m → h !! (next + i)%nat =
      Some (parsed_map m (match i with O => None | S i => Some (next + i)%nat end)
        (if bool_decide (S i < length ms)%nat then Some (next + S i)%nat else None))) →
  linked h (seq next (length ms)).
Proof.
  intros Hn l1 p l2 E. assert (seq next (length ms) !! length l1 = Some p) as Hi by (rewrite E; by apply list_lookup_middle).
  apply lookup_seq in Hi as [-> Hi]. destruct (lookup_lt_is_Some_2 ms _ Hi) as [m Hm].
  rewrite (obj_Some _ _ _ (Hn _ _ Hm)). cbn. split.
  - destruct (length l1) as [|k] eqn:El; [by destruct l1|]. rewrite last_lookup, El. cbn [Nat.pred].
    assert (seq next (length ms) !! k = Some (next + k)%nat) as Hk by (apply lookup_seq; split; lia).
    rewrite E, lookup_app_l in Hk by lia. done.
  - rewrite head_lookup. case_bool_decide.
    + assert (seq next (length ms) !! (S (length l1)) = Some (next + S (length l1))%nat) as Hk by (apply lookup_seq; split; lia).
      rewrite E, cons_middle, app_assoc, lookup_app_r in Hk by (rewrite length_app; cbn; lia).
      rewrite length_app in Hk. cbn in Hk. by replace (S (length l1) - (length l1 + 1))%nat with 0%nat in Hk by lia.
    + pose proof (f_equal length E) as El. rewrite length_seq, length_app in El. cbn in El. destruct l2; [done|]. cbn in El. lia.
Qed.

(** ** One map takes the place of another *)

Definition relinked (h : gmap nat MapInfo) (info : nat) (prev next : option nat) : gmap nat MapInfo :=
  let h := alter (λ m, m <| next_map_ := next |>) info (alter (λ m, m <| prev_map_ := prev |>) info h) in
  let h := match prev with Some p => alter (λ m, m <| next_map_ := Some info |>) p h | None => h end in
  match next with Some p => alter (λ m, m <| prev_map_ := Some info |>) p h | None => h end.

Lemma same_data_alter h f p : (∀ m, map_data (f m) = map_data m) → same_data h (alter f p h).
Proof.
  intros Hf q. destruct (decide (p = q)) as [->|Hne]; [|by rewrite lookup_alter_ne].
  rewrite lookup_alter_eq. destruct (h !! q); [|done]. cbn. by rewrite Hf.
Qed.
Lemma relinked_data h info prev next : same_data h (relinked h info prev next).
Proof.
  unfold relinked. eapply same_data_trans; [by apply (same_data_alter h (λ m, m <| prev_map_ := prev |>) info)|].
  eapply same_data_trans; [by apply (same_data_alter _ (λ m, m <| next_map_ := next |>) info)|].
  destruct prev as [p|]; (eapply same_data_trans; [|destruct next; [by apply same_data_alter|done]]);
    [by apply same_data_alter|done].
Qed.
Lemma relinked_lookup h info prev next p m : h !! p = Some m → prev ≠ Some info → next ≠ Some info →
  relinked h info prev next !! p = Some
    (m <| prev_map_ := if decide (p = info) then prev else if decide (next = Some p) then Some info else prev_map_ m |>
       <| next_map_ := if decide (p = info) then next else if decide (prev = Some p) then Some info else next_map_ m |>).
Proof.
  intros Hm Hp Hn. unfold relinked.
  destruct prev as [q|], next as [r|]; rewrite ?lookup_alter; repeat case_decide; simplify_eq; rewrite ?Hm; cbn; try done; by destruct m.
Qed.

Lemma last_elem {A} (l : list A) x : last l = Some x → x ∈ l.
Proof. intros [l' ->]%last_Some. apply elem_of_app. right. left. Qed.
Lemma head_elem {A} (l : list A) x : head l = Some x → x ∈ l.
Proof. intros [l' ->]%head_Some. left. Qed.

Lemma place_other h l1 l2 n i p : allocated h (i :: l1 ++ n :: l2) → NoDup (i :: l1 ++ n :: l2) →
  p ∈ l1 ++ l2 → p ≠ i ∧ h !! p = Some (obj h p).
Proof.
  intros Ha Hnd Hp. assert (p ∈ l1 ++ n :: l2) as Hin by set_solver. apply NoDup_cons in Hnd as [Hni _]. split; [by intros ->|].
  apply (allocated_obj _ (i :: l1 ++ n :: l2)); [done|by right].
Qed.
Lemma place_lookup h l1 l2 n i p : allocated h (i :: l1 ++ n :: l2) → NoDup (i :: l1 ++ n :: l2) →
  p ∈ i :: l1 ++ l2 → relinked h i (last l1) (head l2) !! p = Some
    ((obj h p) <| prev_map_ := if decide (p = i) then last l1 else if decide (head l2 = Some p) then Some i else prev_map_ (obj h p) |>
             <| next_map_ := if decide (p = i) then head l2 else if decide (last l1 = Some p) then Some i else next_map_ (obj h p) |>).
Proof.
  intros Ha Hnd Hp. apply relinked_lookup.
  - apply (allocated_obj _ (i :: l1 ++ n :: l2)); [done|]. set_solver.
  - intros E%last_elem. apply (place_other h l1 l2 n i i Ha Hnd); set_solver.
  - intros E%head_elem. apply (place_other h l1 l2 n i i Ha Hnd); set_solver.
Qed.

Lemma relinked_linked h l1 l2 n i : allocated h (i :: l1 ++ n :: l2) → NoDup (i :: l1 ++ n :: l2) →
  linked h (l1 ++ n :: l2) → linked (relinked h i (last l1) (head l2)) (l1 ++ i :: l2).
Proof.
  intros Ha Hnd Hl m1 p m2 E. assert (p ∈ i :: l1 ++ l2) as Hp by (assert (p ∈ l1 ++ i :: l2) by (rewrite E; set_solver); set_solver).
  rewrite (obj_Some _ _ _ (place_lookup _ _ _ _ _ p Ha Hnd Hp)). cbn.
  assert (NoDup (l1 ++ i :: l2)) as Hnd'.
  { clear -Hnd. rewrite NoDup_cons, NoDup_app, NoDup_cons in Hnd. rewrite NoDup_app, NoDup_cons. set_solver. }
  apply app_eq_inv in E as [(k & -> & E)|(k & -> & E)].
  - destruct k as [|x k]; [injection E as <- <-; rewrite !decide_True by done; by rewrite app_nil_r|].
    injection E as <- ->. destruct (place_other _ _ _ _ _ p Ha Hnd ltac:(set_solver)) as [Hne _]. rewrite !(decide_False (P := p = i)) by done.
    rewrite <-app_assoc in Hl. apply NoDup_app in Hnd' as (Hnd1 & Hni & _). apply NoDup_app in Hnd1 as (_ & _ & [Hpk _]%NoDup_cons). destruct (Hl m1 p (k ++ n :: l2) eq_refl) as [Epr Enx].
    rewrite decide_False by (intros ?%head_elem; apply (Hni p); set_solver). split; [done|].
    destruct k as [|y k]; [by rewrite last_snoc, decide_True|]. rewrite decide_False; [done|].
    rewrite last_app_cons, last_cons_cons. intros ?%last_elem. done.
  - destruct k as [|x k]; [injection E as -> ->; rewrite !decide_True by done; by rewrite app_nil_r|].
    injection E as <- ->. destruct (place_other _ _ _ _ _ p Ha Hnd ltac:(set_solver)) as [Hne _]. rewrite !(decide_False (P := p = i)) by done.
    destruct (Hl (l1 ++ n :: k) p m2) as [Epr Enx]; [by rewrite <-app_assoc|].
    apply NoDup_app in Hnd' as (_ & Hni & [_ Hnd2]%NoDup_cons).
    rewrite (decide_False (P := last l1 = Some p)) by (intros ?%last_elem; apply (Hni p); set_solver). split; [|done].
    destruct k as [|y k]; [rewrite decide_True by done; by rewrite last_snoc|].
    rewrite decide_False by (intros [= ->]; apply NoDup_cons in Hnd2 as [Hp2 _]; apply Hp2; set_solver).
    rewrite Epr, !last_app_cons. done.
Qed.

Lemma relinked_links_ordered h l1 l2 n i : allocated h (i :: l1 ++ n :: l2) → NoDup (i :: l1 ++ n :: l2) →
  ordered h (l1 ++ i :: l2) → links_ordered h → links_ordered (relinked h i (last l1) (head l2)).
Proof.
  intros Ha Hnd Ho Hl p m q Hm. pose proof (relinked_data h i (last l1) (head l2)) as Hd.
  assert (is_Some (h !! p)) as [m0 Hm0] by (apply (same_data_alive _ _ _ Hd); by eexists).
  assert (∀ x, last l1 = Some x → is_Some (h !! x) ∧ start_of h x < start_of h i) as Hlast.
  { intros x Hx. apply last_Some in Hx as [k ->]. split; [exists (obj h x); eapply allocated_obj; [exact Ha|set_solver]|].
    rewrite <-app_assoc in Ho. by eapply (ordered_start_lt _ k); [exact Ho|set_solver]. }
  assert (∀ x, head l2 = Some x → is_Some (h !! x) ∧ start_of h i < start_of h x) as Hhead.
  { intros x Hx%head_elem. split; [exists (obj h x); eapply allocated_obj; [exact Ha|set_solver]|]. by eapply ordered_start_lt. }
  assert (is_Some (h !! i)) as Hi by (exists (obj h i); eapply allocated_obj; [exact Ha|left]).
  rewrite (relinked_lookup _ _ _ _ _ _ Hm0) in Hm.
  - injection Hm as <-. cbn. rewrite (same_data_alive _ _ q Hd), (same_data_start _ _ q Hd).
    pose proof (Hl p m0 q Hm0) as [Hpr Hnx]. pose proof (obj_Some _ _ _ Hm0) as Em. unfold start_of in *.
    split; repeat case_decide; simplify_eq; intros E; simplify_eq; auto; rewrite <-?Em; auto.
    + split; [done|]. by apply Hhead.
    + split; [done|]. by apply Hlast.
  - intros [_ Hx]%Hlast. lia.
  - intros [_ Hx]%Hhead. lia.
Qed.

Lemma take_place_ok s l1 l2 idx m i :
  prev_map_ m = last l1 → next_map_ m = head l2 → Forall (λ p, Some p ∈ maps_ s) (l1 ++ l2) →
  take_place idx m i s =
    Ret () (mkMaps (relinked (mp_heap s) i (last l1) (head l2)) (<[idx := None]> (maps_ s)) (mp_held s) (mp_next s)).
Proof.
  intros Ep En Hf. rewrite Forall_forall in Hf.
  assert (∀ w, (∀ p, w = Some p → p ∈ l1 ++ l2) → lock s w = w) as Hlock.
  { intros [p|] Hw; [|done]. cbn. rewrite bool_decide_true; [done|]. left. by apply Hf, Hw. }
  unfold take_place, prev_map, next_map, set_prev_map, set_next_map, set_map, put_at, mbind, prog_bind, get, modify, mret, prog_ret.
  rewrite Ep, (Hlock (last l1)) by (intros ? ?%last_elem; set_solver).
  rewrite En. rewrite (Hlock (head l2)) by (intros ? ?%head_elem; set_solver).
  unfold relinked. by destruct (last l1), (head l2).
Qed.

(** ** The loops of [Reparse] *)

Definition map_range (h : gmap nat MapInfo) (p : nat) : Z * Z := (start_of h p, end_of h p).
Lemma ordered_ranges h h' l l' : map_range h' <$> l' = map_range h <$> l → ordered h l → ordered h' l'.
Proof.
  revert l. induction l' as [|p' l' IH]; intros [|p l] E; try done; [intros _; split; constructor|]. rewrite !fmap_cons in E. injection E as Es Ee E. rewrite !ordered_cons.
  intros (Hp & Ho & Hq). rewrite Es, Ee. split; [done|]. split; [by apply (IH l)|]. intros q' Hq'.
  assert (map_range h' q' ∈ map_range h <$> l) as Hin by (rewrite <-E; by apply list_elem_of_fmap_2).
  apply list_elem_of_fmap in Hin as (q & [= -> _] & Hin). by apply Hq.
Qed.

Section loops.
(** The objects after the file was read: the old list and the new one. *)
Context (h0 : gmap nat MapInfo) (olds news : list nat) (held : gset nat) (next : nat).
Context (Ha : allocated h0 (olds ++ news)) (Ho : ordered h0 olds) (Hn : ordered h0 news).
Context (Hdis : ∀ p, p ∈ olds → p ∉ news).

Definition reuse (n : nat) : nat := default n (List.find (λ o, same_map (obj h0 n) (obj h0 o)) olds).

Lemma reuse_spec n : (reuse n = n ∧ ∀ o, o ∈ olds → same_map (obj h0 n) (obj h0 o) = false) ∨
  (reuse n ∈ olds ∧ same_map (obj h0 n) (obj h0 (reuse n)) = true).
Proof using Type.
  unfold reuse. destruct (List.find _ _) as [o|] eqn:E; cbn.
  - right. apply List.find_some in E as [Hin Hs]. split; [by apply list_elem_of_In|done].
  - left. split; [done|]. intros o Hin. by apply (List.find_none _ _ E), list_elem_of_In.
Qed.
Lemma reuse_range n : map_range h0 (reuse n) = map_range h0 n.
Proof using Type.
  destruct (reuse_spec n) as [[-> _]|[_ Hs]]; [done|]. apply same_map_key in Hs as [=]. unfold map_range, start_of, end_of. congruence.
Qed.
Lemma reuse_elem n : n ∈ news → reuse n ∈ olds ++ news.
Proof using Type. intros Hin. apply elem_of_app. destruct (reuse_spec n) as [[-> _]|[? _]]; auto. Qed.
Lemma same_map_start n o : same_map (obj h0 n) (obj h0 o) = true → start_of h0 n = start_of h0 o.
Proof using Type. by intros [= ? _ _ _]%same_map_key. Qed.
Lemma reuse_old o n : o ∈ olds → same_map (obj h0 n) (obj h0 o) = true → reuse n = o.
Proof using Ho.
  intros Hin Hs. destruct (reuse_spec n) as [[_ Hf]|[Hr Hs']]; [by rewrite Hf in Hs|].
  apply (ordered_same_start h0 olds); [done..|]. by rewrite <-(same_map_start _ _ Hs), <-(same_map_start _ _ Hs').
Qed.
Lemma reuse_none n : (∀ o, o ∈ olds → same_map (obj h0 n) (obj h0 o) = false) → reuse n = n.
Proof using Type. intros Hf. destruct (reuse_spec n) as [[? _]|[Hin Hs]]; [done|]. by rewrite Hf in Hs. Qed.

(** The list as it is when [j] new maps are handled. *)
Definition current_list (j : nat) : list nat := (reuse <$> take j news) ++ drop j news.
Lemma current_list_ordered j : ordered h0 (current_list j).
Proof using Hn.
  eapply (ordered_ranges h0 h0 news); [|exact Hn]. unfold current_list. rewrite fmap_app, <-list_fmap_compose.
  rewrite <-(take_drop j news) at 3. rewrite (fmap_app _ (take j news)). f_equal. apply list_fmap_ext. intros ?? _. apply reuse_range.
Qed.

Record loop_inv (s : Maps) (k j : nat) (A B : list (option nat)) : Prop := {
  li_maps : maps_ s = A ++ (Some <$> drop k olds) ++ B ++ (Some <$> drop j news);
  li_A : length A = k; li_k : (k ≤ length olds)%nat;
  li_B : length B = j; li_j : (j ≤ length news)%nat;
  li_perm : omap id A ++ omap id B ≡ₚ reuse <$> take j news;
  li_old : Forall (λ p, p ∈ olds) (omap id A); li_new : Forall (λ p, p ∈ news) (omap id B);
  li_linked : linked (mp_heap s) (current_list j);
  li_data : same_data h0 (mp_heap s);
  li_links : links_ordered (mp_heap s);
  li_held : mp_held s = held;
  li_next : mp_next s = next;
}.
Definition counted (st : Search) (k : nat) (A B : list (option nat)) : Prop :=
  search_map_idx st = k ∧ (num_deleted_old_entries st + length (omap id A))%nat = length A ∧
  (num_deleted_new_entries st + length (omap id B))%nat = length B.

Lemma current_list_listed s k j A B : loop_inv s k j A B → Forall (λ p, Some p ∈ maps_ s) (current_list j).
Proof using Type.
  intros Hi. apply Forall_forall. intros p Hp. rewrite (li_maps _ _ _ _ _ Hi). apply elem_of_app in Hp as [Hp|Hp].
  - rewrite <-(li_perm _ _ _ _ _ Hi) in Hp. apply elem_of_app in Hp as [Hp|Hp]; apply list_elem_of_omap in Hp as (x & Hx & E); cbn in E; subst x; clear -Hx; set_solver.
  - do 3 (apply elem_of_app; right). by apply list_elem_of_fmap_2.
Qed.
Lemma current_list_S j n : news !! j = Some n → current_list (S j) = (reuse <$> take j news) ++ reuse n :: drop (S j) news.
Proof using Type. intros Hj. unfold current_list. rewrite (take_S_r _ _ _ Hj), fmap_app, <-app_assoc. done. Qed.
Lemma current_list_at j n : news !! j = Some n → current_list j = (reuse <$> take j news) ++ n :: drop (S j) news.
Proof using Type. intros Hj. unfold current_list. by rewrite (drop_S _ _ _ Hj). Qed.
Lemma current_list_alloc j : allocated h0 (current_list j).
Proof using Ha.
  apply Forall_forall. intros p Hp. unfold allocated in Ha. rewrite Forall_forall in Ha. apply Ha.
  apply elem_of_app in Hp as [(n & -> & Hin)%list_elem_of_fmap|Hp].
  - apply reuse_elem. rewrite <-(take_drop j news). apply elem_of_app. by left.
  - apply elem_of_app. right. rewrite <-(take_drop j news). apply elem_of_app. by right.
Qed.

(** The new map stays, as no old map is the same. *)
Lemma loop_keep s k j A B n : loop_inv s k j A B → news !! j = Some n → reuse n = n → loop_inv s k (S j) A (B ++ [Some n]).
Proof using Type.
  intros Hi Hj Hr. pose proof (lookup_lt_Some _ _ _ Hj) as Hlt. destruct Hi as [Em EA Hk EB Hjl Hp HfA HfB Hl Hd Hlo Hh Hx]. split; try done.
  - rewrite Em, (drop_S _ _ _ Hj), <-!app_assoc. done.
  - rewrite length_app, EB. cbn. lia.
  - rewrite omap_app. cbn. rewrite (app_assoc (omap id A)), (take_S_r _ _ _ Hj), fmap_app, Hp. cbn. by rewrite Hr.
  - rewrite omap_app. apply Forall_app_2; [done|]. repeat constructor. by eapply list_elem_of_lookup_2.
  - rewrite (current_list_S _ _ Hj), Hr, <-current_list_at; done.
Qed.
(** An old map is dropped. *)
Lemma loop_drop s k j A B o : loop_inv s k j A B → olds !! k = Some o →
  put_at k None s = Ret () (s <| maps_ := <[k := None]> (maps_ s) |>) ∧
  loop_inv (s <| maps_ := <[k := None]> (maps_ s) |>) (S k) j (A ++ [None]) B.
Proof using Type.
  intros [Em EA Hk EB Hjl Hp HfA HfB Hl Hd Hlo Hh Hx] Ek. pose proof (lookup_lt_Some _ _ _ Ek) as Hlt. split; [done|]. split; try done; cbn.
  - rewrite Em, (drop_S _ _ _ Ek), insert_app_r_alt, EA, Nat.sub_diag by lia. by rewrite <-app_assoc.
  - rewrite length_app. cbn. lia.
  - by rewrite omap_app, app_nil_r.
  - by rewrite omap_app, app_nil_r.
Qed.
(** An old map takes the place of the new one. *)
Lemma loop_match s k j A B o n : loop_inv s k j A B → olds !! k = Some o → news !! j = Some n →
  same_map (obj h0 n) (obj h0 o) = true →
  ∃ s', take_place (length olds + j) (obj (mp_heap s) n) o s = Ret () s' ∧ loop_inv s' (S k) (S j) (A ++ [Some o]) (B ++ [None]).
Proof using Ha Hdis Hn Ho.
  intros Hi Ek Hj Hs. pose proof (current_list_listed _ _ _ _ _ Hi) as Hlst. pose proof (current_list_alloc j) as Hall.
  pose proof (current_list_ordered j) as Hord. pose proof (current_list_ordered (S j)) as Hord'.
  rewrite (current_list_at _ _ Hj) in Hlst, Hall, Hord. rewrite (current_list_S _ _ Hj) in Hord'.
  assert (o ∈ olds) as Hin by (by eapply list_elem_of_lookup_2). assert (n ∈ news) as Hinn by (by eapply list_elem_of_lookup_2).
  rewrite (reuse_old _ _ Hin Hs) in Hord'. pose proof (lookup_lt_Some _ _ _ Ek). pose proof (lookup_lt_Some _ _ _ Hj).
  destruct Hi as [Em EA Hk EB Hjl Hp HfA HfB Hl Hd Hlo Hh Hx]. set (l1 := reuse <$> take j news) in *. set (l2 := drop (S j) news) in *.
  assert (NoDup (o :: l1 ++ n :: l2)) as Hnd.
  { pose proof (ordered_NoDup _ _ Hord') as Hnd'. pose proof (ordered_NoDup _ _ Hord) as Hnd. apply NoDup_cons. split; [|done].
    intros Hx'. apply NoDup_app in Hnd' as (_ & H1 & [H2 _]%NoDup_cons). apply elem_of_app in Hx' as [Hx'|[->|Hx']%elem_of_cons]; [|by eapply Hdis|done].
    apply (H1 o); [done|left]. }
  assert (allocated (mp_heap s) (o :: l1 ++ n :: l2)) as Hal.
  { eapply allocated_data; [exact Hd|]. constructor; [|done]. unfold allocated in Ha. rewrite Forall_forall in Ha. apply Ha, elem_of_app. by left. }
  rewrite (current_list_at _ _ Hj) in Hl. fold l1 l2 in Hl. destruct (Hl l1 n l2 eq_refl) as [Epr Enx].
  rewrite (take_place_ok s l1 l2); [|done..|by apply Forall_app in Hlst as [? [_ ?]%Forall_cons]; apply Forall_app].
  eexists. split; [done|]. split; cbn [maps_ mp_heap mp_held mp_next]; try done; try lia.
  - rewrite Em. rewrite (drop_S _ _ _ Ek), (drop_S _ _ _ Hj). rewrite !fmap_cons.
    rewrite insert_app_r_alt by lia. rewrite insert_app_r_alt by (cbn; rewrite length_fmap, length_drop; lia).
    rewrite insert_app_r_alt by (cbn; rewrite length_fmap, length_drop; lia).
    replace (length olds + j - length A - length (Some o :: (Some <$> drop (S k) olds)) - length B)%nat with 0%nat by (cbn; rewrite length_fmap, length_drop; lia).
    by rewrite <-!app_assoc.
  - rewrite length_app. cbn. lia.
  - rewrite length_app. cbn. lia.
  - rewrite !omap_app. cbn. rewrite app_nil_r, (take_S_r _ _ _ Hj), fmap_app. cbn. rewrite (reuse_old _ _ Hin Hs). fold l1. rewrite <-Hp. solve_Permutation.
  - rewrite omap_app. apply Forall_app_2; [done|]. by repeat constructor.
  - by rewrite omap_app, app_nil_r.
  - rewrite (current_list_S _ _ Hj), (reuse_old _ _ Hin Hs). by apply (relinked_linked _ l1 l2 n).
  - eapply same_data_trans; [exact Hd|apply relinked_data].
  - apply relinked_links_ordered with n; try done. by eapply ordered_data.
Qed.

Lemma in_drop {A} (l : list A) k i x : l !! i = Some x → (k ≤ i)%nat → x ∈ drop k l.
Proof using Type. intros Hx Hk. apply (list_elem_of_lookup_2 _ (i - k)). rewrite lookup_drop. by replace (k + (i - k))%nat with i by lia. Qed.
Lemma in_take {A} (l : list A) k i x : l !! i = Some x → (i < k)%nat → x ∈ take k l.
Proof using Type. intros Hx Hk. apply (list_elem_of_lookup_2 _ i). by rewrite lookup_take_lt. Qed.
Lemma old_at s k j A B o : loop_inv s k j A B → olds !! k = Some o →
  map_at k s = Ret (Some o) s ∧ deref (Some o) s = Ret (obj (mp_heap s) o) s.
Proof using Ha.
  intros Hi Hk. split.
  - unfold map_at, mbind, prog_bind, get. rewrite (li_maps _ _ _ _ _ Hi), (drop_S _ _ _ Hk).
    rewrite lookup_app_r, (li_A _ _ _ _ _ Hi), Nat.sub_diag by (rewrite (li_A _ _ _ _ _ Hi); lia). done.
  - apply deref_ok. eapply allocated_obj; [eapply allocated_data; [apply Hi|exact Ha]|].
    apply elem_of_app. left. by eapply list_elem_of_lookup_2.
Qed.
Lemma new_at s k j A B n : loop_inv s k j A B → news !! j = Some n →
  map_at (length olds + j) s = Ret (Some n) s ∧ deref (Some n) s = Ret (obj (mp_heap s) n) s.
Proof using Ha.
  intros Hi Hj. split.
  - unfold map_at, mbind, prog_bind, get. rewrite (li_maps _ _ _ _ _ Hi), (drop_S _ _ _ Hj).
    pose proof (li_A _ _ _ _ _ Hi). pose proof (li_B _ _ _ _ _ Hi). pose proof (li_k _ _ _ _ _ Hi).
    rewrite lookup_app_r, lookup_app_r, lookup_app_r by (rewrite ?length_fmap, ?length_drop; lia).
    rewrite length_fmap, length_drop. by replace (length olds + j - length A - (length olds - k) - length B)%nat with 0%nat by lia.
  - apply deref_ok. eapply allocated_obj; [eapply allocated_data; [apply Hi|exact Ha]|].
    apply elem_of_app. right. by eapply list_elem_of_lookup_2.
Qed.

(** What is known of the old maps when the new map [n] is handled from [k] on. *)
Definition passed (k : nat) (n : nat) : Prop :=
  ∀ o, o ∈ take k olds → same_map (obj h0 n) (obj h0 o) = false ∧ start_of h0 o ≤ start_of h0 n.
(** What is known after it. *)
Definition split_at (k : nat) (n : nat) : Prop :=
  (∀ o, o ∈ take k olds → start_of h0 o ≤ start_of h0 n) ∧ (∀ o, o ∈ drop k olds → start_of h0 n < start_of h0 o).

Lemma later_starts k i o o' : olds !! k = Some o → olds !! i = Some o' → (k < i)%nat → start_of h0 o < start_of h0 o'.
Proof using Ho.
  intros Hk Hi Hlt. eapply (ordered_start_lt h0 (take k olds) o (drop (S k) olds)); [by rewrite take_drop_middle|].
  eapply in_drop; [exact Hi|lia].
Qed.
Lemma in_drop_S k o o' : olds !! k = Some o → o' ∈ drop (S k) olds → start_of h0 o < start_of h0 o'.
Proof using Ho. intros Hk Hin. eapply (ordered_start_lt h0 (take k olds) o (drop (S k) olds)); [by rewrite take_drop_middle|done]. Qed.
Lemma take_S_cases k o o' : olds !! k = Some o → o' ∈ take (S k) olds → o' ∈ take k olds ∨ o' = o.
Proof using Type. intros Hk. rewrite (take_S_r _ _ _ Hk), elem_of_app, list_elem_of_singleton. done. Qed.

Lemma old_maps_loop_ok m s k j A B st n :
  m = (length olds - k)%nat → loop_inv s k j A B → counted st k A B → news !! j = Some n → passed k n →
  ∃ s' k' A' B' st', old_maps_loop m k (length olds + j) (obj (mp_heap s) n) st s = Ret st' s' ∧
    loop_inv s' k' (S j) A' B' ∧ counted st' k' A' B' ∧ split_at k' n.
Proof using Ha Hdis Hn Ho.
  revert s k A st. induction m as [|m IH]; intros s k A st Em Hi (Es & Eo & En) Hj Hp; cbn [old_maps_loop].
  { assert (k = length olds) as -> by (pose proof (li_k _ _ _ _ _ Hi); lia).
    unfold passed in Hp. rewrite (firstn_all olds) in Hp. eexists s, _, _, _, st. split; [done|]. split; [|split].
    - eapply loop_keep; [done|done|]. apply reuse_none. intros o Hin. by apply Hp.
    - split; [done|]. split; [done|]. rewrite omap_app, !length_app. cbn. lia.
    - unfold split_at. rewrite firstn_all, drop_all. split; [intros o Hin; by apply Hp|by intros o ?%elem_of_nil]. }
  destruct (lookup_lt_is_Some_2 olds k) as [o Ek]; [lia|]. destruct (old_at _ _ _ _ _ _ Hi Ek) as [E1 E2].
  unfold mbind, prog_bind. rewrite E1, E2. pose proof (li_data _ _ _ _ _ Hi) as Hd.
  rewrite (same_map_data _ (obj h0 n) _ (obj h0 o)) by (by apply same_data_obj).
  fold (start_of (mp_heap s) o) (start_of (mp_heap s) n). rewrite !(same_data_start _ _ _ Hd).
  destruct (same_map (obj h0 n) (obj h0 o)) eqn:Hs.
  - destruct (loop_match _ _ _ _ _ _ _ Hi Ek Hj Hs) as (s' & E3 & Hi'). change (default O (Some o)) with o. rewrite E3. eexists s', _, _, _, _. split; [done|]. split; [exact Hi'|]. split.
    + unfold counted. cbn. rewrite !omap_app, !length_app. cbn. lia.
    + apply same_map_start in Hs. split.
      * intros o' [Hin| ->]%(take_S_cases _ _ _ Ek); [by apply Hp|lia].
      * intros o' Hin. rewrite Hs. by eapply in_drop_S.
  - destruct (Z.gtb_spec (start_of h0 o) (start_of h0 n)) as [Hgt|Hle].
    + eexists s, _, _, _, _. split; [done|]. assert (split_at k n) as Hsp.
      { split; [intros o' Hin; by apply Hp|]. intros o'. rewrite (drop_S _ _ _ Ek). intros [->|Hin]%elem_of_cons; [lia|].
        pose proof (in_drop_S _ _ _ Ek Hin). lia. }
      split; [|split; [|exact Hsp]].
      * eapply loop_keep; [done|done|]. apply reuse_none. intros o' Hin. destruct (same_map (obj h0 n) (obj h0 o')) eqn:Hs'; [|done].
        pose proof (same_map_start _ _ Hs'). rewrite <-(take_drop k olds) in Hin. apply elem_of_app in Hin as [Hin|Hin].
        -- destruct (Hp o' Hin) as [Hf _]. congruence.
        -- apply Hsp in Hin. lia.
      * unfold counted. cbn. rewrite omap_app, !length_app. cbn. lia.
    + destruct (loop_drop _ _ _ _ _ _ Hi Ek) as [-> Hi']. change (mp_heap s) with (mp_heap (s <| maps_ := <[k:=None]> (maps_ s) |>)). eapply IH; [lia|exact Hi'| |done|].
      * unfold counted. cbn. rewrite omap_app, !length_app. cbn. lia.
      * intros o' [Hin| ->]%(take_S_cases _ _ _ Ek); [by apply Hp|]. split; [done|lia].
Qed.

Lemma new_maps_loop_ok m s k j A B st :
  m = (length news - j)%nat → loop_inv s k j A B → counted st k A B →
  (∀ o, o ∈ take k olds → ∃ n, n ∈ take j news ∧ start_of h0 o ≤ start_of h0 n) →
  ∃ s' k' j' A' B' st', new_maps_loop m (length olds) (length olds + j) st s = Ret st' s' ∧
    loop_inv s' k' j' A' B' ∧ counted st' k' A' B' ∧
    (∀ n, n ∈ drop j' news → reuse n = n).
Proof using Ha Hdis Hn Ho.
  revert s k j A B st. induction m as [|m IH]; intros s k j A B st Em Hi Hc Hb; cbn [new_maps_loop].
  { eexists s, k, j, A, B, st. split; [done|]. split; [done|]. split; [done|]. rewrite drop_ge by lia. by intros n ?%elem_of_nil. }
  destruct (lookup_lt_is_Some_2 news j) as [n Hj]; [lia|]. destruct (new_at _ _ _ _ _ _ Hi Hj) as [E1 E2].
  assert (∀ n1 n2 i, n1 ∈ take i news → n2 ∈ drop i news → start_of h0 n1 < start_of h0 n2) as Hlt.
  { intros n1 n2 i H1 H2. pose proof Hn as Hn'. rewrite <-(take_drop i news), ordered_app in Hn'. destruct Hn' as ([_ Hf] & _ & Hle).
    rewrite Forall_forall in Hf. specialize (Hf n1 H1). specialize (Hle _ _ H1 H2). lia. }
  unfold mbind, prog_bind. rewrite E1, E2. destruct Hc as (Ek & Hc). rewrite Ek.
  destruct (old_maps_loop_ok _ s k j A B st n eq_refl Hi) as (s' & k' & A' & B' & st' & -> & Hi' & Hc' & Hs); [by split|done| |].
  { intros o Hin. destruct (Hb o Hin) as (n' & Hn' & Hle). specialize (Hlt n' n j Hn' ltac:(by eapply in_drop)).
    split; [|lia]. destruct (same_map (obj h0 n) (obj h0 o)) eqn:E; [|done]. apply same_map_start in E. lia. }
  assert (∀ o, o ∈ take k' olds → ∃ n, n ∈ take (S j) news ∧ start_of h0 o ≤ start_of h0 n) as Hb'.
  { intros o Hin. exists n. split; [eapply in_take; [done|lia]|by apply Hs]. }
  pose proof (proj1 Hc') as Ek'. rewrite Ek'. destruct (Nat.leb_spec (length olds) k') as [Hge|_].
  - eexists s', k', (S j), A', B', st'. split; [done|]. split; [done|]. split; [done|]. intros n2 Hn2. apply reuse_none. intros o Hin.
    destruct (same_map (obj h0 n2) (obj h0 o)) eqn:E; [|done]. apply same_map_start in E.
    destruct (Hb' o) as (n1 & Hn1 & Hle); [by rewrite firstn_all2 by lia|]. specialize (Hlt _ _ _ Hn1 Hn2). lia.
  - rewrite <-Nat.add_succ_r. eapply IH; [lia|done|done|done].
Qed.

Lemma delete_rest_ok m s k j A B : m = (length olds - k)%nat → loop_inv s k j A B →
  ∃ s', delete_rest m k s = Ret () s' ∧ loop_inv s' (length olds) j (A ++ replicate m None) B.
Proof using Type.
  revert s k A. induction m as [|m IH]; intros s k A Em Hi; cbn [delete_rest].
  { exists s. split; [done|]. rewrite app_nil_r. replace (length olds) with k by (pose proof (li_k _ _ _ _ _ Hi); lia). done. }
  destruct (lookup_lt_is_Some_2 olds k) as [o Ek]; [lia|]. destruct (loop_drop _ _ _ _ _ _ Hi Ek) as [E Hi'].
  unfold mbind, prog_bind. rewrite E. destruct (IH _ (S k) _ ltac:(lia) Hi') as (s' & -> & Hi2). exists s'. split; [done|].
  by rewrite <-app_assoc in Hi2.
Qed.
End loops.

(** ** Sorting the nulls away *)

Lemma map_before_asym h a b : map_before h a b = true → map_before h b a = false.
Proof. destruct a, b; cbn; try done. intros ?%Z.ltb_lt. apply Z.ltb_ge. lia. Qed.
Lemma map_before_trans h a b c : map_before h b a = false → map_before h c b = false → map_before h c a = false.
Proof. destruct a, b, c; cbn; try done. intros ?%Z.ltb_ge ?%Z.ltb_ge. apply Z.ltb_ge. lia. Qed.
Lemma nulls_perm {A} (l : list (option A)) : l ≡ₚ (Some <$> omap id l) ++ replicate (length l - length (omap id l)) None.
Proof.
  induction l as [|[x|] l IH]; [done| |]; cbn.
  - by rewrite <-IH.
  - assert (length (omap id l) ≤ length l)%nat by (rewrite IH at 2; rewrite length_app, length_fmap; lia).
    rewrite Nat.sub_succ_l by done. cbn. by rewrite <-Permutation_middle, <-IH.
Qed.
Lemma sort_maps h l ids : omap id l ≡ₚ ids → ordered h ids → allocated h ids →
  sort_by (map_before h) l = (Some <$> ids) ++ replicate (length l - length ids) None.
Proof.
  intros Hp Ho Ha. assert (∀ p, p ∈ ids → from_option mp_start 0 (h !! p) = start_of h p) as Hst.
  { intros p Hp'. unfold start_of. by rewrite (allocated_obj _ _ _ Ha Hp'). }
  apply sort_by_canonical; [apply map_before_asym|apply map_before_trans| | |].
  - rewrite <-(Permutation_length Hp). etransitivity; [|symmetry; apply nulls_perm]. apply Permutation_app_tail, Permutation_map. by symmetry.
  - apply StronglySorted_app. split_and!.
    + intros x y (p & -> & _)%list_elem_of_fmap [-> _]%elem_of_replicate. done.
    + clear Hp. induction ids as [|p ids IH]; [constructor|]. apply ordered_cons in Ho as (Hp & Ho & Hq). apply Forall_cons in Ha as Ha'. destruct Ha' as [_ Ha'].
      constructor; [apply IH; [done|done|]; intros; apply Hst; by right|]. apply Forall_forall. intros x (q & -> & Hin)%list_elem_of_fmap.
      unfold not_after. cbn. rewrite !Hst by (by (left || right)). apply Z.ltb_ge. specialize (Hq q Hin). lia.
    + generalize (length l - length ids)%nat. intros k. induction k; constructor; [done|]. apply Forall_forall. by intros x [-> _]%elem_of_replicate.
  - intros [p|] [q|] Hx Hy; cbn; try done. intros H1%Z.ltb_ge H2%Z.ltb_ge. f_equal.
    assert (∀ p, Some p ∈ l → p ∈ ids) as Hin by (intros r Hr; rewrite <-Hp; by apply list_elem_of_omap; exists (Some r)).
    rewrite !Hst in H1, H2 by auto. apply (ordered_same_start h ids); auto. lia.
Qed.

(** ** Reading the file anew *)

Definition proc_key (m : ProcMap) : Z * Z * Z * string := (pm_start m, pm_end m, u16 (device_flags m), pm_name m).
Definition proc_ordered (ms : list ProcMap) : Prop :=
  StronglySorted (λ a b, pm_end a ≤ pm_start b) ms ∧ Forall (λ m, pm_start m < pm_end m) ms.
(** The objects of [s] are there in [s'] and say the same. *)
Definition kept (s s' : Maps) : Prop := ∀ p m, mp_heap s !! p = Some m → ∃ m', mp_heap s' !! p = Some m' ∧ map_data m' = map_data m.
(** [ids] is the list of [ms], with an object of the old list for every map
    that stayed and a new object for every other. *)
Definition updated (s : Maps) (olds : list nat) (ms : list ProcMap) (s' : Maps) (ids : list nat) : Prop :=
  Forall2 (λ p m, map_key (obj (mp_heap s') p) = proc_key m ∧
    (p ∈ olds ∨ mp_heap s !! p = None ∧ map_data (obj (mp_heap s') p) = map_data (parsed_map m None None))) ids ms ∧
  ∀ o, o ∈ olds → map_key (obj (mp_heap s) o) ∈ proc_key <$> ms → o ∈ ids.

(** The state after [Parse] in [Reparse]. *)
Record parsed_state (s : Maps) (olds : list nat) (ms : list ProcMap) (s1 : Maps) (news : list nat) : Prop := {
  ps_maps : maps_ s1 = (Some <$> olds) ++ (Some <$> news);
  ps_alloc : allocated (mp_heap s1) (olds ++ news);
  ps_old : ∀ p m, mp_heap s !! p = Some m → mp_heap s1 !! p = Some m;
  ps_new : Forall2 (λ p m, mp_heap s !! p = None ∧ map_data (obj (mp_heap s1) p) = map_data (parsed_map m None None)) news ms;
  ps_linked : linked (mp_heap s1) news;
  ps_cases : ∀ p, is_Some (mp_heap s1 !! p) → is_Some (mp_heap s !! p) ∨ p ∈ news;
  ps_bound : bounded (mp_heap s1) (mp_next s1);
}.
Lemma parse_ok s olds content : maps_wf s olds →
  ∃ s1 news, Parse content s = Ret (snd (ReadMapFile content)) s1 ∧ parsed_state s olds (fst (ReadMapFile content)) s1 news.
Proof.
  intros Hw. unfold Parse. destruct (ReadMapFile content) as [ms parsed]. cbn [fst snd].
  destruct (add_parsed_ok ms None s) as (h & E & Hl & Hn & Hb); [apply Hw|done|].
  unfold mbind, prog_bind. rewrite E. eexists _, (seq (mp_next s) (length ms)). split; [done|].
  assert (∀ p m, mp_heap s !! p = Some m → h !! p = Some m) as Hold.
  { intros p m Hm. rewrite Hl by (apply Hw; by eexists). rewrite Hm, bool_decide_false by (by intros [? _]). done. }
  split; cbn; [by rewrite (wf_maps _ _ Hw)| |done| |by apply parsed_linked| |done].
  - apply Forall_app. split; [eapply Forall_impl; [apply (wf_alloc _ _ Hw)|]; intros p [m Hm]; eexists; by apply Hold|].
    apply Forall_forall. intros p [Hp1 Hp2]%elem_of_seq. destruct (lookup_lt_is_Some_2 ms (p - mp_next s)) as [m Hm]; [lia|].
    eexists. specialize (Hn _ _ Hm). by replace (mp_next s + (p - mp_next s))%nat with p in Hn by lia.
  - apply Forall2_same_length_lookup_2; [by rewrite length_seq|]. intros i p m [-> Hi]%lookup_seq Hm. split.
    + apply eq_None_not_Some. intros Hs%(wf_bound _ _ Hw). lia.
    + by rewrite (obj_Some _ _ _ (Hn _ _ Hm)).
  - intros p Hp. specialize (Hb p Hp). destruct (decide (p < mp_next s)%nat) as [Hlt|Hge]; [left|right; apply elem_of_seq; lia].
    rewrite Hl in Hp by done. by apply fmap_is_Some in Hp.
Qed.

Lemma parsed_ordered h (P : nat → Prop) ids ms :
  Forall2 (λ p m, P p ∧ map_data (obj h p) = map_data (parsed_map m None None)) ids ms → proc_ordered ms → ordered h ids.
Proof.
  induction 1 as [|p m ids ms [_ Hd] Hf IH]; [by split; constructor|]. intros [Hs Hm]. apply StronglySorted_inv in Hs as [Hs Hle].
  apply Forall_cons in Hm as [Hlt Hm]. injection Hd as Es Ee _ _ _. rewrite ordered_cons. unfold start_of, end_of in *.
  split; [lia|]. split; [by apply IH|]. intros q Hq. apply list_elem_of_lookup in Hq as [i Hi].
  destruct (Forall2_lookup_l _ _ _ _ _ Hf Hi) as (m' & Hm' & _ & [= Es' _ _ _ _]). rewrite Forall_forall in Hle.
  specialize (Hle m' ltac:(by eapply list_elem_of_lookup_2)). unfold start_of. lia.
Qed.
Lemma linked_ordered h ids p q : linked h ids → ordered h ids → allocated h ids → p ∈ ids →
  (prev_map_ (obj h p) = Some q → is_Some (h !! q) ∧ start_of h q < start_of h p) ∧
  (next_map_ (obj h p) = Some q → is_Some (h !! q) ∧ start_of h p < start_of h q).
Proof.
  intros Hl Ho Ha Hp. apply list_elem_of_split in Hp as (l1 & l2 & ->). destruct (Hl l1 p l2 eq_refl) as [-> ->]. split.
  - intros Hq. pose proof (last_elem _ _ Hq). split; [eexists; apply (allocated_obj _ _ _ Ha); set_solver|].
    apply last_Some in Hq as [k ->]. rewrite <-app_assoc in Ho. eapply ordered_start_lt; [exact Ho|set_solver].
  - intros Hq%head_elem. split; [eexists; apply (allocated_obj _ _ _ Ha); set_solver|]. by eapply ordered_start_lt.
Qed.
Lemma parsed_links s olds ms s1 news : maps_wf s olds → parsed_state s olds ms s1 news → proc_ordered ms → links_ordered (mp_heap s1).
Proof.
  intros Hw Hp Ho p m q Hm. destruct (ps_cases _ _ _ _ _ Hp p ltac:(by eexists)) as [[m0 Hm0]|Hin].
  - pose proof (ps_old _ _ _ _ _ Hp _ _ Hm0). simplify_eq. destruct (wf_links _ _ Hw p m q Hm0) as [H1 H2].
    assert (∀ x, is_Some (mp_heap s !! x) → is_Some (mp_heap s1 !! x) ∧ start_of (mp_heap s1) x = start_of (mp_heap s) x) as Hx.
    { intros x [y Hy]. pose proof (ps_old _ _ _ _ _ Hp _ _ Hy) as Hy'. split; [by eexists|]. unfold start_of. by rewrite (obj_Some _ _ _ Hy), (obj_Some _ _ _ Hy'). }
    split; intros E; [destruct (H1 E) as [Ha Hb]|destruct (H2 E) as [Ha Hb]]; destruct (Hx q Ha) as [? ->]; done.
  - rewrite <-(obj_Some _ _ _ Hm). apply (linked_ordered _ news); [apply Hp|by eapply parsed_ordered; [apply Hp|]|by apply Forall_app with olds; apply Hp|done].
Qed.

Lemma ps_obj s olds ms s1 news p : maps_wf s olds → parsed_state s olds ms s1 news → p ∈ olds → obj (mp_heap s1) p = obj (mp_heap s) p.
Proof. intros Hw Hp Hin. apply obj_Some, (ps_old _ _ _ _ _ Hp). by apply (allocated_obj _ _ _ (wf_alloc _ _ Hw)). Qed.
Lemma ps_ordered s olds ms s1 news : maps_wf s olds → parsed_state s olds ms s1 news → ordered (mp_heap s1) olds.
Proof.
  intros Hw Hp. eapply ordered_ranges; [|apply (wf_ordered _ _ Hw)]. apply list_fmap_ext. intros i p Hi.
  unfold map_range, start_of, end_of. by rewrite (ps_obj _ _ _ _ _ _ Hw Hp) by (by eapply list_elem_of_lookup_2).
Qed.
Lemma ps_disjoint s olds ms s1 news p : maps_wf s olds → parsed_state s olds ms s1 news → p ∈ olds → p ∉ news.
Proof.
  intros Hw Hp Ho [i Hi]%list_elem_of_lookup. destruct (Forall2_lookup_l _ _ _ _ _ (ps_new _ _ _ _ _ Hp) Hi) as (m & _ & Hnone & _).
  by rewrite (allocated_obj _ _ _ (wf_alloc _ _ Hw) Ho) in Hnone.
Qed.
(** The lists after a file that could not be read to its end. *)
Lemma parse_undone s olds ms s1 news : maps_wf s olds → parsed_state s olds ms s1 news → proc_ordered ms →
  maps_wf (s1 <| maps_ := take (length olds) (maps_ s1) |>) olds.
Proof.
  intros Hw Hp Ho. split; cbn.
  - rewrite (ps_maps _ _ _ _ _ Hp). by rewrite take_app_length' by (by rewrite length_fmap).
  - by apply (Forall_app _ olds news), Hp.
  - by eapply ps_ordered.
  - intros l1 p l2 E. rewrite (ps_obj _ _ _ _ _ p Hw Hp) by (rewrite E; set_solver). by apply (wf_linked _ _ Hw).
  - by eapply parsed_links.
  - apply Hp.
Qed.

Lemma loop_start s olds ms s1 news : maps_wf s olds → parsed_state s olds ms s1 news → proc_ordered ms →
  loop_inv (mp_heap s1) olds news (mp_held s1) (mp_next s1) s1 0 0 [] [].
Proof.
  intros Hw Hp Ho. split; cbn; try done; try lia; rewrite ?drop_0.
  - by apply Hp.
  - unfold current_list. cbn. rewrite drop_0. apply Hp.
  - by eapply parsed_links.
Qed.

(** The end of [Reparse]: sorted, and without the nulls. *)
Lemma loop_end h0 olds news held next s j A B :
  allocated h0 (olds ++ news) → ordered h0 news → bounded h0 next →
  loop_inv h0 olds news held next s (length olds) j A B → (∀ n, n ∈ drop j news → reuse h0 olds n = n) →
  let ids := reuse h0 olds <$> news in
  let nulls := (length A - length (omap id A) + (length B - length (omap id B)))%nat in
  maps_wf (s <| maps_ := take (length (maps_ s) - nulls) (sort_by (map_before (mp_heap s)) (maps_ s)) |>) ids ∧
  length ids = (length (maps_ s) - nulls)%nat ∧ omap id (maps_ s) ≡ₚ ids.
Proof.
  intros Ha Hn Hbd Hi Hr ids nulls. assert (current_list h0 olds news j = ids) as El.
  { unfold ids. rewrite <-(take_drop j news) at 2. rewrite fmap_app. unfold current_list. f_equal.
    rewrite <-(list_fmap_id (drop j news)) at 1. apply list_fmap_ext. intros i n Hin. symmetry. apply Hr. by eapply list_elem_of_lookup_2. }
  pose proof (current_list_ordered h0 olds news Hn j) as Hord. pose proof (current_list_alloc h0 olds news Ha j) as Hal.
  pose proof (li_linked _ _ _ _ _ _ _ _ _ _ Hi) as Hlk. rewrite El in Hord, Hal, Hlk.
  destruct Hi as [Em EA Hk EB Hjl Hp HfA HfB _ Hd Hlo Hh Hx].
  assert (omap id (maps_ s) ≡ₚ ids) as Hperm.
  { rewrite Em, drop_all, !omap_app. cbn. rewrite app_assoc, Hp, <-El. unfold current_list. apply Permutation_app_head.
    generalize (drop j news). intros l. induction l; cbn; [done|]. by constructor. }
  assert (length (maps_ s) = nulls + length ids)%nat as Elen.
  { rewrite <-(Permutation_length Hperm), Em, drop_all, !omap_app, !length_app. cbn. unfold nulls.
    assert (∀ l : list (option nat), length (omap id l) ≤ length l)%nat as Hle by (intros l; induction l as [|[]]; cbn; lia).
    pose proof (Hle A). pose proof (Hle B). rewrite length_fmap.
    replace (length (omap id (Some <$> drop j news))) with (length (drop j news)) by (generalize (drop j news); intros l; induction l; cbn; lia). lia. }
  split; [|split; [lia|done]].
  split; cbn; try done.
  - rewrite (sort_maps _ _ ids); [|done|by eapply ordered_data|by eapply allocated_data].
    rewrite take_app_length'; [done|]. rewrite length_fmap. lia.
  - by eapply allocated_data.
  - by eapply ordered_data.
  - intros p Hp'. rewrite Hx. apply Hbd. by apply (same_data_alive _ _ _ Hd).
Qed.

Lemma reuse_updated s olds ms s1 news h' s' :
  maps_wf s olds → parsed_state s olds ms s1 news → same_data (mp_heap s1) h' → mp_heap s' = h' →
  updated s olds ms s' (reuse (mp_heap s1) olds <$> news).
Proof.
  intros Hw Hp Hd Eh. pose proof (ps_ordered _ _ _ _ _ Hw Hp) as Hord. unfold updated. rewrite Eh. split.
  - apply Forall2_fmap_l. eapply Forall2_impl; [apply (ps_new _ _ _ _ _ Hp)|]. intros n m [Hnone Hdm]. cbn.
    pose proof (same_data_obj _ _ n Hd) as Hdn. pose proof (same_data_obj _ _ (reuse (mp_heap s1) olds n) Hd) as Hdr.
    assert (∀ x y, map_data x = map_data y → map_key x = map_key y) as Hkey by (unfold map_key; intros ?? [= -> -> _ -> ->]; done).
    destruct (reuse_spec (mp_heap s1) olds n) as [[-> _]|[Hin Hs]].
    + split; [|right; split; [done|by rewrite Hdn]]. rewrite (Hkey _ _ Hdn), (Hkey _ _ Hdm). done.
    + split; [|by left]. rewrite (Hkey _ _ Hdr). apply same_map_key in Hs. rewrite <-Hs, (Hkey _ _ Hdm). done.
  - intros o Ho (m & Ek & [i Hi]%list_elem_of_lookup)%list_elem_of_fmap.
    destruct (Forall2_lookup_r _ _ _ _ _ (ps_new _ _ _ _ _ Hp) Hi) as (n & Hn & _ & Hdm). apply list_elem_of_fmap. exists n.
    split; [|by eapply list_elem_of_lookup_2]. symmetry. apply reuse_old; [done|done|]. apply same_map_key.
    rewrite (ps_obj _ _ _ _ _ _ Hw Hp Ho), Ek. injection Hdm as E1 E2 _ E4 E5. unfold map_key, proc_key. by rewrite E1, E2, E4, E5.
Qed.

(** Nothing changed exactly when nothing was deleted and nothing added. *)
Lemma unchanged_list h0 olds news held next s j A B ids :
  (∀ p, p ∈ olds → p ∉ news) → ordered h0 olds → ordered h0 ids →
  loop_inv h0 olds news held next s (length olds) j A B → omap id (maps_ s) ≡ₚ ids →
  (length (omap id A) = length olds ∧ length ids = length olds) ↔ ids = olds.
Proof.
  intros Hdis Ho Hi Hl Hp. pose proof (li_old _ _ _ _ _ _ _ _ _ _ Hl) as HfA. pose proof (li_new _ _ _ _ _ _ _ _ _ _ Hl) as HfB.
  rewrite (li_maps _ _ _ _ _ _ _ _ _ _ Hl), drop_all, !omap_app in Hp. cbn in Hp.
  set (rest := omap id B ++ omap id (Some <$> drop j news)) in *.
  assert (∀ p, p ∈ rest → p ∈ news) as Hrest.
  { intros p [Hin|Hin]%elem_of_app; [by rewrite Forall_forall in HfB; apply HfB|].
    apply list_elem_of_omap in Hin as (x & (y & -> & Hy)%list_elem_of_fmap & [= ->]). rewrite <-(take_drop j news). set_solver. }
  pose proof (Permutation_length Hp) as El. rewrite length_app in El. split.
  - intros [EA Ei]. destruct rest as [|x rest]; [|cbn in El; lia]. rewrite app_nil_r in Hp.
    assert (ids ≡ₚ olds) as Hpo.
    { apply submseteq_length_Permutation; [|lia]. apply NoDup_submseteq; [by eapply ordered_NoDup|].
      intros p Hin. rewrite <-Hp in Hin. rewrite Forall_forall in HfA. by apply HfA. }
    apply (StronglySorted_unique_strong (λ p q, end_of h0 p ≤ start_of h0 q)); [|apply Hi|apply Ho|done].
    intros p q Hpi Hq H1 H2. destruct Hi as [_ Hf]. rewrite Forall_forall in Hf. destruct Ho as [_ Hf']. rewrite Forall_forall in Hf'.
    pose proof (Hf p Hpi). pose proof (Hf' q Hq). cbn in *. lia.
  - intros ->. split; [|done]. destruct rest as [|x rest]; [cbn in El; lia|]. exfalso. apply (Hdis x).
    + rewrite <-Hp. set_solver.
    + apply Hrest. left.
Qed.

Lemma Reparse_ok s olds content : maps_wf s olds → proc_ordered (fst (ReadMapFile content)) →
  ∃ s' ids changed, Reparse content s = Ret (snd (ReadMapFile content), changed) s' ∧ maps_wf s' ids ∧ kept s s' ∧
    if snd (ReadMapFile content) then updated s olds (fst (ReadMapFile content)) s' ids ∧ (changed = false ↔ ids = olds) else ids = olds.
Proof.
  intros Hw Hpo. destruct (parse_ok s olds content Hw) as (s1 & news & E & Hp). set (ms := fst (ReadMapFile content)) in *.
  assert (length (maps_ s) = length olds) as Elen by (by rewrite (wf_maps _ _ Hw), length_fmap).
  assert (∀ s', same_data (mp_heap s1) (mp_heap s') → kept s s') as Hkept.
  { intros s' Hd p m Hm. pose proof (ps_old _ _ _ _ _ Hp _ _ Hm) as Hm1. specialize (Hd p). rewrite Hm1 in Hd. cbn in Hd.
    destruct (mp_heap s' !! p) as [m'|]; [|done]. exists m'. split; [done|]. by apply (inj Some) in Hd. }
  unfold Reparse. unfold mbind at 1, prog_bind at 1, get at 1. unfold mbind at 1, prog_bind at 1. rewrite E, Elen.
  destruct (snd (ReadMapFile content)); cbn [negb].
  2: { eexists _, olds, false. split; [done|]. split; [by eapply parse_undone|]. split; [apply Hkept; by intros p|done]. }
  pose proof (loop_start _ _ _ _ _ Hw Hp Hpo) as Hi. pose proof (ps_alloc _ _ _ _ _ Hp) as Ha. pose proof (ps_ordered _ _ _ _ _ Hw Hp) as Hoo.
  pose proof (parsed_ordered _ _ _ _ (ps_new _ _ _ _ _ Hp) Hpo) as Hon. pose proof (λ p, ps_disjoint _ _ _ _ _ p Hw Hp) as Hdis.
  assert (length (maps_ s1) - length olds = length news - 0)%nat as Em by (rewrite (ps_maps _ _ _ _ _ Hp), length_app, !length_fmap; lia).
  destruct (new_maps_loop_ok _ _ _ _ _ Ha Hoo Hon Hdis _ _ _ _ _ _ (mkSearch 0 0 0) Em Hi) as (s2 & k & j & A & B & st & E2 & Hi2 & (Ek & EA & EB) & Hr).
  { done. } { by intros o ?%elem_of_nil. }
  unfold mbind, prog_bind, get, modify. rewrite Nat.add_0_r in E2. rewrite E2, Ek.
  destruct (delete_rest_ok _ _ _ _ _ _ _ _ _ _ _ eq_refl Hi2) as (s3 & E3 & Hi3). rewrite E3. cbn [maps_].
  destruct (loop_end _ _ _ _ _ _ _ _ _ Ha Hon (ps_bound _ _ _ _ _ Hp) Hi3 Hr) as (Hwf & Hlen & Hperm).
  set (ids := reuse (mp_heap s1) olds <$> news) in *. set (h := mp_heap s3) in *.
  assert (length (omap id (A ++ replicate (length olds - k) None)) = length (omap id A)) as Erep.
  { rewrite omap_app, length_app. generalize (length olds - k)%nat. intros x. induction x; cbn in *; lia. }
  rewrite Erep, length_app, length_replicate in Hwf, Hlen.
  assert (length (sort_by (map_before h) (maps_ s3)) = length (maps_ s3)) as Esort by (apply Permutation_length, sort_by_perm).
  eexists _, ids, _. split; [reflexivity|]. split; [|split; [by apply Hkept, Hi3|split]].
  - eapply (eq_rect _ (λ x, maps_wf x ids)); [exact Hwf|]. cbn. do 2 f_equal. rewrite Esort. lia.
  - apply (reuse_updated s olds ms s1 news h); [done|done|apply Hi3|done].
  - assert (ordered (mp_heap s1) ids) as Hid.
    { eapply ordered_ranges; [|exact Hon]. unfold ids. rewrite <-list_fmap_compose. apply list_fmap_ext. intros ???. apply reuse_range. }
    rewrite <-(unchanged_list _ _ _ _ _ _ _ _ _ ids Hdis Hoo Hid Hi3 Hperm), Erep. cbn. rewrite length_take, Esort, orb_false_iff, !negb_false_iff, !Nat.eqb_eq.
    pose proof (li_A _ _ _ _ _ _ _ _ _ _ Hi2). pose proof (li_k _ _ _ _ _ _ _ _ _ _ Hi2). cbn [maps_]. lia.
Qed.

(** ** Neighbours *)

(** The first map of [l] that is not blank, when it is of the same file. *)
Fixpoint nearest (h : gmap nat MapInfo) (name : string) (l : list nat) : option nat :=
  match l with
  | [] => None
  | q :: l => if IsBlank (obj h q) then nearest h name l else if String.eqb (mp_name (obj h q)) name then Some q else None
  end.

Section walk.
Context (s : Maps) (link : MapInfo → option nat) (rank : nat → Z).
Context (Hb : bounded (mp_heap s) (mp_next s)).
Context (Hrank : ∀ p m q, mp_heap s !! p = Some m → link m = Some q → is_Some (mp_heap s !! q) ∧ rank q < rank p).
Definition step_link (m : MapInfo) : prog Maps (option nat) := s ← get; mret (lock s (link m)).
(** The objects a walk from [p] can still meet. *)
Definition ahead (p : nat) : gset nat := filter (λ q, rank q ≤ rank p) (dom (mp_heap s)).

Lemma lock_Some w q : lock s w = Some q → w = Some q.
Proof using Type. destruct w as [p|]; cbn; [case_bool_decide; by intros [= ->]|done]. Qed.
Lemma ahead_size p : (size (ahead p) ≤ mp_next s)%nat.
Proof using Hb.
  assert (ahead p ⊆ set_seq 0 (mp_next s)) as Hs.
  { intros q [_ Hq%elem_of_dom]%elem_of_filter. apply elem_of_set_seq. split; [lia|]. by apply Hb. }
  apply subseteq_size in Hs. by rewrite size_set_seq in Hs.
Qed.
(** The walk ends, whatever became of the objects it meets. *)
Lemma real_map_ends fuel name p : (∀ q, p = Some q → is_Some (mp_heap s !! q) ∧ (size (ahead q) ≤ fuel)%nat) →
  ∃ r, real_map fuel step_link name p s = Ret r s.
Proof using Hb Hrank.
  revert p. induction fuel as [|fuel IH]; intros [q|] Hq; cbn [real_map].
  all: try (by eexists).
  all: destruct (Hq q eq_refl) as [[m Hm] Hs]; assert (q ∈ ahead q) as Hin by (apply elem_of_filter; split; [lia|apply elem_of_dom; by eexists]).
  - assert (size (ahead q) ≠ 0)%nat by (intros E%size_empty_inv; set_solver). lia.
  - unfold mbind, prog_bind. rewrite (deref_ok _ _ _ Hm). destruct (IsBlank m); [|by eexists].
    unfold step_link, mbind, prog_bind, get, mret, prog_ret. fold step_link. apply IH. intros r Hr%lock_Some.
    destruct (Hrank _ _ _ Hm Hr) as [Ha Hlt]. split; [done|].
    assert (ahead r ⊂ ahead q) as Hsub; [|apply subset_size in Hsub; lia].
    split; [intros x [? ?]%elem_of_filter; apply elem_of_filter; split; [lia|done]|]. intros Hc. specialize (Hc q Hin).
    apply elem_of_filter in Hc as [? _]. lia.
Qed.
(** Along a chain of links the walk finds the nearest map. *)
Lemma real_map_nearest fuel name l : (length l ≤ fuel)%nat → allocated (mp_heap s) l → Forall (λ p, Some p ∈ maps_ s) l →
  (∀ l1 p l2, l = l1 ++ p :: l2 → link (obj (mp_heap s) p) = head l2) →
  real_map fuel step_link name (head l) s = Ret (nearest (mp_heap s) name l) s.
Proof using Type.
  revert l. induction fuel as [|fuel IH]; intros [|q l] Hlen Ha Hf Hl; cbn in Hlen; try done; try lia. cbn [head real_map nearest].
  unfold mbind, prog_bind. rewrite (deref_ok _ _ _ (allocated_obj _ _ q Ha ltac:(left))). destruct (IsBlank _); [|done].
  unfold step_link, mbind, prog_bind, get, mret, prog_ret. fold step_link. rewrite (Hl [] q l eq_refl).
  apply Forall_cons in Ha as [_ Ha]. apply Forall_cons in Hf as [_ Hf].
  assert (lock s (head l) = head l) as ->.
  { destruct l as [|r l]; [done|]. cbn. rewrite bool_decide_true; [done|]. left. by apply Forall_cons in Hf as [? _]. }
  apply IH; [lia|done|done|]. intros l1 p l2 ->. by apply (Hl (q :: l1)).
Qed.
End walk.

Lemma ids_bounded s ids : maps_wf s ids → (length ids ≤ mp_next s)%nat.
Proof.
  intros Hw. assert (list_to_set ids ⊆@{gset nat} set_seq 0 (mp_next s)) as Hs.
  { intros p Hp%elem_of_list_to_set. apply elem_of_set_seq. split; [lia|]. apply (wf_bound _ _ Hw). eexists.
    by apply (allocated_obj _ _ _ (wf_alloc _ _ Hw)). }
  apply subseteq_size in Hs. rewrite size_set_seq, size_list_to_set in Hs; [done|]. by eapply ordered_NoDup, Hw.
Qed.
Lemma wf_listed s ids l : maps_wf s ids → (∀ p, p ∈ l → p ∈ ids) → Forall (λ p, Some p ∈ maps_ s) l ∧ allocated (mp_heap s) l.
Proof.
  intros Hw Hl. split; apply Forall_forall; intros p Hp; specialize (Hl p Hp).
  - rewrite (wf_maps _ _ Hw). by apply list_elem_of_fmap_2.
  - eexists. by apply (allocated_obj _ _ _ (wf_alloc _ _ Hw)).
Qed.

Definition real_neighbour (h : gmap nat MapInfo) (p : nat) (l : list nat) : option nat :=
  if String.eqb (mp_name (obj h p)) EmptyString then None else nearest h (mp_name (obj h p)) l.

Lemma GetRealMap_ok s ids link rank p : maps_wf s ids → is_Some (mp_heap s !! p) →
  (∀ p m q, mp_heap s !! p = Some m → link m = Some q → is_Some (mp_heap s !! q) ∧ rank q < rank p) →
  ∃ r, GetRealMap (step_link link) p s = Ret r s ∧
    ∀ l, link (obj (mp_heap s) p) = head l → (∀ q, q ∈ l → q ∈ ids) → NoDup l →
      (∀ l1 q l2, l = l1 ++ q :: l2 → link (obj (mp_heap s) q) = head l2) → r = real_neighbour (mp_heap s) p l.
Proof.
  intros Hw [m Hm] Hr. unfold GetRealMap, real_neighbour, mbind, prog_bind, get. rewrite (deref_ok _ _ _ Hm), (obj_Some _ _ _ Hm).
  destruct (String.eqb (mp_name m) EmptyString); [by eexists|].
  change (step_link link m s) with (Ret (S := Maps) (lock s (link m)) s). cbn beta iota.
  destruct (real_map_ends s link rank (wf_bound _ _ Hw) Hr (mp_next s) (mp_name m) (lock s (link m))) as [r E].
  { intros q Hq%lock_Some. split; [by eapply Hr|]. apply ahead_size, Hw. }
  exists r. split; [done|]. intros l El Hl Hnd Hc. destruct (wf_listed _ _ _ Hw Hl) as [Hf Ha].
  assert (lock s (link m) = head l) as Elock.
  { rewrite El. destruct l as [|x l]; [done|]. cbn. rewrite bool_decide_true; [done|]. left. by apply Forall_cons in Hf as [? _]. }
  rewrite Elock, (real_map_nearest s link _ _ l) in E; [by injection E| |done..].
  transitivity (length ids); [|by apply ids_bounded]. apply submseteq_length, NoDup_submseteq; [done|]. exact Hl.
Qed.
Lemma neighbours_ok s ids p : maps_wf s ids → is_Some (mp_heap s !! p) →
  ∃ before after, GetPrevRealMap p s = Ret before s ∧ GetNextRealMap p s = Ret after s ∧
    ∀ l1 l2, ids = l1 ++ p :: l2 → before = real_neighbour (mp_heap s) p (reverse l1) ∧ after = real_neighbour (mp_heap s) p l2.
Proof.
  intros Hw Hp.
  destruct (GetRealMap_ok s ids prev_map_ (start_of (mp_heap s)) p Hw Hp) as (r1 & E1 & H1).
  { intros x m q Hm Hq. destruct (wf_links _ _ Hw _ _ q Hm) as [Hx _]. unfold start_of at 2. rewrite (obj_Some _ _ _ Hm). by apply Hx. }
  destruct (GetRealMap_ok s ids next_map_ (λ q, - start_of (mp_heap s) q) p Hw Hp) as (r2 & E2 & H2).
  { intros x m q Hm Hq. destruct (wf_links _ _ Hw _ _ q Hm) as [_ Hx]. unfold start_of at 2. rewrite (obj_Some _ _ _ Hm). destruct (Hx Hq). split; [done|lia]. }
  exists r1, r2. split; [exact E1|]. split; [exact E2|]. intros l1 l2 El. pose proof (ordered_NoDup _ _ (wf_ordered _ _ Hw)) as Hnd.
  pose proof (wf_linked _ _ Hw) as Hlk. rewrite El in Hnd. apply NoDup_app in Hnd as (Hn1 & _ & [_ Hn2]%NoDup_cons). destruct (Hlk l1 p l2 El) as [Epr Enx]. split.
  - apply H1; [by rewrite head_reverse|intros q Hq%elem_of_reverse; rewrite El; set_solver|by rewrite (reverse_Permutation l1)|].
    intros m1 q m2 E. apply (f_equal reverse) in E. rewrite reverse_involutive, reverse_app, reverse_cons, <-app_assoc in E. cbn in E.
    destruct (Hlk (reverse m2) q (reverse m1 ++ p :: l2)) as [-> _]; [by rewrite El, E, <-app_assoc|]. apply last_reverse.
  - apply H2; [done|intros q Hq; rewrite El; set_solver|done|].
    intros m1 q m2 E. destruct (Hlk (l1 ++ p :: m1) q m2) as [_ ->]; [by rewrite El, E, <-app_assoc|done].
Qed.

Lemma kept_found s s' ids pc r : kept s s' → allocated (mp_heap s) ids → found_in (mp_heap s) ids pc r → found_in (mp_heap s') ids pc r.
Proof.
  intros Hk Ha. assert (∀ p, p ∈ ids → map_contains (mp_heap s') pc p ↔ map_contains (mp_heap s) pc p) as Hc.
  { intros p Hp. destruct (Hk p (obj (mp_heap s) p)) as (m' & Hm' & [= E1 E2 _ _ _]); [by apply (allocated_obj _ _ _ Ha)|].
    unfold map_contains, start_of, end_of. by rewrite (obj_Some _ _ _ Hm'), E1, E2. }
  destruct r as [p|]; cbn; [intros [Hp Hm]; split; [done|]; by apply Hc|]. intros Hn p Hp. rewrite Hc by done. by apply Hn.
Qed.

Lemma maps_new_wf : maps_wf Maps_new [].
Proof. split; cbn; try done; [constructor|split; constructor|by intros [] ? ?|intros p [? Hp]; done]. Qed.
(** The first reading of the file makes the list. *)
Lemma Parse_wf content : proc_ordered (fst (ReadMapFile content)) →
  ∃ s ids, Parse content Maps_new = Ret (snd (ReadMapFile content)) s ∧ maps_wf s ids ∧ length ids = length (fst (ReadMapFile content)).
Proof.
  intros Ho. destruct (parse_ok Maps_new [] content maps_new_wf) as (s & ids & E & Hp). exists s, ids. split; [done|].
  split; [|exact (Forall2_length _ _ _ (ps_new _ _ _ _ _ Hp))]. pose proof (parsed_links _ _ _ _ _ maps_new_wf Hp Ho). destruct Hp as [Em Ha _ Hn Hl _ Hb].
  split; [exact Em|exact Ha|exact (parsed_ordered _ _ _ _ Hn Ho)|done..].
Qed.


Definition demo_text : string :=
  "1000-2000 r--p 00000000 fd:00 12 /lib/a.so" +:+ String newline
  "2000-3000 ---p 00000000 00:00 0" +:+ String newline
  "3000-5000 r-xp 00001000 fd:00 12 /lib/a.so" +:+ String newline EmptyString.
(** A map was replaced and one added. *)
Definition demo_text_later : string :=
  "1000-2000 r--p 00000000 fd:00 12 /lib/a.so" +:+ String newline
  "3000-4000 r-xp 00001000 fd:00 12 /lib/a.so" +:+ String newline
  "5000-6000 rw-s 00000000 00:05 7  /dev/kgsl-3d0" +:+ String newline EmptyString.
Lemma demo_ordered : proc_ordered (fst (ReadMapFile (Some demo_text))).
Proof. vm_compute. split; repeat constructor; done. Qed.
Lemma demo_later_ordered : proc_ordered (fst (ReadMapFile (Some demo_text_later))).
Proof. vm_compute. split; repeat constructor; done. Qed.
