(* ===== verification/UnwindMapsText.v ===== *)
(** * /proc/<pid>/maps is read back as it was printed

    About the parser of unwindstack/procinfo/process_map.h in UnwindMaps.v. *)
From S2P Require Import Prelude CString LineReader Outcome UnwindMaps.

(** ** Characters *)

Fixpoint all_chars (p : ascii → bool) (s : string) : bool :=
  match s with EmptyString => true | String c s => p c && all_chars p s end.
(** Neither a newline nor a terminator. *)
Definition plain (c : ascii) : bool := negb (Ascii.eqb c newline) && negb (Ascii.eqb c Ascii.zero).

Lemma all_chars_app p a b : all_chars p (a +:+ b) = all_chars p a && all_chars p b.
Proof. induction a as [|c a IH]; [done|]. change ((String c a) +:+ b) with (String c (a +:+ b)). cbn. by rewrite IH, andb_assoc. Qed.
Lemma strchr_plain a : all_chars plain a = true → strchr a newline = None.
Proof.
  induction a as [|c a IH]; [done|]. cbn [all_chars strchr]. unfold plain at 1. rewrite !andb_true_iff, !negb_true_iff. intros [[-> _] Ha]. by rewrite IH.
Qed.
Lemma strchr_line a b : all_chars plain a = true → strchr (a +:+ String newline b) newline = Some (String.length a).
Proof.
  induction a as [|c a IH]; [done|]. change ((String c a) +:+ String newline b) with (String c (a +:+ String newline b)). cbn [all_chars strchr String.length].
  unfold plain at 1. rewrite !andb_true_iff, !negb_true_iff. intros [[-> _] Ha]. by rewrite IH.
Qed.
Lemma stake_length_app a b : stake (String.length a) (a +:+ b) = a.
Proof. induction a as [|c a IH]; [by destruct b|]. exact (f_equal (String c) IH). Qed.
Lemma sdrop_length_app a c b : sdrop (S (String.length a)) (a +:+ String c b) = b.
Proof. induction a as [|d a IH]; [done|]. exact IH. Qed.
Lemma cstr_id s : all_chars (λ c, negb (Ascii.eqb c Ascii.zero)) s = true → cstr s = s.
Proof. induction s as [|c s IH]; [done|]. cbn. rewrite andb_true_iff, negb_true_iff. intros [-> Hs]. by rewrite IH. Qed.
Lemma skip_while_stop p c s : p c = false → skip_while p (String c s) = String c s.
Proof. intros E. cbn. by rewrite E. Qed.

(** ** Digits *)

Definition hex_char (d : Z) : ascii := Ascii.ascii_of_N (Z.to_N (if d <? 10 then 48 + d else 87 + d)).
(** [%0<n>lx], for a value of at most [n] digits. *)
Fixpoint hex_fixed (n : nat) (z : Z) (acc : string) : string :=
  match n with O => acc | S n => hex_fixed n (z / 16) (String (hex_char (z mod 16)) acc) end.

Definition is_hex_char (c : ascii) : Prop := ∃ d, 0 ≤ d < 16 ∧ c = hex_char d.
Lemma hex_cases d : 0 ≤ d < 16 → d = 0 ∨ d = 1 ∨ d = 2 ∨ d = 3 ∨ d = 4 ∨ d = 5 ∨ d = 6 ∨ d = 7 ∨ d = 8 ∨ d = 9 ∨ d = 10 ∨ d = 11 ∨ d = 12 ∨ d = 13 ∨ d = 14 ∨ d = 15.
Proof. lia. Qed.
Ltac hex_case := match goal with H : 0 ≤ ?d < 16 |- _ => apply hex_cases in H; repeat destruct H as [->|H]; [..|subst d] end.
Lemma hex_char_facts d : 0 ≤ d < 16 → digit_val (hex_char d) = Some d ∧ is_space (hex_char d) = false ∧
  plain (hex_char d) = true ∧ Ascii.eqb (hex_char d) "x" = false ∧ Ascii.eqb (hex_char d) "X" = false ∧
  (∀ s, scan_sign (String (hex_char d) s) = (false, String (hex_char d) s)).
Proof. intros Hd. hex_case; by split_and!. Qed.
Lemma hex_fixed_head n z acc : 0 ≤ z → ∃ d r, 0 ≤ d < 16 ∧ hex_fixed (S n) z acc = String (hex_char d) r.
Proof.
  revert z acc. induction n as [|n IH]; intros z acc Hz.
  - cbn. eexists _, _. split; [|done]. by apply Z.mod_pos_bound.
  - apply (IH (z / 16)). apply Z.div_pos; lia.
Qed.
Lemma hex_fixed_app n z acc : hex_fixed n z acc = hex_fixed n z EmptyString +:+ acc.
Proof.
  revert z acc. induction n as [|n IH]; intros z acc; [done|]. cbn [hex_fixed].
  rewrite IH, (IH _ (String _ EmptyString)). by rewrite string_app_assoc.
Qed.
Lemma hex_fixed_all (p : ascii → bool) n z : (∀ d, 0 ≤ d < 16 → p (hex_char d) = true) → 0 ≤ z → all_chars p (hex_fixed n z EmptyString) = true.
Proof.
  intros Hp. revert z. induction n as [|n IH]; intros z Hz; [done|]. cbn [hex_fixed]. rewrite hex_fixed_app, all_chars_app.
  rewrite IH by (apply Z.div_pos; lia). cbn. rewrite Hp by (by apply Z.mod_pos_bound). done.
Qed.
Lemma scan_hex_fixed n z acc a k : 0 ≤ z < 16 ^ Z.of_nat n →
  scan_digits 16 (hex_fixed n z acc) a k = scan_digits 16 acc (a * 16 ^ Z.of_nat n + z) (n + k).
Proof.
  revert z acc a k. induction n as [|n IH]; intros z acc a k Hz; cbn [hex_fixed].
  { cbn in Hz. f_equal. cbn. lia. }
  rewrite Nat2Z.inj_succ, Z.pow_succ_r in Hz by lia. pose proof (Z.div_mod z 16 ltac:(lia)) as Hdm.
  assert (0 ≤ z mod 16 < 16) as Hm by (by apply Z.mod_pos_bound).
  rewrite IH by (split; [apply Z.div_pos; lia|apply Z.div_lt_upper_bound; lia]). cbn [scan_digits].
  destruct (hex_char_facts _ Hm) as (-> & _). replace (z mod 16 <? 16) with true by (symmetry; apply Z.ltb_lt; lia).
  f_equal. rewrite Nat2Z.inj_succ, Z.pow_succ_r by lia. lia.
Qed.
Lemma scan_0x_hex n z acc : 0 ≤ z → (∀ c r, acc = String c r → Ascii.eqb c "x" = false ∧ Ascii.eqb c "X" = false) →
  scan_0x (hex_fixed (S n) z acc) = hex_fixed (S n) z acc.
Proof.
  intros Hz Hacc. destruct (hex_fixed_head n z acc Hz) as (d & r & Hd & E). rewrite E.
  assert (∀ c r', r = String c r' → Ascii.eqb c "x" = false ∧ Ascii.eqb c "X" = false) as Hr.
  { intros c r' ->. destruct n as [|n]; [cbn in E; injection E as _ E; by apply (Hacc c r')|].
    cbn [hex_fixed] in E. change (hex_fixed (S n) (z / 16) (String (hex_char (z mod 16)) acc) = String (hex_char d) (String c r')) in E.
    rewrite hex_fixed_app in E. destruct (hex_fixed_head n (z / 16) EmptyString) as (d1 & r1 & Hd1 & E1); [apply Z.div_pos; lia|].
    rewrite E1 in E. change (String (hex_char d1) (r1 +:+ String (hex_char (z mod 16)) acc) = String (hex_char d) (String c r')) in E.
    injection E as _ E. destruct r1 as [|x r1].
    - injection E as <- _. assert (0 ≤ z mod 16 < 16) as Hm by (by apply Z.mod_pos_bound). by destruct (hex_char_facts _ Hm) as (_ & _ & _ & ? & ? & _).
    - change (String x (r1 +:+ String (hex_char (z mod 16)) acc) = String c r') in E. injection E as <- _.
      assert (all_chars (λ c, negb (Ascii.eqb c "x") && negb (Ascii.eqb c "X")) (hex_fixed (S n) (z / 16) EmptyString) = true) as Hall.
      { apply hex_fixed_all; [|apply Z.div_pos; lia]. intros e He. by destruct (hex_char_facts _ He) as (_ & _ & _ & -> & -> & _). }
      rewrite E1 in Hall. cbn in Hall. rewrite !andb_true_iff, !negb_true_iff in Hall. tauto. }
  destruct r as [|c r]; [|destruct (Hr c r eq_refl) as [Hx HX]].
  - hex_case; done.
  - unfold scan_0x. rewrite Hx, HX. hex_case; by destruct r.
Qed.

(** What follows a number ends it. *)
Definition stops (acc : string) : Prop := match acc with EmptyString => True | String c _ => digit_val c = None ∧ Ascii.eqb c "x" = false ∧ Ascii.eqb c "X" = false end.
Lemma scan_stops base acc a n : stops acc → scan_digits base acc a n = (a, n, acc).
Proof. destruct acc; cbn; [done|]. by intros [-> _]. Qed.

Lemma strtoull_hex n z acc : 0 ≤ z < 16 ^ Z.of_nat (S n) → z ≤ SIZE_MAX → stops acc →
  strtoull_end 16 (hex_fixed (S n) z acc) = Some (z, acc).
Proof.
  intros Hz Hm Hs. unfold strtoull_end. destruct (hex_fixed_head n z acc) as (d & r & Hd & E); [lia|].
  destruct (hex_char_facts d Hd) as (_ & Hsp & _ & _ & _ & Hsg).
  rewrite E, skip_while_stop, Hsg, <-E by done. change (16 =? 16) with true. cbv iota. rewrite (scan_0x_hex n z acc) by (lia || (intros c r' ->; apply Hs)).
  rewrite scan_hex_fixed, scan_stops by done. cbn [Nat.add]. unfold clamp_unsigned. destruct (Z.gtb_spec (0 * 16 ^ Z.of_nat (S n) + z) SIZE_MAX); [lia|].
  done.
Qed.
Lemma strtoull_dec z acc : 0 ≤ z ≤ SIZE_MAX → stops acc → strtoull_end 10 (dec_digits 20 z acc) = Some (z, acc).
Proof.
  intros Hz Hs. unfold strtoull_end. destruct (dec_digits_head 20 z acc) as (d & r & Hd & E); [lia|lia|].
  destruct (scan_dec_digits 20 z acc 0 0) as (k & Hk & Ek); [unfold SIZE_MAX in Hz; split; [lia|]; by eapply Z.le_lt_trans; [apply Hz|]|lia|].
  rewrite E, skip_while_stop, scan_sign_digit_char, <-E by (done || by apply is_space_digit_char). change (10 =? 16) with false. cbv iota.
  rewrite Ek, scan_stops by done. destruct k as [|k]; [lia|]. cbn [Nat.add]. unfold clamp_unsigned.
  destruct (Z.gtb_spec (0 * 10 ^ Z.of_nat (S k) + z) SIZE_MAX); [lia|]. done.
Qed.
Lemma isxdigit_hex d : 0 ≤ d < 16 → isxdigit (hex_char d) = true.
Proof. intros Hd. unfold isxdigit. destruct (hex_char_facts d Hd) as (-> & _). by apply bool_decide_true. Qed.
Lemma skip_while_all p a acc : all_chars p a = true → (match acc with EmptyString => True | String c _ => p c = false end) →
  skip_while p (a +:+ acc) = acc.
Proof.
  induction a as [|c a IH]; cbn [all_chars].
  - intros _ Hs. destruct acc; [done|]. by apply skip_while_stop.
  - intros [Hc Ha]%andb_true_iff Hs. change ((String c a) +:+ acc) with (String c (a +:+ acc)). cbn. rewrite Hc. by apply IH.
Qed.
Lemma PassXdigit_hex n z acc : 0 ≤ z → stops acc → PassXdigit (hex_fixed (S n) z acc) = Some acc.
Proof.
  intros Hz Hs. unfold PassXdigit. destruct (hex_fixed_head n z acc Hz) as (d & r & Hd & E). rewrite E, isxdigit_hex, <-E by done. f_equal.
  rewrite hex_fixed_app. apply skip_while_all; [apply hex_fixed_all; [apply isxdigit_hex|done]|].
  destruct acc; [done|]. destruct Hs as [Hs _]. unfold isxdigit. rewrite Hs. by apply bool_decide_false; intros [].
Qed.

(** ** Lines *)

(** A line as the kernel prints it: digits of a width of their own, and the name
    after some blanks. *)
Record MapsRow := mkRow {
  rw_start : Z; rw_end : Z; rw_read : bool; rw_write : bool; rw_exec : bool; rw_shared : bool;
  rw_pgoff : Z; rw_major : Z; rw_minor : Z; rw_inode : Z; rw_name : string;
  rw_widths : nat * nat * nat * nat * nat; rw_blanks : nat;
}.
Fixpoint blanks (n : nat) (acc : string) : string := match n with O => acc | S n => String " " (blanks n acc) end.
Definition flag_char (b : bool) (c : ascii) : ascii := if b then c else "-"%char.
Definition print_row (r : MapsRow) : string :=
  let '(w1, w2, w3, w4, w5) := rw_widths r in
  hex_fixed (S w1) (rw_start r) (String "-" (hex_fixed (S w2) (rw_end r) (String " "
    (String (flag_char (rw_read r) "r") (String (flag_char (rw_write r) "w") (String (flag_char (rw_exec r) "x")
    (String (if rw_shared r then "s" else "p") (String " "
    (hex_fixed (S w3) (rw_pgoff r) (String " " (hex_fixed (S w4) (rw_major r) (String ":" (hex_fixed (S w5) (rw_minor r) (String " "
    (dec_digits 20 (rw_inode r) (blanks (rw_blanks r) (rw_name r))))))))))))))))).
Definition row_map (r : MapsRow) : ProcMap :=
  mkProcMap (rw_start r) (rw_end r)
    (Z.lor (Z.lor (if rw_read r then PROT_READ else 0) (if rw_write r then PROT_WRITE else 0)) (if rw_exec r then PROT_EXEC else 0))
    (rw_pgoff r) (rw_inode r) (rw_name r) (rw_shared r).
(** The values fit their widths and 64 bits; the name has no newline, does not
    start with a blank, and there is a blank in front of it. *)
Definition fits (n : nat) (z : Z) : Prop := 0 ≤ z < 16 ^ Z.of_nat (S n) ∧ z ≤ SIZE_MAX.
Definition row_ok (r : MapsRow) : Prop :=
  let '(w1, w2, w3, w4, w5) := rw_widths r in
  fits w1 (rw_start r) ∧ fits w2 (rw_end r) ∧ fits w3 (rw_pgoff r) ∧ 0 ≤ rw_major r ∧ 0 ≤ rw_minor r ∧
  0 ≤ rw_inode r ≤ SIZE_MAX ∧ all_chars plain (rw_name r) = true ∧
  match rw_name r with EmptyString => True | String c _ => c ≠ " "%char ∧ rw_blanks r ≠ O end.

Lemma pass_blanks n s : (match s with EmptyString => True | String c _ => c ≠ " "%char end) → PassSpace (blanks (S n) s) = Some s.
Proof.
  intros Hs. unfold PassSpace. cbn [blanks Ascii.eqb Bool.eqb]. f_equal. change (skip_while (Ascii.eqb " ") (blanks (S n) s) = s).
  induction (S n) as [|m IH]; [|exact IH]. destruct s as [|c s]; [done|]. apply skip_while_stop. apply Ascii.eqb_neq. congruence.
Qed.
Lemma pass_space c s : c ≠ " "%char → PassSpace (String " " (String c s)) = Some (String c s).
Proof. intros Hc. by apply (pass_blanks 0). Qed.
Lemma pass_space_hex n z acc : 0 ≤ z → PassSpace (String " " (hex_fixed (S n) z acc)) = Some (hex_fixed (S n) z acc).
Proof. intros Hz. destruct (hex_fixed_head n z acc Hz) as (d & r & Hd & ->). apply pass_space. by hex_case. Qed.
Lemma pass_space_dec z acc : 0 ≤ z → PassSpace (String " " (dec_digits 20 z acc)) = Some (dec_digits 20 z acc).
Proof.
  intros Hz. destruct (dec_digits_head 20 z acc Hz ltac:(lia)) as (d & r & Hd & ->). apply pass_space.
  assert (hex_char d = digit_char d) as <- by (unfold hex_char, digit_char; by replace (d <? 10) with true by (symmetry; apply Z.ltb_lt; lia)).
  assert (0 ≤ d < 16) by lia. by hex_case.
Qed.
Lemma blanks_stops n name : (match name with EmptyString => True | String c _ => n ≠ O end) → stops (blanks n name).
Proof. destruct n; cbn; [|done]. by destruct name. Qed.

Lemma parse_print_row r : row_ok r → parse_line (print_row r) = Some (row_map r).
Proof.
  unfold row_ok, print_row. destruct (rw_widths r) as [[[[w1 w2] w3] w4] w5].
  intros ([? ?] & [? ?] & [? ?] & ? & ? & ? & _ & Hn). unfold parse_line.
  rewrite strtoull_hex by done. cbn [mbind option_bind pass_char Ascii.eqb Bool.eqb].
  rewrite strtoull_hex by done. cbn [mbind option_bind].
  rewrite pass_space by (by destruct (rw_read r)). cbn [mbind option_bind].
  assert (∀ b c bit s, c = "r"%char ∨ c = "w"%char ∨ c = "x"%char → pass_flag c bit (String (flag_char b c) s) = Some (if b : bool then bit else 0, s)) as Hfl.
  { intros [] c bit s [->|[->| ->]]; done. }
  rewrite Hfl by auto. cbn [mbind option_bind]. rewrite Hfl by auto. cbn [mbind option_bind]. rewrite Hfl by auto. cbn [mbind option_bind].
  assert (∀ b s, pass_shared (String (if b : bool then "s" else "p") s) = Some (b, s)) as Hsh by (by intros []).
  rewrite Hsh. cbn [mbind option_bind].
  rewrite pass_space_hex by lia. cbn [mbind option_bind]. rewrite strtoull_hex by done. cbn [mbind option_bind].
  rewrite pass_space_hex by lia. cbn [mbind option_bind]. rewrite PassXdigit_hex by done. cbn [mbind option_bind pass_char Ascii.eqb Bool.eqb].
  rewrite PassXdigit_hex by done. cbn [mbind option_bind]. rewrite pass_space_dec by lia. cbn [mbind option_bind].
  rewrite strtoull_dec by (lia || (apply blanks_stops; destruct (rw_name r); [done|by destruct Hn])). cbn [mbind option_bind].
  assert ((match blanks (rw_blanks r) (rw_name r) with EmptyString => Some (blanks (rw_blanks r) (rw_name r)) | _ => PassSpace (blanks (rw_blanks r) (rw_name r)) end) = Some (rw_name r)) as Hname.
  { destruct (rw_blanks r) as [|n]; [by destruct (rw_name r) as [|c s]; [|destruct Hn]|].
    cbn [blanks]. change (String " " (blanks n (rw_name r))) with (blanks (S n) (rw_name r)). apply pass_blanks. by destruct (rw_name r); [|destruct Hn]. }
  rewrite Hname. done.
Qed.

(** ** Files *)

Fixpoint print_maps (rows : list MapsRow) (tail : string) : string :=
  match rows with [] => tail | r :: rows => print_row r +:+ String newline (print_maps rows tail) end.

Lemma blanks_app n s : blanks n s = blanks n EmptyString +:+ s.
Proof. induction n as [|n IH]; [done|]. cbn. exact (f_equal (String " ") IH). Qed.
Lemma blanks_plain n : all_chars plain (blanks n EmptyString) = true.
Proof. by induction n. Qed.
Lemma dec_digits_plain n z acc : 0 ≤ z → all_chars plain acc = true → all_chars plain (dec_digits n z acc) = true.
Proof.
  revert z acc. induction n as [|n IH]; intros z acc Hz Ha; [done|]. cbn [dec_digits]. assert (0 ≤ z mod 10 < 10) as Hm by (by apply Z.mod_pos_bound).
  assert (all_chars plain (String (digit_char (z mod 10)) acc) = true) as Hs.
  { cbn [all_chars]. rewrite Ha, andb_true_r. revert Hm. generalize (z mod 10). intros d Hd.
    assert (hex_char d = digit_char d) as <- by (unfold hex_char, digit_char; by replace (d <? 10) with true by (symmetry; apply Z.ltb_lt; lia)).
    apply hex_char_facts. lia. }
  destruct (z / 10 =? 0); [done|]. apply IH; [apply Z.div_pos; lia|done].
Qed.
Lemma hex_plain n z acc : 0 ≤ z → all_chars plain acc = true → all_chars plain (hex_fixed n z acc) = true.
Proof.
  intros Hz Ha. rewrite hex_fixed_app, all_chars_app, Ha, hex_fixed_all; [done| |done]. intros d Hd. by apply hex_char_facts.
Qed.
Lemma print_row_plain r : row_ok r → all_chars plain (print_row r) = true.
Proof.
  unfold row_ok, print_row. destruct (rw_widths r) as [[[[w1 w2] w3] w4] w5]. intros ([? ?] & [? ?] & [? ?] & ? & ? & ? & Hn & _).
  assert (∀ c s, plain c = true → all_chars plain s = true → all_chars plain (String c s) = true) as Hc by (intros c s Hc Hs; cbn; by rewrite Hc, Hs).
  assert (∀ (b : bool) c d, plain c = true → plain d = true → plain (if b then c else d) = true) as Hif by (by intros []).
  unfold flag_char. repeat first [apply hex_plain; [lia|] | apply dec_digits_plain; [lia|] | apply Hc; [by first [apply Hif|reflexivity]|]].
  by rewrite blanks_app, all_chars_app, blanks_plain.
Qed.
Lemma print_row_cons r : row_ok r → ∃ c s, print_row r = String c s.
Proof.
  unfold row_ok, print_row. destruct (rw_widths r) as [[[[w1 w2] w3] w4] w5]. intros ([[? _] _] & _).
  match goal with |- context [hex_fixed (S w1) _ ?acc] => destruct (hex_fixed_head w1 (rw_start r) acc) as (d & s & _ & ->); [done|] end. by eexists _, _.
Qed.

Lemma read_row fuel r rest : row_ok r →
  read_map_lines (S fuel) (Some (print_row r +:+ String newline rest)) =
  let '(maps, result) := read_map_lines fuel (Some rest) in (row_map r :: maps, result).
Proof.
  intros Hr. destruct (print_row_cons r Hr) as (c & s & E). cbn [read_map_lines]. rewrite E at 1.
  change (String c s +:+ String newline rest) with (String c (s +:+ String newline rest)). cbv iota.
  unfold ParseMapsFileLine. rewrite (strchr_line _ _ (print_row_plain r Hr)), stake_length_app, sdrop_length_app, parse_print_row by done. done.
Qed.
Lemma read_tail fuel tail : all_chars plain tail = true → (String.length tail < fuel)%nat →
  read_map_lines fuel (Some tail) =
  match tail with EmptyString => ([], true) | _ => match parse_line tail with Some m => ([m], true) | None => ([], false) end end.
Proof.
  intros Ht Hf. destruct fuel as [|fuel]; [lia|]. destruct tail as [|c tail]; [done|]. cbn [read_map_lines].
  unfold ParseMapsFileLine. rewrite strchr_plain by done. destruct (parse_line (String c tail)); [|done]. by destruct fuel.
Qed.
Lemma no_zero_plain s : all_chars plain s = true → all_chars (λ c, negb (Ascii.eqb c Ascii.zero)) s = true.
Proof.
  induction s as [|c s IH]; [done|]. cbn [all_chars]. unfold plain at 1. rewrite !andb_true_iff. intros [[_ ?] ?]. auto.
Qed.
Lemma print_maps_no_zero rows tail : Forall row_ok rows → all_chars plain tail = true →
  all_chars (λ c, negb (Ascii.eqb c Ascii.zero)) (print_maps rows tail) = true.
Proof.
  intros Hr Ht. induction Hr as [|r rows Hr _ IH]; cbn [print_maps]; [by apply no_zero_plain|].
  rewrite all_chars_app, no_zero_plain by (by apply print_row_plain). exact IH.
Qed.

(** C39. Reading back /proc/<pid>/maps. A file of lines as the kernel prints them,
    with any widths, permissions, devices and blanks, and names without newlines,
    is read as exactly the maps that were printed, in order; nothing is lost to
    the bound on the number of lines. A last line without its newline counts when
    it is complete; when it is cut so that it cannot be parsed, the maps before it
    were reported already and the reading fails. *)
Theorem map_file_roundtrip rows tail : Forall row_ok rows → all_chars plain tail = true →
  ReadMapFileContent (print_maps rows tail) =
  match tail with
  | EmptyString => (row_map <$> rows, true)
  | _ => match parse_line tail with Some m => ((row_map <$> rows) ++ [m], true) | None => (row_map <$> rows, false) end
  end.
Proof.
  intros Hr Ht. unfold ReadMapFileContent. rewrite cstr_id by (by apply print_maps_no_zero).
  assert (∀ fuel, (String.length (print_maps rows tail) < fuel)%nat → read_map_lines fuel (Some (print_maps rows tail)) =
    match tail with EmptyString => (row_map <$> rows, true) | _ => match parse_line tail with Some m => ((row_map <$> rows) ++ [m], true) | None => (row_map <$> rows, false) end end) as Hall; [|apply Hall; lia].
  induction Hr as [|r rows Hr _ IH]; intros fuel Hf; cbn [print_maps] in *.
  - rewrite read_tail by done. by destruct tail; [|destruct (parse_line _)].
  - destruct fuel as [|fuel]; [lia|]. rewrite read_row by done. rewrite string_length_app in Hf. cbn in Hf. rewrite IH by lia.
    by destruct tail; [|destruct (parse_line _)].
Qed.

Definition demo_row : MapsRow := mkRow 0x7f001000 0x7f002000 true false true false 0x1000 0xfd 1 426998 "/usr/lib/libc.so" (7, 7, 7, 1, 1)%nat 7.
Lemma map_file_roundtrip_witness : ReadMapFileContent (print_maps [demo_row; demo_row] "7f002000-7f003000 rw") = ([row_map demo_row; row_map demo_row], false).
Proof.
  rewrite map_file_roundtrip.
  - reflexivity.
  - repeat constructor; done.
  - reflexivity.
Defined.
