(* ===== verification/DwarfMemory.v ===== *)
(** * The DWARF reader

    unwindstack/DwarfMemory.cpp, include/unwindstack/DwarfMemory.h and
    DwarfEncoding.h: a cursor over a memory object, fixed-width and LEB128
    numbers, and encoded pointers.  A shift by 64 or more is undefined in C++
    and is the fault [BadShift] here. *)
From S2P Require Import Prelude UnwindMemory Outcome.

(** The two instances of the templates' [AddressType]. *)
Inductive AddressType := uint32_t | uint64_t.
Definition bits_of (AT : AddressType) : Z := match AT with uint32_t => 32 | uint64_t => 64 end.
Definition sizeof (AT : AddressType) : Z := match AT with uint32_t => 4 | uint64_t => 8 end.

(** [static_cast] of a value to the unsigned and signed types of a width. *)
Definition as_signed (w z : Z) : Z := let r := wrap w z in if r <? 2 ^ (w - 1) then r else r - 2 ^ w.

Definition DW_EH_PE_omit : Z := 0xff.
Definition DW_EH_PE_absptr : Z := 0x00.
Definition DW_EH_PE_uleb128 : Z := 0x01.
Definition DW_EH_PE_udata2 : Z := 0x02.
Definition DW_EH_PE_udata4 : Z := 0x03.
Definition DW_EH_PE_udata8 : Z := 0x04.
Definition DW_EH_PE_sleb128 : Z := 0x09.
Definition DW_EH_PE_sdata2 : Z := 0x0a.
Definition DW_EH_PE_sdata4 : Z := 0x0b.
Definition DW_EH_PE_sdata8 : Z := 0x0c.
Definition DW_EH_PE_pcrel : Z := 0x10.
Definition DW_EH_PE_textrel : Z := 0x20.
Definition DW_EH_PE_datarel : Z := 0x30.
Definition DW_EH_PE_funcrel : Z := 0x40.
Definition DW_EH_PE_aligned : Z := 0x50.
Definition DW_EH_PE_udata1 : Z := 0x0d.
Definition DW_EH_PE_sdata1 : Z := 0x0e.
Definition DW_EH_PE_block : Z := 0x0f.

Definition INT64_MAX : Z := 2 ^ 63 - 1.
(** [static_cast<uint64_t>(-1)] *)
Definition no_offset : Z := 2 ^ 64 - 1.

Record DwarfMemory := mkDwarfMemory {
  cur_offset_ : Z; pc_offset_ : Z; data_offset_ : Z; func_offset_ : Z; text_offset_ : Z }.
#[global] Instance DwarfMemory_updatable : Updatable DwarfMemory :=
  λ d, mkDwarfMemory (cur_offset_ d) (pc_offset_ d) (data_offset_ d) (func_offset_ d) (text_offset_ d).

Definition DwarfMemory_new : DwarfMemory := mkDwarfMemory 0 INT64_MAX no_offset no_offset no_offset.
Definition set_cur_offset (offset : Z) (d : DwarfMemory) : DwarfMemory := d <| cur_offset_ := offset |>.
Definition set_pc_offset (offset : Z) (d : DwarfMemory) : DwarfMemory := d <| pc_offset_ := offset |>.
Definition clear_pc_offset (d : DwarfMemory) : DwarfMemory := d <| pc_offset_ := INT64_MAX |>.
Definition set_data_offset (offset : Z) (d : DwarfMemory) : DwarfMemory := d <| data_offset_ := offset |>.
Definition clear_data_offset (d : DwarfMemory) : DwarfMemory := d <| data_offset_ := no_offset |>.
Definition set_func_offset (offset : Z) (d : DwarfMemory) : DwarfMemory := d <| func_offset_ := offset |>.
Definition clear_func_offset (d : DwarfMemory) : DwarfMemory := d <| func_offset_ := no_offset |>.
Definition set_text_offset (offset : Z) (d : DwarfMemory) : DwarfMemory := d <| text_offset_ := offset |>.
Definition clear_text_offset (d : DwarfMemory) : DwarfMemory := d <| text_offset_ := no_offset |>.

Definition GetEncodedSize (AT : AddressType) (encoding : Z) : Z :=
  let e := Z.land encoding 0x0f in
  if e =? DW_EH_PE_absptr then sizeof AT
  else if (e =? DW_EH_PE_udata1) || (e =? DW_EH_PE_sdata1) then 1
  else if (e =? DW_EH_PE_udata2) || (e =? DW_EH_PE_sdata2) then 2
  else if (e =? DW_EH_PE_udata4) || (e =? DW_EH_PE_sdata4) then 4
  else if (e =? DW_EH_PE_udata8) || (e =? DW_EH_PE_sdata8) then 8
  else 0.

Section reader.
Context {M : Type} `{Memory M} (memory_ : M).

Definition ReadBytes (num_bytes : Z) : prog DwarfMemory (list Z) := λ d,
  match ReadFully memory_ (cur_offset_ d) num_bytes with
  | None => Err d
  | Some bytes => Ret bytes (set_cur_offset (cur_offset_ d ⊞ num_bytes) d)
  end.

(** A little-endian unsigned number of [n] bytes. *)
Definition ReadUnsigned (n : Z) : prog DwarfMemory Z := bytes ← ReadBytes n; mret (le_value bytes).

(** [SignedType] has [n] bytes. *)
Definition ReadSigned (n : Z) : prog DwarfMemory Z := v ← ReadUnsigned n; mret (u64 (as_signed (8 * n) v)).

(** The bytes of one LEB128 number: the value, the shift after it and its last
    byte.  An eleventh byte would be shifted by 70. *)
Fixpoint leb128_loop (fuel : nat) (cur_value shift : Z) : prog DwarfMemory (Z * Z * Z) :=
  match fuel with
  | O => undef NoFuel
  | S fuel =>
      byte ← ReadUnsigned 1;
      if shift >=? 64 then undef BadShift
      else
        let cur_value := cur_value ⊞ u64 (Z.shiftl (Z.land byte 0x7f) shift) in
        let shift := shift + 7 in
        if flag_set byte 0x80 then leb128_loop fuel cur_value shift
        else mret (cur_value, shift, byte)
  end.
Definition leb128_fuel : nat := 11.

Definition ReadULEB128 : prog DwarfMemory Z := '(cur_value, _, _) ← leb128_loop leb128_fuel 0 0; mret cur_value.

(** The result is the [int64_t]. *)
Definition ReadSLEB128 : prog DwarfMemory Z :=
  '(cur_value, shift, byte) ← leb128_loop leb128_fuel 0 0;
  if flag_set byte 0x40 then
    if shift >=? 64 then undef BadShift
    else mret (as_signed 64 (Z.lor cur_value (u64 (Z.shiftl no_offset shift))))
  else mret (as_signed 64 cur_value).

Definition AdjustEncodedValue (encoding value : Z) : prog DwarfMemory Z := λ d,
  if negb (Z.land encoding 0x0f =? 0) then Fault Aborted
  else if encoding =? DW_EH_PE_absptr then Ret value d
  else if encoding =? DW_EH_PE_pcrel then
    if pc_offset_ d =? INT64_MAX then Err d else Ret (value ⊞ pc_offset_ d) d
  else if encoding =? DW_EH_PE_textrel then
    if text_offset_ d =? no_offset then Err d else Ret (value ⊞ text_offset_ d) d
  else if encoding =? DW_EH_PE_datarel then
    if data_offset_ d =? no_offset then Err d else Ret (value ⊞ data_offset_ d) d
  else if encoding =? DW_EH_PE_funcrel then
    if func_offset_ d =? no_offset then Err d else Ret (value ⊞ func_offset_ d) d
  else Err d.

(** The number itself, by the low four bits of the encoding. *)
Definition ReadEncodedData (AT : AddressType) (encoding : Z) : prog DwarfMemory Z :=
  let e := Z.land encoding 0x0f in
  if e =? DW_EH_PE_absptr then ReadUnsigned (sizeof AT)
  else if e =? DW_EH_PE_uleb128 then ReadULEB128
  else if e =? DW_EH_PE_sleb128 then v ← ReadSLEB128; mret (u64 v)
  else if e =? DW_EH_PE_udata1 then ReadUnsigned 1
  else if e =? DW_EH_PE_sdata1 then ReadSigned 1
  else if e =? DW_EH_PE_udata2 then ReadUnsigned 2
  else if e =? DW_EH_PE_sdata2 then ReadSigned 2
  else if e =? DW_EH_PE_udata4 then ReadUnsigned 4
  else if e =? DW_EH_PE_sdata4 then ReadSigned 4
  else if e =? DW_EH_PE_udata8 then ReadUnsigned 8
  else if e =? DW_EH_PE_sdata8 then ReadSigned 8
  else fail.

Definition ReadEncodedValue (AT : AddressType) (encoding : Z) : prog DwarfMemory Z :=
  if encoding =? DW_EH_PE_omit then mret 0
  else if encoding =? DW_EH_PE_aligned then λ d,
    let overflow := cur_offset_ d + (sizeof AT - 1) >=? 2 ^ 64 in
    let d := set_cur_offset (cur_offset_ d ⊞ (sizeof AT - 1)) d in
    if overflow then Err d
    else ReadUnsigned (sizeof AT) (set_cur_offset (Z.land (cur_offset_ d) (u64 (- sizeof AT))) d)
  else
    value ← ReadEncodedData AT encoding;
    AdjustEncodedValue (Z.land encoding 0x70) value.
End reader.
