(* ===== verification/DwarfMemProps.v ===== *)
(** * What the DWARF reader decodes

    Every LEB128 number and every encoded pointer a producer can write is read
    back, except the negative numbers below [-2^62], whose sign extension shifts
    by 70. *)
From S2P Require Import Prelude UnwindMemory UnwindMemProps Outcome DwarfMemory.

(** ** Numbers and bytes *)

Lemma flag_set_mod b k : 0 ≤ k → flag_set b (2 ^ k) = Z.testbit b k.
Proof.
  intros Hk. unfold flag_set. destruct (Z.testbit b k) eqn:E.
  - destruct (Z.eqb_spec (Z.land b (2 ^ k)) 0) as [Hz|]; [|done].
    pose proof (f_equal (λ z, Z.testbit z k) Hz) as Ht. cbn beta in Ht.
    by rewrite Z.land_spec, Z.pow2_bits_true, E, Z.bits_0 in Ht.
  - assert (Z.land b (2 ^ k) = 0) as ->; [|done]. apply Z.bits_inj'. intros i Hi.
    rewrite Z.land_spec, Z.pow2_bits_eqb, Z.bits_0 by done. destruct (Z.eqb_spec k i) as [<-|]; [by rewrite E|apply andb_false_r].
Qed.

Fixpoint le_bytes (n : nat) (v : Z) : list Z :=
  match n with O => [] | S n => v mod 256 :: le_bytes n (v / 256) end.

Lemma le_bytes_length n v : length (le_bytes n v) = n.
Proof. revert v. induction n as [|n IH]; intros v; cbn; [done|]. by rewrite IH. Qed.

Lemma le_value_bytes n v : le_value (le_bytes n v) = wrap (8 * Z.of_nat n) v.
Proof.
  revert v. induction n as [|n IH]; intros v; cbn [le_bytes le_value]; [symmetry; apply Z.mod_1_r|].
  rewrite IH. unfold wrap. replace (8 * Z.of_nat (S n)) with (8 + 8 * Z.of_nat n) by lia.
  rewrite Z.pow_add_r by lia. change (2 ^ 8) with 256. rewrite Z.rem_mul_r by lia. lia.
Qed.

Lemma le_value_range l : Forall (λ b, 0 ≤ b < 256) l → 0 ≤ le_value l < 2 ^ (8 * Z.of_nat (length l)).
Proof.
  induction 1 as [|b l Hb _ IH]; cbn [le_value length]; [lia|].
  replace (8 * Z.of_nat (S (length l))) with (8 + 8 * Z.of_nat (length l)) by lia.
  rewrite Z.pow_add_r by lia. change (2 ^ 8) with 256. lia.
Qed.

Lemma as_signed_range w z : 0 < w → - 2 ^ (w - 1) ≤ as_signed w z < 2 ^ (w - 1).
Proof.
  intros Hw. unfold as_signed. pose proof (wrap_range w z ltac:(lia)) as Hr.
  replace (2 ^ w) with (2 * 2 ^ (w - 1)) in * by (rewrite <-Z.pow_succ_r by lia; f_equal; lia).
  destruct (Z.ltb_spec (wrap w z) (2 ^ (w - 1))); lia.
Qed.

(** [as_signed] inverts the two's complement. *)
Lemma as_signed_wrap w v : 0 < w → - 2 ^ (w - 1) ≤ v < 2 ^ (w - 1) → as_signed w (wrap w v) = v.
Proof.
  intros Hw Hv. assert (2 ^ w = 2 * 2 ^ (w - 1)) as Ew by (rewrite <-Z.pow_succ_r by lia; f_equal; lia).
  unfold as_signed, wrap. rewrite Zmod_mod. destruct (Z.lt_ge_cases v 0) as [Hneg|Hpos].
  - assert (v mod 2 ^ w = v + 2 ^ w) as -> by (symmetry; apply Z.mod_unique with (-1); lia).
    destruct (Z.ltb_spec (v + 2 ^ w) (2 ^ (w - 1))); lia.
  - rewrite Z.mod_small by lia. destruct (Z.ltb_spec v (2 ^ (w - 1))); lia.
Qed.

Lemma as_signed_small w v : 0 < w → 0 ≤ v < 2 ^ (w - 1) → as_signed w v = v.
Proof.
  intros Hw Hv. assert (wrap w v = v) as E.
  { apply Z.mod_small. assert (2 ^ w = 2 * 2 ^ (w - 1)) by (rewrite <-Z.pow_succ_r by lia; f_equal; lia). lia. }
  rewrite <-E at 1. apply as_signed_wrap; lia.
Qed.

(** The words of [w] bits are the numbers without higher bits. *)
Lemma word_bits w z : 0 ≤ w → 0 ≤ z < 2 ^ w ↔ ∀ i, w ≤ i → Z.testbit z i = false.
Proof.
  intros Hw. assert (0 ≤ z < 2 ^ w ↔ z mod 2 ^ w = z) as ->.
  { split; [apply Z.mod_small|]. intros <-. by apply wrap_range. }
  split.
  - intros <- i Hi. apply Z.mod_pow2_bits_high. lia.
  - intros Hz. apply Z.bits_inj'. intros i Hi. destruct (Z.lt_ge_cases i w).
    + by apply Z.mod_pow2_bits_low.
    + rewrite Hz, Z.mod_pow2_bits_high; (done || lia).
Qed.

Lemma land_word w a b : 0 ≤ w → 0 ≤ a < 2 ^ w → 0 ≤ Z.land a b < 2 ^ w.
Proof. intros Hw Ha. apply word_bits; [done|]. intros i Hi. rewrite Z.land_spec. by rewrite (proj1 (word_bits w a Hw) Ha). Qed.
Lemma lor_word w a b : 0 ≤ w → 0 ≤ a < 2 ^ w → 0 ≤ b < 2 ^ w → 0 ≤ Z.lor a b < 2 ^ w.
Proof.
  intros Hw Ha Hb. apply word_bits; [done|]. intros i Hi. rewrite Z.lor_spec.
  by rewrite (proj1 (word_bits w a Hw) Ha), (proj1 (word_bits w b Hw) Hb).
Qed.
Lemma lxor_word w a b : 0 ≤ w → 0 ≤ a < 2 ^ w → 0 ≤ b < 2 ^ w → 0 ≤ Z.lxor a b < 2 ^ w.
Proof.
  intros Hw Ha Hb. apply word_bits; [done|]. intros i Hi. rewrite Z.lxor_spec.
  by rewrite (proj1 (word_bits w a Hw) Ha), (proj1 (word_bits w b Hw) Hb).
Qed.
Lemma shiftr_word w a n : 0 ≤ w → 0 ≤ n → 0 ≤ a < 2 ^ w → 0 ≤ Z.shiftr a n < 2 ^ w.
Proof.
  intros Hw Hn Ha. apply word_bits; [done|]. intros i Hi. rewrite Z.shiftr_spec by lia.
  apply (word_bits w); (done || lia).
Qed.

Lemma application_low encoding : Z.land (Z.land encoding 0x70) 0x0f = 0.
Proof. rewrite <-Z.land_assoc. change (Z.land 0x70 0x0f) with 0. apply Z.land_0_r. Qed.

(** Sign extension above bit [k - 1] by a shifted all-ones word. *)
Lemma sign_extend k u :
  0 < k < 64 → 0 ≤ u < 2 ^ k → as_signed 64 (Z.lor (u64 u) (u64 (Z.shiftl no_offset k))) = u - 2 ^ k.
Proof.
  intros Hk Hu. assert (2 ^ k ≤ 2 ^ 63) as Hle by (apply Z.pow_le_mono_r; lia).
  assert (2 ^ 64 = 2 ^ k * 2 ^ (64 - k)) as Esplit by (rewrite <-Z.pow_add_r by lia; f_equal; lia).
  assert (u64 (Z.shiftl no_offset k) = (2 ^ (64 - k) - 1) * 2 ^ k) as ->.
  { rewrite Z.shiftl_mul_pow2 by lia. unfold no_offset, u64, wrap. symmetry. apply Z.mod_unique with (2 ^ k - 1); [left|]; nia. }
  rewrite (u64_small u) by lia. rewrite <-Z.lxor_lor, <-Z.add_nocarry_lxor.
  2, 3: apply Z.bits_inj'; intros i Hi; rewrite Z.land_spec, Z.bits_0; destruct (Z.lt_ge_cases i k);
    [rewrite Z.mul_pow2_bits_low by lia; apply andb_false_r
    |rewrite (proj1 (word_bits k u ltac:(lia)) Hu) by lia; done].
  replace (u + (2 ^ (64 - k) - 1) * 2 ^ k) with (u - 2 ^ k + 1 * 2 ^ 64) by lia.
  unfold as_signed, wrap. rewrite Z.mod_add by done. change (as_signed 64 (u - 2 ^ k) = u - 2 ^ k).
  rewrite <-(as_signed_wrap 64 (u - 2 ^ k)) at 2 by (change (2 ^ (64 - 1)) with (2 ^ 63); lia). unfold as_signed, wrap. by rewrite Zmod_mod.
Qed.

(** ** LEB128 *)

(** A reference encoder, from the DWARF standard. *)
Fixpoint encode_uleb (n : nat) (v : Z) : list Z :=
  match n with
  | O => []
  | S n => if v <? 128 then [v] else (v mod 128 + 128) :: encode_uleb n (v / 128)
  end.
Fixpoint encode_sleb (n : nat) (v : Z) : list Z :=
  match n with
  | O => []
  | S n => if (-64 <=? v) && (v <? 64) then [v mod 128] else (v mod 128 + 128) :: encode_sleb n (v / 128)
  end.

(** Continuation bytes and a last byte. *)
Inductive leb128 : list Z → Z → Z → Prop :=
| leb_last b : 0 ≤ b < 128 → leb128 [b] b b
| leb_more b l v last : 128 ≤ b < 256 → leb128 l v last → leb128 (b :: l) (b - 128 + 128 * v) last.

Lemma encode_uleb_leb128 n v : 0 ≤ v < 128 ^ Z.of_nat n → (0 < n)%nat → ∃ last, leb128 (encode_uleb n v) v last.
Proof.
  revert v. induction n as [|n IH]; intros v Hv Hn; [lia|]. cbn [encode_uleb].
  rewrite Nat2Z.inj_succ, Z.pow_succ_r in Hv by lia. destruct (Z.ltb_spec v 128) as [Hs|Hs].
  { exists v. constructor. lia. }
  pose proof (Z.div_mod v 128 ltac:(done)) as Hdm. pose proof (Z.mod_pos_bound v 128 ltac:(done)) as Hm.
  assert (0 ≤ v / 128 < 128 ^ Z.of_nat n) as Hq by (split; [apply Z.div_pos|apply Z.div_lt_upper_bound]; lia).
  destruct (IH (v / 128) Hq) as [last Hl]; [destruct n; [cbn in Hv; lia|lia]|].
  exists last. apply (leb_more (v mod 128 + 128)) in Hl; [|lia].
  by replace (v mod 128 + 128 - 128 + 128 * (v / 128)) with v in Hl by lia.
Qed.

Lemma encode_uleb_length n v : (length (encode_uleb n v) ≤ n)%nat.
Proof. revert v. induction n as [|n IH]; intros v; cbn; [lia|]. case_ifs; [lia|]. specialize (IH (v / 128)). lia. Qed.

Lemma leb128_range l v last : leb128 l v last → 0 ≤ v < 128 ^ Z.of_nat (length l) ∧ (0 < length l)%nat ∧ 0 ≤ last < 128.
Proof.
  induction 1 as [b Hb|b l v last Hb _ IH]; cbn [length]; [change (128 ^ Z.of_nat 1) with 128; lia|].
  rewrite Nat2Z.inj_succ, Z.pow_succ_r by lia. lia.
Qed.

(** What [encode_sleb] writes: the number modulo [2^shift], and its sign. *)
Lemma encode_sleb_leb128 n v :
  - 64 * 128 ^ (Z.of_nat n - 1) ≤ v < 64 * 128 ^ (Z.of_nat n - 1) → (0 < n)%nat →
  ∃ u last, leb128 (encode_sleb n v) u last ∧ flag_set last 0x40 = (v <? 0) ∧
    v = u - (if v <? 0 then 128 ^ Z.of_nat (length (encode_sleb n v)) else 0).
Proof.
  revert v. induction n as [|n IH]; intros v Hv Hn; [lia|]. cbn [encode_sleb].
  pose proof (Z.div_mod v 128 ltac:(done)) as Hdm. pose proof (Z.mod_pos_bound v 128 ltac:(done)) as Hm.
  destruct ((-64 <=? v) && (v <? 64)) eqn:Es.
  - bool_hyps. exists (v mod 128), (v mod 128). split_and!; [by constructor| |].
    + change 64 with (2 ^ 6). rewrite flag_set_mod by done. rewrite Z.testbit_odd, Z.shiftr_div_pow2 by done.
      change (2 ^ 6) with 64. destruct (Z.ltb_spec v 0) as [Hneg|Hpos].
      * assert (v mod 128 / 64 = 1) as -> by (symmetry; apply Z.div_unique with (v mod 128 - 64); lia). done.
      * assert (v mod 128 / 64 = 0) as -> by (apply Z.div_small; lia). done.
    + cbn [length]. change (128 ^ Z.of_nat 1) with 128. destruct (Z.ltb_spec v 0); lia.
  - destruct n as [|n]; [cbn in Hv; lia|].
    replace (Z.of_nat (S (S n)) - 1) with (Z.succ (Z.of_nat (S n) - 1)) in Hv by lia. rewrite Z.pow_succ_r in Hv by lia.
    destruct (IH (v / 128)) as (u & last & Hl & Hf & Hu); [|lia|].
    { split; [apply Z.div_le_lower_bound; lia|apply Z.div_lt_upper_bound; lia]. }
    assert ((v / 128 <? 0) = (v <? 0)) as Esign by (destruct (Z.ltb_spec (v / 128) 0), (Z.ltb_spec v 0); lia).
    rewrite Esign in *. exists (v mod 128 + 128 - 128 + 128 * u), last. split_and!; [constructor; [lia|done]|done|].
    cbn [length]. rewrite Nat2Z.inj_succ, Z.pow_succ_r by lia. destruct (v <? 0); lia.
Qed.

Lemma encode_sleb_length n v : (length (encode_sleb n v) ≤ n)%nat.
Proof. revert v. induction n as [|n IH]; intros v; cbn; [lia|]. case_ifs; [lia|]. specialize (IH (v / 128)). lia. Qed.

(** How many bytes a signed number takes. *)
Lemma encode_sleb_short k n v :
  (S k < n)%nat →
  (length (encode_sleb n v) ≤ S k)%nat ↔ - 64 * 128 ^ Z.of_nat k ≤ v < 64 * 128 ^ Z.of_nat k.
Proof.
  revert n v. induction k as [|k IH]; intros [|n] v Hn; try lia; cbn [encode_sleb].
  - change (128 ^ Z.of_nat 0) with 1. destruct ((-64 <=? v) && (v <? 64)) eqn:Es; [cbn; lia|].
    destruct n as [|n]; [lia|]. cbn. case_ifs; cbn; lia.
  - rewrite Nat2Z.inj_succ, Z.pow_succ_r by lia. assert (0 < 128 ^ Z.of_nat k) by (apply Z.pow_pos_nonneg; lia).
    destruct ((-64 <=? v) && (v <? 64)) eqn:Es; [cbn; nia|]. cbn [length]. rewrite <-Nat.succ_le_mono, IH by lia.
    pose proof (Z.div_mod v 128 ltac:(done)). pose proof (Z.mod_pos_bound v 128 ltac:(done)). lia.
Qed.

(** ** The reader *)

(** [bytes] are at [a]. *)
Definition stored (c : Z → option Z) (a : Z) (bytes : list Z) : Prop := valid_prefix c a (length bytes) = bytes.

Lemma stored_app c a l1 l2 : stored c a (l1 ++ l2) ↔ stored c a l1 ∧ stored c (a + Z.of_nat (length l1)) l2.
Proof.
  unfold stored. rewrite length_app, valid_prefix_app. split.
  - intros E. pose proof (valid_prefix_length c a (length l1)) as Hl.
    destruct (decide (length (valid_prefix c a (length l1)) = length l1)) as [El|Hne].
    + apply app_inj_1 in E; [|done]. done.
    + apply (f_equal length) in E. rewrite !length_app in E. cbn in E. lia.
  - intros [E1 E2]. rewrite E1, decide_True by done. by rewrite E2.
Qed.

Lemma stored_cons c a b l : stored c a (b :: l) ↔ c a = Some b ∧ stored c (a + 1) l.
Proof.
  unfold stored. cbn. destruct (c a) as [b'|]; [|by split; [|intros []]]. split; [intros [= -> ?]; done|]. by intros [[= ->] ->].
Qed.

Definition advance (n : Z) (d : DwarfMemory) : DwarfMemory := set_cur_offset (cur_offset_ d ⊞ n) d.

Section reads.
Context {M : Type} `{Memory M} (m : M) (c : Z → option Z) (limit : Z) `{!Reads limit m c}.
Hypothesis Hlimit : 8 ≤ limit.
Implicit Types d : DwarfMemory.

Definition cursor_ok d : Prop := 0 ≤ cur_offset_ d < 2 ^ 64.

Lemma advance_ok n d : cursor_ok (advance n d).
Proof. apply u64_range. Qed.

Lemma ReadBytes_spec d n :
  cursor_ok d → 0 ≤ n ≤ limit →
  ReadBytes m n d =
    let bytes := valid_prefix c (cur_offset_ d) (Z.to_nat n) in
    if decide (length bytes = Z.to_nat n) then Ret bytes (advance n d) else Err d.
Proof.
  intros Hd Hn. unfold ReadBytes. destruct (ReadFully m (cur_offset_ d) n) as [bytes|] eqn:E.
  - apply (ReadFully_spec limit m c) in E as [-> El]; [|done..]. cbn zeta. by rewrite decide_True.
  - cbn zeta. case_decide as El; [|done]. exfalso.
    assert (ReadFully m (cur_offset_ d) n = Some (valid_prefix c (cur_offset_ d) (Z.to_nat n))) as E'
      by (by apply (ReadFully_spec limit m c)). congruence.
Qed.

Lemma ReadBytes_stored d bytes :
  cursor_ok d → Z.of_nat (length bytes) ≤ limit → stored c (cur_offset_ d) bytes →
  ReadBytes m (Z.of_nat (length bytes)) d = Ret bytes (advance (Z.of_nat (length bytes)) d).
Proof.
  intros Hd Hn Hs. rewrite ReadBytes_spec by (done || lia). rewrite Nat2Z.id, Hs. cbn zeta. by rewrite decide_True.
Qed.

Lemma ReadUnsigned_stored d bytes :
  cursor_ok d → Z.of_nat (length bytes) ≤ limit → stored c (cur_offset_ d) bytes →
  ReadUnsigned m (Z.of_nat (length bytes)) d = Ret (le_value bytes) (advance (Z.of_nat (length bytes)) d).
Proof. intros Hd Hn Hs. unfold ReadUnsigned, mbind, prog_bind. by rewrite ReadBytes_stored. Qed.

Lemma advance_add n k d : advance k (advance n d) = advance (n + k) d.
Proof. destruct d. unfold advance, set_cur_offset. cbn. f_equal. word_eq. Qed.

Lemma ReadByte_stored d b :
  cursor_ok d → c (cur_offset_ d) = Some b → ReadUnsigned m 1 d = Ret b (advance 1 d).
Proof.
  intros Hd Hb. pose proof (ReadUnsigned_stored d [b] Hd) as E. cbn [length le_value] in E. change (Z.of_nat 1) with 1 in E.
  rewrite Z.add_0_r in E. apply E; [lia|]. apply stored_cons. done.
Qed.

Lemma low_bits b : Z.land b 0x7f = b mod 128.
Proof. by apply (land_ones_mod b 7). Qed.

Lemma more_bit b : 0 ≤ b < 256 → flag_set b 0x80 = (128 <=? b).
Proof.
  intros Hb. change 0x80 with (2 ^ 7). rewrite flag_set_mod by done. rewrite Z.testbit_odd, Z.shiftr_div_pow2 by done.
  change (2 ^ 7) with 128. destruct (Z.leb_spec 128 b).
  - assert (b / 128 = 1) as -> by (symmetry; apply Z.div_unique with (b - 128); lia). done.
  - by rewrite Z.div_small by lia.
Qed.

Lemma leb128_loop_spec fuel d l v last cur shift :
  leb128 l v last → cursor_ok d → cur_offset_ d + Z.of_nat (length l) < 2 ^ 64 → stored c (cur_offset_ d) l →
  0 ≤ shift → shift + 7 * (Z.of_nat (length l) - 1) < 64 → (length l ≤ fuel)%nat →
  leb128_loop m fuel cur shift d =
    Ret (u64 (cur + v * 2 ^ shift), shift + 7 * Z.of_nat (length l), last) (advance (Z.of_nat (length l)) d).
Proof.
  intros Hl. revert fuel d cur shift.
  induction Hl as [b Hb|b l v last Hb Hl IH]; intros [|fuel] d cur shift Hd Htop Hs Hsh Hlt Hf; cbn [length] in *; try lia;
    cbn [leb128_loop]; apply stored_cons in Hs as [Hb0 Hs].
  all: unfold mbind at 1, prog_bind at 1; rewrite (ReadByte_stored d b) by done.
  all: destruct (Z.geb_spec shift 64); [lia|]; rewrite low_bits, more_bit, Z.shiftl_mul_pow2 by lia.
  - destruct (Z.leb_spec 128 b); [lia|]. rewrite Z.mod_small by lia. unfold mret, prog_ret.
    change (7 * Z.of_nat 1) with 7. by autorewrite with words.
  - destruct (Z.leb_spec 128 b); [|lia].
    assert (b mod 128 = b - 128) as -> by (symmetry; apply Z.mod_unique with 1; lia).
    pose proof (leb128_range _ _ _ Hl) as (_ & Hlen & _).
    assert (cur_offset_ (advance 1 d) = cur_offset_ d + 1) as Ecur by (apply u64_small; unfold cursor_ok in Hd; lia).
    rewrite IH by (rewrite ?Ecur; try done; try apply advance_ok; lia). rewrite advance_add.
    rewrite (Z.pow_add_r 2 shift 7) by lia. change (2 ^ 7) with 128.
    replace (1 + Z.of_nat (length l)) with (Z.of_nat (S (length l))) by lia.
    replace (shift + 7 + 7 * Z.of_nat (length l)) with (shift + 7 * Z.of_nat (S (length l))) by lia.
    autorewrite with words. do 4 f_equal. lia.
Qed.

Lemma ReadULEB128_leb128 d l v last :
  leb128 l v last → cursor_ok d → cur_offset_ d + Z.of_nat (length l) < 2 ^ 64 → stored c (cur_offset_ d) l →
  (length l ≤ 10)%nat →
  ReadULEB128 m d = Ret (u64 v) (advance (Z.of_nat (length l)) d).
Proof.
  intros Hl Hd Htop Hs Hlen. unfold ReadULEB128, mbind, prog_bind, leb128_fuel.
  rewrite (leb128_loop_spec _ d l v last) by (done || lia). cbn. unfold mret, prog_ret. by rewrite Z.mul_1_r.
Qed.

Lemma ReadSLEB128_leb128 d l u last :
  leb128 l u last → cursor_ok d → cur_offset_ d + Z.of_nat (length l) < 2 ^ 64 → stored c (cur_offset_ d) l →
  (length l ≤ 10)%nat →
  ReadSLEB128 m d =
    if flag_set last 0x40 then
      if (length l <? 10)%nat
      then Ret (u - 128 ^ Z.of_nat (length l)) (advance (Z.of_nat (length l)) d) else Fault BadShift
    else Ret (as_signed 64 (u64 u)) (advance (Z.of_nat (length l)) d).
Proof.
  intros Hl Hd Htop Hs Hlen. unfold ReadSLEB128, mbind, prog_bind, leb128_fuel.
  rewrite (leb128_loop_spec _ d l u last) by (done || lia). change (2 ^ 0) with 1. rewrite !Z.add_0_l, Z.mul_1_r.
  destruct (flag_set last 64) eqn:Ef; [|done].
  pose proof (leb128_range _ _ _ Hl) as (Hu & Hpos & _).
  destruct (Nat.ltb_spec (length l) 10).
  - destruct (Z.geb_spec (7 * Z.of_nat (length l)) 64); [lia|]. unfold mret, prog_ret. f_equal.
    change 128 with (2 ^ 7) in *. rewrite <-Z.pow_mul_r in * by lia.
    set (k := 7 * Z.of_nat (length l)) in *. assert (0 < k < 64) as Hk by lia. clearbody k.
    by apply sign_extend.
  - destruct (Z.geb_spec (7 * Z.of_nat (length l)) 64); [done|lia].
Qed.
End reads.

(** ** Faults and the cursor *)

(** What any reader may do: only an overlong LEB128 number faults, and the
    cursor stays a 64-bit offset. *)
Section reader_wp.
Context {M : Type} `{Memory M} (m : M).

Definition shift_fault (f : fault) : Prop := f = BadShift.
Definition reads_safely {A} (p : prog DwarfMemory A) : Prop :=
  ∀ d, cursor_ok d → wp shift_fault p d (λ _ d', cursor_ok d') cursor_ok.

Lemma ReadUnsigned_safe n : reads_safely (ReadUnsigned m n).
Proof.
  intros d Hd. unfold ReadUnsigned. wp_steps. unfold wp, ReadBytes. destruct (ReadFully _ _ _); cbn; [apply u64_range|done].
Qed.

Lemma reads_bind {A B} (p : prog DwarfMemory A) (k : A → prog DwarfMemory B) :
  reads_safely p → (∀ a, reads_safely (k a)) → reads_safely (p ≫= k).
Proof. intros Hp Hk d Hd. wp_steps. eapply wp_mono; [by apply Hp|intros a d'; apply Hk|done]. Qed.

Lemma reads_ret {A} (a : A) : reads_safely (mret a).
Proof. by intros d Hd. Qed.

Lemma leb128_loop_safe fuel cur shift :
  0 ≤ shift → 70 ≤ shift + 7 * (Z.of_nat fuel - 1) → (0 < fuel)%nat → reads_safely (leb128_loop m fuel cur shift).
Proof.
  revert cur shift. induction fuel as [|fuel IH]; intros cur shift Hs Hf Hpos; [lia|]. cbn [leb128_loop].
  apply reads_bind; [apply ReadUnsigned_safe|]. intros byte d Hd. wp_steps; try done.
  apply IH; (done || lia).
Qed.

Lemma ReadULEB128_safe : reads_safely (ReadULEB128 m).
Proof.
  apply reads_bind; [apply leb128_loop_safe; unfold leb128_fuel; lia|]. intros [[??]?]. apply reads_ret.
Qed.

Lemma ReadSLEB128_safe : reads_safely (ReadSLEB128 m).
Proof.
  apply reads_bind; [apply leb128_loop_safe; unfold leb128_fuel; lia|]. intros [[??]?] d Hd. by wp_steps.
Qed.

Lemma ReadSigned_safe n : reads_safely (ReadSigned m n).
Proof. apply reads_bind; [apply ReadUnsigned_safe|]. intros. apply reads_ret. Qed.

#[local] Hint Resolve ReadUnsigned_safe ReadSigned_safe ReadULEB128_safe reads_ret : core.

Lemma ReadEncodedData_safe AT encoding : reads_safely (ReadEncodedData m AT encoding).
Proof.
  unfold ReadEncodedData.
  repeat match goal with |- reads_safely (if ?b then _ else _) => destruct b; [by auto|] end.
  destruct (_ =? _); [apply reads_bind; [apply ReadSLEB128_safe|auto]|].
  repeat match goal with |- reads_safely (if ?b then _ else _) => destruct b; [by auto|] end. by intros d Hd.
Qed.

Lemma AdjustEncodedValue_safe encoding value : reads_safely (AdjustEncodedValue (Z.land encoding 0x70) value).
Proof.
  intros d Hd. unfold wp, AdjustEncodedValue. rewrite application_low. change (negb (0 =? 0)) with false. cbn iota.
  repeat (case_match; simplify_eq; try done).
Qed.

Lemma ReadEncodedValue_safe AT encoding : reads_safely (ReadEncodedValue m AT encoding).
Proof.
  unfold ReadEncodedValue. repeat match goal with |- reads_safely (if ?b then _ else _) => destruct b end.
  - apply reads_ret.
  - intros d Hd. unfold wp. destruct (_ >=? _); [apply u64_range|]. apply ReadUnsigned_safe.
    apply (land_word 64); [done|]. apply u64_range.
  - apply reads_bind; [apply ReadEncodedData_safe|]. intros. apply AdjustEncodedValue_safe.
Qed.
End reader_wp.

(** *** Progress *)

(** Readers move the cursor forward: what they read is mapped, and nothing is
    mapped where it could wrap around. *)
Section reader_forward.
Context {M : Type} `{Memory M} (m : M) (c : Z → option Z) (limit : Z) `{!Reads limit m c}.
Hypothesis Hlimit : 8 ≤ limit.
Hypothesis Huser : user_half c.

Definition forward {A} (p : prog DwarfMemory A) : Prop := ∀ d, cursor_ok d →
  wp (λ _, True) p d (λ _ d', cur_offset_ d ≤ cur_offset_ d' ∧ cursor_ok d') (λ _, True).

Lemma ReadUnsigned_moves d n v d' :
  cursor_ok d → 0 < n ≤ 8 → ReadUnsigned m n d = Ret v d' → cur_offset_ d' = cur_offset_ d + n ∧ cursor_ok d'.
Proof.
  intros Hd Hn E. unfold ReadUnsigned, mbind, prog_bind in E. rewrite (ReadBytes_spec m c limit) in E by (done || lia). cbn zeta in E.
  destruct (decide _) as [Hl|]; [|done]. injection E as <- <-. unfold cursor_ok in *.
  destruct (valid_prefix_slice c (cur_offset_ d) (Z.to_nat n) (Z.to_nat n - 1) 1 Hl ltac:(lia)) as [_ Hlast].
  cbn in Hlast. destruct (c (cur_offset_ d + Z.of_nat (Z.to_nat n - 1))) as [b|] eqn:Eb; [|done].
  destruct (Z.lt_ge_cases (cur_offset_ d + n) (2 ^ 64)) as [Hlt|Hge].
  - cbn. rewrite u64_small by lia. lia.
  - rewrite Huser in Eb; [done|lia].
Qed.

Lemma ReadUnsigned_forward n : 0 < n ≤ 8 → forward (ReadUnsigned m n).
Proof.
  intros Hn d Hd. unfold wp. destruct (ReadUnsigned m n d) as [v d'| |] eqn:E; [|done..].
  apply ReadUnsigned_moves in E as [-> ?]; [|done..]. split; [lia|done].
Qed.

Lemma forward_bind {A B} (p : prog DwarfMemory A) (k : A → prog DwarfMemory B) :
  forward p → (∀ a, forward (k a)) → forward (p ≫= k).
Proof.
  intros Hp Hk d Hd. wp_steps. eapply wp_mono; [by apply Hp| |done]. intros a d' [Hle Hd'].
  eapply wp_mono; [by apply Hk| |done]. intros b d'' [? ?]. split; [lia|done].
Qed.

Lemma forward_ret {A} (a : A) : forward (mret a).
Proof. intros d Hd. by apply wp_ret. Qed.

Lemma leb128_loop_forward fuel cur shift : forward (leb128_loop m fuel cur shift).
Proof.
  revert cur shift. induction fuel as [|fuel IH]; intros cur shift; cbn [leb128_loop]; [done|].
  apply forward_bind; [by apply ReadUnsigned_forward|]. intros byte d Hd. wp_steps; [done|by apply IH|done].
Qed.

Lemma ReadULEB128_forward : forward (ReadULEB128 m).
Proof. apply forward_bind; [apply leb128_loop_forward|]. intros [[??]?]. apply forward_ret. Qed.
Lemma ReadSLEB128_forward : forward (ReadSLEB128 m).
Proof. apply forward_bind; [apply leb128_loop_forward|]. intros [[??]?] d Hd. by wp_steps. Qed.
Lemma ReadSigned_forward n : 0 < n ≤ 8 → forward (ReadSigned m n).
Proof. intros Hn. apply forward_bind; [by apply ReadUnsigned_forward|]. intros. apply forward_ret. Qed.

Lemma ReadEncodedValue_forward AT encoding : encoding ≠ DW_EH_PE_aligned → forward (ReadEncodedValue m AT encoding).
Proof.
  intros Ha. unfold ReadEncodedValue. destruct (_ =? _); [apply forward_ret|].
  destruct (Z.eqb_spec encoding DW_EH_PE_aligned); [done|]. apply forward_bind.
  - unfold ReadEncodedData.
    repeat match goal with |- forward (if ?b then _ else _) => destruct b end;
      try (by apply ReadUnsigned_forward; destruct AT); try (by apply ReadSigned_forward).
    + apply ReadULEB128_forward.
    + apply forward_bind; [apply ReadSLEB128_forward|intros; apply forward_ret].
    + done.
  - intros v d Hd. unfold wp, AdjustEncodedValue. rewrite application_low. change (negb (0 =? 0)) with false. cbn iota.
    repeat (case_match; simplify_eq; try done).
Qed.
End reader_forward.

(** *** Termination *)

Section reader_terminates.
Context {M : Type} `{Memory M} (m : M).

Lemma ReadBytes_terminates n : terminates (ReadBytes m n).
Proof. intros d. unfold ReadBytes. by destruct (ReadFully _ _ _). Qed.
#[local] Hint Resolve ReadBytes_terminates : terminates.

Lemma ReadUnsigned_terminates n : terminates (ReadUnsigned m n).
Proof. unfold ReadUnsigned. terminate. Qed.
#[local] Hint Resolve ReadUnsigned_terminates : terminates.

Lemma leb128_loop_terminates fuel cur shift :
  70 ≤ shift + 7 * (Z.of_nat fuel - 1) → (0 < fuel)%nat → terminates (leb128_loop m fuel cur shift).
Proof.
  revert cur shift. induction fuel as [|fuel IH]; intros cur shift Hf Hpos; [lia|]. cbn [leb128_loop].
  apply terminates_bind; [terminate|]. intros byte. destruct (Z.geb_spec shift 64); [terminate|].
  destruct (flag_set byte 128); [apply IH; lia|terminate].
Qed.

Lemma ReadULEB128_terminates : terminates (ReadULEB128 m).
Proof. apply terminates_bind; [apply leb128_loop_terminates; unfold leb128_fuel; lia|terminate]. Qed.
Lemma ReadSLEB128_terminates : terminates (ReadSLEB128 m).
Proof. apply terminates_bind; [apply leb128_loop_terminates; unfold leb128_fuel; lia|terminate]. Qed.
#[local] Hint Resolve ReadULEB128_terminates ReadSLEB128_terminates : terminates.

Lemma AdjustEncodedValue_terminates encoding value : terminates (AdjustEncodedValue encoding value).
Proof. intros d. unfold AdjustEncodedValue. repeat (case_match; try done). Qed.

Lemma ReadEncodedValue_terminates AT encoding : terminates (ReadEncodedValue m AT encoding).
Proof.
  unfold ReadEncodedValue. destruct (_ =? _); [terminate|]. destruct (_ =? _).
  - intros d. destruct (_ >=? _); [done|apply ReadUnsigned_terminates].
  - apply terminates_bind; [|intros; apply AdjustEncodedValue_terminates].
    unfold ReadEncodedData, ReadSigned. terminate.
Qed.
End reader_terminates.
#[export] Hint Resolve ReadBytes_terminates ReadUnsigned_terminates ReadULEB128_terminates ReadSLEB128_terminates
  ReadEncodedValue_terminates : terminates.

(** ** Round trips *)

Lemma ReadULEB128_encoded {M} `{Memory M} (m : M) c limit d v :
  Reads limit m c → 8 ≤ limit → 0 ≤ v < 2 ^ 64 → cursor_ok d → cur_offset_ d + 10 < 2 ^ 64 →
  stored c (cur_offset_ d) (encode_uleb 10 v) →
  ReadULEB128 m d = Ret v (advance (Z.of_nat (length (encode_uleb 10 v))) d).
Proof.
  intros Hm Hl Hv Hd Htop Hs. destruct (encode_uleb_leb128 10 v) as [last Hleb]; [cbn; lia..|].
  pose proof (encode_uleb_length 10 v). rewrite <-(u64_small v) at 1 by done.
  apply (ReadULEB128_leb128 m c limit Hl d _ v last); (done || lia).
Qed.

(** [ReadULEB128] reads back every 64-bit number from its unsigned LEB128
    encoding and leaves the cursor right behind it, whatever the memory object
    it reads through. *)
Theorem ReadULEB128_roundtrip {M} `{Memory M} (m : M) c limit d v :
  Reads limit m c → 8 ≤ limit → 0 ≤ v < 2 ^ 64 → cursor_ok d → cur_offset_ d + 10 < 2 ^ 64 →
  stored c (cur_offset_ d) (encode_uleb 10 v) →
  ReadULEB128 m d = Ret v (advance (Z.of_nat (length (encode_uleb 10 v))) d).
Proof. apply ReadULEB128_encoded. Qed.

Lemma ReadULEB128_roundtrip_witness :
  let m := mkBuffer (7 :: encode_uleb 10 (2 ^ 64 - 1)) in
  ReadULEB128 m (set_cur_offset 1 DwarfMemory_new) = Ret (2 ^ 64 - 1) (set_cur_offset 11 DwarfMemory_new).
Proof.
  intros m. apply (ReadULEB128_roundtrip m (list_contents (raw_ m)) 8); [apply _|done..].
Defined.

Lemma ReadSLEB128_encoded {M} `{Memory M} (m : M) c limit d v :
  Reads limit m c → 8 ≤ limit → - 2 ^ 63 ≤ v < 2 ^ 63 → cursor_ok d → cur_offset_ d + 10 < 2 ^ 64 →
  stored c (cur_offset_ d) (encode_sleb 10 v) →
  ReadSLEB128 m d =
    if v <? - 2 ^ 62 then Fault BadShift else Ret v (advance (Z.of_nat (length (encode_sleb 10 v))) d).
Proof.
  intros Hm Hl Hv Hd Htop Hs. destruct (encode_sleb_leb128 10 v) as (u & last & Hleb & Hf & Hu); [cbn; lia..|].
  pose proof (encode_sleb_length 10 v) as Hlen. pose proof (encode_sleb_short 8 10 v ltac:(lia)) as Hshort.
  change (64 * 128 ^ Z.of_nat 8) with (2 ^ 62) in Hshort. change (-64 * 128 ^ Z.of_nat 8) with (- 2 ^ 62) in Hshort.
  rewrite (ReadSLEB128_leb128 m c limit Hl d _ u last Hleb Hd ltac:(lia) Hs Hlen), Hf.
  destruct (Z.ltb_spec v 0) as [Hneg|Hpos].
  - destruct (Nat.ltb_spec (length (encode_sleb 10 v)) 10), (Z.ltb_spec v (- 2 ^ 62)); try lia; [|done]. by rewrite <-Hu.
  - rewrite Z.sub_0_r in Hu. subst u. destruct (Z.ltb_spec v (- 2 ^ 62)); [lia|].
    rewrite u64_small, as_signed_small by lia. done.
Qed.

(** [ReadSLEB128] reads back every signed number from [-2^62] up from its
    LEB128 encoding; for the numbers below, which take ten bytes, the sign
    extension shifts a 64-bit word by 70, which the language does not define. *)
Theorem ReadSLEB128_roundtrip {M} `{Memory M} (m : M) c limit d v :
  Reads limit m c → 8 ≤ limit → - 2 ^ 63 ≤ v < 2 ^ 63 → cursor_ok d → cur_offset_ d + 10 < 2 ^ 64 →
  stored c (cur_offset_ d) (encode_sleb 10 v) →
  ReadSLEB128 m d =
    if v <? - 2 ^ 62 then Fault BadShift else Ret v (advance (Z.of_nat (length (encode_sleb 10 v))) d).
Proof. apply ReadSLEB128_encoded. Qed.

Lemma ReadSLEB128_roundtrip_witness :
  let m := mkBuffer (encode_sleb 10 (-5) ++ encode_sleb 10 (- 2 ^ 63)) in
  ReadSLEB128 m DwarfMemory_new = Ret (-5) (advance 1 DwarfMemory_new) ∧
  ReadSLEB128 m (set_cur_offset 1 DwarfMemory_new) = Fault BadShift.
Proof.
  intros m. split.
  - rewrite (ReadSLEB128_roundtrip m (list_contents (raw_ m)) 8 _ (-5)); [done|apply _|done..].
  - rewrite (ReadSLEB128_roundtrip m (list_contents (raw_ m)) 8 _ (- 2 ^ 63)); [done|apply _|done..].
Defined.

(** ** Encoded pointers *)

(** The fixed-width formats: their size and whether they are signed. *)
Definition fixed_format (AT : AddressType) (encoding : Z) : option (Z * bool) :=
  let e := Z.land encoding 0x0f in
  if e =? DW_EH_PE_absptr then Some (sizeof AT, false)
  else if e =? DW_EH_PE_udata1 then Some (1, false) else if e =? DW_EH_PE_sdata1 then Some (1, true)
  else if e =? DW_EH_PE_udata2 then Some (2, false) else if e =? DW_EH_PE_sdata2 then Some (2, true)
  else if e =? DW_EH_PE_udata4 then Some (4, false) else if e =? DW_EH_PE_sdata4 then Some (4, true)
  else if e =? DW_EH_PE_udata8 then Some (8, false) else if e =? DW_EH_PE_sdata8 then Some (8, true)
  else None.

Definition representable (n : Z) (sign : bool) (v : Z) : Prop :=
  if sign then - 2 ^ (8 * n - 1) ≤ v < 2 ^ (8 * n - 1) else 0 ≤ v < 2 ^ (8 * n).

(** What the application adds; [None] where the reader does not know it. *)
Definition base_of (d : DwarfMemory) (encoding : Z) : option Z :=
  let a := Z.land encoding 0x70 in
  if a =? DW_EH_PE_absptr then Some 0
  else if a =? DW_EH_PE_pcrel then if pc_offset_ d =? INT64_MAX then None else Some (pc_offset_ d)
  else if a =? DW_EH_PE_textrel then if text_offset_ d =? no_offset then None else Some (text_offset_ d)
  else if a =? DW_EH_PE_datarel then if data_offset_ d =? no_offset then None else Some (data_offset_ d)
  else if a =? DW_EH_PE_funcrel then if func_offset_ d =? no_offset then None else Some (func_offset_ d)
  else None.

Lemma AdjustEncodedValue_spec encoding value d :
  0 ≤ value < 2 ^ 64 →
  AdjustEncodedValue (Z.land encoding 0x70) value d =
    match base_of d encoding with Some base => Ret (value ⊞ base) d | None => Err d end.
Proof.
  intros Hv. unfold AdjustEncodedValue, base_of. rewrite application_low. cbn [negb Z.eqb].
  repeat (case_match; cbn); try done. by rewrite Z.add_0_r, u64_small.
Qed.

Section pointers.
Context {M : Type} `{Memory M} (m : M) (c : Z → option Z) (limit : Z) `{!Reads limit m c}.
Hypothesis Hlimit : 8 ≤ limit.

Lemma ReadUnsigned_encoded d n v :
  cursor_ok d → (n ≤ 8)%nat → stored c (cur_offset_ d) (le_bytes n v) →
  ReadUnsigned m (Z.of_nat n) d = Ret (wrap (8 * Z.of_nat n) v) (advance (Z.of_nat n) d).
Proof.
  intros Hd Hn Hs. pose proof (ReadUnsigned_stored m c limit d (le_bytes n v)) as E.
  rewrite le_bytes_length, le_value_bytes in E. apply E; (done || lia).
Qed.

Lemma ReadSigned_encoded d n v :
  cursor_ok d → (0 < n ≤ 8)%nat → stored c (cur_offset_ d) (le_bytes n v) → representable (Z.of_nat n) true v →
  ReadSigned m (Z.of_nat n) d = Ret (u64 v) (advance (Z.of_nat n) d).
Proof.
  intros Hd Hn Hs Hv. unfold ReadSigned, mbind, prog_bind. rewrite (ReadUnsigned_encoded d n v) by (done || lia).
  rewrite as_signed_wrap; [done|lia|done].
Qed.

Lemma ReadEncodedData_encoded AT encoding d n sign v :
  fixed_format AT encoding = Some (n, sign) → representable n sign v →
  cursor_ok d → stored c (cur_offset_ d) (le_bytes (Z.to_nat n) v) →
  ReadEncodedData m AT encoding d = Ret (u64 v) (advance n d) ∧ n = GetEncodedSize AT encoding.
Proof.
  intros Hf Hv Hd Hs. unfold fixed_format, ReadEncodedData, GetEncodedSize in *. set (e := Z.land encoding 15) in *. clearbody e.
  assert (∀ k : nat, (k ≤ 8)%nat → n = Z.of_nat k → sign = false → ReadUnsigned m (Z.of_nat k) d = Ret (u64 v) (advance n d)) as Hu.
  { intros k Hk -> ->. rewrite Nat2Z.id in Hs. rewrite (ReadUnsigned_encoded d k v Hd Hk Hs). cbn [representable] in Hv.
    assert (2 ^ (8 * Z.of_nat k) ≤ 2 ^ 64) by (apply Z.pow_le_mono_r; lia).
    unfold wrap. rewrite Z.mod_small, u64_small by lia. done. }
  assert (∀ k : nat, (0 < k ≤ 8)%nat → n = Z.of_nat k → sign = true → ReadSigned m (Z.of_nat k) d = Ret (u64 v) (advance n d)) as Hsg.
  { intros k Hk -> ->. rewrite Nat2Z.id in Hs. by apply ReadSigned_encoded. }
  clear Hv Hs. revert Hf.
  repeat match goal with
  | |- (if Z.eqb e ?x then _ else _) = _ → _ =>
      destruct (Z.eqb_spec e x) as [->|]; [intros [= En Es]; split; [cbn|by subst]|]
  end; try done.
  - destruct AT; cbn in En; [apply (Hu 4%nat)|apply (Hu 8%nat)]; (done || lia).
  - apply (Hu 1%nat); (done || lia).
  - apply (Hsg 1%nat); (done || lia).
  - apply (Hu 2%nat); (done || lia).
  - apply (Hsg 2%nat); (done || lia).
  - apply (Hu 4%nat); (done || lia).
  - apply (Hsg 4%nat); (done || lia).
  - apply (Hu 8%nat); (done || lia).
  - apply (Hsg 8%nat); (done || lia).
Qed.
End pointers.

(** A pointer written in any fixed-width format relative to any base the
    reader knows is read back: [ReadEncodedValue] returns the base plus the
    stored offset, signed offsets included, and consumes exactly
    [GetEncodedSize] bytes; with a base it does not know it fails. *)
Theorem ReadEncodedValue_roundtrip {M} `{Memory M} (m : M) c limit AT encoding d n sign v :
  Reads limit m c → 8 ≤ limit → cursor_ok d →
  encoding ≠ DW_EH_PE_omit → encoding ≠ DW_EH_PE_aligned →
  fixed_format AT encoding = Some (n, sign) → representable n sign v →
  stored c (cur_offset_ d) (le_bytes (Z.to_nat n) v) →
  n = GetEncodedSize AT encoding ∧
  ReadEncodedValue m AT encoding d =
    match base_of d encoding with
    | Some base => Ret (v ⊞ base) (advance n d)
    | None => Err (advance n d)
    end.
Proof.
  intros Hm Hl Hd Ho Ha Hf Hv Hs.
  destruct (ReadEncodedData_encoded m c limit Hl AT encoding d n sign v Hf Hv Hd Hs) as [Er En]. split; [done|].
  unfold ReadEncodedValue. destruct (Z.eqb_spec encoding DW_EH_PE_omit); [done|].
  destruct (Z.eqb_spec encoding DW_EH_PE_aligned); [done|]. unfold mbind, prog_bind. rewrite Er.
  rewrite AdjustEncodedValue_spec by apply u64_range. unfold base_of, advance, set_cur_offset. cbn.
  repeat case_match; try done; by autorewrite with words.
Qed.

Lemma ReadEncodedValue_roundtrip_witness :
  let m := mkBuffer (le_bytes 4 (-16)) in
  let d := set_pc_offset 0x1000 DwarfMemory_new in
  ReadEncodedValue m uint64_t 0x1b d = Ret 0xff0 (advance 4 d) ∧
  ReadEncodedValue m uint64_t 0x3b d = Err (advance 4 d).
Proof.
  intros m d. split.
  - apply (ReadEncodedValue_roundtrip m (list_contents (raw_ m)) 8 uint64_t 0x1b d 4 true (-16)); [apply _|done..].
  - apply (ReadEncodedValue_roundtrip m (list_contents (raw_ m)) 8 uint64_t 0x3b d 4 true (-16)); [apply _|done..].
Defined.
