(* ===== verification/DwarfOp.v ===== *)
(** * DWARF expressions

    unwindstack/DwarfOp.cpp, DwarfOp.h and RegsInfo.h: the table of operations,
    the stack machine that evaluates an expression, and its disassembler. *)
From stdpp Require Import pretty.
From S2P Require Import Prelude UnwindMemory Outcome DwarfMemory.

(** ** The table of operations *)

Inductive DwarfOpHandleFunc :=
| OP_ILLEGAL | OP_DEREF | OP_DEREF_SIZE | OP_PUSH | OP_DUP | OP_DROP | OP_OVER | OP_PICK | OP_SWAP | OP_ROT
| OP_ABS | OP_AND | OP_DIV | OP_MINUS | OP_MOD | OP_MUL | OP_NEG | OP_NOT | OP_OR | OP_PLUS | OP_PLUS_UCONST
| OP_SHL | OP_SHR | OP_SHRA | OP_XOR | OP_BRA | OP_EQ | OP_GE | OP_GT | OP_LE | OP_LT | OP_NE | OP_SKIP
| OP_LIT | OP_REG | OP_REGX | OP_BREG | OP_BREGX | OP_NOP | OP_NOT_IMPLEMENTED.
#[global] Instance DwarfOpHandleFunc_eq_dec : EqDecision DwarfOpHandleFunc.
Proof. solve_decision. Defined.

Record OpCallback := Op {
  name : string; handle_func : DwarfOpHandleFunc; num_required_stack_values : Z; num_operands : Z;
  operands : list Z }.

Definition ops_00 : list OpCallback := [
  Op "" OP_ILLEGAL 0 0 [];
  Op "" OP_ILLEGAL 0 0 [];
  Op "" OP_ILLEGAL 0 0 [];
  Op "DW_OP_addr" OP_PUSH 0 1 [DW_EH_PE_absptr];
  Op "" OP_ILLEGAL 0 0 [];
  Op "" OP_ILLEGAL 0 0 [];
  Op "DW_OP_deref" OP_DEREF 1 0 [];
  Op "" OP_ILLEGAL 0 0 [];
  Op "DW_OP_const1u" OP_PUSH 0 1 [DW_EH_PE_udata1];
  Op "DW_OP_const1s" OP_PUSH 0 1 [DW_EH_PE_sdata1];
  Op "DW_OP_const2u" OP_PUSH 0 1 [DW_EH_PE_udata2];
  Op "DW_OP_const2s" OP_PUSH 0 1 [DW_EH_PE_sdata2];
  Op "DW_OP_const4u" OP_PUSH 0 1 [DW_EH_PE_udata4];
  Op "DW_OP_const4s" OP_PUSH 0 1 [DW_EH_PE_sdata4];
  Op "DW_OP_const8u" OP_PUSH 0 1 [DW_EH_PE_udata8];
  Op "DW_OP_const8s" OP_PUSH 0 1 [DW_EH_PE_sdata8]].
Definition ops_10 : list OpCallback := [
  Op "DW_OP_constu" OP_PUSH 0 1 [DW_EH_PE_uleb128];
  Op "DW_OP_consts" OP_PUSH 0 1 [DW_EH_PE_sleb128];
  Op "DW_OP_dup" OP_DUP 1 0 [];
  Op "DW_OP_drop" OP_DROP 1 0 [];
  Op "DW_OP_over" OP_OVER 2 0 [];
  Op "DW_OP_pick" OP_PICK 0 1 [DW_EH_PE_udata1];
  Op "DW_OP_swap" OP_SWAP 2 0 [];
  Op "DW_OP_rot" OP_ROT 3 0 [];
  Op "DW_OP_xderef" OP_NOT_IMPLEMENTED 2 0 [];
  Op "DW_OP_abs" OP_ABS 1 0 [];
  Op "DW_OP_and" OP_AND 2 0 [];
  Op "DW_OP_div" OP_DIV 2 0 [];
  Op "DW_OP_minus" OP_MINUS 2 0 [];
  Op "DW_OP_mod" OP_MOD 2 0 [];
  Op "DW_OP_mul" OP_MUL 2 0 [];
  Op "DW_OP_neg" OP_NEG 1 0 []].
Definition ops_20 : list OpCallback := [
  Op "DW_OP_not" OP_NOT 1 0 [];
  Op "DW_OP_or" OP_OR 2 0 [];
  Op "DW_OP_plus" OP_PLUS 2 0 [];
  Op "DW_OP_plus_uconst" OP_PLUS_UCONST 1 1 [DW_EH_PE_uleb128];
  Op "DW_OP_shl" OP_SHL 2 0 [];
  Op "DW_OP_shr" OP_SHR 2 0 [];
  Op "DW_OP_shra" OP_SHRA 2 0 [];
  Op "DW_OP_xor" OP_XOR 2 0 [];
  Op "DW_OP_bra" OP_BRA 1 1 [DW_EH_PE_sdata2];
  Op "DW_OP_eq" OP_EQ 2 0 [];
  Op "DW_OP_ge" OP_GE 2 0 [];
  Op "DW_OP_gt" OP_GT 2 0 [];
  Op "DW_OP_le" OP_LE 2 0 [];
  Op "DW_OP_lt" OP_LT 2 0 [];
  Op "DW_OP_ne" OP_NE 2 0 [];
  Op "DW_OP_skip" OP_SKIP 0 1 [DW_EH_PE_sdata2]].
Definition ops_30 : list OpCallback := [
  Op "DW_OP_lit0" OP_LIT 0 0 [];
  Op "DW_OP_lit1" OP_LIT 0 0 [];
  Op "DW_OP_lit2" OP_LIT 0 0 [];
  Op "DW_OP_lit3" OP_LIT 0 0 [];
  Op "DW_OP_lit4" OP_LIT 0 0 [];
  Op "DW_OP_lit5" OP_LIT 0 0 [];
  Op "DW_OP_lit6" OP_LIT 0 0 [];
  Op "DW_OP_lit7" OP_LIT 0 0 [];
  Op "DW_OP_lit8" OP_LIT 0 0 [];
  Op "DW_OP_lit9" OP_LIT 0 0 [];
  Op "DW_OP_lit10" OP_LIT 0 0 [];
  Op "DW_OP_lit11" OP_LIT 0 0 [];
  Op "DW_OP_lit12" OP_LIT 0 0 [];
  Op "DW_OP_lit13" OP_LIT 0 0 [];
  Op "DW_OP_lit14" OP_LIT 0 0 [];
  Op "DW_OP_lit15" OP_LIT 0 0 []].
Definition ops_40 : list OpCallback := [
  Op "DW_OP_lit16" OP_LIT 0 0 [];
  Op "DW_OP_lit17" OP_LIT 0 0 [];
  Op "DW_OP_lit18" OP_LIT 0 0 [];
  Op "DW_OP_lit19" OP_LIT 0 0 [];
  Op "DW_OP_lit20" OP_LIT 0 0 [];
  Op "DW_OP_lit21" OP_LIT 0 0 [];
  Op "DW_OP_lit22" OP_LIT 0 0 [];
  Op "DW_OP_lit23" OP_LIT 0 0 [];
  Op "DW_OP_lit24" OP_LIT 0 0 [];
  Op "DW_OP_lit25" OP_LIT 0 0 [];
  Op "DW_OP_lit26" OP_LIT 0 0 [];
  Op "DW_OP_lit27" OP_LIT 0 0 [];
  Op "DW_OP_lit28" OP_LIT 0 0 [];
  Op "DW_OP_lit29" OP_LIT 0 0 [];
  Op "DW_OP_lit30" OP_LIT 0 0 [];
  Op "DW_OP_lit31" OP_LIT 0 0 []].
Definition ops_50 : list OpCallback := [
  Op "DW_OP_reg0" OP_REG 0 0 [];
  Op "DW_OP_reg1" OP_REG 0 0 [];
  Op "DW_OP_reg2" OP_REG 0 0 [];
  Op "DW_OP_reg3" OP_REG 0 0 [];
  Op "DW_OP_reg4" OP_REG 0 0 [];
  Op "DW_OP_reg5" OP_REG 0 0 [];
  Op "DW_OP_reg6" OP_REG 0 0 [];
  Op "DW_OP_reg7" OP_REG 0 0 [];
  Op "DW_OP_reg8" OP_REG 0 0 [];
  Op "DW_OP_reg9" OP_REG 0 0 [];
  Op "DW_OP_reg10" OP_REG 0 0 [];
  Op "DW_OP_reg11" OP_REG 0 0 [];
  Op "DW_OP_reg12" OP_REG 0 0 [];
  Op "DW_OP_reg13" OP_REG 0 0 [];
  Op "DW_OP_reg14" OP_REG 0 0 [];
  Op "DW_OP_reg15" OP_REG 0 0 []].
Definition ops_60 : list OpCallback := [
  Op "DW_OP_reg16" OP_REG 0 0 [];
  Op "DW_OP_reg17" OP_REG 0 0 [];
  Op "DW_OP_reg18" OP_REG 0 0 [];
  Op "DW_OP_reg19" OP_REG 0 0 [];
  Op "DW_OP_reg20" OP_REG 0 0 [];
  Op "DW_OP_reg21" OP_REG 0 0 [];
  Op "DW_OP_reg22" OP_REG 0 0 [];
  Op "DW_OP_reg23" OP_REG 0 0 [];
  Op "DW_OP_reg24" OP_REG 0 0 [];
  Op "DW_OP_reg25" OP_REG 0 0 [];
  Op "DW_OP_reg26" OP_REG 0 0 [];
  Op "DW_OP_reg27" OP_REG 0 0 [];
  Op "DW_OP_reg28" OP_REG 0 0 [];
  Op "DW_OP_reg29" OP_REG 0 0 [];
  Op "DW_OP_reg30" OP_REG 0 0 [];
  Op "DW_OP_reg31" OP_REG 0 0 []].
Definition ops_70 : list OpCallback := [
  Op "DW_OP_breg0" OP_BREG 0 1 [DW_EH_PE_sleb128];
  Op "DW_OP_breg1" OP_BREG 0 1 [DW_EH_PE_sleb128];
  Op "DW_OP_breg2" OP_BREG 0 1 [DW_EH_PE_sleb128];
  Op "DW_OP_breg3" OP_BREG 0 1 [DW_EH_PE_sleb128];
  Op "DW_OP_breg4" OP_BREG 0 1 [DW_EH_PE_sleb128];
  Op "DW_OP_breg5" OP_BREG 0 1 [DW_EH_PE_sleb128];
  Op "DW_OP_breg6" OP_BREG 0 1 [DW_EH_PE_sleb128];
  Op "DW_OP_breg7" OP_BREG 0 1 [DW_EH_PE_sleb128];
  Op "DW_OP_breg8" OP_BREG 0 1 [DW_EH_PE_sleb128];
  Op "DW_OP_breg9" OP_BREG 0 1 [DW_EH_PE_sleb128];
  Op "DW_OP_breg10" OP_BREG 0 1 [DW_EH_PE_sleb128];
  Op "DW_OP_breg11" OP_BREG 0 1 [DW_EH_PE_sleb128];
  Op "DW_OP_breg12" OP_BREG 0 1 [DW_EH_PE_sleb128];
  Op "DW_OP_breg13" OP_BREG 0 1 [DW_EH_PE_sleb128];
  Op "DW_OP_breg14" OP_BREG 0 1 [DW_EH_PE_sleb128];
  Op "DW_OP_breg15" OP_BREG 0 1 [DW_EH_PE_sleb128]].
Definition ops_80 : list OpCallback := [
  Op "DW_OP_breg16" OP_BREG 0 1 [DW_EH_PE_sleb128];
  Op "DW_OP_breg17" OP_BREG 0 1 [DW_EH_PE_sleb128];
  Op "DW_OP_breg18" OP_BREG 0 1 [DW_EH_PE_sleb128];
  Op "DW_OP_breg19" OP_BREG 0 1 [DW_EH_PE_sleb128];
  Op "DW_OP_breg20" OP_BREG 0 1 [DW_EH_PE_sleb128];
  Op "DW_OP_breg21" OP_BREG 0 1 [DW_EH_PE_sleb128];
  Op "DW_OP_breg22" OP_BREG 0 1 [DW_EH_PE_sleb128];
  Op "DW_OP_breg23" OP_BREG 0 1 [DW_EH_PE_sleb128];
  Op "DW_OP_breg24" OP_BREG 0 1 [DW_EH_PE_sleb128];
  Op "DW_OP_breg25" OP_BREG 0 1 [DW_EH_PE_sleb128];
  Op "DW_OP_breg26" OP_BREG 0 1 [DW_EH_PE_sleb128];
  Op "DW_OP_breg27" OP_BREG 0 1 [DW_EH_PE_sleb128];
  Op "DW_OP_breg28" OP_BREG 0 1 [DW_EH_PE_sleb128];
  Op "DW_OP_breg29" OP_BREG 0 1 [DW_EH_PE_sleb128];
  Op "DW_OP_breg30" OP_BREG 0 1 [DW_EH_PE_sleb128];
  Op "DW_OP_breg31" OP_BREG 0 1 [DW_EH_PE_sleb128]].
Definition ops_90 : list OpCallback := [
  Op "DW_OP_regx" OP_REGX 0 1 [DW_EH_PE_uleb128];
  Op "DW_OP_fbreg" OP_NOT_IMPLEMENTED 0 1 [DW_EH_PE_sleb128];
  Op "DW_OP_bregx" OP_BREGX 0 2 [DW_EH_PE_uleb128; DW_EH_PE_sleb128];
  Op "DW_OP_piece" OP_NOT_IMPLEMENTED 0 1 [DW_EH_PE_uleb128];
  Op "DW_OP_deref_size" OP_DEREF_SIZE 1 1 [DW_EH_PE_udata1];
  Op "DW_OP_xderef_size" OP_NOT_IMPLEMENTED 0 1 [DW_EH_PE_udata1];
  Op "DW_OP_nop" OP_NOP 0 0 [];
  Op "DW_OP_push_object_address" OP_NOT_IMPLEMENTED 0 0 [];
  Op "DW_OP_call2" OP_NOT_IMPLEMENTED 0 1 [DW_EH_PE_udata2];
  Op "DW_OP_call4" OP_NOT_IMPLEMENTED 0 1 [DW_EH_PE_udata4];
  Op "DW_OP_call_ref" OP_NOT_IMPLEMENTED 0 0 [];
  Op "DW_OP_form_tls_address" OP_NOT_IMPLEMENTED 0 0 [];
  Op "DW_OP_call_frame_cfa" OP_NOT_IMPLEMENTED 0 0 [];
  Op "DW_OP_bit_piece" OP_NOT_IMPLEMENTED 0 2 [DW_EH_PE_uleb128; DW_EH_PE_uleb128];
  Op "DW_OP_implicit_value" OP_NOT_IMPLEMENTED 0 1 [DW_EH_PE_uleb128];
  Op "DW_OP_stack_value" OP_NOT_IMPLEMENTED 1 0 []].
Definition ops_a0 : list OpCallback := [
  Op "" OP_ILLEGAL 0 0 [];
  Op "" OP_ILLEGAL 0 0 [];
  Op "" OP_ILLEGAL 0 0 [];
  Op "" OP_ILLEGAL 0 0 [];
  Op "" OP_ILLEGAL 0 0 [];
  Op "" OP_ILLEGAL 0 0 [];
  Op "" OP_ILLEGAL 0 0 [];
  Op "" OP_ILLEGAL 0 0 [];
  Op "" OP_ILLEGAL 0 0 [];
  Op "" OP_ILLEGAL 0 0 [];
  Op "" OP_ILLEGAL 0 0 [];
  Op "" OP_ILLEGAL 0 0 [];
  Op "" OP_ILLEGAL 0 0 [];
  Op "" OP_ILLEGAL 0 0 [];
  Op "" OP_ILLEGAL 0 0 [];
  Op "" OP_ILLEGAL 0 0 []].
Definition ops_b0 : list OpCallback := [
  Op "" OP_ILLEGAL 0 0 [];
  Op "" OP_ILLEGAL 0 0 [];
  Op "" OP_ILLEGAL 0 0 [];
  Op "" OP_ILLEGAL 0 0 [];
  Op "" OP_ILLEGAL 0 0 [];
  Op "" OP_ILLEGAL 0 0 [];
  Op "" OP_ILLEGAL 0 0 [];
  Op "" OP_ILLEGAL 0 0 [];
  Op "" OP_ILLEGAL 0 0 [];
  Op "" OP_ILLEGAL 0 0 [];
  Op "" OP_ILLEGAL 0 0 [];
  Op "" OP_ILLEGAL 0 0 [];
  Op "" OP_ILLEGAL 0 0 [];
  Op "" OP_ILLEGAL 0 0 [];
  Op "" OP_ILLEGAL 0 0 [];
  Op "" OP_ILLEGAL 0 0 []].
Definition ops_c0 : list OpCallback := [
  Op "" OP_ILLEGAL 0 0 [];
  Op "" OP_ILLEGAL 0 0 [];
  Op "" OP_ILLEGAL 0 0 [];
  Op "" OP_ILLEGAL 0 0 [];
  Op "" OP_ILLEGAL 0 0 [];
  Op "" OP_ILLEGAL 0 0 [];
  Op "" OP_ILLEGAL 0 0 [];
  Op "" OP_ILLEGAL 0 0 [];
  Op "" OP_ILLEGAL 0 0 [];
  Op "" OP_ILLEGAL 0 0 [];
  Op "" OP_ILLEGAL 0 0 [];
  Op "" OP_ILLEGAL 0 0 [];
  Op "" OP_ILLEGAL 0 0 [];
  Op "" OP_ILLEGAL 0 0 [];
  Op "" OP_ILLEGAL 0 0 [];
  Op "" OP_ILLEGAL 0 0 []].
Definition ops_d0 : list OpCallback := [
  Op "" OP_ILLEGAL 0 0 [];
  Op "" OP_ILLEGAL 0 0 [];
  Op "" OP_ILLEGAL 0 0 [];
  Op "" OP_ILLEGAL 0 0 [];
  Op "" OP_ILLEGAL 0 0 [];
  Op "" OP_ILLEGAL 0 0 [];
  Op "" OP_ILLEGAL 0 0 [];
  Op "" OP_ILLEGAL 0 0 [];
  Op "" OP_ILLEGAL 0 0 [];
  Op "" OP_ILLEGAL 0 0 [];
  Op "" OP_ILLEGAL 0 0 [];
  Op "" OP_ILLEGAL 0 0 [];
  Op "" OP_ILLEGAL 0 0 [];
  Op "" OP_ILLEGAL 0 0 [];
  Op "" OP_ILLEGAL 0 0 [];
  Op "" OP_ILLEGAL 0 0 []].
Definition ops_e0 : list OpCallback := [
  Op "" OP_ILLEGAL 0 0 [];
  Op "" OP_ILLEGAL 0 0 [];
  Op "" OP_ILLEGAL 0 0 [];
  Op "" OP_ILLEGAL 0 0 [];
  Op "" OP_ILLEGAL 0 0 [];
  Op "" OP_ILLEGAL 0 0 [];
  Op "" OP_ILLEGAL 0 0 [];
  Op "" OP_ILLEGAL 0 0 [];
  Op "" OP_ILLEGAL 0 0 [];
  Op "" OP_ILLEGAL 0 0 [];
  Op "" OP_ILLEGAL 0 0 [];
  Op "" OP_ILLEGAL 0 0 [];
  Op "" OP_ILLEGAL 0 0 [];
  Op "" OP_ILLEGAL 0 0 [];
  Op "" OP_ILLEGAL 0 0 [];
  Op "" OP_ILLEGAL 0 0 []].
Definition ops_f0 : list OpCallback := [
  Op "" OP_ILLEGAL 0 0 [];
  Op "" OP_ILLEGAL 0 0 [];
  Op "" OP_ILLEGAL 0 0 [];
  Op "" OP_ILLEGAL 0 0 [];
  Op "" OP_ILLEGAL 0 0 [];
  Op "" OP_ILLEGAL 0 0 [];
  Op "" OP_ILLEGAL 0 0 [];
  Op "" OP_ILLEGAL 0 0 [];
  Op "" OP_ILLEGAL 0 0 [];
  Op "" OP_ILLEGAL 0 0 [];
  Op "" OP_ILLEGAL 0 0 [];
  Op "" OP_ILLEGAL 0 0 [];
  Op "" OP_ILLEGAL 0 0 [];
  Op "" OP_ILLEGAL 0 0 [];
  Op "" OP_ILLEGAL 0 0 [];
  Op "" OP_ILLEGAL 0 0 []].

Definition kCallbackTable : list OpCallback :=
  ops_00 ++ ops_10 ++ ops_20 ++ ops_30 ++ ops_40 ++ ops_50 ++ ops_60 ++ ops_70 ++
  ops_80 ++ ops_90 ++ ops_a0 ++ ops_b0 ++ ops_c0 ++ ops_d0 ++ ops_e0 ++ ops_f0.

(** [&kCallbackTable[cur_op]] for a byte. *)
Definition op_at (cur_op : Z) : OpCallback := nth (Z.to_nat cur_op) kCallbackTable (Op "" OP_ILLEGAL 0 0 []).
#[global] Arguments op_at : simpl never.

(** The encodings of the operands an operation reads. *)
Definition operand_encodings (op : OpCallback) : list Z :=
  take (Z.to_nat (num_operands op)) (operands op ++ [0; 0]).

(** ** Errors and registers *)

Inductive DwarfErrorCode :=
| DWARF_ERROR_NONE | DWARF_ERROR_MEMORY_INVALID | DWARF_ERROR_ILLEGAL_VALUE | DWARF_ERROR_ILLEGAL_STATE
| DWARF_ERROR_STACK_INDEX_NOT_VALID | DWARF_ERROR_NOT_IMPLEMENTED | DWARF_ERROR_TOO_MANY_ITERATIONS
| DWARF_ERROR_CFA_NOT_DEFINED | DWARF_ERROR_UNSUPPORTED_VERSION | DWARF_ERROR_NO_FDES.
#[global] Instance DwarfErrorCode_eq_dec : EqDecision DwarfErrorCode.
Proof. solve_decision. Defined.
Record DwarfErrorData := mkError { code : DwarfErrorCode; address : Z }.
#[global] Instance DwarfErrorData_updatable : Updatable DwarfErrorData := λ e, mkError (code e) (address e).

Definition MAX_REGISTERS : Z := 64.

(** The registers being unwound, and the values of those already overwritten. *)
Record RegsInfo := mkRegsInfo { regs : list Z; saved_reg_map : Z; saved_regs : list Z }.
#[global] Instance RegsInfo_updatable : Updatable RegsInfo := λ r, mkRegsInfo (regs r) (saved_reg_map r) (saved_regs r).

Definition Total (r : RegsInfo) : Z := u16 (Z.of_nat (length (regs r))).

Definition IsSaved {S} (reg : Z) (r : RegsInfo) : prog S bool :=
  if reg >? MAX_REGISTERS then undef Aborted
  else if reg >=? 64 then undef BadShift
  else mret (flag_set (saved_reg_map r) (Z.shiftl 1 reg)).

(** An element of a vector or an array. *)
Definition element {S} (l : list Z) (i : Z) : prog S Z :=
  match l !! Z.to_nat i with Some v => mret v | None => undef OutOfRange end.

Definition RegsInfo_Get {S} (reg : Z) (r : RegsInfo) : prog S Z :=
  saved ← IsSaved reg r;
  if saved : bool then element (saved_regs r) reg else element (regs r) reg.

(** [*Save(reg) = value] *)
Definition RegsInfo_Save (reg value : Z) : prog RegsInfo unit :=
  r ← get;
  if reg >=? MAX_REGISTERS then undef Aborted
  else
    old ← element (regs r) reg;
    modify (λ r, mkRegsInfo (<[Z.to_nat reg := value]> (regs r)) (Z.lor (saved_reg_map r) (u64 (Z.shiftl 1 reg)))
                   (<[Z.to_nat reg := old]> (saved_regs r))).

(** ** The machine *)

Record DwarfOp := mkDwarfOp {
  op_memory : DwarfMemory; dex_pc_set_ : bool; is_register_ : bool; last_error_ : DwarfErrorData;
  cur_op_ : Z; operands_ : list Z; stack_ : list Z }.
#[global] Instance DwarfOp_updatable : Updatable DwarfOp := λ s,
  mkDwarfOp (op_memory s) (dex_pc_set_ s) (is_register_ s) (last_error_ s) (cur_op_ s) (operands_ s) (stack_ s).

(** [cur_op_] is not initialized; it is written before it is read. *)
Definition DwarfOp_new (d : DwarfMemory) : DwarfOp :=
  mkDwarfOp d false false (mkError DWARF_ERROR_NONE 0) 0 [] [].

Definition set_code (c : DwarfErrorCode) (s : DwarfOp) : DwarfOp :=
  s <| last_error_ := (last_error_ s) <| code := c |> |>.
Definition set_error (c : DwarfErrorCode) (a : Z) (s : DwarfOp) : DwarfOp := s <| last_error_ := mkError c a |>.
(** [last_error_.code = c; return false;] *)
Definition fail_with {A} (c : DwarfErrorCode) : prog DwarfOp A := λ s, Err (set_code c s).
Definition fail_at {A} (a : Z) : prog DwarfOp A := λ s, Err (set_error DWARF_ERROR_MEMORY_INVALID a s).

(** A use of the reader; its failure is an invalid address. *)
Definition reading {A} (m : prog DwarfMemory A) : prog DwarfOp A :=
  on_error (zoom op_memory (λ d s, s <| op_memory := d |>) m)
    (λ s, set_error DWARF_ERROR_MEMORY_INVALID (cur_offset_ (op_memory s)) s).

Definition StackAt (index : Z) : prog DwarfOp Z := s ← get; element (stack_ s) index.
Definition StackPop : prog DwarfOp Z :=
  s ← get;
  match stack_ s with
  | [] => undef OutOfRange
  | value :: stack => modify (λ s, s <| stack_ := stack |>);; mret value
  end.
Definition push_front (value : Z) : prog DwarfOp unit := modify (λ s, s <| stack_ := value :: stack_ s |>).
(** [stack_[index] = value] *)
Definition stack_set (index : nat) (value : Z) : prog DwarfOp unit :=
  s ← get;
  if (index <? length (stack_ s))%nat then modify (λ s, s <| stack_ := <[index := value]> (stack_ s) |>)
  else undef OutOfRange.
Definition OperandAt (index : Z) : prog DwarfOp Z := s ← get; element (operands_ s) index.

Definition bool_to_dwarf_bool (value : bool) : Z := if value then 1 else 0.

(** [%02x] of a byte. *)
Definition hex_digit (d : Z) : string :=
  String (ascii_of_N (Z.to_N (if d <? 10 then 48 + d else 87 + d))) EmptyString.
Definition hex2 (byte : Z) : string := hex_digit (byte / 16) +:+ hex_digit (byte mod 16).

Section machine.
Context (AT : AddressType) {M R : Type} `{Memory M} `{Memory R} (memory_ : M) (regular_memory_ : R).
Variable regs_info_ : RegsInfo.

Definition to_address (z : Z) : Z := wrap (bits_of AT) z.
Definition to_signed (z : Z) : Z := as_signed (bits_of AT) z.
Definition SIGNED_MIN : Z := - 2 ^ (bits_of AT - 1).

Definition op_deref : prog DwarfOp unit :=
  addr ← StackPop;
  match ReadFully regular_memory_ addr (sizeof AT) with
  | None => fail_at addr
  | Some bytes => push_front (le_value bytes)
  end.

Definition op_deref_size : prog DwarfOp unit :=
  bytes_to_read ← OperandAt 0;
  if (bytes_to_read >? sizeof AT) || (bytes_to_read =? 0) then fail_with DWARF_ERROR_ILLEGAL_VALUE
  else
    addr ← StackPop;
    match ReadFully regular_memory_ addr bytes_to_read with
    | None => fail_at addr
    | Some bytes => push_front (le_value bytes)
    end.

Definition op_push : prog DwarfOp unit :=
  modify (λ s, s <| stack_ := fold_left (λ stack operand, operand :: stack) (operands_ s) (stack_ s) |>).
Definition op_dup : prog DwarfOp unit := value ← StackAt 0; push_front value.
Definition op_drop : prog DwarfOp unit := StackPop;; mret ().
Definition op_over : prog DwarfOp unit := value ← StackAt 1; push_front value.
Definition op_pick : prog DwarfOp unit :=
  index ← OperandAt 0;
  s ← get;
  if index >=? Z.of_nat (length (stack_ s)) then fail_with DWARF_ERROR_STACK_INDEX_NOT_VALID
  else value ← StackAt index; push_front value.
Definition op_swap : prog DwarfOp unit :=
  old_value ← StackAt 0; second ← StackAt 1; stack_set 0 second;; stack_set 1 old_value.
Definition op_rot : prog DwarfOp unit :=
  top ← StackAt 0;
  second ← StackAt 1; stack_set 0 second;;
  third ← StackAt 2; stack_set 1 third;;
  stack_set 2 top.
Definition op_abs : prog DwarfOp unit :=
  top ← StackAt 0;
  let signed_value := to_signed top in
  if signed_value <? 0 then
    if signed_value =? SIGNED_MIN then undef SignedOverflow else stack_set 0 (to_address (- signed_value))
  else stack_set 0 (to_address signed_value).

(** The binary operations pop one operand and replace the other. *)
Definition binary (f : Z → Z → prog DwarfOp Z) : prog DwarfOp unit :=
  top ← StackPop; second ← StackAt 0; value ← f second top; stack_set 0 value.

Definition op_and : prog DwarfOp unit := binary (λ second top, mret (Z.land second top)).
Definition op_div : prog DwarfOp unit :=
  top ← StackPop;
  if top =? 0 then fail_with DWARF_ERROR_ILLEGAL_VALUE
  else
    let signed_divisor := to_signed top in
    second ← StackAt 0;
    let signed_dividend := to_signed second in
    if (signed_dividend =? SIGNED_MIN) && (signed_divisor =? -1) then undef SignedOverflow
    else stack_set 0 (to_address (Z.quot signed_dividend signed_divisor)).
Definition op_minus : prog DwarfOp unit := binary (λ second top, mret (to_address (second - top))).
Definition op_mod : prog DwarfOp unit :=
  top ← StackPop;
  if top =? 0 then fail_with DWARF_ERROR_ILLEGAL_VALUE
  else second ← StackAt 0; stack_set 0 (second mod top).
Definition op_mul : prog DwarfOp unit := binary (λ second top, mret (to_address (second * top))).
Definition op_neg : prog DwarfOp unit :=
  top ← StackAt 0;
  let signed_value := to_signed top in
  if signed_value =? SIGNED_MIN then undef SignedOverflow else stack_set 0 (to_address (- signed_value)).
Definition op_not : prog DwarfOp unit := top ← StackAt 0; stack_set 0 (to_address (Z.lnot top)).
Definition op_or : prog DwarfOp unit := binary (λ second top, mret (Z.lor second top)).
Definition op_plus : prog DwarfOp unit := binary (λ second top, mret (to_address (second + top))).
Definition op_plus_uconst : prog DwarfOp unit :=
  top ← StackAt 0; operand ← OperandAt 0; stack_set 0 (to_address (top + operand)).

(** A shift by the width or more is undefined. *)
Definition shift_by (top value : Z) : prog DwarfOp Z := if top >=? bits_of AT then undef BadShift else mret value.
Definition op_shl : prog DwarfOp unit := binary (λ second top, shift_by top (to_address (Z.shiftl second top))).
Definition op_shr : prog DwarfOp unit := binary (λ second top, shift_by top (Z.shiftr second top)).
Definition op_shra : prog DwarfOp unit :=
  binary (λ second top, shift_by top (to_address (Z.shiftr (to_signed second) top))).
Definition op_xor : prog DwarfOp unit := binary (λ second top, mret (Z.lxor second top)).

Definition move_cursor (f : Z → Z) : prog DwarfOp unit :=
  modify (λ s, s <| op_memory := set_cur_offset (f (cur_offset_ (op_memory s))) (op_memory s) |>).

Definition op_bra : prog DwarfOp unit :=
  top ← StackPop;
  operand ← OperandAt 0;
  let offset := as_signed 16 operand in
  if negb (top =? 0) then move_cursor (λ cur, cur ⊞ offset) else move_cursor (λ cur, cur ⊟ offset).

Definition compare_with (f : Z → Z → bool) : prog DwarfOp unit :=
  binary (λ second top, mret (bool_to_dwarf_bool (f second top))).
Definition op_eq : prog DwarfOp unit := compare_with Z.eqb.
Definition op_ge : prog DwarfOp unit := compare_with Z.geb.
Definition op_gt : prog DwarfOp unit := compare_with Z.gtb.
Definition op_le : prog DwarfOp unit := compare_with Z.leb.
Definition op_lt : prog DwarfOp unit := compare_with Z.ltb.
Definition op_ne : prog DwarfOp unit := compare_with (λ second top, negb (second =? top)).

Definition op_skip : prog DwarfOp unit :=
  operand ← OperandAt 0; let offset := as_signed 16 operand in move_cursor (λ cur, cur ⊞ offset).
Definition op_lit : prog DwarfOp unit := s ← get; push_front (to_address (cur_op_ s - 0x30)).
Definition op_reg : prog DwarfOp unit :=
  modify (λ s, s <| is_register_ := true |>);; s ← get; push_front (to_address (cur_op_ s - 0x50)).
Definition op_regx : prog DwarfOp unit :=
  modify (λ s, s <| is_register_ := true |>);; operand ← OperandAt 0; push_front operand.
Definition op_breg : prog DwarfOp unit :=
  s ← get;
  let reg := u16 (cur_op_ s - 0x70) in
  if reg >=? Total regs_info_ then fail_with DWARF_ERROR_ILLEGAL_VALUE
  else value ← RegsInfo_Get reg regs_info_; operand ← OperandAt 0; push_front (to_address (value + operand)).
Definition op_bregx : prog DwarfOp unit :=
  reg ← OperandAt 0;
  if reg >=? Total regs_info_ then fail_with DWARF_ERROR_ILLEGAL_VALUE
  else value ← RegsInfo_Get (u32 reg) regs_info_; operand ← OperandAt 1; push_front (to_address (value + operand)).
Definition op_nop : prog DwarfOp unit := mret ().
Definition op_not_implemented : prog DwarfOp unit := fail_with DWARF_ERROR_NOT_IMPLEMENTED.

(** [OP_ILLEGAL] is the null pointer, which [Decode] does not call. *)
Definition kOpHandleFuncList (f : DwarfOpHandleFunc) : prog DwarfOp unit :=
  match f with
  | OP_ILLEGAL => undef Aborted
  | OP_DEREF => op_deref | OP_DEREF_SIZE => op_deref_size | OP_PUSH => op_push | OP_DUP => op_dup
  | OP_DROP => op_drop | OP_OVER => op_over | OP_PICK => op_pick | OP_SWAP => op_swap | OP_ROT => op_rot
  | OP_ABS => op_abs | OP_AND => op_and | OP_DIV => op_div | OP_MINUS => op_minus | OP_MOD => op_mod
  | OP_MUL => op_mul | OP_NEG => op_neg | OP_NOT => op_not | OP_OR => op_or | OP_PLUS => op_plus
  | OP_PLUS_UCONST => op_plus_uconst | OP_SHL => op_shl | OP_SHR => op_shr | OP_SHRA => op_shra
  | OP_XOR => op_xor | OP_BRA => op_bra | OP_EQ => op_eq | OP_GE => op_ge | OP_GT => op_gt
  | OP_LE => op_le | OP_LT => op_lt | OP_NE => op_ne | OP_SKIP => op_skip | OP_LIT => op_lit
  | OP_REG => op_reg | OP_REGX => op_regx | OP_BREG => op_breg | OP_BREGX => op_bregx
  | OP_NOP => op_nop | OP_NOT_IMPLEMENTED => op_not_implemented
  end.

Fixpoint read_operands (encodings : list Z) : prog DwarfOp unit :=
  match encodings with
  | [] => mret ()
  | encoding :: encodings =>
      value ← reading (ReadEncodedValue memory_ AT encoding);
      modify (λ s, s <| operands_ := operands_ s ++ [to_address value] |>);;
      read_operands encodings
  end.

Definition Decode : prog DwarfOp unit :=
  modify (set_code DWARF_ERROR_NONE);;
  cur_op ← reading (ReadUnsigned memory_ 1);
  modify (λ s, s <| cur_op_ := cur_op |>);;
  let op := op_at cur_op in
  if bool_decide (handle_func op = OP_ILLEGAL) then fail_with DWARF_ERROR_ILLEGAL_VALUE
  else
    s ← get;
    if Z.of_nat (length (stack_ s)) <? num_required_stack_values op
    then fail_with DWARF_ERROR_STACK_INDEX_NOT_VALID
    else
      modify (λ s, s <| operands_ := [] |>);;
      read_operands (operand_encodings op);;
      kOpHandleFuncList (handle_func op).

(** The loop of [Eval], after its first two operations. *)
Fixpoint eval_loop (fuel : nat) (end_ iterations : Z) : prog DwarfOp unit :=
  match fuel with
  | O => undef NoFuel
  | S fuel =>
      s ← get;
      if cur_offset_ (op_memory s) <? end_ then
        Decode;;
        if iterations =? 1000 then fail_with DWARF_ERROR_TOO_MANY_ITERATIONS
        else eval_loop fuel end_ (iterations + 1)
      else mret ()
  end.
Definition eval_fuel : nat := 1000.

(** The value of [DEX1], and the operation that drops it. *)
Definition Eval (start end_ : Z) : prog DwarfOp unit :=
  modify (λ s, s <| is_register_ := false |> <| stack_ := [] |>
                 <| op_memory := set_cur_offset start (op_memory s) |> <| dex_pc_set_ := false |>);;
  s ← get;
  if negb (cur_offset_ (op_memory s) <? end_) then mret ()
  else
    Decode;;
    s ← get;
    let check_for_drop := (cur_op_ s =? 0x0c) && bool_decide (last (operands_ s) = Some 0x31584544) in
    if negb (cur_offset_ (op_memory s) <? end_) then mret ()
    else
      Decode;;
      modify (λ s, if check_for_drop && (cur_op_ s =? 0x13) then s <| dex_pc_set_ := true |> else s);;
      eval_loop eval_fuel end_ 2.

(** ** The disassembler *)

Fixpoint log_operands (encodings : list Z) (log_string : string) : prog DwarfMemory string :=
  match encodings with
  | [] => mret log_string
  | encoding :: encodings =>
      value ← ReadEncodedValue memory_ AT encoding;
      log_operands encodings (log_string +:+ " "%string +:+ pretty value)
  end.

Fixpoint raw_bytes (n : nat) (raw_string : string) : prog DwarfMemory string :=
  match n with
  | O => mret raw_string
  | S n => byte ← ReadUnsigned memory_ 1; raw_bytes n (raw_string +:+ " 0x" +:+ hex2 byte)
  end.

(** One operation's two lines. *)
Definition log_op : prog DwarfMemory (list string) :=
  cur_op ← ReadUnsigned memory_ 1;
  let raw_string := "Raw Data: 0x" +:+ hex2 cur_op in
  let op := op_at cur_op in
  if bool_decide (handle_func op = OP_ILLEGAL) then mret ["Illegal"%string; raw_string]
  else
    d ← get;
    let start_offset := cur_offset_ d in
    log_string ← log_operands (operand_encodings op) (name op);
    d ← get;
    let end_offset := cur_offset_ d in
    modify (set_cur_offset start_offset);;
    raw_string ← raw_bytes (Z.to_nat (end_offset - start_offset)) raw_string;
    modify (set_cur_offset end_offset);;
    mret [log_string; raw_string].

(** A failed read ends the listing. *)
Fixpoint log_loop (fuel : nat) (end_ : Z) (lines : list string) : prog DwarfMemory (list string) := λ d,
  match fuel with
  | O => Fault NoFuel
  | S fuel =>
      if cur_offset_ d <? end_ then
        match log_op d with
        | Ret new d => log_loop fuel end_ (lines ++ new) d
        | Err d => Ret lines d
        | Fault f => Fault f
        end
      else Ret lines d
  end.
Definition GetLogInfo (start end_ : Z) (lines : list string) : prog DwarfMemory (list string) :=
  modify (set_cur_offset start);; log_loop (S (Z.to_nat (end_ - start))) end_ lines.
End machine.
