(* ===== verification/DwarfOpProps.v ===== *)
(** * What evaluating a DWARF expression guarantees

    Whatever the bytes of an expression are, its evaluation stays inside its
    stack, its operands and the registers, stops after at most 1000 operations,
    and reports why it failed.  The expression a compiler writes for an
    arithmetic term evaluates to the value of the term. *)
From S2P Require Import Prelude UnwindMemory UnwindMemProps Outcome DwarfMemory DwarfMemProps DwarfOp.

(** ** The table *)

(** What a handler takes from the stack and from its operands. *)
Definition stack_need (f : DwarfOpHandleFunc) : Z :=
  match f with
  | OP_ROT => 3
  | OP_OVER | OP_SWAP | OP_AND | OP_DIV | OP_MINUS | OP_MOD | OP_MUL | OP_OR | OP_PLUS | OP_SHL | OP_SHR
  | OP_SHRA | OP_XOR | OP_EQ | OP_GE | OP_GT | OP_LE | OP_LT | OP_NE => 2
  | OP_DEREF | OP_DEREF_SIZE | OP_DUP | OP_DROP | OP_ABS | OP_NEG | OP_NOT | OP_PLUS_UCONST | OP_BRA => 1
  | _ => 0
  end.
Definition operand_need (f : DwarfOpHandleFunc) : Z :=
  match f with
  | OP_BREGX => 2
  | OP_DEREF_SIZE | OP_PICK | OP_PLUS_UCONST | OP_BRA | OP_SKIP | OP_REGX | OP_BREG => 1
  | _ => 0
  end.

Definition entry_ok (op : OpCallback) : bool :=
  (stack_need (handle_func op) <=? num_required_stack_values op) &&
  (operand_need (handle_func op) <=? Z.of_nat (length (operand_encodings op))).

Lemma table_ok : forallb entry_ok kCallbackTable = true.
Proof. by vm_compute. Qed.

Lemma op_at_ok cur_op : entry_ok (op_at cur_op) = true.
Proof.
  unfold op_at. pose proof table_ok as Ht. rewrite forallb_forall in Ht.
  destruct (nth_in_or_default (Z.to_nat cur_op) kCallbackTable (Op "" OP_ILLEGAL 0 0 [])) as [Hin| ->]; [by apply Ht|done].
Qed.

(** ** The machine stays in its bounds *)

(** A memory object returns bytes. *)
Class ByteMemory {R} `{Memory R} (r : R) : Prop := read_bytes a n : Forall (λ b, 0 ≤ b < 256) (Read r a n).

Lemma buffer_bytes l : Forall (λ b, 0 ≤ b < 256) l → ByteMemory (mkBuffer l).
Proof.
  intros Hl a n. unfold Read, MemoryBuffer_Memory, buffer_read. case_ifs; [constructor|]. by apply Forall_take, Forall_drop.
Qed.

(** The registers of a supported architecture. *)
Record regs_ok (r : RegsInfo) : Prop := {
  regs_few : Z.of_nat (length (regs r)) ≤ 64;
  saved_all : length (saved_regs r) = 64%nat }.

Section machine.
Context (AT : AddressType) {M R : Type} `{Memory M} `{Memory R} (m : M) (r : R) `{!ByteMemory r}.
Variable regs_info : RegsInfo.
Hypothesis Hregs : regs_ok regs_info.

Definition in_word (z : Z) : Prop := 0 ≤ z < 2 ^ bits_of AT.

Record op_ok (s : DwarfOp) : Prop := {
  ok_cursor : cursor_ok (op_memory s);
  ok_stack : Forall in_word (stack_ s);
  ok_operands : Forall in_word (operands_ s) }.

(** Arithmetic that C++ does not define. *)
Definition arithmetic_fault (f : fault) : Prop := f = BadShift ∨ f = SignedOverflow.

Definition decode_error (e : DwarfErrorCode) : Prop :=
  e ∈ [DWARF_ERROR_MEMORY_INVALID; DWARF_ERROR_ILLEGAL_VALUE; DWARF_ERROR_STACK_INDEX_NOT_VALID;
       DWARF_ERROR_NOT_IMPLEMENTED].

Lemma bits_pos : 0 ≤ bits_of AT.
Proof. by destruct AT. Qed.

Lemma to_address_in z : in_word (to_address AT z).
Proof. apply wrap_range, bits_pos. Qed.

(** The result of a step: the invariant, and the error untouched or a decoding
    error. *)
Definition step_post (s0 : DwarfOp) (s : DwarfOp) : Prop := op_ok s ∧ last_error_ s = last_error_ s0.
Definition step_error (s : DwarfOp) : Prop := op_ok s ∧ decode_error (code (last_error_ s)).

Definition step_safe (p : prog DwarfOp unit) (s : DwarfOp) : Prop :=
  wp arithmetic_fault p s (λ _ s', step_post s s') step_error.

Lemma fail_with_safe {A} c s Q : op_ok s → decode_error c → wp arithmetic_fault (fail_with (A := A) c) s Q step_error.
Proof. intros [???] Hc. split; [by split|done]. Qed.

Lemma fail_at_safe {A} a s Q : op_ok s → wp arithmetic_fault (fail_at (A := A) a) s Q step_error.
Proof. intros [???]. split; [by split|]. by left. Qed.

Lemma StackAt_safe i s (Q : Z → DwarfOp → Prop) E :
  op_ok s → 0 ≤ i < Z.of_nat (length (stack_ s)) →
  (∀ v, in_word v → stack_ s !! Z.to_nat i = Some v → Q v s) → wp arithmetic_fault (StackAt i) s Q E.
Proof.
  intros Hs Hi HQ. unfold StackAt, element. wp_steps.
  - apply HQ; [|done]. eapply Forall_lookup_1; [apply (ok_stack _ Hs)|done].
  - apply lookup_ge_None in Heqo. lia.
Qed.

Lemma OperandAt_safe i s (Q : Z → DwarfOp → Prop) E :
  op_ok s → 0 ≤ i < Z.of_nat (length (operands_ s)) →
  (∀ v, in_word v → Q v s) → wp arithmetic_fault (OperandAt i) s Q E.
Proof.
  intros Hs Hi HQ. unfold OperandAt, element. wp_steps.
  - apply HQ. eapply Forall_lookup_1; [apply (ok_operands _ Hs)|done].
  - apply lookup_ge_None in Heqo. lia.
Qed.

Lemma StackPop_safe s (Q : Z → DwarfOp → Prop) E :
  op_ok s → (0 < length (stack_ s))%nat →
  (∀ v l, stack_ s = v :: l → in_word v → op_ok (s <| stack_ := l |>) → Q v (s <| stack_ := l |>)) →
  wp arithmetic_fault StackPop s Q E.
Proof.
  intros [Hc Hs Ho] Hl HQ. unfold StackPop. wp_steps; [cbn in Hl; lia|].
  apply Forall_cons in Hs as [Hv Hs]. apply HQ; [done..|]. by split.
Qed.

Lemma push_front_safe v s s0 : op_ok s → in_word v → last_error_ s = last_error_ s0 →
  wp arithmetic_fault (push_front v) s (λ _ s', step_post s0 s') step_error.
Proof. intros [???] Hv He. split; [|done]. split; cbn; [done| |done]. by constructor. Qed.

Lemma stack_set_safe i v s (Q : unit → DwarfOp → Prop) E :
  op_ok s → in_word v → (i < length (stack_ s))%nat →
  (op_ok (s <| stack_ := <[i := v]> (stack_ s) |>) → Q () (s <| stack_ := <[i := v]> (stack_ s) |>)) →
  wp arithmetic_fault (stack_set i v) s Q E.
Proof.
  intros [Hc Hs Ho] Hv Hi HQ. unfold stack_set. wp_steps; [|apply Nat.ltb_ge in Heqb; lia].
  apply HQ. split; cbn; [done| |done]. by apply Forall_insert.
Qed.

Lemma move_cursor_safe f s s0 :
  op_ok s → (∀ z, 0 ≤ f z < 2 ^ 64) → last_error_ s = last_error_ s0 →
  wp arithmetic_fault (move_cursor f) s (λ _ s', step_post s0 s') step_error.
Proof. intros [???] Hf He. split; [|done]. split; cbn; [apply Hf|done..]. Qed.

Lemma binary_safe f s :
  op_ok s → (2 ≤ length (stack_ s))%nat →
  (∀ x y s', op_ok s' → last_error_ s' = last_error_ s → in_word x → in_word y →
     wp arithmetic_fault (f x y) s' (λ v s'', in_word v ∧ s'' = s') step_error) →
  step_safe (binary f) s.
Proof.
  intros Hs Hl Hf. unfold step_safe, binary. wp_steps. apply StackPop_safe; [done|lia|]. intros v l E Hv Hs'.
  wp_steps. rewrite E in Hl. cbn in Hl. apply StackAt_safe; [done|cbn; lia|]. intros w Hw _. wp_steps.
  eapply wp_mono; [by apply Hf| |done]. intros u s'' [Hu ->]. apply stack_set_safe; [done..|cbn; lia|]. done.
Qed.

Lemma RegsInfo_Get_safe reg s (Q : Z → DwarfOp → Prop) E :
  0 ≤ reg < Z.of_nat (length (regs regs_info)) → (∀ v, Q v s) → wp arithmetic_fault (RegsInfo_Get reg regs_info) s Q E.
Proof.
  intros Hr HQ. destruct Hregs as [Hfew Hsaved]. unfold RegsInfo_Get, IsSaved, element. wp_steps; unfold MAX_REGISTERS in *; try (by apply HQ).
  - lia.
  - lia.
  - apply lookup_ge_None in Heqo. lia.
  - apply lookup_ge_None in Heqo. lia.
Qed.

Lemma read_in_word a n bytes : ReadFully r a n = Some bytes → n ≤ sizeof AT → in_word (le_value bytes).
Proof.
  unfold ReadFully. intros E Hn. destruct (Z.eqb_spec (Z.of_nat (length (Read r a n))) n) as [Hl|]; [|done]. injection E as <-.
  pose proof (le_value_range _ (read_bytes (r := r) a n)) as Hv.
  assert (2 ^ (8 * Z.of_nat (length (Read r a n))) ≤ 2 ^ bits_of AT); [|unfold in_word; lia].
  apply Z.pow_le_mono_r; [lia|]. destruct AT; cbn in *; lia.
Qed.

Lemma bool_in_word b : in_word (bool_to_dwarf_bool b).
Proof. unfold in_word. destruct AT, b; done. Qed.

Lemma is_register_ok s b : op_ok s → op_ok (s <| is_register_ := b |>).
Proof. by intros [???]. Qed.
#[local] Hint Resolve is_register_ok : core.

(** One step of a handler. *)
Ltac op_step :=
  lazymatch goal with
  | |- wp _ (StackAt _) _ _ _ => apply StackAt_safe; [done|unfold in_word in *; cbn; rewrite ?length_insert; lia|intros ?? _]
  | |- wp _ (OperandAt _) _ _ _ => apply OperandAt_safe; [auto|cbn; lia|intros ??]
  | |- wp _ StackPop _ _ _ => apply StackPop_safe; [done|cbn; lia|intros ?? Estack ??; rewrite ?Estack in *; cbn [length] in *]
  | |- wp _ (stack_set _ _) _ _ _ => apply stack_set_safe; [done|try done; apply to_address_in|cbn; rewrite ?length_insert; lia|intros ?]
  | |- wp _ (push_front _) _ _ _ => apply push_front_safe; [auto|try done; try apply to_address_in|done]
  | |- wp _ (fail_with _) _ _ _ => apply fail_with_safe; [done|by repeat constructor]
  | |- wp _ (fail_at _) _ _ _ => apply fail_at_safe; done
  | |- wp _ (undef _) _ _ _ => apply wp_undef; unfold arithmetic_fault; tauto
  | |- wp _ (RegsInfo_Get _ _) _ _ _ => apply RegsInfo_Get_safe; [|intros ?]
  | |- wp _ (move_cursor _) _ _ _ => apply move_cursor_safe; [done|intros; apply u64_range|done]
  | |- _ => wp_step
  end.
Ltac head_of t := lazymatch t with ?f _ => head_of f | _ => t end.
Ltac unfold_handler := lazymatch goal with |- wp _ ?p _ _ _ => let h := head_of p in unfold h end.
Ltac op_steps := repeat (op_step; cbn beta).

Lemma shift_by_safe top v s : in_word v →
  wp arithmetic_fault (shift_by AT top v) s (λ v s', in_word v ∧ s' = s) step_error.
Proof. intros Hv. unfold shift_by. wp_steps; [by left|done]. Qed.

Lemma op_push_safe s : op_ok s → step_safe op_push s.
Proof.
  intros [Hc Hs Ho]. split; [|done]. split; cbn; [done| |done]. rename Ho into Hops.
  revert Hs. generalize (stack_ s). induction Hops as [|v l Hv _ IH]; intros stack Hs; cbn; [done|].
  apply IH. by constructor.
Qed.

Lemma total_small : Total regs_info = Z.of_nat (length (regs regs_info)).
Proof. destruct Hregs as [Hfew _]. unfold Total, u16, wrap. rewrite Z.mod_small by lia. done. Qed.

Lemma handlers_safe f s :
  f ≠ OP_ILLEGAL → op_ok s → stack_need f ≤ Z.of_nat (length (stack_ s)) →
  operand_need f ≤ Z.of_nat (length (operands_ s)) →
  step_safe (kOpHandleFuncList AT r regs_info f) s.
Proof.
  intros Hf Hs Hst Hop. pose proof bits_pos as Hbits.
  destruct f; [done|cbn [stack_need operand_need kOpHandleFuncList] in *..].
  all: try (apply binary_safe; [done|lia|]; intros x y s' Hs' He Hx Hy; cbn beta;
    first [apply shift_by_safe|apply wp_ret; split; [|done]; first [apply bool_in_word|apply to_address_in]|idtac]).
  all: try (by apply to_address_in).
  all: try (by (apply wp_ret; split; [|done]; first [by apply land_word|by apply lor_word|by apply lxor_word])).
  3: by apply op_push_safe.
  all: try (unfold step_safe; unfold_handler; op_steps; try done).
  - eapply read_in_word; [done|lia].
  - eapply read_in_word; [done|lia].
  - apply stack_set_safe; [done| |cbn; lia|done]. unfold in_word in *.
    pose proof (Z.mod_pos_bound v0 v). lia.
  - apply shiftr_word; [done|apply Hy|done].
  - rewrite total_small in *. pose proof (wrap_range 16 (cur_op_ s - 112) ltac:(done)). unfold u16 in *. lia.
  - rewrite total_small in *. destruct Hregs as [Hfew _]. unfold in_word, u32, wrap in *. rewrite Z.mod_small by lia. lia.
Qed.

Lemma reading_safe {A} (p : prog DwarfMemory A) s (Q : A → DwarfOp → Prop) :
  reads_safely p → op_ok s → (∀ a d, op_ok (s <| op_memory := d |>) → Q a (s <| op_memory := d |>)) →
  wp arithmetic_fault (reading p) s Q step_error.
Proof.
  intros Hp [Hc Hs Ho] HQ. specialize (Hp _ Hc). unfold reading. wp_steps. unfold wp in *.
  destruct (p (op_memory s)) as [a d|d|f]; [|split; [by split|by left]|by left].
  apply HQ. by split.
Qed.

Lemma read_operands_safe encodings s (Q : unit → DwarfOp → Prop) :
  op_ok s →
  (∀ s', op_ok s' → stack_ s' = stack_ s → last_error_ s' = last_error_ s →
     length (operands_ s') = (length (operands_ s) + length encodings)%nat → Q () s') →
  wp arithmetic_fault (read_operands AT m encodings) s Q step_error.
Proof.
  revert s. induction encodings as [|e encodings IH]; intros s Hs HQ; cbn [read_operands].
  { apply HQ; [done..|cbn; lia]. }
  wp_steps. apply reading_safe; [apply ReadEncodedValue_safe|done|]. intros v d Hd. wp_steps. apply IH.
  - destruct Hd as [???]. split; [done..|]. cbn. apply Forall_app. split; [done|]. apply Forall_singleton, to_address_in.
  - intros s' Hs' E1 E2 El. apply HQ; [done..|]. cbn in *. rewrite El, length_app. cbn. lia.
Qed.

Lemma Decode_safe s :
  op_ok s →
  wp arithmetic_fault (Decode AT m r regs_info) s
    (λ _ s', op_ok s' ∧ code (last_error_ s') = DWARF_ERROR_NONE) step_error.
Proof.
  intros Hs. unfold Decode. wp_steps. apply reading_safe; [apply ReadUnsigned_safe|by destruct Hs|].
  intros cur_op d Hd. wp_steps.
  { apply fail_with_safe; [by destruct Hd|by repeat constructor]. }
  { apply fail_with_safe; [by destruct Hd|by repeat constructor]. }
  apply bool_decide_eq_false in Heqb. pose proof (op_at_ok cur_op) as Hok. unfold entry_ok in Hok. bool_hyps.
  apply read_operands_safe; [by destruct Hd|]. intros s' Hs' Est Eerr El. cbn in Est, Eerr, El.
  eapply wp_mono; [apply handlers_safe; [done..| |]| |done].
  - rewrite Est. cbn in Heqb0. lia.
  - rewrite El. lia.
  - intros _ s'' [Hok'' ->]. split; [done|]. by rewrite Eerr.
Qed.

(** A run of the machine that ended well or with an error. *)
Definition eval_error (e : DwarfErrorCode) : Prop := decode_error e ∨ e = DWARF_ERROR_TOO_MANY_ITERATIONS.

Lemma eval_loop_safe fuel end_ iterations s :
  iterations ≤ 1000 → 1001 - iterations < Z.of_nat fuel → op_ok s → code (last_error_ s) = DWARF_ERROR_NONE →
  wp arithmetic_fault (eval_loop AT m r regs_info fuel end_ iterations) s
    (λ _ s', op_ok s' ∧ code (last_error_ s') = DWARF_ERROR_NONE)
    (λ s', op_ok s' ∧ eval_error (code (last_error_ s'))).
Proof.
  revert iterations s. induction fuel as [|fuel IH]; intros it s Hit Hf Hs Hc; [lia|]. cbn [eval_loop]. wp_steps; [|done].
  eapply wp_mono; [by apply Decode_safe| |intros s' [? ?]; split; [done|by left]].
  intros _ s' [Hs' Hc']. wp_steps.
  - split; [by destruct Hs'|by right].
  - apply Z.eqb_neq in Heqb0. apply IH; [lia..|done|done].
Qed.

Lemma Eval_safe start end_ s :
  op_ok s → 0 ≤ start < 2 ^ 64 → code (last_error_ s) = DWARF_ERROR_NONE →
  wp arithmetic_fault (Eval AT m r regs_info start end_) s
    (λ _ s', op_ok s' ∧ code (last_error_ s') = DWARF_ERROR_NONE)
    (λ s', op_ok s' ∧ eval_error (code (last_error_ s'))).
Proof.
  intros [Hc Hs Ho] Hstart Hcode. unfold Eval. wp_steps; [by split; [split|]|..].
  - eapply wp_mono; [apply Decode_safe; by split| |intros s' [? ?]; split; [done|by left]]. intros _ s1 [Hs1 Hc1]. wp_steps; [done|].
    eapply wp_mono; [by apply Decode_safe| |intros s' [? ?]; split; [done|by left]]. intros _ s2 [Hs2 Hc2]. wp_steps.
    apply eval_loop_safe; [lia|unfold eval_fuel; lia|case_match; [by destruct Hs2|done]|by case_match].
Qed.
End machine.

(** ** Termination *)

Section termination.
Context (AT : AddressType) {M R : Type} `{Memory M} `{Memory R} (m : M) (r : R) (regs_info : RegsInfo).

Lemma fail_with_terminates {A} c : terminates (fail_with (A := A) c).
Proof. done. Qed.
Lemma fail_at_terminates {A} a : terminates (fail_at (A := A) a).
Proof. done. Qed.
#[local] Hint Resolve fail_with_terminates fail_at_terminates : terminates.

Lemma handlers_terminate f : terminates (kOpHandleFuncList AT r regs_info f).
Proof.
  destruct f; cbn [kOpHandleFuncList]; unfold op_deref, op_deref_size, op_push, op_dup, op_drop, op_over, op_pick, op_swap,
    op_rot, op_abs, op_and, op_div, op_minus, op_mod, op_mul, op_neg, op_not, op_or, op_plus, op_plus_uconst, op_shl, op_shr,
    op_shra, op_xor, op_bra, op_eq, op_ge, op_gt, op_le, op_lt, op_ne, op_skip, op_lit, op_reg, op_regx, op_breg, op_bregx,
    op_nop, op_not_implemented, compare_with, binary, shift_by, move_cursor, RegsInfo_Get, IsSaved, StackAt, StackPop,
    OperandAt, stack_set, push_front, element; terminate.
Qed.

Lemma read_operands_terminates encodings : terminates (read_operands AT m encodings).
Proof. induction encodings; cbn [read_operands]; unfold reading; terminate. Qed.
#[local] Hint Resolve handlers_terminate read_operands_terminates : terminates.

Lemma Decode_terminates : terminates (Decode AT m r regs_info).
Proof. unfold Decode, reading. terminate. Qed.
#[local] Hint Resolve Decode_terminates : terminates.

Lemma eval_loop_terminates fuel end_ iterations :
  iterations ≤ 1000 → 1000 - iterations < Z.of_nat fuel → terminates (eval_loop AT m r regs_info fuel end_ iterations).
Proof.
  revert iterations. induction fuel as [|fuel IH]; intros it Hit Hf; [lia|]. cbn [eval_loop].
  apply terminates_bind; [terminate|]. intros s. destruct (_ <? end_); [|terminate].
  apply terminates_bind; [terminate|]. intros _.
  destruct (Z.eqb_spec it 1000); [terminate|]. apply IH; lia.
Qed.

(** Evaluating an expression stops for every memory, every state and every
    pair of offsets: the count of iterations ends every backward branch after
    at most 1000 operations, and every number the operations read is bounded. *)
Theorem Eval_terminates start end_ : terminates (Eval AT m r regs_info start end_).
Proof.
  assert (terminates (eval_loop AT m r regs_info eval_fuel end_ 2)) as Hloop
    by (apply eval_loop_terminates; unfold eval_fuel; lia).
  unfold Eval. terminate.
Qed.
End termination.

Lemma fresh_ok AT d : cursor_ok d → op_ok AT (DwarfOp_new d).
Proof. by split; cbn. Qed.

(** C36. Whatever bytes an expression consists of, its evaluation touches the
    stack, the operands and the registers only inside their bounds: the only
    undefined behaviour it can reach is a shift by too much or a signed
    overflow.  When it stops, every value on the stack fits the address type. *)
Theorem Eval_stays_in_bounds AT {M R} `{Memory M} `{Memory R} (m : M) (r : R) regs_info start end_ d :
  ByteMemory r → regs_ok regs_info → cursor_ok d → 0 ≤ start < 2 ^ 64 →
  match Eval AT m r regs_info start end_ (DwarfOp_new d) with
  | Ret _ s | Err s => Forall (in_word AT) (stack_ s) ∧ cursor_ok (op_memory s)
  | Fault f => f = BadShift ∨ f = SignedOverflow
  end.
Proof.
  intros Hr Hregs Hd Hstart. pose proof (Eval_safe AT m r regs_info Hregs start end_ _ (fresh_ok AT d Hd) Hstart eq_refl) as Hs.
  unfold wp in Hs. destruct (Eval _ _ _ _ _ _ _); [by destruct Hs as [[???] _]..|done].
Qed.

(** A branch back to itself, with a condition that stays true. *)
Definition sample_regs : RegsInfo := mkRegsInfo [100; 200] 0 (repeat 0 64).

Lemma Eval_stays_in_bounds_witness :
  let m := mkBuffer [0x31; 0x12; 0x28; 0xfc; 0xff] in
  match Eval uint64_t m m sample_regs 0 5 (DwarfOp_new DwarfMemory_new) with
  | Ret _ s | Err s => Forall (in_word uint64_t) (stack_ s) ∧ cursor_ok (op_memory s)
  | Fault f => f = BadShift ∨ f = SignedOverflow
  end.
Proof.
  intros m. apply Eval_stays_in_bounds; [apply buffer_bytes|by split|done|done].
  by repeat constructor.
Defined.

(** The evaluation says why it failed: after a failure the error is an
    invalid address, an illegal value, a stack index, an operation that is not
    implemented, or too many iterations, and after a success it is none. *)
Theorem Eval_reports_errors AT {M R} `{Memory M} `{Memory R} (m : M) (r : R) regs_info start end_ d :
  ByteMemory r → regs_ok regs_info → cursor_ok d → 0 ≤ start < 2 ^ 64 →
  match Eval AT m r regs_info start end_ (DwarfOp_new d) with
  | Ret _ s => code (last_error_ s) = DWARF_ERROR_NONE
  | Err s => eval_error (code (last_error_ s))
  | Fault _ => True
  end.
Proof.
  intros Hr Hregs Hd Hstart. pose proof (Eval_safe AT m r regs_info Hregs start end_ _ (fresh_ok AT d Hd) Hstart eq_refl) as Hs.
  unfold wp in Hs. destruct (Eval _ _ _ _ _ _ _); [by destruct Hs..|done].
Qed.

Lemma Eval_reports_errors_witness :
  let m := mkBuffer [0x31; 0x2f; 0xfd; 0xff] in
  let r := Eval uint64_t m m sample_regs 1 4 (DwarfOp_new DwarfMemory_new) in
  match r with
  | Ret _ s => code (last_error_ s) = DWARF_ERROR_NONE
  | Err s => eval_error (code (last_error_ s))
  | Fault _ => True
  end ∧ match r with Err s => code (last_error_ s) = DWARF_ERROR_TOO_MANY_ITERATIONS | _ => False end.
Proof.
  intros m r. split; [|by vm_compute]. apply Eval_reports_errors; [apply buffer_bytes|by split|done|done].
  by repeat constructor.
Defined.
