(* ===== verification/DwarfExpr.v ===== *)
(** * The expressions of a compiler

    An arithmetic term over registers and memory, its value, and the DWARF
    expression a compiler writes for it.  [Eval] computes the value. *)
From S2P Require Import Prelude UnwindMemory UnwindMemProps Outcome DwarfMemory DwarfMemProps DwarfOp DwarfOpProps.

Inductive binop :=
| Add | Sub | Mul | Div | Mod | And | Or | Xor | Shl | Shr | Shra | Eq | Ge | Gt | Le | Lt | Ne.
Inductive unop := Abs | Neg | Not.

Inductive term :=
| Const (v : Z) | Reg (reg offset : Z) | Deref (t : term) | DerefSize (n : Z) (t : term) | AddConst (t : term) (v : Z)
| Unary (o : unop) (t : term) | Binary (o : binop) (a b : term).

Section value.
Context (AT : AddressType) {R : Type} `{Memory R} (r : R) (regs_info : RegsInfo).

Definition reg_value (reg : Z) : option Z :=
  if Z.testbit (saved_reg_map regs_info) reg then saved_regs regs_info !! Z.to_nat reg else regs regs_info !! Z.to_nat reg.

(** The value of an operation; [None] where it is an error or not defined. *)
Definition unop_value (o : unop) (x : Z) : option Z :=
  let s := to_signed AT x in
  match o with
  | Abs => if s =? SIGNED_MIN AT then None else Some (to_address AT (Z.abs s))
  | Neg => if s =? SIGNED_MIN AT then None else Some (to_address AT (- s))
  | Not => Some (to_address AT (Z.lnot x))
  end.
Definition binop_value (o : binop) (x y : Z) : option Z :=
  match o with
  | Add => Some (to_address AT (x + y)) | Sub => Some (to_address AT (x - y)) | Mul => Some (to_address AT (x * y))
  | Div =>
      if (y =? 0) || ((to_signed AT x =? SIGNED_MIN AT) && (to_signed AT y =? -1)) then None
      else Some (to_address AT (Z.quot (to_signed AT x) (to_signed AT y)))
  | Mod => if y =? 0 then None else Some (x mod y)
  | And => Some (Z.land x y) | Or => Some (Z.lor x y) | Xor => Some (Z.lxor x y)
  | Shl => if y >=? bits_of AT then None else Some (to_address AT (Z.shiftl x y))
  | Shr => if y >=? bits_of AT then None else Some (Z.shiftr x y)
  | Shra => if y >=? bits_of AT then None else Some (to_address AT (Z.shiftr (to_signed AT x) y))
  | Eq => Some (bool_to_dwarf_bool (x =? y)) | Ne => Some (bool_to_dwarf_bool (negb (x =? y)))
  | Ge => Some (bool_to_dwarf_bool (x >=? y)) | Gt => Some (bool_to_dwarf_bool (x >? y))
  | Le => Some (bool_to_dwarf_bool (x <=? y)) | Lt => Some (bool_to_dwarf_bool (x <? y))
  end.

Fixpoint value (t : term) : option Z :=
  match t with
  | Const v => Some v
  | Reg reg offset => v ← reg_value reg; Some (to_address AT (v + offset))
  | Deref t => a ← value t; bytes ← ReadFully r a (sizeof AT); Some (le_value bytes)
  | DerefSize n t => a ← value t; bytes ← ReadFully r a n; Some (le_value bytes)
  | AddConst t v => x ← value t; Some (to_address AT (x + v))
  | Unary o t => x ← value t; unop_value o x
  | Binary o a b => x ← value a; y ← value b; binop_value o x y
  end.

(** The operands an operation can encode. *)
Fixpoint encodable (t : term) : Prop :=
  match t with
  | Const v => 0 ≤ v < 2 ^ bits_of AT
  | Reg reg offset => 0 ≤ reg < 32 ∧ reg < Z.of_nat (length (regs regs_info)) ∧ - 2 ^ 62 ≤ offset < 2 ^ 62
  | Deref t | Unary _ t => encodable t
  | DerefSize n t => 0 < n ≤ sizeof AT ∧ encodable t
  | AddConst t v => 0 ≤ v < 2 ^ bits_of AT ∧ encodable t
  | Binary _ a b => encodable a ∧ encodable b
  end.
End value.

Definition binop_code (o : binop) : Z :=
  match o with
  | And => 0x1a | Div => 0x1b | Sub => 0x1c | Mod => 0x1d | Mul => 0x1e | Or => 0x21 | Add => 0x22 | Shl => 0x24
  | Shr => 0x25 | Shra => 0x26 | Xor => 0x27 | Eq => 0x29 | Ge => 0x2a | Gt => 0x2b | Le => 0x2c | Lt => 0x2d | Ne => 0x2e
  end.
Definition unop_code (o : unop) : Z := match o with Abs => 0x19 | Neg => 0x1f | Not => 0x20 end.

Fixpoint compile (t : term) : list Z :=
  match t with
  | Const v => 0x10 :: encode_uleb 10 v
  | Reg reg offset => (0x70 + reg) :: encode_sleb 10 offset
  | Deref t => compile t ++ [0x06]
  | DerefSize n t => compile t ++ [0x94; n]
  | AddConst t v => compile t ++ 0x23 :: encode_uleb 10 v
  | Unary o t => compile t ++ [unop_code o]
  | Binary o a b => compile a ++ compile b ++ [binop_code o]
  end.

(** The number of operations. *)
Fixpoint ops_of (t : term) : nat :=
  match t with
  | Const _ | Reg _ _ => 1
  | Deref t | DerefSize _ t | AddConst t _ | Unary _ t => S (ops_of t)
  | Binary _ a b => S (ops_of a + ops_of b)
  end.

(** ** Running the operations *)

Section run.
Context (AT : AddressType) {M R : Type} `{Memory M} `{Memory R} (m : M) (r : R) (regs_info : RegsInfo).
Context (c : Z → option Z) (limit : Z) `{!Reads limit m c}.
Hypothesis Hlimit : 8 ≤ limit.
Hypothesis Hregs : regs_ok regs_info.

Definition at_state (s : DwarfOp) (a : Z) (stack : list Z) : Prop :=
  cur_offset_ (op_memory s) = a ∧ stack_ s = stack ∧ is_register_ s = false.

(** [n] operations in a row, none of them [DW_OP_drop]. *)
Inductive decodes (end_ : Z) : nat → DwarfOp → DwarfOp → Prop :=
| decodes_nil s : decodes end_ 0 s s
| decodes_cons n s s1 s2 :
    cur_offset_ (op_memory s) < end_ → Decode AT m r regs_info s = Ret () s1 → cur_op_ s1 ≠ 0x13 →
    decodes end_ n s1 s2 → decodes end_ (S n) s s2.

Lemma decodes_app end_ n1 n2 s1 s2 s3 :
  decodes end_ n1 s1 s2 → decodes end_ n2 s2 s3 → decodes end_ (n1 + n2) s1 s3.
Proof. induction 1; cbn; [done|]. intros. econstructor; eauto. Qed.

Lemma decodes_snoc end_ n s1 s2 s3 :
  decodes end_ n s1 s2 → cur_offset_ (op_memory s2) < end_ → Decode AT m r regs_info s2 = Ret () s3 → cur_op_ s3 ≠ 0x13 →
  decodes end_ (S n) s1 s3.
Proof.
  intros Hd Hc E Hne. rewrite <-Nat.add_1_r. eapply decodes_app; [done|]. econstructor; [done..|constructor].
Qed.

Lemma eval_loop_decodes end_ fuel n it s s' :
  decodes end_ n s s' → ¬ cur_offset_ (op_memory s') < end_ → it + Z.of_nat n ≤ 1000 → (n < fuel)%nat →
  eval_loop AT m r regs_info fuel end_ it s = Ret () s'.
Proof.
  intros Hd Hend. revert fuel it. induction Hd as [s|n s s1 s2 Hc E _ _ IH]; intros [|fuel] it Hit Hf; try lia;
    cbn [eval_loop]; unfold mbind at 1, prog_bind at 1, get.
  - destruct (Z.ltb_spec (cur_offset_ (op_memory s)) end_); [lia|done].
  - destruct (Z.ltb_spec (cur_offset_ (op_memory s)) end_); [|lia]. unfold mbind at 1, prog_bind at 1. rewrite E.
    destruct (Z.eqb_spec it 1000); [lia|]. apply IH; [done|lia..].
Qed.

Definition start_state (start : Z) (s : DwarfOp) : DwarfOp :=
  s <| is_register_ := false |> <| stack_ := [] |>
    <| op_memory := set_cur_offset start (op_memory s) |> <| dex_pc_set_ := false |>.

Lemma Eval_decodes start end_ n s s' :
  decodes end_ n (start_state start s) s' → ¬ cur_offset_ (op_memory s') < end_ → (n ≤ 1000)%nat →
  Eval AT m r regs_info start end_ s = Ret () s'.
Proof.
  intros Hd Hend Hn. unfold Eval, mbind, prog_bind, get, modify. fold (start_state start s).
  inversion Hd as [s0|n1 s0 s1 s2 Hc1 E1 _ Hd1]; subst; clear Hd.
  { destruct (Z.ltb_spec (cur_offset_ (op_memory (start_state start s))) end_); [lia|done]. }
  destruct (Z.ltb_spec (cur_offset_ (op_memory (start_state start s))) end_); [|lia]. cbn [negb]. rewrite E1.
  inversion Hd1 as [s0|n2 s0 s3 s4 Hc2 E2 Hdrop Hd2]; subst; clear Hd1.
  { destruct (Z.ltb_spec (cur_offset_ (op_memory s')) end_); [lia|done]. }
  destruct (Z.ltb_spec (cur_offset_ (op_memory s1)) end_); [|lia]. cbn [negb]. rewrite E2.
  destruct (Z.eqb_spec (cur_op_ s3) 0x13); [done|]. rewrite andb_false_r.
  apply (eval_loop_decodes _ _ n2); [done|done|lia|unfold eval_fuel; lia].
Qed.

(** The state in which an operation's handler runs. *)
Definition handler_state (s : DwarfOp) (a b : Z) (vs : list Z) : DwarfOp :=
  s <| op_memory := set_cur_offset a (op_memory s) |> <| last_error_ := (last_error_ s) <| code := DWARF_ERROR_NONE |> |>
    <| cur_op_ := b |> <| operands_ := vs |>.

Lemma Decode_handler s a b stack vs n :
  at_state s a stack → 0 ≤ a → a + 1 < 2 ^ 64 → c a = Some b →
  handle_func (op_at b) ≠ OP_ILLEGAL → num_required_stack_values (op_at b) ≤ Z.of_nat (length stack) →
  (∀ s, at_state s (a + 1) stack → operands_ s = [] →
     read_operands AT m (operand_encodings (op_at b)) s =
       Ret () (s <| op_memory := set_cur_offset (a + 1 + n) (op_memory s) |> <| operands_ := vs |>)) →
  Decode AT m r regs_info s = kOpHandleFuncList AT r regs_info (handle_func (op_at b)) (handler_state s (a + 1 + n) b vs).
Proof.
  intros (Ea & <- & Er) Ha Htop Hb Hf Hreq Hops. unfold Decode, mbind, prog_bind, modify, reading, on_error, zoom, get.
  rewrite (ReadByte_stored m c limit Hlimit _ b) by (cbn; unfold cursor_ok; rewrite ?Ea; (done || lia)).
  rewrite bool_decide_false by done.
  match goal with |- context [Z.of_nat (length (stack_ ?x)) <? _] => change (stack_ x) with (stack_ s) end.
  destruct (Z.ltb_spec (Z.of_nat (length (stack_ s))) (num_required_stack_values (op_at b))) as [|_]; [lia|].
  rewrite Hops; [done| |done]. split; [|done]. cbn. rewrite Ea. apply u64_small. lia.
Qed.

(** *** Operands *)

Lemma read_no_operands s a stack :
  at_state s a stack → operands_ s = [] →
  read_operands AT m [] s = Ret () (s <| op_memory := set_cur_offset (a + 0) (op_memory s) |> <| operands_ := [] |>).
Proof. intros (Ea & _) Ho. destruct s as [[] ? ? ? ? ? ?]. cbn in *. subst. by rewrite Z.add_0_r. Qed.

Lemma read_one_operand enc v n a s stack :
  (∀ d, cur_offset_ d = a → ReadEncodedValue m AT enc d = Ret v (set_cur_offset (a + n) d)) →
  at_state s a stack → operands_ s = [] →
  read_operands AT m [enc] s =
    Ret () (s <| op_memory := set_cur_offset (a + n) (op_memory s) |> <| operands_ := [to_address AT v] |>).
Proof.
  intros Hread (Ea & _) Ho. cbn [read_operands]. unfold mbind, prog_bind, reading, on_error, zoom, modify.
  rewrite (Hread _ Ea). cbn. by rewrite Ho.
Qed.

Lemma advance_small n d : 0 ≤ cur_offset_ d + n < 2 ^ 64 → advance n d = set_cur_offset (cur_offset_ d + n) d.
Proof. intros Hn. unfold advance. by rewrite u64_small. Qed.

Lemma read_uleb a d v :
  0 ≤ v < 2 ^ 64 → 0 ≤ a → a + 10 < 2 ^ 64 → stored c a (encode_uleb 10 v) → cur_offset_ d = a →
  ReadEncodedValue m AT DW_EH_PE_uleb128 d = Ret v (set_cur_offset (a + Z.of_nat (length (encode_uleb 10 v))) d).
Proof.
  intros Hv Ha Htop Hs <-. pose proof (encode_uleb_length 10 v) as Hl.
  change (ReadEncodedValue m AT DW_EH_PE_uleb128 d) with ((ReadULEB128 m ≫= AdjustEncodedValue 0) d).
  unfold mbind, prog_bind.
  rewrite (ReadULEB128_encoded m c limit d v) by (done || (unfold cursor_ok; lia)). rewrite advance_small by lia. done.
Qed.

Lemma read_sleb a d v :
  - 2 ^ 62 ≤ v < 2 ^ 62 → 0 ≤ a → a + 10 < 2 ^ 64 → stored c a (encode_sleb 10 v) → cur_offset_ d = a →
  ReadEncodedValue m AT DW_EH_PE_sleb128 d = Ret (u64 v) (set_cur_offset (a + Z.of_nat (length (encode_sleb 10 v))) d).
Proof.
  intros Hv Ha Htop Hs <-. pose proof (encode_sleb_length 10 v) as Hl.
  change (ReadEncodedValue m AT DW_EH_PE_sleb128 d) with (((v ← ReadSLEB128 m; mret (u64 v)) ≫= AdjustEncodedValue 0) d).
  unfold mbind, prog_bind. rewrite (ReadSLEB128_encoded m c limit d v) by (done || lia || (unfold cursor_ok; lia)).
  destruct (Z.ltb_spec v (- 2 ^ 62)); [lia|]. rewrite advance_small by lia. done.
Qed.

Lemma read_udata1 a d b :
  0 ≤ a → a + 1 < 2 ^ 64 → c a = Some b → cur_offset_ d = a →
  ReadEncodedValue m AT DW_EH_PE_udata1 d = Ret b (set_cur_offset (a + 1) d).
Proof.
  intros Ha Htop Hb <-.
  change (ReadEncodedValue m AT DW_EH_PE_udata1 d) with ((ReadUnsigned m 1 ≫= AdjustEncodedValue 0) d).
  unfold mbind, prog_bind.
  rewrite (ReadByte_stored m c limit Hlimit d b) by (done || (unfold cursor_ok; lia)). rewrite advance_small by lia. done.
Qed.

(** *** Handlers *)

Definition binop_func (o : binop) : DwarfOpHandleFunc :=
  match o with
  | Add => OP_PLUS | Sub => OP_MINUS | Mul => OP_MUL | Div => OP_DIV | Mod => OP_MOD | And => OP_AND | Or => OP_OR
  | Xor => OP_XOR | Shl => OP_SHL | Shr => OP_SHR | Shra => OP_SHRA | Eq => OP_EQ | Ge => OP_GE | Gt => OP_GT
  | Le => OP_LE | Lt => OP_LT | Ne => OP_NE
  end.

Lemma pop_exec {A} s y stack (k : Z → prog DwarfOp A) :
  stack_ s = y :: stack → (StackPop ≫= k) s = k y (s <| stack_ := stack |>).
Proof. intros E. unfold StackPop, mbind, prog_bind, get. by rewrite E. Qed.
Lemma top_exec {A} s x stack (k : Z → prog DwarfOp A) : stack_ s = x :: stack → (StackAt 0 ≫= k) s = k x s.
Proof. intros E. unfold StackAt, element, mbind, prog_bind, get. by rewrite E. Qed.
Lemma operand_exec {A} s w l (k : Z → prog DwarfOp A) : operands_ s = w :: l → (OperandAt 0 ≫= k) s = k w s.
Proof. intros E. unfold OperandAt, element, mbind, prog_bind, get. by rewrite E. Qed.
Lemma set_exec s x v stack : stack_ s = x :: stack → stack_set 0 v s = Ret () (s <| stack_ := v :: stack |>).
Proof. intros E. unfold stack_set, mbind, prog_bind, get. rewrite E. cbn. unfold modify. cbn. by rewrite E. Qed.

Lemma binary_exec f s x y stack v :
  stack_ s = y :: x :: stack → (∀ s, f x y s = Ret v s) → binary f s = Ret () (s <| stack_ := v :: stack |>).
Proof.
  intros E Hf. unfold binary. rewrite (pop_exec _ _ _ _ E), (top_exec _ x stack) by done.
  unfold mbind, prog_bind. rewrite Hf. by rewrite (set_exec _ x _ stack).
Qed.

Lemma binop_exec o s x y stack v :
  stack_ s = y :: x :: stack → binop_value AT o x y = Some v →
  kOpHandleFuncList AT r regs_info (binop_func o) s = Ret () (s <| stack_ := v :: stack |>).
Proof.
  intros Est Hv.
  destruct o; cbn [binop_func kOpHandleFuncList]; cbn [binop_value] in Hv; repeat case_match; simplify_eq;
    try (apply (binary_exec _ _ x y); [done|intros; unfold shift_by; cbn; by case_match; simplify_eq]); try by apply (binary_exec _ _ x y).
  - unfold op_div. rewrite (pop_exec _ _ _ _ Est). bool_hyps. destruct (Z.eqb_spec y 0); [done|].
    rewrite (top_exec _ x stack) by done. destruct (_ && _); [done|]. by rewrite (set_exec _ x _ stack).
  - unfold op_mod. rewrite (pop_exec _ _ _ _ Est). bool_hyps. destruct (Z.eqb_spec y 0); [done|].
    rewrite (top_exec _ x stack) by done. by rewrite (set_exec _ x _ stack).
Qed.

Definition unop_func (o : unop) : DwarfOpHandleFunc := match o with Abs => OP_ABS | Neg => OP_NEG | Not => OP_NOT end.

Lemma unop_exec o s x stack v :
  stack_ s = x :: stack → unop_value AT o x = Some v →
  kOpHandleFuncList AT r regs_info (unop_func o) s = Ret () (s <| stack_ := v :: stack |>).
Proof.
  intros Est Hv. destruct o; cbn [unop_func kOpHandleFuncList]; cbn [unop_value] in Hv; repeat case_match; simplify_eq;
    unfold op_abs, op_neg, op_not; rewrite (top_exec _ x stack) by done.
  - destruct (Z.ltb_spec (to_signed AT x) 0).
    + destruct (to_signed AT x =? SIGNED_MIN AT); [done|]. rewrite (set_exec _ x _ stack), Z.abs_neq by (done || lia). done.
    + rewrite (set_exec _ x _ stack), Z.abs_eq by (done || lia). done.
  - destruct (to_signed AT x =? SIGNED_MIN AT); [done|]. by rewrite (set_exec _ x _ stack).
  - by rewrite (set_exec _ x _ stack).
Qed.

Lemma RegsInfo_Get_exec {S} (s : S) reg v :
  0 ≤ reg < 64 → reg_value regs_info reg = Some v → RegsInfo_Get reg regs_info s = Ret v s.
Proof.
  intros Hreg Hv. unfold RegsInfo_Get, IsSaved, reg_value in *. destruct (Z.gtb_spec reg MAX_REGISTERS); [unfold MAX_REGISTERS in *; lia|].
  destruct (Z.geb_spec reg 64); [lia|]. rewrite Z.shiftl_1_l, flag_set_mod by lia.
  unfold mbind, prog_bind, mret, prog_ret, element. by destruct (Z.testbit (saved_reg_map regs_info) reg); rewrite Hv.
Qed.

(** A signed operand goes through the unsigned 64-bit value. *)
Lemma to_address_operand v offset :
  to_address AT (v + to_address AT (u64 offset)) = to_address AT (v + offset).
Proof.
  unfold to_address, wrap. rewrite Zplus_mod_idemp_r. rewrite <-(Zplus_mod_idemp_r (u64 offset)), <-(Zplus_mod_idemp_r offset).
  do 2 f_equal. destruct AT; cbn [bits_of]; unfold u64, wrap; [|apply Zmod_mod].
  apply Z.mod_mod_divide. by exists (2 ^ 32).
Qed.

Lemma breg_exec s reg offset v stack :
  0 ≤ reg < 32 → reg < Z.of_nat (length (regs regs_info)) → reg_value regs_info reg = Some v →
  stack_ s = stack → cur_op_ s = 0x70 + reg → operands_ s = [to_address AT (u64 offset)] →
  op_breg AT regs_info s = Ret () (s <| stack_ := to_address AT (v + offset) :: stack |>).
Proof.
  intros Hreg Htot Hv Est Ecur Eop. unfold op_breg. unfold mbind at 1, prog_bind at 1, get.
  rewrite Ecur, total_small by done. replace (0x70 + reg - 0x70) with reg by lia.
  assert (u16 reg = reg) as -> by (apply Z.mod_small; lia). destruct (Z.geb_spec reg (Z.of_nat (length (regs regs_info)))); [lia|].
  unfold mbind, prog_bind. rewrite (RegsInfo_Get_exec s reg v) by (done || lia).
  change ((OperandAt 0 ≫= λ operand, push_front (to_address AT (v + operand))) s =
    Ret () (s <| stack_ := to_address AT (v + offset) :: stack |>)).
  rewrite (operand_exec _ _ _ _ Eop). unfold push_front, modify. by rewrite to_address_operand, Est.
Qed.

Lemma exec_op end_ s0 n0 s a b stack vs n stack' :
  decodes end_ n0 s0 s → at_state s a stack → 0 ≤ a → a + 1 < 2 ^ 64 → a < end_ → c a = Some b → b ≠ 0x13 →
  handle_func (op_at b) ≠ OP_ILLEGAL → num_required_stack_values (op_at b) ≤ Z.of_nat (length stack) →
  (∀ s, at_state s (a + 1) stack → operands_ s = [] →
     read_operands AT m (operand_encodings (op_at b)) s =
       Ret () (s <| op_memory := set_cur_offset (a + 1 + n) (op_memory s) |> <| operands_ := vs |>)) →
  (∀ s, stack_ s = stack → cur_op_ s = b → operands_ s = vs →
     kOpHandleFuncList AT r regs_info (handle_func (op_at b)) s = Ret () (s <| stack_ := stack' |>)) →
  ∃ s', decodes end_ (S n0) s0 s' ∧ at_state s' (a + 1 + n) stack'.
Proof.
  intros Hd Hat Ha Htop Hend Hb Hdrop Hf Hreq Hops Hexec.
  pose proof (Decode_handler s a b stack vs n Hat Ha Htop Hb Hf Hreq Hops) as E.
  destruct Hat as (Ea & Est & Er). rewrite Hexec in E by done.
  eexists. split; [eapply decodes_snoc; [done|lia|done|done]|]. done.
Qed.

(** An entry of the table the compiler uses. *)
Definition op_entry (b : Z) (f : DwarfOpHandleFunc) (encodings : list Z) (required : Z) : Prop :=
  handle_func (op_at b) = f ∧ operand_encodings (op_at b) = encodings ∧ num_required_stack_values (op_at b) = required ∧
  f ≠ OP_ILLEGAL ∧ b ≠ 0x13.

Lemma exec_simple end_ s0 n0 s a b f required stack stack' :
  decodes end_ n0 s0 s → at_state s a stack → 0 ≤ a → a < end_ → end_ + 10 < 2 ^ 64 → c a = Some b →
  op_entry b f [] required → required ≤ Z.of_nat (length stack) →
  (∀ s, stack_ s = stack → kOpHandleFuncList AT r regs_info f s = Ret () (s <| stack_ := stack' |>)) →
  ∃ s', decodes end_ (S n0) s0 s' ∧ at_state s' (a + 1) stack'.
Proof.
  intros Hd Hat Ha Hend Htop Hb (<- & Ee & <- & Hf & Hdrop) Hreq Hexec. rewrite <-(Z.add_0_r (a + 1)).
  eapply (exec_op end_ s0 n0 s a b stack []); try done; [lia| |intros; by apply Hexec].
  rewrite Ee. intros s1. apply read_no_operands.
Qed.

Lemma exec_one end_ s0 n0 s a b f enc required stack v n stack' :
  decodes end_ n0 s0 s → at_state s a stack → 0 ≤ a → a < end_ → end_ + 10 < 2 ^ 64 → c a = Some b →
  op_entry b f [enc] required → required ≤ Z.of_nat (length stack) →
  (∀ d, cur_offset_ d = a + 1 → ReadEncodedValue m AT enc d = Ret v (set_cur_offset (a + 1 + n) d)) →
  (∀ s, stack_ s = stack → cur_op_ s = b → operands_ s = [to_address AT v] →
     kOpHandleFuncList AT r regs_info f s = Ret () (s <| stack_ := stack' |>)) →
  ∃ s', decodes end_ (S n0) s0 s' ∧ at_state s' (a + 1 + n) stack'.
Proof.
  intros Hd Hat Ha Hend Htop Hb (<- & Ee & <- & Hf & Hdrop) Hreq Hread Hexec.
  eapply (exec_op end_ s0 n0 s a b stack [to_address AT v]); try done; [lia|].
  rewrite Ee. intros s1. by apply read_one_operand.
Qed.

Lemma op_at_breg reg : 0 ≤ reg < 32 → op_entry (0x70 + reg) OP_BREG [DW_EH_PE_sleb128] 0.
Proof.
  intros Hreg. assert (Forall (λ reg, handle_func (op_at (0x70 + reg)) = OP_BREG ∧
    operand_encodings (op_at (0x70 + reg)) = [DW_EH_PE_sleb128] ∧ num_required_stack_values (op_at (0x70 + reg)) = 0) (seqZ 0 32)) as Hall
    by (vm_compute; repeat constructor).
  rewrite Forall_forall in Hall. destruct (Hall reg) as (? & ? & ?); [apply elem_of_seqZ; lia|].
  split_and!; try done. lia.
Qed.
Lemma op_at_binop o : op_entry (binop_code o) (binop_func o) [] 2.
Proof. by destruct o. Qed.
Lemma op_at_unop o : op_entry (unop_code o) (unop_func o) [] 1.
Proof. by destruct o. Qed.

Lemma deref_exec s a n bytes stack :
  stack_ s = a :: stack → ReadFully r a n = Some bytes →
  (addr ← StackPop; match ReadFully r addr n with None => fail_at addr | Some bytes => push_front (le_value bytes) end) s =
    Ret () (s <| stack_ := le_value bytes :: stack |>).
Proof. intros Est E. rewrite (pop_exec _ _ _ _ Est), E. done. Qed.

Lemma bits_small z : 0 ≤ z < 2 ^ bits_of AT → 0 ≤ z < 2 ^ 64.
Proof. destruct AT; cbn [bits_of]; lia. Qed.

Lemma to_address_small z : 0 ≤ z < 2 ^ bits_of AT → to_address AT z = z.
Proof. apply Z.mod_small. Qed.

(** The operations [code] of a term push its value. *)
Definition pushes (end_ : Z) (code : list Z) (n : nat) (v : Z) : Prop := ∀ s a stack,
  at_state s a stack → 0 ≤ a → a + Z.of_nat (length code) ≤ end_ → stored c a code →
  ∃ s', decodes end_ n s s' ∧ at_state s' (a + Z.of_nat (length code)) (v :: stack).

(** The operation behind [code] starts with the value of [code]. *)
Lemma pushes_then end_ code n x s0 n0 s a stack b bytes :
  pushes end_ code n x → decodes end_ n0 s0 s → at_state s a stack → 0 ≤ a →
  a + Z.of_nat (length (code ++ b :: bytes)) ≤ end_ → stored c a (code ++ b :: bytes) →
  ∃ s1 a1, decodes end_ (n0 + n) s0 s1 ∧ at_state s1 a1 (x :: stack) ∧ c a1 = Some b ∧ stored c (a1 + 1) bytes ∧
    0 ≤ a1 < end_ ∧ a + Z.of_nat (length (code ++ b :: bytes)) = a1 + 1 + Z.of_nat (length bytes).
Proof.
  intros Hp Hd Hat Ha Hend Hs. apply stored_app in Hs as [Hs Hb]. apply stored_cons in Hb as [Hb Hbytes].
  rewrite length_app in *. cbn [length] in *. destruct (Hp s a stack) as (s1 & Hd1 & Hat1); [done|done|lia|done|].
  exists s1, (a + Z.of_nat (length code)). split_and!; [by eapply decodes_app|done|done|done|lia..].
Qed.

Lemma pushes_simple end_ code n x b f v :
  pushes end_ code n x → end_ + 10 < 2 ^ 64 → op_entry b f [] 1 →
  (∀ s stack, stack_ s = x :: stack → kOpHandleFuncList AT r regs_info f s = Ret () (s <| stack_ := v :: stack |>)) →
  pushes end_ (code ++ [b]) (S n) v.
Proof.
  intros Hp Htop Hop Hexec s a stack Hat Ha Hend Hs.
  destruct (pushes_then end_ code n x s 0 s a stack b []) as (s1 & a1 & Hd & Hat1 & Hb & _ & Ha1 & ->);
    [done|apply decodes_nil|done..|]. rewrite Z.add_0_r.
  eapply (exec_simple end_ s n s1 a1 b); [done|done|lia|lia|done|done|done|cbn; lia|]. intros s2 Est. by apply Hexec.
Qed.

Lemma pushes_operand end_ code n x b bytes f enc w v :
  pushes end_ code n x → end_ + 10 < 2 ^ 64 → op_entry b f [enc] 1 →
  (∀ a d, 0 ≤ a → a + 10 < 2 ^ 64 → stored c a bytes → cur_offset_ d = a →
     ReadEncodedValue m AT enc d = Ret w (set_cur_offset (a + Z.of_nat (length bytes)) d)) →
  (∀ s stack, stack_ s = x :: stack → operands_ s = [to_address AT w] →
     kOpHandleFuncList AT r regs_info f s = Ret () (s <| stack_ := v :: stack |>)) →
  pushes end_ (code ++ b :: bytes) (S n) v.
Proof.
  intros Hp Htop Hop Hread Hexec s a stack Hat Ha Hend Hs.
  destruct (pushes_then end_ code n x s 0 s a stack b bytes) as (s1 & a1 & Hd & Hat1 & Hb & Hbytes & Ha1 & ->);
    [done|apply decodes_nil|done..|].
  eapply (exec_one end_ s n s1 a1 b); [done|done|lia|lia|done|done|done|cbn; lia| |].
  - intros d Hd'. apply Hread; (done || lia).
  - intros s2 Est _ Eop. by apply Hexec.
Qed.

Lemma pushes_first end_ b bytes f enc w v :
  end_ + 10 < 2 ^ 64 → op_entry b f [enc] 0 →
  (∀ a d, 0 ≤ a → a + 10 < 2 ^ 64 → stored c a bytes → cur_offset_ d = a →
     ReadEncodedValue m AT enc d = Ret w (set_cur_offset (a + Z.of_nat (length bytes)) d)) →
  (∀ s, cur_op_ s = b → operands_ s = [to_address AT w] →
     kOpHandleFuncList AT r regs_info f s = Ret () (s <| stack_ := v :: stack_ s |>)) →
  pushes end_ (b :: bytes) 1 v.
Proof.
  intros Htop Hop Hread Hexec s a stack Hat Ha Hend Hs. apply stored_cons in Hs as [Hb Hs]. cbn [length] in *.
  rewrite Nat2Z.inj_succ, <-Z.add_1_l, Z.add_assoc.
  eapply (exec_one end_ s 0 s a b); [apply decodes_nil|done|done|lia|done|done|done|lia| |].
  - intros d Hd. apply Hread; (done || lia).
  - intros s1 <- Ecur Eop. by apply Hexec.
Qed.

Lemma plus_uconst_exec s x w stack :
  stack_ s = x :: stack → operands_ s = [w] → op_plus_uconst AT s = Ret () (s <| stack_ := to_address AT (x + w) :: stack |>).
Proof.
  intros Est Eop. unfold op_plus_uconst. rewrite (top_exec _ x stack) by done.
  rewrite (operand_exec _ _ _ _ Eop). by apply (set_exec _ x).
Qed.

Lemma deref_size_exec s a n bytes stack :
  stack_ s = a :: stack → operands_ s = [n] → 0 < n ≤ sizeof AT → ReadFully r a n = Some bytes →
  op_deref_size AT r s = Ret () (s <| stack_ := le_value bytes :: stack |>).
Proof.
  intros Est Eop Hn E. unfold op_deref_size. rewrite (operand_exec _ _ _ _ Eop).
  destruct ((n >? sizeof AT) || (n =? 0)) eqn:En; [lia|]. by eapply deref_exec.
Qed.

Lemma compile_pushes end_ t v :
  end_ + 10 < 2 ^ 64 → encodable AT regs_info t → value AT r regs_info t = Some v → pushes end_ (compile t) (ops_of t) v.
Proof.
  intros Htop. revert v. induction t as [w|reg offset|t IH|n t IH|t IH w|o t IH|o t1 IH1 t2 IH2]; intros v Henc Hv;
    cbn [compile ops_of value encodable] in *; repeat (apply bind_Some in Hv as (? & ? & Hv)); simplify_eq.
  - eapply (pushes_first _ _ _ OP_PUSH); [done|done|intros; apply read_uleb; (done || by apply bits_small)|].
    intros s _ Eop. cbn [kOpHandleFuncList]. unfold op_push, modify. rewrite Eop, to_address_small by done. done.
  - destruct Henc as (Hreg & Htot & Hoff). eapply (pushes_first _ _ _ OP_BREG); [done|by apply op_at_breg|intros; by apply read_sleb|].
    intros s Ecur Eop. by apply (breg_exec _ reg).
  - eapply (pushes_simple _ _ _ _ _ OP_DEREF); [by apply IH|done|done|]. intros s stack Est. by eapply deref_exec.
  - destruct Henc as [Hn Henc]. eapply (pushes_operand _ _ _ _ _ _ OP_DEREF_SIZE); [by apply IH|done|done| |].
    + intros a d Ha Ha' [Hb _]%stored_cons Hd. apply read_udata1; (done || lia).
    + intros s stack Est Eop. rewrite to_address_small in Eop by (destruct AT; cbn in *; lia). by eapply deref_size_exec.
  - destruct Henc as [Hw Henc]. eapply (pushes_operand _ _ _ _ _ _ OP_PLUS_UCONST); [by apply IH|done|done| |].
    + intros. apply read_uleb; (done || by apply bits_small).
    + intros s stack Est Eop. rewrite to_address_small in Eop by done. by apply plus_uconst_exec.
  - eapply pushes_simple; [by apply IH|done|apply op_at_unop|]. intros s stack Est. by eapply unop_exec.
  - destruct Henc as [Henc1 Henc2]. specialize (IH1 _ Henc1 H1). specialize (IH2 _ Henc2 H2).
    intros s a stack Hat Ha Hend Hs. rewrite length_app in *. apply stored_app in Hs as [Hs1 Hs2].
    destruct (IH1 s a stack) as (s1 & Hd1 & Hat1); [done|done|lia|done|].
    destruct (pushes_then end_ (compile t2) (ops_of t2) x0 s (ops_of t1) s1 (a + Z.of_nat (length (compile t1))) (x :: stack) (binop_code o) [])
      as (s2 & a2 & Hd & Hat2 & Hb & _ & Ha2 & E); [done..|lia|lia|done|].
    rewrite Nat2Z.inj_add, Z.add_assoc, E, Z.add_0_r.
    eapply (exec_simple end_ s _ s2 a2); [done|done|lia|lia|done|done|apply op_at_binop|cbn; lia|].
    intros s3 Est. by eapply binop_exec.
Qed.
End run.

(** C35. The expression a compiler writes for a term over registers, constants,
    memory and all arithmetic, bitwise, shift and comparison operations
    evaluates to the value of the term, which is left alone on the stack.  The
    term may have up to 1000 operations and its value must be defined: its
    memory can be read and no division, shift or negation is undefined. *)
Theorem Eval_compiled AT {M R} `{Memory M} `{Memory R} (m : M) (r : R) regs_info c limit t v start s :
  Reads limit m c → 8 ≤ limit → regs_ok regs_info →
  0 ≤ start → start + Z.of_nat (length (compile t)) + 10 < 2 ^ 64 → (ops_of t ≤ 1000)%nat →
  stored c start (compile t) → encodable AT regs_info t → value AT r regs_info t = Some v →
  ∃ s', Eval AT m r regs_info start (start + Z.of_nat (length (compile t))) s = Ret () s' ∧
    stack_ s' = [v] ∧ is_register_ s' = false ∧ cur_offset_ (op_memory s') = start + Z.of_nat (length (compile t)).
Proof.
  intros Hm Hl Hregs Hstart Htop Hops Hs Henc Hv.
  destruct (compile_pushes AT m r regs_info c limit Hl Hregs (start + Z.of_nat (length (compile t))) t v ltac:(lia) Henc Hv
    (start_state start s) start []) as (s' & Hd & Ecur & Est & Er); [done|done|lia|done|].
  exists s'. split; [|done]. eapply Eval_decodes; [done|lia|done].
Qed.

Lemma Eval_compiled_witness :
  let t := Binary Add (Deref (Reg 1 8)) (Binary Shl (Const 3) (Const 4)) in
  let m := mkBuffer (compile t) in
  let r := mkBuffer (repeat 0 208 ++ [0x78; 0x56; 0x34; 0x12; 0; 0; 0; 0]) in
  ∃ s', Eval uint64_t m r sample_regs 0 (Z.of_nat (length (compile t))) (DwarfOp_new DwarfMemory_new) = Ret () s' ∧
    stack_ s' = [0x12345678 + 48].
Proof.
  intros t m r.
  assert (value uint64_t r sample_regs t = Some (0x12345678 + 48)) as Hv by by vm_compute.
  assert (stored (list_contents (raw_ m)) 0 (compile t)) as Hs by by vm_compute.
  assert (encodable uint64_t sample_regs t) as Henc by (cbn; lia).
  destruct (Eval_compiled uint64_t m r sample_regs (list_contents (raw_ m)) 8 t (0x12345678 + 48) 0 (DwarfOp_new DwarfMemory_new))
    as (s' & E & Est & _); [apply _|done|by split|done|by vm_compute|cbn; lia|done|done|done|].
  exists s'. rewrite Z.add_0_l in E. split; [exact E|exact Est].
Defined.
