(* ===== verification/DwarfCfa.v ===== *)
(** * Call frame instructions

    unwindstack/DwarfCfa.cpp, DwarfCfa.h, DwarfLocation.h and DwarfStructs.h:
    the instructions that say, for every program counter of a function, where
    the registers of its caller are.  The loop that executes them is
    [GetLocationInfo]; [cfa_step] is one turn of it.  The log functions print
    nothing in this build and are left out. *)
From S2P Require Import Prelude UnwindMemory Outcome DwarfMemory DwarfOp.

(** ** Data *)

Inductive ArchEnum := ARCH_UNKNOWN | ARCH_ARM | ARCH_ARM64 | ARCH_X86 | ARCH_X86_64 | ARCH_MIPS | ARCH_MIPS64.
#[global] Instance ArchEnum_eq_dec : EqDecision ArchEnum.
Proof. solve_decision. Defined.

Inductive DwarfLocationEnum :=
| DWARF_LOCATION_INVALID | DWARF_LOCATION_UNDEFINED | DWARF_LOCATION_OFFSET | DWARF_LOCATION_VAL_OFFSET
| DWARF_LOCATION_REGISTER | DWARF_LOCATION_EXPRESSION | DWARF_LOCATION_VAL_EXPRESSION
| DWARF_LOCATION_PSEUDO_REGISTER.
#[global] Instance DwarfLocationEnum_eq_dec : EqDecision DwarfLocationEnum.
Proof. solve_decision. Defined.

(** [values] has two elements; those not given are 0. *)
Record DwarfLocation := Loc { type : DwarfLocationEnum; value0 : Z; value1 : Z }.
#[global] Instance DwarfLocation_eq_dec : EqDecision DwarfLocation.
Proof. solve_decision. Defined.

Record DwarfCie := mkCie {
  version : Z; fde_address_encoding : Z; lsda_encoding : Z; segment_size : Z; augmentation_string : list Z;
  personality_handler : Z; cie_cfa_instructions_offset : Z; cie_cfa_instructions_end : Z;
  code_alignment_factor : Z; data_alignment_factor : Z; return_address_register : Z; is_signal_frame : bool }.
#[global] Instance DwarfCie_updatable : Updatable DwarfCie := λ c,
  mkCie (version c) (fde_address_encoding c) (lsda_encoding c) (segment_size c) (augmentation_string c)
    (personality_handler c) (cie_cfa_instructions_offset c) (cie_cfa_instructions_end c)
    (code_alignment_factor c) (data_alignment_factor c) (return_address_register c) (is_signal_frame c).
Definition DwarfCie_new : DwarfCie := mkCie 0 0 0 0 [] 0 0 0 0 0 0 false.

Record DwarfFde := mkFde {
  cie_offset : Z; cfa_instructions_offset : Z; cfa_instructions_end : Z; pc_start : Z; pc_end : Z;
  lsda_address : Z; cie : option DwarfCie }.
#[global] Instance DwarfFde_updatable : Updatable DwarfFde := λ f,
  mkFde (cie_offset f) (cfa_instructions_offset f) (cfa_instructions_end f) (pc_start f) (pc_end f)
    (lsda_address f) (cie f).
Definition DwarfFde_new : DwarfFde := mkFde 0 0 0 0 0 0 None.

Definition CFA_REG : Z := 2 ^ 16 - 1.
Definition ARM64_PREG_RA_SIGN_STATE : Z := 34.

(** The locations, the [cie] they belong to and the program counters they are
    valid for. *)
Record DwarfLocations := mkLocations {
  locations : gmap Z DwarfLocation; loc_cie : option DwarfCie; loc_pc_start : Z; loc_pc_end : Z }.
#[global] Instance DwarfLocations_updatable : Updatable DwarfLocations := λ l,
  mkLocations (locations l) (loc_cie l) (loc_pc_start l) (loc_pc_end l).
Definition DwarfLocations_new : DwarfLocations := mkLocations ∅ None 0 0.

(** ** The table of instructions *)

Inductive DisplayType :=
| DWARF_DISPLAY_NONE | DWARF_DISPLAY_REGISTER | DWARF_DISPLAY_NUMBER | DWARF_DISPLAY_SIGNED_NUMBER
| DWARF_DISPLAY_EVAL_BLOCK | DWARF_DISPLAY_ADDRESS | DWARF_DISPLAY_SET_LOC | DWARF_DISPLAY_ADVANCE_LOC.
Record Info := mkInfo {
  cfa_name : string; supported_version : Z; cfa_num_operands : Z; cfa_operand_encodings : list Z;
  display_operands : list DisplayType }.

Definition cfa_00 : list Info := [
  mkInfo "DW_CFA_nop" 2 0 [] [];
  mkInfo "DW_CFA_set_loc" 2 1 [DW_EH_PE_absptr] [DWARF_DISPLAY_SET_LOC];
  mkInfo "DW_CFA_advance_loc1" 2 1 [DW_EH_PE_udata1] [DWARF_DISPLAY_ADVANCE_LOC];
  mkInfo "DW_CFA_advance_loc2" 2 1 [DW_EH_PE_udata2] [DWARF_DISPLAY_ADVANCE_LOC];
  mkInfo "DW_CFA_advance_loc4" 2 1 [DW_EH_PE_udata4] [DWARF_DISPLAY_ADVANCE_LOC];
  mkInfo "DW_CFA_offset_extended" 2 2 [DW_EH_PE_uleb128; DW_EH_PE_uleb128] [DWARF_DISPLAY_REGISTER; DWARF_DISPLAY_NUMBER];
  mkInfo "DW_CFA_restore_extended" 2 1 [DW_EH_PE_uleb128] [DWARF_DISPLAY_REGISTER];
  mkInfo "DW_CFA_undefined" 2 1 [DW_EH_PE_uleb128] [DWARF_DISPLAY_REGISTER];
  mkInfo "DW_CFA_same_value" 2 1 [DW_EH_PE_uleb128] [DWARF_DISPLAY_REGISTER];
  mkInfo "DW_CFA_register" 2 2 [DW_EH_PE_uleb128; DW_EH_PE_uleb128] [DWARF_DISPLAY_REGISTER; DWARF_DISPLAY_REGISTER];
  mkInfo "DW_CFA_remember_state" 2 0 [] [];
  mkInfo "DW_CFA_restore_state" 2 0 [] [];
  mkInfo "DW_CFA_def_cfa" 2 2 [DW_EH_PE_uleb128; DW_EH_PE_uleb128] [DWARF_DISPLAY_REGISTER; DWARF_DISPLAY_NUMBER];
  mkInfo "DW_CFA_def_cfa_register" 2 1 [DW_EH_PE_uleb128] [DWARF_DISPLAY_REGISTER];
  mkInfo "DW_CFA_def_cfa_offset" 2 1 [DW_EH_PE_uleb128] [DWARF_DISPLAY_NUMBER];
  mkInfo "DW_CFA_def_cfa_expression" 2 1 [DW_EH_PE_block] [DWARF_DISPLAY_EVAL_BLOCK]].
Definition cfa_10 : list Info := [
  mkInfo "DW_CFA_expression" 2 2 [DW_EH_PE_uleb128; DW_EH_PE_block] [DWARF_DISPLAY_REGISTER; DWARF_DISPLAY_EVAL_BLOCK];
  mkInfo "DW_CFA_offset_extended_sf" 2 2 [DW_EH_PE_uleb128; DW_EH_PE_sleb128] [DWARF_DISPLAY_REGISTER; DWARF_DISPLAY_SIGNED_NUMBER];
  mkInfo "DW_CFA_def_cfa_sf" 2 2 [DW_EH_PE_uleb128; DW_EH_PE_sleb128] [DWARF_DISPLAY_REGISTER; DWARF_DISPLAY_SIGNED_NUMBER];
  mkInfo "DW_CFA_def_cfa_offset_sf" 2 1 [DW_EH_PE_sleb128] [DWARF_DISPLAY_SIGNED_NUMBER];
  mkInfo "DW_CFA_val_offset" 2 2 [DW_EH_PE_uleb128; DW_EH_PE_uleb128] [DWARF_DISPLAY_REGISTER; DWARF_DISPLAY_NUMBER];
  mkInfo "DW_CFA_val_offset_sf" 2 2 [DW_EH_PE_uleb128; DW_EH_PE_sleb128] [DWARF_DISPLAY_REGISTER; DWARF_DISPLAY_SIGNED_NUMBER];
  mkInfo "DW_CFA_val_expression" 2 2 [DW_EH_PE_uleb128; DW_EH_PE_block] [DWARF_DISPLAY_REGISTER; DWARF_DISPLAY_EVAL_BLOCK];
  mkInfo "" 0 0 [] [];
  mkInfo "" 0 0 [] [];
  mkInfo "" 0 0 [] [];
  mkInfo "" 0 0 [] [];
  mkInfo "" 0 0 [] [];
  mkInfo "" 0 0 [] [];
  mkInfo "" 0 0 [] [];
  mkInfo "" 0 0 [] [];
  mkInfo "" 0 0 [] []].
Definition cfa_20 : list Info := [
  mkInfo "" 0 0 [] [];
  mkInfo "" 0 0 [] [];
  mkInfo "" 0 0 [] [];
  mkInfo "" 0 0 [] [];
  mkInfo "" 0 0 [] [];
  mkInfo "" 0 0 [] [];
  mkInfo "" 0 0 [] [];
  mkInfo "" 0 0 [] [];
  mkInfo "" 0 0 [] [];
  mkInfo "" 0 0 [] [];
  mkInfo "" 0 0 [] [];
  mkInfo "" 0 0 [] [];
  mkInfo "" 0 0 [] [];
  mkInfo "DW_CFA_AARCH64_negate_ra_state" 3 0 [] [];
  mkInfo "DW_CFA_GNU_args_size" 2 1 [DW_EH_PE_uleb128] [DWARF_DISPLAY_NUMBER];
  mkInfo "DW_CFA_GNU_negative_offset_extended" 2 2 [DW_EH_PE_uleb128; DW_EH_PE_uleb128] [DWARF_DISPLAY_REGISTER; DWARF_DISPLAY_NUMBER];
  mkInfo "" 0 0 [] [];
  mkInfo "" 0 0 [] [];
  mkInfo "" 0 0 [] [];
  mkInfo "" 0 0 [] [];
  mkInfo "" 0 0 [] [];
  mkInfo "" 0 0 [] [];
  mkInfo "" 0 0 [] [];
  mkInfo "" 0 0 [] [];
  mkInfo "" 0 0 [] [];
  mkInfo "" 0 0 [] [];
  mkInfo "" 0 0 [] [];
  mkInfo "" 0 0 [] [];
  mkInfo "" 0 0 [] [];
  mkInfo "" 0 0 [] [];
  mkInfo "" 0 0 [] []].

(** The initializer has 63 entries; the last element is zero. *)
Definition kTable : list Info := cfa_00 ++ cfa_10 ++ cfa_20 ++ [mkInfo "" 0 0 [] []].
Definition cfa_at (cfa_low : Z) : Info := nth (Z.to_nat cfa_low) kTable (mkInfo "" 0 0 [] []).
#[global] Arguments cfa_at : simpl never.
Definition cfa_encodings (cfa : Info) : list Z :=
  take (Z.to_nat (cfa_num_operands cfa)) (cfa_operand_encodings cfa ++ [0; 0]).

(** ** The interpreter *)

(** The object, with the locations it fills in. *)
Record DwarfCfa := mkCfa {
  cfa_memory : DwarfMemory; cfa_last_error : DwarfErrorData; cur_pc_ : Z; cfa_operands : list Z;
  loc_reg_state_ : list DwarfLocations; loc_regs : DwarfLocations }.
#[global] Instance DwarfCfa_updatable : Updatable DwarfCfa := λ s,
  mkCfa (cfa_memory s) (cfa_last_error s) (cur_pc_ s) (cfa_operands s) (loc_reg_state_ s) (loc_regs s).

Definition cfa_fail_with {A} (c : DwarfErrorCode) : prog DwarfCfa A := λ s,
  Err (s <| cfa_last_error := mkError c (address (cfa_last_error s)) |>).
Definition cfa_reading {A} (m : prog DwarfMemory A) : prog DwarfCfa A :=
  on_error (zoom cfa_memory (λ d s, s <| cfa_memory := d |>) m)
    (λ s, s <| cfa_last_error := mkError DWARF_ERROR_MEMORY_INVALID (cur_offset_ (cfa_memory s)) |>).
Definition cfa_operand (i : Z) : prog DwarfCfa Z := s ← get; element (cfa_operands s) i.
Definition modify_locations (f : gmap Z DwarfLocation → gmap Z DwarfLocation) : prog DwarfCfa unit :=
  modify (λ s, s <| loc_regs := (loc_regs s) <| locations := f (locations (loc_regs s)) |> |>).
(** [loc_regs[reg] = loc]; the key is a [uint32_t]. *)
Definition set_location (reg : Z) (loc : DwarfLocation) : prog DwarfCfa unit := modify_locations <[u32 reg := loc]>.
Definition erase_location (reg : Z) : prog DwarfCfa unit := modify_locations (delete (u32 reg)).

Section interpreter.
Context (AT : AddressType) {M : Type} `{Memory M} (memory_ : M).
Variables (fde_ : DwarfFde) (cie_ : DwarfCie) (arch_ : ArchEnum) (cie_loc_regs_ : option DwarfLocations).

(** The product of an operand and the factor is an [int64_t], stored in the
    signed type of the address and then extended to 64 bits. *)
Definition signed_factored (operand : Z) : prog DwarfCfa Z :=
  let product := to_signed AT operand * data_alignment_factor cie_ in
  if (product <? - 2 ^ 63) || (product >=? 2 ^ 63) then undef SignedOverflow
  else mret (u64 (to_signed AT product)).

Definition cfa_nop : prog DwarfCfa unit := mret ().
Definition cfa_set_loc : prog DwarfCfa unit :=
  new_pc ← cfa_operand 0; modify (λ s, s <| cur_pc_ := new_pc |>).
Definition advance_pc (delta : Z) : prog DwarfCfa unit :=
  modify (λ s, s <| cur_pc_ := to_address AT (cur_pc_ s + (delta ⊠ code_alignment_factor cie_)) |>).
Definition cfa_advance_loc : prog DwarfCfa unit := delta ← cfa_operand 0; advance_pc delta.
Definition cfa_offset : prog DwarfCfa unit :=
  reg ← cfa_operand 0; value ← cfa_operand 1; set_location reg (Loc DWARF_LOCATION_OFFSET value 0).

(** The rule the common entry set, if it set one. *)
Definition restore_register (reg : Z) : prog DwarfCfa unit :=
  match cie_loc_regs_ with
  | None => cfa_fail_with DWARF_ERROR_ILLEGAL_STATE
  | Some cie_loc_regs =>
      match locations cie_loc_regs !! u32 reg with
      | None => erase_location reg
      | Some loc => set_location reg loc
      end
  end.
Definition cfa_restore : prog DwarfCfa unit := reg ← cfa_operand 0; restore_register reg.
Definition cfa_undefined : prog DwarfCfa unit :=
  reg ← cfa_operand 0; set_location reg (Loc DWARF_LOCATION_UNDEFINED 0 0).
Definition cfa_same_value : prog DwarfCfa unit := reg ← cfa_operand 0; erase_location reg.
Definition cfa_register : prog DwarfCfa unit :=
  reg ← cfa_operand 0; reg_dst ← cfa_operand 1; set_location reg (Loc DWARF_LOCATION_REGISTER reg_dst 0).

(** The whole [DwarfLocations] is pushed and restored, its range included. *)
Definition cfa_remember_state : prog DwarfCfa unit :=
  modify (λ s, s <| loc_reg_state_ := loc_regs s :: loc_reg_state_ s |>).
Definition cfa_restore_state : prog DwarfCfa unit :=
  s ← get;
  match loc_reg_state_ s with
  | [] => mret ()
  | top :: rest => modify (λ s, s <| loc_regs := top |> <| loc_reg_state_ := rest |>)
  end.

Definition cfa_def_cfa : prog DwarfCfa unit :=
  reg ← cfa_operand 0; offset ← cfa_operand 1; set_location CFA_REG (Loc DWARF_LOCATION_REGISTER reg offset).

(** Change of the current CFA rule, which must name a register. *)
Definition update_cfa (f : DwarfLocation → DwarfLocation) : prog DwarfCfa unit :=
  s ← get;
  match locations (loc_regs s) !! CFA_REG with
  | Some loc => if bool_decide (type loc = DWARF_LOCATION_REGISTER) then set_location CFA_REG (f loc)
                else cfa_fail_with DWARF_ERROR_ILLEGAL_STATE
  | None => cfa_fail_with DWARF_ERROR_ILLEGAL_STATE
  end.
Definition cfa_def_cfa_register : prog DwarfCfa unit :=
  reg ← cfa_operand 0; update_cfa (λ loc, Loc (type loc) reg (value1 loc)).
Definition cfa_def_cfa_offset : prog DwarfCfa unit :=
  offset ← cfa_operand 0; update_cfa (λ loc, Loc (type loc) (value0 loc) offset).
Definition cfa_def_cfa_expression : prog DwarfCfa unit :=
  length ← cfa_operand 0; s ← get;
  set_location CFA_REG (Loc DWARF_LOCATION_VAL_EXPRESSION length (cur_offset_ (cfa_memory s))).
Definition expression_rule (t : DwarfLocationEnum) : prog DwarfCfa unit :=
  reg ← cfa_operand 0; length ← cfa_operand 1; s ← get;
  set_location reg (Loc t length (cur_offset_ (cfa_memory s))).
Definition cfa_expression : prog DwarfCfa unit := expression_rule DWARF_LOCATION_EXPRESSION.
Definition cfa_offset_extended_sf : prog DwarfCfa unit :=
  reg ← cfa_operand 0; operand ← cfa_operand 1; value ← signed_factored operand;
  set_location reg (Loc DWARF_LOCATION_OFFSET value 0).
Definition cfa_def_cfa_sf : prog DwarfCfa unit :=
  operand ← cfa_operand 1; offset ← signed_factored operand; reg ← cfa_operand 0;
  set_location CFA_REG (Loc DWARF_LOCATION_REGISTER reg offset).
(** The state is checked before the product is formed. *)
Definition cfa_def_cfa_offset_sf : prog DwarfCfa unit :=
  update_cfa id;;
  operand ← cfa_operand 0; offset ← signed_factored operand;
  update_cfa (λ loc, Loc (type loc) (value0 loc) offset).
Definition cfa_val_offset : prog DwarfCfa unit :=
  reg ← cfa_operand 0; operand ← cfa_operand 1; offset ← signed_factored operand;
  set_location reg (Loc DWARF_LOCATION_VAL_OFFSET offset 0).
Definition cfa_val_offset_sf : prog DwarfCfa unit :=
  reg ← cfa_operand 0; operand ← cfa_operand 1; offset ← signed_factored operand;
  set_location reg (Loc DWARF_LOCATION_VAL_OFFSET offset 0).
Definition cfa_val_expression : prog DwarfCfa unit := expression_rule DWARF_LOCATION_VAL_EXPRESSION.
Definition cfa_gnu_negative_offset_extended : prog DwarfCfa unit :=
  reg ← cfa_operand 0; operand ← cfa_operand 1;
  let signed_value := to_signed AT operand in
  if signed_value =? SIGNED_MIN AT then undef SignedOverflow
  else set_location reg (Loc DWARF_LOCATION_OFFSET (u64 (- signed_value)) 0).
Definition cfa_aarch64_negate_ra_state : prog DwarfCfa unit :=
  if negb (bool_decide (arch_ = ARCH_ARM64)) then cfa_fail_with DWARF_ERROR_ILLEGAL_VALUE
  else
    s ← get;
    match locations (loc_regs s) !! ARM64_PREG_RA_SIGN_STATE with
    | None => set_location ARM64_PREG_RA_SIGN_STATE (Loc DWARF_LOCATION_PSEUDO_REGISTER 1 0)
    | Some loc => set_location ARM64_PREG_RA_SIGN_STATE (Loc (type loc) (Z.lxor (value0 loc) 1) (value1 loc))
    end.

Definition kCfaCallbackTable : list (option (prog DwarfCfa unit)) :=
  [Some cfa_nop; Some cfa_set_loc; Some cfa_advance_loc; Some cfa_advance_loc; Some cfa_advance_loc; Some cfa_offset;
   Some cfa_restore; Some cfa_undefined; Some cfa_same_value; Some cfa_register; Some cfa_remember_state;
   Some cfa_restore_state; Some cfa_def_cfa; Some cfa_def_cfa_register; Some cfa_def_cfa_offset;
   Some cfa_def_cfa_expression; Some cfa_expression; Some cfa_offset_extended_sf; Some cfa_def_cfa_sf;
   Some cfa_def_cfa_offset_sf; Some cfa_val_offset; Some cfa_val_offset_sf; Some cfa_val_expression] ++
  repeat None 22 ++
  [Some cfa_aarch64_negate_ra_state; Some cfa_nop; Some cfa_gnu_negative_offset_extended] ++
  repeat None 16.

Fixpoint read_cfa_operands (encodings : list Z) : prog DwarfCfa unit :=
  match encodings with
  | [] => mret ()
  | encoding :: encodings =>
      (if encoding =? DW_EH_PE_block then
         block_length ← cfa_reading (ReadULEB128 memory_);
         modify (λ s, s <| cfa_operands := cfa_operands s ++ [to_address AT block_length] |>
           <| cfa_memory := set_cur_offset (cur_offset_ (cfa_memory s) ⊞ block_length) (cfa_memory s) |>)
       else
         value ← cfa_reading (ReadEncodedValue memory_ AT encoding);
         modify (λ s, s <| cfa_operands := cfa_operands s ++ [to_address AT value] |>));;
      read_cfa_operands encodings
  end.

(** One instruction. *)
Definition cfa_step : prog DwarfCfa unit :=
  modify (λ s, s <| loc_regs := (loc_regs s) <| loc_pc_start := cur_pc_ s |> |> <| cfa_operands := [] |>);;
  cfa_value ← cfa_reading (ReadUnsigned memory_ 1);
  let cfa_low := Z.land cfa_value 0x3f in
  let high := Z.shiftr cfa_value 6 in
  if high =? 1 then advance_pc cfa_low
  else if high =? 2 then
    offset ← cfa_reading (ReadULEB128 memory_);
    value ← signed_factored offset;
    set_location cfa_low (Loc DWARF_LOCATION_OFFSET value 0)
  else if high =? 3 then restore_register cfa_low
  else
    match nth (Z.to_nat cfa_low) kCfaCallbackTable None with
    | None => cfa_fail_with DWARF_ERROR_ILLEGAL_VALUE
    | Some handle_func => read_cfa_operands (cfa_encodings (cfa_at cfa_low));; handle_func
    end.

Fixpoint cfa_loop (fuel : nat) (pc end_offset : Z) : prog DwarfCfa unit :=
  match fuel with
  | O => undef NoFuel
  | S fuel =>
      s ← get;
      if cur_pc_ s >? pc then modify (λ s, s <| loc_regs := (loc_regs s) <| loc_pc_end := cur_pc_ s |> |>)
      else if cur_offset_ (cfa_memory s) >=? end_offset then
        modify (λ s, s <| loc_regs := (loc_regs s) <| loc_pc_end := pc_end fde_ |> |>)
      else cfa_step;; cfa_loop fuel pc end_offset
  end.

(** The rules of the common entry are copied in first. *)
Definition start_locations (l : DwarfLocations) : DwarfLocations :=
  match cie_loc_regs_ with
  | None => l
  | Some cie_loc_regs => l <| locations := locations cie_loc_regs ∪ locations l |>
  end.

Definition cfa_fuel (start_offset end_offset : Z) : nat := S (Z.to_nat (end_offset - start_offset)).
Definition GetLocationInfo (pc start_offset end_offset : Z) : prog DwarfCfa unit :=
  modify (λ s, s <| loc_regs := (start_locations (loc_regs s)) <| loc_pc_start := to_address AT (pc_start fde_) |> |>
    <| cfa_last_error := mkError DWARF_ERROR_NONE 0 |>
    <| cfa_memory := set_cur_offset start_offset (cfa_memory s) |>
    <| cur_pc_ := to_address AT (pc_start fde_) |>);;
  cfa_loop (cfa_fuel start_offset end_offset) pc end_offset.
End interpreter.
