(* ===== verification/DwarfCfaProps.v ===== *)
(** * What the call frame instructions guarantee

    The rules [GetLocationInfo] returns for a program counter hold for the whole
    range it reports, which is what lets the caller cache them; the interpreter
    stays inside its operands, and it stops when no block length wraps the
    cursor around. *)
From S2P Require Import Prelude UnwindMemory UnwindMemProps Outcome DwarfMemory DwarfMemProps DwarfOp DwarfOpProps DwarfCfa.

(** ** Operands *)

(** How many operands an instruction's handler reads. *)
Definition cfa_need (low : nat) : nat :=
  match low with
  | 0 | 10 | 11 | 45 | 46 => 0
  | 1 | 2 | 3 | 4 | 6 | 7 | 8 | 13 | 14 | 15 | 19 => 1
  | _ => 2
  end%nat.

Lemma cfa_need_ok low :
  (low < 64)%nat → (cfa_need low ≤ length (cfa_encodings (cfa_at (Z.of_nat low))))%nat ∨ (23 ≤ low < 45 ∨ 48 ≤ low)%nat.
Proof.
  intros Hl. assert (forallb (λ low, (cfa_need low <=? length (cfa_encodings (cfa_at (Z.of_nat low))))%nat
    || ((23 <=? low) && (low <? 45))%nat || (48 <=? low)%nat) (seq 0 64) = true) as Hall by by vm_compute.
  rewrite forallb_forall in Hall. specialize (Hall low). rewrite in_seq in Hall. specialize (Hall ltac:(lia)).
  apply orb_true_iff in Hall as [[Hall|Hall]%orb_true_iff|Hall].
  - left. by apply Nat.leb_le.
  - apply andb_true_iff in Hall as [?%Nat.leb_le ?%Nat.ltb_lt]. right. lia.
  - apply Nat.leb_le in Hall. right. lia.
Qed.

Ltac unfold_handlers :=
  unfold cfa_nop, cfa_set_loc, cfa_advance_loc, advance_pc, cfa_offset, cfa_restore, restore_register,
    cfa_undefined, cfa_same_value, cfa_register, cfa_remember_state, cfa_restore_state, cfa_def_cfa, cfa_def_cfa_register,
    cfa_def_cfa_offset, cfa_def_cfa_expression, cfa_expression, cfa_val_expression, expression_rule, cfa_offset_extended_sf,
    cfa_def_cfa_sf, cfa_def_cfa_offset_sf, cfa_val_offset, cfa_val_offset_sf, cfa_gnu_negative_offset_extended,
    cfa_aarch64_negate_ra_state, set_location, erase_location, modify_locations, cfa_fail_with.

Section interpreter.
Context (AT : AddressType) {M : Type} `{Memory M} (m : M) (fde : DwarfFde) (cie_ : DwarfCie) (arch : ArchEnum).
Variable cie_loc_regs : option DwarfLocations.

(** Faults, whatever the program does. *)
Definition cfa_fault (f : fault) : Prop := f = BadShift ∨ f = SignedOverflow.

Lemma cfa_operand_safe i s (Q : Z → DwarfCfa → Prop) E :
  0 ≤ i < Z.of_nat (length (cfa_operands s)) → (∀ v, Q v s) → wp cfa_fault (cfa_operand i) s Q E.
Proof.
  intros Hi HQ. unfold cfa_operand, element. wp_steps; [apply HQ|]. apply lookup_ge_None in Heqo. lia.
Qed.

(** What one instruction keeps: every handler but the one of
    [DW_CFA_restore_state] leaves the range alone, and all but those of the
    instructions that move it leave the program counter alone. *)
Definition handler_ok (h : prog DwarfCfa unit) (need : nat) (P : DwarfCfa → DwarfCfa → Prop) : Prop :=
  ∀ s, (need ≤ length (cfa_operands s))%nat → wp cfa_fault h s (λ _ s', P s s') (λ _, True).

Lemma signed_factored_safe v s (Q : Z → DwarfCfa → Prop) E :
  (∀ w, Q w s) → wp cfa_fault (signed_factored AT cie_ v) s Q E.
Proof. intros HQ. unfold signed_factored. wp_steps; [by right|apply HQ]. Qed.

Ltac cfa_steps :=
  repeat (first
    [ apply cfa_operand_safe; [cbn in *; lia|intros ?]
    | apply signed_factored_safe; intros ?
    | wp_step ]; cbn beta).

Lemma update_cfa_ok f s (Q : DwarfCfa → Prop) :
  (∀ l, Q (s <| loc_regs := (loc_regs s) <| locations := l |> |>)) →
  wp cfa_fault (update_cfa f) s (λ _ s', Q s') (λ _, True).
Proof. intros HQ. unfold update_cfa, set_location, modify_locations, cfa_fail_with. wp_steps; done. Qed.

Definition entry_keeps (entry : nat * option (prog DwarfCfa unit)) : Prop :=
  match entry.2 with
  | Some h => handler_ok h (cfa_need entry.1) (λ s s', cfa_memory s' = cfa_memory s ∧
      (loc_pc_start (loc_regs s') = loc_pc_start (loc_regs s) ∨ entry.1 = 11%nat ∧ cur_pc_ s' = cur_pc_ s))
  | None => True
  end.

Lemma callbacks_keep : Forall entry_keeps (zip (seq 0 64) (kCfaCallbackTable AT cie_ arch cie_loc_regs)).
Proof.
  unfold kCfaCallbackTable. cbn [seq app repeat zip zip_with].
  repeat (apply Forall_cons; split); try done; unfold entry_keeps; cbn [fst snd].
  all: intros s Hn; cbn [cfa_need] in Hn.
  all: unfold_handlers.
  all: cfa_steps; try apply update_cfa_ok; intros; cfa_steps; try apply update_cfa_ok; intros; cbn; try (unfold cfa_fault); auto.
Qed.

Lemma handler_keeps low h :
  nth low (kCfaCallbackTable AT cie_ arch cie_loc_regs) None = Some h → entry_keeps (low, Some h).
Proof.
  intros Eh. pose proof callbacks_keep as Hall. rewrite Forall_lookup in Hall. apply (Hall low).
  assert (kCfaCallbackTable AT cie_ arch cie_loc_regs !! low = Some (Some h)) as El.
  { rewrite nth_lookup in Eh. destruct (_ !! low) as [o|]; cbn in Eh; by subst. }
  rewrite lookup_zip_with_Some. exists low, (Some h). split_and!; [done|apply lookup_seq|done].
  split; [lia|]. by apply lookup_lt_Some in El.
Qed.

Lemma no_callback low :
  (23 ≤ low < 45 ∨ 48 ≤ low)%nat → nth low (kCfaCallbackTable AT cie_ arch cie_loc_regs) None = None.
Proof.
  intros Hl. destruct (decide (low < 64)%nat) as [Hlt|]; [|apply nth_overflow; cbn; lia].
  assert (Forall (λ low, nth low (kCfaCallbackTable AT cie_ arch cie_loc_regs) None = None) (seq 23 22 ++ seq 48 16)) as Hall
    by (cbn; repeat constructor).
  rewrite Forall_forall in Hall. apply Hall. rewrite elem_of_app, !elem_of_seq. lia.
Qed.

Lemma cfa_reading_safe {A} (p : prog DwarfMemory A) s (Q : A → DwarfCfa → Prop) :
  reads_safely p → cursor_ok (cfa_memory s) →
  (∀ a d, p (cfa_memory s) = Ret a d → cursor_ok d → Q a (s <| cfa_memory := d |>)) →
  wp cfa_fault (cfa_reading p) s Q (λ _, True).
Proof.
  intros Hp Hc HQ. specialize (Hp _ Hc). unfold cfa_reading. wp_steps. unfold wp in *.
  destruct (p (cfa_memory s)) as [a d|d|f] eqn:E; [by apply HQ|done|by left].
Qed.

Lemma read_cfa_operands_safe encodings s (Q : unit → DwarfCfa → Prop) :
  cursor_ok (cfa_memory s) →
  (∀ s', cursor_ok (cfa_memory s') → loc_regs s' = loc_regs s → cur_pc_ s' = cur_pc_ s →
     length (cfa_operands s') = (length (cfa_operands s) + length encodings)%nat →
     (encodings = [] → cfa_memory s' = cfa_memory s) → Q () s') →
  wp cfa_fault (read_cfa_operands AT m encodings) s Q (λ _, True).
Proof.
  revert s Q. induction encodings as [|e encodings IH]; intros s Q Hc HQ; cbn [read_cfa_operands].
  { apply wp_ret, HQ; [done..|cbn; lia|done]. }
  assert (∀ v d, cursor_ok d → wp cfa_fault (read_cfa_operands AT m encodings)
    (s <| cfa_memory := d |> <| cfa_operands := cfa_operands s ++ [v] |>) Q (λ _, True)) as Hrest.
  { intros v d Hd. apply IH; [done|]. intros s' Hc' El Ep Elen _. apply HQ; [done..| |done].
    rewrite Elen. cbn. rewrite length_app. cbn. lia. }
  apply wp_bind. destruct (e =? DW_EH_PE_block).
  - wp_steps. apply cfa_reading_safe; [apply ReadULEB128_safe|done|]. intros v d _ Hd. wp_steps.
    apply (Hrest _ (set_cur_offset (cur_offset_ d ⊞ v) d)). apply u64_range.
  - wp_steps. apply cfa_reading_safe; [apply ReadEncodedValue_safe|done|]. intros v d _ Hd. wp_steps. by apply Hrest.
Qed.

(** The instruction is [DW_CFA_restore_state], and one byte long. *)
Definition restored (s s' : DwarfCfa) : Prop :=
  cur_pc_ s' = cur_pc_ s ∧
  ∃ v, ReadUnsigned m 1 (cfa_memory s) = Ret v (cfa_memory s') ∧ Z.land v 0x3f = 11 ∧ ¬ 1 ≤ Z.shiftr v 6 ≤ 3.

Lemma cfa_step_spec s :
  cursor_ok (cfa_memory s) →
  wp cfa_fault (cfa_step AT m cie_ arch cie_loc_regs) s
    (λ _ s', cursor_ok (cfa_memory s') ∧ (loc_pc_start (loc_regs s') = cur_pc_ s ∨ restored s s')) (λ _, True).
Proof.
  intros Hc. unfold cfa_step. wp_steps. apply cfa_reading_safe; [apply ReadUnsigned_safe|done|]. intros v d Ev Hd.
  change (ReadUnsigned m 1 (cfa_memory s) = Ret v d) in Ev.
  unfold advance_pc, set_location, modify_locations, restore_register, erase_location, cfa_fail_with.
  wp_steps; try (by split; [|left]).
  - apply cfa_reading_safe; [apply ReadULEB128_safe|done|]. intros w d' _ Hd'. wp_steps.
    apply signed_factored_safe. intros x. wp_steps. split; [done|by left].
  - done.
  - bool_hyps. pose proof (handler_keeps _ _ Heqo) as Hh.
    apply read_cfa_operands_safe; [done|]. intros s1 Hc1 El Ep Elen Em. cbn in El, Ep, Elen, Em.
    assert (Z.to_nat (Z.land v 63) < 64)%nat as Hlow by (pose proof (land_ones_range v 6 ltac:(done)) as Hr; change (2 ^ 6 - 1) with 63 in Hr; lia).
    eapply wp_mono; [apply Hh| |done].
    + rewrite Elen. destruct (cfa_need_ok _ Hlow) as [Hn|Hn]; [by rewrite Z2Nat.id in Hn by (apply Z.land_nonneg; by right)|].
      by rewrite no_callback in Heqo.
    + intros _ s2 [Em2 [Es|[E11 Ep2]]]; (split; [by rewrite Em2|]); [left; by rewrite Es, El|right].
      cbn [fst] in E11. assert (Z.land v 63 = 11) as Elow by lia. split; [by rewrite Ep2, Ep|]. exists v.
      split_and!; [|done|lia]. rewrite Ev, Em2, Em; [done|]. by rewrite Elow.
  - done.
Qed.

(** ** The range of the rules *)

(** One turn of the loop that executes an instruction. *)
Definition cfa_next (end_offset : Z) (s s' : DwarfCfa) : Prop :=
  cur_offset_ (cfa_memory s) < end_offset ∧ cfa_step AT m cie_ arch cie_loc_regs s = Ret () s'.

(** The program counter does not move back from [s] on. *)
Definition pcs_increase (end_offset : Z) (s : DwarfCfa) : Prop :=
  ∀ s1 s2, rtc (cfa_next end_offset) s s1 → cfa_next end_offset s1 s2 → cur_pc_ s1 ≤ cur_pc_ s2.

Lemma pcs_increase_step end_offset s s' : pcs_increase end_offset s → cfa_next end_offset s s' → pcs_increase end_offset s'.
Proof. intros Hp Hn s1 s2 H1 H2. apply Hp; [|done]. by eapply rtc_l. Qed.

Lemma pcs_increase_rtc end_offset s s' : pcs_increase end_offset s → rtc (cfa_next end_offset) s s' → cur_pc_ s ≤ cur_pc_ s'.
Proof.
  intros Hp Hr. induction Hr as [s|s s1 s2 H1 Hr IH]; [done|]. transitivity (cur_pc_ s1); [apply Hp; [done|done]|].
  apply IH. by eapply pcs_increase_step.
Qed.

(** The states in which the loop can stop for [pc]. *)
Definition stops (pc end_offset : Z) (s : DwarfCfa) : Prop :=
  pc < cur_pc_ s ∨ cur_pc_ s ≤ pc ∧ end_offset ≤ cur_offset_ (cfa_memory s).
Definition stopped (pc : Z) (s : DwarfCfa) : DwarfCfa :=
  s <| loc_regs := (loc_regs s) <| loc_pc_end := if cur_pc_ s >? pc then cur_pc_ s else pc_end fde |> |>.

(** The instructions executed for [pc], the last one told apart. *)
Inductive trace (pc end_offset : Z) : DwarfCfa → DwarfCfa → nat → Prop :=
| trace_nil s : trace pc end_offset s s 0
| trace_step s s1 s2 n :
    trace pc end_offset s s1 n → cur_pc_ s1 ≤ pc → cfa_next end_offset s1 s2 → trace pc end_offset s s2 (S n).

Lemma trace_cons pc end_offset s s1 s2 n :
  cur_pc_ s ≤ pc → cfa_next end_offset s s1 → trace pc end_offset s1 s2 n → trace pc end_offset s s2 (S n).
Proof.
  intros Hpc Hn Ht. induction Ht as [s1|s1 s2 s3 n Ht IH Hpc2 Hn2]; [|by econstructor; [apply IH|..]].
  econstructor; [constructor|done|done].
Qed.

Lemma trace_rtc pc end_offset s s' n : trace pc end_offset s s' n → rtc (cfa_next end_offset) s s'.
Proof. induction 1; [done|]. by eapply rtc_r. Qed.

#[local] Abbreviation loop := (cfa_loop AT m fde cie_ arch cie_loc_regs).

Lemma cfa_loop_inv fuel pc end_offset s s' :
  loop fuel pc end_offset s = Ret () s' →
  ∃ n s1, trace pc end_offset s s1 n ∧ (n < fuel)%nat ∧ stops pc end_offset s1 ∧ s' = stopped pc s1.
Proof.
  revert s. induction fuel as [|fuel IH]; intros s; cbn [cfa_loop]; [done|]. unfold mbind at 1, prog_bind at 1, get, stopped.
  destruct (Z.gtb_spec (cur_pc_ s) pc) as [Hgt|Hle].
  { intros [= <-]. exists 0%nat, s. split_and!; [constructor|lia|by left|]. by destruct (Z.gtb_spec (cur_pc_ s) pc); [|lia]. }
  destruct (Z.geb_spec (cur_offset_ (cfa_memory s)) end_offset) as [Hge|Hlt].
  { intros [= <-]. exists 0%nat, s. split_and!; [constructor|lia|by right|]. by destruct (Z.gtb_spec (cur_pc_ s) pc); [lia|]. }
  unfold mbind, prog_bind. destruct (cfa_step AT m cie_ arch cie_loc_regs s) as [[] s1|s1|f] eqn:E; [|done|done].
  intros (n & s2 & Ht & Hn & Hs & ->)%IH. exists (S n), s2. split_and!; [|lia|done|done]. by eapply trace_cons.
Qed.

Lemma trace_uncons pc end_offset s s1 n :
  trace pc end_offset s s1 (S n) → ∃ s0, cur_pc_ s ≤ pc ∧ cfa_next end_offset s s0 ∧ trace pc end_offset s0 s1 n.
Proof.
  revert s1. induction n as [|n IH]; intros s1 Ht; inversion Ht as [|? s2 ? ? Ht2 Hpc Hn]; subst.
  - inversion Ht2; subst. exists s1. split_and!; [done..|constructor].
  - destruct (IH _ Ht2) as (s0 & Hpc0 & Hn0 & Ht0). exists s0. split_and!; [done..|]. by econstructor.
Qed.

Lemma cfa_loop_trace fuel pc end_offset s s1 n :
  trace pc end_offset s s1 n → (n < fuel)%nat → stops pc end_offset s1 → loop fuel pc end_offset s = Ret () (stopped pc s1).
Proof.
  revert s fuel. induction n as [|n IH]; intros s [|fuel] Ht Hn Hs; try lia; cbn [cfa_loop];
    unfold mbind at 1, prog_bind at 1, get.
  - inversion Ht; subst. unfold stopped. destruct (Z.gtb_spec (cur_pc_ s1) pc); [done|].
    destruct Hs as [?|[_ ?]]; [lia|]. by destruct (Z.geb_spec (cur_offset_ (cfa_memory s1)) end_offset); [|lia].
  - apply trace_uncons in Ht as (s0 & Hpc & [Hc E] & Ht). destruct (Z.gtb_spec (cur_pc_ s) pc); [lia|].
    destruct (Z.geb_spec (cur_offset_ (cfa_memory s)) end_offset); [lia|]. unfold mbind, prog_bind. rewrite E. apply IH; [done|lia|done].
Qed.

Lemma cfa_next_cursor end_offset s s' : cfa_next end_offset s s' → cursor_ok (cfa_memory s) →
  cursor_ok (cfa_memory s') ∧ (loc_pc_start (loc_regs s') = cur_pc_ s ∨ restored s s').
Proof. intros [_ E] Hc. pose proof (cfa_step_spec s Hc) as Hs. unfold wp in Hs. by rewrite E in Hs. Qed.

Lemma trace_cursor pc end_offset s s' n : trace pc end_offset s s' n → cursor_ok (cfa_memory s) → cursor_ok (cfa_memory s').
Proof. induction 1 as [|s s1 s2 n _ IH _ Hn]; intros Hc; [done|]. by apply (cfa_next_cursor _ _ _ Hn), IH. Qed.

(** The same instructions are executed for every program counter that none of
    them has passed. *)
Lemma trace_other pc pc' end_offset s s1 n :
  pcs_increase end_offset s → trace pc end_offset s s1 n → cur_pc_ s1 ≤ pc' → trace pc' end_offset s s1 n.
Proof.
  intros Hp Ht. induction Ht as [s|s s1 s2 n Ht IH Hpc Hn]; intros Hle; [constructor|].
  assert (cur_pc_ s1 ≤ cur_pc_ s2) by (apply Hp; [by eapply trace_rtc|done]).
  econstructor; [apply IH; [done|lia]|lia|done].
Qed.
End interpreter.

Section range.
Context (AT : AddressType) {M : Type} `{Memory M} (m : M) (fde : DwarfFde) (cie_ : DwarfCie) (arch : ArchEnum).
Variable cie_loc_regs : option DwarfLocations.
Context (c : Z → option Z) (limit : Z) `{!Reads limit m c}.
Hypothesis Hlimit : 8 ≤ limit.
Hypothesis Hbytes : ∀ a b, c a = Some b → 0 ≤ b < 256.

Lemma ReadByte_inv d v d' :
  cursor_ok d → ReadUnsigned m 1 d = Ret v d' → c (cur_offset_ d) = Some v ∧ d' = advance 1 d.
Proof.
  intros Hd E. destruct (c (cur_offset_ d)) as [b|] eqn:Eb.
  - rewrite (ReadByte_stored m c limit Hlimit d b Hd Eb) in E. by simplify_eq.
  - exfalso. unfold ReadUnsigned, mbind, prog_bind in E. rewrite (ReadBytes_spec m c limit) in E by (done || lia). cbn zeta in E.
    by rewrite valid_prefix_none, decide_False in E by done.
Qed.

(** Only [DW_CFA_restore_state] at the very end leaves a wrong range. *)
Lemma not_restored end_offset s s' :
  cursor_ok (cfa_memory s) → cur_offset_ (cfa_memory s) < end_offset < 2 ^ 64 → end_offset ≤ cur_offset_ (cfa_memory s') →
  c (end_offset - 1) ≠ Some 0x0b → ¬ restored m s s'.
Proof.
  intros Hc Hlt Hge Hlast (_ & v & Ev & Elow & Ehigh). apply ReadByte_inv in Ev as [Ev Ed]; [|done].
  assert (cur_offset_ (cfa_memory s') = cur_offset_ (cfa_memory s) + 1) as Ecur.
  { rewrite Ed. unfold cursor_ok in Hc. apply u64_small. lia. }
  apply Hlast. replace (end_offset - 1) with (cur_offset_ (cfa_memory s)) by lia. rewrite Ev. f_equal.
  pose proof (Hbytes _ _ Ev) as Hv. rewrite Z.shiftr_div_pow2 in Ehigh by done.
  assert (Z.land v 63 = v mod 64) as Em by by apply (land_ones_mod v 6).
  pose proof (Z.div_mod v 64 ltac:(done)). change (2 ^ 6) with 64 in Ehigh.
  assert (0 ≤ v / 64 < 4) by (split; [apply Z.div_pos|apply Z.div_lt_upper_bound]; lia). lia.
Qed.

(** The state from which the instructions are executed. *)
Definition cfa_start (start_offset : Z) (s : DwarfCfa) : DwarfCfa :=
  s <| loc_regs := (start_locations cie_loc_regs (loc_regs s)) <| loc_pc_start := to_address AT (pc_start fde) |> |>
    <| cfa_last_error := mkError DWARF_ERROR_NONE 0 |>
    <| cfa_memory := set_cur_offset start_offset (cfa_memory s) |>
    <| cur_pc_ := to_address AT (pc_start fde) |>.

Lemma trace_range pc pc' end_offset s s1 n :
  pcs_increase AT m cie_ arch cie_loc_regs end_offset s → cursor_ok (cfa_memory s) → loc_pc_start (loc_regs s) = cur_pc_ s →
  end_offset < 2 ^ 64 → c (end_offset - 1) ≠ Some 0x0b →
  trace AT m cie_ arch cie_loc_regs pc end_offset s s1 n → stops pc end_offset s1 →
  loc_pc_start (loc_regs s1) ≤ pc' → (pc < cur_pc_ s1 → pc' < cur_pc_ s1) →
  trace AT m cie_ arch cie_loc_regs pc' end_offset s s1 n ∧ stops pc' end_offset s1.
Proof.
  intros Hp Hc Hstart Hend Hlast Ht Hs Hlo Hhi. destruct Ht as [s|s s0 s1 n Ht Hpc Hn].
  { rewrite Hstart in Hlo. split; [constructor|]. destruct Hs as [Hs|[Hs He]]; [specialize (Hhi Hs); lia|]. right. split; [lia|done]. }
  assert (cursor_ok (cfa_memory s0)) as Hc0 by by eapply trace_cursor.
  assert (loc_pc_start (loc_regs s1) = cur_pc_ s0) as Estart.
  { destruct (cfa_next_cursor _ _ _ _ _ _ _ _ Hn Hc0) as [_ [E|Hr]]; [done|]. exfalso. pose proof Hr as [Epc _].
    destruct Hs as [Hs|[_ He]]; [lia|]. destruct Hn as [Hlt _]. eapply not_restored; [exact Hc0| |exact He|done|done]. lia. }
  rewrite Estart in Hlo. split.
  - econstructor; [by eapply trace_other|done|done].
  - destruct Hs as [Hs|[Hs He]]; [left; by apply Hhi|]. destruct (Z.lt_ge_cases pc' (cur_pc_ s1)); [by left|by right].
Qed.

Lemma location_range start_offset end_offset pc pc' s s' :
  0 ≤ start_offset < 2 ^ 64 → end_offset < 2 ^ 64 → c (end_offset - 1) ≠ Some 0x0b →
  pcs_increase AT m cie_ arch cie_loc_regs end_offset (cfa_start start_offset s) →
  GetLocationInfo AT m fde cie_ arch cie_loc_regs pc start_offset end_offset s = Ret () s' →
  loc_pc_start (loc_regs s') ≤ pc' < loc_pc_end (loc_regs s') →
  ∃ s'', GetLocationInfo AT m fde cie_ arch cie_loc_regs pc' start_offset end_offset s = Ret () s'' ∧
    locations (loc_regs s'') = locations (loc_regs s').
Proof.
  intros Hso Heo Hlast Hp E Hr. unfold GetLocationInfo, mbind, prog_bind, modify in *. fold (cfa_start start_offset s) in *.
  apply cfa_loop_inv in E as (n & s1 & Ht & Hn & Hs & ->). cbn in Hr.
  destruct (trace_range pc pc' end_offset (cfa_start start_offset s) s1 n) as [Ht' Hs']; try done; [lia| |].
  { intros Hgt. destruct (Z.gtb_spec (cur_pc_ s1) pc); lia. }
  eexists. split; [by eapply cfa_loop_trace|]. done.
Qed.

(** The program counter asked for is in the range. *)
Lemma location_covers start_offset end_offset pc s s' :
  0 ≤ start_offset < 2 ^ 64 → end_offset < 2 ^ 64 → c (end_offset - 1) ≠ Some 0x0b →
  to_address AT (pc_start fde) ≤ pc < pc_end fde →
  GetLocationInfo AT m fde cie_ arch cie_loc_regs pc start_offset end_offset s = Ret () s' →
  loc_pc_start (loc_regs s') ≤ pc < loc_pc_end (loc_regs s').
Proof.
  intros Hso Heo Hlast Hpc E. unfold GetLocationInfo, mbind, prog_bind, modify in E. fold (cfa_start start_offset s) in E.
  apply cfa_loop_inv in E as (n & s1 & Ht & Hn & Hs & ->). cbn. split.
  - assert (cursor_ok (cfa_memory (cfa_start start_offset s))) as Hc by done.
    inversion Ht as [s0|s0 s2 s3 n' Ht' Hle Hnext]; subst; [cbn; lia|].
    assert (cursor_ok (cfa_memory s2)) as Hc1 by by eapply trace_cursor.
    destruct (cfa_next_cursor _ _ _ _ _ _ _ _ Hnext Hc1) as [_ [->|Hr]]; [done|]. exfalso. pose proof Hr as [Epc _].
    destruct Hs as [Hs|[_ He]]; [lia|]. destruct Hnext as [Hlt _]. eapply not_restored; [exact Hc1| |exact He|done|done]. lia.
  - destruct (Z.gtb_spec (cur_pc_ s1) pc); lia.
Qed.
End range.

(** ** Progress *)

(** No block length takes the cursor past the end of the address space. *)
Definition blocks_fit {M} `{Memory M} (m : M) : Prop :=
  ∀ d v d', cursor_ok d → ReadULEB128 m d = Ret v d' → 0 ≤ v ∧ cur_offset_ d' + v < 2 ^ 64.

Section progress.
Context (AT : AddressType) {M : Type} `{Memory M} (m : M) (fde : DwarfFde) (cie_ : DwarfCie) (arch : ArchEnum).
Variable cie_loc_regs : option DwarfLocations.
Context (c : Z → option Z) (limit : Z) `{!Reads limit m c}.
Hypothesis Hlimit : 8 ≤ limit.
Hypothesis Huser : user_half c.
Hypothesis Hblocks : blocks_fit m.

Lemma cfa_reading_forward {A} (p : prog DwarfMemory A) s (Q : A → DwarfCfa → Prop) :
  forward p → cursor_ok (cfa_memory s) →
  (∀ a d, p (cfa_memory s) = Ret a d → cur_offset_ (cfa_memory s) ≤ cur_offset_ d → cursor_ok d → Q a (s <| cfa_memory := d |>)) →
  wp (λ _, True) (cfa_reading p) s Q (λ _, True).
Proof.
  intros Hp Hc HQ. specialize (Hp _ Hc). unfold cfa_reading. wp_steps. unfold wp in *.
  destruct (p (cfa_memory s)) as [a d|d|f] eqn:E; [destruct Hp; by apply HQ|done|done].
Qed.

Lemma read_cfa_operands_forward encodings s :
  cursor_ok (cfa_memory s) → DW_EH_PE_aligned ∉ encodings →
  wp (λ _, True) (read_cfa_operands AT m encodings) s
    (λ _ s', cur_offset_ (cfa_memory s) ≤ cur_offset_ (cfa_memory s') ∧ cursor_ok (cfa_memory s')) (λ _, True).
Proof.
  revert s. induction encodings as [|e encodings IH]; intros s Hc Hal; cbn [read_cfa_operands]; [by apply wp_ret|].
  apply not_elem_of_cons in Hal as [Hne Hal].
  assert (∀ v d, cur_offset_ (cfa_memory s) ≤ cur_offset_ d → cursor_ok d →
    wp (λ _, True) (read_cfa_operands AT m encodings) (s <| cfa_memory := d |> <| cfa_operands := cfa_operands s ++ [v] |>)
      (λ _ s', cur_offset_ (cfa_memory s) ≤ cur_offset_ (cfa_memory s') ∧ cursor_ok (cfa_memory s')) (λ _, True)) as Hrest.
  { intros v d Hle Hd. eapply wp_mono; [by apply IH| |done]. cbn. intros _ s' [? ?]. split; [lia|done]. }
  apply wp_bind. destruct (e =? DW_EH_PE_block).
  - wp_steps. apply cfa_reading_forward; [by eapply ReadULEB128_forward|done|]. intros v d Ev Hle Hd. wp_steps.
    destruct (Hblocks _ _ _ Hc Ev) as [Hv Hfit]. unfold cursor_ok in Hd.
    apply (Hrest _ (set_cur_offset (cur_offset_ d ⊞ v) d)); [|apply u64_range]. cbn. rewrite u64_small by lia. lia.
  - wp_steps. apply cfa_reading_forward; [by eapply ReadEncodedValue_forward|done|]. intros v d Ev Hle Hd. wp_steps. by apply Hrest.
Qed.

Definition leaves_memory (h : option (prog DwarfCfa unit)) : Prop :=
  match h with Some h => ∀ s, wp (λ _, True) h s (λ _ s', cfa_memory s' = cfa_memory s) (λ _, True) | None => True end.

Lemma callbacks_leave_memory : Forall leaves_memory (kCfaCallbackTable AT cie_ arch cie_loc_regs).
Proof.
  unfold kCfaCallbackTable. cbn [app repeat]. repeat (apply Forall_cons; split); try done; intros s; unfold_handlers;
    unfold cfa_operand, element, signed_factored, update_cfa, set_location, modify_locations, cfa_fail_with; by wp_steps.
Qed.

Lemma encodings_aligned low : DW_EH_PE_aligned ∉ cfa_encodings (cfa_at low).
Proof.
  unfold cfa_at. assert (forallb (λ cfa, bool_decide (DW_EH_PE_aligned ∉ cfa_encodings cfa)) kTable = true) as Hall by by vm_compute.
  rewrite forallb_forall in Hall.
  destruct (nth_in_or_default (Z.to_nat low) kTable (mkInfo "" 0 0 [] [])) as [Hin| ->]; [|apply not_elem_of_nil].
  by apply Hall, bool_decide_eq_true in Hin.
Qed.

Lemma cfa_step_forward s s' :
  cursor_ok (cfa_memory s) → cfa_step AT m cie_ arch cie_loc_regs s = Ret () s' →
  cur_offset_ (cfa_memory s) < cur_offset_ (cfa_memory s') ∧ cursor_ok (cfa_memory s').
Proof.
  intros Hc E. assert (wp (λ _, True) (cfa_step AT m cie_ arch cie_loc_regs) s (λ _ s',
    cur_offset_ (cfa_memory s) < cur_offset_ (cfa_memory s') ∧ cursor_ok (cfa_memory s')) (λ _, True)) as Hw;
    [|unfold wp in Hw; by rewrite E in Hw]. clear E.
  unfold cfa_step. wp_steps. apply cfa_reading_forward; [by eapply ReadUnsigned_forward|done|]. intros v d Ev _ Hd.
  apply (ReadUnsigned_moves m c limit Hlimit Huser) in Ev as [Ed _]; [|done|lia]. cbn in Ed.
  assert (cur_offset_ (cfa_memory s) < cur_offset_ d) as Hlt by lia.
  unfold advance_pc, set_location, modify_locations, restore_register, erase_location, cfa_fail_with, signed_factored.
  wp_steps; try done.
  - apply cfa_reading_forward; [by eapply ReadULEB128_forward|done|]. intros w d' _ Hle Hd'. wp_steps; [done|]. cbn in *. split; [lia|done].
  - eapply wp_mono; [apply read_cfa_operands_forward; [done|apply encodings_aligned]| |done]. intros _ s1 [Hle Hc1]. cbn in Hle.
    pose proof callbacks_leave_memory as Hall. rewrite Forall_lookup in Hall. rewrite nth_lookup in Heqo.
    destruct (_ !! _) as [o|] eqn:El in Heqo; [|done]. cbn in Heqo. subst o. specialize (Hall _ _ El). cbn in Hall.
    eapply wp_mono; [apply Hall| |done]. intros _ s2 ->. split; [lia|done].
Qed.

Lemma cfa_loop_faults fuel pc end_offset s f :
  cursor_ok (cfa_memory s) → (Z.to_nat (end_offset - cur_offset_ (cfa_memory s)) < fuel)%nat →
  cfa_loop AT m fde cie_ arch cie_loc_regs fuel pc end_offset s = Fault f → f = BadShift ∨ f = SignedOverflow.
Proof.
  revert s. induction fuel as [|fuel IH]; intros s Hc Hf; [lia|]. cbn [cfa_loop]. unfold mbind at 1, prog_bind at 1, get.
  destruct (cur_pc_ s >? pc); [done|]. destruct (Z.geb_spec (cur_offset_ (cfa_memory s)) end_offset); [done|].
  unfold mbind, prog_bind. pose proof (cfa_step_spec AT m cie_ arch cie_loc_regs s Hc) as Hs. unfold wp in Hs.
  destruct (cfa_step AT m cie_ arch cie_loc_regs s) as [[] s'|s'|f'] eqn:E; [|done|by intros [= <-]].
  apply cfa_step_forward in E as [Hlt Hc']; [|done]. apply IH; [done|lia].
Qed.
End progress.

(** [GetLocationInfo] returns or reports an error for every program,
    well formed or not, as long as no block length wraps the cursor around
    the address space: every turn of its loop moves the cursor forward.  On
    the way it reads operands only where the table says the instruction has
    them; what is left undefined is a shift or a product that is too large. *)
Theorem location_info_terminates AT {M} `{Memory M} (m : M) fde cie_ arch cie_loc_regs c limit start_offset end_offset pc s :
  Reads limit m c → 8 ≤ limit → user_half c → blocks_fit m → 0 ≤ start_offset < 2 ^ 64 →
  match GetLocationInfo AT m fde cie_ arch cie_loc_regs pc start_offset end_offset s with
  | Ret _ _ | Err _ => True
  | Fault f => f = BadShift ∨ f = SignedOverflow
  end.
Proof.
  intros Hm Hl Hu Hb Hs. destruct (GetLocationInfo _ _ _ _ _ _ _ _ _ _) as [| |f] eqn:E; [done..|].
  unfold GetLocationInfo, mbind, prog_bind, modify in E.
  eapply (cfa_loop_faults AT m fde cie_ arch cie_loc_regs c limit); [done..| | |exact E]; cbn; [done|]. unfold cfa_fuel. lia.
Qed.


(** ** Checking a program *)

(** Runs to the end and compares the program counters on the way. *)
Fixpoint pcs_check (AT : AddressType) {M} `{Memory M} (m : M) (cie_ : DwarfCie) (arch : ArchEnum)
    (cie_loc_regs : option DwarfLocations) (n : nat) (end_offset : Z) (s : DwarfCfa) : bool :=
  match n with
  | O => false
  | S n =>
      if cur_offset_ (cfa_memory s) <? end_offset then
        match cfa_step AT m cie_ arch cie_loc_regs s with
        | Ret _ s' => (cur_pc_ s <=? cur_pc_ s') && pcs_check AT m cie_ arch cie_loc_regs n end_offset s'
        | _ => true
        end
      else true
  end.

Lemma pcs_check_sound AT {M} `{Memory M} (m : M) cie_ arch cie_loc_regs n end_offset s :
  pcs_check AT m cie_ arch cie_loc_regs n end_offset s = true → pcs_increase AT m cie_ arch cie_loc_regs end_offset s.
Proof.
  revert s. induction n as [|n IH]; intros s Hc s1 s2 Hr [Hlt E]; cbn [pcs_check] in Hc; [done|].
  destruct Hr as [s|s s3 s1 [Hlt' E'] Hr].
  - destruct (Z.ltb_spec (cur_offset_ (cfa_memory s)) end_offset); [|lia]. rewrite E in Hc. bool_hyps. done.
  - destruct (Z.ltb_spec (cur_offset_ (cfa_memory s)) end_offset); [|lia]. rewrite E' in Hc. bool_hyps.
    eapply IH; [done..|]. by split.
Qed.

(** A function whose frame grows and shrinks; the common entry is trivial. *)
Definition sample_cie : DwarfCie := DwarfCie_new <| code_alignment_factor := 1 |> <| data_alignment_factor := -8 |>.
Definition sample_fde : DwarfFde := DwarfFde_new <| pc_start := 0x1000 |> <| pc_end := 0x1020 |> <| cie := Some sample_cie |>.
Definition cfa_new : DwarfCfa := mkCfa DwarfMemory_new (mkError DWARF_ERROR_NONE 0) 0 [] [] DwarfLocations_new.
(** def_cfa 7 8; offset 16 1; advance 4; def_cfa_offset 16; advance 4;
    def_cfa_offset 8; nop *)
Definition sample_program : MemoryBuffer :=
  mkBuffer [0x0c; 7; 8; 0x90; 1; 0x44; 0x0e; 16; 0x44; 0x0e; 8; 0x00].
Definition sample_run (m : MemoryBuffer) (end_offset pc : Z) : outcome DwarfCfa unit :=
  GetLocationInfo uint64_t m sample_fde sample_cie ARCH_X86_64 (Some DwarfLocations_new) pc 0 end_offset cfa_new.


Definition cfa_rule (r : outcome DwarfCfa unit) : option DwarfLocation :=
  match r with Ret _ s => locations (loc_regs s) !! CFA_REG | _ => None end.

#[local] Strategy 100 [GetLocationInfo].

(** advance 4; remember_state; def_cfa 7 8; advance 4; restore_state *)
Definition restoring_program : MemoryBuffer := mkBuffer [0x0c; 7; 16; 0x44; 0x0a; 0x0c; 7; 8; 0x44; 0x0b].

(** A program whose last instruction is [DW_CFA_restore_state] reports a
    range that starts where [DW_CFA_remember_state] was executed, because the
    range is remembered and restored with the rules: the range found for a
    late program counter contains one for which the rules are different. *)
Theorem restored_range_too_wide :
  match sample_run restoring_program 10 0x1010, sample_run restoring_program 10 0x1006 with
  | Ret _ late, Ret _ middle =>
      loc_pc_start (loc_regs late) ≤ 0x1006 < loc_pc_end (loc_regs late) ∧
      locations (loc_regs late) !! CFA_REG = Some (Loc DWARF_LOCATION_REGISTER 7 16) ∧
      locations (loc_regs middle) !! CFA_REG = Some (Loc DWARF_LOCATION_REGISTER 7 8)
  | _, _ => False
  end.
Proof. by vm_compute. Qed.

(** [DW_CFA_def_cfa_expression] with a block of [2^64 - 11] bytes. *)
Definition wrapping_program : MemoryBuffer := mkBuffer (0x0f :: encode_uleb 10 (2 ^ 64 - 11)).

(** What it settles in: every turn leads from this state to itself. *)
Definition wrapping_state : DwarfCfa :=
  mkCfa DwarfMemory_new (mkError DWARF_ERROR_NONE 0) 0x1000 [2 ^ 64 - 11] []
    (mkLocations {[CFA_REG := Loc DWARF_LOCATION_VAL_EXPRESSION (2 ^ 64 - 11) 0]} None 0x1000 0).

(** A block length that wraps the cursor back to its own instruction makes
    [GetLocationInfo] run forever: no number of turns of its loop is enough. *)
Theorem wrapping_block_diverges fuel :
  cfa_loop uint64_t wrapping_program sample_fde sample_cie ARCH_X86_64 None fuel 0x1000 11
    (cfa_start uint64_t sample_fde None 0 cfa_new) = Fault NoFuel.
Proof.
  assert (∀ s, cur_pc_ s = 0x1000 → cur_offset_ (cfa_memory s) = 0 →
    cfa_step uint64_t wrapping_program sample_cie ARCH_X86_64 None s = Ret () wrapping_state →
    ∀ fuel, cfa_loop uint64_t wrapping_program sample_fde sample_cie ARCH_X86_64 None fuel 0x1000 11 s = Fault NoFuel) as Hloop.
  { intros s Hpc Hcur E n. revert s Hpc Hcur E. induction n as [|n IH]; intros s Hpc Hcur E; cbn [cfa_loop]; [done|].
    unfold mbind at 1, prog_bind at 1, get. rewrite Hpc, Hcur.
    change (0x1000 >? 0x1000) with false. change (0 >=? 11) with false. cbn iota.
    unfold mbind, prog_bind. rewrite E. apply IH; [done|done|by vm_compute]. }
  apply Hloop; [done|done|by vm_compute].
Qed.

(** Bytes without the continuation bit are numbers of their own. *)
Lemma small_bytes_fit {M} `{Memory M} (m : M) c limit :
  Reads limit m c → 8 ≤ limit → user_half c → (∀ a b, c a = Some b → 0 ≤ b < 128) → blocks_fit m.
Proof.
  intros Hm Hl Hu Hsmall d v d' Hd E. destruct (c (cur_offset_ d)) as [b|] eqn:Eb.
  - assert (cur_offset_ d < 2 ^ 63) by (destruct (Z.lt_ge_cases (cur_offset_ d) (2 ^ 63)); [done|by rewrite Hu in Eb]).
    assert (leb128 [b] b b) as Hb by (constructor; by eapply Hsmall).
    rewrite (ReadULEB128_leb128 m c limit Hl d [b] b b) in E; [|done|done|cbn; lia|by apply stored_cons|cbn; lia].
    injection E as <- <-. pose proof (Hsmall _ _ Eb). unfold cursor_ok in Hd. rewrite u64_small by lia. cbn. rewrite u64_small; lia.
  - exfalso. unfold ReadULEB128, leb128_fuel in E. cbn [leb128_loop] in E. unfold ReadUnsigned, mbind, prog_bind in E.
    rewrite (ReadBytes_spec m c limit) in E by (done || lia). cbn zeta in E. by rewrite valid_prefix_none, decide_False in E by done.
Qed.

Lemma location_info_terminates_witness :
  match sample_run (mkBuffer [0x0c; 7; 8; 0x44; 0x0e; 16; 0x3f]) 7 0x1010 with
  | Ret _ _ | Err _ => True
  | Fault f => f = BadShift ∨ f = SignedOverflow
  end.
Proof.
  set (m := mkBuffer [0x0c; 7; 8; 0x44; 0x0e; 16; 0x3f]).
  assert (user_half (list_contents (raw_ m))) as Hu.
  { intros a Ha. unfold list_contents. destruct (Z.ltb_spec a 0); [done|]. apply lookup_ge_None_2. cbn. lia. }
  assert (∀ a b, list_contents (raw_ m) a = Some b → 0 ≤ b < 128) as Hsmall.
  { intros a b Hb. unfold list_contents in Hb. destruct (a <? 0); [done|].
    assert (Forall (λ b, 0 ≤ b < 128) (raw_ m)) as Hall by by repeat constructor. by eapply Forall_lookup_1 in Hall. }
  apply (location_info_terminates uint64_t m sample_fde sample_cie ARCH_X86_64 (Some DwarfLocations_new)
    (list_contents (raw_ m)) 8 0 7 0x1010 cfa_new); [apply _|done|done| |done].
  apply (small_bytes_fit m (list_contents (raw_ m)) 8); [apply _|done|done|done].
Defined.
