(* ===== verification/UnwindRegs.v ===== *)
(** * Register sets

    unwindstack/Regs.cpp, Regs.h, RegsArm.cpp, RegsArm64.cpp, RegsX86.cpp,
    RegsX86_64.cpp, RegsMips.cpp and RegsMips64.cpp with their Machine and
    Ucontext headers: the registers of the six architectures, their program
    counter and stack pointer, the pointer authentication of ARM64, and the
    frames the kernel writes for signal handlers. *)
From stdpp Require Import strings pretty.
From S2P Require Import Prelude UnwindMemory DwarfMemory DwarfCfa.

(** The width of a register and the numbers of the special ones. *)
Definition arch_type (a : ArchEnum) : AddressType :=
  match a with ARCH_ARM | ARCH_X86 | ARCH_MIPS => uint32_t | _ => uint64_t end.
Definition ArchIs32Bit (a : ArchEnum) : bool :=
  match a with ARCH_ARM | ARCH_X86 | ARCH_MIPS => true | _ => false end.
(** [*_REG_LAST] *)
Definition arch_regs (a : ArchEnum) : Z :=
  match a with
  | ARCH_ARM => 16 | ARCH_ARM64 => 34 | ARCH_X86 => 16 | ARCH_X86_64 => 17 | ARCH_MIPS | ARCH_MIPS64 => 33
  | ARCH_UNKNOWN => 0
  end.
(** [*_REG_PC] *)
Definition pc_reg (a : ArchEnum) : nat :=
  match a with
  | ARCH_ARM => 15 | ARCH_ARM64 => 32 | ARCH_X86 => 8 | ARCH_X86_64 => 16 | ARCH_MIPS | ARCH_MIPS64 => 32
  | ARCH_UNKNOWN => 0
  end%nat.
(** [*_REG_SP] *)
Definition sp_reg (a : ArchEnum) : nat :=
  match a with
  | ARCH_ARM => 13 | ARCH_ARM64 => 31 | ARCH_X86 => 4 | ARCH_X86_64 => 7 | ARCH_MIPS | ARCH_MIPS64 => 29
  | ARCH_UNKNOWN => 0
  end%nat.
(** [*_REG_LR] or [*_REG_RA], where there is one *)
Definition link_reg (a : ArchEnum) : option nat :=
  match a with
  | ARCH_ARM => Some 14 | ARCH_ARM64 => Some 30 | ARCH_MIPS | ARCH_MIPS64 => Some 31 | _ => None
  end%nat.

Record Regs := mkRegs { arch : ArchEnum; regs_ : list Z; dex_pc_ : Z; pseudo_regs_ : list Z; pac_mask_ : Z }.
#[global] Instance Regs_updatable : Updatable Regs := λ r,
  mkRegs (arch r) (regs_ r) (dex_pc_ r) (pseudo_regs_ r) (pac_mask_ r).
Definition Regs_new (a : ArchEnum) : Regs := mkRegs a (repeat 0 (Z.to_nat (arch_regs a))) 0 [0] 0.

Definition total_regs (r : Regs) : Z := arch_regs (arch r).
Definition get_reg (r : Regs) (n : nat) : Z := nth n (regs_ r) 0.
Definition put_reg (n : nat) (v : Z) (r : Regs) : Regs :=
  r <| regs_ := <[n := wrap (bits_of (arch_type (arch r))) v]> (regs_ r) |>.

Definition pc (r : Regs) : Z := get_reg r (pc_reg (arch r)).
Definition sp (r : Regs) : Z := get_reg r (sp_reg (arch r)).
Definition set_dex_pc (v : Z) (r : Regs) : Regs := r <| dex_pc_ := v |>.
Definition set_sp (v : Z) (r : Regs) : Regs := put_reg (sp_reg (arch r)) v r.

(** ** Pseudo registers *)

Definition ARM64_PREG_FIRST : Z := 34.
Definition ARM64_PREG_LAST : Z := 35.

Definition SetPseudoRegister (id value : Z) (r : Regs) : bool * Regs :=
  if bool_decide (arch r = ARCH_ARM64) && (id >=? ARM64_PREG_FIRST) && (id <? ARM64_PREG_LAST)
  then (true, r <| pseudo_regs_ := <[Z.to_nat (id - ARM64_PREG_FIRST) := value]> (pseudo_regs_ r) |>)
  else (false, r).
Definition GetPseudoRegister (id : Z) (r : Regs) : option Z :=
  if bool_decide (arch r = ARCH_ARM64) && (id >=? ARM64_PREG_FIRST) && (id <? ARM64_PREG_LAST)
  then pseudo_regs_ r !! Z.to_nat (id - ARM64_PREG_FIRST) else None.
Definition ResetPseudoRegisters (r : Regs) : Regs :=
  if bool_decide (arch r = ARCH_ARM64) then (SetPseudoRegister ARM64_PREG_RA_SIGN_STATE 0 r).2 else r.
Definition IsRASigned (r : Regs) : bool :=
  match GetPseudoRegister ARM64_PREG_RA_SIGN_STATE r with Some value => negb (value =? 0) | None => false end.
Definition SetPACMask (mask : Z) (r : Regs) : Regs := r <| pac_mask_ := mask |>.

Section pac.
(** [__bionic_clear_pac_bits]; the identity outside bionic *)
Variable clear_pac_bits : Z → Z.

Definition strip_pac (pc mask : Z) : Z :=
  if negb (mask =? 0) then Z.land pc (u64 (Z.lnot mask)) else clear_pac_bits pc.
Definition set_pc (v : Z) (r : Regs) : Regs :=
  let v := if bool_decide (arch r = ARCH_ARM64) && negb (v =? 0) && IsRASigned r then strip_pac v (pac_mask_ r) else v in
  put_reg (pc_reg (arch r)) v r.
Definition fallback_pc (r : Regs) : Regs :=
  if bool_decide (arch r = ARCH_ARM64) then put_reg (pc_reg (arch r)) (strip_pac (pc r) (pac_mask_ r)) r else r.
End pac.

(** ** Register blocks *)

(** The [i]th [n]-byte word of a block. *)
Definition block_word (n : Z) (block : list Z) (i : nat) : Z := le_value (take (Z.to_nat n) (drop (Z.to_nat n * i) block)).
Definition load_regs (n : Z) (places : list (nat * nat)) (block : list Z) (r : Regs) : Regs :=
  fold_left (λ r '(reg, place), put_reg reg (block_word n block place) r) places r.
(** [count] registers from [reg], stored one after the other from [place] *)
Definition reg_run (reg place count : nat) : list (nat * nat) := map (λ i, (reg + i, place + i)%nat) (seq 0 count).

(** A read into a variable may deliver fewer bytes than it is asked for: the
    others stay what they were. *)
Definition overwrite (old new : list Z) : list Z := new ++ drop (length new) old.
Definition reg_bytes (n : nat) (v : Z) : list Z := map (λ i, Z.shiftr v (8 * Z.of_nat i) mod 256) (seq 0 n).
Definition overwrite_regs (n : nat) (bytes : list Z) (r : Regs) : Regs :=
  let block := overwrite (concat (map (reg_bytes n) (regs_ r))) bytes in
  r <| regs_ := map (block_word (Z.of_nat n) block) (seq 0 (length (regs_ r))) |>.

(** The registers an x86 context holds, with their place in it; the frame
    without siginfo leaves out [EDI] and [ESI]. *)
Definition x86_frame_regs : list (nat * nat) :=
  [(5, 6); (4, 7); (3, 8); (2, 9); (1, 10); (0, 11); (8, 14)]%nat.
Definition x86_context_regs : list (nat * nat) := ((7, 4) :: (6, 5) :: x86_frame_regs)%nat.
Definition x86_64_context_regs : list (nat * nat) :=
  [(8, 0); (9, 1); (10, 2); (11, 3); (12, 4); (13, 5); (14, 6); (15, 7);
   (5, 8); (4, 9); (6, 10); (3, 11); (1, 12); (0, 13); (2, 14); (7, 15); (16, 16)]%nat.

(** Where [uc_mcontext] starts in each architecture's ucontext, the width of
    its words and the registers it holds. *)
Definition mcontext_offset (a : ArchEnum) : nat :=
  match a with
  | ARCH_ARM | ARCH_X86 => 20 | ARCH_ARM64 => 0xb0 | ARCH_X86_64 | ARCH_MIPS64 => 40 | ARCH_MIPS => 24
  | ARCH_UNKNOWN => 0
  end%nat.
Definition context_word (a : ArchEnum) : Z := match a with ARCH_ARM | ARCH_X86 => 4 | _ => 8 end.
Definition context_regs (a : ArchEnum) : list (nat * nat) :=
  match a with
  | ARCH_ARM => reg_run 0 3 16
  | ARCH_ARM64 => reg_run 0 1 34
  | ARCH_X86 => x86_context_regs
  | ARCH_X86_64 => x86_64_context_regs
  | ARCH_MIPS => reg_run 0 2 32 ++ [(32, 1)%nat]
  | ARCH_MIPS64 => reg_run 0 0 32 ++ [(32, 72)%nat]
  | ARCH_UNKNOWN => []
  end.
Definition CreateFromUcontext (a : ArchEnum) (ucontext : list Z) : option Regs :=
  match a with
  | ARCH_UNKNOWN => None
  | _ => Some (load_regs (context_word a) (context_regs a) (drop (mcontext_offset a) ucontext) (Regs_new a))
  end.

(** The layouts of the [*_user_regs] of ptrace. *)
Definition user_regs (a : ArchEnum) : list (nat * nat) :=
  match a with
  | ARCH_ARM => reg_run 0 0 16
  | ARCH_ARM64 => reg_run 0 0 31 ++ [(31, 31); (32, 32); (33, 33)]%nat
  | ARCH_X86 => [(0, 6); (3, 0); (1, 1); (2, 2); (5, 5); (7, 4); (6, 3); (4, 15); (8, 12)]%nat
  | ARCH_X86_64 =>
      [(0, 10); (3, 5); (2, 11); (1, 12); (8, 9); (9, 8); (10, 7); (11, 6); (12, 3); (13, 2); (14, 1); (15, 0);
       (5, 14); (4, 13); (6, 4); (7, 19); (16, 16)]%nat
  | ARCH_MIPS => reg_run 0 6 32 ++ [(32, 40)%nat]
  | ARCH_MIPS64 => reg_run 0 0 32 ++ [(32, 34)%nat]
  | ARCH_UNKNOWN => []
  end.
Definition sizeof_user_regs (a : ArchEnum) : Z :=
  match a with
  | ARCH_ARM => 4 * 18 | ARCH_ARM64 => 8 * 34 | ARCH_X86 => 4 * 17 | ARCH_X86_64 => 8 * 27
  | ARCH_MIPS => 4 * 45 | ARCH_MIPS64 => 8 * 45 | ARCH_UNKNOWN => 0
  end.
Definition Regs_Read (a : ArchEnum) (user : list Z) : Regs :=
  load_regs (sizeof (arch_type a)) (user_regs a) user (Regs_new a).

Definition kMaxUserRegsSize : Z :=
  sizeof_user_regs ARCH_ARM `max` (sizeof_user_regs ARCH_ARM64 `max` (sizeof_user_regs ARCH_X86 `max` sizeof_user_regs ARCH_X86_64)).

Section ptrace.
(** [PTRACE_GETREGSET] with a buffer of that many bytes: what it stored *)
Variable getregset : Z → option (list Z).

Definition regset_buffer : Z := kMaxUserRegsSize / 8 * 8.
(** The [switch] on [io.iov_len]. *)
Definition arch_of_size (cases : list ArchEnum) (size : Z) : option ArchEnum :=
  snd <$> list_find (λ a, sizeof_user_regs a = size) cases.
Definition RemoteGet : option Regs :=
  match getregset regset_buffer with
  | None => None
  | Some buffer =>
      (λ a, Regs_Read a buffer) <$>
        arch_of_size [ARCH_X86; ARCH_X86_64; ARCH_ARM; ARCH_ARM64; ARCH_MIPS; ARCH_MIPS64] (Z.of_nat (length buffer))
  end.
(** The second component says whether [ERROR_UNSUPPORTED] is stored in
    [error_code]. *)
Definition RemoteGetArch : ArchEnum * bool :=
  match getregset regset_buffer with
  | None => (ARCH_UNKNOWN, false)
  | Some buffer =>
      match arch_of_size [ARCH_X86; ARCH_X86_64; ARCH_ARM; ARCH_ARM64] (Z.of_nat (length buffer)) with
      | Some a => (a, false)
      | None => (ARCH_UNKNOWN, true)
      end
  end.
End ptrace.

(** The names [IterateRegisters] reports, in its order. *)
Definition numbered (prefix : string) (from count : nat) : list (string * nat) :=
  map (λ i, (prefix +:+ pretty (N.of_nat i), i)) (seq from count).
Definition register_names (a : ArchEnum) : list (string * nat) :=
  match a with
  | ARCH_ARM => numbered "r" 0 12 ++ [("ip", 12); ("sp", 13); ("lr", 14); ("pc", 15)]%nat
  | ARCH_ARM64 => numbered "x" 0 30 ++ [("lr", 30); ("sp", 31); ("pc", 32); ("pst", 33)]%nat
  | ARCH_X86 =>
      [("eax", 0); ("ebx", 3); ("ecx", 1); ("edx", 2); ("ebp", 5); ("edi", 7); ("esi", 6); ("esp", 4); ("eip", 8)]%nat
  | ARCH_X86_64 =>
      ([("rax", 0); ("rbx", 3); ("rcx", 2); ("rdx", 1)] ++ numbered "r" 8 8 ++
       [("rdi", 5); ("rsi", 4); ("rbp", 6); ("rsp", 7); ("rip", 16)])%nat
  | ARCH_MIPS | ARCH_MIPS64 => numbered "r" 0 29 ++ [("sp", 29); ("r30", 30); ("ra", 31); ("pc", 32)]%nat
  | ARCH_UNKNOWN => []
  end.
Definition IterateRegisters (r : Regs) : list (string * Z) := map (λ '(name, n), (name, get_reg r n)) (register_names (arch r)).

(** ** Return addresses *)

Section memory.
Context {E P : Type} `{Memory E} `{Memory P} (elf_memory : E) (process_memory : P).

Definition read_word (n : Z) (addr : Z) : option Z := le_value <$> ReadFully process_memory addr n.

Definition SetPcFromReturnAddress (r : Regs) : bool * Regs :=
  match link_reg (arch r) with
  | Some link =>
      let lr := get_reg r link in
      if pc r =? lr then (false, r) else (true, put_reg (pc_reg (arch r)) lr r)
  | None =>
      match read_word (sizeof (arch_type (arch r))) (sp r) with
      | None => (false, r)
      | Some new_pc => if new_pc =? pc r then (false, r) else (true, put_reg (pc_reg (arch r)) new_pc r)
      end
  end.

(** ** Signal frames *)

(** [ReadFully] into [regs_]: a short read fails, with the registers it reached
    already overwritten. *)
Definition read_regs (n : nat) (addr : Z) (r : Regs) : bool * Regs :=
  let size := Z.of_nat n * total_regs r in
  let bytes := Read process_memory addr size in
  (Z.of_nat (length bytes) =? size, overwrite_regs n bytes r).

Definition RegsArm_StepIfSignalHandler (elf_offset : Z) (r : Regs) : bool * Regs :=
  match le_value <$> ReadFully elf_memory elf_offset 4 with
  | None => (false, r)
  | Some data =>
      let frame :=
        if (data =? 0xe3a07077) || (data =? 0xef900077) || (data =? 0xdf002777) then
          match read_word 4 (sp r) with
          | None => None
          | Some data => if data =? 0x5ac3c35a then Some (sp r ⊞ (0x14 + 0xc)) else Some (sp r ⊞ 0xc)
          end
        else if (data =? 0xe3a070ad) || (data =? 0xef9000ad) || (data =? 0xdf0027ad) then
          match read_word 4 (sp r) with
          | None => None
          | Some data => if data =? sp r ⊞ 8 then Some (sp r ⊞ (8 + 0x80 + 0x14 + 0xc)) else Some (sp r ⊞ (0x80 + 0x14 + 0xc))
          end
        else Some 0 in
      match frame with
      | None => (false, r)
      | Some offset =>
          if offset =? 0 then (false, r) else read_regs 4 offset r
      end
  end.

Definition RegsArm64_StepIfSignalHandler (elf_offset : Z) (r : Regs) : bool * Regs :=
  match le_value <$> ReadFully elf_memory elf_offset 8 with
  | None => (false, r)
  | Some data =>
      if negb (data =? 0xd4000001d2801168) then (false, r)
      else read_regs 8 (sp r ⊞ (0x80 + 0xb0 + 0x08)) r
  end.

Definition RegsX86_StepIfSignalHandler (elf_offset : Z) (r : Regs) : bool * Regs :=
  match le_value <$> ReadFully elf_memory elf_offset 8 with
  | None => (false, r)
  | Some data =>
      if data =? 0x80cd00000077b858 then
        match ReadFully process_memory (u32 (sp r + 4)) (4 * 19) with
        | None => (false, r)
        | Some block => (true, load_regs 4 x86_frame_regs block r)
        end
      else if Z.land data 0x00ffffffffffffff =? 0x0080cd000000adb8 then
        match read_word 4 (u32 (sp r + 8)) with
        | None => (false, r)
        | Some ptr =>
            match ReadFully process_memory (u32 (ptr + 0x14)) (4 * 19) with
            | None => (false, r)
            | Some block => (true, load_regs 4 x86_context_regs block r)
            end
        end
      else (false, r)
  end.

Definition RegsX86_64_StepIfSignalHandler (elf_offset : Z) (r : Regs) : bool * Regs :=
  match le_value <$> ReadFully elf_memory elf_offset 8, le_value <$> ReadFully elf_memory (elf_offset ⊞ 8) 1 with
  | Some data, Some data2 =>
      if negb (data =? 0x0f0000000fc0c748) || negb (data2 =? 0x05) then (false, r)
      else match ReadFully process_memory (sp r ⊞ 0x28) (8 * 23) with
           | None => (false, r)
           | Some block => (true, load_regs 8 x86_64_context_regs block r)
           end
  | _, _ => (false, r)
  end.

Definition RegsMips_StepIfSignalHandler (elf_offset : Z) (r : Regs) : bool * Regs :=
  match le_value <$> ReadFully elf_memory elf_offset 8 with
  | None => (false, r)
  | Some data =>
      let frame :=
        if data =? 0x0000000c24021061 then Some (24 + 128 + 24 + 8)
        else if data =? 0x0000000c24021017 then Some (24 + 8) else None in
      match frame with
      | None => (false, r)
      | Some offset =>
          match ReadFully process_memory (sp r ⊞ offset) (8 * 33) with
          | None => (false, r)
          | Some block =>
              (true, load_regs 8 ((32, 0)%nat :: reg_run 0 1 32) block r)
          end
      end
  end.

(** This one uses [Read], not [ReadFully]: any byte will do, and what the stack
    slot of [data] held fills the rest. *)
Definition RegsMips64_StepIfSignalHandler (slot : list Z) (elf_offset : Z) (r : Regs) : bool * Regs :=
  match Read elf_memory elf_offset 8 with
  | [] => (false, r)
  | bytes =>
      if negb (le_value (overwrite slot bytes) =? 0x0000000c2402145b) then (false, r)
      else
        let old_sp := sp r in
        match Read process_memory (old_sp ⊞ (24 + 128 + 40)) (8 * 32) with
        | [] => (false, r)
        | bytes =>
            let r := overwrite_regs 8 bytes r in
            match Read process_memory (old_sp ⊞ (24 + 128 + 40 + 576)) 8 with
            | [] => (false, r)
            | bytes => (true, put_reg 32 (le_value (overwrite (reg_bytes 8 (get_reg r 32)) bytes)) r)
            end
        end
  end.

Definition StepIfSignalHandler (slot : list Z) (elf_offset : Z) (r : Regs) : bool * Regs :=
  match arch r with
  | ARCH_ARM => RegsArm_StepIfSignalHandler elf_offset r
  | ARCH_ARM64 => RegsArm64_StepIfSignalHandler elf_offset r
  | ARCH_X86 => RegsX86_StepIfSignalHandler elf_offset r
  | ARCH_X86_64 => RegsX86_64_StepIfSignalHandler elf_offset r
  | ARCH_MIPS => RegsMips_StepIfSignalHandler elf_offset r
  | ARCH_MIPS64 => RegsMips64_StepIfSignalHandler slot elf_offset r
  | ARCH_UNKNOWN => (false, r)
  end.

(** How far the program counter of a caller is behind its call; the first two
    arguments are [elf->valid()] and its load bias. *)
Definition GetPcAdjustment (valid : bool) (load_bias rel_pc : Z) (a : ArchEnum) : Z :=
  match a with
  | ARCH_ARM =>
      if negb valid then 2
      else if rel_pc <? load_bias then if rel_pc <? 2 then 0 else 2
      else
        let adjusted_rel_pc := rel_pc - load_bias in
        if adjusted_rel_pc <? 5 then if adjusted_rel_pc <? 2 then 0 else 2
        else if Z.odd adjusted_rel_pc then
          match le_value <$> ReadFully elf_memory (adjusted_rel_pc - 5) 4 with
          | Some value => if Z.land value 0xe000f000 =? 0xe000f000 then 4 else 2
          | None => 2
          end
        else 4
  | ARCH_ARM64 => if rel_pc <? 4 then 0 else 4
  | ARCH_MIPS | ARCH_MIPS64 => if rel_pc <? 8 then 0 else 8
  | ARCH_X86 | ARCH_X86_64 => if rel_pc =? 0 then 0 else 1
  | ARCH_UNKNOWN => 0
  end.
End memory.
