(* ===== verification/UnwindRegsProps.v ===== *)
(** * Signal frames and contexts

    The frame [StepIfSignalHandler] unwinds is the ucontext the kernel pushed
    for the handler: on every architecture the step restores the registers
    [CreateFromUcontext] reads from it and no others. *)
From S2P Require Import Prelude UnwindMemory UnwindMemProps DwarfMemory DwarfMemProps DwarfCfa UnwindRegs.

(** ** Words of a block *)

Definition byte_list (l : list Z) : Prop := Forall (λ b, 0 ≤ b < 256) l.

Lemma byte_list_sub n m l : byte_list l → byte_list (take n (drop m l)).
Proof. intros Hl. by apply Forall_take, Forall_drop. Qed.

Lemma block_word_bound n l i : 0 ≤ n → byte_list l → 0 ≤ block_word n l i < 2 ^ (8 * n).
Proof.
  intros Hn Hl. unfold block_word. pose proof (le_value_range _ (byte_list_sub (Z.to_nat n) (Z.to_nat n * i) _ Hl)) as Hb.
  split; [apply Hb|]. eapply Z.lt_le_trans; [apply Hb|].
  apply Z.pow_le_mono_r; [done|]. rewrite length_take. lia.
Qed.

Lemma block_word_part n m d d' l i i' :
  (d + Z.to_nat n * i = d' + Z.to_nat n * i')%nat → (Z.to_nat n * i + Z.to_nat n ≤ m)%nat →
  block_word n (take m (drop d l)) i = block_word n (drop d' l) i'.
Proof.
  intros Heq Hle. unfold block_word.
  rewrite skipn_firstn_comm, firstn_firstn, !drop_drop, Heq. do 2 f_equal. lia.
Qed.

(** ** Loading registers *)

Lemma put_reg_same n v r :
  (n < length (regs_ r))%nat → get_reg (put_reg n v r) n = wrap (bits_of (arch_type (arch r))) v.
Proof. intros Hn. unfold get_reg, put_reg. cbn. by rewrite nth_lookup, list_lookup_insert_eq. Qed.
Lemma put_reg_other n m v r : n ≠ m → get_reg (put_reg n v r) m = get_reg r m.
Proof. intros Hn. unfold get_reg, put_reg. cbn. by rewrite !nth_lookup, list_lookup_insert_ne. Qed.
Lemma put_reg_length n v r : length (regs_ (put_reg n v r)) = length (regs_ r).
Proof. apply length_insert. Qed.

Lemma load_regs_cons n reg place places block r :
  load_regs n ((reg, place) :: places) block r = load_regs n places block (put_reg reg (block_word n block place) r).
Proof. done. Qed.

Lemma load_regs_frame n places block r :
  length (regs_ (load_regs n places block r)) = length (regs_ r) ∧ arch (load_regs n places block r) = arch r.
Proof.
  revert r. induction places as [|[reg place] places IH]; intros r; [done|]. rewrite load_regs_cons.
  destruct (IH (put_reg reg (block_word n block place) r)) as [-> ->]. by rewrite put_reg_length.
Qed.

Lemma load_regs_other n places block r reg :
  reg ∉ places.*1 → get_reg (load_regs n places block r) reg = get_reg r reg.
Proof.
  revert r. induction places as [|[reg' place] places IH]; intros r Hin; [done|].
  rewrite load_regs_cons. cbn in Hin. apply not_elem_of_cons in Hin as [Hne Hin].
  rewrite IH by done. by apply put_reg_other.
Qed.

Lemma load_regs_get n places block r reg place :
  NoDup places.*1 → (reg, place) ∈ places → (reg < length (regs_ r))%nat →
  get_reg (load_regs n places block r) reg = wrap (bits_of (arch_type (arch r))) (block_word n block place).
Proof.
  revert r. induction places as [|[reg' place'] places IH]; intros r Hdup Hin Hlt; [by apply not_elem_of_nil in Hin|].
  rewrite load_regs_cons. cbn in Hdup. apply NoDup_cons in Hdup as [Hnot Hdup].
  apply elem_of_cons in Hin as [[= -> ->]|Hin].
  - rewrite load_regs_other by done. by apply put_reg_same.
  - rewrite IH; [done|done|done|by rewrite put_reg_length].
Qed.

Lemma overwrite_regs_get n bytes r i :
  (n * i + n ≤ length bytes)%nat → (i < length (regs_ r))%nat →
  get_reg (overwrite_regs n bytes r) i = block_word (Z.of_nat n) bytes i.
Proof.
  intros Hlen Hi. unfold get_reg, overwrite_regs. cbn. unfold overwrite.
  rewrite nth_lookup, list_lookup_fmap, lookup_seq_lt by done. cbn.
  unfold block_word. rewrite Nat2Z.id, drop_app_le, take_app_le; [done| |lia].
  rewrite length_drop. lia.
Qed.

(** ** What a block restores *)

(** [r'] is [r] with the registers of [places] loaded from [block]. *)
Definition loaded (n : Z) (block : list Z) (places : list (nat * nat)) (r r' : Regs) : Prop :=
  (∀ reg place, (reg, place) ∈ places →
     get_reg r' reg = wrap (bits_of (arch_type (arch r))) (block_word n block place)) ∧
  (∀ reg, reg ∉ places.*1 → (reg < length (regs_ r))%nat → get_reg r' reg = get_reg r reg).

Definition full (r : Regs) : Prop := length (regs_ r) = Z.to_nat (arch_regs (arch r)).

Definition in_regs (a : ArchEnum) (places : list (nat * nat)) : bool :=
  bool_decide (NoDup places.*1) && forallb (λ '(reg, _), (reg <? Z.to_nat (arch_regs a))%nat) places.

Lemma load_regs_loaded n places block r :
  full r → in_regs (arch r) places = true → loaded n block places r (load_regs n places block r).
Proof.
  intros Hfull [Hdup Hlt]%andb_true_iff. apply bool_decide_eq_true in Hdup. split.
  - intros reg place Hin. apply load_regs_get; [done..|]. rewrite Hfull.
    rewrite forallb_forall in Hlt. apply list_elem_of_In in Hin. by apply Hlt, Nat.ltb_lt in Hin.
  - intros reg Hin _. by apply load_regs_other.
Qed.

(** [places] in a part of a block are [ctx] in the rest of it. *)
Definition same_places (n : Z) (d m d' : nat) (places ctx : list (nat * nat)) : bool :=
  forallb (λ '(reg, place'), existsb (λ '(reg0, place),
    (reg0 =? reg)%nat && (d + Z.to_nat n * place =? d' + Z.to_nat n * place')%nat
      && (Z.to_nat n * place + Z.to_nat n <=? m)%nat) places) ctx &&
  forallb (λ '(reg, _), existsb (λ '(reg0, _), (reg0 =? reg)%nat) ctx) places.

Lemma loaded_part n d m d' l places ctx r r' :
  same_places n d m d' places ctx = true →
  loaded n (take m (drop d l)) places r r' → loaded n (drop d' l) ctx r r'.
Proof.
  intros [H1 H2]%andb_true_iff [Hin Hout]. rewrite forallb_forall in H1, H2. split.
  - intros reg place' Hctx. apply list_elem_of_In, H1, existsb_exists in Hctx as ([reg0 place] & Hp & Hcond).
    apply andb_true_iff in Hcond as [[Heq E]%andb_true_iff Hle]. apply Nat.eqb_eq in Heq as ->.
    apply Nat.eqb_eq in E. apply Nat.leb_le in Hle.
    rewrite (Hin reg place) by (by apply list_elem_of_In). f_equal. by apply block_word_part.
  - intros reg Hnot. apply Hout. contradict Hnot.
    apply list_elem_of_fmap in Hnot as ([reg0 place] & -> & Hp).
    apply list_elem_of_In, H2, existsb_exists in Hp as ([reg1 place1] & Hp & Heq). apply Nat.eqb_eq in Heq as ->.
    apply list_elem_of_fmap. exists (reg0, place1). split; [done|]. by apply list_elem_of_In.
Qed.

Lemma wrap_block_word a n l i :
  byte_list l → 0 ≤ n → 8 * n ≤ bits_of a → wrap (bits_of a) (block_word n l i) = block_word n l i.
Proof.
  intros Hl Hn Hle. apply Z.mod_small. pose proof (block_word_bound n l i Hn Hl).
  pose proof (Z.pow_le_mono_r 2 (8 * n) (bits_of a) ltac:(lia) Hle). lia.
Qed.

Lemma overwrite_regs_loaded n bytes r :
  byte_list bytes → 8 * Z.of_nat n = bits_of (arch_type (arch r)) → (length bytes = n * length (regs_ r))%nat →
  loaded (Z.of_nat n) bytes (reg_run 0 0 (length (regs_ r))) r (overwrite_regs n bytes r).
Proof.
  intros Hb Hn Hlen. split.
  - intros reg place (i & [= -> ->] & Hi)%list_elem_of_fmap. apply elem_of_seq in Hi.
    rewrite wrap_block_word by (done || lia). apply overwrite_regs_get; [nia|lia].
  - intros reg Hnot Hlt. destruct Hnot. apply list_elem_of_fmap. exists (reg, reg). split; [done|].
    apply list_elem_of_fmap. exists reg. split; [done|]. apply elem_of_seq. lia.
Qed.

Lemma mips64_loaded uc r :
  byte_list uc → length uc = 624%nat → full r → arch r = ARCH_MIPS64 →
  let r' := overwrite_regs 8 (take 256 (drop 40 uc)) r in
  loaded 8 (drop 40 uc) (context_regs ARCH_MIPS64) r
    (put_reg 32 (le_value (overwrite (reg_bytes 8 (get_reg r' 32)) (take 8 (drop 616 uc)))) r').
Proof.
  intros Hb Hlen Hfull Ha r'. unfold full in Hfull. rewrite Ha in Hfull. cbn in Hfull.
  assert (length (regs_ r') = 33%nat) as Hr' by (unfold r', overwrite_regs; cbn; by rewrite length_map, length_seq).
  split.
  - intros reg place [Hin|Hin]%elem_of_app; rewrite Ha.
    + apply list_elem_of_fmap in Hin as (i & [= -> ->] & [_ Hi]%elem_of_seq). cbn [Nat.add] in *.
      rewrite put_reg_other by lia. rewrite (wrap_block_word uint64_t) by (try apply Forall_drop; done).
      unfold r'. rewrite overwrite_regs_get; [|rewrite length_take, length_drop, Hlen; lia|lia].
      apply block_word_part; cbn; lia.
    + apply list_elem_of_singleton in Hin as [= -> ->]. rewrite put_reg_same by lia.
      replace (arch r') with ARCH_MIPS64 by done. f_equal. unfold overwrite.
      rewrite (drop_ge (reg_bytes _ _)), app_nil_r
        by (unfold reg_bytes; rewrite length_map, length_seq, length_take, length_drop, Hlen; lia).
      unfold block_word. rewrite drop_drop. done.
  - intros reg Hnot Hlt. destruct Hnot. rewrite Hfull in Hlt. apply list_elem_of_In.
    change (context_regs ARCH_MIPS64).*1 with (seq 0 33). apply in_seq. lia.
Qed.

(** ** Frames *)

(** The code a handler returns to when it was installed with [SA_SIGINFO]. *)
Definition rt_sigreturn (a : ArchEnum) : list (list Z) :=
  match a with
  | ARCH_ARM => map (le_bytes 4) [0xe3a070ad; 0xef9000ad; 0xdf0027ad]
  | ARCH_ARM64 => [le_bytes 4 0xd2801168 ++ le_bytes 4 0xd4000001]
  | ARCH_X86 => map (λ b, [0xb8; 0xad; 0; 0; 0; 0xcd; 0x80; Z.of_nat b]) (seq 0 256)
  | ARCH_X86_64 => [[0x48; 0xc7; 0xc0; 0x0f; 0; 0; 0; 0x0f; 0x05]]
  | ARCH_MIPS => [le_bytes 4 0x24021061 ++ le_bytes 4 0x0c]
  | ARCH_MIPS64 => [le_bytes 4 0x2402145b ++ le_bytes 4 0x0c]
  | ARCH_UNKNOWN => []
  end.
Definition sizeof_ucontext (a : ArchEnum) : nat :=
  match a with
  | ARCH_ARM => 104 | ARCH_ARM64 => 464 | ARCH_X86 => 96 | ARCH_X86_64 => 224 | ARCH_MIPS => 296 | ARCH_MIPS64 => 616 + 8
  | ARCH_UNKNOWN => 0
  end%nat.

Section frames.
Context {E P : Type} `{Memory E} `{Memory P} (elf_memory : E) (process_memory : P) (ce cp : Z → option Z).
Context `{!Reads 4096 elf_memory ce} `{!Reads 4096 process_memory cp}.

(** Where the kernel puts the ucontext of a handler entered with [SA_SIGINFO]:
    behind the siginfo on ARM, MIPS and ARM64, at the third argument on x86. *)
Definition ucontext_address (r : Regs) : option Z :=
  match arch r with
  | ARCH_ARM =>
      (λ w, if w =? sp r + 8 then sp r + 8 + 0x80 else sp r + 0x80) <$> read_word process_memory 4 (sp r)
  | ARCH_ARM64 => Some (sp r + 0x80)
  | ARCH_X86 => read_word process_memory 4 (u32 (sp r + 8))
  | ARCH_X86_64 => Some (sp r)
  | ARCH_MIPS | ARCH_MIPS64 => Some (sp r + (24 + 128))
  | ARCH_UNKNOWN => None
  end.
End frames.

Lemma stored_read {M} `{Memory M} (m : M) c `{!Reads 4096 m c} u l addr n off :
  stored c u l → 0 ≤ u → u + Z.of_nat (length l) ≤ 2 ^ 64 → 0 ≤ n ≤ 4096 →
  addr = u + Z.of_nat off → (off + Z.to_nat n ≤ length l)%nat → (off < length l)%nat →
  Read m addr n = take (Z.to_nat n) (drop off l) ∧ ReadFully m addr n = Some (take (Z.to_nat n) (drop off l)).
Proof.
  intros Hs Hu Hle Hn -> Hoff Hlt.
  destruct (valid_prefix_slice c u (length l) off (Z.to_nat n)) as [Es El]; [by rewrite Hs|done|].
  rewrite Hs in Es. rewrite Es. split.
  - apply read_contents; lia.
  - apply (ReadFully_spec 4096 m c); [done|lia|lia|done].
Qed.

Section step.
Context {E P : Type} `{Memory E} `{Memory P} (elf_memory : E) (process_memory : P) (ce cp : Z → option Z).
Context `{!Reads 4096 elf_memory ce} `{!Reads 4096 process_memory cp}.
Context (slot : list Z) (elf_offset u : Z) (code uc : list Z) (r : Regs).
Hypothesis Hslot : length slot = 8%nat.
Hypothesis Hfull : full r.
Hypothesis Hsp : 0 ≤ sp r.
Hypothesis Hcode : code ∈ rt_sigreturn (arch r).
Hypothesis Helf : 0 ≤ elf_offset ∧ elf_offset + Z.of_nat (length code) ≤ 2 ^ 64 ∧ stored ce elf_offset code.
Hypothesis Haddress : ucontext_address process_memory r = Some u.
Hypothesis Hu : 0 ≤ u ∧ u + Z.of_nat (length uc) ≤ 2 ^ bits_of (arch_type (arch r)) ∧ stored cp u uc.
Hypothesis Huc : byte_list uc ∧ length uc = sizeof_ucontext (arch r).

Lemma code_read n off :
  0 ≤ n ≤ 16 → (off + Z.to_nat n ≤ length code)%nat → (off < length code)%nat →
  Read elf_memory (elf_offset ⊞ Z.of_nat off) n = take (Z.to_nat n) (drop off code) ∧
  ReadFully elf_memory (elf_offset ⊞ Z.of_nat off) n = Some (take (Z.to_nat n) (drop off code)).
Proof.
  intros Hn Hoff Hlt. destruct Helf as (He & Hle & Hs). apply (stored_read _ ce elf_offset); try done; [lia|].
  apply u64_small. lia.
Qed.

Lemma frame_read addr n off :
  0 ≤ n ≤ 4096 → addr = u + Z.of_nat off → (off + Z.to_nat n ≤ length uc)%nat → (off < length uc)%nat →
  Read process_memory addr n = take (Z.to_nat n) (drop off uc) ∧
  ReadFully process_memory addr n = Some (take (Z.to_nat n) (drop off uc)).
Proof.
  intros. destruct Hu as (Hu0 & Hle & Hs). apply (stored_read _ cp u); try done.
  transitivity (2 ^ bits_of (arch_type (arch r))); [done|]. apply Z.pow_le_mono_r; [done|]. by destruct (arch r).
Qed.

Definition context_restored (r' : Regs) : Prop :=
  loaded (context_word (arch r)) (drop (mcontext_offset (arch r)) uc) (context_regs (arch r)) r r'.

Lemma code_start n :
  0 < n ≤ 16 → (Z.to_nat n ≤ length code)%nat → Read elf_memory elf_offset n = take (Z.to_nat n) code ∧ ReadFully elf_memory elf_offset n = Some (take (Z.to_nat n) code).
Proof.
  intros Hn Hle. pose proof (code_read n 0 ltac:(lia) ltac:(lia) ltac:(lia)) as Er.
  rewrite drop_0, Z.add_0_r, u64_small in Er by lia. done.
Qed.

Lemma read_regs_restored n addr off :
  addr = u + Z.of_nat off → 8 * Z.of_nat n = bits_of (arch_type (arch r)) → Z.of_nat n = context_word (arch r) →
  (off + n * Z.to_nat (arch_regs (arch r)) ≤ length uc)%nat → (off < length uc)%nat →
  same_places (Z.of_nat n) off (n * Z.to_nat (arch_regs (arch r))) (mcontext_offset (arch r))
    (reg_run 0 0 (Z.to_nat (arch_regs (arch r)))) (context_regs (arch r)) = true →
  Z.of_nat n * arch_regs (arch r) ≤ 4096 →
  ∃ r', read_regs process_memory n addr r = (true, r') ∧ context_restored r'.
Proof.
  intros Ha Hn Hw Hlen Hlt Hsame Hmax.
  assert (0 ≤ arch_regs (arch r)) by (by destruct (arch r)).
  destruct (frame_read addr (Z.of_nat n * total_regs r) off) as [Er _]; unfold total_regs; [lia|done|lia|done|].
  unfold read_regs, total_regs in *. rewrite Er. replace (Z.to_nat (Z.of_nat n * _)) with (n * Z.to_nat (arch_regs (arch r)))%nat by lia.
  rewrite length_take, length_drop, Nat.min_l by lia.
  eexists. split; [f_equal; apply Z.eqb_eq; lia|].
  unfold context_restored. rewrite <-Hw. eapply loaded_part; [exact Hsame|]. rewrite <-Hfull.
  apply overwrite_regs_loaded; [by apply byte_list_sub, Huc|done|].
  rewrite Hfull, length_take, length_drop. lia.
Qed.

Lemma load_regs_restored places d m block :
  block = take m (drop d uc) → in_regs (arch r) places = true →
  same_places (context_word (arch r)) d m (mcontext_offset (arch r)) places (context_regs (arch r)) = true →
  context_restored (load_regs (context_word (arch r)) places block r).
Proof. intros -> Hin Hsame. eapply loaded_part; [exact Hsame|]. by apply load_regs_loaded. Qed.

Lemma Arm64_frame : arch r = ARCH_ARM64 → ∃ r', RegsArm64_StepIfSignalHandler elf_memory process_memory elf_offset r = (true, r') ∧ context_restored r'.
Proof.
  intros Ha. destruct Huc as [_ Hlen]. pose proof Hcode as Hc. unfold ucontext_address in Haddress.
  rewrite Ha in Hc, Haddress, Hlen. apply list_elem_of_singleton in Hc.
  unfold RegsArm64_StepIfSignalHandler. destruct (code_start 8) as [_ ->]; [lia|by rewrite Hc|]. rewrite Hc. cbn.
  destruct Hu as (_ & Hmax & _). rewrite Ha, Hlen in Hmax. injection Haddress as Eu.
  cbn in Hmax. apply (read_regs_restored 8 _ 0xb8); rewrite ?Ha, ?Hlen; try reflexivity; try (cbn; lia).
  rewrite u64_small; lia.
Qed.

Lemma Arm_frame : arch r = ARCH_ARM → ∃ r', RegsArm_StepIfSignalHandler elf_memory process_memory elf_offset r = (true, r') ∧ context_restored r'.
Proof.
  intros Ha. destruct Huc as [_ Hlen]. pose proof Hcode as Hc. unfold ucontext_address in Haddress.
  rewrite Ha in Hc, Haddress, Hlen. destruct Hu as (_ & Hmax & _). rewrite Ha, Hlen in Hmax. cbn in Hmax.
  assert (length code = 4%nat ∧ existsb (Z.eqb (le_value code)) [0xe3a070ad; 0xef9000ad; 0xdf0027ad] = true) as [Hl Hv].
  { cbn in Hc. rewrite !elem_of_cons, elem_of_nil in Hc. by destruct Hc as [->|[->|[->|[]]]]. }
  unfold RegsArm_StepIfSignalHandler. destruct (code_start 4) as [_ ->]; [lia|by rewrite Hl|]. cbn -[le_value].
  rewrite take_ge by (by rewrite Hl).
  destruct (read_word process_memory 4 (sp r)) as [w|]; [|done]. injection Haddress as Eu.
  assert (∀ off, u + 0x20 = off → ∃ r', (if off =? 0 then (false, r) else read_regs process_memory 4 off r) = (true, r') ∧ context_restored r') as Hread.
  { intros off <-. rewrite (proj2 (Z.eqb_neq _ _)) by lia.
    apply (read_regs_restored 4 _ 0x20); rewrite ?Ha, ?Hlen; try reflexivity; cbn; lia. }
  assert (((le_value code =? 0xe3a07077) || (le_value code =? 0xef900077) || (le_value code =? 0xdf002777)) = false
    ∧ ((le_value code =? 0xe3a070ad) || (le_value code =? 0xef9000ad) || (le_value code =? 0xdf0027ad)) = true) as [-> ->].
  { cbn [existsb] in Hv. rewrite !orb_true_iff, !Z.eqb_eq in Hv. by destruct Hv as [->|[->|[->|]]]. }
  destruct Hu as [Hu0 _].
  assert (sp r + 0x80 ≤ u) as Hsu by (rewrite <-Eu; destruct (w =? sp r + 8); lia).
  rewrite (u64_small (sp r + 8)) by lia. revert Eu.
  destruct (w =? sp r + 8); intros Eu; apply Hread; rewrite u64_small; lia.
Qed.

Lemma X86_64_frame : arch r = ARCH_X86_64 → ∃ r', RegsX86_64_StepIfSignalHandler elf_memory process_memory elf_offset r = (true, r') ∧ context_restored r'.
Proof.
  intros Ha. destruct Huc as [_ Hlen]. pose proof Hcode as Hc. unfold ucontext_address in Haddress.
  rewrite Ha in Hc, Haddress, Hlen. apply list_elem_of_singleton in Hc. injection Haddress as Eu.
  destruct Hu as (_ & Hmax & _). rewrite Ha, Hlen in Hmax. cbn in Hmax.
  unfold RegsX86_64_StepIfSignalHandler.
  destruct (code_start 8) as [_ ->]; [lia|rewrite Hc; cbn; lia|].
  destruct (code_read 1 8) as [_ Eb]; [lia|rewrite Hc; cbn; lia..|]. change (Z.of_nat 8) with 8 in Eb. rewrite Eb, Hc. cbn -[take drop load_regs].
  destruct (frame_read (sp r ⊞ 0x28) (8 * 23) 0x28) as [_ ->]; rewrite ?Hlen; [lia|rewrite u64_small; lia|cbn; lia|cbn; lia|].
  eexists. split; [done|]. pose proof (load_regs_restored x86_64_context_regs 0x28 184) as Hload. rewrite Ha in Hload.
  by apply Hload.
Qed.

Lemma X86_frame : arch r = ARCH_X86 → ∃ r', RegsX86_StepIfSignalHandler elf_memory process_memory elf_offset r = (true, r') ∧ context_restored r'.
Proof.
  intros Ha. destruct Huc as [_ Hlen]. pose proof Hcode as Hc. unfold ucontext_address in Haddress.
  rewrite Ha in Hc, Haddress, Hlen. destruct Hu as (Hu0 & Hmax & _). rewrite Ha, Hlen in Hmax. cbn in Hmax.
  assert (length code = 8%nat ∧ (le_value code =? 0x80cd00000077b858) = false
    ∧ (Z.land (le_value code) 0x00ffffffffffffff =? 0x0080cd000000adb8) = true) as (Hl & Ev1 & Ev2).
  { assert (forallb (λ code, (length code =? 8)%nat && negb (le_value code =? 0x80cd00000077b858)
      && (Z.land (le_value code) 0x00ffffffffffffff =? 0x0080cd000000adb8)) (rt_sigreturn ARCH_X86) = true) as Hall
      by (vm_compute; reflexivity).
    rewrite forallb_forall in Hall. apply list_elem_of_In, Hall in Hc.
    apply andb_true_iff in Hc as [[Hl%Nat.eqb_eq Hv%negb_true_iff]%andb_true_iff Hw]. done. }
  unfold RegsX86_StepIfSignalHandler. destruct (code_start 8) as [_ ->]; [lia|by rewrite Hl|].
  rewrite take_ge by (by rewrite Hl). cbn -[load_regs]. rewrite Ev1, Ev2, Haddress.
  destruct (frame_read (u32 (u + 0x14)) (4 * 19) 0x14) as [_ Ef]; rewrite ?Hlen; [lia|apply Z.mod_small; lia|cbn; lia|cbn; lia|].
  cbn in Ef. rewrite Ef. eexists. split; [done|].
  pose proof (load_regs_restored x86_context_regs 0x14 76) as Hload. rewrite Ha in Hload. by apply Hload.
Qed.

Lemma Mips_frame : arch r = ARCH_MIPS → ∃ r', RegsMips_StepIfSignalHandler elf_memory process_memory elf_offset r = (true, r') ∧ context_restored r'.
Proof.
  intros Ha. destruct Huc as [_ Hlen]. pose proof Hcode as Hc. unfold ucontext_address in Haddress.
  rewrite Ha in Hc, Haddress, Hlen. apply list_elem_of_singleton in Hc. injection Haddress as Eu.
  destruct Hu as (_ & Hmax & _). rewrite Ha, Hlen in Hmax. cbn in Hmax.
  unfold RegsMips_StepIfSignalHandler. destruct (code_start 8) as [_ ->]; [lia|by rewrite Hc|].
  cbn [fmap option_fmap option_map].
  replace (le_value (take (Z.to_nat 8) code)) with 0x0000000c24021061 by (by rewrite Hc). cbn [Z.eqb Pos.eqb].
  destruct (frame_read (sp r ⊞ (24 + 128 + 24 + 8)) (8 * 33) 32) as [_ ->];
    rewrite ?Hlen; [lia|rewrite u64_small; lia|cbn; lia|cbn; lia|].
  eexists. split; [done|].
  pose proof (load_regs_restored ((32, 0)%nat :: reg_run 0 1 32) 32 264) as Hload. rewrite Ha in Hload. by apply Hload.
Qed.

Lemma Mips64_frame : arch r = ARCH_MIPS64 → ∃ r', RegsMips64_StepIfSignalHandler elf_memory process_memory slot elf_offset r = (true, r') ∧ context_restored r'.
Proof.
  intros Ha. destruct Huc as [Hb Hlen]. pose proof Hcode as Hc. unfold ucontext_address in Haddress.
  rewrite Ha in Hc, Haddress, Hlen. apply list_elem_of_singleton in Hc. injection Haddress as Eu.
  destruct Hu as (_ & Hmax & _). rewrite Ha, Hlen in Hmax. cbn in Hmax.
  unfold RegsMips64_StepIfSignalHandler. destruct (code_start 8) as [-> _]; [lia|by rewrite Hc|].
  assert (take (Z.to_nat 8) code = code) as -> by (by rewrite Hc).
  assert (le_value (overwrite slot code) = 0x0000000c2402145b) as Edata.
  { unfold overwrite. rewrite (drop_ge slot), app_nil_r by (rewrite Hslot, Hc; cbn; lia). by rewrite Hc. }
  destruct (frame_read (sp r ⊞ (24 + 128 + 40)) (8 * 32) 40) as [-> _];
    rewrite ?Hlen; [lia|rewrite u64_small; lia|cbn; lia|cbn; lia|].
  destruct (frame_read (sp r ⊞ (24 + 128 + 40 + 576)) 8 616) as [-> _];
    rewrite ?Hlen; [lia|rewrite u64_small; lia|cbn; lia|cbn; lia|].
  set (block := take (Z.to_nat (8 * 32)) (drop 40 uc)). set (word := take (Z.to_nat 8) (drop 616 uc)).
  assert (length block = 256%nat) as Eblock by (unfold block; rewrite length_take, length_drop, Hlen; done).
  assert (length word = 8%nat) as Eword by (unfold word; rewrite length_take, length_drop, Hlen; done).
  destruct code as [|c0 code']; [done|]. rewrite Edata. cbn [Z.eqb Pos.eqb negb].
  destruct block as [|b0 block'] eqn:Eb; [done|]. destruct word as [|w0 word'] eqn:Ew; [done|].
  eexists. split; [done|]. 
  rewrite <-Ew, <-Eb. unfold context_restored. rewrite Ha. by apply mips64_loaded.
Qed.

(** C27. A handler's frame is its ucontext. On each of the six architectures,
    where [StepIfSignalHandler] stands at the return code of a handler entered
    with [SA_SIGINFO], it succeeds, gives every register of the machine context
    the value [CreateFromUcontext] reads from the context the kernel pushed, and
    leaves every other register alone. The two functions find the context by
    different offsets and word orders. *)
Theorem signal_frame_is_ucontext :
  ∃ r' k, StepIfSignalHandler elf_memory process_memory slot elf_offset r = (true, r')
    ∧ CreateFromUcontext (arch r) uc = Some k
    ∧ ∀ reg, (reg < Z.to_nat (total_regs r))%nat →
        get_reg r' reg = if decide (reg ∈ (context_regs (arch r)).*1) then get_reg k reg else get_reg r reg.
Proof.
  assert (∃ r', StepIfSignalHandler elf_memory process_memory slot elf_offset r = (true, r') ∧ context_restored r') as (r' & Hstep & Hin & Hout).
  { pose proof Arm_frame. pose proof Arm64_frame. pose proof X86_frame. pose proof X86_64_frame.
    pose proof Mips_frame. pose proof Mips64_frame. pose proof Hcode as Hc.
    unfold StepIfSignalHandler. destruct (arch r); [by apply not_elem_of_nil in Hc|auto..]. }
  assert (∃ k, CreateFromUcontext (arch r) uc = Some k
    ∧ loaded (context_word (arch r)) (drop (mcontext_offset (arch r)) uc) (context_regs (arch r)) (Regs_new (arch r)) k)
    as (k & Hk & Hkin & _).
  { pose proof Hcode as Hc. destruct (arch r); [by apply not_elem_of_nil in Hc|..].
    all: eexists; split; [reflexivity|]; by apply load_regs_loaded. }
  exists r', k. split; [done|]. split; [done|]. intros reg Hreg. case_decide as Hc.
  - apply list_elem_of_fmap in Hc as ([reg' place] & -> & Hp). cbn [fst]. by rewrite (Hin _ _ Hp), (Hkin _ _ Hp).
  - apply Hout; [done|]. by rewrite Hfull.
Qed.
End step.

Definition sample_ucontext : list Z := map (λ i, Z.of_nat i mod 251) (seq 0 224).
Lemma signal_frame_is_ucontext_witness :
  let code := [0x48; 0xc7; 0xc0; 0x0f; 0; 0; 0; 0x0f; 0x05] in
  ∃ r' k, StepIfSignalHandler (mkBuffer code) (mkBuffer sample_ucontext) (repeat 0 8) 0 (Regs_new ARCH_X86_64) = (true, r')
    ∧ CreateFromUcontext ARCH_X86_64 sample_ucontext = Some k
    ∧ ∀ reg, (reg < 17)%nat →
        get_reg r' reg = if decide (reg ∈ (context_regs ARCH_X86_64).*1) then get_reg k reg else 0.
Proof.
  intros code.
  destruct (signal_frame_is_ucontext (mkBuffer code) (mkBuffer sample_ucontext) (list_contents code)
    (list_contents sample_ucontext) (repeat 0 8) 0 0 code sample_ucontext (Regs_new ARCH_X86_64)) as (r' & k & Hs & Hk & Hget);
    try done; try apply _.
  - by apply list_elem_of_singleton.
  - split; [|reflexivity]. apply Forall_fmap, Forall_true. intros i. unfold compose. pose proof (Z.mod_pos_bound (Z.of_nat i) 251). lia.
  - exists r', k. split; [done|]. split; [done|]. intros reg Hreg.
    rewrite Hget by done. change (arch (Regs_new ARCH_X86_64)) with ARCH_X86_64.
    case_decide; [done|]. do 17 (destruct reg as [|reg]; [done|]). lia.
Defined.
