(* ===== verification/Unwinder.v ===== *)
(** * The unwinder

    unwindstack/Unwinder.cpp and include/unwindstack/Unwinder.h: the loop that
    turns registers into frames; AndroidUnwinder.cpp and the adapter of
    backtrace/src/UnwindBacktrace.cpp that start it.  Maps are looked up in a
    fixed process; what an ELF object knows is an interface, [ElfOps], of which
    the theorems assume nothing but what they state.  The caches of process memory
    and dex files are left out. *)
From S2P Require Import Prelude CString UnwindMemory DwarfMemory DwarfCfa UnwindRegs.

Module ErrorCode.
Inductive t :=
  | ERROR_NONE | ERROR_MEMORY_INVALID | ERROR_UNWIND_INFO | ERROR_UNSUPPORTED | ERROR_INVALID_MAP
  | ERROR_MAX_FRAMES_EXCEEDED | ERROR_REPEATED_FRAME | ERROR_INVALID_ELF | ERROR_THREAD_DOES_NOT_EXIST
  | ERROR_THREAD_TIMEOUT | ERROR_SYSTEM_CALL | ERROR_BAD_ARCH | ERROR_MAPS_PARSE | ERROR_INVALID_PARAMETER
  | ERROR_PTRACE_CALL | ERROR_EXIT_FUNC.
#[global] Instance t_eq_dec : EqDecision t.
Proof. solve_decision. Defined.
End ErrorCode.
Import ErrorCode.

Record ErrorData := mkErrorData { err_code : ErrorCode.t; err_address : Z }.
#[global] Instance ErrorData_upd : Updatable ErrorData := λ e, mkErrorData (err_code e) (err_address e).
Definition no_error : ErrorData := mkErrorData ERROR_NONE 0.

Definition WARNING_DEX_PC_NOT_IN_MAP : Z := 1.
Definition DEVICE_MAP : Z := 0x8000.
Definition JIT_SYMFILE_MAP : Z := 0x4000.
Definition EXEC_MAP : Z := 4.

(** A map with the ELF object [GetElf] gives for it. *)
Record Map := mkMap { um_start : Z; um_flags : Z; um_name : string; um_elf_offset : Z; um_elf : nat }.

Record FrameData := mkFrame {
  fr_num : nat; fr_rel_pc : Z; fr_pc : Z; fr_sp : Z;
  fr_function : string; fr_function_offset : Z; fr_map : option Map;
}.
#[global] Instance FrameData_upd : Updatable FrameData := λ f,
  mkFrame (fr_num f) (fr_rel_pc f) (fr_pc f) (fr_sp f) (fr_function f) (fr_function_offset f) (fr_map f).

(** ** ELF objects *)

(** What [ElfInterface::Step] does: its result, [*finished] and
    [*is_signal_frame], the registers and the last error after it. *)
Record Stepped := mkStepped { st_ok : bool; st_finished : bool; st_signal : bool; st_regs : Regs; st_error : ErrorData }.
Class ElfOps (B : Type) := {
  elf_valid : nat → bool;
  elf_load_bias : nat → Z;
  elf_memory : nat → B;
  elf_step : nat → Z → Regs → Stepped;
  elf_function : nat → Z → option (string * Z);
}.

(** ** Names *)

(** [android::base::Basename], that is [basename] of POSIX. *)
Fixpoint strip_slashes (s : string) : string :=
  match s with
  | EmptyString => EmptyString
  | String c r =>
      match strip_slashes r with
      | EmptyString => if Ascii.eqb c "/" then EmptyString else String c EmptyString
      | r => String c r
      end
  end.
Definition Basename (path : string) : string :=
  match path with
  | EmptyString => "."
  | _ =>
      match strip_slashes path with
      | EmptyString => "/"
      | s => match strrchr s "/" with Some i => sdrop (S i) s | None => s end
      end
  end.
Definition listed (l : list string) (s : string) : bool := existsb (String.eqb s) l.

Definition ShouldStop (map_suffixes_to_ignore : option (list string)) (map_name : string) : bool :=
  match map_suffixes_to_ignore with
  | None => false
  | Some suffixes => match strrchr map_name "." with Some pos => listed suffixes (sdrop (S pos) map_name) | None => false end
  end.
Definition ShouldExit (mangle_function_to_exit : option (list string)) (function_name : string) : bool :=
  match mangle_function_to_exit with None => false | Some names => listed names function_name end.

(** ** The loop *)

(** The registers, frames and errors of the unwinder, the last error of each ELF
    object, and the variables of the loop. *)
Record Walk := mkWalk {
  w_regs : Regs; w_frames : list FrameData; w_error : ErrorData; w_warnings : Z; w_errors : gmap nat ErrorData;
  return_address_attempt : bool; adjust_pc : bool; w_skip : option (list string);
}.
#[global] Instance Walk_upd : Updatable Walk := λ w,
  mkWalk (w_regs w) (w_frames w) (w_error w) (w_warnings w) (w_errors w) (return_address_attempt w) (adjust_pc w) (w_skip w).
Definition set_code (c : ErrorCode.t) (w : Walk) : Walk := w <| w_error := (w_error w) <| err_code := c |> |>.

(** What the first part of an iteration finds out. *)
Record Located := mkLocated { lo_map : option Map; lo_adjustment : Z; lo_step_pc : Z; lo_rel_pc : Z; lo_elf : nat; lo_ignore : bool }.
#[global] Instance Located_upd : Updatable Located := λ l,
  mkLocated (lo_map l) (lo_adjustment l) (lo_step_pc l) (lo_rel_pc l) (lo_elf l) (lo_ignore l).

(** An iteration goes on or leaves the loop. *)
Inductive Turn := Go (w : Walk) | Stop (w : Walk).

Section unwind.
Context {B P : Type} `{Memory B} `{Memory P} `{ElfOps B} (process_memory : P) (slot : list Z) (clear_pac_bits : Z → Z).
(** The maps, the JIT debug data when there is any, and the settings. *)
Context (find : Z → option Map) (jit_debug : option (Z → option nat)).
Context (max_frames : nat) (map_suffixes_to_ignore mangle_function_to_exit : option (list string)) (resolve_names : bool).

Definition GetRelPc (elf : nat) (pc : Z) (m : Map) : Z := pc ⊟ um_start m ⊞ elf_load_bias elf ⊞ um_elf_offset m.
Definition Elf_StepIfSignalHandler (elf : nat) (rel_pc : Z) (regs : Regs) : bool * Regs :=
  if negb (elf_valid elf) then (false, regs)
  else if rel_pc <? elf_load_bias elf then (false, regs)
  else StepIfSignalHandler (elf_memory elf) process_memory slot (rel_pc - elf_load_bias elf) regs.
Definition Elf_GetLastError (errors : gmap nat ErrorData) (elf : nat) : ErrorData :=
  if elf_valid elf then default no_error (errors !! elf) else mkErrorData ERROR_INVALID_ELF 0.
Definition Elf_GetFunctionName (elf : nat) (addr : Z) : option (string * Z) :=
  if elf_valid elf then elf_function elf addr else None.
Definition is_device (m : option Map) : bool := match m with Some m => flag_set (um_flags m) DEVICE_MAP | None => false end.

(** Lines 153-201: the map, the object and the addresses; nothing when the map
    is one to stop at. *)
Definition locate (w : Walk) : Walk * option Located :=
  let cur := pc (w_regs w) in
  match find cur with
  | None =>
      let w :=
        if negb (return_address_attempt w) || bool_decide (err_code (w_error w) = ERROR_NONE)
        then w <| w_error := mkErrorData ERROR_INVALID_MAP cur |> else w in
      (w, Some (mkLocated None 0 cur cur 0 false))
  | Some m =>
      let ignore := match w_skip w with Some names => listed names (Basename (um_name m)) | None => false end in
      if negb ignore && ShouldStop map_suffixes_to_ignore (um_name m) then (w, None)
      else
        let elf := um_elf m in
        let rel_pc := GetRelPc elf cur m in
        let step_pc := if flag_set (um_flags m) JIT_SYMFILE_MAP then cur else rel_pc in
        let adjustment :=
          if adjust_pc w then GetPcAdjustment (elf_memory elf) (elf_valid elf) (elf_load_bias elf) rel_pc (arch (w_regs w)) else 0 in
        let l := mkLocated (Some m) adjustment (step_pc ⊟ adjustment) rel_pc elf ignore in
        match jit_debug with
        | Some jit_find =>
            if negb (elf_valid elf) && flag_set (um_flags m) EXEC_MAP then
              let adjusted_jit_pc := cur ⊟ adjustment in
              match jit_find adjusted_jit_pc with
              | Some jit_elf => (w, Some (l <| lo_step_pc := adjusted_jit_pc |> <| lo_elf := jit_elf |>))
              | None => (w, Some l)
              end
            else (w, Some l)
        | None => (w, Some l)
        end
  end.

Definition FillInDexFrame (w : Walk) : Walk :=
  let dex_pc := dex_pc_ (w_regs w) in
  let num := length (w_frames w) in
  match find dex_pc with
  | Some m => w <| w_frames := w_frames w ++ [mkFrame num (dex_pc ⊟ um_start m) dex_pc (sp (w_regs w)) EmptyString 0 (Some m)] |>
  | None =>
      w <| w_frames := w_frames w ++ [mkFrame num dex_pc dex_pc (sp (w_regs w)) EmptyString 0 None] |>
        <| w_warnings := Z.lor (w_warnings w) WARNING_DEX_PC_NOT_IN_MAP |>
  end.
(** The frame, when there is a map, is the last one. *)
Definition FillInFrame (l : Located) (w : Walk) : Walk :=
  let num := length (w_frames w) in
  w <| w_frames := w_frames w ++ [mkFrame num (lo_rel_pc l ⊟ lo_adjustment l) (pc (w_regs w) ⊟ lo_adjustment l)
                                    (sp (w_regs w)) EmptyString 0 (lo_map l)] |>.
(** Lines 203-222; nothing when the dex frame was the last there was room for. *)
Definition add_frames (l : Located) (w : Walk) : Walk * bool :=
  if lo_ignore l then (w, true)
  else
    let '(w, room) :=
      if negb (dex_pc_ (w_regs w) =? 0) then
        let w := FillInDexFrame w in
        let w := w <| w_regs := set_dex_pc 0 (w_regs w) |> in
        if (length (w_frames w) =? max_frames)%nat then (set_code ERROR_MAX_FRAMES_EXCEEDED w, false) else (w, true)
      else (w, true) in
    if room then (FillInFrame l w <| w_skip := None |>, true) else (w, false).

(** The frame [FillInFrame] returned: not when it was skipped or has no map. *)
Definition has_frame (l : Located) : bool := negb (lo_ignore l) && bool_decide (is_Some (lo_map l)).
Definition on_last {A} (f : A → A) (l : list A) : list A := match last l with Some x => removelast l ++ [f x] | None => l end.

(** Lines 225-260: whether it stepped, is in a device map and is finished; and
    the address names are looked up at. *)
Definition step_frame (l : Located) (w : Walk) : Walk * bool * bool * bool * Z :=
  match lo_map l with
  | None => (w, false, false, false, lo_step_pc l)
  | Some m =>
      if flag_set (um_flags m) DEVICE_MAP || is_device (find (sp (w_regs w))) then (w, false, true, false, lo_step_pc l)
      else
        let elf := lo_elf l in
        let '(stepped, finished, is_signal_frame, w) :=
          let '(handled, regs) := Elf_StepIfSignalHandler elf (lo_rel_pc l) (w_regs w) in
          if handled : bool then (true, false, true, w <| w_regs := regs |>)
          else if negb (elf_valid elf) then (false, false, false, w <| w_regs := regs |>)
          else
            let s := elf_step elf (lo_step_pc l) regs in
            (st_ok s, st_finished s, st_signal s,
             w <| w_regs := st_regs s |> <| w_errors := <[elf := st_error s]> (w_errors w) |>) in
        let '(w, step_pc) :=
          if is_signal_frame && has_frame l then
            (w <| w_frames := on_last (λ f, f <| fr_rel_pc := lo_rel_pc l |> <| fr_pc := fr_pc f ⊞ lo_adjustment l |>) (w_frames w) |>, lo_rel_pc l)
          else (w, lo_step_pc l) in
        (w <| w_error := Elf_GetLastError (w_errors w) elf |>, stepped, false, finished, step_pc)
  end.

(** Lines 262-268. *)
Definition name_frame (l : Located) (step_pc : Z) (w : Walk) : Walk :=
  if has_frame l then
    let '(name, offset) :=
      match (if resolve_names then Elf_GetFunctionName (lo_elf l) step_pc else None) with Some r => r | None => (EmptyString, 0) end in
    w <| w_frames := on_last (λ f, f <| fr_function := name |> <| fr_function_offset := offset |>) (w_frames w) |>
  else w.
Definition exits (l : Located) (w : Walk) : bool :=
  has_frame l && match last (w_frames w) with Some f => ShouldExit mangle_function_to_exit (fr_function f) | None => false end.

(** Lines 279-306: the second attempt by the return address. *)
Definition after_step (stepped in_device_map : bool) (w : Walk) : Turn :=
  if negb stepped then
    if return_address_attempt w then
      let remove :=
        (2 <? length (w_frames w))%nat ||
        match w_frames w with f :: _ => bool_decide (is_Some (find (fr_pc f))) | [] => false end in
      Stop (if remove then w <| w_frames := removelast (w_frames w) |> else w)
    else if in_device_map then Stop w
    else
      let '(set, regs) := SetPcFromReturnAddress process_memory (w_regs w) in
      let w := w <| w_regs := regs |> in
      if set : bool then Go (w <| return_address_attempt := true |>) else Stop w
  else
    let w := w <| return_address_attempt := false |> in
    Go (if (max_frames =? length (w_frames w))%nat then set_code ERROR_MAX_FRAMES_EXCEEDED w else w).

Definition unwind_turn (w : Walk) : Turn :=
  let cur_pc := pc (w_regs w) in
  let cur_sp := sp (w_regs w) in
  match locate w with
  | (w, None) => Stop w
  | (w, Some l) =>
      match add_frames l w with
      | (w, false) => Stop w
      | (w, true) =>
          let w := w <| adjust_pc := true |> in
          let '(w, stepped, in_device_map, finished, step_pc) := step_frame l w in
          let w := name_frame l step_pc w in
          if exits l w then Stop (set_code ERROR_EXIT_FUNC w)
          else if finished : bool then Stop w
          else
            match after_step stepped in_device_map w with
            | Stop w => Stop w
            | Go w =>
                if (cur_pc =? pc (w_regs w)) && (cur_sp =? sp (w_regs w)) then Stop (set_code ERROR_REPEATED_FRAME w) else Go w
            end
      end
  end.

(** [None] when the loop is not done after [fuel] iterations. *)
Fixpoint unwind_loop (fuel : nat) (w : Walk) : option Walk :=
  if (length (w_frames w) <? max_frames)%nat then
    match fuel with
    | O => None
    | S fuel => match unwind_turn w with Go w => unwind_loop fuel w | Stop w => Some w end
    end
  else Some w.
(** The unwinder keeps the errors of the ELF objects from earlier calls. *)
Definition unwind_start (initial_map_names_to_skip : option (list string)) (regs : Regs) (errors : gmap nat ErrorData) : Walk :=
  let regs := match find (pc regs) with None => fallback_pc clear_pac_bits regs | Some _ => regs end in
  mkWalk regs [] no_error 0 errors false false initial_map_names_to_skip.
Definition Unwind (fuel : nat) (initial_map_names_to_skip : option (list string)) (regs : Regs) (errors : gmap nat ErrorData) : option Walk :=
  unwind_loop fuel (unwind_start initial_map_names_to_skip regs errors).

(** ** One frame *)

(** [fr_num] and [fr_sp] are not set by it. *)
Definition BuildFrameFromPcOnly (arch : ArchEnum) (cur : Z) : FrameData :=
  match find cur with
  | None => mkFrame 0 cur cur 0 EmptyString 0 None
  | Some m =>
      if bool_decide (arch = ARCH_UNKNOWN) then mkFrame 0 cur cur 0 EmptyString 0 None
      else
        let elf := um_elf m in
        let relative_pc := GetRelPc elf cur m in
        let adjustment := GetPcAdjustment (elf_memory elf) (elf_valid elf) (elf_load_bias elf) relative_pc arch in
        let relative_pc := relative_pc ⊟ adjustment in
        let '(debug_pc, elf) :=
          match jit_debug with
          | Some jit_find =>
              if negb (elf_valid elf) then
                match jit_find (cur ⊟ adjustment) with Some jit_elf => (cur ⊟ adjustment, jit_elf) | None => (relative_pc, elf) end
              else (relative_pc, elf)
          | None => (relative_pc, elf)
          end in
        let '(name, offset) :=
          match (if resolve_names then Elf_GetFunctionName elf debug_pc else None) with Some r => r | None => (EmptyString, 0) end in
        mkFrame 0 relative_pc (cur ⊟ adjustment) 0 name offset (Some m)
  end.
End unwind.

(** ** The adapter *)

(** [frames->at (frame.num) = frame.pc]; nothing when [at] throws. *)
Fixpoint store_frames (info : list FrameData) (frames : list Z) : option (list Z) :=
  match info with
  | [] => Some frames
  | f :: info => if (fr_num f <? length frames)%nat then store_frames info (<[fr_num f := fr_pc f]> frames) else None
  end.
Definition adapter_frames (info : list FrameData) : option (list Z) := store_frames info (replicate (length info) 0).
