(* ===== verification/UnwinderProps.v ===== *)
(** * The unwinder ends, and shows the frames of the stack

    About Unwinder.v, for any process: any maps, any ELF objects, any memory. *)
From S2P Require Import Prelude CString UnwindMemory DwarfMemory DwarfCfa UnwindRegs Unwinder.
Import ErrorCode.

(** ** Frames *)

Definition numbered_frames (l : list FrameData) : Prop := ∀ i f, l !! i = Some f → fr_num f = i.

Lemma numbered_app l f : numbered_frames l → fr_num f = length l → numbered_frames (l ++ [f]).
Proof.
  intros Hl Hf i g Hi. apply lookup_app_Some in Hi as [Hi|[Hge Hi]]; [by apply Hl|].
  destruct (i - length l)%nat as [|k] eqn:E; [|done]. injection Hi as <-. lia.
Qed.
Lemma on_last_snoc {A} (f : A → A) l x : on_last f (l ++ [x]) = l ++ [f x].
Proof. unfold on_last. by rewrite last_snoc, removelast_last. Qed.
Lemma length_on_last {A} (f : A → A) l : length (on_last f l) = length l.
Proof.
  destruct l as [|x l' _] using rev_ind; [done|]. rewrite on_last_snoc, !length_app. done.
Qed.
Lemma numbered_on_last f l : (∀ g, fr_num (f g) = fr_num g) → numbered_frames l → numbered_frames (on_last f l).
Proof.
  intros Hf. destruct l as [|x l' _] using rev_ind; [done|]. rewrite on_last_snoc. intros Hl. apply numbered_app.
  - intros i g Hi. apply Hl. by apply lookup_app_l_Some.
  - rewrite Hf. apply Hl. by apply list_lookup_middle.
Qed.
Lemma numbered_removelast l : numbered_frames l → numbered_frames (removelast l).
Proof.
  destruct l as [|x l' _] using rev_ind; [done|]. rewrite removelast_last. intros Hl i g Hi. apply Hl. by apply lookup_app_l_Some.
Qed.
(** Numbered frames can be stored by their numbers. *)
Lemma adapter_numbered l : numbered_frames l → adapter_frames l = Some (fr_pc <$> l).
Proof.
  intros Hl. unfold adapter_frames.
  assert (∀ done_ todo, l = done_ ++ todo → store_frames todo ((fr_pc <$> done_) ++ replicate (length todo) 0) = Some (fr_pc <$> l)) as Hs; [|by apply (Hs [])].
  intros done_ todo. revert done_. induction todo as [|f todo IH]; intros done_ El; cbn [store_frames length replicate].
  - by rewrite El, !app_nil_r.
  - assert (fr_num f = length done_) as En by (apply Hl; rewrite El; by apply list_lookup_middle).
    rewrite En, length_app, length_fmap. destruct (Nat.ltb_spec (length done_) (length done_ + length (0 :: replicate (length todo) 0))) as [_|Hc]; [|cbn in Hc; lia].
    rewrite insert_app_r_alt, length_fmap, Nat.sub_diag by (rewrite length_fmap; lia). cbn.
    rewrite (cons_middle _ (fr_pc <$> done_)), app_assoc. change [fr_pc f] with (fr_pc <$> [f]). rewrite <-fmap_app. apply IH. by rewrite El, <-app_assoc.
Qed.

Section any_process.
Context {B P : Type} `{Memory B} `{Memory P} `{ElfOps B} (process_memory : P) (slot : list Z) (clear_pac_bits : Z → Z).
Context (find : Z → option Map) (jit_debug : option (Z → option nat)).
Context (max_frames : nat) (suffixes exit_names : option (list string)) (resolve_names : bool).
Abbreviation turn := (unwind_turn process_memory slot find jit_debug max_frames suffixes exit_names resolve_names).
Abbreviation loop := (unwind_loop process_memory slot find jit_debug max_frames suffixes exit_names resolve_names).

(** ** One iteration of any walk *)

Definition frames_ok (w : Walk) : Prop := numbered_frames (w_frames w) ∧ (length (w_frames w) ≤ max_frames)%nat.

Lemma locate_frames w : w_frames (fst (locate find jit_debug suffixes w)) = w_frames w ∧ w_skip (fst (locate find jit_debug suffixes w)) = w_skip w.
Proof using Type. unfold locate. repeat (case_match; cbn; try done). Qed.
Lemma locate_ignore w w' l : locate find jit_debug suffixes w = (w', Some l) → w_skip w = None → lo_ignore l = false.
Proof using Type. unfold locate. intros Hl Hs. rewrite Hs in Hl. repeat (case_match; simplify_eq/=; try done). Qed.
Lemma step_frames l w : length (w_frames (step_frame process_memory slot find l w).1.1.1.1) = length (w_frames w) ∧
  w_skip (step_frame process_memory slot find l w).1.1.1.1 = w_skip w ∧
  (lo_ignore l = true → w_frames (step_frame process_memory slot find l w).1.1.1.1 = w_frames w) ∧
  (numbered_frames (w_frames w) → numbered_frames (w_frames (step_frame process_memory slot find l w).1.1.1.1)).
Proof using Type.
  unfold step_frame, has_frame. destruct (lo_ignore l); cbn [negb andb]; rewrite ?andb_false_r.
  all: repeat (case_match; simplify_eq/=; try done); rewrite ?length_on_last; split_and!; try done; intros Hn; first [by apply numbered_on_last|by rewrite andb_false_r in *].
Qed.
Lemma name_frames l step_pc w : length (w_frames (name_frame resolve_names l step_pc w)) = length (w_frames w) ∧
  w_skip (name_frame resolve_names l step_pc w) = w_skip w ∧
  (lo_ignore l = true → w_frames (name_frame resolve_names l step_pc w) = w_frames w) ∧
  (numbered_frames (w_frames w) → numbered_frames (w_frames (name_frame resolve_names l step_pc w))).
Proof using Type.
  unfold name_frame, has_frame. destruct (lo_ignore l); cbn [negb andb].
  all: repeat (case_match; simplify_eq/=; try done); rewrite ?length_on_last; split_and!; try done; intros Hn; first [by apply numbered_on_last|by rewrite andb_false_r in *].
Qed.
(** Frames are added unless the frame is skipped. *)
Lemma add_frames_ok l w w' room : add_frames find max_frames l w = (w', room) → frames_ok w → (length (w_frames w) < max_frames)%nat →
  frames_ok w' ∧ (if lo_ignore l then w' = w ∧ room = true else room = true → (length (w_frames w) < length (w_frames w'))%nat ∧ w_skip w' = None).
Proof using Type.
  unfold add_frames, FillInFrame, FillInDexFrame. intros Ha [Hn Hle] Hlt. destruct (lo_ignore l); [by simplify_eq|].
  repeat (case_match; simplify_eq/=; try done).
  all: repeat match goal with Hx : (_ =? _)%nat = _ |- _ => apply Nat.eqb_eq in Hx || apply Nat.eqb_neq in Hx end.
  all: rewrite ?length_app in *; cbn in *; split; [|intros ?; try done; (split; [rewrite ?length_app; cbn; lia|done])].
  all: split; cbn [w_frames]; [repeat (apply numbered_app; [|by rewrite ?length_app]); done|cbn; rewrite ?length_app; cbn; lia].
Qed.
Lemma after_step_ok stepped device w :
  match after_step process_memory find max_frames stepped device w with
  | Go w' => w_frames w' = w_frames w ∧ w_skip w' = w_skip w
  | Stop w' => w_frames w' = w_frames w ∨ w_frames w' = removelast (w_frames w)
  end.
Proof using Type. unfold after_step. repeat (case_match; simplify_eq/=; auto). Qed.
Lemma length_removelast {A} (l : list A) : (length (removelast l) ≤ length l)%nat.
Proof using Type. destruct l as [|x l' _] using rev_ind; [done|]. rewrite removelast_last, length_app. lia. Qed.

(** An iteration that goes on adds a frame, except that it may skip one while
    there are none. *)
Lemma turn_ok w : frames_ok w → (length (w_frames w) < max_frames)%nat →
  match turn w with
  | Stop w' => frames_ok w'
  | Go w' => frames_ok w' ∧ (((length (w_frames w) < length (w_frames w'))%nat ∧ w_skip w' = None) ∨
      (w_skip w ≠ None ∧ w_frames w' = w_frames w ∧ w_skip w' = w_skip w))
  end.
Proof using Type.
  intros Hok Hlt. unfold unwind_turn. pose proof (locate_frames w) as [Ef Es]. destruct (locate find jit_debug suffixes w) as [w1 [l|]] eqn:El; cbn [fst] in *.
  2: { unfold frames_ok. by rewrite Ef. }
  assert (frames_ok w1) as Hok1 by (unfold frames_ok; by rewrite Ef). rewrite <-Ef in Hlt.
  destruct (add_frames find max_frames l w1) as [w2 room] eqn:Ea. destruct (add_frames_ok _ _ _ _ Ea Hok1 Hlt) as [Hok2 Ha].
  destruct room; [|done]. set (w3 := w2 <| adjust_pc := true |>).
  assert (frames_ok w3) as Hok3 by done. pose proof (step_frames l w3) as (Ls & Ss & Is & Ns).
  destruct (step_frame process_memory slot find l w3) as [[[[w4 stepped] device] finished] step_pc]. cbn [fst] in *.
  pose proof (name_frames l step_pc w4) as (Lm & Sm & Im & Nm). set (w5 := name_frame resolve_names l step_pc w4) in *.
  assert (frames_ok w5) as Hok5 by (destruct Hok3 as [Hn Hle]; split; [auto|lia]).
  assert (∀ c, frames_ok (set_code c w5)) as Hset by done. destruct (exits _ _ _); [done|]. destruct finished; [done|].
  pose proof (after_step_ok stepped device w5) as Has. destruct (after_step _ _ _ _ _ _) as [w6|w6].
  - destruct Has as [E6 S6]. assert (frames_ok w6) as Hok6 by (unfold frames_ok; by rewrite E6).
    destruct (_ && _); [done|]. split; [done|]. rewrite E6, S6. destruct (lo_ignore l) eqn:Ei.
    + right. destruct Ha as [-> _]. cbn in *. split; [|split; [|congruence]].
      * intros Hs. rewrite (locate_ignore _ _ _ El) in Ei; [done|congruence].
      * rewrite Im, Is; done.
    + left. destruct (Ha eq_refl) as [Hl Hs]. rewrite <-Ef. cbn in *. split; [lia|congruence].
  - destruct Hok5 as [Hn Hle]. destruct Has as [E6|E6]; unfold frames_ok; rewrite E6; [done|]. split; [by apply numbered_removelast|].
    pose proof (length_removelast (w_frames w5)). lia.
Qed.

(** ** The loop *)

(** [k] iterations that go on. *)
Fixpoint turns (k : nat) (w : Walk) : option Walk :=
  match k with
  | O => Some w
  | S k => if (length (w_frames w) <? max_frames)%nat then match turn w with Go w => turns k w | Stop _ => None end else None
  end.

Lemma loop_frames fuel w w' : frames_ok w → loop fuel w = Some w' → frames_ok w'.
Proof using Type.
  revert w. induction fuel as [|fuel IH]; intros w Hok; cbn [unwind_loop]; destruct (Nat.ltb_spec (length (w_frames w)) max_frames) as [Hlt|Hge]; try (by intros [= <-]).
  pose proof (turn_ok w Hok Hlt) as Ht. destruct (turn w) as [w1|w1]; [destruct Ht; by apply IH|by intros [= <-]].
Qed.
Lemma loop_ends fuel w : frames_ok w → w_skip w = None → (max_frames - length (w_frames w) ≤ fuel)%nat → is_Some (loop fuel w).
Proof using Type.
  revert w. induction fuel as [|fuel IH]; intros w Hok Hs Hf; cbn [unwind_loop]; destruct (Nat.ltb_spec (length (w_frames w)) max_frames) as [Hlt|Hge]; try (by eexists); [lia|].
  pose proof (turn_ok w Hok Hlt) as Ht. destruct (turn w) as [w1|w1]; [|by eexists].
  destruct Ht as [Hok1 [[Hl Hs1]|[? _]]]; [|done]. apply IH; [done|done|lia].
Qed.
Lemma loop_skips k w : frames_ok w → w_frames w = [] → loop (k + max_frames) w = None → ∃ w', turns k w = Some w' ∧ w_frames w' = [].
Proof using Type.
  revert w. induction k as [|k IH]; intros w Hok Hf; [by exists w|]. cbn [Nat.add unwind_loop turns].
  destruct (Nat.ltb_spec (length (w_frames w)) max_frames) as [Hlt|Hge]; [|done]. pose proof (turn_ok w Hok Hlt) as Ht.
  destruct (turn w) as [w1|w1]; [|done]. destruct Ht as [Hok1 [[Hl Hs]|(_ & Ef & _)]].
  - intros E. destruct (loop_ends (k + max_frames) w1 Hok1 Hs) as [? E']; [lia|]. congruence.
  - apply IH; [done|congruence].
Qed.
Lemma start_ok regs errors skip : frames_ok (mkWalk regs [] no_error 0 errors false false skip).
Proof using Type. split; [by intros i f ?|cbn; lia]. Qed.
End any_process.

(** ** A process whose skipped frames repeat *)

(** Two places of the unwinder's own library that claim to be each other's
    caller. *)
#[global] Instance cycle_elf : ElfOps MemoryBuffer := {|
  elf_valid _ := true; elf_load_bias _ := 0; elf_memory _ := mkBuffer [];
  elf_step _ _ r := mkStepped true false false (put_reg (pc_reg (arch r)) (if pc r =? 0x1000 then 0x2000 else 0x1000) r) no_error;
  elf_function _ _ := None;
|}.
Definition cycle_find (_ : Z) : option Map := Some (mkMap 0 EXEC_MAP "/system/lib64/libunwindstack.so" 0 0).
Definition cycle_regs (at_pc : Z) : Regs := put_reg (pc_reg ARCH_X86_64) at_pc (Regs_new ARCH_X86_64).
Definition cycle_walk (at_pc : Z) : Walk :=
  mkWalk (cycle_regs at_pc) [] no_error 0 {[ 0%nat := no_error ]} false true (Some ["libunwindstack.so"%string]).
Definition cycle_loop (fuel : nat) : Walk → option Walk :=
  unwind_loop (mkBuffer []) [] cycle_find None 512 None None true fuel.
Lemma cycle_never_ends fuel : cycle_loop fuel (cycle_walk 0x1000) = None ∧ cycle_loop fuel (cycle_walk 0x2000) = None.
Proof.
  induction fuel as [|fuel [IH1 IH2]]; [done|]. unfold cycle_loop in *. cbn [unwind_loop].
  change (length (w_frames (cycle_walk 4096)) <? 512)%nat with true. change (length (w_frames (cycle_walk 8192)) <? 512)%nat with true. cbv iota.
  assert (∀ a b, (a = 0x1000 ∧ b = 0x2000) ∨ (a = 0x2000 ∧ b = 0x1000) →
    unwind_turn (mkBuffer []) [] cycle_find None 512 None None true (cycle_walk a) = Go (cycle_walk b)) as Ht.
  { intros a b [[-> ->]|[-> ->]]; vm_compute; reflexivity. }
  rewrite (Ht 0x1000 0x2000), (Ht 0x2000 0x1000) by auto. done.
Qed.

(** C11. How the unwinder ends, for any process. It never makes more frames than
    it may, and they are numbered by their position, so that storing their
    addresses by number is in range. Without a list of libraries to skip it ends
    within as many iterations as frames are allowed, whatever the unwind data
    says. With one, the only way not to end is to skip for ever: as long as it
    runs on, all frames met are in skipped libraries. That can happen: when two
    places of a skipped library are recorded as each other's caller, the loop has
    no end, as the limit counts only frames that were kept. *)
Theorem unwind_ends :
  (∀ (B P : Type) (MB : Memory B) (MP : Memory P) (ops : ElfOps B) (process_memory : P) slot clear_pac_bits find jit_debug max_frames
     suffixes exit_names resolve_names skip regs errors,
    let run fuel := Unwind process_memory slot clear_pac_bits find jit_debug max_frames suffixes exit_names resolve_names fuel skip regs errors in
    (∀ fuel w, run fuel = Some w → (length (w_frames w) ≤ max_frames)%nat ∧ adapter_frames (w_frames w) = Some (fr_pc <$> w_frames w)) ∧
    (skip = None → is_Some (run max_frames)) ∧
    (∀ k, run (k + max_frames)%nat = None →
      ∃ w, turns process_memory slot find jit_debug max_frames suffixes exit_names resolve_names k (unwind_start clear_pac_bits find skip regs errors) = Some w ∧ w_frames w = [])) ∧
  (∀ fuel, Unwind (mkBuffer []) [] id cycle_find None 512 None None true fuel (Some ["libunwindstack.so"%string]) (cycle_regs 0x1000) ∅ = None).
Proof.
  split.
  - intros B P MB MP ops process_memory slot clear_pac_bits find jit_debug max_frames suffixes exit_names resolve_names skip regs errors run.
    assert (frames_ok max_frames (unwind_start clear_pac_bits find skip regs errors)) as Hok by apply start_ok.
    split; [|split].
    + intros fuel w E. apply loop_frames in E as [Hn Hle]; [|done]. split; [done|by apply adapter_numbered].
    + intros ->. apply loop_ends; [done|done|cbn; lia].
    + intros k. by apply loop_skips.
  - intros [|fuel]; [done|]. unfold Unwind. cbn [unwind_loop].
    change (length (w_frames (unwind_start id cycle_find (Some ["libunwindstack.so"%string]) (cycle_regs 4096) ∅)) <? 512)%nat with true. cbv iota.
    assert (unwind_turn (mkBuffer []) [] cycle_find None 512 None None true
      (unwind_start id cycle_find (Some ["libunwindstack.so"%string]) (cycle_regs 4096) ∅) = Go (cycle_walk 0x2000)) as -> by (vm_compute; reflexivity).
    apply (cycle_never_ends fuel).
Qed.
