(* ===== verification/UnwinderStack.v ===== *)
(** * The unwinder shows the frames of a stack

    About Unwinder.v: when the unwind data leads from every frame to its caller,
    the frames are those of the stack, cut as the caller asked. *)
From S2P Require Import Prelude CString UnwindMemory DwarfMemory DwarfCfa UnwindRegs Unwinder UnwinderProps.
Import ErrorCode.

(** ** Cutting a list *)

Section cut.
Context {A : Type} (p : A → bool).
Fixpoint drop_while (l : list A) : list A := match l with [] => [] | x :: l' => if p x then drop_while l' else l end.
Fixpoint take_until (l : list A) : list A := match l with [] => [] | x :: l => if p x then [] else x :: take_until l end.
(** The element itself included. *)
Fixpoint take_through (l : list A) : list A := match l with [] => [] | x :: l => if p x then [x] else x :: take_through l end.
End cut.

Section stack.
Context {B P : Type} `{Memory B} `{Memory P} `{ElfOps B} (process_memory : P) (slot : list Z) (clear_pac_bits : Z → Z).
Context (find : Z → option Map) (jit_debug : option (Z → option nat)).
Context (max_frames : nat) (suffixes exit_names : option (list string)) (resolve_names : bool).
Abbreviation turn := (unwind_turn process_memory slot find jit_debug max_frames suffixes exit_names resolve_names).
Abbreviation loop := (unwind_loop process_memory slot find jit_debug max_frames suffixes exit_names resolve_names).

(** ** A stack *)

(** A frame of the stack: its registers, its map, and whether it is the frame of
    a signal. *)
Record Entry := mkEntry { en_regs : Regs; en_map : Map; en_signal : bool }.
Definition en_elf (e : Entry) : nat := um_elf (en_map e).
Definition en_rel (e : Entry) : Z := GetRelPc (en_elf e) (pc (en_regs e)) (en_map e).
(** Behind the call, but for the first frame. *)
Definition en_adjustment (called : bool) (e : Entry) : Z :=
  if called then GetPcAdjustment (elf_memory (en_elf e)) (elf_valid (en_elf e)) (elf_load_bias (en_elf e)) (en_rel e) (arch (en_regs e)) else 0.
Definition en_step_pc (called : bool) (e : Entry) : Z :=
  (if flag_set (um_flags (en_map e)) JIT_SYMFILE_MAP then pc (en_regs e) else en_rel e) ⊟ en_adjustment called e.
(** In a mapped ELF file, and neither code nor stack in a device. *)
Definition quiet (e : Entry) : Prop :=
  find (pc (en_regs e)) = Some (en_map e) ∧ is_device (Some (en_map e)) = false ∧ is_device (find (sp (en_regs e))) = false ∧
  dex_pc_ (en_regs e) = 0 ∧ elf_valid (en_elf e) = true.
(** The unwind data leads from [e] to the registers [next]. *)
Definition leads (called : bool) (e : Entry) (finished : bool) (next : Regs) : Prop :=
  let '(handled, regs) := Elf_StepIfSignalHandler process_memory slot (en_elf e) (en_rel e) (en_regs e) in
  if handled : bool then regs = next ∧ finished = false ∧ en_signal e = true
  else
    let s := elf_step (en_elf e) (en_step_pc called e) regs in
    st_ok s = true ∧ st_finished s = finished ∧ st_signal s = en_signal e ∧ st_regs s = next.
Inductive stack : bool → list Entry → Prop :=
  | stack_end called e next : quiet e → leads called e true next → stack called [e]
  | stack_call called e e' es : quiet e → leads called e false (en_regs e') →
      (pc (en_regs e) ≠ pc (en_regs e') ∨ sp (en_regs e) ≠ sp (en_regs e')) → stack true (e' :: es) → stack called (e :: e' :: es).

(** ** What is shown *)

Definition en_function (called : bool) (e : Entry) : string * Z :=
  match (if resolve_names then Elf_GetFunctionName (en_elf e) (if en_signal e then en_rel e else en_step_pc called e) else None) with
  | Some r => r | None => (EmptyString, 0)
  end.
Definition frame_of (num : nat) (ce : bool * Entry) : FrameData :=
  let '(called, e) := ce in
  let a := en_adjustment called e in
  mkFrame num (if en_signal e then en_rel e else en_rel e ⊟ a) (if en_signal e then u64 (pc (en_regs e)) else pc (en_regs e) ⊟ a)
    (sp (en_regs e)) (fst (en_function called e)) (snd (en_function called e)) (Some (en_map e)).
Definition skipped (skip : option (list string)) (ce : bool * Entry) : bool :=
  match skip with Some names => listed names (Basename (um_name (en_map ce.2))) | None => false end.
Definition stopping (ce : bool * Entry) : bool := ShouldStop suffixes (um_name (en_map ce.2)).
Definition exiting (ce : bool * Entry) : bool := ShouldExit exit_names (fst (en_function ce.1 ce.2)).
Definition calls (called : bool) (es : list Entry) : list (bool * Entry) :=
  match es with [] => [] | e :: es => (called, e) :: (pair true <$> es) end.
Definition shown (skip : option (list string)) (l : list (bool * Entry)) : list (bool * Entry) :=
  take_through exiting (take_until stopping (drop_while (skipped skip) l)).

(** ** One iteration *)

Lemma locate_quiet w e : w_regs w = en_regs e → quiet e →
  locate find jit_debug suffixes w =
  (w, if negb (skipped (w_skip w) (adjust_pc w, e)) && stopping (adjust_pc w, e) then None
      else Some (mkLocated (Some (en_map e)) (en_adjustment (adjust_pc w) e) (en_step_pc (adjust_pc w) e) (en_rel e) (en_elf e) (skipped (w_skip w) (adjust_pc w, e)))).
Proof using Type.
  intros Er (Hf & _ & _ & _ & Hv). unfold locate. rewrite Er, Hf. fold (en_elf e). unfold skipped, stopping. cbn [snd].
  destruct (negb _ && _); [done|]. unfold en_step_pc, en_adjustment, en_rel. fold (en_elf e). rewrite Hv. cbn [negb andb]. destruct jit_debug; done.
Qed.

Definition entry_located (called : bool) (e : Entry) (ignore : bool) : Located :=
  mkLocated (Some (en_map e)) (en_adjustment called e) (en_step_pc called e) (en_rel e) (en_elf e) ignore.

Lemma step_quiet w e called finished next ignore : w_regs w = en_regs e → quiet e → leads called e finished next →
  ∃ w' step_pc, step_frame process_memory slot find (entry_located called e ignore) w = (w', true, false, finished, step_pc) ∧
    w_regs w' = next ∧ w_skip w' = w_skip w ∧ adjust_pc w' = adjust_pc w ∧ step_pc = (if en_signal e && negb ignore then en_rel e else en_step_pc called e) ∧
    w_frames w' = (if en_signal e && negb ignore
                   then on_last (λ f, f <| fr_rel_pc := en_rel e |> <| fr_pc := fr_pc f ⊞ en_adjustment called e |>) (w_frames w) else w_frames w).
Proof using Type.
  intros Er (Hf & Hd & Hd' & Hx & Hv) Hl. unfold step_frame. cbn [lo_map entry_located lo_elf lo_rel_pc lo_step_pc lo_adjustment].
  cbn [is_device] in Hd. rewrite Er, Hd, Hd'. cbn [orb]. unfold leads in Hl.
  assert (has_frame (entry_located called e ignore) = negb ignore) as -> by (unfold has_frame; cbn; by rewrite andb_true_r).
  destruct (Elf_StepIfSignalHandler _ _ _ _ _) as [[] regs].
  - destruct Hl as (<- & <- & ->). destruct ignore; cbn [andb negb]; eexists _, _; split_and!; done.
  - rewrite Hv. cbn [negb]. destruct Hl as (-> & -> & -> & <-). destruct (en_signal e && negb ignore) eqn:Es; eexists _, _; split_and!; done.
Qed.

Lemma u64_sub_add a b : u64 (u64 (a - b) + b) = u64 a.
Proof using Type. rewrite u64_add_l. f_equal. lia. Qed.
Lemma name_entry called e num frames w step_pc : w_frames w = frames ++ [mkFrame num (if en_signal e then en_rel e else en_rel e ⊟ en_adjustment called e)
      (if en_signal e then u64 (pc (en_regs e)) else pc (en_regs e) ⊟ en_adjustment called e) (sp (en_regs e)) EmptyString 0 (Some (en_map e))] →
  step_pc = (if en_signal e then en_rel e else en_step_pc called e) →
  w_frames (name_frame resolve_names (entry_located called e false) step_pc w) = frames ++ [frame_of num (called, e)].
Proof using Type.
  intros Ef ->. unfold name_frame. cbn [has_frame entry_located lo_ignore lo_map negb andb]. rewrite bool_decide_true by done. cbn [lo_elf].
  unfold frame_of. unfold en_function. destruct (if resolve_names then _ else _) as [[name offset]|]; cbn; by rewrite Ef, on_last_snoc.
Qed.
Lemma name_other l step_pc w : w_regs (name_frame resolve_names l step_pc w) = w_regs w ∧ w_skip (name_frame resolve_names l step_pc w) = w_skip w ∧
  adjust_pc (name_frame resolve_names l step_pc w) = adjust_pc w.
Proof using Type. unfold name_frame. by repeat case_match. Qed.
Lemma differs r r' : (pc r ≠ pc r' ∨ sp r ≠ sp r') → (pc r =? pc r') && (sp r =? sp r') = false.
Proof using Type. intros [Hp|Hp]; apply andb_false_iff; [left|right]; by apply Z.eqb_neq. Qed.

(** A frame that is skipped. *)
Lemma turn_skipped w e finished next : w_regs w = en_regs e → quiet e → leads (adjust_pc w) e finished next →
  (finished = false → pc (en_regs e) ≠ pc next ∨ sp (en_regs e) ≠ sp next) → (length (w_frames w) < max_frames)%nat →
  skipped (w_skip w) (adjust_pc w, e) = true →
  ∃ w', turn w = (if finished then Stop w' else Go w') ∧ w_regs w' = next ∧ w_frames w' = w_frames w ∧ w_skip w' = w_skip w ∧ adjust_pc w' = true.
Proof using Type.
  intros Er Hq Hl Hne Hlt Hs. unfold unwind_turn. rewrite (locate_quiet w e Er Hq), Hs. cbn [negb andb].
  change (mkLocated _ _ _ _ _ true) with (entry_located (adjust_pc w) e true).
  change (add_frames find max_frames (entry_located (adjust_pc w) e true) w) with (w, true). cbv zeta iota.
  match goal with |- context [step_frame _ _ _ _ ?x] => set (w0 := x) end.
  destruct (step_quiet w0 e (adjust_pc w) finished next true Er Hq Hl) as (w1 & step_pc & E & Hr & Hsk & Ha & _ & Hf).
  rewrite E. rewrite andb_false_r in Hf.
  change (name_frame resolve_names (entry_located (adjust_pc w) e true) step_pc w1) with w1.
  change (exits exit_names (entry_located (adjust_pc w) e true) w1) with false. cbv iota. destruct finished; [by exists w1|].
  unfold after_step. cbn [negb]. cbn in Hf, Hsk, Ha.
  assert ((max_frames =? length (w_frames w1))%nat = false) as Em by (apply Nat.eqb_neq; rewrite Hf; lia).
  set (w2 := w1 <| return_address_attempt := false |>). change (w_frames w2) with (w_frames w1). rewrite Em.
  change (w_regs w2) with (w_regs w1). rewrite Er, Hr, differs by auto. by exists w2.
Qed.

(** A frame that is shown. *)
Lemma turn_shown w e finished next : w_regs w = en_regs e → quiet e → leads (adjust_pc w) e finished next →
  (finished = false → pc (en_regs e) ≠ pc next ∨ sp (en_regs e) ≠ sp next) → (length (w_frames w) < max_frames)%nat →
  skipped (w_skip w) (adjust_pc w, e) = false → stopping (adjust_pc w, e) = false →
  ∃ w', turn w = (if exiting (adjust_pc w, e) || finished then Stop w' else Go w') ∧
    w_frames w' = w_frames w ++ [frame_of (length (w_frames w)) (adjust_pc w, e)] ∧
    w_regs w' = next ∧ w_skip w' = None ∧ adjust_pc w' = true ∧
    (exiting (adjust_pc w, e) = true → err_code (w_error w') = ERROR_EXIT_FUNC) ∧
    (exiting (adjust_pc w, e) = false → finished = false → S (length (w_frames w)) = max_frames → err_code (w_error w') = ERROR_MAX_FRAMES_EXCEEDED).
Proof using Type.
  intros Er Hq Hl Hne Hlt Hs Hst. unfold unwind_turn. rewrite (locate_quiet w e Er Hq), Hs, Hst. cbn [negb andb].
  change (mkLocated _ _ _ _ _ false) with (entry_located (adjust_pc w) e false). set (called := adjust_pc w) in *. set (num := length (w_frames w)) in *.
  assert (add_frames find max_frames (entry_located called e false) w = (FillInFrame (entry_located called e false) w <| w_skip := None |>, true)) as ->.
  { unfold add_frames. cbn [lo_ignore entry_located]. by rewrite Er, (proj1 (proj2 (proj2 (proj2 Hq)))). }
  cbv zeta iota.
  match goal with |- context [step_frame _ _ _ _ ?x] => set (w1 := x) end.
  destruct (step_quiet w1 e called finished next false Er Hq Hl) as (w2 & step_pc & E & Hr & Hsk & Ha & Hsp & Hf).
  rewrite E. rewrite andb_true_r in Hsp, Hf.
  pose proof (name_other (entry_located called e false) step_pc w2) as (Hr3 & Hs3 & Ha3).
  assert (w_frames (name_frame resolve_names (entry_located called e false) step_pc w2) = w_frames w ++ [frame_of num (called, e)]) as Hf3.
  { apply name_entry; [|done]. rewrite Hf.
    change (w_frames w1) with (w_frames w ++ [mkFrame num (en_rel e ⊟ en_adjustment called e) (pc (w_regs w) ⊟ en_adjustment called e) (sp (w_regs w)) EmptyString 0 (Some (en_map e))]). rewrite Er.
    destruct (en_signal e); [|done]. rewrite on_last_snoc. cbn. by rewrite u64_sub_add. }
  set (w3 := name_frame resolve_names (entry_located called e false) step_pc w2) in *.
  assert (exits exit_names (entry_located called e false) w3 = exiting (called, e)) as -> by (unfold exits; rewrite Hf3, last_snoc; done).
  assert (w_regs w3 = next ∧ w_skip w3 = None ∧ adjust_pc w3 = true) as (Fr & Fs & Fa) by (split_and!; [by rewrite Hr3|by rewrite Hs3, Hsk|by rewrite Ha3, Ha]).
  clearbody w3. destruct (exiting (called, e)); cbn [orb].
  { exists (set_code ERROR_EXIT_FUNC w3). split_and!; try done. }
  destruct finished; [by exists w3|]. unfold after_step. cbn [negb].
  set (w4 := w3 <| return_address_attempt := false |>). change (w_frames w4) with (w_frames w3). rewrite Hf3, length_app.
  destruct (Nat.eqb_spec max_frames (length (w_frames w) + length [frame_of num (called, e)])) as [Em|Em].
  - change (w_regs (set_code _ w4)) with (w_regs w3). rewrite Er, Fr, differs by auto. exists (set_code ERROR_MAX_FRAMES_EXCEEDED w4). by split_and!.
  - change (w_regs w4) with (w_regs w3). rewrite Er, Fr, differs by auto. exists w4. split_and!; try done.
    cbn in Em. intros _ _ ?. lia.
Qed.
Lemma turn_stopping w e : w_regs w = en_regs e → quiet e → skipped (w_skip w) (adjust_pc w, e) = false → stopping (adjust_pc w, e) = true → turn w = Stop w.
Proof using Type. intros Er Hq Hs Hst. unfold unwind_turn. by rewrite (locate_quiet w e Er Hq), Hs, Hst. Qed.

(** ** The loop *)

Lemma shown_skipped skip ce l : skipped skip ce = true → shown skip (ce :: l) = shown skip l.
Proof using Type. intros E. unfold shown. cbn [drop_while]. by rewrite E. Qed.
Lemma shown_none l : shown None l = take_through exiting (take_until stopping l).
Proof using Type. unfold shown. by destruct l. Qed.
Lemma shown_cons skip ce l : skipped skip ce = false → stopping ce = false →
  shown skip (ce :: l) = ce :: (if exiting ce then [] else shown None l).
Proof using Type. intros E1 E2. rewrite shown_none. unfold shown. cbn [drop_while]. rewrite E1. cbn. rewrite E2. cbn. by destruct (exiting ce). Qed.
Lemma shown_stop skip ce l : skipped skip ce = false → stopping ce = true → shown skip (ce :: l) = [].
Proof using Type. intros E1 E2. unfold shown. cbn [drop_while]. rewrite E1. cbn. by rewrite E2. Qed.

(** [room] frames of [l] are added to those of [w]. *)
Definition extended (room : nat) (l : list (bool * Entry)) (w w' : Walk) : Prop :=
  w_frames w' = w_frames w ++ imap (λ i ce, frame_of (length (w_frames w) + i) ce) (take room l) ∧
  ((0 < room < length l)%nat → err_code (w_error w') = ERROR_MAX_FRAMES_EXCEEDED) ∧
  (∀ ce, last l = Some ce → (length l ≤ room)%nat → exiting ce = true → err_code (w_error w') = ERROR_EXIT_FUNC).

Lemma extended_nil room w : extended room [] w w.
Proof using Type. split_and!; [by rewrite take_nil, app_nil_r|cbn; lia|done]. Qed.
Lemma extended_full l w : (∀ ce, last l = Some ce → (0 < length l)%nat) → extended 0 l w w.
Proof using Type. intros Hl. split_and!; [by rewrite app_nil_r|lia|]. intros ce Hc Hle. specialize (Hl ce Hc). lia. Qed.
(** One frame more. *)
Lemma extended_cons room ce l w w1 w' : w_frames w1 = w_frames w ++ [frame_of (length (w_frames w)) ce] →
  extended room l w1 w' → (room = O → l ≠ [] → err_code (w_error w') = ERROR_MAX_FRAMES_EXCEEDED) →
  (l = [] → exiting ce = true → err_code (w_error w') = ERROR_EXIT_FUNC) → extended (S room) (ce :: l) w w'.
Proof using Type.
  intros E1 (Ef & Em & Ex) Hnone Hexit. split_and!.
  - rewrite Ef, E1, <-app_assoc, length_app. cbn. rewrite Nat.add_0_r. do 2 f_equal. apply imap_ext. intros i x _. cbn. f_equal. lia.
  - cbn. intros [_ Hlt]. destruct room as [|room]; [apply Hnone; [done|by destruct l; [cbn in Hlt; lia|]]|apply Em; lia].
  - intros c Hc Hle He. destruct l as [|x l]; [injection Hc as <-; by apply Hexit|]. apply (Ex c); [done|cbn in *; lia|done].
Qed.

Lemma loop_stack es fuel w : stack (adjust_pc w) es → w_regs w = en_regs (default (mkEntry (w_regs w) (mkMap 0 0 EmptyString 0 0) false) (head es)) →
  (length es ≤ fuel)%nat → (length (w_frames w) ≤ max_frames)%nat →
  ∃ w', loop fuel w = Some w' ∧ extended (max_frames - length (w_frames w)) (shown (w_skip w) (calls (adjust_pc w) es)) w w'.
Proof using Type.
  revert fuel w. induction es as [|e es IH]; intros fuel w Hst Er Hf Hle; [by inversion Hst|]. cbn in Er, Hf.
  destruct fuel as [|fuel]; [lia|]. cbn [unwind_loop]. destruct (Nat.ltb_spec (length (w_frames w)) max_frames) as [Hlt|Hge].
  2: { exists w. split; [done|]. replace (max_frames - length (w_frames w))%nat with 0%nat by lia. apply extended_full. intros ce Hc. destruct (shown _ _); [done|cbn; lia]. }
  assert (∃ finished next, quiet e ∧ leads (adjust_pc w) e finished next ∧ (finished = false → pc (en_regs e) ≠ pc next ∨ sp (en_regs e) ≠ sp next) ∧
    match finished with true => es = [] | false => ∃ e' es', es = e' :: es' ∧ next = en_regs e' ∧ stack true es end) as (finished & next & Hq & Hl & Hne & Hrest).
  { inversion Hst as [? ? next Hq Hl|? ? e' es' Hq Hl Hne Hst']; subst; [by exists true, next|exists false, (en_regs e'); split_and!; try done; by eexists _, _]. }
  change (calls (adjust_pc w) (e :: es)) with ((adjust_pc w, e) :: (pair true <$> es)). set (ce := (adjust_pc w, e)) in *.
  assert (∀ w1, w_regs w1 = next → adjust_pc w1 = true → (length (w_frames w1) ≤ max_frames)%nat → finished = false →
    ∃ w', loop fuel w1 = Some w' ∧ extended (max_frames - length (w_frames w1)) (shown (w_skip w1) (pair true <$> es)) w1 w') as Hgo.
  { intros w1 Hr1 Ha1 Hl1 ->. destruct Hrest as (e' & es' & -> & -> & Hst'). rewrite <-Ha1 in Hst'.
    destruct (IH fuel w1 Hst' Hr1) as (w' & E & Hx); [cbn in *; lia|done|]. exists w'. split; [done|]. by rewrite Ha1 in Hx. }
  destruct (skipped (w_skip w) ce) eqn:Hs.
  - rewrite shown_skipped by done. destruct (turn_skipped w e finished next Er Hq Hl Hne Hlt Hs) as (w1 & E & Hr1 & Hf1 & Hs1 & Ha1). rewrite E.
    destruct finished.
    + subst es. exists w1. split; [done|]. change (shown (w_skip w) (pair true <$> [])) with (@nil (bool * Entry)). split_and!; [by rewrite Hf1, take_nil, app_nil_r|cbn; lia|done].
    + destruct (Hgo w1 Hr1 Ha1) as (w' & E' & Hx); [by rewrite Hf1|done|]. exists w'. split; [done|]. unfold extended in *. by rewrite Hf1, Hs1 in Hx.
  - destruct (stopping ce) eqn:Hstop; [rewrite shown_stop, (turn_stopping w e) by done; exists w; split; [done|apply extended_nil]|].
    rewrite shown_cons by done. destruct (turn_shown w e finished next Er Hq Hl Hne Hlt Hs Hstop) as (w1 & E & Hf1 & Hr1 & Hs1 & Ha1 & Hx1 & Hm1).
    fold ce in E, Hf1, Hx1, Hm1. rewrite E. replace (max_frames - length (w_frames w))%nat with (S (max_frames - length (w_frames w1))) by (rewrite Hf1, length_app; cbn; lia).
    destruct (exiting ce) eqn:Hex; cbn [orb].
    + exists w1. split; [done|]. eapply extended_cons; [exact Hf1|apply extended_nil|done|intros; by apply Hx1].
    + destruct finished.
      * subst es. exists w1. split; [done|]. eapply extended_cons; [exact Hf1|apply extended_nil|done|congruence].
      * destruct (Hgo w1 Hr1 Ha1) as (w' & E' & Hx); [rewrite Hf1, length_app; cbn; lia|done|]. rewrite Hs1 in Hx. exists w'. split; [done|].
        eapply extended_cons; [exact Hf1|exact Hx| |congruence]. intros E0 _. rewrite Hf1, length_app in E0. cbn in E0.
        assert (loop fuel w1 = Some w1) as E1.
        { assert (max_frames ≤ length (w_frames w1))%nat by (rewrite Hf1, length_app; cbn; lia).
          destruct fuel; cbn [unwind_loop]; (destruct (Nat.ltb_spec (length (w_frames w1)) max_frames); [lia|done]). }
        rewrite E1 in E'. injection E' as <-. apply Hm1; (done || lia).
Qed.
End stack.

(** C6. The frames are those of the stack. Let the unwind data lead from the
    registers to those of every caller in turn and say at the last frame that
    there are no more, no frame being in a device or repeating the one before.
    Then the unwinder returns, after no more iterations than the stack has
    frames, with: the frames after the first ones in libraries to skip, up to one
    in a map to stop at, through one in a function to exit at, and no more than
    are allowed; in order, with addresses moved back into the call except for the
    first frame and for signal frames, and with the names of the functions. When
    the limit cut them the error says so, and so does it after an exit
    function. *)
Theorem unwinder_shows_stack {B P : Type} `{Memory B} `{Memory P} `{ElfOps B} (process_memory : P) slot clear_pac_bits find jit_debug
    max_frames suffixes exit_names resolve_names skip errors e es fuel :
  stack process_memory slot find false (e :: es) → (length (e :: es) ≤ fuel)%nat →
  let l := shown suffixes exit_names resolve_names skip (calls false (e :: es)) in
  ∃ w, Unwind process_memory slot clear_pac_bits find jit_debug max_frames suffixes exit_names resolve_names fuel skip (en_regs e) errors = Some w ∧
    w_frames w = imap (frame_of resolve_names) (take max_frames l) ∧
    ((0 < max_frames < length l)%nat → err_code (w_error w) = ERROR_MAX_FRAMES_EXCEEDED) ∧
    (∀ ce, last l = Some ce → (length l ≤ max_frames)%nat → exiting exit_names resolve_names ce = true → err_code (w_error w) = ERROR_EXIT_FUNC).
Proof.
  intros Hst Hf l. assert (find (pc (en_regs e)) = Some (en_map e)) as Hfind by (inversion Hst as [? ? ? Hq|? ? ? ? Hq]; apply Hq).
  unfold Unwind, unwind_start. rewrite Hfind.
  destruct (loop_stack process_memory slot find jit_debug max_frames suffixes exit_names resolve_names (e :: es) fuel
    (mkWalk (en_regs e) [] no_error 0 errors false false skip) Hst eq_refl Hf) as (w & E & Hx & Hm & He); [cbn; lia|].
  exists w. cbn in Hx, Hm, He. rewrite Nat.sub_0_r in *. by split_and!.
Qed.

(** Three calls in one library. *)
#[local] Instance demo_elf : ElfOps MemoryBuffer := {|
  elf_valid _ := true; elf_load_bias _ := 0; elf_memory _ := mkBuffer [];
  elf_step _ _ r := mkStepped true (pc r =? 0x1030) false (put_reg (pc_reg (arch r)) (pc r + 16) (set_sp (sp r + 16) r)) no_error;
  elf_function _ addr := Some ("f"%string, addr);
|}.
Definition demo_find (_ : Z) : option Map := Some (mkMap 0x1000 EXEC_MAP "/lib/a.so" 0 0).
Definition demo_entry (at_pc at_sp : Z) : Entry :=
  mkEntry (put_reg (pc_reg ARCH_X86_64) at_pc (set_sp at_sp (Regs_new ARCH_X86_64))) (mkMap 0x1000 EXEC_MAP "/lib/a.so" 0 0) false.
Lemma demo_stack : stack (mkBuffer []) [] demo_find false [demo_entry 0x1010 0; demo_entry 0x1020 16; demo_entry 0x1030 32].
Proof.
  apply stack_call; [by split_and!|by vm_compute; split_and!|left; by vm_compute|].
  apply stack_call; [by split_and!|by vm_compute; split_and!|left; by vm_compute|].
  eapply stack_end; [by split_and!|vm_compute; split_and!; reflexivity].
Qed.
Lemma unwinder_shows_stack_witness : ∃ w, Unwind (mkBuffer []) [] id demo_find None 2 None None true 3 None (en_regs (demo_entry 0x1010 0)) ∅ = Some w ∧
  fr_pc <$> w_frames w = [0x1010; 0x101f] ∧ err_code (w_error w) = ERROR_MAX_FRAMES_EXCEEDED.
Proof.
  destruct (unwinder_shows_stack (mkBuffer []) [] id demo_find None 2 None None true None ∅ (demo_entry 0x1010 0) [demo_entry 0x1020 16; demo_entry 0x1030 32] 3 demo_stack) as (w & E & Hf & Hm & _).
  { cbn. lia. }
  exists w. split; [exact E|]. rewrite Hf. split; [reflexivity|]. apply Hm. vm_compute. lia.
Defined.
