(* ===== verification/ArmExidx.v ===== *)
(** * The exception tables of ARM

    unwindstack/ArmExidx.cpp/.h and the parts of ElfInterfaceArm.cpp/.h that
    use them: an index table finds the entry of a program counter, the entry
    gives a sequence of opcodes, and the opcodes restore the registers of the
    caller.  [log] is empty in this build, so the messages are left out; what
    logging does to the object, and that it can replace execution, is not. *)
From S2P Require Import Prelude UnwindMemory Outcome DwarfMemory DwarfCfa UnwindRegs.

Inductive ArmStatus :=
  | ARM_STATUS_NONE | ARM_STATUS_NO_UNWIND | ARM_STATUS_FINISH | ARM_STATUS_RESERVED | ARM_STATUS_SPARE
  | ARM_STATUS_TRUNCATED | ARM_STATUS_READ_FAILED | ARM_STATUS_MALFORMED | ARM_STATUS_INVALID_ALIGNMENT
  | ARM_STATUS_INVALID_PERSONALITY.
#[global] Instance ArmStatus_eq_dec : EqDecision ArmStatus.
Proof. solve_decision. Defined.

Inductive ArmLogType := ARM_LOG_NONE | ARM_LOG_FULL | ARM_LOG_BY_REG.
#[global] Instance ArmLogType_eq_dec : EqDecision ArmLogType.
Proof. solve_decision. Defined.

Definition ARM_OP_FINISH : Z := 0xb0.
Definition LOG_CFA_REG : Z := 64.
Definition ARM_REG_SP : nat := 13.
Definition ARM_REG_LR : nat := 14.
Definition ARM_REG_PC : nat := 15.

Record ArmExidx := mkExidx {
  ae_regs : Regs;
  ae_cfa : Z;
  ae_data : list Z;
  ae_status : ArmStatus;
  ae_status_address : Z;
  ae_log_type : ArmLogType;
  ae_log_skip_execution : bool;
  ae_pc_set : bool;
  ae_log_cfa_offset : Z;
  ae_log_regs : gmap Z Z;
}.
#[global] Instance ArmExidx_upd : Updatable ArmExidx := λ a,
  mkExidx (ae_regs a) (ae_cfa a) (ae_data a) (ae_status a) (ae_status_address a) (ae_log_type a)
    (ae_log_skip_execution a) (ae_pc_set a) (ae_log_cfa_offset a) (ae_log_regs a).
Definition ArmExidx_new (regs : Regs) : ArmExidx :=
  mkExidx regs 0 [] ARM_STATUS_NONE 0 ARM_LOG_NONE false false 0 ∅.

(** [status_ = ...; return false;] *)
Definition stop {A} (status : ArmStatus) : prog ArmExidx A := λ a, Err (a <| ae_status := status |>).
Definition read_failed {A} (address : Z) : prog ArmExidx A := λ a,
  Err (a <| ae_status := ARM_STATUS_READ_FAILED |> <| ae_status_address := address |>).
Definition CHECK (assertion : bool) : prog ArmExidx unit := if assertion then mret () else undef Aborted.
Definition push_data (byte : Z) : prog ArmExidx unit := modify (λ a, a <| ae_data := ae_data a ++ [byte] |>).
Definition advance_cfa (n : Z) : prog ArmExidx unit := modify (λ a, a <| ae_cfa := u32 (ae_cfa a + n) |>).

(** Bits [k] to [k+7] of a word. *)
Definition byte_at (data k : Z) : Z := Z.land (Z.shiftr data k) 0xff.

(** A signed addition of 32 bits. *)
Definition add_i32 (a b : Z) : prog ArmExidx Z :=
  if (- 2 ^ 31 <=? a + b) && (a + b <? 2 ^ 31) then mret (a + b) else undef SignedOverflow.

Section exidx.
Context {E P : Type} `{Memory E} `{Memory P} (elf_memory : E) (process_memory : P).

(** [elf_memory_->Read32] *)
Definition elf_Read32 (address : Z) : prog ArmExidx Z :=
  match le_value <$> ReadFully elf_memory address 4 with
  | Some data => mret data
  | None => read_failed address
  end.

(** ** Entries *)

Definition finish_data : prog ArmExidx unit :=
  a ← get;
  match last (ae_data a) with
  | Some op => if negb (op =? ARM_OP_FINISH) then push_data ARM_OP_FINISH else mret ()
  | None => undef OutOfRange
  end.

Fixpoint table_words (n : nat) (addr : Z) : prog ArmExidx unit :=
  match n with
  | O => mret ()
  | S n =>
      data ← elf_Read32 addr;
      push_data (byte_at data 24);; push_data (byte_at data 16);; push_data (byte_at data 8);; push_data (byte_at data 0);;
      table_words n (u32 (addr + 4))
  end.

(** The word the entry refers to: the number of words that follow it, and where
    they are. *)
Definition table_head (addr : Z) : prog ArmExidx (Z * Z) :=
  data ← elf_Read32 addr;
  if Z.testbit data 31 then
    let personality := Z.land (Z.shiftr data 24) 0xf in
    head ← (if personality =? 0 then push_data (byte_at data 16);; mret (0, addr)
            else if (personality =? 1) || (personality =? 2) then mret (byte_at data 16, u32 (addr + 4))
            else stop ARM_STATUS_INVALID_PERSONALITY);
    push_data (byte_at data 8);; push_data (byte_at data 0);; mret head
  else
    let addr := u32 (addr + 4) in
    data ← elf_Read32 addr;
    push_data (byte_at data 16);; push_data (byte_at data 8);; push_data (byte_at data 0);;
    mret (byte_at data 24, u32 (addr + 4)).

(** [static_cast<int32_t>(data << 1) >> 1] *)
Definition prel31 (data : Z) : Z := Z.shiftr (i32 (Z.shiftl data 1)) 1.

Definition ExtractEntryData (entry_offset : Z) : prog ArmExidx unit :=
  modify (λ a, a <| ae_data := [] |> <| ae_status := ARM_STATUS_NONE |>);;
  if Z.testbit entry_offset 0 then stop ARM_STATUS_INVALID_ALIGNMENT
  else
    data ← elf_Read32 (u32 (entry_offset + 4));
    if data =? 1 then stop ARM_STATUS_NO_UNWIND
    else if Z.testbit data 31 then
      if negb (Z.land (Z.shiftr data 24) 0xf =? 0) then stop ARM_STATUS_INVALID_PERSONALITY
      else push_data (byte_at data 16);; push_data (byte_at data 8);; push_data (byte_at data 0);; finish_data
    else
      head ← table_head (u32 (u32 (entry_offset + 4) + prel31 data));
      let '(num_table_words, addr) := head in
      if num_table_words >? 5 then stop ARM_STATUS_MALFORMED
      else table_words (Z.to_nat num_table_words) addr;; finish_data.

(** ** Opcodes *)

Definition GetByte : prog ArmExidx Z := λ a,
  match ae_data a with
  | [] => stop ARM_STATUS_TRUNCATED a
  | byte :: data => Ret byte (a <| ae_data := data |>)
  end.

(** [if (log_type_ != ARM_LOG_NONE) ...] in front of the execution of an
    opcode: [by_reg] is done when registers are logged, [always] for any log. *)
Definition logging (by_reg always execute : prog ArmExidx unit) : prog ArmExidx unit :=
  a ← get;
  if bool_decide (ae_log_type a = ARM_LOG_NONE) then execute
  else
    (if bool_decide (ae_log_type a = ARM_LOG_BY_REG) then by_reg else mret ());;
    always;;
    if ae_log_skip_execution a then mret () else execute.
Definition nothing : prog ArmExidx unit := mret ().

Definition log_reg (reg value : Z) : prog ArmExidx unit := modify (λ a, a <| ae_log_regs := <[reg := value]> (ae_log_regs a) |>).
(** [log_cfa_offset_] plus an unsigned and plus a signed number. *)
Definition log_offset_unsigned (n : Z) : prog ArmExidx unit :=
  modify (λ a, a <| ae_log_cfa_offset := i32 (ae_log_cfa_offset a + n) |>).
Definition log_offset_signed (n : Z) : prog ArmExidx unit :=
  a ← get; v ← add_i32 (ae_log_cfa_offset a) n; modify (λ a, a <| ae_log_cfa_offset := v |>).
(** The offsets of popped registers, in the order they were popped. *)
Fixpoint log_pops (regs : list nat) (cfa_offset : Z) : prog ArmExidx unit :=
  match regs with
  | [] => mret ()
  | reg :: regs => log_reg (Z.of_nat reg) (i32 cfa_offset);; log_pops regs (u32 (cfa_offset - 4))
  end.

(** The loop visits the registers below [LOG_CFA_REG]. *)
Fixpoint adjust_loop (entries : list (Z * Z)) (offset : Z) : prog ArmExidx unit :=
  match entries with
  | [] => mret ()
  | (reg, value) :: entries =>
      (if reg <? LOG_CFA_REG then v ← add_i32 value offset; log_reg reg v else mret ());; adjust_loop entries offset
  end.
Definition AdjustRegisters (offset : Z) : prog ArmExidx unit :=
  a ← get; adjust_loop (map_to_list (ae_log_regs a)) offset.

(** [process_memory_->Read32(cfa_, &( *regs_)[reg])]: a short read fails, with
    the bytes it got already stored. *)
Definition read_reg (reg : nat) : prog ArmExidx unit := λ a,
  let bytes := Read process_memory (ae_cfa a) 4 in
  let value := le_value (overwrite (reg_bytes 4 (get_reg (ae_regs a) reg)) bytes) in
  let a := a <| ae_regs := put_reg reg value (ae_regs a) |> in
  if Z.of_nat (length bytes) =? 4 then Ret () a else read_failed (ae_cfa a) a.
Fixpoint pop_regs (regs : list nat) : prog ArmExidx unit :=
  match regs with
  | [] => mret ()
  | reg :: regs => read_reg reg;; advance_cfa 4;; pop_regs regs
  end.
(** The registers of a mask, from [first] on. *)
Definition mask_regs (mask : Z) (first count : nat) : list nat :=
  filter (λ reg, Z.testbit mask (Z.of_nat reg)) (seq first count).

Definition DecodePrefix_10_00 (byte : Z) : prog ArmExidx unit :=
  CHECK (Z.shiftr byte 4 =? 0x8);;
  low ← GetByte;
  let registers := Z.lor (Z.shiftl (Z.land byte 0xf) 8) low in
  if registers =? 0 then stop ARM_STATUS_NO_UNWIND
  else
    let registers := u16 (Z.shiftl registers 4) in
    let regs := mask_regs registers 4 12 in
    let cfa_offset := Z.of_nat (length (mask_regs registers 0 16)) * 4 in
    logging (log_offset_unsigned cfa_offset;; log_pops regs cfa_offset) nothing
      (pop_regs regs;;
       (if Z.testbit registers 13 then modify (λ a, a <| ae_cfa := get_reg (ae_regs a) ARM_REG_SP |>) else mret ());;
       (if Z.testbit registers 15 then modify (λ a, a <| ae_pc_set := true |>) else mret ())).

Definition DecodePrefix_10_01 (byte : Z) : prog ArmExidx unit :=
  CHECK (Z.shiftr byte 4 =? 0x9);;
  let bits := Z.land byte 0xf in
  if (bits =? 13) || (bits =? 15) then stop ARM_STATUS_RESERVED
  else
    logging (log_reg LOG_CFA_REG bits) nothing
      (modify (λ a, a <| ae_cfa := get_reg (ae_regs a) (Z.to_nat bits) |>)).

Definition DecodePrefix_10_10 (byte : Z) : prog ArmExidx unit :=
  CHECK (Z.shiftr byte 4 =? 0xa);;
  let end_reg := Z.land byte 0x7 in
  let regs := seq 4 (Z.to_nat (end_reg + 1)) in
  let link := negb (Z.land byte 0x8 =? 0) in
  let cfa_offset := (end_reg + 1) * 4 + (if link then 4 else 0) in
  logging
    (log_offset_unsigned cfa_offset;; log_pops (regs ++ (if link then [ARM_REG_LR] else [])) cfa_offset) nothing
    (pop_regs regs;; if link then pop_regs [ARM_REG_LR] else mret ()).

Definition DecodePrefix_10_11_0000 : prog ArmExidx unit := stop ARM_STATUS_FINISH.

Definition DecodePrefix_10_11_0001 : prog ArmExidx unit :=
  byte ← GetByte;
  if byte =? 0 then stop ARM_STATUS_SPARE
  else if negb (Z.shiftr byte 4 =? 0) then stop ARM_STATUS_SPARE
  else
    let regs := mask_regs byte 0 4 in
    let cfa_offset := Z.of_nat (length regs) * 4 in
    logging (log_offset_unsigned cfa_offset;; log_pops regs cfa_offset) nothing (pop_regs regs).

(** [(byte & 0x7f) << shift] is an [int]: it has to fit 32 bits, and the count
    has to be below 32. *)
Definition shift_int (value shift : Z) : prog ArmExidx Z :=
  if (shift <? 32) && (Z.shiftl value shift <? 2 ^ 32) then mret (Z.shiftl value shift) else undef BadShift.
Fixpoint uleb_loop (fuel : nat) (result shift : Z) : prog ArmExidx Z :=
  match fuel with
  | O => undef NoFuel
  | S fuel =>
      byte ← GetByte;
      v ← shift_int (Z.land byte 0x7f) shift;
      let result := Z.lor result v in
      if Z.land byte 0x80 =? 0 then mret result else uleb_loop fuel result (u32 (shift + 7))
  end.
(** The sixth byte would be shifted by 35: no turn comes after it. *)
Definition uleb_fuel : nat := 6.
Definition DecodePrefix_10_11_0010 : prog ArmExidx unit :=
  result ← uleb_loop uleb_fuel 0 0;
  let result := u32 (Z.shiftl result 2) in
  let cfa_offset := i32 (0x204 + result) in
  logging (log_offset_signed cfa_offset) (AdjustRegisters cfa_offset) (advance_cfa (0x204 + result)).

Definition DecodePrefix_10_11_0011 : prog ArmExidx unit :=
  byte ← GetByte; logging nothing nothing (advance_cfa (Z.land byte 0xf * 8 + 12)).
Definition DecodePrefix_10_11_01nn : prog ArmExidx unit := stop ARM_STATUS_SPARE.
Definition DecodePrefix_10_11_1nnn (byte : Z) : prog ArmExidx unit :=
  CHECK (Z.land byte (Z.lnot 0x07) =? 0xb8);;
  logging nothing nothing (advance_cfa (Z.land byte 0x7 * 8 + 12)).

Definition DecodePrefix_10 (byte : Z) : prog ArmExidx unit :=
  CHECK (Z.shiftr byte 6 =? 0x2);;
  let hi := Z.land (Z.shiftr byte 4) 0x3 in
  let lo := Z.land byte 0xf in
  if hi =? 0 then DecodePrefix_10_00 byte
  else if hi =? 1 then DecodePrefix_10_01 byte
  else if hi =? 2 then DecodePrefix_10_10 byte
  else if lo =? 0 then DecodePrefix_10_11_0000
  else if lo =? 1 then DecodePrefix_10_11_0001
  else if lo =? 2 then DecodePrefix_10_11_0010
  else if lo =? 3 then DecodePrefix_10_11_0011
  else if negb (Z.land byte 0x8 =? 0) then DecodePrefix_10_11_1nnn byte
  else DecodePrefix_10_11_01nn.

Definition DecodePrefix_11_000 (byte : Z) : prog ArmExidx unit :=
  CHECK (Z.land byte (Z.lnot 0x07) =? 0xc0);;
  let bits := Z.land byte 0x7 in
  if bits =? 6 then
    byte ← GetByte; logging nothing nothing (advance_cfa (Z.land byte 0xf * 8 + 8))
  else if bits =? 7 then
    byte ← GetByte;
    if byte =? 0 then stop ARM_STATUS_SPARE
    else if Z.shiftr byte 4 =? 0 then
      logging nothing nothing (advance_cfa (Z.of_nat (length (mask_regs byte 0 8)) * 4))
    else stop ARM_STATUS_SPARE
  else logging nothing nothing (advance_cfa (Z.land byte 0x7 * 8 + 8)).

Definition DecodePrefix_11_001 (byte : Z) : prog ArmExidx unit :=
  CHECK (Z.land byte (Z.lnot 0x07) =? 0xc8);;
  let bits := Z.land byte 0x7 in
  if bits =? 0 then byte ← GetByte; logging nothing nothing (advance_cfa (Z.land byte 0xf * 8 + 8))
  else if bits =? 1 then byte ← GetByte; logging nothing nothing (advance_cfa (Z.land byte 0xf * 8 + 8))
  else stop ARM_STATUS_SPARE.

Definition DecodePrefix_11_010 (byte : Z) : prog ArmExidx unit :=
  CHECK (Z.land byte (Z.lnot 0x07) =? 0xd0);;
  logging nothing nothing (advance_cfa (Z.land byte 0x7 * 8 + 8)).

Definition DecodePrefix_11 (byte : Z) : prog ArmExidx unit :=
  CHECK (Z.shiftr byte 6 =? 0x3);;
  let bits := Z.land (Z.shiftr byte 3) 0x7 in
  if bits =? 0 then DecodePrefix_11_000 byte
  else if bits =? 1 then DecodePrefix_11_001 byte
  else if bits =? 2 then DecodePrefix_11_010 byte
  else stop ARM_STATUS_SPARE.

Definition ArmExidx_Decode : prog ArmExidx unit :=
  modify (λ a, a <| ae_status := ARM_STATUS_NONE |>);;
  byte ← GetByte;
  let offset := Z.shiftl (Z.land byte 0x3f) 2 + 4 in
  let hi := Z.shiftr byte 6 in
  if hi =? 0 then logging (log_offset_signed offset) (AdjustRegisters offset) (advance_cfa offset)
  else if hi =? 1 then logging (log_offset_unsigned (- offset)) (AdjustRegisters (- offset)) (advance_cfa (- offset))
  else if hi =? 2 then DecodePrefix_10 byte
  else DecodePrefix_11 byte.

(** [while (ArmExidx_Decode());] *)
Fixpoint eval_loop (fuel : nat) : prog ArmExidx unit := λ a,
  match fuel with
  | O => Fault NoFuel
  | S fuel =>
      match ArmExidx_Decode a with
      | Ret _ a => eval_loop fuel a
      | Err a => Ret () a
      | Fault f => Fault f
      end
  end.
(** Every opcode consumes a byte. *)
Definition ArmExidx_Eval : prog ArmExidx bool :=
  modify (λ a, a <| ae_pc_set := false |>);;
  a ← get;
  eval_loop (S (length (ae_data a)));;
  a ← get;
  mret (bool_decide (ae_status a = ARM_STATUS_FINISH)).
End exidx.

(** ** The index table *)

Inductive ErrorCode := ERROR_NONE | ERROR_MEMORY_INVALID | ERROR_UNWIND_INFO.
Definition PT_ARM_EXIDX : Z := 0x70000001.

Record ElfInterfaceArm := mkArmInterface {
  start_offset_ : Z;
  total_entries_ : Z;
  load_bias_ : Z;
  addrs_ : gmap Z Z;
  last_error_code : ErrorCode;
  last_error_address : Z;
}.
#[global] Instance ElfInterfaceArm_upd : Updatable ElfInterfaceArm := λ i,
  mkArmInterface (start_offset_ i) (total_entries_ i) (load_bias_ i) (addrs_ i) (last_error_code i) (last_error_address i).
Definition ElfInterfaceArm_new : ElfInterfaceArm := mkArmInterface 0 0 0 ∅ ERROR_NONE 0.

Definition HandleUnknownType (type ph_offset ph_filesz : Z) (i : ElfInterfaceArm) : ElfInterfaceArm :=
  if negb (type =? PT_ARM_EXIDX) then i
  else i <| start_offset_ := ph_offset |> <| total_entries_ := ph_filesz / 8 |>.

(** [Init], given what [ElfInterface32::Init] returns: the load bias, or failure. *)
Definition ElfInterfaceArm_Init (base : option Z) (i : ElfInterfaceArm) : bool * ElfInterfaceArm :=
  match base with Some load_bias => (true, i <| load_bias_ := u64 load_bias |>) | None => (false, i) end.

Definition set_error (code : ErrorCode) (i : ElfInterfaceArm) : ElfInterfaceArm := i <| last_error_code := code |>.
Definition set_error_address (address : Z) (i : ElfInterfaceArm) : ElfInterfaceArm := i <| last_error_address := address |>.

Section interface.
Context {E P : Type} `{Memory E} `{Memory P} (memory : E) (process_memory : P).

(** The left shift is of an [int], which has to be non-negative. *)
Definition GetPrel31Addr (offset : Z) : prog ElfInterfaceArm Z := λ i,
  match le_value <$> ReadFully memory offset 4 with
  | None => Err (set_error_address offset (set_error ERROR_MEMORY_INVALID i))
  | Some data => if data >=? 2 ^ 31 then Fault BadShift else Ret (u32 (offset + prel31 data)) i
  end.

(** [addrs_[index]], read from the table the first time; a cached zero counts as
    absent. *)
Definition entry_addr (index : Z) : prog ElfInterfaceArm Z :=
  i ← get;
  let addr := default 0 (addrs_ i !! index) in
  if addr =? 0 then
    addr ← GetPrel31Addr (u32 (start_offset_ i + index * 8));
    modify (λ i, i <| addrs_ := <[index := addr]> (addrs_ i) |>);; mret addr
  else mret addr.
(** [operator*] of the iterator. *)
Definition exidx_deref (index : Z) : prog ElfInterfaceArm Z := λ i,
  match entry_addr index i with Err i => Ret 0 i | r => r end.

(** The search: [inl] is an entry that starts at [pc], [inr] the final [last]. *)
Fixpoint find_loop (fuel : nat) (pc first last : Z) : prog ElfInterfaceArm (Z + Z) :=
  match fuel with
  | O => undef NoFuel
  | S fuel =>
      if first <? last then
        let current := (first + last) / 2 in
        addr ← entry_addr current;
        if pc =? addr then mret (inl current)
        else if pc <? addr then find_loop fuel pc first current
        else find_loop fuel pc (current + 1) last
      else mret (inr last)
  end.
Definition find_fuel : nat := 65.
Definition no_unwind_info {A} : prog ElfInterfaceArm A := λ i, Err (set_error ERROR_UNWIND_INFO i).
Definition FindEntry (pc : Z) : prog ElfInterfaceArm Z :=
  i ← get;
  if (start_offset_ i =? 0) || (total_entries_ i =? 0) then no_unwind_info
  else
    found ← find_loop find_fuel pc 0 (total_entries_ i);
    match found with
    | inl current => mret (start_offset_ i ⊞ current * 8)
    | inr last => if negb (last =? 0) then mret (start_offset_ i ⊞ (last - 1) * 8) else no_unwind_info
    end.

(** ** Steps *)

(** The error a failed evaluation leaves. *)
Definition exidx_error (arm : ArmExidx) (i : ElfInterfaceArm) : ElfInterfaceArm :=
  match ae_status arm with
  | ARM_STATUS_NONE | ARM_STATUS_NO_UNWIND | ARM_STATUS_FINISH => set_error ERROR_NONE i
  | ARM_STATUS_READ_FAILED => set_error_address (ae_status_address arm) (set_error ERROR_MEMORY_INVALID i)
  | _ => set_error ERROR_UNWIND_INFO i
  end.

(** [arm.ExtractEntryData(entry_offset) && arm.Eval()] *)
Definition run_entry (entry_offset : Z) : prog ArmExidx bool := λ arm,
  match ExtractEntryData memory (u32 entry_offset) arm with
  | Ret _ arm => ArmExidx_Eval process_memory arm
  | Err arm => Ret false arm
  | Fault f => Fault f
  end.

(** The registers of the caller after a successful evaluation. *)
Definition exidx_caller (arm : ArmExidx) : Regs :=
  let regs := ae_regs arm in
  let regs := if ae_pc_set arm then regs else put_reg ARM_REG_PC (get_reg regs ARM_REG_LR) regs in
  put_reg ARM_REG_SP (ae_cfa arm) regs.

(** The object, the registers and [*finished]; [Err] is [return false]. *)
Definition StepExidx (pc : Z) : prog (ElfInterfaceArm * Regs * bool) unit := λ '(i, regs, finished),
  if pc <? load_bias_ i then Err (set_error ERROR_UNWIND_INFO i, regs, finished)
  else
    match FindEntry (u32 (pc - load_bias_ i)) i with
    | Fault f => Fault f
    | Err i => Err (i, regs, finished)
    | Ret entry_offset i =>
        match run_entry entry_offset ((ArmExidx_new regs) <| ae_cfa := u32 (sp regs) |>) with
        | Fault f => Fault f
        | Err arm => Err (i, ae_regs arm, finished)
        | Ret return_value arm =>
            let regs := if return_value : bool then exidx_caller arm else ae_regs arm in
            let finished := if return_value then get_reg regs ARM_REG_PC =? 0 else finished in
            if bool_decide (ae_status arm = ARM_STATUS_NO_UNWIND) then Ret () (i, regs, true)
            else if return_value then Ret () (i, regs, finished)
            else Err (exidx_error arm i, regs, finished)
        end
    end.

(** [Step] tries the DWARF information first, which is [dwarf_step]. *)
Definition ElfInterfaceArm_Step (dwarf_step : Z → prog (ElfInterfaceArm * Regs * bool) unit) (pc : Z) :
    prog (ElfInterfaceArm * Regs * bool) unit := λ s,
  match dwarf_step pc s with Err s => StepExidx pc s | r => r end.

(** [GetFunctionName], given that of [ElfInterface32]. *)
Definition ElfInterfaceArm_GetFunctionName {Name : Type} (base : Z → option (Name * Z)) (addr : Z) : option (Name * Z) :=
  match base (Z.lor addr 1) with
  | Some (name, offset) => Some (name, Z.land offset (Z.lnot 1))
  | None => None
  end.
End interface.
