(* ===== verification/ArmExidxProps.v ===== *)
(** * Unwinding with the exception tables of ARM

    The end-to-end property of the tables: for a function whose prologue saved
    registers on the stack, a step with the entry that describes the prologue
    gives the registers of the caller.  It composes the search of the index, the
    extraction of the opcodes and their execution.  Besides: evaluation ends on
    all data, and the one undefined operation it can reach. *)
From S2P Require Import Prelude UnwindMemory UnwindMemProps Outcome DwarfMemory DwarfMemProps DwarfCfa UnwindRegs ArmExidx.

#[local] Arguments mask_regs : simpl never.

(** ** Facts about bytes, by enumeration *)

Lemma below_forall (n : nat) (P : Z → bool) z :
  forallb P (seqZ 0 (Z.of_nat n)) = true → 0 ≤ z < Z.of_nat n → P z = true.
Proof. intros Hall Hz. eapply forallb_forall in Hall; [exact Hall|]. apply list_elem_of_In, elem_of_seqZ. lia. Qed.

Definition is_byte (b : Z) : Prop := 0 ≤ b < 256.

(** ** Prologues *)

(** What one instruction of a prologue did: lower the stack pointer by
    [4 * (words + 1)], or push registers, as a mask or as r4 to r[4+last] with
    or without the link register. *)
Inductive Act := ASub (words : Z) | APush (mask : Z) | ARange (last : Z) (link : bool).
Definition act_ok (act : Act) : Prop :=
  match act with
  | ASub words => 0 ≤ words < 64
  | APush mask => 0 < mask < 2 ^ 16 ∧ mask mod 16 = 0 ∧ Z.testbit mask 13 = false
  | ARange last _ => 0 ≤ last < 8
  end.
(** The registers it pushed, the lowest address first. *)
Definition act_regs (act : Act) : list nat :=
  match act with
  | ASub _ => []
  | APush mask => mask_regs mask 4 12
  | ARange last link => seq 4 (Z.to_nat (last + 1)) ++ (if link then [ARM_REG_LR] else [])
  end.
Definition act_size (act : Act) : Z :=
  match act with ASub words => 4 * (words + 1) | _ => 4 * Z.of_nat (length (act_regs act)) end.
(** The opcode that undoes it. *)
Definition act_code (act : Act) : list Z :=
  match act with
  | ASub words => [words]
  | APush mask => [0x80 + Z.shiftr mask 12; Z.land (Z.shiftr mask 4) 0xff]
  | ARange last link => [0xa0 + last + (if link then 8 else 0)]
  end.
Definition frame_code (acts : list Act) : list Z := concat (act_code <$> acts).
Definition frame_regs (acts : list Act) : list nat := concat (act_regs <$> acts).

(** [c] holds at [sp] the frame that [acts], the last one first, built below
    [sp0] when the registers were [saved]. *)
Fixpoint words_at (c : Z → option Z) (saved : nat → Z) (a : Z) (regs : list nat) : Prop :=
  match regs with
  | [] => True
  | reg :: regs => stored c a (le_bytes 4 (saved reg)) ∧ words_at c saved (a + 4) regs
  end.
Fixpoint frame_at (c : Z → option Z) (saved : nat → Z) (sp : Z) (acts : list Act) (sp0 : Z) : Prop :=
  match acts with
  | [] => sp = sp0
  | act :: acts => words_at c saved sp (act_regs act) ∧ frame_at c saved (sp + act_size act) acts sp0
  end.

Lemma frame_at_le c saved acts : ∀ sp sp0, Forall act_ok acts → frame_at c saved sp acts sp0 → sp ≤ sp0.
Proof.
  induction acts as [|act acts IH]; intros sp sp0 Hok Hf; cbn in Hf; [lia|]. apply Forall_cons in Hok as [Ho Hok].
  destruct Hf as [_ Hf]. apply IH in Hf; [|done]. assert (0 ≤ act_size act); [|lia]. destruct act; cbn in *; lia.
Qed.

(** ** Registers *)

Definition arm_regs (r : Regs) : Prop := arch r = ARCH_ARM ∧ length (regs_ r) = 16%nat.
Definition restore (saved : nat → Z) (regs : list nat) (r : Regs) : Regs :=
  fold_left (λ r reg, put_reg reg (saved reg) r) regs r.

Lemma put_reg_arm n v r : arm_regs r → arm_regs (put_reg n v r).
Proof. intros [H1 H2]. split; [done|]. unfold put_reg. cbn. by rewrite length_insert. Qed.
Lemma get_put_reg n k v r :
  arm_regs r → (n < 16)%nat → 0 ≤ v < 2 ^ 32 → get_reg (put_reg n v r) k = if decide (k = n) then v else get_reg r k.
Proof.
  intros [H1 H2] Hn Hv. unfold get_reg, put_reg. cbn [regs_ field_set]. rewrite H1. cbn [arch_type bits_of].
  unfold wrap. rewrite Z.mod_small by lia. rewrite !nth_lookup. destruct (decide (k = n)) as [->|Hne].
  - cbn. by rewrite list_lookup_insert_eq by lia.
  - cbn. by rewrite list_lookup_insert_ne.
Qed.
Lemma restore_app saved l l' r : restore saved (l ++ l') r = restore saved l' (restore saved l r).
Proof. apply fold_left_app. Qed.
Lemma restore_get saved regs : ∀ r k,
  arm_regs r → Forall (λ reg, (reg < 16)%nat) regs → (∀ reg, 0 ≤ saved reg < 2 ^ 32) →
  arm_regs (restore saved regs r) ∧ get_reg (restore saved regs r) k = if decide (k ∈ regs) then saved k else get_reg r k.
Proof.
  induction regs as [|reg regs IH]; intros r k Hr Hl Hs; [done|]. apply Forall_cons in Hl as [Hreg Hl].
  change (restore saved (reg :: regs) r) with (restore saved regs (put_reg reg (saved reg) r)).
  destruct (IH (put_reg reg (saved reg) r) k) as [IH1 IH2]; [by apply put_reg_arm|done|done|]. split; [done|].
  rewrite IH2, get_put_reg by done. destruct (decide (k ∈ regs)) as [Hin|Hin], (decide (k = reg)) as [->|Hne].
  - by rewrite decide_True by left.
  - by rewrite decide_True by (by right).
  - by rewrite decide_True by left.
  - rewrite decide_False; [done|]. by intros [?|?]%elem_of_cons.
Qed.

Lemma mask_regs_below mask first count : Forall (λ reg, (reg < first + count)%nat) (mask_regs mask first count).
Proof. apply Forall_forall. intros reg [_ H]%list_elem_of_filter. apply elem_of_seq in H. lia. Qed.
Lemma act_regs_below act : act_ok act → Forall (λ reg, (reg < 16)%nat) (act_regs act).
Proof.
  destruct act as [words|mask|last link]; cbn [act_ok act_regs]; [done|intros _; apply (mask_regs_below mask 4 12)|].
  intros Hl. apply Forall_app. split; [|destruct link; repeat constructor; unfold ARM_REG_LR; lia].
  apply Forall_forall. intros reg Hreg%elem_of_seq. lia.
Qed.

(** ** Execution *)

Section execution.
Context {P : Type} `{Memory P} (process_memory : P) (limit : Z) (c : Z → option Z).
Hypothesis Hreads : Reads limit process_memory c.
Hypothesis Hlimit : 4 ≤ limit.
Variable saved : nat → Z.
Hypothesis Hsaved : ∀ reg, 0 ≤ saved reg < 2 ^ 32.

Lemma read_reg_stored reg a :
  0 ≤ ae_cfa a < 2 ^ 32 → stored c (ae_cfa a) (le_bytes 4 (saved reg)) →
  read_reg process_memory reg a = Ret () (a <| ae_regs := put_reg reg (saved reg) (ae_regs a) |>).
Proof using Hlimit Hreads Hsaved.
  intros Ha Hst. unfold read_reg. rewrite read_contents by lia. unfold stored in Hst. rewrite le_bytes_length in Hst.
  change (Z.to_nat 4) with 4%nat. rewrite Hst, le_bytes_length. cbn [Z.of_nat Pos.of_succ_nat]. rewrite Z.eqb_refl.
  unfold overwrite. rewrite le_bytes_length. change (drop 4 (reg_bytes 4 ?v)) with (@nil Z). rewrite app_nil_r, le_value_bytes.
  change (8 * Z.of_nat 4) with 32. unfold wrap. rewrite Z.mod_small by apply Hsaved. done.
Qed.

Lemma pop_regs_stored regs : ∀ a,
  words_at c saved (ae_cfa a) regs → 0 ≤ ae_cfa a → ae_cfa a + 4 * Z.of_nat (length regs) < 2 ^ 32 →
  pop_regs process_memory regs a =
    Ret () (a <| ae_regs := restore saved regs (ae_regs a) |> <| ae_cfa := ae_cfa a + 4 * Z.of_nat (length regs) |>).
Proof using Hlimit Hreads Hsaved.
  induction regs as [|reg regs IH]; intros a Hw Ha Hb; cbn [pop_regs].
  - cbn. rewrite Z.add_0_r. by destruct a.
  - destruct Hw as [Hst Hw]. cbn [length] in Hb. unfold mbind, prog_bind.
    rewrite read_reg_stored by (done || lia). unfold advance_cfa, modify.
    set (a1 := _ <| ae_cfa := _ |>). assert (ae_cfa a1 = ae_cfa a + 4) as Ec by (cbn; unfold u32, wrap; rewrite Z.mod_small; lia).
    rewrite IH; rewrite ?Ec; [|done|lia|lia]. cbn [length restore fold_left]. f_equal.
    unfold a1, restore. cbn. f_equal. lia.
Qed.

Lemma pop_regs_app l l' a :
  pop_regs process_memory (l ++ l') a = (pop_regs process_memory l;; pop_regs process_memory l') a.
Proof using Type.
  revert a. induction l as [|reg l IH]; intros a; [done|]. cbn [app pop_regs]. unfold mbind, prog_bind.
  destruct (read_reg process_memory reg a) as [[] a1| |] eqn:E; rewrite ?E; [|done|done].
  unfold advance_cfa, modify. rewrite IH. done.
Qed.

(** *** One opcode *)

(** The checks and the dispatch of [ArmExidx_Decode] on the opcodes of a frame. *)
Definition sub_dispatch (b : Z) : bool := (Z.shiftr b 6 =? 0) && (Z.shiftl (Z.land b 0x3f) 2 + 4 =? 4 * (b + 1)).
Definition range_dispatch (last link : Z) : bool :=
  let b := 0xa0 + last + link * 8 in
  (Z.shiftr b 6 =? 2) && (Z.land (Z.shiftr b 4) 3 =? 2) && (Z.shiftr b 4 =? 0xa) && (Z.land b 7 =? last) &&
  eqb (negb (Z.land b 8 =? 0)) (link =? 1).
Definition mask_dispatch (n : Z) : bool :=
  let mask := n * 16 in
  let b := 0x80 + Z.shiftr mask 12 in
  let registers := Z.lor (Z.shiftl (Z.land b 0xf) 8) (Z.land (Z.shiftr mask 4) 0xff) in
  (Z.shiftr b 6 =? 2) && (Z.land (Z.shiftr b 4) 3 =? 0) && (Z.shiftr b 4 =? 8) && (registers =? n) &&
  (u16 (Z.shiftl registers 4) =? mask).

Lemma sub_dispatch_ok b : 0 ≤ b < 64 → sub_dispatch b = true.
Proof using Type. apply (below_forall 64). vm_compute. reflexivity. Qed.
Lemma range_dispatch_ok last link : 0 ≤ last < 8 → range_dispatch last (if link : bool then 1 else 0) = true.
Proof using Type. destruct link; apply (below_forall 8 (λ l, range_dispatch l _)); vm_compute; reflexivity. Qed.
Lemma mask_dispatch_ok n : 0 ≤ n < 4096 → mask_dispatch n = true.
Proof using Type. apply (below_forall 4096). vm_compute. reflexivity. Qed.

(** The opcode of [act] pops what it pushed. *)
Definition after_act (act : Act) (data : list Z) (a : ArmExidx) : ArmExidx :=
  a <| ae_status := ARM_STATUS_NONE |> <| ae_data := data |>
    <| ae_regs := restore saved (act_regs act) (ae_regs a) |> <| ae_cfa := ae_cfa a + act_size act |>
    <| ae_pc_set := ae_pc_set a || bool_decide (ARM_REG_PC ∈ act_regs act) |>.

Lemma pc_in_mask mask : bool_decide (ARM_REG_PC ∈ mask_regs mask 4 12) = Z.testbit mask 15.
Proof using Type.
  destruct (Z.testbit mask 15) eqn:E.
  - apply bool_decide_eq_true. unfold mask_regs. apply list_elem_of_filter. split; [change (Z.of_nat ARM_REG_PC) with 15; by rewrite E|].
    apply elem_of_seq. unfold ARM_REG_PC. lia.
  - apply bool_decide_eq_false. intros [Ht _]%list_elem_of_filter. change (Z.of_nat ARM_REG_PC) with 15 in Ht. by rewrite E in Ht.
Qed.

Lemma logging_none x y e a : ae_log_type a = ARM_LOG_NONE → logging x y e a = e a.
Proof using Type. intros E. unfold logging, get, mbind, prog_bind. by rewrite E. Qed.

Lemma Decode_head byte data a :
  ae_data a = byte :: data →
  ArmExidx_Decode process_memory a =
    let offset := Z.shiftl (Z.land byte 0x3f) 2 + 4 in
    let hi := Z.shiftr byte 6 in
    (if hi =? 0 then logging (log_offset_signed offset) (AdjustRegisters offset) (advance_cfa offset)
     else if hi =? 1 then logging (log_offset_unsigned (- offset)) (AdjustRegisters (- offset)) (advance_cfa (- offset))
     else if hi =? 2 then DecodePrefix_10 process_memory byte else DecodePrefix_11 byte)
      (a <| ae_status := ARM_STATUS_NONE |> <| ae_data := data |>).
Proof using Type. intros E. unfold ArmExidx_Decode, modify, mbind, prog_bind, GetByte. cbn [ae_data field_set]. by rewrite E. Qed.

Lemma Decode_sub words data a :
  act_ok (ASub words) → ae_data a = words :: data → ae_log_type a = ARM_LOG_NONE →
  0 ≤ ae_cfa a → ae_cfa a + act_size (ASub words) < 2 ^ 32 → ArmExidx_Decode process_memory a = Ret () (after_act (ASub words) data a).
Proof using Type.
  intros Hok Hd Hlog Ha Hb. rewrite (Decode_head _ _ _ Hd). cbn [act_ok act_size] in *.
  pose proof (sub_dispatch_ok words Hok) as Hdis. unfold sub_dispatch in Hdis. apply andb_true_iff in Hdis as [E1 E2].
  apply Z.eqb_eq in E2. cbv zeta. rewrite E1, E2, logging_none by done. unfold advance_cfa, modify, after_act. cbn -[Z.mul].
  unfold u32, wrap. rewrite Z.mod_small, orb_false_r by lia. done.
Qed.

Lemma Decode_range last link data a :
  act_ok (ARange last link) → ae_data a = act_code (ARange last link) ++ data → ae_log_type a = ARM_LOG_NONE →
  words_at c saved (ae_cfa a) (act_regs (ARange last link)) → 0 ≤ ae_cfa a → ae_cfa a + act_size (ARange last link) < 2 ^ 32 →
  ArmExidx_Decode process_memory a = Ret () (after_act (ARange last link) data a).
Proof using Hlimit Hreads Hsaved.
  intros Hok Hd Hlog Hw Ha Hb. cbn [act_code app] in Hd. rewrite (Decode_head _ _ _ Hd).
  pose proof (range_dispatch_ok last link Hok) as Hdis. unfold range_dispatch in Hdis. cbv zeta in Hdis.
  set (byte := 0xa0 + last + (if link then 8 else 0)) in *.
  replace (0xa0 + last + (if link then 1 else 0) * 8) with byte in Hdis by (unfold byte; destruct link; lia).
  apply andb_true_iff in Hdis as [Hdis E5]. apply andb_true_iff in Hdis as [Hdis E4]. apply andb_true_iff in Hdis as [Hdis E3].
  apply andb_true_iff in Hdis as [E1 E2]. apply Z.eqb_eq in E1, E2, E4. apply eqb_prop in E5. cbv zeta. rewrite E1.
  change (2 =? 0) with false. change (2 =? 1) with false. change (2 =? 2) with true. cbv iota.
  unfold DecodePrefix_10, DecodePrefix_10_10, CHECK, mbind, prog_bind, mret, prog_ret. rewrite E1, E2, E3, E4, E5.
  replace ((if link then 1 else 0) =? 1) with link by (by destruct link). cbn -[Z.add Z.mul Z.of_nat seq].
  rewrite logging_none by done.
  cbn [act_regs act_size] in *. set (regs := seq 4 (Z.to_nat (last + 1))) in *.
  transitivity (pop_regs process_memory (regs ++ (if link then [ARM_REG_LR] else [])) (a <| ae_status := ARM_STATUS_NONE |> <| ae_data := data |>)).
  { rewrite pop_regs_app. destruct link; [done|]. unfold mbind, prog_bind. by destruct (pop_regs process_memory regs _) as [[]| |]. }
  rewrite pop_regs_stored by (done || (cbn; lia)). unfold after_act. cbn [ae_cfa ae_regs field_set]. rewrite bool_decide_false; [by rewrite orb_false_r|].
  intros [Hin|Hin]%elem_of_app; [apply elem_of_seq in Hin; unfold ARM_REG_PC in Hin; cbn in Hok; lia|].
  destruct link; [|by apply elem_of_nil in Hin]. by apply list_elem_of_singleton in Hin.
Qed.

Lemma Decode_push mask data a :
  act_ok (APush mask) → ae_data a = act_code (APush mask) ++ data → ae_log_type a = ARM_LOG_NONE →
  words_at c saved (ae_cfa a) (act_regs (APush mask)) → 0 ≤ ae_cfa a → ae_cfa a + act_size (APush mask) < 2 ^ 32 →
  ArmExidx_Decode process_memory a = Ret () (after_act (APush mask) data a).
Proof using Hlimit Hreads Hsaved.
  intros (Hpos & Hmod & Hsp) Hd Hlog Hw Ha Hb. cbn [act_code app] in Hd. rewrite (Decode_head _ _ _ Hd).
  assert (0 ≤ mask / 16 < 4096) as Hn by (split; [apply Z.div_pos|apply Z.div_lt_upper_bound]; lia).
  assert (mask / 16 * 16 = mask) as Em by (pose proof (Z.div_mod mask 16); lia).
  pose proof (mask_dispatch_ok (mask / 16) Hn) as Hdis. unfold mask_dispatch in Hdis. cbv zeta in Hdis. rewrite Em in Hdis.
  set (byte := 0x80 + Z.shiftr mask 12) in *. set (low := Z.land (Z.shiftr mask 4) 0xff) in *.
  apply andb_true_iff in Hdis as [Hdis E5]. apply andb_true_iff in Hdis as [Hdis E4]. apply andb_true_iff in Hdis as [Hdis E3].
  apply andb_true_iff in Hdis as [E1 E2]. apply Z.eqb_eq in E1, E2, E4, E5. cbv zeta. rewrite E1.
  change (2 =? 0) with false. change (2 =? 1) with false. change (2 =? 2) with true. cbv iota.
  unfold DecodePrefix_10, DecodePrefix_10_00, CHECK, mbind, prog_bind, mret, prog_ret. rewrite E1, E2, E3.
  cbn -[Z.lor Z.shiftl Z.land Z.testbit]. rewrite E4. rewrite (proj2 (Z.eqb_neq (mask / 16) 0)) by lia. rewrite E4 in E5. rewrite E5.
  rewrite logging_none by done. rewrite Hsp. cbn [act_regs act_size] in *.
  unfold mbind, prog_bind. rewrite pop_regs_stored by (done || (cbn; lia)). cbn -[restore Z.mul mask_regs Z.testbit].
  unfold after_act. cbn [ae_cfa ae_regs field_set act_regs act_size]. rewrite pc_in_mask.
  destruct (Z.testbit mask 15); cbn -[restore Z.mul mask_regs Z.testbit]; by rewrite ?orb_true_r, ?orb_false_r.
Qed.

Lemma Decode_act act data a :
  act_ok act → ae_data a = act_code act ++ data → ae_log_type a = ARM_LOG_NONE →
  words_at c saved (ae_cfa a) (act_regs act) → 0 ≤ ae_cfa a → ae_cfa a + act_size act < 2 ^ 32 →
  ArmExidx_Decode process_memory a = Ret () (after_act act data a).
Proof using Hlimit Hreads Hsaved.
  intros. destruct act; [by apply Decode_sub|by apply Decode_push|by apply Decode_range].
Qed.

Lemma Decode_finish data a :
  ae_data a = ARM_OP_FINISH :: data →
  ArmExidx_Decode process_memory a = Err (a <| ae_status := ARM_STATUS_FINISH |> <| ae_data := data |>).
Proof using Type. intros E. by rewrite (Decode_head _ _ _ E). Qed.

(** *** A frame *)

Lemma eval_frame acts : ∀ fuel a rest sp0,
  Forall act_ok acts → ae_data a = frame_code acts ++ ARM_OP_FINISH :: rest → ae_log_type a = ARM_LOG_NONE →
  0 ≤ ae_cfa a → sp0 < 2 ^ 32 → frame_at c saved (ae_cfa a) acts sp0 → (length acts < fuel)%nat →
  eval_loop process_memory fuel a =
    Ret () (a <| ae_status := ARM_STATUS_FINISH |> <| ae_data := rest |>
              <| ae_regs := restore saved (frame_regs acts) (ae_regs a) |> <| ae_cfa := sp0 |>
              <| ae_pc_set := ae_pc_set a || bool_decide (ARM_REG_PC ∈ frame_regs acts) |>).
Proof using Hlimit Hreads Hsaved.
  induction acts as [|act acts IH]; intros fuel a rest sp0 Hok Hd Hlog Ha Hsp Hf Hfuel; destruct fuel as [|fuel]; cbn [length] in Hfuel; try lia.
  - cbn [eval_loop]. rewrite (Decode_finish rest) by done. cbn in Hf. subst sp0. cbn. rewrite orb_false_r. by destruct a.
  - apply Forall_cons in Hok as [Ho Hok]. destruct Hf as [Hw Hf]. pose proof (frame_at_le _ _ _ _ _ Hok Hf) as Hle.
    cbn [eval_loop]. unfold frame_code in Hd. cbn [fmap list_fmap concat] in Hd. rewrite <-app_assoc in Hd.
    rewrite (Decode_act act _ a Ho Hd Hlog Hw Ha ltac:(lia)).
    assert (0 ≤ act_size act) by (destruct act; cbn in *; lia).
    rewrite (IH fuel (after_act act _ a) rest sp0); try done; [|unfold after_act; cbn; lia|lia].
    unfold after_act. cbn -[restore frame_regs act_regs]. f_equal. unfold frame_regs. cbn [fmap list_fmap concat].
    rewrite restore_app, <-orb_assoc. do 2 f_equal.
    rewrite <-bool_decide_or. apply bool_decide_ext. by rewrite elem_of_app.
Qed.
End execution.

(** ** Entries *)

(** The word of bytes [b3] to [b0], the highest first. *)
Definition word_at (c : Z → option Z) (a b3 b2 b1 b0 : Z) : Prop := stored c a [b0; b1; b2; b3].
(** [data] refers to [target] from [place]. *)
Definition refers (c : Z → option Z) (place target : Z) : Prop :=
  stored c place (le_bytes 4 ((target - place) mod 2 ^ 31)) ∧ - 2 ^ 30 ≤ target - place < 2 ^ 30.

(** An entry of the index holds three opcodes, or refers to a word with two and
    up to five words of four. *)
Inductive Entry := Inline (b0 b1 b2 : Z) | Table (addr personality b0 b1 : Z) (words : list (Z * Z * Z * Z)).
Definition word_ops (w : Z * Z * Z * Z) : list Z := let '(b3, b2, b1, b0) := w in [b3; b2; b1; b0].
Definition entry_ops (e : Entry) : list Z :=
  match e with
  | Inline b0 b1 b2 => [b0; b1; b2]
  | Table _ _ b0 b1 words => [b0; b1] ++ concat (word_ops <$> words)
  end.
Fixpoint words_stored (c : Z → option Z) (a : Z) (words : list (Z * Z * Z * Z)) : Prop :=
  match words with
  | [] => True
  | (b3, b2, b1, b0) :: words => word_at c a b3 b2 b1 b0 ∧ words_stored c (a + 4) words
  end.
Definition entry_at (c : Z → option Z) (offset : Z) (e : Entry) : Prop :=
  Z.testbit offset 0 = false ∧ 0 ≤ offset ∧ offset + 8 ≤ 2 ^ 32 ∧ Forall is_byte (entry_ops e) ∧
  match e with
  | Inline b0 b1 b2 => word_at c (offset + 4) 0x80 b0 b1 b2
  | Table addr personality b0 b1 words =>
      refers c (offset + 4) addr ∧ ((addr - (offset + 4)) mod 2 ^ 31 ≠ 1) ∧ 0 ≤ addr ∧ addr + 4 * Z.of_nat (S (length words)) ≤ 2 ^ 32 ∧
      (personality = 1 ∨ personality = 2) ∧ (length words ≤ 5)%nat ∧
      word_at c addr (0x80 + personality) (Z.of_nat (length words)) b0 b1 ∧ words_stored c (addr + 4) words
  end.
(** What is executed: a finish opcode ends the opcodes that have none. *)
Definition finished_ops (ops : list Z) : list Z :=
  if decide (last ops = Some ARM_OP_FINISH) then ops else ops ++ [ARM_OP_FINISH].

Lemma byte_at_word b0 b1 b2 b3 :
  is_byte b0 → is_byte b1 → is_byte b2 → is_byte b3 →
  let w := le_value [b0; b1; b2; b3] in
  byte_at w 0 = b0 ∧ byte_at w 8 = b1 ∧ byte_at w 16 = b2 ∧ byte_at w 24 = b3 ∧ 0 ≤ w < 2 ^ 32 ∧ w / 2 ^ 24 = b3.
Proof.
  unfold is_byte, byte_at. intros H0 H1 H2 H3. cbv zeta. cbn [le_value].
  change 255 with (Z.ones 8). rewrite !Z.land_ones, !Z.shiftr_div_pow2 by lia.
  change (2 ^ 0) with 1. change (2 ^ 8) with 256. change (2 ^ 16) with 65536. change (2 ^ 24) with 16777216.
  Z.to_euclidean_division_equations. lia.
Qed.

Lemma prel31_refers place target :
  0 ≤ place < 2 ^ 32 → 0 ≤ target < 2 ^ 32 → - 2 ^ 30 ≤ target - place < 2 ^ 30 → u32 (place + prel31 ((target - place) mod 2 ^ 31)) = target.
Proof.
  intros Hp Ht Hd. unfold prel31. set (d := target - place) in *. rewrite Z.shiftl_mul_pow2, Z.shiftr_div_pow2 by lia. change (2 ^ 1) with 2.
  assert (i32 (d mod 2 ^ 31 * 2) = d * 2) as ->.
  { unfold i32, u32, wrap. destruct (decide (0 ≤ d)).
    - rewrite (Z.mod_small d), Z.mod_small by lia. by rewrite (proj2 (Z.ltb_lt _ _)) by lia.
    - rewrite <-(Z_mod_plus_full d 1), (Z.mod_small (d + _)), Z.mod_small by lia. rewrite (proj2 (Z.ltb_ge _ _)) by lia. lia. }
  rewrite Z.div_mul by lia. unfold u32, wrap. rewrite Z.mod_small by lia. lia.
Qed.

Lemma testbit_31 w : 0 ≤ w < 2 ^ 32 → Z.testbit w 31 = (2 ^ 31 <=? w).
Proof.
  intros Hw. rewrite Z.testbit_odd, Z.shiftr_div_pow2 by lia. destruct (Z.leb_spec (2 ^ 31) w).
  - assert (w / 2 ^ 31 = 1) as -> by (symmetry; apply (Z.div_unique _ _ _ (w - 2 ^ 31)); lia). done.
  - by rewrite Z.div_small by lia.
Qed.
(** The first byte of a word is its kind. *)
Lemma word_kind b0 b1 b2 kind :
  is_byte b0 → is_byte b1 → is_byte b2 → 0 ≤ kind < 16 →
  let w := le_value [b0; b1; b2; 0x80 + kind] in
  (w =? 1) = false ∧ Z.testbit w 31 = true ∧ Z.land (Z.shiftr w 24) 0xf = kind.
Proof.
  intros H0 H1 H2 Hk w. destruct (byte_at_word b0 b1 b2 (0x80 + kind)) as (_ & _ & _ & _ & Hr & Hd); [done..|unfold is_byte; lia|]. fold w in Hr, Hd.
  assert (2 ^ 31 ≤ w) by (unfold w, is_byte in *; cbn [le_value]; lia).
  rewrite testbit_31, (proj2 (Z.leb_le _ _)) by done. split; [apply Z.eqb_neq; lia|]. split; [done|].
  change 15 with (Z.ones 4). rewrite Z.land_ones, Z.shiftr_div_pow2, Hd by lia.
  change (0x80 + kind) with (8 * 2 ^ 4 + kind). rewrite Z.add_comm, Z_mod_plus_full. apply Z.mod_small. lia.
Qed.

Section extraction.
Context {E : Type} `{Memory E} (elf_memory : E) (limit : Z) (c : Z → option Z).
Hypothesis Hreads : Reads limit elf_memory c.
Hypothesis Hlimit : 4 ≤ limit.

Lemma read_word a bytes : 0 ≤ a < 2 ^ 32 → length bytes = 4%nat → stored c a bytes → ReadFully elf_memory a 4 = Some bytes.
Proof using Hlimit Hreads.
  intros Ha Hl Hst. apply (ReadFully_spec limit elf_memory c); [done|lia|lia|]. unfold stored in Hst. rewrite Hl in Hst. by split.
Qed.
Lemma elf_Read32_stored a bytes s :
  0 ≤ a < 2 ^ 32 → length bytes = 4%nat → stored c a bytes → elf_Read32 elf_memory a s = Ret (le_value bytes) s.
Proof using Hlimit Hreads. intros. unfold elf_Read32. by rewrite (read_word a bytes). Qed.

Lemma table_words_stored words : ∀ a s,
  words_stored c a words → 0 ≤ a → a + 4 * Z.of_nat (length words) ≤ 2 ^ 32 → Forall is_byte (concat (word_ops <$> words)) →
  table_words elf_memory (length words) a s = Ret () (s <| ae_data := ae_data s ++ concat (word_ops <$> words) |>).
Proof using Hlimit Hreads.
  induction words as [|[[[b3 b2] b1] b0] words IH]; intros a s Hw Ha Hb Hbytes; cbn [length table_words].
  - cbn. rewrite app_nil_r. by destruct s.
  - destruct Hw as [Hw Hws]. cbn [length] in Hb. cbn [fmap list_fmap concat word_ops app] in Hbytes. rewrite !Forall_cons in Hbytes.
    destruct Hbytes as (H3 & H2 & H1 & H0 & Hbytes). unfold mbind, prog_bind.
    rewrite (elf_Read32_stored a [b0; b1; b2; b3]) by (done || lia).
    destruct (byte_at_word b0 b1 b2 b3 H0 H1 H2 H3) as (-> & -> & -> & -> & _). unfold push_data, modify.
    destruct words as [|w words]; [cbn; by rewrite <-!app_assoc|].
    assert (u32 (a + 4) = a + 4) as -> by (unfold u32, wrap; apply Z.mod_small; cbn [length] in Hb; lia).
    rewrite IH by (done || lia). cbn -[word_ops]. by rewrite <-!app_assoc.
Qed.

Lemma finish_data_ops s : ae_data s ≠ [] → finish_data s = Ret () (s <| ae_data := finished_ops (ae_data s) |>).
Proof using Type.
  intros Hne. unfold finish_data, finished_ops, get, mbind, prog_bind. destruct (last (ae_data s)) as [op|] eqn:El; [|by apply last_None in El].
  destruct (Z.eqb_spec op ARM_OP_FINISH) as [->|Hop]; cbn [negb].
  - rewrite decide_True by done. by destruct s.
  - rewrite decide_False by congruence. done.
Qed.
Lemma table_head_table addr personality b0 b1 n s :
  personality = 1 ∨ personality = 2 → is_byte n → is_byte b0 → is_byte b1 → 0 ≤ addr < 2 ^ 32 →
  word_at c addr (0x80 + personality) n b0 b1 →
  table_head elf_memory addr s = Ret (n, u32 (addr + 4)) (s <| ae_data := ae_data s ++ [b0; b1] |>).
Proof using Hlimit Hreads.
  intros Hp Hn H0 H1 Ha Hw. unfold table_head, mbind, prog_bind. rewrite (elf_Read32_stored addr [b1; b0; n; 0x80 + personality]) by done.
  destruct (word_kind b1 b0 n personality H1 H0 Hn ltac:(lia)) as (_ & -> & ->).
  destruct (byte_at_word b1 b0 n (0x80 + personality) H1 H0 Hn ltac:(unfold is_byte; lia)) as (-> & -> & -> & _).
  rewrite (proj2 (Z.eqb_neq personality 0)) by lia.
  assert ((personality =? 1) || (personality =? 2) = true) as -> by (destruct Hp as [-> | ->]; done).
  unfold push_data, modify, mret, prog_ret. cbn. by rewrite <-app_assoc.
Qed.

(** [ExtractEntryData] gives the opcodes of the entry. *)
Lemma ExtractEntryData_entry offset e s :
  entry_at c offset e →
  ExtractEntryData elf_memory offset s = Ret () (s <| ae_data := finished_ops (entry_ops e) |> <| ae_status := ARM_STATUS_NONE |>).
Proof using Hlimit Hreads.
  intros (Halign & Ho & Hb & Hbytes & He). unfold ExtractEntryData. rewrite Halign. unfold modify, mbind, prog_bind.
  set (s1 := s <| ae_data := _ |> <| ae_status := _ |>).
  assert (u32 (offset + 4) = offset + 4) as -> by (unfold u32, wrap; apply Z.mod_small; lia).
  destruct e as [b0 b1 b2|addr personality b0 b1 words]; cbn [entry_ops] in *.
  - rewrite !Forall_cons in Hbytes. destruct Hbytes as (H0 & H1 & H2 & _).
    rewrite (elf_Read32_stored _ [b2; b1; b0; 0x80 + 0]) by (done || lia).
    destruct (word_kind b2 b1 b0 0 H2 H1 H0 ltac:(lia)) as (-> & -> & ->). cbn [Z.eqb negb].
    destruct (byte_at_word b2 b1 b0 (0x80 + 0) H2 H1 H0 ltac:(done)) as (-> & -> & -> & _).
    unfold push_data, modify, mbind, prog_bind. rewrite finish_data_ops by done. done.
  - apply Forall_app in Hbytes as [Hh Hbytes]. rewrite !Forall_cons in Hh. destruct Hh as (H0 & H1 & _).
    destruct He as ((Hst & Hd) & Hone & Ha1 & Ha2 & Hp & Hlen & Hw & Hws).
    pose proof (Z.mod_pos_bound (addr - (offset + 4)) (2 ^ 31) ltac:(lia)) as Hm.
    rewrite (elf_Read32_stored (offset + 4) _ _ ltac:(lia) (le_bytes_length _ _) Hst), le_value_bytes. change (8 * Z.of_nat 4) with 32.
    unfold wrap. rewrite (Z.mod_small _ (2 ^ 32)) by lia. rewrite (proj2 (Z.eqb_neq _ 1)) by done.
    rewrite testbit_31, (proj2 (Z.leb_gt _ _)) by lia. rewrite prel31_refers by lia.
    rewrite (table_head_table addr personality b0 b1 (Z.of_nat (length words))) by (done || (unfold is_byte; lia)).
    rewrite Z.gtb_ltb, (proj2 (Z.ltb_ge _ _)), Nat2Z.id by lia.
    destruct words as [|w words].
    + cbn [length table_words]. unfold mbind, prog_bind, mret, prog_ret. rewrite finish_data_ops by done. done.
    + assert (u32 (addr + 4) = addr + 4) as -> by (unfold u32, wrap; apply Z.mod_small; cbn [length] in Ha2; lia).
      unfold mbind, prog_bind. rewrite table_words_stored by (done || (cbn [length] in *; lia)). rewrite finish_data_ops by done. done.
Qed.
End extraction.

(** ** The index *)

Section index.
Context {E : Type} `{Memory E} (memory : E) (limit : Z) (c : Z → option Z).
Hypothesis Hreads : Reads limit memory c.
Hypothesis Hlimit : 4 ≤ limit.
Variables (start count : Z) (fn : Z → Z).

(** A table of [count] entries at [start], the functions in order of address. *)
Definition index_at : Prop :=
  0 < start ∧ 0 < count ∧ start + count * 8 ≤ 2 ^ 32 ∧
  (∀ k, 0 ≤ k < count → 0 ≤ fn k < 2 ^ 32 ∧ refers c (start + k * 8) (fn k)) ∧
  (∀ i j, 0 ≤ i < j → j < count → fn i < fn j).
(** The interface of that table: what it cached are its addresses. *)
Definition interface_ok (i : ElfInterfaceArm) : Prop :=
  start_offset_ i = start ∧ total_entries_ i = count ∧ (∀ k addr, addrs_ i !! k = Some addr → 0 ≤ k < count → addr = fn k).
Hypothesis Hindex : index_at.

Lemma entry_addr_fn k i :
  interface_ok i → 0 ≤ k < count →
  ∃ i', entry_addr memory k i = Ret (fn k) i' ∧ interface_ok i' ∧ load_bias_ i' = load_bias_ i.
Proof using Hindex Hlimit Hreads.
  intros (Hs & Ht & Hc) Hk. destruct Hindex as (Hs0 & _ & Hend & Hfn & _). destruct (Hfn k Hk) as [Hr [Hst Hd]].
  unfold entry_addr, get, mbind, prog_bind. destruct (Z.eqb_spec (default 0 (addrs_ i !! k)) 0) as [Hz|Hnz].
  - unfold GetPrel31Addr. rewrite Hs. assert (u32 (start + k * 8) = start + k * 8) as -> by (unfold u32, wrap; apply Z.mod_small; lia).
    rewrite (read_word memory limit c Hreads Hlimit (start + k * 8) _ ltac:(lia) (le_bytes_length _ _) Hst). cbn [fmap option_fmap option_map].
    rewrite le_value_bytes. change (8 * Z.of_nat 4) with 32. pose proof (Z.mod_pos_bound (fn k - (start + k * 8)) (2 ^ 31) ltac:(lia)).
    unfold wrap. rewrite (Z.mod_small _ (2 ^ 32)) by lia. rewrite Z.geb_leb, (proj2 (Z.leb_gt _ _)) by lia.
    rewrite prel31_refers by lia. unfold modify, mret, prog_ret. eexists. split; [done|]. split; [|done]. split; [done|]. split; [done|].
    cbn. intros k' addr [[<- <-]|[_ Hk']]%lookup_insert_Some; [done|by apply Hc].
  - destruct (addrs_ i !! k) as [addr|] eqn:E'; [|done]. exists i. cbn. by rewrite (Hc k addr E' Hk).
Qed.

(** The entry of [pc]: the last function that does not start after it. *)
Definition exidx_entry_of (pc j : Z) : Prop := 0 ≤ j < count ∧ fn j ≤ pc ∧ ∀ k, j < k < count → pc < fn k.

Lemma find_loop_entry fuel pc j : ∀ first last i,
  last - first < 2 ^ (Z.of_nat fuel - 1) → 0 ≤ first ≤ last → last ≤ count → interface_ok i → exidx_entry_of pc j → first ≤ j + 1 → j < last →
  ∃ r i', find_loop memory fuel pc first last i = Ret r i' ∧ interface_ok i' ∧ load_bias_ i' = load_bias_ i ∧ (r = inl j ∨ r = inr (j + 1)).
Proof using Hindex Hlimit Hreads.
  induction fuel as [|fuel IH]; intros first last i Hd Hfl Hlast Hi Hj H1 H2; cbn [find_loop].
  { change (2 ^ (Z.of_nat 0 - 1)) with 0 in Hd. lia. }
  destruct (Z.ltb_spec first last) as [Hlt|Hge]; [|exists (inr last), i; repeat split; try apply Hi; right; f_equal; lia].
  set (cur := (first + last) / 2).
  assert (2 * cur ≤ first + last < 2 * cur + 2) as Hhalf by (unfold cur; Z.to_euclidean_division_equations; lia).
  replace (Z.of_nat (S fuel) - 1) with (Z.of_nat fuel) in Hd by lia. destruct fuel as [|fuel']; [cbn in Hd; lia|].
  replace (Z.of_nat (S fuel')) with (Z.succ (Z.of_nat (S fuel') - 1)) in Hd by lia. rewrite Z.pow_succ_r in Hd by lia.
  set (fuel := S fuel') in *. destruct (entry_addr_fn cur i Hi ltac:(lia)) as (i1 & E1 & Hi1 & Hb1).
  unfold mbind, prog_bind. rewrite E1. destruct Hj as (Hj & Hle & Hgt).
  assert (∀ a b, 0 ≤ a < b → b < count → fn a < fn b) as Hinc by apply Hindex.
  destruct (Z.eqb_spec pc (fn cur)) as [->|Hne]; [|destruct (Z.ltb_spec pc (fn cur)) as [Hbelow|Habove]].
  - exists (inl cur), i1. split; [done|]. split; [done|]. split; [done|]. left. f_equal. destruct (Z.lt_trichotomy cur j) as [Hc|[Hc|Hc]]; [|done|].
    + specialize (Hinc cur j ltac:(lia) ltac:(lia)). lia.
    + specialize (Hgt cur ltac:(lia)). lia.
  - destruct (IH first cur i1) as (r & i' & -> & ? & ? & ?); try done; [lia..| |by exists r, i'; split_and!; [| |congruence|]].
    apply Z.nle_gt. intros Hc. destruct (decide (cur = j)) as [->|]; [lia|]. specialize (Hinc cur j ltac:(lia) ltac:(lia)). lia.
  - destruct (IH (cur + 1) last i1) as (r & i' & -> & ? & ? & ?); try done; [lia..| |by exists r, i'; split_and!; [| |congruence|]].
    apply Z.nlt_ge. intros Hc. specialize (Hgt cur ltac:(lia)). lia.
Qed.

(** [FindEntry] finds it. *)
Lemma FindEntry_entry pc j i :
  interface_ok i → exidx_entry_of pc j →
  ∃ i', FindEntry memory pc i = Ret (start + j * 8) i' ∧ interface_ok i' ∧ load_bias_ i' = load_bias_ i.
Proof using Hindex Hlimit Hreads.
  intros Hi Hj. unfold FindEntry, get, mbind, prog_bind. destruct Hi as (Hs & Ht & Hc) eqn:E'. rewrite Hs, Ht.
  destruct Hindex as (Hs0 & Hc0 & Hend & _). pose proof Hj as [Hjr _].
  rewrite (proj2 (Z.eqb_neq start 0)), (proj2 (Z.eqb_neq count 0)) by lia. cbn [orb].
  destruct (find_loop_entry find_fuel pc j 0 count i) as (r & i' & -> & Hi' & Hb & Hr); try done; [|lia..|].
  { change (Z.of_nat find_fuel - 1) with 64. lia. }
  exists i'. split; [|done]. destruct Hr as [-> | ->].
  - unfold mret, prog_ret. rewrite u64_small by lia. done.
  - rewrite (proj2 (Z.eqb_neq _ 0)) by lia. cbn [negb]. unfold mret, prog_ret. rewrite u64_small by lia. do 2 f_equal. lia.
Qed.
End index.

(** ** A step *)

(** The stack pointer of the frame is that of the callee, or a frame pointer. *)
Definition fp_ok (fp : option nat) : Prop := match fp with Some reg => (reg < 16)%nat ∧ reg ≠ ARM_REG_SP ∧ reg ≠ ARM_REG_PC | None => True end.
Definition fp_code (fp : option nat) : list Z := match fp with Some reg => [0x90 + Z.of_nat reg] | None => [] end.
Definition frame_base (fp : option nat) (r : Regs) : Z := get_reg r (default ARM_REG_SP fp).

Definition fp_dispatch (reg : Z) : bool :=
  let b := 0x90 + reg in
  (Z.shiftr b 6 =? 2) && (Z.land (Z.shiftr b 4) 3 =? 1) && (Z.shiftr b 4 =? 9) && (Z.land b 0xf =? reg).
Lemma fp_dispatch_ok reg : 0 ≤ reg < 16 → fp_dispatch reg = true.
Proof. apply (below_forall 16). vm_compute. reflexivity. Qed.

Section step.
Context {E P : Type} `{Memory E} `{Memory P} (memory : E) (process_memory : P) (limit : Z) (ce cp : Z → option Z).
Hypothesis Helf : Reads limit memory ce.
Hypothesis Hproc : Reads limit process_memory cp.
Hypothesis Hlimit : 4 ≤ limit.
Variable saved : nat → Z.
Hypothesis Hsaved : ∀ reg, 0 ≤ saved reg < 2 ^ 32.

Lemma Decode_fp reg data a :
  fp_ok (Some reg) → ae_data a = fp_code (Some reg) ++ data → ae_log_type a = ARM_LOG_NONE →
  ArmExidx_Decode process_memory a = Ret () (a <| ae_status := ARM_STATUS_NONE |> <| ae_data := data |> <| ae_cfa := get_reg (ae_regs a) reg |>).
Proof using Type.
  intros (Hr & H13 & H15) Hd Hlog. cbn [fp_code app] in Hd. rewrite (Decode_head _ _ _ _ Hd). clear Hd. unfold ARM_REG_SP, ARM_REG_PC in *.
  pose proof (fp_dispatch_ok (Z.of_nat reg) ltac:(lia)) as Hdis. unfold fp_dispatch in Hdis. cbv zeta in Hdis. set (byte := 0x90 + Z.of_nat reg) in *.
  apply andb_true_iff in Hdis as [Hdis E4]. apply andb_true_iff in Hdis as [Hdis E3]. apply andb_true_iff in Hdis as [E1 E2].
  apply Z.eqb_eq in E1, E2, E4. cbv zeta. rewrite E1.
  change (2 =? 0) with false. change (2 =? 1) with false. change (2 =? 2) with true. cbv iota.
  unfold DecodePrefix_10, DecodePrefix_10_01, CHECK, mbind, prog_bind, mret, prog_ret. rewrite E1, E2, E3, E4.
  rewrite (proj2 (Z.eqb_neq _ 13)), (proj2 (Z.eqb_neq _ 15)) by lia. cbn -[Z.of_nat Z.to_nat]. rewrite logging_none by done.
  unfold modify. cbn -[Z.of_nat Z.to_nat]. by rewrite Nat2Z.id.
Qed.

Lemma eval_entry fp acts a rest sp0 :
  fp_ok fp → Forall act_ok acts → ae_data a = fp_code fp ++ frame_code acts ++ ARM_OP_FINISH :: rest → ae_log_type a = ARM_LOG_NONE →
  ae_cfa a = get_reg (ae_regs a) ARM_REG_SP → 0 ≤ frame_base fp (ae_regs a) → sp0 < 2 ^ 32 → frame_at cp saved (frame_base fp (ae_regs a)) acts sp0 →
  ∃ a', ArmExidx_Eval process_memory a = Ret true a' ∧ ae_status a' = ARM_STATUS_FINISH ∧ ae_cfa a' = sp0 ∧
    ae_regs a' = restore saved (frame_regs acts) (ae_regs a) ∧ ae_pc_set a' = bool_decide (ARM_REG_PC ∈ frame_regs acts).
Proof using Hlimit Hproc Hsaved.
  intros Hfp Hok Hd Hlog Hcfa Ha Hsp Hf. unfold ArmExidx_Eval, modify, get, mbind, prog_bind. cbn [ae_data field_set].
  assert (length acts ≤ length (frame_code acts))%nat as Hlen.
  { clear. induction acts as [|act acts IH]; [done|]. unfold frame_code in *. cbn [fmap list_fmap concat length]. rewrite length_app.
    assert (1 ≤ length (act_code act))%nat by (destruct act; cbn; lia). lia. }
  destruct fp as [reg|].
  - set (fuel := length (ae_data a)). assert (length acts < fuel)%nat by (unfold fuel; rewrite Hd; cbn; rewrite length_app; cbn; lia). clearbody fuel.
    cbn [eval_loop]. rewrite (Decode_fp reg (frame_code acts ++ ARM_OP_FINISH :: rest)) by done.
    rewrite (eval_frame process_memory limit cp Hproc Hlimit saved Hsaved acts _ _ rest sp0) by done. by eexists.
  - rewrite (eval_frame process_memory limit cp Hproc Hlimit saved Hsaved acts _ _ rest sp0); try done; [|cbn; by rewrite Hcfa|by cbn; rewrite Hcfa|].
    + by eexists.
    + rewrite Hd. cbn. rewrite length_app. cbn. lia.
Qed.

(** The registers of the caller. *)
Definition caller_reg (acts : list Act) (r : Regs) (sp0 : Z) (k : nat) : Z :=
  let own k := if decide (k ∈ frame_regs acts) then saved k else get_reg r k in
  if decide (k = ARM_REG_SP) then sp0
  else if decide (k = ARM_REG_PC) then (if decide (ARM_REG_PC ∈ frame_regs acts) then saved ARM_REG_PC else own ARM_REG_LR)
  else own k.
Lemma exidx_caller_reg acts a r sp0 k :
  arm_regs r → (∀ k, 0 ≤ get_reg r k < 2 ^ 32) → Forall act_ok acts → 0 ≤ sp0 < 2 ^ 32 → ae_cfa a = sp0 →
  ae_regs a = restore saved (frame_regs acts) r → ae_pc_set a = bool_decide (ARM_REG_PC ∈ frame_regs acts) →
  get_reg (exidx_caller a) k = caller_reg acts r sp0 k.
Proof using Hsaved.
  intros Hr Hvals Hok Hsp0 Hcfa Hregs Hpc.
  assert (Forall (λ reg, (reg < 16)%nat) (frame_regs acts)) as Hbelow.
  { unfold frame_regs. clear -Hok. induction Hok; [done|]. cbn. apply Forall_app. split; [by apply act_regs_below|done]. }
  pose proof (λ k, restore_get saved _ r k Hr Hbelow Hsaved) as Hget. destruct (Hget O) as [Harm _].
  unfold exidx_caller, caller_reg. rewrite Hregs, Hpc, Hcfa. cbv zeta. rewrite get_put_reg; [|by destruct (bool_decide _); [|apply put_reg_arm]|unfold ARM_REG_SP; lia|done].
  destruct (decide (k = ARM_REG_SP)); [done|]. case_bool_decide as Hin.
  - rewrite (proj2 (Hget k)). destruct (decide (k = ARM_REG_PC)) as [->|]; [by rewrite !decide_True|done].
  - rewrite get_put_reg; [|done|unfold ARM_REG_PC; lia|].
    + destruct (decide (k = ARM_REG_PC)); [|by rewrite (proj2 (Hget k))]. by rewrite (decide_False (P := ARM_REG_PC ∈ _)), (proj2 (Hget _)).
    + rewrite (proj2 (Hget _)). case_decide; [apply Hsaved|apply Hvals].
Qed.

End step.

(** A function at 0x8000 pushed r4, r5, r11 and the link register and set r11 to
    the stack pointer: its entry is [vsp = r11; pop {r4, r5, r11, r14}]. *)
Definition example_elf : MemoryBuffer :=
  mkBuffer (repeat 0 8 ++ le_bytes 4 ((0x4000 - 8) mod 2 ^ 31) ++ [0xb0; 0xb0; 0xb0; 0x80] ++
    le_bytes 4 ((0x8000 - 16) mod 2 ^ 31) ++ [0x83; 0x84; 0x9b; 0x80]).
Definition example_saved (reg : nat) : Z := 0x1000 + Z.of_nat (Nat.min reg 16).
Definition example_stack : MemoryBuffer :=
  mkBuffer (repeat 0 16 ++ le_bytes 4 0x1004 ++ le_bytes 4 0x1005 ++ le_bytes 4 0x100b ++ le_bytes 4 0x100e).
Definition example_regs : Regs := mkRegs ARCH_ARM [0; 1; 2; 3; 4; 5; 6; 7; 8; 9; 10; 16; 12; 4; 14; 0x8010] 0 [0] 0.
Definition example_interface : ElfInterfaceArm := ElfInterfaceArm_new <| start_offset_ := 8 |> <| total_entries_ := 2 |>.


(** ** Evaluation ends *)

(** With no log, a program that only consumes opcodes; it fails with a status,
    and its faults are among [U]. *)
Definition tame {A} (U : fault → Prop) (p : prog ArmExidx A) : Prop := ∀ s, ae_log_type s = ARM_LOG_NONE →
  wp U p s (λ _ s', ae_log_type s' = ARM_LOG_NONE ∧ ae_data s' `suffix_of` ae_data s) (λ s', ae_status s' ≠ ARM_STATUS_NONE).

Section tame.
Context (U : fault → Prop).
Lemma tame_ret {A} (v : A) : tame U (mret v).
Proof. by intros s Hs. Qed.
Lemma tame_bind {A B} (p : prog ArmExidx A) (k : A → prog ArmExidx B) : tame U p → (∀ v, tame U (k v)) → tame U (p ≫= k).
Proof.
  intros Hp Hk s Hs. apply wp_bind. eapply wp_mono; [by apply Hp| |done]. intros v s1 [Hl Hd]. cbn beta.
  eapply wp_mono; [by apply Hk| |done]. intros v' s2 [Hl2 Hd2]. split; [done|]. by etrans.
Qed.
Lemma tame_stop {A} status : status ≠ ARM_STATUS_NONE → tame (A := A) U (stop status).
Proof. by intros Hst s Hs. Qed.
Lemma tame_modify f :
  (∀ s, ae_log_type (f s) = ae_log_type s ∧ ae_data (f s) = ae_data s) → tame U (modify f).
Proof. intros Hf s Hs. destruct (Hf s) as [H1 H2]. unfold wp, modify. by rewrite H1, H2. Qed.
Lemma tame_CHECK : tame U (CHECK true).
Proof. by intros s Hs. Qed.
Lemma tame_GetByte : tame U GetByte.
Proof. intros s Hs. unfold wp, GetByte. destruct (ae_data s) as [|b l] eqn:E; [done|]. split; [done|]. by exists [b]. Qed.
Lemma tame_logging x y e : tame U e → tame U (logging x y e).
Proof. intros He s Hs. unfold wp. rewrite logging_none by done. by apply He. Qed.
Lemma tame_read_reg {P} `{Memory P} (m : P) reg : tame U (read_reg m reg).
Proof. intros s Hs. unfold wp, read_reg. by destruct (_ =? 4). Qed.
Lemma tame_shift value shift : U BadShift → tame U (shift_int value shift).
Proof. intros HU s Hs. unfold shift_int. by destruct (_ && _). Qed.
Lemma tame_uleb fuel : ∀ result shift,
  U BadShift → (1 ≤ fuel)%nat → 0 ≤ shift < 100 → 32 ≤ shift + 7 * (Z.of_nat fuel - 1) → tame U (uleb_loop fuel result shift).
Proof.
  induction fuel as [|fuel IH]; intros result shift HU Hf Hs Hb; [lia|]. cbn [uleb_loop]. apply tame_bind; [apply tame_GetByte|intros byte].
  destruct (Z.ltb_spec shift 32) as [Hlt|Hge].
  - apply tame_bind; [by apply tame_shift|intros v]. cbv zeta. destruct (_ =? 0); [apply tame_ret|]. apply IH; [done|lia|..].
    all: unfold u32, wrap; rewrite Z.mod_small by lia; lia.
  - intros s Hl. unfold shift_int. rewrite (proj2 (Z.ltb_ge _ _)) by done. done.
Qed.
End tame.

Create HintDb tame discriminated.
#[export] Hint Resolve tame_ret tame_stop tame_CHECK tame_GetByte tame_read_reg tame_shift : tame.
Ltac tame_step :=
  lazymatch goal with
  | |- ∀ _, tame _ _ => intros ?
  | |- tame _ (_ ≫= _) => apply tame_bind; [|intros ?]
  | |- tame _ (logging _ _ _) => apply tame_logging
  | |- tame _ (modify _) => apply tame_modify; done
  | |- tame _ (stop _) => apply tame_stop; done
  | |- tame _ (if ?b then _ else _) => destruct b
  | |- tame _ _ => solve [auto 1 with tame]
  end.
Ltac tame_steps := repeat (tame_step; cbv zeta beta).

Lemma tame_pop_regs {P} `{Memory P} U (m : P) regs : tame U (pop_regs m regs).
Proof. induction regs as [|reg regs IH]; cbn [pop_regs]; unfold advance_cfa; tame_steps; done. Qed.
#[export] Hint Resolve tame_pop_regs : tame.

(** The condition of every [CHECK] holds where [ArmExidx_Decode] gets to it, and the
    opcode with a ULEB128 number is 0xb2. *)
Definition byte_dispatch (b : Z) : bool :=
  let lo := Z.land b 0xf in
  if Z.shiftr b 6 =? 0 then true
  else if Z.shiftr b 6 =? 1 then true
  else if Z.shiftr b 6 =? 2 then
    if Z.land (Z.shiftr b 4) 3 =? 0 then Z.shiftr b 4 =? 0x8
    else if Z.land (Z.shiftr b 4) 3 =? 1 then Z.shiftr b 4 =? 0x9
    else if Z.land (Z.shiftr b 4) 3 =? 2 then Z.shiftr b 4 =? 0xa
    else if lo =? 2 then b =? 0xb2
    else if negb (Z.land b 0x8 =? 0) then Z.land b (Z.lnot 0x07) =? 0xb8 else true
  else (Z.shiftr b 6 =? 3) &&
    if Z.land (Z.shiftr b 3) 7 =? 0 then Z.land b (Z.lnot 0x07) =? 0xc0
    else if Z.land (Z.shiftr b 3) 7 =? 1 then Z.land b (Z.lnot 0x07) =? 0xc8
    else if Z.land (Z.shiftr b 3) 7 =? 2 then Z.land b (Z.lnot 0x07) =? 0xd0 else true.
Lemma byte_dispatch_ok b : is_byte b → byte_dispatch b = true.
Proof. apply (below_forall 256). vm_compute. reflexivity. Qed.

Section ends.
Context {P : Type} `{Memory P} (process_memory : P).

Lemma tame_10 U b : (b = 0xb2 → U BadShift) → is_byte b → (Z.shiftr b 6 =? 2) = true → tame U (DecodePrefix_10 process_memory b).
Proof using Type.
  intros HU Hb E6. pose proof (byte_dispatch_ok b Hb) as Hd. unfold byte_dispatch in Hd. cbv zeta in Hd.
  apply Z.eqb_eq in E6 as E6'. rewrite E6' in Hd. change (2 =? 0) with false in Hd. change (2 =? 1) with false in Hd. change (2 =? 2) with true in Hd.
  unfold DecodePrefix_10. rewrite E6. apply tame_bind; [apply tame_CHECK|intros _]. cbv zeta. cbv iota in Hd.
  destruct (Z.land (Z.shiftr b 4) 3 =? 0); [unfold DecodePrefix_10_00; rewrite Hd; unfold advance_cfa; by tame_steps|].
  destruct (Z.land (Z.shiftr b 4) 3 =? 1); [unfold DecodePrefix_10_01; rewrite Hd; by tame_steps|].
  destruct (Z.land (Z.shiftr b 4) 3 =? 2); [unfold DecodePrefix_10_10; rewrite Hd; by tame_steps|].
  destruct (Z.land b 0xf =? 0); [by apply tame_stop|]. destruct (Z.land b 0xf =? 1); [unfold DecodePrefix_10_11_0001; by tame_steps|].
  destruct (Z.land b 0xf =? 2).
  - unfold DecodePrefix_10_11_0010, advance_cfa. apply Z.eqb_eq in Hd. apply tame_bind; [|by tame_steps].
    apply tame_uleb; [by apply HU|unfold uleb_fuel; lia|lia|]. change (Z.of_nat uleb_fuel) with 6. lia.
  - destruct (Z.land b 0xf =? 3); [unfold DecodePrefix_10_11_0011, advance_cfa; by tame_steps|].
    destruct (negb _); [|by apply tame_stop]. unfold DecodePrefix_10_11_1nnn, advance_cfa. rewrite Hd. by tame_steps.
Qed.

Lemma tame_11 U b : is_byte b → (Z.shiftr b 6 =? 0) = false → (Z.shiftr b 6 =? 1) = false → (Z.shiftr b 6 =? 2) = false → tame U (DecodePrefix_11 b).
Proof using Type.
  intros Hb E0 E1 E2. pose proof (byte_dispatch_ok b Hb) as Hd. unfold byte_dispatch in Hd. rewrite E0, E1, E2 in Hd.
  apply andb_true_iff in Hd as [E3 Hd]. unfold DecodePrefix_11. rewrite E3. apply tame_bind; [apply tame_CHECK|intros _]. cbv zeta.
  destruct (Z.land (Z.shiftr b 3) 7 =? 0); [unfold DecodePrefix_11_000, advance_cfa; rewrite Hd; by tame_steps|].
  destruct (Z.land (Z.shiftr b 3) 7 =? 1); [unfold DecodePrefix_11_001, advance_cfa; rewrite Hd; by tame_steps|].
  destruct (Z.land (Z.shiftr b 3) 7 =? 2); [unfold DecodePrefix_11_010, advance_cfa; rewrite Hd; by tame_steps|].
  by apply tame_stop.
Qed.

(** [ArmExidx_Decode] consumes an opcode, or stops with a status. *)
Lemma Decode_consumes U s :
  (0xb2 ∈ ae_data s → U BadShift) → Forall is_byte (ae_data s) → ae_log_type s = ARM_LOG_NONE →
  wp U (ArmExidx_Decode process_memory) s
    (λ _ s', ae_log_type s' = ARM_LOG_NONE ∧ ae_data s' `suffix_of` ae_data s ∧ (length (ae_data s') < length (ae_data s))%nat)
    (λ s', ae_status s' ≠ ARM_STATUS_NONE).
Proof using Type.
  intros HU Hb Hs. destruct (ae_data s) as [|b l] eqn:Ed.
  { unfold wp, ArmExidx_Decode, modify, mbind, prog_bind, GetByte. cbn [ae_data field_set]. by rewrite Ed. }
  apply Forall_cons in Hb as [Hb _]. unfold wp. rewrite (Decode_head process_memory b l s Ed). cbv zeta.
  set (s1 := s <| ae_status := _ |> <| ae_data := _ |>). set (p := if _ =? 0 then _ else _).
  assert (tame U p) as Hp.
  { unfold p, advance_cfa. destruct (Z.shiftr b 6 =? 0) eqn:E0; [by tame_steps|]. destruct (Z.shiftr b 6 =? 1) eqn:E1; [by tame_steps|].
    destruct (Z.shiftr b 6 =? 2) eqn:E2; [|by apply tame_11]. apply tame_10; [|done|done]. intros ->. apply HU. by left. }
  specialize (Hp s1 Hs). unfold wp in Hp. destruct (p s1) as [v s'| |]; [|done|done]. destruct Hp as [Hl Hd]. cbn [s1 ae_data field_set] in Hd.
  split; [done|]. split; [by apply suffix_cons_r|]. apply suffix_length in Hd. cbn. lia.
Qed.

Lemma eval_loop_ends U fuel : ∀ s,
  (0xb2 ∈ ae_data s → U BadShift) → Forall is_byte (ae_data s) → ae_log_type s = ARM_LOG_NONE → (length (ae_data s) < fuel)%nat →
  wp U (eval_loop process_memory fuel) s (λ _ s', ae_status s' ≠ ARM_STATUS_NONE) (λ _, False).
Proof using Type.
  induction fuel as [|fuel IH]; intros s HU Hb Hs Hf; [lia|]. pose proof (Decode_consumes U s HU Hb Hs) as Hd.
  unfold wp in *. cbn [eval_loop]. destruct (ArmExidx_Decode process_memory s) as [[] s'| |]; [|done|done]. destruct Hd as (Hl & Hd & Hlt).
  apply IH; [| |done|lia].
  - intros Hin. apply HU. destruct Hd as [k ->]. apply elem_of_app. by right.
  - destruct Hd as [k Ek]. rewrite Ek in Hb. by apply Forall_app in Hb as [_ Hb].
Qed.

(** Evaluating the opcodes of an entry always ends. Whatever the bytes are
    and whatever the memory of the process answers, [Eval] returns, with a status
    that says why it stopped, and it returns true just when a finish opcode did:
    every check it makes on its opcodes holds, and each turn consumes one. The
    only undefined operation it can meet is a left shift that does not fit, and
    then the opcodes hold 0xb2, whose operand is a ULEB128 number of no bounded
    length. *)
Theorem exidx_eval_ends s :
  Forall is_byte (ae_data s) → ae_log_type s = ARM_LOG_NONE →
  match ArmExidx_Eval process_memory s with
  | Ret ok s' => ae_status s' ≠ ARM_STATUS_NONE ∧ ok = bool_decide (ae_status s' = ARM_STATUS_FINISH)
  | Err _ => False
  | Fault f => f = BadShift ∧ 0xb2 ∈ ae_data s
  end.
Proof using Type.
  intros Hb Hs. unfold ArmExidx_Eval, modify, get, mbind, prog_bind. cbn [ae_data field_set].
  pose proof (eval_loop_ends (λ f, f = BadShift ∧ 0xb2 ∈ ae_data s) (S (length (ae_data s))) (s <| ae_pc_set := false |>)) as He.
  unfold wp in He. destruct (eval_loop _ _ _) as [[] s'| |].
  - split; [|done]. by apply He; cbn; try lia.
  - by apply He; cbn; try lia.
  - by apply He; cbn; try lia.
Qed.
End ends.

(** Such a number: five bytes that continue shift the sixth by 35. *)
Lemma exidx_eval_ends_witness :
  let s := (ArmExidx_new example_regs) <| ae_data := [0xb2; 0x80; 0x80; 0x80; 0x80; 0x80; 0x01; 0xb0] |> in
  ArmExidx_Eval example_stack s = Fault BadShift ∧ 0xb2 ∈ ae_data s.
Proof.
  intros s. pose proof (exidx_eval_ends example_stack s ltac:(repeat constructor; unfold is_byte; lia) eq_refl) as Ht.
  assert (ArmExidx_Eval example_stack s = Fault BadShift) as E by (vm_compute; reflexivity).
  rewrite E in Ht. split; [exact E|apply Ht].
Defined.
