(* ===== verification/DwarfSection.v ===== *)
(** * Frame sections

    unwindstack/DwarfSection.cpp and .h, DwarfEhFrame.h, DwarfDebugFrame.h,
    DwarfEhFrameWithHdr.cpp and .h: the entries of [.eh_frame] and
    [.debug_frame], the index that finds the entry of a program counter, the
    binary search of [.eh_frame_hdr], and the step from a frame to its caller.
    Pointers to cached entries are the entries themselves: an entry is never
    changed once it is in its cache. *)
From stdpp Require Import sorting.
From S2P Require Import Prelude UnwindMemory Outcome DwarfMemory DwarfOp DwarfCfa UnwindRegs.

(** The three classes derived from [DwarfSectionImpl]. *)
Inductive section_kind := EhFrame | DebugFrame | EhFrameWithHdr.
#[global] Instance section_kind_eq_dec : EqDecision section_kind.
Proof. solve_decision. Defined.

(** The members [DwarfEhFrameWithHdr] adds. *)
Record HdrTable := mkHdr {
  version_ : Z; table_encoding_ : Z; table_entry_size_ : Z; hdr_entries_offset_ : Z; hdr_entries_data_offset_ : Z;
  hdr_section_bias_ : Z; fde_count_ : Z; fde_info_ : gmap Z (Z * Z) }.
#[global] Instance HdrTable_updatable : Updatable HdrTable := λ h,
  mkHdr (version_ h) (table_encoding_ h) (table_entry_size_ h) (hdr_entries_offset_ h) (hdr_entries_data_offset_ h)
    (hdr_section_bias_ h) (fde_count_ h) (fde_info_ h).
Definition HdrTable_new : HdrTable := mkHdr 0 0 0 0 0 0 0 ∅.

Record DwarfSection := mkSection {
  sec_memory : DwarfMemory; sec_error : DwarfErrorData; fde_entries_ : gmap Z DwarfFde; cie_entries_ : gmap Z DwarfCie;
  cie_loc_regs : gmap Z DwarfLocations; row_cache : gmap Z DwarfLocations; section_bias_ : Z; entries_offset_ : Z;
  entries_end_ : Z; sec_pc_offset : Z; fde_index_ : list (Z * Z); sec_hdr : HdrTable }.
#[global] Instance DwarfSection_updatable : Updatable DwarfSection := λ s,
  mkSection (sec_memory s) (sec_error s) (fde_entries_ s) (cie_entries_ s) (cie_loc_regs s) (row_cache s)
    (section_bias_ s) (entries_offset_ s) (entries_end_ s) (sec_pc_offset s) (fde_index_ s) (sec_hdr s).
Definition DwarfSection_new : DwarfSection :=
  mkSection DwarfMemory_new (mkError DWARF_ERROR_NONE 0) ∅ ∅ ∅ ∅ 0 0 0 0 [] HdrTable_new.

Definition sec_code (c : DwarfErrorCode) (s : DwarfSection) : DwarfSection :=
  s <| sec_error := mkError c (address (sec_error s)) |>.
Definition sec_fail {A} (c : DwarfErrorCode) : prog DwarfSection A := λ s, Err (sec_code c s).
Definition with_memory {A} (m : prog DwarfMemory A) : prog DwarfSection A :=
  zoom sec_memory (λ d s, s <| sec_memory := d |>) m.
Definition memory_invalid (s : DwarfSection) : DwarfSection :=
  s <| sec_error := mkError DWARF_ERROR_MEMORY_INVALID (cur_offset_ (sec_memory s)) |>.
Definition sec_reading {A} (m : prog DwarfMemory A) : prog DwarfSection A := on_error (with_memory m) memory_invalid.
Definition set_memory (f : DwarfMemory → DwarfMemory) : prog DwarfSection unit := with_memory (modify f).
(** [nullptr] as a value *)
Definition attempt {S A} (m : prog S A) : prog S (option A) := λ s,
  match m s with Ret a s => Ret (Some a) s | Err s => Ret None s | Fault f => Fault f end.

(** ** The index *)

(** The loop of [InsertFde] from the iterator [it] on. *)
Fixpoint insert_loop (fuel : nat) (start end_ fde_offset : Z) (it : option (Z * (Z * Z))) (fdes : gmap Z (Z * Z))
  : gmap Z (Z * Z) :=
  let finish := if start <? end_ then <[end_ := (start, fde_offset)]> fdes else fdes in
  match fuel, it with
  | S fuel, Some (it_end, (it_start, _)) =>
      if (start <? end_) && (it_start <? end_) then
        let fdes := if start <? it_start then <[it_start := (start, fde_offset)]> fdes else fdes in
        insert_loop fuel it_end end_ fde_offset (least_above it_end fdes) fdes
      else finish
  | _, _ => finish
  end.
Definition InsertFde (fde_offset : Z) (fde : DwarfFde) (fdes : gmap Z (Z * Z)) : gmap Z (Z * Z) :=
  insert_loop (S (size fdes)) (pc_start fde) (pc_end fde) fde_offset (least_above (pc_start fde) fdes) fdes.

Definition key_le (a b : Z * (Z * Z)) : Prop := a.1 ≤ b.1.
#[global] Instance key_le_dec a b : Decision (key_le a b).
Proof. unfold key_le. apply _. Defined.
(** The copy of the map into the vector, in the order of its keys. *)
Definition index_of (fdes : gmap Z (Z * Z)) : list (Z * Z) :=
  map (λ '(end_, (_, offset)), (end_, offset)) (merge_sort key_le (map_to_list fdes)).
Definition index_upper_bound (pc : Z) (index : list (Z * Z)) : option Z :=
  (λ '(_, (_, offset)), offset) <$> list_find (λ '(end_, _), pc < end_) index.

Definition IsEncodingRelative (encoding : Z) : bool :=
  let encoding := Z.shiftr encoding 4 in (encoding >? 0) && (encoding <=? DW_EH_PE_funcrel).

Section sections.
Context (AT : AddressType) {M : Type} `{Memory M} (memory_ : M) (kind : section_kind).
(** A bound on the bytes of an augmentation string and on the entries of the
    section, which the code reads until it finds the last one. *)
Variable fuel : nat.

Definition cie32_value_ : Z := if bool_decide (kind = DebugFrame) then 2 ^ 32 - 1 else 0.
Definition cie64_value_ : Z := if bool_decide (kind = DebugFrame) then 2 ^ 64 - 1 else 0.

(** Both take the state for the cursor. *)
Definition GetCieOffsetFromFde32 (pointer : Z) (s : DwarfSection) : Z :=
  if bool_decide (kind = DebugFrame) then entries_offset_ s ⊞ pointer
  else cur_offset_ (sec_memory s) ⊟ pointer ⊟ 4.
Definition GetCieOffsetFromFde64 (pointer : Z) (s : DwarfSection) : Z :=
  if bool_decide (kind = DebugFrame) then entries_offset_ s ⊞ pointer
  else cur_offset_ (sec_memory s) ⊟ pointer ⊟ 8.
Definition AdjustPcFromFde (pc : Z) (s : DwarfSection) : Z :=
  if bool_decide (kind = DebugFrame) then pc else pc ⊞ cur_offset_ (sec_memory s) ⊟ 4.

Definition Section_Init (offset size section_bias : Z) : prog DwarfSection unit :=
  modify (λ s, s <| section_bias_ := section_bias |> <| entries_offset_ := offset |>
    <| entries_end_ := offset ⊞ size |>
    <| sec_memory := set_cur_offset offset (clear_text_offset (clear_func_offset (sec_memory s))) |>
    <| sec_pc_offset := offset |>).

(** ** Common entries *)

Definition FillInCieHeader (cie : DwarfCie) : prog DwarfSection DwarfCie :=
  let cie := cie <| lsda_encoding := DW_EH_PE_omit |> in
  length32 ← sec_reading (ReadUnsigned memory_ 4);
  if length32 =? 2 ^ 32 - 1 then
    length64 ← sec_reading (ReadUnsigned memory_ 8);
    s ← get;
    let cie := cie <| cie_cfa_instructions_end := cur_offset_ (sec_memory s) ⊞ length64 |>
                   <| fde_address_encoding := DW_EH_PE_sdata8 |> in
    cie_id ← sec_reading (ReadUnsigned memory_ 8);
    if negb (cie_id =? cie64_value_) then sec_fail DWARF_ERROR_ILLEGAL_VALUE else mret cie
  else
    s ← get;
    let cie := cie <| cie_cfa_instructions_end := cur_offset_ (sec_memory s) ⊞ length32 |>
                   <| fde_address_encoding := DW_EH_PE_sdata4 |> in
    cie_id ← sec_reading (ReadUnsigned memory_ 4);
    if negb (cie_id =? cie32_value_) then sec_fail DWARF_ERROR_ILLEGAL_VALUE else mret cie.

(** The string is pushed byte by byte, its terminator included. *)
Fixpoint read_augmentation (fuel : nat) (augmentation : list Z) : prog DwarfSection (list Z) :=
  match fuel with
  | O => undef NoFuel
  | S fuel =>
      aug_value ← sec_reading (ReadUnsigned memory_ 1);
      let augmentation := augmentation ++ [aug_value] in
      if aug_value =? 0 then mret augmentation else read_augmentation fuel augmentation
  end.

(** The data of the letters after the ['z']. *)
Fixpoint read_augmentation_data (letters : list Z) (cie : DwarfCie) : prog DwarfSection DwarfCie :=
  match letters with
  | [] => mret cie
  | letter :: letters =>
      cie ←
        (if letter =? 76 then (* L *)
           lsda ← sec_reading (ReadUnsigned memory_ 1); mret (cie <| lsda_encoding := lsda |>)
         else if letter =? 80 then (* P *)
           encoding ← sec_reading (ReadUnsigned memory_ 1);
           s ← get; set_memory (set_pc_offset (sec_pc_offset s));;
           handler ← sec_reading (ReadEncodedValue memory_ AT encoding);
           mret (cie <| personality_handler := handler |>)
         else if letter =? 82 then (* R *)
           encoding ← sec_reading (ReadUnsigned memory_ 1); mret (cie <| fde_address_encoding := encoding |>)
         else if letter =? 83 then (* S *) mret (cie <| is_signal_frame := true |>)
         else mret cie);
      read_augmentation_data letters cie
  end.

Definition FillInCie (cie : DwarfCie) : prog DwarfSection DwarfCie :=
  v ← sec_reading (ReadUnsigned memory_ 1);
  let cie := cie <| version := v |> in
  if negb ((v =? 1) || (v =? 3) || (v =? 4) || (v =? 5)) then sec_fail DWARF_ERROR_UNSUPPORTED_VERSION
  else
    augmentation ← read_augmentation fuel (augmentation_string cie);
    let cie := cie <| augmentation_string := augmentation |> in
    cie ←
      (if (v =? 4) || (v =? 5) then
         set_memory (λ d, set_cur_offset (cur_offset_ d ⊞ 1) d);;
         segment ← sec_reading (ReadUnsigned memory_ 1); mret (cie <| segment_size := segment |>)
       else mret cie);
    code_factor ← sec_reading (ReadULEB128 memory_);
    data_factor ← sec_reading (ReadSLEB128 memory_);
    return_register ← sec_reading (if v =? 1 then ReadUnsigned memory_ 1 else ReadULEB128 memory_);
    let cie := cie <| code_alignment_factor := code_factor |> <| data_alignment_factor := data_factor |>
                   <| return_address_register := return_register |> in
    match augmentation with
    | 122 :: letters => (* z *)
        aug_length ← sec_reading (ReadULEB128 memory_);
        s ← get;
        read_augmentation_data letters
          (cie <| cie_cfa_instructions_offset := cur_offset_ (sec_memory s) ⊞ aug_length |>)
    | _ => s ← get; mret (cie <| cie_cfa_instructions_offset := cur_offset_ (sec_memory s) |>)
    end.

Definition seek_entry (offset : Z) : prog DwarfSection unit :=
  s ← get; set_memory (λ d, set_cur_offset offset (set_data_offset (entries_offset_ s) d)).

Definition GetCieFromOffset (offset : Z) : prog DwarfSection DwarfCie :=
  s ← get;
  match cie_entries_ s !! offset with
  | Some cie => mret cie
  | None =>
      seek_entry offset;;
      cie ← FillInCieHeader DwarfCie_new;
      cie ← FillInCie cie;
      modify (λ s, s <| cie_entries_ := <[offset := cie]> (cie_entries_ s) |>);; mret cie
  end.

(** ** Function entries *)

Definition FillInFdeHeader (fde : DwarfFde) : prog DwarfSection DwarfFde :=
  length32 ← sec_reading (ReadUnsigned memory_ 4);
  if length32 =? 2 ^ 32 - 1 then
    length64 ← sec_reading (ReadUnsigned memory_ 8);
    s ← get;
    let fde := fde <| cfa_instructions_end := cur_offset_ (sec_memory s) ⊞ length64 |> in
    value64 ← sec_reading (ReadUnsigned memory_ 8);
    if value64 =? cie64_value_ then sec_fail DWARF_ERROR_ILLEGAL_VALUE
    else s ← get; mret (fde <| cie_offset := GetCieOffsetFromFde64 value64 s |>)
  else
    s ← get;
    let fde := fde <| cfa_instructions_end := cur_offset_ (sec_memory s) ⊞ length32 |> in
    value32 ← sec_reading (ReadUnsigned memory_ 4);
    if value32 =? cie32_value_ then sec_fail DWARF_ERROR_ILLEGAL_VALUE
    else s ← get; mret (fde <| cie_offset := GetCieOffsetFromFde32 value32 s |>).

Definition FillInFde (fde : DwarfFde) : prog DwarfSection DwarfFde :=
  s ← get;
  let cur_offset := cur_offset_ (sec_memory s) in
  cie ← GetCieFromOffset (cie_offset fde);
  set_memory (set_cur_offset (cur_offset ⊞ segment_size cie));;
  s ← get;
  set_memory (set_pc_offset (section_bias_ s));;
  start ← on_error (with_memory (ReadEncodedValue memory_ AT (fde_address_encoding cie)))
            (λ s, memory_invalid (s <| sec_memory := set_pc_offset 0 (sec_memory s) |>));
  s ← get;
  let start := AdjustPcFromFde start s in
  set_memory (set_pc_offset 0);;
  length ← sec_reading (ReadEncodedValue memory_ AT (fde_address_encoding cie));
  let fde := fde <| DwarfCfa.cie := Some cie |> <| pc_start := start |> <| pc_end := length ⊞ start |> in
  fde ←
    match augmentation_string cie with
    | 122 :: _ =>
        aug_length ← sec_reading (ReadULEB128 memory_);
        s ← get;
        set_memory (set_pc_offset (sec_pc_offset s));;
        lsda ← sec_reading (ReadEncodedValue memory_ AT (lsda_encoding cie));
        set_memory (set_cur_offset (cur_offset_ (sec_memory s) ⊞ aug_length));;
        mret (fde <| lsda_address := lsda |>)
    | _ => mret fde
    end;
  s ← get; mret (fde <| cfa_instructions_offset := cur_offset_ (sec_memory s) |>).

Definition GetFdeFromOffset (offset : Z) : prog DwarfSection DwarfFde :=
  s ← get;
  match fde_entries_ s !! offset with
  | Some fde => mret fde
  | None =>
      seek_entry offset;;
      fde ← FillInFdeHeader DwarfFde_new;
      fde ← FillInFde fde;
      modify (λ s, s <| fde_entries_ := <[offset := fde]> (fde_entries_ s) |>);; mret fde
  end.

(** ** Entries in the order of the section *)

(** The entry at an offset and the offset of the next one; no entry for a CIE.
    A failure ends the scan, so the offset it leaves is not kept. *)
Definition GetNextCieOrFde (start_offset : Z) : prog DwarfSection (Z * option DwarfFde) :=
  seek_entry start_offset;;
  value32 ← sec_reading (ReadUnsigned memory_ 4);
  '(next, encoding_or_cie) ←
    (if value32 =? 2 ^ 32 - 1 then
       value64 ← sec_reading (ReadUnsigned memory_ 8);
       s ← get;
       let next := cur_offset_ (sec_memory s) ⊞ value64 in
       value64 ← sec_reading (ReadUnsigned memory_ 8);
       s ← get;
       mret (next, if value64 =? cie64_value_ then inl DW_EH_PE_sdata8 else inr (GetCieOffsetFromFde64 value64 s))
     else
       s ← get;
       let next := cur_offset_ (sec_memory s) ⊞ value32 in
       value32 ← sec_reading (ReadUnsigned memory_ 4);
       s ← get;
       mret (next, if value32 =? cie32_value_ then inl DW_EH_PE_sdata4 else inr (GetCieOffsetFromFde32 value32 s)));
  match encoding_or_cie with
  | inl cie_fde_encoding =>
      s ← get;
      match cie_entries_ s !! start_offset with
      | Some _ => mret (next, None)
      | None =>
          cie ← FillInCie (DwarfCie_new <| lsda_encoding := DW_EH_PE_omit |> <| cie_cfa_instructions_end := next |>
                             <| fde_address_encoding := cie_fde_encoding |>);
          modify (λ s, s <| cie_entries_ := <[start_offset := cie]> (cie_entries_ s) |>);; mret (next, None)
      end
  | inr cie_offset_ =>
      fde ← FillInFde (DwarfFde_new <| cfa_instructions_end := next |> <| cie_offset := cie_offset_ |>);
      mret (next, Some fde)
  end.

Fixpoint scan_entries (fuel : nat) (offset : Z) (fdes : gmap Z (Z * Z)) : prog DwarfSection (gmap Z (Z * Z)) :=
  match fuel with
  | O => undef NoFuel
  | S fuel =>
      s ← get;
      if negb (offset <? entries_end_ s) then mret fdes
      else
        entry ← attempt (GetNextCieOrFde offset);
        match entry with
        | None => mret fdes
        | Some (next, fde) =>
            let fdes := match fde with Some fde => InsertFde offset fde fdes | None => fdes end in
            s ← get;
            if next <? cur_offset_ (sec_memory s) then mret fdes else scan_entries fuel next fdes
        end
  end.
Definition BuildFdeIndex : prog DwarfSection unit :=
  s ← get;
  fdes ← scan_entries fuel (entries_offset_ s) ∅;
  modify (λ s, s <| fde_index_ := fde_index_ s ++ index_of fdes |>).
Definition ensure_index : prog DwarfSection unit :=
  s ← get; match fde_index_ s with [] => BuildFdeIndex | _ => mret () end.

(** [DwarfSectionImpl::GetFdeFromPc] and [GetFdes]; failure is [nullptr]. *)
Definition Impl_GetFdeFromPc (pc : Z) : prog DwarfSection DwarfFde :=
  ensure_index;;
  s ← get;
  match index_upper_bound pc (fde_index_ s) with
  | None => fail
  | Some fde_offset => fde ← GetFdeFromOffset fde_offset; if pc_start fde <=? pc then mret fde else fail
  end.

Fixpoint load_fdes (offsets : list Z) : prog DwarfSection (list (option DwarfFde)) :=
  match offsets with
  | [] => mret []
  | offset :: offsets => fde ← attempt (GetFdeFromOffset offset); fdes ← load_fdes offsets; mret (fde :: fdes)
  end.
Definition Impl_GetFdes : prog DwarfSection (list (option DwarfFde)) :=
  ensure_index;; s ← get; load_fdes (snd <$> fde_index_ s).

(** ** The header's table *)

Definition modify_hdr (f : HdrTable → HdrTable) : prog DwarfSection unit := modify (λ s, s <| sec_hdr := f (sec_hdr s) |>).

(** The size of the section is not used. *)
Definition Hdr_Init (offset section_bias : Z) : prog DwarfSection unit :=
  set_memory (λ d, set_cur_offset offset (set_data_offset offset (clear_text_offset (clear_func_offset d))));;
  modify_hdr (λ h, h <| hdr_section_bias_ := u64 section_bias |>);;
  data ← sec_reading (ReadBytes memory_ 4);
  modify_hdr (λ h, h <| version_ := nth 0 data 0 |>);;
  if negb (nth 0 data 0 =? 1) then sec_fail DWARF_ERROR_UNSUPPORTED_VERSION
  else
    let ptr_encoding := nth 1 data 0 in
    let fde_count_encoding := nth 2 data 0 in
    let table_encoding := nth 3 data 0 in
    let entry_size := GetEncodedSize AT table_encoding in
    modify_hdr (λ h, h <| table_encoding_ := table_encoding |> <| table_entry_size_ := entry_size |>);;
    if entry_size =? 0 then sec_fail DWARF_ERROR_ILLEGAL_VALUE
    else
      set_memory (λ d, set_pc_offset (cur_offset_ d) d);;
      sec_reading (ReadEncodedValue memory_ AT ptr_encoding);;
      set_memory (λ d, set_pc_offset (cur_offset_ d) d);;
      count ← sec_reading (ReadEncodedValue memory_ AT fde_count_encoding);
      modify_hdr (λ h, h <| fde_count_ := count |>);;
      if count =? 0 then sec_fail DWARF_ERROR_NO_FDES
      else
        modify (λ s, s <| sec_hdr := (sec_hdr s) <| hdr_entries_offset_ := cur_offset_ (sec_memory s) |>
                                       <| hdr_entries_data_offset_ := offset |> |>).

(** An entry: its program counter, at the width of an address, and the offset
    of its FDE. *)
Definition GetFdeInfoFromIndex (index : Z) : prog DwarfSection (Z * Z) :=
  s ← get;
  let h := sec_hdr s in
  match fde_info_ h !! index with
  | Some info => mret info
  | None =>
      set_memory (λ d, set_pc_offset 0
        (set_cur_offset (hdr_entries_offset_ h ⊞ (2 * index * table_entry_size_ h)) (set_data_offset (hdr_entries_data_offset_ h) d)));;
      value ← sec_reading (ReadEncodedValue memory_ AT (table_encoding_ h));
      offset ← sec_reading (ReadEncodedValue memory_ AT (table_encoding_ h));
      let value := if IsEncodingRelative (table_encoding_ h) then value ⊞ hdr_section_bias_ h else value in
      let info := (to_address AT value, offset) in
      modify_hdr (λ h, h <| fde_info_ := <[index := info]> (fde_info_ h) |>);; mret info
  end.

(** The search halves an interval of at most [2^64] entries. *)
Fixpoint search_loop (fuel : nat) (pc first last : Z) : prog DwarfSection Z :=
  if first <? last then
    match fuel with
    | O => undef NoFuel
    | S fuel =>
        let current := (first ⊞ last) / 2 in
        '(info_pc, info_offset) ← GetFdeInfoFromIndex current;
        if pc =? info_pc then mret info_offset
        else if pc <? info_pc then search_loop fuel pc first current
        else search_loop fuel pc (current ⊞ 1) last
    end
  else if negb (last =? 0) then '(_, info_offset) ← GetFdeInfoFromIndex (last - 1); mret info_offset
  else fail.
Definition search_fuel : nat := 64.
Definition GetFdeOffsetFromPc (pc : Z) : prog DwarfSection Z :=
  s ← get;
  let count := fde_count_ (sec_hdr s) in
  if count =? 0 then fail else search_loop search_fuel pc 0 count.

Definition Hdr_GetFdeFromPc (pc : Z) : prog DwarfSection DwarfFde :=
  fde_offset ← GetFdeOffsetFromPc pc;
  fde ← GetFdeFromOffset fde_offset;
  fde ← (if pc_start fde =? pc_end fde then Impl_GetFdeFromPc pc else mret fde);
  if pc <? pc_end fde then mret fde else sec_fail DWARF_ERROR_ILLEGAL_STATE.

(** The entries from [index] on; the loop stops at the first that cannot be read. *)
Fixpoint hdr_fdes (count : nat) (index : Z) : prog DwarfSection (list (option DwarfFde)) :=
  match count with
  | O => mret []
  | S count =>
      entry ← attempt ('(_, offset) ← GetFdeInfoFromIndex index; GetFdeFromOffset offset);
      match entry with
      | None => mret []
      | Some fde =>
          fde ← (if pc_start fde =? pc_end fde then
                   real ← attempt (Impl_GetFdeFromPc (pc_start fde));
                   mret (match real with Some fde_real => fde_real | None => fde end)
                 else mret fde);
          fdes ← hdr_fdes count (index + 1); mret (Some fde :: fdes)
      end
  end.
Definition Hdr_GetFdes : prog DwarfSection (list (option DwarfFde)) :=
  s ← get; hdr_fdes (Z.to_nat (fde_count_ (sec_hdr s))) 0.

(** The virtual calls. *)
Definition GetFdeFromPc (pc : Z) : prog DwarfSection DwarfFde :=
  if bool_decide (kind = EhFrameWithHdr) then Hdr_GetFdeFromPc pc else Impl_GetFdeFromPc pc.
Definition GetFdes : prog DwarfSection (list (option DwarfFde)) :=
  if bool_decide (kind = EhFrameWithHdr) then Hdr_GetFdes else Impl_GetFdes.

(** ** Evaluating the rules *)

Section evaluation.
Context {R : Type} `{Memory R} (regular_memory : R).
Variable clear_pac_bits : Z → Z.

(** [op] shares the section's reader.  The result is the value and whether the
    expression marked it as a dex pc. *)
Definition EvalExpression (loc : DwarfLocation) (info : RegsInfo) : prog DwarfSection (Z * bool) := λ s,
  let end_ := value1 loc in
  match Eval AT memory_ regular_memory info (end_ ⊟ value0 loc) end_ (DwarfOp_new (sec_memory s)) with
  | Fault f => Fault f
  | Err op => Err (s <| sec_memory := op_memory op |> <| sec_error := last_error_ op |>)
  | Ret _ op =>
      let s := s <| sec_memory := op_memory op |> in
      match stack_ op with
      | [] => Err (sec_code DWARF_ERROR_ILLEGAL_STATE s)
      | value :: _ =>
          if is_register_ op then Err (sec_code DWARF_ERROR_NOT_IMPLEMENTED s) else Ret (value, dex_pc_set_ op) s
      end
  end.

(** The section and the registers, with what [RegsInfo] and [EvalInfo] keep
    during one evaluation. *)
Record EvalState := mkEval {
  ev_section : DwarfSection; ev_regs : Regs; ev_reg_map : Z; ev_saved : list Z; return_address_undefined : bool }.
#[global] Instance EvalState_updatable : Updatable EvalState := λ e,
  mkEval (ev_section e) (ev_regs e) (ev_reg_map e) (ev_saved e) (return_address_undefined e).
Definition regs_info (e : EvalState) : RegsInfo := mkRegsInfo (regs_ (ev_regs e)) (ev_reg_map e) (ev_saved e).

Definition in_section {A} (m : prog DwarfSection A) : prog EvalState A :=
  zoom ev_section (λ s e, e <| ev_section := s |>) m.
Definition ev_fail {A} (c : DwarfErrorCode) : prog EvalState A := in_section (sec_fail c).
(** [Save(reg)]: the register keeps its value until it is assigned. *)
Definition Save (reg : Z) : prog EvalState unit :=
  e ← get; value ← element (regs_ (ev_regs e)) reg;
  zoom regs_info (λ i e, e <| ev_reg_map := saved_reg_map i |> <| ev_saved := saved_regs i |>) (RegsInfo_Save reg value).
(** [*reg_ptr = value] *)
Definition assign (reg value : Z) : prog EvalState unit :=
  modify (λ e, e <| ev_regs := put_reg (Z.to_nat reg) value (ev_regs e) |>).
(** [ReadFully(addr, reg_ptr, ...)]: a short read changes the register too. *)
Definition read_register (reg addr : Z) : prog EvalState unit :=
  e ← get;
  let bytes := Read regular_memory addr (sizeof AT) in
  assign reg (le_value (overwrite (reg_bytes (Z.to_nat (sizeof AT)) (get_reg (ev_regs e) (Z.to_nat reg))) bytes));;
  if Z.of_nat (length bytes) =? sizeof AT then mret ()
  else in_section (λ s, Err (s <| sec_error := mkError DWARF_ERROR_MEMORY_INVALID addr |>)).

Definition EvalRegister (cie : DwarfCie) (cfa : Z) (loc : DwarfLocation) (reg : Z) : prog EvalState unit :=
  match type loc with
  | DWARF_LOCATION_OFFSET => read_register reg (cfa ⊞ value0 loc)
  | DWARF_LOCATION_VAL_OFFSET => assign reg (cfa ⊞ value0 loc)
  | DWARF_LOCATION_REGISTER =>
      e ← get;
      let cur_reg := u32 (value0 loc) in
      if cur_reg >=? Total (regs_info e) then ev_fail DWARF_ERROR_ILLEGAL_VALUE
      else value ← RegsInfo_Get cur_reg (regs_info e); assign reg (value ⊞ value1 loc)
  | DWARF_LOCATION_EXPRESSION =>
      e ← get; '(value, _) ← in_section (EvalExpression loc (regs_info e)); read_register reg value
  | DWARF_LOCATION_VAL_EXPRESSION =>
      e ← get; '(value, is_dex_pc) ← in_section (EvalExpression loc (regs_info e));
      assign reg value;;
      if is_dex_pc : bool then modify (λ e, e <| ev_regs := set_dex_pc value (ev_regs e) |>) else mret ()
  | DWARF_LOCATION_UNDEFINED =>
      if reg =? return_address_register cie then modify (λ e, e <| return_address_undefined := true |>) else mret ()
  | DWARF_LOCATION_PSEUDO_REGISTER => ev_fail DWARF_ERROR_ILLEGAL_VALUE
  | DWARF_LOCATION_INVALID => mret ()
  end.

(** One turn of the loop over the rules. *)
Definition eval_rule (cie : DwarfCie) (cfa : Z) (reg : Z) (loc : DwarfLocation) : prog EvalState unit :=
  if reg =? CFA_REG then mret ()
  else
    e ← get;
    if reg >=? total_regs (ev_regs e) then
      if negb (bool_decide (type loc = DWARF_LOCATION_PSEUDO_REGISTER)) then mret ()
      else
        let '(set, r) := SetPseudoRegister (u16 reg) (value0 loc) (ev_regs e) in
        if set : bool then modify (λ e, e <| ev_regs := r |>) else ev_fail DWARF_ERROR_ILLEGAL_VALUE
    else Save reg;; EvalRegister cie cfa loc reg.
(** The rules in the order the unordered map yields them. *)
Fixpoint eval_rules (cie : DwarfCie) (cfa : Z) (rules : list (Z * DwarfLocation)) : prog EvalState unit :=
  match rules with
  | [] => mret ()
  | (reg, loc) :: rules => eval_rule cie cfa reg loc;; eval_rules cie cfa rules
  end.

Definition eval_cfa (loc : DwarfLocation) : prog EvalState Z :=
  e ← get;
  match type loc with
  | DWARF_LOCATION_REGISTER =>
      if value0 loc >=? total_regs (ev_regs e) then ev_fail DWARF_ERROR_ILLEGAL_VALUE
      else mret (to_address AT (get_reg (ev_regs e) (Z.to_nat (value0 loc)) + value1 loc))
  | DWARF_LOCATION_VAL_EXPRESSION => '(value, _) ← in_section (EvalExpression loc (regs_info e)); mret value
  | _ => ev_fail DWARF_ERROR_ILLEGAL_VALUE
  end.

(** [rules] lists the entries of [locations loc_regs]; the result is
    [*finished]. *)
Definition eval_frame (cie : DwarfCie) (loc_regs : DwarfLocations) (rules : list (Z * DwarfLocation)) : prog EvalState bool :=
  e ← get;
  if return_address_register cie >=? total_regs (ev_regs e) then ev_fail DWARF_ERROR_ILLEGAL_VALUE
  else
    match locations loc_regs !! CFA_REG with
    | None => ev_fail DWARF_ERROR_CFA_NOT_DEFINED
    | Some loc =>
        modify (λ e, e <| ev_regs := ResetPseudoRegisters (set_dex_pc 0 (ev_regs e)) |>);;
        cfa ← eval_cfa loc;
        eval_rules cie cfa rules;;
        modify (λ e, e <| ev_regs :=
          set_pc clear_pac_bits
            (if return_address_undefined e then 0 else get_reg (ev_regs e) (Z.to_nat (return_address_register cie)))
            (ev_regs e) |>);;
        e ← get;
        modify (λ e, e <| ev_regs := set_sp cfa (ev_regs e) |>);;
        mret ((pc (ev_regs e) =? 0) && negb (is_signal_frame cie))
    end.
Definition eval_start (s : DwarfSection) (r : Regs) : EvalState := mkEval s r 0 (repeat 0 64) false.

(** ** Rules and steps *)

Definition GetCfaLocationInfo (pc : Z) (fde : DwarfFde) (loc_regs0 : DwarfLocations) (a : ArchEnum)
  : prog DwarfSection DwarfLocations := λ s,
  match DwarfCfa.cie fde with
  | None => Fault OutOfRange
  | Some cie =>
      let run cached start end_ (cfa : DwarfCfa) := GetLocationInfo AT memory_ fde cie a cached pc start end_ cfa in
      let leave (s : DwarfSection) (cfa : DwarfCfa) := s <| sec_memory := cfa_memory cfa |> in
      let failed s cfa := Err ((leave s cfa) <| sec_error := cfa_last_error cfa |>) in
      let finish s cfa :=
        match run (cie_loc_regs s !! cie_offset fde) (cfa_instructions_offset fde) (cfa_instructions_end fde) cfa with
        | Ret _ cfa => Ret (loc_regs cfa) (leave s cfa)
        | Err cfa => failed s cfa
        | Fault f => Fault f
        end in
      let cfa := mkCfa (sec_memory s) (mkError DWARF_ERROR_NONE 0) 0 [] [] loc_regs0 in
      match cie_loc_regs s !! cie_offset fde with
      | Some _ => finish s cfa
      | None =>
          match run None (cie_cfa_instructions_offset cie) (cie_cfa_instructions_end cie) cfa with
          | Ret _ cfa => finish ((leave s cfa) <| cie_loc_regs := <[cie_offset fde := loc_regs cfa]> (cie_loc_regs s) |>) cfa
          | Err cfa => failed s cfa
          | Fault f => Fault f
          end
      end
  end.

(** The order in which an unordered map yields its entries. *)
Variable iteration_order : gmap Z DwarfLocation → list (Z * DwarfLocation).

(** The section, the registers and the two results, which the caller owns. *)
Record StepState := mkStep { st_section : DwarfSection; st_regs : Regs; st_finished : bool; st_signal_frame : bool }.
#[global] Instance StepState_updatable : Updatable StepState := λ t,
  mkStep (st_section t) (st_regs t) (st_finished t) (st_signal_frame t).
Definition step_section {A} (m : prog DwarfSection A) : prog StepState A :=
  zoom st_section (λ s t, t <| st_section := s |>) m.

Definition SectionEval (cie : DwarfCie) (loc_regs : DwarfLocations) : prog StepState unit := λ t,
  let leave e := t <| st_section := ev_section e |> <| st_regs := ev_regs e |> in
  match eval_frame cie loc_regs (iteration_order (locations loc_regs)) (eval_start (st_section t) (st_regs t)) with
  | Ret finished e => Ret () ((leave e) <| st_finished := finished |>)
  | Err e => Err (leave e)
  | Fault f => Fault f
  end.

(** [emplace] keeps a row that is already there. *)
Definition emplace (row : DwarfLocations) : prog DwarfSection DwarfLocations :=
  s ← get;
  match row_cache s !! loc_pc_end row with
  | Some row' => mret row'
  | None => modify (λ s, s <| row_cache := <[loc_pc_end row := row]> (row_cache s) |>);; mret row
  end.
Definition compute_row (pc : Z) (a : ArchEnum) : prog DwarfSection DwarfLocations :=
  modify (sec_code DWARF_ERROR_NONE);;
  fde ← on_error (GetFdeFromPc pc) (sec_code DWARF_ERROR_ILLEGAL_STATE);
  row ← GetCfaLocationInfo pc fde DwarfLocations_new a;
  emplace (row <| loc_cie := DwarfCfa.cie fde |>).
Definition lookup_row (pc : Z) (a : ArchEnum) : prog DwarfSection DwarfLocations :=
  s ← get;
  match least_above pc (row_cache s) with
  | Some (_, row) => if pc <? loc_pc_start row then compute_row pc a else mret row
  | None => compute_row pc a
  end.
Definition Step (pc : Z) : prog StepState unit :=
  t ← get;
  row ← step_section (lookup_row pc (arch (st_regs t)));
  match loc_cie row with
  | None => undef OutOfRange
  | Some cie => modify (λ t, t <| st_signal_frame := is_signal_frame cie |>);; SectionEval cie row
  end.
End evaluation.
End sections.

(** ** Iterators *)

Record iterator := mkIterator { fdes_ : list (option DwarfFde); index_ : Z }.
#[global] Instance iterator_updatable : Updatable iterator := λ i, mkIterator (fdes_ i) (index_ i).
(** [begin()] and [end()], from the list [GetFdes] fills *)
Definition iterator_begin (fdes : list (option DwarfFde)) : iterator := mkIterator fdes 0.
Definition iterator_end (fdes : list (option DwarfFde)) : iterator := mkIterator fdes (Z.of_nat (length fdes)).
Definition iterator_next (i : iterator) : iterator := i <| index_ := index_ i ⊞ 1 |>.
Definition iterator_prev (i : iterator) : iterator := i <| index_ := index_ i ⊟ 1 |>.
Definition iterator_eqb (i j : iterator) : bool := index_ i =? index_ j.
(** [operator*]; the guard lets the index one past the end through. *)
Definition iterator_deref {S} (i : iterator) : prog S (option DwarfFde) :=
  if index_ i >? Z.of_nat (length (fdes_ i)) then mret None
  else match fdes_ i !! Z.to_nat (index_ i) with Some fde => mret fde | None => undef OutOfRange end.
