(* ===== verification/DwarfFrame.v ===== *)
(** * What reading and evaluating leave alone

    The reader moves only its cursor, and an expression changes nothing of the
    reader but the cursor and uses the registers only through [RegsInfo::Get]. *)
From S2P Require Import Prelude UnwindMemory Outcome DwarfMemory DwarfOp.

(** ** The reader *)

(** A reader without its cursor. *)
Definition base (d : DwarfMemory) : DwarfMemory := set_cur_offset 0 d.

Lemma base_set_cur offset d : base (set_cur_offset offset d) = base d.
Proof. done. Qed.
Lemma base_eq offset d d' : base d = base d' → set_cur_offset offset d = set_cur_offset offset d'.
Proof. intros E. by rewrite <-(base_set_cur 0 d') in E; apply (f_equal (set_cur_offset offset)) in E. Qed.

Section reader.
Context {M : Type} `{Memory M} (m : M).

Lemma ReadBytes_unchanged n : unchanged base (ReadBytes m n).
Proof. intros d. unfold ReadBytes. by destruct (ReadFully _ _ _). Qed.
#[local] Hint Resolve ReadBytes_unchanged : unchanged.

Lemma ReadUnsigned_unchanged n : unchanged base (ReadUnsigned m n).
Proof. unfold ReadUnsigned. keep. Qed.
#[local] Hint Resolve ReadUnsigned_unchanged : unchanged.

Lemma leb128_loop_unchanged fuel cur shift : unchanged base (leb128_loop m fuel cur shift).
Proof. revert cur shift. induction fuel as [|fuel IH]; intros cur shift; cbn [leb128_loop]; keep. Qed.
#[local] Hint Resolve leb128_loop_unchanged : unchanged.

Lemma ReadULEB128_unchanged : unchanged base (ReadULEB128 m).
Proof. unfold ReadULEB128. keep. Qed.
Lemma ReadSLEB128_unchanged : unchanged base (ReadSLEB128 m).
Proof. unfold ReadSLEB128. keep. Qed.
Lemma ReadSigned_unchanged n : unchanged base (ReadSigned m n).
Proof. unfold ReadSigned. keep. Qed.
#[local] Hint Resolve ReadULEB128_unchanged ReadSLEB128_unchanged ReadSigned_unchanged : unchanged.

Lemma ReadEncodedData_unchanged AT encoding : unchanged base (ReadEncodedData m AT encoding).
Proof. unfold ReadEncodedData. keep. Qed.
Lemma AdjustEncodedValue_unchanged encoding value : unchanged base (AdjustEncodedValue encoding value).
Proof. intros d. unfold AdjustEncodedValue. by case_ifs. Qed.
#[local] Hint Resolve ReadEncodedData_unchanged AdjustEncodedValue_unchanged : unchanged.

Lemma ReadEncodedValue_unchanged AT encoding : unchanged base (ReadEncodedValue m AT encoding).
Proof.
  unfold ReadEncodedValue. destruct (_ =? _); [keep|]. destruct (_ =? _); [|keep].
  intros d. cbn zeta. destruct (_ >=? _); [done|]. exact (ReadUnsigned_unchanged (sizeof AT) (set_cur_offset _ (set_cur_offset _ d))).
Qed.
End reader.
#[export] Hint Resolve ReadBytes_unchanged ReadUnsigned_unchanged ReadULEB128_unchanged ReadSLEB128_unchanged : unchanged.
#[export] Hint Resolve ReadEncodedValue_unchanged : unchanged.

(** ** Expressions *)

Definition op_base (s : DwarfOp) : DwarfMemory := base (op_memory s).

Section expressions.
Context (AT : AddressType) {M R : Type} `{Memory M} `{Memory R} (m : M) (r : R).
Variable info : RegsInfo.

Lemma reading_unchanged {A} (p : prog DwarfMemory A) : unchanged base p → unchanged op_base (reading p).
Proof.
  intros Hp. apply unchanged_on_error; [|done]. by eapply unchanged_zoom.
Qed.
Lemma element_unchanged {S T} (f : S → T) l i : unchanged f (element l i).
Proof. unfold element. keep. Qed.
Lemma fail_with_unchanged {A} c : unchanged op_base (fail_with (A := A) c).
Proof. done. Qed.
Lemma fail_at_unchanged {A} a : unchanged op_base (fail_at (A := A) a).
Proof. done. Qed.
Lemma RegsInfo_Get_unchanged {S T} (f : S → T) reg i : unchanged f (RegsInfo_Get reg i).
Proof. unfold RegsInfo_Get, IsSaved. keep; apply element_unchanged. Qed.
#[local] Hint Resolve element_unchanged fail_with_unchanged fail_at_unchanged RegsInfo_Get_unchanged : unchanged.

Lemma handlers_unchanged f : unchanged op_base (kOpHandleFuncList AT r info f).
Proof.
  destruct f; cbn [kOpHandleFuncList]; unfold op_deref, op_deref_size, op_push, op_dup, op_drop, op_over, op_pick, op_swap,
    op_rot, op_abs, op_and, op_div, op_minus, op_mod, op_mul, op_neg, op_not, op_or, op_plus, op_plus_uconst, op_shl, op_shr,
    op_shra, op_xor, op_bra, op_eq, op_ge, op_gt, op_le, op_lt, op_ne, op_skip, op_lit, op_reg, op_regx, op_breg, op_bregx,
    op_nop, op_not_implemented, compare_with, binary, shift_by, move_cursor, StackAt, StackPop,
    OperandAt, stack_set, push_front; keep.
Qed.

Lemma read_operands_unchanged encodings : unchanged op_base (read_operands AT m encodings).
Proof.
  induction encodings; cbn [read_operands]; keep. apply reading_unchanged. auto with unchanged.
Qed.
#[local] Hint Resolve handlers_unchanged read_operands_unchanged : unchanged.

Lemma Decode_unchanged : unchanged op_base (Decode AT m r info).
Proof. unfold Decode. keep. apply reading_unchanged. auto with unchanged. Qed.
#[local] Hint Resolve Decode_unchanged : unchanged.

Lemma eval_loop_unchanged fuel end_ iterations : unchanged op_base (eval_loop AT m r info fuel end_ iterations).
Proof. revert iterations. induction fuel as [|fuel IH]; intros iterations; cbn [eval_loop]; keep. Qed.
#[local] Hint Resolve eval_loop_unchanged : unchanged.

Lemma Eval_unchanged start end_ : unchanged op_base (Eval AT m r info start end_).
Proof. unfold Eval. keep. by case_ifs. Qed.

(** The cursor an evaluation finds is not used. *)
Lemma Eval_base start end_ d d' :
  base d = base d' →
  Eval AT m r info start end_ (DwarfOp_new d) = Eval AT m r info start end_ (DwarfOp_new d').
Proof.
  intros Ed. unfold Eval. unfold mbind at 1 7, prog_bind at 1 7. cbn [modify DwarfOp_new].
  match goal with |- ?p ?s = ?q ?s' => assert (s = s') as ->; [|done] end.
  cbn. f_equal. by apply base_eq.
Qed.
End expressions.
