(* ===== verification/DwarfIndex.v ===== *)
(** * Finding the entry of a program counter

    The index that [BuildFdeIndex] builds and the binary search of the header's
    table: both find the entry the section's order or the table's order says. *)
From stdpp Require Import sorting.
From S2P Require Import Prelude UnwindMemory Outcome DwarfMemory DwarfMemProps DwarfOp DwarfCfa UnwindRegs DwarfSection DwarfFrame.

(** ** Ordered maps *)

Lemma least_above_spec {A} (a : Z) (m : gmap Z A) :
  match least_above a m with
  | Some (k, x) => m !! k = Some x ∧ a < k ∧ ∀ k', a < k' → is_Some (m !! k') → k ≤ k'
  | None => ∀ k', a < k' → m !! k' = None
  end.
Proof.
  unfold least_above. apply (map_fold_weak_ind (λ best m, match best with
    | Some (k, x) => m !! k = Some x ∧ a < k ∧ ∀ k', a < k' → is_Some (m !! k') → k ≤ k'
    | None => ∀ k', a < k' → m !! k' = None end)); [intros; apply lookup_empty|].
  intros i x m' best Hi IH. destruct (Z.leb_spec i a) as [Hle|Hlt].
  - destruct best as [[k y]|].
    + destruct IH as (Hk & Ha & Hmin). rewrite lookup_insert_ne by lia. split; [done|]. split; [done|].
      intros k' Hk'. rewrite lookup_insert_ne by lia. auto.
    + intros k' Hk'. rewrite lookup_insert_ne by lia. auto.
  - destruct best as [[k y]|].
    + destruct IH as (Hk & Ha & Hmin). destruct (Z.ltb_spec i k).
      * rewrite lookup_insert_eq. split; [done|]. split; [done|]. intros k' Hk' Hs.
        destruct (decide (k' = i)) as [->|]; [lia|]. rewrite lookup_insert_ne in Hs by done. specialize (Hmin k' Hk' Hs). lia.
      * assert (i ≠ k) by (intros ->; congruence). rewrite lookup_insert_ne by done. split; [done|]. split; [done|].
        intros k' Hk' Hs. destruct (decide (k' = i)) as [->|]; [lia|]. rewrite lookup_insert_ne in Hs by done. auto.
    + rewrite lookup_insert_eq. split; [done|]. split; [done|]. intros k' Hk' Hs.
      destruct (decide (k' = i)) as [->|]; [lia|]. rewrite lookup_insert_ne, IH in Hs by done. by destruct Hs.
Qed.

(** ** Intervals *)

(** The intervals of the map do not overlap. *)
Definition disjoint_fdes (m : gmap Z (Z * Z)) : Prop :=
  ∀ e s o, m !! e = Some (s, o) → s < e ∧ ∀ e' s' o', m !! e' = Some (s', o') → e < e' → e ≤ s'.
Definition covers (m : gmap Z (Z * Z)) (pc o : Z) : Prop := ∃ e s, m !! e = Some (s, o) ∧ s ≤ pc < e.

Lemma insert_range m start end_ off :
  disjoint_fdes m → start < end_ →
  (∀ e s o, m !! e = Some (s, o) → e ≤ start ∨ end_ ≤ s) →
  disjoint_fdes (<[end_ := (start, off)]> m) ∧
  ∀ pc o, covers (<[end_ := (start, off)]> m) pc o ↔ covers m pc o ∨ start ≤ pc < end_ ∧ o = off.
Proof.
  intros Hm Hlt Hgap.
  assert (m !! end_ = None) as Hnone.
  { destruct (m !! end_) as [[s o]|] eqn:E; [|done]. destruct (Hm _ _ _ E). destruct (Hgap _ _ _ E); lia. }
  split.
  - intros e s o [[<- [= <- <-]]|[Hne E]]%lookup_insert_Some.
    + split; [done|]. intros e' s' o' [[<- _]|[Hne E']]%lookup_insert_Some Hlt'; [lia|].
      destruct (Hgap _ _ _ E'); lia.
    + destruct (Hm _ _ _ E) as [Hse Hnext]. split; [done|].
      intros e' s' o' [[<- [= <- <-]]|[Hne' E']]%lookup_insert_Some Hlt'; [|by eapply Hnext].
      destruct (Hgap _ _ _ E); lia.
  - intros pc o. split.
    + intros (e & s & [[<- [= <- <-]]|[Hne E]]%lookup_insert_Some & Hpc); [by right|]. left. by exists e, s.
    + intros [(e & s & E & Hpc)|[Hpc ->]].
      * exists e, s. split; [|done]. apply lookup_insert_Some. right. split; [congruence|done].
      * exists end_, start. by rewrite lookup_insert_eq.
Qed.

Definition keys_above (a : Z) (m : gmap Z (Z * Z)) : gmap Z (Z * Z) := filter (λ '(k, _), a < k) m.

(** A step of the iterator leaves fewer keys, an insertion below it none more. *)
Lemma keys_above_next m start k x m' :
  m !! k = Some x → start < k → (∀ j, k < j → m' !! j = m !! j) →
  (size (keys_above k m') < size (keys_above start m))%nat.
Proof.
  intros Hk Hlt Heq. apply map_subset_size, map_subset_alt. split.
  - apply map_subseteq_spec. intros j y [E Hj]%map_lookup_filter_Some. cbn in Hj.
    rewrite Heq in E by done. apply map_lookup_filter_Some. cbn. split; [done|lia].
  - exists k. split; [apply map_lookup_filter_None; right; intros; cbn; lia|].
    exists x. apply map_lookup_filter_Some. done.
Qed.

(** [m'] is [m] with the free part of [start, end_) given to [off]. *)
Definition extends (m : gmap Z (Z * Z)) (start end_ off : Z) (m' : gmap Z (Z * Z)) : Prop :=
  disjoint_fdes m' ∧
  ∀ pc o, covers m' pc o ↔ covers m pc o ∨ (start ≤ pc < end_ ∧ (∀ o', ¬ covers m pc o') ∧ o = off).

Lemma extends_gap m start end_ off :
  disjoint_fdes m → (start < end_ → ∀ e s o, m !! e = Some (s, o) → e ≤ start ∨ end_ ≤ s) →
  extends m start end_ off (if start <? end_ then <[end_ := (start, off)]> m else m).
Proof.
  intros Hm Hgap. destruct (Z.ltb_spec start end_) as [Hlt|Hge].
  - destruct (insert_range m start end_ off) as [Hm' Hc]; [done|done|exact (Hgap Hlt)|]. split; [done|]. intros pc o. rewrite Hc.
    split; [intros [?|[Hpc Ho]]; [by left|]|intros [?|(Hpc & _ & Ho)]; [by left|by right]].
    right. split; [done|]. split; [|done]. intros o' (e & s & E & Hin). destruct (Hgap Hlt _ _ _ E); lia.
  - split; [done|]. intros pc o. split; [by left|]. intros [?|[? _]]; [done|lia].
Qed.

(** What precedes the iterator ends at [start] or before. *)
Lemma iterator_gap m start k s o :
  disjoint_fdes m → least_above start m = Some (k, (s, o)) →
  m !! k = Some (s, o) ∧ start < k ∧ s < k ∧ ∀ e s' o', m !! e = Some (s', o') → e ≤ start ∨ e = k ∨ k ≤ s'.
Proof.
  intros Hm E. pose proof (least_above_spec start m) as Hspec. rewrite E in Hspec. destruct Hspec as (Hk & Hlt & Hmin).
  destruct (Hm _ _ _ Hk) as [Hsk Hnext]. split; [done|]. split; [done|]. split; [done|].
  intros e s' o' He. destruct (Z.le_gt_cases e start) as [|Hgt]; [by left|]. right.
  specialize (Hmin e Hgt (mk_is_Some _ _ He)). destruct (decide (e = k)); [by left|right]. eapply Hnext; [done|lia].
Qed.

Lemma insert_loop_spec fuel start end_ off m :
  (size (keys_above start m) < fuel)%nat → disjoint_fdes m →
  extends m start end_ off (insert_loop fuel start end_ off (least_above start m) m).
Proof.
  revert start m. induction fuel as [|fuel IH]; intros start m Hfuel Hm; [lia|]. cbn [insert_loop].
  destruct (least_above start m) as [[k [s o]]|] eqn:E.
  - destruct (iterator_gap _ _ _ _ _ Hm E) as (Hk & Hlt & Hsk & Hother).
    assert (∀ end_, end_ ≤ s → start < end_ → ∀ e s' o', m !! e = Some (s', o') → e ≤ start ∨ end_ ≤ s') as Hgap.
    { intros end' Hle _ e s' o' He. destruct (Hother _ _ _ He) as [?|[->|?]]; [by left|right|right; lia]. congruence. }
    destruct ((start <? end_) && (s <? end_)) eqn:Hcond.
    + apply andb_true_iff in Hcond as [Hc1 Hc2]. apply Z.ltb_lt in Hc1, Hc2.
      destruct (extends_gap m start s off Hm (Hgap s ltac:(lia))) as [Hm1 Hcov1].
      set (m1 := if start <? s then _ else m) in *.
      assert (∀ j, k < j → m1 !! j = m !! j) as Hsame.
      { intros j Hj. unfold m1. destruct (start <? s); [|done]. apply lookup_insert_ne. lia. }
      destruct (IH k m1) as [Hm2 Hcov2]; [pose proof (keys_above_next m start k _ m1 Hk Hlt Hsame); lia|done|].
      split; [done|]. intros pc o'. rewrite Hcov2. setoid_rewrite Hcov1.
      assert (s ≤ pc < k → covers m pc o) as Hin by (intros; by exists k, s). split.
      * intros [[Hc|(Hpc & Hfree & ->)]|(Hpc & Hfree & ->)]; [by left|right|right]; (split; [lia|]); (split; [|done]);
          [done|]. intros o1 Hc. apply (Hfree o1). by left.
      * intros [Hc|(Hpc & Hfree & ->)]; [by left; left|]. destruct (Z.lt_ge_cases pc s) as [Hlo|Hhi]; [left; right; naive_solver|].
        destruct (Z.lt_ge_cases pc k) as [Hlo'|Hhi']; [exfalso; by apply (Hfree o), Hin|].
        right. split; [lia|]. split; [|done]. intros o1 [Hc|[? _]]; [by apply (Hfree o1)|lia].
    + apply extends_gap; [done|]. intros Hlt'. apply Hgap; [|done].
      apply andb_false_iff in Hcond as [Hc|Hc]; apply Z.ltb_ge in Hc; lia.
  - apply extends_gap; [done|]. intros _ e s o He. left. pose proof (least_above_spec start m) as Hspec. rewrite E in Hspec.
    destruct (Z.le_gt_cases e start); [done|]. rewrite Hspec in He by lia. done.
Qed.

Lemma InsertFde_extends off fde m :
  disjoint_fdes m → extends m (pc_start fde) (pc_end fde) off (InsertFde off fde m).
Proof.
  intros Hm. apply insert_loop_spec; [|done]. apply Nat.lt_succ_r. apply map_subseteq_size, map_filter_subseteq.
Qed.

(** ** The vector *)

#[local] Instance key_le_total : base.Total key_le.
Proof. intros a b. unfold key_le. lia. Qed.
#[local] Instance key_le_trans : Transitive key_le.
Proof. intros a b c. unfold key_le. lia. Qed.

Lemma StronglySorted_lookup_lt {A} (R : A → A → Prop) l i j x y :
  StronglySorted R l → l !! i = Some x → l !! j = Some y → (i < j)%nat → R x y.
Proof.
  intros Hs. revert i j. induction Hs as [|z l Hs IH Hall]; intros i j Hi Hj Hij; [done|].
  destruct j as [|j]; [lia|]. cbn in Hj. destruct i as [|i].
  - injection Hi as ->. by eapply Forall_lookup_1.
  - eapply (IH i j); [done..|lia].
Qed.

Lemma index_upper_bound_least pc m :
  index_upper_bound pc (index_of m) = (λ '(_, (_, o)), o) <$> least_above pc m.
Proof.
  unfold index_upper_bound, index_of.
  pose proof (StronglySorted_merge_sort key_le (map_to_list m)) as Hsort.
  assert (∀ e s o, (e, (s, o)) ∈ merge_sort key_le (map_to_list m) ↔ m !! e = Some (s, o)) as Hin
    by (intros e s o; by rewrite merge_sort_Permutation, elem_of_map_to_list).
  set (l := merge_sort key_le (map_to_list m)) in *. pose proof (least_above_spec pc m) as Hspec.
  destruct (list_find _ _) as [[i [e o]]|] eqn:E; cbn.
  - apply list_find_Some in E as (Hi & Hpc & Hbefore). rewrite list_lookup_fmap in Hi.
    destruct (l !! i) as [[e' [s o']]|] eqn:Hl; [|done]. injection Hi as -> ->.
    assert (m !! e = Some (s, o)) as He by (apply Hin; by eapply list_elem_of_lookup_2).
    destruct (least_above pc m) as [[k [s' o']]|]; [|by rewrite Hspec in He].
    destruct Hspec as (Hk & Hlt & Hmin). cbn. f_equal. specialize (Hmin e Hpc (mk_is_Some _ _ He)).
    apply Hin, list_elem_of_lookup in Hk as [j Hj]. destruct (decide (j < i)%nat) as [Hji|Hji].
    + specialize (Hbefore j (k, o')). rewrite list_lookup_fmap, Hj in Hbefore. specialize (Hbefore eq_refl Hji). cbn in Hbefore. lia.
    + assert (e ≤ k) as Hek.
      { destruct (decide (i = j)) as [->|]; [rewrite Hl in Hj; injection Hj as -> _ _; lia|].
        apply (StronglySorted_lookup_lt _ l i j (e, (s, o)) (k, (s', o')) Hsort Hl Hj). lia. }
      assert (e = k) as -> by lia. apply list_elem_of_lookup_2, Hin in Hj. congruence.
  - destruct (least_above pc m) as [[k [s o]]|]; [|done]. destruct Hspec as (Hk & Hlt & _).
    apply Hin in Hk. apply list_find_None in E. rewrite Forall_fmap, Forall_forall in E. by specialize (E _ Hk).
Qed.

(** The first entry, in the order of the section, whose range contains [pc]. *)
Definition first_containing (fde_at : Z → DwarfFde) (offsets : list Z) (pc : Z) : option Z :=
  head (filter (λ off, pc_start (fde_at off) ≤ pc < pc_end (fde_at off)) offsets).

Lemma first_containing_snoc fde_at offsets off pc :
  first_containing fde_at (offsets ++ [off]) pc =
    match first_containing fde_at offsets pc with
    | Some o => Some o
    | None => if decide (pc_start (fde_at off) ≤ pc < pc_end (fde_at off)) then Some off else None
    end.
Proof.
  unfold first_containing. rewrite filter_app, filter_cons, filter_nil. by destruct (filter _ offsets), (decide _).
Qed.

Lemma first_containing_elem fde_at offsets pc o : first_containing fde_at offsets pc = Some o → o ∈ offsets.
Proof.
  unfold first_containing. intros E%head_Some_elem_of. by apply list_elem_of_filter in E as [_ ?].
Qed.
Lemma first_containing_range fde_at offsets pc o :
  first_containing fde_at offsets pc = Some o → pc_start (fde_at o) ≤ pc < pc_end (fde_at o).
Proof.
  unfold first_containing. intros E%head_Some_elem_of. by apply list_elem_of_filter in E as [? _].
Qed.
Lemma first_containing_none fde_at offsets pc o :
  first_containing fde_at offsets pc = None → o ∈ offsets → ¬ pc_start (fde_at o) ≤ pc < pc_end (fde_at o).
Proof.
  unfold first_containing. intros E%head_None Ho Hpc.
  assert (o ∈ @nil Z) as Hin by (rewrite <-E; by apply list_elem_of_filter). by apply not_elem_of_nil in Hin.
Qed.

Lemma index_covers fde_at offsets :
  let fdes := fold_left (λ m off, InsertFde off (fde_at off) m) offsets ∅ in
  disjoint_fdes fdes ∧ ∀ pc o, covers fdes pc o ↔ first_containing fde_at offsets pc = Some o.
Proof.
  induction offsets as [|off offsets [Hdis Hcov]] using rev_ind.
  { cbn zeta. cbn [fold_left]. split; [intros e s o E; by rewrite lookup_empty in E|]. intros pc o. split; [|done].
    intros (e & s & E & _). by rewrite lookup_empty in E. }
  cbn zeta. rewrite fold_left_app. cbn [fold_left]. set (m := fold_left _ offsets ∅) in *.
  destruct (InsertFde_extends off (fde_at off) m Hdis) as [Hdis' Hcov']. split; [done|].
  intros pc o. rewrite Hcov', first_containing_snoc. setoid_rewrite Hcov.
  destruct (first_containing fde_at offsets pc) as [o'|]; [|case_decide]; naive_solver.
Qed.

(** C17. The index finds what a scan of the section finds. Whatever FDEs the
    section holds, overlapping, nested, empty or out of order, and whatever the
    splits [InsertFde] made of them, the upper bound of [pc] in the vector,
    checked the way [GetFdeFromPc] checks it, is the first FDE of the section
    whose range contains [pc], and there is none exactly when no FDE contains it. *)
Theorem index_finds_first (fde_at : Z → DwarfFde) (offsets : list Z) (pc : Z) :
  match index_upper_bound pc (index_of (fold_left (λ m off, InsertFde off (fde_at off) m) offsets ∅)) with
  | Some off => if pc_start (fde_at off) <=? pc then Some off else None
  | None => None
  end = first_containing fde_at offsets pc.
Proof.
  rewrite index_upper_bound_least. destruct (index_covers fde_at offsets) as [Hdis Hcov].
  set (m := fold_left _ offsets ∅) in *. pose proof (least_above_spec pc m) as Hspec.
  destruct (least_above pc m) as [[e [s o]]|]; cbn.
  - destruct Hspec as (He & Hlt & Hmin). destruct (Hdis _ _ _ He) as [Hse _].
    assert (∀ pc', s ≤ pc' < e → pc_start (fde_at o) ≤ pc' < pc_end (fde_at o)) as Hrange.
    { intros pc' Hpc'. eapply first_containing_range, Hcov. by exists e, s. }
    destruct (Z.leb_spec (pc_start (fde_at o)) pc) as [Hle|Hgt].
    + symmetry. destruct (first_containing fde_at offsets pc) as [o'|] eqn:E.
      * apply Hcov in E as (e' & s' & E' & Hpc'). specialize (Hmin e' ltac:(lia) (mk_is_Some _ _ E')).
        destruct (decide (e' = e)) as [->|]; [congruence|]. destruct (Hdis _ _ _ He) as [_ Hnext].
        specialize (Hnext _ _ _ E' ltac:(lia)). lia.
      * specialize (Hrange (e - 1) ltac:(lia)).
        assert (first_containing fde_at offsets (e - 1) = Some o) as Hin by (apply Hcov; exists e, s; split; [done|lia]).
        apply first_containing_elem in Hin. exfalso. eapply first_containing_none; [exact E|exact Hin|lia].
    + symmetry. destruct (first_containing fde_at offsets pc) as [o'|] eqn:E; [|done].
      apply Hcov in E as (e' & s' & E' & Hpc'). specialize (Hmin e' ltac:(lia) (mk_is_Some _ _ E')).
      destruct (decide (e' = e)) as [->|]; [|destruct (Hdis _ _ _ He) as [_ Hnext]; specialize (Hnext _ _ _ E' ltac:(lia)); lia].
      rewrite He in E'. injection E' as <- <-. specialize (Hrange pc ltac:(lia)). lia.
  - symmetry. destruct (first_containing fde_at offsets pc) as [o|] eqn:E; [|done].
    apply Hcov in E as (e & s & E & Hpc). rewrite Hspec in E by lia. done.
Qed.

(** ** The header's table *)

Section search.
Context (AT : AddressType) {M : Type} `{Memory M} (m : M).

(** What the table holds at [i], read without the cache. *)
Definition seek (h : HdrTable) (i : Z) (d : DwarfMemory) : DwarfMemory :=
  set_pc_offset 0 (set_cur_offset (hdr_entries_offset_ h ⊞ (2 * i * table_entry_size_ h))
    (set_data_offset (hdr_entries_data_offset_ h) d)).
Definition read_entry (h : HdrTable) : prog DwarfMemory (Z * Z) :=
  value ← ReadEncodedValue m AT (table_encoding_ h);
  offset ← ReadEncodedValue m AT (table_encoding_ h);
  mret (to_address AT (if IsEncodingRelative (table_encoding_ h) then value ⊞ hdr_section_bias_ h else value), offset).
Definition entry (s : DwarfSection) (i : Z) : option (Z * Z) :=
  match read_entry (sec_hdr s) (seek (sec_hdr s) i (sec_memory s)) with Ret info _ => Some info | _ => None end.

(** The cache holds what the table holds. *)
Definition hdr_cache_ok (s : DwarfSection) : Prop :=
  ∀ i info, fde_info_ (sec_hdr s) !! i = Some info → entry s i = Some info.

Lemma read_entry_unchanged h : unchanged base (read_entry h).
Proof. unfold read_entry. keep. Qed.

Lemma GetFdeInfoFromIndex_entry s i info :
  hdr_cache_ok s → entry s i = Some info →
  ∃ s', GetFdeInfoFromIndex AT m i s = Ret info s' ∧ hdr_cache_ok s' ∧ ∀ j, entry s' j = entry s j.
Proof.
  intros Hok Hi. unfold GetFdeInfoFromIndex, get, mbind at 1, prog_bind at 1.
  destruct (fde_info_ (sec_hdr s) !! i) as [info'|] eqn:Ec.
  { apply Hok in Ec. rewrite Hi in Ec. injection Ec as ->. by exists s. }
  unfold entry in Hi. pose proof (read_entry_unchanged (sec_hdr s) (seek (sec_hdr s) i (sec_memory s))) as Hbase.
  destruct (read_entry (sec_hdr s) (seek (sec_hdr s) i (sec_memory s))) as [info' d| |] eqn:E; [|done..].
  injection Hi as ->. unfold read_entry, mbind, prog_bind in E.
  destruct (ReadEncodedValue m AT (table_encoding_ (sec_hdr s)) (seek (sec_hdr s) i (sec_memory s))) as [v d1| |] eqn:E1; [|done..].
  destruct (ReadEncodedValue m AT (table_encoding_ (sec_hdr s)) d1) as [o d2| |] eqn:E2; [|done..]. injection E as Einfo ->.
  set (s' := s <| sec_memory := d |> <| sec_hdr := (sec_hdr s) <| fde_info_ := <[i := info]> (fde_info_ (sec_hdr s)) |> |>).
  assert (∀ j, entry s' j = entry s j) as Hsame.
  { intros j. unfold entry. replace (seek (sec_hdr s') j (sec_memory s')) with (seek (sec_hdr s) j (sec_memory s)); [done|].
    assert (base d = base (seek (sec_hdr s) i (sec_memory s))) as Hd by done. unfold seek, base in *. cbn in *.
    injection Hd as Hpc Hdata Hfunc Htext. unfold set_cur_offset, set_data_offset, set_pc_offset. cbn. by rewrite Hfunc, Htext. }
  exists s'. split; [|split; [|done]].
  - unfold set_memory, sec_reading, with_memory, on_error, zoom, modify_hdr, modify, mbind, prog_bind.
    cbn -[ReadEncodedValue IsEncodingRelative to_address]. unfold seek in E1. cbn -[ReadEncodedValue] in E1.
    rewrite E1. cbn -[ReadEncodedValue IsEncodingRelative to_address]. rewrite E2. unfold s'. by rewrite <-Einfo.
  - intros j info' Hj. rewrite Hsame. cbn in Hj. apply lookup_insert_Some in Hj as [[<- <-]|[_ Hj]]; [|by apply Hok].
    unfold entry, read_entry, mbind, prog_bind. by rewrite E1, E2, Einfo.
Qed.

(** Strictly increasing program counters. *)
Definition increasing (count : Z) (pcs : Z → Z) : Prop := ∀ i j, 0 ≤ i < j → j < count → pcs i < pcs j.

Section table.
Variables (count : Z) (pcs offs : Z → Z).
Hypothesis Hcount : 0 < count < 2 ^ 63.
Hypothesis Hinc : increasing count pcs.
Definition holds_table (s : DwarfSection) : Prop :=
  hdr_cache_ok s ∧ ∀ i, 0 ≤ i < count → entry s i = Some (pcs i, offs i).

Lemma GetFdeInfoFromIndex_holds s i :
  holds_table s → 0 ≤ i < count → ∃ s', GetFdeInfoFromIndex AT m i s = Ret (pcs i, offs i) s' ∧ holds_table s'.
Proof.
  intros [Hok Hs] Hi. destruct (GetFdeInfoFromIndex_entry s i (pcs i, offs i)) as (s' & E & Hok' & Hsame); [done|auto|].
  exists s'. split; [done|]. split; [done|]. intros j Hj. rewrite Hsame. auto.
Qed.

(** The last entry that does not start after [pc]. *)
Definition last_below (pc j : Z) : Prop := 0 ≤ j < count ∧ pcs j ≤ pc ∧ ∀ k, j < k < count → pc < pcs k.

(** What a search that found the bound [j] of the entries at or below [pc] returns. *)
Definition found (pc : Z) (r : outcome DwarfSection Z) : Prop :=
  if pcs 0 <=? pc then ∃ s' j, r = Ret (offs j) s' ∧ last_below pc j else ∃ s', r = Err s'.

Lemma found_last pc s s' j : last_below pc j → s = Ret (offs j) s' → found pc s.
Proof.
  intros Hj ->. unfold found. destruct Hj as (Hj & Hle & Hnext).
  assert (pcs 0 ≤ pc) as H0 by (destruct (decide (j = 0)) as [->|]; [done|]; specialize (Hinc 0 j ltac:(lia) ltac:(lia)); lia).
  rewrite (proj2 (Z.leb_le _ _) H0). by exists s', j.
Qed.

Lemma search_end pc last s :
  0 ≤ last ≤ count → holds_table s → (∀ i, 0 ≤ i < last → pcs i ≤ pc) → (∀ i, last ≤ i < count → pc < pcs i) →
  found pc ((if negb (last =? 0) then '(_, o) ← GetFdeInfoFromIndex AT m (last - 1); mret o else fail) s).
Proof.
  intros Hl Hs Hlo Hhi. destruct (Z.eqb_spec last 0) as [->|Hne]; cbn [negb].
  - unfold found. specialize (Hhi 0 ltac:(lia)). rewrite (proj2 (Z.leb_gt _ _) Hhi). by exists s.
  - destruct (GetFdeInfoFromIndex_holds s (last - 1) Hs ltac:(lia)) as (s' & E & _).
    apply (found_last pc _ s' (last - 1)); [|unfold mbind, prog_bind; by rewrite E].
    split; [lia|]. split; [apply Hlo; lia|]. intros k Hk. apply Hhi. lia.
Qed.

Lemma search_loop_spec fuel pc first last s :
  last - first < 2 ^ Z.of_nat fuel → 0 ≤ first ≤ last → last ≤ count → holds_table s →
  (∀ i, 0 ≤ i < first → pcs i ≤ pc) → (∀ i, last ≤ i < count → pc < pcs i) →
  found pc (search_loop AT m fuel pc first last s).
Proof.
  revert first last s. induction fuel as [|fuel IH]; intros first last s Hd Hfl Hlast Hs Hlo Hhi; cbn [search_loop].
  all: destruct (Z.ltb_spec first last) as [Hlt|Hge]; [|assert (first = last) as -> by lia; apply search_end; [lia|done..]].
  { cbn in Hd. lia. }
  rewrite u64_small by lia. set (cur := (first + last) / 2).
  assert (first ≤ cur < last) as Hcur by (unfold cur; split; [apply Z.div_le_lower_bound|apply Z.div_lt_upper_bound]; lia).
  assert (2 * cur ≤ first + last < 2 * cur + 2) as Hhalf by (unfold cur; pose proof (Z.div_mod (first + last) 2); pose proof (Z.mod_pos_bound (first + last) 2); lia).
  rewrite Nat2Z.inj_succ, Z.pow_succ_r in Hd by lia.
  destruct (GetFdeInfoFromIndex_holds s cur Hs ltac:(lia)) as (s' & E & Hs').
  unfold mbind, prog_bind. rewrite E. destruct (Z.eqb_spec pc (pcs cur)) as [Heq|Hne].
  { apply (found_last pc _ s' cur); [|done]. split; [lia|]. split; [lia|].
    intros k Hk. rewrite Heq. apply Hinc; lia. }
  destruct (Z.ltb_spec pc (pcs cur)) as [Hbelow|Habove].
  - apply IH; try done; [lia..|]. intros i Hi. destruct (decide (i = cur)) as [->|]; [done|].
    specialize (Hinc cur i ltac:(lia) ltac:(lia)). lia.
  - rewrite u64_small by lia. apply IH; try done; [lia..|]. intros i Hi.
    destruct (decide (i = cur)) as [->|]; [lia|]. specialize (Hinc i cur ltac:(lia) ltac:(lia)). lia.
Qed.
End table.

(** The binary search of [.eh_frame_hdr] is the search it replaces. For a
    table of strictly increasing program counters of which every entry can be
    read, whatever part of it is cached already, [GetFdeOffsetFromPc] ends
    within 64 steps; it returns the FDE of the last entry at or below [pc], and
    nothing when [pc] lies below them all. *)
Theorem header_search_finds_last count pcs offs pc s :
  0 < count < 2 ^ 63 → increasing count pcs → fde_count_ (sec_hdr s) = count → holds_table count pcs offs s →
  if pcs 0 <=? pc
  then ∃ s' j, GetFdeOffsetFromPc AT m pc s = Ret (offs j) s'
         ∧ 0 ≤ j < count ∧ pcs j ≤ pc ∧ ∀ k, j < k < count → pc < pcs k
  else ∃ s', GetFdeOffsetFromPc AT m pc s = Err s'.
Proof.
  intros Hcount Hinc Hn Hs. unfold GetFdeOffsetFromPc, get, mbind, prog_bind. rewrite Hn.
  rewrite (proj2 (Z.eqb_neq _ _)) by lia.
  apply (search_loop_spec count pcs offs Hcount Hinc); try done; [|lia..].
  transitivity (2 ^ 63); [lia|]. done.
Qed.
End search.

Lemma header_search_finds_last_witness :
  let m := mkBuffer (le_bytes 4 0x10 ++ le_bytes 4 100 ++ le_bytes 4 0x20 ++ le_bytes 4 200) in
  let s := DwarfSection_new <| sec_hdr := mkHdr 1 DW_EH_PE_udata4 4 0 0 0 2 ∅ |> in
  ∃ s' j, GetFdeOffsetFromPc uint64_t m 0x1f s = Ret (if j =? 0 then 100 else 200) s' ∧ 0 ≤ j < 2.
Proof.
  intros m s.
  pose proof (header_search_finds_last uint64_t m 2 (λ i, if i =? 0 then 0x10 else 0x20) (λ i, if i =? 0 then 100 else 200) 0x1f s) as Ht.
  destruct Ht as (s' & j & E & Hj & _); [done| |done| |by exists s', j].
  - intros i j Hij Hj. assert (i = 0) as -> by lia. assert (j = 1) as -> by lia. done.
  - split; [intros i info Hi; unfold s in Hi; cbn in Hi; by rewrite lookup_empty in Hi|]. intros i Hi.
    assert (i = 0 ∨ i = 1) as [-> | ->] by lia; by vm_compute.
Defined.
