(* ===== verification/DwarfEval.v ===== *)
(** * Rules are evaluated together

    [DwarfSectionImpl::Eval] overwrites the registers one by one, in the order
    an unordered map yields the rules, while the rules speak of the registers
    before the step. [RegsInfo] keeps the overwritten values, and the result
    is the simultaneous assignment the rules mean, in every order. *)
From S2P Require Import Prelude UnwindMemory Outcome DwarfMemory DwarfMemProps DwarfOp DwarfCfa UnwindRegs DwarfSection DwarfFrame.

(** ** Expressions see the registers through [Get] *)

Definition same_info (i j : RegsInfo) : Prop :=
  Total i = Total j ∧ ∀ reg S (s : S), 0 ≤ reg → RegsInfo_Get reg i s = RegsInfo_Get reg j s.

Section expressions.
Context (AT : AddressType) {M R : Type} `{Memory M} `{Memory R} (m : M) (r : R).
Variables i j : RegsInfo.
Hypothesis Hsame : same_info i j.

Lemma same_Get {S} reg : 0 ≤ reg → same_prog (S := S) (RegsInfo_Get reg i) (RegsInfo_Get reg j).
Proof. intros Hreg s. by apply Hsame. Qed.

Lemma same_handlers f : same_prog (kOpHandleFuncList AT r i f) (kOpHandleFuncList AT r j f).
Proof.
  destruct Hsame as [Ht _]. destruct f; try done; cbn [kOpHandleFuncList]; unfold op_breg, op_bregx; rewrite Ht.
  all: apply same_bind; [done|]; intros x; case_ifs; [done|]; apply same_bind; [|done]; apply same_Get.
  - apply (wrap_range 16). lia.
  - apply (wrap_range 32). lia.
Qed.

Lemma same_Decode : same_prog (Decode AT m r i) (Decode AT m r j).
Proof.
  unfold Decode. repeat (apply same_bind; [done|]; intros ?). case_ifs; [done|].
  apply same_bind; [done|]. intros s. case_ifs; [done|]. repeat (apply same_bind; [done|]; intros ?). apply same_handlers.
Qed.

Lemma same_loop fuel end_ iterations : same_prog (eval_loop AT m r i fuel end_ iterations) (eval_loop AT m r j fuel end_ iterations).
Proof.
  revert iterations. induction fuel as [|fuel IH]; intros iterations; [done|]. cbn [eval_loop].
  apply same_bind; [done|]. intros s. destruct (_ <? _); [|done]. apply same_bind; [apply same_Decode|].
  intros _. destruct (_ =? _); [done|apply IH].
Qed.

Lemma same_Eval start end_ : same_prog (Eval AT m r i start end_) (Eval AT m r j start end_).
Proof.
  unfold Eval. repeat (apply same_bind; [done|]; intros ?). destruct (negb _); [done|]. apply same_bind; [apply same_Decode|]. intros _.
  apply same_bind; [done|]. intros s. cbn zeta. destruct (negb _); [done|]. apply same_bind; [apply same_Decode|]. intros _.
  apply same_bind; [done|]. intros _. apply same_loop.
Qed.
End expressions.

(** ** What a rule says of the registers before the step *)

Section rules.
Context (AT : AddressType) {M R : Type} `{Memory M} `{Memory R} (m : M) (regular_memory : R).
(** The reader, the registers before the step and the canonical frame address. *)
Variables (reader : DwarfMemory) (old : list Z) (cfa : Z) (cie : DwarfCie).

Definition old_info : RegsInfo := mkRegsInfo old 0 (repeat 0 64).
Definition expression_value (loc : DwarfLocation) : option (Z * bool) :=
  match Eval AT m regular_memory old_info (value1 loc ⊟ value0 loc) (value1 loc) (DwarfOp_new reader) with
  | Ret _ op => match stack_ op with
                | value :: _ => if is_register_ op then None else Some (value, dex_pc_set_ op)
                | [] => None
                end
  | _ => None
  end.
Definition word_at (addr : Z) : option Z := (λ bytes, to_address AT (le_value bytes)) <$> ReadFully regular_memory addr (sizeof AT).

(** The value a rule gives register [reg]; [None] when it cannot be evaluated. *)
Definition rule_value (reg : nat) (loc : DwarfLocation) : option Z :=
  match type loc with
  | DWARF_LOCATION_OFFSET => word_at (cfa ⊞ value0 loc)
  | DWARF_LOCATION_VAL_OFFSET => Some (to_address AT (cfa ⊞ value0 loc))
  | DWARF_LOCATION_REGISTER => (λ v, to_address AT (v ⊞ value1 loc)) <$> old !! Z.to_nat (u32 (value0 loc))
  | DWARF_LOCATION_EXPRESSION => '(addr, _) ← expression_value loc; word_at addr
  | DWARF_LOCATION_VAL_EXPRESSION => '(value, _) ← expression_value loc; Some (to_address AT value)
  | DWARF_LOCATION_UNDEFINED | DWARF_LOCATION_INVALID => old !! reg
  | DWARF_LOCATION_PSEUDO_REGISTER => None
  end.

(** During the evaluation, [Get] still sees the old registers. *)
Record sees (e : EvalState) : Prop := {
  sees_reader : base (sec_memory (ev_section e)) = base reader;
  sees_width : arch_type (arch (ev_regs e)) = AT;
  sees_total : Z.of_nat (length old) = arch_regs (arch (ev_regs e));
  sees_length : length (regs_ (ev_regs e)) = length old;
  sees_saved : length (ev_saved e) = 64%nat;
  sees_old n : (if Z.testbit (ev_reg_map e) (Z.of_nat n) then ev_saved e else regs_ (ev_regs e)) !! n = old !! n }.

Lemma arch_regs_few a : 0 ≤ arch_regs a ≤ 34.
Proof. by destruct a. Qed.

Lemma Get_value {S} reg i (s : S) :
  0 ≤ reg → (if Z.testbit (saved_reg_map i) reg then saved_regs i else regs i) !! Z.to_nat reg = old !! Z.to_nat reg →
  RegsInfo_Get reg i s =
    if reg >? MAX_REGISTERS then Fault Aborted else if reg >=? 64 then Fault BadShift
    else match old !! Z.to_nat reg with Some v => Ret v s | None => Fault OutOfRange end.
Proof.
  intros Hreg Hv. unfold RegsInfo_Get, IsSaved. case_ifs; [done..|].
  rewrite Z.shiftl_1_l. unfold mbind, prog_bind, mret, prog_ret. rewrite flag_set_mod by done.
  destruct (Z.testbit _ _); unfold element; rewrite Hv; by destruct (old !! _).
Qed.

Lemma sees_Get {S} reg e (s : S) :
  sees e → 0 ≤ reg → RegsInfo_Get reg (regs_info e) s =
    if reg >? MAX_REGISTERS then Fault Aborted else if reg >=? 64 then Fault BadShift
    else match old !! Z.to_nat reg with Some v => Ret v s | None => Fault OutOfRange end.
Proof.
  intros Hs Hreg. apply Get_value; [done|]. pose proof (sees_old _ Hs (Z.to_nat reg)) as Hv.
  rewrite Z2Nat.id in Hv by done. by destruct (Z.testbit _ _).
Qed.

Lemma sees_info e : sees e → same_info (regs_info e) old_info.
Proof.
  intros Hs. split; [unfold Total; cbn; by rewrite (sees_length _ Hs)|].
  intros reg S s Hreg. rewrite (sees_Get _ _ _ Hs Hreg). symmetry. apply Get_value; [done|]. by rewrite Z.testbit_0_l.
Qed.

Lemma EvalExpression_value e loc :
  sees e →
  match expression_value loc with
  | Some v => ∃ s, EvalExpression AT m regular_memory loc (regs_info e) (ev_section e) = Ret v s
                ∧ base (sec_memory s) = base reader
  | None => ∀ v s, EvalExpression AT m regular_memory loc (regs_info e) (ev_section e) ≠ Ret v s
  end.
Proof.
  intros Hs. unfold expression_value, EvalExpression. cbn zeta.
  rewrite (same_Eval AT m regular_memory _ _ (sees_info _ Hs)).
  rewrite (Eval_base _ _ _ _ _ _ _ _ (sees_reader _ Hs)).
  pose proof (Eval_unchanged AT m regular_memory old_info (value1 loc ⊟ value0 loc) (value1 loc) (DwarfOp_new reader)) as Hb.
  destruct (Eval _ _ _ _ _ _ _) as [[] op| |]; [|done..].
  destruct (stack_ op); [done|]. destruct (is_register_ op); [done|]. eexists. split; [done|]. exact Hb.
Qed.

Lemma sees_index e reg : sees e → (reg < length old)%nat → 0 ≤ Z.of_nat reg < 34.
Proof. intros Hs Hlt. pose proof (sees_total _ Hs). pose proof (arch_regs_few (arch (ev_regs e))). lia. Qed.

(** Assigning a saved register changes nothing that [Get] sees. *)
Lemma sees_assign e reg f :
  sees e → Z.testbit (ev_reg_map e) (Z.of_nat reg) = true →
  regs_ (f (ev_regs e)) = <[reg := default 0 (regs_ (f (ev_regs e)) !! reg)]> (regs_ (ev_regs e)) →
  arch (f (ev_regs e)) = arch (ev_regs e) → sees (e <| ev_regs := f (ev_regs e) |>).
Proof.
  intros [Hr Hw Ht Hl Hsv Ho] Hbit Hf Ha. split; cbn; [done|by rewrite Ha|by rewrite Ha|by rewrite Hf, length_insert|done|].
  intros n. specialize (Ho n). destruct (Z.testbit (ev_reg_map e) (Z.of_nat n)) eqn:En; [done|].
  rewrite Hf, list_lookup_insert_ne; [done|]. intros ->. congruence.
Qed.

Lemma Save_spec e reg :
  sees e → (reg < length old)%nat → Z.testbit (ev_reg_map e) (Z.of_nat reg) = false →
  ∃ e', Save (Z.of_nat reg) e = Ret () e' ∧ sees e' ∧ ev_regs e' = ev_regs e
    ∧ return_address_undefined e' = return_address_undefined e
    ∧ ∀ n : nat, Z.testbit (ev_reg_map e') (Z.of_nat n) = Z.testbit (ev_reg_map e) (Z.of_nat n) || bool_decide (n = reg).
Proof.
  intros Hs Hlt Hbit. pose proof (sees_index e reg Hs Hlt) as Hr. destruct Hs as [Hrd Hw Ht Hl Hsv Ho].
  assert (∃ v, regs_ (ev_regs e) !! reg = Some v) as [v Hv] by (apply lookup_lt_is_Some_2; lia).
  assert (∀ n : nat, Z.testbit (Z.lor (ev_reg_map e) (u64 (Z.shiftl 1 (Z.of_nat reg)))) (Z.of_nat n)
    = Z.testbit (ev_reg_map e) (Z.of_nat n) || bool_decide (n = reg)) as Hbits.
  { intros n. pose proof (Z.pow_lt_mono_r 2 (Z.of_nat reg) 64).
    rewrite Z.lor_spec, Z.shiftl_1_l, u64_small, Z.pow2_bits_eqb by lia. f_equal.
    destruct (Z.eqb_spec (Z.of_nat reg) (Z.of_nat n)); [rewrite bool_decide_eq_true_2 by lia|rewrite bool_decide_eq_false_2 by lia]; done. }
  unfold Save, element, mbind, prog_bind, get. rewrite Nat2Z.id, Hv. unfold mret, prog_ret, zoom, RegsInfo_Save, element.
  unfold mbind, prog_bind, get. destruct (Z.geb_spec (Z.of_nat reg) MAX_REGISTERS) as [Hge|_]; [unfold MAX_REGISTERS in Hge; lia|].
  cbn -[u64 Z.shiftl]. rewrite Nat2Z.id, Hv. eexists. split; [done|].
  split; [|done]. split; cbn -[u64 Z.shiftl]; [done..|by rewrite length_insert|].
  intros n. rewrite Hbits. specialize (Ho n). destruct (decide (n = reg)) as [->|Hne].
  - rewrite Hbit, bool_decide_eq_true_2 by done. rewrite Hbit in Ho. cbn.
    rewrite list_lookup_insert_eq by lia. congruence.
  - rewrite bool_decide_eq_false_2, orb_false_r by done. destruct (Z.testbit _ _); [|done].
    by rewrite list_lookup_insert_ne.
Qed.

(** [reg] now holds [v] and nothing else changed. *)
Record assigned (e : EvalState) (reg : nat) (v : Z) (e' : EvalState) : Prop := {
  assigned_sees : sees e';
  assigned_regs : regs_ (ev_regs e') = <[reg := v]> (regs_ (ev_regs e));
  assigned_map : ev_reg_map e' = ev_reg_map e;
  assigned_arch : arch (ev_regs e') = arch (ev_regs e) }.

Lemma put_reg_assigned e reg v dex :
  sees e → Z.testbit (ev_reg_map e) (Z.of_nat reg) = true → (reg < length old)%nat →
  assigned e reg (to_address AT v) (e <| ev_regs := (put_reg reg v (ev_regs e)) <| dex_pc_ := dex |> |>).
Proof.
  intros Hs Hbit Hlt. assert (regs_ ((put_reg reg v (ev_regs e)) <| dex_pc_ := dex |>) = <[reg := to_address AT v]> (regs_ (ev_regs e))) as Hregs
    by (cbn; by rewrite (sees_width _ Hs)).
  split; [|done..]. apply (sees_assign e reg (λ r, (put_reg reg v r) <| dex_pc_ := dex |>)); [done|done| |done].
  rewrite Hregs, list_lookup_insert_eq by (rewrite (sees_length _ Hs); done). done.
Qed.

Lemma sees_section e s : sees e → base (sec_memory s) = base reader → sees (e <| ev_section := s |>).
Proof. intros [??????] ?. by split. Qed.

Lemma assign_spec e reg v :
  sees e → Z.testbit (ev_reg_map e) (Z.of_nat reg) = true → (reg < length old)%nat →
  ∃ e', assign (Z.of_nat reg) v e = Ret () e' ∧ assigned e reg (to_address AT v) e' ∧ return_address_undefined e' = return_address_undefined e.
Proof.
  intros Hs Hbit Hlt. eexists. split; [done|]. split; [|done]. rewrite Nat2Z.id.
  pose proof (put_reg_assigned e reg v (dex_pc_ (ev_regs e)) Hs Hbit Hlt) as Ha.
  replace ((put_reg reg v (ev_regs e)) <| dex_pc_ := dex_pc_ (ev_regs e) |>) with (put_reg reg v (ev_regs e)) in Ha by done. done.
Qed.

Lemma read_register_spec e reg addr :
  sees e → Z.testbit (ev_reg_map e) (Z.of_nat reg) = true → (reg < length old)%nat →
  match word_at addr with
  | Some v => ∃ e', read_register AT regular_memory (Z.of_nat reg) addr e = Ret () e' ∧ assigned e reg v e'
                ∧ return_address_undefined e' = return_address_undefined e
  | None => ∀ e', read_register AT regular_memory (Z.of_nat reg) addr e ≠ Ret () e'
  end.
Proof.
  intros Hs Hbit Hlt. unfold word_at, read_register, ReadFully, mbind, prog_bind, get.
  destruct (Z.eqb_spec (Z.of_nat (length (Read regular_memory addr (sizeof AT)))) (sizeof AT)) as [Hlen|]; cbn [fmap option_fmap option_map].
  - unfold overwrite. rewrite drop_ge, app_nil_r by (unfold reg_bytes; rewrite length_map, length_seq; lia).
    by apply assign_spec.
  - done.
Qed.

(** Whether a rule leaves the caller without a return address. *)
Definition undefines (reg : nat) (loc : DwarfLocation) : bool :=
  bool_decide (type loc = DWARF_LOCATION_UNDEFINED) && (Z.of_nat reg =? return_address_register cie).

(** A rule that has a value assigns it; one that has none ends the evaluation. *)
Definition rule_outcome (e : EvalState) (reg : nat) (loc : DwarfLocation) (o : outcome EvalState unit) : Prop :=
  match rule_value reg loc with
  | Some v => ∃ e', o = Ret () e' ∧ assigned e reg v e'
                ∧ return_address_undefined e' = return_address_undefined e || undefines reg loc
  | None => ∀ e', o ≠ Ret () e'
  end.

Lemma assigned_same e e' reg v :
  sees e' → ev_regs e' = ev_regs e → ev_reg_map e' = ev_reg_map e → regs_ (ev_regs e) !! reg = Some v →
  assigned e reg v e'.
Proof. intros Hs Hr Hm Hv. split; [done| |done|by rewrite Hr]. by rewrite Hr, list_insert_id. Qed.

Lemma assigned_section e s reg v e' : assigned (e <| ev_section := s |>) reg v e' → assigned e reg v e'.
Proof. intros [????]. by split. Qed.

Lemma old_value reg : (reg < length old)%nat → ∃ v, old !! reg = Some v.
Proof. apply lookup_lt_is_Some_2. Qed.

Lemma register_rule e reg loc :
  sees e → Z.testbit (ev_reg_map e) (Z.of_nat reg) = true → (reg < length old)%nat → type loc = DWARF_LOCATION_REGISTER →
  rule_outcome e reg loc (EvalRegister AT m regular_memory cie cfa loc (Z.of_nat reg) e).
Proof.
  intros Hs Hbit Hlt Ht. unfold rule_outcome, rule_value, EvalRegister, undefines. rewrite Ht. cbn [andb]. rewrite orb_false_r.
  pose proof (sees_total _ Hs) as Htot. pose proof (arch_regs_few (arch (ev_regs e))) as Hfew.
  pose proof (wrap_range 32 (value0 loc) ltac:(lia)) as Hcur. fold (u32 (value0 loc)) in Hcur.
  assert (Total (regs_info e) = Z.of_nat (length old)) as Etot.
  { unfold Total. cbn. rewrite (sees_length _ Hs). apply Z.mod_small. lia. }
  unfold mbind, prog_bind, get. cbn zeta. rewrite Etot.
  destruct (Z.geb_spec (u32 (value0 loc)) (Z.of_nat (length old))) as [Hge|Hin].
  - rewrite lookup_ge_None_2 by lia. done.
  - destruct (old_value (Z.to_nat (u32 (value0 loc)))) as [v Hv]; [lia|]. rewrite Hv. cbn [fmap option_fmap option_map].
    rewrite (sees_Get _ _ _ Hs) by lia. unfold MAX_REGISTERS. case_ifs; [lia|lia|].
    rewrite Hv. by apply assign_spec.
Qed.

Lemma expression_rule_outcome e reg loc :
  sees e → Z.testbit (ev_reg_map e) (Z.of_nat reg) = true → (reg < length old)%nat →
  type loc = DWARF_LOCATION_EXPRESSION ∨ type loc = DWARF_LOCATION_VAL_EXPRESSION →
  rule_outcome e reg loc (EvalRegister AT m regular_memory cie cfa loc (Z.of_nat reg) e).
Proof.
  intros Hs Hbit Hlt Ht. unfold rule_outcome, rule_value, EvalRegister, undefines.
  assert (bool_decide (type loc = DWARF_LOCATION_UNDEFINED) = false) as -> by (apply bool_decide_eq_false_2; by destruct Ht as [-> | ->]).
  cbn [andb]. rewrite orb_false_r. pose proof (EvalExpression_value e loc Hs) as Hx.
  destruct Ht as [-> | ->]; unfold in_section, zoom, get; unfold mbind, prog_bind, option_bind;
    (destruct (expression_value loc) as [[v dex]|];
      [destruct Hx as (s & -> & Hb)|intros e'; destruct (EvalExpression _ _ _ _ _ _); [by edestruct Hx|done|done]]).
  - pose proof (read_register_spec (e <| ev_section := s |>) reg v (sees_section _ _ Hs Hb) Hbit Hlt) as Hr.
    destruct (word_at v); [|done]. destruct Hr as (e' & E & Ha & Hu). exists e'. split; [done|]. split; [by eapply assigned_section|done].
  - pose proof (sees_section _ _ Hs Hb) as Hs'. destruct dex.
    + eexists. split; [done|]. split; [|done]. eapply assigned_section. rewrite Nat2Z.id.
      exact (put_reg_assigned (e <| ev_section := s |>) reg v v Hs' Hbit Hlt).
    + destruct (assign_spec _ reg v Hs' Hbit Hlt) as (e' & E & Ha & Hu). rewrite E. exists e'. split; [done|].
      split; [by eapply assigned_section|done].
Qed.

Lemma EvalRegister_outcome e reg loc :
  sees e → Z.testbit (ev_reg_map e) (Z.of_nat reg) = true → (reg < length old)%nat → regs_ (ev_regs e) !! reg = old !! reg →
  rule_outcome e reg loc (EvalRegister AT m regular_memory cie cfa loc (Z.of_nat reg) e).
Proof.
  intros Hs Hbit Hlt Hv. destruct (old_value reg Hlt) as [v Hov]. rewrite Hov in Hv. destruct (type loc) eqn:Ht.
  5: by apply register_rule.
  5, 6: apply expression_rule_outcome; auto.
  all: unfold rule_outcome, rule_value, EvalRegister, undefines; rewrite Ht; cbn [andb]; try rewrite orb_false_r.
  - rewrite Hov. exists e. split; [done|]. split; [by apply assigned_same|done].
  - rewrite Hov, bool_decide_eq_true_2 by done. destruct (Z.of_nat reg =? _); (eexists; split; [done|]); split.
    + destruct Hs. by apply assigned_same.
    + cbn. by rewrite orb_true_r.
    + by apply assigned_same.
    + by rewrite orb_false_r.
  - by apply read_register_spec.
  - by apply assign_spec.
  - done.
Qed.

(** ** All the rules *)

Definition pseudo_ok (a : ArchEnum) (id : Z) : bool :=
  bool_decide (a = ARCH_ARM64) && (id >=? ARM64_PREG_FIRST) && (id <? ARM64_PREG_LAST).
(** Whether a rule can be evaluated. *)
Definition rule_ok (a : ArchEnum) (rule : Z * DwarfLocation) : bool :=
  let '(reg, loc) := rule in
  (reg =? CFA_REG) ||
  if reg >=? arch_regs a then negb (bool_decide (type loc = DWARF_LOCATION_PSEUDO_REGISTER)) || pseudo_ok a (u16 reg)
  else bool_decide (is_Some (rule_value (Z.to_nat reg) loc)).
Fixpoint rule_for (rules : list (Z * DwarfLocation)) (n : nat) : option DwarfLocation :=
  match rules with
  | [] => None
  | (reg, loc) :: rules => if reg =? Z.of_nat n then Some loc else rule_for rules n
  end.
Definition undefines_return (a : ArchEnum) (rules : list (Z * DwarfLocation)) : bool :=
  existsb (λ '(reg, loc), negb (reg =? CFA_REG) && (reg <? arch_regs a) && undefines (Z.to_nat reg) loc) rules.

(** The registers of [rules] that the architecture has are still to be saved. *)
Definition pending (e : EvalState) (rules : list (Z * DwarfLocation)) : Prop :=
  NoDup rules.*1 ∧ Forall (λ reg, 0 ≤ reg) rules.*1 ∧
  ∀ n : nat, (n < length old)%nat → Z.of_nat n ∈ rules.*1 → Z.testbit (ev_reg_map e) (Z.of_nat n) = false.

(** The result of evaluating [rules] from [e]. *)
Definition rules_outcome (e : EvalState) (rules : list (Z * DwarfLocation)) (o : outcome EvalState unit) : Prop :=
  if forallb (rule_ok (arch (ev_regs e))) rules
  then ∃ e', o = Ret () e' ∧ sees e'
         ∧ (∀ n, (n < length old)%nat →
              regs_ (ev_regs e') !! n = match rule_for rules n with Some loc => rule_value n loc | None => regs_ (ev_regs e) !! n end)
         ∧ return_address_undefined e' = return_address_undefined e || undefines_return (arch (ev_regs e)) rules
  else ∀ e', o ≠ Ret () e'.

(** What one turn does. *)
Record turned (e : EvalState) (reg : Z) (loc : DwarfLocation) (e' : EvalState) : Prop := {
  turned_sees : sees e';
  turned_arch : arch (ev_regs e') = arch (ev_regs e);
  turned_regs n : (n < length old)%nat →
    regs_ (ev_regs e') !! n = if reg =? Z.of_nat n then rule_value n loc else regs_ (ev_regs e) !! n;
  turned_bits n : Z.testbit (ev_reg_map e') (Z.of_nat n) = true → Z.testbit (ev_reg_map e) (Z.of_nat n) = true ∨ reg = Z.of_nat n;
  turned_undefined : return_address_undefined e' =
    return_address_undefined e || (negb (reg =? CFA_REG) && (reg <? arch_regs (arch (ev_regs e))) && undefines (Z.to_nat reg) loc) }.

Lemma turned_skip e reg loc : sees e → 0 ≤ reg → arch_regs (arch (ev_regs e)) ≤ reg → turned e reg loc e.
Proof.
  intros Hs Hpos Hge. pose proof (sees_total _ Hs). split; [done|done| |auto|].
  - intros n Hn. destruct (Z.eqb_spec reg (Z.of_nat n)); [lia|done].
  - destruct (Z.ltb_spec reg (arch_regs (arch (ev_regs e)))); [lia|]. by rewrite andb_false_r, orb_false_r.
Qed.

Lemma eval_rule_outcome e reg loc :
  sees e → 0 ≤ reg → (reg < Z.of_nat (length old) → Z.testbit (ev_reg_map e) reg = false) →
  if rule_ok (arch (ev_regs e)) (reg, loc)
  then ∃ e', eval_rule AT m regular_memory cie cfa reg loc e = Ret () e' ∧ turned e reg loc e'
  else ∀ e', eval_rule AT m regular_memory cie cfa reg loc e ≠ Ret () e'.
Proof.
  intros Hs Hreg Hbit. pose proof (sees_total _ Hs) as Htot. pose proof (arch_regs_few (arch (ev_regs e))) as Hfew.
  unfold rule_ok, eval_rule. destruct (Z.eqb_spec reg CFA_REG) as [->|Hne]; cbn [orb].
  { exists e. split; [done|]. apply turned_skip; [done..|]. unfold CFA_REG. lia. }
  unfold mbind, prog_bind, get, total_regs. destruct (Z.geb_spec reg (arch_regs (arch (ev_regs e)))) as [Hge|Hlt].
  - destruct (bool_decide (type loc = _)); cbn [negb orb]; [|exists e; split; [done|by apply turned_skip]].
    unfold SetPseudoRegister. fold (pseudo_ok (arch (ev_regs e)) (u16 reg)).
    destruct (pseudo_ok _ _); [|by intros e'].
    eexists. split; [done|]. destruct (turned_skip e reg loc Hs Hreg Hge) as [_ _ Hr Hb Hu]. destruct Hs. by split.
  - destruct (Save_spec e (Z.to_nat reg) Hs) as (e1 & E1 & Hs1 & Hr1 & Hu1 & Hb1); [lia|rewrite Z2Nat.id by done; apply Hbit; lia|].
    pose proof (sees_old _ Hs (Z.to_nat reg)) as Hold. rewrite Z2Nat.id in * by done. rewrite Hbit in Hold by lia.
    pose proof (EvalRegister_outcome e1 (Z.to_nat reg) loc Hs1) as Ho. rewrite Z2Nat.id in Ho by done. unfold rule_outcome in Ho.
    rewrite E1. specialize (Hb1 (Z.to_nat reg)) as Hb1'. rewrite Z2Nat.id, bool_decide_eq_true_2, orb_true_r in Hb1' by done.
    specialize (Ho Hb1' ltac:(lia) ltac:(by rewrite Hr1)).
    destruct (rule_value (Z.to_nat reg) loc) as [v|] eqn:Ev; [rewrite bool_decide_eq_true_2 by done|by rewrite bool_decide_eq_false_2 by (by intros [])].
    destruct Ho as (e' & E & [Hs' Hr Hm Ha] & Hu). exists e'. split; [done|]. rewrite Hr1 in Hr, Ha. split; [done|done| | |].
    + intros n Hn. rewrite Hr. destruct (Z.eqb_spec reg (Z.of_nat n)) as [->|Hn'].
      * rewrite Nat2Z.id in *. rewrite Ev, list_lookup_insert_eq by (rewrite (sees_length _ Hs); lia). done.
      * apply list_lookup_insert_ne. lia.
    + intros n Hn. rewrite Hm, Hb1 in Hn. apply orb_true_iff in Hn as [?|Hn]; [by left|].
      apply bool_decide_eq_true in Hn. right. lia.
    + rewrite Hu, Hu1. destruct (Z.ltb_spec reg (arch_regs (arch (ev_regs e)))); [|lia]. by rewrite (proj2 (Z.eqb_neq _ _) Hne).
Qed.

Lemma pending_cons e e' reg loc rules :
  pending e ((reg, loc) :: rules) → turned e reg loc e' → pending e' rules.
Proof.
  intros (Hdup & Hpos & Hbits) Ht. cbn in Hdup, Hpos. apply NoDup_cons in Hdup as [Hnot Hdup].
  apply Forall_cons in Hpos as [_ Hpos]. split; [done|]. split; [done|]. intros n Hn Hin.
  destruct (Z.testbit (ev_reg_map e') (Z.of_nat n)) eqn:E; [|done].
  apply (turned_bits _ _ _ _ Ht) in E as [E| ->]; [|done]. rewrite Hbits in E; [done|done|]. cbn. by right.
Qed.

Lemma rule_for_none rules n : Z.of_nat n ∉ rules.*1 → rule_for rules n = None.
Proof.
  induction rules as [|[reg loc] rules IH]; intros Hnot; [done|]. cbn in Hnot |- *. apply not_elem_of_cons in Hnot as [Hne Hnot].
  destruct (Z.eqb_spec reg (Z.of_nat n)); [done|auto].
Qed.

Lemma eval_rules_outcome e rules :
  sees e → pending e rules → rules_outcome e rules (eval_rules AT m regular_memory cie cfa rules e).
Proof.
  revert e. induction rules as [|[reg loc] rules IH]; intros e Hs Hp.
  { exists e. split; [done|]. split; [done|]. split; [done|]. by rewrite orb_false_r. }
  pose proof Hp as (Hdup & Hpos & Hbits). cbn in Hdup, Hpos.
  apply NoDup_cons in Hdup as [Hnot _]. apply Forall_cons in Hpos as [Hreg _].
  pose proof (eval_rule_outcome e reg loc Hs Hreg) as Ho. specialize (Hbits (Z.to_nat reg)). rewrite Z2Nat.id in Hbits by done.
  specialize (Ho ltac:(intros Hlt; apply Hbits; [lia|cbn; by left])).
  unfold rules_outcome. cbn [forallb eval_rules]. unfold mbind, prog_bind.
  destruct (rule_ok (arch (ev_regs e)) (reg, loc)); cbn [andb].
  2: { intros e' E. destruct (eval_rule _ _ _ _ _ _ _ _) as [[] e1| |]; [by edestruct Ho|done|done]. }
  destruct Ho as (e1 & -> & Ht). specialize (IH e1 (turned_sees _ _ _ _ Ht) (pending_cons _ _ _ _ _ Hp Ht)).
  unfold rules_outcome in IH. rewrite (turned_arch _ _ _ _ Ht) in IH.
  destruct (forallb _ rules); [|done]. destruct IH as (e' & E & Hs' & Hr & Hu).
  exists e'. split; [done|]. split; [done|]. split.
  - intros n Hn. rewrite Hr, (turned_regs _ _ _ _ Ht) by done. cbn [rule_for].
    destruct (Z.eqb_spec reg (Z.of_nat n)) as [->|]; [|done]. by rewrite (rule_for_none rules n Hnot).
  - rewrite Hu, (turned_undefined _ _ _ _ Ht). cbn [undefines_return existsb]. by rewrite orb_assoc.
Qed.
End rules.

(** ** The theorem *)

Lemma rule_for_map (locs : gmap Z DwarfLocation) rules n :
  rules ≡ₚ map_to_list locs → rule_for rules n = locs !! Z.of_nat n.
Proof.
  intros Hp. assert (NoDup rules.*1) as Hdup by (rewrite Hp; apply NoDup_fst_map_to_list).
  assert (∀ reg loc, (reg, loc) ∈ rules ↔ locs !! reg = Some loc) as Hin by (intros; by rewrite Hp, elem_of_map_to_list).
  destruct (rule_for rules n) as [loc|] eqn:E; symmetry.
  - apply Hin. clear -E. induction rules as [|[reg loc'] rules IH]; [done|]. cbn [rule_for] in E.
    destruct (Z.eqb_spec reg (Z.of_nat n)) as [->|]; [injection E as ->; by left|right; auto].
  - destruct (locs !! Z.of_nat n) as [loc|] eqn:El; [|done]. apply Hin in El. clear -E El.
    induction rules as [|[reg loc'] rules IH]; [by apply not_elem_of_nil in El|]. cbn [rule_for] in E.
    destruct (Z.eqb_spec reg (Z.of_nat n)) as [->|Hne]; [done|]. apply elem_of_cons in El as [[= Heq _]|El]; [congruence|auto].
Qed.

(** A state [Eval] starts the loop in: nothing saved, the registers those of a
    supported architecture. *)
Definition ready (AT : AddressType) (e : EvalState) : Prop :=
  arch_type (arch (ev_regs e)) = AT ∧ Z.of_nat (length (regs_ (ev_regs e))) = arch_regs (arch (ev_regs e)) ∧
  ev_reg_map e = 0 ∧ length (ev_saved e) = 64%nat.

Section simultaneous.
Context (AT : AddressType) {M R : Type} `{Memory M} `{Memory R} (m : M) (regular_memory : R).

Lemma ready_sees e : ready AT e → sees AT (sec_memory (ev_section e)) (regs_ (ev_regs e)) e.
Proof. intros (Hw & Ht & Hm & Hs). split; [done..|]. intros n. by rewrite Hm, Z.testbit_0_l. Qed.

Lemma ready_pending e rules (locs : gmap Z DwarfLocation) :
  ready AT e → (∀ reg, is_Some (locs !! reg) → 0 ≤ reg) → rules ≡ₚ map_to_list locs → pending (regs_ (ev_regs e)) e rules.
Proof.
  intros (_ & _ & Hm & _) Hpos Hp. split; [rewrite Hp; apply NoDup_fst_map_to_list|]. split.
  - apply Forall_forall. intros reg ([reg' loc] & -> & Hin)%list_elem_of_fmap. rewrite Hp in Hin.
    apply elem_of_map_to_list in Hin. by apply Hpos.
  - intros n _ _. by rewrite Hm, Z.testbit_0_l.
Qed.

(** C14. The rules of a frame are one simultaneous assignment. Whenever the
    evaluation of the rules in some order succeeds, every register ends with
    the value its rule gives in terms of the registers before the step, even
    where the rules read registers that earlier ones overwrote, and registers
    without a rule are unchanged; and in every other order in which the
    unordered map might yield the rules the evaluation also succeeds, with the
    same registers and the same verdict on the return address. *)
Theorem rules_are_simultaneous cie cfa (locs : gmap Z DwarfLocation) rules e e' :
  ready AT e → (∀ reg, is_Some (locs !! reg) → 0 ≤ reg) → rules ≡ₚ map_to_list locs →
  eval_rules AT m regular_memory cie cfa rules e = Ret () e' →
  (∀ n, (n < length (regs_ (ev_regs e)))%nat →
     regs_ (ev_regs e') !! n =
       match locs !! Z.of_nat n with
       | Some loc => rule_value AT m regular_memory (sec_memory (ev_section e)) (regs_ (ev_regs e)) cfa n loc
       | None => regs_ (ev_regs e) !! n
       end) ∧
  ∀ rules', rules' ≡ₚ map_to_list locs →
    ∃ e'', eval_rules AT m regular_memory cie cfa rules' e = Ret () e''
      ∧ regs_ (ev_regs e'') = regs_ (ev_regs e') ∧ return_address_undefined e'' = return_address_undefined e'.
Proof.
  intros Hready Hpos Hp E. pose proof (ready_sees e Hready) as Hs.
  pose proof (eval_rules_outcome AT m regular_memory _ _ cfa cie e rules Hs (ready_pending _ _ _ Hready Hpos Hp)) as Ho.
  unfold rules_outcome in Ho. destruct (forallb _ rules) eqn:Hok; [|by eapply Ho in E].
  destruct Ho as (e1 & E1 & Hs1 & Hr & Hu). rewrite E in E1. injection E1 as <-.
  assert (∀ n, (n < length (regs_ (ev_regs e)))%nat → regs_ (ev_regs e') !! n = _) as Hval
    by (intros n Hn; rewrite Hr, (rule_for_map locs) by done; reflexivity).
  split; [done|]. intros rules' Hp'.
  pose proof (eval_rules_outcome AT m regular_memory _ _ cfa cie e rules' Hs (ready_pending _ _ _ Hready Hpos Hp')) as Ho.
  unfold rules_outcome in Ho. assert (rules' ≡ₚ rules) as Hpp by (by rewrite Hp', Hp).
  assert (forallb (rule_ok AT m regular_memory (sec_memory (ev_section e)) (regs_ (ev_regs e)) cfa (arch (ev_regs e))) rules' = true) as Hok'.
  { rewrite forallb_forall in Hok |- *. intros x Hx. apply Hok, list_elem_of_In. rewrite <-Hpp. by apply list_elem_of_In. }
  rewrite Hok' in Ho. destruct Ho as (e2 & E2 & Hs2 & Hr2 & Hu2). exists e2. split; [done|]. split.
  - apply list_eq. intros n. destruct (decide (n < length (regs_ (ev_regs e)))%nat) as [Hn|Hn].
    + by rewrite Hval, Hr2, (rule_for_map locs) by done.
    + rewrite !lookup_ge_None_2; [done|rewrite (sees_length _ _ _ _ Hs1); lia|rewrite (sees_length _ _ _ _ Hs2); lia].
  - rewrite Hu, Hu2. f_equal. unfold undefines_return. apply eq_true_iff_eq. rewrite !existsb_exists.
    setoid_rewrite <-list_elem_of_In. by setoid_rewrite Hpp.
Qed.
End simultaneous.

(** Two rules that exchange registers. *)
Definition exchange : gmap Z DwarfLocation :=
  {[ 0 := Loc DWARF_LOCATION_REGISTER 3 0; 3 := Loc DWARF_LOCATION_REGISTER 0 0 ]}.
Definition exchange_start : EvalState :=
  eval_start DwarfSection_new (put_reg 3 33 (put_reg 0 11 (Regs_new ARCH_X86_64))).
Definition exchange_run (rules : list (Z * DwarfLocation)) : outcome EvalState unit :=
  eval_rules uint64_t (mkBuffer []) (mkBuffer []) DwarfCie_new 0 rules exchange_start.
Definition exchange_end : EvalState :=
  match exchange_run (map_to_list exchange) with Ret _ e => e | _ => exchange_start end.

Lemma rules_are_simultaneous_witness :
  regs_ (ev_regs exchange_end) !! 0%nat = Some 33 ∧ regs_ (ev_regs exchange_end) !! 3%nat = Some 11 ∧
  ∃ e, exchange_run (reverse (map_to_list exchange)) = Ret () e ∧ regs_ (ev_regs e) = regs_ (ev_regs exchange_end).
Proof.
  destruct (rules_are_simultaneous uint64_t (mkBuffer []) (mkBuffer []) DwarfCie_new 0 exchange (map_to_list exchange)
    exchange_start exchange_end) as [Hval Horder].
  - done.
  - intros reg [loc E]. unfold exchange in E.
    apply lookup_insert_Some in E as [[<- _]|[_ [<- _]%lookup_singleton_Some]]; lia.
  - done.
  - vm_compute. reflexivity.
  - destruct (Horder (reverse (map_to_list exchange))) as (e & E & Hr & _); [by rewrite reverse_Permutation|].
    split; [rewrite Hval by (vm_compute; lia); reflexivity|]. split; [rewrite Hval by (vm_compute; lia); reflexivity|].
    by exists e.
Defined.
