(* ===== verification/Symbols.v ===== *)
(** * Symbol tables

    unwindstack/Symbols.cpp and Symbols.h: the function of an address by binary
    search, first in the table as it is and then through a table of indices
    sorted by address, with the cache of symbols by their end that narrows later
    searches; and the address of a global variable by name.  A pointer into the
    cache is the key of its entry.  [None] as a whole result is an index out of
    range, or a loop that is not done within the fuel. *)
From S2P Require Import Prelude UnwindMemory.

(** ** Entries *)

Inductive SymType := Elf32_Sym | Elf64_Sym.
Definition sizeof_Sym (ty : SymType) : Z := match ty with Elf32_Sym => 16 | Elf64_Sym => 24 end.
Record Sym := mkSym { st_name : Z; st_value : Z; st_size : Z; st_info : Z; st_shndx : Z }.
Definition field (bytes : list Z) (at_ n : nat) : Z := le_value (take n (drop at_ bytes)).
Definition sym_of (ty : SymType) (bytes : list Z) : Sym :=
  let f := field bytes in
  match ty with
  | Elf32_Sym => mkSym (f 0 4)%nat (f 4 4)%nat (f 8 4)%nat (f 12 1)%nat (f 14 2)%nat
  | Elf64_Sym => mkSym (f 0 4)%nat (f 8 8)%nat (f 16 8)%nat (f 4 1)%nat (f 6 2)%nat
  end.
(** [st_value + st_size] in the type of the fields. *)
Definition sym_end (ty : SymType) (s : Sym) : Z :=
  wrap (match ty with Elf32_Sym => 32 | Elf64_Sym => 64 end) (st_value s + st_size s).

Definition SHN_UNDEF : Z := 0.
Definition STT_OBJECT : Z := 1.
Definition STT_FUNC : Z := 2.
Definition STB_GLOBAL : Z := 1.
Definition ELF32_ST_TYPE (info : Z) : Z := Z.land info 0xf.
Definition ELF32_ST_BIND (info : Z) : Z := Z.shiftr info 4.
Definition IsFunc (s : Sym) : bool := negb (st_shndx s =? SHN_UNDEF) && (ELF32_ST_TYPE (st_info s) =? STT_FUNC).

(** ** The object *)

Module Info.
Record t := mk { size : Z; index : Z; name : option (list Z) }.
End Info.
#[global] Instance Info_upd : Updatable Info.t := λ i, Info.mk (Info.size i) (Info.index i) (Info.name i).
Record Symbols := mkSymbols {
  offset_ : Z; count_ : Z; entry_size_ : Z; str_offset_ : Z; str_end_ : Z;
  symbols_ : gmap Z Info.t; remap_ : option (list Z); global_variables_ : gmap (list Z) (option Z);
}.
#[global] Instance Symbols_upd : Updatable Symbols := λ s,
  mkSymbols (offset_ s) (count_ s) (entry_size_ s) (str_offset_ s) (str_end_ s) (symbols_ s) (remap_ s) (global_variables_ s).
Definition Symbols_new (offset size entry_size str_offset str_size : Z) : Symbols :=
  mkSymbols offset (if negb (entry_size =? 0) then size / entry_size else 0) entry_size str_offset (str_offset ⊞ str_size) ∅ None ∅.
Definition ClearCache (s : Symbols) : Symbols := s <| symbols_ := ∅ |> <| remap_ := None |>.

(** [std::prev] of the [upper_bound] of [addr]: the greatest key not above it. *)
Definition greatest_upto {A} (addr : Z) (m : gmap Z A) : option (Z * A) :=
  map_fold (λ k x best,
    if addr <? k then best
    else match best with
         | Some (k', _) => if k' <? k then Some (k, x) else best
         | None => Some (k, x)
         end) None m.
Definition emplace {A} (k : Z) (x : A) (m : gmap Z A) : gmap Z A := match m !! k with Some _ => m | None => <[k := x]> m end.

Section symbols.
Context {M : Type} `{Memory M} (ty : SymType) (elf_memory : M).

Definition read_sym (s : Symbols) (symbol_index : Z) : option Sym :=
  sym_of ty <$> ReadFully elf_memory (offset_ s ⊞ symbol_index ⊠ entry_size_ s) (sizeof_Sym ty).

(** ** Search *)

Definition symbol_index (RemapIndices : bool) (s : Symbols) (current : Z) : option Z :=
  if RemapIndices then remap_ s ≫= λ remap, remap !! Z.to_nat current else Some current.

(** The entry found with the offset in the function, and the cache. *)
Fixpoint search_symbols (fuel : nat) (RemapIndices : bool) (s : Symbols) (addr first last : Z) (cache : gmap Z Info.t) :
    option (option (Z * Z) * gmap Z Info.t) :=
  if first <? last then
    match fuel with
    | O => None
    | S fuel =>
        let current := first + (last - first) / 2 in
        i ← symbol_index RemapIndices s current;
        match read_sym s i with
        | None => Some (None, cache)
        | Some sym =>
            let key := sym_end ty sym in
            let cache := emplace key (Info.mk (u32 (st_size sym)) current None) cache in
            if addr <? st_value sym then search_symbols fuel RemapIndices s addr first current cache
            else if addr <? key then Some (Some (key, addr - st_value sym), cache)
            else search_symbols fuel RemapIndices s addr (current + 1) last cache
        end
    end
  else Some (None, cache).

Definition BinarySearch (RemapIndices : bool) (s : Symbols) (addr : Z) : option (option (Z * Z) * Symbols) :=
  let it := least_above addr (symbols_ s) in
  let fast := match it with
    | Some (k, info) => let sym_value := k ⊟ Info.size info in if sym_value <=? addr then Some (k, addr - sym_value) else None
    | None => None
    end in
  match fast with
  | Some found => Some (Some found, s)
  | None =>
      let count := u32 (if RemapIndices then from_option (λ l, Z.of_nat (length l)) 0 (remap_ s) else count_ s) in
      let last := match it with Some (_, info) => Info.index info | None => count end in
      let first := match greatest_upto addr (symbols_ s) with Some (_, info) => u32 (Info.index info + 1) | None => 0 end in
      '(found, cache) ← search_symbols (Z.to_nat (last - first)) RemapIndices s addr first last (symbols_ s);
      Some (found, s <| symbols_ := cache |>)
  end.

(** ** The sorted indices *)

(** The symbols in [size] bytes of a batch: their addresses and the indices of
    functions; the index after them. *)
Fixpoint remap_batch (fuel : nat) (s : Symbols) (buffer : list Z) (offset symbol_idx : Z) (addrs remap : list Z) :
    option (Z * list Z * list Z) :=
  if offset + sizeof_Sym ty <=? Z.of_nat (length buffer) then
    match fuel with
    | O => None
    | S fuel =>
        let sym := sym_of ty (take (Z.to_nat (sizeof_Sym ty)) (drop (Z.to_nat offset) buffer)) in
        remap_batch fuel s buffer (offset + entry_size_ s) (symbol_idx + 1) (addrs ++ [st_value sym])
          (if IsFunc sym then remap ++ [u32 symbol_idx] else remap)
    end
  else Some (symbol_idx, addrs, remap).
Fixpoint remap_batches (fuel : nat) (s : Symbols) (symbol_idx : Z) (addrs remap : list Z) : option (list Z * list Z) :=
  if symbol_idx <? count_ s then
    match fuel with
    | O => None
    | S fuel =>
        let read := Z.min 1024 ((count_ s ⊟ symbol_idx) ⊠ entry_size_ s) in
        let buffer := Read elf_memory (offset_ s ⊞ symbol_idx ⊠ entry_size_ s) read in
        if Z.of_nat (length buffer) <? sizeof_Sym ty then Some (addrs, remap)
        else
          '(symbol_idx, addrs, remap) ← remap_batch 1024 s buffer 0 symbol_idx addrs remap;
          remap_batches fuel s symbol_idx addrs remap
    end
  else Some (addrs, remap).

Definition addr_at (addrs : list Z) (a : Z) : Z := default 0 (addrs !! Z.to_nat a).
Definition comp (addrs : list Z) (a b : Z) : bool :=
  (addr_at addrs a <? addr_at addrs b) || ((addr_at addrs a =? addr_at addrs b) && (a <? b)).
(** [std::unique]: what compares equal to the element kept before it goes. *)
Fixpoint unique_from {A} (pred : A → A → bool) (kept : A) (l : list A) : list A :=
  match l with
  | [] => []
  | x :: l => if pred kept x then unique_from pred kept l else x :: unique_from pred x l
  end.
Definition unique {A} (pred : A → A → bool) (l : list A) : list A :=
  match l with [] => [] | x :: l => x :: unique_from pred x l end.
Definition BuildRemapTable (fuel : nat) (s : Symbols) : option Symbols :=
  '(addrs, remap) ← remap_batches fuel s 0 [] [];
  Some (s <| remap_ := Some (unique (λ a b, addr_at addrs a =? addr_at addrs b) (sort_by (comp addrs) remap)) |>).

(** ** Names *)

(** Lines 123-136: the entry, with the retry through sorted indices. *)
Definition find_info (fuel : nat) (s : Symbols) (addr : Z) : option (option (Z * Z) * Symbols) :=
  match remap_ s with
  | None =>
      '(found, s) ← BinarySearch false s addr;
      match found with
      | Some r => Some (Some r, s)
      | None => s ← BuildRemapTable fuel s; BinarySearch true (s <| symbols_ := ∅ |>) addr
      end
  | Some _ => BinarySearch true s addr
  end.
(** Lines 142-154. *)
Definition read_name (s : Symbols) (i : Z) : option (list Z) :=
  sym ← read_sym s i;
  let str := str_offset_ s + st_name sym in
  if (2 ^ 64 <=? str) || (str_end_ s <=? str) then None
  else if negb (IsFunc sym) then None
  else ReadString elf_memory str (str_end_ s - str).
(** The name and the offset in the function. *)
Definition GetName (fuel : nat) (s : Symbols) (addr : Z) : option (option (list Z * Z) * Symbols) :=
  '(found, s) ← find_info fuel s addr;
  match found with
  | None => Some (None, s)
  | Some (key, func_offset) =>
      info ← symbols_ s !! key;
      match Info.name info with
      | Some name => Some (Some (name, func_offset), s)
      | None =>
          i ← symbol_index (bool_decide (is_Some (remap_ s))) s (Info.index info);
          match read_name s i with
          | None => Some (None, s)
          | Some name => Some (Some (name, func_offset), s <| symbols_ := <[key := info <| Info.name := Some name |>]> (symbols_ s) |>)
          end
      end
  end.

(** ** Global variables *)

(** The scan ends with an address, with nothing, or early at a failed read. *)
Inductive Scanned := ScanFound (value : Z) | ScanNone | ScanUnreadable.
Definition is_global (name : list Z) (s : Symbols) (entry : Sym) : bool :=
  negb (st_shndx entry =? SHN_UNDEF) && (ELF32_ST_TYPE (st_info entry) =? STT_OBJECT) && (ELF32_ST_BIND (st_info entry) =? STB_GLOBAL)
  && (let str_offset := str_offset_ s ⊞ st_name entry in
      (str_offset <? str_end_ s) && bool_decide (ReadString elf_memory str_offset (str_end_ s - str_offset) = Some name)).
Fixpoint scan_globals (fuel : nat) (s : Symbols) (name : list Z) (i : Z) : option Scanned :=
  if i <? count_ s then
    match fuel with
    | O => None
    | S fuel =>
        match read_sym s i with
        | None => Some ScanUnreadable
        | Some entry => if is_global name s entry then Some (ScanFound (st_value entry)) else scan_globals fuel s name (u32 (i + 1))
        end
    end
  else Some ScanNone.
Definition GetGlobal (fuel : nat) (s : Symbols) (name : list Z) : option (option Z * Symbols) :=
  match global_variables_ s !! name with
  | Some value => Some (value, s)
  | None =>
      scanned ← scan_globals fuel s name 0;
      match scanned with
      | ScanFound value => Some (Some value, s <| global_variables_ := <[name := Some value]> (global_variables_ s) |>)
      | ScanNone => Some (None, s <| global_variables_ := <[name := None]> (global_variables_ s) |>)
      | ScanUnreadable => Some (None, s)
      end
  end.
End symbols.
