(* ===== verification/SymbolsProps.v ===== *)
(** * Symbol tables: functions and variables are found

    The search by address finds the function of every address, whatever the order
    of the table and whatever was asked before; the scan by name finds the first
    global variable.  And what the search needs of the table. *)
From S2P Require Import Prelude UnwindMemory DwarfIndex Symbols.

(** ** The entries around an address *)

Lemma greatest_upto_spec {A} (a : Z) (m : gmap Z A) :
  match greatest_upto a m with
  | Some (k, x) => m !! k = Some x ∧ k ≤ a
  | None => ∀ k x, m !! k = Some x → a < k
  end.
Proof.
  unfold greatest_upto. apply (map_fold_weak_ind (λ best m, match best with
    | Some (k, x) => m !! k = Some x ∧ k ≤ a
    | None => ∀ k x, m !! k = Some x → a < k end)).
  - intros k x. by rewrite lookup_empty.
  - intros k x m' best Hk IH. destruct (a <? k) eqn:E; bool_hyps; destruct best as [[k' x']|].
    + rewrite lookup_insert_ne by (intros ->; naive_solver). done.
    + intros k1 x1 [[<- <-]|[_ ?]]%lookup_insert_Some; [done|eauto].
    + destruct (k' <? k); [by rewrite lookup_insert_eq|]. rewrite lookup_insert_ne by (intros ->; naive_solver). done.
    + by rewrite lookup_insert_eq.
Qed.

Lemma emplace_lookup {A} k (x : A) m k' y : emplace k x m !! k' = Some y → m !! k' = Some y ∨ (k' = k ∧ y = x).
Proof. unfold emplace. destruct (m !! k); [by left|]. intros [[<- <-]|[_ ?]]%lookup_insert_Some; eauto. Qed.
Lemma emplace_is_Some {A} k (x : A) m : is_Some (emplace k x m !! k).
Proof. unfold emplace. destruct (m !! k) eqn:E; [by rewrite E|by rewrite lookup_insert_eq]. Qed.

Lemma symbols_eta s : s <| symbols_ := symbols_ s |> = s.
Proof. by destruct s. Qed.

Lemma take_drop_in (a n c r : nat) (l : list Z) : (c + n ≤ r)%nat → take n (drop c (take r (drop a l))) = take n (drop (a + c) l).
Proof. intros Hle. by rewrite take_drop_commute, take_take, Nat.min_l, <-take_drop_commute, drop_drop by done. Qed.

Lemma StronglySorted_mono_elem {A} (R R' : A → A → Prop) l :
  (∀ a b, a ∈ l → b ∈ l → R a b → R' a b) → StronglySorted R l → StronglySorted R' l.
Proof.
  intros HR. induction 1 as [|x l Hs IH Hall]; constructor.
  - apply IH. intros a b ? ?. apply HR; by right.
  - rewrite Forall_forall in *. intros y Hy. apply HR; [left|by right|by apply Hall].
Qed.

Lemma unique_from_spec (f : Z → Z) kept l : StronglySorted (λ a b, f a ≤ f b) (kept :: l) →
  let u := kept :: unique_from (λ a b, f a =? f b) kept l in
  StronglySorted (λ a b, f a < f b) u ∧ u ⊆ kept :: l ∧ ∀ x, x ∈ kept :: l → ∃ y, y ∈ u ∧ f y = f x.
Proof.
  revert kept. induction l as [|x l IH]; intros kept Hs; cbn; [split_and!; [by repeat constructor|done|eauto]|].
  inversion_clear Hs as [|? ? Hs' Hall]. inversion_clear Hs' as [|? ? Hs Hx]. inversion_clear Hall as [|? ? Hk Hall'].
  destruct (f kept =? f x) eqn:E; bool_hyps.
  - destruct (IH kept) as (Hu & Hsub & Hrep); [by constructor|]. split_and!; [done|set_solver|].
    intros y [->|[->|Hy]%elem_of_cons]%elem_of_cons; [eauto using list_elem_of_here| |apply Hrep; by right].
    exists kept. split; [left|done].
  - destruct (IH x) as (Hu & Hsub & Hrep); [by constructor|]. split_and!.
    + constructor; [done|]. apply Forall_forall. intros y Hy. assert (f x ≤ f y); [|lia].
      apply Hsub in Hy as [->|Hy]%elem_of_cons; [done|]. by eapply Forall_forall in Hx.
    + set_solver.
    + intros y [->|Hy]%elem_of_cons; [eauto using list_elem_of_here|]. destruct (Hrep y Hy) as (z & Hz & Ez). exists z. split; [by right|done].
Qed.

(** ** A table in memory *)

Section table.
Context {M : Type} `{Memory M} (ty : SymType) (m : M) (s0 : Symbols) (bytes : list Z).

Abbreviation count := (count_ s0).
Abbreviation entry := (entry_size_ s0).
Definition sym (i : Z) : Sym := sym_of ty (take (Z.to_nat (sizeof_Sym ty)) (drop (Z.to_nat (i * entry)) bytes)).
Definition in_table (i : Z) : Prop := 0 ≤ i < count.
Definition func_end (i : Z) : Z := st_value (sym i) + st_size (sym i).
Definition contains (i addr : Z) : Prop := st_value (sym i) ≤ addr < func_end i.
Definition same_range (i j : Z) : Prop := st_value (sym i) = st_value (sym j) ∧ st_size (sym i) = st_size (sym j).

(** The bytes of the table are in memory, and there are fewer than [2^32]
    entries, each at least as large as the structure. *)
Record readable : Prop := {
  rd_read : ∀ a n, 0 ≤ a → 0 ≤ n → a + n ≤ Z.of_nat (length bytes) → Read m (offset_ s0 ⊞ a) n = take (Z.to_nat n) (drop (Z.to_nat a) bytes);
  rd_length : Z.of_nat (length bytes) = count * entry;
  rd_size : count * entry < 2 ^ 64;
  rd_count : 0 ≤ count < 2 ^ 32;
  rd_entry : sizeof_Sym ty ≤ entry;
}.
(** No symbol wraps around; functions are not empty and have names; a symbol
    that overlaps a function, or ends where it ends, is a function of the same
    range. *)
Record functions_apart : Prop := {
  fa_word : ∀ i, in_table i → 0 ≤ st_value (sym i) ∧ 0 ≤ st_size (sym i) < 2 ^ 32 ∧ sym_end ty (sym i) = func_end i ∧ func_end i < 2 ^ 64;
  fa_size : ∀ i, in_table i → IsFunc (sym i) = true → 0 < st_size (sym i) ∧ is_Some (read_name ty m s0 i);
  fa_apart : ∀ i j, in_table i → in_table j → IsFunc (sym i) = true →
    func_end i = func_end j ∨ (∃ a, contains i a ∧ contains j a) → same_range i j ∧ IsFunc (sym j) = true;
}.
Definition function_at (addr i : Z) : Prop := in_table i ∧ IsFunc (sym i) = true ∧ contains i addr.

Context (Hr : readable) (Hf : functions_apart).

(** [s] differs from [s0] in its caches only. *)
Definition same_table (s : Symbols) : Prop :=
  offset_ s = offset_ s0 ∧ count_ s = count ∧ entry_size_ s = entry ∧ str_offset_ s = str_offset_ s0 ∧ str_end_ s = str_end_ s0.

Lemma sizeof_pos : 0 < sizeof_Sym ty ≤ 1024.
Proof using Type. by destruct ty. Qed.

Lemma read_sym_table s i : same_table s → in_table i → read_sym ty m s i = Some (sym i).
Proof using Hr.
  intros (Ho & _ & He & _) Hi. unfold read_sym, ReadFully. rewrite Ho, He. destruct Hr as [Hread Hlen Hsz Hcount Hentry].
  pose proof sizeof_pos. unfold in_table in Hi.
  assert (i * entry + entry ≤ count * entry) by nia. assert (0 ≤ i * entry) by nia.
  rewrite (u64_small (i * entry)) by lia. rewrite Hread by lia.
  rewrite length_take, length_drop. case_match eqn:E; [done|]. bool_hyps. lia.
Qed.
Lemma read_name_table s i : same_table s → in_table i → read_name ty m s i = read_name ty m s0 i.
Proof using Hr.
  intros Hs Hi. unfold read_name. rewrite !read_sym_table by done. destruct Hs as (_ & _ & _ & -> & ->). done.
Qed.
Lemma read_name_func i n : in_table i → read_name ty m s0 i = Some n → IsFunc (sym i) = true.
Proof using Hr.
  intros Hi. unfold read_name. rewrite read_sym_table by done. cbn. destruct (_ || _); [done|]. by destruct (IsFunc (sym i)).
Qed.

(** ** The search *)

(** The first [n] indices of a mode lead to entries of the table. *)
Definition indexed (b : bool) (s : Symbols) (n : Z) : Prop :=
  0 ≤ n < 2 ^ 32 ∧ ∀ x, 0 ≤ x < n → ∃ i, symbol_index b s x = Some i ∧ in_table i.
Definition ordered (b : bool) (s : Symbols) (n : Z) : Prop :=
  ∀ x y i j, 0 ≤ x < y → y < n → symbol_index b s x = Some i → symbol_index b s y = Some j → func_end i ≤ st_value (sym j).
(** What an entry of the cache says is so. *)
Definition info_ok (b : bool) (s : Symbols) (n k : Z) (info : Info.t) : Prop :=
  0 ≤ Info.index info < n ∧ ∃ i, symbol_index b s (Info.index info) = Some i ∧ in_table i ∧ func_end i = k ∧
    Info.size info = st_size (sym i) ∧ ∀ name, Info.name info = Some name → read_name ty m s0 i = Some name.
Definition cache_ok (b : bool) (s : Symbols) (n : Z) (cache : gmap Z Info.t) : Prop :=
  ∀ k info, cache !! k = Some info → info_ok b s n k info.
(** An entry was found for a symbol that contains the address. *)
Definition found_ok (addr : Z) (cache : gmap Z Info.t) (r : Z * Z) : Prop :=
  is_Some (cache !! r.1) ∧ ∃ c, in_table c ∧ contains c addr ∧ func_end c = r.1 ∧ r.2 = addr - st_value (sym c).
Definition none_between (b : bool) (s : Symbols) (addr lo hi : Z) : Prop :=
  ∀ x i, lo ≤ x < hi → symbol_index b s x = Some i → ¬ contains i addr.

Lemma cache_ok_empty b s n : cache_ok b s n ∅.
Proof using Type. intros k info Ek. by rewrite lookup_empty in Ek. Qed.
Lemma cache_ok_emplace b s n cache x i :
  cache_ok b s n cache → 0 ≤ x < n → symbol_index b s x = Some i → in_table i →
  cache_ok b s n (emplace (func_end i) (Info.mk (u32 (st_size (sym i))) x None) cache).
Proof using Hf.
  intros Hc Hx Ei Hi k info [E|[-> ->]]%emplace_lookup; [by apply Hc|]. split; [done|]. exists i. cbn.
  destruct (fa_word Hf i Hi) as (_ & Hsz & _). split_and!; try done. by apply Z.mod_small.
Qed.

Lemma search_symbols_spec b s n addr : same_table s → indexed b s n → ∀ fuel first last cache,
  0 ≤ first → last ≤ n → (Z.to_nat (last - first) ≤ fuel)%nat → cache_ok b s n cache →
  ∃ r cache', search_symbols ty m fuel b s addr first last cache = Some (r, cache') ∧ cache_ok b s n cache' ∧
    match r with Some r => found_ok addr cache' r | None => ordered b s n → none_between b s addr first last end.
Proof using Hr Hf.
  intros Hs [Hn Hidx] fuel. induction fuel as [|fuel IH]; intros first last cache H0 Hl Hfuel Hc; cbn [search_symbols];
    destruct (first <? last) eqn:E; bool_hyps; try lia;
    try by (exists None, cache; split_and!; [done..|intros _ x i ?; lia]).
  set (cur := first + (last - first) / 2) in *. assert (first ≤ cur < last) as Hcur by (unfold cur; pose proof (Z.div_lt (last - first) 2); pose proof (Z.div_pos (last - first) 2); lia).
  destruct (Hidx cur ltac:(lia)) as (i & Ei & Hi). rewrite Ei. cbn. rewrite read_sym_table by done.
  destruct (fa_word Hf i Hi) as (Hv & Hsz & He & _). rewrite He.
  pose proof (cache_ok_emplace b s n cache cur i Hc ltac:(lia) Ei Hi) as Hc'.
  destruct (addr <? st_value (sym i)) eqn:E1; [|destruct (addr <? func_end i) eqn:E2]; bool_hyps.
  - destruct (IH first cur _ H0 ltac:(lia) ltac:(lia) Hc') as (r & cache' & -> & Hok & Hres). exists r, cache'. split_and!; [done..|].
    destruct r; [done|]. intros Ho x j Hx Ej [Hj1 Hj2]. destruct (decide (x < cur)) as [|Hge]; [eapply (Hres Ho x j); [lia|done|by split]|].
    destruct (decide (x = cur)) as [->|]; [rewrite Ej in Ei; simplify_eq; lia|].
    pose proof (Ho cur x i j ltac:(lia) ltac:(lia) Ei Ej). unfold func_end in *. lia.
  - eexists _, _. split_and!; [done..|]. split; [apply emplace_is_Some|]. exists i. by split_and!.
  - destruct (IH (cur + 1) last _ ltac:(lia) Hl ltac:(lia) Hc') as (r & cache' & -> & Hok & Hres). exists r, cache'. split_and!; [done..|].
    destruct r; [done|]. intros Ho x j Hx Ej [Hj1 Hj2]. destruct (decide (cur < x)) as [|Hge]; [eapply (Hres Ho x j); [lia|done|by split]|].
    destruct (decide (x = cur)) as [->|]; [rewrite Ej in Ei; simplify_eq; lia|].
    pose proof (Ho x cur j i ltac:(lia) ltac:(lia) Ej Ei). unfold func_end in *. lia.
Qed.

(** The number of indices of a mode. *)
Definition mode_count (b : bool) (s : Symbols) : Z :=
  if b then from_option (λ l, Z.of_nat (length l)) 0 (remap_ s) else count_ s.

(** Outside the range the cache leaves, nothing contains the address. *)
Lemma cache_bounds b s n addr :
  cache_ok b s n (symbols_ s) → ordered b s n →
  (∀ k info, least_above addr (symbols_ s) = Some (k, info) → addr < k - Info.size info) →
  none_between b s addr 0 (match greatest_upto addr (symbols_ s) with Some (_, info) => Info.index info + 1 | None => 0 end) ∧
  none_between b s addr (match least_above addr (symbols_ s) with Some (_, info) => Info.index info | None => n end) n.
Proof using Hf.
  intros Hc Ho Hslow. split.
  - pose proof (greatest_upto_spec addr (symbols_ s)) as Hg. destruct (greatest_upto addr (symbols_ s)) as [[k info]|]; [|intros x i ?; lia].
    destruct Hg as [Hk Ha]. destruct (Hc k info Hk) as (Hin & p & Ep & Hp & Hend & _).
    intros x i Hx Ei [Hi1 Hi2]. destruct (decide (x = Info.index info)) as [->|]; [rewrite Ei in Ep; simplify_eq; lia|].
    pose proof (Ho x (Info.index info) i p ltac:(lia) ltac:(lia) Ei Ep). destruct (fa_word Hf p Hp) as (_ & ? & _). unfold func_end in *. lia.
  - pose proof (least_above_spec addr (symbols_ s)) as Hg. destruct (least_above addr (symbols_ s)) as [[k info]|]; [|intros x i ?; lia].
    destruct Hg as [Hk _]. destruct (Hc k info Hk) as (Hin & p & Ep & Hp & Hend & Hsize & _). specialize (Hslow _ _ eq_refl). rewrite Hsize in Hslow.
    intros x i Hx Ei [Hi1 Hi2]. destruct (decide (x = Info.index info)) as [->|]; [rewrite Ei in Ep; simplify_eq; unfold func_end in *; lia|].
    pose proof (Ho (Info.index info) x p i ltac:(lia) ltac:(lia) Ep Ei). destruct (fa_word Hf p Hp) as (_ & ? & _). unfold func_end in *. lia.
Qed.

Lemma BinarySearch_spec b s addr (n := mode_count b s) :
  same_table s → indexed b s n → cache_ok b s n (symbols_ s) →
  ∃ r cache, BinarySearch ty m b s addr = Some (r, s <| symbols_ := cache |>) ∧ cache_ok b s n cache ∧
    match r with Some r => found_ok addr cache r | None => ordered b s n → none_between b s addr 0 n end.
Proof using Hr Hf.
  intros Hs Hn Hc. unfold BinarySearch. fold (mode_count b s). change (mode_count b s) with n.
  replace (u32 n) with n by (symmetry; apply Z.mod_small, Hn).
  pose proof (least_above_spec addr (symbols_ s)) as Hla. pose proof (greatest_upto_spec addr (symbols_ s)) as Hgu.
  pose proof (cache_bounds b s n addr Hc) as Hb.
  set (last := match least_above addr (symbols_ s) with Some (_, info) => Info.index info | None => n end) in *.
  set (lo := match greatest_upto addr (symbols_ s) with Some (_, info) => u32 (Info.index info + 1) | None => 0 end).
  assert (lo = match greatest_upto addr (symbols_ s) with Some (_, info) => Info.index info + 1 | None => 0 end ∧ 0 ≤ lo) as [Hlo Hlo0].
  { unfold lo. destruct (greatest_upto addr (symbols_ s)) as [[k info]|]; [|done]. destruct (Hc k info) as [? _]; [apply Hgu|]. destruct Hn.
    replace (u32 (Info.index info + 1)) with (Info.index info + 1) by (symmetry; apply Z.mod_small; lia). lia. }
  rewrite <-Hlo in Hb.
  assert (last ≤ n) as Hlast.
  { unfold last. destruct (least_above addr (symbols_ s)) as [[k info]|]; [|done]. destruct (Hc k info) as [? _]; [apply Hla|lia]. }
  destruct (search_symbols_spec b s n addr Hs Hn (Z.to_nat (last - lo)) lo last (symbols_ s) Hlo0 Hlast ltac:(lia) Hc) as (r & cache & E & Hok & Hres).
  match goal with |- context [match ?f with Some found => Some (Some found, s) | None => _ end] => set (fast := f) end.
  assert (match fast with
    | Some r => found_ok addr (symbols_ s) r
    | None => ∀ k info, least_above addr (symbols_ s) = Some (k, info) → addr < k - Info.size info end) as Hfast.
  { unfold fast. destruct (least_above addr (symbols_ s)) as [[k info]|]; [|done]. destruct Hla as [Hk [Ha _]].
    destruct (Hc k info Hk) as (_ & i & _ & Hi & Hend & Hsize & _). destruct (fa_word Hf i Hi) as (? & ? & _ & ?). unfold func_end in *.
    cbv zeta. rewrite (u64_small (k - Info.size info)) by lia. destruct (k - Info.size info <=? addr) eqn:El; bool_hyps.
    - split; [by eexists|]. exists i. unfold contains, func_end. cbn. split_and!; try done; lia.
    - intros ? ? [= <- <-]. done. }
  destruct fast as [r0|].
  - exists (Some r0), (symbols_ s). rewrite symbols_eta. by split_and!.
  - rewrite E. exists r, cache. split_and!; try done. destruct r as [|]; [done|]. intros Ho x i Hx Ei.
    destruct (Hb Ho Hfast) as [Hb1 Hb2]. destruct (decide (x < lo)); [eapply (Hb1 x); [lia|done]|]. destruct (decide (last ≤ x)); [eapply (Hb2 x); [lia|done]|].
    eapply (Hres Ho x); [lia|done].
Qed.

(** ** The sorted indices *)

Definition is_func (i : Z) : Prop := IsFunc (sym i) = true.
#[local] Instance is_func_dec i : Decision (is_func i) := decide (IsFunc (sym i) = true).
Definition values_upto (n : Z) : list Z := (λ i, st_value (sym i)) <$> seqZ 0 n.
Definition funcs_upto (n : Z) : list Z := filter is_func (seqZ 0 n).

Lemma upto_succ n : 0 ≤ n →
  values_upto (n + 1) = values_upto n ++ [st_value (sym n)] ∧
  funcs_upto (n + 1) = funcs_upto n ++ (if IsFunc (sym n) then [n] else []).
Proof using Type.
  intros Hn. unfold values_upto, funcs_upto. rewrite (seqZ_app 0 n 1) by lia. rewrite fmap_app, filter_app. rewrite Z.add_0_l.
  replace (seqZ n 1) with [n] by (by rewrite seqZ_cons, seqZ_nil by lia). split; [done|]. f_equal. rewrite filter_cons, filter_nil. unfold is_func.
  case_decide as E; [by rewrite E|]. by destruct (IsFunc (sym n)).
Qed.

Lemma remap_batch_spec s i0 (r := Z.min 1024 ((count - i0) * entry)) : same_table s → 0 ≤ i0 < count → ∀ fuel idx,
  i0 ≤ idx ≤ count → 1024 ≤ Z.of_nat fuel + (idx - i0) * entry →
  ∃ idx', idx ≤ idx' ≤ count ∧ (idx = i0 → idx < idx') ∧
    remap_batch ty fuel s (take (Z.to_nat r) (drop (Z.to_nat (i0 * entry)) bytes)) ((idx - i0) * entry) idx (values_upto idx) (funcs_upto idx)
      = Some (idx', values_upto idx', funcs_upto idx').
Proof using Hr.
  intros Hs Hi0 fuel. destruct Hr as [_ Hlen Hsz Hcount Hentry]. pose proof sizeof_pos as Hpos. destruct Hs as (_ & _ & He & _).
  assert (Z.of_nat (length (take (Z.to_nat r) (drop (Z.to_nat (i0 * entry)) bytes))) = r) as Hlr.
  { rewrite length_take, length_drop. unfold r. nia. }
  induction fuel as [|fuel IH]; intros idx Hidx Hfuel; cbn [remap_batch]; rewrite Hlr; destruct (_ <=? r) eqn:E; bool_hyps; try lia.
  1, 3: exists idx; split_and!; [lia..| |done]; intros ->; exfalso; unfold r in E; nia.
  rewrite He. assert (idx < count) as Hlt by (unfold r in E; nia).
  rewrite take_drop_in by (unfold r in *; nia). replace (Z.to_nat (i0 * entry) + Z.to_nat ((idx - i0) * entry))%nat with (Z.to_nat (idx * entry)) by nia.
  fold (sym idx). destruct (upto_succ idx ltac:(lia)) as [Hv Hfu].
  destruct (IH (idx + 1) ltac:(lia) ltac:(nia)) as (idx' & Hr1 & _ & E'). exists idx'. split_and!; [lia..|].
  rewrite <-E'. rewrite Hv, Hfu. replace (u32 idx) with idx by (symmetry; apply Z.mod_small; lia).
  replace ((idx + 1 - i0) * entry) with ((idx - i0) * entry + entry) by lia.
  destruct (IsFunc (sym idx)); [done|]. by rewrite app_nil_r.
Qed.

Lemma remap_batches_spec s : same_table s → ∀ fuel idx, 0 ≤ idx ≤ count → count - idx ≤ Z.of_nat fuel →
  remap_batches ty m fuel s idx (values_upto idx) (funcs_upto idx) = Some (values_upto count, funcs_upto count).
Proof using Hr.
  intros Hs fuel. pose proof sizeof_pos as Hpos. pose proof Hs as (Ho & Hc & He & _). pose proof Hr as [Hread Hlen Hsz Hcount Hentry].
  induction fuel as [|fuel IH]; intros idx Hidx Hfuel; cbn [remap_batches]; rewrite Hc, ?Ho, ?He; destruct (idx <? count) eqn:E; bool_hyps; try lia.
  1, 3: by replace idx with count by lia.
  rewrite (u64_small (count - idx)), (u64_small ((count - idx) * entry)), (u64_small (idx * entry)) by nia.
  rewrite Hread by nia. case_match eqn:E'; bool_hyps; [rewrite length_take, length_drop in E'; nia|].
  destruct (remap_batch_spec s idx Hs ltac:(lia) 1024 idx ltac:(lia) ltac:(lia)) as (idx' & Hr1 & Hgt & Eb).
  rewrite Z.sub_diag, Z.mul_0_l in Eb. rewrite Eb. cbn [mbind option_bind]. apply IH; [lia|]. specialize (Hgt eq_refl). lia.
Qed.

Lemma addr_at_values i : in_table i → addr_at (values_upto count) i = st_value (sym i).
Proof using Type.
  intros Hi. unfold addr_at, values_upto. rewrite list_lookup_fmap, lookup_seqZ_lt by (unfold in_table in Hi; lia). cbn. do 2 f_equal. unfold in_table in Hi. lia.
Qed.
Lemma elem_of_funcs i : i ∈ funcs_upto count ↔ in_table i ∧ is_func i.
Proof using Type. unfold funcs_upto, in_table. rewrite list_elem_of_filter, elem_of_seqZ. intuition lia. Qed.

(** The indices lead to functions in order of their addresses, one for every
    address at which a function starts. *)
Definition remap_ok (l : list Z) : Prop :=
  StronglySorted (λ a b, st_value (sym a) < st_value (sym b)) l ∧ (∀ i, i ∈ l → in_table i ∧ is_func i) ∧
  (∀ i, in_table i → is_func i → ∃ j, j ∈ l ∧ st_value (sym j) = st_value (sym i)).

Lemma comp_asym addrs a b : comp addrs a b = true → comp addrs b a = false.
Proof using Type. unfold comp. lia. Qed.
Lemma comp_trans addrs a b c : comp addrs b a = false → comp addrs c b = false → comp addrs c a = false.
Proof using Type. unfold comp. lia. Qed.

Lemma BuildRemapTable_spec fuel s : same_table s → count ≤ Z.of_nat fuel →
  ∃ l, BuildRemapTable ty m fuel s = Some (s <| remap_ := Some l |>) ∧ remap_ok l.
Proof using Hr.
  intros Hs Hfuel. unfold BuildRemapTable. destruct (rd_count Hr).
  pose proof (remap_batches_spec s Hs fuel 0 ltac:(lia) ltac:(lia)) as E. change (values_upto 0) with (@nil Z) in E. change (funcs_upto 0) with (@nil Z) in E.
  rewrite E. cbn [mbind option_bind]. eexists. split; [done|]. set (vs := values_upto count).
  pose proof (sort_by_sorted (comp vs) (comp_asym vs) (comp_trans vs) (funcs_upto count)) as Hsort.
  pose proof (sort_by_perm (comp vs) (funcs_upto count)) as Hperm.
  assert (∀ i, i ∈ sort_by (comp vs) (funcs_upto count) ↔ in_table i ∧ is_func i) as Hel by (intros i; rewrite Hperm; apply elem_of_funcs).
  destruct (sort_by (comp vs) (funcs_upto count)) as [|x l]; cbn [unique].
  - split_and!; [constructor|by intros ? ?%elem_of_nil|]. intros i Hi Hfi. exfalso. by apply (not_elem_of_nil i), Hel.
  - destruct (unique_from_spec (addr_at vs) x l) as (Hs1 & Hsub & Hrep).
    { apply (StronglySorted_mono_elem (not_after (comp vs))); [|done]. intros a b _ _. unfold not_after, comp. lia. }
    assert (∀ i, i ∈ x :: unique_from (λ a b, addr_at vs a =? addr_at vs b) x l → in_table i ∧ is_func i) as Hin by (intros i Hi; apply Hel, Hsub, Hi).
    split_and!; [|done|].
    + apply (StronglySorted_mono_elem (λ a b, addr_at vs a < addr_at vs b)); [|done].
      intros a b Ha Hb. unfold vs. rewrite !addr_at_values; [done|by apply Hin..].
    + intros i Hi Hfi. destruct (Hrep i) as (y & Hy & Ey); [by apply Hel|]. exists y. split; [done|].
      unfold vs in Ey. rewrite !addr_at_values in Ey; [done|done || by apply Hin..].
Qed.

Lemma remap_indexed l s : remap_ok l → remap_ s = Some l → Z.of_nat (length l) ≤ count →
  indexed true s (mode_count true s) ∧ ordered true s (mode_count true s).
Proof using Hr Hf.
  intros (Hsort & Hin & _) Hs Hlen. unfold indexed, ordered, mode_count, symbol_index. rewrite Hs. cbn. destruct (rd_count Hr). split; [split; [lia|]|].
  - intros x Hx. destruct (lookup_lt_is_Some_2 l (Z.to_nat x)) as [i Ei]; [lia|]. exists i. split; [done|]. eapply Hin, list_elem_of_lookup_2, Ei.
  - intros x y i j Hxy Hy Ei Ej. pose proof (StronglySorted_lookup_lt _ l _ _ i j Hsort Ei Ej ltac:(lia)) as Hlt. cbn in Hlt.
    destruct (Hin i) as [Hi Hfi]; [by eapply list_elem_of_lookup_2|]. destruct (Hin j) as [Hj Hfj]; [by eapply list_elem_of_lookup_2|].
    destruct (decide (func_end i ≤ st_value (sym j))) as [|Hov]; [done|]. exfalso.
    destruct (fa_apart Hf i j Hi Hj Hfi) as [[Hv _] _]; [|lia]. right. exists (st_value (sym j)).
    destruct (fa_size Hf j Hj Hfj) as [? _]. unfold contains, func_end in *. lia.
Qed.
Lemma remap_length l : remap_ok l → Z.of_nat (length l) ≤ count.
Proof using Hr.
  intros (Hsort & Hin & _). destruct (rd_count Hr). assert (length l ≤ length (seqZ 0 count))%nat as Hle; [|rewrite length_seqZ in Hle; lia].
  apply submseteq_length, NoDup_submseteq.
  - apply NoDup_alt. intros a b x Ea Eb. destruct (decide (a = b)) as [|Hne]; [done|]. exfalso.
    destruct (decide (a < b)%nat); [pose proof (StronglySorted_lookup_lt _ l a b x x Hsort Ea Eb)|pose proof (StronglySorted_lookup_lt _ l b a x x Hsort Eb Ea)]; cbn in *; lia.
  - intros x Hx. apply elem_of_seqZ. destruct (Hin x Hx) as [Hx' _]. unfold in_table in Hx'. lia.
Qed.

(** ** Requests *)

Definition mode (s : Symbols) : bool := bool_decide (is_Some (remap_ s)).
Definition symbols_ok (s : Symbols) : Prop :=
  same_table s ∧ cache_ok (mode s) s (mode_count (mode s) s) (symbols_ s) ∧ (∀ l, remap_ s = Some l → remap_ok l).

Lemma mode_indexed s : symbols_ok s → indexed (mode s) s (mode_count (mode s) s) ∧ (mode s = true → ordered true s (mode_count true s)).
Proof using Hr Hf.
  intros (Hs & _ & Hre). unfold mode. destruct (remap_ s) as [l|] eqn:E.
  - rewrite bool_decide_eq_true_2 by done. destruct (remap_indexed l s (Hre l eq_refl) E (remap_length l (Hre l eq_refl))). by split.
  - rewrite bool_decide_eq_false_2 by by intros [? ?]. split; [|done]. destruct Hs as (_ & Hc & _). unfold indexed, mode_count. rewrite Hc.
    split; [apply (rd_count Hr)|]. intros x Hx. by exists x.
Qed.

(** With sorted indices, what is in none of them is in no function. *)
Lemma none_no_function s addr : symbols_ok s → mode s = true → none_between true s addr 0 (mode_count true s) → ∀ i, ¬ function_at addr i.
Proof using Hr Hf.
  intros (Hs & _ & Hre) Hm Hnone i (Hi & Hfi & Hci). unfold mode in Hm. bool_hyps. destruct Hm as [l El].
  destruct (Hre l El) as (_ & Hin & Hrep). destruct (Hrep i Hi Hfi) as (j & Hj & Ev). destruct (Hin j Hj) as [Hjt Hjf].
  apply list_elem_of_lookup in Hj as [x Ex]. apply (Hnone (Z.of_nat x) j).
  - unfold mode_count. rewrite El. apply lookup_lt_Some in Ex. cbn. lia.
  - unfold symbol_index. rewrite El. cbn. by rewrite Nat2Z.id.
  - destruct (fa_size Hf i Hi Hfi) as [? _]. destruct (fa_size Hf j Hjt Hjf) as [? _].
    destruct (fa_apart Hf i j Hi Hjt Hfi) as [[_ Esz] _]; [|unfold contains, func_end in *; lia].
    right. exists (st_value (sym i)). unfold contains, func_end. lia.
Qed.

Lemma symbols_ok_cache s cache :
  symbols_ok s → cache_ok (mode s) s (mode_count (mode s) s) cache → symbols_ok (s <| symbols_ := cache |>).
Proof using Type. intros (Hs & _ & Hre) Hc. by destruct s. Qed.

Lemma find_info_spec fuel s addr : symbols_ok s → count ≤ Z.of_nat fuel →
  ∃ r s', find_info ty m fuel s addr = Some (r, s') ∧ symbols_ok s' ∧ global_variables_ s' = global_variables_ s ∧
    match r with Some r => found_ok addr (symbols_ s') r | None => ∀ i, ¬ function_at addr i end.
Proof using Hr Hf.
  intros Hok Hfuel. unfold find_info. destruct (mode_indexed s Hok) as [Hidx Hord]. pose proof Hok as (Hs & Hc & Hre).
  destruct (BinarySearch_spec (mode s) s addr Hs Hidx Hc) as (r & cache & E & Hc' & Hres).
  destruct (remap_ s) as [l|] eqn:El; unfold mode in *; rewrite El in *.
  - rewrite bool_decide_eq_true_2 in * by done. rewrite E. assert (symbols_ok (s <| symbols_ := cache |>)) as Hok'.
    { apply symbols_ok_cache; [done|]. unfold mode. by rewrite El, bool_decide_eq_true_2. }
    eexists _, _. split_and!; [done..|]. destruct r; [done|]. apply (none_no_function (s <| symbols_ := cache |>)); [done| |by apply Hres, Hord].
    unfold mode. cbn. by rewrite El, bool_decide_eq_true_2.
  - rewrite bool_decide_eq_false_2 in * by by intros [? ?]. rewrite E. cbn [mbind option_bind]. assert (symbols_ok (s <| symbols_ := cache |>)) as Hok'.
    { apply symbols_ok_cache; [done|]. unfold mode. rewrite El. by rewrite bool_decide_eq_false_2 by by intros [? ?]. }
    destruct r as [r|]; [by eexists _, _; split_and!|]. clear E Hres Hidx Hord.
    destruct (BuildRemapTable_spec fuel (s <| symbols_ := cache |>)) as (l & -> & Hl); [apply Hok'|done|]. cbn [mbind option_bind].
    match goal with |- context [BinarySearch ty m true ?x addr] => set (s1 := x) end.
    assert (symbols_ok s1) as Hok1.
    { split_and!; [apply Hs|apply cache_ok_empty|]. intros ? [= <-]. done. }
    destruct (mode_indexed s1 Hok1) as [Hidx Hord].
    destruct (BinarySearch_spec true s1 addr) as (r & cache' & -> & Hc1 & Hres); [apply Hok1|apply Hidx|apply Hok1|].
    eexists _, _. split; [done|]. split; [by apply symbols_ok_cache|]. split; [done|].
    destruct r; [done|]. apply (none_no_function s1); [done..|]. by apply Hres, Hord.
Qed.

Definition name_answer (addr : Z) (r : option (list Z * Z)) : Prop :=
  match r with
  | Some (name, off) => ∃ i, function_at addr i ∧ read_name ty m s0 i = Some name ∧ off = addr - st_value (sym i)
  | None => ∀ i, ¬ function_at addr i
  end.

(** The entry found has a name when a function contains the address, and it is
    the name of one that does. *)
Lemma found_name addr c i : in_table c → contains c addr → in_table i → func_end i = func_end c →
  name_answer addr ((λ name, (name, addr - st_value (sym c))) <$> read_name ty m s0 i).
Proof using Hr Hf.
  intros Hc Hca Hi Hend. destruct (IsFunc (sym i)) eqn:Efi.
  - destruct (fa_size Hf i Hi Efi) as [_ [name En]]. rewrite En. cbn.
    destruct (fa_apart Hf i c Hi Hc Efi) as [[Hv Hsz] Efc]; [by left|]. exists i. rewrite Hv. split; [|done].
    unfold function_at, contains, func_end in *. split_and!; [done..|lia|lia].
  - destruct (read_name ty m s0 i) as [name|] eqn:En; [apply read_name_func in En; congruence|]. intros j (Hj & Hfj & Hja).
    destruct (fa_apart Hf j c Hj Hc Hfj) as [_ Efc]; [eauto|]. destruct (fa_apart Hf c i Hc Hi Efc) as [_ ?]; [by left|congruence].
Qed.

Lemma GetName_spec fuel s addr : symbols_ok s → count ≤ Z.of_nat fuel →
  ∃ r s', GetName ty m fuel s addr = Some (r, s') ∧ symbols_ok s' ∧ global_variables_ s' = global_variables_ s ∧ name_answer addr r.
Proof using Hr Hf.
  intros Hok Hfuel. unfold GetName. destruct (find_info_spec fuel s addr Hok Hfuel) as (r & s' & -> & Hok' & Hg & Hres). cbn [mbind option_bind].
  destruct r as [[key off]|]; [|by eexists _, _; split_and!]. destruct Hres as ([info Einfo] & c & Hc & Hca & Hend & Hoff). cbn in *. rewrite Einfo. cbn.
  pose proof Hok' as (Hs & Hcache & Hre). destruct (Hcache key info Einfo) as (Hx & i & Ei & Hi & Hiend & Hsize & Hname).
  pose proof (found_name addr c i Hc Hca Hi ltac:(congruence)) as Hans. rewrite <-Hoff in Hans.
  destruct (Info.name info) as [name|] eqn:En; [rewrite (Hname name eq_refl) in Hans; by eexists _, _; split_and!|].
  change (bool_decide (is_Some (remap_ s'))) with (mode s'). rewrite Ei. cbn. rewrite read_name_table by done.
  destruct (read_name ty m s0 i) as [name|] eqn:Er; [|by eexists _, _; split_and!].
  eexists _, _. split; [done|]. split; [|by split]. apply symbols_ok_cache; [done|].
  intros k info' [[<- <-]|[_ ?]]%lookup_insert_Some; [|by apply Hcache]. split; [done|]. exists i. split_and!; try done. by intros ? [= <-].
Qed.

(** ** Global variables *)

Definition global_answer (name : list Z) (r : option Z) : Prop :=
  match r with
  | Some v => ∃ i, in_table i ∧ is_global m name s0 (sym i) = true ∧ v = st_value (sym i) ∧ ∀ j, 0 ≤ j < i → is_global m name s0 (sym j) = false
  | None => ∀ i, in_table i → is_global m name s0 (sym i) = false
  end.
Definition globals_ok (s : Symbols) : Prop := ∀ name r, global_variables_ s !! name = Some r → global_answer name r.

Lemma scan_globals_spec s name : same_table s → ∀ fuel i, 0 ≤ i ≤ count → count - i ≤ Z.of_nat fuel →
  (∀ j, 0 ≤ j < i → is_global m name s0 (sym j) = false) →
  ∃ r, scan_globals ty m fuel s name i = Some (from_option ScanFound ScanNone r) ∧ global_answer name r.
Proof using Hr.
  intros Hs fuel. pose proof (rd_count Hr) as Hcount. pose proof Hs as (_ & Hc & _ & Hstr & Hse).
  induction fuel as [|fuel IH]; intros i Hi Hfuel Hno; cbn [scan_globals]; rewrite Hc; destruct (i <? count) eqn:E; bool_hyps; try lia.
  1, 3: exists None; split; [done|]; intros j Hj; apply Hno; unfold in_table in Hj; lia.
  assert (in_table i) as Hit by (unfold in_table; lia). rewrite read_sym_table by done.
  replace (is_global m name s (sym i)) with (is_global m name s0 (sym i)) by (unfold is_global; by rewrite Hstr, Hse).
  destruct (is_global m name s0 (sym i)) eqn:Eg; [by exists (Some (st_value (sym i))); split; [|exists i]|].
  replace (u32 (i + 1)) with (i + 1) by (symmetry; apply Z.mod_small; lia). apply IH; [lia..|].
  intros j Hj. destruct (decide (j = i)) as [->|]; [done|]. apply Hno. lia.
Qed.

Lemma GetGlobal_spec fuel s name : symbols_ok s → globals_ok s → count ≤ Z.of_nat fuel →
  ∃ r s', GetGlobal ty m fuel s name = Some (r, s') ∧ symbols_ok s' ∧ globals_ok s' ∧ global_answer name r.
Proof using Hr.
  intros Hok Hg Hfuel. unfold GetGlobal. destruct (global_variables_ s !! name) as [r|] eqn:E; [by exists r, s; split_and!; eauto|].
  pose proof (rd_count Hr). destruct (scan_globals_spec s name) with (fuel := fuel) (i := 0) as (r & -> & Hr'); [apply Hok|lia..|].
  assert (∀ r, global_answer name r → globals_ok (s <| global_variables_ := <[name := r]> (global_variables_ s) |>)) as Hins.
  { intros r' ? k x Ek. cbn in Ek. apply lookup_insert_Some in Ek as [[<- <-]|[_ ?]]; [done|by apply Hg]. }
  destruct r as [v|]; cbn; eexists _, _; (split; [done|]); (split; [by destruct s|]); (split; [by apply Hins|done]).
Qed.

(** ** Any sequence of requests *)

Inductive Request := AskName (addr : Z) | AskGlobal (name : list Z) | AskClear.
Inductive Response := NameIs (r : option (list Z * Z)) | GlobalIs (r : option Z) | Cleared.
Definition respond (fuel : nat) (s : Symbols) (q : Request) : option (Response * Symbols) :=
  match q with
  | AskName addr => '(r, s) ← GetName ty m fuel s addr; Some (NameIs r, s)
  | AskGlobal name => '(r, s) ← GetGlobal ty m fuel s name; Some (GlobalIs r, s)
  | AskClear => Some (Cleared, ClearCache s)
  end.
Fixpoint respond_all (fuel : nat) (s : Symbols) (l : list Request) : option (list Response) :=
  match l with
  | [] => Some []
  | q :: l => '(r, s) ← respond fuel s q; rs ← respond_all fuel s l; Some (r :: rs)
  end.
Definition right_response (q : Request) (r : Response) : Prop :=
  match q, r with
  | AskName addr, NameIs r => name_answer addr r
  | AskGlobal name, GlobalIs r => global_answer name r
  | AskClear, Cleared => True
  | _, _ => False
  end.

Lemma respond_spec fuel s q : symbols_ok s → globals_ok s → count ≤ Z.of_nat fuel →
  ∃ r s', respond fuel s q = Some (r, s') ∧ symbols_ok s' ∧ globals_ok s' ∧ right_response q r.
Proof using Hr Hf.
  intros Hok Hg Hfuel. destruct q as [addr|name|]; cbn.
  - destruct (GetName_spec fuel s addr Hok Hfuel) as (r & s' & -> & Hok' & Hg' & Hr'). exists (NameIs r), s'. split_and!; try done.
    intros name x. rewrite Hg'. apply Hg.
  - destruct (GetGlobal_spec fuel s name Hok Hg Hfuel) as (r & s' & -> & Hok' & Hg' & Hr'). by exists (GlobalIs r), s'.
  - exists Cleared, (ClearCache s). split_and!; [done| |done|done]. destruct Hok as (Hs & _ & _). split_and!; [done|apply cache_ok_empty|done].
Qed.
Lemma respond_all_spec fuel l : count ≤ Z.of_nat fuel → ∀ s, symbols_ok s → globals_ok s →
  ∃ rs, respond_all fuel s l = Some rs ∧ Forall2 right_response l rs.
Proof using Hr Hf.
  intros Hfuel. induction l as [|q l IH]; intros s Hok Hg; cbn; [by exists []|].
  destruct (respond_spec fuel s q Hok Hg Hfuel) as (r & s' & -> & Hok' & Hg' & Hr'). cbn.
  destruct (IH s' Hok' Hg') as (rs & -> & Hrs). exists (r :: rs). by split; [|constructor].
Qed.
End table.

(** *** An example and a table the search needs more of *)

(** A table at 0 and its strings at 1000, the entries given by the offset of
    their name, their address, size and kind. *)
Definition sym_bytes (e : Z * Z * Z * Z) : list Z :=
  let '(name, value, size, kind) := e in
  [name; 0; 0; 0; kind; 0; 1; 0; value; 0; 0; 0; 0; 0; 0; 0; size; 0; 0; 0; 0; 0; 0; 0].
Definition strtab : list Z := [0; 97; 0; 98; 0; 99; 0].
Definition table_memory (table : list (Z * Z * Z * Z)) : MemoryBuffer :=
  let bytes := concat (sym_bytes <$> table) in mkBuffer (bytes ++ replicate (1000 - length bytes) 0 ++ strtab).
Definition table_symbols (table : list (Z * Z * Z * Z)) : Symbols := Symbols_new 0 (24 * Z.of_nat (length table)) 24 1000 7.
(** [a] and [b] out of order, and the variable [c]. *)
Definition plain_table : list (Z * Z * Z * Z) := [(3, 50, 10, 2); (5, 100, 4, 17); (1, 20, 30, 2)].
(** [a] with an empty function [b] where it ends. *)
Definition empty_table : list (Z * Z * Z * Z) := [(1, 20, 30, 2); (3, 50, 0, 2)].


Lemma buffer_prefix bytes rest a n : Z.of_nat (length bytes) < 2 ^ 64 → 0 ≤ a → 0 ≤ n → a + n ≤ Z.of_nat (length bytes) →
  Read (mkBuffer (bytes ++ rest)) (0 ⊞ a) n = take (Z.to_nat n) (drop (Z.to_nat a) bytes).
Proof.
  intros Hlen Ha Hn Han. rewrite Z.add_0_l, u64_small by lia. change (Read (mkBuffer (bytes ++ rest)) a n) with (buffer_read (bytes ++ rest) a n).
  unfold buffer_read. rewrite length_app. destruct (_ >=? _) eqn:E.
  - apply Z.geb_le in E. by replace (Z.to_nat n) with 0%nat by lia.
  - rewrite Z.geb_leb in E. bool_hyps. rewrite Z.min_r by lia. rewrite drop_app_le, take_app_le; [done|rewrite length_drop; lia|lia].
Qed.
Definition plain_bytes : list Z := Eval vm_compute in concat (sym_bytes <$> plain_table).
Lemma plain_cases i : in_table (table_symbols plain_table) i → i = 0 ∨ i = 1 ∨ i = 2.
Proof. unfold in_table. change (count_ (table_symbols plain_table)) with 3. lia. Qed.
Lemma plain_readable : readable Elf64_Sym (table_memory plain_table) (table_symbols plain_table) plain_bytes.
Proof. split; [|by vm_compute..]. intros a n Ha Hn Han. by apply buffer_prefix. Qed.
Ltac eval_syms :=
  repeat match goal with |- context [sym ?ty ?s ?b ?i] => let v := eval vm_compute in (sym ty s b i) in change (sym ty s b i) with v end;
  cbn [st_value st_size].
Lemma plain_apart : functions_apart Elf64_Sym (table_memory plain_table) (table_symbols plain_table) plain_bytes.
Proof.
  split.
  - intros i [->|[->| ->]]%plain_cases; vm_compute; by split_and!.
  - intros i [->|[->| ->]]%plain_cases Hf; vm_compute in Hf; try done; (split; [by vm_compute|vm_compute; by eexists]).
  - intros i j Hi Hj. pose proof (plain_cases i Hi) as [->|[->| ->]]; pose proof (plain_cases j Hj) as [->|[->| ->]];
      intros Hf Hov; vm_compute in Hf; try done; try (by split); exfalso; revert Hov; unfold contains, func_end; eval_syms; intros [?|(a & ? & ?)]; lia.
Qed.
