(* ===== verification/ElfInterface.v ===== *)
(** * ELF files

    unwindstack/ElfInterface.cpp and ElfInterface.h: the program and section
    headers, the build ID, the name of the object, its symbols, and the step by
    the frame sections.  Both widths of the templates are modelled.  Products of
    two 16-bit header fields are [int] products in the code, which have no value
    when they are too large.  The interface of [.gnu_debugdata] is never made, as
    [CreateGnuDebugdataMemory] returns nothing. *)
From S2P Require Import Prelude CString UnwindMemory Outcome DwarfMemory DwarfOp DwarfCfa UnwindRegs DwarfSection Unwinder Symbols.
Import ErrorCode.

(** ** Headers *)

Inductive ElfTypes := ElfTypes32 | ElfTypes64.
Definition AddressType_of (t : ElfTypes) : AddressType := match t with ElfTypes32 => uint32_t | ElfTypes64 => uint64_t end.
Definition SymType_of (t : ElfTypes) : SymType := match t with ElfTypes32 => Elf32_Sym | ElfTypes64 => Elf64_Sym end.
(** A value of the type of an address. *)
Definition word (t : ElfTypes) (z : Z) : Z := wrap (bits_of (AddressType_of t)) z.

Record Ehdr := mkEhdr { e_phoff : Z; e_shoff : Z; e_phentsize : Z; e_phnum : Z; e_shentsize : Z; e_shnum : Z; e_shstrndx : Z }.
Record Phdr := mkPhdr { p_type : Z; p_flags : Z; p_offset : Z; p_vaddr : Z; p_filesz : Z; p_memsz : Z }.
Record Shdr := mkShdr { sh_name : Z; sh_type : Z; sh_addr : Z; sh_offset : Z; sh_size : Z; sh_link : Z; sh_entsize : Z }.
Record Nhdr := mkNhdr { n_namesz : Z; n_descsz : Z; n_type : Z }.
Record Dyn := mkDyn { d_tag : Z; d_val : Z }.

Definition sizeof_Ehdr (t : ElfTypes) : Z := match t with ElfTypes32 => 52 | ElfTypes64 => 64 end.
Definition sizeof_Phdr (t : ElfTypes) : Z := match t with ElfTypes32 => 32 | ElfTypes64 => 56 end.
Definition sizeof_Shdr (t : ElfTypes) : Z := match t with ElfTypes32 => 40 | ElfTypes64 => 64 end.
Definition sizeof_Nhdr : Z := 12.
Definition sizeof_Dyn (t : ElfTypes) : Z := match t with ElfTypes32 => 8 | ElfTypes64 => 16 end.
Definition ehdr_of (t : ElfTypes) (bytes : list Z) : Ehdr :=
  let f := field bytes in
  match t with
  | ElfTypes32 => mkEhdr (f 28 4) (f 32 4) (f 42 2) (f 44 2) (f 46 2) (f 48 2) (f 50 2)
  | ElfTypes64 => mkEhdr (f 32 8) (f 40 8) (f 54 2) (f 56 2) (f 58 2) (f 60 2) (f 62 2)
  end%nat.
Definition phdr_of (t : ElfTypes) (bytes : list Z) : Phdr :=
  let f := field bytes in
  match t with
  | ElfTypes32 => mkPhdr (f 0 4) (f 24 4) (f 4 4) (f 8 4) (f 16 4) (f 20 4)
  | ElfTypes64 => mkPhdr (f 0 4) (f 4 4) (f 8 8) (f 16 8) (f 32 8) (f 40 8)
  end%nat.
Definition shdr_of (t : ElfTypes) (bytes : list Z) : Shdr :=
  let f := field bytes in
  match t with
  | ElfTypes32 => mkShdr (f 0 4) (f 4 4) (f 12 4) (f 16 4) (f 20 4) (f 24 4) (f 36 4)
  | ElfTypes64 => mkShdr (f 0 4) (f 4 4) (f 16 8) (f 24 8) (f 32 8) (f 40 4) (f 56 8)
  end%nat.
Definition nhdr_of (bytes : list Z) : Nhdr := let f := field bytes in mkNhdr (f 0 4)%nat (f 4 4)%nat (f 8 4)%nat.
Definition dyn_of (t : ElfTypes) (bytes : list Z) : Dyn :=
  let f := field bytes in match t with ElfTypes32 => mkDyn (f 0 4) (f 4 4) | ElfTypes64 => mkDyn (f 0 8) (f 8 8) end%nat.

Definition PT_LOAD : Z := 1.
Definition PT_DYNAMIC : Z := 2.
Definition PT_GNU_EH_FRAME : Z := 0x6474e550.
Definition PF_X : Z := 1.
Definition SHT_PROGBITS : Z := 1.
Definition SHT_SYMTAB : Z := 2.
Definition SHT_STRTAB : Z := 3.
Definition SHT_NOTE : Z := 7.
Definition SHT_NOBITS : Z := 8.
Definition SHT_DYNSYM : Z := 11.
Definition NT_GNU_BUILD_ID : Z := 3.
Definition DT_NULL : Z := 0.
Definition DT_STRTAB : Z := 5.
Definition DT_STRSZ : Z := 10.
Definition DT_SONAME : Z := 14.

(** The product of two 16-bit fields. *)
Definition int_product {S} (a b : Z) : prog S Z := if a * b <? 2 ^ 31 then mret (a * b) else undef SignedOverflow.

(** ** The object *)

Record LoadInfo := mkLoadInfo { li_offset : Z; table_offset : Z; table_size : Z }.
Inductive SonameType := SONAME_UNKNOWN | SONAME_VALID | SONAME_INVALID.
(** Where something is in the file: offset, bias, size. *)
Record Place := mkPlace { pl_offset : Z; pl_bias : Z; pl_size : Z }.
(** An area by its offset and its addresses. *)
Record Area := mkArea { ar_offset : Z; ar_start : Z; ar_end : Z }.
(** [unknown_headers] are the calls of [HandleUnknownType], in order. *)
Record ElfInterface := mkInterface {
  pt_loads_ : gmap Z LoadInfo; dynamic_ : Area; data_ : Area;
  eh_frame_hdr_place : Place; eh_frame_place : Place; debug_frame_place : Place;
  gnu_debugdata_offset_ : Z; gnu_debugdata_size_ : Z; gnu_build_id_offset_ : Z; gnu_build_id_size_ : Z;
  text_addr_ : Z; text_size_ : Z; soname_type_ : SonameType; soname_ : list Z; last_error_ : ErrorData;
  eh_frame_ : option (section_kind * DwarfSection); debug_frame_ : option DwarfSection;
  symbol_tables : list Symbols; strtabs_ : list (Z * Z); unknown_headers : list (Z * Z * Z);
}.
#[global] Instance ElfInterface_upd : Updatable ElfInterface := λ i,
  mkInterface (pt_loads_ i) (dynamic_ i) (data_ i) (eh_frame_hdr_place i) (eh_frame_place i) (debug_frame_place i)
    (gnu_debugdata_offset_ i) (gnu_debugdata_size_ i) (gnu_build_id_offset_ i) (gnu_build_id_size_ i)
    (text_addr_ i) (text_size_ i) (soname_type_ i) (soname_ i) (last_error_ i) (eh_frame_ i) (debug_frame_ i)
    (symbol_tables i) (strtabs_ i) (unknown_headers i).
Definition no_place : Place := mkPlace 0 0 0.
Definition no_area : Area := mkArea 0 0 0.
Definition ElfInterface_new : ElfInterface :=
  mkInterface ∅ no_area no_area no_place no_place no_place 0 0 0 0 0 0 SONAME_UNKNOWN [] no_error None None [] [] [].

(** An area, unless its end does not fit ([__builtin_add_overflow]). *)
Definition area_of (offset start size : Z) : Area := if start + size <? 2 ^ 64 then mkArea offset start (start + size) else no_area.
Definition place_of (offset addr size : Z) : Place := mkPlace offset (addr ⊟ offset) size.
Fixpoint bytes_of (s : string) : list Z :=
  match s with EmptyString => [] | String c s => Z.of_nat (nat_of_ascii c) :: bytes_of s end.
Definition named (name : string) (bytes : list Z) : bool := bool_decide (bytes = bytes_of name).

Section interface.
Context {M : Type} `{Memory M} (t : ElfTypes) (memory_ : M).

Definition read_ehdr : option Ehdr := ehdr_of t <$> ReadFully memory_ 0 (sizeof_Ehdr t).
Definition read_phdr (offset : Z) : option Phdr := phdr_of t <$> ReadFully memory_ offset (sizeof_Phdr t).
Definition read_shdr (offset : Z) : option Shdr := shdr_of t <$> ReadFully memory_ offset (sizeof_Shdr t).

(** ** Program headers *)

Definition is_exec_load (p : Phdr) : bool := (p_type p =? PT_LOAD) && flag_set (p_flags p) PF_X.
(** The first executable load; nothing after a header that cannot be read. *)
Fixpoint find_load_bias (n : nat) (offset : Z) (ehdr : Ehdr) : Z :=
  match n with
  | O => 0
  | S n =>
      match read_phdr offset with
      | None => 0
      | Some phdr => if is_exec_load phdr then p_vaddr phdr ⊟ p_offset phdr else find_load_bias n (offset ⊞ e_phentsize ehdr) ehdr
      end
  end.
(** The bias is an [int64_t], here as a word. *)
Definition GetLoadBias : Z :=
  match read_ehdr with None => 0 | Some ehdr => find_load_bias (Z.to_nat (e_phnum ehdr)) (e_phoff ehdr) ehdr end.

Definition program_header (phdr : Phdr) (i : ElfInterface) : ElfInterface :=
  if p_type phdr =? PT_LOAD then
    if negb (flag_set (p_flags phdr) PF_X) then i
    else i <| pt_loads_ := <[p_offset phdr := mkLoadInfo (p_offset phdr) (p_vaddr phdr) (p_memsz phdr)]> (pt_loads_ i) |>
  else if p_type phdr =? PT_GNU_EH_FRAME then i <| eh_frame_hdr_place := place_of (p_offset phdr) (p_vaddr phdr) (p_memsz phdr) |>
  else if p_type phdr =? PT_DYNAMIC then i <| dynamic_ := area_of (p_offset phdr) (p_vaddr phdr) (p_memsz phdr) |>
  else i <| unknown_headers := unknown_headers i ++ [(p_type phdr, p_offset phdr, p_filesz phdr)] |>.
Fixpoint program_headers (n : nat) (offset : Z) (ehdr : Ehdr) (first_exec_load_header : bool) (i : ElfInterface) (load_bias : Z) :
    ElfInterface * Z :=
  match n with
  | O => (i, load_bias)
  | S n =>
      match read_phdr offset with
      | None => (i, load_bias)
      | Some phdr =>
          let first := is_exec_load phdr && first_exec_load_header in
          program_headers n (offset ⊞ e_phentsize ehdr) ehdr (first_exec_load_header && negb (is_exec_load phdr)) (program_header phdr i)
            (if first then p_vaddr phdr ⊟ p_offset phdr else load_bias)
      end
  end.
Definition ReadProgramHeaders (ehdr : Ehdr) (i : ElfInterface) (load_bias : Z) : ElfInterface * Z :=
  program_headers (Z.to_nat (e_phnum ehdr)) (e_phoff ehdr) ehdr true i load_bias.

(** ** Section headers *)

(** The name of a section, in the section of names at [sec_offset]. *)
Definition section_name (sec_offset sec_size : Z) (shdr : Shdr) : option (list Z) :=
  if sh_name shdr <? sec_size then ReadString memory_ (sec_offset ⊞ sh_name shdr) (sec_size - sh_name shdr) else None.
Definition symbol_section (ehdr : Ehdr) (shdr : Shdr) (i : ElfInterface) : ElfInterface :=
  if e_shnum ehdr <=? sh_link shdr then i
  else
    match read_shdr (word t (e_shoff ehdr + u32 (sh_link shdr * e_shentsize ehdr))) with
    | Some str_shdr =>
        if negb (sh_type str_shdr =? SHT_STRTAB) then i
        else i <| symbol_tables := symbol_tables i ++
               [Symbols_new (sh_offset shdr) (sh_size shdr) (sh_entsize shdr) (sh_offset str_shdr) (sh_size str_shdr)] |>
    | None => i
    end.
Definition named_section (name : list Z) (shdr : Shdr) (i : ElfInterface) : ElfInterface :=
  let place := place_of (sh_offset shdr) (sh_addr shdr) (sh_size shdr) in
  if named ".debug_frame" name then i <| debug_frame_place := place |>
  else if named ".gnu_debugdata" name then i <| gnu_debugdata_offset_ := sh_offset shdr |> <| gnu_debugdata_size_ := sh_size shdr |>
  else if named ".eh_frame" name then i <| eh_frame_place := place |>
  else if (pl_offset (eh_frame_hdr_place i) =? 0) && named ".eh_frame_hdr" name then i <| eh_frame_hdr_place := place |>
  else if named ".data" name then i <| data_ := area_of (sh_offset shdr) (sh_addr shdr) (sh_size shdr) |>
  else if named ".text" name then i <| text_addr_ := sh_addr shdr |> <| text_size_ := sh_size shdr |>
  else i.
Definition is_build_id_section (sec_offset sec_size : Z) (shdr : Shdr) : bool :=
  (sh_type shdr =? SHT_NOTE) && from_option (named ".note.gnu.build-id") false (section_name sec_offset sec_size shdr).
Definition section_header (ehdr : Ehdr) (sec_offset sec_size : Z) (shdr : Shdr) (i : ElfInterface) : ElfInterface :=
  if (sh_type shdr =? SHT_SYMTAB) || (sh_type shdr =? SHT_DYNSYM) then symbol_section ehdr shdr i
  else if ((sh_type shdr =? SHT_PROGBITS) || (sh_type shdr =? SHT_NOBITS)) && negb (sec_size =? 0) then
    match section_name sec_offset sec_size shdr with Some name => named_section name shdr i | None => i end
  else if sh_type shdr =? SHT_STRTAB then i <| strtabs_ := strtabs_ i ++ [(sh_addr shdr, sh_offset shdr)] |>
  else if is_build_id_section sec_offset sec_size shdr then
    i <| gnu_build_id_offset_ := sh_offset shdr |> <| gnu_build_id_size_ := sh_size shdr |>
  else i.
Fixpoint section_headers (n : nat) (offset : Z) (ehdr : Ehdr) (sec_offset sec_size : Z) (i : ElfInterface) : ElfInterface :=
  match n with
  | O => i
  | S n =>
      match read_shdr offset with
      | None => i
      | Some shdr => section_headers n (offset ⊞ e_shentsize ehdr) ehdr sec_offset sec_size (section_header ehdr sec_offset sec_size shdr i)
      end
  end.
(** Where the header of the section of names is. *)
Definition names_header {S} (ehdr : Ehdr) : prog S (option Shdr) :=
  product ← int_product (e_shstrndx ehdr) (e_shentsize ehdr);
  mret (read_shdr (e_shoff ehdr ⊞ product)).
Definition ReadSectionHeaders (ehdr : Ehdr) : prog ElfInterface unit :=
  names ← (if e_shstrndx ehdr <? e_shnum ehdr then names_header ehdr else mret None);
  let '(sec_offset, sec_size) := match names with Some shdr => (sh_offset shdr, sh_size shdr) | None => (0, 0) end in
  modify (section_headers (Z.to_nat (e_shnum ehdr - 1)) (e_shoff ehdr ⊞ e_shentsize ehdr) ehdr sec_offset sec_size).

(** The result is the load bias, left as it was where no header sets it. *)
Definition ReadAllHeaders (load_bias : Z) : prog ElfInterface Z := λ i,
  match read_ehdr with
  | None => Err (i <| last_error_ := mkErrorData ERROR_MEMORY_INVALID 0 |>)
  | Some ehdr =>
      let '(i, load_bias) := ReadProgramHeaders ehdr i load_bias in
      (ReadSectionHeaders ehdr;; mret load_bias) i
  end.

(** ** The frame sections *)

(** Bound on the length of an augmentation string and on entries of a section. *)
Variable fuel : nat.

(** A section, or nothing when it cannot be set up. *)
Definition try_init (init : prog DwarfSection unit) : outcome unit (option DwarfSection) :=
  match init DwarfSection_new with
  | Ret _ s => Ret (Some s) ()
  | Err _ => Ret None ()
  | Fault f => Fault f
  end.
Definition init_place (p : Place) : prog DwarfSection unit := Section_Init (pl_offset p) (pl_size p) (pl_bias p).
Definition init_hdr (i : ElfInterface) : prog DwarfSection unit :=
  init_place (eh_frame_place i);;
  Hdr_Init (AddressType_of t) memory_ (pl_offset (eh_frame_hdr_place i)) (pl_bias (eh_frame_hdr_place i)).
Definition or_none {A} (b : bool) (r : outcome unit (option A)) : outcome unit (option A) := if b then r else Ret None ().
Definition InitHeaders : prog ElfInterface unit := λ i,
  match or_none (negb (pl_offset (eh_frame_hdr_place i) =? 0)) (try_init (init_hdr i)) with
  | Err _ => Err i
  | Fault f => Fault f
  | Ret hdr _ =>
      match or_none (match hdr with None => true | Some _ => false end && negb (pl_offset (eh_frame_place i) =? 0)) (try_init (init_place (eh_frame_place i))) with
      | Err _ => Err i
      | Fault f => Fault f
      | Ret plain _ =>
          let i := i <| eh_frame_ := match hdr, plain with
            | Some s, _ => Some (EhFrameWithHdr, s)
            | None, Some s => Some (EhFrame, s)
            | None, None => None
            end |> in
          let i := match eh_frame_ i with
            | None => i <| eh_frame_hdr_place := mkPlace 0 0 (2 ^ 64 - 1) |> <| eh_frame_place := mkPlace 0 0 (2 ^ 64 - 1) |>
            | Some _ => i
            end in
          match or_none (negb (pl_offset (debug_frame_place i) =? 0)) (try_init (init_place (debug_frame_place i))) with
          | Err _ => Err i
          | Fault f => Fault f
          | Ret d _ =>
              Ret () (i <| debug_frame_ := d |>
                <| debug_frame_place := match d with
                   | None => if pl_offset (debug_frame_place i) =? 0 then debug_frame_place i
                             else mkPlace 0 (pl_bias (debug_frame_place i)) (2 ^ 64 - 1)
                   | Some _ => debug_frame_place i
                   end |>)
          end
      end
  end.

Definition frame_section {A} (m : prog DwarfSection A) (s : DwarfSection) (put : DwarfSection → ElfInterface) (k : ElfInterface → bool → outcome ElfInterface bool) :
    outcome ElfInterface bool :=
  match m s with Ret _ s => k (put s) true | Err s => k (put s) false | Fault f => Fault f end.
Definition IsValidPc (pc : Z) : prog ElfInterface bool := λ i,
  if negb (bool_decide (pt_loads_ i = ∅)) then
    Ret (existsb (λ '(_, l), (table_offset l <=? pc) && (pc <? table_offset l ⊞ table_size l)) (map_to_list (pt_loads_ i))) i
  else
    let in_eh_frame i : outcome ElfInterface bool :=
      match eh_frame_ i with
      | None => Ret false i
      | Some (kind, s) =>
          frame_section (GetFdeFromPc (AddressType_of t) memory_ kind fuel pc) s (λ s, i <| eh_frame_ := Some (kind, s) |>) (λ i b, Ret b i)
      end in
    match debug_frame_ i with
    | None => in_eh_frame i
    | Some s =>
        frame_section (GetFdeFromPc (AddressType_of t) memory_ DebugFrame fuel pc) s (λ s, i <| debug_frame_ := Some s |>)
          (λ i b, if b then Ret true i else in_eh_frame i)
    end.
Definition GetTextRange (i : ElfInterface) : option (Z * Z) := if negb (text_size_ i =? 0) then Some (text_addr_ i, text_size_ i) else None.

(** ** The build ID *)

(** [(n + 3) & ~3] on 32 bits. *)
Definition round4 (n : Z) : Z := Z.land (u32 (n + 3)) (2 ^ 32 - 4).
Definition trim_nul (name : list Z) : list Z := match last name with Some 0 => removelast name | _ => name end.
(** The notes from [offset] on; [None] when they are not read within the fuel. *)
Fixpoint read_notes (n : nat) (note_offset note_size offset : Z) : option (list Z) :=
  if offset <? note_size then
    match n with
    | O => None
    | S n =>
        if note_size - offset <? sizeof_Nhdr then Some []
        else
          match nhdr_of <$> ReadFully memory_ (note_offset ⊞ offset) sizeof_Nhdr with
          | None => Some []
          | Some hdr =>
              let offset := offset ⊞ sizeof_Nhdr in
              if note_size ⊟ offset <? n_namesz hdr then Some []
              else if 0 <? n_namesz hdr then
                match ReadFully memory_ (note_offset ⊞ offset) (n_namesz hdr) with
                | None => Some []
                | Some name =>
                    let offset := offset ⊞ round4 (n_namesz hdr) in
                    if named "GNU" (trim_nul name) && (n_type hdr =? NT_GNU_BUILD_ID) then
                      if (note_size ⊟ offset <? n_descsz hdr) || (n_descsz hdr =? 0) then Some []
                      else Some (default [] (ReadFully memory_ (note_offset ⊞ offset) (n_descsz hdr)))
                    else read_notes n note_offset note_size (offset ⊞ round4 (n_descsz hdr))
                end
              else read_notes n note_offset note_size (offset ⊞ round4 (n_descsz hdr))
          end
    end
  else Some [].
Definition build_id_at (n : nat) (note_offset note_size : Z) : option (list Z) :=
  if 2 ^ 64 <=? note_offset + note_size then Some [] else read_notes n note_offset note_size 0.
Definition ReadBuildID (n : nat) (i : ElfInterface) : option (list Z) := build_id_at n (gnu_build_id_offset_ i) (gnu_build_id_size_ i).

(** Without an object: the first such section. *)
Fixpoint find_build_id_section (n : nat) (offset : Z) (ehdr : Ehdr) (sec_offset sec_size : Z) : option (Z * Z) :=
  match n with
  | O => None
  | S n =>
      match read_shdr offset with
      | None => None
      | Some shdr =>
          if is_build_id_section sec_offset sec_size shdr then Some (sh_offset shdr, sh_size shdr)
          else find_build_id_section n (offset ⊞ e_shentsize ehdr) ehdr sec_offset sec_size
      end
  end.
Definition GetBuildIDInfo : prog unit (option (Z * Z)) :=
  match read_ehdr with
  | None => mret None
  | Some ehdr =>
      if e_shnum ehdr <=? e_shstrndx ehdr then mret None
      else
        names ← names_header ehdr;
        match names with
        | None => mret None
        | Some shdr => mret (find_build_id_section (Z.to_nat (e_shnum ehdr - 1)) (e_shoff ehdr ⊞ e_shentsize ehdr) ehdr (sh_offset shdr) (sh_size shdr))
        end
  end.
Definition ReadBuildIDFromMemory (n : nat) : prog unit (list Z) :=
  info ← GetBuildIDInfo;
  match info with
  | None => mret []
  | Some (note_offset, note_size) => match build_id_at n note_offset note_size with Some id => mret id | None => undef NoFuel end
  end.
(** The size is left as it was without section headers. *)
Definition GetMaxSize (size : Z) : prog unit Z :=
  match read_ehdr with
  | None => mret size
  | Some ehdr =>
      if e_shnum ehdr =? 0 then mret size
      else product ← int_product (e_shentsize ehdr) (e_shnum ehdr); mret (word t (e_shoff ehdr + product))
  end.

(** ** The name *)

Inductive Dynamic := DynamicEnd (soname_offset strtab_addr strtab_size : Z) | DynamicUnreadable (offset : Z).
Fixpoint read_dynamic (n : nat) (offset max_offset soname_offset strtab_addr strtab_size : Z) : option Dynamic :=
  if offset <? max_offset then
    match n with
    | O => None
    | S n =>
        match dyn_of t <$> ReadFully memory_ offset (sizeof_Dyn t) with
        | None => Some (DynamicUnreadable offset)
        | Some dyn =>
            let next := offset ⊞ sizeof_Dyn t in
            if d_tag dyn =? DT_STRTAB then read_dynamic n next max_offset soname_offset (d_val dyn) strtab_size
            else if d_tag dyn =? DT_STRSZ then read_dynamic n next max_offset soname_offset strtab_addr (d_val dyn)
            else if d_tag dyn =? DT_SONAME then read_dynamic n next max_offset (d_val dyn) strtab_addr strtab_size
            else if d_tag dyn =? DT_NULL then Some (DynamicEnd soname_offset strtab_addr strtab_size)
            else read_dynamic n next max_offset soname_offset strtab_addr strtab_size
        end
    end
  else Some (DynamicEnd soname_offset strtab_addr strtab_size).
(** The string table at [strtab_addr] decides. *)
Fixpoint find_soname (strtabs : list (Z * Z)) (soname_offset strtab_addr strtab_size : Z) : option (list Z) :=
  match strtabs with
  | [] => None
  | (addr, file_offset) :: strtabs =>
      if addr =? strtab_addr then
        let soname_offset := file_offset ⊞ soname_offset in
        let soname_max := file_offset ⊞ strtab_size in
        if soname_max <=? soname_offset then None else ReadString memory_ soname_offset (soname_max - soname_offset)
      else find_soname strtabs soname_offset strtab_addr strtab_size
  end.
Definition GetSoname (n : nat) : prog ElfInterface (list Z) := λ i,
  match soname_type_ i with
  | SONAME_INVALID => Ret [] i
  | SONAME_VALID => Ret (soname_ i) i
  | SONAME_UNKNOWN =>
      let i := i <| soname_type_ := SONAME_INVALID |> in
      let offset := ar_offset (dynamic_ i) in
      match read_dynamic n offset (offset ⊞ ar_end (dynamic_ i) ⊟ ar_start (dynamic_ i)) 0 0 0 with
      | None => Fault NoFuel
      | Some (DynamicUnreadable at_) => Ret [] (i <| last_error_ := mkErrorData ERROR_MEMORY_INVALID at_ |>)
      | Some (DynamicEnd soname_offset strtab_addr strtab_size) =>
          match find_soname (strtabs_ i) soname_offset strtab_addr strtab_size with
          | None => Ret [] i
          | Some name => Ret name (i <| soname_ := name |> <| soname_type_ := SONAME_VALID |>)
          end
      end
  end.

(** ** Symbols *)

(** The first table with an answer. *)
Fixpoint ask_tables {A} (ask : Symbols → option (option A * Symbols)) (tables : list Symbols) : option (option A * list Symbols) :=
  match tables with
  | [] => Some (None, [])
  | s :: tables =>
      '(r, s) ← ask s;
      match r with
      | Some r => Some (Some r, s :: tables)
      | None => '(r, tables) ← ask_tables ask tables; Some (r, s :: tables)
      end
  end.
Definition GetFunctionName (n : nat) (addr : Z) (i : ElfInterface) : option (option (list Z * Z) * ElfInterface) :=
  '(r, tables) ← ask_tables (λ s, GetName (SymType_of t) memory_ n s addr) (symbol_tables i);
  Some (r, i <| symbol_tables := tables |>).
Definition GetGlobalVariable (n : nat) (name : list Z) (i : ElfInterface) : option (option Z * ElfInterface) :=
  '(r, tables) ← ask_tables (λ s, GetGlobal (SymType_of t) memory_ n s name) (symbol_tables i);
  Some (r, i <| symbol_tables := tables |>).

(** ** Steps *)

Section step.
Context {P : Type} `{Memory P} (process_memory : P) (clear_pac_bits : Z → Z) (iteration_order : gmap Z DwarfLocation → list (Z * DwarfLocation)).

(** The object, the registers, [*finished] and [*is_signal_frame]. *)
Record Stepping := mkStepping { sp_interface : ElfInterface; sp_regs : Regs; sp_finished : bool; sp_signal : bool }.
Definition section_step (kind : section_kind) (s : DwarfSection) (put : DwarfSection → ElfInterface → ElfInterface) (pc : Z) : prog Stepping unit := λ x,
  let leave (y : StepState) := mkStepping (put (st_section y) (sp_interface x)) (DwarfSection.st_regs y) (DwarfSection.st_finished y) (st_signal_frame y) in
  match Step (AddressType_of t) memory_ kind fuel process_memory clear_pac_bits iteration_order pc (mkStep s (sp_regs x) (sp_finished x) (sp_signal x)) with
  | Ret _ y => Ret () (leave y)
  | Err y => Err (leave y)
  | Fault f => Fault f
  end.
Definition step_debug_frame (pc : Z) : prog Stepping unit := λ x,
  match debug_frame_ (sp_interface x) with
  | None => Err x
  | Some s => section_step DebugFrame s (λ s i, i <| debug_frame_ := Some s |>) pc x
  end.
Definition step_eh_frame (pc : Z) : prog Stepping unit := λ x,
  match eh_frame_ (sp_interface x) with
  | None => Err x
  | Some (kind, s) => section_step kind s (λ s i, i <| eh_frame_ := Some (kind, s) |>) pc x
  end.
(** The error of a section, as an error of the unwinder; the address stays when
    it is not one of memory. *)
Definition convert_error (s : DwarfSection) (e : ErrorData) : ErrorData :=
  match code (sec_error s) with
  | DWARF_ERROR_NONE => e <| err_code := ERROR_NONE |>
  | DWARF_ERROR_MEMORY_INVALID => mkErrorData ERROR_MEMORY_INVALID (address (sec_error s))
  | DWARF_ERROR_ILLEGAL_VALUE | DWARF_ERROR_ILLEGAL_STATE | DWARF_ERROR_STACK_INDEX_NOT_VALID | DWARF_ERROR_TOO_MANY_ITERATIONS
  | DWARF_ERROR_CFA_NOT_DEFINED | DWARF_ERROR_NO_FDES => e <| err_code := ERROR_UNWIND_INFO |>
  | DWARF_ERROR_NOT_IMPLEMENTED | DWARF_ERROR_UNSUPPORTED_VERSION => e <| err_code := ERROR_UNSUPPORTED |>
  end.
Definition first_error (i : ElfInterface) : ElfInterface :=
  match debug_frame_ i, eh_frame_ i with
  | Some s, _ | None, Some (_, s) => i <| last_error_ := convert_error s (last_error_ i) |>
  | None, None => i
  end.
Definition or_else {S A} (m m' : prog S A) : prog S A := λ x, match m x with Err x => m' x | r => r end.
Definition on_interface (f : ElfInterface → ElfInterface) (x : Stepping) : Stepping :=
  mkStepping (f (sp_interface x)) (sp_regs x) (sp_finished x) (sp_signal x).
Definition ElfInterface_Step (pc : Z) : prog Stepping unit := λ x,
  on_error (or_else (step_debug_frame pc) (step_eh_frame pc)) (on_interface first_error)
    (on_interface (λ i, i <| last_error_ := no_error |>) x).
(** The overload with a load bias; the flag of a signal frame is a local. *)
Definition ElfInterface_Step_biased (pc load_bias : Z) : prog Stepping unit := λ x,
  let x := on_interface (λ i, i <| last_error_ := no_error |>) x in
  if pc <? load_bias then Err (on_interface (λ i, i <| last_error_ := mkErrorData ERROR_UNWIND_INFO 0 |>) x)
  else
    let adjusted_pc := pc - load_bias in
    on_error (or_else (step_debug_frame adjusted_pc) (step_eh_frame adjusted_pc)) (on_interface first_error) x.
End step.
End interface.
