(* ===== verification/Elf.v ===== *)
(** * ELF objects

    unwindstack/Elf.cpp and Elf.h: the routines that look at a file without
    keeping anything, and the object that keeps what was read.  The locks around
    an object are left out. *)
From S2P Require Import Prelude CString UnwindMemory Outcome DwarfMemory DwarfOp DwarfCfa UnwindRegs DwarfSection Unwinder Symbols ElfInterface.
Import ErrorCode.

Definition ELFMAG : list Z := [0x7f; 0x45; 0x4c; 0x46].
Definition EI_CLASS : Z := 4.
Definition EI_NIDENT : Z := 16.
Definition EM_386 : Z := 3.
Definition EM_MIPS : Z := 8.
Definition EM_ARM : Z := 40.
Definition EM_X86_64 : Z := 62.
Definition EM_AARCH64 : Z := 183.

(** [ELFCLASS32] and [ELFCLASS64]. *)
Definition class_of (class_type : Z) : option ElfTypes :=
  if class_type =? 1 then Some ElfTypes32 else if class_type =? 2 then Some ElfTypes64 else None.
Definition arch_of (t : ElfTypes) (e_machine : Z) : option ArchEnum :=
  match t with
  | ElfTypes32 =>
      if e_machine =? EM_ARM then Some ARCH_ARM else if e_machine =? EM_386 then Some ARCH_X86
      else if e_machine =? EM_MIPS then Some ARCH_MIPS else None
  | ElfTypes64 =>
      if e_machine =? EM_AARCH64 then Some ARCH_ARM64 else if e_machine =? EM_X86_64 then Some ARCH_X86_64
      else if e_machine =? EM_MIPS then Some ARCH_MIPS64 else None
  end.

(** ** Files *)

Section files.
Context {M : Type} `{Memory M}.

Definition IsValidElf (memory : option M) : bool :=
  match memory with
  | None => false
  | Some memory => match ReadFully memory 0 4 with Some e_ident => bool_decide (e_ident = ELFMAG) | None => false end
  end.
Definition class_type_at (memory : M) : option Z := le_value <$> ReadFully memory EI_CLASS 1.
(** The size of the file, by its header. *)
Definition GetInfo (memory : M) : prog unit (option Z) :=
  if negb (IsValidElf (Some memory)) then mret None
  else
    match class_type_at memory ≫= class_of with
    | Some t => size ← GetMaxSize t memory 0; mret (Some size)
    | None => mret None
    end.
Definition Elf_GetLoadBias (memory : option M) : Z :=
  match memory with
  | None => 0
  | Some memory =>
      if negb (IsValidElf (Some memory)) then 0
      else match class_type_at memory ≫= class_of with Some t => GetLoadBias t memory | None => 0 end
  end.
Definition Elf_GetBuildID (n : nat) (memory : M) : prog unit (list Z) :=
  if negb (IsValidElf (Some memory)) then mret []
  else match class_type_at memory ≫= class_of with Some t => ReadBuildIDFromMemory t memory n | None => mret [] end.
End files.

(** [%02hhx] of every byte. *)
Definition hex_digit (d : Z) : ascii := ascii_of_nat (Z.to_nat (if d <? 10 then 48 + d else 87 + d)).
Fixpoint GetPrintableBuildID (build_id : list Z) : string :=
  match build_id with
  | [] => EmptyString
  | c :: build_id => String (hex_digit (c / 16)) (String (hex_digit (c mod 16)) (GetPrintableBuildID build_id))
  end.

(** ** Objects *)

(** [class_type_], [machine_type_] and [arch_] have no values before [Init] set
    them. *)
Record Elf (M : Type) := mkElf {
  elf_memory_ : option M; valid_ : bool; elf_bias : Z; interface_ : option (ElfTypes * ElfInterface);
  class_type_ : option Z; machine_type_ : option Z; arch_ : option ArchEnum;
}.
#[global] Arguments mkElf {M}.
#[global] Arguments elf_memory_ {M}.
#[global] Arguments valid_ {M}.
#[global] Arguments elf_bias {M}.
#[global] Arguments interface_ {M}.
#[global] Arguments class_type_ {M}.
#[global] Arguments machine_type_ {M}.
#[global] Arguments arch_ {M}.
#[global] Instance Elf_upd {M} : Updatable (Elf M) := λ e,
  mkElf (elf_memory_ e) (valid_ e) (elf_bias e) (interface_ e) (class_type_ e) (machine_type_ e) (arch_ e).
Definition Elf_new {M} (memory : option M) : Elf M := mkElf memory false 0 None None None None.

Section objects.
Context {M : Type} `{Memory M} (fuel : nat).

(** The kind of interface for a file, and the object with what it learned. *)
Definition CreateInterfaceFromMemory (memory : option M) (e : Elf M) : option ElfTypes * Elf M :=
  match memory with
  | None => (None, e)
  | Some m =>
      if negb (IsValidElf (Some m)) then (None, e)
      else
        match class_type_at m with
        | None => (None, e)
        | Some class_type =>
            let e := e <| class_type_ := Some class_type |> in
            match class_of class_type with
            | None => (None, e)
            | Some t =>
                match le_value <$> ReadFully m (EI_NIDENT + 2) 2 with
                | None => (None, e)
                | Some e_machine =>
                    let e := e <| machine_type_ := Some e_machine |> in
                    match arch_of t e_machine with
                    | None => (None, e)
                    | Some a => (Some t, e <| arch_ := Some a |>)
                    end
                end
            end
        end
  end.
(** The memory of [.gnu_debugdata] is what [CreateGnuDebugdataMemory] gives,
    which is nothing. *)
Definition InitGnuDebugdata (e : Elf M) : Elf M :=
  match valid_ e, interface_ e with
  | true, Some (_, i) => if gnu_debugdata_offset_ i =? 0 then e else (CreateInterfaceFromMemory None e).2
  | _, _ => e
  end.
Definition Elf_Init (e : Elf M) : outcome (Elf M) bool :=
  let e := e <| elf_bias := 0 |> in
  match elf_memory_ e with
  | None => Ret false e
  | Some m =>
      match CreateInterfaceFromMemory (Some m) e with
      | (None, e) => Ret false (e <| interface_ := None |>)
      | (Some t, e) =>
          match ReadAllHeaders t m 0 ElfInterface_new with
          | Fault f => Fault f
          | Err _ => Ret false (e <| valid_ := false |> <| interface_ := None |>)
          | Ret load_bias i =>
              match InitHeaders t m i with
              | Fault f => Fault f
              | Ret _ i | Err i => Ret true (InitGnuDebugdata (e <| valid_ := true |> <| elf_bias := load_bias |> <| interface_ := Some (t, i) |>))
              end
          end
      end
  end.
Definition Invalidate (e : Elf M) : Elf M := e <| interface_ := None |> <| valid_ := false |>.

(** Calls go to the interface of a valid object. *)
Definition valid_interface (e : Elf M) : option (M * ElfTypes * ElfInterface) :=
  if valid_ e then m ← elf_memory_ e; '(t, i) ← interface_ e; Some (m, t, i) else None.
Definition set_interface (t : ElfTypes) (i : ElfInterface) (e : Elf M) : Elf M := e <| interface_ := Some (t, i) |>.

Definition Elf_GetSoname (n : nat) : prog (Elf M) (list Z) := λ e,
  match valid_interface e with
  | None => Ret [] e
  | Some (m, t, i) =>
      match GetSoname t m n i with
      | Ret name i => Ret name (set_interface t i e)
      | Err i => Err (set_interface t i e)
      | Fault f => Fault f
      end
  end.
Definition Elf_FunctionName (n : nat) (addr : Z) (e : Elf M) : option (option (list Z * Z) * Elf M) :=
  match valid_interface e with
  | None => Some (None, e)
  | Some (m, t, i) => '(r, i) ← GetFunctionName t m n addr i; Some (r, set_interface t i e)
  end.
(** The top byte of an address on 64-bit ARM is a tag. *)
Definition in_area (a : Area) (vaddr : Z) : option Z :=
  if (ar_start a <=? vaddr) && (vaddr <? ar_end a) then Some (vaddr - ar_start a ⊞ ar_offset a) else None.
Definition GetGlobalVariableOffset (n : nat) (name : list Z) (e : Elf M) : option (option Z * Elf M) :=
  match valid_interface e with
  | None => Some (None, e)
  | Some (m, t, i) =>
      '(r, i) ← GetGlobalVariable t m n name i;
      let e := set_interface t i e in
      match r with
      | None => Some (None, e)
      | Some vaddr =>
          let vaddr := if bool_decide (arch_ e = Some ARCH_ARM64) then Z.land vaddr (2 ^ 56 - 1) else vaddr in
          Some (match in_area (data_ i) vaddr with Some r => Some r | None => in_area (dynamic_ i) vaddr end, e)
      end
  end.
Definition Elf_BuildID (n : nat) (e : Elf M) : option (list Z) :=
  match valid_interface e with None => Some [] | Some (m, _, i) => ReadBuildID m n i end.
Definition Elf_LastError (e : Elf M) : ErrorData :=
  match valid_interface e with None => mkErrorData ERROR_INVALID_ELF 0 | Some (_, _, i) => last_error_ i end.
(** [load_bias_ > 0 && pc < load_bias_], the bias being signed. *)
Definition Elf_IsValidPc (pc : Z) : prog (Elf M) bool := λ e,
  match valid_interface e with
  | None => Ret false e
  | Some (m, t, i) =>
      if (0 <? elf_bias e) && (elf_bias e <? 2 ^ 63) && (pc <? elf_bias e) then Ret false e
      else
        match IsValidPc t m fuel pc i with
        | Ret b i => Ret b (set_interface t i e)
        | Err i => Err (set_interface t i e)
        | Fault f => Fault f
        end
  end.
Definition Elf_GetTextRange (e : Elf M) : option (Z * Z) :=
  match valid_interface e with
  | None => None
  | Some (_, _, i) => (λ '(addr, size), (addr ⊞ elf_bias e, size)) <$> GetTextRange i
  end.
End objects.
