(* ===== verification/ElfProps.v ===== *)
(** * ELF files: the two ways to read them agree

    The routines that only look at a file and the object that keeps what it read
    give the same load bias and build ID; and headers for which the code has no
    defined result. *)
From S2P Require Import Prelude CString UnwindMemory Outcome DwarfMemory DwarfMemProps DwarfOp DwarfCfa UnwindRegs DwarfSection Unwinder Symbols ElfInterface Elf.
Import ErrorCode.

(** ** Headers *)

Section headers.
Context {M : Type} `{Memory M} (t : ElfTypes) (m : M).

Lemma program_headers_seen n offset ehdr i b : (program_headers t m n offset ehdr false i b).2 = b.
Proof using Type.
  revert offset i. induction n as [|n IH]; intros offset i; cbn; [done|].
  destruct (read_phdr t m offset) as [p|]; [|done]. rewrite andb_false_r. apply IH.
Qed.
Lemma program_headers_bias n offset ehdr i : (program_headers t m n offset ehdr true i 0).2 = find_load_bias t m n offset ehdr.
Proof using Type.
  revert offset i. induction n as [|n IH]; intros offset i; cbn; [done|].
  destruct (read_phdr t m offset) as [p|]; [|done]. rewrite andb_true_r. destruct (is_exec_load p); cbn; [apply program_headers_seen|apply IH].
Qed.

(** The build ID a header leaves is that of the last section that has it. *)
Definition build_id_place (i : ElfInterface) : Z * Z := (gnu_build_id_offset_ i, gnu_build_id_size_ i).
Definition shdr_place (s : Shdr) : Z * Z := (sh_offset s, sh_size s).
(** The sections with the name of the build ID, up to a header that cannot be
    read. *)
Fixpoint build_id_sections (n : nat) (offset : Z) (ehdr : Ehdr) (sec_offset sec_size : Z) : list Shdr :=
  match n with
  | O => []
  | S n =>
      match read_shdr t m offset with
      | None => []
      | Some s =>
          (if is_build_id_section m sec_offset sec_size s then [s] else []) ++ build_id_sections n (offset ⊞ e_shentsize ehdr) ehdr sec_offset sec_size
      end
  end.

Lemma program_header_keeps p i : build_id_place (program_header p i) = build_id_place i.
Proof using Type. unfold program_header. by repeat case_match. Qed.
Lemma program_headers_keep n offset ehdr b i l : build_id_place (program_headers t m n offset ehdr b i l).1 = build_id_place i.
Proof using Type.
  revert offset b i l. induction n as [|n IH]; intros offset b i l; cbn; [done|].
  destruct (read_phdr t m offset); [|done]. rewrite IH. apply program_header_keeps.
Qed.
Lemma section_header_place ehdr so ss s i :
  build_id_place (section_header t m ehdr so ss s i) = if is_build_id_section m so ss s then shdr_place s else build_id_place i.
Proof using Type.
  unfold section_header. destruct (is_build_id_section m so ss s) eqn:E.
  - pose proof E as E'. unfold is_build_id_section in E'. bool_hyps.
    match goal with H : sh_type s = _ |- _ => rewrite H end. done.
  - case_match; [unfold symbol_section; by repeat case_match|]. case_match; [|by case_match].
    case_match; [|done]. unfold named_section. by repeat case_match.
Qed.
Lemma section_headers_place n offset ehdr so ss i :
  build_id_place (section_headers t m n offset ehdr so ss i)
  = from_option shdr_place (build_id_place i) (last (build_id_sections n offset ehdr so ss)).
Proof using Type.
  revert offset i. induction n as [|n IH]; intros offset i; cbn; [done|]. destruct (read_shdr t m offset) as [s|]; [|done].
  rewrite IH, section_header_place, last_app. by destruct (last (build_id_sections _ _ _ _ _)), (is_build_id_section m so ss s).
Qed.
Lemma find_build_id_section_head n offset ehdr so ss :
  find_build_id_section t m n offset ehdr so ss = shdr_place <$> head (build_id_sections n offset ehdr so ss).
Proof using Type.
  revert offset. induction n as [|n IH]; intros offset; cbn; [done|]. destruct (read_shdr t m offset) as [s|]; [|done].
  destruct (is_build_id_section m so ss s); [done|apply IH].
Qed.

(** The bytes of a memory are bytes. *)
Definition byte_memory : Prop := ∀ a n, Forall (λ b, 0 ≤ b < 256) (Read m a n).
Lemma field_nonneg bytes a n : Forall (λ b, 0 ≤ b < 256) bytes → 0 ≤ field bytes a n.
Proof using Type. intros Hb. apply le_value_range. by apply Forall_take, Forall_drop. Qed.
Lemma read_shdr_nonneg offset s : byte_memory → read_shdr t m offset = Some s → 0 ≤ sh_name s.
Proof using Type.
  intros Hm. unfold read_shdr, ReadFully. case_match; [|done]. intros [= <-]. destruct t; by apply field_nonneg.
Qed.
Lemma no_names_no_build_id n offset ehdr : byte_memory → build_id_sections n offset ehdr 0 0 = [].
Proof using Type.
  intros Hm. revert offset. induction n as [|n IH]; intros offset; cbn; [done|]. destruct (read_shdr t m offset) as [s|] eqn:E; [|done].
  rewrite IH. unfold is_build_id_section, section_name. destruct (sh_name s <? 0) eqn:El; [|by rewrite andb_false_r].
  bool_hyps. apply read_shdr_nonneg in E; [lia|done].
Qed.

(** The sections of the file, in the section of names its header says. *)
Definition sections_with_build_id : list Shdr :=
  match read_ehdr t m with
  | None => []
  | Some ehdr =>
      let names := if e_shstrndx ehdr <? e_shnum ehdr then read_shdr t m (e_shoff ehdr ⊞ e_shstrndx ehdr * e_shentsize ehdr) else None in
      let '(so, ss) := match names with Some s => (sh_offset s, sh_size s) | None => (0, 0) end in
      build_id_sections (Z.to_nat (e_shnum ehdr - 1)) (e_shoff ehdr ⊞ e_shentsize ehdr) ehdr so ss
  end.

Lemma ReadAllHeaders_results b i : ReadAllHeaders t m 0 ElfInterface_new = Ret b i →
  GetLoadBias t m = b ∧ build_id_place i = from_option shdr_place (0, 0) (last sections_with_build_id).
Proof using Type.
  unfold ReadAllHeaders, GetLoadBias, sections_with_build_id. destruct (read_ehdr t m) as [ehdr|]; [|done]. unfold ReadProgramHeaders.
  pose proof (program_headers_bias (Z.to_nat (e_phnum ehdr)) (e_phoff ehdr) ehdr ElfInterface_new) as Hb.
  pose proof (program_headers_keep (Z.to_nat (e_phnum ehdr)) (e_phoff ehdr) ehdr true ElfInterface_new 0) as Hk.
  destruct (program_headers _ _ _ _ _ _ _ _) as [i1 b1]. cbn in Hb, Hk. unfold ReadSectionHeaders, names_header, int_product, mbind, prog_bind, mret, prog_ret, modify.
  destruct (e_shstrndx ehdr <? e_shnum ehdr).
  - destruct (_ * _ <? 2 ^ 31); [|done]. cbn. destruct (read_shdr t m _) as [s|]; cbn; intros [= <- <-]; by rewrite section_headers_place, Hk.
  - cbn. intros [= <- <-]. by rewrite section_headers_place, Hk.
Qed.
Lemma InitHeaders_keeps i i' : (InitHeaders t m i = Ret () i' ∨ InitHeaders t m i = Err i') → build_id_place i' = build_id_place i.
Proof using Type. unfold InitHeaders. intros [E|E]; revert E; repeat case_match; intros; simplify_eq; done. Qed.

(** Without a second section the first is the last. *)
Lemma build_id_from_file i n id b i0 :
  byte_memory → ReadAllHeaders t m 0 ElfInterface_new = Ret b i0 → (length sections_with_build_id ≤ 1)%nat →
  build_id_place i = from_option shdr_place (0, 0) (last sections_with_build_id) →
  ReadBuildID m n i = Some id ↔ ReadBuildIDFromMemory t m n () = Ret id ().
Proof using Type.
  intros Hm Hr Hlen Hp. unfold ReadBuildID, ReadBuildIDFromMemory. pose proof (f_equal fst Hp) as Ho. pose proof (f_equal snd Hp) as Hs. cbn in Ho, Hs.
  assert (GetBuildIDInfo t m () = Ret (shdr_place <$> last sections_with_build_id) ()) as Einfo.
  { revert Hr Hlen. unfold ReadAllHeaders, sections_with_build_id, GetBuildIDInfo. clear Hp Ho Hs. destruct (read_ehdr t m) as [ehdr|]; [|done].
    destruct (ReadProgramHeaders _ _ _ _ _) as [i1 b1]. rewrite Z.leb_antisym. destruct (e_shstrndx ehdr <? e_shnum ehdr) eqn:El.
    - unfold ReadSectionHeaders, names_header, int_product, mbind, prog_bind, mret, prog_ret, modify. rewrite El. cbn.
      destruct (_ * _ <? 2 ^ 31); [|done]. cbn. destruct (read_shdr t m _) as [s|]; cbn.
      + intros _ Hlen. rewrite find_build_id_section_head. by destruct (build_id_sections _ _ _ _ _) as [|x [|y l]]; cbn in *; [..|lia].
      + intros _ _. by rewrite no_names_no_build_id.
    - intros _ _. cbn. by rewrite no_names_no_build_id. }
  unfold mbind, prog_bind. rewrite Einfo. destruct (last sections_with_build_id) as [s|]; cbn in *; rewrite Ho, Hs.
  - destruct (build_id_at m n _ _); cbn; split; intros [= ->]; done.
  - unfold build_id_at. cbn. destruct n; cbn; split; intros [= <-]; done.
Qed.
End headers.

Lemma Elf_Init_valid {M} `{Memory M} (m : M) e : Elf_Init (Elf_new (Some m)) = Ret true e →
  ∃ t i0 i, IsValidElf (Some m) = true ∧ class_type_at m ≫= class_of = Some t ∧
    ReadAllHeaders t m 0 ElfInterface_new = Ret (elf_bias e) i0 ∧ (InitHeaders t m i0 = Ret () i ∨ InitHeaders t m i0 = Err i) ∧
    valid_interface e = Some (m, t, i) ∧ interface_ e = Some (t, i).
Proof.
  unfold Elf_Init. cbn -[ReadAllHeaders InitHeaders ElfInterface_new IsValidElf class_type_at].
  destruct (IsValidElf (Some m)) eqn:Ev; [|done]. cbn -[ReadAllHeaders InitHeaders ElfInterface_new class_type_at].
  destruct (class_type_at m) as [c|] eqn:Ec; [|done]. cbn -[ReadAllHeaders InitHeaders ElfInterface_new].
  destruct (class_of c) as [t|] eqn:Et; [|done]. destruct (le_value <$> ReadFully m (EI_NIDENT + 2) 2) as [mach|]; [|done].
  destruct (arch_of t mach) as [a|]; [|done]. destruct (ReadAllHeaders t m 0 ElfInterface_new) as [b i0|i0|f] eqn:Er; [|done..].
  destruct (InitHeaders t m i0) as [[] i|i|f] eqn:Ei; [..|done]; intros [= <-]; exists t, i0, i; rewrite Er, Ei;
    destruct (gnu_debugdata_offset_ i =? 0); by split_and!; auto.
Qed.

(** A header with more and larger sections than an [int] can count. *)
Definition big_header : list Z :=
  [0x7f; 0x45; 0x4c; 0x46; 2] ++ replicate 13 0 ++ [62; 0] ++ replicate 38 0 ++ [0xff; 0xff; 0xff; 0xff; 0xfe; 0xff].

(** C18. The routines that only look at an ELF file agree with the object that
    reads all of its headers, for any file of which an object can be made: the
    load bias is the same, and so is the build ID when no two sections that hold
    one can be read, the object using the last and the other routine the first.
    But not every file has a result: the position of the section of names is a
    product of two fields of 16 bits computed as an [int], and some headers make
    it too large for one. *)
Theorem elf_lightweight_agrees :
  (∀ (M : Type) (HM : Memory M) (m : M) e,
    byte_memory m → Elf_Init (Elf_new (Some m)) = Ret true e →
    Elf_GetLoadBias (Some m) = elf_bias e ∧
    ∀ t i n id, interface_ e = Some (t, i) → (length (sections_with_build_id t m) ≤ 1)%nat →
      Elf_BuildID n e = Some id ↔ Elf_GetBuildID n m () = Ret id ()) ∧
  (GetInfo (mkBuffer big_header) () = Fault SignedOverflow ∧ Elf_Init (Elf_new (Some (mkBuffer big_header))) = Fault SignedOverflow).
Proof.
  split; [|by vm_compute]. intros M HM m e Hm (t & i0 & i & Hv & Hc & Hr & Hi & Hvi & Hie)%Elf_Init_valid.
  unfold Elf_GetLoadBias, Elf_GetBuildID, Elf_BuildID. rewrite Hv, Hc, Hvi. cbn -[GetLoadBias].
  pose proof (ReadAllHeaders_results t m _ _ Hr) as [Hb Hp]. split; [done|]. intros t' i' n id Hie' Hlen. rewrite Hie in Hie'. injection Hie' as <- <-.
  apply (build_id_from_file t m i n id (elf_bias e) i0); [done..|]. rewrite <-Hp. by apply (InitHeaders_keeps t m).
Qed.

(** A file with one loaded segment, a section of notes and one of names. *)
Definition small_elf : list Z :=
  [127; 69; 76; 70; 2] ++ replicate 11 0 ++ [3; 0; 62; 0; 1] ++ replicate 11 0 ++ [64; 0; 0; 0; 0; 0; 0; 0; 120] ++ replicate 11 0 ++
  [64; 0; 56; 0; 1; 0; 64; 0; 3; 0; 2; 0; 1; 0; 0; 0; 5] ++ replicate 12 0 ++
  [16; 0; 0; 0; 0; 0; 0; 0; 16; 0; 0; 0; 0; 0; 0; 144; 1; 0; 0; 0; 0; 0; 0; 144; 1; 0; 0; 0; 0; 0; 0; 0; 16] ++ replicate 70 0 ++
  [1; 0; 0; 0; 7] ++ replicate 19 0 ++ [88; 1; 0; 0; 0; 0; 0; 0; 20] ++ replicate 15 0 ++ [1] ++ replicate 15 0 ++ [20; 0; 0; 0; 3] ++
  replicate 19 0 ++ [56; 1; 0; 0; 0; 0; 0; 0; 30] ++ replicate 15 0 ++ [1] ++ replicate 16 0 ++
  [46; 110; 111; 116; 101; 46; 103; 110; 117; 46; 98; 117; 105; 108; 100; 45; 105; 100; 0; 46; 115; 104; 115; 116; 114; 116; 97; 98; 0; 0; 0; 4; 0; 0; 0; 4; 0; 0; 0; 3; 0; 0; 0; 71; 78; 85; 0; 222; 173; 190; 239].
Definition small_object : Elf MemoryBuffer := match Elf_Init (Elf_new (Some (mkBuffer small_elf))) with Ret _ e => e | _ => Elf_new None end.
Lemma small_bytes : byte_memory (mkBuffer small_elf).
Proof.
  assert (Forall (λ b, 0 ≤ b < 256) small_elf) as Hb by (apply (bool_decide_unpack _); by vm_compute).
  intros a n. change (Forall (λ b, 0 ≤ b < 256) (buffer_read small_elf a n)). unfold buffer_read. case_match; [constructor|]. by apply Forall_take, Forall_drop.
Qed.
Lemma elf_lightweight_agrees_witness :
  Elf_GetLoadBias (Some (mkBuffer small_elf)) = 0x1000 ∧ Elf_GetBuildID 1 (mkBuffer small_elf) () = Ret [0xde; 0xad; 0xbe; 0xef] ().
Proof.
  destruct (proj1 elf_lightweight_agrees MemoryBuffer MemoryBuffer_Memory (mkBuffer small_elf) small_object) as [Hb Hid];
    [exact small_bytes|by vm_compute|]. split; [rewrite Hb; by vm_compute|].
  destruct (interface_ small_object) as [[t i]|] eqn:E; [|vm_compute in E; discriminate E].
  apply (proj1 (Hid t i 1%nat [0xde; 0xad; 0xbe; 0xef] eq_refl ltac:(assert (t = ElfTypes64) as -> by (vm_compute in E; congruence); vm_compute; lia))). by vm_compute.
Defined.
