(* ===== verification/ElfNotes.v ===== *)
(** * The build ID in the notes of an ELF file

    A section of notes is read back; and a section that makes the code read past
    its end. *)
From S2P Require Import Prelude CString UnwindMemory Outcome DwarfMemory DwarfMemProps DwarfOp DwarfCfa UnwindRegs DwarfSection Unwinder Symbols SymbolsProps ElfInterface.

(** ** Rounding *)

Lemma round4_spec n : 0 ≤ n < 2 ^ 32 - 3 → round4 n = 4 * ((n + 3) / 4).
Proof.
  intros Hn. unfold round4. replace (u32 (n + 3)) with (n + 3) by (symmetry; apply Z.mod_small; lia).
  change (2 ^ 32 - 4) with (Z.land (Z.ones 32) (Z.lnot (Z.ones 2))).
  rewrite Z.land_assoc, Z.land_ones, Z.mod_small by lia. rewrite <-Z.ldiff_land, Z.ldiff_ones_r by lia.
  rewrite Z.shiftr_div_pow2, Z.shiftl_mul_pow2 by lia. change (2 ^ 2) with 4. lia.
Qed.

(** ** Notes *)

Record Note := mkNote { nt_name : list Z; nt_desc : list Z; nt_type : Z }.
Definition len (l : list Z) : Z := Z.of_nat (length l).
Definition pad4 (l : list Z) : list Z := l ++ replicate (Z.to_nat ((- len l) mod 4)) 0.
Definition note_bytes (n : Note) : list Z :=
  le_bytes 4 (len (nt_name n)) ++ le_bytes 4 (len (nt_desc n)) ++ le_bytes 4 (nt_type n) ++ pad4 (nt_name n) ++ pad4 (nt_desc n).
Definition note_ok (n : Note) : Prop := len (nt_name n) < 2 ^ 31 ∧ len (nt_desc n) < 2 ^ 31 ∧ 0 ≤ nt_type n < 2 ^ 32.
Definition is_build_id_note (n : Note) : bool := named "GNU" (trim_nul (nt_name n)) && (nt_type n =? NT_GNU_BUILD_ID).
Fixpoint first_build_id (notes : list Note) : list Z :=
  match notes with [] => [] | n :: notes => if is_build_id_note n then nt_desc n else first_build_id notes end.

Lemma len_pad4 l : len (pad4 l) = 4 * ((len l + 3) / 4).
Proof. unfold pad4, len. rewrite length_app, length_replicate. rewrite Nat2Z.inj_add, Z2Nat.id by (by apply Z.mod_pos_bound). Z.to_euclidean_division_equations. lia. Qed.
Lemma len_app l l' : len (l ++ l') = len l + len l'.
Proof. unfold len. rewrite length_app. lia. Qed.
Lemma len_nonneg l : 0 ≤ len l.
Proof. unfold len. lia. Qed.
#[local] Hint Resolve len_nonneg : core.

Section notes.
Context {M : Type} `{Memory M} (m : M) (base : Z) (bytes : list Z).

(** The bytes are in memory from [base] on. *)
Definition holds : Prop :=
  ∀ a n, 0 ≤ a → 0 ≤ n → a + n ≤ len bytes → Read m (base ⊞ a) n = take (Z.to_nat n) (drop (Z.to_nat a) bytes).

Lemma holds_slice pre x post : holds → bytes = pre ++ x ++ post → ReadFully m (base ⊞ len pre) (len x) = Some x.
Proof using Type.
  intros Hh Hb. unfold ReadFully. rewrite Hh; [|apply len_nonneg..|rewrite Hb, !len_app; pose proof (len_nonneg post); lia].
  rewrite Hb. unfold len. rewrite !Nat2Z.id, drop_app_length, take_app_length. by rewrite Z.eqb_refl.
Qed.

Lemma field_le4 a v b : 0 ≤ v < 2 ^ 32 → field (a ++ le_bytes 4 v ++ b) (length a) 4 = v.
Proof using Type.
  intros Hv. unfold field. rewrite drop_app_length. change 4%nat with (length (le_bytes 4 v)). rewrite take_app_length, le_value_bytes.
  by apply Z.mod_small.
Qed.
Lemma nhdr_of_note n rest : note_ok n →
  nhdr_of (le_bytes 4 (len (nt_name n)) ++ le_bytes 4 (len (nt_desc n)) ++ le_bytes 4 (nt_type n) ++ rest) = mkNhdr (len (nt_name n)) (len (nt_desc n)) (nt_type n).
Proof using Type.
  intros (Hn & Hd & Ht). pose proof (len_nonneg (nt_name n)). pose proof (len_nonneg (nt_desc n)). unfold nhdr_of. f_equal.
  - apply (field_le4 []). lia.
  - apply (field_le4 (le_bytes 4 (len (nt_name n)))). lia.
  - rewrite app_assoc. apply (field_le4 (le_bytes 4 (len (nt_name n)) ++ le_bytes 4 (len (nt_desc n)))). lia.
Qed.

(** The sizes of a note in front of the rest. *)
Lemma note_sizes pre x rest (hdr := le_bytes 4 (len (nt_name x)) ++ le_bytes 4 (len (nt_desc x)) ++ le_bytes 4 (nt_type x)) :
  note_ok x → bytes = pre ++ note_bytes x ++ rest →
  bytes = pre ++ hdr ++ pad4 (nt_name x) ++ pad4 (nt_desc x) ++ rest ∧
  len (pre ++ hdr) = len pre + 12 ∧ len (pre ++ hdr ++ pad4 (nt_name x)) = len pre + 12 + round4 (len (nt_name x)) ∧
  len (pre ++ note_bytes x) = len pre + 12 + round4 (len (nt_name x)) + round4 (len (nt_desc x)) ∧
  len bytes = len (pre ++ note_bytes x) + len rest ∧
  0 ≤ len pre ∧ 0 ≤ len rest ∧ 0 ≤ len (nt_name x) ≤ round4 (len (nt_name x)) ∧ 0 ≤ len (nt_desc x) ≤ round4 (len (nt_desc x)).
Proof using Type.
  intros (Hxn & Hxd & Hxt) Hb. pose proof (len_nonneg (nt_name x)). pose proof (len_nonneg (nt_desc x)).
  assert (bytes = pre ++ hdr ++ pad4 (nt_name x) ++ pad4 (nt_desc x) ++ rest) as Hb' by (rewrite Hb; unfold note_bytes, hdr; by rewrite <-!app_assoc).
  assert (len (note_bytes x) = 12 + round4 (len (nt_name x)) + round4 (len (nt_desc x))) as Hnote.
  { unfold note_bytes. rewrite !len_app, !len_pad4, !round4_spec by lia. change (len (le_bytes 4 _)) with 4. lia. }
  split_and!; [done|by rewrite len_app| | | |apply len_nonneg..| | | |].
  - rewrite !len_app, len_pad4, round4_spec by lia. change (len hdr) with 12. lia.
  - rewrite len_app, Hnote. lia.
  - rewrite Hb, !len_app. lia.
  - done.
  - rewrite round4_spec by lia. Z.to_euclidean_division_equations. lia.
  - done.
  - rewrite round4_spec by lia. Z.to_euclidean_division_equations. lia.
Qed.

Lemma read_note pre x rest n : holds → len bytes < 2 ^ 63 → note_ok x → bytes = pre ++ note_bytes x ++ rest →
  read_notes m (S n) base (len bytes) (len pre) =
    if is_build_id_note x then Some (nt_desc x) else read_notes m n base (len bytes) (len (pre ++ note_bytes x)).
Proof using Type.
  intros Hh Hlen Hx Hb. destruct (note_sizes pre x rest Hx Hb) as (Hb' & Hph & Hpd & Hnext & Hl & ? & ? & ? & ?).
  set (hdr := le_bytes 4 (len (nt_name x)) ++ le_bytes 4 (len (nt_desc x)) ++ le_bytes 4 (nt_type x)) in *.
  pose proof Hx as (Hxn & Hxd & Hxt). cbn [read_notes]. unfold sizeof_Nhdr.
  replace (len pre <? len bytes) with true by lia. replace (len bytes - len pre <? 12) with false by lia.
  change 12 with (len hdr) at 1. rewrite (holds_slice pre hdr _ Hh Hb'). cbn [fmap option_fmap option_map].
  replace (nhdr_of hdr) with (mkNhdr (len (nt_name x)) (len (nt_desc x)) (nt_type x))
    by (symmetry; unfold hdr; rewrite <-(app_nil_r (le_bytes 4 (nt_type x))); by apply nhdr_of_note).
  cbn [n_namesz n_descsz n_type]. rewrite (u64_small (len pre + 12)), (u64_small (len bytes - (len pre + 12))) by lia.
  replace (len bytes - (len pre + 12) <? len (nt_name x)) with false by lia. unfold is_build_id_note.
  destruct (0 <? len (nt_name x)) eqn:E0; bool_hyps.
  - rewrite <-Hph at 1. rewrite (holds_slice (pre ++ hdr) (nt_name x) (replicate (Z.to_nat ((- len (nt_name x)) mod 4)) 0 ++ pad4 (nt_desc x) ++ rest) Hh)
      by (rewrite Hb'; unfold pad4; by rewrite <-!app_assoc).
    rewrite (u64_small (len pre + 12 + round4 (len (nt_name x)))) by lia. rewrite Hnext. destruct (_ && _); [|by rewrite u64_small by lia].
    rewrite (u64_small (len bytes - _)) by lia. replace (_ <? len (nt_desc x)) with false by lia.
    destruct (len (nt_desc x) =? 0) eqn:Ed; bool_hyps; [by destruct (nt_desc x)|]. cbn [orb]. rewrite <-Hpd.
    by rewrite (holds_slice (pre ++ hdr ++ pad4 (nt_name x)) (nt_desc x) (replicate (Z.to_nat ((- len (nt_desc x)) mod 4)) 0 ++ rest) Hh)
      by (rewrite Hb'; unfold pad4; by rewrite <-!app_assoc).
  - assert (nt_name x = []) as En by (unfold len in *; destruct (nt_name x); cbn in *; [done|lia]).
    assert (round4 (len (nt_name x)) = 0) as E4 by by rewrite En. rewrite Hnext, E4, u64_small by lia. rewrite En.
    change (named "GNU" (trim_nul [])) with false. cbn [andb]. f_equal. lia.
Qed.

Lemma read_notes_spec notes : holds → len bytes < 2 ^ 63 → Forall note_ok notes → ∀ pre n,
  bytes = pre ++ concat (note_bytes <$> notes) → (length notes ≤ n)%nat →
  read_notes m n base (len bytes) (len pre) = Some (first_build_id notes).
Proof using Type.
  intros Hh Hlen Hok. induction Hok as [|x notes Hx Hok IH]; intros pre n Hb Hn.
  - cbn in Hb. rewrite app_nil_r in Hb. rewrite Hb. destruct n; cbn [read_notes]; by rewrite Z.ltb_irrefl.
  - destruct n as [|n]; [cbn in Hn; lia|]. rewrite (read_note pre x (concat (note_bytes <$> notes))) by done. cbn [first_build_id].
    destruct (is_build_id_note x); [done|]. apply IH; [by rewrite <-app_assoc|cbn in Hn; lia].
Qed.
End notes.

(** A note of type 3 named [GNU] without a final zero, in a section that ends
    with the name; the bytes after it are [1; 2; 3; 4]. *)
Definition short_note : list Z := le_bytes 4 3 ++ le_bytes 4 4 ++ le_bytes 4 3 ++ bytes_of "GNU" ++ [0; 1; 2; 3; 4].

(** C40. The build ID of a section of notes is the description of the first note
    that is one: named [GNU], with or without a final zero, and of type 3. It is
    found past any other notes, with the padding of names and descriptions. But
    the check of the room left for it subtracts the offset after a padded name
    from the size of the section; this wraps when the section ends before the
    padding, and bytes after the section are taken for the build ID. *)
Theorem build_id_read_back :
  (∀ (M : Type) (HM : Memory M) (m : M) base notes n (bytes := concat (note_bytes <$> notes)),
    holds m base bytes → Forall note_ok notes → 0 ≤ base → len bytes < 2 ^ 63 → base + len bytes < 2 ^ 64 → (length notes ≤ n)%nat →
    build_id_at m n base (len bytes) = Some (first_build_id notes)) ∧
  build_id_at (mkBuffer short_note) 1 0 15 = Some [1; 2; 3; 4].
Proof.
  split; [|by vm_compute]. intros M HM m base notes n bytes Hh Hok H0 Hl Hb Hn. unfold build_id_at.
  replace (2 ^ 64 <=? base + len bytes) with false by lia. by apply (read_notes_spec m base bytes notes Hh Hl Hok []).
Qed.

Definition two_notes : list Note := [mkNote (bytes_of "Android" ++ [0]) [30; 0; 0; 0] 1; mkNote (bytes_of "GNU" ++ [0]) [0xab; 0xcd; 0xef] 3].
Lemma build_id_read_back_witness :
  build_id_at (mkBuffer (concat (note_bytes <$> two_notes) ++ [9; 9])) 2 0 (len (concat (note_bytes <$> two_notes))) = Some [0xab; 0xcd; 0xef].
Proof.
  apply (proj1 build_id_read_back MemoryBuffer MemoryBuffer_Memory (mkBuffer (concat (note_bytes <$> two_notes) ++ [9; 9])) 0 two_notes 2%nat);
    [intros a n Ha Hn Han; by apply buffer_prefix|repeat constructor; by vm_compute|by vm_compute..|cbn; lia].
Defined.
