(* ===== verification/ElfMaps.v ===== *)
(** * The ELF object of a map

    unwindstack/MapInfo.cpp and the cache of Elf.cpp: where the data of the ELF
    file a map belongs to is found, in the file or in the memory of the process,
    in this map or in the read-only one before it; the object made from it, which
    maps share; and what is computed once and kept.  Files do not change.  The
    mutexes and the exchanges of atomic pointers are left out. *)
From S2P Require Import Prelude CString UnwindMemory Outcome UnwindMaps DwarfMemory DwarfOp DwarfCfa UnwindRegs DwarfSection Unwinder Symbols ElfInterface Elf.
Import ErrorCode.

(** ** Memory of an ELF file *)

Inductive ElfMemory (P : Type) :=
  | FileMemory (m : MemoryFileAtOffset) | RangeMemory (m : MemoryRange P) | RangesMemory (m : MemoryRanges P).
#[global] Arguments FileMemory {P}.
#[global] Arguments RangeMemory {P}.
#[global] Arguments RangesMemory {P}.
#[global] Instance ElfMemory_Memory {P} `{Memory P} : Memory (ElfMemory P) := λ m,
  match m with FileMemory m => Read m | RangeMemory m => Read m | RangesMemory m => Read m end.

(** ** State *)

Definition UINT64_MAX : Z := 2 ^ 64 - 1.
(** [None] for a null pointer. *)
Record ElfFields := mkElfFields {
  elf_ : option nat; elf_offset_ : Z; elf_start_offset_ : Z; bias_ : Z; build_id_ : option (list Z); memory_backed_elf_ : bool;
}.
#[global] Instance ElfFields_upd : Updatable ElfFields := λ f,
  mkElfFields (elf_ f) (elf_offset_ f) (elf_start_offset_ f) (bias_ f) (build_id_ f) (memory_backed_elf_ f).
Definition ElfFields_new : ElfFields := mkElfFields None 0 0 UINT64_MAX None false.

(** The maps and their fields, the ELF objects, and the cache when it is enabled. *)
Record World (P : Type) := mkWorld {
  wd_maps : Maps; wd_fields : gmap nat ElfFields; wd_elves : gmap nat (Elf (ElfMemory P)); wd_next : nat;
  cache_ : option (gmap string (gmap Z nat));
}.
#[global] Arguments mkWorld {P}.
#[global] Arguments wd_maps {P}.
#[global] Arguments wd_fields {P}.
#[global] Arguments wd_elves {P}.
#[global] Arguments wd_next {P}.
#[global] Arguments cache_ {P}.
#[global] Instance World_upd {P} : Updatable (World P) := λ w,
  mkWorld (wd_maps w) (wd_fields w) (wd_elves w) (wd_next w) (cache_ w).

Section maps.
Context {P : Type} `{Memory P}.
(** The contents of a file that can be opened; whether it can be mapped. *)
Context (pagesize : Z) (files : string → option (list Z)) (mmap_ok : string → Z → Z → bool).

Definition prog_of {A} (m : prog unit A) : prog (World P) A := λ w,
  match m () with Ret a _ => Ret a w | Err _ => Err w | Fault f => Fault f end.
Definition in_maps {A} (m : prog Maps A) : prog (World P) A := zoom wd_maps (λ s w, w <| wd_maps := s |>) m.

(** [GetElfFields] makes them when they are not there. *)
Definition fields_of (w : World P) (p : nat) : ElfFields := default ElfFields_new (wd_fields w !! p).
Definition GetElfFields (p : nat) : prog (World P) ElfFields := w ← get; mret (fields_of w p).
Definition set_fields (p : nat) (f : ElfFields → ElfFields) : prog (World P) unit :=
  modify (λ w, w <| wd_fields := <[p := f (fields_of w p)]> (wd_fields w) |>).
Definition set_elf_offset (p : nat) (v : Z) : prog (World P) unit := set_fields p (λ f, f <| elf_offset_ := v |>).
Definition set_elf_start_offset (p : nat) (v : Z) : prog (World P) unit := set_fields p (λ f, f <| elf_start_offset_ := v |>).
Definition set_elf (p : nat) (v : option nat) : prog (World P) unit := set_fields p (λ f, f <| elf_ := v |>).
Definition set_memory_backed_elf (p : nat) (v : bool) : prog (World P) unit := set_fields p (λ f, f <| memory_backed_elf_ := v |>).
Definition set_load_bias (p : nat) (v : Z) : prog (World P) unit := set_fields p (λ f, f <| bias_ := v |>).

Definition map_info (p : nat) : prog (World P) MapInfo := in_maps (deref (Some p)).
(** The neighbour with its data, if there is one. *)
Definition real_map_info (step : nat → prog Maps (option nat)) (p : nat) : prog (World P) (option (nat * MapInfo)) :=
  q ← in_maps (step p);
  match q with None => mret None | Some q => m ← map_info q; mret (Some (q, m)) end.

(** ** Memory *)

Definition file_init (name : string) (offset size : Z) : option MemoryFileAtOffset :=
  match MemoryFileAtOffset_Init pagesize (files name) (mmap_ok name offset size) offset size file_mem_empty with
  | (true, m) => Some m
  | (false, _) => None
  end.
(** [nullptr] is [None]. *)
Definition InitFileMemoryFromPreviousReadOnlyMap (p : nat) (m : MapInfo) : prog (World P) (option MemoryFileAtOffset) :=
  prev ← real_map_info GetPrevRealMap p;
  match prev with
  | None => mret None
  | Some (_, prev) =>
      if negb (mp_flags prev =? PROT_READ) || (mp_offset m <=? mp_offset prev) then mret None
      else
        let map_size := mp_end m ⊟ mp_end prev in
        match file_init (mp_name m) (mp_offset prev) map_size with
        | None => mret None
        | Some memory =>
            info ← prog_of (GetInfo memory);
            match info with
            | None => mret None
            | Some max_size =>
                if max_size <? map_size then mret None
                else
                  match file_init (mp_name m) (mp_offset prev) max_size with
                  | None => mret None
                  | Some memory =>
                      set_elf_offset p (mp_offset m - mp_offset prev);;
                      set_elf_start_offset p (mp_offset prev);;
                      mret (Some memory)
                  end
            end
        end
  end.

(** Lines 158-175: no ELF file at the offset. *)
Definition file_memory_elsewhere (p : nat) (m : MapInfo) (map_size : Z) : prog (World P) (option MemoryFileAtOffset) :=
  let whole := file_init (mp_name m) 0 UINT64_MAX in
  if IsValidElf whole then set_elf_offset p (mp_offset m);; mret whole
  else
    prev ← InitFileMemoryFromPreviousReadOnlyMap p m;
    match prev with Some memory => mret (Some memory) | None => mret (file_init (mp_name m) (mp_offset m) map_size) end.
Definition GetFileMemory (p : nat) : prog (World P) (option MemoryFileAtOffset) :=
  m ← map_info p;
  if flag_set (mp_flags m) MAPS_FLAGS_DEVICE_MAP then mret None
  else if mp_offset m =? 0 then mret (file_init (mp_name m) 0 UINT64_MAX)
  else
    let map_size := Z.max (mp_end m ⊟ mp_start m) (sizeof_Ehdr ElfTypes64) in
    match file_init (mp_name m) (mp_offset m) map_size with
    | None => mret None
    | Some memory =>
        info ← prog_of (GetInfo memory);
        match info with
        | Some max_size =>
            set_elf_start_offset p (mp_offset m);;
            if max_size >? map_size then
              match file_init (mp_name m) (mp_offset m) max_size, file_init (mp_name m) (mp_offset m) map_size with
              | Some memory, _ | None, Some memory => mret (Some memory)
              | None, None => set_elf_start_offset p 0;; mret None
              end
            else mret (Some memory)
        | None => file_memory_elsewhere p m map_size
        end
    end.

Definition own_range (process_memory : P) (m : MapInfo) (offset : Z) : MemoryRange P :=
  mkRange process_memory (mp_start m) (mp_end m ⊟ mp_start m) offset.
(** Lines 210-232: the map starts with an ELF header. *)
Definition memory_from_here (process_memory : P) (p : nat) (m : MapInfo) : prog (World P) (option (ElfMemory P)) :=
  set_elf_start_offset p (mp_offset m);;
  next ← real_map_info GetNextRealMap p;
  match next with
  | Some (_, next) =>
      if negb (mp_offset m =? 0) || (mp_offset next <=? mp_offset m) then mret (Some (RangeMemory (own_range process_memory m 0)))
      else
        let ranges := (MemoryRanges_Insert (own_range process_memory m 0) (mkRanges ∅)).2 in
        mret (Some (RangesMemory (MemoryRanges_Insert (own_range process_memory next (mp_offset next ⊟ mp_offset m)) ranges).2))
  | None => mret (Some (RangeMemory (own_range process_memory m 0)))
  end.
(** Lines 234-259: the header is in the map before. *)
Definition memory_from_previous (process_memory : P) (p : nat) (m : MapInfo) : prog (World P) (option (ElfMemory P)) :=
  prev ← real_map_info GetPrevRealMap p;
  match prev with
  | Some (_, prev) =>
      if (mp_offset m =? 0) || (mp_offset m <=? mp_offset prev) then set_memory_backed_elf p false;; mret None
      else
        set_elf_offset p (mp_offset m - mp_offset prev);;
        set_elf_start_offset p (mp_offset prev);;
        match MemoryRanges_Insert (own_range process_memory prev 0) (mkRanges ∅) with
        | (false, _) => mret None
        | (true, ranges) =>
            match MemoryRanges_Insert (own_range process_memory m (mp_offset m - mp_offset prev)) ranges with
            | (false, _) => mret None
            | (true, ranges) => mret (Some (RangesMemory ranges))
            end
        end
  | None => set_memory_backed_elf p false;; mret None
  end.
Definition CreateMemory (process_memory : option P) (p : nat) : prog (World P) (option (ElfMemory P)) :=
  m ← map_info p;
  if mp_end m <=? mp_start m then mret None
  else
    set_elf_offset p 0;;
    if flag_set (mp_flags m) MAPS_FLAGS_DEVICE_MAP then mret None
    else
      memory ← (if negb (String.eqb (mp_name m) EmptyString) then GetFileMemory p else mret None);
      match memory, process_memory with
      | Some memory, _ => mret (Some (FileMemory memory))
      | None, None => mret None
      | None, Some process_memory =>
          set_memory_backed_elf p true;;
          if IsValidElf (Some (own_range process_memory m 0)) then memory_from_here process_memory p m
          else memory_from_previous process_memory p m
      end.

(** ** The cache of objects *)

Definition SetCachingEnabled (enable : bool) (w : World P) : World P :=
  match cache_ w, enable with
  | None, true => w <| cache_ := Some ∅ |>
  | Some _, false => w <| cache_ := None |>
  | _, _ => w
  end.
Definition valid_elf (w : World P) (e : option nat) : bool := from_option valid_ false (e ≫= λ e, wd_elves w !! e).
Definition CacheAdd (p : nat) : prog (World P) unit :=
  m ← map_info p;
  modify (λ w,
    let f := fields_of w p in
    match cache_ w, elf_ f with
    | Some cache, Some e =>
        if valid_elf w (Some e) then
          let offsets := default ∅ (cache !! mp_name m) in
          w <| cache_ := Some (<[mp_name m := match offsets !! elf_start_offset_ f with
                                              | Some _ => offsets
                                              | None => <[elf_start_offset_ f := e]> offsets end]> cache) |>
        else w
    | _, _ => w
    end).
(** The start of the ELF file whose object is in the cache. *)
Definition cached_start (offsets : gmap Z nat) (p : nat) (m : MapInfo) : prog (World P) (option (Z * nat)) :=
  match offsets !! 0, offsets !! mp_offset m with
  | Some e, _ => mret (Some (0, e))
  | None, Some e => mret (Some (mp_offset m, e))
  | None, None =>
      if negb (flag_set (mp_flags m) PROT_EXEC) then mret None
      else
        prev ← real_map_info GetPrevRealMap p;
        match prev with
        | Some (_, prev) =>
            if (mp_offset m <=? mp_offset prev) || negb (mp_flags prev =? PROT_READ) then mret None
            else mret ((λ e, (mp_offset prev, e)) <$> offsets !! mp_offset prev)
        | None => mret None
        end
  end.
Definition CacheGet (p : nat) : prog (World P) bool :=
  w ← get;
  m ← map_info p;
  match cache_ w ≫= (λ cache, cache !! mp_name m) with
  | None => mret false
  | Some offsets =>
      found ← cached_start offsets p m;
      match found with
      | None => mret false
      | Some (elf_start_offset, e) =>
          set_elf p (Some e);; set_elf_start_offset p elf_start_offset;; set_elf_offset p (mp_offset m ⊟ elf_start_offset);; mret true
      end
  end.

(** ** The object of a map *)

Definition new_elf (e : Elf (ElfMemory P)) : prog (World P) nat :=
  w ← get;
  modify (λ w, w <| wd_elves := <[wd_next w := e]> (wd_elves w) |> <| wd_next := S (wd_next w) |>);;
  mret (wd_next w).
(** Lines 287-294: an object that is not valid is kept. *)
Definition make_elf (memory : option (ElfMemory P)) (expected_arch : ArchEnum) : prog (World P) nat :=
  match Elf_Init (Elf_new memory) with
  | Ret _ e => new_elf (if valid_ e && negb (bool_decide (arch_ e = Some expected_arch)) then Invalidate e else e)
  | Err e => new_elf e
  | Fault f => undef f
  end.
(** Lines 298-317: the read-only map before has the same object. *)
Definition share_with_previous (p : nat) (m : MapInfo) : prog (World P) unit :=
  prev ← real_map_info GetPrevRealMap p;
  match prev with
  | Some (q, prev) =>
      if (mp_flags prev =? PROT_READ) && (mp_offset prev <? mp_offset m) then
        f ← GetElfFields p;
        g ← GetElfFields q;
        match elf_ g with
        | None =>
            set_fields q (λ g, g <| elf_ := elf_ f |> <| memory_backed_elf_ := memory_backed_elf_ f |>
              <| elf_start_offset_ := elf_start_offset_ f |> <| elf_offset_ := mp_offset prev ⊟ elf_start_offset_ f |>)
        | Some e => if elf_start_offset_ g =? elf_start_offset_ f then set_elf p (Some e) else mret ()
        end
      else mret ()
  | None => mret ()
  end.
(** Lines 287-324. *)
Definition create_elf (process_memory : option P) (expected_arch : ArchEnum) (p : nat) : prog (World P) (option nat) :=
  m ← map_info p;
  memory ← CreateMemory process_memory p;
  e ← make_elf memory expected_arch;
  set_elf p (Some e);;
  w ← get;
  (if negb (valid_elf w (Some e)) then set_elf_start_offset p (mp_offset m) else share_with_previous p m);;
  CacheAdd p;;
  f ← GetElfFields p;
  mret (elf_ f).
Definition GetElf (process_memory : option P) (expected_arch : ArchEnum) (p : nat) : prog (World P) (option nat) :=
  f ← GetElfFields p;
  match elf_ f with
  | Some e => mret (Some e)
  | None =>
      m ← map_info p;
      cached ← (if negb (String.eqb (mp_name m) EmptyString) then CacheGet p else mret false);
      if cached : bool then f ← GetElfFields p; mret (elf_ f) else create_elf process_memory expected_arch p
  end.

(** ** What is kept with the map *)

Definition elf_object (p : nat) : prog (World P) (option (Elf (ElfMemory P))) :=
  w ← get; mret (elf_ (fields_of w p) ≫= λ e, wd_elves w !! e).
Definition MapInfo_GetLoadBias (p : nat) : prog (World P) Z :=
  f ← GetElfFields p;
  if negb (bias_ f =? UINT64_MAX) then mret (bias_ f)
  else
    e ← elf_object p;
    match e with
    | None => mret UINT64_MAX
    | Some e => let b := if valid_ e then elf_bias e else 0 in set_load_bias p b;; mret b
    end.
Definition MapInfo_GetLoadBias_from (process_memory : option P) (p : nat) : prog (World P) Z :=
  b ← MapInfo_GetLoadBias p;
  if negb (b =? UINT64_MAX) then mret b
  else
    memory ← CreateMemory process_memory p;
    let b := Elf_GetLoadBias memory in
    set_load_bias p b;; mret b.
Definition SetBuildID (new_build_id : list Z) (p : nat) : prog (World P) (list Z) :=
  f ← GetElfFields p;
  match build_id_ f with
  | Some id => mret id
  | None => set_fields p (λ f, f <| build_id_ := Some new_build_id |>);; mret new_build_id
  end.
Definition MapInfo_GetBuildID (n : nat) (p : nat) : prog (World P) (list Z) :=
  f ← GetElfFields p;
  match build_id_ f with
  | Some id => mret id
  | None =>
      e ← elf_object p;
      result ← (match e with
        | Some e => match Elf_BuildID n e with Some id => mret id | None => undef NoFuel end
        | None =>
            memory ← GetFileMemory p;
            match memory with Some memory => prog_of (Elf_GetBuildID n memory) | None => mret [] end
        end);
      SetBuildID result p
  end.
Definition ElfFileNotReadable (p : nat) : prog (World P) bool :=
  f ← GetElfFields p;
  m ← map_info p;
  mret (memory_backed_elf_ f && negb (String.eqb (mp_name m) EmptyString) && negb (String.prefix "[" (mp_name m))
        && negb (String.prefix "/memfd:" (mp_name m))).
End maps.
