(* ===== verification/ElfMapsProps.v ===== *)
(** * The ELF objects of maps: shared, kept, and placed

    What holds of the fields of all maps after any calls of [GetElf]. *)
From S2P Require Import Prelude CString UnwindMemory Outcome UnwindMaps UnwindMapsProps DwarfMemory DwarfOp DwarfCfa UnwindRegs DwarfSection Unwinder Symbols ElfInterface Elf ElfProps ElfMaps.
Import ErrorCode.

(** ** Neighbours *)

Lemma real_map_allocated step name fuel p s q s' :
  real_map fuel step name p s = Ret (Some q) s' → (∀ m x y, step m x = y → ∀ r z, y = Ret r z → z = x) → is_Some (mp_heap s !! q).
Proof.
  intros E Hstep. revert p E. induction fuel as [|fuel IH]; intros [x|] E; cbn in E; try done.
  unfold mbind, prog_bind in E. destruct (deref (Some x) s) as [m s1| |] eqn:Ed; try done.
  assert (s1 = s ∧ mp_heap s !! x = Some m) as [-> Hm].
  { unfold deref, mbind, prog_bind, get in Ed. cbn in Ed. destruct (mp_heap s !! x); [|done]. by injection Ed as -> ->. }
  destruct (IsBlank m).
  - destruct (step m s) as [r s1| |] eqn:Es; try done. rewrite (Hstep _ _ _ Es _ _ eq_refl) in *. by apply (IH r).
  - unfold mret, prog_ret in E. destruct (String.eqb _ _); [|done]. injection E as -> _. by eexists.
Qed.
Lemma GetRealMap_allocated link p s q s' : GetRealMap (step_link link) p s = Ret (Some q) s' → is_Some (mp_heap s !! q).
Proof.
  unfold GetRealMap, mbind, prog_bind, get. destruct (deref (Some p) s) as [m s1| |] eqn:Ed; try done.
  assert (s1 = s) as ->.
  { unfold deref, mbind, prog_bind, get in Ed. cbn in Ed. destruct (mp_heap s !! p); [|done]. by injection Ed. }
  destruct (String.eqb _ _); [done|]. change (step_link link m s) with (Ret (S := Maps) (lock s (link m)) s). cbn beta iota.
  intros E. eapply real_map_allocated; [exact E|]. intros m' x y <- r z [= _ ->]. done.
Qed.

Section maps.
Context {P : Type} `{Memory P} (pagesize : Z) (files : string → option (list Z)) (mmap_ok : string → Z → Z → bool).
Implicit Types (w : World P).

Lemma world_eta w : w <| wd_maps := wd_maps w |> = w.
Proof using Type. by destruct w. Qed.
Lemma fields_of_set w p x q : fields_of (w <| wd_fields := <[p := x]> (wd_fields w) |>) q = if decide (q = p) then x else fields_of w q.
Proof using Type. unfold fields_of. cbn. case_decide as Eq; [subst; by rewrite lookup_insert_eq|by rewrite lookup_insert_ne]. Qed.

(** The faults of reading an ELF file. *)
Definition elf_fault (f : fault) : Prop :=
  (∃ m : MemoryFileAtOffset, GetInfo m () = Fault f) ∨ (∃ m : ElfMemory P, Elf_Init (Elf_new (Some m)) = Fault f).
Abbreviation WP := (wp elf_fault).

Section world.
Context (ids : list nat) (s : Maps) (Hw : maps_wf s ids).
Context (Hword : ∀ p m, mp_heap s !! p = Some m → 0 ≤ mp_offset m < 2 ^ 64).

Lemma wp_map_info w p m Q E : wd_maps w = s → mp_heap s !! p = Some m → Q m w → WP (map_info p) w Q E.
Proof using Type.
  intros Hs Hm HQ. unfold map_info, in_maps. apply wp_zoom. rewrite Hs. unfold wp. rewrite (deref_ok _ _ _ Hm).
  rewrite <-Hs. by rewrite world_eta.
Qed.
Lemma wp_neighbour w p (Q : option (nat * MapInfo) → World P → Prop) E :
  wd_maps w = s → is_Some (mp_heap s !! p) → (∀ r, (∀ q m, r = Some (q, m) → mp_heap s !! q = Some m) → Q r w) →
  WP (real_map_info GetPrevRealMap p) w Q E ∧ WP (real_map_info GetNextRealMap p) w Q E.
Proof using Hw.
  intros Hs Hp HQ. destruct (neighbours_ok s ids p Hw Hp) as (before & after & E1 & E2 & _).
  assert (∀ link r, GetRealMap (step_link link) p s = Ret r s → WP (real_map_info (GetRealMap (step_link link)) p) w Q E) as Hgo.
  { intros link r Er. unfold real_map_info. apply wp_bind. unfold in_maps. apply wp_zoom. rewrite Hs. unfold wp at 1. rewrite Er.
    rewrite <-Hs, world_eta. destruct r as [q|]; [|apply wp_ret, HQ; done]. destruct (GetRealMap_allocated _ _ _ _ _ Er) as [m Hm].
    apply wp_bind. eapply wp_map_info; [done..|]. apply wp_ret, HQ. by intros ? ? [= <- <-]. }
  split; [exact (Hgo prev_map_ before E1)|exact (Hgo next_map_ after E2)].
Qed.

(** ** The memory of a map *)

(** Only the fields of [p] change, and not its object. *)
Record framed (p : nat) (w w' : World P) : Prop := {
  fr_maps : wd_maps w' = wd_maps w; fr_elves : wd_elves w' = wd_elves w; fr_next : wd_next w' = wd_next w; fr_cache : cache_ w' = cache_ w;
  fr_fields : ∀ q, q ≠ p → fields_of w' q = fields_of w q; fr_elf : elf_ (fields_of w' p) = elf_ (fields_of w p);
}.
Lemma framed_refl p w : framed p w w.
Proof using Type. by split. Qed.
Lemma framed_trans p w w' w'' : framed p w w' → framed p w' w'' → framed p w w''.
Proof using Type.
  intros [] []. split; try congruence. intros q Hq. by rewrite fr_fields1, fr_fields0.
Qed.
Lemma framed_set p w w' (f : ElfFields → ElfFields) : (∀ x, elf_ (f x) = elf_ x) → framed p w w' →
  framed p w (w' <| wd_fields := <[p := f (fields_of w' p)]> (wd_fields w') |>).
Proof using Type.
  intros Hf []. split; try done.
  - intros q Hq. rewrite fields_of_set, decide_False by done. auto.
  - by rewrite fields_of_set, decide_True, Hf by done.
Qed.
Lemma wp_set_fields w p f (Q : unit → World P → Prop) E :
  Q () (w <| wd_fields := <[p := f (fields_of w p)]> (wd_fields w) |>) → WP (set_fields p f) w Q E.
Proof using Type. intros HQ. by apply wp_modify. Qed.

(** The place of the map in its ELF file. *)
Definition placed (m : MapInfo) (f : ElfFields) : Prop := elf_offset_ f = mp_offset m ⊟ elf_start_offset_ f.
(** Setting both offsets places the map. *)
Lemma wp_place {A} w0 w p m o (k : prog (World P) A) (Q : A → World P → Prop) E : mp_heap s !! p = Some m → framed p w0 w → 0 ≤ o ≤ mp_offset m →
  (∀ w', framed p w0 w' → placed m (fields_of w' p) → WP k w' Q E) →
  WP (set_elf_offset p (mp_offset m - o);; set_elf_start_offset p o;; k) w Q E.
Proof using Hword.
  intros Hm Hfr Ho HQ. apply wp_bind, wp_set_fields, wp_bind, wp_set_fields, HQ.
  - by apply framed_set, framed_set.
  - unfold placed. rewrite !fields_of_set, !decide_True by done. cbn. specialize (Hword p m Hm). by rewrite u64_small by lia.
Qed.

Lemma wp_GetInfo (mem : MemoryFileAtOffset) w Q E : (∀ r, GetInfo mem () = Ret r () → Q r w) → WP (prog_of (GetInfo mem)) w Q E.
Proof using Type.
  intros HQ. unfold wp, prog_of. destruct (GetInfo mem ()) as [a []|[]|f] eqn:Eg; [by apply HQ| |left; by eexists].
  revert Eg. unfold GetInfo, GetMaxSize, int_product, mbind, prog_bind, mret, prog_ret, undef. by repeat case_match.
Qed.

(** A file that is taken for an ELF file has a map with a place. *)
Definition file_placed (p : nat) (m : MapInfo) (w : World P) (r : option MemoryFileAtOffset) (w' : World P) : Prop :=
  framed p w w' ∧ match r with
    | Some mem => placed m (fields_of w' p) ∨ GetInfo mem () = Ret None ()
    | None => elf_offset_ (fields_of w' p) = 0
    end.

Lemma previous_placed w p m E : wd_maps w = s → mp_heap s !! p = Some m → elf_offset_ (fields_of w p) = 0 → elf_start_offset_ (fields_of w p) = 0 →
  WP (InitFileMemoryFromPreviousReadOnlyMap pagesize files mmap_ok p m) w
    (λ r w', file_placed p m w r w' ∧ (r = None → w' = w)) E.
Proof using Hw Hword.
  intros Hs Hm H0 H1. unfold InitFileMemoryFromPreviousReadOnlyMap. apply wp_bind. eapply wp_neighbour; [done|by eexists|].
  assert (file_placed p m w None w ∧ (@None MemoryFileAtOffset = None → w = w)) as Hnone by by repeat split.
  intros [[q prev]|] Hq; [|by apply wp_ret]. specialize (Hq q prev eq_refl). pose proof (Hword q prev Hq).
  destruct (_ || _) eqn:Ec; [by apply wp_ret|]. bool_hyps. destruct (file_init _ _ _ _ _ _) as [mem|]; [|by apply wp_ret].
  apply wp_bind, wp_GetInfo. intros [size|] _; [|by apply wp_ret].
  destruct (_ <? _); [by apply wp_ret|]. destruct (file_init _ _ _ _ _ size) as [mem'|]; [|by apply wp_ret].
  eapply wp_place; [done|apply framed_refl|lia|]. intros w' Hfr Hpl. apply wp_ret. split; [|done]. split; [done|by left].
Qed.

Lemma GetFileMemory_placed w p m E : wd_maps w = s → mp_heap s !! p = Some m → elf_offset_ (fields_of w p) = 0 → elf_start_offset_ (fields_of w p) = 0 →
  WP (GetFileMemory pagesize files mmap_ok p) w (file_placed p m w) E.
Proof using Hw Hword.
  intros Hs Hm H0 H1. unfold GetFileMemory. apply wp_bind. eapply wp_map_info; [done..|]. pose proof (Hword p m Hm).
  assert (file_placed p m w None w) as Hnone by by repeat split.
  destruct (flag_set _ _); [by apply wp_ret|]. destruct (mp_offset m =? 0) eqn:E0; bool_hyps.
  { apply wp_ret. destruct (file_init _ _ _ _ _ _); [|done]. split; [apply framed_refl|]. left. unfold placed. by rewrite H0, H1, E0. }
  set (size := Z.max _ _). destruct (file_init pagesize files mmap_ok (mp_name m) (mp_offset m) size) as [mem|] eqn:Ei; [|by apply wp_ret].
  apply wp_bind, wp_GetInfo. intros [max|] Einfo.
  - assert (∀ w', w' = w <| wd_fields := <[p := (fields_of w p) <| elf_start_offset_ := mp_offset m |>]> (wd_fields w) |> →
      framed p w w' ∧ placed m (fields_of w' p) ∧ elf_offset_ (fields_of w' p) = 0) as Hhere.
    { intros w' ->. split; [by apply (framed_set p w w (λ x, x <| elf_start_offset_ := mp_offset m |>)), framed_refl|].
      unfold placed. rewrite fields_of_set, decide_True by done. cbn. by rewrite Z.sub_diag, H0. }
    destruct (Hhere _ eq_refl) as (Hfr & Hpl & Ho). apply wp_bind, wp_set_fields. destruct (max >? size); [|apply wp_ret; split; [done|by left]].
    destruct (file_init _ _ _ _ _ max); apply wp_ret; (split; [done|by left]).
  - unfold file_memory_elsewhere. destruct (IsValidElf _) eqn:Ev.
    + apply wp_bind, wp_set_fields, wp_ret. split; [by apply (framed_set p w w (λ x, x <| elf_offset_ := mp_offset m |>)), framed_refl|].
      destruct (file_init _ _ _ _ 0 _); [|done]. left. unfold placed. rewrite fields_of_set, decide_True by done. cbn. rewrite H1, Z.sub_0_r.
      by rewrite u64_small.
    + apply wp_bind. eapply wp_mono; [by eapply (previous_placed w p m E)|cbn|done]. intros [mem'|] w' [Hpl Hsame]; [by apply wp_ret|].
      rewrite (Hsame eq_refl), Ei. apply wp_ret. split; [apply framed_refl|by right].
Qed.

(** Without a size the file has no header, and the object is not valid. *)
Lemma no_info_invalid (mem : MemoryFileAtOffset) e : GetInfo mem () = Ret None () → Elf_Init (Elf_new (Some (FileMemory (P := P) mem))) ≠ Ret true e.
Proof using Type.
  intros Einfo (t & _ & _ & Hv & Hc & _)%Elf_Init_valid. revert Einfo. unfold GetInfo.
  change (IsValidElf (Some mem) = true) in Hv. change (class_type_at mem ≫= class_of = Some t) in Hc. rewrite Hv, Hc. cbn -[GetMaxSize].
  unfold mbind, prog_bind. by destruct (GetMaxSize t mem 0 ()).
Qed.

(** The map of a valid object made from the memory has a place. *)
Definition memory_placed (p : nat) (m : MapInfo) (w : World P) (r : option (ElfMemory P)) (w' : World P) : Prop :=
  framed p w w' ∧ ∀ mem e, r = Some mem → Elf_Init (Elf_new (Some mem)) = Ret true e → placed m (fields_of w' p).
Lemma memory_placed_none p m w w' : framed p w w' → memory_placed p m w None w'.
Proof using Type. by split. Qed.
Lemma memory_placed_some p m w w' mem : framed p w w' → placed m (fields_of w' p) → memory_placed p m w (Some mem) w'.
Proof using Type. by split. Qed.

Lemma here_placed w0 w process_memory p m E : wd_maps w = s → mp_heap s !! p = Some m → framed p w0 w → elf_offset_ (fields_of w p) = 0 →
  WP (memory_from_here process_memory p m) w (memory_placed p m w0) E.
Proof using Hw.
  intros Hs Hm Hfr H0. unfold memory_from_here. apply wp_bind, wp_set_fields.
  match goal with |- WP _ ?x _ _ => set (w1 := x) end.
  assert (framed p w0 w1 ∧ placed m (fields_of w1 p)) as [Hfr1 Hpl].
  { split; [by apply (framed_set p w0 w (λ x, x <| elf_start_offset_ := mp_offset m |>))|].
    unfold placed, w1. rewrite fields_of_set, decide_True by done. cbn. by rewrite Z.sub_diag. }
  apply wp_bind. eapply wp_neighbour; [exact Hs|by eexists|]. intros [[q next]|] _; [|by apply wp_ret, memory_placed_some].
  destruct (_ || _); by apply wp_ret, memory_placed_some.
Qed.
Lemma earlier_placed w0 w process_memory p m E : wd_maps w = s → mp_heap s !! p = Some m → framed p w0 w →
  WP (memory_from_previous process_memory p m) w (memory_placed p m w0) E.
Proof using Hw Hword.
  intros Hs Hm Hfr. unfold memory_from_previous. apply wp_bind. eapply wp_neighbour; [exact Hs|by eexists|].
  assert (WP (set_memory_backed_elf p false;; mret None) w (memory_placed p m w0) E) as Hnone.
  { apply wp_bind, wp_set_fields, wp_ret, memory_placed_none. by apply (framed_set p w0 w (λ x, x <| memory_backed_elf_ := false |>)). }
  intros [[q prev]|] Hq; [|done]. specialize (Hq q prev eq_refl). pose proof (Hword q prev Hq). destruct (_ || _) eqn:Ec; [done|]. bool_hyps.
  eapply wp_place; [done|done|lia|]. intros w' Hfr' Hpl. destruct (MemoryRanges_Insert _ _) as [[] r]; [|by apply wp_ret, memory_placed_none].
  destruct (MemoryRanges_Insert _ r) as [[] r']; apply wp_ret; [by apply memory_placed_some|by apply memory_placed_none].
Qed.

Lemma CreateMemory_placed w process_memory p m E : wd_maps w = s → mp_heap s !! p = Some m → elf_start_offset_ (fields_of w p) = 0 →
  WP (CreateMemory pagesize files mmap_ok process_memory p) w (memory_placed p m w) E.
Proof using Hw Hword.
  intros Hs Hm H1. unfold CreateMemory. apply wp_bind. eapply wp_map_info; [done..|].
  destruct (mp_end m <=? mp_start m); [by apply wp_ret, memory_placed_none, framed_refl|]. apply wp_bind, wp_set_fields.
  match goal with |- WP _ ?x _ _ => set (w1 := x) end.
  assert (framed p w w1) as Hfr by (by apply (framed_set p w w (λ x, x <| elf_offset_ := 0 |>)), framed_refl).
  assert (elf_offset_ (fields_of w1 p) = 0 ∧ elf_start_offset_ (fields_of w1 p) = 0) as [H0' H1'].
  { unfold w1. by rewrite fields_of_set, decide_True by done. }
  destruct (flag_set _ _); [by apply wp_ret, memory_placed_none|].
  apply wp_bind. apply (wp_mono elf_fault _ _ (file_placed p m w1) _ E); [| |done].
  { destruct (negb _); [by apply GetFileMemory_placed|]. by apply wp_ret. }
  intros [mem|] w2 [Hfr2 Hres]; assert (framed p w w2) as Hfr2' by (by eapply framed_trans).
  - apply wp_ret. split; [done|]. intros ? e [= <-] Einit. destruct Hres as [?|Hinfo]; [done|]. by apply no_info_invalid in Einit.
  - destruct process_memory as [pm|]; [|by apply wp_ret, memory_placed_none]. apply wp_bind, wp_set_fields.
    match goal with |- WP _ ?x _ _ => set (w3 := x) end.
    assert (framed p w w3) as Hfr3 by (by apply (framed_set p w w2 (λ x, x <| memory_backed_elf_ := true |>))).
    assert (wd_maps w3 = s) as Hs3 by (by rewrite (fr_maps _ _ _ Hfr3)).
    destruct (IsValidElf _); [|by apply earlier_placed]. apply here_placed; [done..|].
    unfold w3. by rewrite fields_of_set, decide_True by done.
Qed.

(** ** The objects *)

Record world_ok (w : World P) : Prop := {
  ok_maps : wd_maps w = s;
  ok_elves : ∀ p e, elf_ (fields_of w p) = Some e → is_Some (wd_elves w !! e);
  ok_bound : ∀ e, is_Some (wd_elves w !! e) → (e < wd_next w)%nat;
  ok_fresh : ∀ p, elf_ (fields_of w p) = None → elf_start_offset_ (fields_of w p) = 0;
  ok_placed : ∀ p m, mp_heap s !! p = Some m → valid_elf w (elf_ (fields_of w p)) = true → placed m (fields_of w p);
  ok_cache : ∀ cache name offsets start e, cache_ w = Some cache → cache !! name = Some offsets → offsets !! start = Some e →
    valid_elf w (Some e) = true;
}.
(** What a map and an object have, they keep. *)
Record keeps (w w' : World P) : Prop := {
  kp_fields : ∀ q e, elf_ (fields_of w q) = Some e → fields_of w' q = fields_of w q;
  kp_elves : ∀ e x, wd_elves w !! e = Some x → wd_elves w' !! e = Some x;
}.
Lemma keeps_refl w : keeps w w.
Proof using Type. by split. Qed.
Lemma keeps_trans w w' w'' : keeps w w' → keeps w' w'' → keeps w w''.
Proof using Type. intros [H1 H2] [H3 H4]. split; [|eauto]. intros q e Hq. rewrite <-(H1 q e Hq). apply (H3 q e). by rewrite (H1 q e Hq). Qed.

Lemma valid_elf_lookup w e : valid_elf w (Some e) = from_option valid_ false (wd_elves w !! e).
Proof using Type. done. Qed.
Lemma valid_elf_Some w e : valid_elf w (Some e) = true → is_Some (wd_elves w !! e).
Proof using Type. unfold valid_elf. cbn. destruct (wd_elves w !! e); [by eexists|done]. Qed.

(** Giving a map an object that exists, in its place. *)
Lemma ok_set_fields w0 w p x e : world_ok w → keeps w0 w → elf_ (fields_of w0 p) = None → elf_ x = Some e → is_Some (wd_elves w !! e) →
  (∀ m, mp_heap s !! p = Some m → valid_elf w (Some e) = true → placed m x) →
  let w' := w <| wd_fields := <[p := x]> (wd_fields w) |> in world_ok w' ∧ keeps w0 w'.
Proof using Type.
  intros [Hm He Hb Hfr Hpl Hc] [Hk1 Hk2] Hn Hx Hex Hpx w'.
  assert (∀ q, fields_of w' q = if decide (q = p) then x else fields_of w q) as Hf by apply fields_of_set.
  split; split; try done.
  - intros q e'. rewrite Hf. case_decide; [rewrite Hx; by intros [= <-]|apply He].
  - intros q. rewrite Hf. case_decide; [by rewrite Hx|apply Hfr].
  - intros q m Hq. rewrite Hf. case_decide as Eq; [subst q; rewrite Hx; by apply Hpx|by apply Hpl].
  - intros q e' Hq. rewrite Hf, decide_False; [by eapply Hk1|]. intros ->. congruence.
Qed.

(** A cache of valid objects. *)
Lemma ok_set_cache w cache : world_ok w →
  (∀ name offsets start e, cache !! name = Some offsets → offsets !! start = Some e → valid_elf w (Some e) = true) →
  world_ok (w <| cache_ := Some cache |>) ∧ keeps w (w <| cache_ := Some cache |>).
Proof using Type. intros [] Hc. split; split; try done. intros c name offsets start e [= <-]. apply Hc. Qed.
Lemma CacheAdd_ok w p m (Q : unit → World P → Prop) E : world_ok w → mp_heap s !! p = Some m →
  (∀ w', world_ok w' → keeps w w' → fields_of w' p = fields_of w p → Q () w') → WP (CacheAdd p) w Q E.
Proof using Type.
  intros Hok Hm HQ. unfold CacheAdd. apply wp_bind. eapply wp_map_info; [apply Hok|done|]. apply wp_modify. cbv zeta.
  destruct (cache_ w) as [cache|] eqn:Ec; [|by apply HQ; [|apply keeps_refl|]].
  destruct (elf_ (fields_of w p)) as [e|]; [|by apply HQ; [|apply keeps_refl|]].
  destruct (valid_elf w (Some e)) eqn:Ev; [|by apply HQ; [|apply keeps_refl|]].
  match goal with |- Q () (w <| cache_ := Some ?c |>) => destruct (ok_set_cache w c Hok) as [H1 H2]; [|by apply HQ] end.
  intros name offsets start e' [[<- <-]|[_ Hn]]%lookup_insert_Some He'; [|by eapply (ok_cache w Hok)].
  assert (∀ x, default ∅ (cache !! mp_name m) !! start = Some x → valid_elf w (Some x) = true) as Hold.
  { intros x Hx. destruct (cache !! mp_name m) as [o|] eqn:Eo; [by eapply (ok_cache w Hok)|]. cbn in Hx. by rewrite lookup_empty in Hx. }
  destruct (default ∅ (cache !! mp_name m) !! elf_start_offset_ (fields_of w p)); [by apply Hold|].
  apply lookup_insert_Some in He' as [[_ <-]|[_ He']]; [done|by apply Hold].
Qed.
Lemma CacheGet_ok w p m (Q : bool → World P → Prop) E : world_ok w → mp_heap s !! p = Some m → elf_ (fields_of w p) = None →
  Q false w → (∀ w', world_ok w' → keeps w w' → is_Some (elf_ (fields_of w' p)) → Q true w') → WP (CacheGet p) w Q E.
Proof using Hw.
  intros Hok Hm Hn Hfalse Htrue. unfold CacheGet. apply wp_bind, wp_get, wp_bind. eapply wp_map_info; [apply Hok|done|].
  destruct (cache_ w ≫= _) as [offsets|] eqn:Ec; [|by apply wp_ret]. apply wp_bind.
  assert (∀ start e, offsets !! start = Some e → valid_elf w (Some e) = true) as Hval.
  { intros start e Ho. destruct (cache_ w) as [cache|] eqn:Ec'; [|done]. by eapply (ok_cache w Hok). }
  assert (WP (cached_start offsets p m) w (λ r w', w' = w ∧ ∀ start e, r = Some (start, e) → valid_elf w (Some e) = true) E) as Hstart.
  { unfold cached_start. destruct (offsets !! 0) as [e|] eqn:E0; [apply wp_ret; split; [done|intros ? ? [= <- <-]; by eapply Hval]|].
    destruct (offsets !! mp_offset m) as [e|] eqn:E1; [apply wp_ret; split; [done|intros ? ? [= <- <-]; by eapply Hval]|].
    destruct (negb _); [by apply wp_ret|]. apply wp_bind. eapply wp_neighbour; [apply Hok|by eexists|]. intros [[q prev]|] _; [|by apply wp_ret].
    destruct (_ || _); [by apply wp_ret|]. apply wp_ret. split; [done|]. destruct (offsets !! mp_offset prev) as [e|] eqn:E2; [|done].
    intros ? ? [= <- <-]. by eapply Hval. }
  eapply wp_mono; [exact Hstart| |done]. intros [[start e]|] w' [-> Hv]; [|by apply wp_ret]. specialize (Hv _ _ eq_refl).
  apply wp_bind, wp_set_fields, wp_bind, wp_set_fields, wp_bind, wp_set_fields, wp_ret.
  match goal with |- Q true ?x => set (w3 := x) end.
  assert (w3 = w <| wd_fields := <[p := (fields_of w p) <| elf_ := Some e |> <| elf_start_offset_ := start |> <| elf_offset_ := mp_offset m ⊟ start |>]> (wd_fields w) |>) as Ew3.
  { unfold w3. rewrite !fields_of_set, !decide_True by done. cbn. by rewrite !insert_insert_eq. }
  rewrite Ew3. match goal with |- Q true (w <| wd_fields := <[p := ?x]> (wd_fields w) |>) => destruct (ok_set_fields w w p x e Hok (keeps_refl w) Hn) as [G1 G2] end.
  - done.
  - by apply valid_elf_Some.
  - intros m' Hm' _. rewrite Hm in Hm'. by injection Hm' as <-.
  - apply Htrue; [done..|]. rewrite fields_of_set, decide_True by done. by eexists.
Qed.

(** A new object for a map whose other fields were set. *)
Lemma ok_new_object w w1 p m x y (e := wd_next w1) : world_ok w → framed p w w1 → mp_heap s !! p = Some m → elf_ (fields_of w p) = None →
  elf_ y = Some e → (valid_ x = true → placed m y) →
  let w2 := w1 <| wd_elves := <[e := x]> (wd_elves w1) |> <| wd_next := S e |> in
  let w3 := w2 <| wd_fields := <[p := y]> (wd_fields w2) |> in world_ok w3 ∧ keeps w w3 ∧ valid_elf w3 (Some e) = valid_ x.
Proof using Type.
  intros [Hm He Hb Hfr Hpl Hc] [F1 F2 F3 F4 F5 F6] Hmp Hn Hy Hpy w2 w3.
  assert (∀ q, fields_of w3 q = if decide (q = p) then y else fields_of w q) as Hf.
  { intros q. unfold w3. rewrite fields_of_set. case_decide; [done|]. by apply F5. }
  assert (∀ i z, wd_elves w !! i = Some z → wd_elves w3 !! i = Some z) as Hel.
  { intros i z Hi. unfold w3, w2. cbn. rewrite F2, lookup_insert_ne; [done|]. intros <-. unfold e in Hi. rewrite F3 in Hi.
    specialize (Hb (wd_next w) ltac:(by eexists)). lia. }
  assert (wd_elves w3 !! e = Some x) as Hex by (unfold w3, w2; cbn; by rewrite lookup_insert_eq).
  assert (∀ i, is_Some (wd_elves w !! i) → valid_elf w3 (Some i) = valid_elf w (Some i)) as Hval.
  { intros i [z Hz]. by rewrite !valid_elf_lookup, (Hel i z Hz), Hz. }
  split; [split|split; [split; [|done]|by rewrite valid_elf_lookup, Hex]].
  - unfold w3, w2. cbn. by rewrite F1.
  - intros q e'. rewrite Hf. case_decide; [rewrite Hy; intros [= <-]; by eexists|]. intros [z Hz]%He. exists z. by apply Hel.
  - intros i Hi. change (wd_next w3) with (S e). unfold w3, w2 in Hi. cbn in Hi. rewrite F2 in Hi. unfold e in *. rewrite F3 in *.
    destruct (decide (i = wd_next w)) as [->|]; [lia|]. rewrite lookup_insert_ne in Hi by done. specialize (Hb i Hi). lia.
  - intros q. rewrite Hf. case_decide; [by rewrite Hy|apply Hfr].
  - intros q m' Hq. rewrite Hf. case_decide as Eq.
    + subst q. rewrite Hy, valid_elf_lookup, Hex. rewrite Hmp in Hq. injection Hq as <-. done.
    + intros Hv. apply Hpl; [done|]. destruct (elf_ (fields_of w q)) as [i|] eqn:Ei; [|done]. rewrite <-Hval; [done|by eapply He].
  - intros cache name offsets start i Hca. unfold w3, w2 in Hca. cbn in Hca. rewrite F4 in Hca. intros Hna Hst.
    pose proof (Hc _ _ _ _ _ Hca Hna Hst) as Hv. rewrite Hval; [done|by apply valid_elf_Some].
  - intros q e' Hq. rewrite Hf, decide_False; [done|]. intros ->. congruence.
Qed.

Lemma Elf_Init_no_err (mem : option (ElfMemory P)) e : Elf_Init (Elf_new mem) ≠ Err e.
Proof using Type. unfold Elf_Init. repeat case_match; done. Qed.
(** A valid object was made from memory. *)
Lemma make_elf_ok w mem a (Q : nat → World P → Prop) E :
  (∀ x, (valid_ x = true → ∃ m e, mem = Some m ∧ Elf_Init (Elf_new (Some m)) = Ret true e) →
    Q (wd_next w) (w <| wd_elves := <[wd_next w := x]> (wd_elves w) |> <| wd_next := S (wd_next w) |>)) →
  WP (make_elf mem a) w Q E.
Proof using Type.
  intros HQ. unfold make_elf. destruct (Elf_Init (Elf_new mem)) as [b e|e|f] eqn:Ei; [|by apply Elf_Init_no_err in Ei|].
  - unfold new_elf. apply wp_bind, wp_get, wp_bind, wp_modify, wp_ret, HQ. intros Hv. destruct mem as [m|].
    + exists m. assert (valid_ e = true) as He by (by destruct (valid_ e && _); [done|]).
      destruct b; [by eexists|]. exfalso. revert Ei He. unfold Elf_Init. repeat case_match; intros [= <-]; cbn; try done.
      all: unfold CreateInterfaceFromMemory in *; repeat case_match; simplify_eq; done.
    + cbn in Ei. injection Ei as <- <-. done.
  - unfold wp, undef. right. destruct mem as [m|]; [by exists m|done].
Qed.

Lemma share_ok w0 w p m e (Q : unit → World P → Prop) E : world_ok w → keeps w0 w → mp_heap s !! p = Some m → elf_ (fields_of w0 p) = None →
  elf_ (fields_of w p) = Some e → valid_elf w (Some e) = true →
  (∀ w', world_ok w' → keeps w0 w' → is_Some (elf_ (fields_of w' p)) → Q () w') → WP (share_with_previous p m) w Q E.
Proof using Hw.
  intros Hok Hk Hm Hn He Hv HQ. unfold share_with_previous. apply wp_bind. eapply wp_neighbour; [apply Hok|by eexists|].
  assert (Q () w) as Hsame by (apply HQ; [done..|by rewrite He]).
  intros [[q prev]|] Hq; [|by apply wp_ret]. specialize (Hq q prev eq_refl). destruct (_ && _) eqn:Ec; [|by apply wp_ret]. bool_hyps.
  assert (q ≠ p) as Hqp by (intros ->; rewrite Hm in Hq; injection Hq as <-; lia).
  apply wp_bind, wp_bind, wp_get, wp_ret, wp_bind, wp_bind, wp_get, wp_ret.
  destruct (elf_ (fields_of w q)) as [e'|] eqn:Eq.
  - destruct (_ =? _) eqn:Es; [|by apply wp_ret]. bool_hyps. apply wp_set_fields.
    match goal with |- Q () (w <| wd_fields := <[p := ?x]> (wd_fields w) |>) => destruct (ok_set_fields w0 w p x e' Hok Hk Hn) as [G1 G2] end.
    + done.
    + by eapply (ok_elves w Hok).
    + intros m' Hm' _. pose proof (ok_placed w Hok p m' Hm') as Hpl. rewrite He in Hpl. by apply Hpl.
    + apply HQ; [done..|]. rewrite fields_of_set, decide_True by done. by eexists.
  - apply wp_set_fields.
    assert (elf_ (fields_of w0 q) = None) as Hnq.
    { destruct (elf_ (fields_of w0 q)) as [i|] eqn:Ei; [|done]. pose proof (kp_fields _ _ Hk q i Ei) as Hf. rewrite Hf in Eq. congruence. }
    match goal with |- Q () (w <| wd_fields := <[q := ?x]> (wd_fields w) |>) => destruct (ok_set_fields w0 w q x e Hok Hk Hnq) as [G1 G2] end.
    + done.
    + by apply valid_elf_Some.
    + intros m' Hm' _. rewrite Hq in Hm'. by injection Hm' as <-.
    + apply HQ; [done..|]. rewrite fields_of_set, decide_False by done. by rewrite He.
Qed.

Definition got (p : nat) (w : World P) (r : option nat) (w' : World P) : Prop :=
  world_ok w' ∧ keeps w w' ∧ is_Some r ∧ elf_ (fields_of w' p) = r.
Lemma create_elf_ok w pm a p m : world_ok w → mp_heap s !! p = Some m → elf_ (fields_of w p) = None →
  WP (create_elf pagesize files mmap_ok pm a p) w (got p w) (λ _, False).
Proof using Hw Hword.
  intros Hok Hm Hn. unfold create_elf. apply wp_bind. eapply wp_map_info; [apply Hok|done|]. apply wp_bind.
  eapply wp_mono; [apply (CreateMemory_placed w pm p m (λ _, False)); [apply Hok|done|by apply Hok]| |done]. intros mem w1 [Hfr Hmem].
  apply wp_bind, make_elf_ok. intros x Hx. apply wp_bind, wp_set_fields.
  match goal with |- WP _ (?w2 <| wd_fields := <[p := ?y]> (wd_fields ?w2) |>) _ _ => destruct (ok_new_object w w1 p m x y Hok Hfr Hm Hn) as (Hok3 & Hk3 & Hv3) end.
  { done. }
  { intros Hv. destruct (Hx Hv) as (mm & e & -> & Ei). exact (Hmem mm e eq_refl Ei). }
  match goal with |- WP _ ?x _ _ => set (w3 := x) in * end. apply wp_bind, wp_get, wp_bind. cbv zeta in Hok3, Hk3, Hv3. fold w3 in Hok3, Hk3, Hv3.
  assert (elf_ (fields_of w3 p) = Some (wd_next w1)) as He3 by (unfold w3; by rewrite fields_of_set, decide_True by done).
  assert (∀ w4, world_ok w4 → keeps w w4 → is_Some (elf_ (fields_of w4 p)) → WP (CacheAdd p;; f ← GetElfFields p; mret (elf_ f)) w4 (got p w) (λ _, False)) as Hrest.
  { intros w4 Hok4 Hk4 He4. apply wp_bind. eapply CacheAdd_ok; [done..|]. intros w5 Hok5 Hk5 Hf5. apply wp_bind, wp_bind, wp_get, wp_ret, wp_ret.
    split; [done|]. split; [by eapply keeps_trans|]. by rewrite Hf5. }
  destruct (valid_elf w3 (Some (wd_next w1))) eqn:Ev; cbn [negb].
  - by eapply share_ok.
  - apply wp_set_fields. match goal with |- WP _ (w3 <| wd_fields := <[p := ?y]> (wd_fields w3) |>) _ _ => destruct (ok_set_fields w w3 p y (wd_next w1) Hok3 Hk3 Hn) as [G1 G2] end.
    + done.
    + by eapply (ok_elves w3 Hok3).
    + intros m' _. by rewrite Ev.
    + apply Hrest; [done..|]. rewrite fields_of_set, decide_True by done. cbn. by rewrite He3.
Qed.
Lemma GetElf_ok w pm a p m : world_ok w → mp_heap s !! p = Some m → WP (GetElf pagesize files mmap_ok pm a p) w (got p w) (λ _, False).
Proof using Hw Hword.
  intros Hok Hm. unfold GetElf. apply wp_bind, wp_bind, wp_get, wp_ret. destruct (elf_ (fields_of w p)) as [e|] eqn:Ee.
  { apply wp_ret. split; [done|]. split; [apply keeps_refl|]. by rewrite Ee. }
  apply wp_bind. eapply wp_map_info; [apply Hok|done|]. apply wp_bind. destruct (negb _); [|by apply wp_ret, (create_elf_ok w pm a p m)].
  eapply CacheGet_ok; [done..|by apply (create_elf_ok w pm a p m)|]. intros w' Hok' Hk' He'. apply wp_bind, wp_bind, wp_get, wp_ret, wp_ret.
  by split_and!.
Qed.
End world.

(** What any calls lead to. *)
Inductive reached (w0 : World P) : World P → Prop :=
  | reached_start : reached w0 w0
  | reached_call w pm a p r w' : reached w0 w → is_Some (mp_heap (wd_maps w0) !! p) → GetElf pagesize files mmap_ok pm a p w = Ret r w' → reached w0 w'.

Lemma world_start_ok s cache : (cache = None ∨ cache = Some ∅) → world_ok s (mkWorld s ∅ ∅ 0 cache).
Proof using Type.
  assert (∀ p, fields_of (mkWorld (P := P) s ∅ ∅ 0 cache) p = ElfFields_new) as Hf by (intros p; unfold fields_of; cbn; by rewrite lookup_empty).
  intros Hc. split; [done|intros p e; by rewrite Hf|intros e; cbn; rewrite lookup_empty; by intros [? ?]|by intros p; rewrite Hf|intros p m _; by rewrite Hf|].
  intros c name offsets start e Ec. cbn in Ec. destruct Hc as [->| ->]; [done|]. injection Ec as <-. by rewrite lookup_empty.
Qed.
Lemma reached_ok ids s cache w : maps_wf s ids → (∀ p m, mp_heap s !! p = Some m → 0 ≤ mp_offset m < 2 ^ 64) → (cache = None ∨ cache = Some ∅) →
  reached (mkWorld s ∅ ∅ 0 cache) w → world_ok s w.
Proof using Type.
  intros Hw Hword Hc Hre. induction Hre as [|w pm a p r w' _ IH [m Hm] E]; [by apply world_start_ok|].
  pose proof (GetElf_ok ids s Hw Hword w pm a p m IH Hm) as Hg. unfold wp in Hg. rewrite E in Hg. by destruct Hg as [? _].
Qed.
Lemma GetElf_again w pm a p e : elf_ (fields_of w p) = Some e → GetElf pagesize files mmap_ok pm a p w = Ret (Some e) w.
Proof using Type. intros He. unfold GetElf, GetElfFields, mbind, prog_bind, get, mret, prog_ret. by rewrite He. Qed.
End maps.

(** A file of 8 KiB with an ELF header for no known machine, mapped from its
    second page. *)
Definition odd_file : list Z := [0x7f; 0x45; 0x4c; 0x46; 2] ++ replicate (Z.to_nat 8187) 0.
Definition odd_world : World MemoryBuffer :=
  mkWorld (mkMaps {[0%nat := mkMapInfo 0x10000 0x11000 0x1000 5 "/lib/odd.so" None None]} [Some 0%nat] ∅ 1) ∅ ∅ 0 None.

(** C9. The ELF objects of maps, for any maps, files and process, after any calls
    of [GetElf], with or without the cache: a call gives the map an object, and
    gives the same one from then on; an object and the fields of a map that has
    one never change; and for a valid object the offset of the map in its ELF file
    is the offset of the map less that at which the ELF file starts, as documented,
    whether the data came from the file at the offset, from all of the file, from
    the read-only map before, from memory, from the cache, or with the object of
    the map after it. The only calls without a result are those for which the
    routines that read headers have none. For an object that is not valid the
    documented equation does not hold. *)
Theorem maps_share_elf :
  (∀ (P : Type) (HP : Memory P) pagesize files mmap_ok ids s cache w pm a p m,
    maps_wf s ids → (∀ q m, mp_heap s !! q = Some m → 0 ≤ mp_offset m < 2 ^ 64) → (cache = None ∨ cache = Some ∅) →
    reached (P := P) pagesize files mmap_ok (mkWorld s ∅ ∅ 0 cache) w → mp_heap s !! p = Some m →
    match GetElf pagesize files mmap_ok pm a p w with
    | Ret r w' => ∃ e x, r = Some e ∧ elf_ (fields_of w' p) = Some e ∧ wd_elves w' !! e = Some x ∧ keeps w w' ∧
        (∀ pm a, GetElf pagesize files mmap_ok pm a p w' = Ret r w') ∧
        (valid_ x = true → elf_offset_ (fields_of w' p) = mp_offset m ⊟ elf_start_offset_ (fields_of w' p))
    | Err _ => False
    | Fault f => elf_fault (P := P) f
    end) ∧
  (∃ w, GetElf 4096 (λ _, Some odd_file) (λ _ _ _, true) None ARCH_X86_64 0 odd_world = Ret (Some 0%nat) w ∧
    elf_offset_ (fields_of w 0) = 0x1000 ∧ elf_start_offset_ (fields_of w 0) = 0x1000).
Proof.
  split; [|eexists; split; [by vm_compute|by vm_compute]].
  intros P HP pagesize files mmap_ok ids s cache w pm a p m Hw Hword Hc Hre Hm.
  pose proof (GetElf_ok pagesize files mmap_ok ids s Hw Hword w pm a p m (reached_ok _ _ _ ids s cache w Hw Hword Hc Hre) Hm) as Hg. unfold wp in Hg.
  destruct (GetElf _ _ _ _ _ _ _) as [r w'|w'|f]; [|done..]. destruct Hg as (Hok & Hk & [e ->] & He).
  destruct (ok_elves s w' Hok p e He) as [x Hx]. exists e, x. split_and!; try done.
  - intros. by apply GetElf_again.
  - intros Hv. apply (ok_placed s w' Hok p m Hm). rewrite He. by rewrite valid_elf_lookup, Hx.
Qed.

(** A library in two maps with a gap. *)
Definition demo_maps : Maps := match Parse (Some demo_text) Maps_new with Ret _ s => s | _ => Maps_new end.
Definition demo_file (name : string) : option (list Z) := Some (small_elf ++ replicate (Z.to_nat 8192) 0).
Lemma demo_words q m : mp_heap demo_maps !! q = Some m → 0 ≤ mp_offset m < 2 ^ 64.
Proof.
  assert (map_Forall (λ _ m, 0 ≤ mp_offset m < 2 ^ 64) (mp_heap demo_maps)) as Hall by (apply (bool_decide_unpack _); by vm_compute). apply Hall.
Qed.
Lemma maps_share_elf_witness :
  ∃ w, GetElf (P := MemoryBuffer) 4096 demo_file (λ _ _ _, true) None ARCH_X86_64 2 (mkWorld demo_maps ∅ ∅ 0 (Some ∅)) = Ret (Some 0%nat) w ∧
    elf_ (fields_of w 2) = Some 0%nat ∧ elf_ (fields_of w 0) = Some 0%nat ∧ elf_offset_ (fields_of w 2) = 0x1000.
Proof.
  destruct (Parse_wf (Some demo_text) demo_ordered) as (s & olds & E & Hw & _).
  assert (s = demo_maps) as -> by (unfold demo_maps; by rewrite E).
  destruct (mp_heap demo_maps !! 2%nat) as [m|] eqn:Em; [|by vm_compute in Em].
  pose proof (proj1 maps_share_elf MemoryBuffer MemoryBuffer_Memory 4096 demo_file (λ _ _ _, true) olds demo_maps (Some ∅) (mkWorld demo_maps ∅ ∅ 0 (Some ∅)) None
    ARCH_X86_64 2%nat m Hw demo_words (or_intror eq_refl) (reached_start _ _ _ _) Em) as Hg.
  destruct (GetElf _ _ _ _ _ _ _) as [r w| |] eqn:Eg; [|vm_compute in Eg; discriminate Eg..]. destruct Hg as (e & x & -> & He & _).
  exists w. vm_compute in Eg. injection Eg as <- <-. split_and!; by vm_compute.
Defined.
