(* ===== verification/Bootstrap.v ===== *)
(** * The allocator that serves calls before libc is resolved

    src/alloc_hook.cpp, the functions [Bootstrap*]: while the symbols of libc are
    looked up, allocations are served from mappings of their own, one for each,
    in a linked list of headers.  The list is the pointers the code follows; the
    theorems are about the blocks of memory it gives out. *)
From S2P Require Import Prelude UnwindMemProps Outcome HookCalls.

(** ** Memory *)

(** A header is at the end of the padding in front of its block. *)
Record BootstrapHeader := mkHeader { map_base : Z; map_size : Z; requested_size : Z; magic : Z; next : Z }.
#[global] Instance BootstrapHeader_upd : Updatable BootstrapHeader := λ h,
  mkHeader (map_base h) (map_size h) (requested_size h) (magic h) (next h).
Definition sizeof_header : Z := 48.
Definition alignof_header : Z := 16.
Definition alignof_max_align_t : Z := 16.
Definition sizeof_ptr : Z := 8.
Definition kBootstrapMagic : Z := 0x6d616c6c6f635f68.

(** The list, the headers by address, the bytes of blocks (those absent are
    zero), the mappings made and not yet unmapped, and [errno]. *)
Record Boot := mkBoot {
  g_bootstrap_list : Z;
  headers : gmap Z BootstrapHeader;
  bytes : gmap Z Z;
  mapped : gmap Z Z;
  errno : Z;
}.
#[global] Instance Boot_upd : Updatable Boot := λ s, mkBoot (g_bootstrap_list s) (headers s) (bytes s) (mapped s) (errno s).
Definition Boot_new : Boot := mkBoot 0 ∅ ∅ ∅ 0.

Definition byte (s : Boot) (a : Z) : Z := default 0 (bytes s !! a).
Definition inside (a base size : Z) : Prop := base ≤ a < base + size.
#[global] Instance inside_dec a base size : Decision (inside a base size).
Proof. unfold inside. apply _. Defined.
Definition clear_bytes (base size : Z) (s : Boot) : Boot :=
  s <| bytes := filter (λ '(a, _), ¬ inside a base size) (bytes s) |>.
Fixpoint copy_bytes (dst src : Z) (n : nat) (s : Boot) : Boot :=
  match n with
  | O => s
  | S n => copy_bytes (dst + 1) (src + 1) n (s <| bytes := <[dst := byte s src]> (bytes s) |>)
  end.

(** [header->...] through a pointer. *)
Definition load_header (header : Z) : prog Boot BootstrapHeader := λ s,
  match headers s !! header with Some h => Ret h s | None => Fault OutOfRange end.
Definition store_header (header : Z) (h : BootstrapHeader) : prog Boot unit := modify (λ s, s <| headers := <[header := h]> (headers s) |>).
Definition set_errno (e : Z) : prog Boot unit := modify (λ s, s <| errno := e |>).

(** [syscall(SYS_munmap, ...)] of a whole mapping. *)
Definition unmap (base size : Z) : prog Boot unit := λ s,
  if bool_decide (mapped s !! base = Some size) then
    Ret () ((clear_bytes base size s)
      <| headers := filter (λ '(a, _), ¬ inside a base size) (headers s) |> <| mapped := delete base (mapped s) |>)
  else Fault OutOfRange.

(** ** Sizes *)

Definition IsPowerOfTwo (value : Z) : bool := negb (value =? 0) && (Z.land value (value ⊟ 1) =? 0).
Definition CheckedAdd (lhs rhs : Z) : option Z := if rhs >? SIZE_MAX - lhs then None else Some (lhs + rhs).

(** [page_size] is what [sysconf(_SC_PAGESIZE)] returns. *)
Definition PageAlign (page_size size : Z) : Z :=
  let alignment := if page_size >? 0 then page_size else 4096 in
  if negb (IsPowerOfTwo alignment) || (size >? SIZE_MAX - (alignment - 1)) then 0
  else Z.land (size + alignment - 1) (Z.lnot (alignment - 1)).

(** ** The list *)

Fixpoint find_header (fuel : nat) (header ptr : Z) : prog Boot bool :=
  match fuel with
  | O => undef NoFuel
  | S fuel =>
      if header =? 0 then mret false
      else
        h ← load_header header;
        if (magic h =? kBootstrapMagic) && (header + sizeof_header =? ptr) then mret true
        else find_header fuel (next h) ptr
  end.
(** One turn for every header and one for the null pointer. *)
Definition list_fuel (s : Boot) : nat := S (size (headers s)).
Definition IsBootstrapPointer (ptr : Z) : prog Boot bool :=
  if ptr =? 0 then mret false else s ← get; find_header (list_fuel s) (g_bootstrap_list s) ptr.

(** [BootstrapHeader** current]: the head of the list, or the link of a header. *)
Inductive Link := Head | Next (header : Z).
Definition load_link (current : Link) : prog Boot Z :=
  match current with Head => s ← get; mret (g_bootstrap_list s) | Next header => h ← load_header header; mret (next h) end.
Definition store_link (current : Link) (header : Z) : prog Boot unit :=
  match current with
  | Head => modify (λ s, s <| g_bootstrap_list := header |>)
  | Next at_ => h ← load_header at_; store_header at_ (h <| next := header |>)
  end.
Fixpoint unlink (fuel : nat) (current : Link) (header : Z) : prog Boot unit :=
  match fuel with
  | O => undef NoFuel
  | S fuel =>
      v ← load_link current;
      if negb (v =? 0) && negb (v =? header) then unlink fuel (Next v) header
      else if v =? header then h ← load_header header; store_link current (next h)
      else mret ()
  end.

(** ** Operations *)

Section bootstrap.
(** [mmap mapped size] is the answer of the kernel to an anonymous mapping:
    [errno] or an address. *)
Context (page_size : Z) (mmap : gmap Z Z → Z → Z + Z).

Definition BootstrapAlignedMalloc (alignment size : Z) : prog Boot Z :=
  if negb (IsPowerOfTwo alignment) || (alignment <? sizeof_ptr) then set_errno EINVAL;; mret 0
  else
    let effective_alignment := Z.max alignment alignof_header in
    match payload ← CheckedAdd sizeof_header size; CheckedAdd payload (effective_alignment - 1) with
    | None => set_errno ENOMEM;; mret 0
    | Some total =>
        let map_size := PageAlign page_size total in
        if map_size =? 0 then set_errno ENOMEM;; mret 0
        else
          s ← get;
          match mmap (mapped s) map_size with
          | inl e => set_errno e;; mret 0
          | inr map =>
              modify (λ s, (clear_bytes map map_size s) <| mapped := <[map := map_size]> (mapped s) |>);;
              let first_payload := map ⊞ sizeof_header in
              let aligned_payload := Z.land (first_payload ⊞ effective_alignment ⊟ 1) (Z.lnot (effective_alignment - 1)) in
              let header := aligned_payload - sizeof_header in
              store_header header (mkHeader map map_size size kBootstrapMagic (g_bootstrap_list s));;
              modify (λ s, s <| g_bootstrap_list := header |>);;
              mret (header + sizeof_header)
          end
    end.

Definition BootstrapMalloc (size : Z) : prog Boot Z := BootstrapAlignedMalloc alignof_max_align_t size.

Definition BootstrapFree (ptr : Z) : prog Boot unit :=
  own ← IsBootstrapPointer ptr;
  if negb own then mret ()
  else
    let header := ptr - sizeof_header in
    s ← get;
    unlink (list_fuel s) Head header;;
    h ← load_header header;
    store_header header (h <| magic := 0 |>);;
    unmap (map_base h) (map_size h).

Definition BootstrapCalloc (nmemb size : Z) : prog Boot Z :=
  if nmemb * size >? SIZE_MAX then set_errno ENOMEM;; mret 0
  else
    ptr ← BootstrapMalloc (nmemb * size);
    (if negb (ptr =? 0) then modify (clear_bytes ptr (nmemb * size)) else mret ());;
    mret ptr.

Definition BootstrapRealloc (ptr size : Z) : prog Boot Z :=
  if ptr =? 0 then BootstrapMalloc size
  else if size =? 0 then BootstrapFree ptr;; mret 0
  else
    own ← IsBootstrapPointer ptr;
    old_size ← (if own : bool then h ← load_header (ptr - sizeof_header); mret (requested_size h) else mret 0);
    new_ptr ← BootstrapMalloc size;
    (if negb (new_ptr =? 0) && negb (old_size =? 0) then
       modify (copy_bytes new_ptr ptr (Z.to_nat (Z.min old_size size)));; BootstrapFree ptr
     else mret ());;
    mret new_ptr.
End bootstrap.
