(* ===== verification/BootstrapProps.v ===== *)
(** * The early allocator gives out separate blocks of memory

    The refinement of the linked list and the bytes of Bootstrap.v to a map from
    pointers to the contents of their blocks, for any sequence of calls. *)
From S2P Require Import Prelude UnwindMemProps Outcome HookCalls Bootstrap.

(** ** Powers of two *)

Lemma IsPowerOfTwo_pow v : 0 ≤ v < 2 ^ 64 → IsPowerOfTwo v = true → ∃ k, 0 ≤ k ∧ v = 2 ^ k.
Proof.
  intros Hv Hp. unfold IsPowerOfTwo in Hp. apply andb_true_iff in Hp as [Hnz Hl]. bool_hyps. rewrite u64_small in Hl by lia.
  exists (Z.log2 v). split; [apply Z.log2_nonneg|]. destruct (Z.log2_spec v) as [Hlo Hhi]; [lia|].
  destruct (decide (v = 2 ^ Z.log2 v)) as [|Hne]; [done|]. exfalso.
  pose proof (Z.pow_pos_nonneg 2 (Z.log2 v) ltac:(lia) (Z.log2_nonneg v)).
  assert (Z.log2 (v - 1) = Z.log2 v) as El by (apply Z.log2_unique; [apply Z.log2_nonneg|lia]).
  assert (Z.testbit (Z.land v (v - 1)) (Z.log2 v) = true) as Hb; [|by rewrite Hl, Z.bits_0 in Hb].
  rewrite Z.land_spec, Z.bit_log2 by lia. rewrite <-El, Z.bit_log2 by lia. done.
Qed.

(** Rounding up to a power of two. *)
Lemma round_up k x :
  0 ≤ k → let r := Z.land (x + 2 ^ k - 1) (Z.lnot (2 ^ k - 1)) in r mod 2 ^ k = 0 ∧ x ≤ r < x + 2 ^ k.
Proof.
  intros Hk. cbv zeta. pose proof (Z.pow_pos_nonneg 2 k ltac:(lia) Hk) as Hp.
  pose proof (aligned_split (x + 2 ^ k - 1) k Hk) as E. rewrite land_ones_mod in E by done.
  pose proof (Z.mod_pos_bound (x + 2 ^ k - 1) (2 ^ k) Hp). pose proof (Z.div_mod (x + 2 ^ k - 1) (2 ^ k) ltac:(lia)) as Ed.
  split; [|lia]. replace (Z.land _ _) with ((x + 2 ^ k - 1) / 2 ^ k * 2 ^ k) by lia. apply Z_mod_mult.
Qed.

Lemma PageAlign_le page_size n :
  page_size < 2 ^ 63 → 0 ≤ n → PageAlign page_size n ≠ 0 → n ≤ PageAlign page_size n.
Proof.
  intros Hps Hn. unfold PageAlign. set (al := if page_size >? 0 then _ else _).
  assert (0 < al < 2 ^ 64) as Hal by (unfold al; rewrite Z.gtb_ltb; destruct (Z.ltb_spec 0 page_size); lia).
  destruct (IsPowerOfTwo al) eqn:Ep; [|done]. destruct (IsPowerOfTwo_pow al ltac:(lia) Ep) as (k & Hk & ->).
  destruct (_ >? _); [done|]. intros _. cbn [negb orb]. destruct (round_up k n Hk). lia.
Qed.

(** ** The list *)

(** The headers from [p] on, in order. *)
Fixpoint chain (hs : gmap Z BootstrapHeader) (p : Z) (l : list Z) : Prop :=
  match l with
  | [] => p = 0
  | a :: l => p = a ∧ a ≠ 0 ∧ ∃ h, hs !! a = Some h ∧ chain hs (next h) l
  end.

Lemma chain_ext hs hs' l : ∀ p, chain hs p l → (∀ a, a ∈ l → hs' !! a = hs !! a) → chain hs' p l.
Proof.
  induction l as [|a l IH]; intros p Hc He; [done|]. destruct Hc as (-> & Ha & h & Hh & Hc). split; [done|]. split; [done|].
  exists h. rewrite He by left. split; [done|]. apply IH; [done|]. intros b Hb. apply He. by right.
Qed.

Lemma find_header_chain s ptr l : ∀ fuel p,
  (length l < fuel)%nat → chain (headers s) p l → (∀ a h, a ∈ l → headers s !! a = Some h → magic h = kBootstrapMagic) →
  find_header fuel p ptr s = Ret (bool_decide (ptr - sizeof_header ∈ l)) s.
Proof.
  induction l as [|a l IH]; intros fuel p Hf Hc Hm; destruct fuel as [|fuel]; cbn [length] in Hf; try lia; cbn [find_header].
  - cbn in Hc. subst p. done.
  - destruct Hc as (-> & Ha & h & Hh & Hc). rewrite (proj2 (Z.eqb_neq _ _)) by done.
    unfold load_header, mbind, prog_bind. rewrite Hh, (Hm a h ltac:(by left) Hh), Z.eqb_refl. cbn [andb].
    destruct (Z.eqb_spec (a + sizeof_header) ptr) as [<-|Hne].
    + rewrite bool_decide_true; [done|]. replace (_ - _) with a by lia. by left.
    + rewrite IH; [|lia|done|intros; eapply Hm; [by right|done]]. f_equal. apply bool_decide_ext. rewrite elem_of_cons.
      split; [by right|]. intros [E|?]; [lia|done].
Qed.

Lemma filter_ne_notin (a : Z) (l : list Z) : a ∉ l → filter (.≠ a) l = l.
Proof.
  induction l as [|b l IH]; intros Hn; [done|]. rewrite not_elem_of_cons in Hn. rewrite filter_cons_True by (intros ->; by destruct Hn).
  by rewrite IH by apply Hn.
Qed.

(** Taking a header out of the list. *)
Definition link_value (current : Link) (s : Boot) : option Z :=
  match current with Head => Some (g_bootstrap_list s) | Next c => next <$> headers s !! c end.
Definition same_but_next (hs hs' : gmap Z BootstrapHeader) : Prop :=
  ∀ a, option_Forall2 (λ h h', h' = h <| next := next h' |>) (hs !! a) (hs' !! a).
Definition only_links (s s' : Boot) : Prop :=
  same_but_next (headers s) (headers s') ∧ bytes s' = bytes s ∧ mapped s' = mapped s ∧ errno s' = errno s.
Definition link_addr (current : Link) : list Z := match current with Head => [] | Next c => [c] end.

Lemma same_but_next_refl hs : same_but_next hs hs.
Proof. intros a. destruct (hs !! a) as [[]|]; by constructor. Qed.

Lemma unlink_here s current header h v :
  link_value current s = Some v → headers s !! header = Some h → header ∉ link_addr current →
  ∃ s', store_link current (next h) s = Ret () s' ∧ only_links s s' ∧ link_value current s' = Some (next h) ∧
    (current ≠ Head → g_bootstrap_list s' = g_bootstrap_list s) ∧ (∀ b, b ∉ link_addr current → headers s' !! b = headers s !! b).
Proof.
  intros Hv Hh Hn. destruct current as [|c]; cbn [store_link].
  - eexists. split; [done|]. split; [|done]. split; [apply same_but_next_refl|done].
  - cbn in Hv. apply fmap_Some in Hv as (hc & Hc & ->). unfold mbind, prog_bind, load_header. rewrite Hc.
    eexists. split; [done|]. split; [|cbn; rewrite lookup_insert_eq; split; [done|]; split; [done|]].
    + split; [|done]. intros a. cbn. destruct (decide (a = c)) as [->|Hne].
      * rewrite lookup_insert_eq, Hc. by constructor.
      * rewrite lookup_insert_ne by done. apply same_but_next_refl.
    + intros b Hb. rewrite lookup_insert_ne; [done|]. intros ->. apply Hb. by left.
Qed.

Lemma unlink_chain header l : ∀ fuel current s v,
  (length l < fuel)%nat → link_value current s = Some v → chain (headers s) v l → NoDup l → header ∈ l →
  (∀ c, c ∈ link_addr current → c ∉ l) →
  ∃ s' v', unlink fuel current header s = Ret () s' ∧ only_links s s' ∧ link_value current s' = Some v' ∧
    chain (headers s') v' (filter (.≠ header) l) ∧ (current ≠ Head → g_bootstrap_list s' = g_bootstrap_list s) ∧
    (∀ b, b ∉ link_addr current → b ∉ l → headers s' !! b = headers s !! b).
Proof.
  induction l as [|a l IH]; intros fuel current s v Hf Hv Hc Hnd Hin Hcur; [by apply elem_of_nil in Hin|].
  destruct fuel as [|fuel]; cbn [length] in Hf; [lia|]. destruct Hc as (-> & Ha & h & Hh & Hc). apply NoDup_cons in Hnd as [Hal Hnd].
  assert (load_link current s = Ret a s) as Hload.
  { destruct current as [|c]; cbn in *; [by injection Hv as <-|]. unfold mbind, prog_bind, load_header. apply fmap_Some in Hv as (hc & -> & ->). done. }
  cbn [unlink]. unfold mbind at 1, prog_bind at 1. rewrite Hload, (proj2 (Z.eqb_neq a 0)) by done. cbn [negb andb].
  destruct (Z.eqb_spec a header) as [->|Hne]; cbn [negb].
  - destruct (unlink_here s current header h header) as (s' & Hst & Hl & Hv' & Hhead & Hframe); [done|done|intros ?; by eapply Hcur; [|left]|].
    exists s', (next h). unfold mbind, prog_bind, load_header. rewrite Hh. split; [done|]. split; [done|]. split; [done|]. split; [|split; [done|]].
    + rewrite filter_cons_False by (intros E; by apply E). rewrite filter_ne_notin by done.
      apply (chain_ext (headers s)); [done|]. intros b Hb. apply Hframe. intros Hc'. eapply Hcur; [done|by right].
    + intros b Hb _. by apply Hframe.
  - destruct (IH fuel (Next a) s (next h)) as (s' & v' & Hun & Hl & Hv' & Hc' & Hhead & Hframe); try done; [lia|cbn; by rewrite Hh| | |].
    { apply elem_of_cons in Hin as [->|]; done. }
    { by intros c ->%list_elem_of_singleton. }
    assert (∀ b, b ∉ a :: l → headers s' !! b = headers s !! b) as Hframe'.
    { intros b Hb. apply Hframe; intros Hb'; apply Hb; [apply list_elem_of_singleton in Hb' as ->; by left|by right]. }
    exists s', a. split; [done|]. split; [done|]. split; [|split; [|split]].
    + destruct current as [|c]; cbn in *; [rewrite Hhead by done; congruence|]. rewrite Hframe'; [done|]. apply Hcur. by left.
    + rewrite filter_cons_True by done. cbn. split; [done|]. split; [done|]. cbn in Hv'. apply fmap_Some in Hv' as (ha & Hha & ->). by exists ha.
    + intros _. by apply Hhead.
    + intros b _ Hb. by apply Hframe'.
Qed.

(** ** The invariant *)

(** A header and its block are inside the mapping of their own. *)
Record block_ok (s : Boot) (a : Z) (h : BootstrapHeader) : Prop := {
  block_magic : magic h = kBootstrapMagic;
  block_mapped : mapped s !! map_base h = Some (map_size h);
  block_after : map_base h ≤ a;
  block_size : 0 ≤ requested_size h;
  block_before : a + sizeof_header + requested_size h ≤ map_base h + map_size h;
}.
Record boot_ok (s : Boot) : Prop := {
  boot_chain : ∃ l, chain (headers s) (g_bootstrap_list s) l ∧ NoDup l ∧ ∀ a, a ∈ l ↔ is_Some (headers s !! a);
  boot_blocks a h : headers s !! a = Some h → block_ok s a h;
  boot_own a b h h' : headers s !! a = Some h → headers s !! b = Some h' → map_base h = map_base h' → a = b;
  (* every mapping has a block: nothing leaks *)
  boot_mapped b n : mapped s !! b = Some n → 0 < b ∧ b + n < 2 ^ 64 ∧ ∃ a h, headers s !! a = Some h ∧ map_base h = b;
  boot_apart b n b' n' : mapped s !! b = Some n → mapped s !! b' = Some n' → b ≠ b' → b + n ≤ b' ∨ b' + n' ≤ b;
}.

Lemma boot_new_ok : boot_ok Boot_new.
Proof.
  split; cbn; try (intros *; rewrite ?lookup_empty; done). exists []. split; [done|]. split; [constructor|]. intros a. rewrite lookup_empty.
  split; [intros H; by apply elem_of_nil in H|by intros [? ?]].
Qed.

Lemma header_positive s a h : boot_ok s → headers s !! a = Some h → 0 < a ∧ a + sizeof_header < 2 ^ 64.
Proof.
  intros Hok Hh. destruct (boot_blocks _ Hok a h Hh) as [_ Hm Ha Hs Hb]. destruct (boot_mapped _ Hok _ _ Hm) as (? & ? & _).
  unfold sizeof_header in *. lia.
Qed.

(** Two mappings do not meet. *)
Lemma header_apart s a b h h' x :
  boot_ok s → headers s !! a = Some h → headers s !! b = Some h' → a ≠ b →
  inside x (map_base h) (map_size h) → ¬ inside x (map_base h') (map_size h').
Proof.
  intros Hok Ha Hb Hne Hx Hx'. destruct (boot_blocks _ Hok a h Ha) as [_ Hm _ _ _]. destruct (boot_blocks _ Hok b h' Hb) as [_ Hm' _ _ _].
  assert (map_base h ≠ map_base h') as Hbase by (intros E; apply Hne; by eapply boot_own).
  destruct (boot_apart _ Hok _ _ _ _ Hm Hm' Hbase); unfold inside in *; lia.
Qed.

Lemma headers_size s l : NoDup l → (∀ a : Z, a ∈ l ↔ is_Some (headers s !! a)) → (length l < list_fuel s)%nat.
Proof.
  intros Hnd Hl. unfold list_fuel. rewrite <-(size_dom (headers s)). assert (dom (headers s) = list_to_set l) as ->.
  { apply set_eq. intros a. rewrite elem_of_dom, elem_of_list_to_set. by rewrite Hl. }
  rewrite size_list_to_set by done. lia.
Qed.

Lemma IsBootstrapPointer_live s ptr :
  boot_ok s → IsBootstrapPointer ptr s = Ret (bool_decide (is_Some (headers s !! (ptr - sizeof_header)))) s.
Proof.
  intros Hok. unfold IsBootstrapPointer. destruct (Z.eqb_spec ptr 0) as [->|Hne].
  - rewrite bool_decide_false; [done|]. intros [h Hh]. pose proof (header_positive s _ h Hok Hh). unfold sizeof_header in *. lia.
  - unfold mbind, prog_bind, get. destruct (boot_chain _ Hok) as (l & Hc & Hnd & Hl).
    rewrite (find_header_chain s ptr l); [|by apply headers_size|done|].
    + f_equal. by apply bool_decide_ext.
    + intros a h _ Hh. by destruct (boot_blocks _ Hok a h Hh).
Qed.

(** ** The heap *)

Definition payload (s : Boot) (p n : Z) : list Z := byte s <$> seqZ p n.
Definition heap (s : Boot) : gmap Z (list Z) :=
  kmap (Z.add sizeof_header) (map_imap (λ a h, Some (payload s (sizeof_header + a) (requested_size h))) (headers s)).

#[local] Instance add_inj n : Inj (=) (=) (Z.add n).
Proof. intros a b E. lia. Qed.

Lemma heap_lookup s p : heap s !! p = (λ h, payload s p (requested_size h)) <$> headers s !! (p - sizeof_header).
Proof.
  unfold heap. set (f := Z.add sizeof_header). replace p with (f (p - sizeof_header)) at 1 by (unfold f; lia).
  rewrite (lookup_kmap f), map_lookup_imap. unfold f. destruct (headers s !! _); cbn; [|done]. do 2 f_equal. lia.
Qed.

Lemma payload_ext s s' p n : (∀ x, inside x p n → byte s' x = byte s x) → payload s' p n = payload s p n.
Proof. intros He. apply list_fmap_ext. intros i x Hx%list_elem_of_lookup_2%elem_of_seqZ. by apply He. Qed.
Lemma payload_zero s p n : (∀ x, inside x p n → byte s x = 0) → payload s p n = replicate (Z.to_nat n) 0.
Proof.
  intros Hz. transitivity ((λ _, 0) <$> seqZ p n).
  - apply list_fmap_ext. intros i x Hx%list_elem_of_lookup_2%elem_of_seqZ. by apply Hz.
  - by rewrite (const_fmap _ _ 0), length_seqZ.
Qed.
Lemma byte_clear s base size x : byte (clear_bytes base size s) x = if decide (inside x base size) then 0 else byte s x.
Proof.
  unfold byte, clear_bytes. cbn. case_decide as Hx.
  - rewrite map_lookup_filter_None_2; [done|]. right. intros v _. by intros [].
  - destruct (bytes s !! x) as [v|] eqn:E.
    + by rewrite (map_lookup_filter_Some_2 _ (bytes s) x v).
    + by rewrite map_lookup_filter_None_2 by by left.
Qed.

(** The blocks do not meet each other, nor any header. *)
Lemma blocks_apart s p q l l' :
  boot_ok s → heap s !! p = Some l → heap s !! q = Some l' → p ≠ q →
  p + Z.of_nat (length l) ≤ q - sizeof_header ∨ q + Z.of_nat (length l') ≤ p - sizeof_header.
Proof.
  intros Hok Hp Hq Hne. rewrite heap_lookup in Hp, Hq. apply fmap_Some in Hp as (h & Hh & ->). apply fmap_Some in Hq as (h' & Hh' & ->).
  unfold payload. rewrite !length_fmap, !length_seqZ. destruct (boot_blocks _ Hok _ _ Hh) as [_ Hm A1 A2 A3].
  destruct (boot_blocks _ Hok _ _ Hh') as [_ Hm' B1 B2 B3]. rewrite !Z2Nat.id by done.
  assert (map_base h ≠ map_base h') as Hb by (intros E; apply Hne; pose proof (boot_own _ Hok _ _ _ _ Hh Hh' E); lia).
  destruct (boot_apart _ Hok _ _ _ _ Hm Hm' Hb); lia.
Qed.

(** ** Freeing *)

(** The state without the block of header [a]. *)
Record removed (s s' : Boot) (a : Z) (h : BootstrapHeader) : Prop := {
  removed_header : headers s' !! a = None;
  removed_others b : b ≠ a → option_Forall2 (λ h h', h' = h <| next := next h' |>) (headers s !! b) (headers s' !! b);
  removed_mapped : mapped s' = delete (map_base h) (mapped s);
  removed_bytes : bytes s' = bytes (clear_bytes (map_base h) (map_size h) s);
  removed_chain : ∃ l, chain (headers s) (g_bootstrap_list s) l ∧ NoDup l ∧ (∀ b, b ∈ l ↔ is_Some (headers s !! b)) ∧
    chain (headers s') (g_bootstrap_list s') (filter (.≠ a) l);
}.

Lemma removed_lookup s s' a h b hb' :
  removed s s' a h → headers s' !! b = Some hb' → b ≠ a ∧ ∃ hb, headers s !! b = Some hb ∧ hb' = hb <| next := next hb' |>.
Proof.
  intros Hr Hb. assert (b ≠ a) as Hne by (intros ->; rewrite (removed_header _ _ _ _ Hr) in Hb; done). split; [done|].
  pose proof (removed_others _ _ _ _ Hr b Hne) as Ho. rewrite Hb in Ho. inversion Ho; subst. by eexists.
Qed.
Lemma removed_kept s s' a h b hb :
  removed s s' a h → b ≠ a → headers s !! b = Some hb → ∃ hb', headers s' !! b = Some hb' ∧ hb' = hb <| next := next hb' |>.
Proof. intros Hr Hne Hb. pose proof (removed_others _ _ _ _ Hr b Hne) as Ho. rewrite Hb in Ho. inversion Ho; subst. by eexists. Qed.

Lemma removed_ok s s' a h : boot_ok s → headers s !! a = Some h → removed s s' a h → boot_ok s'.
Proof.
  intros Hok Ha Hr. split.
  - destruct (removed_chain _ _ _ _ Hr) as (l & _ & Hnd & Hl & Hc). exists (filter (.≠ a) l). split; [done|]. split; [by apply NoDup_filter|].
    intros b. rewrite list_elem_of_filter, Hl. split.
    + intros [Hne [hb Hb]]. destruct (removed_kept _ _ _ _ _ _ Hr Hne Hb) as (? & ? & _). by eexists.
    + intros [hb Hb]. destruct (removed_lookup _ _ _ _ _ _ Hr Hb) as (? & ? & ? & _). split; [done|by eexists].
  - intros b hb' Hb. destruct (removed_lookup _ _ _ _ _ _ Hr Hb) as (Hne & hb & Hhb & ->).
    destruct (boot_blocks _ Hok b hb Hhb) as [H1 H2 H3 H4 H5]. split; cbn; try done.
    rewrite (removed_mapped _ _ _ _ Hr), lookup_delete_ne; [done|]. intros E. apply Hne. by apply (boot_own _ Hok b a hb h).
  - intros b b' hb hb' Hb Hb' E. destruct (removed_lookup _ _ _ _ _ _ Hr Hb) as (_ & x & Hx & E1).
    destruct (removed_lookup _ _ _ _ _ _ Hr Hb') as (_ & y & Hy & E2). apply (boot_own _ Hok _ _ x y Hx Hy).
    rewrite E1, E2 in E. done.
  - intros b n Hb. rewrite (removed_mapped _ _ _ _ Hr) in Hb. apply lookup_delete_Some in Hb as [Hne Hb].
    destruct (boot_mapped _ Hok _ _ Hb) as (? & ? & b' & hb & Hhb & E). split; [done|]. split; [done|].
    assert (b' ≠ a) as Hne' by (intros ->; congruence). destruct (removed_kept _ _ _ _ _ _ Hr Hne' Hhb) as (hb' & Hhb' & E').
    exists b', hb'. split; [done|]. by rewrite E'.
  - intros b n b' n'. rewrite (removed_mapped _ _ _ _ Hr). intros [_ Hb]%lookup_delete_Some [_ Hb']%lookup_delete_Some. by apply (boot_apart _ Hok).
Qed.

Lemma block_inside s b hb x :
  boot_ok s → headers s !! b = Some hb → inside x (b + sizeof_header) (requested_size hb) → inside x (map_base hb) (map_size hb).
Proof.
  intros Hok Hb. destruct (boot_blocks _ Hok b hb Hb) as [_ _ H1 H2 H3]. unfold inside, sizeof_header in *. lia.
Qed.
Lemma header_inside s b hb : boot_ok s → headers s !! b = Some hb → inside b (map_base hb) (map_size hb).
Proof. intros Hok Hb. destruct (boot_blocks _ Hok b hb Hb) as [_ _ H1 H2 H3]. unfold inside, sizeof_header in *. lia. Qed.

Lemma removed_heap s s' a h :
  boot_ok s → headers s !! a = Some h → removed s s' a h → heap s' = delete (a + sizeof_header) (heap s).
Proof.
  intros Hok Ha Hr. apply map_eq. intros q. destruct (decide (q = a + sizeof_header)) as [->|Hne].
  - rewrite lookup_delete_eq, heap_lookup. replace (_ - _) with a by lia. by rewrite (removed_header _ _ _ _ Hr).
  - rewrite lookup_delete_ne by done. rewrite !heap_lookup. set (b := q - sizeof_header). assert (b ≠ a) as Hb by lia.
    destruct (headers s !! b) as [hb|] eqn:Eb; [|pose proof (removed_others _ _ _ _ Hr b Hb) as Ho; rewrite Eb in Ho; by inversion Ho].
    destruct (removed_kept _ _ _ _ _ _ Hr Hb Eb) as (hb' & -> & E). rewrite E. cbn. f_equal. apply payload_ext. intros x Hx.
    unfold byte at 1. rewrite (removed_bytes _ _ _ _ Hr). change (default 0 _) with (byte (clear_bytes (map_base h) (map_size h) s) x).
    rewrite byte_clear, decide_False; [done|]. apply (header_apart s b a hb h); [done..|]. apply (block_inside s b); [done..|].
    by replace (b + sizeof_header) with q by lia.
Qed.

Lemma unmap_filter (s : Boot) (hs : gmap Z BootstrapHeader) a h b :
  boot_ok s → headers s !! a = Some h → (∀ c, is_Some (hs !! c) → c = a ∨ is_Some (headers s !! c)) →
  filter (λ '(x, _), ¬ inside x (map_base h) (map_size h)) hs !! b = if decide (b = a) then None else hs !! b.
Proof.
  intros Hok Ha Hdom. case_decide as Hb.
  - subst b. apply map_lookup_filter_None_2. right. intros v _ Hn. by apply Hn, (header_inside s).
  - destruct (hs !! b) as [hb|] eqn:E; [|by apply map_lookup_filter_None_2; left]. apply map_lookup_filter_Some_2; [done|].
    destruct (Hdom b ltac:(by eexists)) as [?|[hb' Hb']]; [done|]. apply (header_apart s b a hb' h); [done..|]. by apply (header_inside s).
Qed.

Lemma BootstrapFree_live s a h :
  boot_ok s → headers s !! a = Some h →
  ∃ s', BootstrapFree (a + sizeof_header) s = Ret () s' ∧ removed s s' a h ∧ errno s' = errno s.
Proof.
  intros Hok Ha. destruct (boot_chain _ Hok) as (l & Hc & Hnd & Hl).
  destruct (unlink_chain a l (list_fuel s) Head s (g_bootstrap_list s)) as (s1 & v' & Hun & (Hsame & Hby & Hma & Her) & Hv' & Hc' & _ & Hframe); try done.
  { by apply headers_size. }
  { apply Hl. by eexists. }
  { by intros c ?%elem_of_nil. }
  unfold BootstrapFree, mbind, prog_bind. rewrite IsBootstrapPointer_live by done. replace (a + sizeof_header - sizeof_header) with a by lia.
  rewrite bool_decide_true by (by eexists). cbn [negb]. unfold get. rewrite Hun.
  assert (∃ h1, headers s1 !! a = Some h1 ∧ h1 = h <| next := next h1 |>) as (h1 & Hh1 & E1).
  { pose proof (Hsame a) as Ho. rewrite Ha in Ho. inversion Ho; subst. by eexists. }
  unfold load_header. rewrite Hh1. unfold store_header, modify, unmap. cbn [mapped field_set].
  assert (map_base h1 = map_base h ∧ map_size h1 = map_size h) as [Eb Es] by (rewrite E1; done).
  rewrite Hma, Eb, Es. destruct (boot_blocks _ Hok a h Ha) as [_ Hm _ _ _]. rewrite bool_decide_true by done. eexists. split; [done|].
  split; [|done]. set (hs2 := <[a := _]> (headers s1)).
  assert (∀ b, filter (λ '(x, _), ¬ inside x (map_base h) (map_size h)) hs2 !! b = if decide (b = a) then None else headers s1 !! b) as Hf.
  { intros b. rewrite (unmap_filter s hs2 a h); [case_decide; [done|]; unfold hs2; by rewrite lookup_insert_ne|done|done|].
    intros c Hcs. destruct (decide (c = a)) as [->|Hne]; [by left|]. right. unfold hs2 in Hcs. rewrite lookup_insert_ne in Hcs by done.
    destruct Hcs as [x Hx]. pose proof (Hsame c) as Ho. rewrite Hx in Ho. inversion Ho. by eexists. }
  split; cbn [headers mapped bytes g_bootstrap_list field_set clear_bytes].
  - rewrite Hf. by rewrite decide_True.
  - intros b Hb. rewrite Hf, decide_False by done. apply Hsame.
  - done.
  - by rewrite Hby.
  - exists l. split; [done|]. split; [done|]. split; [done|]. cbn in Hv'. injection Hv' as ->.
    apply (chain_ext (headers s1)); [done|]. intros b [Hb _]%list_elem_of_filter. rewrite Hf. by rewrite decide_False.
Qed.

Lemma BootstrapFree_foreign s ptr :
  boot_ok s → headers s !! (ptr - sizeof_header) = None → BootstrapFree ptr s = Ret () s.
Proof.
  intros Hok Hn. unfold BootstrapFree, mbind, prog_bind. rewrite IsBootstrapPointer_live by done. by rewrite Hn.
Qed.

(** [BootstrapFree] takes the block away and nothing else. *)
Lemma BootstrapFree_heap s ptr :
  boot_ok s → ∃ s', BootstrapFree ptr s = Ret () s' ∧ boot_ok s' ∧ heap s' = delete ptr (heap s) ∧ errno s' = errno s.
Proof.
  intros Hok. destruct (headers s !! (ptr - sizeof_header)) as [h|] eqn:E.
  - destruct (BootstrapFree_live s _ h Hok E) as (s' & Hf & Hr & He). replace (ptr - sizeof_header + sizeof_header) with ptr in Hf by lia.
    exists s'. split; [done|]. split; [by eapply removed_ok|]. split; [|done]. rewrite (removed_heap s s' _ h) by done. f_equal. lia.
  - exists s. rewrite BootstrapFree_foreign by done. rewrite delete_id; [done|]. by rewrite heap_lookup, E.
Qed.

(** ** Allocation *)

Section added.
Context (s : Boot) (a : Z) (h : BootstrapHeader).
Hypothesis Hok : boot_ok s.
Hypothesis Hlow : 0 < map_base h.
Hypothesis Hhigh : map_base h + map_size h < 2 ^ 64.
Hypothesis Hfresh : ∀ b n, mapped s !! b = Some n → b + n ≤ map_base h ∨ map_base h + map_size h ≤ b.
Hypothesis Hafter : map_base h ≤ a.
Hypothesis Hsize : 0 ≤ requested_size h.
Hypothesis Hbefore : a + sizeof_header + requested_size h ≤ map_base h + map_size h.
Hypothesis Hmagic : magic h = kBootstrapMagic.
Hypothesis Hnext : next h = g_bootstrap_list s.

(** The state with a mapping and its header, in front of the list. *)
Definition added : Boot :=
  (clear_bytes (map_base h) (map_size h) s) <| mapped := <[map_base h := map_size h]> (mapped s) |>
    <| headers := <[a := h]> (headers s) |> <| g_bootstrap_list := a |>.

Lemma added_apart b hb x :
  headers s !! b = Some hb → inside x (map_base hb) (map_size hb) → ¬ inside x (map_base h) (map_size h).
Proof using Hfresh Hok.
  intros Hb Hx Hx'. destruct (boot_blocks _ Hok b hb Hb) as [_ Hm _ _ _]. destruct (Hfresh _ _ Hm); unfold inside in *; lia.
Qed.
Lemma added_new : headers s !! a = None.
Proof using Hafter Hbefore Hfresh Hok Hsize.
  destruct (headers s !! a) as [ha|] eqn:E; [|done]. destruct (added_apart a ha a E (header_inside s a ha Hok E)).
  unfold inside, sizeof_header in *. lia.
Qed.
Lemma added_base b hb : headers s !! b = Some hb → map_base hb ≠ map_base h.
Proof using Hafter Hbefore Hfresh Hok Hsize.
  intros Hb E. apply (added_apart b hb (map_base h) Hb); [|unfold inside, sizeof_header in *; lia].
  pose proof (header_inside s b hb Hok Hb). unfold inside in *. lia.
Qed.

Lemma added_ok : boot_ok added.
Proof using Type*.
  pose proof added_new as Hnone. split; cbn.
  - destruct (boot_chain _ Hok) as (l & Hc & Hnd & Hl). assert (a ∉ l) as Hal by (rewrite Hl, Hnone; by intros [? ?]).
    exists (a :: l). split; [|split; [by constructor|]].
    + split; [done|]. split; [lia|]. exists h. rewrite lookup_insert_eq, Hnext. split; [done|]. apply (chain_ext (headers s)); [done|].
      intros b Hb. rewrite lookup_insert_ne; [done|]. by intros ->.
    + intros b. rewrite elem_of_cons, Hl, lookup_insert_is_Some. destruct (decide (a = b)) as [->|]; naive_solver.
  - intros b hb [[<- <-]|[Hne Hb]]%lookup_insert_Some; [split; cbn; try done; by rewrite lookup_insert_eq|].
    destruct (boot_blocks _ Hok b hb Hb) as [A1 A2 A3 A4 A5]. split; cbn; try done. rewrite lookup_insert_ne; [done|]. intros E. by eapply added_base.
  - intros b b' hb hb' [[<- <-]|[Hne Hb]]%lookup_insert_Some [[<- <-]|[Hne' Hb']]%lookup_insert_Some E; [done|..|by eapply boot_own].
    + by destruct (added_base b' hb' Hb').
    + by destruct (added_base b hb Hb).
  - intros b n [[<- <-]|[Hne Hb]]%lookup_insert_Some; [split; [done|]; split; [done|]; exists a, h; by rewrite lookup_insert_eq|].
    destruct (boot_mapped _ Hok _ _ Hb) as (? & ? & b' & hb & Hhb & E). split; [done|]. split; [done|]. exists b', hb. split; [|done].
    rewrite lookup_insert_ne; [done|]. intros <-. congruence.
  - intros b n b' n' [[<- <-]|[Hne Hb]]%lookup_insert_Some [[<- <-]|[Hne' Hb']]%lookup_insert_Some Hd; [done|..|by eapply boot_apart].
    + destruct (Hfresh _ _ Hb'); lia.
    + destruct (Hfresh _ _ Hb); lia.
Qed.

Lemma added_heap :
  heap s !! (a + sizeof_header) = None ∧ heap added = <[a + sizeof_header := replicate (Z.to_nat (requested_size h)) 0]> (heap s).
Proof using Hafter Hbefore Hfresh Hok Hsize.
  pose proof added_new as Hnone. split; [rewrite heap_lookup; replace (_ - _) with a by lia; by rewrite Hnone|].
  assert (∀ x, byte added x = if decide (inside x (map_base h) (map_size h)) then 0 else byte s x) as Hbyte.
  { intros x. by rewrite <-byte_clear. }
  apply map_eq. intros q. rewrite heap_lookup. cbn [headers field_set added]. destruct (decide (q = a + sizeof_header)) as [->|Hne].
  - rewrite lookup_insert_eq. replace (_ - _) with a by lia. rewrite lookup_insert_eq. cbn. f_equal. apply payload_zero. intros x Hx.
    rewrite Hbyte, decide_True; [done|]. unfold inside, sizeof_header in *. lia.
  - rewrite !lookup_insert_ne by lia. rewrite heap_lookup.
    destruct (headers s !! (q - sizeof_header)) as [hb|] eqn:Eb; [|done]. cbn. f_equal. apply payload_ext. intros x Hx.
    rewrite Hbyte, decide_False; [done|]. apply (added_apart _ hb x Eb). apply (block_inside s (q - sizeof_header)); [done..|].
    by replace (q - sizeof_header + sizeof_header) with q by lia.
Qed.
End added.

(** ** Writing *)

Lemma boot_ok_bytes s m : boot_ok s → boot_ok (s <| bytes := m |>).
Proof. intros [H1 H2 H3 H4 H5]. split; try done. intros a h Hh. destruct (H2 a h Hh). by split. Qed.
Lemma boot_ok_errno s e : boot_ok s → boot_ok (s <| errno := e |>).
Proof. intros [H1 H2 H3 H4 H5]. split; try done. intros a h Hh. destruct (H2 a h Hh). by split. Qed.
Lemma heap_errno s e : heap (s <| errno := e |>) = heap s.
Proof. done. Qed.

Lemma payload_length s p n : length (payload s p n) = Z.to_nat n.
Proof. unfold payload. by rewrite length_fmap, length_seqZ. Qed.
Lemma payload_lookup s p n i : (i < Z.to_nat n)%nat → payload s p n !! i = Some (byte s (p + Z.of_nat i)).
Proof. intros Hi. unfold payload. rewrite list_lookup_fmap, lookup_seqZ_lt by lia. done. Qed.

(** Writes inside a block change that block. *)
Lemma heap_bytes s m p l :
  boot_ok s → heap s !! p = Some l →
  (∀ x, ¬ inside x p (Z.of_nat (length l)) → byte (s <| bytes := m |>) x = byte s x) →
  heap (s <| bytes := m |>) = <[p := payload (s <| bytes := m |>) p (Z.of_nat (length l))]> (heap s).
Proof.
  intros Hok Hp Hx. apply map_eq. intros q. destruct (decide (q = p)) as [->|Hne].
  - rewrite lookup_insert_eq, heap_lookup. rewrite heap_lookup in Hp. apply fmap_Some in Hp as (h & Hh & ->). cbn [headers field_set].
    rewrite Hh. cbn [fmap option_fmap option_map]. rewrite payload_length.
    destruct (boot_blocks _ Hok _ _ Hh) as [_ _ _ Hsz _]. by rewrite Z2Nat.id by done.
  - rewrite lookup_insert_ne by done. destruct (heap s !! q) as [l'|] eqn:Eq.
    + pose proof (blocks_apart s p q l l' Hok Hp Eq ltac:(done)) as Hap. rewrite heap_lookup in Eq |- *. cbn [headers field_set].
      apply fmap_Some in Eq as (h & Hh & ->). rewrite Hh. cbn. f_equal. apply payload_ext. intros x Hin. apply Hx.
      rewrite payload_length in Hap. unfold inside, sizeof_header in *. lia.
    + rewrite heap_lookup in Eq |- *. cbn [headers field_set]. by destruct (headers s !! (q - sizeof_header)).
Qed.

Lemma copy_bytes_only dst src n : ∀ s, ∃ m, copy_bytes dst src n s = s <| bytes := m |>.
Proof.
  revert dst src. induction n as [|n IH]; intros dst src s; cbn [copy_bytes]; [exists (bytes s); by destruct s|].
  destruct (IH (dst + 1) (src + 1) (s <| bytes := <[dst := byte s src]> (bytes s) |>)) as [m ->]. by exists m.
Qed.
Lemma byte_insert s a v x : byte (s <| bytes := <[a := v]> (bytes s) |>) x = if decide (x = a) then v else byte s x.
Proof. unfold byte. cbn. case_decide as E; [by rewrite E, lookup_insert_eq|by rewrite lookup_insert_ne]. Qed.
(** [memcpy] between blocks that do not meet. *)
Lemma byte_copy n : ∀ dst src s x,
  dst + Z.of_nat n ≤ src ∨ src + Z.of_nat n ≤ dst →
  byte (copy_bytes dst src n s) x = if decide (inside x dst (Z.of_nat n)) then byte s (src + (x - dst)) else byte s x.
Proof.
  induction n as [|n IH]; intros dst src s x Hd; cbn [copy_bytes].
  - rewrite decide_False; [done|]. unfold inside. lia.
  - rewrite IH by lia. rewrite !byte_insert. destruct (decide (x = dst)) as [->|Hne].
    + rewrite (decide_False (P := inside dst (dst + 1) _)), (decide_True (P := inside dst dst _)) by (unfold inside; lia). f_equal. lia.
    + destruct (decide (inside x (dst + 1) (Z.of_nat n))) as [Hin|Hout].
      * rewrite (decide_True (P := inside x dst _)) by (unfold inside in *; lia). rewrite decide_False by (unfold inside in *; lia). f_equal. lia.
      * by rewrite (decide_False (P := inside x dst _)) by (unfold inside in *; lia).
Qed.

Lemma clear_block s p l :
  boot_ok s → heap s !! p = Some l → heap (clear_bytes p (Z.of_nat (length l)) s) = <[p := replicate (length l) 0]> (heap s).
Proof.
  intros Hok Hp. unfold clear_bytes at 1. rewrite (heap_bytes s _ p l Hok Hp).
  - f_equal. rewrite (payload_zero _ p), Nat2Z.id; [done|]. intros x Hx. change (byte (clear_bytes p (Z.of_nat (length l)) s) x = 0).
    rewrite byte_clear. by rewrite decide_True.
  - intros x Hx. change (byte (clear_bytes p (Z.of_nat (length l)) s) x = byte s x). rewrite byte_clear. by rewrite decide_False.
Qed.

Lemma copy_block s p q old n :
  boot_ok s → heap s !! p = Some old → heap s !! q = Some (replicate n 0) → p ≠ q →
  heap (copy_bytes q p (Nat.min (length old) n) s) = <[q := resize n 0 old]> (heap s).
Proof.
  intros Hok Hp Hq Hne. set (k := Nat.min (length old) n). pose proof (blocks_apart s p q _ _ Hok Hp Hq Hne) as Hap. rewrite length_replicate in Hap.
  assert (∀ x, byte (copy_bytes q p k s) x = if decide (inside x q (Z.of_nat k)) then byte s (p + (x - q)) else byte s x) as Hb.
  { intros x. apply byte_copy. unfold k, sizeof_header in *. lia. }
  destruct (copy_bytes_only q p k s) as [m Em]. rewrite Em in *. rewrite (heap_bytes s m q _ Hok Hq).
  - f_equal. rewrite length_replicate. apply (list_eq_same_length _ _ n); [by rewrite length_resize|by rewrite payload_length, Nat2Z.id|].
    intros i x y Hi Hx Hy. rewrite payload_lookup in Hx by lia. rewrite Hb in Hx.
    rewrite heap_lookup in Hp, Hq. apply fmap_Some in Hp as (h & _ & Eold). apply fmap_Some in Hq as (h' & _ & Ezero).
    assert (length old = Z.to_nat (requested_size h)) as Elen by (rewrite Eold; apply payload_length).
    assert (n = Z.to_nat (requested_size h')) as En by (apply (f_equal length) in Ezero; by rewrite length_replicate, payload_length in Ezero).
    destruct (decide (i < length old)%nat) as [Hold|Hold].
    + rewrite decide_True in Hx by (unfold inside, k; lia). rewrite lookup_resize, Eold, payload_lookup in Hy by lia.
      injection Hx as <-. injection Hy as <-. f_equal. lia.
    + rewrite decide_False in Hx by (unfold inside, k; lia). rewrite lookup_resize_new in Hy by lia.
      pose proof (lookup_replicate_2 n 0 i Hi) as Hz. rewrite Ezero, payload_lookup in Hz by lia. congruence.
  - intros x Hx. rewrite Hb. rewrite length_replicate in Hx. rewrite decide_False; [done|]. unfold inside, k in *. lia.
Qed.

Section bootstrap.
Context (page_size : Z) (mmap : gmap Z Z → Z → Z + Z).
Hypothesis Hpage : page_size < 2 ^ 63.
(** A mapping the kernel makes is new, and not at the ends of the address space. *)
Hypothesis mmap_new : ∀ maps n base, mmap maps n = inr base →
  0 < base ∧ base + n < 2 ^ 64 ∧ ∀ b m, maps !! b = Some m → b + m ≤ base ∨ base + n ≤ b.

(** What an allocation of [size] bytes does. *)
Definition allocates (size alignment : Z) (s : Boot) (r : outcome Boot Z) : Prop :=
  (∃ e, r = Ret 0 (s <| errno := e |>)) ∨
  ∃ p s', r = Ret p s' ∧ p ≠ 0 ∧ boot_ok s' ∧ errno s' = errno s ∧ heap s !! p = None ∧
    heap s' = <[p := replicate (Z.to_nat size) 0]> (heap s) ∧ p mod alignment = 0 ∧ p mod alignof_max_align_t = 0.

Lemma aligned_payload_spec k map size total :
  4 ≤ k → 0 < map → 0 ≤ size → total = sizeof_header + size + (2 ^ k - 1) → map + total < 2 ^ 64 →
  let p := Z.land ((map ⊞ sizeof_header) ⊞ 2 ^ k ⊟ 1) (Z.lnot (2 ^ k - 1)) in
  map + sizeof_header ≤ p ∧ p + size ≤ map + total ∧ p mod 2 ^ k = 0.
Proof using Type.
  intros Hk Hm Hs -> Hb p. pose proof (Z.pow_pos_nonneg 2 k ltac:(lia) ltac:(lia)). unfold sizeof_header in *.
  assert ((map ⊞ 48) ⊞ 2 ^ k ⊟ 1 = map + 48 + 2 ^ k - 1) as E.
  { rewrite (u64_small (map + 48)), u64_sub_l, u64_small by lia. lia. }
  unfold p. rewrite E.
  destruct (round_up k (map + 48) ltac:(lia)). lia.
Qed.

Lemma mod_pow_le p j k : 0 ≤ j ≤ k → p mod 2 ^ k = 0 → p mod 2 ^ j = 0.
Proof using Type.
  intros Hjk Hp. apply Z.mod_divide; [apply Z.pow_nonzero; lia|]. apply Z.mod_divide in Hp; [|apply Z.pow_nonzero; lia].
  etrans; [|done]. exists (2 ^ (k - j)). rewrite <-Z.pow_add_r by lia. f_equal. lia.
Qed.

Lemma BootstrapAlignedMalloc_allocates alignment size s :
  boot_ok s → 0 ≤ alignment < 2 ^ 64 → 0 ≤ size < 2 ^ 64 →
  allocates size alignment s (BootstrapAlignedMalloc page_size mmap alignment size s).
Proof using Hpage mmap_new.
  intros Hok Hal Hs. unfold BootstrapAlignedMalloc. destruct (IsPowerOfTwo alignment) eqn:Ep; [|left; by eexists].
  cbn [negb orb]. destruct (alignment <? sizeof_ptr); [left; by eexists|]. destruct (IsPowerOfTwo_pow alignment Hal Ep) as (j & Hj & ->).
  set (k := Z.max j 4). assert (Z.max (2 ^ j) alignof_header = 2 ^ k) as ->.
  { unfold k, alignof_header. change 16 with (2 ^ 4). destruct (Z.le_ge_cases j 4).
    - rewrite !Z.max_r; [done|done|]. by apply Z.pow_le_mono_r.
    - rewrite !Z.max_l; [done|done|]. by apply Z.pow_le_mono_r. }
  unfold CheckedAdd. rewrite Z.gtb_ltb. destruct (Z.ltb_spec (SIZE_MAX - sizeof_header) size) as [|H1]; [left; by eexists|]. cbn [mbind option_bind].
  rewrite Z.gtb_ltb. destruct (Z.ltb_spec (SIZE_MAX - (sizeof_header + size)) (2 ^ k - 1)) as [|H2]; [left; by eexists|].
  set (total := sizeof_header + size + (2 ^ k - 1)). pose proof (Z.pow_pos_nonneg 2 k ltac:(lia) ltac:(lia)) as Hk.
  destruct (Z.eqb_spec (PageAlign page_size total) 0) as [|Hnz]; [left; by eexists|].
  apply PageAlign_le in Hnz as Hle; [|done|unfold total, sizeof_header; lia]. set (n := PageAlign page_size total) in *.
  unfold mbind, prog_bind, get. destruct (mmap (mapped s) n) as [e|map] eqn:Em; [left; by eexists|]. right.
  destruct (mmap_new _ _ _ Em) as (Hb0 & Hb1 & Hfr).
  destruct (aligned_payload_spec k map size total) as (P1 & P2 & P3); [lia..|done|lia|]. set (p := Z.land _ _) in *.
  set (h := mkHeader map n size kBootstrapMagic (g_bootstrap_list s)). set (a := p - sizeof_header).
  assert (a + sizeof_header = p) as Ea by (unfold a; lia).
  destruct (added_heap s a h) as [A1 A2]; try done; [cbn; lia..|].
  exists p, (added s a h). split; [unfold store_header, modify, mret, prog_ret; by rewrite Ea|]. split; [unfold sizeof_header in *; lia|].
  split; [apply added_ok; done || (cbn; lia)|]. split; [done|]. rewrite Ea in A1, A2. split; [done|]. split; [done|].
  split; [by apply (mod_pow_le p j k); [lia|]|]. change alignof_max_align_t with (2 ^ 4). by apply (mod_pow_le p 4 k); [lia|].
Qed.

Lemma BootstrapMalloc_allocates size s :
  boot_ok s → 0 ≤ size < 2 ^ 64 → allocates size alignof_max_align_t s (BootstrapMalloc page_size mmap size s).
Proof using Hpage mmap_new. intros. by apply BootstrapAlignedMalloc_allocates. Qed.

Lemma BootstrapCalloc_allocates nmemb size s :
  boot_ok s → 0 ≤ nmemb → 0 ≤ size → allocates (nmemb * size) alignof_max_align_t s (BootstrapCalloc page_size mmap nmemb size s).
Proof using Hpage mmap_new.
  intros Hok Hn Hs. unfold BootstrapCalloc. rewrite Z.gtb_ltb. destruct (Z.ltb_spec SIZE_MAX (nmemb * size)) as [|Hle]; [left; by eexists|].
  unfold mbind, prog_bind. destruct (BootstrapMalloc_allocates (nmemb * size) s Hok) as [[e ->]|(p & s' & -> & Hp & Hok' & He & Hfr & Hh & Ha & Ha')]; [unfold SIZE_MAX in Hle; lia|left; by eexists|].
  right. rewrite (proj2 (Z.eqb_neq p 0)) by done. exists p, (clear_bytes p (nmemb * size) s'). split; [done|]. split; [done|].
  split; [by apply boot_ok_bytes|]. split; [done|]. split; [done|]. split; [|done].
  assert (heap s' !! p = Some (replicate (Z.to_nat (nmemb * size)) 0)) as Hl by by rewrite Hh, lookup_insert_eq.
  pose proof (clear_block s' p _ Hok' Hl) as Hc. rewrite length_replicate, Z2Nat.id in Hc by lia. by rewrite Hc, Hh, insert_insert_eq.
Qed.

(** ** Calls *)

Inductive BootCall :=
  | CallAligned (alignment size : Z)
  | CallCalloc (nmemb size : Z)
  | CallFree (ptr : Z)
  | CallRealloc (ptr size : Z)
  (* the program writes to a block *)
  | CallWrite (ptr : Z) (index : nat) (value : Z).
Definition call_ok (call : BootCall) : Prop :=
  match call with
  | CallAligned a b | CallCalloc a b | CallRealloc a b => 0 ≤ a < 2 ^ 64 ∧ 0 ≤ b < 2 ^ 64
  | CallFree _ | CallWrite _ _ _ => True
  end.
Definition boot_call (call : BootCall) : prog Boot Z :=
  match call with
  | CallAligned alignment size => BootstrapAlignedMalloc page_size mmap alignment size
  | CallCalloc nmemb size => BootstrapCalloc page_size mmap nmemb size
  | CallFree ptr => BootstrapFree ptr;; mret 0
  | CallRealloc ptr size => BootstrapRealloc page_size mmap ptr size
  | CallWrite ptr index value => λ s,
      match headers s !! (ptr - sizeof_header) with
      | Some h =>
          if Z.of_nat index <? requested_size h then Ret 0 (s <| bytes := <[ptr + Z.of_nat index := value]> (bytes s) |>) else Ret 0 s
      | None => Ret 0 s
      end
  end.

(** The same calls on a map of blocks: [heap_call call r H H'] when [call] may
    return [r] and take the blocks from [H] to [H']. *)
Definition new_block (r alignment : Z) (contents : list Z) (H H0 H' : gmap Z (list Z)) : Prop :=
  (r = 0 ∧ H' = H) ∨ (r ≠ 0 ∧ H !! r = None ∧ r mod alignment = 0 ∧ r mod alignof_max_align_t = 0 ∧ H' = <[r := contents]> H0).
Definition zeros (n : Z) : list Z := replicate (Z.to_nat n) 0.
Definition heap_call (call : BootCall) (r : Z) (H H' : gmap Z (list Z)) : Prop :=
  match call with
  | CallAligned alignment size => new_block r alignment (zeros size) H H H'
  | CallCalloc nmemb size => new_block r alignof_max_align_t (zeros (nmemb * size)) H H H'
  | CallFree ptr => r = 0 ∧ H' = delete ptr H
  | CallRealloc ptr size =>
      if ptr =? 0 then new_block r alignof_max_align_t (zeros size) H H H'
      else if size =? 0 then r = 0 ∧ H' = delete ptr H
      else match H !! ptr with
      | Some (b :: l) => new_block r alignof_max_align_t (resize (Z.to_nat size) 0 (b :: l)) H (delete ptr H) H'
      (* an empty block stays, and one of another allocator is not copied *)
      | Some [] | None => new_block r alignof_max_align_t (zeros size) H H H'
      end
  | CallWrite ptr index value => r = 0 ∧ H' = alter <[index := value]> ptr H
  end.

Lemma allocates_new_block size alignment s r :
  allocates size alignment s r → boot_ok s →
  ∃ v s', r = Ret v s' ∧ boot_ok s' ∧ new_block v alignment (zeros size) (heap s) (heap s) (heap s').
Proof using Type.
  intros [[e ->]|(p & s' & -> & Hp & Hok' & He & Hfr & Hh & Ha & Ha')] Hok.
  - exists 0, (s <| errno := e |>). split; [done|]. split; [by apply boot_ok_errno|by left].
  - exists p, s'. split; [done|]. split; [done|by right].
Qed.

Lemma BootstrapRealloc_heap ptr size s :
  boot_ok s → 0 ≤ size < 2 ^ 64 →
  ∃ r s', BootstrapRealloc page_size mmap ptr size s = Ret r s' ∧ boot_ok s' ∧ heap_call (CallRealloc ptr size) r (heap s) (heap s').
Proof using Hpage mmap_new.
  intros Hok Hs. unfold BootstrapRealloc. cbn [heap_call]. destruct (Z.eqb_spec ptr 0) as [->|Hptr].
  { apply allocates_new_block; [by apply BootstrapMalloc_allocates|done]. }
  destruct (Z.eqb_spec size 0) as [->|Hsize].
  { unfold mbind, prog_bind. destruct (BootstrapFree_heap s ptr Hok) as (s' & -> & Hok' & Hh & _). by exists 0, s'. }
  unfold mbind, prog_bind. rewrite IsBootstrapPointer_live by done.
  pose proof (BootstrapMalloc_allocates size s Hok Hs) as Hal. rewrite heap_lookup.
  destruct (headers s !! (ptr - sizeof_header)) as [h|] eqn:Eh; cbn [fmap option_fmap option_map].
  2: { rewrite bool_decide_false by (by intros [? ?]). cbn. destruct (allocates_new_block _ _ _ _ Hal Hok) as (v & s' & -> & Hok' & Hn).
       exists v, s'. rewrite andb_false_r. done. }
  rewrite bool_decide_true by (by eexists). unfold load_header. rewrite Eh. cbn [mret prog_ret].
  destruct (boot_blocks _ Hok _ _ Eh) as [_ _ _ Hsz _]. assert (heap s !! ptr = Some (payload s ptr (requested_size h))) as Hold by (by rewrite heap_lookup, Eh).
  destruct (payload s ptr (requested_size h)) as [|b l] eqn:Epl.
  - assert (requested_size h = 0) as E0 by (apply (f_equal length) in Epl; rewrite payload_length in Epl; cbn in Epl; lia).
    destruct (allocates_new_block _ _ _ _ Hal Hok) as (v & s' & Em & Hok' & Hn). unfold mret, prog_ret. rewrite Em, E0, andb_false_r. by exists v, s'.
  - assert (length (b :: l) = Z.to_nat (requested_size h)) as Elen by (by rewrite <-Epl, payload_length). cbn [length] in Elen.
    unfold mret, prog_ret. destruct Hal as [[e ->]|(p & s' & -> & Hp & Hok' & He & Hfr & Hh & Ha & Ha')].
    { exists 0, (s <| errno := e |>). split; [done|]. split; [by apply boot_ok_errno|by left]. }
    rewrite (proj2 (Z.eqb_neq p 0)), (proj2 (Z.eqb_neq (requested_size h) 0)) by lia. cbn [negb andb]. unfold modify.
    assert (ptr ≠ p) as Hne by congruence.
    assert (Z.to_nat (Z.min (requested_size h) size) = Nat.min (length (b :: l)) (Z.to_nat size)) as -> by (cbn [length]; lia).
    assert (heap (copy_bytes p ptr (Nat.min (length (b :: l)) (Z.to_nat size)) s') = <[p := resize (Z.to_nat size) 0 (b :: l)]> (heap s')) as Hcopy.
    { apply copy_block; try done; rewrite Hh; [by rewrite lookup_insert_ne|by rewrite lookup_insert_eq]. }
    destruct (copy_bytes_only p ptr (Nat.min (length (b :: l)) (Z.to_nat size)) s') as [m Em]. rewrite Em in *.
    destruct (BootstrapFree_heap (s' <| bytes := m |>) ptr) as (s3 & -> & Hok3 & Hh3 & _); [by apply boot_ok_bytes|].
    exists p, s3. split; [done|]. split; [done|]. right. split; [done|]. split; [done|]. split; [done|]. split; [done|].
    rewrite Hh3, Hcopy, Hh, insert_insert_eq. by rewrite delete_insert_ne.
Qed.

Lemma write_heap ptr index value s :
  boot_ok s → ∃ r s', boot_call (CallWrite ptr index value) s = Ret r s' ∧ boot_ok s' ∧ heap_call (CallWrite ptr index value) r (heap s) (heap s').
Proof using Type.
  intros Hok. cbn [boot_call heap_call].
  assert (∀ l, heap s !! ptr = Some l → (length l ≤ index)%nat → alter <[index := value]> ptr (heap s) = heap s) as Hout.
  { intros l Hl Hi. apply map_eq. intros q. destruct (decide (q = ptr)) as [->|]; [|by rewrite lookup_alter_ne].
    rewrite lookup_alter_eq, Hl. cbn. by rewrite list_insert_ge. }
  destruct (headers s !! (ptr - sizeof_header)) as [h|] eqn:Eh.
  2: { exists 0, s. split; [done|]. split; [done|]. split; [done|]. apply map_eq. intros q. destruct (decide (q = ptr)) as [->|]; [|by rewrite lookup_alter_ne].
       by rewrite lookup_alter_eq, heap_lookup, Eh. }
  assert (heap s !! ptr = Some (payload s ptr (requested_size h))) as Hl by (by rewrite heap_lookup, Eh).
  destruct (boot_blocks _ Hok _ _ Eh) as [_ _ _ Hsz _]. destruct (Z.ltb_spec (Z.of_nat index) (requested_size h)) as [Hi|Hi].
  - exists 0, (s <| bytes := <[ptr + Z.of_nat index := value]> (bytes s) |>). split; [done|]. split; [by apply boot_ok_bytes|]. split; [done|].
    rewrite (heap_bytes s _ ptr _ Hok Hl).
    + apply map_eq. intros q. destruct (decide (q = ptr)) as [->|]; [|by rewrite lookup_insert_ne, lookup_alter_ne].
      rewrite lookup_insert_eq, lookup_alter_eq, Hl. cbn [fmap option_fmap option_map]. f_equal. rewrite payload_length, Z2Nat.id by done.
      apply (list_eq_same_length _ _ (Z.to_nat (requested_size h))); [by rewrite length_insert, payload_length|by rewrite payload_length|].
      intros i x y Hlt Hx Hy. rewrite payload_lookup, byte_insert in Hx by done. destruct (decide (i = index)) as [->|Hne].
      * rewrite list_lookup_insert_eq in Hy by (by rewrite payload_length). rewrite decide_True in Hx by done. congruence.
      * rewrite list_lookup_insert_ne, payload_lookup in Hy by done. rewrite decide_False in Hx by lia. congruence.
    + rewrite payload_length. intros x Hx. rewrite byte_insert, decide_False; [done|]. unfold inside in Hx. lia.
  - exists 0, s. split; [done|]. split; [done|]. split; [done|]. symmetry. eapply Hout; [done|]. rewrite payload_length. lia.
Qed.

Lemma boot_call_heap call s :
  boot_ok s → call_ok call → ∃ r s', boot_call call s = Ret r s' ∧ boot_ok s' ∧ heap_call call r (heap s) (heap s').
Proof using Hpage mmap_new.
  intros Hok Hc. destruct call as [alignment size|nmemb size|ptr|ptr size|ptr index value]; cbn [boot_call call_ok] in *.
  - apply allocates_new_block; [apply BootstrapAlignedMalloc_allocates; tauto|done].
  - apply allocates_new_block; [apply BootstrapCalloc_allocates; done || lia|done].
  - unfold mbind, prog_bind. destruct (BootstrapFree_heap s ptr Hok) as (s' & -> & Hok' & Hh & _). by exists 0, s'.
  - apply BootstrapRealloc_heap; tauto.
  - by apply write_heap.
Qed.

(** Every mapping is that of a block. *)
Lemma mapped_block s b n :
  boot_ok s → mapped s !! b = Some n → ∃ p l, heap s !! p = Some l ∧ b + sizeof_header ≤ p ∧ p + Z.of_nat (length l) ≤ b + n.
Proof using Type.
  intros Hok Hb. destruct (boot_mapped _ Hok _ _ Hb) as (_ & _ & a & h & Hh & <-). destruct (boot_blocks _ Hok _ _ Hh) as [_ Hm H1 H2 H3].
  exists (a + sizeof_header), (payload s (a + sizeof_header) (requested_size h)). rewrite heap_lookup, payload_length.
  replace (a + sizeof_header - sizeof_header) with a by lia. rewrite Hh. split; [done|]. rewrite Z2Nat.id by done.
  assert (n = map_size h) by congruence. lia.
Qed.

(** *** Sequences of calls *)

Fixpoint boot_calls (calls : list BootCall) : prog Boot (list Z) :=
  match calls with [] => mret [] | call :: calls => r ← boot_call call; rs ← boot_calls calls; mret (r :: rs) end.
Fixpoint heap_calls (calls : list BootCall) (rs : list Z) (H H' : gmap Z (list Z)) : Prop :=
  match calls, rs with
  | [], [] => H' = H
  | call :: calls, r :: rs => ∃ H1, heap_call call r H H1 ∧ heap_calls calls rs H1 H'
  | _, _ => False
  end.

Lemma boot_calls_heap calls : ∀ s,
  boot_ok s → Forall call_ok calls → ∃ rs s', boot_calls calls s = Ret rs s' ∧ boot_ok s' ∧ heap_calls calls rs (heap s) (heap s').
Proof using Hpage mmap_new.
  induction calls as [|call calls IH]; intros s Hok Hc; [by exists [], s|]. apply Forall_cons in Hc as [H1 Hc].
  destruct (boot_call_heap call s Hok H1) as (r & s1 & E1 & Hok1 & Hh1). destruct (IH s1 Hok1 Hc) as (rs & s2 & E2 & Hok2 & Hh2).
  exists (r :: rs), s2. cbn [boot_calls]. unfold mbind, prog_bind. rewrite E1, E2. split; [done|]. split; [done|]. by exists (heap s1).
Qed.

(** C15. The allocator of the early phase is a heap. Whatever the calls (of any
    alignment and size, freeing and reallocating any pointer, with writes to the
    blocks in between), no call faults or loops; every answer is null, or a
    pointer with the alignment asked for to a new block of zeroes; freeing
    removes the block of its pointer and does nothing for another pointer;
    reallocating gives the old contents, cut or extended by zeroes, and removes
    the old block; and the other blocks keep their bytes throughout. At the end
    the blocks are apart from each other with the space of a header between
    them, [IsBootstrapPointer] holds for exactly their pointers, and no mapping
    is left without a block. Required of the kernel: a mapping it makes does not
    meet one that is still there. *)
Theorem bootstrap_refines_heap calls :
  Forall call_ok calls →
  ∃ rs s, boot_calls calls Boot_new = Ret rs s ∧ heap_calls calls rs ∅ (heap s) ∧
    (∀ p q l l', heap s !! p = Some l → heap s !! q = Some l' → p ≠ q →
      p + Z.of_nat (length l) + sizeof_header ≤ q ∨ q + Z.of_nat (length l') + sizeof_header ≤ p) ∧
    (∀ p, IsBootstrapPointer p s = Ret (bool_decide (is_Some (heap s !! p))) s) ∧
    (∀ b n, mapped s !! b = Some n → ∃ p l, heap s !! p = Some l ∧ b + sizeof_header ≤ p ∧ p + Z.of_nat (length l) ≤ b + n).
Proof using Hpage mmap_new.
  intros Hc. destruct (boot_calls_heap calls Boot_new boot_new_ok Hc) as (rs & s & E & Hok & Hh). exists rs, s.
  split; [done|]. split; [done|]. split; [|split].
  - intros p q l l' Hp Hq Hne. destruct (blocks_apart s p q l l' Hok Hp Hq Hne); lia.
  - intros p. rewrite IsBootstrapPointer_live by done. f_equal. apply bool_decide_ext. by rewrite heap_lookup, fmap_is_Some.
  - intros b n. by apply mapped_block.
Qed.
End bootstrap.

(** A kernel that puts mappings one after another. *)
Definition example_mmap (maps : gmap Z Z) (n : Z) : Z + Z :=
  let top := map_fold (λ b m acc, Z.max (b + m) acc) 4096 maps in
  if top + n <? 2 ^ 64 then inr top else inl ENOMEM.
Lemma example_mmap_new maps n base :
  example_mmap maps n = inr base → 0 < base ∧ base + n < 2 ^ 64 ∧ ∀ b m, maps !! b = Some m → b + m ≤ base ∨ base + n ≤ b.
Proof.
  unfold example_mmap. set (t := map_fold _ _ _). destruct (Z.ltb_spec (t + n) (2 ^ 64)); [|done]. intros [= <-].
  assert (4096 ≤ t ∧ ∀ b m, maps !! b = Some m → b + m ≤ t) as [H1 H2]; [|split; [lia|]; split; [done|]; intros b m Hb; left; by apply H2].
  unfold t. apply (map_fold_weak_ind (λ acc maps, 4096 ≤ acc ∧ ∀ b m, maps !! b = Some m → b + m ≤ acc)).
  - split; [done|]. intros b m Hb. by rewrite lookup_empty in Hb.
  - intros b m maps' acc Hb [IH1 IH2]. split; [lia|]. intros b' m' [[<- <-]|[_ Hb']]%lookup_insert_Some; [lia|]. specialize (IH2 b' m' Hb'). lia.
Qed.

Lemma bootstrap_refines_heap_witness :
  let calls := [CallAligned 64 10; CallWrite 4160 0 7; CallRealloc 4160 20] in
  ∃ s, boot_calls 4096 example_mmap calls Boot_new = Ret [4160; 0; 8240] s ∧ byte s 8240 = 7 ∧ heap_calls calls [4160; 0; 8240] ∅ (heap s).
Proof.
  intros calls. destruct (bootstrap_refines_heap 4096 example_mmap ltac:(lia) example_mmap_new calls) as (rs & s & E & Hh & _).
  - unfold calls. repeat (apply Forall_cons; split; [cbn; lia|]). constructor.
  - assert (∃ s0, boot_calls 4096 example_mmap calls Boot_new = Ret [4160; 0; 8240] s0 ∧ byte s0 8240 = 7) as (s0 & E' & Hb)
      by (eexists; split; vm_compute; reflexivity).
    rewrite E' in E. injection E as <- <-. exists s0. split; [exact E'|]. split; [exact Hb|exact Hh].
Defined.
