(* ===== verification/ObserveOnly.v ===== *)
(** * Which process and which copy of the library measures

    backtrace/src/ObserveOnlyProbe.cpp and .h: the mode of a copy of the library,
    the identity of the target process that its descendants inherit through the
    environment, the election of the one copy that reports, and the start and
    the exit report of the probe.  One copy is seen in its process: the atomics
    of the file, the pid, the environment and [errno].  The text of the report
    prints floating point numbers and is left out. *)
From S2P Require Import Prelude CString Config Outcome.

Inductive Mode := kUndecided | kBypass | kTrack | kSuppressed.
#[global] Instance Mode_eq_dec : EqDecision Mode.
Proof. solve_decision. Defined.

Definition kPrimaryPidEnv : string := "ALLOC_HOOK_PRIMARY_PID".
Definition kTargetPidEnv : string := "ALLOC_HOOK_TARGET_PID".
Definition PID_MAX : Z := 2 ^ 31 - 1.

(** The globals of a copy; [g_primary] is -1, 0 or 1. *)
Record Copy := mkCopy {
  g_mode : Mode;
  g_fork_depth : Z;
  g_primary : Z;
  g_target_pid : Z;
  g_target_ready : bool;
  g_target_guarded : bool;
  g_probe_pid : Z;
  g_reported : bool;
}.
#[global] Instance Copy_upd : Updatable Copy := λ c,
  mkCopy (g_mode c) (g_fork_depth c) (g_primary c) (g_target_pid c) (g_target_ready c) (g_target_guarded c) (g_probe_pid c) (g_reported c).
Definition Copy_new : Copy := mkCopy kUndecided 0 (-1) 0 false false 0 false.

Record View := mkView { v_copy : Copy; v_pid : Z; v_environ : Environ; v_errno : Z }.
#[global] Instance View_upd : Updatable View := λ v, mkView (v_copy v) (v_pid v) (v_environ v) (v_errno v).
Definition set_copy (f : Copy → Copy) : prog View unit := modify (λ v, v <| v_copy := f (v_copy v) |>).
Definition set_errno (e : Z) : prog View unit := modify (λ v, v <| v_errno := e |>).
(** [std::atomic::load] *)
Definition load {A} (f : Copy → A) : prog View A := v ← get; mret (f (v_copy v)).
Definition getpid : prog View Z := v ← get; mret (v_pid v).

(** ** The environment *)

(** [setenv(name, value, 1)] on an environment that is there. *)
Fixpoint setenv_in (es : list string) (name value : string) : list string :=
  match es with
  | [] => [name +:+ "=" +:+ value]
  | e :: es => if starts_with (name +:+ "=") e then (name +:+ "=" +:+ value) :: es else e :: setenv_in es name value
  end.
Definition setenv (name value : string) : prog View unit :=
  modify (λ v, v <| v_environ := (λ es, setenv_in es name value) <$> v_environ v |>).
Definition getenv_view (name : string) : prog View (option string) := v ← get; mret (getenv (v_environ v) name).
Definition environment_ready : prog View bool := v ← get; mret (bool_decide (is_Some (v_environ v))).

(** [pid_t] arithmetic, kept from overflowing by the check. *)
Fixpoint parse_pid (text : string) (value : Z) : option Z :=
  match text with
  | EmptyString => Some value
  | String c text =>
      if negb (is_digit c) then None
      else
        let digit := char_code c - 48 in
        if value >? Z.quot (PID_MAX - digit) 10 then None else parse_pid text (value * 10 + digit)
  end.
Definition ParsePid (text : string) : option Z :=
  match text with
  | EmptyString => None
  | _ => match parse_pid text 0 with Some value => if value =? 0 then None else Some value | None => None end
  end.

(** The digits in front; a [long] that does not hold them is undefined. *)
Fixpoint stamped_pid (text : string) (value : Z) : prog View Z :=
  match text with
  | EmptyString => mret value
  | String c text =>
      if is_digit c then
        let value := value * 10 + (char_code c - 48) in
        if value >? LONG_MAX then undef SignedOverflow else stamped_pid text value
      else mret value
  end.
Definition ReadStampedPrimaryPid : prog View Z :=
  stamped ← getenv_view kPrimaryPidEnv;
  match stamped with
  | Some (String c text) => if is_digit c then stamped_pid (String c text) 0 else mret (-1)
  | _ => mret (-1)
  end.

Section library.
(** What [errno] holds after a call into libc that may set it. *)
Context (libc_errno : Z).

Definition TargetIdentity (self : Z) : prog View Z :=
  cached ← load g_target_pid;
  if negb (cached =? 0) then mret cached
  else
    stamped ← getenv_view kTargetPidEnv;
    let target := match stamped with None => self | Some text => default (-1) (ParsePid text) end in
    set_copy (λ c, c <| g_target_pid := target |>);; mret target.

(** ** Modes *)

Definition InForkChild : prog View bool :=
  target ← load g_target_pid; pid ← getpid; mret ((target >? 0) && negb (target =? pid)).

Definition SuppressAfterFork : prog View unit := set_copy (λ c, c <| g_mode := kSuppressed |> <| g_fork_depth := 0 |>).
Definition PrepareTargetFork : prog View unit := set_copy (λ c, c <| g_fork_depth := g_fork_depth c + 1 |>).
Definition FinishTargetForkInParent : prog View unit := set_copy (λ c, c <| g_fork_depth := g_fork_depth c - 1 |>).

Definition ResolveMode : prog View Mode :=
  ready ← environment_ready;
  if negb ready then mret kUndecided
  else
    v ← get;
    let saved_errno := v_errno v in
    pid ← getpid;
    target ← TargetIdentity pid;
    v ← get;
    let mode := if negb (target =? pid) then kSuppressed else if (ObserveOnlyRequested (v_environ v)).1 then kBypass else kTrack in
    set_errno libc_errno;;
    set_copy (λ c, c <| g_mode := mode |>);;
    set_errno saved_errno;;
    mret mode.

Definition CurrentMode : prog View Mode :=
  depth ← load g_fork_depth;
  child ← (if negb (depth =? 0) then InForkChild else mret false);
  if child : bool then mret kSuppressed
  else
    mode ← load g_mode;
    if bool_decide (mode = kUndecided) then ResolveMode else mret mode.
Definition Bypassed : prog View bool := mode ← CurrentMode; mret (bool_decide (mode = kBypass) || bool_decide (mode = kSuppressed)).
Definition Suppressed : prog View bool := mode ← CurrentMode; mret (bool_decide (mode = kSuppressed)).

(** ** The target process *)

Definition IsTargetProcess : prog View bool :=
  suppressed ← Suppressed;
  if suppressed : bool then mret false
  else target ← load g_target_pid; pid ← getpid; mret ((target =? 0) || (target =? pid)).

(** [_exit(EXIT_FAILURE)] *)
Definition exit_failure {A} : prog View A := fail.

(** The answers of [setenv] and [pthread_atfork], true for success. *)
Definition InitializeTargetProcess (setenv_ok atfork_ok : bool) : prog View bool :=
  initialized ← load g_target_ready;
  if initialized : bool then IsTargetProcess
  else
    v ← get;
    let saved_errno := v_errno v in
    pid ← getpid;
    target ← TargetIdentity pid;
    environment_ready ← environment_ready;
    stamped ← getenv_view kTargetPidEnv;
    let target :=
      if target >? 0 then
        match stamped with
        | Some text => if bool_decide (ParsePid text = Some target) then target else -1
        | None => target
        end
      else target in
    (if (target >? 0) && environment_ready && bool_decide (stamped = None) then
       set_errno libc_errno;;
       if setenv_ok then setenv kTargetPidEnv (print_dec target) else exit_failure
     else mret ());;
    guarded ← load g_target_guarded;
    target ← (if (target =? pid) && negb guarded then
                set_errno libc_errno;;
                if negb atfork_ok then (if negb environment_ready then exit_failure else mret (-1))
                else set_copy (λ c, c <| g_target_guarded := true |>);; mret target
              else mret target);
    set_copy (λ c, c <| g_target_pid := target |>);;
    (if negb (target =? pid) then SuppressAfterFork else mret ());;
    set_copy (λ c, c <| g_target_ready := environment_ready || (target <? 0) |>);;
    set_errno saved_errno;;
    mret (target =? pid).

(** ** The copy that reports *)

Definition IsSecondaryCopy : prog View bool :=
  known ← load g_primary;
  if known =? 0 then mret true
  else if known <? 0 then stamped ← ReadStampedPrimaryPid; pid ← getpid; mret (stamped =? pid)
  else mret false.

Definition IsPrimary : prog View bool :=
  ready ← environment_ready;
  if negb ready then mret false
  else
    known ← load g_primary;
    if known >=? 0 then mret (known =? 1)
    else
      v ← get;
      let saved_errno := v_errno v in
      pid ← getpid;
      stamped ← ReadStampedPrimaryPid;
      primary ← (if stamped =? pid then mret false
                 else set_errno libc_errno;; setenv kPrimaryPidEnv (print_dec pid);; mret true);
      set_errno saved_errno;;
      set_copy (λ c, c <| g_primary := if primary : bool then 1 else 0 |>);;
      mret primary.

Definition OwnsAutomaticReports : prog View bool :=
  target ← IsTargetProcess; if target : bool then IsPrimary else mret false.

(** ** The probe *)

(** [started] is the answer of [ObservedPeakSampler::Start]; the signal that is
    ignored and the exit handler are effects outside the copy. *)
Definition StartProbe (started : bool) : prog View bool :=
  mode ← CurrentMode;
  v ← get;
  if negb (bool_decide (mode = kBypass)) then mret false
  else set_errno libc_errno;; if negb (ObserveOnlyRequested (v_environ v)).1 then mret false
  else
    owns ← OwnsAutomaticReports;
    if negb owns then mret false
    else
      pid ← getpid;
      set_copy (λ c, c <| g_probe_pid := pid |>);;
      if negb started then set_copy (λ c, c <| g_probe_pid := 0 |>);; mret false
      else mret true.

(** Whether the figures are written. *)
Definition ReportAtExit : prog View bool :=
  target ← IsTargetProcess;
  probe_pid ← load g_probe_pid;
  pid ← getpid;
  if negb target || (probe_pid =? 0) || negb (pid =? probe_pid) then mret false
  else
    reported ← load g_reported;
    set_copy (λ c, c <| g_reported := true |>);;
    mret (negb reported).

(** [InitializeTargetScope] of src/alloc_hook.cpp, without the symbols it
    resolves. *)
Definition InitializeTargetScope (setenv_ok atfork_ok : bool) : prog View unit :=
  target ← InitializeTargetProcess setenv_ok atfork_ok;
  initialized ← load g_target_ready;
  if (target : bool) && (initialized : bool) then primary ← IsPrimary; mret () else mret ().
End library.
