(* ===== verification/Lifecycle.v ===== *)
(** * Start, signals, fork and end of the tracker

    backtrace/src/malloc_debug.cpp: [debug_initialize],
    [debug_start_helper_threads], the dump signal with its pipe and its thread,
    [debug_dump_heap], the fork handlers and [debug_finalize], of one copy of the
    library; DebugData.cpp.  The locks are those of Locks.v, what a report says
    is in Report.v: here a report is its kind, its file and the process that
    wrote it. *)
From S2P Require Import Prelude CString Capture Config Outcome ObserveOnly.

(** ** Directories *)

Definition PATH_MAX : Z := 4096.
(** The prefixes of [buffer] that end in front of a slash, from the index [i]. *)
Fixpoint slash_prefixes (i : nat) (rest buffer : string) : list string :=
  match rest with
  | EmptyString => []
  | String c rest =>
      if Ascii.eqb c "/" then stake i buffer :: slash_prefixes (S i) rest buffer else slash_prefixes (S i) rest buffer
  end.
(** The directories [EnsureParentDirectory] makes, in order. *)
Definition EnsureParentDirectory (path : string) : list string :=
  let length := Z.of_nat (String.length path) in
  if (length =? 0) || (length >=? PATH_MAX) then []
  else
    match strrchr path "/" with
    | None | Some O => []
    | Some last_slash =>
        let buffer := stake last_slash path in
        slash_prefixes 1 (sdrop 1 buffer) buffer ++ [buffer]
    end.

(** ** State *)

Inductive ReportKind := SignalReport | ExitReport | StepReports | PeakInfo | CheckpointReport.
#[global] Instance ReportKind_eq_dec : EqDecision ReportKind.
Proof. solve_decision. Defined.
Record Written := mkWritten { wr_kind : ReportKind; wr_file : string; wr_pid : Z }.

(** The copy in its process, the globals of malloc_debug.cpp, the requests that
    wait in the pipe, whether the entry is closed, what was written, and how many
    requests the handler queued so far. *)
Record Life := mkLife {
  lf_view : View;
  g_debug : option Config;
  lf_disabled : bool;
  lf_registered : bool;
  g_signal_pipe : option nat;
  g_signal_owner_pid : Z;
  lf_handler : bool;
  g_signal_thread_started : bool;
  lf_started : bool;
  lf_sampling : bool;
  lf_closed : bool;
  lf_written : list Written;
  lf_requests : nat;
}.
#[global] Instance Life_upd : Updatable Life := λ l,
  mkLife (lf_view l) (g_debug l) (lf_disabled l) (lf_registered l) (g_signal_pipe l) (g_signal_owner_pid l) (lf_handler l)
    (g_signal_thread_started l) (lf_started l) (lf_sampling l) (lf_closed l) (lf_written l) (lf_requests l).
Definition Life_new (v : View) : Life := mkLife v None false false None 0 false false false false false [] 0.

Definition on_view {A} (m : prog View A) : prog Life A := zoom lf_view (λ v l, l <| lf_view := v |>) m.
Definition life_pid : prog Life Z := on_view getpid.
Definition tracks_pointers (c : Config) : bool := flag_set (options c) TRACK_ALLOCS.

Section library.
(** The platform, [SIGRTMIN], what libc leaves in [errno], and whether a file
    can be opened. *)
Context (os : TargetOS) (sigrtmin libc_errno : Z) (opens : string → bool).

Definition write_report (kind : ReportKind) (file : string) : prog Life unit :=
  pid ← life_pid; modify (λ l, l <| lf_written := lf_written l ++ [mkWritten kind file pid] |>).
(** [DumpHeapToFileUnlocked]: without the file there is a message instead. *)
Definition DumpHeapToFileUnlocked (kind : ReportKind) (file_name : string) : prog Life unit :=
  if opens file_name then write_report kind file_name else mret ().
(** It waits for ever, as [Err], once the entry is closed. *)
Definition debug_dump_heap (kind : ReportKind) (file_name : string) : prog Life unit :=
  target ← on_view (IsTargetProcess libc_errno);
  if negb target then mret ()
  else l ← get; if lf_closed l then fail else DumpHeapToFileUnlocked kind file_name.

(** ** The dump signal *)

(** [snprintf] into a buffer of [size] bytes. *)
Definition report_name (size : nat) (prefix kind : string) (pid time : Z) : string :=
  stake (size - 1) (prefix +:+ "." +:+ kind +:+ ".pid_" +:+ print_dec pid +:+ ".time_" +:+ print_dec time +:+ ".txt").
Definition singal_dump_heap (write_ok : bool) : prog Life unit :=
  pid ← life_pid;
  l ← get;
  if negb (pid =? g_signal_owner_pid l) || bool_decide (g_mode (v_copy (lf_view l)) = kSuppressed) then mret ()
  else
    match g_signal_pipe l with
    | Some waiting =>
        if write_ok then modify (λ l, l <| g_signal_pipe := Some (S waiting) |> <| lf_requests := S (lf_requests l) |>) else mret ()
    | None => mret ()
    end.
(** One turn of the thread, when a request waits. *)
Definition signal_dump_turn (time : Z) : prog Life unit :=
  l ← get;
  match g_signal_pipe l with
  | Some (S waiting) =>
      modify (λ l, l <| g_signal_pipe := Some waiting |>);;
      match g_debug l with
      | None => mret ()
      | Some config =>
          if negb (tracks_pointers config) then mret ()
          else pid ← life_pid; debug_dump_heap SignalReport (report_name 256 (backtrace_dump_prefix config) "signal" pid time)
      end
  | _ => mret ()
  end.
Definition PrepareSignalDumpChannel (pipe_ok : bool) : prog Life bool :=
  l ← get;
  if bool_decide (is_Some (g_signal_pipe l)) then mret true
  else if negb pipe_ok then mret false
  else modify (λ l, l <| g_signal_pipe := Some O |>);; mret true.
Definition StartSignalDumpThread (create_ok : bool) : prog Life bool :=
  l ← get;
  if g_signal_thread_started l then mret true
  else if negb (bool_decide (is_Some (g_signal_pipe l))) then mret false
  else if negb create_ok then mret false
  else modify (λ l, l <| g_signal_thread_started := true |>);; mret true.

(** ** The peak sampler *)

Definition StartObservedPeakSampler (start_ok : bool) : prog Life unit :=
  owns ← on_view (OwnsAutomaticReports libc_errno);
  l ← get;
  match g_debug l with
  | Some config =>
      if negb owns || negb (flag_set (options config) RECORD_MEMORY_PEAK) || (observed_peak_sample_ms config =? 0) then mret ()
      else if start_ok then modify (λ l, l <| lf_sampling := true |>) else mret ()
  | None => mret ()
  end.

(** ** Fork *)

Definition RegisterForkHandlers : prog Life unit := modify (λ l, l <| lf_registered := true |>).
Definition HookAtForkChild : prog Life unit :=
  modify (λ l, l <| lf_closed := false |>);;
  on_view SuppressAfterFork;;
  modify (λ l, l <| g_signal_thread_started := false |> <| lf_sampling := false |>).

(** ** Start and end *)

(** The answers of [pthread_key_create], [pipe] and [sigaction]. *)
Definition debug_initialize (key_ok pipe_ok sigaction_ok : bool) : prog Life bool :=
  if negb key_ok then mret false
  else
    modify (λ l, l <| lf_disabled := false |> <| g_debug := Some (Init os sigrtmin (v_environ (lf_view l))) |>);;
    RegisterForkHandlers;;
    l ← get;
    match g_debug l with
    | Some config =>
        skip ← (if negb (flag_set (options config) DUMP_ON_SINGAL) then mret true
                else
                  suppressed ← on_view (Suppressed libc_errno);
                  if suppressed : bool then mret true else on_view IsSecondaryCopy);
        if skip : bool then mret true
        else
          prepared ← PrepareSignalDumpChannel pipe_ok;
          if negb prepared then mret false
          else
            pid ← life_pid;
            modify (λ l, l <| g_signal_owner_pid := pid |>);;
            if negb sigaction_ok then mret false else modify (λ l, l <| lf_handler := true |>);; mret true
    | None => mret false
    end.

Definition debug_start_helper_threads (create_ok start_ok : bool) : prog Life unit :=
  l ← get;
  match g_debug l with
  | None => mret ()
  | Some config =>
      owns ← on_view (OwnsAutomaticReports libc_errno);
      if negb owns then mret ()
      else
        l ← get;
        if lf_started l then mret ()
        else
          modify (λ l, l <| lf_started := true |>);;
          (if flag_set (options config) DUMP_ON_SINGAL then StartSignalDumpThread create_ok;; mret () else mret ());;
          StartObservedPeakSampler start_ok
  end.

Definition debug_finalize (time : Z) : prog Life unit :=
  l ← get;
  match g_debug l with
  | None => mret ()
  | Some config =>
      target ← on_view (IsTargetProcess libc_errno);
      if negb target then mret ()
      else
        modify (λ l, l <| lf_sampling := false |> <| lf_closed := true |> <| lf_disabled := true |>);;
        automatic_reports ← on_view (OwnsAutomaticReports libc_errno);
        pid ← life_pid;
        (if automatic_reports && flag_set (options config) BACKTRACE && backtrace_dump_on_exit config
         then DumpHeapToFileUnlocked ExitReport (report_name 512 (backtrace_dump_prefix config) "exit" pid time) else mret ());;
        (if automatic_reports && tracks_pointers config then write_report StepReports (backtrace_dump_prefix config) else mret ());;
        (if tracks_pointers config then
           owns ← on_view (OwnsAutomaticReports libc_errno); if owns : bool then write_report PeakInfo EmptyString else mret ()
         else mret ())
  end.

(** ** Events in a process *)

(** [LForkChild] goes on in the child, [child] its pid. *)
Inductive LifeEvent :=
  | LInitialize (key_ok pipe_ok sigaction_ok : bool)
  | LStart (create_ok start_ok : bool)
  | LSignal (write_ok : bool)
  | LTurn (time : Z)
  | LCheckpoint (file_name : string)
  | LForkChild (child : Z)
  | LFinalize (time : Z).
Definition life_event (e : LifeEvent) : prog Life unit :=
  match e with
  | LInitialize key_ok pipe_ok sigaction_ok => debug_initialize key_ok pipe_ok sigaction_ok;; mret ()
  | LStart create_ok start_ok => debug_start_helper_threads create_ok start_ok
  | LSignal write_ok => l ← get; if lf_handler l then singal_dump_heap write_ok else mret ()
  | LTurn time => l ← get; if g_signal_thread_started l then signal_dump_turn time else mret ()
  | LCheckpoint file_name => debug_dump_heap CheckpointReport file_name
  | LForkChild child =>
      l ← get;
      if lf_registered l then modify (λ l, l <| lf_view := (lf_view l) <| v_pid := child |> |>);; HookAtForkChild else mret ()
  | LFinalize time => debug_finalize time
  end.
Fixpoint life_events (es : list LifeEvent) : prog Life unit := match es with [] => mret () | e :: es => life_event e;; life_events es end.
End library.
