(* ===== verification/LifecycleProps.v ===== *)
(** * Who reports, and which requests are served *)
From S2P Require Import Prelude CString Capture Config Outcome ObserveOnly Lifecycle.

Definition overflow_only (f : fault) : Prop := f = SignedOverflow.
Section library.
Context (os : TargetOS) (sigrtmin libc_errno : Z) (opens : string → bool).

(** ** The copy *)

(** What asking about the mode and the election may change. *)
Record view_after (v v' : View) : Prop := {
  va_pid : v_pid v' = v_pid v;
  va_mode : g_mode (v_copy v) = kSuppressed → g_mode (v_copy v') = kSuppressed;
  va_primary : 0 ≤ g_primary (v_copy v) → g_primary (v_copy v') = g_primary (v_copy v);
}.
Lemma view_after_refl v : view_after v v.
Proof using Type. by split. Qed.
Lemma view_after_trans v1 v2 v3 : view_after v1 v2 → view_after v2 v3 → view_after v1 v3.
Proof using Type. intros [A1 A2 A3] [B1 B2 B3]. split; [congruence|auto|]. intros H. rewrite B3, A3; [done|done|]. by rewrite A3. Qed.

(** A question, with what its answer says. *)
Definition asks {A} (m : prog View A) (Q : View → A → View → Prop) : Prop := ∀ v,
  wp overflow_only m v (λ a v', view_after v v' ∧ Q v a v') (λ _, False).

Definition suppressed_view (v : View) : Prop := g_mode (v_copy v) = kSuppressed.
Lemma asks_stamp : asks ReadStampedPrimaryPid (λ v _ v', v' = v).
Proof using Type.
  intros v. unfold ReadStampedPrimaryPid, getenv_view. apply wp_bind, wp_bind, wp_get, wp_ret.
  assert (∀ text n, wp overflow_only (stamped_pid text n) v (λ _ v', view_after v v' ∧ v' = v) (λ _, False)) as Hd.
  { induction text as [|c text IH]; intros n; cbn [stamped_pid]; [apply wp_ret; split; [apply view_after_refl|done]|].
    destruct (is_digit c); [|apply wp_ret; split; [apply view_after_refl|done]]. destruct (_ >? _); [by apply wp_undef|apply IH]. }
  destruct (getenv _ _) as [[|c text]|]; [|destruct (is_digit c); [apply Hd|]|]; apply wp_ret; (split; [apply view_after_refl|done]).
Qed.
Lemma asks_mode : asks (CurrentMode libc_errno) (λ v mode _, suppressed_view v → mode = kSuppressed).
Proof using Type.
  intros v. unfold CurrentMode, load. apply wp_bind, wp_bind, wp_get, wp_ret, wp_bind.
  eapply (wp_mono _ _ _ (λ _ v', v' = v) _ (λ _, False)); [destruct (negb _); [|by apply wp_ret]; by repeat wp_step| |done].
  intros child v' ->. destruct child; [apply wp_ret; split; [apply view_after_refl|done]|]. apply wp_bind, wp_bind, wp_get, wp_ret.
  case_bool_decide as Em; [|apply wp_ret; split; [apply view_after_refl|done]]. unfold suppressed_view. rewrite Em.
  unfold ResolveMode, environment_ready, TargetIdentity, getpid, load, getenv_view, set_errno, set_copy.
  repeat (wp_step; cbn beta iota); (split; [|done]); split; cbn; try done; congruence.
Qed.
Lemma asks_suppressed : asks (Suppressed libc_errno) (λ v b _, suppressed_view v → b = true).
Proof using Type.
  intros v. unfold Suppressed. apply wp_bind. eapply wp_mono; [apply asks_mode| |done]. intros mode v' [Ha Hm]. apply wp_ret.
  split; [done|]. intros Hs. by rewrite (Hm Hs).
Qed.
Lemma asks_target : asks (IsTargetProcess libc_errno) (λ v b _, suppressed_view v → b = false).
Proof using Type.
  intros v. unfold IsTargetProcess. apply wp_bind. eapply wp_mono; [apply asks_suppressed| |done]. intros [|] v' [Ha Hm]; cbn beta iota.
  - by apply wp_ret.
  - unfold load, getpid. repeat wp_step. split; [done|]. intros Hs. by discriminate (Hm Hs).
Qed.
Lemma asks_primary : asks (IsPrimary libc_errno) (λ _ b v', b = true → g_primary (v_copy v') = 1).
Proof using Type.
  intros v. unfold IsPrimary, environment_ready. apply wp_bind, wp_bind, wp_get, wp_ret. destruct (negb _); [apply wp_ret; split; [apply view_after_refl|done]|].
  unfold load. apply wp_bind, wp_bind, wp_get, wp_ret. rewrite Z.geb_leb. destruct (Z.leb_spec 0 (g_primary (v_copy v))) as [Hk|Hk].
  { apply wp_ret. split; [apply view_after_refl|]. apply Z.eqb_eq. }
  apply wp_bind, wp_get, wp_bind. unfold getpid. apply wp_bind, wp_get, wp_ret, wp_bind. eapply wp_mono; [apply asks_stamp| |done]. intros stamped v1 [_ ->].
  unfold set_errno, set_copy, setenv. destruct (stamped =? v_pid v); repeat (wp_step; cbn beta iota); (split; [|done]); split; cbn; try done; lia.
Qed.
Lemma asks_secondary : asks IsSecondaryCopy (λ _ _ _, True).
Proof using Type.
  intros v. unfold IsSecondaryCopy, load. apply wp_bind, wp_bind, wp_get, wp_ret.
  destruct (_ =? 0); [apply wp_ret; split; [apply view_after_refl|done]|]. destruct (_ <? 0); [|apply wp_ret; split; [apply view_after_refl|done]].
  apply wp_bind. eapply wp_mono; [apply asks_stamp| |done]. intros stamped v1 [_ ->]. unfold getpid. repeat wp_step. split; [apply view_after_refl|done].
Qed.
Lemma asks_owns : asks (OwnsAutomaticReports libc_errno) (λ v b v', b = true → ¬ suppressed_view v ∧ g_primary (v_copy v') = 1).
Proof using Type.
  intros v. unfold OwnsAutomaticReports. apply wp_bind. eapply wp_mono; [apply asks_target| |done]. intros [|] v1 [Ha Hm]; cbn beta iota.
  - eapply wp_mono; [apply asks_primary| |done]. intros b v2 [Ha2 Hp]. split; [by eapply view_after_trans|]. intros Hb. split; [|by apply Hp].
    intros Hs. by discriminate (Hm Hs).
  - apply wp_ret. by split.
Qed.

(** ** The events *)

Definition automatic (k : ReportKind) : bool := match k with ExitReport | StepReports | PeakInfo => true | _ => false end.
Definition signal_reports (l : Life) : nat := length (filter (λ w, wr_kind w = SignalReport) (lf_written l)).
Definition waiting (l : Life) : nat := default O (g_signal_pipe l).

(** The process [pid0] reports; a copy in another one is suppressed. *)
Record life_ok (pid0 : Z) (l : Life) : Prop := {
  li_place : v_pid (lf_view l) = pid0 ∨ suppressed_view (lf_view l);
  li_written w : w ∈ lf_written l → wr_pid w = pid0 ∧ (automatic (wr_kind w) = true → g_primary (v_copy (lf_view l)) = 1);
  li_served : (signal_reports l + waiting l ≤ lf_requests l)%nat;
}.
Definition keeps (pid0 : Z) (m : prog Life unit) : Prop := ∀ l, life_ok pid0 l → wp overflow_only m l (λ _ l', life_ok pid0 l') (life_ok pid0).

Lemma on_view_ok {A} pid0 (m : prog View A) Q l :
  asks m Q → life_ok pid0 l →
  wp overflow_only (on_view m) l (λ a l', life_ok pid0 l' ∧ Q (lf_view l) a (lf_view l') ∧ view_after (lf_view l) (lf_view l') ∧
    ∃ v', l' = l <| lf_view := v' |>) (λ _, False).
Proof using Type.
  intros Hm [H1 H2 H3]. unfold on_view. apply wp_zoom. eapply wp_mono; [apply Hm| |done]. intros a v' [Ha HQ]. split; [|by split_and!; [..|eexists]].
  pose proof Ha as [Hp Hs Hr]. split; [|intros w Hw|exact H3].
  - cbn. destruct H1 as [H1|H1]; [left; by rewrite Hp|right; by apply Hs].
  - destruct (H2 w Hw) as [? Hpr]. split; [done|]. cbn. intros Hau. specialize (Hpr Hau). rewrite Hr; [done|]. lia.
Qed.

Lemma wp_life_pid l (Q : Z → Life → Prop) E : Q (v_pid (lf_view l)) l → wp overflow_only life_pid l Q E.
Proof using Type. intros HQ. unfold life_pid, on_view. apply wp_zoom. unfold getpid. apply wp_bind, wp_get, wp_ret. by destruct l. Qed.
Lemma write_ok pid0 kind file l :
  life_ok pid0 l → v_pid (lf_view l) = pid0 → (automatic kind = true → g_primary (v_copy (lf_view l)) = 1) →
  (kind = SignalReport → (signal_reports l + waiting l < lf_requests l)%nat) →
  wp overflow_only (write_report kind file) l (λ _ l', life_ok pid0 l' ∧ lf_view l' = lf_view l) (λ _, False).
Proof using Type.
  intros [H1 H2 H3] Hp Ha Hs. unfold write_report. apply wp_bind, wp_life_pid, wp_modify.
  split; [|done]. split; [exact H1| |].
  - cbn. intros w [Hw|Hw%list_elem_of_singleton]%elem_of_app; [by apply H2|]. subst w. done.
  - unfold signal_reports, waiting in *. cbn [lf_written lf_requests g_signal_pipe field_set]. rewrite filter_app, length_app.
    destruct (decide (kind = SignalReport)) as [->|Hk]; [specialize (Hs eq_refl); rewrite filter_cons_True by done|rewrite filter_cons_False by done];
      rewrite filter_nil; cbn [length]; lia.
Qed.
Lemma dump_ok pid0 kind file l :
  life_ok pid0 l → automatic kind = false → (kind = SignalReport → (signal_reports l + waiting l < lf_requests l)%nat) →
  wp overflow_only (debug_dump_heap libc_errno opens kind file) l (λ _ l', life_ok pid0 l') (life_ok pid0).
Proof using Type.
  intros Hok Ha Hs. unfold debug_dump_heap. apply wp_bind. eapply wp_mono; [by apply (on_view_ok pid0 _ _ _ asks_target)| |done].
  intros target l1 (Hok1 & Ht & [Hp _ _] & v' & ->). destruct target; cbn [negb]; [|by apply wp_ret].
  apply wp_bind, wp_get. destruct (lf_closed _); [by apply wp_fail|]. unfold DumpHeapToFileUnlocked. destruct (opens file); [|by apply wp_ret].
  assert (v_pid (lf_view l) = pid0) as Hpid by (destruct (li_place _ _ Hok) as [?|Hs0]; [done|by discriminate (Ht Hs0)]).
  eapply wp_mono; [apply (write_ok pid0); [done|cbn in *; congruence|by rewrite Ha|exact Hs]|by intros ? ? []|done].
Qed.

Lemma keeps_signal pid0 write_ok : keeps pid0 (singal_dump_heap write_ok).
Proof using Type.
  intros l Hok. unfold singal_dump_heap. apply wp_bind, wp_life_pid, wp_bind, wp_get.
  destruct (_ || _); [by apply wp_ret|]. destruct (g_signal_pipe l) as [n|] eqn:En; [|by apply wp_ret].
  destruct write_ok; [|by apply wp_ret]. apply wp_modify. destruct Hok as [H1 H2 H3]. split; [exact H1|exact H2|].
  unfold signal_reports, waiting in *. rewrite En in H3. cbn in *. lia.
Qed.
Lemma keeps_turn pid0 time : keeps pid0 (signal_dump_turn libc_errno opens time).
Proof using Type.
  intros l Hok. unfold signal_dump_turn. apply wp_bind, wp_get. destruct (g_signal_pipe l) as [[|n]|] eqn:En; [by apply wp_ret| |by apply wp_ret].
  apply wp_bind, wp_modify. set (l1 := l <| g_signal_pipe := Some n |>).
  assert (life_ok pid0 l1 ∧ (signal_reports l1 + waiting l1 < lf_requests l1)%nat) as [Hok1 Hlt].
  { destruct Hok as [H1 H2 H3]. unfold signal_reports, waiting in *. rewrite En in H3. split; [split; [exact H1|exact H2|]|]; unfold signal_reports, waiting; cbn in *; lia. }
  destruct (g_debug l) as [config|]; [|by apply wp_ret]. destruct (negb _); [by apply wp_ret|]. apply wp_bind, wp_life_pid.
  by apply dump_ok.
Qed.

(** A change of the other fields. *)
Lemma keeps_modify pid0 f :
  (∀ l, lf_view (f l) = lf_view l ∧ lf_written (f l) = lf_written l ∧ waiting (f l) = waiting l ∧ lf_requests (f l) = lf_requests l) → keeps pid0 (modify f).
Proof using Type.
  intros Hf l [H1 H2 H3]. apply wp_modify. destruct (Hf l) as (E1 & E2 & E3 & E4). unfold signal_reports in *.
  split; unfold signal_reports; rewrite ?E1, ?E2, ?E3, ?E4; try done.
Qed.
Lemma keeps_bind {A} pid0 (m : prog Life A) (k : A → prog Life unit) :
  (∀ l, life_ok pid0 l → wp overflow_only m l (λ _ l', life_ok pid0 l') (life_ok pid0)) → (∀ a, keeps pid0 (k a)) → keeps pid0 (m ≫= k).
Proof using Type. intros Hm Hk l Hok. apply wp_bind. eapply wp_mono; [by apply Hm| |done]. intros a l1 Hok1. by apply Hk. Qed.
Lemma keeps_ret pid0 : keeps pid0 (mret ()).
Proof using Type. by intros l Hok. Qed.
Lemma keeps_view {A} pid0 (m : prog View A) Q l :
  asks m Q → life_ok pid0 l → wp overflow_only (on_view m) l (λ _ l', life_ok pid0 l') (life_ok pid0).
Proof using Type. intros Hm Hok. eapply wp_mono; [by eapply on_view_ok| |done]. by intros a l' [? _]. Qed.

Lemma keeps_initialize pid0 key_ok pipe_ok sigaction_ok : keeps pid0 (debug_initialize os sigrtmin libc_errno key_ok pipe_ok sigaction_ok;; mret ()).
Proof using Type.
  intros l Hok. apply wp_bind. unfold debug_initialize. destruct (negb key_ok); [by apply wp_ret|]. apply wp_bind.
  eapply wp_mono; [apply keeps_modify; [by intros ?; split_and!|exact Hok]| |done]. intros [] l1 Hok1. cbn beta in *.
  apply wp_bind. eapply wp_mono; [apply keeps_modify; [by intros ?; split_and!|exact Hok1]| |done]. intros [] l2 Hok2. cbn beta in *. apply wp_bind, wp_get.
  destruct (g_debug l2) as [config|]; [|by apply wp_ret]. apply wp_bind.
  eapply (wp_mono _ _ _ (λ _ l', life_ok pid0 l') _ (life_ok pid0)); [| |done].
  { destruct (negb _); [by apply wp_ret|]. apply wp_bind. eapply wp_mono; [by apply (keeps_view pid0 _ _ _ asks_suppressed)| |done].
    intros [|] l3 Hok3; [by apply wp_ret|]. by apply (keeps_view pid0 _ _ _ asks_secondary). }
  intros skip l3 Hok3. destruct skip; [by apply wp_ret|]. apply wp_bind. unfold PrepareSignalDumpChannel. apply wp_bind, wp_get.
  eapply (wp_mono _ _ _ (λ _ l', life_ok pid0 l') _ (life_ok pid0)); [| |done].
  { case_bool_decide as Ep; [by apply wp_ret|]. destruct (negb pipe_ok); [by apply wp_ret|]. apply wp_bind, wp_modify, wp_ret.
    destruct Hok3 as [H1 H2 H3]. split; [exact H1|exact H2|]. unfold signal_reports, waiting in *. cbn.
    destruct (g_signal_pipe l3) as [n|]; [by destruct Ep; eexists|]. exact H3. }
  intros prepared l4 Hok4. destruct (negb prepared); [by apply wp_ret|]. apply wp_bind, wp_life_pid, wp_bind.
  eapply wp_mono; [apply keeps_modify; [by intros ?; split_and!|exact Hok4]| |done]. intros [] l5 Hok5. cbn beta in *. destruct (negb sigaction_ok); [by apply wp_ret|].
  apply wp_bind. eapply wp_mono; [apply keeps_modify; [by intros ?; split_and!|exact Hok5]| |done]. intros [] l6 Hok6. by apply wp_ret.
Qed.
Lemma keeps_start pid0 create_ok start_ok : keeps pid0 (debug_start_helper_threads libc_errno create_ok start_ok).
Proof using Type.
  intros l Hok. unfold debug_start_helper_threads. apply wp_bind, wp_get. destruct (g_debug l) as [config|]; [|by apply wp_ret].
  apply wp_bind. eapply wp_mono; [by apply (keeps_view pid0 _ _ _ asks_owns)| |done]. intros owns l1 Hok1. destruct (negb owns); [by apply wp_ret|].
  apply wp_bind, wp_get. destruct (lf_started l1); [by apply wp_ret|].
  revert l1 Hok1. apply (keeps_bind pid0); [apply keeps_modify; by intros ?; split_and!|intros _]. apply (keeps_bind pid0); [|intros _ l2 Hok2].
  - intros l2 Hok2. destruct (flag_set _ _); [|by apply wp_ret]. apply wp_bind. unfold StartSignalDumpThread. apply wp_bind, wp_get.
    destruct (g_signal_thread_started l2); [by apply wp_ret, wp_ret|]. destruct (negb _); [by apply wp_ret, wp_ret|].
    destruct (negb create_ok); [by apply wp_ret, wp_ret|]. apply wp_bind. eapply wp_mono; [apply keeps_modify; [by intros ?; split_and!|exact Hok2]| |done].
    intros [] l3 Hok3. by apply wp_ret, wp_ret.
  - unfold StartObservedPeakSampler. apply wp_bind. eapply wp_mono; [by apply (keeps_view pid0 _ _ _ asks_owns)| |done]. intros owns' l3 Hok3.
    apply wp_bind, wp_get. destruct (g_debug l3) as [c|]; [|by apply wp_ret]. destruct (_ || _); [by apply wp_ret|].
    destruct start_ok; [|by apply wp_ret]. apply keeps_modify; [by intros ?; split_and!|done].
Qed.

(** Reports of the copy that owns them. *)
Lemma owned_write_ok pid0 kind file l (b : bool) (m : prog Life unit) :
  life_ok pid0 l → v_pid (lf_view l) = pid0 → (b = true → g_primary (v_copy (lf_view l)) = 1) → kind ≠ SignalReport →
  (m = write_report kind file ∨ m = mret ()) →
  wp overflow_only (if b then m else mret ()) l (λ _ l', life_ok pid0 l' ∧ lf_view l' = lf_view l) (λ _, False).
Proof using Type.
  intros Hok Hp Hpr Hk Hm. destruct b; [|by apply wp_ret]. destruct Hm as [->| ->]; [|by apply wp_ret].
  apply (write_ok pid0); try done. intros _. by apply Hpr.
Qed.
Lemma keeps_finalize pid0 time : keeps pid0 (debug_finalize libc_errno opens time).
Proof using Type.
  intros l Hok. unfold debug_finalize. apply wp_bind, wp_get. destruct (g_debug l) as [config|]; [|by apply wp_ret].
  apply wp_bind. eapply wp_mono; [by apply (on_view_ok pid0 _ _ _ asks_target)| |done]. intros target l1 (Hok1 & Ht & [Hp _ _] & _).
  destruct target; cbn [negb]; [|by apply wp_ret]. assert (v_pid (lf_view l1) = pid0) as Hpid.
  { rewrite Hp. destruct (li_place _ _ Hok) as [?|Hs0]; [done|by discriminate (Ht Hs0)]. }
  apply wp_bind. eapply (wp_mono _ _ _ (λ _ l', life_ok pid0 l' ∧ lf_view l' = lf_view l1) _ (λ _, False)); [|intros _ l2 [Hok2 Ev]|done].
  { apply wp_modify. split; [|by destruct l1]. destruct Hok1 as [H1 H2 H3]. by split. }
  apply wp_bind. eapply wp_mono; [by apply (on_view_ok pid0 _ _ _ asks_owns)| |done]. intros owns l3 (Hok3 & Ho & [Hp3 _ _] & _).
  assert (v_pid (lf_view l3) = pid0) as Hpid3 by congruence. apply wp_bind, wp_life_pid, wp_bind.
  eapply wp_mono; [apply (owned_write_ok pid0 ExitReport (report_name 512 (backtrace_dump_prefix config) "exit" (v_pid (lf_view l3)) time) l3); try done| |done].
  { intros Hb. destruct owns; [by apply Ho|done]. }
  { unfold DumpHeapToFileUnlocked. destruct (opens _); [by left|by right]. }
  intros _ l4 [Hok4 E4]. cbn beta. apply wp_bind.
  eapply wp_mono; [apply (owned_write_ok pid0 StepReports (backtrace_dump_prefix config) l4); try done; [congruence| |by left]| |done].
  { intros Hb. rewrite E4. destruct owns; [by apply Ho|done]. }
  intros _ l5 [Hok5 E5]. cbn beta. destruct (tracks_pointers config); [|by apply wp_ret].
  apply wp_bind. eapply wp_mono; [by apply (on_view_ok pid0 _ _ _ asks_owns)| |done]. intros owns' l6 (Hok6 & Ho6 & [Hp6 _ _] & _).
  eapply wp_mono; [apply (owned_write_ok pid0 PeakInfo EmptyString l6); try done; [congruence|by intros ->; apply Ho6|by left]|by intros ? ? []|done].
Qed.
Lemma keeps_event pid0 e : keeps pid0 (life_event os sigrtmin libc_errno opens e).
Proof using Type.
  destruct e as [key_ok pipe_ok sigaction_ok|create_ok start_ok|write_ok|time|file_name|child|time]; cbn [life_event].
  - apply keeps_initialize.
  - apply keeps_start.
  - intros l Hok. apply wp_bind, wp_get. destruct (lf_handler l); [by apply keeps_signal|by apply wp_ret].
  - intros l Hok. apply wp_bind, wp_get. destruct (g_signal_thread_started l); [by apply keeps_turn|by apply wp_ret].
  - intros l Hok. by apply dump_ok.
  - intros l Hok. apply wp_bind, wp_get. destruct (lf_registered l); [|by apply wp_ret].
    unfold HookAtForkChild, on_view, SuppressAfterFork, set_copy. apply wp_bind, wp_modify, wp_bind, wp_modify, wp_bind, wp_zoom, wp_modify, wp_modify.
    destruct Hok as [H1 H2 H3]. split; [by right|exact H2|exact H3].
  - apply keeps_finalize.
Qed.
Lemma keeps_events pid0 es : keeps pid0 (life_events os sigrtmin libc_errno opens es).
Proof using Type. induction es as [|e es IH]; cbn [life_events]; [apply keeps_ret|]. apply keeps_bind; [apply keeps_event|by intros _]. Qed.

(** ** Requests are served *)

(** The thread that serves requests is there, in a target process that tracks
    and has not been finalized. *)
Record serving (config : Config) (l : Life) : Prop := {
  se_debug : g_debug l = Some config;
  se_tracks : tracks_pointers config = true;
  se_thread : g_signal_thread_started l = true;
  se_open : lf_closed l = false;
  se_depth : g_fork_depth (v_copy (lf_view l)) = 0;
  se_mode : g_mode (v_copy (lf_view l)) = kTrack;
  se_target : g_target_pid (v_copy (lf_view l)) = 0 ∨ g_target_pid (v_copy (lf_view l)) = v_pid (lf_view l);
}.
Definition signal_written (config : Config) (pid time : Z) : Written :=
  mkWritten SignalReport (report_name 256 (backtrace_dump_prefix config) "signal" pid time) pid.
Definition after_turn (config : Config) (time : Z) (n : nat) (l : Life) : Life :=
  l <| g_signal_pipe := Some n |> <| lf_written := lf_written l ++ [signal_written config (v_pid (lf_view l)) time] |>.

Lemma serving_turn config time n l :
  serving config l → (∀ file, opens file = true) → g_signal_pipe l = Some (S n) →
  life_event os sigrtmin libc_errno opens (LTurn time) l = Ret () (after_turn config time n l) ∧ serving config (after_turn config time n l).
Proof using Type.
  intros [H1 H2 H3 H4 H5 H6 H7] Hop En. split; [|by split]. cbn [life_event]. unfold mbind at 1, prog_bind at 1, get at 1. rewrite H3.
  unfold signal_dump_turn, mbind at 1, prog_bind at 1, get at 1. rewrite En, H1, H2.
  assert (IsTargetProcess libc_errno (lf_view l) = Ret true (lf_view l)) as Ht.
  { unfold IsTargetProcess, Suppressed, CurrentMode, load, getpid, get, mbind, prog_bind, mret, prog_ret. rewrite H5. cbn [negb]. cbn. rewrite H6.
    rewrite bool_decide_false by done. rewrite bool_decide_false by done. destruct H7 as [->| ->]; [done|]. by rewrite Z.eqb_refl, orb_true_r. }
  destruct l as [lv ? ? ? ? ? ? ? ? ? lc ? ?]. cbn in *. unfold life_pid, on_view, zoom, getpid, get, mbind, prog_bind, modify, mret, prog_ret. cbn.
  unfold debug_dump_heap, on_view, zoom, mbind, prog_bind, get. cbn. rewrite Ht. cbn. subst lc. unfold DumpHeapToFileUnlocked. by rewrite Hop.
Qed.
Lemma serving_turns config times : ∀ l,
  serving config l → (∀ file, opens file = true) → g_signal_pipe l = Some (length times) →
  ∃ l', life_events os sigrtmin libc_errno opens (LTurn <$> times) l = Ret () l' ∧ g_signal_pipe l' = Some O ∧
    lf_written l' = lf_written l ++ (signal_written config (v_pid (lf_view l)) <$> times).
Proof using Type.
  induction times as [|time times IH]; intros l Hs Hop En; [exists l; cbn; by rewrite app_nil_r|].
  destruct (serving_turn config time (length times) l Hs Hop En) as [E Hs']. destruct (IH _ Hs' Hop eq_refl) as (l' & E' & Hp & Hw).
  exists l'. split; [|split; [done|]].
  - cbn [fmap list_fmap life_events]. unfold mbind, prog_bind. rewrite E. exact E'.
  - rewrite Hw. cbn. by rewrite <-app_assoc.
Qed.
End library.


(** ** Directories *)

(** The components of a path, read from the left: those complete, and the one
    being read. *)
Definition push (st : list string * string) (c : ascii) : list string * string :=
  if Ascii.eqb c "/" then if String.eqb st.2 EmptyString then st else (st.1 ++ [st.2], EmptyString)
  else (st.1, st.2 +:+ String c EmptyString).
Fixpoint read_path (st : list string * string) (path : string) : list string * string :=
  match path with EmptyString => st | String c path => read_path (push st c) path end.
Definition whole (st : list string * string) : list string := st.1 ++ (if String.eqb st.2 EmptyString then [] else [st.2]).
Definition components (path : string) : list string := whole (read_path ([], EmptyString) path).
(** [mkdir], in a file system of directories given by their components, where
    the directory to contain the new one must be there. *)
Definition mkdir (dirs : gset (list string)) (path : string) : gset (list string) :=
  let c := components path in if decide (removelast c ∈ dirs) then {[ c ]} ∪ dirs else dirs.

Definition all_prefixes (dirs : gset (list string)) (c : list string) : Prop := ∀ p, p `prefix_of` c → p ∈ dirs.
Lemma all_prefixes_snoc dirs c x : all_prefixes dirs c → all_prefixes ({[ c ++ [x] ]} ∪ dirs) (c ++ [x]).
Proof.
  intros Hc p [k Ek]. destruct k as [|y k _] using rev_ind; [rewrite app_nil_r in Ek; set_solver|].
  rewrite app_assoc in Ek. apply app_inj_tail in Ek as [-> _]. apply elem_of_union_r, Hc. by eexists.
Qed.
Lemma mkdir_prefixes dirs path st :
  read_path ([], EmptyString) path = st → all_prefixes dirs st.1 → all_prefixes (mkdir dirs path) (whole st).
Proof.
  intros Er Hp. unfold mkdir, components. rewrite Er. unfold whole. destruct (String.eqb st.2 EmptyString).
  - rewrite app_nil_r. intros p Hpre. destruct (decide _); [apply elem_of_union_r|]; by apply Hp.
  - rewrite removelast_last, decide_True by (by apply Hp). by apply all_prefixes_snoc.
Qed.
Lemma whole_push st : (push st "/").1 = whole st.
Proof. unfold push, whole. cbn. destruct (String.eqb st.2 EmptyString); [by rewrite app_nil_r|done]. Qed.
Lemma push_other st c : Ascii.eqb c "/" = false → (push st c).1 = st.1.
Proof. intros E. unfold push. by rewrite E. Qed.
Lemma read_path_snoc pre c : ∀ st, read_path st (pre +:+ String c EmptyString) = push (read_path st pre) c.
Proof. induction pre as [|d pre IH]; intros st; [done|]. apply IH. Qed.
Lemma stake_app pre rest : stake (String.length pre) (pre +:+ rest) = pre.
Proof. induction pre as [|c pre IH]; [by destruct rest|]. change (String c (stake (String.length pre) (pre +:+ rest)) = String c pre). by rewrite IH. Qed.
Lemma string_snoc_app pre c rest : pre +:+ String c rest = (pre +:+ String c EmptyString) +:+ rest.
Proof. induction pre as [|d pre IH]; [done|]. exact (f_equal (String d) IH). Qed.
Lemma string_snoc_length pre c : String.length (pre +:+ String c EmptyString) = S (String.length pre).
Proof. induction pre as [|d pre IH]; [done|]. exact (f_equal S IH). Qed.

Lemma slash_prefixes_made rest : ∀ pre dirs,
  all_prefixes dirs (read_path ([], EmptyString) pre).1 →
  all_prefixes (foldl mkdir dirs (slash_prefixes (String.length pre) rest (pre +:+ rest))) (read_path ([], EmptyString) (pre +:+ rest)).1.
Proof.
  induction rest as [|c rest IH]; intros pre dirs Hp; cbn [slash_prefixes].
  { cbn [foldl]. replace (pre +:+ EmptyString) with pre; [done|]. clear. induction pre as [|d pre IH]; [done|]. exact (f_equal (String d) IH). }
  specialize (IH (pre +:+ String c EmptyString)). rewrite string_snoc_length, <-string_snoc_app in IH.
  destruct (Ascii.eqb c "/") eqn:Ec.
  - apply Ascii.eqb_eq in Ec as ->. cbn [foldl]. apply IH. rewrite read_path_snoc, whole_push, stake_app. by apply mkdir_prefixes.
  - apply IH. by rewrite read_path_snoc, push_other.
Qed.

(** The directory a report goes into is there before the report is opened, with
    all those on the way to it, when it can be made. *)
Lemma parent_directory_made path k dirs :
  Z.of_nat (String.length path) < PATH_MAX → strrchr path "/" = Some (S k) → [] ∈ dirs →
  all_prefixes (foldl mkdir dirs (EnsureParentDirectory path)) (components (stake (S k) path)).
Proof.
  intros Hl Hs Hroot. unfold EnsureParentDirectory. destruct path as [|c path]; [done|]. rewrite (proj2 (Z.eqb_neq _ _)) by (cbn; lia).
  rewrite Z.geb_leb, (proj2 (Z.leb_gt _ _)) by done. cbn [orb]. rewrite Hs, foldl_snoc. cbn [stake sdrop]. unfold components.
  eapply mkdir_prefixes; [reflexivity|]. apply (slash_prefixes_made (stake k path) (String c EmptyString)).
  cbn. unfold push. destruct (Ascii.eqb c "/"); cbn; intros p Hp; apply prefix_nil_inv in Hp as ->; done.
Qed.
