(* ===== verification/ProcessTreeProps.v ===== *)
(** * Descendants stay out, and the tree reports once

    The invariant of the moves of ProcessTree.v and the theorems about every
    sequence of them; besides, two runs of the election that leave the target
    without a report. *)
From S2P Require Import Prelude CString Config LineReader Outcome ObserveOnly ProcessTree.

(** ** Printed numbers *)

Lemma digit_char_cases d : 0 ≤ d < 10 → is_digit (digit_char d) = true ∧ char_code (digit_char d) - 48 = d.
Proof.
  intros Hd. assert (d = 0 ∨ d = 1 ∨ d = 2 ∨ d = 3 ∨ d = 4 ∨ d = 5 ∨ d = 6 ∨ d = 7 ∨ d = 8 ∨ d = 9) as Hc by lia.
  by repeat destruct Hc as [->|Hc]; [..|subst d].
Qed.

(** A loop over digits reads back what was printed, if no step overflows. *)
Lemma dec_digits_fold {R} (F : string → Z → R) max fuel : ∀ z acc,
  (∀ d r a, 0 ≤ d < 10 → 0 ≤ a → a * 10 + d ≤ max → F (String (digit_char d) r) a = F r (a * 10 + d)) →
  0 ≤ z < 10 ^ Z.of_nat fuel → z ≤ max → (0 < fuel)%nat → F (dec_digits fuel z acc) 0 = F acc z.
Proof.
  induction fuel as [|fuel IH]; intros z acc HF Hz Hm Hf; [lia|]. cbn [dec_digits].
  assert (0 ≤ z mod 10 < 10) as Hmod by (apply Z.mod_pos_bound; lia). pose proof (Z.div_mod z 10 ltac:(lia)) as Hdm.
  destruct (Z.eqb_spec (z / 10) 0) as [Hq|Hq]; [rewrite HF by lia; f_equal; lia|].
  rewrite Nat2Z.inj_succ, Z.pow_succ_r in Hz by lia. destruct fuel as [|fuel]; [cbn in Hz; exfalso; apply Hq, Z.div_small; lia|].
  assert (0 ≤ z / 10 < 10 ^ Z.of_nat (S fuel)) by (split; [apply Z.div_pos; lia|apply Z.div_lt_upper_bound; lia]).
  rewrite IH by (done || lia). rewrite HF by lia. f_equal. lia.
Qed.

Lemma ParsePid_print pid : 0 < pid ≤ PID_MAX → ParsePid (print_dec pid) = Some pid.
Proof.
  intros Hp. assert (parse_pid (print_dec pid) 0 = Some pid) as E.
  { unfold print_dec. rewrite (dec_digits_fold parse_pid PID_MAX); [done| |unfold PID_MAX in *; lia|lia|lia].
    intros d r a Hd Ha Hm. cbn [parse_pid]. destruct (digit_char_cases d Hd) as [-> ->]. cbn [negb].
    rewrite Z.gtb_ltb, (proj2 (Z.ltb_ge _ _)); [done|]. apply Z.quot_le_lower_bound; lia. }
  unfold ParsePid. rewrite E. destruct (dec_digits_head 20 pid EmptyString ltac:(lia) ltac:(lia)) as (d & r & Hd & E').
  unfold print_dec. rewrite E'. by rewrite (proj2 (Z.eqb_neq _ _)) by lia.
Qed.

Lemma ReadStamped_print pid v :
  0 < pid ≤ PID_MAX → getenv (v_environ v) kPrimaryPidEnv = Some (print_dec pid) → ReadStampedPrimaryPid v = Ret pid v.
Proof.
  intros Hp E. unfold ReadStampedPrimaryPid, getenv_view, get, mbind, prog_bind, mret, prog_ret. rewrite E.
  destruct (dec_digits_head 20 pid EmptyString ltac:(lia) ltac:(lia)) as (d & r & Hd & E').
  unfold print_dec. rewrite E'. destruct (digit_char_cases d Hd) as [-> _]. rewrite <-E'.
  rewrite (dec_digits_fold stamped_pid LONG_MAX); [done| |unfold PID_MAX in *; lia|unfold PID_MAX, LONG_MAX in *; lia|lia].
  intros d' r' a Hd' Ha Hm. cbn [stamped_pid]. destruct (digit_char_cases d' Hd') as [-> ->]. rewrite Z.gtb_ltb.
  by rewrite (proj2 (Z.ltb_ge _ _)).
Qed.
Lemma ReadStamped_none v : getenv (v_environ v) kPrimaryPidEnv = None → ReadStampedPrimaryPid v = Ret (-1) v.
Proof. intros E. unfold ReadStampedPrimaryPid, getenv_view, get, mbind, prog_bind, mret, prog_ret. by rewrite E. Qed.

(** ** The environment *)

Lemma starts_with_app s r : starts_with s (s +:+ r) = true.
Proof. apply starts_with_spec. by eexists. Qed.
Lemma setenv_get es name value : getenv_in (setenv_in es name value) name = Some value.
Proof.
  assert (∀ es', getenv_in ((name +:+ "=" +:+ value) :: es') name = Some value) as Hhead.
  { intros es'. cbn [getenv_in]. rewrite <-string_app_assoc, starts_with_app. f_equal. rewrite string_app_assoc.
    induction name as [|a name IH]; [done|]. apply IH. }
  induction es as [|e es IH]; [apply Hhead|]. cbn [setenv_in]. destruct (starts_with (name +:+ "=") e) eqn:E; [apply Hhead|].
  cbn [getenv_in]. by rewrite E.
Qed.
Lemma setenv_other es name value other :
  (∀ e, starts_with (name +:+ "=") e = true → starts_with (other +:+ "=") e = false) →
  getenv_in (setenv_in es name value) other = getenv_in es other.
Proof.
  intros Hne. assert (starts_with (other +:+ "=") (name +:+ "=" +:+ value) = false) as Hv.
  { apply Hne. rewrite <-string_app_assoc. apply starts_with_app. }
  induction es as [|e es IH]; cbn [setenv_in getenv_in]; [by rewrite Hv|].
  destruct (starts_with (name +:+ "=") e) eqn:E; cbn [getenv_in]; [by rewrite Hv, Hne|]. by rewrite IH.
Qed.
Lemma primary_not_target e : starts_with (kPrimaryPidEnv +:+ "=") e = true → starts_with (kTargetPidEnv +:+ "=") e = false.
Proof. by intros [r ->]%starts_with_spec. Qed.
Lemma target_not_primary e : starts_with (kTargetPidEnv +:+ "=") e = true → starts_with (kPrimaryPidEnv +:+ "=") e = false.
Proof. by intros [r ->]%starts_with_spec. Qed.

(** ** The operations as functions *)

Definition ident (v : View) : Z :=
  let cached := g_target_pid (v_copy v) in
  if negb (cached =? 0) then cached
  else match getenv (v_environ v) kTargetPidEnv with None => v_pid v | Some text => default (-1) (ParsePid text) end.
Definition with_target (v : View) : View := v <| v_copy := (v_copy v) <| g_target_pid := ident v |> |>.

Lemma TargetIdentity_eq v : TargetIdentity (v_pid v) v = Ret (ident v) (with_target v).
Proof.
  unfold TargetIdentity, load, get, mbind, prog_bind, mret, prog_ret, ident, with_target, ident.
  destruct (negb (g_target_pid (v_copy v) =? 0)) eqn:E; [by destruct v as [[]]|]. done.
Qed.

Definition in_fork_child (v : View) : bool :=
  negb (g_fork_depth (v_copy v) =? 0) && (g_target_pid (v_copy v) >? 0) && negb (g_target_pid (v_copy v) =? v_pid v).
Definition resolved (v : View) : Mode :=
  if negb (ident v =? v_pid v) then kSuppressed else if (ObserveOnlyRequested (v_environ v)).1 then kBypass else kTrack.
Definition current (v : View) : Mode * View :=
  if in_fork_child v then (kSuppressed, v)
  else if bool_decide (g_mode (v_copy v) = kUndecided) then
    match v_environ v with
    | None => (kUndecided, v)
    | Some _ => (resolved v, v <| v_copy := (v_copy v) <| g_target_pid := ident v |> <| g_mode := resolved v |> |>)
    end
  else (g_mode (v_copy v), v).

Lemma ResolveMode_eq e v :
  ResolveMode e v = match v_environ v with
  | None => Ret kUndecided v
  | Some _ => Ret (resolved v) (v <| v_copy := (v_copy v) <| g_target_pid := ident v |> <| g_mode := resolved v |> |>)
  end.
Proof.
  unfold ResolveMode, environment_ready, get, getpid, mbind, prog_bind, mret, prog_ret. destruct (v_environ v) as [es|] eqn:E; [|done].
  cbn [bool_decide negb]. rewrite bool_decide_true by (by eexists). cbn [negb get]. unfold get. rewrite TargetIdentity_eq.
  unfold set_errno, set_copy, modify, resolved. cbn. rewrite E. by destruct v.
Qed.
Lemma CurrentMode_eq e v : CurrentMode e v = Ret (current v).1 (current v).2.
Proof.
  unfold CurrentMode, load, get, mbind, prog_bind, mret, prog_ret, current, in_fork_child.
  destruct (negb (g_fork_depth (v_copy v) =? 0)); cbn [andb]; unfold InForkChild, load, getpid, get, mbind, prog_bind, mret, prog_ret.
  1: destruct (_ && _); [done|].
  all: case_bool_decide; [|done]; rewrite ResolveMode_eq; by destruct (v_environ v).
Qed.
Lemma IsTargetProcess_eq e v :
  IsTargetProcess e v =
    let '(m, v') := current v in
    Ret (negb (bool_decide (m = kSuppressed)) && ((g_target_pid (v_copy v') =? 0) || (g_target_pid (v_copy v') =? v_pid v))) v'.
Proof.
  unfold IsTargetProcess, Suppressed, mbind, prog_bind. rewrite CurrentMode_eq. destruct (current v) as [m v'] eqn:E. cbn.
  assert (v_pid v' = v_pid v) as Ep.
  { unfold current in E. destruct (in_fork_child v), (bool_decide (g_mode (v_copy v) = kUndecided)), (v_environ v); by simplify_eq. }
  case_bool_decide; cbn; [done|]. unfold load, getpid, get, mbind, prog_bind, mret, prog_ret. by rewrite Ep.
Qed.

Section scope.
Variable T : Z.
Hypothesis HT : 0 < T ≤ PID_MAX.

(** ** The invariant *)

Definition stamp (es : list string) : option string := getenv_in es kTargetPidEnv.
Definition primary (es : list string) : option string := getenv_in es kPrimaryPidEnv.
Definition env_ok (es : list string) : Prop :=
  (stamp es = None ∨ stamp es = Some (print_dec T)) ∧ (primary es = None ∨ primary es = Some (print_dec T)).

(** A copy in process [pid], whose environment is [es]. *)
Record copy_ok (pid : Z) (es : list string) (first forked : bool) (forks : nat) (c : Copy) : Prop := {
  co_target : g_target_pid c = 0 ∨ g_target_pid c = T ∨ g_target_pid c = -1;
  co_fresh : g_target_pid c = 0 → c = Copy_new ∧ (pid ≠ T → stamp es = Some (print_dec T) ∧ first = false);
  co_minus : g_target_pid c = -1 → g_mode c = kSuppressed ∧ g_target_ready c = true;
  co_ready : g_target_ready c = true → stamp es = Some (print_dec T) ∧ (pid = T → g_target_pid c = T → g_target_guarded c = true);
  (* outside the target *)
  co_mode : pid ≠ T → g_target_pid c = T → g_mode c = kSuppressed ∨ (forked = true ∧ g_fork_depth c ≠ 0);
  co_unguarded : g_target_guarded c = false → g_fork_depth c = 0;
  co_depth : g_target_guarded c = true → g_mode c ≠ kSuppressed → forked = false → Z.of_nat forks ≤ g_fork_depth c;
}.
(** A copy that forks do not let escape. *)
Definition settled (pid : Z) (c : Copy) : Prop := pid = T → g_target_guarded c = true ∨ g_mode c = kSuppressed.

Lemma copy_ok_env pid es es' first forked forks c :
  copy_ok pid es first forked forks c → stamp es' = stamp es ∨ stamp es' = Some (print_dec T) → copy_ok pid es' first forked forks c.
Proof using Type.
  intros [H1 H2 H3 H4 H5 Hu H6] He. split; try done.
  - intros Hz. destruct (H2 Hz) as [-> Hs]. split; [done|]. intros Hp. destruct (Hs Hp) as [E ->]. split; [|done]. destruct He; congruence.
  - intros Hr. destruct (H4 Hr) as [E Hg]. split; [|done]. destruct He; congruence.
Qed.
Lemma ready_settled pid es first forked forks c : copy_ok pid es first forked forks c → g_target_ready c = true → settled pid c.
Proof using Type.
  intros H Hr Hp. destruct (co_ready _ _ _ _ _ _ H Hr) as [_ Hg]. destruct (co_target _ _ _ _ _ _ H) as [Hz|[Ht|Hm]].
  - destruct (co_fresh _ _ _ _ _ _ H Hz) as [-> _]. done.
  - left. by apply Hg.
  - right. by apply (co_minus _ _ _ _ _ _ H).
Qed.

Definition environ_of (published : bool) (es : list string) : Environ := if published then Some es else None.

(** The identity of the target is found, or a process without an environment
    does not know it yet. *)
Lemma ident_T pid es published first forked forks c :
  copy_ok pid es first forked forks c → env_ok es → g_target_pid c ≠ -1 → pid = T ∨ published = true ∨ first = true →
  ident (mkView c pid (environ_of published es) 0) = T.
Proof using HT.
  intros Hc [He _] Hm Hi. unfold ident. cbn [v_copy v_environ v_pid]. destruct (Z.eqb_spec (g_target_pid c) 0) as [Hz|Hnz]; cbn [negb].
  2: { destruct (co_target _ _ _ _ _ _ Hc) as [?|[?|?]]; done. }
  destruct (co_fresh _ _ _ _ _ _ Hc Hz) as [-> Hs]. unfold environ_of, getenv. unfold stamp in *.
  destruct (decide (pid = T)) as [->|Hp].
  - destruct published; [|done]. destruct He as [->| ->]; [done|]. by rewrite ParsePid_print.
  - destruct (Hs Hp) as [E ->]. destruct Hi as [?|[->|?]]; [done| |done]. rewrite E. by rewrite ParsePid_print.
Qed.

(** What the modes leave alone. *)
Definition same_report (c c' : Copy) : Prop :=
  g_primary c' = g_primary c ∧ g_probe_pid c' = g_probe_pid c ∧ g_reported c' = g_reported c.

(** Past the window of a fork, a descendant that knows the target is suppressed. *)
Lemma copy_suppressed pid es first forked forks c environ :
  copy_ok pid es first forked forks c → pid ≠ T → g_target_pid c = T → in_fork_child (mkView c pid environ 0) = false → g_mode c = kSuppressed.
Proof using HT.
  intros Hc Hp Ht Ef. destruct (co_mode _ _ _ _ _ _ Hc Hp Ht) as [?|[_ Hd]]; [done|]. unfold in_fork_child in Ef. cbn in Ef. rewrite Ht in Ef.
  rewrite (proj2 (Z.eqb_neq _ 0)), Z.gtb_ltb, (proj2 (Z.ltb_lt _ _)), (proj2 (Z.eqb_neq T pid)) in Ef by lia. done.
Qed.

Lemma current_ok pid es published first forked forks c m v' :
  copy_ok pid es first forked forks c → env_ok es →
  current (mkView c pid (environ_of published es) 0) = (m, v') →
  v' = mkView (v_copy v') pid (environ_of published es) 0 ∧ copy_ok pid es first forked forks (v_copy v') ∧ same_report c (v_copy v') ∧
  g_target_ready (v_copy v') = g_target_ready c ∧ g_target_guarded (v_copy v') = g_target_guarded c ∧
  (pid ≠ T → m = kSuppressed ∨ (m = kUndecided ∧ c = Copy_new ∧ published = false ∧ v_copy v' = Copy_new)).
Proof using HT.
  intros Hc He E. unfold current in E. destruct (in_fork_child _) eqn:Ef.
  { injection E as <- <-. split_and!; try done. by left. }
  cbn [v_copy v_pid v_environ] in *. case_bool_decide as Hm.
  2: { injection E as <- <-. split_and!; try done. intros Hp. left. destruct (co_target _ _ _ _ _ _ Hc) as [Hz|[Ht|Hmi]].
       - by destruct (co_fresh _ _ _ _ _ _ Hc Hz) as [-> _].
       - by eapply copy_suppressed.
       - by apply (co_minus _ _ _ _ _ _ Hc). }
  assert (g_target_pid c ≠ -1) as Hnm by (intros Hmi; destruct (co_minus _ _ _ _ _ _ Hc Hmi); congruence).
  destruct published; cbn [environ_of] in E; injection E as <- <-; cbn [v_environ v_pid v_copy field_set].
  - pose proof (ident_T pid es true first forked forks c Hc He Hnm ltac:(by right; left)) as Hi. cbn [environ_of] in Hi.
    set (v := mkView c pid (Some es) 0) in *. assert (pid ≠ T → resolved v = kSuppressed) as Hres.
    { intros Hp. unfold resolved. rewrite Hi. cbn. by rewrite (proj2 (Z.eqb_neq _ _)). }
    split_and!; try done; [|intros Hp; left; by apply Hres]. rewrite Hi. destruct Hc as [H1 H2 H3 H4 H5 Hu H6].
    split; cbn; try done; [by right; left|intros; lia|intros; lia| | |].
    + intros Hr. destruct (H4 Hr) as [? Hg]. split; [done|]. intros Hp _. destruct H1 as [Hz|[Ht|?]]; [|by apply Hg|done].
      by destruct (H2 Hz) as [-> _].
    + intros Hp _. left. by apply Hres.
    + intros Hg Hne Hf. apply H6; [done|congruence|done].
  - split_and!; try done. intros Hp. right. destruct (co_target _ _ _ _ _ _ Hc) as [Hz|[Ht|Hmi]]; [|exfalso|done].
    + by destruct (co_fresh _ _ _ _ _ _ Hc Hz) as [-> _].
    + rewrite (copy_suppressed pid es first forked forks c (environ_of false es) Hc Hp Ht Ef) in Hm. done.
Qed.

(** ** Initialization *)

Definition stamped_env (es : list string) : list string :=
  match stamp es with None => setenv_in es kTargetPidEnv (print_dec T) | Some _ => es end.
Lemma stamped_env_ok es : env_ok es → env_ok (stamped_env es) ∧ stamp (stamped_env es) = Some (print_dec T) ∧ primary (stamped_env es) = primary es.
Proof using Type.
  intros [Hs Hp]. unfold env_ok, stamped_env. destruct (stamp es) as [text|] eqn:E.
  - destruct Hs as [?|Hs]; [done|]. rewrite E. split; [|done]. split; [by right|done].
  - unfold stamp, primary in *. rewrite setenv_get, setenv_other by apply target_not_primary. split; [|done]. split; [by right|done].
Qed.

(** What initialization makes of a copy that is not ready. *)
Definition init_copy (pid : Z) (published ok : bool) (c : Copy) : Copy :=
  if negb (pid =? T) then c <| g_target_pid := T |> <| g_mode := kSuppressed |> <| g_fork_depth := 0 |> <| g_target_ready := published |>
  else if g_target_guarded c || ok then c <| g_target_guarded := true |> <| g_target_pid := T |> <| g_target_ready := published |>
  else c <| g_target_pid := -1 |> <| g_mode := kSuppressed |> <| g_fork_depth := 0 |> <| g_target_ready := true |>.

Lemma InitializeTargetProcess_eq pid es published first forked forks c b1 b2 b v' :
  copy_ok pid es first forked forks c → env_ok es → g_target_ready c = false → pid = T ∨ published = true ∨ first = true →
  InitializeTargetProcess 0 b1 b2 (mkView c pid (environ_of published es) 0) = Ret b v' →
  (pid = T → published = false → g_target_guarded c || b2 = true) ∧
  b = (pid =? T) && (g_target_guarded c || b2) ∧
  v' = mkView (init_copy pid published b2 c) pid (environ_of published (stamped_env es)) 0.
Proof using HT.
  intros Hc He Hr Hi. assert (g_target_pid c ≠ -1) as Hnm by (intros Hmi; destruct (co_minus _ _ _ _ _ _ Hc Hmi); congruence).
  pose proof (ident_T pid es published first forked forks c Hc He Hnm Hi) as Hid. unfold InitializeTargetProcess, load, getpid, mbind, prog_bind, get.
  set (v := mkView c pid (environ_of published es) 0) in *. unfold mret, prog_ret. change (v_copy v) with c. rewrite Hr.
  rewrite TargetIdentity_eq. unfold with_target. rewrite Hid.
  unfold environment_ready, getenv_view, get, mbind, prog_bind, mret, prog_ret. cbn [v_environ v_copy v_pid v_errno field_set v].
  rewrite (proj2 (Z.gtb_lt T 0)) by lia.
  assert (match getenv (environ_of published es) kTargetPidEnv with
          | Some text => if bool_decide (ParsePid text = Some T) then T else -1 | None => T end = T) as ->.
  { unfold environ_of, getenv. destruct published; [|done]. destruct He as [[E|E] _]; unfold stamp in E; rewrite E; [done|].
    rewrite ParsePid_print by done. by rewrite bool_decide_true. }
  rewrite (proj2 (Z.gtb_lt T 0)) by lia. cbn [andb].
  set (c1 := mkCopy _ _ _ _ _ _ _ _). match goal with |- match ?t with _ => _ end = _ → _ => set (r := t) end.
  assert (r = Ret () (mkView c1 pid (environ_of published (stamped_env es)) 0) ∨ ∃ s', r = Err s') as [->|[s' ->]]; [| |done].
  { unfold r, stamped_env, stamp, environ_of, getenv. destruct published; [|by left]. rewrite (bool_decide_true (is_Some _)) by (by eexists). cbn [andb].
    destruct (getenv_in es kTargetPidEnv) eqn:E; [rewrite bool_decide_false by done; by left|]. rewrite bool_decide_true by done.
    destruct b1; [left|right; by eexists]. done. }
  assert (bool_decide (is_Some (environ_of published es)) = published) as -> by (by destruct published).
  unfold init_copy, set_errno, set_copy, SuppressAfterFork, modify. rewrite (Z.eqb_sym T pid). cbn [v_copy g_target_guarded c1].
  destruct (Z.eqb_spec pid T) as [->|Hp]; cbn [negb andb].
  - assert ((-1 =? T) = false) as Hm1 by (apply Z.eqb_neq; lia).
    destruct (g_target_guarded c) eqn:Eg; [|destruct b2, published]; cbn -[Z.eqb Z.ltb]; rewrite ?Z.eqb_refl, ?Hm1, ?(proj2 (Z.ltb_ge T 0)), ?orb_false_r by lia; cbn -[Z.eqb Z.ltb].
    all: intros E; first [discriminate E|injection E as <- <-; by split_and!; rewrite ?Eg].
  - rewrite Z.eqb_sym, (proj2 (Z.eqb_neq _ _)), (proj2 (Z.ltb_ge T 0)), orb_false_r by (done || lia). cbn. intros E. injection E as <- <-. done.
Qed.

Definition init_env (published : bool) (es : list string) : list string := if published then stamped_env es else es.

Lemma init_copy_ok pid es published ok first forked forks c :
  copy_ok pid es first forked forks c → env_ok es → g_target_ready c = false → forks = O ∨ settled pid c →
  (pid = T → published = false → g_target_guarded c || ok = true) →
  copy_ok pid (init_env published es) first forked forks (init_copy pid published ok c) ∧ settled pid (init_copy pid published ok c) ∧
  same_report c (init_copy pid published ok c) ∧ g_target_pid (init_copy pid published ok c) ≠ 0 ∧
  (published = true → g_target_ready (init_copy pid published ok c) = true).
Proof using HT.
  intros Hc He Hr Hf Hun. destruct (stamped_env_ok es He) as (_ & Hst & _). destruct Hc as [H1 H2 H3 H4 H5 Hu H6]. unfold init_copy, init_env, settled, same_report.
  destruct (Z.eqb_spec pid T) as [->|Hp]; cbn [negb].
  - destruct (g_target_guarded c || ok) eqn:Eg.
    + split; [|by split_and!; cbn; auto; lia]. split; cbn; try done; [by right; left|intros; lia|intros; lia| |].
      * intros Hpub. rewrite Hpub. done.
      * intros _ Hm Hfk. destruct (g_target_guarded c) eqn:Eg'; [by apply H6|]. rewrite Hu by done.
        destruct Hf as [->|Hs]; [done|]. destruct (Hs eq_refl); congruence.
    + destruct published; [|by specialize (Hun eq_refl eq_refl)]. apply orb_false_iff in Eg as [Eg _].
      split; [|by split_and!; cbn; auto; lia]. split; cbn; try done; [by right; right|]. intros _. split; [done|]. intros _ ?. lia.
  - split; [|by split_and!; cbn; auto; lia]. split; cbn; try done; [by right; left|intros; lia|intros; lia| |].
    + intros Hpub. rewrite Hpub. done.
    + intros _ _. by left.
Qed.

(** ** The election *)

Lemma IsPrimary_eq es published c b v' :
  env_ok es → IsPrimary 0 (mkView c T (environ_of published es) 0) = Ret b v' →
  (v' = mkView c T (environ_of published es) 0 ∧ (b = true → g_primary c = 1)) ∨
  (published = true ∧ g_primary c < 0 ∧
    ((primary es = Some (print_dec T) ∧ b = false ∧ v' = mkView (c <| g_primary := 0 |>) T (Some es) 0) ∨
     (primary es = None ∧ v' = mkView (c <| g_primary := 1 |>) T (Some (setenv_in es kPrimaryPidEnv (print_dec T))) 0))).
Proof using HT.
  intros [_ Hp]. unfold IsPrimary, environment_ready, load, getpid, get, mbind, prog_bind, mret, prog_ret.
  destruct published; cbn [environ_of v_environ]; [rewrite bool_decide_true by (by eexists)|intros E; injection E as <- <-; by left].
  cbn [negb v_copy]. rewrite Z.geb_leb. destruct (Z.leb_spec 0 (g_primary c)) as [Hk|Hk]; [intros E; injection E as <- <-; left; split; [done|apply Z.eqb_eq]|].
  intros E. right. split; [done|]. split; [done|]. unfold get in E. cbn [v_pid] in E. destruct Hp as [Hp|Hp].
  - right. split; [done|]. rewrite ReadStamped_none in E by done. rewrite (proj2 (Z.eqb_neq _ _)) in E by lia.
    unfold set_errno, setenv, set_copy, modify in E. set (stamped := print_dec T) in *. clearbody stamped. by injection E as _ <-.
  - left. split; [done|]. rewrite (ReadStamped_print T) in E by done. rewrite Z.eqb_refl in E.
    unfold set_errno, set_copy, modify in E. by injection E as <- <-.
Qed.

(** ** Processes *)

Record base_ok (pid : Z) (p : Process) : Prop := {
  ba_env : env_ok (p_environ p);
  ba_copies : Forall (copy_ok pid (p_environ p) (p_first p) (p_forked p) (p_forks p)) (p_copies p);
}.
Record proc_ok (pid : Z) (p : Process) : Prop := {
  po_base : base_ok pid p;
  po_some : p_copies p ≠ [];
  po_many : (1 < length (p_copies p))%nat → Forall (λ c, g_target_ready c = true) (p_copies p);
  po_forks : p_forks p ≠ O → Forall (settled pid) (p_copies p);
  po_forked : p_forked p = true → pid ≠ T ∧ p_forks p = O;
}.

(** One copy in the target has been elected at most, and it is the one that
    reports. *)
Record winner (p : Process) (reports : list Z) : Prop := {
  wi_none : primary (p_environ p) = None → Forall (λ c, g_primary c ≠ 1) (p_copies p) ∧ reports = [];
  wi_one i j ci cj : p_copies p !! i = Some ci → p_copies p !! j = Some cj → g_primary ci = 1 → g_primary cj = 1 → i = j;
  wi_probe : Forall (λ c, g_probe_pid c = 0 ∨ (g_probe_pid c = T ∧ g_primary c = 1)) (p_copies p);
  wi_reports : reports = [] ∨ (reports = [T] ∧ Forall (λ c, g_primary c = 1 → g_reported c = true) (p_copies p));
}.

(** What an operation of a copy may do. *)
Definition op_ok (pid : Z) (p : Process) (c : Copy) (v' : View) (es' : list string) : Prop :=
  v_environ v' = environ_of (p_published p) es' ∧ (p_published p = false → es' = p_environ p) ∧ env_ok es' ∧
  (stamp es' = stamp (p_environ p) ∨ stamp es' = Some (print_dec T)) ∧
  copy_ok pid es' (p_first p) (p_forked p) (p_forks p) (v_copy v') ∧
  (g_target_ready c = true → g_target_ready (v_copy v') = true) ∧ (settled pid c → settled pid (v_copy v')).

Lemma put_environ pid p c v' es' i : op_ok pid p c v' es' → p_environ (put_view i v' p) = es'.
Proof using Type.
  intros (Hv & Hun & _). unfold put_view. cbn. rewrite Hv. destruct (p_published p); [done|]. cbn. symmetry. by apply Hun.
Qed.

Lemma put_base pid p i c v' es' : base_ok pid p → op_ok pid p c v' es' → base_ok pid (put_view i v' p).
Proof using Type.
  intros [H1 H2] Ho. pose proof (put_environ pid p c v' es' i Ho) as Ee. destruct Ho as (_ & _ & He & Hs & Hc & _).
  split; rewrite ?Ee; cbn; try done. apply Forall_insert; [|done]. eapply Forall_impl; [done|]. intros c0 Hc0. by eapply copy_ok_env.
Qed.
Lemma put_ok pid p i c v' es' : proc_ok pid p → p_copies p !! i = Some c → op_ok pid p c v' es' → proc_ok pid (put_view i v' p).
Proof using Type.
  intros [H1 H2 H3 H4 H5] Hi Ho. split; cbn; try done.
  - by eapply put_base.
  - intros E. apply (f_equal length) in E. rewrite length_insert in E. by destruct (p_copies p).
  - destruct Ho as (_ & _ & _ & _ & _ & Hr & _). rewrite length_insert. intros Hl. apply Forall_insert; [by apply H3|]. apply Hr.
    by eapply Forall_lookup_1 in H3; [|done|done].
  - destruct Ho as (_ & _ & _ & _ & _ & _ & Hse). intros Hf. apply Forall_insert; [by apply H4|]. apply Hse. by eapply Forall_lookup_1 in H4; [|done|done].
Qed.

Lemma put_winner pid p i c v' es' reports :
  winner p reports → p_copies p !! i = Some c → op_ok pid p c v' es' → same_report c (v_copy v') → primary es' = primary (p_environ p) →
  winner (put_view i v' p) reports.
Proof using Type.
  intros [H1 H2 H3 H4] Hi Ho (S1 & S2 & S3) Hp. pose proof (put_environ pid p c v' es' i Ho) as Ee.
  assert (∀ k ck, <[i := v_copy v']> (p_copies p) !! k = Some ck → ∃ c0, p_copies p !! k = Some c0 ∧ same_report c0 ck) as Hl.
  { intros k ck Hk. destruct (decide (k = i)) as [->|Hne].
    - rewrite list_lookup_insert_eq in Hk by (by eapply lookup_lt_Some). injection Hk as <-. by exists c.
    - rewrite list_lookup_insert_ne in Hk by done. by exists ck. }
  split; rewrite ?Ee; cbn.
  - rewrite Hp. intros Hn. destruct (H1 Hn) as [Hf Hr]. split; [|done]. apply Forall_insert; [done|]. rewrite S1. by eapply Forall_lookup_1 in Hf.
  - intros k j ck cj Hk Hj P1 P2. destruct (Hl _ _ Hk) as (c1 & Hc1 & E1 & _). destruct (Hl _ _ Hj) as (c2 & Hc2 & E2 & _).
    eapply H2; [done|done| |]; congruence.
  - apply Forall_insert; [done|]. rewrite S1, S2. by eapply Forall_lookup_1 in H3.
  - destruct H4 as [?|[? Hf]]; [by left|]. right. split; [done|]. apply Forall_insert; [done|]. rewrite S1, S3. by eapply Forall_lookup_1 in Hf.
Qed.

Lemma current_op pid p i c m v' :
  base_ok pid p → p_copies p !! i = Some c → current (view_of pid c p) = (m, v') →
  op_ok pid p c v' (p_environ p) ∧ same_report c (v_copy v') ∧ v' = view_of pid (v_copy v') p ∧
  (pid ≠ T → m = kSuppressed ∨ (m = kUndecided ∧ c = Copy_new ∧ p_published p = false ∧ v_copy v' = Copy_new)).
Proof using HT.
  intros Hp Hi E. pose proof (Forall_lookup_1 _ _ _ _ (ba_copies _ _ Hp) Hi) as Hc.
  destruct (current_ok pid (p_environ p) (p_published p) _ _ _ c m v' Hc (ba_env _ _ Hp) E) as (E1 & Hc' & Hsr & Hr & Hg & Hsup).
  split; [|done]. split_and!; try done; [by rewrite E1|apply (ba_env _ _ Hp)|by left|by rewrite Hr|]. intros Hs HpT. rewrite Hg. destruct (Hs HpT) as [?|Hm]; [by left|right].
  unfold current in E. destruct (in_fork_child _); [by injection E as _ <-|]. cbn in E. rewrite Hm in E. cbn in E. by injection E as _ <-.
Qed.

(** One operation after another. *)
Lemma view_put pid p c v1 es1 i : op_ok pid p c v1 es1 → view_of pid (v_copy v1) (put_view i v1 p) = mkView (v_copy v1) pid (environ_of (p_published p) es1) 0.
Proof using Type. intros Ho. pose proof (put_environ pid p c v1 es1 i Ho) as E. unfold view_of. rewrite E. done. Qed.
Lemma op_trans pid p c i v1 es1 v2 es2 :
  op_ok pid p c v1 es1 → op_ok pid (put_view i v1 p) (v_copy v1) v2 es2 → op_ok pid p c v2 es2.
Proof using Type.
  intros Ho1 Ho2. pose proof (put_environ pid p c v1 es1 i Ho1) as E1. destruct Ho1 as (A1 & A2 & A3 & A4 & A5 & A6 & A7).
  destruct Ho2 as (B1 & B2 & B3 & B4 & B5 & B6 & B7). rewrite E1 in *. cbn in *. split_and!; try done.
  - intros Hu. rewrite B2 by done. by apply A2.
  - destruct B4 as [->|?]; [done|by right].
  - intros ?. by apply B6, A6.
  - intros ?. by apply B7, A7.
Qed.
Lemma put_put pid p c i v1 es1 v2 es2 :
  op_ok pid p c v1 es1 → op_ok pid (put_view i v1 p) (v_copy v1) v2 es2 → put_view i v2 (put_view i v1 p) = put_view i v2 p.
Proof using Type.
  intros Ho1 Ho2. pose proof (op_trans _ _ _ i _ _ _ _ Ho1 Ho2) as Ho. pose proof (put_environ _ _ _ _ _ i Ho) as E. pose proof (put_environ _ _ _ _ _ i Ho2) as E2.
  unfold put_view in *. cbn in *. rewrite list_insert_insert_eq. by rewrite E, E2.
Qed.
Lemma copies_put p i c v : p_copies p !! i = Some c → p_copies (put_view i v p) !! i = Some (v_copy v).
Proof using Type. intros Hi. cbn. apply list_lookup_insert_eq. by eapply lookup_lt_Some. Qed.

Lemma unelected_probe p i c reports : winner p reports → p_copies p !! i = Some c → g_primary c < 0 → g_probe_pid c = 0.
Proof using Type.
  intros Hw Hi Hn. pose proof (Forall_lookup_1 _ _ _ _ (wi_probe _ _ Hw) Hi) as Hpr. cbn in Hpr. destruct Hpr as [?|[_ ?]]; [done|lia].
Qed.
(** A copy that finds the stamp of its process is not elected. *)
Lemma secondary_winner p p' i c reports :
  winner p reports → p_copies p !! i = Some c → g_primary c < 0 → primary (p_environ p') = Some (print_dec T) →
  p_copies p' = <[i := c <| g_primary := 0 |>]> (p_copies p) → winner p' reports.
Proof using Type.
  intros Hw Hi Hneg Hprim Ecp. pose proof (unelected_probe _ _ _ _ Hw Hi Hneg) as Hpr. destruct Hw as [W1 W2 W3 W4]. split; rewrite ?Ecp.
  - intros Hn. congruence.
  - assert (∀ k ck, <[i := c <| g_primary := 0 |>]> (p_copies p) !! k = Some ck → g_primary ck = 1 → p_copies p !! k = Some ck) as Hl.
    { intros k0 c0 H0 H1. destruct (decide (k0 = i)) as [->|Hne].
      - rewrite list_lookup_insert_eq in H0 by (by eapply lookup_lt_Some). by injection H0 as <-.
      - by rewrite list_lookup_insert_ne in H0. }
    intros k j ck cj Hk Hj P1 P2. eapply W2; [by eapply Hl|by eapply Hl|done|done].
  - apply Forall_insert; [done|]. by left.
  - destruct W4 as [?|[? Hf]]; [by left|]. right. split; [done|]. by apply Forall_insert.
Qed.
(** The first copy that stamps its process is. *)
Lemma elected_winner p p' i c reports :
  winner p reports → p_copies p !! i = Some c → g_primary c < 0 → primary (p_environ p) = None → primary (p_environ p') = Some (print_dec T) →
  p_copies p' = <[i := c <| g_primary := 1 |>]> (p_copies p) → winner p' reports.
Proof using Type.
  intros Hw Hi Hneg Hnone Hprim Ecp. pose proof (unelected_probe _ _ _ _ Hw Hi Hneg) as Hpr. destruct Hw as [W1 W2 W3 W4].
  destruct (W1 Hnone) as [Hno ->]. split; rewrite ?Ecp.
  - intros Hn. congruence.
  - assert (∀ k ck, <[i := c <| g_primary := 1 |>]> (p_copies p) !! k = Some ck → g_primary ck = 1 → k = i) as Hl.
    { intros k0 c0 H0 H1. destruct (decide (k0 = i)) as [->|Hne]; [done|]. rewrite list_lookup_insert_ne in H0 by done.
      by destruct (Forall_lookup_1 _ _ _ _ Hno H0). }
    intros k j ck cj Hk Hj P1 P2. rewrite (Hl _ _ Hk P1). symmetry. by eapply Hl.
  - apply Forall_insert; [done|]. by left.
  - by left.
Qed.

Lemma primary_op p i c b v' reports :
  base_ok T p → p_copies p !! i = Some c → (p_published p = true → g_target_pid c ≠ 0) →
  IsPrimary 0 (view_of T c p) = Ret b v' →
  ∃ es', op_ok T p c v' es' ∧ (winner p reports → winner (put_view i v' p) reports) ∧
    v' = mkView (v_copy v') T (environ_of (p_published p) es') 0 ∧ (b = true → g_primary (v_copy v') = 1) ∧ g_target_pid (v_copy v') = g_target_pid c.
Proof using HT.
  intros Hp Hi Hnf E. pose proof (Forall_lookup_1 _ _ _ _ (ba_copies _ _ Hp) Hi) as Hc. pose proof (ba_env _ _ Hp) as He.
  assert (∀ k, p_published p = true → copy_ok T (p_environ p) (p_first p) (p_forked p) (p_forks p) (c <| g_primary := k |>)) as Hck.
  { intros k Hpub. destruct Hc as [H1 H2 H3 H4 H5 Hu H6]. split; cbn; try done. intros Hz. by destruct (Hnf Hpub). }
  apply IsPrimary_eq in E as [[-> Hb]|(Hpub & Hneg & [(Hprim & -> & ->)|[Hprim ->]])]; [..|done].
  - exists (p_environ p). assert (op_ok T p c (view_of T c p) (p_environ p)) as Ho by (split_and!; try done; by left).
    split; [done|]. split; [|done]. intros Hw. by eapply put_winner.
  - exists (p_environ p). assert (op_ok T p c (mkView (c <| g_primary := 0 |>) T (Some (p_environ p)) 0) (p_environ p)) as Ho.
    { split_and!; try done; [by rewrite Hpub|by left|by apply Hck]. }
    split; [done|]. split; [|by rewrite Hpub]. intros Hw. eapply secondary_winner; [done..| |done]. by rewrite (put_environ _ _ _ _ _ i Ho).
  - set (es' := setenv_in (p_environ p) kPrimaryPidEnv (print_dec T)).
    assert (stamp es' = stamp (p_environ p)) as Es by (apply setenv_other, primary_not_target).
    assert (primary es' = Some (print_dec T)) as Ep by (apply setenv_get).
    exists es'. assert (op_ok T p c (mkView (c <| g_primary := 1 |>) T (Some es') 0) es') as Ho.
    { split_and!; try done; [by rewrite Hpub|congruence| |by left|].
      - split; [rewrite Es; apply He|by right].
      - cbn [v_copy]. eapply copy_ok_env; [by apply Hck|by left]. }
    split; [done|]. split; [|by rewrite Hpub]. intros Hw. eapply elected_winner; [done..| |done]. by rewrite (put_environ _ _ _ _ _ i Ho).
Qed.

(** Initialization, and then the election where it is the target. *)
Lemma init_process_op pid p i c b1 b2 b v1 :
  base_ok pid p → p_copies p !! i = Some c → can_init p = true → p_forks p = O ∨ settled pid c →
  InitializeTargetProcess 0 b1 b2 (view_of pid c p) = Ret b v1 →
  ∃ es1, op_ok pid p c v1 es1 ∧ same_report c (v_copy v1) ∧ primary es1 = primary (p_environ p) ∧ settled pid (v_copy v1) ∧
    (p_published p = true → g_target_ready (v_copy v1) = true) ∧ g_target_pid (v_copy v1) ≠ 0 ∧ (b = true → pid = T) ∧
    v1 = mkView (v_copy v1) pid (environ_of (p_published p) es1) 0.
Proof using HT.
  intros Hp Hi Hcan Hf E. pose proof (Forall_lookup_1 _ _ _ _ (ba_copies _ _ Hp) Hi) as Hc. pose proof (ba_env _ _ Hp) as He.
  destruct (g_target_ready c) eqn:Er.
  - assert (IsTargetProcess 0 (view_of pid c p) = Ret b v1) as E'.
    { unfold InitializeTargetProcess, load, get, mbind, prog_bind, mret, prog_ret in E. cbn [v_copy view_of] in E. by rewrite Er in E. }
    rewrite IsTargetProcess_eq in E'. destruct (current (view_of pid c p)) as [m v'] eqn:Ec.
    destruct (current_op pid p i c m v' Hp Hi Ec) as (Ho & Hs & Ev & Hsup). injection E' as <- <-. exists (p_environ p).
    assert (g_target_pid (v_copy v') ≠ 0) as Hnz.
    { intros Hz. destruct Ho as (_ & _ & _ & _ & Hc' & Hr & _). destruct (co_fresh _ _ _ _ _ _ Hc' Hz) as [E0 _]. specialize (Hr Er). by rewrite E0 in Hr. }
    split_and!; try done.
    + destruct Ho as (_ & _ & _ & _ & Hc' & Hr & _). eapply ready_settled; [done|]. by apply Hr.
    + intros _. by apply Ho.
    + intros Hb. destruct (decide (pid = T)) as [|Hne]; [done|]. destruct (Hsup Hne) as [->|(_ & -> & _)]; [by rewrite bool_decide_true in Hb|done].
  - unfold can_init in Hcan. apply orb_true_iff in Hcan.
    destruct (InitializeTargetProcess_eq pid (p_environ p) (p_published p) _ _ _ c b1 b2 b v1 Hc He Er ltac:(by right) E) as (Hun & Hb & ->).
    destruct (init_copy_ok pid (p_environ p) (p_published p) b2 _ _ _ c Hc He Er Hf Hun) as (Hc' & Hse & Hsr & Hnz & Hrdy).
    destruct (stamped_env_ok (p_environ p) He) as (He' & Hst & Hpr).
    exists (init_env (p_published p) (p_environ p)). unfold init_env in *. cbn [v_copy]. split_and!; try done.
    + split_and!; try done; [by destruct (p_published p)|by intros ->|by destruct (p_published p)|destruct (p_published p); [by right|by left]|congruence].
    + by destruct (p_published p).
    + intros ->. symmetry in Hb. by apply andb_true_iff in Hb as [?%Z.eqb_eq _].
    + by destruct (p_published p).
Qed.

Lemma init_op pid p i c b1 b2 v' reports :
  base_ok pid p → p_copies p !! i = Some c → can_init p = true → p_forks p = O ∨ settled pid c →
  InitializeTargetScope 0 b1 b2 (view_of pid c p) = Ret () v' →
  ∃ es', op_ok pid p c v' es' ∧ settled pid (v_copy v') ∧ (p_published p = true → g_target_ready (v_copy v') = true) ∧
    (pid = T → winner p reports → winner (put_view i v' p) reports).
Proof using HT.
  intros Hp Hi Hcan Hf E. unfold InitializeTargetScope, mbind, prog_bind in E.
  destruct (InitializeTargetProcess 0 b1 b2 (view_of pid c p)) as [b v1| |] eqn:E1; [|done|done].
  destruct (init_process_op pid p i c b1 b2 b v1 Hp Hi Hcan Hf E1) as (es1 & Ho1 & Hs1 & Hpr1 & Hse1 & Hr1 & Hnz & Hb & Ev1).
  unfold load, get, mbind, prog_bind, mret, prog_ret in E. destruct (b && g_target_ready (v_copy v1)) eqn:Eb.
  2: { injection E as <-. exists es1. split_and!; try done. intros -> Hw. by eapply put_winner. }
  apply andb_true_iff in Eb as [-> Erdy]. specialize (Hb eq_refl). subst pid. destruct (IsPrimary 0 v1) as [r v2| |] eqn:E2; [|done|done]. injection E as <-.
  rewrite Ev1, <-(view_put T p c v1 es1 i Ho1) in E2.
  destruct (primary_op (put_view i v1 p) i (v_copy v1) r v2 reports) as (es2 & Ho2 & Hw2 & _ & _); [by eapply put_base|by eapply copies_put|done|done|].
  exists es2. split; [by eapply op_trans|]. split; [by apply Ho2|]. split; [intros _; by apply Ho2|]. intros _ Hw.
  rewrite <-(put_put T p c i v1 es1 v2 es2 Ho1 Ho2). apply Hw2. by eapply put_winner.
Qed.

(** ** The probe *)

Lemma current_target v m v' : current v = (m, v') → g_target_pid (v_copy v) ≠ 0 → g_target_pid (v_copy v') ≠ 0.
Proof using Type.
  intros E Hz. unfold current in E. destruct (in_fork_child v); [by injection E as _ <-|].
  case_bool_decide; [|by injection E as _ <-]. destruct (v_environ v); injection E as _ <-; [|done].
  cbn. unfold ident. by rewrite (proj2 (Z.eqb_neq _ _)).
Qed.
Lemma current_decided v m v' : current v = (m, v') → m = kBypass → g_mode (v_copy v') = kBypass.
Proof using Type.
  intros E ->. unfold current in E. destruct (in_fork_child v); [done|]. case_bool_decide; [|by injection E as ? <-].
  destruct (v_environ v); injection E as E <-; [|done]. done.
Qed.

Lemma owns_op p i c b v' reports :
  base_ok T p → p_copies p !! i = Some c → g_target_pid c ≠ 0 → OwnsAutomaticReports 0 (view_of T c p) = Ret b v' →
  ∃ es', op_ok T p c v' es' ∧ (winner p reports → winner (put_view i v' p) reports) ∧
    v' = mkView (v_copy v') T (environ_of (p_published p) es') 0 ∧ (b = true → g_primary (v_copy v') = 1) ∧ g_target_pid (v_copy v') ≠ 0.
Proof using HT.
  intros Hp Hi Hnz E. unfold OwnsAutomaticReports, mbind, prog_bind in E. rewrite IsTargetProcess_eq in E.
  destruct (current (view_of T c p)) as [m v1] eqn:Ec. destruct (current_op T p i c m v1 Hp Hi Ec) as (Ho1 & Hs1 & Ev1 & _).
  pose proof (current_target _ _ _ Ec Hnz) as Hnz1. destruct (negb _ && _).
  2: { injection E as <- <-. exists (p_environ p). split_and!; try done. intros Hw. by eapply put_winner. }
  rewrite Ev1 in E. change (view_of T (v_copy v1) p) with (mkView (v_copy v1) T (environ_of (p_published p) (p_environ p)) 0) in E.
  rewrite <-(view_put T p c v1 (p_environ p) i Ho1) in E.
  destruct (primary_op (put_view i v1 p) i (v_copy v1) b v' reports) as (es2 & Ho2 & Hw2 & Ev2 & Hb & Htp); [by eapply put_base|by eapply copies_put|done|done|].
  exists es2. split; [by eapply op_trans|]. split; [|split_and!; try done; congruence]. intros Hw. rewrite <-(put_put T p c i v1 _ v' es2 Ho1 Ho2). apply Hw2. by eapply put_winner.
Qed.

Lemma probe_pid_op p i c es' pid0 reports :
  base_ok T p → p_copies p !! i = Some c → g_target_pid c ≠ 0 → pid0 = 0 ∨ (pid0 = T ∧ g_primary c = 1) →
  es' = p_environ p →
  op_ok T p c (mkView (c <| g_probe_pid := pid0 |>) T (environ_of (p_published p) es') 0) es' ∧
  (winner p reports → winner (put_view i (mkView (c <| g_probe_pid := pid0 |>) T (environ_of (p_published p) es') 0) p) reports).
Proof using Type.
  intros Hp Hi Hnz Hpid ->. pose proof (Forall_lookup_1 _ _ _ _ (ba_copies _ _ Hp) Hi) as Hc.
  assert (op_ok T p c (mkView (c <| g_probe_pid := pid0 |>) T (environ_of (p_published p) (p_environ p)) 0) (p_environ p)) as Ho.
  { split_and!; try done; [apply (ba_env _ _ Hp)|by left|]. destruct Hc as [H1 H2 H3 H4 H5 Hu H6]. by split. }
  split; [done|]. intros [W1 W2 W3 W4]. split; rewrite ?(put_environ _ _ _ _ _ i Ho); cbn.
  - intros Hn. destruct (W1 Hn) as [Hf ->]. split; [|done]. apply Forall_insert; [done|]. cbn. by eapply Forall_lookup_1 in Hf.
  - assert (∀ k ck, <[i := c <| g_probe_pid := pid0 |>]> (p_copies p) !! k = Some ck → g_primary ck = 1 →
      ∃ c0, p_copies p !! k = Some c0 ∧ g_primary c0 = 1) as Hl.
    { intros k0 c0 H0 H1. destruct (decide (k0 = i)) as [->|Hne].
      - rewrite list_lookup_insert_eq in H0 by (by eapply lookup_lt_Some). injection H0 as <-. by exists c.
      - rewrite list_lookup_insert_ne in H0 by done. by exists c0. }
    intros k j ck cj Hk Hj P1 P2. destruct (Hl _ _ Hk P1) as (? & ? & ?). destruct (Hl _ _ Hj P2) as (? & ? & ?). by eapply W2.
  - apply Forall_insert; [done|]. done.
  - destruct W4 as [?|[? Hf]]; [by left|]. right. split; [done|]. apply Forall_insert; [done|]. cbn. by eapply Forall_lookup_1 in Hf.
Qed.

Lemma start_op pid p i c started b v' reports :
  base_ok pid p → p_copies p !! i = Some c → StartProbe 0 started (view_of pid c p) = Ret b v' →
  ∃ es', op_ok pid p c v' es' ∧ (pid = T → winner p reports → winner (put_view i v' p) reports).
Proof using HT.
  intros Hp Hi E. unfold StartProbe, mbind, prog_bind in E. rewrite CurrentMode_eq in E. destruct (current (view_of pid c p)) as [m v1] eqn:Ec.
  destruct (current_op pid p i c m v1 Hp Hi Ec) as (Ho1 & Hs1 & Ev1 & Hsup). cbn [fst snd] in E. unfold get in E.
  assert (∃ es', op_ok pid p c v1 es' ∧ (pid = T → winner p reports → winner (put_view i v1 p) reports)) as Hstop.
  { exists (p_environ p). split; [done|]. intros -> Hw. by eapply put_winner. }
  case_bool_decide as Hm; cbn [negb] in E; [|by injection E as <- <-].
  assert (pid = T) as -> by (destruct (decide (pid = T)) as [|Hne]; [done|]; destruct (Hsup Hne) as [?|[? _]]; congruence).
  assert (set_errno 0 v1 = Ret () v1) as Eerr by (rewrite Ev1; done). rewrite Eerr in E.
  destruct (negb _); [by injection E as <- <-|]. destruct (OwnsAutomaticReports 0 v1) as [owns v2| |] eqn:E2; [|done|done].
  rewrite Ev1 in E2. change (view_of T (v_copy v1) p) with (mkView (v_copy v1) T (environ_of (p_published p) (p_environ p)) 0) in E2.
  rewrite <-(view_put T p c v1 (p_environ p) i Ho1) in E2.
  assert (g_target_pid (v_copy v1) ≠ 0) as Hnz.
  { intros Hz. destruct Ho1 as (_ & _ & _ & _ & Hc1 & _). destruct (co_fresh _ _ _ _ _ _ Hc1 Hz) as [E0 _]. pose proof (current_decided _ _ _ Ec Hm) as Hd. by rewrite E0 in Hd. }
  pose proof (put_base _ _ i _ _ _ Hp Ho1) as Hp1.
  destruct (owns_op (put_view i v1 p) i (v_copy v1) owns v2 reports Hp1 (copies_put _ _ _ _ Hi) Hnz E2) as (es2 & Ho2 & Hw2 & Ev2 & Hown & Hnz2).
  pose proof (op_trans _ _ _ i _ _ _ _ Ho1 Ho2) as Ho. pose proof (put_put _ _ _ i _ _ _ _ Ho1 Ho2) as Epp.
  assert (winner p reports → winner (put_view i v2 p) reports) as Hw by (intros Hw; rewrite <-Epp; apply Hw2; by eapply put_winner).
  destruct owns; cbn [negb] in E; [|injection E as <- <-; by exists es2].
  pose proof (put_base _ _ i _ _ _ Hp Ho) as Hp2. set (p2 := put_view i v2 p) in *.
  assert (p_environ p2 = es2) as Ee by (by eapply put_environ).
  assert (∃ pid0, (pid0 = 0 ∨ (pid0 = T ∧ g_primary (v_copy v2) = 1)) ∧ v' = mkView ((v_copy v2) <| g_probe_pid := pid0 |>) T (environ_of (p_published p2) es2) 0) as (pid0 & Hpid & Ev').
  { unfold getpid, get, mbind, prog_bind, mret, prog_ret, set_copy, modify in E. change (p_published p2) with (p_published p).
    change (p_published (put_view i v1 p)) with (p_published p) in Ev2. rewrite Ev2 in E. destruct started; cbn in E; injection E as <- <-.
    - exists T. split; [right; split; [done|by apply Hown]|done].
    - exists 0. split; [by left|done]. }
  destruct (probe_pid_op p2 i (v_copy v2) es2 pid0 reports Hp2 (copies_put _ _ _ _ Hi) Hnz2 Hpid) as [Ho3 Hw3]; [done|]. rewrite <-Ev' in *.
  exists es2. split; [by eapply op_trans|]. intros _ HW. rewrite <-(put_put T p c i v2 es2 v' es2 Ho Ho3). by apply Hw3, Hw.
Qed.

Lemma reported_winner p p' i c reports :
  winner p reports → p_copies p !! i = Some c → g_probe_pid c = T → p_environ p' = p_environ p →
  p_copies p' = <[i := c <| g_reported := true |>]> (p_copies p) → winner p' ((if negb (g_reported c) then [T] else []) ++ reports).
Proof using HT.
  intros Hw Hi Hpid Ee Ecp. assert (g_primary c = 1) as Hc1.
  { pose proof (Forall_lookup_1 _ _ _ _ (wi_probe _ _ Hw) Hi) as Hpr. cbn in Hpr. destruct Hpr as [?|[_ ?]]; [lia|done]. }
  destruct Hw as [W1 W2 W3 W4].
  assert (primary (p_environ p) ≠ None) as Hsome by (intros Hn; destruct (W1 Hn) as [Hf _]; by eapply Forall_lookup_1 in Hf).
  assert (∀ k ck, <[i := c <| g_reported := true |>]> (p_copies p) !! k = Some ck → g_primary ck = 1 → k = i ∧ g_reported ck = true) as Hl.
  { intros k ck Hk P1. destruct (decide (k = i)) as [->|Hne].
    - rewrite list_lookup_insert_eq in Hk by (by eapply lookup_lt_Some). by injection Hk as <-.
    - rewrite list_lookup_insert_ne in Hk by done. by destruct Hne; eapply W2. }
  split; rewrite ?Ecp, ?Ee.
  - intros Hn. congruence.
  - intros k j ck cj Hk Hj P1 P2. destruct (Hl _ _ Hk P1) as [-> _]. by destruct (Hl _ _ Hj P2) as [-> _].
  - apply Forall_insert; [done|]. by right.
  - assert (Forall (λ c, g_primary c = 1 → g_reported c = true) (<[i := c <| g_reported := true |>]> (p_copies p))) as Hall.
    { apply Forall_lookup. intros k ck Hk P1. by apply (Hl k ck). }
    destruct (g_reported c) eqn:Er; cbn; destruct W4 as [->|[-> Hf]]; [by left|by right|by right|].
    eapply Forall_lookup_1 in Hf; [|done]. by rewrite Hf in Er.
Qed.

Lemma report_op pid p i c b v' reports :
  base_ok pid p → p_copies p !! i = Some c → ReportAtExit 0 (view_of pid c p) = Ret b v' →
  ∃ es', op_ok pid p c v' es' ∧ (pid ≠ T → b = false) ∧
    (pid = T → winner p reports → winner (put_view i v' p) ((if b then [T] else []) ++ reports)).
Proof using HT.
  intros Hp Hi E. unfold ReportAtExit, mbind, prog_bind in E. rewrite IsTargetProcess_eq in E.
  destruct (current (view_of pid c p)) as [m v1] eqn:Ec. destruct (current_op pid p i c m v1 Hp Hi Ec) as (Ho1 & Hs1 & Ev1 & Hsup).
  unfold load, getpid, get, mbind, prog_bind, mret, prog_ret in E. unfold get in E. set (target := negb _ && _) in E.
  destruct (negb target || _ || _) eqn:Estop.
  { injection E as <- <-. exists (p_environ p). split; [done|]. split; [done|]. intros -> Hw. by eapply put_winner. }
  apply orb_false_iff in Estop as [Estop Epid]. apply orb_false_iff in Estop as [Etgt Eprobe].
  assert (pid = T) as ->.
  { destruct (decide (pid = T)) as [|Hne]; [done|]. destruct (Hsup Hne) as [->|(_ & -> & _ & E1)].
    - unfold target in Etgt. by rewrite bool_decide_true in Etgt.
    - rewrite E1 in Eprobe. done. }
  assert (g_probe_pid (v_copy v1) = T) as Hprobe.
  { apply negb_false_iff, Z.eqb_eq in Epid. rewrite Ev1 in Epid. cbn in Epid. done. }
  pose proof (put_base _ _ i _ _ _ Hp Ho1) as Hp1. unfold set_copy, modify in E.
  set (v2 := v1 <| v_copy := (v_copy v1) <| g_reported := true |> |>).
  assert (b = negb (g_reported (v_copy v1)) ∧ v' = v2) as [-> ->] by (by injection E as <- <-). exists (p_environ p).
  assert (op_ok T (put_view i v1 p) (v_copy v1) v2 (p_environ p)) as Ho2.
  { pose proof (put_environ _ _ _ _ _ i Ho1) as Ee. destruct Ho1 as (A1 & A2 & A3 & A4 & A5 & A6 & A7).
    unfold op_ok. rewrite Ee. split; [exact A1|]. split; [done|]. split; [done|]. split; [by left|]. split; [|done]. destruct A5 as [H1 H2 H3 H4 H5 Hu H6]. split; cbn; try done.
    intros Hz. destruct (H2 Hz) as [E1 _]. rewrite E1 in Hprobe. cbn in Hprobe. lia. }
  split; [by eapply op_trans|]. split; [done|]. intros _ Hw. rewrite <-(put_put _ _ _ i _ _ _ _ Ho1 Ho2).
  eapply reported_winner; [by eapply put_winner|by eapply copies_put|done| |done].
  by rewrite (put_environ _ _ _ _ _ i Ho1), (put_environ _ _ _ _ _ i Ho2).
Qed.

(** ** Moves *)

Lemma in_copy_inv {A} (m : prog View A) pid i p (r : A) p' :
  in_copy m pid i p = Some (r, p') → ∃ c v', p_copies p !! i = Some c ∧ m (view_of pid c p) = Ret r v' ∧ p' = put_view i v' p.
Proof using Type.
  unfold in_copy. destruct (p_copies p !! i) as [c|] eqn:Ei; [|done]. cbn. destruct (m (view_of pid c p)) as [a v'| |] eqn:E; [|done|done].
  intros [= <- <-]. by exists c, v'.
Qed.

Lemma copy_ok_first pid es first first' forked forks c :
  copy_ok pid es first forked forks c → g_target_pid c ≠ 0 → copy_ok pid es first' forked forks c.
Proof using Type. intros [H1 H2 H3 H4 H5 Hu H6] Hz. by split. Qed.
Lemma ready_known pid es first forked forks c : copy_ok pid es first forked forks c → g_target_ready c = true → g_target_pid c ≠ 0.
Proof using Type. intros H Hr Hz. destruct (co_fresh _ _ _ _ _ _ H Hz) as [-> _]. done. Qed.
Lemma new_copy_ok pid es first forked forks : (pid ≠ T → stamp es = Some (print_dec T) ∧ first = false) → copy_ok pid es first forked forks Copy_new.
Proof using HT. intros Hs. split; cbn; try done; [by left|]. intros. lia. Qed.
Lemma all_ready_stamp pid p : proc_ok pid p → all_ready p = true → Forall (λ c, g_target_ready c = true) (p_copies p) ∧ stamp (p_environ p) = Some (print_dec T).
Proof using Type.
  intros Hp Ha. assert (Forall (λ c, g_target_ready c = true) (p_copies p)) as Hf.
  { apply Forall_forall. intros c Hc. unfold all_ready in Ha. rewrite forallb_forall in Ha. by apply Ha, list_elem_of_In. }
  split; [done|]. pose proof (ba_copies _ _ (po_base _ _ Hp)) as Hc. pose proof (po_some _ _ Hp). destruct (p_copies p) as [|c l]; [done|].
  apply Forall_cons in Hc as [Hc _]. apply Forall_cons in Hf as [Hr _]. by apply (co_ready _ _ _ _ _ _ Hc).
Qed.

Definition moved (pid : Z) (p : Process) (r : bool) (p' : Process) : Prop :=
  proc_ok pid p' ∧ (pid ≠ T → r = false) ∧ ∀ reports, pid = T → winner p reports → winner p' ((if r then [T] else []) ++ reports).

Lemma moved_construct pid p i b p' :
  proc_ok pid p → can_init p = true → p_forks p = O ∨ (∀ c, p_copies p !! i = Some c → settled pid c) →
  in_copy (InitializeTargetScope 0 (setenv_ok b) (atfork_ok b)) pid i p = Some ((), p') →
  moved pid p false p' ∧ p_forks p' = p_forks p ∧ p_forked p' = p_forked p ∧ length (p_copies p') = length (p_copies p) ∧
  ∃ c', p_copies p' !! i = Some c' ∧ settled pid c'.
Proof using HT.
  intros Hp Hcan Hf E. apply in_copy_inv in E as (c & v' & Hi & E & ->).
  assert (p_forks p = O ∨ settled pid c) as Hf' by (destruct Hf as [?|Hf]; [by left|right; by apply Hf]).
  destruct (init_op pid p i c _ _ v' [] (po_base _ _ Hp) Hi Hcan Hf' E) as (es' & Ho & Hse & _ & _).
  split; [|split; [done|]; split; [done|]; split; [apply length_insert|]; exists (v_copy v'); split; [by eapply copies_put|done]].
  split; [by eapply put_ok|]. split; [done|]. intros reports -> Hw.
  by destruct (init_op T p i c _ _ v' reports (po_base _ _ Hp) Hi Hcan Hf' E) as (_ & _ & _ & _ & Hw'); apply Hw'.
Qed.

Lemma winner_copies p p' reports (f : Copy → Copy) :
  winner p reports → p_environ p' = p_environ p → p_copies p' = f <$> p_copies p → (∀ c, same_report c (f c)) → winner p' reports.
Proof using Type.
  intros [W1 W2 W3 W4] Ee Ec Hs. split; rewrite ?Ee, ?Ec.
  - intros Hn. destruct (W1 Hn) as [Hf Hr]. split; [|done]. apply Forall_fmap. eapply Forall_impl; [done|]. intros c Hc. cbn. by rewrite (proj1 (Hs c)).
  - intros i j ci cj (c1 & -> & H1)%list_lookup_fmap_Some (c2 & -> & H2)%list_lookup_fmap_Some P1 P2. rewrite (proj1 (Hs _)) in P1. rewrite (proj1 (Hs _)) in P2. by eapply W2.
  - apply Forall_fmap. eapply Forall_impl; [done|]. intros c Hc. cbn. destruct (Hs c) as (-> & -> & _). done.
  - destruct W4 as [?|[? Hf]]; [by left|]. right. split; [done|]. apply Forall_fmap. eapply Forall_impl; [done|]. intros c Hc. cbn.
    destruct (Hs c) as (-> & _ & ->). done.
Qed.

(** A fork: the handlers that prepare it leave copies that neither the parent
    nor the child mistakes. *)
Lemma prepare_ok pid es first forks c :
  copy_ok pid es first false forks c → copy_ok pid es first false (S forks) (prepare c) ∧ (settled pid c → settled pid (prepare c)).
Proof using Type.
  intros [H1 H2 H3 H4 H5 Hu H6]. unfold prepare, settled. destruct (g_target_guarded c) eqn:Eg.
  - split; [|cbn; rewrite Eg; auto]. split; cbn; rewrite ?Eg; try done.
    + intros Hz. destruct (H2 Hz) as [-> _]. done.
    + intros Hp Ht. destruct (H5 Hp Ht) as [?|[? _]]; [by left|done].
    + intros _ Hm _. specialize (H6 eq_refl Hm eq_refl). lia.
  - split; [split|]; try done; rewrite ?Eg; auto; done.
Qed.
Lemma child_ok pid child es first forks c :
  copy_ok pid es first false forks c → settled pid c → child ≠ T → copy_ok child es first true 0 (prepare c).
Proof using HT.
  intros [H1 H2 H3 H4 H5 Hu H6] Hs Hne. unfold prepare. split; try (by destruct (g_target_guarded c)).
  - intros Hz. destruct (g_target_guarded c) eqn:Eg; [destruct (H2 Hz) as [-> _]; done|]. destruct (H2 Hz) as [Ec Hst]. split; [done|]. intros _.
    apply Hst. intros ->. destruct (Hs eq_refl) as [?|Hm]; [congruence|]. by rewrite Ec in Hm.
  - intros Hr. assert (g_target_ready c = true) as Hr' by (by destruct (g_target_guarded c)). destruct (H4 Hr') as [? _]. split; [done|]. done.
  - intros _ Ht. assert (g_target_pid c = T) as Ht' by (by destruct (g_target_guarded c)).
    destruct (decide (g_mode c = kSuppressed)) as [Hm|Hm]; [left; by destruct (g_target_guarded c)|right]. split; [done|].
    destruct (decide (pid = T)) as [->|Hp]; [|by destruct (H5 Hp Ht') as [?|[? _]]].
    destruct (Hs eq_refl) as [Hg|?]; [|done]. rewrite Hg. cbn. specialize (H6 Hg Hm eq_refl). lia.
  - intros Hg. destruct (g_target_guarded c) eqn:Eg; [cbn in Hg; congruence|by apply Hu].
Qed.
Lemma finish_ok pid es first forks c :
  copy_ok pid es first false (S forks) c → copy_ok pid es first false forks (finish c) ∧ (settled pid c → settled pid (finish c)).
Proof using Type.
  intros [H1 H2 H3 H4 H5 Hu H6]. unfold finish, settled. destruct (g_target_guarded c) eqn:Eg.
  - split; [|cbn; rewrite Eg; auto]. split; cbn; rewrite ?Eg; try done.
    + intros Hz. destruct (H2 Hz) as [-> _]. done.
    + intros Hp Ht. destruct (H5 Hp Ht) as [?|[? _]]; [by left|done].
    + intros _ Hm _. specialize (H6 eq_refl Hm eq_refl). lia.
  - split; [split|]; try done; rewrite ?Eg; auto; done.
Qed.
Lemma suppress_ok pid es first c : copy_ok pid es first true 0 c → copy_ok pid es first false 0 (suppress c).
Proof using Type.
  intros [H1 H2 H3 H4 H5 Hu H6]. unfold suppress. destruct (g_target_guarded c) eqn:Eg.
  - split; cbn; rewrite ?Eg; try done.
    + intros Hz. destruct (H2 Hz) as [-> _]. done.
    + intros Hm. split; [done|]. by apply H3.
    + by left.
  - split; try done; rewrite ?Eg; try done. intros Hp Ht. destruct (H5 Hp Ht) as [?|[_ Hd]]; [by left|]. by rewrite Hu in Hd.
Qed.

Lemma moved_op {A} (m : prog View A) pid p i (r : A) p' (rep : A → bool) :
  proc_ok pid p → in_copy m pid i p = Some (r, p') →
  (∀ c v' reports, p_copies p !! i = Some c → m (view_of pid c p) = Ret r v' →
    ∃ es', op_ok pid p c v' es' ∧ (pid ≠ T → rep r = false) ∧
      (pid = T → winner p reports → winner (put_view i v' p) ((if rep r then [T] else []) ++ reports))) →
  moved pid p (rep r) p'.
Proof using Type.
  intros Hp E Hop. apply in_copy_inv in E as (c & v' & Hi & E & ->). destruct (Hop c v' [] Hi E) as (es' & Ho & Hr & _).
  split; [by eapply put_ok|]. split; [done|]. intros reports Ht Hw. destruct (Hop c v' reports Hi E) as (_ & _ & _ & Hw'). by apply Hw'.
Qed.

Lemma winner_new_copy p p' reports :
  winner p reports → p_environ p' = p_environ p → p_copies p' = p_copies p ++ [Copy_new] → winner p' reports.
Proof using Type.
  intros [W1 W2 W3 W4] Ee Ec. split; rewrite ?Ee, ?Ec.
  - intros Hn. destruct (W1 Hn). split; [|done]. apply Forall_app. split; [done|]. by constructor.
  - intros i j ci cj [Hi1|[_ Hi1]]%lookup_app_Some [Hj1|[_ Hj1]]%lookup_app_Some P1 P2; [by eapply W2|..].
    all: apply list_lookup_singleton_Some in Hi1 as [_ <-] || apply list_lookup_singleton_Some in Hj1 as [_ <-]; done.
  - apply Forall_app. split; [done|]. constructor; [by left|constructor].
  - destruct W4 as [?|[? ?]]; [by left|]. right. split; [done|]. apply Forall_app. split; [done|]. by constructor.
Qed.

Lemma moved_load pid p b p' :
  proc_ok pid p → p_forks p = O → p_published p = true → all_ready p = true →
  in_copy (InitializeTargetScope 0 (setenv_ok b) (atfork_ok b)) pid (length (p_copies p)) (p <| p_copies := p_copies p ++ [Copy_new] |>) = Some ((), p') →
  moved pid p false p'.
Proof using HT.
  intros Hp Hf0 Hpub Hall E. destruct (all_ready_stamp pid p Hp Hall) as [Hrdy Hst].
  apply in_copy_inv in E as (c & v' & Hi & E & ->). set (n := length (p_copies p)) in *. set (p0 := p <| p_copies := p_copies p ++ [Copy_new] |>) in *.
  assert (c = Copy_new) as -> by (cbn in Hi; rewrite lookup_app_r, Nat.sub_diag in Hi by done; by injection Hi).
  set (p1 := p0 <| p_first := false |>). pose proof (ba_copies _ _ (po_base _ _ Hp)) as Hcs.
  assert (base_ok pid p1) as Hb1.
  { split; [apply (ba_env _ _ (po_base _ _ Hp))|]. cbn. apply Forall_app. split; [|constructor; [by apply new_copy_ok|constructor]].
    apply Forall_forall. intros c Hc. rewrite Forall_forall in Hcs, Hrdy. eapply copy_ok_first; [by apply Hcs|]. eapply ready_known; [by apply Hcs|by apply Hrdy]. }
  destruct (init_op pid p1 n Copy_new _ _ v' [] Hb1 Hi ltac:(unfold can_init; cbn; by rewrite Hpub) ltac:(by left) E) as (es' & Ho & Hse & Hr & _).
  specialize (Hr Hpub). pose proof (put_environ _ _ _ _ _ n Ho) as Ee. change (p_environ (put_view n v' p1)) with (p_environ (put_view n v' p0)) in Ee.
  assert (<[n := v_copy v']> (p_copies p ++ [Copy_new]) = p_copies p ++ [v_copy v']) as Eapp by (unfold n; by rewrite insert_app_r_alt, Nat.sub_diag by done).
  split; [|split; [done|]].
  - destruct Hp as [P1 P2 P3 P4 P5]. split; cbn; rewrite ?Eapp.
    + destruct Ho as (_ & _ & He & Hs & Hc & _). split; rewrite ?Ee; cbn; rewrite ?Eapp; [done|]. apply Forall_app. split.
      * eapply Forall_impl; [done|]. intros c0 Hc0. by eapply copy_ok_env.
      * constructor; [|constructor]. eapply copy_ok_first; [done|]. by eapply ready_known.
    + by destruct (p_copies p).
    + intros _. apply Forall_app. split; [done|]. by constructor.
    + done.
    + done.
  - intros reports -> Hw. cbn [app].
    destruct (init_op T p1 n Copy_new _ _ v' reports Hb1 Hi ltac:(unfold can_init; cbn; by rewrite Hpub) ltac:(by left) E) as (_ & _ & _ & _ & Hw').
    specialize (Hw' eq_refl (winner_new_copy p p1 reports Hw eq_refl eq_refl)). destruct Hw' as [W1 W2 W3 W4]. by split.
Qed.

Lemma all_settled pid p i c : proc_ok pid p → p_copies p !! i = Some c → settled pid c → Forall (settled pid) (p_copies p).
Proof using Type.
  intros Hp Hi Hs. destruct (decide (1 < length (p_copies p))%nat) as [Hl|Hl].
  - apply Forall_forall. intros c0 Hc0. pose proof (po_many _ _ Hp Hl) as Hr. pose proof (ba_copies _ _ (po_base _ _ Hp)) as Hc.
    rewrite Forall_forall in Hr, Hc. eapply ready_settled; [by apply Hc|by apply Hr].
  - destruct (p_copies p) as [|c0 [|]]; cbn in Hl; [done| |lia]. destruct i; [|done]. injection Hi as ->. by constructor.
Qed.

(** A fork first initializes the copy it is called in. *)
Lemma fork_settled pid p i b child r p' :
  proc_ok pid p → move_process (Fork pid i b child) p = Some (r, p') →
  ∃ p1, moved pid p false p1 ∧ p_forked p1 = false ∧ Forall (settled pid) (p_copies p1) ∧ r = false ∧
    p' = p1 <| p_copies := prepare <$> p_copies p1 |> <| p_forks := S (p_forks p1) |>.
Proof using HT.
  intros Hp E. cbn [move_process] in E. destruct (p_forked p) eqn:Efk; [done|]. destruct (can_init p) eqn:Ecan; [|done]. cbn [orb negb] in E.
  destruct (p_copies p !! i) as [c|] eqn:Hi; [|done]. cbn [mbind option_bind] in E. destruct (g_target_ready c) eqn:Er.
  - injection E as <- <-. exists p. split; [by split|]. split; [done|]. split; [|done]. eapply all_settled; [done..|].
    eapply ready_settled; [|done]. by apply (Forall_lookup_1 _ _ _ _ (ba_copies _ _ (po_base _ _ Hp)) Hi).
  - destruct (in_copy _ pid i p) as [[[] p1]|] eqn:Ein; [|done]. injection E as <- <-. exists p1.
    destruct (moved_construct pid p i b p1 Hp Ecan) as (Hm & Hf & Hfk & Hlen & c' & Hi' & Hs'); [|done|].
    { destruct (decide (p_forks p = O)) as [|Hnz]; [by left|right]. intros c0 Hc0. by eapply Forall_lookup_1 in Hc0; [|by apply (po_forks _ _ Hp)]. }
    split; [done|]. split; [congruence|]. split; [|done]. eapply all_settled; [apply Hm|done|done].
Qed.

(** What it leaves of the parent, and what it gives the child. *)
Lemma moved_fork pid p i b child r p' :
  proc_ok pid p → move_process (Fork pid i b child) p = Some (r, p') → child ≠ T →
  moved pid p r p' ∧ proc_ok child (p' <| p_forks := 0%nat |> <| p_forked := true |>).
Proof using HT.
  intros Hp E Hne. destruct (fork_settled pid p i b child r p' Hp E) as (p1 & Hm & Hfk & Hset & -> & ->).
  destruct Hm as (Hp1 & _ & Hw). destruct Hp1 as [[B1 B2] P2 P3 P4 P5].
  assert (∀ c, g_target_ready (prepare c) = g_target_ready c) as Hpr by (intros c0; unfold prepare; by destruct (g_target_guarded c0)).
  rewrite Hfk in *. split; [split; [|split; [done|]]|].
  - split; cbn; rewrite ?Hfk; try done.
    + split; cbn; [done|]. rewrite ?Hfk. apply Forall_fmap. eapply Forall_impl; [exact B2|]. intros c0 Hc0. by apply prepare_ok.
    + intros E0. by apply fmap_nil_inv in E0.
    + rewrite length_fmap. intros Hl. apply Forall_fmap. eapply Forall_impl; [by apply P3|]. intros c0 Hc0. cbn. by rewrite Hpr.
    + intros _. apply Forall_fmap. apply Forall_forall. intros c0 Hc0. rewrite Forall_forall in B2, Hset. by apply (prepare_ok _ _ _ _ _ (B2 _ Hc0)), Hset.
  - intros reports -> HW. cbn [app]. eapply (winner_copies p1 _ _ prepare); [by apply Hw|done|done|].
    intros c0. unfold prepare. by destruct (g_target_guarded c0).
  - split; cbn; try done.
    + split; cbn; [done|]. apply Forall_fmap. apply Forall_forall. intros c0 Hc0. rewrite Forall_forall in B2, Hset. eapply child_ok; [by apply B2|by apply Hset|done].
    + intros E0. by apply fmap_nil_inv in E0.
    + rewrite length_fmap. intros Hl. apply Forall_fmap. eapply Forall_impl; [by apply P3|]. intros c0 Hc0. cbn. by rewrite Hpr.
Qed.

Lemma moved_finish pid p n : proc_ok pid p → p_forks p = S n → moved pid p false (p <| p_copies := finish <$> p_copies p |> <| p_forks := n |>).
Proof using Type.
  intros [[B1 B2] P2 P3 P4 P5] En. assert (p_forked p = false) as Hfk by (destruct (p_forked p); [destruct (P5 eq_refl); lia|done]).
  rewrite Hfk, En in *. assert (∀ c, g_target_ready (finish c) = g_target_ready c) as Hpr by (intros c; unfold finish; by destruct (g_target_guarded c)).
  split; [|split; [done|]].
  - split; cbn; rewrite ?Hfk; try done.
    + split; cbn; [done|]. rewrite ?Hfk. apply Forall_fmap. eapply Forall_impl; [exact B2|]. intros c Hc. by apply finish_ok.
    + intros E. by apply fmap_nil_inv in E.
    + rewrite length_fmap. intros Hl. apply Forall_fmap. eapply Forall_impl; [by apply P3|]. intros c Hc. cbn. by rewrite Hpr.
    + intros _. apply Forall_fmap, Forall_forall. intros c Hc. specialize (P4 ltac:(done)). rewrite Forall_forall in B2, P4. by apply (finish_ok _ _ _ _ _ (B2 _ Hc)), P4.
  - intros reports -> Hw. eapply (winner_copies p _ _ finish); [done..|]. intros c. unfold finish. by destruct (g_target_guarded c).
Qed.
Lemma moved_suppress pid p : proc_ok pid p → p_forked p = true → moved pid p false (p <| p_copies := suppress <$> p_copies p |> <| p_forked := false |>).
Proof using Type.
  intros [[B1 B2] P2 P3 P4 P5] Hfk. destruct (P5 Hfk) as [Hne H0]. rewrite Hfk, H0 in *.
  assert (∀ c, g_target_ready (suppress c) = g_target_ready c) as Hpr by (intros c; unfold suppress; by destruct (g_target_guarded c)).
  split; [|split; [done|by intros reports ->]]. split; cbn; rewrite ?H0; try done.
  - split; cbn; [done|]. rewrite ?H0. apply Forall_fmap. eapply Forall_impl; [exact B2|]. intros c Hc. by apply suppress_ok.
  - intros E. by apply fmap_nil_inv in E.
  - rewrite length_fmap. intros Hl. apply Forall_fmap. eapply Forall_impl; [by apply P3|]. intros c Hc. cbn. by rewrite Hpr.
Qed.
Lemma moved_exec pid p :
  proc_ok pid p → all_ready p = true →
  moved pid p false (p <| p_copies := [Copy_new] |> <| p_published := false |> <| p_first := false |> <| p_forks := 0%nat |> <| p_forked := false |>).
Proof using HT.
  intros Hp Ha. destruct (all_ready_stamp pid p Hp Ha) as [_ Hst]. split; [|split; [done|]].
  - split; cbn; try done; [|lia]. split; cbn; [apply (ba_env _ _ (po_base _ _ Hp))|]. constructor; [by apply new_copy_ok|constructor].
  - intros reports -> [W1 W2 W3 W4]. split; cbn.
    + intros Hn. destruct (W1 Hn). split; [|done]. by constructor.
    + intros i j ci cj Hi Hj P1 P2. by apply list_lookup_singleton_Some in Hi as [_ <-].
    + constructor; [by left|constructor].
    + destruct W4 as [?|[? _]]; [by left|right]. split; [done|]. by constructor.
Qed.

Lemma moved_process m p r p' : proc_ok (move_pid m) p → move_process m p = Some (r, p') → (∀ pid i b child, m = Fork pid i b child → child ≠ T) → moved (move_pid m) p r p'.
Proof using HT.
  intros Hp E Hfork. destruct m as [pid|pid i|pid i b|pid b|pid i b child|pid|pid|pid|pid i started|pid i|pid]; cbn [move_pid] in *.
  - injection E as <- <-. split; [|split; [done|]].
    + destruct Hp as [[B1 B2] P2 P3 P4 P5]. by split.
    + intros reports -> [W1 W2 W3 W4]. by split.
  - cbn in E. destruct (in_copy _ pid i p) as [[m p1]|] eqn:Ein; [|done]. injection E as <- <-.
    apply (moved_op _ pid p i m p1 (λ _, false) Hp Ein). intros c v' reports Hi Ev. rewrite CurrentMode_eq in Ev. destruct (current (view_of pid c p)) as [m' v1] eqn:Ec.
    injection Ev as <- <-. destruct (current_op pid p i c m' v1 (po_base _ _ Hp) Hi Ec) as (Ho & Hs & _). exists (p_environ p). split; [done|].
    split; [done|]. intros -> Hw. by eapply put_winner.
  - cbn in E. destruct (p_forks p =? 0)%nat eqn:Ef; [|done]. destruct (can_init p) eqn:Ecan; [|done]. cbn in E.
    destruct (in_copy _ pid i p) as [[[] p1]|] eqn:Ein; [|done]. injection E as <- <-. apply Nat.eqb_eq in Ef.
    apply (moved_construct pid p i b p1 Hp Ecan); [by left|done].
  - cbn [move_process] in E. destruct (negb _ || _ || _) eqn:Ec; [done|]. apply orb_false_iff in Ec as [Ec E3]. apply orb_false_iff in Ec as [E1 E2].
    apply negb_false_iff in E1, E2, E3. apply Nat.eqb_eq in E1. destruct (in_copy _ pid _ _) as [[[] p1]|] eqn:Ein; [|done]. injection E as <- <-. by eapply moved_load.
  - by eapply moved_fork; [..|eapply Hfork].
  - cbn in E. destruct (p_forks p) as [|n] eqn:En; [done|]. injection E as <- <-. by apply moved_finish.
  - cbn in E. destruct (p_forked p) eqn:En; [|done]. injection E as <- <-. by apply moved_suppress.
  - cbn in E. destruct (all_ready p) eqn:Ea; [|done]. injection E as <- <-. by apply moved_exec.
  - cbn in E. destruct (in_copy _ pid i p) as [[m p1]|] eqn:Ein; [|done]. injection E as <- <-.
    apply (moved_op _ pid p i m p1 (λ _, false) Hp Ein). intros c v' reports Hi Ev.
    destruct (start_op pid p i c started m v' reports (po_base _ _ Hp) Hi Ev) as (es' & Ho & Hw). by exists es'.
  - cbn [move_process] in E. apply (moved_op _ pid p i r p' (λ r, r) Hp E). intros c v' reports Hi Ev.
    destruct (report_op pid p i c r v' reports (po_base _ _ Hp) Hi Ev) as (es' & Ho & Hr & Hw). by exists es'.
  - done.
Qed.

(** ** The tree *)

Record tree_ok (t : Tree) : Prop := {
  to_procs pid p : t_procs t !! pid = Some p → proc_ok pid p;
  to_used : T ∈ t_used t;
  to_winner p : t_procs t !! T = Some p → winner p (t_reports t);
  to_reports : t_reports t = [] ∨ t_reports t = [T];
}.

Lemma tree_init_ok environ : stamp environ = None → primary environ = None → tree_ok (tree_init T environ).
Proof using HT.
  intros Hs Hp. split; cbn; [| |intros p [_ <-]%lookup_singleton_Some|by left].
  - intros pid p [<- <-]%lookup_singleton_Some. split; cbn; try done; [|lia]. split; cbn; [split; by left|]. constructor; [by apply new_copy_ok|constructor].
  - set_solver.
  - split; cbn; [|intros i j ci cj [_ <-]%list_lookup_singleton_Some; done|constructor; [by left|constructor]|by left].
    intros _. split; [|done]. by constructor.
Qed.

Lemma update_ok t pid p p' r :
  tree_ok t → t_procs t !! pid = Some p → moved pid p r p' →
  tree_ok (t <| t_procs := <[pid := p']> (t_procs t) |> <| t_reports := (if r then [pid] else []) ++ t_reports t |>).
Proof using Type.
  intros [H1 H2 H3 H4] Hp (Hok & Hr & Hw). assert ((if r then [pid] else []) = (if r then [T] else [])) as Er.
  { destruct (decide (pid = T)) as [->|Hne]; [done|]. by rewrite Hr. }
  rewrite Er. assert (pid ≠ T → r = false) by done. split; cbn; try done.
  - intros q p0 [[<- <-]|[_ Hq]]%lookup_insert_Some; [done|by apply H1].
  - intros p0 [[-> <-]|[Hne Hq]]%lookup_insert_Some; [by apply Hw, H3|]. rewrite Hr by done. by apply H3.
  - destruct (decide (pid = T)) as [->|Hne]; [|rewrite Hr by done; done]. specialize (Hw (t_reports t) eq_refl (H3 p Hp)).
    destruct (wi_reports _ _ Hw) as [?|[? _]]; [by left|by right].
Qed.

Lemma add_child_ok m t p p' t' :
  tree_ok t → add_child m p t = Some t' →
  (∀ pid i b child, m = Fork pid i b child → child ≠ T → proc_ok child (p <| p_forks := 0%nat |> <| p_forked := true |>)) → p' = p → tree_ok t'.
Proof using HT.
  intros Hok E Hc ->. destruct m as [| | | |pid i b child| | | | | |]; cbn in E; try (by injection E as <-).
  case_bool_decide as Hu; [done|]. destruct (negb _); [done|]. injection E as <-. pose proof (to_used _ Hok) as HTu.
  assert (child ≠ T) as Hne by (by intros ->). destruct Hok as [H1 H2 H3 H4]. split; cbn; try done.
  - intros q p0 [[<- <-]|[_ Hq]]%lookup_insert_Some; [by eapply Hc|by apply H1].
  - set_solver.
  - intros p0 [[? _]|[_ Hq]]%lookup_insert_Some; [done|by apply H3].
Qed.

Lemma stepped_ok m t p r p' t' :
  tree_ok t → t_procs t !! move_pid m = Some p → move_process m p = Some (r, p') →
  add_child m p' (t <| t_procs := <[move_pid m := p']> (t_procs t) |> <| t_reports := (if r then [move_pid m] else []) ++ t_reports t |>) = Some t' →
  tree_ok t'.
Proof using HT.
  intros Hok Hp Em Ea. pose proof (to_procs _ Hok _ _ Hp) as Hpr.
  assert (∀ pid i b child, m = Fork pid i b child → child ≠ T) as Hfork.
  { intros pid i b child ->. cbn in Ea. case_bool_decide as Hu; [done|]. intros ->. cbn in Hu. by destruct (Hu (to_used _ Hok)). }
  eapply add_child_ok; [eapply update_ok; [done|done|by eapply moved_process]|exact Ea| |done].
  intros pid i b child -> Hne. by destruct (moved_fork pid p i b child r p' Hpr Em Hne).
Qed.

Lemma tree_move_ok m t t' : tree_ok t → tree_move m t = Some t' → tree_ok t'.
Proof using HT.
  intros Hok E. unfold tree_move in E. destruct (t_procs t !! move_pid m) as [p|] eqn:Hp; [|done]. cbn [mbind option_bind] in E.
  assert (∀ f, move_process m p ≫= f = Some t' → (∀ r p', f (r, p') =
    add_child m p' (t <| t_procs := <[move_pid m := p']> (t_procs t) |> <| t_reports := (if r : bool then [move_pid m] else []) ++ t_reports t |>)) → tree_ok t') as Hstep.
  { intros f Ef Hf. destruct (move_process m p) as [[r p']|] eqn:Em; [|done]. cbn in Ef. rewrite Hf in Ef. by eapply stepped_ok. }
  destruct m; try (eapply Hstep; [exact E|done]). injection E as <-. destruct Hok as [H1 H2 H3 H4]. split; cbn; try done.
  - intros q p0 [_ Hq]%lookup_delete_Some. by apply H1.
  - intros p0 [_ Hq]%lookup_delete_Some. by apply H3.
Qed.
Lemma tree_moves_ok ms : ∀ t t', tree_ok t → tree_moves ms t = Some t' → tree_ok t'.
Proof using HT.
  induction ms as [|m ms IH]; intros t t' Hok E; cbn in E; [by injection E as <-|]. destruct (tree_move m t) as [t1|] eqn:E1; [|done]. cbn in E.
  eapply IH; [|done]. by eapply tree_move_ok.
Qed.
End scope.


(** C31. The tree of processes reports at most once, and it is the target that
    does: whatever the processes do, with however many copies of the library
    loaded in the target, and however often the exit handler and the destructor
    of each of them run. *)
Theorem at_most_one_report T environ ms t :
  0 < T ≤ PID_MAX → getenv_in environ kTargetPidEnv = None → getenv_in environ kPrimaryPidEnv = None →
  tree_moves ms (tree_init T environ) = Some t → t_reports t = [] ∨ t_reports t = [T].
Proof.
  intros HT Hs Hpr Hms. by apply (to_reports T t (tree_moves_ok T HT ms _ _ (tree_init_ok T HT environ Hs Hpr) Hms)).
Qed.

(** A target that samples, forks, and exits twice over. *)
Definition example_environ : list string := ["ALLOC_HOOK_PEAK_SAMPLE_MS=10"].
Definition ok : Answers := mkAnswers true true.
Definition example_forks : list Move :=
  [Publish 100; Call 100 0; Construct 100 0 ok; Start 100 0 true; Fork 100 0 ok 200; Call 200 0; ForkedInParent 100; ForkedInChild 200;
   LoadCopy 100 ok; Start 100 1 true; AtExit 200 0; AtExit 100 1; AtExit 100 0; AtExit 100 0].


Lemma at_most_one_report_witness :
  ∃ t, tree_moves example_forks (tree_init 100 example_environ) = Some t ∧ t_reports t = [100].
Proof.
  assert (∃ t, tree_moves example_forks (tree_init 100 example_environ) = Some t ∧ t_reports t ≠ []) as (t & Et & Hne)
    by (eexists; split; [vm_compute; reflexivity|done]).
  exists t. split; [exact Et|]. destruct (at_most_one_report 100 example_environ example_forks t) as [E|E]; [unfold PID_MAX; lia|reflexivity|reflexivity|exact Et| |exact E].
  by destruct (Hne E).
Defined.

(** A target that replaces its program loses its report. The pid is the
    same, so the new program is still the target, and it still finds the mode
    that samples; but the stamp of the election is also there, left by the copy
    of the old program, and the only copy takes itself for a second one: it does
    not start the sampler and reports nothing. Without the [Exec] the same moves
    report. *)
Theorem exec_silences_target :
  let before := [Publish 100; Construct 100 0 ok] in
  let after := [Publish 100; Construct 100 0 ok; Start 100 0 true; AtExit 100 0] in
  (∃ t p c v', tree_moves (before ++ [Exec 100] ++ after) (tree_init 100 example_environ) = Some t ∧ t_reports t = [] ∧
    t_procs t !! 100 = Some p ∧ p_copies p = [c] ∧ IsTargetProcess 0 (view_of 100 c p) = Ret true v' ∧ g_mode c = kBypass ∧ g_primary c = 0) ∧
  (∃ t, tree_moves (before ++ after) (tree_init 100 example_environ) = Some t ∧ t_reports t = [100]).
Proof.
  split.
  - do 4 eexists. split; [vm_compute; reflexivity|]. split; [reflexivity|]. split; [vm_compute; reflexivity|]. split; [reflexivity|].
    split; [vm_compute; reflexivity|]. split; reflexivity.
  - eexists. split; [vm_compute; reflexivity|reflexivity].
Qed.

(** ** Two threads elect *)

(** [IsPrimary] in a thread, one access to what the threads share at a time:
    [g_primary], and whether the environment has the stamp of the process. *)
Inductive Elect := Ask | Look | Stamp | Decide (primary : bool) | Answer (primary : bool).
Record Election := mkElection { el_primary : Z; el_stamped : bool; el_threads : list Elect }.
Definition elect_step (th : Elect) (known : Z) (stamped : bool) : Elect * Z * bool :=
  match th with
  | Ask => (if known >=? 0 then Answer (known =? 1) else Look, known, stamped)
  | Look => (if stamped then Decide false else Stamp, known, stamped)
  | Stamp => (Decide true, known, true)
  | Decide primary =>
      if known =? -1 then (Answer primary, if primary then 1 else 0, stamped) else (Answer (known =? 1), known, stamped)
  | Answer primary => (th, known, stamped)
  end.
Definition elect (e : Election) (i : nat) : Election :=
  match el_threads e !! i with
  | Some th =>
      let '(th, known, stamped) := elect_step th (el_primary e) (el_stamped e) in
      mkElection known stamped (<[i := th]> (el_threads e))
  | None => e
  end.

Definition agreed (e : Election) : Prop :=
  (el_primary e = -1 ∨ el_primary e = 0 ∨ el_primary e = 1) ∧ ∀ i b, el_threads e !! i = Some (Answer b) → el_primary e = if b : bool then 1 else 0.
Lemma agreed_put e i th known stamped :
  agreed e → known = el_primary e ∨ (el_primary e = -1 ∧ (known = 0 ∨ known = 1)) → (∀ b : bool, th = Answer b → known = if b then 1 else 0) →
  agreed (mkElection known stamped (<[i := th]> (el_threads e))).
Proof.
  intros [H1 H2] Hk Hb. split; cbn; [destruct Hk as [->|[_ ?]]; [done|by right]|]. intros j b Hj. destruct (decide (j = i)) as [->|Hne].
  - destruct (decide (i < length (el_threads e))%nat); [|rewrite list_insert_ge in Hj by lia; by apply lookup_lt_Some in Hj].
    rewrite list_lookup_insert_eq in Hj by done. injection Hj as ->. by apply Hb.
  - rewrite list_lookup_insert_ne in Hj by done. specialize (H2 j b Hj). destruct Hk as [->|[Hm _]]; [done|]. destruct b; lia.
Qed.
Lemma elect_agreed e i : agreed e → agreed (elect e i).
Proof.
  intros He. unfold elect. destruct (el_threads e !! i) as [th|] eqn:Ei; [|done]. pose proof He as [H1 H2].
  assert (∀ b : bool, 0 ≤ el_primary e → b = (el_primary e =? 1) → el_primary e = if b then 1 else 0) as Hdone.
  { intros b Hk ->. destruct (Z.eqb_spec (el_primary e) 1); lia. }
  destruct th as [| | |primary|primary]; cbn.
  - destruct (Z.geb_spec (el_primary e) 0); apply agreed_put; try done; [by left|intros b [= <-]; by apply Hdone|by left].
  - destruct (el_stamped e); apply agreed_put; by try left.
  - apply agreed_put; by try left.
  - destruct (Z.eqb_spec (el_primary e) (-1)) as [Hm|Hm]; apply agreed_put; try done.
    + right. split; [done|]. destruct primary; [by right|by left].
    + by intros b [= <-].
    + by left.
    + intros b [= <-]. apply Hdone; [lia|done].
  - apply agreed_put; [done|by left|]. intros b [= <-]. by apply (H2 i).
Qed.
Lemma elect_all order : ∀ e, agreed e → agreed (fold_left elect order e).
Proof. induction order as [|i order IH]; intros e He; [done|]. cbn. apply IH. by apply elect_agreed. Qed.

(** The threads of a copy agree on its election, whatever their order: every
    answer is what [g_primary] says. But they may agree that the only copy is
    not the primary one: a thread that looks after another has stamped the
    environment, and before that one has latched its decision, takes the stamp
    for that of another copy, and its decision may be the one that is latched. *)
Theorem election_agrees threads order :
  let e := fold_left elect order (mkElection (-1) false (replicate threads Ask)) in
  (∀ i b, el_threads e !! i = Some (Answer b) → el_primary e = if b then 1 else 0) ∧
  el_threads (fold_left elect [0; 0; 0; 1; 1; 1; 0]%nat (mkElection (-1) false [Ask; Ask])) = [Answer false; Answer false].
Proof.
  cbv zeta. split; [|done]. apply elect_all. split; [by left|]. cbn. intros i b [? _]%lookup_replicate. done.
Qed.
