(* ===== verification/Interpose.v ===== *)
(** * The interposed functions

    src/alloc_hook.cpp: every exported function of the allocation family, and
    which of the tracker, libc, the kernel and the early allocator serves it.
    Looking up a symbol and building the tracker call back into these functions;
    [hook] nests them to a given depth.  What is outside (the loader, libc, the
    tracker of HookCalls.v) answers as a function of all that happened before. *)
From S2P Require Import Prelude CString Outcome HookCalls AsyncStack Bootstrap.

(** ** Symbols and calls *)

Inductive Sym :=
  | sym_malloc | sym_free | sym_calloc | sym_realloc | sym_memalign | sym_aligned_alloc | sym_posix_memalign
  | sym_mmap | sym_munmap | sym_mremap | sym_mmap64 | sym_mallopt | sym_fdsan_close | sym_fork.
#[global] Instance Sym_eq_dec : EqDecision Sym.
Proof. solve_decision. Defined.

Inductive Call :=
  | Malloc (size : Z)
  | Free (ptr : Z)
  | Calloc (a b : Z)
  | Realloc (ptr size : Z)
  | AlignedAlloc (alignment size : Z)
  | Memalign (alignment bytes : Z)
  | PosixMemalign (ptr alignment size : Z)
  | Mmap (addr size prot flags fd offset caller : Z)
  | Munmap (addr size : Z)
  | Mremap (old_addr old_size new_size flags new_addr : Z)
  | Mmap64 (addr size prot flags fd offset caller : Z)
  | Ioctl (fd request arg : Z)
  | Close (fd : Z)
  | FdsanClose (fd tag : Z).
(** What happens outside: a look-up of a symbol, by [RTLD_NEXT] or in libc, which
    is opened and closed for it; the construction of the tracker; a call of a
    function of libc, of the tracker, or of the kernel; the call of [mallopt] that
    turns heap tagging off; the part of [InitializeTargetScope] in ObserveOnly.v,
    which changes the environment; the real [fork]. *)
Inductive Event := LookUp (s : Sym) | OpenLibc | LookUpLibc (s : Sym) | CloseLibc | Construct | Real (c : Call) | Tracked (c : Call) | Kernel (c : Call) | Mallopt | TargetProcess | RealFork.

Inductive TrackerState := NotBuilt | Building | Built.
#[global] Instance TrackerState_eq_dec : EqDecision TrackerState.
Proof. solve_decision. Defined.

(** An event with the state of the hooks when it happened. *)
Record Entry := mkEntry { en_event : Event; en_setup : bool; en_resolving : bool; en_preinit : bool; en_tracker : TrackerState }.

Record Hooks := mkHooks {
  allocHook_setup : bool;
  g_resolving_symbols : bool;
  in_preinit_phase : bool;
  m_sys : list Sym;
  hk_tracker : TrackerState;
  g_libc_range : Z * Z;
  hk_boot : Boot;
  hk_trace : list Entry;
}.
#[global] Instance Hooks_upd : Updatable Hooks := λ h,
  mkHooks (allocHook_setup h) (g_resolving_symbols h) (in_preinit_phase h) (m_sys h) (hk_tracker h) (g_libc_range h) (hk_boot h) (hk_trace h).
Definition Hooks_new : Hooks := mkHooks false false true [] NotBuilt (0, 0) Boot_new [].

(** ** The range of libc *)

Definition range_valid (r : Z * Z) : bool := r.1 <? r.2.
Definition range_contains (r : Z * Z) (address : Z) : bool := (r.1 <=? address) && (address <? r.2).
Definition base_name (path : string) : string := match strrchr path "/" with None => path | Some i => sdrop (S i) path end.
Fixpoint libc_span (dlpi_addr : Z) (phdrs : list Phdr) (span : Z * Z) : Z * Z :=
  match phdrs with
  | [] => span
  | ph :: phdrs =>
      if negb (p_type ph =? PT_LOAD) || (p_memsz ph =? 0) then libc_span dlpi_addr phdrs span
      else
        let seg_begin := dlpi_addr ⊞ p_vaddr ph in
        let seg_end := seg_begin ⊞ p_memsz ph in
        libc_span dlpi_addr phdrs (if seg_begin <? span.1 then seg_begin else span.1, if seg_end >? span.2 then seg_end else span.2)
  end.
(** [Some] stops the iteration over the modules. *)
Definition CollectLibcRange (info : dl_phdr_info) : option (Z * Z) :=
  match dlpi_name info with
  | None => None
  | Some name =>
      if negb (String.eqb (base_name name) "libc.so") then None
      else
        let span := libc_span (dlpi_addr info) (dlpi_phdr info) (UINTPTR_MAX, 0) in
        if span.1 <? span.2 then Some span else None
  end.

(** ** What is outside *)

(** Given the events so far, the last one first: the answer to the last one (the
    value returned, and what it stored through a pointer), whether it found a
    symbol or opened libc, the interposed functions it called meanwhile, whether
    [observe_only::Bypassed()] and [observe_only::CurrentMode() == kTrack] hold,
    and the modules loaded. *)
Record Outside := mkOutside {
  answer : list Entry → Z * Z;
  found : list Entry → bool;
  calls_back : list Entry → list Call;
  bypassed : list Entry → bool;
  tracking : list Entry → bool;
  loaded : list dl_phdr_info;
  android : bool;
  api_level : Z;
  os_page_size : Z;
  os_mmap : gmap Z Z → Z → Z + Z;
}.

Section hooks.
Context (out : Outside).

Definition Bypassed : prog Hooks bool := h ← get; mret (bypassed out (hk_trace h)).
Definition entry (e : Event) (h : Hooks) : Entry :=
  mkEntry e (allocHook_setup h) (g_resolving_symbols h) (in_preinit_phase h) (hk_tracker h).
Definition record (e : Event) : prog Hooks unit := modify (λ h, h <| hk_trace := entry e h :: hk_trace h |>).
Definition outcome_of (e : Event) : prog Hooks (Z * Z) := record e;; h ← get; mret (answer out (hk_trace h)).
Definition libc_call (c : Call) : prog Hooks (Z * Z) := outcome_of (Real c).
Definition kernel_call (c : Call) : prog Hooks (Z * Z) := outcome_of (Kernel c).
Definition boot (m : prog Boot Z) : prog Hooks (Z * Z) :=
  r ← zoom hk_boot (λ b h, h <| hk_boot := b |>) m; mret (r, 0).
Definition is_bootstrap (ptr : Z) : prog Hooks bool := zoom hk_boot (λ b h, h <| hk_boot := b |>) (IsBootstrapPointer ptr).

Definition saved_errno : prog Hooks Z := h ← get; mret (errno (hk_boot h)).
Definition restore_errno (e : Z) : prog Hooks unit := boot (Bootstrap.set_errno e;; mret 0);; mret ().

Definition resolved (s : Sym) (h : Hooks) : bool := bool_decide (s ∈ m_sys h).
Definition set_setup (b : bool) : prog Hooks unit := modify (λ h, h <| allocHook_setup := b |>).

(** The walk over the modules stops at the first that answers. *)
Fixpoint iterate_phdr (modules : list dl_phdr_info) (range : Z * Z) : Z * Z :=
  match modules with
  | [] => range
  | info :: modules => match CollectLibcRange info with Some span => span | None => iterate_phdr modules range end
  end.
Definition CacheLibcRange : prog Hooks unit :=
  modify (λ h, if range_valid (g_libc_range h) then h else h <| g_libc_range := iterate_phdr (loaded out) (g_libc_range h) |>).
Definition ShouldBypassLibcInternalMmap (caller : Z) : prog Hooks bool :=
  CacheLibcRange;; h ← get; mret (range_valid (g_libc_range h) && range_contains (g_libc_range h) caller).

(** The functions below call back into [self]. *)
Section self.
Variable self : Call → prog Hooks (Z * Z).

Fixpoint run_calls (calls : list Call) : prog Hooks unit :=
  match calls with [] => mret () | c :: calls => self c;; run_calls calls end.
(** An event during which the interposed functions are called. *)
Definition extern (e : Event) : prog Hooks bool :=
  record e;; h ← get; run_calls (calls_back out (hk_trace h));; mret (found out (hk_trace h)).

(** [dlsym(RTLD_NEXT)], and libc itself when that finds nothing. *)
Definition find_symbol (s : Sym) : prog Hooks bool :=
  addr ← extern (LookUp s);
  if addr : bool then mret true
  else
    handle ← extern OpenLibc;
    if handle : bool then addr ← extern (LookUpLibc s); extern CloseLibc;; mret addr else mret false.
Definition ResolveLibcSymbol (s : Sym) : prog Hooks bool :=
  h ← get;
  if g_resolving_symbols h then mret false
  else
    modify (λ h, h <| g_resolving_symbols := true |>);;
    addr ← find_symbol s;
    modify (λ h, h <| g_resolving_symbols := false |>);;
    mret addr.
Definition RESOLVE (s : Sym) : prog Hooks unit :=
  h ← get;
  if resolved s h then mret ()
  else addr ← ResolveLibcSymbol s; if addr : bool then modify (λ h, h <| m_sys := s :: m_sys h |>) else mret ().
Definition allocation_symbols : list Sym :=
  [sym_malloc; sym_free; sym_calloc; sym_realloc; sym_memalign; sym_aligned_alloc; sym_posix_memalign; sym_mmap; sym_munmap; sym_mremap; sym_mmap64].
Fixpoint resolve_symbols (l : list Sym) : prog Hooks unit := match l with [] => mret () | s :: l => RESOLVE s;; resolve_symbols l end.
Definition ResolveAllLibcAllocationSymbols : prog Hooks unit := resolve_symbols allocation_symbols.
Definition DisableTrackingHeapTagging : prog Hooks unit :=
  if android out then addr ← ResolveLibcSymbol sym_mallopt; if addr : bool then outcome_of Mallopt;; mret () else mret () else mret ().

(** [AllocHook::inst()]: the first call constructs, one from within it hangs. *)
Definition AllocHook_construct : prog Hooks unit :=
  modify (λ h, h <| hk_tracker := Building |>);;
  set_setup true;;
  DisableTrackingHeapTagging;;
  ResolveAllLibcAllocationSymbols;;
  extern Construct;;
  CacheLibcRange;;
  set_setup false;;
  modify (λ h, h <| hk_tracker := Built |>).
Definition inst : prog Hooks unit :=
  h ← get;
  match hk_tracker h with Built => mret () | Building => undef Aborted | NotBuilt => AllocHook_construct end.
Definition tracked_call (c : Call) : prog Hooks (Z * Z) := inst;; outcome_of (Tracked c).

(** The conditions in front of the tracker. *)
Definition early (s : Sym) (h : Hooks) : bool := allocHook_setup h || g_resolving_symbols h || negb (resolved s h).
Definition not_tracked (s : Sym) : prog Hooks bool := h ← get; if early s h then mret true else Bypassed.
Definition not_tracked_map : prog Hooks bool := h ← get; if in_preinit_phase h || allocHook_setup h then mret true else Bypassed.

(** An allocation: [fallback] when libc's function is not there. *)
Definition allocation (c : Call) (s : Sym) (fallback : prog Hooks (Z * Z)) : prog Hooks (Z * Z) :=
  skip ← not_tracked s;
  if skip : bool then h ← get; if negb (resolved s h) then fallback else libc_call c
  else tracked_call c.
Definition einval : prog Hooks (Z * Z) := boot (Bootstrap.set_errno EINVAL;; mret 0).

Definition hook_malloc (size : Z) : prog Hooks (Z * Z) :=
  RESOLVE sym_malloc;; allocation (Malloc size) sym_malloc (boot (BootstrapMalloc (os_page_size out) (os_mmap out) size)).
Definition hook_free (ptr : Z) : prog Hooks (Z * Z) :=
  own ← is_bootstrap ptr;
  if own : bool then boot (BootstrapFree ptr;; mret 0)
  else RESOLVE sym_free;; allocation (Free ptr) sym_free (mret (0, 0)).
Definition hook_calloc (a b : Z) : prog Hooks (Z * Z) :=
  RESOLVE sym_calloc;; allocation (Calloc a b) sym_calloc (boot (BootstrapCalloc (os_page_size out) (os_mmap out) a b)).
Definition hook_realloc (ptr size : Z) : prog Hooks (Z * Z) :=
  bootstrap_ptr ← is_bootstrap ptr;
  RESOLVE sym_realloc;;
  h ← get;
  skip ← (if early sym_realloc h || bootstrap_ptr then mret true else Bypassed);
  if skip : bool then
    h ← get;
    if negb (resolved sym_realloc h) || bootstrap_ptr then boot (BootstrapRealloc (os_page_size out) (os_mmap out) ptr size)
    else libc_call (Realloc ptr size)
  else tracked_call (Realloc ptr size).
Definition hook_aligned_alloc (alignment size : Z) : prog Hooks (Z * Z) :=
  RESOLVE sym_aligned_alloc;;
  allocation (AlignedAlloc alignment size) sym_aligned_alloc
    (if negb (IsPowerOfTwo alignment) || (alignment <? sizeof_ptr) || negb (size mod alignment =? 0) then einval
     else boot (BootstrapAlignedMalloc (os_page_size out) (os_mmap out) alignment size)).
Definition hook_memalign (alignment bytes : Z) : prog Hooks (Z * Z) :=
  RESOLVE sym_memalign;;
  allocation (Memalign alignment bytes) sym_memalign (boot (BootstrapAlignedMalloc (os_page_size out) (os_mmap out) alignment bytes)).
(** The pair is what is returned and what is stored. *)
Definition hook_posix_memalign (ptr alignment size : Z) : prog Hooks (Z * Z) :=
  RESOLVE sym_memalign;; RESOLVE sym_posix_memalign;;
  allocation (PosixMemalign ptr alignment size) sym_posix_memalign
    (if (ptr =? 0) || negb (IsPowerOfTwo alignment) || (alignment <? sizeof_ptr) || negb (alignment mod sizeof_ptr =? 0) then mret (EINVAL, 0)
     else
       r ← boot (BootstrapAlignedMalloc (os_page_size out) (os_mmap out) alignment size);
       mret (if negb (r.1 =? 0) then 0 else ENOMEM, r.1)).

(** Mappings go to libc, or to the kernel when it is not there. *)
Definition CallReal (c : Call) (s : Sym) : prog Hooks (Z * Z) :=
  RESOLVE s;; h ← get; if resolved s h then libc_call c else kernel_call c.
Definition CallRealMmap64 (addr size prot flags fd offset caller : Z) : prog Hooks (Z * Z) :=
  RESOLVE sym_mmap64;; h ← get;
  if resolved sym_mmap64 h then libc_call (Mmap64 addr size prot flags fd offset caller)
  else CallReal (Mmap addr size prot flags fd offset caller) sym_mmap.
Definition mapping (c : Call) (fd caller : Z) (real : prog Hooks (Z * Z)) : prog Hooks (Z * Z) :=
  skip ← not_tracked_map;
  if skip : bool then real
  else
    internal ← (if fd <? 0 then ShouldBypassLibcInternalMmap caller else mret false);
    if internal : bool then real else tracked_call c.
Definition unless_skipped (real : prog Hooks (Z * Z)) (c : Call) : prog Hooks (Z * Z) :=
  skip ← not_tracked_map; if skip : bool then real else tracked_call c.

Definition hook_mmap (addr size prot flags fd offset caller : Z) : prog Hooks (Z * Z) :=
  let c := Mmap addr size prot flags fd offset caller in mapping c fd caller (CallReal c sym_mmap).
Definition hook_munmap (addr size : Z) : prog Hooks (Z * Z) :=
  unless_skipped (CallReal (Munmap addr size) sym_munmap) (Munmap addr size).
Definition MREMAP_FIXED : Z := 2.
Definition hook_mremap (old_addr old_size new_size flags arg : Z) : prog Hooks (Z * Z) :=
  let new_addr := if negb (Z.land flags MREMAP_FIXED =? 0) then arg else 0 in
  let c := Mremap old_addr old_size new_size flags new_addr in unless_skipped (CallReal c sym_mremap) c.
Definition hook_mmap64 (addr size prot flags fd offset caller : Z) : prog Hooks (Z * Z) :=
  mapping (Mmap64 addr size prot flags fd offset caller) fd caller (CallRealMmap64 addr size prot flags fd offset caller).

(** Descriptors go to the kernel. *)
Definition hook_ioctl (fd request arg : Z) : prog Hooks (Z * Z) :=
  let request_value := u32 request in
  unless_skipped (kernel_call (Ioctl fd request_value arg)) (Ioctl fd request_value arg).
Definition hook_close (fd : Z) : prog Hooks (Z * Z) := unless_skipped (kernel_call (Close fd)) (Close fd).

(** The real close with an ownership tag, or an error: raw [close] only where
    the platform has no tags. *)
Definition RealFdsanCloseFunction : prog Hooks unit := RESOLVE sym_fdsan_close.
Definition ENOSYS : Z := 38.
Definition hook_fdsan_close (fd tag : Z) : prog Hooks (Z * Z) :=
  saved ← saved_errno;
  RealFdsanCloseFunction;;
  restore_errno saved;;
  h ← get;
  if negb (resolved sym_fdsan_close h) then
    if (api_level out <? 0) || (api_level out >=? 29) then boot (Bootstrap.set_errno ENOSYS;; mret (-1))
    else unless_skipped (kernel_call (Close fd)) (Close fd)
  else unless_skipped (libc_call (FdsanClose fd tag)) (FdsanClose fd tag).

Definition hook_body (c : Call) : prog Hooks (Z * Z) :=
  match c with
  | Malloc size => hook_malloc size
  | Free ptr => hook_free ptr
  | Calloc a b => hook_calloc a b
  | Realloc ptr size => hook_realloc ptr size
  | AlignedAlloc alignment size => hook_aligned_alloc alignment size
  | Memalign alignment bytes => hook_memalign alignment bytes
  | PosixMemalign ptr alignment size => hook_posix_memalign ptr alignment size
  | Mmap addr size prot flags fd offset caller => hook_mmap addr size prot flags fd offset caller
  | Munmap addr size => hook_munmap addr size
  | Mremap old_addr old_size new_size flags arg => hook_mremap old_addr old_size new_size flags arg
  | Mmap64 addr size prot flags fd offset caller => hook_mmap64 addr size prot flags fd offset caller
  | Ioctl fd request arg => hook_ioctl fd request arg
  | Close fd => hook_close fd
  | FdsanClose fd tag => hook_fdsan_close fd tag
  end.
End self.

(** Calls from within calls, to a depth. *)
Fixpoint hook (depth : nat) (c : Call) : prog Hooks (Z * Z) :=
  match depth with O => undef NoFuel | S depth => hook_body (hook depth) c end.
Definition hook_depth : nat := 3.

(** ** [operator new] and [operator delete] *)

(** [Err] is [throw std::bad_alloc()]. *)
Definition HookOperatorNew (size : Z) : prog Hooks Z :=
  r ← hook hook_depth (Malloc (if size =? 0 then 1 else size)); if r.1 =? 0 then fail else mret r.1.
Definition catch_null (m : prog Hooks Z) : prog Hooks Z := λ h, match m h with Err h => Ret 0 h | r => r end.
Definition HookOperatorNewNoThrow (size : Z) : prog Hooks Z := catch_null (HookOperatorNew size).
Definition HookOperatorNewAligned (size alignment : Z) : prog Hooks Z :=
  r ← hook hook_depth (PosixMemalign 1 alignment (if size =? 0 then 1 else size));
  if negb (r.1 =? 0) || (r.2 =? 0) then fail else mret r.2.
Definition HookOperatorNewAlignedNoThrow (size alignment : Z) : prog Hooks Z := catch_null (HookOperatorNewAligned size alignment).
Definition operator_delete (ptr : Z) : prog Hooks unit := hook hook_depth (Free ptr);; mret ().

(** ** Loading and forking *)

(** [InitializeTargetScope], with [InitState] around it. *)
Definition scope_symbols : prog Hooks unit :=
  h ← get;
  (if bool_decide (hk_tracker h = Built) && tracking out (hk_trace h) then DisableTrackingHeapTagging (hook 2) else mret ());;
  ResolveAllLibcAllocationSymbols (hook 2);;
  (if android out then RealFdsanCloseFunction (hook 2) else mret ());;
  RESOLVE (hook 2) sym_fork;;
  extern (hook 2) TargetProcess;;
  mret ().
Definition hooks_InitializeTargetScope : prog Hooks unit := set_setup true;; scope_symbols;; set_setup false.
(** The constructor of the library, before the threads it starts. *)
Definition mark_init_done : prog Hooks unit :=
  hooks_InitializeTargetScope;; modify (λ h, h <| in_preinit_phase := false |>).
(** [fork], given whether [observe_only::TargetProcessInitialized()]. *)
Definition hook_fork (initialized : bool) : prog Hooks Z :=
  saved ← saved_errno;
  (if negb initialized then hooks_InitializeTargetScope else mret ());;
  RESOLVE (hook 2) sym_fork;;
  h ← get;
  if negb (resolved sym_fork h) then boot (Bootstrap.set_errno ENOSYS;; mret (-1));; mret (-1)
  else restore_errno saved;; r ← outcome_of RealFork; mret r.1.
End hooks.
