(* ===== verification/InterposeProps.v ===== *)
(** * The interposed functions end, and keep the allocators apart

    Whatever libc, the loader and the tracker call back, a call of an interposed
    function ends within three levels, the tracker is constructed once and not
    from within, and the blocks of the early allocator stay with it. *)
From S2P Require Import Prelude Outcome HookCalls AsyncStack Bootstrap BootstrapProps Interpose.

(** ** The invariant *)

Definition heap_call_of (c : Call) : bool :=
  match c with Malloc _ | Free _ | Calloc _ _ | Realloc _ _ | AlignedAlloc _ _ | Memalign _ _ | PosixMemalign _ _ _ => true | _ => false end.
Definition is_construct (en : Entry) : bool := match en_event en with Construct => true | _ => false end.
(** What was the case when an event happened. *)
Definition entry_ok (en : Entry) : Prop :=
  match en_event en with
  | LookUp _ | OpenLibc | LookUpLibc _ | CloseLibc => en_resolving en = true
  | Construct => en_setup en = true ∧ en_tracker en = Building
  | Tracked c => en_setup en = false ∧ en_tracker en = Built ∧ (if heap_call_of c then en_resolving en = false else en_preinit en = false)
  | Real _ | Kernel _ | Mallopt | TargetProcess | RealFork => True
  end.
Definition constructs (h : Hooks) : nat := length (filter is_construct (hk_trace h)).

Record hooks_ok (h : Hooks) : Prop := {
  ho_boot : boot_ok (hk_boot h);
  ho_building : hk_tracker h = Building → allocHook_setup h = true;
  ho_trace : Forall entry_ok (hk_trace h);
  ho_constructs : (hk_tracker h = NotBuilt → constructs h = 0%nat) ∧ (hk_tracker h = Built → constructs h = 1%nat);
  ho_built : hk_tracker h ≠ Built → Forall (λ en, en_tracker en ≠ Built) (hk_trace h);
}.
Lemma hooks_new_ok : hooks_ok Hooks_new.
Proof. split; [apply boot_new_ok|done|constructor|done|constructor]. Qed.

(** Arguments of the types they have. *)
Definition word (z : Z) : Prop := 0 ≤ z < 2 ^ 64.
Definition call_valid (c : Call) : Prop :=
  match c with
  | Malloc a => word a
  | Calloc a b | AlignedAlloc a b | Memalign a b | PosixMemalign _ a b => word a ∧ word b
  | Realloc _ a => word a
  | _ => True
  end.

Section hooks.
Context (out : Outside).
Hypothesis Hpage : os_page_size out < 2 ^ 63.
Hypothesis Hmmap : ∀ maps n base, os_mmap out maps n = inr base →
  0 < base ∧ base + n < 2 ^ 64 ∧ ∀ b m, maps !! b = Some m → b + m ≤ base ∨ base + n ≤ b.
Hypothesis Hback : ∀ tr, Forall call_valid (calls_back out tr).

(** What a function may have done. *)
Record after (h h' : Hooks) : Prop := {
  af_setup : allocHook_setup h' = allocHook_setup h;
  af_resolving : g_resolving_symbols h' = g_resolving_symbols h;
  af_preinit : in_preinit_phase h' = in_preinit_phase h;
  af_trace : hk_trace h `suffix_of` hk_trace h';
  af_sys s : s ∈ m_sys h → s ∈ m_sys h';
  af_tracker : (hk_tracker h' = hk_tracker h ∧ constructs h' = constructs h) ∨
    (allocHook_setup h = false ∧ hk_tracker h = NotBuilt ∧ hk_tracker h' = Built ∧ ∃ tr, bypassed out tr = false);
}.
Lemma after_refl h : after h h.
Proof using Type. split; try done. by left. Qed.
Lemma after_trans h1 h2 h3 : after h1 h2 → after h2 h3 → after h1 h3.
Proof using Type.
  intros [A1 A2 A3 A4 A5 A6] [B1 B2 B3 B4 B5 B6]. split; try congruence; [by etrans|auto|].
  destruct A6 as [[A6 A7]|(X1 & X2 & X3 & X4)], B6 as [[B6 B7]|(Y1 & Y2 & Y3 & Y4)]; [left; split; congruence|right..|congruence].
  - split_and!; congruence || done.
  - split_and!; congruence || done.
Qed.

(** A program that ends, with the flags as they were; [S] and [R] are
    [allocHook_setup] and [g_resolving_symbols]. *)
Definition ends {A} (S R : bool) (m : prog Hooks A) : Prop := ∀ h,
  hooks_ok h → allocHook_setup h = S → g_resolving_symbols h = R →
  wp (λ _, False) m h (λ _ h', hooks_ok h' ∧ after h h') (λ _, False).

Lemma ends_ret {A} S R (v : A) : ends S R (mret v).
Proof using Type. intros h Hok _ _. split; [done|apply after_refl]. Qed.
Lemma ends_get S R : ends S R get.
Proof using Type. intros h Hok _ _. split; [done|apply after_refl]. Qed.
Lemma ends_bind {A B} S R (m : prog Hooks A) (k : A → prog Hooks B) : ends S R m → (∀ v, ends S R (k v)) → ends S R (m ≫= k).
Proof using Type.
  intros Hm Hk h Hok HS HR. apply wp_bind. eapply wp_mono; [by apply Hm| |done]. intros v h1 [Hok1 Ha1]. cbn beta.
  eapply wp_mono; [apply Hk; [done|by rewrite (af_setup _ _ Ha1)|by rewrite (af_resolving _ _ Ha1)]| |done].
  intros v2 h2 [Hok2 Ha2]. split; [done|]. by eapply after_trans.
Qed.
(** A program whose continuation may look at the state it starts in. *)
Lemma ends_get_bind {A} S R (k : Hooks → prog Hooks A) : (∀ h, allocHook_setup h = S → g_resolving_symbols h = R → hooks_ok h →
  wp (λ _, False) (k h) h (λ _ h', hooks_ok h' ∧ after h h') (λ _, False)) → ends S R (get ≫= k).
Proof using Type. intros Hk h Hok HS HR. apply wp_bind, wp_get. by apply Hk. Qed.

(** ** The early allocator *)

Lemma ends_boot S R m :
  (∀ s, boot_ok s → ∃ r s', m s = Ret r s' ∧ boot_ok s') → ends S R (boot m).
Proof using Type.
  intros Hm h [H1 H2 H3 H4 H5] HS HR. unfold boot. apply wp_bind, wp_zoom. destruct (Hm _ H1) as (r & s' & E & Hok). unfold wp. rewrite E.
  unfold mret, prog_ret. split; [by split|]. split; try done. by left.
Qed.
Lemma ends_is_bootstrap S R ptr : ends S R (is_bootstrap ptr).
Proof using Type.
  intros h Hok HS HR. unfold is_bootstrap, wp, zoom. rewrite IsBootstrapPointer_live by apply Hok. destruct Hok as [H1 H2 H3 H4 H5].
  split; [by split|]. split; try done. by left.
Qed.
Lemma boot_aligned_ends alignment size s :
  boot_ok s → word alignment → word size → ∃ r s', BootstrapAlignedMalloc (os_page_size out) (os_mmap out) alignment size s = Ret r s' ∧ boot_ok s'.
Proof using Hpage Hmmap.
  intros Hok Ha Hs. destruct (BootstrapAlignedMalloc_allocates _ _ Hpage Hmmap alignment size s Hok Ha Hs) as [[e ->]|(p & s' & -> & _ & Hok' & _)].
  - eexists _, _. split; [done|]. by apply boot_ok_errno.
  - by eexists _, _.
Qed.
Lemma boot_calloc_ends a b s :
  boot_ok s → word a → word b → ∃ r s', BootstrapCalloc (os_page_size out) (os_mmap out) a b s = Ret r s' ∧ boot_ok s'.
Proof using Hpage Hmmap.
  intros Hok Ha Hs. destruct (BootstrapCalloc_allocates _ _ Hpage Hmmap a b s Hok ltac:(apply Ha) ltac:(apply Hs)) as [[e ->]|(p & s' & -> & _ & Hok' & _)].
  - eexists _, _. split; [done|]. by apply boot_ok_errno.
  - by eexists _, _.
Qed.
Lemma boot_errno_ends e r s : boot_ok s → ∃ r' s', (Bootstrap.set_errno e;; mret (r : Z)) s = Ret r' s' ∧ boot_ok s'.
Proof using Type. intros Hok. eexists _, _. split; [done|]. by apply boot_ok_errno. Qed.

Lemma ends_saved S R : ends S R saved_errno.
Proof using Type. apply ends_bind; [apply ends_get|intros ?; apply ends_ret]. Qed.
Lemma ends_restore S R e : ends S R (restore_errno e).
Proof using Type. apply ends_bind; [apply ends_boot; intros; by apply boot_errno_ends|intros _; apply ends_ret]. Qed.

(** ** Events *)

Lemma record_ok e h :
  hooks_ok h → entry_ok (entry e h) → e ≠ Construct → hooks_ok (h <| hk_trace := entry e h :: hk_trace h |>) ∧ after h (h <| hk_trace := entry e h :: hk_trace h |>).
Proof using Type.
  intros [H1 H2 H3 H4 H5] He Hne. assert (constructs (h <| hk_trace := entry e h :: hk_trace h |>) = constructs h) as Ec.
  { unfold constructs. cbn [hk_trace field_set]. rewrite filter_cons_False; [done|]. unfold is_construct. cbn. destruct e; first [by intros []|by destruct (Hne eq_refl)]. }
  split; [split; [done|done|by constructor|by rewrite Ec|intros Hb; constructor; [done|by apply H5]]|]. split; try done; [by eexists [_]|]. by left.
Qed.
Lemma ends_outcome S R e : match e with Real _ | Kernel _ | Mallopt | TargetProcess | RealFork => True | _ => False end → ends S R (outcome_of out e).
Proof using Type.
  intros He h Hok HS HR. unfold outcome_of. apply wp_bind, wp_modify, wp_bind, wp_get, wp_ret. apply record_ok; [done|by destruct e|by destruct e].
Qed.
Lemma ends_bypassed S R : ends S R (Bypassed out).
Proof using Type. intros h Hok HS HR. unfold Bypassed. apply wp_bind, wp_get, wp_ret. split; [done|apply after_refl]. Qed.
Lemma ends_cache S R : ends S R (CacheLibcRange out).
Proof using Type.
  intros h [H1 H2 H3 H4 H5] HS HR. unfold CacheLibcRange. apply wp_modify. destruct (range_valid _).
  - split; [by split|apply after_refl].
  - split; [by split|]. split; try done. by left.
Qed.

(** ** Symbols *)

Section self.
Variable self : Call → prog Hooks (Z * Z).
Definition calls_end (S R : bool) : Prop := ∀ c, call_valid c → ends S R (self c).

Lemma ends_run_calls S R calls : calls_end S R → Forall call_valid calls → ends S R (run_calls self calls).
Proof using Type.
  intros Hself. induction 1 as [|c calls Hc _ IH]; cbn [run_calls]; [apply ends_ret|]. apply ends_bind; [by apply Hself|intros _; done].
Qed.
Lemma ends_extern S R e :
  calls_end S R → match e with LookUp _ | OpenLibc | LookUpLibc _ | CloseLibc => R = true | TargetProcess => True | _ => False end →
  ends S R (extern out self e).
Proof using Hback.
  intros Hself He h Hok HS HR. unfold extern. apply wp_bind, wp_modify, wp_bind, wp_get.
  destruct (record_ok e h Hok) as [Hok1 Ha1]; [destruct e; try done; cbn; congruence|by destruct e|]. set (h1 := h <| hk_trace := _ |>) in *.
  eapply (wp_mono _ _ h1 (λ _ h', hooks_ok h' ∧ after h1 h') _ (λ _, False)); [| |done].
  - apply (ends_bind S R); [by apply ends_run_calls|intros _; apply ends_ret|done|done|done].
  - intros _ h2 [Hok2 Ha2]. split; [done|]. by eapply after_trans.
Qed.

Lemma ends_find_symbol S s : calls_end S true → ends S true (find_symbol out self s).
Proof using Hback.
  intros Hself. unfold find_symbol. apply ends_bind; [by apply ends_extern|intros [|]; [apply ends_ret|]].
  apply ends_bind; [by apply ends_extern|intros [|]; [|apply ends_ret]]. apply ends_bind; [by apply ends_extern|intros addr].
  apply ends_bind; [by apply ends_extern|intros _; apply ends_ret].
Qed.
Lemma ends_resolve_symbol S R s : (R = false → calls_end S true) → ends S R (ResolveLibcSymbol out self s).
Proof using Hback.
  intros Hself h Hok HS HR. unfold ResolveLibcSymbol. apply wp_bind, wp_get. rewrite HR. destruct R; [split; [done|apply after_refl]|].
  apply wp_bind, wp_modify. set (h1 := h <| g_resolving_symbols := true |>). assert (hooks_ok h1) as Hok1 by (destruct Hok; by split).
  apply wp_bind. eapply wp_mono; [by apply (ends_find_symbol S s (Hself eq_refl) h1)| |done]. intros v h2 [Hok2 [A1 A2 A3 A4 A5 A6]].
  apply wp_bind, wp_modify, wp_ret. split; [destruct Hok2; by split|]. by split.
Qed.
Lemma ends_RESOLVE S R s : (R = false → calls_end S true) → ends S R (RESOLVE out self s).
Proof using Hback.
  intros Hself h Hok HS HR. unfold RESOLVE. apply wp_bind, wp_get. destruct (resolved s h); [split; [done|apply after_refl]|].
  apply wp_bind. eapply wp_mono; [by apply (ends_resolve_symbol S R s Hself)| |done]. intros [|] h1 [Hok1 Ha1]; [|done]. apply wp_modify.
  split; [destruct Hok1; by split|]. eapply after_trans; [done|]. split; try done; [|by left]. intros s' Hs'. by right.
Qed.
Lemma ends_resolve_symbols S R l : (R = false → calls_end S true) → ends S R (resolve_symbols out self l).
Proof using Hback.
  intros Hself. induction l as [|s l IH]; cbn [resolve_symbols]; [apply ends_ret|]. apply ends_bind; [by apply ends_RESOLVE|done].
Qed.

Lemma ends_tagging S R : (R = false → calls_end S true) → ends S R (DisableTrackingHeapTagging out self).
Proof using Hback.
  intros Hself. unfold DisableTrackingHeapTagging. destruct (android out); [|apply ends_ret].
  apply ends_bind; [by apply ends_resolve_symbol|intros [|]; [|apply ends_ret]]. apply ends_bind; [by apply ends_outcome|intros _; apply ends_ret].
Qed.

(** ** The tracker *)

(** Before the tracker itself is constructed. *)
Lemma ends_prepare R : (R = false → calls_end true true) →
  ends true R (DisableTrackingHeapTagging out self;; ResolveAllLibcAllocationSymbols out self).
Proof using Hback.
  intros Hself. apply ends_bind; [by apply ends_tagging|intros _; by apply ends_resolve_symbols].
Qed.
(** The construction, with the flag set. *)
Lemma construct_tracker R h :
  hooks_ok h → allocHook_setup h = true → g_resolving_symbols h = R → hk_tracker h = Building → constructs h = 0%nat → calls_end true R →
  wp (λ _, False) (extern out self Construct;; CacheLibcRange out) h
    (λ _ h', hooks_ok h' ∧ hk_tracker h' = Building ∧ constructs h' = 1%nat ∧ allocHook_setup h' = true ∧ g_resolving_symbols h' = R ∧
      in_preinit_phase h' = in_preinit_phase h ∧ hk_trace h `suffix_of` hk_trace h' ∧ (∀ s, s ∈ m_sys h → s ∈ m_sys h')) (λ _, False).
Proof using Hback.
  intros Hok HS HR Ht Hc Hself. unfold extern. set (h1 := h <| hk_trace := entry Construct h :: hk_trace h |>).
  assert (hooks_ok h1) as Hok1.
  { destruct Hok as [H1 H2 H3 H4 H5]. split; try done; [constructor; [|done]; cbn; by rewrite HS| |].
    - cbn [hk_tracker field_set h1]. by rewrite Ht.
    - intros Hb. constructor; [done|by apply H5]. }
  assert (constructs h1 = 1%nat) as Hc1 by (unfold constructs, h1 in *; cbn [hk_trace field_set]; rewrite filter_cons_True by done; cbn; by rewrite Hc).
  assert (ends true R (run_calls self (calls_back out (hk_trace h1));; mret (found out (hk_trace h1));; CacheLibcRange out)) as He.
  { apply ends_bind; [by apply ends_run_calls|intros _]. apply ends_bind; [apply ends_ret|intros _; apply ends_cache]. }
  specialize (He h1 Hok1 HS HR). unfold wp, mbind, prog_bind, record, modify, get in *. fold h1.
  destruct (run_calls self (calls_back out (hk_trace h1)) h1) as [[] h2| |]; [|done|done]. unfold mret, prog_ret in *.
  destruct (CacheLibcRange out h2) as [[] h3| |]; [|done|done]. destruct He as [Hok3 [A1 A2 A3 A4 A5 A6]].
  destruct A6 as [[A6 A7]|(X & _)]; [|cbn in X; congruence]. split; [done|]. rewrite A6, A7, A1, A2, A3. split_and!; try done.
  etrans; [|exact A4]. by eexists [_].
Qed.

Lemma ends_inst R h :
  hooks_ok h → allocHook_setup h = false → g_resolving_symbols h = R → (∃ tr, bypassed out tr = false) →
  (R = false → calls_end true true) → calls_end true R →
  wp (λ _, False) (inst out self) h (λ _ h', hooks_ok h' ∧ after h h' ∧ hk_tracker h' = Built) (λ _, False).
Proof using Hback.
  intros Hok HS HR Hby Htt Htr. unfold inst. apply wp_bind, wp_get. destruct (hk_tracker h) eqn:Et.
  2: { exfalso. pose proof (ho_building _ Hok Et). congruence. }
  2: { split; [done|]. split; [apply after_refl|done]. }
  set (h1 := h <| hk_tracker := Building |> <| allocHook_setup := true |>).
  assert (hooks_ok h1) as Hok1 by (destruct Hok as [H1 H2 H3 H4 H5]; split; try done; intros _; apply H5; congruence).
  pose proof (ends_prepare R Htt h1 Hok1 eq_refl HR) as Hprep. unfold AllocHook_construct, wp, mbind, prog_bind, set_setup, modify in *. fold h1.
  destruct (DisableTrackingHeapTagging out self h1) as [[] h2| |]; [|done|done].
  destruct (ResolveAllLibcAllocationSymbols out self h2) as [[] h3| |]; [|done|done]. destruct Hprep as [Hok3 [A1 A2 A3 A4 A5 A6]].
  destruct A6 as [[A6 A7]|(X & _)]; [|done].
  pose proof (construct_tracker R h3 Hok3 A1 ltac:(by rewrite A2) A6) as Hc. unfold wp, mbind, prog_bind in Hc.
  destruct (extern out self Construct h3) as [b h4| |]; [| |]; try (apply Hc; [rewrite A7; by apply (ho_constructs _ Hok)|done]).
  destruct (CacheLibcRange out h4) as [[] h5| |]; [| |]; try (apply Hc; [rewrite A7; by apply (ho_constructs _ Hok)|done]).
  destruct Hc as (Hok5 & B1 & B2 & B3 & B4 & B5 & B6 & B7); [rewrite A7; by apply (ho_constructs _ Hok)|done|].
  split; [|split; [|done]].
  - destruct Hok5 as [H1 H2 H3 H4 H5]. by split.
  - change (in_preinit_phase h1) with (in_preinit_phase h) in A3. split; cbn; try congruence; [by etrans|auto|]. right. split_and!; done.
Qed.

Definition supports (S R : bool) : Prop :=
  (R = false → calls_end S true) ∧ (S = false → (R = false → calls_end true true) ∧ calls_end true R).

Lemma tracked_ends S R c h :
  supports S R → hooks_ok h → allocHook_setup h = S → g_resolving_symbols h = R → S = false → (∃ tr, bypassed out tr = false) →
  (if heap_call_of c then R = false else in_preinit_phase h = false) →
  wp (λ _, False) (tracked_call out self c) h (λ _ h', hooks_ok h' ∧ after h h') (λ _, False).
Proof using Hback.
  intros [_ Hsup] Hok HS HR ES Hby Hc. unfold tracked_call. destruct (Hsup ES) as [Htt Htr]. apply wp_bind.
  eapply wp_mono; [apply (ends_inst R h Hok ltac:(congruence) HR Hby Htt Htr)| |done]. intros _ h1 (Hok1 & Ha1 & Ht1). cbn beta.
  unfold outcome_of. apply wp_bind, wp_modify, wp_bind, wp_get, wp_ret. destruct (record_ok (Tracked c) h1 Hok1) as [Hok2 Ha2]; [|done|].
  - cbn. rewrite (af_setup _ _ Ha1), (af_resolving _ _ Ha1), (af_preinit _ _ Ha1). split; [congruence|]. split; [done|]. destruct (heap_call_of c); congruence.
  - split; [done|]. by eapply after_trans.
Qed.

Lemma ends_allocation S R c s fallback :
  supports S R → heap_call_of c = true → ends S R fallback → ends S R (allocation out self c s fallback).
Proof using Hback.
  intros Hsup Hc Hf h Hok HS HR. unfold allocation, not_tracked. apply wp_bind, wp_bind, wp_get.
  assert (wp (λ _, False) (h ← get; if negb (resolved s h) then fallback else libc_call out c) h (λ _ h', hooks_ok h' ∧ after h h') (λ _, False)) as Hskip.
  { apply wp_bind, wp_get. destruct (negb _); [by apply Hf|]. by apply (ends_outcome S R (Real c)). }
  destruct (early s h) eqn:Ee; [by apply wp_ret|]. unfold Bypassed. apply wp_bind, wp_get, wp_ret.
  destruct (bypassed out (hk_trace h)) eqn:Eb; [done|]. unfold early in Ee. apply orb_false_iff in Ee as [Ee _]. apply orb_false_iff in Ee as [E1 E2].
  apply (tracked_ends S R c h); try done; [congruence|by eexists|]. rewrite Hc. congruence.
Qed.
Lemma ends_not_tracked_map S R (real : prog Hooks (Z * Z)) (tracked : prog Hooks (Z * Z)) :
  ends S R real →
  (∀ h, hooks_ok h → allocHook_setup h = S → g_resolving_symbols h = R → S = false → (∃ tr, bypassed out tr = false) → in_preinit_phase h = false →
    wp (λ _, False) tracked h (λ _ h', hooks_ok h' ∧ after h h') (λ _, False)) →
  ends S R (skip ← not_tracked_map out; if skip : bool then real else tracked).
Proof using Type.
  intros Hr Ht h Hok HS HR. unfold not_tracked_map. apply wp_bind, wp_bind, wp_get. destruct (in_preinit_phase h || allocHook_setup h) eqn:Ee; [by apply wp_ret, Hr|].
  apply orb_false_iff in Ee as [E1 E2]. unfold Bypassed. apply wp_bind, wp_get, wp_ret. destruct (bypassed out (hk_trace h)) eqn:Eb; [by apply Hr|].
  apply Ht; try done; [congruence|by eexists].
Qed.
Lemma ends_unless_skipped S R real c : supports S R → heap_call_of c = false → ends S R real → ends S R (unless_skipped out self real c).
Proof using Hback.
  intros Hsup Hc Hr. apply ends_not_tracked_map; [done|]. intros h Hok HS HR ES Hby Hpre. apply (tracked_ends S R c h); try done. by rewrite Hc.
Qed.
Lemma ends_mapping S R c fd caller real : supports S R → heap_call_of c = false → ends S R real → ends S R (mapping out self c fd caller real).
Proof using Hback.
  intros Hsup Hc Hr. apply ends_not_tracked_map; [done|]. intros h Hok HS HR ES Hby Hpre.
  assert (ends S R (if fd <? 0 then ShouldBypassLibcInternalMmap out caller else mret false)) as Hint.
  { destruct (fd <? 0); [|apply ends_ret]. apply ends_bind; [apply ends_cache|intros _]. apply ends_bind; [apply ends_get|intros ?; apply ends_ret]. }
  apply wp_bind. eapply wp_mono; [by apply Hint| |done]. intros internal h1 [Hok1 Ha1]. cbn beta.
  eapply (wp_mono _ _ h1 (λ _ h', hooks_ok h' ∧ after h1 h') _ (λ _, False)); [| |done].
  - destruct internal; [apply Hr|apply (tracked_ends S R c h1)]; try done; rewrite ?(af_setup _ _ Ha1), ?(af_resolving _ _ Ha1); try done.
    rewrite Hc. by rewrite (af_preinit _ _ Ha1).
  - intros _ h2 [Hok2 Ha2]. split; [done|]. by eapply after_trans.
Qed.
Lemma ends_CallReal S R c s : supports S R → ends S R (CallReal out self c s).
Proof using Hback.
  intros [Hsup _]. apply ends_bind; [by apply ends_RESOLVE|intros _]. apply ends_bind; [apply ends_get|intros h]. destruct (resolved s h); by apply ends_outcome.
Qed.

Lemma ends_realloc S R ptr size : supports S R → word size → ends S R (hook_realloc out self ptr size).
Proof using Hback Hmmap Hpage.
  intros Hsup Hs. apply ends_bind; [apply ends_is_bootstrap|intros own]. apply ends_bind; [apply ends_RESOLVE, Hsup|intros _].
  intros h Hok HS HR. apply wp_bind, wp_get, wp_bind.
  assert (wp (λ _, False) (h ← get; if negb (resolved sym_realloc h) || own then boot (BootstrapRealloc (os_page_size out) (os_mmap out) ptr size)
    else libc_call out (Realloc ptr size)) h (λ _ h', hooks_ok h' ∧ after h h') (λ _, False)) as Hskip.
  { apply wp_bind, wp_get. destruct (_ || own); [|by apply (ends_outcome S R (Real _))]. apply (ends_boot S R); try done. intros s Hb.
    destruct (BootstrapRealloc_heap _ _ Hpage Hmmap ptr size s Hb Hs) as (r & s' & E & Hb' & _). by exists r, s'. }
  destruct (early sym_realloc h || own) eqn:Ee; [by apply wp_ret|]. unfold Bypassed. apply wp_bind, wp_get, wp_ret.
  destruct (bypassed out (hk_trace h)) eqn:Eb; [done|]. apply orb_false_iff in Ee as [Ee _]. unfold early in Ee. apply orb_false_iff in Ee as [Ee _].
  apply orb_false_iff in Ee as [E1 E2]. apply (tracked_ends S R (Realloc ptr size) h); try done; [congruence|by eexists|]. cbn. congruence.
Qed.
Lemma ends_fdsan S R fd tag : supports S R → ends S R (hook_fdsan_close out self fd tag).
Proof using Hback.
  intros Hsup. apply ends_bind; [apply ends_saved|intros saved]. apply ends_bind; [apply ends_RESOLVE, Hsup|intros _].
  apply ends_bind; [apply ends_restore|intros _]. apply ends_bind; [apply ends_get|intros h]. destruct (negb _).
  - destruct (_ || _); [apply ends_boot; intros; by apply boot_errno_ends|]. apply ends_unless_skipped; [done|done|by apply ends_outcome].
  - apply ends_unless_skipped; [done|done|by apply ends_outcome].
Qed.
Lemma ends_mmap64 S R addr size prot flags fd offset caller : supports S R → ends S R (CallRealMmap64 out self addr size prot flags fd offset caller).
Proof using Hback.
  intros Hsup. apply ends_bind; [apply ends_RESOLVE, Hsup|intros _]. apply ends_bind; [apply ends_get|intros h].
  destruct (resolved sym_mmap64 h); [by apply ends_outcome|by apply ends_CallReal].
Qed.

Lemma ends_body S R c : supports S R → call_valid c → ends S R (hook_body out self c).
Proof using Hback Hmmap Hpage.
  intros Hsup Hc. pose proof Hsup as [Hself _].
  destruct c as [size|ptr|x y|ptr size|al size|al n|ptr al size|addr size prot flags fd off caller|addr size|oa os ns fl na|addr size prot flags fd off caller|fd req arg|fd|fd tag]; cbn [hook_body call_valid] in *.
  - apply ends_bind; [by apply ends_RESOLVE|intros _]. apply ends_allocation; [done|done|]. apply ends_boot. intros s Hs. by apply boot_aligned_ends.
  - apply ends_bind; [apply ends_is_bootstrap|intros [|]].
    + apply ends_boot. intros s Hs. unfold mbind, prog_bind. destruct (BootstrapFree_heap s ptr Hs) as (s' & -> & Hs' & _). by eexists _, _.
    + apply ends_bind; [by apply ends_RESOLVE|intros _]. apply ends_allocation; [done|done|apply ends_ret].
  - destruct Hc. apply ends_bind; [by apply ends_RESOLVE|intros _]. apply ends_allocation; [done|done|]. apply ends_boot. intros s Hs. by apply boot_calloc_ends.
  - by apply ends_realloc.
  - destruct Hc. apply ends_bind; [by apply ends_RESOLVE|intros _]. apply ends_allocation; [done|done|]. destruct (_ || _).
    + apply ends_boot. intros s Hs. by apply boot_errno_ends.
    + apply ends_boot. intros s Hs. by apply boot_aligned_ends.
  - destruct Hc. apply ends_bind; [by apply ends_RESOLVE|intros _]. apply ends_allocation; [done|done|]. apply ends_boot. intros s Hs. by apply boot_aligned_ends.
  - destruct Hc. apply ends_bind; [by apply ends_RESOLVE|intros _]. apply ends_bind; [by apply ends_RESOLVE|intros _]. apply ends_allocation; [done|done|].
    destruct (_ || _ || _ || _); [apply ends_ret|]. apply ends_bind; [|intros r; apply ends_ret]. apply ends_boot. intros s Hs. by apply boot_aligned_ends.
  - apply ends_mapping; [done|done|by apply ends_CallReal].
  - apply ends_unless_skipped; [done|done|by apply ends_CallReal].
  - apply ends_unless_skipped; [done|done|by apply ends_CallReal].
  - apply ends_mapping; [done|done|by apply ends_mmap64].
  - apply ends_unless_skipped; [done|done|by apply ends_outcome].
  - apply ends_unless_skipped; [done|done|by apply ends_outcome].
  - by apply ends_fdsan.
Qed.
End self.

(** ** Depth *)

(** The levels of calls a state allows: none while symbols are resolved and the
    tracker is constructed, one more for each of the two. *)
Definition levels (S R : bool) : nat := if S then (if R then 1 else 2) else (if R then 2 else 3).
Lemma hook_ends depth : ∀ S R c, (levels S R ≤ depth)%nat → call_valid c → ends S R (hook out depth c).
Proof using Hback Hmmap Hpage.
  induction depth as [|depth IH]; intros S R c Hd Hc; [by destruct S, R; cbn in Hd; lia|]. cbn [hook]. apply ends_body; [|done]. split.
  - intros -> c' Hc'. apply IH; [|done]. destruct S; cbn in *; lia.
  - intros ->. split; [intros ->|destruct R]; intros c' Hc'; (apply IH; [cbn in *; lia|done]).
Qed.

(** ** Runs *)

Inductive HookStep := Do (c : Call) | Load | DoFork (initialized : bool).
Definition step_valid (st : HookStep) : Prop := match st with Do c => call_valid c | _ => True end.
Definition do_step (st : HookStep) : prog Hooks unit :=
  match st with
  | Do c => hook out hook_depth c;; mret ()
  | Load => mark_init_done out
  | DoFork initialized => hook_fork out initialized;; mret ()
  end.
Fixpoint do_steps (l : list HookStep) : prog Hooks unit := match l with [] => mret () | st :: l => do_step st;; do_steps l end.

(** Between the calls of a program. *)
Definition idle (h : Hooks) : Prop := hooks_ok h ∧ allocHook_setup h = false ∧ g_resolving_symbols h = false.
(** The tracker is there only if some call was to be tracked. *)
Definition tracker_after (h h' : Hooks) : Prop := hk_tracker h' = hk_tracker h ∨ ∃ tr, bypassed out tr = false.
Lemma after_tracker h h' : after h h' → tracker_after h h'.
Proof using Type. intros [_ _ _ _ _ [[? _]|(_ & _ & _ & ?)]]; [by left|by right]. Qed.

Lemma ends_scope_symbols : ends true false (scope_symbols out).
Proof using Hback Hmmap Hpage.
  assert (calls_end (hook out 2) true true) as Hself by (intros c Hc; apply hook_ends; [cbn; lia|done]).
  apply ends_bind; [apply ends_get|intros h0]. apply ends_bind.
  { destruct (_ && _); [by apply ends_tagging|apply ends_ret]. }
  intros _. apply ends_bind; [by apply ends_resolve_symbols|intros _]. apply ends_bind; [destruct (android out); [by apply ends_RESOLVE|apply ends_ret]|intros _].
  apply ends_bind; [by apply ends_RESOLVE|intros _]. apply ends_bind; [|intros _; apply ends_ret]. apply ends_extern; [|done].
  intros c Hc. apply hook_ends; [cbn; lia|done].
Qed.
Lemma scope_ends h : idle h → wp (λ _, False) (hooks_InitializeTargetScope out) h (λ _ h', idle h' ∧ hk_tracker h' = hk_tracker h) (λ _, False).
Proof using Hback Hmmap Hpage.
  intros (Hok & HS & HR). unfold hooks_InitializeTargetScope. apply wp_bind, wp_modify. set (h1 := h <| allocHook_setup := true |>).
  assert (hooks_ok h1) as Hok1 by (destruct Hok as [H1 H2 H3 H4 H5]; by split).
  apply wp_bind. eapply wp_mono; [by apply (ends_scope_symbols h1)| |done]. intros _ h2 [Hok2 [A1 A2 A3 A4 A5 A6]]. cbn beta. apply wp_modify.
  destruct A6 as [[A6 _]|(? & _)]; [|done]. split; [|done]. split; [|split; [done|by rewrite <-HR]].
  destruct Hok2 as [H1 H2 H3 H4 H5]. split; try done. intros Hb. cbn in Hb. rewrite A6 in Hb. by rewrite (ho_building _ Hok Hb) in HS.
Qed.
Lemma hook_idle depth c h :
  idle h → (3 ≤ depth)%nat → call_valid c → wp (λ _, False) (hook out depth c) h (λ _ h', idle h' ∧ tracker_after h h') (λ _, False).
Proof using Hback Hmmap Hpage.
  intros (Hok & HS & HR) Hd Hc. eapply wp_mono; [by apply (hook_ends depth false false c Hd Hc)| |done]. intros r h' [Hok' Ha]. split; [|by apply after_tracker].
  split; [done|]. by rewrite (af_setup _ _ Ha), (af_resolving _ _ Ha).
Qed.

Lemma step_ends st h : idle h → step_valid st → wp (λ _, False) (do_step st) h (λ _ h', idle h' ∧ tracker_after h h') (λ _, False).
Proof using Hback Hmmap Hpage.
  intros Hi Hv. destruct st as [c| |initialized]; cbn [do_step].
  - apply wp_bind. eapply wp_mono; [by apply (hook_idle hook_depth c h Hi)| |done]. intros r h' H. by apply wp_ret.
  - unfold mark_init_done. apply wp_bind. eapply wp_mono; [by apply scope_ends| |done]. intros _ h1 [(Hok & HS & HR) Ht]. cbn beta. apply wp_modify.
    split; [|by left]. destruct Hok as [H1 H2 H3 H4 H5]. by split.
  - apply wp_bind. unfold hook_fork. apply wp_bind. unfold saved_errno. apply wp_bind, wp_get, wp_ret. apply wp_bind.
    eapply (wp_mono _ _ _ (λ _ h', idle h' ∧ hk_tracker h' = hk_tracker h) _ (λ _, False)); [destruct (negb initialized); [by apply scope_ends|done]| |done].
    intros _ h1 [(Hok & HS & HR) Ht]. cbn beta.
    assert (ends false false (RESOLVE out (hook out 2) sym_fork;; h3 ← get;
      if negb (resolved sym_fork h3) then boot (Bootstrap.set_errno ENOSYS;; mret (-1));; mret (-1)
      else restore_errno (errno (hk_boot h));; r ← outcome_of out RealFork; mret r.1)) as He.
    { apply ends_bind; [apply ends_RESOLVE; intros _ c Hc; apply hook_ends; [cbn; lia|done]|intros _]. apply ends_bind; [apply ends_get|intros h2].
      destruct (negb _); [|apply ends_bind; [apply ends_restore|intros _; apply ends_bind; [by apply ends_outcome|intros ?; apply ends_ret]]].
      apply ends_bind; [apply ends_boot; intros; by apply boot_errno_ends|intros _; apply ends_ret]. }
    eapply wp_mono; [by apply He| |done]. intros r h2 [Hok2 Ha]. apply wp_ret. split.
    + split; [done|]. by rewrite (af_setup _ _ Ha), (af_resolving _ _ Ha).
    + destruct (after_tracker _ _ Ha) as [?|?]; [left; congruence|by right].
Qed.
Lemma steps_end l : ∀ h, idle h → Forall step_valid l → wp (λ _, False) (do_steps l) h (λ _ h', idle h' ∧ tracker_after h h') (λ _, False).
Proof using Hback Hmmap Hpage.
  induction l as [|st l IH]; intros h Hi Hl; cbn [do_steps]; [apply wp_ret; split; [done|by left]|]. apply Forall_cons in Hl as [Hs Hl].
  apply wp_bind. eapply wp_mono; [by apply step_ends| |done]. intros _ h1 [Hi1 Ht1]. cbn beta. eapply wp_mono; [by apply IH| |done].
  intros _ h2 [Hi2 Ht2]. split; [done|]. destruct Ht1 as [?|?], Ht2 as [?|?]; [left; congruence|by right..].
Qed.

(** C10. Interposition does not get in its own way. Let a program call the
    interposed functions, fork and load the library in any order; let looking up
    a symbol and constructing the tracker call back into the interposed
    functions in any way; and let libc, the loader and the mode answer anything.
    Then every call ends, with at most three levels of calls from within calls:
    no chain of look-ups or constructions goes deeper, the tracker is not
    constructed again from within its construction, which would hang, and no
    header of the early allocator is missing. The tracker is constructed at most
    once and only with [allocHook_setup] set; it is called only when complete,
    with [allocHook_setup] clear, and from the allocation functions only outside
    of look-ups. In a run that is to be bypassed it is not constructed at all. *)
Theorem interposition_ends steps :
  Forall step_valid steps →
  ∃ h, do_steps steps Hooks_new = Ret () h ∧ allocHook_setup h = false ∧ g_resolving_symbols h = false ∧
    (length (filter is_construct (hk_trace h)) ≤ 1)%nat ∧
    (∀ en, en ∈ hk_trace h →
      match en_event en with
      | Construct => en_setup en = true
      | Tracked c => en_setup en = false ∧ en_tracker en = Built ∧ (heap_call_of c = true → en_resolving en = false)
      | _ => True
      end) ∧
    ((∀ tr, bypassed out tr = true) → ∀ en, en ∈ hk_trace h → match en_event en with Construct | Tracked _ => False | _ => True end).
Proof using Hback Hmmap Hpage.
  intros Hv. pose proof (steps_end steps Hooks_new) as He. unfold wp in He. destruct (do_steps steps Hooks_new) as [[] h| |].
  2-3: by destruct He; [split; [apply hooks_new_ok|done]|done].
  destruct He as [(Hok & HS & HR) Ht]; [by split; [apply hooks_new_ok|]|done|]. exists h. split; [done|]. split; [done|]. split; [done|].
  destruct Hok as [_ Hb Htr [Hc1 Hc2] Hnb]. rewrite Forall_forall in Htr. split; [|split].
  - destruct (hk_tracker h); [rewrite (Hc1 eq_refl : length _ = _); lia|by rewrite Hb in HS|rewrite (Hc2 eq_refl : length _ = _); lia].
  - intros en Hen. specialize (Htr en Hen). unfold entry_ok in Htr. destruct (en_event en); try done; [apply Htr|]. destruct Htr as (? & ? & Hr).
    split_and!; try done. intros Hh. by rewrite Hh in Hr.
  - intros Hall en Hen. assert (hk_tracker h = NotBuilt) as Hnot by (destruct Ht as [?|[tr Htr0]]; [done|by rewrite Hall in Htr0]).
    specialize (Htr en Hen). unfold entry_ok in Htr. specialize (Hc1 Hnot). destruct (en_event en) eqn:Ee; try done.
    + assert (en ∈ filter is_construct (hk_trace h)) as Hin by (apply list_elem_of_filter; split; [unfold is_construct; by rewrite Ee|done]).
      unfold constructs in Hc1. apply nil_length_inv in Hc1. rewrite Hc1 in Hin. by apply elem_of_nil in Hin.
    + assert (hk_tracker h ≠ Built) as Hne by congruence. specialize (Hnb Hne). rewrite Forall_forall in Hnb. by apply (Hnb en Hen), Htr.
Qed.

(** ** Whose block it is *)

Lemma field_set_id_boot (h : Hooks) : h <| hk_boot := hk_boot h |> = h.
Proof using Type. by destruct h. Qed.
Lemma is_bootstrap_live ptr h :
  hooks_ok h → is_bootstrap ptr h = Ret (bool_decide (is_Some (heap (hk_boot h) !! ptr))) h.
Proof using Type.
  intros Hok. unfold is_bootstrap, zoom. rewrite IsBootstrapPointer_live by apply Hok. rewrite (field_set_id_boot h). f_equal.
  apply bool_decide_ext. by rewrite heap_lookup, fmap_is_Some.
Qed.
Lemma free_early self ptr h :
  hooks_ok h → is_Some (heap (hk_boot h) !! ptr) →
  ∃ b, hook_body out self (Free ptr) h = Ret (0, 0) (h <| hk_boot := b |>) ∧ heap b = delete ptr (heap (hk_boot h)).
Proof using Type.
  intros Hok Hp. cbn [hook_body]. unfold hook_free, mbind at 1, prog_bind at 1. rewrite is_bootstrap_live, bool_decide_true by done.
  destruct (BootstrapFree_heap (hk_boot h) ptr (ho_boot _ Hok)) as (b & E & _ & Hh & _). exists b. split; [|done].
  unfold boot, zoom, mbind, prog_bind. by rewrite E.
Qed.
Lemma realloc_early self ptr size h :
  hooks_ok h → is_Some (heap (hk_boot h) !! ptr) → resolved sym_realloc h = true → word size →
  ∃ r b, hook_body out self (Realloc ptr size) h = Ret (r, 0) (h <| hk_boot := b |>) ∧
    heap_call (CallRealloc ptr size) r (heap (hk_boot h)) (heap b).
Proof using Hmmap Hpage.
  intros Hok Hp Hr Hs. cbn [hook_body]. unfold hook_realloc, mbind at 1, prog_bind at 1. rewrite is_bootstrap_live, bool_decide_true by done.
  destruct (BootstrapRealloc_heap _ _ Hpage Hmmap ptr size (hk_boot h) (ho_boot _ Hok) Hs) as (r & b & E & _ & Hh). exists r, b. split; [|done].
  unfold RESOLVE, boot, zoom, get, mbind, prog_bind, mret, prog_ret. rewrite Hr, !orb_true_r. by rewrite E.
Qed.
Lemma free_other self ptr h :
  hooks_ok h → heap (hk_boot h) !! ptr = None → allocHook_setup h = false → g_resolving_symbols h = false → resolved sym_free h = true →
  (bypassed out (hk_trace h) = false → hk_tracker h = Built) →
  let tr := entry (if bypassed out (hk_trace h) then Real (Free ptr) else Tracked (Free ptr)) h :: hk_trace h in
  hook_body out self (Free ptr) h = Ret (answer out tr) (h <| hk_trace := tr |>).
Proof using Type.
  intros Hok Hp HS HR Hr Ht. cbn [hook_body]. unfold hook_free, mbind at 1, prog_bind at 1.
  rewrite is_bootstrap_live, bool_decide_false by (done || rewrite Hp; by intros [? ?]).
  unfold RESOLVE, allocation, not_tracked, early, get, mbind, prog_bind, mret, prog_ret. rewrite Hr, HS, HR. cbn [orb negb].
  unfold Bypassed, get, mbind, prog_bind, mret, prog_ret. destruct (bypassed out (hk_trace h)) eqn:Eb.
  - rewrite Hr. cbn [negb]. by rewrite Eb, Hr.
  - rewrite Hr. cbn [negb]. rewrite Eb. unfold tracked_call, inst, get, mbind, prog_bind. by rewrite Ht.
Qed.


(** ** [operator new] *)

Lemma operator_new_result size h :
  idle h → word size → wp (λ _, False) (HookOperatorNew out size) h (λ r h', r ≠ 0 ∧ idle h') idle.
Proof using Hback Hmmap Hpage.
  intros Hi Hs. unfold HookOperatorNew. apply wp_bind. eapply wp_mono; [apply (hook_idle hook_depth _ h Hi); [done|]| |done].
  - cbn. destruct (Z.eqb_spec size 0); [unfold word; lia|done].
  - intros [r x] h' [Hi' _]. cbn. destruct (Z.eqb_spec r 0); [done|]. by apply wp_ret.
Qed.
Lemma operator_new_aligned_result size alignment h :
  idle h → word size → word alignment → wp (λ _, False) (HookOperatorNewAligned out size alignment) h (λ r h', r ≠ 0 ∧ idle h') idle.
Proof using Hback Hmmap Hpage.
  intros Hi Hs Ha. unfold HookOperatorNewAligned. apply wp_bind. eapply wp_mono; [apply (hook_idle hook_depth _ h Hi); [done|]| |done].
  - cbn. split; [done|]. destruct (Z.eqb_spec size 0); [unfold word; lia|done].
  - intros [e r] h' [Hi' _]. cbn. destruct (Z.eqb_spec e 0), (Z.eqb_spec r 0); cbn; done.
Qed.
(** The forms that do not throw return a null pointer instead. *)
Lemma catch_null_result (m : prog Hooks Z) h :
  wp (λ _, False) m h (λ r h', r ≠ 0 ∧ idle h') idle → wp (λ _, False) (catch_null m) h (λ _ h', idle h') (λ _, False).
Proof using Type. unfold wp, catch_null. destruct (m h); [|done|done]. by intros [_ ?]. Qed.
End hooks.

(** ** Examples *)

(** An Android device where a look-up allocates, the construction of the tracker
    allocates and frees, and everything is found except [malloc], the first
    time. *)
Definition last_event (tr : list Entry) : option Event := en_event <$> head tr.
Definition example_outside (bypass : bool) : Outside := {|
  answer tr := (Z.of_nat (length tr), 0);
  found tr := match tr with [_] | [_; _] => false | _ => true end;
  calls_back tr := match last_event tr with Some (LookUp sym_malloc) => [Calloc 4 8; Malloc 100] | Some Construct => [Malloc 24; Free 77] | Some TargetProcess => [Realloc 0 64] | _ => [] end;
  bypassed _ := bypass;
  tracking _ := true;
  loaded := [];
  android := true;
  api_level := 30;
  os_page_size := 4096;
  os_mmap := example_mmap;
|}.
Lemma example_back bypass tr : Forall call_valid (calls_back (example_outside bypass) tr).
Proof. cbn. destruct (last_event tr) as [[[]| | | | | | | | | |]|]; repeat constructor; cbn; unfold word; lia. Qed.

Definition example_steps : list HookStep := [Do (Malloc 10); DoFork false; Load; Do (Mmap 0 4096 3 34 (-1) 0 5); Do (Realloc 77 9); Do (FdsanClose 3 7)].
Lemma example_steps_valid : Forall step_valid example_steps.
Proof. unfold example_steps. repeat (apply Forall_cons; split; [cbn; unfold word; lia|]). constructor. Qed.

Lemma interposition_ends_witness :
  ∃ h, do_steps (example_outside false) example_steps Hooks_new = Ret () h ∧ hk_tracker h = Built ∧ length (hk_trace h) = 28%nat ∧
    (length (filter is_construct (hk_trace h)) ≤ 1)%nat.
Proof.
  destruct (interposition_ends (example_outside false) ltac:(by cbn) example_mmap_new (example_back false) example_steps example_steps_valid)
    as (h & E & _ & _ & Hc & _).
  exists h. split; [exact E|]. split; [|split; [|exact Hc]].
  - assert (match do_steps (example_outside false) example_steps Hooks_new with Ret _ h => hk_tracker h | _ => NotBuilt end = Built) as Et by (vm_compute; reflexivity).
    rewrite E in Et. exact Et.
  - assert (match do_steps (example_outside false) example_steps Hooks_new with Ret _ h => length (hk_trace h) | _ => 0%nat end = 28%nat) as Et by (vm_compute; reflexivity).
    rewrite E in Et. exact Et.
Defined.

