(* ===== verification/Probe.v ===== *)
(** * The stand-alone probe

    probe/alloc_hook_probe.cpp: a program that tries the allocators of device
    memory and writes what it saw as lines of JSON.  The kernel is any function
    from the calls so far to an answer; the calls and their answers are logged.
    Returning early from a case is [Err], after which its destructor runs.  A
    directory is the list of its names; the usage text, [perror] and the closing
    of the output when the program ends are left out. *)
From S2P Require Import Prelude CString ProcParse HookPolicy DmaBuf Outcome.
#[local] Open Scope string_scope.
#[local] Open Scope list_scope.
#[local] Open Scope Z_scope.

(** ** The kernel *)

Inductive Call :=
  | COpen (path : string) (write : bool) | CClose (fd : Z) | CRead (fd n : Z)
  | CIonAlloc (client len mask : Z) | CIonShare (client handle : Z) | CIonImport (client fd : Z) | CIonFree (client handle : Z)
  | CHeapAlloc (fd len : Z) | CIonNewAlloc (fd len mask : Z)
  | CMmap (len fd : Z) | CMunmap (addr len : Z)
  | CStat (path : string) | CAccess (path : string) | COpendir (path : string) | CClosedir
  | CUname | CGetuid | CPagesize | CProperty (name : string) | CClock | CFopen (path : string).
(** What a call returns, [errno] after it, the two numbers it stores (a handle or
    descriptor, a file mode, seconds and nanoseconds), the bytes it stores, and the
    names it lists.  A call of [read] that does not fail returns the number of
    bytes stored, never more than it was asked for. *)
Record Answer := mkAnswer { an_rc : Z; an_errno : Z; an_val : Z; an_val2 : Z; an_text : string; an_names : list string }.

(** ** JSON *)

Definition chr (n : nat) : string := String (ascii_of_nat n) EmptyString.
Definition quote : string := chr 34.
Definition backslash : string := chr 92.
Definition json_hex (d : Z) : ascii := ascii_of_nat (Z.to_nat (if d <? 10 then 48 + d else 87 + d)).
Definition escape_char (c : ascii) : string :=
  let n := char_code c in
  if n =? 34 then backslash +:+ quote
  else if n =? 92 then backslash +:+ backslash
  else if n =? 10 then backslash +:+ "n"
  else if n =? 13 then backslash +:+ "r"
  else if n =? 9 then backslash +:+ "t"
  else if n <? 32 then backslash +:+ "u00" +:+ String (json_hex (n / 16)) (String (json_hex (n mod 16)) EmptyString)
  else String c EmptyString.
Fixpoint Escape (src : string) : string :=
  match src with EmptyString => EmptyString | String c src => escape_char c +:+ Escape src end.

(** A conversion to [int64_t]. *)
Definition int64 (z : Z) : Z := let r := u64 z in if r <? 2 ^ 63 then r else r - 2 ^ 64.
(** A member: a text, a number that becomes an [int64_t], or a flag. *)
Inductive JsonValue := Text (value : string) | Number (value : Z) | Flag (value : bool).
Record Json := mkJson { js_s : string; js_count : nat }.
Definition Json_new : Json := mkJson "{" 0.
Definition print_int (z : Z) : string := if z <? 0 then "-" +:+ print_dec (- z) else print_dec z.
Definition json_value (v : JsonValue) : string :=
  match v with
  | Text value => quote +:+ Escape value +:+ quote
  | Number value => print_int (int64 value)
  | Flag value => if value then "true" else "false"
  end.
Definition json_add (key : string) (v : JsonValue) (j : Json) : Json :=
  mkJson (js_s j +:+ (if (0 <? js_count j)%nat then "," else EmptyString) +:+ quote +:+ key +:+ quote +:+ ":" +:+ json_value v) (S (js_count j)).
Definition json_line (members : list (string * JsonValue)) : string :=
  js_s (foldl (λ j '(key, v), json_add key v j) Json_new members) +:+ "}" +:+ chr 10.
(** ** Options *)

Definition kDefaultBytes : Z := 16 * 1024 * 1024.
Definition kMaximumBytes : Z := 64 * 1024 * 1024.
Definition kMaxEvidence : Z := 8192.
Record Options := mkOptions {
  o_command : string; o_backend : string; o_heap : string; o_cases : string; o_oracle : string; o_outfile : string; o_bytes : Z; o_mask : Z;
}.
#[global] Instance Options_upd : Updatable Options := λ o,
  mkOptions (o_command o) (o_backend o) (o_heap o) (o_cases o) (o_oracle o) (o_outfile o) (o_bytes o) (o_mask o).
Definition Options_new : Options := mkOptions "inspect" "auto" "system" "" "" "" kDefaultBytes 0.

(** [strtoull (text, &end, 0)]: the value and what is left, nothing with an
    error; without digits [end] is the text. *)
Definition strtoull_0 (text : string) : option (Z * string) :=
  let '(neg, r) := scan_sign (skip_while is_space text) in
  let h := scan_0x r in
  let base := if negb (String.eqb h r) then 16 else if String.prefix "0" r then 8 else 10 in
  let '(v, n, rest) := scan_digits base h 0 0 in
  if (n =? 0)%nat then Some (0, text)
  else if v >? SIZE_MAX then None else Some (if neg then u64 (- v) else v, rest).
Definition Integer (text : string) : option Z :=
  if String.eqb text EmptyString || String.prefix "-" text then None
  else match strtoull_0 text with Some (v, EmptyString) => Some v | _ => None end.

(** The arguments after the command; the status when the program ends here. *)
Fixpoint parse_options (args : list string) (o : Options) : Z + Options :=
  match args with
  | [] => inr o
  | key :: args =>
      if String.eqb key "--help" then inl 0
      else
        match args with
        | [] => inl 2
        | value :: args =>
            if String.eqb key "--backend" then parse_options args (o <| o_backend := value |>)
            else if String.eqb key "--heap" then parse_options args (o <| o_heap := value |>)
            else if String.eqb key "--cases" then parse_options args (o <| o_cases := value |>)
            else if String.eqb key "--oracle" then parse_options args (o <| o_oracle := value |>)
            else if String.eqb key "--output" then parse_options args (o <| o_outfile := value |>)
            else if String.eqb key "--bytes" || String.eqb key "--ion-heap-mask" then
              match Integer value with
              | None => inl 2
              | Some n =>
                  if String.eqb key "--bytes" then
                    if (n =? 0) || (n >? kMaximumBytes) then inl 2 else parse_options args (o <| o_bytes := n |>)
                  else if (n =? 0) || (n >? 2 ^ 32 - 1) then inl 2 else parse_options args (o <| o_mask := n |>)
              end
            else inl 2
        end
  end.
Fixpoint all_cases (s : string) : bool :=
  match s with EmptyString => true | String c s => (Ascii.eqb c "," || ((65 <=? char_code c) && (char_code c <=? 70))) && all_cases s end.
Definition is_ion (backend : string) : bool := String.eqb backend "legacy-ion" || String.eqb backend "modern-ion".
(** Lines 473-506. *)
Definition parse_args (args : list string) : Z + Options :=
  let help := match args with a :: _ => String.eqb a "--help" || String.eqb a "-h" | [] => false end in
  if help then inl 0
  else
    let '(command, args) := match args with a :: r => if String.prefix "-" a then ("inspect", args) else (a, r) | [] => ("inspect", []) end in
    if negb (String.eqb command "inspect") && negb (String.eqb command "run") then inl 2
    else
      match parse_options args (Options_new <| o_command := command |>) with
      | inl status => inl status
      | inr o =>
          if String.eqb (o_heap o) EmptyString || String.eqb (o_heap o) ".." || bool_decide (is_Some (strchr (o_heap o) "/")) then inl 2
          else if negb (String.eqb (o_backend o) "auto") && negb (String.eqb (o_backend o) "dma-heap") && negb (is_ion (o_backend o)) then inl 2
          else if String.eqb (o_command o) "run" && is_ion (o_backend o) && (o_mask o =? 0) then inl 2
          else if negb (all_cases (o_cases o)) then inl 2
          else inr o
      end.

(** ** State *)

Record Stats := mkStats { passed : Z; failed : Z; skipped : Z }.
#[global] Instance Stats_upd : Updatable Stats := λ s, mkStats (passed s) (failed s) (skipped s).
Definition Stats_new : Stats := mkStats 0 0 0.

Record Legacy := mkLegacy { client : Z; fds : list Z; handles : list Z; mapping : Z; mapped_bytes : Z }.
#[global] Instance Legacy_upd : Updatable Legacy := λ l, mkLegacy (client l) (fds l) (handles l) (mapping l) (mapped_bytes l).
Definition Legacy_new : Legacy := mkLegacy (-1) [] [] MAP_FAILED 0.

(** The calls so far, the last first; [errno]; the lines written; and what the
    cases keep. *)
Record Probe := mkProbe {
  p_log : list (Call * Answer); p_errno : Z; p_output : list string; p_stats : Stats; p_legacy : Legacy;
}.
#[global] Instance Probe_upd : Updatable Probe := λ p, mkProbe (p_log p) (p_errno p) (p_output p) (p_stats p) (p_legacy p).
Definition Probe_new : Probe := mkProbe [] 0 [] Stats_new Legacy_new.

Definition EPERM : Z := 1.
Definition EINTR : Z := 4.
Definition EIO : Z := 5.
Definition ENODEV : Z := 19.
Definition ENOTTY : Z := 25.
Definition ENOSYS : Z := 38.
Definition EOPNOTSUPP : Z := 95.
Definition S_ISDIR (mode : Z) : bool := Z.land mode 61440 =? 16384.
Definition S_ISCHR (mode : Z) : bool := Z.land mode 61440 =? 8192.

(** The system the program is compiled for. *)
Inductive Target := Android | TargetNamed (os : string) | TargetUnnamed.

Definition ALLOC_HOOK_ION_IOC_ALLOC : Z := IOWR ALLOC_HOOK_ION_IOC_MAGIC 0 sizeof_ion_allocation_data.
Definition ALLOC_HOOK_ION_IOC_NEW_ALLOC : Z := IOWR ALLOC_HOOK_ION_IOC_MAGIC 0 sizeof_ion_new_allocation_data.

Definition slen (s : string) : Z := Z.of_nat (String.length s).
(** The C string at the start of a string. *)
Fixpoint c_str (s : string) : string :=
  match s with EmptyString => EmptyString | String c s => if char_code c =? 0 then EmptyString else String c (c_str s) end.

(** The value of the line with [key]; a line starts here when [start]. *)
Definition is_blank (c : ascii) : bool := (char_code c =? 32) || (char_code c =? 9).
Definition line_of (s : string) : string := match strchr s newline with Some n => stake n s | None => s end.
Fixpoint FdField_from (prefix : string) (start : bool) (input : string) : string :=
  match input with
  | EmptyString => EmptyString
  | String c rest =>
      if start && starts_with prefix input then skip_while is_blank (line_of (sdrop (String.length prefix) input))
      else FdField_from prefix (Ascii.eqb c newline) rest
  end.
Definition FdField (input key : string) : string := FdField_from (key +:+ ":") true input.

Definition Unsupported (error : Z) : bool :=
  (error =? ENOTTY) || (error =? ENOSYS) || (error =? ENODEV) || (error =? EACCES) || (error =? EPERM) || (error =? EOPNOTSUPP).

(** [std::find] and [erase] *)
Fixpoint erase_first {A} `{EqDecision A} (x : A) (l : list A) : list A :=
  match l with [] => [] | y :: l => if decide (x = y) then l else y :: erase_first x l end.
Definition UntrackFd (fd : Z) (l : Legacy) : Legacy := l <| fds := erase_first fd (fds l) |>.
Definition UntrackHandle (h : Z) (l : Legacy) : Legacy := l <| handles := erase_first h (handles l) |>.

(** ** Calls and output *)

Section probe.
Context (kernel : list (Call * Answer) → Call → Answer) (strerror : Z → string) (target : Target) (fuel : nat).

Definition call (c : Call) : prog Probe Answer := λ p,
  let a := kernel (p_log p) c in Ret a (p <| p_log := (c, a) :: p_log p |> <| p_errno := an_errno a |>).
Definition get_errno : prog Probe Z := p ← get; mret (p_errno p).
Definition set_errno (e : Z) : prog Probe unit := modify (λ p, p <| p_errno := e |>).
Definition Write (members : list (string * JsonValue)) : prog Probe unit :=
  modify (λ p, p <| p_output := p_output p ++ [c_str (json_line members)] |>).
Definition on_stats (f : Stats → Stats) : prog Probe unit := modify (λ p, p <| p_stats := f (p_stats p) |>).
Definition on_legacy (f : Legacy → Legacy) : prog Probe unit := modify (λ p, p <| p_legacy := f (p_legacy p) |>).

(** ** Evidence *)

Record ReadResult := mkRead { rr_text : string; rr_error : Z; rr_truncated : bool }.
(** [read (fd, buf, nbytes)]: nothing when it fails. *)
Definition read (fd nbytes : Z) : prog Probe (option string) :=
  a ← call (CRead fd nbytes);
  mret (if an_rc a <? 0 then None else Some (stake (Z.to_nat nbytes) (an_text a))).
Fixpoint read_loop (fuel : nat) (fd : Z) (text : string) : prog Probe (string * Z) :=
  if slen text <? kMaxEvidence then
    match fuel with
    | O => undef NoFuel
    | S fuel =>
        got ← read fd (Z.min 1024 (kMaxEvidence - slen text));
        match got with
        | None => e ← get_errno; if e =? EINTR then read_loop fuel fd text else mret (text, e)
        | Some EmptyString => mret (text, 0)
        | Some bytes => read_loop fuel fd (text +:+ bytes)
        end
    end
  else mret (text, 0).
Definition ReadFile (path : string) : prog Probe ReadResult :=
  a ← call (COpen path false);
  if an_rc a <? 0 then e ← get_errno; mret (mkRead EmptyString e false)
  else
    r ← read_loop fuel (an_rc a) EmptyString;
    extra ← (if slen r.1 =? kMaxEvidence then read (an_rc a) 1 else mret None);
    _ ← call (CClose (an_rc a));
    mret (mkRead r.1 r.2 (match extra with Some (String _ _) => true | _ => false end)).

Definition ClockNs : prog Probe Z :=
  a ← call CClock; mret (if an_rc a =? 0 then u64 (an_val a) ⊠ 1000000000 ⊞ u64 (an_val2 a) else 0).

Definition Capability (name path : string) (directory : bool) : prog Probe unit :=
  st ← call (CStat path);
  let exists_ := an_rc st =? 0 in
  readable ← (if exists_ && (negb directory || S_ISDIR (an_val st)) then a ← call (CAccess path); mret (an_rc a =? 0) else mret false);
  Write [("kind", Text "capability"); ("name", Text name); ("path", Text path); ("exists", Flag exists_); ("readable", Flag readable)].

Fixpoint heap_nodes (names : list string) : prog Probe (list string) :=
  match names with
  | [] => mret []
  | n :: names =>
      if starts_with "." n then heap_nodes names
      else
        st ← call (CStat ("/dev/dma_heap/" +:+ n));
        rest ← heap_nodes names;
        mret (if (an_rc st =? 0) && S_ISCHR (an_val st) then n :: rest else rest)
  end.
Definition Heaps : prog Probe (list string) :=
  dir ← call (COpendir "/dev/dma_heap");
  if an_rc dir =? 0 then mret []
  else names ← heap_nodes (an_names dir); _ ← call CClosedir; mret names.

Fixpoint heap_capabilities (heaps : list string) : prog Probe unit :=
  match heaps with
  | [] => mret ()
  | h :: heaps => _ ← Capability "dma_heap_node" ("/dev/dma_heap/" +:+ h) false; heap_capabilities heaps
  end.
Definition target_members : prog Probe (list (string * JsonValue)) :=
  match target with
  | Android => sdk ← call (CProperty "ro.build.version.sdk"); mret [("target", Text "android"); ("android_sdk", Text (an_text sdk))]
  | TargetNamed os => mret [("target", Text os)]
  | TargetUnnamed => mret [("target", Text "linux_or_ohos")]
  end.
Definition Inspect : prog Probe unit :=
  u ← call CUname;
  let name i := nth i (an_names u) EmptyString in
  uid ← call CGetuid;
  page ← call CPagesize;
  more ← target_members;
  _ ← Write ([("kind", Text "platform"); ("sysname", Text (name 0%nat)); ("release", Text (name 1%nat)); ("machine", Text (name 2%nat));
              ("uid", Number (u32 (an_rc uid))); ("page_size", Number (an_rc page))] ++ more);
  _ ← Write [("kind", Text "compiled_abi"); ("legacy_ion_alloc", Number ALLOC_HOOK_ION_IOC_ALLOC);
             ("modern_ion_alloc", Number ALLOC_HOOK_ION_IOC_NEW_ALLOC); ("dma_heap_alloc", Number DMA_HEAP_IOCTL_ALLOC);
             ("legacy_ion_struct_size", Number sizeof_ion_allocation_data); ("runtime_abi_verified", Flag false)];
  _ ← Capability "ion" "/dev/ion" false;
  _ ← Capability "dma_heap" "/dev/dma_heap" true;
  _ ← Capability "proc_fdinfo" "/proc/self/fdinfo" true;
  _ ← Capability "dma_buf_debugfs" "/sys/kernel/debug/dma_buf/bufinfo" false;
  _ ← Capability "dma_buf_sysfs" "/sys/kernel/dmabuf/buffers" true;
  _ ← Capability "ion_debugfs" "/sys/kernel/debug/ion/heaps" true;
  _ ← Capability "selinux" "/sys/fs/selinux/enforce" false;
  heaps ← Heaps;
  _ ← heap_capabilities heaps;
  Write [("kind", Text "limitation"); ("message", Text "dma-buf inode identifies an export, not necessarily a backing allocation; missing kernel counters are unknown, not zero")].

(** ** Samples *)

Definition fdinfo_members (r : ReadResult) : list (string * JsonValue) :=
  ("fdinfo_readable", Flag (rr_error r =? 0)) ::
  (if rr_error r =? 0 then
     [("fdinfo_raw", Text (rr_text r)); ("fdinfo_ino", Text (FdField (rr_text r) "ino")); ("fdinfo_size", Text (FdField (rr_text r) "size"));
      ("fdinfo_count", Text (FdField (rr_text r) "count")); ("fdinfo_exp_name", Text (FdField (rr_text r) "exp_name"));
      ("fdinfo_truncated", Flag (rr_truncated r))]
   else [("fdinfo_errno", Number (rr_error r))]).
Definition oracle_members (path : string) (r : ReadResult) : list (string * JsonValue) :=
  ("oracle_path", Text path) :: ("oracle_readable", Flag (rr_error r =? 0)) ::
  (if rr_error r =? 0 then [("oracle_raw", Text (rr_text r)); ("oracle_truncated", Flag (rr_truncated r))]
   else [("oracle_errno", Number (rr_error r))]).
Definition Sample (o : Options) (id stage : string) (rc error fd handle : Z) : prog Probe unit :=
  saved ← get_errno;
  ns ← ClockNs;
  fdinfo ← (if 0 <=? fd then r ← ReadFile ("/proc/self/fdinfo/" +:+ print_int fd); mret (fdinfo_members r) else mret []);
  oracle ← (if String.eqb (o_oracle o) EmptyString then mret [] else r ← ReadFile (o_oracle o); mret (oracle_members (o_oracle o) r));
  _ ← Write ([("kind", Text "sample"); ("case", Text id); ("stage", Text stage); ("monotonic_ns", Number ns); ("result", Number rc);
              ("errno", Number error); ("dma_fd", Number fd); ("ion_handle", Number handle)] ++ fdinfo ++ oracle);
  set_errno saved.
Definition Finished (id status reason : string) : prog Probe unit :=
  Write [("kind", Text "case_end"); ("case", Text id); ("status", Text status); ("reason", Text reason);
         ("backing_allocation_independently_verified", Flag false)].
Definition Failure (id what : string) (error : Z) : prog Probe unit :=
  let skip := Unsupported error in
  _ ← on_stats (λ s, if skip then s <| skipped := skipped s + 1 |> else s <| failed := failed s + 1 |>);
  Finished id (if skip then "unsupported" else "fail") (what +:+ ": " +:+ strerror error).
(** A failure ends the case. *)
Definition abandon {A} (id what : string) (error : Z) : prog Probe A := _ ← Failure id what error; fail.
Definition end_case (id : string) (ok : bool) : prog Probe unit :=
  if ok then _ ← on_stats (λ s, s <| passed := passed s + 1 |>); Finished id "pass" "UAPI sequence completed; verify backing separately"
  else _ ← on_stats (λ s, s <| failed := failed s + 1 |>); Finished id "fail" "one or more UAPI operations failed".
(** [errno = 0; rc = call; error = rc == 0 ? 0 : errno;] *)
Definition attempt (c : Call) : prog Probe (Answer * Z) :=
  _ ← set_errno 0; a ← call c; e ← get_errno; mret (a, if an_rc a =? 0 then 0 else e).

(** ** The sequences of legacy ION *)

Fixpoint close_all (l : list Z) : prog Probe unit :=
  match l with [] => mret () | fd :: l => _ ← call (CClose fd); close_all l end.
Fixpoint free_all (c : Z) (l : list Z) : prog Probe unit :=
  match l with [] => mret () | h :: l => _ ← call (CIonFree c h); free_all c l end.
Definition legacy : prog Probe Legacy := p ← get; mret (p_legacy p).
Definition Cleanup : prog Probe unit :=
  l ← legacy;
  _ ← (if mapping l =? MAP_FAILED then mret ()
       else _ ← call (CMunmap (mapping l) (mapped_bytes l)); on_legacy (λ l, l <| mapping := MAP_FAILED |>));
  _ ← close_all (fds l);
  _ ← on_legacy (λ l, l <| fds := [] |>);
  _ ← (if 0 <=? client l then
         _ ← free_all (client l) (handles l); _ ← call (CClose (client l)); on_legacy (λ l, l <| client := -1 |>)
       else mret ());
  on_legacy (λ l, l <| handles := [] |>).

Definition finally (m destroy : prog Probe unit) : prog Probe unit := λ p,
  match m p with Ret _ p' | Err p' => destroy p' | Fault f => Fault f end.

Section case.
Context (o : Options) (id : string).

(** The lambdas of [LegacyCase]. *)
Definition share (h : Z) : prog Probe Z :=
  l ← legacy;
  r ← attempt (CIonShare (client l) h);
  let ok := an_rc r.1 =? 0 in
  let fd := if ok then an_val r.1 else -1 in
  _ ← Sample o id "ion_share" (an_rc r.1) r.2 fd h;
  _ ← (if ok && (0 <=? an_val r.1) then on_legacy (λ l, l <| fds := fds l ++ [an_val r.1] |>) else mret ());
  mret fd.
Definition release (h : Z) : prog Probe bool :=
  l ← legacy;
  r ← attempt (CIonFree (client l) h);
  _ ← Sample o id "ion_free" (an_rc r.1) r.2 (-1) h;
  _ ← (if an_rc r.1 =? 0 then on_legacy (UntrackHandle h) else mret ());
  mret (an_rc r.1 =? 0).
Definition close_fd (fd : Z) : prog Probe bool :=
  r ← attempt (CClose fd);
  _ ← Sample o id "close_dmabuf_fd" (an_rc r.1) r.2 (-1) (-1);
  _ ← (if an_rc r.1 =? 0 then on_legacy (UntrackFd fd) else mret ());
  mret (an_rc r.1 =? 0).
Definition errno_or_EIO : prog Probe Z := e ← get_errno; mret (if e =? 0 then EIO else e).

(** Lines 338-342 *)
Definition case_B (h fd : Z) : prog Probe bool :=
  second ← share h;
  if second <? 0 then e ← errno_or_EIO; abandon id "second SHARE" e
  else ok ← release h; ok1 ← close_fd fd; ok2 ← close_fd second; mret (ok2 && (ok1 && ok)).
(** Lines 344-357 *)
Definition case_C (h fd : Z) : prog Probe bool :=
  l ← legacy;
  r ← attempt (CIonImport (client l) fd);
  _ ← Sample o id "ion_import" (an_rc r.1) r.2 fd (if an_rc r.1 =? 0 then an_val r.1 else -1);
  if an_rc r.1 <? 0 then abandon id "ION_IOC_IMPORT" r.2
  else
    let imported := an_val r.1 in
    _ ← on_legacy (λ l, l <| handles := handles l ++ [imported] |>);
    second ← share imported;
    if second <? 0 then e ← errno_or_EIO; abandon id "SHARE imported handle" e
    else
      ok ← release imported; ok1 ← release h; ok2 ← close_fd fd; ok3 ← close_fd second;
      mret (ok3 && (ok2 && (ok1 && ok))).
(** Lines 362-375 *)
Definition case_E (h fd : Z) : prog Probe bool :=
  _ ← set_errno 0;
  m ← call (CMmap (o_bytes o) fd);
  _ ← on_legacy (λ l, l <| mapping := an_rc m |>);
  e ← get_errno;
  let none := an_rc m =? MAP_FAILED in
  let err := if none then e else 0 in
  _ ← Sample o id "mmap" (if none then -1 else 0) err fd (-1);
  if none then abandon id "mmap" err
  else
    _ ← on_legacy (λ l, l <| mapped_bytes := o_bytes o |>);
    ok ← close_fd fd;
    l ← legacy;
    r ← attempt (CMunmap (mapping l) (mapped_bytes l));
    _ ← Sample o id "munmap" (an_rc r.1) r.2 (-1) (-1);
    _ ← (if an_rc r.1 =? 0 then on_legacy (λ l, l <| mapping := MAP_FAILED |>) else mret ());
    ok1 ← release h;
    mret (ok1 && ((an_rc r.1 =? 0) && ok)).
(** Lines 377-383 *)
Definition case_F (fd : Z) : prog Probe bool :=
  l ← legacy;
  r ← attempt (CClose (client l));
  _ ← Sample o id "close_ion_client" (an_rc r.1) r.2 fd (-1);
  _ ← (if an_rc r.1 =? 0 then on_legacy (λ l, l <| client := -1 |> <| handles := [] |>) else mret ());
  ok ← close_fd fd;
  mret (ok && (an_rc r.1 =? 0)).
Definition case_steps (h fd : Z) : prog Probe bool :=
  if String.eqb id "B" then case_B h fd
  else if String.eqb id "C" then case_C h fd
  else if String.eqb id "D" then ok ← close_fd fd; ok1 ← release h; mret (ok1 && ok)
  else if String.eqb id "E" then case_E h fd
  else if String.eqb id "F" then case_F fd
  else ok ← release h; ok1 ← close_fd fd; mret (ok1 && ok).

(** An allocated buffer, or the end of the case. *)
Definition legacy_alloc : prog Probe Z :=
  _ ← Sample o id "baseline" 0 0 (-1) (-1);
  a ← call (COpen "/dev/ion" true);
  _ ← on_legacy (λ l, l <| client := an_rc a |>);
  if an_rc a <? 0 then
    e ← get_errno;
    _ ← on_stats (λ s, s <| skipped := skipped s + 1 |>);
    _ ← Finished id "skip" ("open /dev/ion: " +:+ strerror e);
    fail
  else
    l ← legacy;
    r ← attempt (CIonAlloc (client l) (o_bytes o) (o_mask o));
    let h := an_val r.1 in
    _ ← Sample o id "ion_alloc" (an_rc r.1) r.2 (-1) (if an_rc r.1 =? 0 then h else -1);
    if an_rc r.1 <? 0 then abandon id "ION_IOC_ALLOC" r.2
    else _ ← on_legacy (λ l, l <| handles := handles l ++ [h] |>); mret h.
Definition LegacyCase_body : prog Probe unit :=
  h ← legacy_alloc;
  fd ← share h;
  if fd <? 0 then e ← errno_or_EIO; abandon id "ION_IOC_SHARE" e
  else
    ok ← case_steps h fd;
    _ ← Cleanup;
    _ ← Sample o id "after_cleanup" 0 0 (-1) (-1);
    end_case id ok.
(** The [Legacy] of the case is destroyed however the case ends. *)
Definition LegacyCase : prog Probe unit :=
  _ ← on_legacy (λ _, Legacy_new); finally LegacyCase_body Cleanup.
End case.

(** ** The sequences that give a descriptor *)

(** A call that returned early is over. *)
Definition returns (m : prog Probe unit) : prog Probe unit := λ p,
  match m p with Err p' => Ret () p' | r => r end.

(** Lines 404-425: the descriptor, or the end of the case. *)
Definition direct_alloc (o : Options) (id : string) (heap : bool) (allocator : Z) : prog Probe Z :=
  r ← attempt (if heap then CHeapAlloc allocator (o_bytes o) else CIonNewAlloc allocator (o_bytes o) (o_mask o));
  let fd := if an_rc r.1 =? 0 then i32 (an_val r.1) else -1 in
  _ ← Sample o id "alloc_fd" (an_rc r.1) r.2 fd (-1);
  if (an_rc r.1 <? 0) || (fd <? 0) then
    _ ← Failure id "allocator ioctl" (if r.2 =? 0 then EIO else r.2); _ ← call (CClose allocator); fail
  else mret fd.
(** Lines 426-448 *)
Definition direct_use (o : Options) (id : string) (mapping : bool) (allocator fd : Z) : prog Probe unit :=
  mapped ← (if mapping then
              _ ← set_errno 0;
              m ← call (CMmap (o_bytes o) fd);
              e ← get_errno;
              let none := an_rc m =? MAP_FAILED in
              _ ← Sample o id "mmap" (if none then -1 else 0) (if none then e else 0) fd (-1);
              mret (an_rc m)
            else mret MAP_FAILED);
  let ok := negb (mapping && (mapped =? MAP_FAILED)) in
  r ← attempt (CClose fd);
  _ ← Sample o id "close_dmabuf_fd" (an_rc r.1) r.2 (-1) (-1);
  let ok := (an_rc r.1 =? 0) && ok in
  ok ← (if mapped =? MAP_FAILED then mret ok
        else
          r ← attempt (CMunmap mapped (o_bytes o));
          _ ← Sample o id "munmap" (an_rc r.1) r.2 (-1) (-1);
          mret ((an_rc r.1 =? 0) && ok));
  _ ← call (CClose allocator);
  _ ← Sample o id "after_cleanup" 0 0 (-1) (-1);
  end_case id ok.
Definition DirectCase (o : Options) (backend : string) (mapping : bool) : prog Probe unit :=
  let id := if mapping then "mapping" else "direct" in
  let heap := String.eqb backend "dma-heap" in
  _ ← Sample o id "baseline" 0 0 (-1) (-1);
  a ← call (COpen (if heap then "/dev/dma_heap/" +:+ o_heap o else "/dev/ion") true);
  if an_rc a <? 0 then
    e ← get_errno;
    _ ← on_stats (λ s, s <| skipped := skipped s + 1 |>);
    Finished id "skip" ("open allocator: " +:+ strerror e)
  else returns (fd ← direct_alloc o id heap (an_rc a); direct_use o id mapping (an_rc a) fd).

(** ** The program *)

Fixpoint legacy_cases (o : Options) (cases : string) (seen : list ascii) : prog Probe unit :=
  match cases with
  | EmptyString => mret ()
  | String letter cases =>
      if Ascii.eqb letter "," || bool_decide (letter ∈ seen) then legacy_cases o cases seen
      else _ ← LegacyCase o (String letter EmptyString); legacy_cases o cases (letter :: seen)
  end.
Definition choose_backend (o : Options) : prog Probe string :=
  if String.eqb (o_backend o) "auto" then
    heaps ← Heaps;
    mret (if bool_decide (o_heap o ∈ heaps) then "dma-heap" else if negb (o_mask o =? 0) then "legacy-ion" else "unavailable")
  else mret (o_backend o).
(** Lines 542-549 *)
Definition summary : prog Probe Z :=
  p ← get;
  let s := p_stats p in
  _ ← Write [("kind", Text "summary"); ("passed", Number (passed s)); ("failed", Number (failed s));
             ("unsupported_or_skipped", Number (skipped s)); ("kernel_backing_lifetime_proven", Flag false)];
  mret (if negb (failed s =? 0) then 1 else if negb (passed s =? 0) then 0 else 3).
(** Lines 513-549 *)
Definition run_cases (o : Options) : prog Probe Z :=
  backend ← choose_backend o;
  _ ← Write [("kind", Text "run_config"); ("backend", Text backend); ("requested_bytes", Number (o_bytes o)); ("heap", Text (o_heap o));
             ("kernel_oracle_configured", Flag (negb (String.eqb (o_oracle o) EmptyString)))];
  if String.eqb backend "unavailable" then
    _ ← Finished "discovery" "unsupported" "no selected dma-heap; specify an ION backend and heap mask"; mret 3
  else
    _ ← on_stats (λ _, Stats_new);
    if String.eqb backend "legacy-ion" then
      _ ← legacy_cases o (if String.eqb (o_cases o) EmptyString then "ABCDEF" else o_cases o) []; summary
    else if negb (String.eqb (o_cases o) EmptyString) then mret 2
    else _ ← DirectCase o backend false; _ ← DirectCase o backend true; summary.
(** Lines 507-510 *)
Definition open_output (o : Options) : prog Probe bool :=
  if String.eqb (o_outfile o) EmptyString then mret true else f ← call (CFopen (o_outfile o)); mret (negb (an_rc f =? 0)).
Definition Run (args : list string) : prog Probe Z :=
  match parse_args args with
  | inl status => mret status
  | inr o =>
      opened ← open_output o;
      if opened : bool then
        _ ← Inspect;
        if String.eqb (o_command o) "inspect" then mret 0 else run_cases o
      else mret 2
  end.
End probe.
