(* ===== verification/ProbeJson.v ===== *)
(** * Reading the lines of the probe back

    A reader of JSON objects with texts, integers and flags, and that it gives back
    the members of every line the probe writes (Probe.v).  Bytes from 128 on are
    taken as they are. *)
From S2P Require Import Prelude CString LineReader ProcParse Probe.
#[local] Open Scope string_scope.
#[local] Open Scope list_scope.
#[local] Open Scope Z_scope.

(** ** The reader *)

Definition unescape (c : ascii) : option ascii :=
  let n := char_code c in
  if (n =? 34) || (n =? 92) || (n =? 47) then Some c
  else if n =? 98 then Some (ascii_of_nat 8) else if n =? 102 then Some (ascii_of_nat 12)
  else if n =? 110 then Some (ascii_of_nat 10) else if n =? 114 then Some (ascii_of_nat 13)
  else if n =? 116 then Some (ascii_of_nat 9) else None.
(** The rest of a text after its first quote; control characters are refused. *)
Fixpoint read_text (s : string) : option (string * string) :=
  match s with
  | EmptyString => None
  | String c s =>
      if char_code c =? 34 then Some (EmptyString, s)
      else if char_code c <? 32 then None
      else if char_code c =? 92 then
        match s with
        | String "u" (String "0" (String "0" (String h (String l s)))) =>
            match digit_val h, digit_val l with
            | Some h, Some l => prod_map (String (ascii_of_nat (Z.to_nat (16 * h + l)))) id <$> read_text s
            | _, _ => None
            end
        | String e s => match unescape e with Some c => prod_map (String c) id <$> read_text s | None => None end
        | EmptyString => None
        end
      else prod_map (String c) id <$> read_text s
  end.
Definition read_number (s : string) : option (Z * string) :=
  let '(neg, r) := scan_sign s in
  let '(v, n, rest) := scan_digits 10 r 0 0 in
  if (n =? 0)%nat then None else Some (if neg then - v else v, rest).
Definition read_value (s : string) : option (JsonValue * string) :=
  match s with
  | String "034" s => '(t, s) ← read_text s; Some (Text t, s)
  | String "t" (String "r" (String "u" (String "e" s))) => Some (Flag true, s)
  | String "f" (String "a" (String "l" (String "s" (String "e" s)))) => Some (Flag false, s)
  | _ => '(n, s) ← read_number s; Some (Number n, s)
  end.
Fixpoint read_members (fuel : nat) (s : string) : option (list (string * JsonValue)) :=
  match fuel, s with
  | S fuel, String "034" s =>
      '(key, s) ← read_text s;
      match s with
      | String ":" s =>
          '(v, s) ← read_value s;
          match s with
          | String "}" (String "010" EmptyString) => Some [(key, v)]
          | String "," s => cons (key, v) <$> read_members fuel s
          | _ => None
          end
      | _ => None
      end
  | _, _ => None
  end.
(** A line with one object that has members. *)
Definition read_line (s : string) : option (list (string * JsonValue)) :=
  match s with String "{" r => read_members (String.length r) r | _ => None end.

(** ** Texts *)

Lemma read_escape_char c r : read_text (escape_char c +:+ r) = prod_map (String c) id <$> read_text r.
Proof. destruct c as [[] [] [] [] [] [] [] []]; reflexivity. Qed.
Lemma read_Escape s r : read_text (Escape s +:+ String "034" r) = Some (s, r).
Proof.
  induction s as [|c s IH]; [done|]. cbn [Escape]. by rewrite string_app_assoc, read_escape_char, IH.
Qed.

(** A key the quotes can hold as it is. *)
Fixpoint plain_key (s : string) : bool :=
  match s with EmptyString => true | String c s => (32 <=? char_code c) && negb (char_code c =? 34) && negb (char_code c =? 92) && plain_key s end.
Lemma plain_Escape s : plain_key s = true → Escape s = s.
Proof.
  induction s as [|c s IH]; [done|]. cbn [plain_key Escape]. intros [[[? ?]%andb_true_iff ?]%andb_true_iff Hs]%andb_true_iff.
  rewrite IH by done. assert (escape_char c = String c EmptyString) as ->; [|done].
  revert H H0 H1. clear. destruct c as [[] [] [] [] [] [] [] []]; vm_compute; congruence.
Qed.

(** ** Numbers *)

Lemma int64_range z : - 2 ^ 63 ≤ int64 z < 2 ^ 63.
Proof. unfold int64. pose proof (u64_range z). destruct (Z.ltb_spec (u64 z) (2 ^ 63)); lia. Qed.
(** What follows a member in a line. *)
Definition closing (r : string) : Prop := ∃ c r', r = String c r' ∧ digit_val c = None.
Lemma scan_print_dec z r : 0 ≤ z < 10 ^ 20 → closing r → ∃ k, scan_digits 10 (print_dec z +:+ r) 0 0 = (z, S k, r).
Proof.
  intros Hz (c & r' & -> & Hc). unfold print_dec. rewrite <-dec_digits_app.
  destruct (scan_dec_digits 20 z (String c r') 0 0) as (k & Hk & ->); [done|lia|].
  destruct k as [|k]; [lia|]. exists k. cbn [scan_digits]. by rewrite Hc, Z.mul_0_l, Z.add_0_l.
Qed.
Lemma print_dec_head z : 0 ≤ z → ∃ d r, 0 ≤ d < 10 ∧ print_dec z = String (digit_char d) r.
Proof. intros Hz. apply dec_digits_head; lia. Qed.
Lemma read_number_print z r : closing r → read_number (print_int (int64 z) +:+ r) = Some (int64 z, r).
Proof.
  intros Hr. pose proof (int64_range z) as Hz. unfold read_number, print_int. destruct (Z.ltb_spec (int64 z) 0).
  - rewrite string_app_assoc. change ("-" +:+ ?x) with (String "-" x). cbn [scan_sign].
    destruct (scan_print_dec (- int64 z) r) as [k ->]; [lia|done|]. cbn [Nat.eqb]. by rewrite Z.opp_involutive.
  - destruct (scan_print_dec (int64 z) r) as [k Hk]; [lia|done|]. destruct (print_dec_head (int64 z)) as (d & s & Hd & Hs); [done|].
    rewrite Hs in *. change (String (digit_char d) s +:+ r) with (String (digit_char d) (s +:+ r)) in *.
    by rewrite scan_sign_digit_char, Hk.
Qed.

(** ** Lines *)

Definition written (v : JsonValue) : JsonValue := match v with Number n => Number (int64 n) | _ => v end.
Lemma read_value_number z r : closing r → read_value (print_int (int64 z) +:+ r) = Some (Number (int64 z), r).
Proof.
  intros Hr. pose proof (read_number_print z r Hr) as Hn. revert Hn. unfold print_int.
  destruct (Z.ltb_spec (int64 z) 0).
  - rewrite string_app_assoc. change ("-" +:+ ?x) with (String "-" x). cbn [read_value]. by intros ->.
  - destruct (print_dec_head (int64 z)) as (d & s & Hd & ->); [done|]. change (String (digit_char d) s +:+ r) with (String (digit_char d) (s +:+ r)).
    assert (d = 0 ∨ d = 1 ∨ d = 2 ∨ d = 3 ∨ d = 4 ∨ d = 5 ∨ d = 6 ∨ d = 7 ∨ d = 8 ∨ d = 9) as Hc by lia.
    repeat destruct Hc as [->|Hc]; [..|subst d]; cbn -[read_number]; by intros ->.
Qed.
Lemma read_json_value v r : closing r → read_value (json_value v +:+ r) = Some (written v, r).
Proof.
  intros Hr. destruct v as [t|n|b]; cbn [json_value written].
  - rewrite !string_app_assoc. change (read_value _) with ('(t, s) ← read_text (Escape t +:+ String "034" r); Some (Text t, s)).
    by rewrite read_Escape.
  - by apply read_value_number.
  - by destruct b.
Qed.

Fixpoint members_text (more : bool) (members : list (string * JsonValue)) : string :=
  match members with
  | [] => EmptyString
  | (key, v) :: members =>
      (if more then "," else EmptyString) +:+ String "034" (key +:+ String "034" (String ":" (json_value v +:+ members_text true members)))
  end.
Lemma fold_members members : ∀ j, js_s (foldl (λ j '(key, v), json_add key v j) j members) = js_s j +:+ members_text (0 <? js_count j)%nat members.
Proof.
  induction members as [|[key v] members IH]; intros j; cbn [foldl members_text]; [by rewrite string_app_nil|].
  rewrite IH. unfold json_add. cbn [js_s js_count]. by rewrite !string_app_assoc.
Qed.
Definition closed_line : string := String "}" (String "010" EmptyString).
Lemma json_line_members members : json_line members = String "{" (members_text false members +:+ closed_line).
Proof. unfold json_line. rewrite fold_members, !string_app_assoc. done. Qed.

Definition keys_plain (members : list (string * JsonValue)) : bool := forallb (λ m, plain_key m.1) members.
Lemma members_text_more x members : members_text true (x :: members) = String "," (members_text false (x :: members)).
Proof. by destruct x. Qed.
Lemma read_key key r : plain_key key = true → read_text (key +:+ String "034" r) = Some (key, r).
Proof. intros Hk. rewrite <-(plain_Escape key Hk) at 1. apply read_Escape. Qed.
Lemma members_text_first key v members r :
  members_text false ((key, v) :: members) +:+ r =
  String "034" (key +:+ String "034" (String ":" (json_value v +:+ (members_text true members +:+ r)))).
Proof.
  cbn [members_text]. change (EmptyString +:+ ?s) with s. change (String ?c ?s +:+ r) with (String c (s +:+ r)). f_equal.
  rewrite string_app_assoc. f_equal. change (String ?c ?s +:+ r) with (String c (s +:+ r)). do 2 f_equal.
  change (String ?c ?s +:+ r) with (String c (s +:+ r)). f_equal. apply string_app_assoc.
Qed.
Lemma read_members_text fuel members : (length members ≤ fuel)%nat → members ≠ [] → keys_plain members = true →
  read_members fuel (members_text false members +:+ closed_line) = Some (prod_map id written <$> members).
Proof.
  revert fuel. induction members as [|[key v] members IH]; [done|]. intros [|fuel] Hf _; cbn [length] in Hf; [lia|].
  cbn [keys_plain forallb]. intros [Hk Hks]%andb_true_iff. rewrite members_text_first. cbn [read_members].
  rewrite read_key by done. cbn [mbind option_bind]. destruct members as [|y members].
  - rewrite read_json_value by (eexists _, _; split; reflexivity). done.
  - rewrite members_text_more. change (String "," ?s +:+ closed_line) with (String "," (s +:+ closed_line)).
    rewrite read_json_value by (eexists _, _; split; reflexivity). cbn [mbind option_bind]. rewrite IH by (done || (cbn in *; lia)). done.
Qed.
Lemma members_text_length members : ∀ more, (length members ≤ String.length (members_text more members))%nat.
Proof.
  induction members as [|[key v] members IH]; intros more; cbn [members_text length]; [lia|].
  specialize (IH true). rewrite !string_length_app. cbn. rewrite !string_length_app. cbn. rewrite !string_length_app. lia.
Qed.

(** [fputs] writes the whole line, as it has no zero byte. *)
Definition no_zero (s : string) : Prop := c_str s = s.
Lemma no_zero_app a b : no_zero a → no_zero b → no_zero (a +:+ b).
Proof.
  unfold no_zero. intros Ha Hb. induction a as [|c a IH]; [done|]. cbn in Ha. change (String c a +:+ b) with (String c (a +:+ b)). cbn.
  destruct (char_code c =? 0); [done|]. injection Ha as Ha. by rewrite IH.
Qed.
Lemma no_zero_cons c s : char_code c ≠ 0 → no_zero s → no_zero (String c s).
Proof. unfold no_zero. cbn. intros Hc%Z.eqb_neq ->. by rewrite Hc. Qed.
Lemma no_zero_Escape s : no_zero (Escape s).
Proof.
  induction s as [|c s IH]; [done|]. cbn [Escape]. apply no_zero_app; [|done]. by destruct c as [[] [] [] [] [] [] [] []].
Qed.
Lemma no_zero_dec fuel : ∀ z acc, no_zero acc → no_zero (dec_digits fuel z acc).
Proof.
  induction fuel as [|fuel IH]; intros z acc Ha; [done|]. cbn [dec_digits].
  assert (no_zero (String (digit_char (z mod 10)) acc)); [|by destruct (z / 10 =? 0); auto].
  apply no_zero_cons; [|done]. pose proof (Z.mod_pos_bound z 10 ltac:(lia)) as Hd. revert Hd. generalize (z mod 10) as d. intros d Hd.
  assert (d = 0 ∨ d = 1 ∨ d = 2 ∨ d = 3 ∨ d = 4 ∨ d = 5 ∨ d = 6 ∨ d = 7 ∨ d = 8 ∨ d = 9) as Hc by lia.
  by repeat destruct Hc as [->|Hc]; [..|subst d].
Qed.
Lemma no_zero_value v : no_zero (json_value v).
Proof.
  destruct v as [t|n|b]; cbn [json_value]; [|unfold print_int, print_dec|by destruct b].
  - apply no_zero_app; [done|]. apply no_zero_app; [apply no_zero_Escape|done].
  - destruct (_ <? 0); [apply no_zero_app; [done|]|]; by apply no_zero_dec.
Qed.
Lemma no_zero_members members : keys_plain members = true → ∀ more, no_zero (members_text more members).
Proof.
  induction members as [|[key v] members IH]; [done|]. cbn [keys_plain forallb]. intros [Hk Hks]%andb_true_iff more. cbn [members_text].
  apply no_zero_app; [by destruct more|]. apply no_zero_cons; [done|]. apply no_zero_app; [rewrite <-(plain_Escape key Hk); apply no_zero_Escape|].
  do 2 (apply no_zero_cons; [done|]). apply no_zero_app; [apply no_zero_value|by apply IH].
Qed.

Lemma read_written members : members ≠ [] → keys_plain members = true →
  read_line (c_str (json_line members)) = Some (prod_map id written <$> members).
Proof.
  intros Hne Hk. rewrite json_line_members.
  assert (no_zero (String "{" (members_text false members +:+ closed_line))) as ->.
  { apply no_zero_cons; [done|]. apply no_zero_app; [by apply no_zero_members|done]. }
  apply read_members_text; [|done|done]. rewrite string_length_app. pose proof (members_text_length members false). lia.
Qed.
