(* ===== verification/ProbeProps.v ===== *)
(** * What the stand-alone probe leaves behind

    A ledger of descriptors, handles, mappings and directories is kept from the
    calls of Probe.v.  Whatever the kernel answers, the program returns and has
    given everything back, asks for memory only when told to run, and reports each
    case once in lines that can be read back (ProbeJson.v). *)
From S2P Require Import Prelude CString LineReader HookPolicy Outcome Probe ProbeJson.
#[local] Open Scope string_scope.
#[local] Open Scope list_scope.
#[local] Open Scope Z_scope.

(** ** The ledger *)

Record Ledger := mkLedger { l_fds : list Z; l_handles : list (Z * Z); l_maps : list (Z * Z); l_dirs : nat }.
Definition Ledger_empty : Ledger := mkLedger [] [] [] 0.
(** What a call gives or takes back.  Closing takes a descriptor back even when it
    fails, and with a client its handles. *)
Definition settle (c : Call) (a : Answer) (l : Ledger) : Ledger :=
  let 'mkLedger fds hs maps dirs := l in
  let ok := an_rc a =? 0 in
  match c with
  | COpen _ _ => if 0 <=? an_rc a then mkLedger (an_rc a :: fds) hs maps dirs else l
  | CClose fd => mkLedger (erase_first fd fds) (filter (λ x, x.1 ≠ fd) hs) maps dirs
  | CIonAlloc c _ _ | CIonImport c _ => if ok then mkLedger fds ((c, an_val a) :: hs) maps dirs else l
  | CIonFree c h => mkLedger fds (erase_first (c, h) hs) maps dirs
  | CIonShare _ _ => if ok && (0 <=? an_val a) then mkLedger (an_val a :: fds) hs maps dirs else l
  | CHeapAlloc _ _ | CIonNewAlloc _ _ _ => if ok && (0 <=? i32 (an_val a)) then mkLedger (i32 (an_val a) :: fds) hs maps dirs else l
  | CMmap len _ => if an_rc a =? MAP_FAILED then l else mkLedger fds hs ((an_rc a, len) :: maps) dirs
  | CMunmap addr len => mkLedger fds hs (erase_first (addr, len) maps) dirs
  | COpendir _ => if ok then l else mkLedger fds hs maps (S dirs)
  | CClosedir => mkLedger fds hs maps (pred dirs)
  | _ => l
  end.
Definition ledger (log : list (Call * Answer)) : Ledger := foldr (λ '(c, a), settle c a) Ledger_empty log.

Definition within (l x : Ledger) : Prop :=
  l_fds l ⊆+ l_fds x ∧ l_handles l ⊆+ l_handles x ∧ l_maps l ⊆+ l_maps x ∧ (l_dirs l ≤ l_dirs x)%nat.
#[global] Instance within_preorder : PreOrder within.
Proof.
  split; [by repeat split|]. intros x y z (? & ? & ? & ?) (? & ? & ? & ?). split_and!; [by etrans..|lia].
Qed.
Lemma within_empty l : within l Ledger_empty → l = Ledger_empty.
Proof.
  destruct l. intros (Hf & Hh & Hm & Hd). cbn in *. apply submseteq_nil_r in Hf, Hh, Hm. subst. assert (l_dirs0 = 0%nat) as -> by lia. done.
Qed.

Section erase.
Context {A : Type} `{EqDecision A}.
Implicit Types (x : A) (l k : list A).

Lemma erase_perm x l : x ∈ l → l ≡ₚ x :: erase_first x l.
Proof.
  induction l as [|y l IH]; [by intros ?%not_elem_of_nil|]. intros [->|Hx]%elem_of_cons; cbn.
  - by rewrite decide_True.
  - destruct (decide (x = y)) as [->|]; [done|]. rewrite (IH Hx) at 1. apply Permutation_swap.
Qed.
Lemma erase_absent x l : x ∉ l → erase_first x l = l.
Proof.
  induction l as [|y l IH]; [done|]. intros [? ?]%not_elem_of_cons. cbn. by rewrite decide_False, IH.
Qed.
Lemma erase_le x l : erase_first x l ⊆+ l.
Proof.
  destruct (decide (x ∈ l)) as [Hx|Hx]; [|by rewrite erase_absent]. rewrite (erase_perm x l Hx) at 2. by apply submseteq_cons.
Qed.
Lemma erase_mono x l k : l ⊆+ k → erase_first x l ⊆+ erase_first x k.
Proof.
  intros Hlk. destruct (decide (x ∈ l)) as [Hl|Hl].
  - assert (x ∈ k) as Hk by (by eapply elem_of_submseteq). apply (submseteq_app_inv_l _ _ [x]). cbn.
    by rewrite <-!erase_perm.
  - rewrite (erase_absent x l) by done. destruct (decide (x ∈ k)) as [Hk|Hk]; [|by rewrite erase_absent].
    rewrite (erase_perm x k Hk) in Hlk. apply submseteq_cons_r in Hlk as [|(l' & Hp & _)]; [done|].
    destruct Hl. rewrite Hp. apply list_elem_of_here.
Qed.
Lemma erase_app_le x l k : erase_first x (l ++ k) ⊆+ erase_first x l ++ k.
Proof.
  induction l as [|y l IH]; cbn; [apply erase_le|]. destruct (decide (x = y)); [done|]. by apply submseteq_skip.
Qed.
End erase.

Lemma filter_submseteq {A} (P : A → Prop) `{∀ x, Decision (P x)} (l k : list A) : l ⊆+ k → filter P l ⊆+ filter P k.
Proof.
  induction 1 as [|x l k ? IH|x y l|x l k ? IH|l k m ? IH1 ? IH2]; rewrite ?filter_cons; repeat case_decide; try done.
  - by apply submseteq_skip.
  - apply submseteq_swap.
  - by apply submseteq_cons.
  - by etrans.
Qed.
Lemma settle_mono c a l x : within l x → within (settle c a l) (settle c a x).
Proof.
  destruct l, x. intros (? & ? & ? & ?). cbn in *.
  destruct c; cbn; repeat case_match; split_and!; cbn;
    first [done | lia | by apply erase_mono | by apply submseteq_skip | by apply filter_submseteq].
Qed.
Lemma settle_close_le fd a l : within (settle (CClose fd) a l) l.
Proof. destruct l. split_and!; cbn; [apply erase_le|apply sublist_submseteq, sublist_filter|done|done]. Qed.
Lemma settle_free_le c h a l : within (settle (CIonFree c h) a l) l.
Proof. destruct l. split_and!; cbn; [done|apply erase_le|done|done]. Qed.
Lemma settle_munmap_le addr len a l : within (settle (CMunmap addr len) a l) l.
Proof. destruct l. split_and!; cbn; [done|done|apply erase_le|done]. Qed.

(** ** What the output says *)

Definition verdict (line : string) : option (string * string) :=
  match read_line line with
  | Some ((_, Text kind) :: (_, Text id) :: (_, Text status) :: _) => if String.eqb kind "case_end" then Some (id, status) else None
  | _ => None
  end.
Definition verdicts (output : list string) : list (string * string) := omap verdict output.
Definition readable (line : string) : Prop := is_Some (read_line line).

(** The kernel's state and the probe's, bounded by a ledger. *)
Record fine (x : Ledger) (l : Legacy) (s : Stats) (v : list (string * string)) (p : Probe) : Prop := mkFine {
  f_ledger : within (ledger (p_log p)) x; f_legacy : p_legacy p = l; f_stats : p_stats p = s;
  f_verdicts : verdicts (p_output p) = v; f_lines : Forall readable (p_output p);
}.
Lemma fine_weaken x y l s v p : fine x l s v p → within x y → fine y l s v p.
Proof. intros [] ?. split; try done. by etrans. Qed.

Section props.
Context (kernel : list (Call * Answer) → Call → Answer) (strerror : Z → string) (target : Target) (fuel : nat).
Abbreviation wpf m p Q := (wp (λ _, False) m p Q (λ _, False)).
Abbreviation call := (call kernel).

(** A first step that always returns. *)
Lemma wp_first {A B} (m : prog Probe A) (k : A → prog Probe B) p Q R E :
  wpf m p Q → (∀ a p', Q a p' → wp (λ _, False) (k a) p' R E) → wp (λ _, False) (m ≫= k) p R E.
Proof. intros Hm Hk. apply wp_bind. by eapply wp_mono; [apply Hm| |]. Qed.
Ltac first_by L := eapply wp_first; [eapply L; eassumption|cbn beta].

Lemma call_ok c x l s v p : fine x l s v p → wpf (call c) p (λ a p', fine (settle c a x) l s v p' ∧ p_log p' = (c, a) :: p_log p ∧ a = kernel (p_log p) c ∧ p_errno p' = an_errno a).
Proof. intros []. unfold wp, Probe.call. split; [split; cbn; try done; by apply settle_mono|done]. Qed.

(** Programs that change nothing of this. *)
Definition steady {A} (m : prog Probe A) : Prop := ∀ x l s v p, fine x l s v p → wpf m p (λ _ p', fine x l s v p').
Lemma steady_bind {A B} (m : prog Probe A) (k : A → prog Probe B) : steady m → (∀ a, steady (k a)) → steady (m ≫= k).
Proof. intros Hm Hk x l s v p Hp. apply wp_bind. eapply wp_mono; [by apply Hm| |done]. intros a p' Hp'. by apply Hk. Qed.
Lemma steady_ret {A} (a : A) : steady (mret a).
Proof. by intros x l s v p Hp. Qed.
Lemma steady_get : steady get.
Proof. by intros x l s v p Hp. Qed.
Lemma steady_errno : steady get_errno.
Proof. by intros x l s v p Hp. Qed.
Lemma steady_legacy : steady legacy.
Proof. by intros x l s v p Hp. Qed.
Lemma steady_set_errno e : steady (set_errno e).
Proof. intros x l s v p []. by split. Qed.
Lemma steady_call c : (∀ a x, within (settle c a x) x) → steady (call c).
Proof.
  intros Hc x l s v p Hp. eapply wp_mono; [by apply call_ok| |done]. intros a p' [Hp' _]. by eapply fine_weaken.
Qed.

(** A line that is not the end of a case. *)
Definition other_kind (members : list (string * JsonValue)) : Prop :=
  match members with (_, Text kind) :: _ => kind ≠ "case_end" | _ => False end.
Lemma steady_Write members : keys_plain members = true → other_kind members → steady (Write members).
Proof.
  intros Hk Ho x l s v p []. unfold wp, Write, modify. split; cbn; try done.
  - unfold verdicts. rewrite omap_app. cbn. unfold verdict. destruct members as [|[key [kind| |]] members]; try done. cbn in Ho.
    rewrite read_written by done. cbn. rewrite <-f_verdicts0, <-(app_nil_r (verdicts _)) at 1. unfold verdicts. f_equal.
    apply String.eqb_neq in Ho. rewrite Ho. repeat case_match; done.
  - apply Forall_app. split; [done|]. apply Forall_singleton. unfold readable. rewrite read_written; [by eexists| |done].
    by destruct members.
Qed.

Ltac steady_step :=
  lazymatch goal with
  | |- ∀ _, steady _ => intros ?
  | |- steady (_ ≫= _) => apply steady_bind; [|intros ?]
  | |- steady (if ?b then _ else _) => destruct b
  | |- steady (mret _) => apply steady_ret
  | |- steady get_errno => apply steady_errno
  | |- steady legacy => apply steady_legacy
  | |- steady (set_errno _) => apply steady_set_errno
  | |- steady (Write _) => apply steady_Write; [reflexivity|done]
  | |- steady (Probe.call _ _) => apply steady_call; intros ? []; done
  | |- steady _ => solve [auto 1]
  end.
Ltac steady := repeat (steady_step; cbn beta).

Lemma steady_Capability name path directory : steady (Capability kernel name path directory).
Proof. unfold Capability. steady. Qed.
Lemma steady_heap_nodes names : steady (heap_nodes kernel names).
Proof. induction names as [|n names IH]; cbn [heap_nodes]; steady. Qed.
Lemma steady_heap_capabilities heaps : steady (heap_capabilities kernel heaps).
Proof. induction heaps as [|h heaps IH]; cbn [heap_capabilities]; [steady|]. apply steady_bind; [apply steady_Capability|done]. Qed.
Lemma steady_Heaps : steady (Heaps kernel).
Proof.
  intros x l s v p Hp. unfold Heaps. first_by call_ok. intros a p1 [Hp1 _]. destruct x as [fds hs maps dirs]. cbn in Hp1.
  destruct (an_rc a =? 0); [by apply wp_ret|]. first_by steady_heap_nodes. intros names p2 Hp2. first_by call_ok.
  intros ? p3 [Hp3 _]. by apply wp_ret.
Qed.

(** ** Reading files *)

(** How often in a row the last call of [read] was interrupted. *)
Fixpoint interrupted (log : list (Call * Answer)) : nat :=
  match log with
  | (CRead _ _, a) :: log => if (an_rc a <? 0) && (an_errno a =? EINTR) then S (interrupted log) else 0
  | _ => 0
  end.
(** A call of [read] is not interrupted more than [b] times in a row. *)
Definition patient (b : nat) : Prop := ∀ log fd n,
  (b ≤ interrupted log)%nat → an_rc (kernel log (CRead fd n)) < 0 → an_errno (kernel log (CRead fd n)) ≠ EINTR.

Lemma read_loop_ok b : patient b → ∀ n fd text x l s v p, fine x l s v p →
  (interrupted (p_log p) ≤ b)%nat →
  (kMaxEvidence - slen text) * (Z.of_nat b + 1) - Z.of_nat (interrupted (p_log p)) ≤ Z.of_nat n →
  wpf (read_loop kernel n fd text) p (λ _ p', fine x l s v p').
Proof.
  intros Hb. induction n as [|n IH]; intros fd text x l s v p Hp Hi Hn; cbn [read_loop].
  - destruct (Z.ltb_spec (slen text) kMaxEvidence); [|by apply wp_ret]. nia.
  - destruct (Z.ltb_spec (slen text) kMaxEvidence); [|by apply wp_ret].
    unfold read. apply wp_bind. first_by call_ok. intros a p1 (Hp1 & Hlog & Ha & He). apply wp_ret. assert (fine x l s v p1) as Hp2 by (by destruct x).
    assert (interrupted (p_log p1) = if (an_rc a <? 0) && (an_errno a =? EINTR) then S (interrupted (p_log p)) else 0%nat) as Hint by by rewrite Hlog.
    destruct (Z.ltb_spec (an_rc a) 0).
    + apply wp_bind. unfold get_errno. apply wp_bind, wp_get, wp_ret. rewrite He. cbn [andb] in Hint.
      destruct (Z.eqb_spec (an_errno a) EINTR) as [Hintr|]; [|by apply wp_ret].
      assert (interrupted (p_log p) < b)%nat.
      { destruct (decide (b ≤ interrupted (p_log p))%nat) as [Hle|]; [|lia]. exfalso. subst a. by apply (Hb _ _ _ Hle H0). }
      apply IH; [done|lia|]. rewrite Hint. lia.
    + cbn [andb] in Hint. destruct (stake _ _) as [|c bytes]; [by apply wp_ret|]. apply IH; [done|lia|]. rewrite Hint.
      unfold slen in *. rewrite string_length_app. cbn [String.length]. nia.
Qed.

Context (b : nat) (Hb : patient b) (Hfuel : kMaxEvidence * (Z.of_nat b + 1) ≤ Z.of_nat fuel).

Lemma steady_read fd n : steady (read kernel fd n).
Proof. unfold read. steady. Qed.
Lemma steady_read_if (c : bool) fd n : steady (if c then read kernel fd n else mret None).
Proof. destruct c; [apply steady_read|apply steady_ret]. Qed.
(** Closing what was opened last. *)
Lemma close_newest fd a fds hs maps dirs : within (settle (CClose fd) a (mkLedger (fd :: fds) hs maps dirs)) (mkLedger fds hs maps dirs).
Proof. split_and!; cbn; [by rewrite decide_True|apply sublist_submseteq, sublist_filter|done|done]. Qed.
Lemma steady_ReadFile path : steady (ReadFile kernel fuel path).
Proof.
  intros x l s v p Hp. unfold ReadFile. first_by call_ok. intros a p1 (Hp1 & Hlog & _). destruct x as [fds hs maps dirs]. cbn in Hp1.
  destruct (Z.ltb_spec (an_rc a) 0) as [Hlt|Hge]; [rewrite (proj2 (Z.leb_gt 0 (an_rc a))) in Hp1 by lia; by first_by steady_errno|].
  rewrite (proj2 (Z.leb_le 0 (an_rc a))) in Hp1 by lia.
  eapply wp_first; [apply (read_loop_ok b Hb); [eassumption|rewrite Hlog; cbn; lia|]|].
  { rewrite Hlog. change (slen EmptyString) with 0. change (interrupted (_ :: _)) with 0%nat. rewrite !Z.sub_0_r. done. }
  cbn beta. intros r p2 Hp2. first_by (steady_read_if (slen r.1 =? kMaxEvidence)).
  intros extra p3 Hp3. first_by call_ok. intros a4 p4 [Hp4 _]. apply wp_ret. eapply fine_weaken; [eassumption|apply close_newest].
Qed.

(** ** Samples and reports *)

Lemma fdinfo_keys r : keys_plain (fdinfo_members r) = true.
Proof. unfold fdinfo_members. by destruct (rr_error r =? 0). Qed.
Lemma oracle_keys path r : keys_plain (oracle_members path r) = true.
Proof. unfold oracle_members. by destruct (rr_error r =? 0). Qed.
Lemma keys_plain_app l k : keys_plain l = true → keys_plain k = true → keys_plain (l ++ k) = true.
Proof. unfold keys_plain. rewrite forallb_app. by intros -> ->. Qed.
(** A list of members that may be left out. *)
Lemma optional_members (c : bool) m (f : ReadResult → list (string * JsonValue)) x l s v p : steady m → (∀ r, keys_plain (f r) = true) → fine x l s v p →
  wpf (if c then r ← m; mret (f r) else mret []) p (λ ms p', keys_plain ms = true ∧ fine x l s v p').
Proof. intros Hm Hf Hp. destruct c; [|by apply wp_ret]. first_by Hm. intros r p1 Hp1. by apply wp_ret. Qed.

Abbreviation sample := (Sample kernel fuel).
Lemma steady_Sample o id stage rc error fd handle : steady (sample o id stage rc error fd handle).
Proof.
  intros x l s v p Hp. unfold Sample. first_by steady_errno. intros saved p1 Hp1.
  assert (steady (ClockNs kernel)) as Hclock by (unfold ClockNs; steady). first_by Hclock. intros ns p2 Hp2.
  eapply wp_first; [apply optional_members; [apply steady_ReadFile|apply fdinfo_keys|eassumption]|]. cbn beta. intros fdinfo p3 [Hf Hp3].
  assert (∀ c : bool, wpf (if c then mret [] else r ← ReadFile kernel fuel (o_oracle o); mret (oracle_members (o_oracle o) r)) p3
    (λ ms p', keys_plain ms = true ∧ fine x l s v p')) as Ho.
  { intros c. destruct c; [by apply wp_ret|]. apply (optional_members true); [apply steady_ReadFile|apply oracle_keys|done]. }
  eapply wp_first; [apply Ho|]. cbn beta. intros oracle p4 [Hor Hp4].
  eapply wp_first; [eapply steady_Write; [|done|eassumption]|].
  { apply keys_plain_app; [done|]. by apply keys_plain_app. }
  cbn beta. intros _ p5 Hp5. by apply steady_set_errno.
Qed.
Lemma Finished_ok id status reason x l s v p : fine x l s v p → wpf (Finished id status reason) p (λ _ p', fine x l s (v ++ [(id, status)]) p').
Proof.
  intros []. unfold Finished, wp, Write, modify. split; cbn; try done.
  - unfold verdicts. rewrite omap_app. cbn. unfold verdict. rewrite read_written by done. cbn. by rewrite <-f_verdicts0.
  - apply Forall_app. split; [done|]. apply Forall_singleton. unfold readable. rewrite read_written by done. by eexists.
Qed.

(** What a status counts as. *)
Definition tally (status : string) (s : Stats) : Stats :=
  if String.eqb status "pass" then s <| passed := passed s + 1 |>
  else if String.eqb status "fail" then s <| failed := failed s + 1 |>
  else s <| skipped := skipped s + 1 |>.
Lemma on_stats_ok f x l s v p : fine x l s v p → wpf (on_stats f) p (λ _ p', fine x l (f s) v p').
Proof. intros []. unfold wp, on_stats, modify. split; cbn; try done. by rewrite f_stats0. Qed.
Lemma on_legacy_ok f x l s v p : fine x l s v p → wpf (on_legacy f) p (λ _ p', fine x (f l) s v p').
Proof. intros []. unfold wp, on_legacy, modify. split; cbn; try done. by rewrite f_legacy0. Qed.
(** The case is over with one of the statuses. *)
Definition ended (id : string) (s : Stats) (v : list (string * string)) (x : Ledger) (l : Legacy) (p : Probe) : Prop :=
  ∃ status, status ∈ ["pass"; "fail"; "skip"; "unsupported"] ∧ fine x l (tally status s) (v ++ [(id, status)]) p.
Lemma Failure_ok id what error x l s v p : fine x l s v p → wpf (Failure strerror id what error) p (λ _ p', ended id s v x l p').
Proof.
  intros Hp. unfold Failure. first_by on_stats_ok. intros _ p1 Hp1. eapply wp_mono; [eapply Finished_ok; eassumption| |done].
  cbn beta. intros _ p2 Hp2. destruct (Unsupported error); [exists "unsupported"|exists "fail"]; (split; [clear; set_solver|exact Hp2]).
Qed.
Lemma end_case_ok id ok x l s v p : fine x l s v p → wpf (end_case id ok) p (λ _ p', ended id s v x l p').
Proof.
  intros Hp. unfold end_case. destruct ok; first_by on_stats_ok; intros _ p1 Hp1; (eapply wp_mono; [eapply Finished_ok; eassumption| |done]);
    cbn beta; intros _ p2 Hp2; [exists "pass"|exists "fail"]; (split; [clear; set_solver|exact Hp2]).
Qed.
Lemma skip_ok id reason x l s v p : fine x l s v p →
  wpf (_ ← on_stats (λ s, s <| skipped := skipped s + 1 |>); Finished id "skip" reason) p (λ _ p', ended id s v x l p').
Proof.
  intros Hp. first_by on_stats_ok. intros _ p1 Hp1. eapply wp_mono; [eapply Finished_ok; eassumption| |done].
  cbn beta. intros _ p2 Hp2. exists "skip". split; [clear; set_solver|exact Hp2].
Qed.

(** ** Cases of legacy ION *)

(** What the [Legacy] of a case would give back. *)
Definition tracked (l : Legacy) : Ledger :=
  mkLedger (fds l ++ (if 0 <=? client l then [client l] else [])) (if 0 <=? client l then (client l,.) <$> handles l else [])
    (if mapping l =? MAP_FAILED then [] else [(mapping l, mapped_bytes l)]) 0.
Abbreviation own s v l p := (fine (tracked l) l s v p).
(** Steps that keep everything tracked, with the client and the mapping. *)
Definition rest (l : Legacy) : Z * Z * Z := (client l, mapping l, mapped_bytes l).
Definition tracking {A} (m : prog Probe A) : Prop := ∀ l s v p, own s v l p → wpf m p (λ _ p', ∃ l', own s v l' p' ∧ rest l' = rest l).

Lemma retrack x l' s v p c : fine x l' s v p → within x (tracked l') → rest l' = c → ∃ l', own s v l' p ∧ rest l' = c.
Proof. intros Hp Hx Hc. exists l'. split; [by eapply fine_weaken|done]. Qed.
Lemma legacy_ok x l s v p : fine x l s v p → wpf legacy p (λ a p', a = l ∧ fine x l s v p').
Proof. intros Hp. unfold legacy. apply wp_bind, wp_get, wp_ret. split; [apply Hp|done]. Qed.
Lemma attempt_ok c x l s v p : fine x l s v p → wpf (attempt kernel c) p (λ r p', fine (settle c r.1 x) l s v p').
Proof.
  intros Hp. unfold attempt. first_by steady_set_errno. intros _ p1 Hp1. first_by call_ok. intros a p2 [Hp2 _].
  first_by steady_errno. intros e p3 Hp3. by apply wp_ret.
Qed.

Lemma tracking_share o id h : tracking (share kernel fuel o id h).
Proof.
  intros l s v p Hp. unfold share. first_by legacy_ok. intros ? p1 [-> Hp1]. first_by attempt_ok. intros r p2 Hp2.
  first_by steady_Sample. intros _ p3 Hp3. cbn in Hp3. destruct ((an_rc r.1 =? 0) && (0 <=? an_val r.1)).
  - first_by on_legacy_ok. intros _ p4 Hp4. apply wp_ret. apply (retrack _ _ _ _ _ _ Hp4); [|done].
    split_and!; cbn; try done. rewrite <-app_assoc. cbn. apply Permutation_submseteq, Permutation_middle.
  - apply wp_bind, wp_ret, wp_ret. by eexists.
Qed.
Lemma erase_pair (c h : Z) hs : erase_first (c, h) ((c,.) <$> hs) = (c,.) <$> erase_first h hs.
Proof. induction hs as [|y hs IH]; [done|]. cbn. destruct (decide (h = y)) as [->|]; [by rewrite decide_True|]. rewrite decide_False by congruence. cbn. by rewrite IH. Qed.
Lemma tracking_release o id h : tracking (release kernel fuel o id h).
Proof.
  intros l s v p Hp. unfold release. first_by legacy_ok. intros ? p1 [-> Hp1]. first_by attempt_ok. intros r p2 Hp2.
  first_by steady_Sample. intros _ p3 Hp3. destruct (an_rc r.1 =? 0).
  - first_by on_legacy_ok. intros _ p4 Hp4. apply wp_ret. apply (retrack _ _ _ _ _ _ Hp4); [|done].
    split_and!; cbn; try done. destruct (0 <=? client l); [by rewrite erase_pair|done].
  - apply wp_bind, wp_ret, wp_ret. apply (retrack _ _ _ _ _ _ Hp3); [apply settle_free_le|done].
Qed.
Lemma tracking_close_fd o id fd : tracking (close_fd kernel fuel o id fd).
Proof.
  intros l s v p Hp. unfold close_fd. first_by attempt_ok. intros r p2 Hp2.
  first_by steady_Sample. intros _ p3 Hp3. destruct (an_rc r.1 =? 0).
  - first_by on_legacy_ok. intros _ p4 Hp4. apply wp_ret. apply (retrack _ _ _ _ _ _ Hp4); [|done].
    split_and!; cbn; try done; [apply erase_app_le|apply sublist_submseteq, sublist_filter].
  - apply wp_bind, wp_ret, wp_ret. apply (retrack _ _ _ _ _ _ Hp3); [apply settle_close_le|done].
Qed.

(** The destructor. *)
Lemma close_all_ok l' : ∀ fs hs maps dirs l s v p, fine (mkLedger (l' ++ fs) hs maps dirs) l s v p →
  wpf (close_all kernel l') p (λ _ p', fine (mkLedger fs hs maps dirs) l s v p').
Proof.
  induction l' as [|fd l' IH]; intros fs hs maps dirs l s v p Hp; cbn [close_all]; [by apply wp_ret|].
  first_by call_ok. intros a p1 [Hp1 _]. apply IH. eapply fine_weaken; [exact Hp1|apply close_newest].
Qed.
Lemma free_all_ok c l' : ∀ fs hs maps dirs l s v p, fine (mkLedger fs (((c,.) <$> l') ++ hs) maps dirs) l s v p →
  wpf (free_all kernel c l') p (λ _ p', fine (mkLedger fs hs maps dirs) l s v p').
Proof.
  induction l' as [|h l' IH]; intros fs hs maps dirs l s v p Hp; cbn [free_all]; [by apply wp_ret|].
  first_by call_ok. intros a p1 [Hp1 _]. apply IH. cbn in Hp1. by rewrite decide_True in Hp1.
Qed.
Lemma Cleanup_ok l s v p : own s v l p → wpf (Cleanup kernel) p (λ _ p', ∃ l', fine Ledger_empty l' s v p' ∧ tracked l' = Ledger_empty).
Proof.
  intros Hp. unfold Cleanup. first_by legacy_ok. intros ? p1 [-> Hp1]. apply (wp_first _ _ _ (λ _ p', ∃ l', fine (mkLedger (l_fds (tracked l)) (l_handles (tracked l)) [] 0) l' s v p' ∧
    fds l' = fds l ∧ handles l' = handles l ∧ client l' = client l ∧ mapping l' = MAP_FAILED)).
  { unfold tracked in Hp1. destruct (Z.eqb_spec (mapping l) MAP_FAILED) as [Hm|Hm]; [apply wp_ret; by exists l|].
    first_by call_ok. intros a p2 [Hp2 _]. cbn in Hp2. rewrite decide_True in Hp2 by done.
    eapply wp_mono; [eapply on_legacy_ok; exact Hp2| |done]. cbn beta. intros _ p3 Hp3. eexists. split; [exact Hp3|done]. }
  intros _ p2 (l2 & Hp2 & Hf & Hh & Hc & Hm). cbn [l_fds l_handles tracked] in Hp2. first_by close_all_ok. intros _ p3 Hp3.
  first_by on_legacy_ok. intros _ p4 Hp4.
  apply (wp_first _ _ _ (λ _ p', ∃ l', fine Ledger_empty l' s v p' ∧ fds l' = [] ∧ (0 <=? client l') = false ∧ mapping l' = MAP_FAILED)).
  { destruct (0 <=? client l) eqn:Hcl; [|by apply wp_ret; eexists; split; [exact Hp4|]; cbn; rewrite ?Hc].
    rewrite <-(app_nil_r ((client l,.) <$> handles l)) in Hp4. first_by free_all_ok. intros _ p5 Hp5. first_by call_ok. intros a p6 [Hp6 _].
    eapply wp_mono; [eapply on_legacy_ok; eapply fine_weaken; [exact Hp6|apply close_newest]| |done]. cbn beta. intros _ p7 Hp7.
    eexists. split; [exact Hp7|]. done. }
  intros _ p5 (l5 & Hp5 & Hf5 & Hc5 & Hm5). eapply wp_mono; [eapply on_legacy_ok; exact Hp5| |done]. cbn beta. intros _ p6 Hp6.
  eexists. split; [exact Hp6|]. unfold tracked. cbn. by rewrite Hf5, Hc5, Hm5.
Qed.

Section case.
Context (o : Options) (id : string).
(** The case is over, and the destructor has what is left to give back. *)
Definition case_over (s : Stats) (v : list (string * string)) (p : Probe) : Prop := ∃ l, ended id s v (tracked l) l p.
Lemma abandon_ok {A} what error l s v p (Q : A → Probe → Prop) : own s v l p →
  wp (λ _, False) (abandon strerror id what error) p Q (case_over s v).
Proof. intros Hp. unfold abandon. first_by Failure_ok. intros _ p1 Hp1. apply wp_fail. by exists l. Qed.
Lemma abandon_errno_ok {A} what l s v p (Q : A → Probe → Prop) : own s v l p →
  wp (λ _, False) (e ← errno_or_EIO; abandon strerror id what e) p Q (case_over s v).
Proof.
  intros Hp. assert (steady errno_or_EIO) as He by (unfold errno_or_EIO; steady). first_by He. intros e p1 Hp1. by eapply abandon_ok.
Qed.

(** Steps that may end the case. *)
Definition case_step {A} (m : prog Probe A) : Prop := ∀ l s v p, own s v l p → 0 ≤ client l → mapping l = MAP_FAILED →
  wp (λ _, False) m p (λ _ p', ∃ l', own s v l' p') (case_over s v).
Ltac track L := eapply wp_first; [eapply L; eassumption|cbn beta; let l := fresh "l" in let Hc := fresh "Hc" in let p := fresh "p" in let H := fresh "Hp" in intros ? p (l & H & Hc)].

Lemma case_B_ok h fd : case_step (case_B kernel strerror fuel o id h fd).
Proof.
  intros l s v p Hp Hc Hm. unfold case_B. track tracking_share. destruct (_ <? 0); [by eapply abandon_errno_ok|].
  track tracking_release. track tracking_close_fd. track tracking_close_fd. apply wp_ret. by eexists.
Qed.
Lemma case_C_ok h fd : case_step (case_C kernel strerror fuel o id h fd).
Proof.
  intros l s v p Hp Hc Hm. unfold case_C. first_by legacy_ok. intros ? p1 [-> Hp1]. first_by attempt_ok. intros r p2 Hp2. first_by steady_Sample. intros _ p3 Hp3.
  cbn in Hp3. rewrite (proj2 (Z.leb_le 0 (client l)) Hc) in Hp3.
  destruct (Z.ltb_spec (an_rc r.1) 0).
  { rewrite (proj2 (Z.eqb_neq (an_rc r.1) 0)) in Hp3 by lia. eapply abandon_ok. eapply fine_weaken; [exact Hp3|].
    unfold tracked. by rewrite (proj2 (Z.leb_le 0 (client l)) Hc). }
  first_by on_legacy_ok. intros _ p4 Hp4. destruct (retrack _ _ _ _ _ (rest l) Hp4) as (l4 & Hp4' & Hc4); [|done|].
  { unfold tracked. cbn. rewrite (proj2 (Z.leb_le 0 (client l)) Hc). destruct (an_rc r.1 =? 0); split_and!; cbn; try done; rewrite fmap_app; cbn.
    - by rewrite <-Permutation_cons_append.
    - by apply submseteq_inserts_r. }
  track tracking_share. destruct (_ <? 0); [by eapply abandon_errno_ok|].
  track tracking_release. track tracking_release. track tracking_close_fd. track tracking_close_fd. apply wp_ret. by eexists.
Qed.
Lemma case_E_ok h fd : case_step (case_E kernel strerror fuel o id h fd).
Proof.
  intros l s v p Hp Hc Hm. unfold case_E. first_by steady_set_errno. intros _ p1 Hp1. first_by call_ok. intros m p2 [Hp2 _].
  first_by on_legacy_ok. intros _ p3 Hp3. first_by steady_errno. intros e p4 Hp4. first_by steady_Sample. intros _ p5 Hp5. cbn in Hp5. rewrite Hm, Z.eqb_refl in Hp5.
  destruct (an_rc m =? MAP_FAILED) eqn:Hnone.
  { eapply abandon_ok. eapply fine_weaken; [exact Hp5|]. unfold tracked. cbn. by rewrite Hnone, Hm, Z.eqb_refl. }
  first_by on_legacy_ok. intros _ p6 Hp6.
  destruct (retrack _ _ _ _ _ (client l, an_rc m, o_bytes o) Hp6) as (l6 & Hp6' & Hr6); [unfold tracked; cbn; by rewrite Hnone|done|].
  track tracking_close_fd. rewrite Hr6 in Hc0. injection Hc0 as Hc0 Hm0 Hb0. first_by legacy_ok. intros ? p8 [-> Hp8]. first_by attempt_ok. intros r p9 Hp9.
  first_by steady_Sample. intros _ p10 Hp10.
  apply (wp_first _ _ _ (λ _ p', ∃ l', own s v l' p')).
  { destruct (an_rc r.1 =? 0).
    - eapply wp_mono; [eapply on_legacy_ok; exact Hp10| |done]. cbn beta. intros _ p11 Hp11. eexists. eapply fine_weaken; [exact Hp11|].
      unfold tracked. cbn. split_and!; cbn; try done. rewrite Hm0, Hnone. cbn. by rewrite decide_True.
    - apply wp_ret. eexists. eapply fine_weaken; [exact Hp10|apply settle_munmap_le]. }
  intros _ p11 (l11 & Hp11). track tracking_release. apply wp_ret. by eexists.
Qed.
Lemma close_client c hs : filter (λ x : Z * Z, x.1 ≠ c) ((c,.) <$> hs) = [].
Proof. induction hs as [|h hs IH]; [done|]. rewrite fmap_cons, filter_cons_False; [done|]. by intros []. Qed.
Lemma case_F_ok fd : case_step (case_F kernel fuel o id fd).
Proof.
  intros l s v p Hp Hc Hm. unfold case_F. first_by legacy_ok. intros ? p1 [-> Hp1]. first_by attempt_ok. intros r p2 Hp2. first_by steady_Sample. intros _ p3 Hp3.
  apply (wp_first _ _ _ (λ _ p', ∃ l', own s v l' p')).
  { destruct (an_rc r.1 =? 0); [|apply wp_ret; eexists; eapply fine_weaken; [exact Hp3|apply settle_close_le]].
    eapply wp_mono; [eapply on_legacy_ok; exact Hp3| |done]. cbn beta. intros _ p4 Hp4. eexists. eapply fine_weaken; [exact Hp4|].
    unfold tracked. cbn. rewrite (proj2 (Z.leb_le 0 (client l)) Hc). split_and!; cbn; [|by rewrite close_client|done|done].
    etrans; [apply erase_mono, Permutation_submseteq, Permutation_app_comm|]. cbn. by rewrite decide_True, app_nil_r. }
  intros _ p4 (l4 & Hp4). track tracking_close_fd. apply wp_ret. by eexists.
Qed.
Lemma case_steps_ok h fd : case_step (case_steps kernel strerror fuel o id h fd).
Proof.
  unfold case_steps. repeat (case_match; [auto using case_B_ok, case_C_ok, case_E_ok, case_F_ok|]); try done.
  all: intros l s v p Hp Hc Hm.
  - track tracking_close_fd. track tracking_release. apply wp_ret. by eexists.
  - track tracking_release. track tracking_close_fd. apply wp_ret. by eexists.
Qed.
Lemma legacy_alloc_ok s v p : fine Ledger_empty Legacy_new s v p →
  wp (λ _, False) (legacy_alloc kernel strerror fuel o id) p (λ _ p', ∃ l, own s v l p' ∧ 0 ≤ client l ∧ mapping l = MAP_FAILED) (case_over s v).
Proof.
  intros Hp. unfold legacy_alloc. first_by steady_Sample. intros _ p1 Hp1. first_by call_ok. intros a p2 [Hp2 _]. first_by on_legacy_ok. intros _ p3 Hp3.
  assert (own s v (Legacy_new <| client := an_rc a |>) p3) as Hown.
  { eapply fine_weaken; [exact Hp3|]. unfold tracked. cbn. by destruct (0 <=? an_rc a). }
  destruct (Z.ltb_spec (an_rc a) 0) as [Hlt|Hge].
  { first_by steady_errno. intros e p4 Hp4. first_by on_stats_ok. intros _ p5 Hp5. first_by Finished_ok. intros _ p6 Hp6. apply wp_fail.
    eexists. exists "skip". split; [clear; set_solver|exact Hp6]. }
  first_by legacy_ok. intros ? p4 [-> Hp4]. first_by attempt_ok. intros r p5 Hp5. first_by steady_Sample. intros _ p6 Hp6.
  cbn in Hp6. rewrite (proj2 (Z.leb_le 0 (an_rc a)) Hge) in Hp6. destruct (Z.ltb_spec (an_rc r.1) 0).
  { rewrite (proj2 (Z.eqb_neq (an_rc r.1) 0)) in Hp6 by lia. eapply abandon_ok. eapply fine_weaken; [exact Hp6|].
    unfold tracked. cbn. by rewrite (proj2 (Z.leb_le 0 (an_rc a)) Hge). }
  first_by on_legacy_ok. intros _ p7 Hp7. apply wp_ret. eexists. split; [eapply fine_weaken; [exact Hp7|]|done].
  unfold tracked. cbn. rewrite (proj2 (Z.leb_le 0 (an_rc a)) Hge). destruct (an_rc r.1 =? 0); split_and!; cbn; try done. apply submseteq_nil_l.
Qed.
Lemma LegacyCase_body_ok s v p : fine Ledger_empty Legacy_new s v p →
  wp (λ _, False) (LegacyCase_body kernel strerror fuel o id) p (λ _, case_over s v) (case_over s v).
Proof.
  intros Hp. unfold LegacyCase_body. apply wp_bind. eapply wp_mono; [by apply legacy_alloc_ok| |done]. cbn beta.
  intros h p1 (l1 & Hp1 & Hc & Hm). track tracking_share. injection Hc0 as Hc0 Hm0 _. destruct (_ <? 0); [by eapply abandon_errno_ok|].
  apply wp_bind. eapply wp_mono; [eapply case_steps_ok; [eassumption|lia|congruence]| |done]. cbn beta. intros ok p2 (l2 & Hp2).
  first_by Cleanup_ok. intros _ p3 (l3 & Hp3 & Hl3). first_by steady_Sample. intros _ p4 Hp4.
  eapply wp_mono; [eapply end_case_ok; eassumption| |done]. cbn beta. intros _ p5 Hp5. exists l3. by rewrite Hl3.
Qed.
Lemma destroy_ok s v p : case_over s v p → wpf (Cleanup kernel) p (λ _ p', ∃ l, ended id s v Ledger_empty l p').
Proof.
  intros (l & status & Hst & Hp). eapply wp_mono; [eapply Cleanup_ok; exact Hp| |done]. cbn beta. intros _ p' (l' & Hp' & _). exists l', status. done.
Qed.
Lemma LegacyCase_ok l s v p : fine Ledger_empty l s v p → wpf (LegacyCase kernel strerror fuel o id) p (λ _ p', ∃ l, ended id s v Ledger_empty l p').
Proof.
  intros Hp. unfold LegacyCase. first_by on_legacy_ok. intros _ p1 Hp1. pose proof (LegacyCase_body_ok s v p1 Hp1) as Hbody.
  unfold wp at 1. unfold wp in Hbody. unfold finally. destruct (LegacyCase_body _ _ _ _ _ p1); [..|done]; by apply destroy_ok in Hbody.
Qed.
End case.

(** ** Cases that give a descriptor *)

Section direct.
Context (o : Options) (id : string) (allocator : Z).

Lemma direct_alloc_ok heap l s v p : fine (mkLedger [allocator] [] [] 0) l s v p →
  wp (λ _, False) (direct_alloc kernel strerror fuel o id heap allocator) p (λ fd p', fine (mkLedger [fd; allocator] [] [] 0) l s v p') (λ p', ended id s v Ledger_empty l p').
Proof.
  intros Hp. unfold direct_alloc. first_by attempt_ok. intros r p1 Hp1. first_by steady_Sample. intros _ p2 Hp2.
  set (ok := (an_rc r.1 =? 0) && (0 <=? i32 (an_val r.1))).
  assert (fine (if ok then mkLedger [i32 (an_val r.1); allocator] [] [] 0 else mkLedger [allocator] [] [] 0) l s v p2) as Hp3 by (by destruct heap).
  destruct ((an_rc r.1 <? 0) || _) eqn:Hbad.
  - assert (ok = false) as Hok by (unfold ok; destruct (Z.eqb_spec (an_rc r.1) 0); [|done]; apply orb_true_iff in Hbad as [?%Z.ltb_lt|?%Z.ltb_lt]; [lia|]; apply Z.leb_gt; lia).
    rewrite Hok in Hp3. first_by Failure_ok. intros _ p4 (status & Hst & Hp4). first_by call_ok. intros a p5 [Hp5 _]. apply wp_fail.
    exists status. split; [done|]. eapply fine_weaken; [exact Hp5|apply close_newest].
  - apply orb_false_iff in Hbad as [H1%Z.ltb_ge H2%Z.ltb_ge]. apply wp_ret. unfold ok in Hp3. destruct (an_rc r.1 =? 0); [|lia].
    by rewrite (proj2 (Z.leb_le _ _) H2) in Hp3.
Qed.
Definition mapped_at (addr : Z) : list (Z * Z) := if addr =? MAP_FAILED then [] else [(addr, o_bytes o)].
Lemma direct_map_ok (mapping : bool) fd l s v p : fine (mkLedger [fd; allocator] [] [] 0) l s v p →
  wpf (if mapping then
         _ ← set_errno 0; m ← call (CMmap (o_bytes o) fd); e ← get_errno;
         let none := an_rc m =? MAP_FAILED in
         _ ← sample o id "mmap" (if none then -1 else 0) (if none then e else 0) fd (-1); mret (an_rc m)
       else mret MAP_FAILED) p (λ addr p', fine (mkLedger [fd; allocator] [] (mapped_at addr) 0) l s v p').
Proof.
  intros Hp. destruct mapping; [|by apply wp_ret]. first_by steady_set_errno. intros _ p1 Hp1. first_by call_ok. intros m p2 [Hp2 _].
  first_by steady_errno. intros e p3 Hp3. first_by steady_Sample. intros _ p4 Hp4. apply wp_ret. unfold mapped_at. cbn in Hp4.
  by destruct (an_rc m =? MAP_FAILED).
Qed.
Lemma direct_use_ok mapping fd l s v p : fine (mkLedger [fd; allocator] [] [] 0) l s v p →
  wpf (direct_use kernel fuel o id mapping allocator fd) p (λ _ p', ended id s v Ledger_empty l p').
Proof.
  intros Hp. unfold direct_use. first_by direct_map_ok. intros addr p1 Hp1. first_by attempt_ok. intros r p2 Hp2.
  apply (fine_weaken _ (mkLedger [allocator] [] (mapped_at addr) 0)) in Hp2; [|apply close_newest]. first_by steady_Sample. intros _ p3 Hp3.
  apply (wp_first _ _ _ (λ _ p', fine (mkLedger [allocator] [] [] 0) l s v p')).
  { unfold mapped_at in Hp3. destruct (addr =? MAP_FAILED); [by apply wp_ret|]. first_by attempt_ok. intros r4 p4 Hp4. first_by steady_Sample.
    intros _ p5 Hp5. apply wp_ret. cbn in Hp5. by rewrite decide_True in Hp5. }
  intros ok p4 Hp4. first_by call_ok. intros a p5 [Hp5 _]. apply (fine_weaken _ Ledger_empty) in Hp5; [|apply close_newest].
  first_by steady_Sample. intros _ p6 Hp6. by apply end_case_ok.
Qed.
End direct.

Lemma wp_returns (m : prog Probe unit) p (Q : Probe → Prop) : wp (λ _, False) m p (λ _, Q) Q → wpf (returns m) p (λ _, Q).
Proof. unfold wp, returns. by destruct (m p). Qed.
Lemma DirectCase_ok o backend mapping l s v p : fine Ledger_empty l s v p →
  wpf (DirectCase kernel strerror fuel o backend mapping) p (λ _ p', ended (if mapping then "mapping" else "direct") s v Ledger_empty l p').
Proof.
  intros Hp. unfold DirectCase. cbv zeta. generalize (if mapping then "mapping" else "direct") as id. intros id.
  first_by steady_Sample. intros _ p1 Hp1. first_by call_ok. intros a p2 [Hp2 _]. cbn in Hp2.
  destruct (Z.ltb_spec (an_rc a) 0) as [Hlt|Hge].
  { rewrite (proj2 (Z.leb_gt 0 (an_rc a)) Hlt) in Hp2. first_by steady_errno. intros e p3 Hp3. by apply skip_ok. }
  rewrite (proj2 (Z.leb_le 0 (an_rc a)) Hge) in Hp2.
  apply wp_returns, wp_bind. eapply wp_mono; [by apply direct_alloc_ok| |done]. cbn beta. intros fd p3 Hp3.
  eapply wp_mono; [by apply direct_use_ok|done|done].
Qed.

(** ** The program *)

Lemma target_members_ok x l s v p : fine x l s v p → wpf (target_members kernel target) p (λ ms p', keys_plain ms = true ∧ fine x l s v p').
Proof.
  intros Hp. unfold target_members. destruct target; [|by apply wp_ret..].
  assert (steady (call (CProperty "ro.build.version.sdk"))) as Hc by steady. first_by Hc. intros a p1 Hp1. by apply wp_ret.
Qed.
Lemma steady_Inspect : steady (Inspect kernel target).
Proof.
  unfold Inspect. do 3 (apply steady_bind; [steady|intros ?]). intros x l s v p Hp. cbv zeta. first_by target_members_ok. intros more p1 [Hk Hp1].
  eapply wp_first; [eapply steady_Write; [apply keys_plain_app; [reflexivity|exact Hk]|done|exact Hp1]|]. cbn beta. intros _ p2 Hp2.
  match goal with |- wp _ ?m _ _ _ => assert (steady m) as Hrest; [|by apply Hrest] end.
  steady; first [apply steady_Capability|apply steady_Heaps|apply steady_heap_capabilities].
Qed.

(** The verdicts [vs] have been added, and everything was given back. *)
Definition after (vs : list (string * string)) (s : Stats) : Stats := foldl (λ s x, tally x.2 s) s vs.
Definition known_status (x : string * string) : Prop := x.2 ∈ ["pass"; "fail"; "skip"; "unsupported"].
Definition ran (s : Stats) (v vs : list (string * string)) (p : Probe) : Prop :=
  Forall known_status vs ∧ ∃ l, fine Ledger_empty l (after vs s) (v ++ vs) p.
Lemma ran_cons id s v vs status p : known_status (id, status) → ran (tally status s) (v ++ [(id, status)]) vs p → ran s v ((id, status) :: vs) p.
Proof. intros Hst [Hvs (l & Hl)]. split; [by constructor|]. exists l. by rewrite <-app_assoc in Hl. Qed.

(** The letters not seen before, each once. *)
Definition chosen (cases : string) (seen letters : list ascii) : Prop :=
  NoDup letters ∧ ∀ c, c ∈ letters ↔ c ∈ String.list_ascii_of_string cases ∧ c ≠ ","%char ∧ c ∉ seen.
Lemma legacy_cases_ok o cases : ∀ seen l s v p, fine Ledger_empty l s v p →
  wpf (legacy_cases kernel strerror fuel o cases seen) p (λ _ p', ∃ vs letters, ran s v vs p' ∧ vs.*1 = (λ c, String c EmptyString) <$> letters ∧ chosen cases seen letters).
Proof.
  induction cases as [|c cases IH]; intros seen l s v p Hp; cbn [legacy_cases].
  { apply wp_ret. exists [], []. split; [|split; [done|]]; [split; [done|]; exists l; by rewrite app_nil_r|]. split; [constructor|]. set_solver. }
  destruct (Ascii.eqb c "," || bool_decide (c ∈ seen)) eqn:Hskip.
  - eapply wp_mono; [eapply IH; exact Hp| |done]. cbn beta. intros _ p1 (vs & letters & Hran & Hids & Hnd & Hin). exists vs, letters. split; [done|]. split; [done|].
    split; [done|]. intros d. rewrite Hin. cbn [String.list_ascii_of_string]. rewrite elem_of_cons. split; [tauto|]. intros ([->|] & Hd & Hs); [|tauto].
    apply orb_true_iff in Hskip as [->%Ascii.eqb_eq|Hsk%bool_decide_eq_true]; done.
  - apply orb_false_iff in Hskip as [Hc%Ascii.eqb_neq Hs%bool_decide_eq_false]. first_by LegacyCase_ok. intros _ p1 (l1 & status & Hst & Hp1).
    eapply wp_mono; [eapply IH; exact Hp1| |done]. cbn beta. intros _ p2 (vs & letters & Hran & Hids & Hnd & Hin).
    exists ((String c EmptyString, status) :: vs), (c :: letters). split; [by apply ran_cons|]. split; [cbn; by rewrite Hids|].
    split; [constructor; [rewrite Hin; set_solver|done]|]. intros d. cbn [String.list_ascii_of_string]. rewrite !elem_of_cons, Hin.
    destruct (decide (d = c)) as [->|]; set_solver.
Qed.

Definition exit_status (vs : list (string * string)) : Z :=
  if bool_decide ("fail" ∈ vs.*2) then 1 else if bool_decide ("pass" ∈ vs.*2) then 0 else 3.
Lemma after_counts vs : ∀ s, 0 ≤ failed s → 0 ≤ passed s →
  (failed (after vs s) = 0 ↔ failed s = 0 ∧ "fail" ∉ vs.*2) ∧ (passed (after vs s) = 0 ↔ passed s = 0 ∧ "pass" ∉ vs.*2).
Proof.
  induction vs as [|[id status] vs IH]; intros s Hf Hp; [set_solver|]. cbn. rewrite !not_elem_of_cons.
  assert (failed (tally status s) = (if String.eqb status "fail" then failed s + 1 else failed s) ∧
    passed (tally status s) = (if String.eqb status "pass" then passed s + 1 else passed s)) as [Ef Ep].
  { unfold tally. destruct (String.eqb_spec status "pass") as [->|]; [done|]. by destruct (String.eqb status "fail"). }
  destruct (IH (tally status s)) as [If Ip]; [rewrite Ef; by destruct (String.eqb status "fail"); lia|rewrite Ep; by destruct (String.eqb status "pass"); lia|].
  rewrite Ef in If. rewrite Ep in Ip. change (foldl _ (tally status s) vs) with (after vs (tally status s)). rewrite If, Ip.
  split; [destruct (String.eqb_spec status "fail") as [->|]|destruct (String.eqb_spec status "pass") as [->|]]; split; intros; destruct_and?; split_and?; (done || lia).
Qed.
Lemma summary_ok vs l v p : fine Ledger_empty l (after vs Stats_new) v p → wpf summary p (λ status p', status = exit_status vs ∧ fine Ledger_empty l (after vs Stats_new) v p').
Proof.
  intros Hp. unfold summary. apply wp_bind, wp_get. eapply wp_first; [eapply steady_Write; [reflexivity|done|exact Hp]|]. cbn beta. intros _ p1 Hp1. apply wp_ret.
  split; [|done]. rewrite (f_stats _ _ _ _ _ Hp). destruct (after_counts vs Stats_new) as [Hf Hpass]; [done|done|]. unfold exit_status.
  destruct (Z.eqb_spec (failed (after vs Stats_new)) 0) as [E|E]; cbn [negb].
  - rewrite bool_decide_false by tauto. destruct (Z.eqb_spec (passed (after vs Stats_new)) 0) as [E'|E']; cbn [negb].
    + by rewrite bool_decide_false by tauto.
    + rewrite bool_decide_true; [done|]. destruct (decide ("pass" ∈ vs.*2)); [done|]. destruct E'. by apply Hpass.
  - rewrite bool_decide_true; [done|]. destruct (decide ("fail" ∈ vs.*2)); [done|]. destruct E. by apply Hf.
Qed.

(** The backends that may be chosen, and the cases a backend has. *)
Definition backend_for (o : Options) (backend : string) : Prop :=
  if String.eqb (o_backend o) "auto" then backend = "dma-heap" ∨ backend = (if o_mask o =? 0 then "unavailable" else "legacy-ion")
  else backend = o_backend o.
Definition cases_of (o : Options) (backend : string) (ids : list string) : Prop :=
  if String.eqb backend "unavailable" then ids = ["discovery"]
  else if String.eqb backend "legacy-ion" then
    ∃ letters, ids = (λ c, String c EmptyString) <$> letters ∧ chosen (if String.eqb (o_cases o) EmptyString then "ABCDEF" else o_cases o) [] letters
  else o_cases o = EmptyString ∧ ids = ["direct"; "mapping"].
(** All cases were reported, or letters were given to a backend without them. *)
Definition reported (o : Options) (status : Z) (vs : list (string * string)) : Prop := ∃ backend, backend_for o backend ∧
  ((cases_of o backend vs.*1 ∧ Forall known_status vs ∧ status = exit_status vs) ∨
   (backend ≠ "unavailable" ∧ backend ≠ "legacy-ion" ∧ o_cases o ≠ EmptyString ∧ vs = [] ∧ status = 2)).

Lemma choose_backend_ok o x l s v p : fine x l s v p → wpf (choose_backend kernel o) p (λ backend p', backend_for o backend ∧ fine x l s v p').
Proof.
  intros Hp. unfold choose_backend, backend_for. destruct (String.eqb (o_backend o) "auto"); [|by apply wp_ret].
  first_by steady_Heaps. intros heaps p1 Hp1. apply wp_ret. split; [|done]. case_bool_decide; [by left|right]. by destruct (o_mask o =? 0).
Qed.
Lemma direct_cases_ok o backend l v p : fine Ledger_empty l Stats_new v p →
  wpf (_ ← DirectCase kernel strerror fuel o backend false; _ ← DirectCase kernel strerror fuel o backend true; summary) p
    (λ status p', ∃ l s vs, fine Ledger_empty l s (v ++ vs) p' ∧ vs.*1 = ["direct"; "mapping"] ∧ Forall known_status vs ∧ status = exit_status vs).
Proof.
  intros Hp. first_by DirectCase_ok. intros _ p1 (st1 & H1 & Hp1). first_by DirectCase_ok. intros _ p2 (st2 & H2 & Hp2).
  eapply wp_mono; [apply (summary_ok [("direct", st1); ("mapping", st2)]); exact Hp2| |done]. cbn beta. intros status p3 [-> Hp3].
  eexists _, _, _. split; [rewrite <-app_assoc in Hp3; exact Hp3|]. split; [done|]. split; [by apply Forall_cons; split; [|apply Forall_singleton]|done].
Qed.
Lemma run_cases_ok o l s v p : fine Ledger_empty l s v p →
  wpf (run_cases kernel strerror fuel o) p (λ status p', ∃ l s vs, fine Ledger_empty l s (v ++ vs) p' ∧ reported o status vs).
Proof.
  intros Hp. unfold run_cases. first_by choose_backend_ok. intros backend p1 [Hbk Hp1].
  eapply wp_first; [eapply steady_Write; [reflexivity|done|exact Hp1]|]. cbn beta. intros _ p2 Hp2.
  destruct (String.eqb backend "unavailable") eqn:Hu.
  { first_by Finished_ok. intros _ p3 Hp3. apply wp_ret. eexists _, _, _. split; [exact Hp3|]. exists backend. split; [done|]. left.
    unfold cases_of. rewrite Hu. split; [done|]. split; [|done]. apply Forall_singleton. unfold known_status. clear. set_solver. }
  first_by on_stats_ok. intros _ p3 Hp3. destruct (String.eqb backend "legacy-ion") eqn:Hl.
  { first_by legacy_cases_ok. intros _ p4 (vs & letters & [Hst (l4 & Hp4)] & Hids & Hch). eapply wp_mono; [eapply summary_ok; exact Hp4| |done].
    cbn beta. intros status p5 [-> Hp5]. eexists _, _, vs. split; [exact Hp5|]. exists backend. split; [done|]. left. unfold cases_of. rewrite Hu, Hl. eauto. }
  destruct (String.eqb_spec (o_cases o) EmptyString) as [Hc|Hc]; cbn [negb].
  - eapply wp_mono; [eapply direct_cases_ok; exact Hp3| |done]. cbn beta. intros status p4 (l4 & s4 & vs & Hp4 & Hids & Hst & ->).
    eexists _, _, vs. split; [exact Hp4|]. exists backend. split; [done|]. left. unfold cases_of. by rewrite Hu, Hl.
  - apply wp_ret. eexists _, _, []. rewrite app_nil_r. split; [exact Hp3|]. exists backend. split; [done|]. right.
    apply String.eqb_neq in Hu, Hl. done.
Qed.

Definition run_reported (args : list string) (status : Z) (vs : list (string * string)) : Prop :=
  match parse_args args with
  | inr o => if String.eqb (o_command o) "inspect" then vs = [] ∧ status ∈ [0; 2] else reported o status vs ∨ (o_outfile o ≠ EmptyString ∧ vs = [] ∧ status = 2)
  | inl st => vs = [] ∧ status = st
  end.
Lemma fine_new : fine Ledger_empty Legacy_new Stats_new [] Probe_new.
Proof. by split. Qed.
Lemma Run_ok args :
  wpf (Run kernel strerror target fuel args) Probe_new (λ status p', ∃ l s vs, fine Ledger_empty l s vs p' ∧ run_reported args status vs).
Proof.
  unfold Run, run_reported. pose proof fine_new as Hp. destruct (parse_args args) as [st|o]; [apply wp_ret; eauto 10|].
  assert (steady (open_output kernel o)) as Hopen by (unfold open_output; steady).
  apply (wp_first _ _ _ (λ opened p', (opened = false → o_outfile o ≠ EmptyString) ∧ fine Ledger_empty Legacy_new Stats_new [] p')).
  { unfold open_output in *. destruct (String.eqb_spec (o_outfile o) EmptyString); [by apply wp_ret|].
    eapply wp_mono; [by apply Hopen| |done]. done. }
  intros opened p1 [Ho Hp1]. destruct opened.
  - first_by steady_Inspect. intros _ p2 Hp2. destruct (String.eqb (o_command o) "inspect").
    + apply wp_ret. eexists _, _, _. split; [exact Hp2|]. split; [done|]. clear. set_solver.
    + eapply wp_mono; [eapply run_cases_ok; exact Hp2| |done]. cbn beta. intros status p3 (l3 & s3 & vs & Hp3 & Hr). eauto 10.
  - apply wp_ret. eexists _, _, _. split; [exact Hp1|]. destruct (String.eqb (o_command o) "inspect"); [split; [done|]; clear; set_solver|]. right. auto.
Qed.
End props.
