(* ===== verification/ProbeRun.v ===== *)
(** * Runs of the stand-alone probe

    The calls a run of Probe.v makes, and the two properties of whole runs: that it
    ends with everything given back, and what it reports. *)
From S2P Require Import Prelude CString HookPolicy Outcome Probe ProbeJson ProbeProps.
#[local] Open Scope string_scope.
#[local] Open Scope list_scope.
#[local] Open Scope Z_scope.

(** ** The calls of a run *)

(** What a run with options [o] may ask for: without the command [run] only looks;
    with it buffers of the size that was chosen. *)
Definition allowed (o : Options) (c : Call) : bool :=
  let run := String.eqb (o_command o) "run" in
  let size len := run && (len =? o_bytes o) && (0 <? len) && (len <=? kMaximumBytes) in
  match c with
  | CStat _ | CAccess _ | COpendir _ | CClosedir | CUname | CGetuid | CPagesize | CProperty _ => true
  | CFopen path => String.eqb path (o_outfile o)
  | CIonAlloc _ len mask | CIonNewAlloc _ len mask => size len && (mask =? o_mask o)
  | CHeapAlloc _ len | CMmap len _ => size len
  | _ => run
  end.

Definition size_ok (o : Options) : Prop := 0 < o_bytes o ≤ kMaximumBytes.
Lemma digit_val_nonneg c d : digit_val c = Some d → 0 ≤ d.
Proof. destruct c as [[] [] [] [] [] [] [] []]; vm_compute; intros [= <-]; discriminate. Qed.
Lemma scan_digits_nonneg base s : 0 ≤ base → ∀ acc n, 0 ≤ acc → 0 ≤ (scan_digits base s acc n).1.1.
Proof.
  intros Hb. induction s as [|c s IH]; intros acc n Ha; cbn; [done|]. destruct (digit_val c) as [d|] eqn:Hd; [|done].
  apply digit_val_nonneg in Hd. destruct (d <? base); [|done]. apply IH. nia.
Qed.
Lemma Integer_nonneg text n : Integer text = Some n → 0 ≤ n.
Proof.
  unfold Integer, strtoull_0. destruct (String.eqb text EmptyString || String.prefix "-" text); [done|]. destruct (scan_sign _) as [neg r]. cbv zeta.
  match goal with |- context [scan_digits ?b] => set (base := b) end. assert (0 ≤ base) as Hbase by (unfold base; repeat case_match; lia).
  pose proof (scan_digits_nonneg base (scan_0x r) Hbase 0 0 ltac:(lia)) as Hv. destruct (scan_digits _ _ _ _) as [[v k] rest]. cbn in Hv.
  destruct (k =? 0)%nat; [case_match; intros; simplify_eq; lia|]. destruct (v >? SIZE_MAX); [done|]. destruct rest; [|done]. intros [= <-].
  destruct neg; [apply u64_range|done].
Qed.
Lemma parse_options_size args : ∀ o o', size_ok o → parse_options args o = inr o' → size_ok o' ∧ o_command o' = o_command o.
Proof.
  assert (∀ n args, (length args ≤ n)%nat → ∀ o o', size_ok o → parse_options args o = inr o' → size_ok o' ∧ o_command o' = o_command o) as H; [|by apply (H (length args))].
  induction n as [|n IH]; intros [|key [|value rest]] Hn o o' Ho; cbn [parse_options length] in *; try (intros [= <-]; done); try lia.
  { by destruct (String.eqb key "--help"). }
  assert (∀ o1, size_ok o1 → o_command o1 = o_command o → parse_options rest o1 = inr o' → size_ok o' ∧ o_command o' = o_command o) as Hrest.
  { intros o1 H1 Hc Hp. destruct (IH rest ltac:(lia) o1 o' H1 Hp) as [? ?]. split; [done|congruence]. }
  intros Hp. repeat case_match; simplify_eq; (refine (Hrest _ _ _ Hp); [try exact Ho|reflexivity]).
  match goal with H : Integer value = Some _ |- _ => apply Integer_nonneg in H end. unfold size_ok. cbn.
  rewrite Z.gtb_ltb in *. bool_hyps. lia.
Qed.
Lemma parse_args_ok args o : parse_args args = inr o → size_ok o ∧ (o_command o = "inspect" ∨ o_command o = "run").
Proof.
  unfold parse_args. cbv zeta. destruct (match args with [] => false | _ => _ end); [done|]. destruct (match args with [] => _ | _ => _ end) as [command rest].
  destruct (negb (String.eqb command "inspect") && negb (String.eqb command "run")) eqn:Hc; [done|].
  destruct (parse_options rest _) as [|o1] eqn:Ho; [done|]. intros H. assert (o1 = o) as -> by (revert H; repeat case_match; congruence).
  apply parse_options_size in Ho as [Hs Ho]; [|by vm_compute]. split; [done|]. rewrite Ho. cbn.
  apply andb_false_iff in Hc as [Hc%negb_false_iff%String.eqb_eq|Hc%negb_false_iff%String.eqb_eq]; auto.
Qed.

Section only.
Context (kernel : list (Call * Answer) → Call → Answer) (strerror : Z → string) (target : Target) (fuel : nat) (o : Options).

(** All calls of a program are allowed. *)
Definition all_allowed (p : Probe) : Prop := Forall (λ x, allowed o x.1 = true) (p_log p).
Definition only {A} (m : prog Probe A) : Prop := ∀ p, all_allowed p → match m p with Ret _ p' | Err p' => all_allowed p' | Fault _ => True end.
Lemma only_bind {A B} (m : prog Probe A) (k : A → prog Probe B) : only m → (∀ a, only (k a)) → only (m ≫= k).
Proof. intros Hm Hk p Hp. specialize (Hm p Hp). unfold mbind, prog_bind. destruct (m p) as [a p'| |]; [by apply Hk|done..]. Qed.
Lemma only_call c : allowed o c = true → only (call kernel c).
Proof. intros Hc p Hp. by constructor. Qed.
Lemma only_modify f : (∀ p, p_log (f p) = p_log p) → only (modify f).
Proof. intros Hf p Hp. unfold modify, all_allowed. by rewrite Hf. Qed.
Lemma only_returns m : only m → only (returns m).
Proof. intros Hm p Hp. specialize (Hm p Hp). unfold returns. by destruct (m p). Qed.
Lemma only_finally m d : only m → only d → only (finally m d).
Proof. intros Hm Hd p Hp. specialize (Hm p Hp). unfold finally. destruct (m p); [by apply Hd..|done]. Qed.
Create HintDb only discriminated.
Ltac only_step :=
  lazymatch goal with
  | |- ∀ _, only _ => intros ?
  | |- only (_ ≫= _) => apply only_bind; [|intros ?]
  | |- only (call _ _) => apply only_call
  | |- only (modify _) => apply only_modify; intros ?; reflexivity
  | |- only (mret _) => by intros ? ?
  | |- only get => by intros ? ?
  | |- only fail => by intros ? ?
  | |- only (undef _) => by intros ? ?
  | |- only (returns _) => apply only_returns
  | |- only (finally _ _) => apply only_finally
  | |- only (if ?b then _ else _) => destruct b
  | |- only (match ?x with _ => _ end) => destruct x
  | |- only (let _ := _ in _) => cbv zeta
  | |- only _ => first [solve [auto 1 with only]|progress unfold get_errno, set_errno, Write, on_stats, on_legacy, legacy, Finished, Failure, abandon, end_case, attempt, errno_or_EIO, summary]
  end.
Ltac calls := repeat (only_step; cbn beta).

Lemma only_Capability name path directory : only (Capability kernel name path directory).
Proof. unfold Capability. calls; done. Qed.
Lemma only_heap_nodes names : only (heap_nodes kernel names).
Proof. induction names as [|n names IH]; cbn [heap_nodes]; calls; done. Qed.
Hint Resolve only_Capability only_heap_nodes : only.
Lemma only_Heaps : only (Heaps kernel).
Proof. unfold Heaps. calls; done. Qed.
Lemma only_heap_capabilities heaps : only (heap_capabilities kernel heaps).
Proof. induction heaps as [|h heaps IH]; cbn [heap_capabilities]; calls; done. Qed.
Hint Resolve only_Heaps only_heap_capabilities : only.
Lemma only_Inspect : only (Inspect kernel target).
Proof. unfold Inspect, target_members. calls; done. Qed.
Lemma only_open_output : only (open_output kernel o).
Proof. unfold open_output. calls. cbn. apply String.eqb_refl. Qed.
Hint Resolve only_Inspect only_open_output : only.

Context (Hrun : o_command o = "run") (Hsize : size_ok o).
Lemma run_allowed : String.eqb (o_command o) "run" = true.
Proof. by rewrite Hrun. Qed.
Lemma size_allowed : (o_bytes o =? o_bytes o) && (0 <? o_bytes o) && (o_bytes o <=? kMaximumBytes) = true.
Proof. destruct Hsize. rewrite Z.eqb_refl. cbn [andb]. apply andb_true_iff. split; [by apply Z.ltb_lt|by apply Z.leb_le]. Qed.
Ltac only_run := calls; unfold allowed; rewrite ?run_allowed; cbn [andb]; rewrite ?Z.eqb_refl; rewrite ?size_allowed; try done; pose proof size_allowed; rewrite ?Z.eqb_refl in *; bool_hyps; by rewrite ?andb_true_iff, ?Z.ltb_lt, ?Z.leb_le.

Lemma only_read_loop n fd : ∀ text, only (read_loop kernel n fd text).
Proof. induction n as [|n IH]; intros text; cbn [read_loop]; unfold read; only_run. Qed.
Hint Resolve only_read_loop : only.
Lemma only_ReadFile path : only (ReadFile kernel fuel path).
Proof. unfold ReadFile, read. only_run. Qed.
Hint Resolve only_ReadFile : only.
Lemma only_Sample id stage rc error fd handle : only (Sample kernel fuel o id stage rc error fd handle).
Proof. unfold Sample, ClockNs. only_run. Qed.
Lemma only_close_all l : only (close_all kernel l).
Proof. induction l as [|fd l IH]; cbn [close_all]; only_run. Qed.
Lemma only_free_all c l : only (free_all kernel c l).
Proof. induction l as [|h l IH]; cbn [free_all]; only_run. Qed.
Hint Resolve only_Sample only_close_all only_free_all : only.
Lemma only_LegacyCase id : only (LegacyCase kernel strerror fuel o id).
Proof.
  unfold LegacyCase, LegacyCase_body, legacy_alloc, case_steps, case_B, case_C, case_E, case_F, share, release, close_fd, Cleanup. only_run.
Qed.
Lemma only_DirectCase backend mapping : only (DirectCase kernel strerror fuel o backend mapping).
Proof. unfold DirectCase, direct_alloc, direct_use. destruct (String.eqb backend "dma-heap"); only_run. Qed.
Hint Resolve only_LegacyCase only_DirectCase : only.
Lemma only_legacy_cases cases : ∀ seen, only (legacy_cases kernel strerror fuel o cases seen).
Proof. induction cases as [|c cases IH]; intros seen; cbn [legacy_cases]; only_run. Qed.
Hint Resolve only_legacy_cases : only.
Lemma only_run_cases : only (run_cases kernel strerror fuel o).
Proof. unfold run_cases, choose_backend. only_run. Qed.
End only.

(** A negative number passes the check of the options when a space comes first. *)
Lemma Integer_after_space : Integer " -18446744073709551615" = Some 1 ∧ Integer "-18446744073709551615" = None.
Proof. split; vm_compute; reflexivity. Qed.

(** ** Whole runs *)

Lemma Run_allowed kernel strerror target fuel args status p : Run kernel strerror target fuel args Probe_new = Ret status p →
  match parse_args args with inr o => all_allowed o p | inl _ => p_log p = [] end.
Proof.
  unfold Run. destruct (parse_args args) as [st|o] eqn:Hargs; [by intros [= _ <-]|]. apply parse_args_ok in Hargs as [Hs Hc]. intros Hr.
  assert (only o (opened ← open_output kernel o; if opened : bool then _ ← Inspect kernel target; if String.eqb (o_command o) "inspect" then mret 0 else run_cases kernel strerror fuel o else mret 2)) as Ho.
  { apply only_bind; [apply only_open_output|intros []; [|by intros ? ?]]. apply only_bind; [apply only_Inspect|intros _].
    destruct (String.eqb_spec (o_command o) "inspect") as [|Hne]; [by intros ? ?|]. destruct Hc as [Hc|Hc]; [done|]. by apply only_run_cases. }
  specialize (Ho Probe_new). rewrite Hr in Ho. apply Ho. constructor.
Qed.

(** C24. Whatever the kernel answers, as long as it does not interrupt the same [read]
    for ever, the probe ends, and it has asked to give back everything it got: each
    descriptor and directory it opened or was handed was closed, each mapping
    unmapped, each ION handle freed or its client closed, on every path through every
    case.  It made only the calls its options allow: [inspect] opens and allocates
    nothing, [run] asks for buffers of the chosen size, at most 64 MiB, and with the
    chosen mask, and bad arguments lead to no call at all. *)
Theorem probe_leaves_nothing kernel strerror target b fuel args :
  patient kernel b → kMaxEvidence * (Z.of_nat b + 1) ≤ Z.of_nat fuel →
  ∃ status p, Run kernel strerror target fuel args Probe_new = Ret status p ∧ ledger (p_log p) = Ledger_empty ∧
    match parse_args args with inr o => all_allowed o p | inl _ => p_log p = [] end.
Proof.
  intros Hb Hfuel. pose proof (Run_ok kernel strerror target fuel b Hb Hfuel args) as Hr. unfold wp in Hr.
  destruct (Run _ _ _ _ _ _) as [status p| |] eqn:E; [|done..]. destruct Hr as (l & s & vs & Hp & _). exists status, p. split; [done|].
  split; [apply within_empty, Hp|by eapply Run_allowed].
Qed.

(** C30. Under the same condition every line the probe writes is a JSON object that a
    reader gives back, and the lines that end cases are as they should be: one for
    each case of the backend, with a legacy ION case for each letter that was asked
    for, none twice, and the exit status says whether one failed, else whether one
    passed. *)
Theorem probe_reports_cases kernel strerror target b fuel args :
  patient kernel b → kMaxEvidence * (Z.of_nat b + 1) ≤ Z.of_nat fuel →
  ∃ status p, Run kernel strerror target fuel args Probe_new = Ret status p ∧
    Forall readable (p_output p) ∧ run_reported args status (verdicts (p_output p)).
Proof.
  intros Hb Hfuel. pose proof (Run_ok kernel strerror target fuel b Hb Hfuel args) as Hr. unfold wp in Hr.
  destruct (Run _ _ _ _ _ _) as [status p| |] eqn:E; [|done..]. destruct Hr as (l & s & vs & [_ _ _ Hv Hlines] & Hrep). exists status, p. subst vs. done.
Qed.

(** ** A kernel *)

(** Every call succeeds but late requests for buffers and the unmapping. *)
Definition some_kernel (log : list (Call * Answer)) (c : Call) : Answer :=
  let n := Z.of_nat (length log) in
  let ok rc val := mkAnswer rc 0 val 0 EmptyString [] in
  match c with
  | COpen _ _ => ok (3 + n) 0
  | CIonShare _ _ => ok 0 (100 + n)
  | CMmap _ _ => ok 4096 0
  | CMunmap _ _ => mkAnswer (-1) 22 0 0 EmptyString []
  | CRead _ _ => mkAnswer 0 0 0 0 (match log with (CRead _ _, _) :: _ => EmptyString | _ => "ino: 77" end) []
  | CIonAlloc _ _ _ => if 50 <? n then mkAnswer (-1) 12 0 0 EmptyString [] else ok 0 n
  | _ => ok 0 n
  end.
Definition some_args : list string := ["run"; "--backend"; "legacy-ion"; "--ion-heap-mask"; "0x10"; "--cases"; "E,A,E,B"].
Definition some_status (m : outcome Probe Z) : option (Z * list (string * string)) :=
  match m with Ret status p => Some (status, verdicts (p_output p)) | _ => None end.
Lemma some_kernel_patient : patient some_kernel 0.
Proof. intros log fd n _. vm_compute. discriminate. Qed.

Lemma probe_leaves_nothing_witness : some_status (Run some_kernel (λ _, "error") Android (Z.to_nat 8192) some_args Probe_new) =
    Some (1, [("E", "fail"); ("A", "pass"); ("B", "fail")]) ∧
  ∃ status p, Run some_kernel (λ _, "error") Android (Z.to_nat 8192) some_args Probe_new = Ret status p ∧ ledger (p_log p) = Ledger_empty ∧
    match parse_args some_args with inr o => all_allowed o p | inl _ => p_log p = [] end.
Proof.
  split; [vm_compute; reflexivity|]. apply (probe_leaves_nothing some_kernel (λ _, "error") Android 0 (Z.to_nat 8192) some_args); [apply some_kernel_patient|].
  vm_compute. discriminate.
Defined.
Lemma probe_reports_cases_witness : ∃ status p, Run some_kernel (λ _, "error") Android (Z.to_nat 8192) some_args Probe_new = Ret status p ∧
  Forall readable (p_output p) ∧ run_reported some_args status (verdicts (p_output p)).
Proof.
  apply (probe_reports_cases some_kernel (λ _, "error") Android 0 (Z.to_nat 8192) some_args); [apply some_kernel_patient|].
  vm_compute. discriminate.
Defined.
